(* ===== verification/_CoqProject ===== *)
-Q . S2P
Prelude.v
Float64.v
Heap.v
Customer.v
Routing.v
Snapshot.v
Messages.v
Naming.v
Reconciler.v
ControllerTypes.v
Controller.v
ControllerOpen.v
ControllerSnapshots.v
ControllerSpec.v
ControllerInv.v
ControllerRecovery.v
ControllerRun.v
ControllerRefine.v
ControllerTheorems.v
ControllerScenario.v
Outbox.v
OutboxIndex.v
OutboxMemory.v
OutboxStore.v
OutboxComplete.v
OutboxLoad.v
OutboxTheorems.v
OutboxScenario.v
Publisher.v
PublisherInv.v
PublisherRun.v
PublisherTheorems.v
PublisherScenario.v
Async.v
AsyncRun.v
AsyncInv.v
AsyncSteps.v
AsyncTheorems.v
AsyncScenario.v
Policy.v
PolicyAggregate.v
PolicyEngine.v
PolicyDecide.v
PolicyTheorems.v
PolicyScenario.v
Lane.v
LaneInv.v
LaneTheorems.v
LaneScenario.v
Subscriber.v
SubscriberInv.v
SubscriberClose.v
SubscriberTheorems.v
SubscriberScenario.v
OperationStore.v
OperationStoreTheorems.v
Wire.v
WireTheorems.v
WireScenario.v
Broker0.v
Broker0Inbox.v
Broker0Theorems.v
Broker0Command.v
Broker0CommandTheorems.v
Orchestrator.v
OrchestratorTheorems.v
OrchestratorScenario.v
Broker0Scenario.v
Cloud.v
CloudTheorems.v
CloudScenario.v
Config.v
Runtime.v
ScaleIn.v
RuntimeResources.v
RuntimeTheorems.v
RuntimeScenario.v
Participant.v
ParticipantTheorems.v
ParticipantScenario.v
