(* ===== verification/Prelude.v ===== *)
(** * Solace workload balancer: a verification library

    The program moves the traffic of scaling groups between message brokers
    without losing or reordering messages.  A policy engine (src/policy)
    recommends membership changes from broker telemetry; a transition controller
    (src/controller) carries each change through the phases PREPARE, PAUSE,
    DRAIN, COMMIT and ACTIVATE with a durable state document; membership
    snapshots (src/control) carry the result to the participants, whose
    reconcilers keep the newest; publishers (src/shim/publisher) accept messages
    into a durable outbox (src/outbox), route them with the customer's hash
    (src/customer, src/routing) under the installed membership and publish them;
    subscribers (src/shim/subscriber) move their consumers from epoch to epoch
    and hand deliveries to the application one business key at a time.  Broker 0
    (src/broker0) carries commands, acknowledgements, telemetry and snapshots
    between the controller and the participants, at least once and in durable
    operations.  The controller process (src/runtime) puts these together from a
    validated configuration (src/config): it bootstraps memberships, publishes
    commands, turns recommendations into transitions, creates, fences and removes
    the queues of epochs over SEMP and drives the controller.  The cloud
    lifecycle (src/cloud) creates and deletes the brokers of a qualification plan
    under a durable journal.

    ** Files

    The parts, with the files that model them and the files that prove them:
    - shared: this file (Go errors and results, machine integers, times, strings,
      UTF-8, sorting, tactics), Float64 (IEEE 754 binary64), Heap
      (container/heap, for the outbox index);
    - customer/customer.go: Customer; routing/membership.go: Routing;
    - control/snapshot.go: Snapshot; control/messages.go and bootstrap.go:
      Messages; their JSON form and strict parsers: Wire, WireTheorems,
      WireScenario; control/naming.go: Naming; control/reconciler.go: Reconciler;
    - controller/types.go: ControllerTypes; controller/controller.go:
      Controller ([Begin], [Acknowledge], [Observe], [Reconcile],
      [RequestRollback] and the calls under them); [Open] and controller/store.go:
      ControllerOpen; the abstract protocol: ControllerSpec; its invariant:
      ControllerInv; published snapshots: ControllerSnapshots;
      recovery: ControllerRecovery; the program logic of one operation:
      ControllerRun; refinement: ControllerRefine; theorems: ControllerTheorems;
      a concrete transition: ControllerScenario;
    - outbox/outbox.go: Outbox; the lane index: OutboxIndex, OutboxMemory; the
      store with its database: OutboxStore, OutboxComplete;
      [EligibleFor] and [Open]: OutboxLoad; runs and theorems:
      OutboxTheorems, OutboxScenario;
    - shim/publisher/publisher.go and fail_closed.go: Publisher; its invariant:
      PublisherInv; runs and [Dispatch]: PublisherRun; theorems:
      PublisherTheorems, PublisherScenario;
    - shim/publisher/async_dispatcher.go: Async (the regions under one lock, the
      goroutines as a [System]); who answers for an attempt and the
      interleaving: AsyncRun; its invariant: AsyncInv, AsyncSteps; theorems:
      AsyncTheorems, AsyncScenario;
    - shim/subscriber/subscriber.go: Lane ([Handle], [Retry], [Release] on the
      business-key lanes) with the lane invariant in LaneInv,
      the interleaving and theorems in LaneTheorems and LaneScenario;
      Subscriber (the consumer lifecycle) with its ownership invariant in
      SubscriberInv, the operations against it in SubscriberClose,
      theorems in SubscriberTheorems and SubscriberScenario;
    - broker0/operation_store.go: OperationStore (the document, the file
      operations of a save and what a crash leaves), OperationStoreTheorems (the
      interface [OperationStoreLaws] that the inboxes rely on, and its instance);
    - broker0/envelope.go, transport.go and publisher.go: Broker0; inbox.go:
      Broker0Inbox, with theorems in Broker0Theorems; participant.go and
      snapshot_rpc.go: Broker0Command, with theorems in Broker0CommandTheorems;
      a run of both inboxes: Broker0Scenario; orchestrator.go: Orchestrator,
      OrchestratorTheorems, OrchestratorScenario;
    - cloud/types.go, journal.go, lifecycle.go and the guards of client.go: Cloud
      (programs that ask the API, the clock and the journal), CloudTheorems
      (processes, threads and crashes), CloudScenario;
    - policy/types.go: Policy; policy/aggregate.go: PolicyAggregate;
      policy/engine.go: PolicyEngine; proofs: PolicyDecide;
      theorems: PolicyTheorems, PolicyScenario;
    - config/config.go: Config;
    - runtime/production.go, runtime.go and parts of adapters.go and assembly.go:
      Runtime; runtime/scale_in.go: ScaleIn; runtime/resources.go,
      managed_subscriptions.go, drain_monitor.go and the queue bindings of
      assembly.go: RuntimeResources; theorems: RuntimeTheorems; the process at
      the states of ControllerScenario and on concrete configurations:
      RuntimeScenario;
    - runtime/participant.go and [WaitQuiescent] of the asynchronous dispatcher:
      Participant (appliers, phases, registrations, command executors);
      the processes around the shims and theorems: ParticipantTheorems,
      ParticipantScenario.

    ** How state and effects are modelled

    A Go struct is a record with its fields in order (a prefix tells records
    apart), a map a [gmap], a slice a list, [uint64] and [int] a [Z] with the
    wrap-around written out ([u64], [i64]), [time.Time] a number of nanoseconds,
    an error a [gerror] whose wrapping is kept and whose formatted values are
    not.  A function that may fail returns [result]; a method that changes its
    receiver takes and returns it.  Code that holds one lock throughout is one
    function on the state.  Where a lock is given up, an environment runs
    arbitrary other operations: the foreign calls of the controller's [Env], the
    [env_others] and [env_readers] of the publisher's [Env]; the goroutines of
    the asynchronous dispatcher are interleaved region by region by a step
    relation ([async_step]), those of the subscriber's lanes by the step function
    of Lane.v.  The subscriber's lifecycle runs under one lock and is written in
    a state monad; each call to a native consumer is recorded in a trace with an
    arbitrary answer.  Go's map iteration order is a parameter ([RangeOrder])
    where it can be observed.  Loops of the broker-0 channel that wait for the
    transport are driven by a script of what it delivers and answers, and append
    every call to a trace.  Brokers, publisher calls, clock, file system and
    database commits answer through such environments or through the class
    [Bolt]; SHA-256 ([Sha256]), URL parsing ([NetURL]), RFC 3339 texts
    ([TimeText]), the customer library and the payload encoder are parameters
    with the documented facts as class fields.  A JSON document is the tree its
    tokens denote ([payload]) or, for stored documents, the value it decodes to,
    with the bytes of strings replaced and the keys of maps merged as
    encoding/json does ([json_rec] of the outbox, [json_state] of the
    controller).  A command executor looks at the process at the moments of a
    timeline ([Moment]), between which the other goroutines take any steps.

    ** What the theorems show

    - Controller: every operation refines the abstract protocol of
      ControllerSpec under any answers and interference; every external call is
      justified by committed state; a transition that reached COMMIT never rolls
      back; [Open] accepts the document after any crash and resumes its
      transitions, given text in UTF-8 and no empty list of COMMIT requirements
      (which the code accepts but cannot reopen); each reported change
      increases a bounded measure; a drain is complete exactly on a common fresh
      zero window; published snapshots are valid and ordered.
    - Reconciler: the installed snapshot only advances, bootstrap does not
      depend on delivery order, the invariant excludes nil dereferences.
    - Routing and naming: rendezvous selection is the maximum and moves no other
      key; the canonical encoding is injective; where queue names collide.
    - Outbox: every operation refines its specification on the queue of records;
      no record is lost or altered; the index, the counters and the database
      agree; the heap walk returns what a scan returns; reopening restores.
      Callers do not use an event ID again (nor do they in the runs of the
      publisher, the dispatcher and the participants), and a database is reopened with
      limits that hold it and records in UTF-8; OutboxScenario shows what the
      code does otherwise.
    - Publisher: routed records follow published snapshots and the placement
      cache agrees with the routing function; memberships and batches are all or
      nothing, routing being due when the snapshot is ACTIVE and the outbox
      open; a dispatched message is the oldest of its key, in flight and of
      the installed open epoch.
    - Asynchronous dispatcher: unresolved attempts stay within the limits, each
      is carried by exactly one goroutine, channel or retry entry, and is the
      oldest of its ordering key; a quiescent status holds for as long as the
      group stays PAUSED.
    - Subscriber: deliveries of one business key reach the application one at a
      time and in order of arrival, no wakeup is lost and a retained delivery
      stops its key, as long as it is not settled before the [Handle] that
      retained it has finished; no consumer is lost whatever calls fail, unless a
      binding is added which a pending transition has prepared, when one is;
      sources
      are closed only behind activated successors; readiness means a covered and
      prepared transition; an ACTIVE snapshot leaves exactly the consumers of the
      current membership.
    - Operation store: a recorded operation stays recorded until its horizon ends,
      through failed writes, exits and power losses, and the store reopens.
    - Wire format: documents of valid values, within the size limit and with
      endpoints in UTF-8, read back; in accepted documents no object repeats an
      equal name.
    - Participants: a PAUSED command that a publisher has executed means that the
      group is quiet for as long as it stays PAUSED; a PREPARE or DRAIN command
      that a subscriber has executed means a reported and covered transition;
      a wait for a phase ends at the deadline of its command.
    - Broker-0 channel: deliveries are acknowledged only when their operation is
      durable, recorded operations are not applied again, commands settle in
      order, and with the controller in place a settled acknowledgement is in its
      state; what an orchestrator exposes is the snapshot its reconciler
      installed and the applier accepted, and it only advances between
      reconnections.
    - Cloud lifecycle: without an idempotency header a service is created at most
      once, behind a durable intent; deletes are for journaled services that were
      just verified; a clean [Cleanup] leaves every service marked as deleted,
      durably if it had anything to do or found a durable journal.
    - Policy: transitions are justified by complete telemetry and within the
      limits; pressure scale-outs rest on an unbroken window, and such a window
      does lead to a scale-out when nothing else forbids it (a running
      transition, the cooldown, the bounds, the inventory, the global limit);
      saturation is exact in floating point; saved
      state restores.
    - Controller process: the commands of a phase reach exactly its required
      participants and their acknowledgements complete it; bootstrap restores the
      durable memberships and creates missing ones once; cleanup deletes only
      drained and unreferenced queues; a scale-in choice is safe and passes its
      own verification; validated participants have passwords and principals of
      their own.
      An expired transition is never rolled back, and only the first participants
      of a group have their snapshot requests served.
    - The theorems of kind error, some of them concrete runs, show where the code
      falls short of its documentation.

    ** Fuel and bounds

    Loops are structural on their lists.  [chunks_fuel] has the length of the
    string, [FormatUint] the 20 digits of a [uint64], heap sifting the size of
    the heap (its lemmas show that this reaches the end), [notify_loop] the
    tickets from [serving] to [next] ([notify_loop_spec]).  The policy bounds
    assume that the sum of running transitions fits an [int]; the lane theorems
    hold for runs of fewer than 2^64 steps, in which no ticket counter wraps.

    ** Not modelled

    The tokens of JSON and YAML texts, the AMQP, SEMP and HTTP clients, the
    goroutines and timers of the processes, the assembly of participants and the
    commands are input and output.  Of the asynchronous dispatcher the waiting of
    [Close] and the lengths of timers are left out; of the subscriber the texts of
    readiness reasons and [BlockedError], which only formats; of the broker-0
    channel the pump goroutine of [DurableUpdateSubscriber]; of the controller
    process the concurrency of its components and the policy cycle's retry
    timing; of the participant processes the loops that start and stop the
    goroutines.  A turn of an orchestrator is one step, so a [Snapshot] read in the
    middle of a turn is not seen; one process runs one [Ensure] or [Cleanup] at a
    time; the poll of [waitForManagedQueueAbsent] is one call with an arbitrary
    answer; [acknowledge_command] of RuntimeTheorems joins a command to the group
    update of [Acknowledge], leaving out the transport in between.  Runs of the
    lanes ([reach]) have no early settlement and runs of the subscriber
    ([sreach]) satisfy [safe_add] and [calm]; the theorems say so, and
    LaneScenario and SubscriberScenario hold what happens otherwise.  Where the
    code joins several errors, the model keeps the first. *)

From Stdlib Require Import ZArith Ascii Lia.
From stdpp Require Import base gmap strings list sorting numbers option fin_maps.

#[local] Open Scope Z_scope.

(** ** Record update

    [r <| f := v |>] replaces one field of a record.  [Eta R] is the identity
    on [R] written with every projection, from which a setter is computed by
    abstracting the projection. *)
Class Eta (R : Type) := eta : R -> R.
Class Setter {R T : Type} (proj : R -> T) := setter : (T -> T) -> R -> R.

Ltac build_setter proj :=
  match type of proj with
  | ?R -> ?T =>
      let e := constr:(_ : Eta R) in
      let e' := eval cbv delta [eta] in e in
      let b := eval hnf in e' in
      match eval pattern proj in b with
      | ?body proj =>
          let s := constr:(fun (f : T -> T) (r : R) => body (fun r' => f (proj r')) r) in
          let s' := eval cbv beta in s in
          exact s'
      end
  end.

#[export] Hint Extern 1 (Setter ?proj) => build_setter proj : typeclass_instances.

Declare Scope record_scope.
Delimit Scope record_scope with record.
Notation "r '<|' proj ':=' v '|>'" := (setter (proj := proj) (fun _ => v) r)
  (at level 12, left associativity, proj at level 9) : record_scope.
#[global] Open Scope record_scope.

(** ** Go errors

    [ErrNew] is [errors.New] or [fmt.Errorf] without [%w]; [ErrWrap] is
    [fmt.Errorf] with one [%w].  Only the constant text of a format string is
    kept: the interpolated arguments carry no control flow. *)
Inductive gerror : Type :=
| ErrNew (msg : string)
| ErrWrap (msg : string) (inner : gerror).

#[export] Instance gerror_eq_dec : EqDecision gerror.
Proof. solve_decision. Defined.

(** [errors.Is], for a target that wraps nothing. *)
Fixpoint errors_Is (err target : gerror) : bool :=
  bool_decide (err = target) ||
  match err with
  | ErrNew _ => false
  | ErrWrap _ inner => errors_Is inner target
  end.

(** A Go function returning [(A, error)]. *)
Inductive result (A : Type) : Type :=
| Ok (a : A)
| Err (e : gerror).
Arguments Ok {A} a.
Arguments Err {A} e.

#[export] Instance result_eq_dec `{EqDecision A} : EqDecision (result A).
Proof. solve_decision. Defined.

Definition is_ok {A} (r : result A) : bool :=
  match r with Ok _ => true | Err _ => false end.

(** A Go function returning only [error]: [nil] is [Ok tt]. *)
Abbreviation gerr := (result unit).
Abbreviation nil_err := (Ok tt).

Declare Scope go_scope.
Delimit Scope go_scope with go.
Notation "'let!' x ':=' c 'in' k" :=
  (match c with Ok x => k | Err e => Err e end)
  (at level 10, x pattern, c at level 100, k at level 200) : go_scope.
Notation "c ';;!' k" :=
  (match c with Ok _ => k | Err e => Err e end)
  (at level 199, k at level 200, right associativity) : go_scope.
#[global] Open Scope go_scope.

(** [if cond { return err }]. *)
Definition fail_if (cond : bool) (e : gerror) : gerr :=
  if cond then Err e else nil_err.

Definition wrap_err {A} (msg : string) (r : result A) : result A :=
  match r with Ok a => Ok a | Err e => Err (ErrWrap msg e) end.

(** [for _, x := range l { if err := f(x); err != nil { return err } }]. *)
Fixpoint for_each {A} (f : A -> gerr) (l : list A) : gerr :=
  match l with
  | [] => nil_err
  | x :: l => f x ;;! for_each f l
  end.

(** A loop that carries a state and may return early with an error. *)
Fixpoint fold_result {A S} (f : S -> A -> result S) (s : S) (l : list A) : result S :=
  match l with
  | [] => Ok s
  | x :: l => let! s := f s x in fold_result f s l
  end.

(** ** Machine integers and times *)
Definition max_u64 : Z := 18446744073709551615.
Definition u64 (x : Z) : Z := x mod 18446744073709551616.
Definition max_i64 : Z := 9223372036854775807.
Definition min_i64 : Z := -9223372036854775808.
Definition in_u64 (x : Z) : Prop := 0 <= x <= max_u64.
Definition clamp_i64 (x : Z) : Z := Z.max min_i64 (Z.min max_i64 x).

(** [time.Time] is a number of nanoseconds after Go's zero time; the location
    and the monotonic reading are left out.  [time.Duration] is an [int64];
    [Sub] saturates at its bounds. *)
Abbreviation Time := Z (only parsing).
Abbreviation Duration := Z (only parsing).
Definition zeroTime : Time := 0.
Definition time_IsZero (t : Time) : bool := t =? 0.
Definition time_After (t u : Time) : bool := u <? t.
Definition time_Before (t u : Time) : bool := t <? u.
Definition time_Add (t : Time) (d : Duration) : Time := t + d.
Definition time_Sub (t u : Time) : Duration := clamp_i64 (t - u).
Definition Second : Duration := 1000000000.
Definition Minute : Duration := 60 * Second.

(** ** Strings *)
Definition str_eqb (s t : string) : bool := bool_decide (s = t).
Definition str_empty (s : string) : bool := str_eqb s ""%string.
(** Go's [s < t]: bytewise lexicographic order. *)
Definition str_ltb (s t : string) : bool := String.ltb s t.
Definition NUL : string := String (ascii_of_nat 0) EmptyString.

Definition byte_val (c : ascii) : Z := Z.of_N (N_of_ascii c).
Definition bytes_of (s : string) : list Z := byte_val <$> String.list_ascii_of_string s.
Definition string_of_bytes (l : list Z) : string :=
  String.string_of_list_ascii ((fun z => ascii_of_N (Z.to_N z)) <$> l).
Definition len (s : string) : Z := Z.of_nat (String.length s).
(** [strings.Join]. *)
Definition strings_Join (l : list string) (sep : string) : string := String.concat sep l.

(** ** UTF-8

    [utf8_chunks] cuts a byte string the way [for _, r := range s] does:
    a well-formed encoding yields its bytes and rune, any other byte an
    invalid chunk of width one. *)
Inductive chunk : Type :=
| Valid (bytes : list Z) (rune : Z)
| Invalid (byte : Z).

Definition cont (b : Z) : bool := (128 <=? b) && (b <=? 191).
Definition is2 (b0 b1 : Z) : bool := (194 <=? b0) && (b0 <=? 223) && cont b1.
Definition is3 (b0 b1 b2 : Z) : bool :=
  (224 <=? b0) && (b0 <=? 239) && cont b1 && cont b2 &&
  (if b0 =? 224 then 160 <=? b1 else true) && (if b0 =? 237 then b1 <=? 159 else true).
Definition is4 (b0 b1 b2 b3 : Z) : bool :=
  (240 <=? b0) && (b0 <=? 244) && cont b1 && cont b2 && cont b3 &&
  (if b0 =? 240 then 144 <=? b1 else true) && (if b0 =? 244 then b1 <=? 143 else true).
Definition low6 (b : Z) : Z := Z.land b 63.
Definition rune2 (b0 b1 : Z) : Z := Z.lor (Z.shiftl (Z.land b0 31) 6) (low6 b1).
Definition rune3 (b0 b1 b2 : Z) : Z :=
  Z.lor (Z.shiftl (Z.land b0 15) 12) (Z.lor (Z.shiftl (low6 b1) 6) (low6 b2)).
Definition rune4 (b0 b1 b2 b3 : Z) : Z :=
  Z.lor (Z.shiftl (Z.land b0 7) 18)
    (Z.lor (Z.shiftl (low6 b1) 12) (Z.lor (Z.shiftl (low6 b2) 6) (low6 b3))).

(** The chunk at the front of [b0 :: t]. *)
Definition first_chunk (b0 : Z) (t : list Z) : chunk :=
  if b0 <? 128 then Valid [b0] b0 else
  match t with
  | [] => Invalid b0
  | b1 :: t1 =>
      if is2 b0 b1 then Valid [b0; b1] (rune2 b0 b1) else
      match t1 with
      | [] => Invalid b0
      | b2 :: t2 =>
          if is3 b0 b1 b2 then Valid [b0; b1; b2] (rune3 b0 b1 b2) else
          match t2 with
          | [] => Invalid b0
          | b3 :: _ =>
              if is4 b0 b1 b2 b3 then Valid [b0; b1; b2; b3] (rune4 b0 b1 b2 b3)
              else Invalid b0
          end
      end
  end.

Definition chunk_source (c : chunk) : list Z :=
  match c with Valid b _ => b | Invalid b => [b] end.

(** One chunk is at least one byte, so [length s] rounds reach the end. *)
Fixpoint chunks_fuel (n : nat) (s : list Z) : list chunk :=
  match n, s with
  | S n, b0 :: t =>
      let c := first_chunk b0 t in
      c :: chunks_fuel n (drop (length (chunk_source c)) s)
  | _, _ => []
  end.
Definition utf8_chunks (s : list Z) : list chunk := chunks_fuel (length s) s.

Definition chunk_rune (c : chunk) : Z :=
  match c with Valid _ r => r | Invalid _ => 65533 end.
Definition chunk_valid (c : chunk) : bool :=
  match c with Valid _ _ => true | Invalid _ => false end.
(** What [encoding/json] reads back for the chunk: an invalid byte is written
    as the escape of U+FFFD. *)
Definition chunk_coerced (c : chunk) : list Z :=
  match c with Valid b _ => b | Invalid _ => [239; 191; 189] end.

Definition runes (s : string) : list Z := chunk_rune <$> utf8_chunks (bytes_of s).
Definition utf8_ValidString (s : string) : bool :=
  forallb chunk_valid (utf8_chunks (bytes_of s)).
(** A Go string after [json.Marshal] and [json.Unmarshal]. *)
Definition json_coerce (s : string) : string :=
  string_of_bytes (mjoin (chunk_coerced <$> utf8_chunks (bytes_of s))).
(** [unicode.IsSpace]; [strings.TrimSpace(s) == ""] and [s == strings.TrimSpace(s)]. *)
Definition is_space (r : Z) : bool :=
  ((9 <=? r) && (r <=? 13)) || ((8192 <=? r) && (r <=? 8202)) ||
  bool_decide (r ∈ [32; 133; 160; 5760; 8232; 8233; 8239; 8287; 12288]).
Definition space_chunk (c : chunk) : bool :=
  match c with Valid _ r => is_space r | Invalid _ => false end.
Definition blank (s : string) : bool := forallb space_chunk (utf8_chunks (bytes_of s)).
Definition trimmed (s : string) : bool :=
  let chunks := utf8_chunks (bytes_of s) in
  negb (from_option space_chunk false (head chunks)) && negb (from_option space_chunk false (last chunks)).

(** [unicode.IsControl]: category Cc. *)
Definition unicode_IsControl (r : Z) : bool :=
  ((0 <=? r) && (r <=? 31)) || ((127 <=? r) && (r <=? 159)).

(** ** Sorting

    Stable insertion sort for a strict order [less], standing for [sort.Slice],
    [sort.SliceStable], [slices.SortFunc] and [sort.Strings]: the unstable ones
    are only used here on lists whose ties are equal values. *)
Section Sort.
Context {A : Type} (less : A -> A -> bool).

Fixpoint insert_by (x : A) (l : list A) : list A :=
  match l with
  | [] => [x]
  | y :: l' => if less y x then y :: insert_by x l' else x :: l
  end.

Definition sort_by (l : list A) : list A := foldr insert_by [] l.

Definition le_by (x y : A) : Prop := less y x = false.

Lemma insert_by_perm x l : insert_by x l ≡ₚ x :: l.
Proof.
  induction l as [|y l IH]; simpl; [done|].
  case_match; [|done]. rewrite IH. apply Permutation_swap.
Qed.

Lemma sort_by_perm l : sort_by l ≡ₚ l.
Proof.
  induction l as [|x l IH]; simpl; [done|]. by rewrite insert_by_perm, IH.
Qed.

Lemma sort_by_length l : length (sort_by l) = length l.
Proof. by rewrite sort_by_perm. Qed.

Lemma elem_of_sort_by x l : x ∈ sort_by l <-> x ∈ l.
Proof. by rewrite sort_by_perm. Qed.

Hypothesis less_asym : forall x y, less x y = true -> less y x = false.
Hypothesis le_trans : forall x y z, le_by x y -> le_by y z -> le_by x z.

Lemma insert_by_sorted x l :
  StronglySorted le_by l -> StronglySorted le_by (insert_by x l).
Proof.
  induction l as [|y l IH]; simpl; intros Hs.
  - apply StronglySorted_cons; done.
  - apply StronglySorted_inv in Hs as [Hs Hall]. case_match eqn:E.
    + apply StronglySorted_cons; split; [|by apply IH].
      rewrite insert_by_perm. constructor; [|done]. by apply less_asym.
    + apply StronglySorted_cons; split; [|by apply StronglySorted_cons].
      constructor; [done|]. eapply Forall_impl; [exact Hall|].
      intros z Hz. by eapply le_trans.
Qed.

Lemma sort_by_sorted l : StronglySorted le_by (sort_by l).
Proof.
  induction l as [|x l IH]; simpl; [constructor|]. by apply insert_by_sorted.
Qed.
End Sort.

(** *** Sorting a rearranged list

    [equiv_swaps l l'] rearranges by exchanging neighbours that the order does
    not distinguish.  Stable sorts of permuted lists differ only so. *)
Section Stable.
Context {A : Type} (less : A -> A -> bool).
Hypothesis less_asym : forall x y, less x y = true -> less y x = false.
Hypothesis less_trans : forall x y z, less x y = true -> less y z = true -> less x z = true.
Hypothesis incomparable_trans : forall x y z,
  less x y = false -> less y z = false -> less x z = false.

Inductive equiv_swaps : list A -> list A -> Prop :=
| es_nil : equiv_swaps [] []
| es_skip x l l' : equiv_swaps l l' -> equiv_swaps (x :: l) (x :: l')
| es_swap x y l : less x y = false -> less y x = false ->
    equiv_swaps (x :: y :: l) (y :: x :: l)
| es_trans l1 l2 l3 : equiv_swaps l1 l2 -> equiv_swaps l2 l3 -> equiv_swaps l1 l3.

Lemma equiv_swaps_refl l : equiv_swaps l l.
Proof. induction l; by constructor. Qed.

Lemma insert_by_cong x l l' :
  equiv_swaps l l' -> equiv_swaps (insert_by less x l) (insert_by less x l').
Proof.
  induction 1 as [|y l l' Hl IH|y z l H1 H2|l1 l2 l3 _ IH1 _ IH2]; cbn.
  - apply equiv_swaps_refl.
  - case_match; constructor; [done|by constructor].
  - destruct (less y x) eqn:Hy, (less z x) eqn:Hz.
    + by constructor.
    + exfalso. by rewrite (incomparable_trans y z x) in Hy.
    + exfalso. by rewrite (incomparable_trans z y x) in Hz.
    + apply es_skip. by constructor.
  - by eapply es_trans.
Qed.

Lemma insert_by_comm x y l :
  equiv_swaps (insert_by less x (insert_by less y l)) (insert_by less y (insert_by less x l)).
Proof.
  induction l as [|z l IH]; cbn.
  - destruct (less y x) eqn:Hyx, (less x y) eqn:Hxy; try apply equiv_swaps_refl.
    + by rewrite (less_asym _ _ Hyx) in Hxy.
    + by constructor.
  - destruct (less z y) eqn:Hzy, (less z x) eqn:Hzx; cbn; rewrite ?Hzy, ?Hzx.
    + by constructor.
    + assert (less x y = true) as Hxy.
      { destruct (less x y) eqn:E; [done|]. by rewrite (incomparable_trans z x y) in Hzy. }
      rewrite Hxy. cbn. rewrite ?Hzy. apply equiv_swaps_refl.
    + assert (less y x = true) as Hyx.
      { destruct (less y x) eqn:E; [done|]. by rewrite (incomparable_trans z y x) in Hzx. }
      rewrite Hyx. cbn. rewrite ?Hzx. apply equiv_swaps_refl.
    + destruct (less y x) eqn:Hyx, (less x y) eqn:Hxy; cbn; rewrite ?Hzy, ?Hzx;
        try apply equiv_swaps_refl.
      * by rewrite (less_asym _ _ Hyx) in Hxy.
      * by constructor.
Qed.

Lemma sort_by_equiv_swaps l l' :
  l ≡ₚ l' -> equiv_swaps (sort_by less l) (sort_by less l').
Proof.
  induction 1; cbn.
  - constructor.
  - by apply insert_by_cong.
  - apply insert_by_comm.
  - by eapply es_trans.
Qed.
End Stable.

(** ** Tactics *)

(** Split the conditionals of a hypothesis on a computed result. *)
Ltac go_inv H :=
  repeat (match type of H with
          | context [match ?x with _ => _ end] => destruct x eqn:?
          end; simplify_eq/=; try done).
Ltac go_cases := repeat (case_match; simplify_eq/=; try done).

(** Turn boolean tests into the propositions they decide. *)
Ltac to_prop :=
  repeat match goal with
  | H : _ && _ = true |- _ => apply andb_true_iff in H as [? ?]
  | H : _ || _ = false |- _ => apply orb_false_iff in H as [? ?]
  | H : negb _ = true |- _ => apply negb_true_iff in H
  | H : negb _ = false |- _ => apply negb_false_iff in H
  | H : bool_decide _ = true |- _ => apply bool_decide_eq_true in H
  | H : bool_decide _ = false |- _ => apply bool_decide_eq_false in H
  | H : (_ =? _)%Z = true |- _ => apply Z.eqb_eq in H
  | H : (_ =? _)%Z = false |- _ => apply Z.eqb_neq in H
  | H : (_ <? _)%Z = true |- _ => apply Z.ltb_lt in H
  | H : (_ <? _)%Z = false |- _ => apply Z.ltb_ge in H
  | H : (_ <=? _)%Z = true |- _ => apply Z.leb_le in H
  | H : (_ <=? _)%Z = false |- _ => apply Z.leb_gt in H
  end.

(** Two results of the same call are the same result. *)
Ltac ok_inj :=
  repeat match goal with
  | H1 : ?t = Ok _, H2 : ?t = Ok _ |- _ => rewrite H1 in H2; injection H2 as H2; subst
  end.

Create HintDb swlb.

(** ** Generic lemmas *)
Lemma for_each_ok {A} (f : A -> gerr) l :
  for_each f l = nil_err <-> Forall (fun x => f x = nil_err) l.
Proof.
  induction l as [|x l IH]; simpl; [done|].
  rewrite Forall_cons, <- IH. destruct (f x) as [[]|e]; [tauto|].
  split; [done|]. by intros [? _].
Qed.

(** What holds of every prefix of a loop that ran to its end. *)
Lemma fold_result_ind {A S} (f : S -> A -> result S) (P : list A -> S -> Prop) s0 l s :
  P [] s0 ->
  (forall pre x s s', P pre s -> f s x = Ok s' -> P (pre ++ [x]) s') ->
  fold_result f s0 l = Ok s -> P l s.
Proof.
  intros H0 Hstep. change (P l s) with (P ([] ++ l) s). revert s0 H0. generalize (@nil A) as pre.
  induction l as [|x l IH]; intros pre s0 H0 Hl; cbn in Hl.
  - injection Hl as <-. by rewrite app_nil_r.
  - destruct (f s0 x) as [s1|e] eqn:E; [|done].
    change (x :: l) with ([x] ++ l). rewrite app_assoc. apply (IH (pre ++ [x]) s1); [|done].
    by eapply Hstep.
Qed.

Lemma fail_if_ok c e : fail_if c e = nil_err <-> c = false.
Proof. unfold fail_if. by destruct c. Qed.

Lemma is_ok_true {A} (r : result A) : is_ok r = true <-> exists a, r = Ok a.
Proof. destruct r as [a|e]; simpl; split; [by exists a|done|done|by intros [? ?]]. Qed.

Lemma str_empty_true s : str_empty s = true <-> s = ""%string.
Proof. unfold str_empty, str_eqb. by rewrite bool_decide_eq_true. Qed.
Lemma str_empty_false s : str_empty s = false <-> s <> ""%string.
Proof. unfold str_empty, str_eqb. by rewrite bool_decide_eq_false. Qed.
Lemma str_eqb_true s t : str_eqb s t = true <-> s = t.
Proof. unfold str_eqb. by rewrite bool_decide_eq_true. Qed.
Lemma str_eqb_refl s : str_eqb s s = true.
Proof. by apply str_eqb_true. Qed.
#[export] Hint Resolve str_eqb_refl : swlb.

Lemma u64_id x : in_u64 x -> u64 x = x.
Proof. unfold in_u64, u64, max_u64. intros. apply Z.mod_small. lia. Qed.

Lemma filter_all {A} (P : A -> Prop) `{forall x, Decision (P x)} (l : list A) :
  (forall x, x ∈ l -> P x) -> filter P l = l.
Proof.
  induction l as [|x l IH]; intros Hl; [done|].
  rewrite filter_cons_True by (apply Hl; left). f_equal. apply IH. intros y Hy. apply Hl. by right.
Qed.

Lemma filter_none {A} (P : A -> Prop) `{forall x, Decision (P x)} (l : list A) :
  (forall x, x ∈ l -> ~ P x) -> filter P l = [].
Proof.
  induction l as [|x l IH]; intros Hl; [done|].
  rewrite filter_cons_False by (apply Hl; left). apply IH. intros y Hy. apply Hl. by right.
Qed.

(** The string order is a strict total order. *)
Lemma ascii_compare_trans a b c r :
  Ascii.compare a b = r -> Ascii.compare b c = r -> Ascii.compare a c = r.
Proof.
  unfold Ascii.compare. destruct r; intros H1 H2.
  - apply N.compare_eq in H1. by rewrite H1.
  - rewrite N.compare_lt_iff in *. by eapply N.lt_trans.
  - rewrite N.compare_gt_iff in *. by eapply N.lt_trans.
Qed.

Lemma ascii_compare_eq a b : Ascii.compare a b = Eq -> a = b.
Proof.
  unfold Ascii.compare. intros H%N.compare_eq.
  by rewrite <- (ascii_N_embedding a), <- (ascii_N_embedding b), H.
Qed.

Lemma ascii_compare_refl a : Ascii.compare a a = Eq.
Proof. unfold Ascii.compare. apply N.compare_refl. Qed.

Lemma str_compare_lt_trans s t u :
  String.compare s t = Lt -> String.compare t u = Lt -> String.compare s u = Lt.
Proof.
  revert t u. induction s as [|a s IH]; intros [|b t] [|c u]; simpl; try done.
  destruct (Ascii.compare a b) eqn:E1; [|intros _|done];
    (destruct (Ascii.compare b c) eqn:E2; [| |done]).
  - apply ascii_compare_eq in E1, E2. subst. rewrite ascii_compare_refl. apply IH.
  - apply ascii_compare_eq in E1. subst. by rewrite E2.
  - apply ascii_compare_eq in E2. subst. by rewrite E1.
  - by rewrite (ascii_compare_trans _ _ _ _ E1 E2).
Qed.

Lemma str_compare_refl s : String.compare s s = Eq.
Proof. induction s as [|a s IH]; simpl; [done|]. by rewrite ascii_compare_refl. Qed.

Lemma str_ltb_lt s t : str_ltb s t = true <-> String.compare s t = Lt.
Proof. unfold str_ltb, String.ltb. by destruct (String.compare s t). Qed.

Lemma str_ltb_irrefl s : str_ltb s s = false.
Proof. unfold str_ltb, String.ltb. by rewrite str_compare_refl. Qed.

Lemma str_ltb_trans s t u : str_ltb s t = true -> str_ltb t u = true -> str_ltb s u = true.
Proof. rewrite !str_ltb_lt. apply str_compare_lt_trans. Qed.

Lemma str_ltb_asym s t : str_ltb s t = true -> str_ltb t s = false.
Proof.
  intros H. destruct (str_ltb t s) eqn:E; [|done].
  pose proof (str_ltb_trans _ _ _ H E) as Hs. by rewrite str_ltb_irrefl in Hs.
Qed.

Lemma str_ltb_total s t : str_ltb s t = false -> str_ltb t s = false -> s = t.
Proof.
  unfold str_ltb, String.ltb. rewrite (String.compare_antisym t s).
  destruct (String.compare s t) eqn:E; simpl; try done.
  intros _ _. by apply String.compare_eq_iff.
Qed.

Lemma str_le_trans s t u :
  str_ltb t s = false -> str_ltb u t = false -> str_ltb u s = false.
Proof.
  intros H1 H2. destruct (str_ltb u s) eqn:E; [|done].
  destruct (str_ltb s t) eqn:E1.
  - by rewrite (str_ltb_trans _ _ _ E E1) in H2.
  - by rewrite (str_ltb_total _ _ E1 H1), H2 in E.
Qed.

Definition sort_strings : list string -> list string := sort_by str_ltb.

Lemma sort_strings_sorted l : StronglySorted (le_by str_ltb) (sort_strings l).
Proof.
  apply sort_by_sorted; [apply str_ltb_asym|].
  unfold le_by. intros x y z H1 H2. by eapply str_le_trans.
Qed.

(** ** UTF-8 lemmas *)
Lemma first_chunk_source b0 t :
  exists rest, b0 :: t = chunk_source (first_chunk b0 t) ++ rest.
Proof.
  unfold first_chunk. repeat case_match; subst; simpl; eauto.
Qed.

Lemma first_chunk_width b0 t : (0 < length (chunk_source (first_chunk b0 t)))%nat.
Proof. unfold first_chunk. repeat case_match; simpl; lia. Qed.

Lemma chunks_fuel_source n s :
  (length s <= n)%nat -> mjoin (chunk_source <$> chunks_fuel n s) = s.
Proof.
  revert s. induction n as [|n IH]; intros [|b0 t] Hn; simpl in Hn; [done|lia|done|].
  cbn [chunks_fuel]. rewrite fmap_cons. cbn [mjoin list_join].
  pose proof (first_chunk_width b0 t) as Hw.
  destruct (first_chunk_source b0 t) as [rest Hr].
  remember (first_chunk b0 t) as c. rewrite Hr, drop_app_length, IH; [done|].
  apply (f_equal length) in Hr. rewrite length_app in Hr. simpl in Hr. lia.
Qed.

(** The chunks of a byte string cover it: no byte is lost or invented. *)
Lemma utf8_chunks_source s : mjoin (chunk_source <$> utf8_chunks s) = s.
Proof. by apply chunks_fuel_source. Qed.

Lemma bytes_of_inv s : string_of_bytes (bytes_of s) = s.
Proof.
  unfold string_of_bytes, bytes_of.
  rewrite <- (String.string_of_list_ascii_of_string s) at 2. f_equal.
  rewrite <- list_fmap_compose. rewrite <- (list_fmap_id (String.list_ascii_of_string s)) at 2.
  apply list_fmap_ext. intros ? c _. unfold compose, byte_val. simpl.
  by rewrite N2Z.id, ascii_N_embedding.
Qed.

(** A valid UTF-8 string survives a JSON round trip unchanged. *)
Lemma json_coerce_valid s : utf8_ValidString s = true -> json_coerce s = s.
Proof.
  unfold utf8_ValidString, json_coerce. intros Hv.
  rewrite <- (bytes_of_inv s) at 2. f_equal.
  rewrite <- (utf8_chunks_source (bytes_of s)) at 2. f_equal.
  induction (utf8_chunks (bytes_of s)) as [|c l IH]; [done|].
  simpl in *. apply andb_true_iff in Hv as [Hc Hl]. f_equal; [|by apply IH].
  by destruct c.
Qed.
#[export] Hint Resolve json_coerce_valid : swlb.
