(* ===== verification/Float64.v ===== *)
(** * Go's float64

    IEEE 754 binary64 numbers and the operations the policy uses, from the
    specification of floating point in the standard library, with the order and
    sign facts the policy proofs need. *)

From S2P Require Import Prelude.
From Stdlib Require Import SpecFloat.
From Stdlib Require Import ZArith Lia.
From stdpp Require Import base numbers option list.
#[local] Open Scope Z_scope.

Create HintDb float.

Abbreviation float64 := spec_float (only parsing).
Definition prec64 : Z := 53.
Definition emax64 : Z := 1024.

Definition fadd (x y : float64) : float64 := SFadd prec64 emax64 x y.
Definition fsub (x y : float64) : float64 := SFsub prec64 emax64 x y.
Definition fdiv (x y : float64) : float64 := SFdiv prec64 emax64 x y.
Definition fltb (x y : float64) : bool := SFltb x y.
Definition fleb (x y : float64) : bool := SFleb x y.
Definition feqb (x y : float64) : bool := SFeqb x y.
(** The float64 constant of an integer. *)
Definition f_of_Z (n : Z) : float64 := binary_normalize prec64 emax64 n 0 false.
Definition fzero : float64 := S754_zero false.

Definition math_IsNaN (x : float64) : bool := match x with S754_nan => true | _ => false end.
(** [math.IsInf(x, 0)]. *)
Definition math_IsInf (x : float64) : bool := match x with S754_infinity _ => true | _ => false end.
Definition math_Inf : float64 := S754_infinity false.

(** The predeclared [max]: NaN when an argument is, and [max(-0, +0) = +0]. *)
Definition fmax (x y : float64) : float64 :=
  if math_IsNaN x || math_IsNaN y then S754_nan else
  match x, y with
  | S754_zero sx, S754_zero sy => S754_zero (sx && sy)
  | _, _ => if fltb x y then y else x
  end.

#[export] Instance spec_float_eq_dec : EqDecision spec_float.
Proof. solve_decision. Defined.

(** ** Order *)

(** The key by which numbers that are not NaN are ordered. *)
Definition rank (x : float64) : Z * Z * Z :=
  match x with
  | S754_nan => (0, 0, 0)
  | S754_infinity s => (if s then -2 else 2, 0, 0)
  | S754_zero _ => (0, 0, 0)
  | S754_finite s m e => if s then (-1, - e, Zneg m) else (1, e, Zpos m)
  end.
Definition rank_leb (a b : Z * Z * Z) : bool :=
  let '(a1, a2, a3) := a in
  let '(b1, b2, b3) := b in
  (a1 <? b1) || ((a1 =? b1) && ((a2 <? b2) || ((a2 =? b2) && (a3 <=? b3)))).

Definition number (x : float64) : Prop := math_IsNaN x = false.

Ltac rank_cases :=
  repeat match goal with
  | |- context [Z.compare ?a ?b] => destruct (Z.compare_spec a b)
  | |- context [Pos.compare ?a ?b] => destruct (Pos.compare_spec a b)
  | |- context [?a <? ?b] => destruct (Z.ltb_spec a b)
  | |- context [?a <=? ?b] => destruct (Z.leb_spec a b)
  | |- context [?a =? ?b] => destruct (Z.eqb_spec a b)
  end.

Lemma fleb_rank x y : number x -> number y -> fleb x y = rank_leb (rank x) (rank y).
Proof.
  unfold number, fleb, SFleb. intros Hx Hy.
  destruct x as [sx|sx| |sx mx ex], y as [sy|sy| |sy my ey]; try done;
    try (destruct sx); try (destruct sy); try reflexivity; cbn [SFcompare rank rank_leb].
  all: change (Pos.compare_cont Eq mx my) with (Pos.compare mx my).
  all: rank_cases; subst; cbn; try reflexivity; try lia.
Qed.

Lemma rank_leb_spec a1 a2 a3 b1 b2 b3 :
  rank_leb (a1, a2, a3) (b1, b2, b3) = true <->
  a1 < b1 \/ a1 = b1 /\ (a2 < b2 \/ a2 = b2 /\ a3 <= b3).
Proof.
  unfold rank_leb. by rewrite !orb_true_iff, !andb_true_iff, !orb_true_iff, !andb_true_iff,
    !Z.ltb_lt, !Z.eqb_eq, Z.leb_le.
Qed.
Lemma rank_leb_refl a : rank_leb a a = true.
Proof. destruct a as [[a1 a2] a3]. rewrite rank_leb_spec. lia. Qed.
Lemma rank_leb_trans a b c : rank_leb a b = true -> rank_leb b c = true -> rank_leb a c = true.
Proof.
  destruct a as [[a1 a2] a3], b as [[b1 b2] b3], c as [[c1 c2] c3]. rewrite !rank_leb_spec. lia.
Qed.
Lemma rank_leb_total a b : rank_leb a b = false -> rank_leb b a = true.
Proof.
  destruct a as [[a1 a2] a3], b as [[b1 b2] b3]. intros H. apply not_true_iff_false in H.
  rewrite rank_leb_spec in *. lia.
Qed.

Lemma fleb_refl x : number x -> fleb x x = true.
Proof. intros H. rewrite fleb_rank by done. apply rank_leb_refl. Qed.
Lemma fleb_trans x y z :
  number y -> fleb x y = true -> fleb y z = true -> fleb x z = true.
Proof.
  intros Hy Hxy Hyz.
  assert (Hx : number x) by (unfold number; destruct x; done).
  assert (Hz : number z) by (unfold number; destruct z, y; done).
  rewrite fleb_rank in * by done. by eapply rank_leb_trans.
Qed.
Lemma fltb_fleb x y : number x -> number y -> fltb x y = negb (fleb y x).
Proof.
  intros Hx Hy. unfold fltb, SFltb, fleb, SFleb.
  destruct x as [sx|sx| |sx mx ex], y as [sy|sy| |sy my ey]; try done;
    try (destruct sx); try (destruct sy); try reflexivity; cbn [SFcompare].
  all: change (Pos.compare_cont Eq mx my) with (Pos.compare mx my);
       change (Pos.compare_cont Eq my mx) with (Pos.compare my mx).
  all: rank_cases; subst; cbn; try reflexivity; try lia.
Qed.

(** ** [fmax] is the least upper bound *)
Lemma fmax_number x y : number x -> number y -> number (fmax x y).
Proof.
  unfold number, fmax. intros Hx Hy. rewrite Hx, Hy. cbn [orb].
  repeat case_match; done.
Qed.
Lemma fmax_le x y : number x -> number y -> fleb x (fmax x y) = true /\ fleb y (fmax x y) = true.
Proof.
  intros Hx Hy. unfold fmax. unfold number in *. rewrite Hx, Hy. cbn [orb].
  assert (Hgen : fleb x (if fltb x y then y else x) = true /\ fleb y (if fltb x y then y else x) = true).
  { rewrite fltb_fleb by done. destruct (fleb y x) eqn:E; cbn.
    - split; [by apply fleb_refl|done].
    - split; [|by apply fleb_refl]. rewrite fleb_rank in * by done. by apply rank_leb_total. }
  destruct x, y; done.
Qed.

(** ** Signs *)

(** Not NaN and not below zero: what a validated metric is, and what sums of
    such are. *)
Definition nonneg (x : float64) : Prop := number x /\ fltb x fzero = false.

Lemma nonneg_cases x :
  nonneg x <-> match x with
               | S754_nan => False
               | S754_zero _ => True
               | S754_infinity s => s = false
               | S754_finite s _ _ => s = false
               end.
Proof. unfold nonneg, number. destruct x as [s|s| |s m e]; try destruct s; cbn; naive_solver. Qed.

Lemma iter_pos_inv {A} (f : A -> A) (Q : A -> Prop) :
  (forall x, Q x -> Q (f x)) -> forall n x, Q x -> Q (SpecFloat.iter_pos f n x).
Proof. intros Hf n. induction n as [n IH|n IH|]; intros x Hx; cbn; auto. Qed.

Lemma shr_nonneg mrs e n : 0 <= shr_m mrs -> 0 <= shr_m (fst (shr mrs e n)).
Proof.
  intros H. destruct n as [|p|p]; cbn [shr fst]; [done| |done].
  apply (iter_pos_inv shr_1 (fun r => 0 <= shr_m r)); [|done]. clear. intros [m r s]. cbn.
  destruct m as [|[|[]|]|[|[]|]]; cbn; lia.
Qed.
Lemma shr_record_m m l : shr_m (shr_record_of_loc m l) = m.
Proof. by destruct l as [|[]]. Qed.

(** Rounding a nonnegative mantissa gives a nonnegative number. *)
Lemma round_nonneg m e l : 0 <= m -> nonneg (binary_round_aux prec64 emax64 false m e l).
Proof.
  intros Hm. unfold binary_round_aux, shr_fexp.
  match goal with |- context [shr (shr_record_of_loc m l) e ?n] =>
    pose proof (shr_nonneg (shr_record_of_loc m l) e n) as H1; destruct (shr (shr_record_of_loc m l) e n) as [r1 e1] end.
  rewrite shr_record_m in H1. cbn [fst] in H1. specialize (H1 Hm).
  set (m2 := round_nearest_even _ _).
  assert (Hm2 : 0 <= m2) by (subst m2; unfold round_nearest_even; repeat case_match; lia).
  match goal with |- context [shr (shr_record_of_loc m2 loc_Exact) e1 ?n] =>
    pose proof (shr_nonneg (shr_record_of_loc m2 loc_Exact) e1 n) as H2;
    destruct (shr (shr_record_of_loc m2 loc_Exact) e1 n) as [r2 e2] end.
  rewrite shr_record_m in H2. cbn [fst] in H2. specialize (H2 Hm2). apply nonneg_cases.
  destruct (shr_m r2); [done| |lia]. by destruct (Z.leb e2 _).
Qed.

Lemma fadd_nonneg x y : nonneg x -> nonneg y -> nonneg (fadd x y).
Proof.
  rewrite (nonneg_cases x), (nonneg_cases y). unfold fadd.
  destruct x as [sx|sx| |sx mx ex], y as [sy|sy| |sy my ey]; intros Hx Hy; subst; try done;
    cbn [SFadd cond_Zopp]; try (destruct sx, sy); try (by apply nonneg_cases).
  set (a := fst _). set (b := fst _). clearbody a b. change (Zpos a + Zpos b) with (Zpos (a + b)). cbn [binary_normalize].
  unfold binary_round. destruct (shl_align _ _ _). apply round_nonneg. lia.
Qed.

(** A capacity limit: finite and positive. *)
Definition positive_limit (y : float64) : Prop := exists m e, y = S754_finite false m e.

Lemma fdiv_nonneg x y : nonneg x -> positive_limit y -> nonneg (fdiv x y).
Proof.
  intros Hx (my & ey & ->). apply nonneg_cases in Hx. unfold fdiv.
  destruct x as [sx|sx| |sx mx ex]; subst; try done; cbn [SFdiv xorb]; try (by apply nonneg_cases).
  - unfold SFdiv_core_binary. set (m' := match _ - _ - _ with Z0 => _ | _ => _ end).
    assert (Hm : 0 <= m').
    { subst m'. case_match; [lia| |lia]. by apply Z.shiftl_nonneg. }
    pose proof (Z_div_mod m' (Zpos my) ltac:(lia)) as Hd. destruct (Z.div_eucl m' (Zpos my)) as [q r].
    apply round_nonneg. nia.
Qed.

Lemma nonneg_number x : nonneg x -> number x.
Proof. by intros []. Qed.
Lemma fmax_nonneg x y : nonneg x -> nonneg y -> nonneg (fmax x y).
Proof.
  intros Hx Hy. unfold fmax. rewrite (nonneg_number _ Hx), (nonneg_number _ Hy). cbn [orb].
  assert (nonneg (if fltb x y then y else x)) by by destruct (fltb x y).
  destruct x, y; try done.
Qed.
#[export] Hint Resolve nonneg_number fadd_nonneg fdiv_nonneg fmax_nonneg fmax_number : float.
