(* ===== verification/Heap.v ===== *)
(** * Binary heaps (Go's container/heap)

    [up], [down], [heap_Init]-free [heap_Push], [heap_Pop] and [heap_Remove] of
    the Go standard library over an arbitrary container with [Len], [Less] and
    [Swap], the way an implementation of [heap.Interface] supplies them.  A
    container that shows its elements as a list ([HeapView]) is handled through
    that list: each operation keeps the elements and the heap order. *)

From S2P Require Import Prelude.
From Stdlib Require Import Lia.
From stdpp Require Import base sorting numbers option sets list.
#[local] Open Scope nat_scope.

(** [sort.Interface]. *)
Class HeapInterface (C : Type) := {
  h_Len : C -> nat;
  h_Less : C -> nat -> nat -> bool;
  h_Swap : C -> nat -> nat -> C;
}.

Definition parent (i : nat) : nat := (i - 1) / 2.

Section Operations.
Context {C : Type} `{HeapInterface C}.

(** [heap.up]: every round at least halves [j], so [S j] rounds suffice. *)
Fixpoint up_fuel (fuel : nat) (c : C) (j : nat) : C :=
  match fuel with
  | 0 => c
  | S fuel =>
      let i := parent j in
      if (i =? j) || negb (h_Less c j i) then c
      else up_fuel fuel (h_Swap c i j) i
  end.
Definition up (c : C) (j : nat) : C := up_fuel (S j) c j.

(** [heap.down]: the index grows every round, so [n] rounds suffice.  The
    second component is the final index; Go returns whether it moved. *)
Fixpoint down_fuel (fuel : nat) (c : C) (i n : nat) : C * nat :=
  match fuel with
  | 0 => (c, i)
  | S fuel =>
      let j1 := 2 * i + 1 in
      if n <=? j1 then (c, i) else
      let j2 := j1 + 1 in
      let j := if (j2 <? n) && h_Less c j2 j1 then j2 else j1 in
      if negb (h_Less c j i) then (c, i)
      else down_fuel fuel (h_Swap c i j) j n
  end.
Definition down (c : C) (i n : nat) : C * bool :=
  let '(c, i') := down_fuel n c i n in (c, i <? i').

(** The container's own [Push] and [Pop] methods are arguments. *)
Definition heap_Push {X} (push : X -> C -> C) (x : X) (c : C) : C :=
  let c := push x c in up c (h_Len c - 1).

Definition heap_Pop {X} (pop : C -> C * X) (c : C) : C * X :=
  let n := h_Len c - 1 in
  pop (fst (down (h_Swap c 0 n) 0 n)).

Definition heap_Remove {X} (pop : C -> C * X) (c : C) (i : nat) : C * X :=
  let n := h_Len c - 1 in
  if n =? i then pop c else
  let '(c, moved) := down (h_Swap c i n) i n in
  pop (if moved then c else up c i).
End Operations.

(** ** Lists as heaps *)
Section Lists.
Context {A : Type} (less : A -> A -> bool).

Definition list_Less (l : list A) (i j : nat) : bool :=
  match l !! i, l !! j with Some x, Some y => less x y | _, _ => false end.
Definition list_Swap (l : list A) (i j : nat) : list A :=
  match l !! i, l !! j with Some x, Some y => <[i := y]> (<[j := x]> l) | _, _ => l end.

Definition list_heap : HeapInterface (list A) :=
  {| h_Len := length; h_Less := list_Less; h_Swap := list_Swap |}.

Lemma swap_lookup l i j k x y :
  l !! i = Some x -> l !! j = Some y ->
  list_Swap l i j !! k = if k =? i then Some y else if k =? j then Some x else l !! k.
Proof.
  intros Hi Hj. unfold list_Swap. rewrite Hi, Hj.
  pose proof (lookup_lt_Some _ _ _ Hi). pose proof (lookup_lt_Some _ _ _ Hj).
  destruct (Nat.eqb_spec k i) as [->|]; [by rewrite list_lookup_insert_eq by (rewrite length_insert; lia)|].
  rewrite list_lookup_insert_ne by lia.
  destruct (Nat.eqb_spec k j) as [->|]; [by rewrite list_lookup_insert_eq by lia|].
  by rewrite list_lookup_insert_ne by lia.
Qed.

Lemma swap_length l i j : length (list_Swap l i j) = length l.
Proof. unfold list_Swap. repeat case_match; by rewrite ?length_insert. Qed.

Lemma swap_perm l i j : list_Swap l i j ≡ₚ l.
Proof.
  unfold list_Swap. destruct (l !! i) as [x|] eqn:Hi; [|done].
  destruct (l !! j) as [y|] eqn:Hj; [|done].
  destruct (decide (i = j)) as [->|Hne].
  - simplify_eq. by rewrite (list_insert_id l j), list_insert_id.
  - symmetry. apply Permutation_inj. split; [by rewrite !length_insert|].
    exists (fun k => if k =? i then j else if k =? j then i else k). split.
    + intros a b. repeat case_match; rewrite ?Nat.eqb_eq, ?Nat.eqb_neq in *; lia.
    + intros k. pose proof (swap_lookup l i j) as Hs. unfold list_Swap in Hs.
      rewrite Hi, Hj in Hs. rewrite (Hs _ x y) by done.
      destruct (Nat.eqb_spec k i) as [->|].
      * destruct (Nat.eqb_spec j i); [lia|]. by rewrite Nat.eqb_refl.
      * destruct (Nat.eqb_spec k j) as [->|]; [by rewrite Nat.eqb_refl|].
        by repeat case_match; rewrite ?Nat.eqb_eq, ?Nat.eqb_neq in *; try lia.
Qed.

(** ** The heap order on the first [n] elements *)
Hypothesis less_asym : forall x y, less x y = true -> less y x = false.
Hypothesis le_trans : forall x y z, le_by less x y -> le_by less y z -> le_by less x z.

Abbreviation le := (le_by less).

Definition edge_ok (l : list A) (k : nat) : Prop :=
  forall x y, l !! parent k = Some x -> l !! k = Some y -> le x y.
Definition heap_upto (l : list A) (n : nat) : Prop := forall k, 0 < k < n -> edge_ok l k.
Definition heap_ok (l : list A) : Prop := heap_upto l (length l).

(** The children of [i] are not below the parent of [i]. *)
Definition skip_ok (l : list A) (i n : nat) : Prop :=
  0 < i -> forall k x y, 0 < k < n -> parent k = i ->
    l !! parent i = Some x -> l !! k = Some y -> le x y.

Lemma parent_lt k : 0 < k -> parent k < k.
Proof. intros. unfold parent. apply Nat.Div0.div_lt_upper_bound. lia. Qed.

Lemma less_le x y : less x y = true -> le x y.
Proof. intros. by apply less_asym. Qed.

Lemma le_refl x : le x x.
Proof. unfold le_by. destruct (less x x) eqn:E; [|done]. by rewrite (less_asym _ _ E) in E. Qed.

Lemma parent_child k i : 0 < k -> parent k = i <-> k = 2 * i + 1 \/ k = 2 * i + 2.
Proof.
  intros Hk. unfold parent. split.
  - intros <-. pose proof (Nat.div_mod_eq (k - 1) 2).
    pose proof (Nat.mod_upper_bound (k - 1) 2). lia.
  - intros [-> | ->].
    + replace (2 * i + 1 - 1) with (i * 2) by lia. apply Nat.div_mul. lia.
    + replace (2 * i + 2 - 1) with (1 + i * 2) by lia. rewrite Nat.div_add by lia. done.
Qed.

(** *** up *)
Lemma up_fuel_ok fuel l j n :
  j < fuel -> j < n -> n <= length l ->
  (forall k, 0 < k < n -> k <> j -> edge_ok l k) -> skip_ok l j n ->
  let l' := up_fuel (H := list_heap) fuel l j in
  heap_upto l' n /\ l' ≡ₚ l /\ forall k, n <= k -> l' !! k = l !! k.
Proof.
  revert l j. induction fuel as [|fuel IH]; intros l j Hf Hj Hn Hedge Hskip; [lia|].
  cbn [up_fuel h_Less h_Swap list_heap].
  destruct (lookup_lt_is_Some_2 l j) as [y Hy]; [lia|].
  destruct (Nat.eqb_spec (parent j) j) as [Hpj|Hpj].
  { cbn. assert (j = 0) as -> by (destruct j; [done|]; pose proof (parent_lt (S j)); lia).
    split; [|by split]. intros k Hk. apply Hedge; lia. }
  assert (0 < j) as Hj0 by (destruct j; [done|lia]).
  pose proof (parent_lt j Hj0) as Hlt. set (i := parent j) in *.
  destruct (lookup_lt_is_Some_2 l i) as [x Hx]; [lia|].
  assert (list_Less l j i = less y x) as -> by (unfold list_Less; by rewrite Hy, Hx). cbn [orb].
  destruct (less y x) eqn:Hyx; cbn [negb].
  2: { split; [|by split]. intros k Hk. destruct (decide (k = j)) as [->|]; [|by apply Hedge].
       intros a b Ha Hb. fold i in Ha. simplify_eq. done. }
  pose proof (swap_lookup l i j) as Hs.
  destruct (IH (list_Swap l i j) i) as (H1 & H2 & H3);
    [lia|lia|by rewrite swap_length| | |].
  - intros k Hk Hki a b. rewrite !(Hs _ x y) by done.
    destruct (Nat.eqb_spec k i); [lia|].
    destruct (Nat.eqb_spec k j) as [->|Hkj].
    { fold i. rewrite Nat.eqb_refl. intros [= <-] [= <-]. by apply less_le. }
    destruct (Nat.eqb_spec (parent k) i) as [Hpi|Hpi].
    { intros [= <-] Hb. apply le_trans with x; [by apply less_le|].
      apply (Hedge k); [lia|done|by rewrite Hpi|done]. }
    destruct (Nat.eqb_spec (parent k) j) as [Hpk|Hpk].
    { intros [= <-] Hb. by apply (Hskip Hj0 k). }
    intros Ha Hb. by apply (Hedge k).
  - intros Hi0 k a b Hk Hpk. rewrite !(Hs _ x y) by done.
    pose proof (parent_lt i Hi0) as Hgi.
    destruct (Nat.eqb_spec (parent i) i); [lia|]. destruct (Nat.eqb_spec (parent i) j); [lia|].
    pose proof (parent_lt k ltac:(lia)) as Hpk'.
    destruct (Nat.eqb_spec k i); [lia|]. intros Ha.
    assert (le a x) as Hax by (apply (Hedge i); [lia|lia|done|done]).
    destruct (Nat.eqb_spec k j) as [->|Hkj]; [by intros [= <-]|].
    intros Hb. apply le_trans with x; [done|].
    apply (Hedge k); [lia|done|by rewrite Hpk|done].
  - split; [done|]. split; [by rewrite H2, swap_perm|].
    intros k Hk. rewrite H3, (Hs _ x y) by done.
    destruct (Nat.eqb_spec k i); [lia|]. destruct (Nat.eqb_spec k j); [lia|]. done.
Qed.

Lemma up_ok l j n :
  j < n -> n <= length l ->
  (forall k, 0 < k < n -> k <> j -> edge_ok l k) -> skip_ok l j n ->
  let l' := up (H := list_heap) l j in
  heap_upto l' n /\ l' ≡ₚ l /\ forall k, n <= k -> l' !! k = l !! k.
Proof. intros. apply up_fuel_ok; auto; lia. Qed.

(** *** down *)
Lemma down_fuel_ok fuel l i n :
  n <= i + fuel -> i < n -> n <= length l ->
  (forall k, 0 < k < n -> parent k <> i -> edge_ok l k) -> skip_ok l i n ->
  let '(l', i') := down_fuel (H := list_heap) fuel l i n in
  heap_upto l' n /\ l' ≡ₚ l /\ (forall k, n <= k -> l' !! k = l !! k) /\ i <= i'.
Proof.
  revert l i. induction fuel as [|fuel IH]; intros l i Hf Hi Hn Hedge Hskip; [lia|].
  cbn [down_fuel h_Less h_Swap list_heap].
  destruct (Nat.leb_spec n (2 * i + 1)) as [Hleaf|Hchild].
  { split_and!; try done. intros k Hk. apply Hedge; [done|].
    intros Hp. apply parent_child in Hp; lia. }
  destruct (lookup_lt_is_Some_2 l i) as [x Hx]; [lia|].
  set (j := if _ && _ then _ else _).
  assert (Hj : (j = 2 * i + 1 \/ j = 2 * i + 2) /\ j < n).
  { unfold j. destruct (Nat.ltb_spec (2 * i + 1 + 1) n); cbn; [case_match|]; lia. }
  destruct Hj as [Hj Hjn]. destruct (lookup_lt_is_Some_2 l j) as [y Hy]; [lia|].
  assert (Hpj : parent j = i) by (apply parent_child; lia).
  assert (Hsib : forall k z, 0 < k < n -> parent k = i -> l !! k = Some z -> le y z).
  { intros k z Hk Hp Hz. apply parent_child in Hp; [|lia]. revert Hy. unfold j.
    destruct (Nat.ltb_spec (2 * i + 1 + 1) n); cbn [andb].
    - replace (2 * i + 1 + 1) with (2 * i + 2) by lia. unfold list_Less.
      destruct (lookup_lt_is_Some_2 l (2 * i + 1)) as [a Ha]; [lia|].
      destruct (lookup_lt_is_Some_2 l (2 * i + 2)) as [b Hb]; [lia|].
      rewrite Ha, Hb. destruct (less b a) eqn:Hba; intros Hy; destruct Hp as [-> | ->];
        simplify_eq; auto using le_refl, less_le.
    - intros Hy. assert (k = 2 * i + 1) as -> by lia. simplify_eq. apply le_refl. }
  assert (list_Less l j i = less y x) as -> by (unfold list_Less; by rewrite Hy, Hx).
  destruct (less y x) eqn:Hyx; cbn [negb].
  2: { split_and!; try done. intros k Hk. destruct (decide (parent k = i)) as [Hp|]; [|by apply Hedge].
       intros a b Ha Hb. rewrite Hp in Ha. simplify_eq. apply le_trans with y; [done|].
       by apply (Hsib k). }
  pose proof (swap_lookup l i j) as Hs.
  specialize (IH (list_Swap l i j) j). destruct (down_fuel _ _ _ _) as [l' i'].
  destruct IH as (H1 & H2 & H3 & H4); [lia|lia|by rewrite swap_length| | |].
  - intros k Hk Hkj a b. rewrite !(Hs _ x y) by done.
    destruct (Nat.eqb_spec (parent k) i) as [Hpi|Hpi].
    { intros [= <-]. pose proof (parent_lt k ltac:(lia)).
      destruct (Nat.eqb_spec k i); [lia|].
      destruct (Nat.eqb_spec k j) as [->|]; [intros [= <-]; by apply less_le|].
      intros Hb. by apply (Hsib k). }
    destruct (Nat.eqb_spec (parent k) j); [done|]. intros Ha.
    destruct (Nat.eqb_spec k i) as [->|].
    { intros [= <-]. apply (Hskip ltac:(lia) j); [lia|done|done|done]. }
    destruct (Nat.eqb_spec k j) as [->|]; [done|]. intros Hb. by apply (Hedge k).
  - intros Hj0 k a b Hk Hpk. rewrite Hpj, !(Hs _ x y), Nat.eqb_refl by done.
    intros [= <-]. pose proof (parent_lt k ltac:(lia)).
    destruct (Nat.eqb_spec k i); [lia|]. destruct (Nat.eqb_spec k j); [lia|].
    intros Hb. apply (Hedge k); [done|lia|by rewrite Hpk|done].
  - split_and!; [done|by rewrite H2, swap_perm| |lia].
    intros k Hk. rewrite H3, (Hs _ x y) by done.
    destruct (Nat.eqb_spec k i); [lia|]. destruct (Nat.eqb_spec k j); [lia|]. done.
Qed.

Lemma down_ok l i n :
  i < n -> n <= length l ->
  (forall k, 0 < k < n -> parent k <> i -> edge_ok l k) -> skip_ok l i n ->
  let l' := fst (down (H := list_heap) l i n) in
  heap_upto l' n /\ l' ≡ₚ l /\ forall k, n <= k -> l' !! k = l !! k.
Proof.
  intros Hi Hn Hedge Hskip. unfold down.
  pose proof (down_fuel_ok n l i n ltac:(lia) Hi Hn Hedge Hskip) as Hd.
  destruct (down_fuel _ _ _ _) as [l' i']. by destruct Hd as (? & ? & ? & _).
Qed.

(** An element above its children stays. *)
Lemma down_stays l i n v :
  l !! i = Some v -> n <= length l ->
  (forall k c, 0 < k < n -> parent k = i -> l !! k = Some c -> le v c) ->
  down (H := list_heap) l i n = (l, false).
Proof.
  intros Hv Hn Hch. unfold down. cut (down_fuel (H := list_heap) n l i n = (l, i)).
  { intros ->. by rewrite Nat.ltb_irrefl. }
  destruct n as [|n]; [done|]. cbn [down_fuel h_Less h_Swap list_heap].
  destruct (Nat.leb_spec (S n) (2 * i + 1)) as [|Hc]; [done|].
  set (j := if _ && _ then _ else _).
  assert ((j = 2 * i + 1 \/ j = 2 * i + 2) /\ j < S n) as [Hj Hjn].
  { unfold j. destruct (Nat.ltb_spec (2 * i + 1 + 1) (S n)); cbn; [case_match|]; lia. }
  destruct (lookup_lt_is_Some_2 l j) as [c Hcj]; [lia|].
  unfold list_Less at 1. rewrite Hcj, Hv, (Hch j c); [done|lia| |done].
  apply parent_child; lia.
Qed.

(** ** Push, Pop and Remove *)
Definition list_push (x : A) (l : list A) : list A := l ++ [x].
Definition list_pop (l : list A) : list A * option A := (take (length l - 1) l, last l).

Lemma heap_skip l i n : n <= length l -> heap_upto l n -> skip_ok l i n.
Proof.
  intros Hn Hh Hi k x y Hk Hp Hx Hy. pose proof (parent_lt k ltac:(lia)).
  destruct (lookup_lt_is_Some_2 l i) as [z Hz]; [lia|].
  apply le_trans with z; [apply (Hh i ltac:(lia)); done|].
  apply (Hh k Hk); [by rewrite Hp|done].
Qed.

Lemma heap_root_min l x y : heap_ok l -> l !! 0 = Some x -> y ∈ l -> le x y.
Proof.
  intros Hh Hx [k Hk]%list_elem_of_lookup_1. revert y Hk.
  induction (lt_wf k) as [k _ IH]. intros y Hk.
  destruct (decide (k = 0)) as [->|]; [simplify_eq; apply le_refl|].
  pose proof (lookup_lt_Some _ _ _ Hk). pose proof (parent_lt k ltac:(lia)) as Hp.
  destruct (lookup_lt_is_Some_2 l (parent k)) as [z Hz]; [lia|].
  apply le_trans with z; [by apply (IH (parent k))|]. apply (Hh k); [lia|done|done].
Qed.

Lemma heap_Push_ok x l :
  heap_ok l ->
  let l' := heap_Push (H := list_heap) list_push x l in heap_ok l' /\ l' ≡ₚ x :: l.
Proof.
  intros Hh. unfold heap_Push, list_push. cbn [h_Len list_heap].
  set (l1 := l ++ [x]). assert (Hlen : length l1 = S (length l)).
  { unfold l1. rewrite length_app. cbn. lia. }
  rewrite Hlen. replace (S (length l) - 1) with (length l) by lia.
  destruct (up_ok l1 (length l) (S (length l))) as (H1 & H2 & _); [lia|lia| | |].
  - intros k Hk Hne a b. pose proof (parent_lt k ltac:(lia)). unfold l1.
    rewrite !lookup_app_l by lia. apply Hh. lia.
  - intros Hl0 k a b Hk Hp. pose proof (parent_lt k ltac:(lia)).
    pose proof (parent_lt k ltac:(lia)). lia.
  - split; [|rewrite H2; unfold l1; by rewrite Permutation_app_comm].
    unfold heap_ok. by rewrite (Permutation_length H2), Hlen.
Qed.

(** Dropping the last element of a list that is a heap before it. *)
Lemma list_pop_ok l n x :
  length l = S n -> l !! n = Some x -> heap_upto l n ->
  let '(l', o) := list_pop l in o = Some x /\ heap_ok l' /\ l ≡ₚ x :: l'.
Proof.
  intros Hl Hx Hh. unfold list_pop. rewrite Hl. replace (S n - 1) with n by lia.
  assert (Hlast : l = take n l ++ [x]).
  { rewrite <- (take_drop_middle l n x Hx) at 1.
    rewrite drop_ge by lia. done. }
  split_and!.
  - by rewrite Hlast, last_snoc.
  - intros k. rewrite length_take. intros Hk a b. pose proof (parent_lt k ltac:(lia)).
    rewrite !lookup_take_lt by lia. apply Hh. lia.
  - rewrite Hlast at 1. by rewrite Permutation_app_comm.
Qed.

Lemma swap_edges l i n x :
  heap_ok l -> length l = S n -> i < n -> l !! i = Some x ->
  (forall k, 0 < k < n -> parent k <> i -> k <> i -> edge_ok (list_Swap l i n) k) /\
  skip_ok (list_Swap l i n) i n /\ list_Swap l i n !! n = Some x.
Proof.
  intros Hh Hl Hi Hx. destruct (lookup_lt_is_Some_2 l n) as [v Hv]; [lia|].
  pose proof (swap_lookup l i n) as Hs. split_and!.
  - intros k Hk Hp Hki a b. rewrite !(Hs _ x v) by done. pose proof (parent_lt k ltac:(lia)).
    destruct (Nat.eqb_spec (parent k) i), (Nat.eqb_spec (parent k) n),
      (Nat.eqb_spec k i), (Nat.eqb_spec k n); try lia. apply Hh. lia.
  - intros Hi0 k a b Hk Hp. rewrite !(Hs _ x v) by done.
    pose proof (parent_lt k ltac:(lia)). pose proof (parent_lt i ltac:(lia)).
    destruct (Nat.eqb_spec (parent i) i), (Nat.eqb_spec (parent i) n),
      (Nat.eqb_spec k i), (Nat.eqb_spec k n); try lia.
    intros Ha Hb. apply (heap_skip l i (length l)) with k; [lia|done|lia|lia|done|done|done].
  - rewrite (Hs _ x v) by done. destruct (Nat.eqb_spec n i); [lia|]. by rewrite Nat.eqb_refl.
Qed.

Lemma heap_Pop_ok x l :
  heap_ok l -> l !! 0 = Some x ->
  let '(l', o) := heap_Pop (H := list_heap) list_pop l in
  o = Some x /\ heap_ok l' /\ l ≡ₚ x :: l'.
Proof.
  intros Hh Hx. unfold heap_Pop. cbn [h_Len h_Swap list_heap].
  pose proof (lookup_lt_Some _ _ _ Hx) as Hlt. set (n := length l - 1).
  assert (Hl : length l = S n) by lia. destruct (decide (n = 0)) as [Hn|Hn].
  - rewrite Hn. cbn. destruct l as [|y [|]]; cbn in Hl; simplify_eq/=; try lia.
    split_and!; [done|intros k Hk; cbn in Hk; lia|done].
  - destruct (swap_edges l 0 n x) as (He & Hs & Hxn); [done|done|lia|done|].
    destruct (down_ok (list_Swap l 0 n) 0 n) as (H1 & H2 & H3);
      [lia|rewrite swap_length; lia| |done|].
    { intros k Hk Hp. apply He; lia. }
    pose proof (Permutation_trans H2 (swap_perm l 0 n)) as H4. pose proof (Permutation_length H4) as Hl2.
    pose proof (list_pop_ok (fst (down (H := list_heap) (list_Swap l 0 n) 0 n)) n x) as Hp.
    destruct (list_pop _) as [l' o]. destruct Hp as (Ho & Hh' & Hperm);
      [lia|by rewrite H3|done|].
    split_and!; [done|done|]. exact (Permutation_trans (symmetry H4) Hperm).
Qed.

Lemma heap_Remove_ok i x l :
  heap_ok l -> l !! i = Some x ->
  let '(l', o) := heap_Remove (H := list_heap) list_pop l i in
  o = Some x /\ heap_ok l' /\ l ≡ₚ x :: l'.
Proof.
  intros Hh Hx. unfold heap_Remove. cbn [h_Len h_Swap list_heap].
  pose proof (lookup_lt_Some _ _ _ Hx) as Hlt. set (n := length l - 1).
  assert (Hl : length l = S n) by lia.
  destruct (Nat.eqb_spec n i) as [->|Hne].
  { apply list_pop_ok with i; [done|done|]. intros k Hk. apply Hh. lia. }
  destruct (swap_edges l i n x) as (He & Hs & Hxn); [done|done|lia|done|].
  set (l1 := list_Swap l i n) in *. assert (Hl1 : length l1 = S n) by (by unfold l1; rewrite swap_length).
  assert (Hfin : forall l2, heap_upto l2 n -> l2 ≡ₚ l1 -> (forall k, n <= k -> l2 !! k = l1 !! k) ->
    let '(l', o) := list_pop l2 in o = Some x /\ heap_ok l' /\ l ≡ₚ x :: l').
  { intros l2 H1 H2 H3. pose proof (Permutation_length H2) as Hl2.
    pose proof (list_pop_ok l2 n x) as Hp. destruct (list_pop l2) as [l' o].
    destruct Hp as (? & ? & Hp); [lia|by rewrite H3|done|].
    split_and!; [done|done|].
    exact (Permutation_trans (symmetry (Permutation_trans H2 (swap_perm l i n))) Hp). }
  destruct (lookup_lt_is_Some_2 l1 i) as [v Hv]; [lia|].
  assert (Hcase : edge_ok l1 i \/ 0 < i /\ exists p, l1 !! parent i = Some p /\ less v p = true).
  { destruct (decide (i = 0)) as [->|]; [left; intros a b; cbn; intros; simplify_eq; apply le_refl|].
    pose proof (parent_lt i ltac:(lia)). destruct (lookup_lt_is_Some_2 l1 (parent i)) as [p Hp]; [lia|].
    destruct (less v p) eqn:E; [right; split; [lia|by exists p]|].
    left. intros a b Ha Hb. simplify_eq. done. }
  destruct Hcase as [Hedge|(Hi0 & p & Hp & Hvp)].
  - destruct (down_ok l1 i n) as (H1 & H2 & H3); [lia|lia| |done|].
    { intros k Hk Hpk. destruct (decide (k = i)) as [->|]; [done|by apply He]. }
    destruct (down l1 i n) as [l2 moved] eqn:Hd. cbn in H1, H2, H3.
    destruct moved; [by apply Hfin|]. pose proof (Permutation_length H2).
    destruct (up_ok l2 i n) as (U1 & U2 & U3); [lia|lia|by intros; apply H1| |].
    { apply heap_skip; [lia|done]. }
    apply Hfin; [done|by rewrite U2|]. intros k Hk. by rewrite U3, H3.
  - assert (Hch : forall k c, 0 < k < n -> parent k = i -> l1 !! k = Some c -> le v c).
    { intros k c Hk Hpk Hc. apply le_trans with p; [by apply less_le|]. by apply (Hs Hi0 k). }
    rewrite (down_stays l1 i n v Hv) by (done || lia). cbn.
    destruct (up_ok l1 i n) as (U1 & U2 & U3); [lia|lia| |done|by apply Hfin].
    intros k Hk Hki. destruct (decide (parent k = i)) as [Hpk|]; [|by apply He].
    intros a b Ha Hb. rewrite Hpk in Ha. simplify_eq. by apply (Hch k).
Qed.
End Lists.

(** ** Containers that show a list

    A container whose [Less] and [Swap] are those of a list it shows performs
    every heap operation as that list does. *)
Class HeapView (C A : Type) `{HeapInterface C} (less : A -> A -> bool) := {
  h_view : C -> list A;
  view_Len c : h_Len c = length (h_view c);
  view_Less c i j : h_Less c i j = list_Less less (h_view c) i j;
  view_Swap c i j : h_view (h_Swap c i j) = list_Swap (h_view c) i j;
}.

Section View.
Context {C A : Type} `{HeapInterface C} {less : A -> A -> bool} `{!HeapView C A less}.

Lemma view_up c j : h_view (up c j) = up (H := list_heap less) (h_view c) j.
Proof.
  unfold up. generalize (S j) as fuel. intros fuel. revert c j.
  induction fuel as [|fuel IH]; intros c j; [done|]. cbn [up_fuel h_Less h_Swap list_heap].
  rewrite view_Less. case_match; [done|]. by rewrite IH, view_Swap.
Qed.

Lemma view_down c i n :
  h_view (fst (down c i n)) = fst (down (H := list_heap less) (h_view c) i n) /\
  snd (down c i n) = snd (down (H := list_heap less) (h_view c) i n).
Proof.
  cut (forall fuel c i, h_view (fst (down_fuel fuel c i n)) =
         fst (down_fuel (H := list_heap less) fuel (h_view c) i n) /\
         snd (down_fuel fuel c i n) = snd (down_fuel (H := list_heap less) fuel (h_view c) i n)).
  { intros Hc. specialize (Hc n c i). unfold down.
    destruct (down_fuel n c i n), (down_fuel n (h_view c) i n). cbn in *. by destruct Hc as [-> ->]. }
  clear c i. intros fuel. induction fuel as [|fuel IH]; intros c i; [done|].
  cbn [down_fuel h_Less h_Swap list_heap]. rewrite !view_Less. case_match; [done|].
  case_match; [done|]. rewrite <- view_Swap. apply IH.
Qed.
End View.

(** ** Visiting a heap in order

    The smallest elements of a heap without removing them: a second heap holds
    the frontier, an element's children join it when the element is visited. *)
Section Walk.
Context {A : Type} (less : A -> A -> bool).
Hypothesis less_asym : forall x y, less x y = true -> less y x = false.
Hypothesis le_trans : forall x y z, le_by less x y -> le_by less y z -> le_by less x z.

Definition candidate_less (c d : nat * A) : bool := less (snd c) (snd d).

Definition push_child (l : list A) (i : nat) (cand : list (nat * A)) : list (nat * A) :=
  match l !! i with
  | Some x => heap_Push (H := list_heap candidate_less) list_push (i, x) cand
  | None => cand
  end.

Definition push_children (l : list A) (i : nat) (cand : list (nat * A)) : list (nat * A) :=
  push_child l (2 * i + 1 + 1) (push_child l (2 * i + 1) cand).

Definition pop_candidate (cand : list (nat * A)) : list (nat * A) * option (nat * A) :=
  heap_Pop (H := list_heap candidate_less) list_pop cand.

(** One element per round. *)
Fixpoint walk (fuel : nat) (l : list A) (cand : list (nat * A)) : list A :=
  match fuel with
  | 0 => []
  | S fuel =>
      match pop_candidate cand with
      | (cand, Some (i, x)) => x :: walk fuel l (push_children l i cand)
      | (_, None) => []
      end
  end.

Lemma candidate_asym c d : candidate_less c d = true -> candidate_less d c = false.
Proof. apply less_asym. Qed.
Lemma candidate_trans x y z :
  le_by candidate_less x y -> le_by candidate_less y z -> le_by candidate_less x z.
Proof. apply le_trans. Qed.

Context (l : list A) (l_heap : heap_ok less l).

(** The visited indices and the frontier. *)
Record frontier (vis : list nat) (cand : list (nat * A)) : Prop := {
  fr_heap : heap_ok candidate_less cand;
  fr_sound : forall c, c ∈ cand -> l !! fst c = Some (snd c);
  fr_disjoint : NoDup (vis ++ (fst <$> cand));
  fr_range : forall i, i ∈ vis -> i < length l;
  fr_root : 0 < length l -> 0 ∈ vis ++ (fst <$> cand);
  fr_closed : forall k, 0 < k < length l -> parent k ∈ vis -> k ∈ vis ++ (fst <$> cand);
  fr_parent : forall k, 0 < k -> k ∈ vis ++ (fst <$> cand) -> parent k ∈ vis;
}.

Lemma push_child_ok vis cand i j :
  heap_ok candidate_less cand ->
  (forall c, c ∈ cand -> l !! fst c = Some (snd c)) ->
  NoDup (vis ++ (fst <$> cand)) -> 0 < j -> parent j = i -> i ∈ vis ->
  (forall k, 0 < k -> k ∈ vis ++ (fst <$> cand) -> parent k ∈ vis) ->
  j ∉ vis ++ (fst <$> cand) ->
  let cand' := push_child l j cand in
  heap_ok candidate_less cand' /\
  (forall c, c ∈ cand' -> l !! fst c = Some (snd c)) /\
  NoDup (vis ++ (fst <$> cand')) /\
  (forall k, 0 < k -> k ∈ vis ++ (fst <$> cand') -> parent k ∈ vis) /\
  (forall k, k ∈ vis ++ (fst <$> cand') <-> k ∈ vis ++ (fst <$> cand) \/ k = j /\ j < length l).
Proof.
  intros Hh Hsnd Hnd Hj Hp Hi Hpar Hnin. unfold push_child.
  destruct (l !! j) as [x|] eqn:Hx; cbn zeta.
  2: { apply lookup_ge_None in Hx. split_and!; try done. intros k. split; [by left|].
       intros [?|[-> ?]]; [done|lia]. }
  destruct (heap_Push_ok candidate_less candidate_asym candidate_trans (j, x) cand Hh) as [H1 H2].
  set (cand' := heap_Push _ _ _) in *. pose proof (lookup_lt_Some _ _ _ Hx) as Hlt.
  assert (H3 : fst <$> cand' ≡ₚ j :: (fst <$> cand)) by (by rewrite H2).
  assert (Hin : forall k, k ∈ vis ++ (fst <$> cand') <-> k ∈ vis ++ (fst <$> cand) \/ k = j /\ j < length l).
  { intros k. rewrite H3. set_solver. }
  split_and!; [done| | | |done].
  - intros c. rewrite H2, elem_of_cons. intros [->|]; [done|by apply Hsnd].
  - rewrite H3, <- Permutation_middle. by constructor.
  - intros k Hk [?|[-> _]]%Hin; [by apply Hpar|by rewrite Hp].
Qed.

Lemma frontier_step vis cand cand' i x :
  frontier vis cand -> pop_candidate cand = (cand', Some (i, x)) ->
  frontier (i :: vis) (push_children l i cand') /\ l !! i = Some x /\ i ∉ vis /\
  forall k y, k ∉ vis -> l !! k = Some y -> le_by less x y.
Proof.
  intros [Hh Hsnd Hnd Hrg Hroot Hcl Hpar] Hpop. unfold pop_candidate in Hpop.
  destruct (cand !! 0) as [[i0 x0]|] eqn:H0.
  2: { destruct cand; [|done]. cbn in Hpop. done. }
  pose proof (heap_Pop_ok candidate_less candidate_asym candidate_trans _ _ Hh H0) as Hok.
  rewrite Hpop in Hok. destruct Hok as ([= <- <-] & Hh' & Hperm).
  assert (Hi : l !! i = Some x) by (apply (Hsnd (i, x)); rewrite Hperm; left).
  assert (Hfst : fst <$> cand ≡ₚ i :: (fst <$> cand')) by (by rewrite Hperm).
  rewrite Hfst, <- Permutation_middle in Hnd.
  assert (Hnd0 : NoDup ((i :: vis) ++ (fst <$> cand'))) by done.
  assert (Hmem : forall k, k ∈ vis ++ (fst <$> cand) <-> k ∈ (i :: vis) ++ (fst <$> cand')).
  { intros k. rewrite Hfst. set_solver. }
  assert (Hpar0 : forall k, 0 < k -> k ∈ (i :: vis) ++ (fst <$> cand') -> parent k ∈ i :: vis).
  { intros k Hk Hin%Hmem. right. by apply Hpar. }
  assert (Hnew : forall j, 0 < j -> parent j = i -> j ∉ (i :: vis) ++ (fst <$> cand')).
  { intros j Hj Hp Hin%Hmem. apply Hpar in Hin; [|done]. rewrite Hp in Hin.
    apply NoDup_cons in Hnd as [Hnd _]. set_solver. }
  assert (Hp1 : parent (2 * i + 1) = i) by (apply parent_child; lia).
  assert (Hp2 : parent (2 * i + 1 + 1) = i) by (apply parent_child; lia).
  destruct (push_child_ok (i :: vis) cand' i (2 * i + 1)) as (A1 & A2 & A3 & A4 & A5);
    try done; [|lia|by left|by apply Hnew; [lia|]|].
  { intros c Hc. apply Hsnd. rewrite Hperm. by right. }
  destruct (push_child_ok (i :: vis) (push_child l (2 * i + 1) cand') i (2 * i + 1 + 1))
    as (B1 & B2 & B3 & B4 & B5); try done; [lia|by left| |].
  { rewrite A5. intros [Hin|[? ?]]; [|lia]. by apply (Hnew (2 * i + 1 + 1)); [lia| |]. }
  fold (push_children l i cand') in B1, B2, B3, B4, B5.
  assert (Hivis : i ∉ vis).
  { apply NoDup_cons in Hnd as [Hnd _]. set_solver. }
  split_and!; [constructor; try done|done|done|].
  - intros k [->|]%elem_of_cons; [by eapply lookup_lt_Some|by apply Hrg].
  - intros Hl. apply B5. left. apply A5. left. apply Hmem. by apply Hroot.
  - intros k Hk Hpk. apply B5. rewrite A5. destruct (decide (parent k = i)) as [Hpi|Hpi].
    + apply parent_child in Hpi as [-> | ->]; [left; right; split; [done|lia]|right; split; lia|lia].
    + left. left. apply Hmem. apply Hcl; [done|]. apply elem_of_cons in Hpk as [?|?]; done.
  - assert (Hmin : forall c, c ∈ cand -> le_by less x (snd c)).
    { intros c Hc. exact (heap_root_min candidate_less candidate_asym candidate_trans _ _ _ Hh H0 Hc). }
    intros k. induction (lt_wf k) as [k _ IH]. intros y Hk Hy.
    pose proof (lookup_lt_Some _ _ _ Hy) as Hlt.
    assert (Hcand : k ∈ vis ++ (fst <$> cand) -> le_by less x y).
    { intros [?|Hc]%elem_of_app; [done|]. apply list_elem_of_fmap in Hc as (c & -> & Hc).
      specialize (Hsnd c Hc) as Hs. simplify_eq. by apply Hmin. }
    destruct (decide (k = 0)) as [->|Hk0]; [apply Hcand, Hroot; lia|].
    destruct (decide (parent k ∈ vis)) as [Hv|Hv]; [apply Hcand, Hcl; [lia|done]|].
    pose proof (parent_lt k ltac:(lia)). destruct (lookup_lt_is_Some_2 l (parent k)) as [z Hz]; [lia|].
    apply le_trans with z; [by apply (IH (parent k))|]. apply (l_heap k); [lia|done|done].
Qed.

Lemma omap_seq {B} (m : list B) : omap (fun k => m !! k) (seq 0 (length m)) = m.
Proof.
  induction m as [|y m IH]; [done|]. cbn. f_equal. rewrite <- IH at 2.
  apply list_omap_ext. rewrite <- fmap_S_seq. by apply Forall2_fmap_l, Forall_Forall2_diag, Forall_true.
Qed.

(** What is left to visit. *)
Definition unvisited (vis : list nat) : list A :=
  omap (fun k => l !! k) (filter (fun k => k ∉ vis) (seq 0 (length l))).

Lemma unvisited_step vis i x :
  i ∉ vis -> l !! i = Some x -> unvisited vis ≡ₚ x :: unvisited (i :: vis).
Proof.
  intros Hi Hx. unfold unvisited. pose proof (lookup_lt_Some _ _ _ Hx) as Hlt.
  assert (filter (fun k => k ∉ vis) (seq 0 (length l)) ≡ₚ
          i :: filter (fun k => k ∉ i :: vis) (seq 0 (length l))) as ->.
  { apply NoDup_Permutation.
    - apply NoDup_filter, NoDup_seq.
    - constructor; [|apply NoDup_filter, NoDup_seq]. rewrite list_elem_of_filter. set_solver.
    - intros k. rewrite elem_of_cons, !list_elem_of_filter, elem_of_seq.
      destruct (decide (k = i)) as [->|Hne]; [|set_solver].
      split; [by left|]. intros _. split; [done|lia]. }
  cbn. by rewrite Hx.
Qed.

Lemma walk_spec fuel vis cand :
  frontier vis cand -> length (unvisited vis) <= fuel ->
  walk fuel l cand ≡ₚ unvisited vis /\ StronglySorted (le_by less) (walk fuel l cand).
Proof.
  revert vis cand. induction fuel as [|fuel IH]; intros vis cand Hf Hlen.
  { destruct (unvisited vis) eqn:E; cbn in Hlen; [|lia]. cbn. split; [done|constructor]. }
  cbn [walk]. destruct (pop_candidate cand) as [cand' [[i x]|]] eqn:Hpop.
  - destruct (frontier_step _ _ _ _ _ Hf Hpop) as (Hf' & Hx & Hi & Hmin).
    pose proof (unvisited_step vis i x Hi Hx) as Hu.
    destruct (IH _ _ Hf') as [Hp Hs].
    { apply Permutation_length in Hu. cbn in Hu. lia. }
    split; [by rewrite Hu, Hp|]. constructor; [done|]. rewrite Hp. apply Forall_forall.
    intros y Hy. unfold unvisited in Hy. apply list_elem_of_omap in Hy as (k & Hk & Hy).
    apply list_elem_of_filter in Hk as [Hk _]. apply (Hmin k); [set_solver|done].
  - split; [|constructor].
    assert (cand = []) as ->.
    { destruct cand as [|[i x] cand]; [done|]. unfold pop_candidate in Hpop.
      pose proof (heap_Pop_ok candidate_less candidate_asym candidate_trans (i, x) _
        (fr_heap _ _ Hf) eq_refl) as Hok. rewrite Hpop in Hok. by destruct Hok. }
    assert (Hall : forall k, k < length l -> k ∈ vis).
    { destruct Hf as [_ _ _ _ Hroot Hcl _]. cbn in Hroot, Hcl.
      setoid_rewrite app_nil_r in Hcl. rewrite app_nil_r in Hroot.
      intros k. induction (lt_wf k) as [k _ IHk]. intros Hk.
      destruct (decide (k = 0)) as [->|]; [apply Hroot; lia|].
      pose proof (parent_lt k ltac:(lia)). apply Hcl; [lia|].
      exact (IHk (parent k) ltac:(lia) ltac:(lia)). }
    unfold unvisited. rewrite filter_none; [done|]. intros k Hk%elem_of_seq Hn.
    apply Hn, Hall. lia.
Qed.

(** Starting at the root, the walk lists the heap in order. *)
Lemma walk_root_spec x :
  l !! 0 = Some x ->
  walk (length l) l [(0, x)] ≡ₚ l /\ StronglySorted (le_by less) (walk (length l) l [(0, x)]).
Proof.
  intros Hx. pose proof (lookup_lt_Some _ _ _ Hx) as Hlt.
  assert (Hu : unvisited [] = l).
  { unfold unvisited. rewrite filter_all by set_solver. apply omap_seq. }
  pose proof (walk_spec (length l) [] [(0, x)]) as Hw. rewrite Hu in Hw. apply Hw; [|done].
  constructor; cbn.
  - intros k Hk. cbn in Hk. lia.
  - intros c ->%list_elem_of_singleton. done.
  - apply NoDup_singleton.
  - intros k Hk%elem_of_nil. done.
  - intros _. left.
  - intros k _ Hk%elem_of_nil. done.
  - intros k Hk ->%list_elem_of_singleton. lia.
Qed.
End Walk.
