(* ===== verification/Customer.v ===== *)
(** * The customer routing contract (customer/customer.go)

    The application-owned interfaces, the default entity-affinity library, the
    canonical length-prefixed encoding that both SHA-256 mappings hash, and the
    lowercase hexadecimal wire form of a business hash.  SHA-256 itself is an
    argument of the definitions that use it. *)

From S2P Require Import Prelude.
From Stdlib Require Import ZArith Ascii Lia.
From stdpp Require Import base gmap strings list numbers option.
#[local] Open Scope Z_scope.

(** ** SHA-256

    The one fact the code relies on is the type of [sha256.Sum256]: a
    [[32]byte]. *)
Definition is_byte (b : Z) : Prop := 0 <= b < 256.

Class Sha256 := {
  sha256_Sum256 : list Z -> list Z;
  sha256_length data : length (sha256_Sum256 data) = 32%nat;
  sha256_bytes data : Forall is_byte (sha256_Sum256 data);
}.

(** ** Data *)
Definition DigestBytes : nat := 32.
Definition EntityAffinityContract : string := "entity-affinity-v1".
Definition RendezvousSHA256Contract : string := "swlb-rendezvous-v1".
Definition entityAffinityDomain : string := "entity-affinity-v1".

(** [[32]byte] values: [is_digest] is what the Go array type guarantees. *)
Abbreviation BusinessHash := (list Z) (only parsing).
Abbreviation RoutingScore := (list Z) (only parsing).
Definition is_digest (d : list Z) : Prop := length d = DigestBytes /\ Forall is_byte d.

Record ScoreInput := mkScoreInput {
  si_Algorithm : string;
  si_ScalingGroup : string;
  si_BusinessHash : BusinessHash;
  si_BrokerID : string;
}.

(** [Payload] is Go's [any]; the library is generic in it. *)
Record MessageView (Payload : Type) := mkMessageView {
  mv_Topic : string;
  mv_Headers : gmap string string;
  mv_Payload : Payload;
  mv_EventID : string;
}.
Arguments mkMessageView {Payload}.
Arguments mv_Topic {Payload}.
Arguments mv_Headers {Payload}.
Arguments mv_Payload {Payload}.
Arguments mv_EventID {Payload}.

Definition Header {P} (m : MessageView P) (name : string) : string * bool :=
  match mv_Headers m !! name with
  | Some value => (value, true)
  | None => (""%string, false)
  end.

(** The value of [m.Headers[name]]: the zero string when absent. *)
Definition header {P} (m : MessageView P) (name : string) : string :=
  default ""%string (mv_Headers m !! name).

Record RoutingHashPolicy := mkRoutingHashPolicy {
  GetRendezvousScore : ScoreInput -> result RoutingScore;
  RoutingAlgorithm : string;
}.

(** A library value, with the [RoutingHashPolicy] methods its dynamic type may
    also have. *)
Record CustomerLibrary (P : Type) := mkCustomerLibrary {
  GetScalingGroup : MessageView P -> result string;
  GetBusinessHash : MessageView P -> result BusinessHash;
  lib_policy : option RoutingHashPolicy;
}.
Arguments mkCustomerLibrary {P}.
Arguments GetScalingGroup {P}.
Arguments GetBusinessHash {P}.
Arguments lib_policy {P}.

Definition RoutingPolicy {P} (library : CustomerLibrary P) : result RoutingHashPolicy :=
  match lib_policy library with
  | None => Err (ErrNew "customer: library does not implement RoutingHashPolicy")
  | Some policy =>
      if str_empty (RoutingAlgorithm policy)
      then Err (ErrNew "customer: routing algorithm is required")
      else Ok policy
  end.

(** ** Canonical encoding *)

(** [binary.BigEndian.PutUint32]. *)
Definition be32 (n : Z) : list Z :=
  [Z.land (Z.shiftr n 24) 255; Z.land (Z.shiftr n 16) 255;
   Z.land (Z.shiftr n 8) 255; Z.land n 255].

Definition max_u32 : Z := 4294967295.

(** The first loop of [canonicalBytes]: the size check. *)
Fixpoint canonical_total (total : Z) (components : list (list Z)) : result Z :=
  match components with
  | [] => Ok total
  | c :: rest =>
      let n := Z.of_nat (length c) in
      if (max_u32 <? n) || (max_i64 - 4 - n <? total)
      then Err (ErrNew "customer: canonical input is too large")
      else canonical_total (total + 4 + n) rest
  end.

Definition canonical_component (c : list Z) : list Z :=
  be32 (Z.of_nat (length c)) ++ c.

Definition canonicalBytes (components : list (list Z)) : result (list Z) :=
  let! _ := canonical_total 0 components in
  Ok (mjoin (canonical_component <$> components)).

Fixpoint canonical_values (components : list string) : result (list (list Z)) :=
  match components with
  | [] => Ok []
  | c :: rest =>
      if negb (utf8_ValidString c)
      then Err (ErrNew "customer: canonical component is not valid UTF-8")
      else let! values := canonical_values rest in Ok (bytes_of c :: values)
  end.

Definition canonicalStrings (components : list string) : result (list Z) :=
  let! values := canonical_values components in canonicalBytes values.

Definition contains_nul (s : string) : bool := bool_decide (0 ∈ bytes_of s).

Definition zero_digest : list Z := replicate DigestBytes 0.

Section Hashing.
Context {sha : Sha256}.

Definition hashCanonicalStrings (components : list string) : result BusinessHash :=
  let! encoded := canonicalStrings components in Ok (sha256_Sum256 encoded).

Definition entity_component_check (component : string) : gerr :=
  fail_if (str_empty component)
    (ErrNew "customer: entity affinity component is required") ;;!
  fail_if (contains_nul component)
    (ErrNew "customer: entity affinity component contains NUL").

Definition EntityHash (group entityID : string) : result BusinessHash :=
  for_each entity_component_check [group; entityID] ;;!
  let! encoded := canonicalStrings [entityAffinityDomain; group; entityID] in
  Ok (sha256_Sum256 encoded).

Definition SHA256RendezvousScore (input : ScoreInput) : result RoutingScore :=
  if negb (str_eqb (si_Algorithm input) RendezvousSHA256Contract)
  then Err (ErrNew "customer: unsupported default routing algorithm") else
  if str_empty (si_ScalingGroup input) || str_empty (si_BrokerID input) ||
     negb (utf8_ValidString (si_ScalingGroup input)) ||
     negb (utf8_ValidString (si_BrokerID input))
  then Err (ErrNew "customer: rendezvous group and broker ID must be non-empty valid UTF-8") else
  let! encoded := canonicalBytes
    [bytes_of (si_Algorithm input); bytes_of (si_ScalingGroup input);
     si_BusinessHash input; bytes_of (si_BrokerID input)] in
  Ok (sha256_Sum256 encoded).

(** [CustomerLibraryFuncs]: nil function fields are [None]. *)
Record CustomerLibraryFuncs (P : Type) := mkCustomerLibraryFuncs {
  f_ScalingGroup : option (MessageView P -> result string);
  f_BusinessHash : option (MessageView P -> result BusinessHash);
  f_RendezvousScore : option (ScoreInput -> result RoutingScore);
  f_Algorithm : string;
}.

Definition funcs_library {P} (f : CustomerLibraryFuncs P) : CustomerLibrary P := {|
  GetScalingGroup message :=
    match f_ScalingGroup P f with
    | None => Err (ErrNew "customer: GetScalingGroup is not configured")
    | Some g => g message
    end;
  GetBusinessHash message :=
    match f_BusinessHash P f with
    | None => Err (ErrNew "customer: GetBusinessHash is not configured")
    | Some g => g message
    end;
  lib_policy := Some {|
    GetRendezvousScore input :=
      match f_RendezvousScore P f with
      | None => SHA256RendezvousScore input
      | Some g => g input
      end;
    RoutingAlgorithm :=
      if str_empty (f_Algorithm P f) then RendezvousSHA256Contract else f_Algorithm P f;
  |};
|}.

(** [EntityCustomerLibrary]. *)
Definition entity_GetScalingGroup {P} (message : MessageView P) : result string :=
  let group := header message "scaling-group" in
  if negb (str_eqb group "events-a") && negb (str_eqb group "events-b")
  then Err (ErrNew "customer: unsupported scaling group") else Ok group.

Definition EntityCustomerLibrary (P : Type) : CustomerLibrary P := {|
  GetScalingGroup := entity_GetScalingGroup;
  GetBusinessHash message :=
    EntityHash (header message "scaling-group") (header message "entity_id");
  lib_policy := Some {|
    GetRendezvousScore := SHA256RendezvousScore;
    RoutingAlgorithm := RendezvousSHA256Contract;
  |};
|}.
End Hashing.

(** ** Hexadecimal *)
Definition hex_digit (n : Z) : ascii :=
  ascii_of_N (Z.to_N (if n <? 10 then 48 + n else 87 + n)).

Definition from_hex (c : ascii) : option Z :=
  let b := byte_val c in
  if (48 <=? b) && (b <=? 57) then Some (b - 48)
  else if (97 <=? b) && (b <=? 102) then Some (b - 87)
  else if (65 <=? b) && (b <=? 70) then Some (b - 55)
  else None.

(** [hex.EncodeToString]. *)
Fixpoint hex_EncodeToString (l : list Z) : string :=
  match l with
  | [] => EmptyString
  | b :: l => String (hex_digit (Z.shiftr b 4))
                (String (hex_digit (Z.land b 15)) (hex_EncodeToString l))
  end.

(** [hex.DecodeString]: [None] stands for any of its errors. *)
Fixpoint hex_DecodeString (s : string) : option (list Z) :=
  match s with
  | EmptyString => Some []
  | String _ EmptyString => None
  | String a (String b rest) =>
      match from_hex a, from_hex b with
      | Some hi, Some lo =>
          match hex_DecodeString rest with
          | Some l => Some (Z.lor (Z.shiftl hi 4) lo :: l)
          | None => None
          end
      | _, _ => None
      end
  end.

Definition hash_error : gerror :=
  ErrNew "customer: business hash must contain exactly 64 lowercase hex digits".

Definition ParseBusinessHash (value : string) : result BusinessHash :=
  if negb (len value =? 64) then Err hash_error else
  match hex_DecodeString value with
  | None => Err hash_error
  | Some decoded =>
      if negb (str_eqb (hex_EncodeToString decoded) value) then Err hash_error
      else Ok decoded
  end.

(** ** Facts about the canonical encoding *)
Lemma be32_inj n m :
  0 <= n <= max_u32 -> 0 <= m <= max_u32 -> be32 n = be32 m -> n = m.
Proof.
  unfold be32, max_u32. intros Hn Hm H. injection H as H1 H2 H3 H4.
  change 255 with (Z.ones 8) in *.
  rewrite !Z.land_ones, !Z.shiftr_div_pow2 in * by lia.
  change (2 ^ 8) with 256 in *. change (2 ^ 16) with 65536 in *.
  change (2 ^ 24) with 16777216 in *. Z.div_mod_to_equations. lia.
Qed.

Lemma canonical_total_bounds components total t :
  canonical_total total components = Ok t ->
  Forall (fun c => Z.of_nat (length c) <= max_u32) components.
Proof.
  revert total. induction components as [|c l IH]; intros total H; simpl in H; [constructor|].
  case_match eqn:E; [done|]. to_prop. constructor; [lia|]. by eapply IH.
Qed.

Lemma canonical_component_app_inj c d x y :
  Z.of_nat (length c) <= max_u32 -> Z.of_nat (length d) <= max_u32 ->
  canonical_component c ++ x = canonical_component d ++ y -> c = d /\ x = y.
Proof.
  intros Hc Hd. unfold canonical_component. rewrite <- !app_assoc. intros H.
  apply app_inj_1 in H as [Hl H]; [|done].
  apply be32_inj in Hl; [|lia..].
  apply app_inj_1 in H; [done|lia].
Qed.

Lemma canonical_join_inj l1 l2 :
  Forall (fun c => Z.of_nat (length c) <= max_u32) l1 ->
  Forall (fun c => Z.of_nat (length c) <= max_u32) l2 ->
  mjoin (canonical_component <$> l1) = mjoin (canonical_component <$> l2) -> l1 = l2.
Proof.
  revert l2. induction l1 as [|c l1 IH]; intros [|d l2] H1 H2 H; simpl in H; try done.
  apply Forall_cons_1 in H1 as [? ?], H2 as [? ?].
  apply canonical_component_app_inj in H as [-> H]; [|done..]. f_equal. by apply IH.
Qed.

(** ** Facts about hexadecimal digits *)
Lemma hex_round_trip_digits :
  forallb (fun n => bool_decide (from_hex (hex_digit n) = Some n)) (seqZ 0 16) = true.
Proof. by vm_compute. Qed.

Lemma from_hex_digit n : 0 <= n < 16 -> from_hex (hex_digit n) = Some n.
Proof.
  intros Hn. pose proof hex_round_trip_digits as H. rewrite forallb_forall in H.
  specialize (H n). rewrite bool_decide_eq_true in H. apply H.
  apply list_elem_of_In, elem_of_seqZ. lia.
Qed.

Lemma nibbles b : is_byte b ->
  0 <= Z.shiftr b 4 < 16 /\ 0 <= Z.land b 15 < 16 /\
  Z.lor (Z.shiftl (Z.shiftr b 4) 4) (Z.land b 15) = b.
Proof.
  unfold is_byte. intros Hb. change 15 with (Z.ones 4).
  rewrite Z.land_ones, Z.shiftr_div_pow2 by lia. change (2 ^ 4) with 16.
  split_and!; try (Z.div_mod_to_equations; lia).
  rewrite Z.shiftl_mul_pow2 by lia. change (2 ^ 4) with 16.
  pose proof (Z.add_lor_land (b / 16 * 16) (b mod 16)) as Hl.
  assert (Z.land (b / 16 * 16) (b mod 16) = 0) as H0.
  { apply Z.bits_inj'. intros i Hi. rewrite Z.bits_0, Z.land_spec.
    change 16 with (2 ^ 4). destruct (Z.ltb_spec i 4).
    - by rewrite Z.mul_pow2_bits_low by lia.
    - rewrite Z.mod_pow2_bits_high by lia. apply andb_false_r. }
  rewrite H0 in Hl. Z.div_mod_to_equations. lia.
Qed.

Lemma hex_decode_encode l :
  Forall is_byte l -> hex_DecodeString (hex_EncodeToString l) = Some l.
Proof.
  induction 1 as [|b l Hb Hl IH]; [done|]. simpl.
  destruct (nibbles b Hb) as (H1 & H2 & H3).
  by rewrite !from_hex_digit, IH, H3.
Qed.

Lemma hex_encode_length l : String.length (hex_EncodeToString l) = (2 * length l)%nat.
Proof. induction l as [|b l IH]; simpl; lia. Qed.

Lemma from_hex_range c n : from_hex c = Some n -> 0 <= n < 16.
Proof. unfold from_hex. intros H. go_inv H; to_prop; lia. Qed.

Lemma hex_decode_is_byte s l : hex_DecodeString s = Some l -> Forall is_byte l.
Proof.
  revert l. induction s as [s IH] using (induction_ltof1 _ String.length); unfold ltof in IH.
  intros l H. destruct s as [|a [|b s]]; simpl in H; [by simplify_eq|done|].
  go_inv H. constructor; [|by eapply IH; [|done]; simpl; lia].
  repeat match goal with H : from_hex _ = Some _ |- _ => apply from_hex_range in H end.
  unfold is_byte. rewrite Z.shiftl_mul_pow2 by lia. change (2 ^ 4) with 16.
  match goal with |- 0 <= Z.lor ?x ?y < 256 =>
    pose proof (Z.add_lor_land x y); pose proof (Z.land_nonneg x y);
    pose proof (Z.lor_nonneg x y) end. lia.
Qed.

(** ** Properties *)

(** The canonical length-prefixed encoding is injective: two component
    sequences that encode to the same bytes are the same sequence, so distinct
    (algorithm, group, hash, broker) or (domain, group, entity) inputs never
    reach SHA-256 as equal messages. *)
Lemma canonicalBytes_injective l1 l2 e :
  canonicalBytes l1 = Ok e -> canonicalBytes l2 = Ok e -> l1 = l2.
Proof.
  unfold canonicalBytes. intros H1 H2. go_inv H1. go_inv H2.
  apply canonical_join_inj; [by eapply canonical_total_bounds..|congruence].
Qed.

(** The wire form of a business hash round-trips, and it is canonical:
    parsing accepts exactly the lowercase hexadecimal encodings of 32-byte
    hashes, each as the hash it encodes. *)
Theorem ParseBusinessHash_spec value h :
  ParseBusinessHash value = Ok h <-> is_digest h /\ value = hex_EncodeToString h.
Proof.
  unfold ParseBusinessHash, is_digest, DigestBytes. split.
  - intros H. go_inv H. to_prop. rewrite str_eqb_true in *. subst.
    unfold len in *. rewrite hex_encode_length in *. split; [|done].
    split; [lia|]. by eapply hex_decode_is_byte.
  - intros [[Hl Hb] ->]. unfold len.
    rewrite hex_encode_length, Hl, hex_decode_encode, str_eqb_refl by done. done.
Qed.
