(* ===== verification/Routing.v ===== *)
(** * Rendezvous broker selection (routing/membership.go)

    [RendezvousBroker] asks the customer policy for one score per candidate and
    keeps the highest, smaller broker ID first on a collision.  The theorems say
    that the choice depends on the membership as a set only, and that adding or
    removing one broker moves only the keys that must move. *)

From S2P Require Import Prelude Customer.
From Stdlib Require Import ZArith Lia.
From stdpp Require Import base gmap strings list numbers option.
#[local] Open Scope Z_scope.

(** [bytes.Compare]. *)
Fixpoint bytes_Compare (a b : list Z) : comparison :=
  match a, b with
  | [], [] => Eq
  | [], _ :: _ => Lt
  | _ :: _, [] => Gt
  | x :: a, y :: b =>
      match Z.compare x y with
      | Eq => bytes_Compare a b
      | c => c
      end
  end.

Section Rendezvous.
Context (score : string -> result RoutingScore).

(** [comparison > 0 || comparison == 0 && brokerID < selected]. *)
Definition preferred (brokerID : string) (s : RoutingScore)
    (selected : string) (highest : RoutingScore) : bool :=
  match bytes_Compare s highest with
  | Gt => true
  | Eq => str_ltb brokerID selected
  | Lt => false
  end.

(** The selection loop over the membership. *)
Fixpoint rendezvous_loop (seen : gset string) (selected : string)
    (highest : RoutingScore) (membership : list string) : result string :=
  match membership with
  | [] => Ok selected
  | brokerID :: rest =>
      if str_empty brokerID then Err (ErrNew "routing: broker ID is empty") else
      if bool_decide (brokerID ∈ seen) then Err (ErrNew "routing: duplicate broker ID") else
      match score brokerID with
      | Err e => Err (ErrWrap "routing: score broker" e)
      | Ok s =>
          if str_empty selected || preferred brokerID s selected highest
          then rendezvous_loop ({[brokerID]} ∪ seen) brokerID s rest
          else rendezvous_loop ({[brokerID]} ∪ seen) selected highest rest
      end
  end.
End Rendezvous.

Definition RendezvousBroker (policy : option RoutingHashPolicy) (group : string)
    (businessHash : BusinessHash) (membership : list string) : result string :=
  match policy with
  | None => Err (ErrNew "routing: customer hash policy is required")
  | Some policy =>
      if bool_decide (membership = []) then Err (ErrNew "routing: broker membership is empty") else
      let algorithm := RoutingAlgorithm policy in
      if str_empty algorithm
      then Err (ErrNew "routing: customer library returned an empty routing algorithm") else
      rendezvous_loop
        (fun brokerID => GetRendezvousScore policy {|
           si_Algorithm := algorithm; si_ScalingGroup := group;
           si_BusinessHash := businessHash; si_BrokerID := brokerID |})
        ∅ ""%string zero_digest membership
  end.

(** ** The order on scores *)
Lemma bytes_Compare_refl a : bytes_Compare a a = Eq.
Proof. induction a as [|x a IH]; simpl; [done|]. by rewrite Z.compare_refl. Qed.

Lemma bytes_Compare_eq a b : bytes_Compare a b = Eq -> a = b.
Proof.
  revert b. induction a as [|x a IH]; intros [|y b] H; simpl in H; try done.
  destruct (Z.compare x y) eqn:E; try done.
  apply Z.compare_eq in E. subst. f_equal. by apply IH.
Qed.

Lemma bytes_Compare_antisym a b : bytes_Compare b a = CompOpp (bytes_Compare a b).
Proof.
  revert b. induction a as [|x a IH]; intros [|y b]; simpl; try done.
  rewrite (Z.compare_antisym x y). destruct (Z.compare x y); simpl; done.
Qed.

Lemma bytes_Compare_lt_trans a b c :
  bytes_Compare a b = Lt -> bytes_Compare b c = Lt -> bytes_Compare a c = Lt.
Proof.
  revert b c. induction a as [|x a IH]; intros [|y b] [|z c]; simpl; try done.
  destruct (Z.compare_spec x y), (Z.compare_spec y z), (Z.compare_spec x z);
    subst; try done; try lia. apply IH.
Qed.

Section Spec.
Context (score : string -> result RoutingScore).

(** [x] is worse than [y]: lower score, or the same score and a larger ID. *)
Definition worse (x y : string) : Prop :=
  exists sx sy, score x = Ok sx /\ score y = Ok sy /\
    (bytes_Compare sx sy = Lt \/ sx = sy /\ str_ltb y x = true).

(** [b] is the winner among the candidates [l]. *)
Definition winner (b : string) (l : list string) : Prop :=
  b ∈ l /\ forall x, x ∈ l -> x = b \/ worse x b.

(** The candidate lists the router accepts. *)
Definition routable (l : list string) : Prop :=
  l <> [] /\ NoDup l /\ (""%string ∉ l) /\ forall x, x ∈ l -> exists s, score x = Ok s.

Lemma worse_irrefl x : ~ worse x x.
Proof.
  intros (s & s' & H1 & H2 & [H|[_ H]]); ok_inj.
  - by rewrite bytes_Compare_refl in H.
  - by rewrite str_ltb_irrefl in H.
Qed.

Lemma worse_trans x y z : worse x y -> worse y z -> worse x z.
Proof.
  intros (sx & sy & Hx & Hy & H1) (sy' & sz & Hy' & Hz & H2). ok_inj.
  exists sx, sz. split_and!; [done..|].
  destruct H1 as [H1|[-> H1]], H2 as [H2|[-> H2]]; eauto using bytes_Compare_lt_trans.
  right. split; [done|]. by eapply str_ltb_trans.
Qed.

Lemma winner_unique b c l : winner b l -> winner c l -> b = c.
Proof.
  intros [Hb Wb] [Hc Wc]. destruct (Wb c Hc) as [?|H1]; [done|].
  destruct (Wc b Hb) as [?|H2]; [done|].
  destruct (worse_irrefl b). by eapply worse_trans.
Qed.

Lemma preferred_spec x sx y sy :
  score x = Ok sx -> score y = Ok sy -> x <> y ->
  if preferred x sx y sy then worse y x else worse x y.
Proof.
  intros Hx Hy Hne. unfold preferred, worse.
  destruct (bytes_Compare sx sy) eqn:E.
  - apply bytes_Compare_eq in E. subst. destruct (str_ltb x y) eqn:E2; [by eauto 10|].
    exists sy, sy. split_and!; [done..|]. right. split; [done|].
    destruct (str_ltb y x) eqn:E3; [done|]. by destruct (str_ltb_total _ _ E2 E3).
  - eauto 10.
  - exists sy, sx. split_and!; [done..|]. left. rewrite bytes_Compare_antisym. by rewrite E.
Qed.

Lemma winner_snoc_new b c l :
  winner b l -> worse b c -> winner c (l ++ [c]).
Proof.
  intros [Hb Wb] Hw. split; [set_solver|].
  intros x [Hx| ->%list_elem_of_singleton]%elem_of_app; [|by left].
  right. destruct (Wb x Hx) as [->|?]; [done|]. by eapply worse_trans.
Qed.

Lemma winner_snoc_old b c l :
  winner b l -> worse c b -> winner b (l ++ [c]).
Proof.
  intros [Hb Wb] Hw. split; [set_solver|].
  intros x [Hx| ->%list_elem_of_singleton]%elem_of_app; [by apply Wb|by right].
Qed.

(** The loop, started after the prefix [done] with its winner selected. *)
Lemma rendezvous_loop_spec rest : forall pre sel hi seen,
  (forall x, x ∈ seen <-> x ∈ pre) ->
  NoDup pre -> ""%string ∉ pre -> (forall x, x ∈ pre -> exists s, score x = Ok s) ->
  (pre = [] /\ sel = ""%string \/ pre <> [] /\ winner sel pre /\ score sel = Ok hi) ->
  forall b,
  rendezvous_loop score seen sel hi rest = Ok b <->
  (pre ++ rest = [] /\ b = sel \/ routable (pre ++ rest) /\ winner b (pre ++ rest)).
Proof.
  induction rest as [|x rest IH]; intros pre sel hi seen Hseen Hnd Hne Hsc Hsel b; simpl.
  - rewrite app_nil_r. split.
    + intros ?; simplify_eq. destruct Hsel as [[-> ->]|(? & ? & ?)]; [by left|].
      right. done.
    + intros [[-> ->]|[Hr Hw]]; [done|].
      destruct Hsel as [[-> ->]|(? & Hw' & ?)]; [by destruct Hr|].
      by rewrite (winner_unique _ _ _ Hw Hw').
  - assert (pre ++ x :: rest <> []) as Hnn by (intros [_ ?]%app_nil; done).
    destruct (str_empty x) eqn:Ex.
    { apply str_empty_true in Ex. subst. split; [done|].
      intros [[? ?]|[(_ & _ & Hn & _) _]]; [done|]. set_solver. }
    apply str_empty_false in Ex. case_bool_decide as Hin.
    { split; [done|]. intros [[? ?]|[(_ & Hn & _) _]]; [done|].
      apply Hseen in Hin. apply list.NoDup_app in Hn as (_ & Hn & _). set_solver. }
    rewrite Hseen in Hin. destruct (score x) as [s|e] eqn:Es.
    2:{ split; [done|]. intros [[? ?]|[(_ & _ & _ & Hn) _]]; [done|].
        destruct (Hn x) as [? ?]; [set_solver|congruence]. }
    assert (forall sel' hi', winner sel' (pre ++ [x]) -> score sel' = Ok hi' ->
      (rendezvous_loop score ({[x]} ∪ seen) sel' hi' rest = Ok b <->
       pre ++ x :: rest = [] /\ b = sel \/
       routable (pre ++ x :: rest) /\ winner b (pre ++ x :: rest))) as Hgo.
    { intros sel' hi' Hw' Hs'. rewrite (IH (pre ++ [x])).
      - rewrite <- app_assoc. simpl. split; (intros [[H ?]|?]; [by destruct pre|by right]).
      - intros y. specialize (Hseen y). set_solver.
      - apply list.NoDup_app. split_and!; [done|set_solver|apply NoDup_singleton].
      - set_solver.
      - intros y [Hy| ->%list_elem_of_singleton]%elem_of_app; eauto.
      - right. split; [intros [_ ?]%app_nil; done|done]. }
    destruct Hsel as [[-> ->]|(Hp & Hw & Hs)].
    + simpl. apply Hgo; [|done]. split; [set_solver|]. intros y Hy. left. set_solver.
    + assert (sel <> x) as Hnx by (intros ->; by destruct Hw).
      assert (str_empty sel = false) as ->.
      { apply str_empty_false. intros ->. by destruct Hw. }
      simpl. pose proof (preferred_spec x s sel hi Es Hs (not_eq_sym Hnx)) as Hpr.
      case_match; apply Hgo; eauto using winner_snoc_new, winner_snoc_old.
Qed.
End Spec.

Definition policy_score (policy : RoutingHashPolicy) (group : string) (h : BusinessHash)
    (brokerID : string) : result RoutingScore :=
  GetRendezvousScore policy {|
    si_Algorithm := RoutingAlgorithm policy; si_ScalingGroup := group;
    si_BusinessHash := h; si_BrokerID := brokerID |}.

Lemma RendezvousBroker_ok policy group h l b :
  RendezvousBroker (Some policy) group h l = Ok b <->
  RoutingAlgorithm policy <> ""%string /\
  routable (policy_score policy group h) l /\ winner (policy_score policy group h) b l.
Proof.
  unfold RendezvousBroker. case_bool_decide as Hl.
  { split; [done|]. by intros (_ & [? _] & _). }
  destruct (str_empty _) eqn:Ea.
  { apply str_empty_true in Ea. split; [done|]. by intros [? _]. }
  apply str_empty_false in Ea.
  pose proof (rendezvous_loop_spec (policy_score policy group h) l [] ""%string zero_digest ∅) as H.
  unfold policy_score in H at 2. rewrite H; [|set_solver|constructor|set_solver|set_solver|by left].
  simpl. naive_solver.
Qed.

(** ** Properties *)

(** C20: a successful selection returns a member of the membership, and every
    other member scores strictly lower, or equally with a larger broker ID. *)
Theorem RendezvousBroker_winner policy group h membership b :
  RendezvousBroker (Some policy) group h membership = Ok b ->
  b ∈ membership /\
  forall x, x ∈ membership -> x = b \/ worse (policy_score policy group h) x b.
Proof. intros (_ & _ & Hw)%RendezvousBroker_ok. exact Hw. Qed.

(** Selection depends on the membership as a set: any reordering of the
    list selects the same broker (and is rejected when the original is). *)
Theorem RendezvousBroker_permutation policy group h l1 l2 b :
  l1 ≡ₚ l2 ->
  RendezvousBroker (Some policy) group h l1 = Ok b <->
  RendezvousBroker (Some policy) group h l2 = Ok b.
Proof.
  intros Hp. rewrite !RendezvousBroker_ok. unfold routable, winner.
  assert (forall x, x ∈ l1 <-> x ∈ l2) as Hx by (intros x; by rewrite Hp).
  assert (l1 <> [] <-> l2 <> []) as Hnil.
  { split; intros Hne ->; apply Hne; [by apply Permutation_nil_r in Hp|].
    by apply symmetry, Permutation_nil_r in Hp. }
  rewrite Hnil, Hp. setoid_rewrite Hx. done.
Qed.

(** Minimal disruption.  When a membership grows by one broker, a key
    either stays where it was or moves to the new broker; when it shrinks by a
    broker that did not own the key, the key does not move. *)
Theorem RendezvousBroker_minimal_disruption policy group h l new b b' :
  RendezvousBroker (Some policy) group h l = Ok b ->
  RendezvousBroker (Some policy) group h (new :: l) = Ok b' ->
  (b' = b \/ b' = new) /\ (b' <> new -> RendezvousBroker (Some policy) group h l = Ok b').
Proof.
  intros Hb Hb'. rewrite !RendezvousBroker_ok in *.
  destruct Hb as (Ha & Hr & Hw), Hb' as (_ & Hr' & [Hin' Hw']).
  assert (b' <> new -> b' = b) as Hkey.
  { intros Hne. apply (winner_unique (policy_score policy group h) _ _ l); [|done].
    split; [set_solver|]. intros x Hx. apply Hw'. set_solver. }
  split.
  - destruct (decide (b' = new)); auto.
  - intros Hne. by rewrite (Hkey Hne).
Qed.

(** A policy that scores a broker by the bytes of its identifier. *)
Definition by_name : RoutingHashPolicy :=
  mkRoutingHashPolicy (fun i => Ok (bytes_of (si_BrokerID i))) "by-name".

Lemma RendezvousBroker_winner_witness :
  "b2"%string ∈ ["b1"; "b2"]%string /\
  forall x, x ∈ ["b1"; "b2"]%string -> x = "b2"%string \/ worse (policy_score by_name "g" []) x "b2".
Proof. apply RendezvousBroker_winner. vm_compute. reflexivity. Defined.

Lemma RendezvousBroker_minimal_disruption_witness :
  ("b3"%string = "b2"%string \/ "b3"%string = "b3"%string) /\
  ("b3"%string <> "b3"%string -> RendezvousBroker (Some by_name) "g" [] ["b1"; "b2"]%string = Ok "b3"%string).
Proof.
  apply (RendezvousBroker_minimal_disruption by_name "g" [] ["b1"; "b2"]%string);
    vm_compute; reflexivity.
Defined.
