(* ===== verification/Snapshot.v ===== *)
(** * Membership snapshots (control/snapshot.go)

    The versioned control-plane document and its validation.  Membership lists
    are ordered and compared in order; validation normalises nothing.
    [net/url.Parse] is an argument of the definitions that use it. *)

From S2P Require Import Prelude.
From Stdlib Require Import ZArith Lia.
From stdpp Require Import base gmap strings list numbers option.
#[local] Open Scope Z_scope.

(** ** URLs: the fields of [url.URL] the code reads *)
Record URL := mkURL {
  url_Scheme : string;
  url_Host : string;
  url_User : option string;
  url_Path : string;
  url_RawQuery : string;
  url_Fragment : string;
}.

(** [None] stands for a parse error. *)
Class NetURL := url_Parse : string -> option URL.

Definition url_IsAbs (u : URL) : bool := negb (str_empty (url_Scheme u)).

(** ** Data *)
Definition SnapshotVersion : Z := 3.
Definition AlgorithmRendezvousV1 : string := "swlb-rendezvous-v1".
Definition maxSnapshotBytes : Z := 1048576.
Definition maxIdentifierBytes : Z := 1024.
Definition maxMembershipSize : Z := 65536.

(** [control.Phase], a string type: any other value is [COther]. *)
Inductive CtlPhase : Type :=
| CActive | CPrepare | CPaused | CDrain | CCommitted | COther (s : string).

#[export] Instance CtlPhase_eq_dec : EqDecision CtlPhase.
Proof. solve_decision. Defined.

Abbreviation Membership := (list string) (only parsing).

Record Transition := mkTransition {
  tr_ID : string;
  tr_FromEpoch : Z;
  tr_ToEpoch : Z;
}.

Record QueueInfo := mkQueueInfo { q_Name : string; q_Durable : bool }.

Inductive DestinationKind : Type :=
| DestinationTopic | DestinationQueue | DestinationOther (s : string).

Record DestinationInfo := mkDestinationInfo { d_Kind : DestinationKind; d_Name : string }.

Record BrokerDescriptor := mkBrokerDescriptor { bd_ID : string; bd_Endpoint : string }.

Record EpochResourceIdentity := mkEpochResourceIdentity {
  er_Epoch : Z;
  er_BrokerID : string;
  er_ConsumerSet : string;
  er_QueueName : string;
  er_IngressTopic : string;
}.

Record MembershipSnapshot := mkMembershipSnapshot {
  ms_Version : Z;
  ms_Namespace : string;
  ms_LibraryVersion : string;
  ms_ScalingGroup : string;
  ms_Revision : Z;
  ms_Epoch : Z;
  ms_Phase : CtlPhase;
  ms_HashContract : string;
  ms_Algorithm : string;
  ms_CurrentMembership : Membership;
  ms_ProposedMembership : Membership;
  ms_CurrentBrokers : list BrokerDescriptor;
  ms_ProposedBrokers : list BrokerDescriptor;
  ms_Transition : option Transition;
  ms_Queue : QueueInfo;
  ms_Destination : DestinationInfo;
  ms_CurrentResources : list EpochResourceIdentity;
  ms_ProposedResources : list EpochResourceIdentity;
}.

#[export] Instance Transition_eq_dec : EqDecision Transition.
Proof. solve_decision. Defined.
#[export] Instance QueueInfo_eq_dec : EqDecision QueueInfo.
Proof. solve_decision. Defined.
#[export] Instance DestinationKind_eq_dec : EqDecision DestinationKind.
Proof. solve_decision. Defined.
#[export] Instance DestinationInfo_eq_dec : EqDecision DestinationInfo.
Proof. solve_decision. Defined.
#[export] Instance BrokerDescriptor_eq_dec : EqDecision BrokerDescriptor.
Proof. solve_decision. Defined.
#[export] Instance EpochResourceIdentity_eq_dec : EqDecision EpochResourceIdentity.
Proof. solve_decision. Defined.
#[export] Instance MembershipSnapshot_eq_dec : EqDecision MembershipSnapshot.
Proof. solve_decision. Defined.

(** ** Equality *)
Fixpoint slicesEqual (left right : list string) : bool :=
  match left, right with
  | [], [] => true
  | x :: l, y :: r => str_eqb x y && slicesEqual l r
  | _, _ => false
  end.

Definition brokerDescriptorsEqual (left right : list BrokerDescriptor) : bool :=
  bool_decide (left = right).
Definition resourcesEqual (left right : list EpochResourceIdentity) : bool :=
  bool_decide (left = right).

Definition snapshotsEqual (left right : MembershipSnapshot) : bool :=
  (ms_Version left =? ms_Version right) &&
  str_eqb (ms_Namespace left) (ms_Namespace right) &&
  str_eqb (ms_LibraryVersion left) (ms_LibraryVersion right) &&
  str_eqb (ms_ScalingGroup left) (ms_ScalingGroup right) &&
  (ms_Revision left =? ms_Revision right) &&
  (ms_Epoch left =? ms_Epoch right) &&
  bool_decide (ms_Phase left = ms_Phase right) &&
  str_eqb (ms_HashContract left) (ms_HashContract right) &&
  str_eqb (ms_Algorithm left) (ms_Algorithm right) &&
  slicesEqual (ms_CurrentMembership left) (ms_CurrentMembership right) &&
  slicesEqual (ms_ProposedMembership left) (ms_ProposedMembership right) &&
  bool_decide (ms_Queue left = ms_Queue right) &&
  bool_decide (ms_Destination left = ms_Destination right) &&
  brokerDescriptorsEqual (ms_CurrentBrokers left) (ms_CurrentBrokers right) &&
  brokerDescriptorsEqual (ms_ProposedBrokers left) (ms_ProposedBrokers right) &&
  resourcesEqual (ms_CurrentResources left) (ms_CurrentResources right) &&
  resourcesEqual (ms_ProposedResources left) (ms_ProposedResources right) &&
  match ms_Transition left, ms_Transition right with
  | Some l, Some r => bool_decide (l = r)
  | None, None => true
  | _, _ => false
  end.

(** ** Validation *)
Section Validate.
Context {net_url : NetURL}.

Definition validateIdentifier (value : string) : gerr :=
  fail_if (str_empty value || (maxIdentifierBytes <? len value) ||
           negb (utf8_ValidString value) || bool_decide (0 ∈ bytes_of value))
    (ErrNew "control: must be 1-1024 valid UTF-8 bytes without NUL") ;;!
  fail_if (existsb unicode_IsControl (runes value))
    (ErrNew "control: contains a control character") ;;!
  match url_Parse value with
  | Some parsed =>
      fail_if (url_IsAbs parsed && bool_decide (is_Some (url_User parsed)))
        (ErrNew "control: must not contain URL credentials")
  | None => nil_err
  end.

Definition name_rune (r : Z) : bool :=
  ((97 <=? r) && (r <=? 122)) || ((48 <=? r) && (r <=? 57)) ||
  (r =? 45) || (r =? 95) || (r =? 46).

Definition validateNameComponent (value : string) : gerr :=
  validateIdentifier value ;;!
  fail_if (existsb (fun r => negb (name_rune r)) (runes value))
    (ErrNew "control: must contain only lowercase letters, digits, dash, underscore, or dot").

Fixpoint membership_loop (seen : gset string) (membership : Membership) : gerr :=
  match membership with
  | [] => nil_err
  | broker :: rest =>
      validateIdentifier broker ;;!
      fail_if (bool_decide (broker ∈ seen)) (ErrNew "control: contains duplicate broker") ;;!
      membership_loop ({[broker]} ∪ seen) rest
  end.

Definition validateMembership (membership : Membership) (required : bool) : gerr :=
  fail_if (required && bool_decide (membership = [])) (ErrNew "control: must not be empty") ;;!
  fail_if (maxMembershipSize <? Z.of_nat (length membership))
    (ErrNew "control: exceeds maximum brokers") ;;!
  membership_loop ∅ membership.

(** The endpoint must be an absolute credential-free AMQP URL. *)
Definition endpoint_ok (endpoint : string) : bool :=
  match url_Parse endpoint with
  | None => false
  | Some u =>
      negb (str_empty (url_Host u) || bool_decide (is_Some (url_User u)) ||
            (negb (str_empty (url_Path u)) && negb (str_eqb (url_Path u) "/")) ||
            negb (str_empty (url_RawQuery u)) || negb (str_empty (url_Fragment u)) ||
            (negb (str_eqb (url_Scheme u) "amqp") && negb (str_eqb (url_Scheme u) "amqps") &&
             negb (str_eqb (url_Scheme u) "amqp+ssl")))
  end.

Fixpoint descriptors_loop (members seen : gset string)
    (descriptors : list BrokerDescriptor) : gerr :=
  match descriptors with
  | [] => nil_err
  | d :: rest =>
      validateIdentifier (bd_ID d) ;;!
      fail_if (negb (bool_decide (bd_ID d ∈ members)))
        (ErrNew "control: contains unknown broker") ;;!
      fail_if (bool_decide (bd_ID d ∈ seen)) (ErrNew "control: repeats broker") ;;!
      fail_if (negb (endpoint_ok (bd_Endpoint d)))
        (ErrNew "control: endpoint must be an absolute credential-free AMQP URL") ;;!
      descriptors_loop members ({[bd_ID d]} ∪ seen) rest
  end.

Definition validateBrokerDescriptors (descriptors : list BrokerDescriptor)
    (membership : Membership) (required : bool) : gerr :=
  fail_if (required && negb (bool_decide (length descriptors = length membership)))
    (ErrNew "control: must describe every membership broker") ;;!
  fail_if (negb required && negb (bool_decide (descriptors = [])))
    (ErrNew "control: must be empty without membership") ;;!
  descriptors_loop (list_to_set membership) ∅ descriptors.

(** The accumulators of the [validateResources] loop. *)
Record resource_acc := mkResourceAcc {
  ra_seen : gset string;
  ra_queues : gset string;
  ra_consumerSets : gset string;
  ra_brokerSets : gmap string (gset string);
}.

Definition broker_sets (acc : resource_acc) (broker : string) : gset string :=
  default ∅ (ra_brokerSets acc !! broker).

Fixpoint resources_loop (epoch : Z) (brokers : gset string) (acc : resource_acc)
    (resources : list EpochResourceIdentity) : result resource_acc :=
  match resources with
  | [] => Ok acc
  | r :: rest =>
      fail_if (negb (er_Epoch r =? epoch)) (ErrNew "control: resource epoch does not match") ;;!
      validateNameComponent (er_BrokerID r) ;;!
      fail_if (negb (bool_decide (er_BrokerID r ∈ brokers)))
        (ErrNew "control: resource references broker outside membership") ;;!
      validateNameComponent (er_ConsumerSet r) ;;!
      validateIdentifier (er_QueueName r) ;;!
      validateIdentifier (er_IngressTopic r) ;;!
      let key := (er_BrokerID r +:+ NUL +:+ er_ConsumerSet r)%string in
      fail_if (bool_decide (key ∈ ra_seen acc))
        (ErrNew "control: contains duplicate broker consumer set") ;;!
      fail_if (bool_decide (er_QueueName r ∈ ra_queues acc))
        (ErrNew "control: contains duplicate queue name") ;;!
      resources_loop epoch brokers {|
        ra_seen := {[key]} ∪ ra_seen acc;
        ra_queues := {[er_QueueName r]} ∪ ra_queues acc;
        ra_consumerSets := {[er_ConsumerSet r]} ∪ ra_consumerSets acc;
        ra_brokerSets := <[er_BrokerID r := {[er_ConsumerSet r]} ∪ broker_sets acc (er_BrokerID r)]>
                           (ra_brokerSets acc) |} rest
  end.

Definition validateResources (resources : list EpochResourceIdentity) (epoch : Z)
    (membership : Membership) : gerr :=
  fail_if (bool_decide (resources = [])) (ErrNew "control: must not be empty") ;;!
  let! acc := resources_loop epoch (list_to_set membership)
    (mkResourceAcc ∅ ∅ ∅ ∅) resources in
  for_each (fun broker =>
    let sets := broker_sets acc broker in
    fail_if (negb (bool_decide (size sets = size (ra_consumerSets acc))))
      (ErrNew "control: broker does not cover every consumer set") ;;!
    for_each (fun consumerSet =>
      fail_if (negb (bool_decide (consumerSet ∈ sets)))
        (ErrNew "control: broker is missing consumer set"))
      (elements (ra_consumerSets acc))) membership.

(** The checks of [Validate] before the switch on the phase. *)
Definition validate_common (s : MembershipSnapshot) : gerr :=
  fail_if (negb (ms_Version s =? SnapshotVersion))
    (ErrNew "control: unsupported snapshot version") ;;!
  (if str_empty (ms_Namespace s) then nil_err else validateNameComponent (ms_Namespace s)) ;;!
  (if str_empty (ms_LibraryVersion s) then nil_err
   else validateIdentifier (ms_LibraryVersion s)) ;;!
  validateIdentifier (ms_ScalingGroup s) ;;!
  fail_if (ms_Revision s =? 0) (ErrNew "control: revision must be greater than zero") ;;!
  fail_if (ms_Epoch s =? 0) (ErrNew "control: epoch must be greater than zero") ;;!
  validateIdentifier (ms_HashContract s) ;;!
  validateIdentifier (ms_Algorithm s) ;;!
  validateMembership (ms_CurrentMembership s) true ;;!
  validateMembership (ms_ProposedMembership s) false ;;!
  validateBrokerDescriptors (ms_CurrentBrokers s) (ms_CurrentMembership s) true ;;!
  validateBrokerDescriptors (ms_ProposedBrokers s) (ms_ProposedMembership s)
    (negb (bool_decide (ms_ProposedMembership s = []))) ;;!
  validateIdentifier (q_Name (ms_Queue s)) ;;!
  fail_if (negb (q_Durable (ms_Queue s))) (ErrNew "control: queue must be durable") ;;!
  fail_if (negb (bool_decide (d_Kind (ms_Destination s) = DestinationTopic)))
    (ErrNew "control: v1 application ingress requires a topic destination") ;;!
  validateIdentifier (d_Name (ms_Destination s)) ;;!
  validateResources (ms_CurrentResources s) (ms_Epoch s) (ms_CurrentMembership s).

Definition validate_active (s : MembershipSnapshot) : gerr :=
  fail_if (negb (bool_decide (ms_ProposedMembership s = [])) ||
           bool_decide (is_Some (ms_Transition s)) ||
           negb (bool_decide (ms_ProposedResources s = [])) ||
           negb (bool_decide (ms_ProposedBrokers s = [])))
    (ErrNew "control: ACTIVE snapshot must not contain proposed state or transition").

Definition validate_committed (s : MembershipSnapshot) : gerr :=
  match ms_Transition s with
  | Some t =>
      fail_if (negb (bool_decide (ms_ProposedMembership s = [])) ||
               negb (bool_decide (ms_ProposedResources s = [])))
        (ErrNew "control: COMMITTED snapshot requires transition fields and current committed state only") ;;!
      validateIdentifier (tr_ID t) ;;!
      fail_if ((tr_FromEpoch t =? max_u64) || negb (tr_ToEpoch t =? u64 (tr_FromEpoch t + 1)) ||
               negb (ms_Epoch s =? tr_ToEpoch t))
        (ErrNew "control: COMMITTED epoch must equal the transition to_epoch")
  | None =>
      Err (ErrNew "control: COMMITTED snapshot requires transition fields and current committed state only")
  end.

Definition validate_transitioning (s : MembershipSnapshot) : gerr :=
  fail_if (bool_decide (ms_ProposedMembership s = []))
    (ErrNew "control: snapshot requires a proposed membership") ;;!
  match ms_Transition s with
  | Some t => validateResources (ms_ProposedResources s) (tr_ToEpoch t) (ms_ProposedMembership s)
  | None => nil_err
  end ;;!
  fail_if (slicesEqual (ms_CurrentMembership s) (ms_ProposedMembership s))
    (ErrNew "control: proposed membership must differ from current membership") ;;!
  match ms_Transition s with
  | None => Err (ErrNew "control: snapshot requires transition fields")
  | Some t =>
      validateIdentifier (tr_ID t) ;;!
      fail_if (negb (tr_FromEpoch t =? ms_Epoch s))
        (ErrNew "control: transition from_epoch must equal snapshot epoch") ;;!
      fail_if ((ms_Epoch s =? max_u64) || negb (tr_ToEpoch t =? u64 (ms_Epoch s + 1)))
        (ErrNew "control: transition to_epoch must immediately follow snapshot epoch")
  end.

Definition Validate (s : MembershipSnapshot) : gerr :=
  validate_common s ;;!
  match ms_Phase s with
  | CActive => validate_active s
  | CCommitted => validate_committed s
  | CPrepare | CPaused | CDrain => validate_transitioning s
  | COther _ => Err (ErrNew "control: unsupported phase")
  end.
End Validate.

(** [MembershipSnapshot.BrokerEndpoint]. *)
Fixpoint descriptor_endpoint (id : string) (descriptors : list BrokerDescriptor) : option string :=
  match descriptors with
  | [] => None
  | d :: rest => if str_eqb (bd_ID d) id then Some (bd_Endpoint d) else descriptor_endpoint id rest
  end.

Definition BrokerEndpoint (s : MembershipSnapshot) (id : string) (proposed : bool) : option string :=
  descriptor_endpoint id (if proposed then ms_ProposedBrokers s else ms_CurrentBrokers s).

(** ** Lemmas *)
Lemma slicesEqual_true l r : slicesEqual l r = true <-> l = r.
Proof.
  revert r. induction l as [|x l IH]; intros [|y r]; simpl; try done.
  rewrite andb_true_iff, str_eqb_true, IH. naive_solver.
Qed.

Lemma snapshotsEqual_true l r : snapshotsEqual l r = true <-> l = r.
Proof.
  split.
  - unfold snapshotsEqual. intros H. to_prop.
    repeat match goal with
    | H : str_eqb _ _ = true |- _ => apply str_eqb_true in H
    | H : slicesEqual _ _ = true |- _ => apply slicesEqual_true in H
    | H : brokerDescriptorsEqual _ _ = true |- _ => apply bool_decide_eq_true in H
    | H : resourcesEqual _ _ = true |- _ => apply bool_decide_eq_true in H
    end.
    destruct l, r; simpl in *; subst. f_equal. repeat case_match; to_prop; by subst.
  - intros ->. unfold snapshotsEqual, brokerDescriptorsEqual, resourcesEqual.
    rewrite !Z.eqb_refl, !str_eqb_refl, !bool_decide_eq_true_2 by done.
    rewrite !(proj2 (slicesEqual_true _ _)) by done.
    destruct (ms_Transition r); [|done]. by rewrite bool_decide_eq_true_2.
Qed.

(** Split a successful sequence of checks. *)
Ltac seq_ok :=
  repeat match goal with
  | H : match ?c with Ok _ => _ | Err _ => _ end = nil_err |- _ =>
      destruct c as [?|] eqn:?; [|discriminate H]
  | H : match ?c with Ok _ => _ | Err _ => _ end = Ok _ |- _ =>
      destruct c as [?|] eqn:?; [|discriminate H]
  | u : unit |- _ => destruct u
  end.

Section Lemmas.
Context {net_url : NetURL}.

Lemma membership_loop_NoDup l seen :
  membership_loop seen l = nil_err ->
  NoDup l /\ forall x, x ∈ l -> (x ∉ seen) /\ validateIdentifier x = nil_err.
Proof.
  revert seen. induction l as [|x l IH]; intros seen H; simpl in H.
  { split; [constructor|set_solver]. }
  seq_ok. apply IH in H as [Hnd Hall].
  match goal with H : fail_if _ _ = nil_err |- _ => apply fail_if_ok in H end. to_prop.
  split.
  - constructor; [|done]. intros Hx. apply Hall in Hx. set_solver.
  - intros y [->|Hy]%elem_of_cons; [done|]. apply Hall in Hy as [? ?]. set_solver.
Qed.

Lemma validateMembership_NoDup l req :
  validateMembership l req = nil_err ->
  NoDup l /\ (req = true -> l <> []) /\ forall x, x ∈ l -> validateIdentifier x = nil_err.
Proof.
  unfold validateMembership. intros H. seq_ok.
  apply membership_loop_NoDup in H as [Hnd Hall].
  repeat match goal with H : fail_if _ _ = nil_err |- _ => apply fail_if_ok in H end.
  split_and!; [done| |naive_solver]. intros -> ->. done.
Qed.

Lemma validateIdentifier_nonempty v : validateIdentifier v = nil_err -> v <> ""%string.
Proof. by intros H ->. Qed.
End Lemmas.
