(* ===== verification/Messages.v ===== *)
(** * Control messages (control/messages.go, control/bootstrap.go)

    Participant roles and the registration, command, acknowledgement and
    telemetry envelopes with their validation, and the snapshot request/reply
    pair of the bootstrap exchange.  An envelope is the decoded Go struct; [Wire]
    holds its JSON form. *)

From S2P Require Import Prelude Snapshot.
From Stdlib Require Import ZArith Lia.
From stdpp Require Import base gmap strings list numbers option.
#[local] Open Scope Z_scope.

Definition ProtocolVersion : Z := 1.
Definition BootstrapProtocolVersion : Z := 1.

(** [ParticipantRole], a string type: [RoleNone] is the empty string. *)
Inductive ParticipantRole : Type :=
| RoleNone | RolePublisher | RoleSubscriber | RoleBroker | RoleObserver
| RoleOther (s : string).

#[export] Instance ParticipantRole_eq_dec : EqDecision ParticipantRole.
Proof. solve_decision. Defined.

(** [string(role)]. *)
Definition role_string (r : ParticipantRole) : string :=
  match r with
  | RoleNone => ""
  | RolePublisher => "publisher"
  | RoleSubscriber => "subscriber"
  | RoleBroker => "broker"
  | RoleObserver => "observer"
  | RoleOther s => s
  end.

Definition role_Validate (r : ParticipantRole) : gerr :=
  match r with
  | RolePublisher | RoleSubscriber | RoleBroker | RoleObserver => nil_err
  | RoleNone | RoleOther _ => Err (ErrNew "control: unsupported participant role")
  end.

Definition validPhase (phase : CtlPhase) : bool :=
  match phase with
  | CActive | CPrepare | CPaused | CDrain | CCommitted => true
  | COther _ => false
  end.

Definition roleAllowed (role : ParticipantRole) (phase : CtlPhase) (telemetry : bool) : bool :=
  if telemetry
  then bool_decide (phase = CDrain) &&
       (bool_decide (role = RoleBroker) || bool_decide (role = RoleObserver))
  else match role with
       | RolePublisher => bool_decide (phase = CPaused) || bool_decide (phase = CActive)
       | RoleSubscriber =>
           bool_decide (phase = CPrepare) || bool_decide (phase = CDrain) ||
           bool_decide (phase = CActive)
       | RoleBroker => validPhase phase
       | _ => false
       end.

Record RegistrationEnvelope := mkRegistrationEnvelope {
  re_Version : Z; re_MessageID : string; re_Namespace : string; re_Group : string;
  re_TransitionID : string; re_Epoch : Z; re_Phase : CtlPhase; re_Participant : string;
  re_Role : ParticipantRole; re_ConsumerSet : string; re_LibraryVersion : string;
  re_ObservedAt : Time;
}.

Record CommandEnvelope := mkCommandEnvelope {
  ce_Version : Z; ce_MessageID : string; ce_Namespace : string; ce_Group : string;
  ce_TransitionID : string; ce_Epoch : Z; ce_Phase : CtlPhase; ce_Participant : string;
  ce_Role : ParticipantRole; ce_IssuedAt : Time; ce_Deadline : Time;
}.

Record AcknowledgementEnvelope := mkAcknowledgementEnvelope {
  ae_Version : Z; ae_MessageID : string; ae_CommandID : string; ae_Namespace : string;
  ae_Group : string; ae_TransitionID : string; ae_Epoch : Z; ae_Phase : CtlPhase;
  ae_Participant : string; ae_Role : ParticipantRole; ae_Ready : bool; ae_ObservedAt : Time;
}.

Record MetricCount := mkMetricCount { mc_Known : bool; mc_Value : Z }.

Record TelemetryEnvelope := mkTelemetryEnvelope {
  te_Version : Z; te_MessageID : string; te_Namespace : string; te_Group : string;
  te_TransitionID : string; te_Epoch : Z; te_Phase : CtlPhase; te_Participant : string;
  te_Role : ParticipantRole; te_SourceBroker : string; te_SourceQueue : string;
  te_ObservedAt : Time; te_Queued : MetricCount; te_Stored : MetricCount;
  te_Unacked : MetricCount;
}.

Record SnapshotRequest := mkSnapshotRequest {
  sr_Version : Z; sr_CorrelationID : string; sr_Namespace : string; sr_Group : string;
  sr_Participant : string; sr_Role : ParticipantRole; sr_RequestedAt : Time;
}.

Record SnapshotResponse := mkSnapshotResponse {
  sp_Version : Z; sp_CorrelationID : string; sp_Namespace : string; sp_Group : string;
  sp_Participant : string; sp_Role : ParticipantRole; sp_Snapshot : MembershipSnapshot;
}.

Section Validation.
Context {net_url : NetURL}.

(** The identifier loop ranges over a Go map; only the text of the error
    depends on its order. *)
Definition validateEnvelopeScope (version : Z)
    (messageID namespace group transitionID : string) (epoch : Z) (phase : CtlPhase)
    (participant : string) (role : ParticipantRole) (observedAt : Time)
    (transitionRequired : bool) : gerr :=
  fail_if (negb (version =? ProtocolVersion))
    (ErrNew "control: unsupported protocol version") ;;!
  for_each validateIdentifier [messageID; group; participant] ;;!
  validateNameComponent namespace ;;!
  (if transitionRequired || negb (str_empty transitionID)
   then validateIdentifier transitionID else nil_err) ;;!
  fail_if (epoch =? 0) (ErrNew "control: envelope epoch must be greater than zero") ;;!
  fail_if (negb (validPhase phase)) (ErrNew "control: unsupported phase") ;;!
  role_Validate role ;;!
  fail_if (time_IsZero observedAt) (ErrNew "control: envelope timestamp is required").

Definition registration_Validate (e : RegistrationEnvelope) : gerr :=
  validateEnvelopeScope (re_Version e) (re_MessageID e) (re_Namespace e) (re_Group e)
    (re_TransitionID e) (re_Epoch e) (re_Phase e) (re_Participant e) (re_Role e)
    (re_ObservedAt e) false ;;!
  fail_if (str_empty (re_LibraryVersion e))
    (ErrNew "control: registration library version is required") ;;!
  validateIdentifier (re_LibraryVersion e) ;;!
  if bool_decide (re_Role e = RoleSubscriber)
  then validateNameComponent (re_ConsumerSet e)
  else fail_if (negb (str_empty (re_ConsumerSet e)))
         (ErrNew "control: consumer set is valid only for subscriber registrations").

Definition command_Validate (e : CommandEnvelope) : gerr :=
  validateEnvelopeScope (ce_Version e) (ce_MessageID e) (ce_Namespace e) (ce_Group e)
    (ce_TransitionID e) (ce_Epoch e) (ce_Phase e) (ce_Participant e) (ce_Role e)
    (ce_IssuedAt e) true ;;!
  fail_if (negb (roleAllowed (ce_Role e) (ce_Phase e) false))
    (ErrNew "control: role cannot receive commands") ;;!
  fail_if (time_IsZero (ce_Deadline e) || negb (time_After (ce_Deadline e) (ce_IssuedAt e)))
    (ErrNew "control: command deadline must follow issued_at").

Definition ack_Validate (e : AcknowledgementEnvelope) : gerr :=
  validateEnvelopeScope (ae_Version e) (ae_MessageID e) (ae_Namespace e) (ae_Group e)
    (ae_TransitionID e) (ae_Epoch e) (ae_Phase e) (ae_Participant e) (ae_Role e)
    (ae_ObservedAt e) true ;;!
  validateIdentifier (ae_CommandID e) ;;!
  fail_if (negb (roleAllowed (ae_Role e) (ae_Phase e) false))
    (ErrNew "control: role cannot acknowledge commands") ;;!
  fail_if (negb (ae_Ready e))
    (ErrNew "control: acknowledgement must explicitly report ready").

Definition ValidateForCommand (e : AcknowledgementEnvelope) (command : CommandEnvelope) : gerr :=
  ack_Validate e ;;!
  wrap_err "control: invalid acknowledged command" (command_Validate command) ;;!
  fail_if (negb (str_eqb (ae_CommandID e) (ce_MessageID command)) ||
           negb (str_eqb (ae_Namespace e) (ce_Namespace command)) ||
           negb (str_eqb (ae_Group e) (ce_Group command)) ||
           negb (str_eqb (ae_TransitionID e) (ce_TransitionID command)) ||
           negb (ae_Epoch e =? ce_Epoch command) ||
           negb (bool_decide (ae_Phase e = ce_Phase command)) ||
           negb (str_eqb (ae_Participant e) (ce_Participant command)) ||
           negb (bool_decide (ae_Role e = ce_Role command)))
    (ErrNew "control: acknowledgement scope does not match issued command").

Definition telemetry_Validate (e : TelemetryEnvelope) : gerr :=
  validateEnvelopeScope (te_Version e) (te_MessageID e) (te_Namespace e) (te_Group e)
    (te_TransitionID e) (te_Epoch e) (te_Phase e) (te_Participant e) (te_Role e)
    (te_ObservedAt e) true ;;!
  fail_if (negb (bool_decide (te_Phase e = CDrain)) ||
           negb (roleAllowed (te_Role e) (te_Phase e) true))
    (ErrNew "control: telemetry is valid only for broker or observer roles in DRAIN") ;;!
  validateIdentifier (te_SourceBroker e) ;;!
  validateIdentifier (te_SourceQueue e) ;;!
  for_each (fun count => fail_if (negb (mc_Known count) && negb (mc_Value count =? 0))
              (ErrNew "control: unknown count must not carry a value"))
    [te_Queued e; te_Stored e; te_Unacked e].

Definition request_Validate (r : SnapshotRequest) : gerr :=
  fail_if (negb (sr_Version r =? BootstrapProtocolVersion))
    (ErrNew "control: unsupported snapshot request version") ;;!
  for_each validateIdentifier
    [sr_CorrelationID r; sr_Namespace r; sr_Group r; sr_Participant r] ;;!
  role_Validate (sr_Role r) ;;!
  fail_if (time_IsZero (sr_RequestedAt r))
    (ErrNew "control: snapshot request timestamp is required").

Definition ValidateFor (r : SnapshotResponse) (request : SnapshotRequest) : gerr :=
  wrap_err "control: invalid snapshot request" (request_Validate request) ;;!
  fail_if (negb (sp_Version r =? BootstrapProtocolVersion))
    (ErrNew "control: unsupported snapshot response version") ;;!
  fail_if (negb (str_eqb (sp_CorrelationID r) (sr_CorrelationID request)) ||
           negb (str_eqb (sp_Namespace r) (sr_Namespace request)) ||
           negb (str_eqb (sp_Group r) (sr_Group request)) ||
           negb (str_eqb (sp_Participant r) (sr_Participant request)) ||
           negb (bool_decide (sp_Role r = sr_Role request)))
    (ErrNew "control: snapshot response scope does not match request") ;;!
  Validate (sp_Snapshot r) ;;!
  fail_if (negb (str_eqb (ms_Namespace (sp_Snapshot r)) (sp_Namespace r)) ||
           negb (str_eqb (ms_ScalingGroup (sp_Snapshot r)) (sp_Group r)))
    (ErrNew "control: snapshot response contains cross-scope state").
End Validation.
