(* ===== verification/Naming.v ===== *)
(** * Managed resource names (control/naming.go)

    Topics join validated components with ["/"], queues with ["."]; a name
    beyond its limit is cut and ends in eight bytes of its SHA-256 digest. *)

From S2P Require Import Prelude Customer Snapshot Messages.
From Stdlib Require Import ZArith Ascii Lia.
From stdpp Require Import base gmap strings list numbers option pretty.
#[local] Open Scope Z_scope.

Definition MaxManagedTopicBytes : Z := 250.
Definition MaxManagedQueueBytes : Z := 200.

(** [s[:n]]. *)
Definition str_take (n : Z) (s : string) : string := String.substring 0 (Z.to_nat n) s.

Definition strings_HasSuffix (s suffix : string) : bool :=
  (len suffix <=? len s) &&
  str_eqb (String.substring (String.length s - String.length suffix) (String.length suffix) s) suffix.

Definition strings_TrimSuffix (s suffix : string) : string :=
  if strings_HasSuffix s suffix then str_take (len s - len suffix) s else s.

(** [strconv.FormatUint(epoch, 10)]. *)
Definition FormatUint (n : Z) : string := pretty (Z.to_N n).

Record ManagedNames := mkManagedNames { mn_namespace : string }.

Section Naming.
Context {net_url : NetURL} {sha : Sha256}.

Definition boundName (limit : Z) (name preservedSuffix : string) : result string :=
  if len name <=? limit then Ok name else
  let digest := sha256_Sum256 (bytes_of name) in
  let hashSuffix := ("-" +:+ hex_EncodeToString (take 8 digest))%string in
  let keep := limit - len hashSuffix - len preservedSuffix in
  if keep <=? 0 then Err (ErrNew "control: managed name limit is too small") else
  Ok (str_take keep (strings_TrimSuffix name preservedSuffix) +:+ hashSuffix +:+
      preservedSuffix)%string.

Definition boundedName (limit : Z) (separator : string) (components : list string)
    : result string :=
  for_each validateNameComponent components ;;!
  boundName limit (strings_Join components separator) "".

Definition boundedNamePreservingSuffix (limit : Z) (separator preservedSuffix : string)
    (components : list string) : result string :=
  for_each validateNameComponent components ;;!
  boundName limit (strings_Join components separator +:+ preservedSuffix)%string preservedSuffix.

Definition NewManagedNames (namespace : string) : result ManagedNames :=
  validateNameComponent namespace ;;! Ok (mkManagedNames namespace).

Definition topic (n : ManagedNames) (group purpose : string) : result string :=
  boundedName MaxManagedTopicBytes "/" [mn_namespace n; "control"; group; purpose].
Definition queue (n : ManagedNames) (group purpose : string) : result string :=
  boundedName MaxManagedQueueBytes "." [mn_namespace n; "ctl"; group; purpose].

Definition participantTopic (n : ManagedNames) (group purpose : string) (role : ParticipantRole)
    (participant : string) : result string :=
  role_Validate role ;;!
  validateNameComponent participant ;;!
  boundedName MaxManagedTopicBytes "/"
    [mn_namespace n; "control"; group; purpose; role_string role; participant].

Definition participantQueue (n : ManagedNames) (group purpose : string) (role : ParticipantRole)
    (participant : string) : result string :=
  role_Validate role ;;!
  validateNameComponent participant ;;!
  boundedName MaxManagedQueueBytes "."
    [mn_namespace n; "ctl"; group; purpose; role_string role; participant].

Definition SnapshotTopic n group := topic n group "snapshot".
Definition MembershipQueue n group := queue n group "membership".
Definition UpdateTopic n group := topic n group "updates".
Definition SnapshotRequestTopic n group := participantTopic n group "snapshot-requests".
Definition SnapshotRequestQueue n group := participantQueue n group "snapshot-requests".
Definition SnapshotReplyQueue n group := participantQueue n group "snapshot-replies".
Definition UpdateQueue (n : ManagedNames) (group participant : string) : result string :=
  validateNameComponent participant ;;!
  boundedName MaxManagedQueueBytes "." [mn_namespace n; "ctl"; group; "updates"; participant].
Definition RegistrationTopic n group := topic n group "registrations".
Definition RegistrationTopicFor n group := participantTopic n group "registrations".
Definition AcknowledgementTopic n group := topic n group "acknowledgements".
Definition AcknowledgementTopicFor n group := participantTopic n group "acknowledgements".
Definition TelemetryTopic n group := topic n group "telemetry".
Definition TelemetryTopicFor n group := participantTopic n group "telemetry".
Definition CommandTopic n group := participantTopic n group "commands".
Definition RegistrationQueue n group := queue n group "registrations".
Definition RegistrationQueueFor n group := participantQueue n group "reg".
Definition AcknowledgementQueue n group := queue n group "acknowledgements".
Definition AcknowledgementQueueFor n group := participantQueue n group "ack".
Definition TelemetryQueue n group := queue n group "telemetry".
Definition TelemetryQueueFor n group := participantQueue n group "tel".
Definition CommandQueue n group := participantQueue n group "cmd".

Definition epoch_required : gerror := ErrNew "control: epoch must be greater than zero".

Definition EpochIngressTopic (n : ManagedNames) (group : string) (epoch : Z) : result string :=
  if epoch =? 0 then Err epoch_required else
  boundedNamePreservingSuffix MaxManagedTopicBytes "/" "/>"
    [mn_namespace n; "data"; group; "epoch"; FormatUint epoch].

Definition EpochConsumerQueue (n : ManagedNames) (group consumerSet : string) (epoch : Z)
    : result string :=
  validateNameComponent consumerSet ;;!
  if epoch =? 0 then Err epoch_required else
  boundedName MaxManagedQueueBytes "."
    [mn_namespace n; "data"; group; consumerSet; ("e" +:+ FormatUint epoch)%string].

Definition EpochConsumerQueueForBroker (n : ManagedNames) (group broker consumerSet : string)
    (epoch : Z) : result string :=
  validateNameComponent broker ;;!
  validateNameComponent consumerSet ;;!
  if epoch =? 0 then Err epoch_required else
  boundedName MaxManagedQueueBytes "."
    [mn_namespace n; "data"; group; broker; consumerSet; ("e" +:+ FormatUint epoch)%string].

(** ** Lengths *)
Lemma str_app_cons c s t : (String c s +:+ t)%string = String c (s +:+ t).
Proof. done. Qed.

Lemma len_app s t : len (s +:+ t) = len s + len t.
Proof.
  unfold len. assert (H : String.length (s +:+ t) = (String.length s + String.length t)%nat); [|lia].
  induction s as [|c s IH]; [done|]. rewrite str_app_cons. cbn. by f_equal.
Qed.

Lemma str_take_len n s : 0 <= n <= len s -> len (str_take n s) = n.
Proof.
  unfold str_take, len. intros Hn. revert n Hn. induction s as [|c s IH]; intros n Hn; cbn in *.
  - destruct (Z.to_nat n) eqn:E; cbn; lia.
  - destruct (Z.to_nat n) as [|m] eqn:E; cbn; [lia|].
    specialize (IH (n - 1)). replace (Z.to_nat (n - 1)) with m in IH by lia. lia.
Qed.

Lemma trim_len s suffix :
  len (strings_TrimSuffix s suffix) = len s \/
  len (strings_TrimSuffix s suffix) = len s - len suffix.
Proof.
  unfold strings_TrimSuffix, strings_HasSuffix.
  destruct (_ && _) eqn:E; [|by left]. right. to_prop. apply str_take_len. unfold len in *. lia.
Qed.

(** A managed name never exceeds the limit it is built for, also when its
    components do and it is cut. *)
Theorem boundName_bounded limit name suffix result :
  boundName limit name suffix = Ok result -> len result <= limit.
Proof.
  unfold boundName. destruct (Z.leb_spec (len name) limit); [by intros [= <-]|].
  set (h := ("-" +:+ _)%string). destruct (Z.leb_spec (limit - len h - len suffix) 0); [done|].
  intros [= <-]. rewrite !len_app, str_take_len; [lia|].
  assert (0 <= len h /\ 0 <= len suffix) by (unfold len; lia).
  destruct (trim_len name suffix) as [-> | ->]; lia.
Qed.

(** ** Names below the limit are not cut *)
Lemma boundName_short limit name suffix : len name <= limit -> boundName limit name suffix = Ok name.
Proof. intros H. unfold boundName. by rewrite (proj2 (Z.leb_le _ _) H). Qed.

(** ** Separators *)
Definition chars (s : string) : list ascii := String.list_ascii_of_string s.

Lemma chars_app s t : chars (s +:+ t) = chars s ++ chars t.
Proof.
  induction s as [|c s IH]; [done|]. rewrite str_app_cons. unfold chars in *. cbn. by rewrite IH.
Qed.

Lemma chars_inj s t : chars s = chars t -> s = t.
Proof.
  intros H. rewrite <- (String.string_of_list_ascii_of_string s),
    <- (String.string_of_list_ascii_of_string t). unfold chars in H. by rewrite H.
Qed.

Lemma split_at_separator {A} (x : A) l1 l2 r1 r2 :
  x ∉ l1 -> x ∉ l2 -> l1 ++ x :: r1 = l2 ++ x :: r2 -> l1 = l2 /\ r1 = r2.
Proof.
  revert l2. induction l1 as [|a l1 IH]; intros [|b l2] H1 H2 Heq; cbn in *; simplify_eq.
  - done.
  - set_solver.
  - set_solver.
  - destruct (IH l2) as [-> ->]; [set_solver..|done].
Qed.

Lemma join_injective (c : ascii) l1 l2 :
  (forall s, s ∈ l1 -> c ∉ chars s) -> (forall s, s ∈ l2 -> c ∉ chars s) ->
  l1 <> [] -> l2 <> [] ->
  strings_Join l1 (String c "") = strings_Join l2 (String c "") -> l1 = l2.
Proof.
  revert l2. induction l1 as [|x l1 IH]; intros [|y l2] H1 H2 N1 N2; try done.
  assert (Hx : c ∉ chars x) by (apply H1; left). assert (Hy : c ∉ chars y) by (apply H2; left).
  intros Heq%(f_equal chars). unfold strings_Join in *.
  assert (Hj : forall z z' l, chars (String.concat (String c "") (z :: z' :: l)) =
    chars z ++ c :: chars (String.concat (String c "") (z' :: l))).
  { intros z z' l. change (String.concat (String c "") (z :: z' :: l)) with
      (z +:+ String c "" +:+ String.concat (String c "") (z' :: l))%string.
    by rewrite !chars_app. }
  destruct l1 as [|x' l1], l2 as [|y' l2]; rewrite ?Hj in Heq.
  - change (chars x = chars y) in Heq. by apply chars_inj in Heq as ->.
  - change (chars x = chars y ++ c :: chars (String.concat (String c "") (y' :: l2))) in Heq.
    rewrite Heq in Hx. set_solver.
  - change (chars x ++ c :: chars (String.concat (String c "") (x' :: l1)) = chars y) in Heq.
    rewrite <- Heq in Hy. set_solver.
  - apply split_at_separator in Heq as [Hxy Hrest]; [|done..]. apply chars_inj in Hxy as ->.
    f_equal. apply IH; try done; [intros; apply H1; by right|intros; apply H2; by right|].
    by apply chars_inj.
Qed.

(** A validated component has no separator of a topic. *)
Lemma chunk_of_byte (b : Z) l : b ∈ l -> 0 <= b < 128 -> Valid [b] b ∈ utf8_chunks l \/
  exists c, c ∈ utf8_chunks l /\ b ∈ chunk_source c /\ chunk_source c <> [b].
Proof.
  intros Hin Hb. rewrite <- (utf8_chunks_source l) in Hin at 1.
  apply list_elem_of_join in Hin as (src & Hbs & Hsrc).
  apply list_elem_of_fmap in Hsrc as (c & -> & Hc).
  destruct (decide (chunk_source c = [b])) as [E|E]; [|right; by exists c].
  left. assert (Hw : forall n s, c ∈ chunks_fuel n s -> c = Valid [b] b).
  { induction n as [|n IH]; intros [|b0 t]; cbn; try (by intros ?%elem_of_nil).
    intros [->|?]%elem_of_cons; [|by eapply IH].
    unfold first_chunk in *. repeat case_match; cbn in E; simplify_eq; to_prop; done || lia. }
  by rewrite <- (Hw _ _ Hc).
Qed.

Lemma chunk_bytes_high c n s b :
  c ∈ chunks_fuel n s -> b ∈ chunk_source c -> chunk_source c <> [b] -> 128 <= b.
Proof.
  revert s. induction n as [|n IH]; intros [|b0 t]; cbn; try (by intros ?%elem_of_nil).
  intros [->|?]%elem_of_cons; [|by eapply IH].
  unfold first_chunk, is2, is3, is4, cont.
  repeat case_match; cbn; intros Hb Hne; to_prop; set_unfold in Hb;
    repeat match goal with H : _ \/ _ |- _ => destruct H as [H|H] end; subst; done || lia.
Qed.

Lemma component_bytes s b :
  validateNameComponent s = nil_err -> b ∈ bytes_of s -> 0 <= b < 128 -> name_rune b = true.
Proof.
  unfold validateNameComponent. intros H Hin Hb. seq_ok. apply fail_if_ok in H.
  destruct (chunk_of_byte b _ Hin Hb) as [Hc|(c & Hc & Hbc & Hne)].
  - assert (Hr : b ∈ runes s).
    { unfold runes. apply list_elem_of_fmap. by exists (Valid [b] b). }
    destruct (name_rune b) eqn:E; [done|]. exfalso. apply not_true_iff_false in H. apply H.
    apply existsb_exists. exists b. split; [by apply list_elem_of_In|]. by rewrite E.
  - pose proof (chunk_bytes_high _ _ _ _ Hc Hbc Hne). lia.
Qed.

Lemma component_no_slash s : validateNameComponent s = nil_err -> "/"%char ∉ chars s.
Proof.
  intros H Hin. assert (47 ∈ bytes_of s) as Hb.
  { unfold bytes_of. apply list_elem_of_fmap. by exists "/"%char. }
  by apply (component_bytes s 47 H) in Hb.
Qed.

(** The components of a name that was built without being cut. *)
Lemma topic_components limit l1 l2 name :
  boundedName limit "/" l1 = Ok name -> boundedName limit "/" l2 = Ok name ->
  len (strings_Join l1 "/") <= limit -> len (strings_Join l2 "/") <= limit ->
  l1 <> [] -> l2 <> [] -> l1 = l2.
Proof.
  unfold boundedName. intros H1 H2 L1 L2 N1 N2. seq_ok.
  rewrite boundName_short in H1, H2 by done. simplify_eq.
  repeat match goal with H : for_each _ _ = nil_err |- _ =>
    rewrite for_each_ok, Forall_forall in H end.
  eapply (join_injective "/"); try done; intros; apply component_no_slash; auto.
Qed.

Lemma role_string_inj r r' :
  role_Validate r = nil_err -> role_Validate r' = nil_err -> role_string r = role_string r' -> r = r'.
Proof. destruct r, r'; cbn; try done. Qed.

(** Participant topics separate identities.  Two participant topics built
    without being cut are equal only for the same namespace, group, purpose,
    role and participant, so one participant's messages never arrive on
    another's topic. *)
Theorem participantTopic_injective n n' group group' purpose purpose' role role'
    participant participant' name :
  participantTopic n group purpose role participant = Ok name ->
  participantTopic n' group' purpose' role' participant' = Ok name ->
  len (strings_Join [mn_namespace n; "control"; group; purpose; role_string role; participant] "/")
    <= MaxManagedTopicBytes ->
  len (strings_Join [mn_namespace n'; "control"; group'; purpose'; role_string role'; participant']
    "/") <= MaxManagedTopicBytes ->
  n = n' /\ group = group' /\ purpose = purpose' /\ role = role' /\ participant = participant'.
Proof.
  unfold participantTopic. intros H1 H2 L1 L2. seq_ok.
  assert (Heq := topic_components _ _ _ _ H1 H2 L1 L2 ltac:(done) ltac:(done)).
  injection Heq as Hns -> -> Hrole ->. destruct n, n'. cbn in Hns. subst.
  split_and!; try done. by apply role_string_inj.
Qed.
End Naming.

(** A URL parser that finds nothing; identifiers need none. *)
#[local] Instance no_urls : NetURL := fun _ => None.

(** Queue names do not separate identities the way topics do: a component
    may contain the separator ["."], so different groups and consumer sets can
    share one queue name. *)
Theorem EpochConsumerQueue_collision {sha : Sha256} :
  EpochConsumerQueue (mkManagedNames "ns") "orders" "eu.fast" 1 =
    EpochConsumerQueue (mkManagedNames "ns") "orders.eu" "fast" 1 /\
  is_ok (EpochConsumerQueue (mkManagedNames "ns") "orders" "eu.fast" 1) = true.
Proof. by vm_compute. Qed.
