(* ===== verification/Reconciler.v ===== *)
(** * The participant's membership reconciler (control/reconciler.go)

    Subscribe-first bootstrap: updates are buffered until the controller's
    baseline arrives, then replayed in revision order; afterwards each fresh
    update is installed.  Reconciler methods hold one mutex, so each is one
    atomic step on [Reconciler]. *)

From S2P Require Import Prelude Snapshot.
From Stdlib Require Import ZArith Lia.
From stdpp Require Import base gmap strings sorting numbers option relations list.
#[local] Open Scope Z_scope.

Definition ErrNotSubscribed : gerror :=
  ErrNew "control: update subscription must be established before requesting a snapshot".
Definition ErrSnapshotRequired : gerror :=
  ErrNew "control: an authoritative controller snapshot is required".
Definition ErrStaleUpdate : gerror := ErrNew "control: stale membership update".
Definition ErrConflictingUpdate : gerror := ErrNew "control: conflicting membership update".
Definition ErrAlreadyStarted : gerror := ErrNew "control: reconciliation already started".

Record Reconciler := mkReconciler {
  rc_started : bool;
  rc_ready : bool;
  rc_baseline : option MembershipSnapshot;
  rc_buffered : list MembershipSnapshot;
  rc_current : option MembershipSnapshot;
  rc_group : string;
}.

#[export] Instance eta_Reconciler : Eta Reconciler := fun r =>
  mkReconciler (rc_started r) (rc_ready r) (rc_baseline r) (rc_buffered r)
    (rc_current r) (rc_group r).

Definition NewReconciler : Reconciler := mkReconciler false false None [] None ""%string.

Definition conflict (msg : string) : gerr := Err (ErrWrap msg ErrConflictingUpdate).

Definition validateRoutingCompatibility (left right : MembershipSnapshot) : gerr :=
  if negb (str_eqb (ms_Namespace left) (ms_Namespace right))
  then conflict "namespace changed" else
  if negb (str_eqb (ms_LibraryVersion left) (ms_LibraryVersion right))
  then conflict "library version changed" else
  if negb (str_eqb (ms_HashContract left) (ms_HashContract right))
  then conflict "hash contract changed" else
  if negb (str_eqb (ms_Algorithm left) (ms_Algorithm right))
  then conflict "routing algorithm changed" else
  if negb (bool_decide (ms_Queue left = ms_Queue right))
  then conflict "queue identity or delivery semantics changed" else
  if negb (bool_decide (ms_Destination left = ms_Destination right))
  then conflict "destination identity changed" else nil_err.

(** [rank] of [validateAdvance]. *)
Definition phase_rank (phase : CtlPhase) : Z :=
  match phase with CPrepare => 1 | CPaused => 2 | CDrain => 3 | _ => 0 end.

Definition transitions_match (left right : MembershipSnapshot) : bool :=
  match ms_Transition left, ms_Transition right with
  | Some l, Some r => bool_decide (l = r)
  | _, _ => false
  end.

Definition validateAdvance (left right : MembershipSnapshot) : gerr :=
  validateRoutingCompatibility left right ;;!
  let cur_changed :=
    negb (slicesEqual (ms_CurrentMembership right) (ms_CurrentMembership left)) ||
    negb (resourcesEqual (ms_CurrentResources right) (ms_CurrentResources left)) in
  let installs_proposal :=
    slicesEqual (ms_CurrentMembership right) (ms_ProposedMembership left) &&
    resourcesEqual (ms_CurrentResources right) (ms_ProposedResources left) in
  if bool_decide (ms_Phase right = CActive) then
    if bool_decide (ms_Phase left = CActive) then
      if (ms_Epoch right =? ms_Epoch left) && cur_changed
      then conflict "ACTIVE state changed without an epoch transition" else nil_err
    else match ms_Transition left with
      | None => conflict "activation has no preceding transition"
      | Some t =>
          if ms_Epoch right =? ms_Epoch left then
            if cur_changed then conflict "rollback changed current state" else nil_err
          else if negb (ms_Epoch right =? tr_ToEpoch t) || negb installs_proposal
          then conflict "activation does not match proposed membership" else nil_err
      end
  else if bool_decide (ms_Phase right = CCommitted) then
    if negb (bool_decide (ms_Phase left = CDrain)) || negb (transitions_match left right) ||
       match ms_Transition left with
       | Some t => negb (ms_Epoch right =? tr_ToEpoch t)
       | None => true
       end || negb installs_proposal
    then conflict "COMMITTED state does not match drained proposal" else nil_err
  else if bool_decide (ms_Phase left = CCommitted) then
    conflict "COMMITTED state may only advance to ACTIVE"
  else if bool_decide (ms_Phase left = CActive) then
    if negb (bool_decide (ms_Phase right = CPrepare)) ||
       negb (ms_Epoch right =? ms_Epoch left) || cur_changed
    then conflict "transition did not begin from current ACTIVE membership" else nil_err
  else if negb (transitions_match left right) || negb (ms_Epoch right =? ms_Epoch left) ||
       cur_changed ||
       negb (slicesEqual (ms_ProposedMembership right) (ms_ProposedMembership left)) ||
       negb (resourcesEqual (ms_ProposedResources right) (ms_ProposedResources left))
  then conflict "transition identity or membership changed"
  else if phase_rank (ms_Phase right) <? phase_rank (ms_Phase left)
  then Err (ErrWrap "phase regressed" ErrStaleUpdate) else nil_err.

(** [-1], [0] and [1]: the right snapshot advances, replays or is stale. *)
Definition compareSnapshots (left right : MembershipSnapshot) : result Z :=
  if negb (ms_Version left =? ms_Version right)
  then Err (ErrNew "control: snapshot version changed") else
  if negb (str_eqb (ms_ScalingGroup left) (ms_ScalingGroup right))
  then Err (ErrNew "control: scaling group changed") else
  if ms_Revision right =? ms_Revision left then
    if snapshotsEqual left right then Ok 0
    else Err (ErrWrap "at revision" ErrConflictingUpdate)
  else if ms_Revision right <? ms_Revision left then
    if ms_Epoch left <? ms_Epoch right
    then Err (ErrWrap "lower revision carries higher epoch" ErrConflictingUpdate)
    else Ok 1
  else if ms_Epoch right <? ms_Epoch left then Ok 1
  else validateAdvance left right ;;! Ok (-1).

(** The order of [sort.SliceStable] in [FinishBootstrap]. *)
Definition buffered_less (x y : MembershipSnapshot) : bool :=
  if negb (ms_Revision x =? ms_Revision y) then ms_Revision x <? ms_Revision y
  else ms_Epoch x <? ms_Epoch y.

Section Operations.
Context {net_url : NetURL}.

Definition BeginSubscribe (r : Reconciler) : Reconciler * gerr :=
  if rc_started r then (r, Err ErrAlreadyStarted)
  else (r <| rc_started := true |>, nil_err).

(** The group test and binding shared by [ApplyBaseline] and [ApplyUpdate]. *)
Definition bind_group (r : Reconciler) (s : MembershipSnapshot) : result Reconciler :=
  if negb (str_empty (rc_group r)) && negb (str_eqb (ms_ScalingGroup s) (rc_group r))
  then Err (ErrNew "control: scaling group changed") else
  Ok (if str_empty (rc_group r) then r <| rc_group := ms_ScalingGroup s |> else r).

Definition ApplyBaseline (r : Reconciler) (s : MembershipSnapshot) : Reconciler * gerr :=
  match Validate s with
  | Err e => (r, Err e)
  | Ok _ =>
      if negb (rc_started r) then (r, Err ErrNotSubscribed) else
      match bind_group r s with
      | Err e => (r, Err e)
      | Ok r =>
          if rc_ready r then (r, Err (ErrNew "control: baseline already finished")) else
          match rc_baseline r with
          | None => (r <| rc_baseline := Some s |>, nil_err)
          | Some b =>
              match compareSnapshots b s with
              | Err e => (r, Err e)
              | Ok c =>
                  if c <? 0 then (r <| rc_baseline := Some s |>, nil_err) else
                  if (0 <? c) && (ms_Revision b <? ms_Revision s)
                  then (r, Err (ErrWrap "baselined epoch regressed" ErrStaleUpdate))
                  else (r, nil_err)
              end
          end
      end
  end.

Definition applyLocked (r : Reconciler) (s : MembershipSnapshot) : Reconciler * result bool :=
  match rc_current r with
  | None => (r, Err (ErrNew "nil dereference"))
  | Some cur =>
      match compareSnapshots cur s with
      | Err e => (r, Err e)
      | Ok c =>
          if 0 <? c then (r, Err (ErrWrap "current epoch/revision" ErrStaleUpdate)) else
          if c =? 0 then (r, Ok false) else
          (r <| rc_current := Some s |>, Ok true)
      end
  end.

Definition ApplyUpdate (r : Reconciler) (s : MembershipSnapshot) : Reconciler * result bool :=
  match Validate s with
  | Err e => (r, Err e)
  | Ok _ =>
      if negb (rc_started r) then (r, Err ErrNotSubscribed) else
      match bind_group r s with
      | Err e => (r, Err e)
      | Ok r =>
          if negb (rc_ready r) then (r <| rc_buffered := rc_buffered r ++ [s] |>, Ok false)
          else applyLocked r s
      end
  end.

(** The replay loop of [FinishBootstrap]. *)
Fixpoint replay (current : MembershipSnapshot) (updates : list MembershipSnapshot)
    : result MembershipSnapshot :=
  match updates with
  | [] => Ok current
  | update :: rest =>
      let! c := compareSnapshots current update in
      if 0 <? c then
        if ms_Revision current <? ms_Revision update
        then Err (ErrWrap "buffered epoch regressed" ErrStaleUpdate)
        else replay current rest
      else if c =? 0 then replay current rest
      else replay update rest
  end.

Definition FinishBootstrap (r : Reconciler) : Reconciler * result MembershipSnapshot :=
  if negb (rc_started r) then (r, Err ErrNotSubscribed) else
  if rc_ready r then
    match rc_current r with
    | Some c => (r, Ok c)
    | None => (r, Err (ErrNew "nil dereference"))
    end
  else match rc_baseline r with
    | None => (r, Err ErrSnapshotRequired)
    | Some b =>
        let sorted := sort_by buffered_less (rc_buffered r) in
        let r := r <| rc_buffered := sorted |> in
        match replay b sorted with
        | Err e => (r <| rc_current := None |>, Err e)
        | Ok c =>
            (r <| rc_current := Some c |> <| rc_buffered := [] |>
               <| rc_baseline := None |> <| rc_ready := true |>, Ok c)
        end
    end.

Definition reconciler_Snapshot (r : Reconciler) : option MembershipSnapshot :=
  if negb (rc_ready r) then None else rc_current r.
End Operations.

(** ** Correctness of the participant's reconciler

    The installed membership only advances, bootstrap does not depend on the
    order in which updates arrived, and no operation dereferences an absent
    snapshot. *)

(** ** Comparison *)
Lemma compare_advances l r :
  compareSnapshots l r = Ok (-1) ->
  ms_Revision l < ms_Revision r /\ ms_Epoch l <= ms_Epoch r /\
  ms_ScalingGroup l = ms_ScalingGroup r /\ validateAdvance l r = nil_err.
Proof.
  unfold compareSnapshots. intros H. go_inv H. to_prop.
  match goal with H : str_eqb _ _ = true |- _ => apply str_eqb_true in H end.
  destruct a. split_and!; done || lia.
Qed.

Lemma compare_replays l r : compareSnapshots l r = Ok 0 -> l = r.
Proof. unfold compareSnapshots. intros H. go_inv H. by apply snapshotsEqual_true. Qed.

Lemma compare_stale_cases l r :
  compareSnapshots l r = Ok 1 ->
  ms_Revision r < ms_Revision l \/ ms_Revision l < ms_Revision r /\ ms_Epoch r < ms_Epoch l.
Proof. unfold compareSnapshots. intros H. go_inv H; to_prop; lia. Qed.

Lemma compare_range l r c : compareSnapshots l r = Ok c -> c = -1 \/ c = 0 \/ c = 1.
Proof. unfold compareSnapshots. intros H. go_inv H; auto. Qed.

(** ** The invariant *)
Section Proofs.
Context {net_url : NetURL}.

Record rc_ok (r : Reconciler) : Prop := {
  ro_ready : rc_ready r = true -> is_Some (rc_current r);
  ro_unready : rc_ready r = false -> rc_current r = None;
  ro_started : rc_ready r = true -> rc_started r = true;
  ro_current : forall s, rc_current r = Some s ->
    Validate s = nil_err /\ ms_ScalingGroup s = rc_group r;
  ro_baseline : forall s, rc_baseline r = Some s ->
    Validate s = nil_err /\ ms_ScalingGroup s = rc_group r;
  ro_buffered : forall s, s ∈ rc_buffered r ->
    Validate s = nil_err /\ ms_ScalingGroup s = rc_group r;
}.

Lemma rc_ok_new : rc_ok NewReconciler.
Proof. constructor; cbn; try done. by intros ? ?%elem_of_nil. Qed.

Lemma Validate_group s : Validate s = nil_err -> ms_ScalingGroup s <> ""%string.
Proof.
  unfold Validate, validate_common. intros H. seq_ok. by apply validateIdentifier_nonempty.
Qed.

(** Binding keeps the invariant and fixes the group of the snapshot. *)
Lemma bind_group_ok r s r' :
  rc_ok r -> Validate s = nil_err -> bind_group r s = Ok r' ->
  rc_ok r' /\ rc_group r' = ms_ScalingGroup s /\ rc_ready r' = rc_ready r /\
  rc_current r' = rc_current r /\ rc_started r' = rc_started r /\
  rc_buffered r' = rc_buffered r /\ rc_baseline r' = rc_baseline r.
Proof.
  intros Hok Hv H. unfold bind_group in H. destruct (str_empty (rc_group r)) eqn:E; cbn in H.
  - injection H as <-. apply str_empty_true in E. split_and!; try done.
    assert (Hno : forall x, Validate x = nil_err /\ ms_ScalingGroup x = rc_group r -> False).
    { intros x [Hx Hg]. apply Validate_group in Hx. by rewrite Hg in Hx. }
    destruct Hok as [O1 O2 O3 O4 O5 O6]. constructor; cbn; try done.
    + intros x Hx. by destruct (Hno x); apply O4.
    + intros x Hx. by destruct (Hno x); apply O5.
    + intros x Hx. by destruct (Hno x); apply O6.
  - destruct (str_eqb _ _) eqn:Eg; [|done]. apply str_eqb_true in Eg. injection H as <-. done.
Qed.

Lemma applyLocked_ok r s r' res :
  rc_ok r -> rc_ready r = true -> Validate s = nil_err -> ms_ScalingGroup s = rc_group r ->
  applyLocked r s = (r', res) -> rc_ok r'.
Proof.
  intros Hok Hr Hv Hg H. unfold applyLocked in H.
  destruct (ro_ready _ Hok Hr) as [c Hc]. rewrite Hc in H.
  destruct (compareSnapshots c s) as [n|e] eqn:E; [|by simplify_eq].
  destruct (0 <? n); [by simplify_eq|]. destruct (n =? 0); simplify_eq; [done|].
  destruct Hok. constructor; cbn; try done; try (intros; congruence).
  all: first [by eexists | by intros x [= <-]].
Qed.

Lemma ApplyUpdate_ok r s r' res : rc_ok r -> ApplyUpdate r s = (r', res) -> rc_ok r'.
Proof.
  intros Hok H. unfold ApplyUpdate in H. destruct (Validate s) as [[]|e] eqn:Hv; [|by simplify_eq].
  destruct (rc_started r) eqn:Hst; cbn [negb] in H; [|by simplify_eq].
  destruct (bind_group r s) as [r1|e] eqn:Hb; [|by simplify_eq].
  destruct (bind_group_ok _ _ _ Hok Hv Hb) as (Hok1 & Hg1 & _).
  destruct (rc_ready r1) eqn:Hr; cbn [negb] in H.
  - by eapply (applyLocked_ok r1 s r' res).
  - simplify_eq. destruct Hok1. constructor; cbn; try done.
    intros x [?|Hx]%elem_of_app; [auto|]. apply list_elem_of_singleton in Hx as ->. done.
Qed.

Lemma ApplyBaseline_ok r s r' res : rc_ok r -> ApplyBaseline r s = (r', res) -> rc_ok r'.
Proof.
  intros Hok H. unfold ApplyBaseline in H. destruct (Validate s) as [[]|e] eqn:Hv;
    [|by simplify_eq].
  destruct (rc_started r); cbn [negb] in H; [|by simplify_eq].
  destruct (bind_group r s) as [r1|e] eqn:Hb; [|by simplify_eq].
  destruct (bind_group_ok _ _ _ Hok Hv Hb) as (Hok1 & Hg1 & _).
  assert (Hset : rc_ok (r1 <| rc_baseline := Some s |>)).
  { destruct Hok1. constructor; cbn; try done. by intros x [= <-]. }
  go_inv H.
Qed.

Lemma replay_in c l x : replay c l = Ok x -> x = c \/ x ∈ l.
Proof.
  revert c. induction l as [|u l IH]; intros c H; cbn in H; [by simplify_eq; left|].
  destruct (compareSnapshots c u); [|done].
  destruct (0 <? a); [destruct (ms_Revision c <? ms_Revision u); [done|]|destruct (a =? 0)];
    apply IH in H as [->|?]; rewrite ?elem_of_cons; auto.
Qed.

Lemma FinishBootstrap_ok r r' res :
  rc_ok r -> FinishBootstrap r = (r', res) ->
  rc_ok r' /\ (forall s, res = Ok s -> rc_current r' = Some s) .
Proof.
  intros Hok H. unfold FinishBootstrap in H.
  destruct (rc_started r) eqn:Hst; cbn [negb] in H; [|by simplify_eq].
  destruct (rc_ready r) eqn:Hr.
  { destruct (ro_ready _ Hok Hr) as [c Hc]. rewrite Hc in H. simplify_eq. naive_solver. }
  destruct (rc_baseline r) as [b|] eqn:Hb; [|by simplify_eq].
  assert (Hbuf : forall x, x ∈ sort_by buffered_less (rc_buffered r) ->
            Validate x = nil_err /\ ms_ScalingGroup x = rc_group r).
  { intros x Hx. apply elem_of_sort_by in Hx. by apply (ro_buffered _ Hok). }
  destruct (replay b _) as [c|e] eqn:Hrep; simplify_eq.
  - split; [|naive_solver]. destruct Hok as [O1 O2 O3 O4 O5 O6].
    constructor; cbn; try done; try (by eexists); try (by intros ? ?%elem_of_nil).
    intros x [= <-]. apply replay_in in Hrep as [->|Hx]; auto.
  - split; [|done]. destruct Hok as [O1 O2 O3 O4 O5 O6].
    constructor; cbn; rewrite ?Hr; try done.
Qed.

(** The operations of the reconciler, and the states they reach. *)
Inductive rstep (r : Reconciler) : Reconciler -> Prop :=
| rs_subscribe : rstep r (fst (BeginSubscribe r))
| rs_baseline s : rstep r (fst (ApplyBaseline r s))
| rs_update s : rstep r (fst (ApplyUpdate r s))
| rs_finish : rstep r (fst (FinishBootstrap r)).

Lemma rstep_ok r r' : rstep r r' -> rc_ok r -> rc_ok r'.
Proof.
  intros Hs Hok. destruct Hs.
  - unfold BeginSubscribe. destruct (rc_started r); [done|]. cbn. destruct Hok.
    by constructor.
  - destruct (ApplyBaseline r s) eqn:E. by eapply ApplyBaseline_ok.
  - destruct (ApplyUpdate r s) eqn:E. by eapply ApplyUpdate_ok.
  - destruct (FinishBootstrap r) eqn:E. by eapply FinishBootstrap_ok.
Qed.

Lemma rsteps_ok r : rtc rstep NewReconciler r -> rc_ok r.
Proof.
  assert (H : forall a b, rtc rstep a b -> rc_ok a -> rc_ok b).
  { induction 1; eauto using rstep_ok. }
  intros Hr. eapply H; [exact Hr|apply rc_ok_new].
Qed.

(** A reconciler is ready exactly when it has a current snapshot to route
    by, after any sequence of calls; that snapshot is valid and of the group
    the reconciler is bound to, and so are the baseline and every buffered
    update.  In particular no call dereferences a missing snapshot. *)
Theorem reconciler_invariant r : rtc rstep NewReconciler r -> rc_ok r.
Proof. exact (rsteps_ok r). Qed.

(** What one step does to the installed snapshot. *)
Definition advances (c c' : MembershipSnapshot) : Prop :=
  c' = c \/ ms_Revision c < ms_Revision c' /\ ms_Epoch c <= ms_Epoch c' /\
            ms_ScalingGroup c' = ms_ScalingGroup c /\ validateAdvance c c' = nil_err.

Lemma rstep_current r r' c :
  rstep r r' -> rc_ok r -> rc_current r = Some c ->
  exists c', rc_current r' = Some c' /\ advances c c'.
Proof.
  intros Hs Hok Hc. assert (Hr : rc_ready r = true).
  { destruct (rc_ready r) eqn:E; [done|]. apply (ro_unready _ Hok) in E. congruence. }
  assert (Hstay : exists c', rc_current r = Some c' /\ advances c c') by (exists c; split; [done|by left]).
  destruct Hs as [|s|s|].
  - unfold BeginSubscribe. by destruct (rc_started r).
  - unfold ApplyBaseline. destruct (Validate s) as [[]|] eqn:Hv; [|done].
    destruct (rc_started r); [|done]. cbn [negb].
    destruct (bind_group r s) as [r1|] eqn:Hb; [|done].
    destruct (bind_group_ok _ _ _ Hok Hv Hb) as (_ & _ & Hr1 & Hc1 & _).
    rewrite Hr1, Hr. cbn. by rewrite Hc1.
  - unfold ApplyUpdate. destruct (Validate s) as [[]|] eqn:Hv; [|done].
    destruct (rc_started r); [|done]. cbn [negb].
    destruct (bind_group r s) as [r1|] eqn:Hb; [|done].
    destruct (bind_group_ok _ _ _ Hok Hv Hb) as (_ & _ & Hr1 & Hc1 & _).
    rewrite Hr1, Hr. cbn [negb]. unfold applyLocked. rewrite Hc1, Hc.
    assert (Hstay1 : exists c', rc_current r1 = Some c' /\ advances c c') by by rewrite Hc1.
    destruct (compareSnapshots c s) as [n|] eqn:E; [|exact Hstay1].
    destruct (compare_range _ _ _ E) as [->|[->| ->]]; cbn; [|exact Hstay1..].
    exists s. split; [done|]. right. apply compare_advances in E as (? & ? & ? & ?). done.
  - unfold FinishBootstrap. rewrite (ro_started _ Hok Hr), Hr, Hc. exact Hstay.
Qed.

(** The membership a participant routes by never goes backwards.  Once
    installed, every later call leaves it as it is or replaces it by a
    snapshot of the same group with a greater revision and no smaller epoch
    that is a permitted advance of it; stale, replayed and conflicting
    updates change nothing. *)
Theorem installed_snapshot_monotone r r' c :
  rtc rstep NewReconciler r -> rstep r r' -> rc_current r = Some c ->
  exists c', rc_current r' = Some c' /\ advances c c'.
Proof. intros Hr Hs. by apply rstep_current; [|apply rsteps_ok]. Qed.

(** ** Bootstrap *)
Lemma buffered_less_asym x y : buffered_less x y = true -> buffered_less y x = false.
Proof.
  unfold buffered_less. repeat case_match; intros; to_prop; try apply Z.ltb_ge; lia.
Qed.

Lemma buffered_less_trans x y z :
  buffered_less x y = true -> buffered_less y z = true -> buffered_less x z = true.
Proof.
  unfold buffered_less. repeat case_match; intros; to_prop; try apply Z.ltb_lt; lia.
Qed.

Lemma buffered_less_incomparable x y z :
  buffered_less x y = false -> buffered_less y z = false -> buffered_less x z = false.
Proof.
  unfold buffered_less. repeat case_match; intros; to_prop; try apply Z.ltb_ge; lia.
Qed.

(** Stepping over one update: install it, or keep the current snapshot. *)
Lemma replay_cons c u l x :
  replay c (u :: l) = Ok x <->
  (compareSnapshots c u = Ok (-1) /\ replay u l = Ok x) \/
  (c = u /\ replay c l = Ok x) \/
  (compareSnapshots c u = Ok 1 /\ ms_Revision u < ms_Revision c /\ replay c l = Ok x).
Proof.
  cbn. destruct (compareSnapshots c u) as [n|e] eqn:E.
  - destruct (compare_range _ _ _ E) as [->|[->| ->]]; cbn.
    + split; [by auto|]. intros [[_ ?]|[[-> ?]|[? _]]]; [done| |done].
      apply compare_advances in E. lia.
    + apply compare_replays in E as Heq. subst u. split; [by auto|].
      intros [[? _]|[[_ ?]|[? _]]]; done.
    + apply compare_stale_cases in E as Hst. destruct (Z.ltb_spec (ms_Revision c) (ms_Revision u)).
      * split; [done|]. intros [[? _]|[[-> _]|(_ & ? & _)]]; [done|lia|lia].
      * split; [intros; right; right; split_and!; [done|lia|done]|].
        intros [[? _]|[[-> ?]|(_ & _ & ?)]]; done.
  - split; [done|]. intros [[? _]|[[-> _]|[? _]]]; [done| |done].
    exfalso. revert E. unfold compareSnapshots.
    by rewrite !Z.eqb_refl, str_eqb_refl, (proj2 (snapshotsEqual_true u u)).
Qed.

Lemma replay_swap c u v l x :
  buffered_less u v = false -> buffered_less v u = false ->
  replay c (u :: v :: l) = Ok x -> replay c (v :: u :: l) = Ok x.
Proof.
  intros H1 H2. assert (ms_Revision u = ms_Revision v) as Hrev.
  { unfold buffered_less in *. repeat case_match; to_prop; lia. }
  rewrite !replay_cons. intros [[Hu [[Hv _]|[[-> Hl]|(_ & Hv & _)]]]|
    [[-> [[Hv Hl]|[[-> Hl]|(Hv & ? & Hl)]]]|(Hu & Hlt & [[Hv Hl]|[[-> Hl]|(Hv & ? & Hl)]])]].
  - apply compare_advances in Hv. lia.
  - left. split; [done|]. right. left. done.
  - lia.
  - apply compare_advances in Hv. lia.
  - right. left. split; [done|]. right. left. done.
  - lia.
  - apply compare_advances in Hv. lia.
  - lia.
  - right. right. split_and!; [done..|]. right. right. done.
Qed.

Lemma replay_equiv_swaps l l' :
  equiv_swaps buffered_less l l' -> forall c x, replay c l = Ok x -> replay c l' = Ok x.
Proof.
  induction 1 as [|u l l' Hl IH|u v l H1 H2|l1 l2 l3 _ IH1 _ IH2]; intros c x.
  - done.
  - rewrite !replay_cons. naive_solver.
  - by apply replay_swap.
  - auto.
Qed.

(** Bootstrap does not depend on delivery order.  Two reconcilers with the
    same baseline that buffered the same updates in different orders, with
    any duplication, both succeed with the same snapshot or both fail. *)
Theorem FinishBootstrap_order_independent r r' s :
  rc_started r' = rc_started r -> rc_ready r' = rc_ready r -> rc_ready r = false ->
  rc_baseline r' = rc_baseline r -> rc_buffered r' ≡ₚ rc_buffered r ->
  snd (FinishBootstrap r) = Ok s <-> snd (FinishBootstrap r') = Ok s.
Proof.
  intros Hst Hre Hr Hb Hbuf. unfold FinishBootstrap. rewrite Hst, Hre, Hr, Hb.
  destruct (rc_started r); [|done]. cbn [negb]. destruct (rc_baseline r) as [b|]; [|done].
  assert (Hsw : forall l l' x, l ≡ₚ l' ->
    replay b (sort_by buffered_less l) = Ok x -> replay b (sort_by buffered_less l') = Ok x).
  { intros l l' x Hp. apply replay_equiv_swaps. apply sort_by_equiv_swaps;
      eauto using buffered_less_asym, buffered_less_trans, buffered_less_incomparable. }
  assert (Hiff : forall x, replay b (sort_by buffered_less (rc_buffered r)) = Ok x <->
                           replay b (sort_by buffered_less (rc_buffered r')) = Ok x).
  { intros x. split; apply Hsw; by rewrite Hbuf. }
  cbn. destruct (replay b (sort_by buffered_less (rc_buffered r))) as [c|e] eqn:E;
    destruct (replay b (sort_by buffered_less (rc_buffered r'))) as [c'|e'] eqn:E'; cbn;
    apply Hiff.
Qed.

Lemma replay_newest c l x :
  replay c l = Ok x ->
  (x = c \/ x ∈ l) /\ ms_Revision c <= ms_Revision x /\ ms_Epoch c <= ms_Epoch x /\
  forall u, u ∈ l -> ms_Revision u <= ms_Revision x.
Proof.
  revert c. induction l as [|u l IH]; intros c H.
  { cbn in H. simplify_eq. split_and!; [by left|lia|lia|by intros ? ?%elem_of_nil]. }
  rewrite replay_cons in H.
  assert (exists c', (c' = c \/ c' = u) /\ replay c' l = Ok x /\ ms_Revision c <= ms_Revision c' /\
    ms_Epoch c <= ms_Epoch c' /\ ms_Revision u <= ms_Revision c')
    as (c' & Hc' & Hl & Hr & He & Hu).
  { destruct H as [[Hc Hl]|[[-> Hl]|(Hc & Hlt & Hl)]].
    - apply compare_advances in Hc as (? & ? & _). exists u. split_and!; auto; lia.
    - exists u. split_and!; auto; lia.
    - exists c. split_and!; auto; lia. }
  destruct (IH _ Hl) as (Hin & Hr' & He' & Hall). split_and!.
  - destruct Hin as [->|Hin]; [destruct Hc' as [->| ->]; [by left|right; left]|right; by right].
  - lia.
  - lia.
  - intros v [->|Hv]%elem_of_cons; [lia|by apply Hall].
Qed.

(** A successful bootstrap installs the newest snapshot there is: one of
    the baseline and the buffered updates, with a revision no smaller than
    any of them and an epoch no smaller than the baseline's. *)
Theorem FinishBootstrap_newest r r' b s :
  rc_ready r = false -> rc_baseline r = Some b -> FinishBootstrap r = (r', Ok s) ->
  rc_ready r' = true /\ rc_current r' = Some s /\ (s = b \/ s ∈ rc_buffered r) /\
  ms_Epoch b <= ms_Epoch s /\
  forall u, u ∈ b :: rc_buffered r -> ms_Revision u <= ms_Revision s.
Proof.
  intros Hr Hb H. unfold FinishBootstrap in H. rewrite Hr, Hb in H.
  destruct (rc_started r); [|done]. cbn [negb] in H.
  destruct (replay b _) as [c|e] eqn:E; [|done]. simplify_eq.
  apply replay_newest in E as (Hin & Hrev & He & Hall). split_and!; try done.
  - by rewrite elem_of_sort_by in Hin.
  - intros u [->|Hu]%elem_of_cons; [done|]. apply Hall. by apply elem_of_sort_by.
Qed.
End Proofs.
