(* ===== verification/ControllerTypes.v ===== *)
(** * Controller data (controller/types.go)

    Transition specifications, their normalisation and validation, the messages
    the controller consumes, the requests it sends to the broker fence, and the
    snapshot it publishes for each phase ([controlSnapshot] of
    controller/controller.go, which [TransitionSpec.Validate] calls). *)

From S2P Require Import Prelude Snapshot Messages.
From Stdlib Require Import ZArith Lia.
From stdpp Require Import base gmap strings list sorting numbers option countable.
#[local] Open Scope Z_scope.

(** [controller.Phase], a string type: any other value is [PhaseOther]. *)
Inductive Phase : Type :=
| PhasePrepare | PhasePause | PhaseDrain | PhaseCommit | PhaseActivate
| PhaseOther (s : string).

#[export] Instance Phase_eq_dec : EqDecision Phase.
Proof. solve_decision. Defined.

#[export] Instance Phase_countable : Countable Phase.
Proof.
  refine (inj_countable'
    (fun p => match p with
      | PhasePrepare => inl 1%nat | PhasePause => inl 2%nat | PhaseDrain => inl 3%nat
      | PhaseCommit => inl 4%nat | PhaseActivate => inl 5%nat | PhaseOther s => inr s end)
    (fun x => match x with
      | inl 1%nat => PhasePrepare | inl 2%nat => PhasePause | inl 3%nat => PhaseDrain
      | inl 4%nat => PhaseCommit | inl _ => PhaseActivate | inr s => PhaseOther s end) _).
  by intros [].
Defined.

Definition phase_string (p : Phase) : string :=
  match p with
  | PhasePrepare => "PREPARE" | PhasePause => "PAUSE" | PhaseDrain => "DRAIN"
  | PhaseCommit => "COMMIT" | PhaseActivate => "ACTIVATE" | PhaseOther s => s
  end.

Definition ErrTransitionInProgress := ErrNew "membership transition already in progress".
Definition ErrTransitionNotFound := ErrNew "membership transition not found".
Definition ErrStaleMessage := ErrNew "stale or incorrectly scoped message".
Definition ErrUnknownParticipant := ErrNew "participant is not required by this transition".
Definition ErrCommitReached := ErrNew "transition has reached the commit point".
Definition ErrRollbackUnproven := ErrNew "safe rollback has not been proven".
Definition ErrPhaseDeadline := ErrNew "transition phase deadline exceeded".
Definition ErrReadinessStale := ErrNew "required readiness is missing or stale".

Record Broker := mkBroker { b_ID : string; b_Destination : string }.

#[export] Instance Broker_eq_dec : EqDecision Broker.
Proof. solve_decision. Defined.

Record ParticipantRequirement := mkRequirement {
  pr_Participant : string;
  pr_Role : ParticipantRole;
}.

#[export] Instance ParticipantRequirement_eq_dec : EqDecision ParticipantRequirement.
Proof. solve_decision. Defined.

Record TransitionSpec := mkTransitionSpec {
  spec_ID : string;
  spec_Namespace : string;
  spec_LibraryVersion : string;
  spec_Group : string;
  spec_Revision : Z;
  spec_FromEpoch : Z;
  spec_ToEpoch : Z;
  spec_Current : list Broker;
  spec_Proposed : list Broker;
  spec_CurrentBrokers : list BrokerDescriptor;
  spec_ProposedBrokers : list BrokerDescriptor;
  spec_Queue : QueueInfo;
  spec_Destination : DestinationInfo;
  spec_CurrentResources : list EpochResourceIdentity;
  spec_ProposedResources : list EpochResourceIdentity;
  spec_HashContract : string;
  spec_Algorithm : string;
  spec_DrainGrace : Duration;
  spec_RequiredParticipants : list string;
  spec_ParticipantRequirements : gmap Phase (list string);
  spec_RoleRequirements : gmap Phase (list ParticipantRequirement);
}.

#[export] Instance eta_TransitionSpec : Eta TransitionSpec := fun s =>
  mkTransitionSpec (spec_ID s) (spec_Namespace s) (spec_LibraryVersion s) (spec_Group s)
    (spec_Revision s) (spec_FromEpoch s) (spec_ToEpoch s) (spec_Current s) (spec_Proposed s)
    (spec_CurrentBrokers s) (spec_ProposedBrokers s) (spec_Queue s) (spec_Destination s)
    (spec_CurrentResources s) (spec_ProposedResources s) (spec_HashContract s)
    (spec_Algorithm s) (spec_DrainGrace s) (spec_RequiredParticipants s)
    (spec_ParticipantRequirements s) (spec_RoleRequirements s).

#[export] Instance TransitionSpec_eq_dec : EqDecision TransitionSpec.
Proof. solve_decision. Defined.

(** ** Messages and requests *)
Record Acknowledgement := mkAcknowledgement {
  ack_CommandID : string;
  ack_Namespace : string;
  ack_Group : string;
  ack_TransitionID : string;
  ack_Epoch : Z;
  ack_Phase : Phase;
  ack_Participant : string;
  ack_AuthenticatedParticipant : string;
  ack_Role : ParticipantRole;
  ack_ObservedAt : Time;
}.

Record Count := mkCount { c_Known : bool; c_Value : Z }.

Record Telemetry := mkTelemetry {
  tel_MessageID : string;
  tel_Namespace : string;
  tel_Group : string;
  tel_TransitionID : string;
  tel_Epoch : Z;
  tel_Participant : string;
  tel_Role : ParticipantRole;
  tel_SourceBroker : string;
  tel_SourceQueue : string;
  tel_ObservedAt : Time;
  tel_Queued : Count;
  tel_Stored : Count;
  tel_Unacked : Count;
}.

#[export] Instance eta_Telemetry : Eta Telemetry := fun t =>
  mkTelemetry (tel_MessageID t) (tel_Namespace t) (tel_Group t) (tel_TransitionID t)
    (tel_Epoch t) (tel_Participant t) (tel_Role t) (tel_SourceBroker t) (tel_SourceQueue t)
    (tel_ObservedAt t) (tel_Queued t) (tel_Stored t) (tel_Unacked t).

#[export] Instance Count_eq_dec : EqDecision Count.
Proof. solve_decision. Defined.
#[export] Instance Telemetry_eq_dec : EqDecision Telemetry.
Proof. solve_decision. Defined.

Definition known_zero (c : Count) : bool := c_Known c && (c_Value c =? 0).
Definition isKnownZero (t : Telemetry) : bool :=
  known_zero (tel_Queued t) && known_zero (tel_Stored t) && known_zero (tel_Unacked t).

Record FenceRequest := mkFenceRequest {
  fr_OperationID : string;
  fr_Group : string;
  fr_TransitionID : string;
  fr_Epoch : Z;
  fr_Brokers : list Broker;
}.

Record FenceStatus := mkFenceStatus { fs_Fenced : bool; fs_ObservedAt : Time }.
Record IngressStatus := mkIngressStatus { is_Enabled : bool; is_ObservedAt : Time }.

Record ControlUpdate := mkControlUpdate {
  cu_OperationID : string;
  cu_Group : string;
  cu_TransitionID : string;
  cu_FromEpoch : Z;
  cu_ToEpoch : Z;
  cu_Phase : Phase;
  cu_Current : list Broker;
  cu_Proposed : list Broker;
  cu_Rollback : bool;
  cu_Snapshot : MembershipSnapshot;
  cu_IssuedCommandIDs : gmap string string;
}.

Record RollbackProof := mkRollbackProof {
  rp_TransitionID : string;
  rp_SourceMembershipIntact : bool;
  rp_ProposedNotActivated : bool;
  rp_FenceReversible : bool;
}.

(** ** Options; [Now] is part of the environment of Controller.v *)
Record Options := mkOptions {
  o_TelemetryFreshness : Duration;
  o_ReadinessFreshness : Duration;
  o_FenceFreshness : Duration;
  o_ZeroGrace : Duration;
  o_DrainGraceByGroup : gmap string Duration;
  o_PhaseTimeout : Duration;
  o_PhaseTimeoutByGroup : gmap string Duration;
  o_TelemetryFreshnessByGroup : gmap string Duration;
  o_HistoryLimit : Z;
}.

(** A per-group duration, or the default when it is absent or not positive. *)
Definition by_group (m : gmap string Duration) (group : string) (dflt : Duration) : Duration :=
  match m !! group with
  | Some configured => if 0 <? configured then configured else dflt
  | None => dflt
  end.

Definition telemetryFreshness (o : Options) (group : string) : Duration :=
  by_group (o_TelemetryFreshnessByGroup o) group (o_TelemetryFreshness o).
Definition phaseTimeout (o : Options) (group : string) : Duration :=
  by_group (o_PhaseTimeoutByGroup o) group (o_PhaseTimeout o).

Definition or_default (v dflt : Z) : Z := if v <=? 0 then dflt else v.

Definition withDefaults (o : Options) : Options := {|
  o_TelemetryFreshness := or_default (o_TelemetryFreshness o) (15 * Second);
  o_ReadinessFreshness := or_default (o_ReadinessFreshness o) (30 * Second);
  o_FenceFreshness := or_default (o_FenceFreshness o) (15 * Second);
  o_ZeroGrace := or_default (o_ZeroGrace o) (5 * Second);
  o_DrainGraceByGroup := o_DrainGraceByGroup o;
  o_PhaseTimeout := or_default (o_PhaseTimeout o) (5 * Minute);
  o_PhaseTimeoutByGroup := o_PhaseTimeoutByGroup o;
  o_TelemetryFreshnessByGroup := o_TelemetryFreshnessByGroup o;
  o_HistoryLimit := or_default (o_HistoryLimit o) 64;
|}.

(** ** Participant requirements *)
Definition validRequirementPhase (phase : Phase) : bool :=
  match phase with
  | PhasePrepare | PhasePause | PhaseDrain | PhaseCommit | PhaseActivate => true
  | PhaseOther _ => false
  end.

Definition roleAllowedForPhase (role : ParticipantRole) (phase : Phase) : bool :=
  match role with
  | RolePublisher => bool_decide (phase = PhasePause) || bool_decide (phase = PhaseActivate)
  | RoleSubscriber =>
      bool_decide (phase = PhasePrepare) || bool_decide (phase = PhaseDrain) ||
      bool_decide (phase = PhaseActivate)
  | RoleBroker => validRequirementPhase phase
  | _ => false
  end.

Definition check_phases {A} (m : gmap Phase A) : gerr :=
  for_each (fun '(phase, _) =>
    fail_if (negb (validRequirementPhase phase))
      (ErrNew "unsupported participant requirement phase")) (map_to_list m).

(** The requirements of one phase: identities present, distinct, and with a
    role that may acknowledge the phase. *)
Fixpoint check_requirements (phase : Phase) (seen : gset string)
    (requirements : list ParticipantRequirement) : gerr :=
  match requirements with
  | [] => nil_err
  | r :: rest =>
      fail_if (str_empty (pr_Participant r))
        (ErrNew "participant identities cannot be empty") ;;!
      fail_if (bool_decide (pr_Participant r ∈ seen))
        (ErrNew "duplicate participant identity") ;;!
      (if bool_decide (pr_Role r = RoleNone) then nil_err else
       role_Validate (pr_Role r) ;;!
       fail_if (negb (roleAllowedForPhase (pr_Role r) phase))
         (ErrNew "participant role cannot acknowledge phase")) ;;!
      check_requirements phase ({[pr_Participant r]} ∪ seen) rest
  end.

Definition untyped (participants : list string) : list ParticipantRequirement :=
  (fun p => mkRequirement p RoleNone) <$> participants.

(** The legacy map: appending to [result[phase]] creates an entry only for a
    phase with at least one participant. *)
Definition legacy_requirements (s : TransitionSpec) : gmap Phase (list string) :=
  if bool_decide (spec_ParticipantRequirements s = ∅)
  then list_to_map ((fun p => (p, spec_RequiredParticipants s)) <$>
         [PhasePrepare; PhasePause; PhaseDrain; PhaseActivate])
  else spec_ParticipantRequirements s.

Definition nonempty_untyped (participants : list string) : option (list ParticipantRequirement) :=
  match participants with [] => None | _ => Some (untyped participants) end.

Definition base_requirements (s : TransitionSpec)
    : result (gmap Phase (list ParticipantRequirement)) :=
  if bool_decide (spec_RoleRequirements s = ∅) then
    let legacy := legacy_requirements s in
    check_phases legacy ;;! Ok (omap nonempty_untyped legacy)
  else check_phases (spec_RoleRequirements s) ;;! Ok (spec_RoleRequirements s).

Definition normalizedRoleRequirements (s : TransitionSpec)
    : result (gmap Phase (list ParticipantRequirement)) :=
  let! requirements := base_requirements s in
  for_each (fun '(phase, rs) => check_requirements phase ∅ rs) (map_to_list requirements) ;;!
  Ok requirements.

Definition participant_names (rs : list ParticipantRequirement) : list string :=
  pr_Participant <$> rs.

Definition normalizedRequirements (s : TransitionSpec) : result (gmap Phase (list string)) :=
  let! typed := normalizedRoleRequirements s in
  Ok (participant_names <$> typed).

(** ** Snapshots published for a transition *)
Definition membership (brokers : list Broker) : Membership := b_ID <$> brokers.

Definition revisionFor (base offset : Z) : Z :=
  u64 ((if base =? 0 then 1 else base) + offset).

(** The fields every snapshot of a transition shares. *)
Definition snapshot_base (s : TransitionSpec) : MembershipSnapshot := {|
  ms_Version := SnapshotVersion;
  ms_Namespace := spec_Namespace s;
  ms_LibraryVersion := spec_LibraryVersion s;
  ms_ScalingGroup := spec_Group s;
  ms_Revision := 0;
  ms_Epoch := 0;
  ms_Phase := COther "";
  ms_HashContract := spec_HashContract s;
  ms_Algorithm := spec_Algorithm s;
  ms_CurrentMembership := [];
  ms_ProposedMembership := [];
  ms_CurrentBrokers := [];
  ms_ProposedBrokers := [];
  ms_Transition := None;
  ms_Queue := spec_Queue s;
  ms_Destination := spec_Destination s;
  ms_CurrentResources := [];
  ms_ProposedResources := [];
|}.

#[export] Instance eta_MembershipSnapshot : Eta MembershipSnapshot := fun s =>
  mkMembershipSnapshot (ms_Version s) (ms_Namespace s) (ms_LibraryVersion s)
    (ms_ScalingGroup s) (ms_Revision s) (ms_Epoch s) (ms_Phase s) (ms_HashContract s)
    (ms_Algorithm s) (ms_CurrentMembership s) (ms_ProposedMembership s)
    (ms_CurrentBrokers s) (ms_ProposedBrokers s) (ms_Transition s) (ms_Queue s)
    (ms_Destination s) (ms_CurrentResources s) (ms_ProposedResources s).

Definition spec_transition (s : TransitionSpec) : Transition :=
  mkTransition (spec_ID s) (spec_FromEpoch s) (spec_ToEpoch s).

(** PREPARE, PAUSE and DRAIN: the source membership and the proposal. *)
Definition proposing_snapshot (s : TransitionSpec) (offset : Z) (phase : CtlPhase)
    : MembershipSnapshot :=
  snapshot_base s
    <| ms_Revision := revisionFor (spec_Revision s) offset |>
    <| ms_Epoch := spec_FromEpoch s |>
    <| ms_Phase := phase |>
    <| ms_CurrentMembership := membership (spec_Current s) |>
    <| ms_ProposedMembership := membership (spec_Proposed s) |>
    <| ms_CurrentBrokers := spec_CurrentBrokers s |>
    <| ms_ProposedBrokers := spec_ProposedBrokers s |>
    <| ms_CurrentResources := spec_CurrentResources s |>
    <| ms_ProposedResources := spec_ProposedResources s |>
    <| ms_Transition := Some (spec_transition s) |>.

(** COMMIT and ACTIVATE: the proposal is current. *)
Definition installed_snapshot (s : TransitionSpec) (offset : Z) (phase : CtlPhase)
    : MembershipSnapshot :=
  snapshot_base s
    <| ms_Revision := revisionFor (spec_Revision s) offset |>
    <| ms_Epoch := spec_ToEpoch s |>
    <| ms_Phase := phase |>
    <| ms_CurrentMembership := membership (spec_Proposed s) |>
    <| ms_CurrentBrokers := spec_ProposedBrokers s |>
    <| ms_CurrentResources := spec_ProposedResources s |>.

(** Rollback: the source membership, ACTIVE again. *)
Definition rollback_snapshot (s : TransitionSpec) : MembershipSnapshot :=
  snapshot_base s
    <| ms_Revision := revisionFor (spec_Revision s) 5 |>
    <| ms_Epoch := spec_FromEpoch s |>
    <| ms_Phase := CActive |>
    <| ms_CurrentMembership := membership (spec_Current s) |>
    <| ms_CurrentBrokers := spec_CurrentBrokers s |>
    <| ms_CurrentResources := spec_CurrentResources s |>.

Definition controlSnapshot (s : TransitionSpec) (phase : Phase) (rollback : bool)
    : MembershipSnapshot :=
  if rollback then rollback_snapshot s else
  match phase with
  | PhasePrepare => proposing_snapshot s 0 CPrepare
  | PhasePause => proposing_snapshot s 1 CPaused
  | PhaseDrain => proposing_snapshot s 2 CDrain
  | PhaseCommit =>
      installed_snapshot s 3 CCommitted <| ms_Transition := Some (spec_transition s) |>
  | PhaseActivate => installed_snapshot s 4 CActive
  | PhaseOther _ => snapshot_base s
  end.

(** ** Validation *)
Fixpoint broker_set_check (seen : gset string) (brokers : list Broker) : gerr :=
  match brokers with
  | [] => nil_err
  | b :: rest =>
      fail_if (str_empty (b_ID b) || str_empty (b_Destination b))
        (ErrNew "broker id and destination are required") ;;!
      fail_if (bool_decide (b_ID b ∈ seen)) (ErrNew "duplicate broker identity") ;;!
      broker_set_check ({[b_ID b]} ∪ seen) rest
  end.

Definition validateBrokers (sets : list (list Broker)) : gerr :=
  for_each (broker_set_check ∅) sets.

Definition no_requirements (m : gmap Phase (list ParticipantRequirement)) (p : Phase) : bool :=
  bool_decide (default [] (m !! p) = []).

Section Validation.
Context {net_url : NetURL}.

Definition spec_Validate (s : TransitionSpec) : gerr :=
  fail_if (str_empty (spec_ID s) || str_empty (spec_Group s))
    (ErrNew "transition id and group are required") ;;!
  fail_if (negb (spec_ToEpoch s =? u64 (spec_FromEpoch s + 1)) || (spec_FromEpoch s =? max_u64))
    (ErrNew "to epoch must immediately follow from epoch") ;;!
  fail_if ((spec_Revision s =? 0) || (max_u64 - 5 <? spec_Revision s))
    (ErrNew "transition revision must allow five forward publications") ;;!
  fail_if (str_empty (spec_HashContract s) || str_empty (spec_Algorithm s))
    (ErrNew "hash contract and routing algorithm identifiers are required") ;;!
  fail_if (str_empty (q_Name (spec_Queue s)) || negb (q_Durable (spec_Queue s)))
    (ErrNew "a durable queue is required") ;;!
  fail_if (str_empty (d_Name (spec_Destination s)) ||
           negb (bool_decide (d_Kind (spec_Destination s) = DestinationTopic)))
    (ErrNew "v1 requires a topic destination") ;;!
  fail_if (bool_decide (spec_Current s = []) || bool_decide (spec_Proposed s = []))
    (ErrNew "current and proposed broker memberships are required") ;;!
  let! requirements := normalizedRoleRequirements s in
  fail_if (no_requirements requirements PhasePrepare || no_requirements requirements PhasePause ||
           no_requirements requirements PhaseDrain || no_requirements requirements PhaseActivate)
    (ErrNew "prepare, pause, drain and activate participant requirements are required") ;;!
  validateBrokers [spec_Current s; spec_Proposed s] ;;!
  Validate (controlSnapshot s PhasePrepare false).

Definition TransitionSpecFromSnapshot (snapshot : MembershipSnapshot)
    (requiredParticipants : list string) : result TransitionSpec :=
  Validate snapshot ;;!
  match ms_Phase snapshot, ms_Transition snapshot with
  | CPrepare, Some t =>
      let broker := fun id => mkBroker id (d_Name (ms_Destination snapshot)) in
      let spec := {|
        spec_ID := tr_ID t;
        spec_Namespace := ms_Namespace snapshot;
        spec_LibraryVersion := ms_LibraryVersion snapshot;
        spec_Group := ms_ScalingGroup snapshot;
        spec_Revision := ms_Revision snapshot;
        spec_FromEpoch := tr_FromEpoch t;
        spec_ToEpoch := tr_ToEpoch t;
        spec_Current := broker <$> ms_CurrentMembership snapshot;
        spec_Proposed := broker <$> ms_ProposedMembership snapshot;
        spec_CurrentBrokers := ms_CurrentBrokers snapshot;
        spec_ProposedBrokers := ms_ProposedBrokers snapshot;
        spec_Queue := ms_Queue snapshot;
        spec_Destination := ms_Destination snapshot;
        spec_CurrentResources := ms_CurrentResources snapshot;
        spec_ProposedResources := ms_ProposedResources snapshot;
        spec_HashContract := ms_HashContract snapshot;
        spec_Algorithm := ms_Algorithm snapshot;
        spec_DrainGrace := 0;
        spec_RequiredParticipants := requiredParticipants;
        spec_ParticipantRequirements :=
          list_to_map ((fun p => (p, requiredParticipants)) <$>
            [PhasePrepare; PhasePause; PhaseDrain; PhaseActivate]);
        spec_RoleRequirements := ∅;
      |} in
      spec_Validate spec ;;! Ok spec
  | _, _ => Err (ErrNew "controller: transition must start from a PREPARE snapshot")
  end.
End Validation.

Definition containsParticipant (participants : list string) (participant : string) : bool :=
  bool_decide (participant ∈ participants).

(** [spec.RoleRequirements[phase]]. *)
Definition requirements_of (s : TransitionSpec) (phase : Phase) : list ParticipantRequirement :=
  default [] (spec_RoleRequirements s !! phase).
Definition participants_of (s : TransitionSpec) (phase : Phase) : list string :=
  default [] (spec_ParticipantRequirements s !! phase).

Definition requirementFor (s : TransitionSpec) (phase : Phase) (participant : string)
    : option ParticipantRequirement :=
  List.find (fun r => str_eqb (pr_Participant r) participant) (requirements_of s phase).
