(* ===== verification/Controller.v ===== *)
(** * The transition controller (controller/controller.go, controller/store.go)

    Durable membership transitions as explicit state passing.  A [World] is the
    controller's memory, the document on disk and the trace of its external
    calls; an [Env] answers those calls.  Operations on one group are serialised
    by [lockGroup].  [Acknowledge] and [SaveMembership] take no group lock, so
    their commits may land inside any other operation: [interfere] runs those
    that [env_foreign] schedules, before every read of the state, every commit
    and every external call of a locked operation. *)

From S2P Require Import Prelude Snapshot Messages ControllerTypes.
From Stdlib Require Import ZArith Lia.
From stdpp Require Import base gmap strings list sorting numbers option.
#[local] Open Scope Z_scope.

(** ** State *)
Record PhaseEvent := mkPhaseEvent {
  pe_Phase : Phase;
  pe_EnteredAt : Time;
  pe_ExitedAt : option Time;
}.

Record TransitionRecord := mkTransitionRecord {
  trr_TransitionID : string;
  trr_FromEpoch : Z;
  trr_ToEpoch : Z;
  trr_StartedAt : Time;
  trr_CompletedAt : Time;
  trr_Outcome : string;
  trr_Phases : list PhaseEvent;
}.

Record DrainSourceEvidence := mkDrainSourceEvidence {
  dse_Broker : string;
  dse_Queue : string;
  dse_MessageID : string;
  dse_ZeroSince : Time;
  dse_ObservedAt : Time;
}.

Record CleanupEvidence := mkCleanupEvidence {
  cle_TransitionID : string;
  cle_SourceEpoch : Z;
  cle_TargetEpoch : Z;
  cle_ZeroSince : Time;
  cle_DrainObservedAt : Time;
  cle_FenceVerifiedAt : Time;
  cle_CommittedAt : Time;
  cle_OldEpochFenced : bool;
  cle_Sources : list DrainSourceEvidence;
}.

Record GroupState := mkGroupState {
  gs_Spec : TransitionSpec;
  gs_Phase : Phase;
  gs_Acknowledgements : gmap Phase (gmap string Time);
  gs_IssuedCommandIDs : gmap Phase (gmap string string);
  gs_LatestTelemetryBySource : gmap string Telemetry;
  gs_ZeroSinceBySource : gmap string Time;
  gs_TelemetryMessages : gmap string Telemetry;
  gs_PreparePublished : bool;
  gs_FenceAttempted : bool;
  gs_Fenced : bool;
  gs_PausePublished : bool;
  gs_DrainPublished : bool;
  gs_CommitPublished : bool;
  gs_TargetIngressEnabled : bool;
  gs_TargetIngressVerified : bool;
  gs_ActivatePublished : bool;
  gs_LatestTelemetry : option Telemetry;
  gs_ZeroSince : option Time;
  gs_RollingBack : bool;
  gs_RollbackPublished : bool;
  gs_Unfenced : bool;
  gs_Completed : bool;
  gs_StartedAt : Time;
  gs_PhaseEnteredAt : Time;
  gs_PhaseDeadline : Time;
  gs_CompletedAt : option Time;
  gs_PhaseHistory : list PhaseEvent;
  gs_FenceVerifiedAt : option Time;
  gs_TargetIngressVerifiedAt : option Time;
  gs_CleanupRecorded : bool;
}.

#[export] Instance eta_GroupState : Eta GroupState := fun s =>
  mkGroupState (gs_Spec s) (gs_Phase s) (gs_Acknowledgements s) (gs_IssuedCommandIDs s)
    (gs_LatestTelemetryBySource s) (gs_ZeroSinceBySource s) (gs_TelemetryMessages s)
    (gs_PreparePublished s) (gs_FenceAttempted s) (gs_Fenced s) (gs_PausePublished s)
    (gs_DrainPublished s) (gs_CommitPublished s) (gs_TargetIngressEnabled s)
    (gs_TargetIngressVerified s) (gs_ActivatePublished s) (gs_LatestTelemetry s)
    (gs_ZeroSince s) (gs_RollingBack s) (gs_RollbackPublished s) (gs_Unfenced s)
    (gs_Completed s) (gs_StartedAt s) (gs_PhaseEnteredAt s) (gs_PhaseDeadline s)
    (gs_CompletedAt s) (gs_PhaseHistory s) (gs_FenceVerifiedAt s)
    (gs_TargetIngressVerifiedAt s) (gs_CleanupRecorded s).

Record PersistentState := mkPersistentState {
  ps_Version : Z;
  ps_Membership : gmap string MembershipSnapshot;
  ps_Groups : gmap string GroupState;
  ps_History : gmap string (list TransitionRecord);
  ps_CleanupEvidence : gmap string (list CleanupEvidence);
}.

#[export] Instance eta_PersistentState : Eta PersistentState := fun s =>
  mkPersistentState (ps_Version s) (ps_Membership s) (ps_Groups s) (ps_History s)
    (ps_CleanupEvidence s).

Definition stateVersion : Z := 1.
(** What [JSONStore.Load] returns when the file does not exist. *)
Definition empty_state : PersistentState := mkPersistentState stateVersion ∅ ∅ ∅ ∅.

Definition errNoStateChange : gerror := ErrNew "controller: no state change".

(** ** Identifiers *)
Definition operationID (s : TransitionSpec) (action : string) (rollback : bool) : string :=
  (spec_Group s +:+ "/" +:+ spec_ID s +:+ "/" +:+
   (if rollback then "rollback" else "forward") +:+ "/" +:+ action)%string.

Definition commandID (s : TransitionSpec) (phase : Phase) (r : ParticipantRequirement) : string :=
  operationID s ("command/" +:+ phase_string phase +:+ "/" +:+ role_string (pr_Role r) +:+
                 "/" +:+ pr_Participant r)%string false.

Definition phase_command_ids (s : TransitionSpec) (phase : Phase)
    (requirements : list ParticipantRequirement) : gmap string string :=
  foldl (fun m r => <[pr_Participant r := commandID s phase r]> m) ∅ requirements.

Definition expectedCommandIDs (s : TransitionSpec) : gmap Phase (gmap string string) :=
  map_imap (fun phase rs => Some (phase_command_ids s phase rs)) (spec_RoleRequirements s).

(** Reads of nested Go maps: an absent key is the empty map or zero value. *)
Definition expected_for (s : TransitionSpec) (phase : Phase) : gmap string string :=
  default ∅ (expectedCommandIDs s !! phase).
Definition issued_for (g : GroupState) (phase : Phase) : gmap string string :=
  default ∅ (gs_IssuedCommandIDs g !! phase).
Definition acks_for (g : GroupState) (phase : Phase) : gmap string Time :=
  default ∅ (gs_Acknowledgements g !! phase).

Definition phasePublished (g : GroupState) (phase : Phase) : bool :=
  match phase with
  | PhasePrepare => gs_PreparePublished g
  | PhasePause => gs_PausePublished g
  | PhaseDrain => gs_DrainPublished g
  | PhaseCommit => gs_CommitPublished g
  | PhaseActivate => gs_ActivatePublished g
  | PhaseOther _ => false
  end.

Definition commandsIssued (g : GroupState) (phase : Phase) : bool :=
  let expected := expected_for (gs_Spec g) phase in
  negb (bool_decide (expected = ∅)) && bool_decide (issued_for g phase = expected).

Definition recordIssuedCommands (phase : Phase) (g : GroupState) : GroupState :=
  g <| gs_IssuedCommandIDs :=
         <[phase := expected_for (gs_Spec g) phase]> (gs_IssuedCommandIDs g) |>.

(** Fill in the missing command IDs of one published phase. *)
Definition fill_commands (expected issued : gmap string string) : gmap string string :=
  map_fold (fun participant command m =>
    if str_empty (default ""%string (m !! participant))
    then <[participant := command]> m else m) issued expected.

Definition initializeMessageState (g : GroupState) : GroupState :=
  g <| gs_IssuedCommandIDs :=
    map_fold (fun phase commands m =>
      if phasePublished g phase
      then <[phase := fill_commands commands (default ∅ (m !! phase))]> m
      else m) (gs_IssuedCommandIDs g) (expectedCommandIDs (gs_Spec g)) |>.

Definition fenceRequest (g : GroupState) (action : string) : FenceRequest := {|
  fr_OperationID := operationID (gs_Spec g) action false;
  fr_Group := spec_Group (gs_Spec g);
  fr_TransitionID := spec_ID (gs_Spec g);
  fr_Epoch := spec_FromEpoch (gs_Spec g);
  fr_Brokers := spec_Current (gs_Spec g);
|}.

Definition targetIngressRequest (g : GroupState) (action : string) : FenceRequest := {|
  fr_OperationID := operationID (gs_Spec g) action false;
  fr_Group := spec_Group (gs_Spec g);
  fr_TransitionID := spec_ID (gs_Spec g);
  fr_Epoch := spec_ToEpoch (gs_Spec g);
  fr_Brokers := spec_Proposed (gs_Spec g);
|}.

(** ** Telemetry sources *)
Record telemetrySource := mkTelemetrySource { ts_Broker : string; ts_Queue : string }.

Definition ts_key (s : telemetrySource) : string := (ts_Broker s +:+ NUL +:+ ts_Queue s)%string.

Definition ts_less (l r : telemetrySource) : bool :=
  if negb (str_eqb (ts_Broker l) (ts_Broker r)) then str_ltb (ts_Broker l) (ts_Broker r)
  else str_ltb (ts_Queue l) (ts_Queue r).

Definition hasTypedRequirements (s : TransitionSpec) : bool :=
  existsb (fun '(_, rs) => existsb (fun r => negb (bool_decide (pr_Role r = RoleNone))) rs)
    (map_to_list (spec_RoleRequirements s)).

(** [queuesByBroker[id]]. *)
Definition queues_of (resources : list EpochResourceIdentity) (id : string) : list string :=
  er_QueueName <$> filter (fun r => er_BrokerID r = id) resources.

(** Keep the first occurrence of each name. *)
Fixpoint dedup (seen : gset string) (names : list string) : list string :=
  match names with
  | [] => []
  | n :: rest =>
      if bool_decide (n ∈ seen) then dedup seen rest else n :: dedup ({[n]} ∪ seen) rest
  end.

Definition exact_sources (s : TransitionSpec) : bool :=
  negb (bool_decide (spec_CurrentResources s = [])) &&
  forallb (fun r => bool_decide (er_BrokerID r ∈ membership (spec_Current s)))
    (spec_CurrentResources s) &&
  forallb (fun b => negb (bool_decide (queues_of (spec_CurrentResources s) (b_ID b) = [])))
    (spec_Current s).

Definition sources_for (brokers : list Broker) (queues : string -> list string)
    : list telemetrySource :=
  mjoin ((fun b => mkTelemetrySource (b_ID b) <$> queues (b_ID b)) <$> brokers).

Definition requiredTelemetrySources (s : TransitionSpec) : list telemetrySource :=
  if bool_decide (spec_CurrentResources s = []) && negb (hasTypedRequirements s) then [] else
  sort_by ts_less
    (if exact_sources s
     then sources_for (spec_Current s) (queues_of (spec_CurrentResources s))
     else sources_for (spec_Current s)
            (fun _ => if bool_decide (spec_CurrentResources s = [])
                      then [q_Name (spec_Queue s)]
                      else dedup ∅ (er_QueueName <$> spec_CurrentResources s))).

(** The loop of [resourceIngressTopic]: conflicting topics give the empty
    string. *)
Fixpoint ingress_topic_loop (queue topic : string) (resources : list EpochResourceIdentity)
    : string :=
  match resources with
  | [] => topic
  | r :: rest =>
      if negb (str_eqb (er_QueueName r) queue) then ingress_topic_loop queue topic rest else
      if negb (str_empty topic) && negb (str_eqb topic (er_IngressTopic r)) then ""%string
      else ingress_topic_loop queue (er_IngressTopic r) rest
  end.

Definition resourceIngressTopic (s : TransitionSpec) (queue : string) : string :=
  ingress_topic_loop queue ""%string (spec_CurrentResources s).

(** The sources a sample speaks for, and whether it is the aggregate
    observation. *)
Definition telemetrySourcesForSample (s : TransitionSpec) (sample : Telemetry)
    : list telemetrySource * bool :=
  let required := requiredTelemetrySources s in
  match required with
  | [] => ([mkTelemetrySource (tel_SourceBroker sample) (tel_SourceQueue sample)], false)
  | _ =>
      match List.find (fun src => str_eqb (ts_Broker src) (tel_SourceBroker sample) &&
                                  str_eqb (ts_Queue src) (tel_SourceQueue sample)) required with
      | Some src => ([src], false)
      | None =>
          if str_empty (tel_MessageID sample) && str_empty (tel_Namespace sample) &&
             bool_decide (tel_Role sample = RoleObserver) &&
             str_eqb (tel_SourceBroker sample) "aggregate"
          then if forallb (fun src =>
                    str_eqb (ts_Queue src) (tel_SourceQueue sample) ||
                    str_eqb (resourceIngressTopic s (ts_Queue src)) (tel_SourceQueue sample))
                    required
               then (required, true) else ([], false)
          else ([], false)
      end
  end.

Definition telemetrySourceKey (s : TransitionSpec) (sample : Telemetry) : option string :=
  match telemetrySourcesForSample s sample with
  | ([src], _) => Some (ts_key src)
  | _ => None
  end.

(** The latest instant of the map, [None] when it is the zero time. *)
Definition commonZeroSince (zeroSince : gmap string Time) : option Time :=
  let latest := map_fold (fun _ t acc => if time_After t acc then t else acc) zeroTime zeroSince in
  if time_IsZero latest then None else Some latest.

(** ** Pure state updates *)
Fixpoint close_last (history : list PhaseEvent) (now : Time) : list PhaseEvent :=
  match history with
  | [] => []
  | [e] =>
      match pe_ExitedAt e with
      | None => [mkPhaseEvent (pe_Phase e) (pe_EnteredAt e) (Some now)]
      | Some _ => [e]
      end
  | e :: rest => e :: close_last rest now
  end.

Definition enterPhase (phase : Phase) (now : Time) (timeout : Duration) (g : GroupState)
    : GroupState :=
  g <| gs_PhaseHistory :=
         close_last (gs_PhaseHistory g) now ++ [mkPhaseEvent phase now None] |>
    <| gs_Phase := phase |>
    <| gs_PhaseEnteredAt := now |>
    <| gs_PhaseDeadline := time_Add now timeout |>.

Definition completeState (now : Time) (g : GroupState) : GroupState :=
  g <| gs_Completed := true |>
    <| gs_CompletedAt := Some now |>
    <| gs_PhaseDeadline := zeroTime |>
    <| gs_PhaseHistory := close_last (gs_PhaseHistory g) now |>.

Definition recordCompletion (state : PersistentState) (group : string) (completed : GroupState)
    (limit : Z) : PersistentState :=
  match gs_CompletedAt completed with
  | None => state
  | Some at_ =>
      let record := {|
        trr_TransitionID := spec_ID (gs_Spec completed);
        trr_FromEpoch := spec_FromEpoch (gs_Spec completed);
        trr_ToEpoch := spec_ToEpoch (gs_Spec completed);
        trr_StartedAt := gs_StartedAt completed;
        trr_CompletedAt := at_;
        trr_Outcome := if gs_RollingBack completed then "rolled_back" else "committed";
        trr_Phases := gs_PhaseHistory completed;
      |} in
      let records := default [] (ps_History state !! group) ++ [record] in
      let kept :=
        if limit <? Z.of_nat (length records)
        then drop (length records - Z.to_nat limit) records else records in
      state <| ps_History := <[group := kept]> (ps_History state) |>
  end.

(** The evidence of one source, merged into the accumulated bounds. *)
Fixpoint evidence_loop (g : GroupState) (zeroSince observed : Time)
    (acc : list DrainSourceEvidence) (sources : list telemetrySource)
    : option (Time * Time * list DrainSourceEvidence) :=
  match sources with
  | [] => Some (zeroSince, observed, acc)
  | src :: rest =>
      match gs_LatestTelemetryBySource g !! ts_key src, gs_ZeroSinceBySource g !! ts_key src with
      | Some t, Some z =>
          evidence_loop g
            (if time_After z zeroSince then z else zeroSince)
            (if time_IsZero observed || time_Before (tel_ObservedAt t) observed
             then tel_ObservedAt t else observed)
            (acc ++ [mkDrainSourceEvidence (ts_Broker src) (ts_Queue src) (tel_MessageID t) z
                       (tel_ObservedAt t)]) rest
      | _, _ => None
      end
  end.

Definition cleanup_evidence (g : GroupState) (verifiedAt : Time) : option CleanupEvidence :=
  let build z o sources := {|
    cle_TransitionID := spec_ID (gs_Spec g);
    cle_SourceEpoch := spec_FromEpoch (gs_Spec g);
    cle_TargetEpoch := spec_ToEpoch (gs_Spec g);
    cle_ZeroSince := z;
    cle_DrainObservedAt := o;
    cle_FenceVerifiedAt := verifiedAt;
    cle_CommittedAt := gs_PhaseEnteredAt g;
    cle_OldEpochFenced := true;
    cle_Sources := sources;
  |} in
  match requiredTelemetrySources (gs_Spec g) with
  | [] =>
      match gs_ZeroSince g, gs_LatestTelemetry g with
      | Some z, Some t => Some (build z (tel_ObservedAt t) [])
      | _, _ => None
      end
  | sources =>
      match evidence_loop g zeroTime zeroTime [] sources with
      | Some (z, o, ev) => Some (build z o ev)
      | None => None
      end
  end.

Definition recordCleanupEvidence (state : PersistentState) (group : string) (g : GroupState)
    : PersistentState * GroupState :=
  if gs_CleanupRecorded g then (state, g) else
  match gs_FenceVerifiedAt g with
  | None => (state, g)
  | Some verifiedAt =>
      match cleanup_evidence g verifiedAt with
      | None => (state, g)
      | Some ev =>
          (state <| ps_CleanupEvidence :=
             <[group := default [] (ps_CleanupEvidence state !! group) ++ [ev]]>
               (ps_CleanupEvidence state) |>,
           g <| gs_CleanupRecorded := true |>)
      end
  end.

(** ** Predicates of a group *)
Definition allAcknowledged (g : GroupState) (phase : Phase) : bool :=
  forallb (fun p => bool_decide (is_Some (acks_for g phase !! p)))
    (participants_of (gs_Spec g) phase).

Section Predicates.
Context (options : Options).

(** The loop of [drainComplete]: [None] when some source is not drained. *)
Fixpoint drain_loop (g : GroupState) (now latestZeroSince earliestObservedAt : Time)
    (sources : list telemetrySource) : option (Time * Time) :=
  match sources with
  | [] => Some (latestZeroSince, earliestObservedAt)
  | src :: rest =>
      match gs_LatestTelemetryBySource g !! ts_key src, gs_ZeroSinceBySource g !! ts_key src with
      | Some t, Some z =>
          if negb (isKnownZero t) || time_Before (tel_ObservedAt t) (gs_PhaseEnteredAt g) ||
             time_After (tel_ObservedAt t) now ||
             (telemetryFreshness options (spec_Group (gs_Spec g)) <? time_Sub now (tel_ObservedAt t))
          then None
          else drain_loop g now
                 (if time_After z latestZeroSince then z else latestZeroSince)
                 (if time_IsZero earliestObservedAt ||
                     time_Before (tel_ObservedAt t) earliestObservedAt
                  then tel_ObservedAt t else earliestObservedAt) rest
      | _, _ => None
      end
  end.

(** [drainComplete] consults the clock only past its legacy early return. *)
Definition drain_reads_clock (g : GroupState) : bool :=
  match requiredTelemetrySources (gs_Spec g) with
  | [] =>
      match gs_LatestTelemetry g, gs_ZeroSince g with
      | Some t, Some _ => isKnownZero t
      | _, _ => false
      end
  | _ => true
  end.

Definition drainComplete (g : GroupState) (now : Time) : bool :=
  match requiredTelemetrySources (gs_Spec g) with
  | [] =>
      match gs_LatestTelemetry g, gs_ZeroSince g with
      | Some t, Some z =>
          isKnownZero t &&
          negb (time_Before (tel_ObservedAt t) (gs_PhaseEnteredAt g) ||
                time_After (tel_ObservedAt t) now ||
                (telemetryFreshness options (spec_Group (gs_Spec g)) <? time_Sub now (tel_ObservedAt t))) &&
          (spec_DrainGrace (gs_Spec g) <=? time_Sub (tel_ObservedAt t) z)
      | _, _ => false
      end
  | sources =>
      match drain_loop g now (gs_PhaseEnteredAt g) zeroTime sources with
      | Some (z, o) => spec_DrainGrace (gs_Spec g) <=? time_Sub o z
      | None => false
      end
  end.

Definition readinessFresh (g : GroupState) (now : Time) : bool :=
  let legacyPrepareFallback := negb (hasTypedRequirements (gs_Spec g)) in
  forallb (fun participant =>
    match acks_for g PhaseDrain !! participant with
    | Some t => negb (time_Before t (gs_PhaseEnteredAt g)) && negb (time_After t now) &&
                (time_Sub now t <=? o_ReadinessFreshness options)
    | None => false
    end ||
    (legacyPrepareFallback &&
     match acks_for g PhasePrepare !! participant with
     | Some t => negb (time_After t now) && (time_Sub now t <=? o_ReadinessFreshness options)
     | None => false
     end)) (participants_of (gs_Spec g) PhaseDrain).

(** A broker observation that is present, not from the future, and fresh. *)
Definition fresh_status (holds : bool) (observedAt now : Time) : bool :=
  negb (negb holds || time_IsZero observedAt || time_After observedAt now ||
        (o_FenceFreshness options <? time_Sub now observedAt)).
End Predicates.

(** ** Specifications *)
Definition requirementsEqual (l r : gmap Phase (list string)) : bool :=
  bool_decide (size l = size r) &&
  forallb (fun '(phase, ps) => bool_decide (ps = default [] (r !! phase))) (map_to_list l).

Definition roleRequirementsEqual (l r : gmap Phase (list ParticipantRequirement)) : bool :=
  bool_decide (size l = size r) &&
  forallb (fun '(phase, rs) => bool_decide (rs = default [] (r !! phase))) (map_to_list l).

Definition equalSpec (a b : TransitionSpec) : bool :=
  str_eqb (spec_ID a) (spec_ID b) && str_eqb (spec_Namespace a) (spec_Namespace b) &&
  str_eqb (spec_LibraryVersion a) (spec_LibraryVersion b) &&
  str_eqb (spec_Group a) (spec_Group b) && (spec_Revision a =? spec_Revision b) &&
  (spec_FromEpoch a =? spec_FromEpoch b) && (spec_ToEpoch a =? spec_ToEpoch b) &&
  bool_decide (spec_Queue a = spec_Queue b) &&
  bool_decide (spec_Destination a = spec_Destination b) &&
  str_eqb (spec_HashContract a) (spec_HashContract b) &&
  str_eqb (spec_Algorithm a) (spec_Algorithm b) &&
  (spec_DrainGrace a =? spec_DrainGrace b) &&
  bool_decide (spec_Current a = spec_Current b) &&
  bool_decide (spec_Proposed a = spec_Proposed b) &&
  bool_decide (spec_CurrentResources a = spec_CurrentResources b) &&
  bool_decide (spec_ProposedResources a = spec_ProposedResources b) &&
  requirementsEqual (spec_ParticipantRequirements a) (spec_ParticipantRequirements b) &&
  roleRequirementsEqual (spec_RoleRequirements a) (spec_RoleRequirements b).

Definition canReplaceCompleted (existing : GroupState) (next : TransitionSpec) : bool :=
  let s := gs_Spec existing in
  if negb (gs_Completed existing) || str_eqb (spec_ID next) (spec_ID s) then false else
  if gs_RollingBack existing
  then (spec_FromEpoch next =? spec_FromEpoch s) &&
       (revisionFor (spec_Revision s) 5 <? spec_Revision next) &&
       bool_decide (spec_Current s = spec_Current next)
  else (spec_FromEpoch next =? spec_ToEpoch s) &&
       (revisionFor (spec_Revision s) 4 <? spec_Revision next) &&
       bool_decide (spec_Proposed s = spec_Current next).

Definition requirement_less (l r : ParticipantRequirement) : bool :=
  str_ltb (pr_Participant l) (pr_Participant r).

(** The normalisation of [Begin]: defaults, sorted participants, and both
    requirement maps filled in. *)
Definition default_grace (options : Options) (s : TransitionSpec) : TransitionSpec :=
  if spec_DrainGrace s =? 0
  then s <| spec_DrainGrace :=
             by_group (o_DrainGraceByGroup options) (spec_Group s) (o_ZeroGrace options) |>
  else s.

Definition normalize_spec (s : TransitionSpec) : result TransitionSpec :=
  let s := s <| spec_RequiredParticipants := sort_strings (spec_RequiredParticipants s) |> in
  let! roles := normalizedRoleRequirements s in
  let s := s <| spec_RoleRequirements := sort_by requirement_less <$> roles |> in
  let! names := normalizedRequirements s in
  Ok (s <| spec_ParticipantRequirements := names |>).

(** ** The environment and the world *)

(** [Save] may fail before the document is replaced or, when only the final
    directory sync fails, after it. *)
Inductive save_outcome : Type :=
| SaveOk
| SaveFailed (e : gerror)
| SaveFailedAfterReplace (e : gerror).

(** Calls that other goroutines make without the group lock. *)
Inductive ForeignCall : Type :=
| ForeignAcknowledge (ack : Acknowledgement)
| ForeignSaveMembership (snapshot : MembershipSnapshot).

(** Answers to the [n]-th external call. *)
Record Env := mkEnv {
  env_now : nat -> Time;
  env_save : nat -> save_outcome;
  env_fence : nat -> FenceRequest -> option gerror;
  env_unfence : nat -> FenceRequest -> option gerror;
  env_enable : nat -> FenceRequest -> option gerror;
  env_verifyFence : nat -> FenceRequest -> result FenceStatus;
  env_verifyIngress : nat -> FenceRequest -> result IngressStatus;
  env_publish : nat -> ControlUpdate -> option gerror;
  env_foreign : nat -> list ForeignCall;
}.

Inductive Event : Type :=
| EvNow (t : Time)
| EvSave (s : PersistentState) (o : save_outcome)
| EvFence (r : FenceRequest) (o : option gerror)
| EvUnfence (r : FenceRequest) (o : option gerror)
| EvEnableIngress (r : FenceRequest) (o : option gerror)
| EvVerifyFence (r : FenceRequest) (o : result FenceStatus)
| EvVerifyIngress (r : FenceRequest) (o : result IngressStatus)
| EvPublish (u : ControlUpdate) (o : option gerror).

Record World := mkWorld {
  w_tick : nat;
  w_mem : PersistentState;
  w_disk : PersistentState;
  w_trace : list Event;
}.

#[export] Instance eta_World : Eta World := fun w =>
  mkWorld (w_tick w) (w_mem w) (w_disk w) (w_trace w).

(** ** A state monad *)
Definition ST (A : Type) : Type := World -> World * A.
Definition ret {A} (a : A) : ST A := fun w => (w, a).
Definition bind {A B} (m : ST A) (k : A -> ST B) : ST B :=
  fun w => let '(w, a) := m w in k a w.

Declare Scope st_scope.
Delimit Scope st_scope with st.
Notation "x '<~' m ';;' k" := (bind m (fun x => k))
  (at level 100, m at next level, k at level 200, right associativity) : st_scope.
#[local] Open Scope st_scope.

(** One external call: its event is appended, its number consumed. *)
Definition emit (e : Event) : ST unit := fun w =>
  (w <| w_tick := S (w_tick w) |> <| w_trace := w_trace w ++ [e] |>, tt).

Definition get_tick : ST nat := fun w => (w, w_tick w).
Definition get_mem : ST PersistentState := fun w => (w, w_mem w).

(** Every string of the document as JSON reads it back. *)
Definition json_descriptor (d : BrokerDescriptor) : BrokerDescriptor :=
  mkBrokerDescriptor (json_coerce (bd_ID d)) (json_coerce (bd_Endpoint d)).
Definition json_resource (r : EpochResourceIdentity) : EpochResourceIdentity :=
  mkEpochResourceIdentity (er_Epoch r) (json_coerce (er_BrokerID r))
    (json_coerce (er_ConsumerSet r)) (json_coerce (er_QueueName r))
    (json_coerce (er_IngressTopic r)).
Definition json_transition (t : Transition) : Transition :=
  mkTransition (json_coerce (tr_ID t)) (tr_FromEpoch t) (tr_ToEpoch t).
Definition json_snapshot (s : MembershipSnapshot) : MembershipSnapshot := {|
  ms_Version := ms_Version s;
  ms_Namespace := json_coerce (ms_Namespace s);
  ms_LibraryVersion := json_coerce (ms_LibraryVersion s);
  ms_ScalingGroup := json_coerce (ms_ScalingGroup s);
  ms_Revision := ms_Revision s;
  ms_Epoch := ms_Epoch s;
  ms_Phase := ms_Phase s;
  ms_HashContract := json_coerce (ms_HashContract s);
  ms_Algorithm := json_coerce (ms_Algorithm s);
  ms_CurrentMembership := json_coerce <$> ms_CurrentMembership s;
  ms_ProposedMembership := json_coerce <$> ms_ProposedMembership s;
  ms_CurrentBrokers := json_descriptor <$> ms_CurrentBrokers s;
  ms_ProposedBrokers := json_descriptor <$> ms_ProposedBrokers s;
  ms_Transition := json_transition <$> ms_Transition s;
  ms_Queue := mkQueueInfo (json_coerce (q_Name (ms_Queue s))) (q_Durable (ms_Queue s));
  ms_Destination :=
    mkDestinationInfo (d_Kind (ms_Destination s)) (json_coerce (d_Name (ms_Destination s)));
  ms_CurrentResources := json_resource <$> ms_CurrentResources s;
  ms_ProposedResources := json_resource <$> ms_ProposedResources s;
|}.

(** Equality of the JSON encodings; both sides have passed [Validate], so their
    phases and destination kinds are the known constants. *)
Definition membershipSnapshotsEqual (left right : MembershipSnapshot) : bool :=
  bool_decide (json_snapshot left = json_snapshot right).

Section Operations.
Context {net_url : NetURL} (options : Options) (env : Env).

Definition now : ST Time :=
  n <~ get_tick ;; _ <~ emit (EvNow (env_now env n)) ;; ret (env_now env n).

(** [store.Save] followed by the publication of the new in-memory state. *)
Definition save (next : PersistentState) : ST gerr := fun w =>
  let o := env_save env (w_tick w) in
  let w := fst (emit (EvSave next o) w) in
  match o with
  | SaveOk => (w <| w_mem := next |> <| w_disk := next |>, nil_err)
  | SaveFailed e => (w, Err (ErrWrap "persist controller state" e))
  | SaveFailedAfterReplace e =>
      (w <| w_disk := next |>, Err (ErrWrap "persist controller state" e))
  end.

Definition updateState (update : PersistentState -> result PersistentState) : ST gerr :=
  state <~ get_mem ;;
  match update state with
  | Err e => ret (if errors_Is e errNoStateChange then nil_err else Err e)
  | Ok next => save next
  end.

(** The closure [updateGroup] passes to [updateState]. *)
Definition group_update (group : string) (update : GroupState -> GroupState)
    (next : PersistentState) : result PersistentState :=
  match ps_Groups next !! group with
  | None => Err ErrTransitionNotFound
  | Some before =>
      let g := update before in
      let '(next, g) :=
        if negb (bool_decide (gs_Phase before = PhaseCommit)) &&
           bool_decide (gs_Phase g = PhaseCommit)
        then recordCleanupEvidence next group g else (next, g) in
      let next :=
        if negb (gs_Completed before) && gs_Completed g
        then recordCompletion next group g (o_HistoryLimit options) else next in
      Ok (next <| ps_Groups := <[group := g]> (ps_Groups next) |>)
  end.

(** *** Acknowledgements *)
Definition ack_group (ack : Acknowledgement) (g : GroupState) : result GroupState :=
  if gs_Completed g || gs_RollingBack g || negb (commandsIssued g (ack_Phase ack)) ||
     negb (str_eqb (ack_TransitionID ack) (spec_ID (gs_Spec g))) ||
     negb (ack_Epoch ack =? spec_ToEpoch (gs_Spec g)) ||
     negb (bool_decide (ack_Phase ack = gs_Phase g))
  then Err ErrStaleMessage else
  match requirementFor (gs_Spec g) (ack_Phase ack) (ack_Participant ack) with
  | None => Err ErrUnknownParticipant
  | Some requirement =>
      if negb (str_eqb (ack_Namespace ack) (spec_Namespace (gs_Spec g)))
      then Err ErrStaleMessage else
      if (if bool_decide (pr_Role requirement = RoleNone)
          then negb (str_empty (ack_CommandID ack)) ||
               negb (str_empty (ack_AuthenticatedParticipant ack)) ||
               negb (bool_decide (ack_Role ack = RoleNone))
          else negb (str_eqb (ack_CommandID ack)
                 (default ""%string (issued_for g (ack_Phase ack) !! ack_Participant ack))) ||
               negb (str_eqb (ack_AuthenticatedParticipant ack) (ack_Participant ack)) ||
               negb (bool_decide (ack_Role ack = pr_Role requirement)))
      then Err ErrStaleMessage else
      if match acks_for g (ack_Phase ack) !! ack_Participant ack with
         | Some existing => negb (time_After (ack_ObservedAt ack) existing)
         | None => false
         end
      then Err errNoStateChange else
      Ok (g <| gs_Acknowledgements :=
            <[ack_Phase ack :=
                <[ack_Participant ack := ack_ObservedAt ack]> (acks_for g (ack_Phase ack))]>
              (gs_Acknowledgements g) |>)
  end.

(** The update closure of [Acknowledge]. *)
Definition ack_update (ack : Acknowledgement) (next : PersistentState)
    : result PersistentState :=
  match ps_Groups next !! ack_Group ack with
  | None => Err ErrTransitionNotFound
  | Some g =>
      let! g := ack_group ack g in
      Ok (next <| ps_Groups := <[ack_Group ack := g]> (ps_Groups next) |>)
  end.

(** [Acknowledge] with the observation time already defaulted. *)
Definition stamp_ack (ack : Acknowledgement) (t : Time) : Acknowledgement :=
  mkAcknowledgement (ack_CommandID ack) (ack_Namespace ack) (ack_Group ack)
    (ack_TransitionID ack) (ack_Epoch ack) (ack_Phase ack) (ack_Participant ack)
    (ack_AuthenticatedParticipant ack) (ack_Role ack) t.

Definition Acknowledge (ack : Acknowledgement) : ST gerr :=
  if time_IsZero (ack_ObservedAt ack)
  then t <~ now ;; updateState (ack_update (stamp_ack ack t))
  else updateState (ack_update ack).

(** *** Membership *)
Definition membership_update (snapshot : MembershipSnapshot) (state : PersistentState)
    : result PersistentState :=
  let install := state <| ps_Membership :=
    <[ms_ScalingGroup snapshot := snapshot]> (ps_Membership state) |> in
  match ps_Membership state !! ms_ScalingGroup snapshot with
  | Some current =>
      if (ms_Revision snapshot <? ms_Revision current) || (ms_Epoch snapshot <? ms_Epoch current)
      then Err (ErrNew "controller: membership revision or epoch regressed") else
      if ms_Revision snapshot =? ms_Revision current then
        if negb (membershipSnapshotsEqual current snapshot)
        then Err (ErrNew "controller: conflicting membership at revision")
        else Err errNoStateChange
      else Ok install
  | None => Ok install
  end.

Definition SaveMembership (snapshot : MembershipSnapshot) : ST gerr :=
  match Validate snapshot with
  | Err e => ret (Err e)
  | Ok _ => updateState (membership_update snapshot)
  end.

Definition SnapshotForGroup (group : string) : ST (option MembershipSnapshot) :=
  state <~ get_mem ;; ret (ps_Membership state !! group).

(** *** Interference and external calls *)
Definition foreign_call (c : ForeignCall) : ST gerr :=
  match c with
  | ForeignAcknowledge ack => Acknowledge ack
  | ForeignSaveMembership snapshot => SaveMembership snapshot
  end.

Fixpoint run_foreign (calls : list ForeignCall) : ST unit :=
  match calls with
  | [] => ret tt
  | c :: rest => _ <~ foreign_call c ;; run_foreign rest
  end.

Definition interfere : ST unit := fun w =>
  run_foreign (env_foreign env (w_tick w)) (w <| w_tick := S (w_tick w) |>).

Definition groupState (group : string) : ST (option GroupState) :=
  _ <~ interfere ;; state <~ get_mem ;; ret (ps_Groups state !! group).

Definition updateGroup (group : string) (update : GroupState -> GroupState) : ST gerr :=
  _ <~ interfere ;; updateState (group_update group update).

Definition call {A} (answer : nat -> A) (event : A -> Event) : ST A :=
  _ <~ interfere ;;
  n <~ get_tick ;;
  _ <~ emit (event (answer n)) ;;
  ret (answer n).

Definition Fence (r : FenceRequest) : ST (option gerror) :=
  call (fun n => env_fence env n r) (EvFence r).
Definition Unfence (r : FenceRequest) : ST (option gerror) :=
  call (fun n => env_unfence env n r) (EvUnfence r).
Definition EnableIngress (r : FenceRequest) : ST (option gerror) :=
  call (fun n => env_enable env n r) (EvEnableIngress r).
Definition VerifyFence (r : FenceRequest) : ST (result FenceStatus) :=
  call (fun n => env_verifyFence env n r) (EvVerifyFence r).
Definition VerifyIngress (r : FenceRequest) : ST (result IngressStatus) :=
  call (fun n => env_verifyIngress env n r) (EvVerifyIngress r).
Definition Publish (u : ControlUpdate) : ST (option gerror) :=
  call (fun n => env_publish env n u) (EvPublish u).

Definition control_update (g : GroupState) (phase : Phase) (rollback : bool) : ControlUpdate :=
  let s := gs_Spec g in {|
    cu_OperationID := operationID s (phase_string phase) rollback;
    cu_Group := spec_Group s;
    cu_TransitionID := spec_ID s;
    cu_FromEpoch := spec_FromEpoch s;
    cu_ToEpoch := if rollback then spec_FromEpoch s else spec_ToEpoch s;
    cu_Phase := phase;
    cu_Current := spec_Current s;
    cu_Proposed := if rollback then spec_Current s else spec_Proposed s;
    cu_Rollback := rollback;
    cu_Snapshot := controlSnapshot s phase rollback;
    cu_IssuedCommandIDs := issued_for g phase;
  |}.

Definition publish (g : GroupState) (phase : Phase) (rollback : bool) : ST gerr :=
  let update := control_update g phase rollback in
  _ <~ interfere ;;
  saved <~ SaveMembership (cu_Snapshot update) ;;
  match saved with
  | Err e => ret (Err (ErrWrap "persist membership before publication" e))
  | Ok _ =>
      published <~ Publish update ;;
      ret match published with
          | Some e => Err (ErrWrap "publish control update" e)
          | None => nil_err
          end
  end.

(** *** Beginning a transition *)
Definition created_group (s : TransitionSpec) (t : Time) : GroupState := {|
  gs_Spec := s;
  gs_Phase := PhasePrepare;
  gs_Acknowledgements := ∅;
  gs_IssuedCommandIDs := ∅;
  gs_LatestTelemetryBySource := ∅;
  gs_ZeroSinceBySource := ∅;
  gs_TelemetryMessages := ∅;
  gs_PreparePublished := false;
  gs_FenceAttempted := false;
  gs_Fenced := false;
  gs_PausePublished := false;
  gs_DrainPublished := false;
  gs_CommitPublished := false;
  gs_TargetIngressEnabled := false;
  gs_TargetIngressVerified := false;
  gs_ActivatePublished := false;
  gs_LatestTelemetry := None;
  gs_ZeroSince := None;
  gs_RollingBack := false;
  gs_RollbackPublished := false;
  gs_Unfenced := false;
  gs_Completed := false;
  gs_StartedAt := t;
  gs_PhaseEnteredAt := t;
  gs_PhaseDeadline := time_Add t (phaseTimeout options (spec_Group s));
  gs_CompletedAt := None;
  gs_PhaseHistory := [mkPhaseEvent PhasePrepare t None];
  gs_FenceVerifiedAt := None;
  gs_TargetIngressVerifiedAt := None;
  gs_CleanupRecorded := false;
|}.

Definition install_group (s : TransitionSpec) : ST (result GroupState) :=
  t <~ now ;;
  let created := created_group s t in
  _ <~ interfere ;;
  saved <~ updateState (fun next =>
    Ok (next <| ps_Groups := <[spec_Group s := created]> (ps_Groups next) |>)) ;;
  ret (match saved with Ok _ => Ok created | Err e => Err e end).

Definition Begin (s : TransitionSpec) : ST (result GroupState) :=
  let s := default_grace options s in
  match (spec_Validate s ;;! normalize_spec s) with
  | Err e => ret (Err e)
  | Ok s =>
      existing <~ groupState (spec_Group s) ;;
      match existing with
      | Some g =>
          if equalSpec (gs_Spec g) s then ret (Ok g) else
          if negb (canReplaceCompleted g s) then ret (Err ErrTransitionInProgress)
          else install_group s
      | None => install_group s
      end
  end.

Definition BeginSnapshot (snapshot : MembershipSnapshot) (requiredParticipants : list string)
    : ST (result GroupState) :=
  match TransitionSpecFromSnapshot snapshot requiredParticipants with
  | Err e => ret (Err e)
  | Ok s => Begin s
  end.

(** *** Telemetry *)

(** One source of the loop in the update closure of [Observe]. *)
Definition observe_source (sample : Telemetry) (g : GroupState) (src : telemetrySource)
    : GroupState :=
  let key := ts_key src in
  let previous := gs_LatestTelemetryBySource g !! key in
  let zero :=
    if negb (isKnownZero sample) then delete key (gs_ZeroSinceBySource g) else
    if match previous with
       | None => true
       | Some p => negb (isKnownZero p) ||
           (telemetryFreshness options (tel_Group sample) <?
            time_Sub (tel_ObservedAt sample) (tel_ObservedAt p))
       end
    then <[key := tel_ObservedAt sample]> (gs_ZeroSinceBySource g)
    else gs_ZeroSinceBySource g in
  let canonical := sample <| tel_SourceBroker := ts_Broker src |>
                          <| tel_SourceQueue := ts_Queue src |> in
  g <| gs_ZeroSinceBySource := zero |>
    <| gs_LatestTelemetryBySource := <[key := canonical]> (gs_LatestTelemetryBySource g) |>.

Definition observe_group (sample : Telemetry) (sources : list telemetrySource) (g : GroupState)
    : GroupState :=
  let g := foldl (observe_source sample) g sources in
  let g := if str_empty (tel_MessageID sample) then g else
    g <| gs_TelemetryMessages := <[tel_MessageID sample := sample]> (gs_TelemetryMessages g) |> in
  g <| gs_LatestTelemetry := Some sample |>
    <| gs_ZeroSince := commonZeroSince (gs_ZeroSinceBySource g) |>.

(** The scope checks of [Observe] that need no clock. *)
Definition observe_out_of_scope (g : GroupState) (sample : Telemetry) : bool :=
  gs_Completed g || gs_RollingBack g || negb (bool_decide (gs_Phase g = PhaseDrain)) ||
  negb (gs_DrainPublished g) || negb (str_eqb (tel_TransitionID sample) (spec_ID (gs_Spec g))) ||
  negb (tel_Epoch sample =? spec_FromEpoch (gs_Spec g)) ||
  time_IsZero (tel_ObservedAt sample) ||
  time_Before (tel_ObservedAt sample) (gs_PhaseEnteredAt g).

(** The identity and ordering checks after the sources are known. *)
Definition observe_rejected (g : GroupState) (sample : Telemetry)
    (sources : list telemetrySource) (aggregate : bool) : bool :=
  bool_decide (sources = []) ||
  (negb (str_eqb (tel_Namespace sample) (spec_Namespace (gs_Spec g))) && negb aggregate) ||
  (negb (bool_decide (tel_Role sample = RoleNone)) &&
   negb (bool_decide (tel_Role sample = RoleBroker)) &&
   negb (bool_decide (tel_Role sample = RoleObserver))) ||
  (str_empty (tel_Participant sample) && negb (bool_decide (tel_Role sample = RoleNone))) ||
  (negb (str_empty (tel_Participant sample)) && bool_decide (tel_Role sample = RoleNone)) ||
  (hasTypedRequirements (gs_Spec g) && negb aggregate &&
   (str_empty (tel_MessageID sample) || str_empty (tel_Participant sample) ||
    bool_decide (tel_Role sample = RoleNone))) ||
  existsb (fun src =>
    match gs_LatestTelemetryBySource g !! ts_key src with
    | Some previous => negb (time_After (tel_ObservedAt sample) (tel_ObservedAt previous))
    | None => false
    end) sources.

Definition Observe (sample : Telemetry) : ST gerr :=
  existing <~ groupState (tel_Group sample) ;;
  match existing with
  | None => ret (Err ErrTransitionNotFound)
  | Some g =>
      let replay := if str_empty (tel_MessageID sample) then None
                    else gs_TelemetryMessages g !! tel_MessageID sample in
      match replay with
      | Some seen =>
          ret (if bool_decide (seen = sample) then nil_err else Err ErrStaleMessage)
      | None =>
          if observe_out_of_scope g sample then ret (Err ErrStaleMessage) else
          t <~ now ;;
          if time_After (tel_ObservedAt sample) t then ret (Err ErrStaleMessage) else
          let '(sources, aggregate) := telemetrySourcesForSample (gs_Spec g) sample in
          if observe_rejected g sample sources aggregate then ret (Err ErrStaleMessage)
          else updateGroup (tel_Group sample) (observe_group sample sources)
      end
  end.

(** *** Rollback *)
Definition RequestRollback (group : string) (proof : RollbackProof) : ST gerr :=
  existing <~ groupState group ;;
  match existing with
  | None => ret (Err ErrTransitionNotFound)
  | Some g =>
      if bool_decide (gs_Phase g = PhaseCommit) || bool_decide (gs_Phase g = PhaseActivate) ||
         gs_CommitPublished g || gs_ActivatePublished g
      then ret (Err ErrCommitReached) else
      if negb (str_eqb (rp_TransitionID proof) (spec_ID (gs_Spec g))) ||
         negb (rp_SourceMembershipIntact proof) || negb (rp_ProposedNotActivated proof) ||
         ((gs_FenceAttempted g || gs_Fenced g) && negb (rp_FenceReversible proof))
      then ret (Err ErrRollbackUnproven) else
      if gs_RollingBack g then ret nil_err else
      updateGroup group (fun g => g <| gs_RollingBack := true |>)
  end.

(** *** Reconciliation *)
Definition outcome : Type := bool * gerr.

(** [return true, c.updateGroup(group, update)]. *)
Definition advance (group : string) (update : GroupState -> GroupState) : ST outcome :=
  err <~ updateGroup group update ;; ret (true, err).

(** The same with [enterPhase] at the current time. *)
Definition advance_phase (group : string) (phase : Phase) (also : GroupState -> GroupState)
    : ST outcome :=
  t <~ now ;;
  advance group (fun g => enterPhase phase t (phaseTimeout options group) (also g)).

Definition complete (group : string) : ST outcome :=
  t <~ now ;; advance group (completeState t).

Definition ensureCommandIntent (group : string) (g : GroupState) (phase : Phase)
    : ST (result (GroupState * bool)) :=
  if commandsIssued g phase then ret (Ok (g, false)) else
  err <~ updateGroup group (recordIssuedCommands phase) ;;
  match err with
  | Err e => ret (Err e)
  | Ok _ =>
      updated <~ groupState group ;;
      ret match updated with
          | None => Err ErrTransitionNotFound
          | Some g => Ok (g, true)
          end
  end.

(** Record the command intent, publish the phase, and mark it published. *)
Definition publish_phase (group : string) (g : GroupState) (phase : Phase)
    (mark : GroupState -> GroupState) : ST outcome :=
  intent <~ ensureCommandIntent group g phase ;;
  match intent with
  | Err e => ret (false, Err e)
  | Ok (g, intentChanged) =>
      err <~ publish g phase false ;;
      match err with
      | Err e => ret (intentChanged, Err e)
      | Ok _ => advance group mark
      end
  end.

Definition reconcileRollback (group : string) (g : GroupState) : ST outcome :=
  if (gs_FenceAttempted g || gs_Fenced g) && negb (gs_Unfenced g) then
    o <~ Unfence (fenceRequest g "unfence") ;;
    match o with
    | Some e => ret (false, Err (ErrWrap "unfence source brokers" e))
    | None => advance group (fun g => g <| gs_Unfenced := true |>)
    end
  else if negb (gs_RollbackPublished g) then
    err <~ publish g PhaseActivate true ;;
    match err with
    | Err e => ret (false, Err e)
    | Ok _ => advance group (fun g => g <| gs_RollbackPublished := true |>)
    end
  else complete group.

Definition reconcile_prepare (group : string) (g : GroupState) : ST outcome :=
  if negb (gs_PreparePublished g)
  then publish_phase group g PhasePrepare (fun g => g <| gs_PreparePublished := true |>)
  else if allAcknowledged g PhasePrepare then advance_phase group PhasePause id
  else ret (false, nil_err).

(** After the PAUSE acknowledgements: persist the attempt, fence, advance. *)
Definition reconcile_fence (group : string) (g : GroupState) : ST outcome :=
  if negb (gs_Fenced g) then
    o <~ Fence (fenceRequest g "fence") ;;
    match o with
    | Some e => ret (false, Err (ErrWrap "fence source brokers" e))
    | None => advance group (fun g => g <| gs_Fenced := true |>)
    end
  else advance_phase group PhaseDrain id.

Definition reconcile_pause (group : string) (g : GroupState) : ST outcome :=
  if negb (gs_PausePublished g)
  then publish_phase group g PhasePause (fun g => g <| gs_PausePublished := true |>)
  else if negb (allAcknowledged g PhasePause) then ret (false, nil_err)
  else if negb (gs_FenceAttempted g) then
    err <~ updateGroup group (fun g => g <| gs_FenceAttempted := true |>) ;;
    match err with
    | Err e => ret (false, Err e)
    | Ok _ =>
        updated <~ groupState group ;;
        match updated with
        | None => ret (false, Err ErrTransitionNotFound)
        | Some g => reconcile_fence group g
        end
    end
  else reconcile_fence group g.

Definition stale_fence : gerr :=
  Err (ErrWrap "source fence is not freshly verified" ErrReadinessStale).
Definition stale_ingress : gerr :=
  Err (ErrWrap "target ingress is not freshly verified" ErrReadinessStale).

Definition reconcile_drain (group : string) (g : GroupState) : ST outcome :=
  if negb (gs_DrainPublished g)
  then publish_phase group g PhaseDrain (fun g => g <| gs_DrainPublished := true |>)
  else
    t <~ (if drain_reads_clock g then now else ret zeroTime) ;;
    if negb (drainComplete options g t) then ret (false, nil_err) else
    if negb (allAcknowledged g PhaseDrain) then ret (false, Err ErrReadinessStale) else
    t' <~ now ;;
    if negb (readinessFresh options g t') then ret (false, Err ErrReadinessStale) else
    status <~ VerifyFence (fenceRequest g "verify-fence") ;;
    match status with
    | Err e => ret (false, Err (ErrWrap "verify source fence" e))
    | Ok status =>
        verifiedAt <~ now ;;
        if negb (fresh_status options (fs_Fenced status) (fs_ObservedAt status) verifiedAt)
        then ret (false, stale_fence)
        else advance_phase group PhaseCommit
               (fun g => g <| gs_FenceVerifiedAt := Some (fs_ObservedAt status) |>)
    end.

Definition reconcile_commit (group : string) (g : GroupState) : ST outcome :=
  if negb (gs_CommitPublished g) then
    status <~ VerifyFence (fenceRequest g "commit-verify-fence") ;;
    match status with
    | Err e => ret (false, Err (ErrWrap "verify source fence before commit publication" e))
    | Ok status =>
        t <~ now ;;
        if negb (fresh_status options (fs_Fenced status) (fs_ObservedAt status) t)
        then ret (false, stale_fence)
        else
          err <~ publish g PhaseCommit false ;;
          match err with
          | Err e => ret (false, Err e)
          | Ok _ =>
              advance group (fun g =>
                g <| gs_FenceAttempted := true |> <| gs_Fenced := true |>
                  <| gs_FenceVerifiedAt := Some (fs_ObservedAt status) |>
                  <| gs_CommitPublished := true |>)
          end
    end
  else advance_phase group PhaseActivate id.

Definition reconcile_activate (group : string) (g : GroupState) : ST outcome :=
  if negb (gs_TargetIngressEnabled g) then
    o <~ EnableIngress (targetIngressRequest g "enable-target-ingress") ;;
    match o with
    | Some e => ret (false, Err (ErrWrap "enable target ingress" e))
    | None => advance group (fun g => g <| gs_TargetIngressEnabled := true |>)
    end
  else if negb (gs_TargetIngressVerified g) then
    status <~ VerifyIngress (targetIngressRequest g "verify-target-ingress") ;;
    match status with
    | Err e => ret (false, Err (ErrWrap "verify target ingress" e))
    | Ok status =>
        t <~ now ;;
        if negb (fresh_status options (is_Enabled status) (is_ObservedAt status) t)
        then ret (false, stale_ingress)
        else advance group (fun g =>
               g <| gs_TargetIngressVerified := true |>
                 <| gs_TargetIngressVerifiedAt := Some (is_ObservedAt status) |>)
    end
  else if negb (gs_ActivatePublished g) then
    status <~ VerifyIngress (targetIngressRequest g "activate-verify-target-ingress") ;;
    match status with
    | Err e => ret (false, Err (ErrWrap "verify target ingress before ACTIVE publication" e))
    | Ok status =>
        t <~ now ;;
        if negb (fresh_status options (is_Enabled status) (is_ObservedAt status) t)
        then ret (false, stale_ingress)
        else publish_phase group g PhaseActivate (fun g =>
               g <| gs_TargetIngressVerifiedAt := Some (is_ObservedAt status) |>
                 <| gs_ActivatePublished := true |>)
    end
  else if allAcknowledged g PhaseActivate then complete group
  else ret (false, nil_err).

Definition reconcile_phase (group : string) (g : GroupState) : ST outcome :=
  match gs_Phase g with
  | PhasePrepare => reconcile_prepare group g
  | PhasePause => reconcile_pause group g
  | PhaseDrain => reconcile_drain group g
  | PhaseCommit => reconcile_commit group g
  | PhaseActivate => reconcile_activate group g
  | PhaseOther _ => ret (false, Err (ErrNew "unknown phase"))
  end.

Definition Reconcile (group : string) : ST outcome :=
  existing <~ groupState group ;;
  match existing with
  | None => ret (false, Err ErrTransitionNotFound)
  | Some g =>
      if gs_Completed g then ret (false, nil_err) else
      if gs_RollingBack g then reconcileRollback group g else
      if time_IsZero (gs_PhaseDeadline g) then reconcile_phase group g else
      t <~ now ;;
      if time_After t (gs_PhaseDeadline g) && negb (bool_decide (gs_Phase g = PhaseCommit)) &&
         negb (bool_decide (gs_Phase g = PhaseActivate))
      then ret (false, Err (ErrWrap "deadline" ErrPhaseDeadline))
      else reconcile_phase group g
  end.

Fixpoint reconcile_list (groups : list string) : ST (gmap string gerror) :=
  match groups with
  | [] => ret ∅
  | group :: rest =>
      o <~ Reconcile group ;;
      errs <~ reconcile_list rest ;;
      ret match snd o with Err e => <[group := e]> errs | Ok _ => errs end
  end.

Definition ReconcileAll : ST (gmap string gerror) :=
  state <~ get_mem ;;
  reconcile_list (sort_strings (elements (dom (ps_Groups state)))).
End Operations.
