(* ===== verification/ControllerOpen.v ===== *)
(** * Recovery of the controller (controller/controller.go [Open],
    [validateGroupState]; controller/store.go)

    The state document as [JSONStore] writes and reads it, the repairs [Open]
    applies to documents of earlier releases, and the consistency checks that
    refuse a document no run of the controller can have written. *)

From S2P Require Import Prelude Snapshot Messages ControllerTypes Controller.
From Stdlib Require Import ZArith Lia.
From stdpp Require Import base gmap strings list sorting numbers option.
#[local] Open Scope Z_scope.

(** ** The state document

    [json.MarshalIndent] replaces the bytes of a string that are not UTF-8, and
    writes the keys of a map in order; when two of them are then the same,
    [json.Unmarshal] keeps the last.  The document is represented by the state
    it decodes to. *)
Definition json_phase (p : Phase) : Phase :=
  match p with PhaseOther s => PhaseOther (json_coerce s) | _ => p end.
Definition json_role (r : ParticipantRole) : ParticipantRole :=
  match r with RoleOther s => RoleOther (json_coerce s) | _ => r end.

Definition json_map `{Countable K} {A} (text : K -> string) (key : K -> K) (value : A -> A)
    (m : gmap K A) : gmap K A :=
  foldl (fun acc kv => <[key kv.1 := value kv.2]> acc) ∅
    (sort_by (fun x y => str_ltb (text x.1) (text y.1)) (map_to_list m)).
Definition json_strings {A} : (A -> A) -> gmap string A -> gmap string A := json_map id json_coerce.
Definition json_phases {A} : (A -> A) -> gmap Phase A -> gmap Phase A := json_map phase_string json_phase.

Definition json_broker (b : Broker) : Broker := mkBroker (json_coerce (b_ID b)) (json_coerce (b_Destination b)).
Definition json_requirement (r : ParticipantRequirement) : ParticipantRequirement :=
  mkRequirement (json_coerce (pr_Participant r)) (json_role (pr_Role r)).
Definition json_spec (s : TransitionSpec) : TransitionSpec := {|
  spec_ID := json_coerce (spec_ID s);
  spec_Namespace := json_coerce (spec_Namespace s);
  spec_LibraryVersion := json_coerce (spec_LibraryVersion s);
  spec_Group := json_coerce (spec_Group s);
  spec_Revision := spec_Revision s;
  spec_FromEpoch := spec_FromEpoch s;
  spec_ToEpoch := spec_ToEpoch s;
  spec_Current := json_broker <$> spec_Current s;
  spec_Proposed := json_broker <$> spec_Proposed s;
  spec_CurrentBrokers := json_descriptor <$> spec_CurrentBrokers s;
  spec_ProposedBrokers := json_descriptor <$> spec_ProposedBrokers s;
  spec_Queue := mkQueueInfo (json_coerce (q_Name (spec_Queue s))) (q_Durable (spec_Queue s));
  spec_Destination :=
    mkDestinationInfo (d_Kind (spec_Destination s)) (json_coerce (d_Name (spec_Destination s)));
  spec_CurrentResources := json_resource <$> spec_CurrentResources s;
  spec_ProposedResources := json_resource <$> spec_ProposedResources s;
  spec_HashContract := json_coerce (spec_HashContract s);
  spec_Algorithm := json_coerce (spec_Algorithm s);
  spec_DrainGrace := spec_DrainGrace s;
  spec_RequiredParticipants := json_coerce <$> spec_RequiredParticipants s;
  spec_ParticipantRequirements := json_phases (fmap json_coerce) (spec_ParticipantRequirements s);
  spec_RoleRequirements := json_phases (fmap json_requirement) (spec_RoleRequirements s);
|}.
Definition json_telemetry (t : Telemetry) : Telemetry :=
  mkTelemetry (json_coerce (tel_MessageID t)) (json_coerce (tel_Namespace t)) (json_coerce (tel_Group t))
    (json_coerce (tel_TransitionID t)) (tel_Epoch t) (json_coerce (tel_Participant t)) (json_role (tel_Role t))
    (json_coerce (tel_SourceBroker t)) (json_coerce (tel_SourceQueue t)) (tel_ObservedAt t) (tel_Queued t)
    (tel_Stored t) (tel_Unacked t).
Definition json_event (e : PhaseEvent) : PhaseEvent :=
  mkPhaseEvent (json_phase (pe_Phase e)) (pe_EnteredAt e) (pe_ExitedAt e).
Definition json_group (g : GroupState) : GroupState :=
  g <| gs_Spec := json_spec (gs_Spec g) |> <| gs_Phase := json_phase (gs_Phase g) |>
    <| gs_Acknowledgements := json_phases (json_strings id) (gs_Acknowledgements g) |>
    <| gs_IssuedCommandIDs := json_phases (json_strings json_coerce) (gs_IssuedCommandIDs g) |>
    <| gs_LatestTelemetryBySource := json_strings json_telemetry (gs_LatestTelemetryBySource g) |>
    <| gs_ZeroSinceBySource := json_strings id (gs_ZeroSinceBySource g) |>
    <| gs_TelemetryMessages := json_strings json_telemetry (gs_TelemetryMessages g) |>
    <| gs_LatestTelemetry := json_telemetry <$> gs_LatestTelemetry g |>
    <| gs_PhaseHistory := json_event <$> gs_PhaseHistory g |>.
Definition json_history (r : TransitionRecord) : TransitionRecord :=
  mkTransitionRecord (json_coerce (trr_TransitionID r)) (trr_FromEpoch r) (trr_ToEpoch r) (trr_StartedAt r)
    (trr_CompletedAt r) (json_coerce (trr_Outcome r)) (json_event <$> trr_Phases r).
Definition json_source (s : DrainSourceEvidence) : DrainSourceEvidence :=
  mkDrainSourceEvidence (json_coerce (dse_Broker s)) (json_coerce (dse_Queue s)) (json_coerce (dse_MessageID s))
    (dse_ZeroSince s) (dse_ObservedAt s).
Definition json_evidence (e : CleanupEvidence) : CleanupEvidence :=
  mkCleanupEvidence (json_coerce (cle_TransitionID e)) (cle_SourceEpoch e) (cle_TargetEpoch e) (cle_ZeroSince e)
    (cle_DrainObservedAt e) (cle_FenceVerifiedAt e) (cle_CommittedAt e) (cle_OldEpochFenced e)
    (json_source <$> cle_Sources e).
Definition json_state (s : PersistentState) : PersistentState :=
  mkPersistentState (ps_Version s) (json_strings json_snapshot (ps_Membership s))
    (json_strings json_group (ps_Groups s)) (json_strings (fmap json_history) (ps_History s))
    (json_strings (fmap json_evidence) (ps_CleanupEvidence s)).

(** The text of the document is UTF-8, so that it decodes to what was encoded. *)
Definition text_kept (s : PersistentState) : Prop := json_state s = s.

(** ** [JSONStore]: the file is absent or holds one document.  [Save] stamps the
    version before it encodes. *)
Definition JSONStore_Save (state : PersistentState) : PersistentState :=
  json_state (state <| ps_Version := stateVersion |>).

Definition JSONStore_Load (file : option PersistentState) : result PersistentState :=
  match file with
  | None => Ok empty_state
  | Some state =>
      fail_if (negb (ps_Version state =? stateVersion))
        (ErrNew "unsupported controller state version") ;;!
      Ok state
  end.

(** ** [validateGroupState] *)
Definition state_rank (p : Phase) : Z :=
  match p with
  | PhasePrepare => 1 | PhasePause => 2 | PhaseDrain => 3 | PhaseCommit => 4
  | PhaseActivate => 5 | PhaseOther _ => 0
  end.

Definition phase_is (g : GroupState) (p : Phase) : bool := bool_decide (gs_Phase g = p).
Definition is_set {A} (o : option A) : bool := match o with Some _ => true | None => false end.

Definition check_flags (g : GroupState) : gerr :=
  fail_if (state_rank (gs_Phase g) =? 0) (ErrNew "unknown phase") ;;!
  fail_if ((gs_PausePublished g && negb (gs_PreparePublished g)) ||
           (gs_DrainPublished g && (negb (gs_PausePublished g) || negb (gs_Fenced g))) ||
           (gs_CommitPublished g && negb (phase_is g PhaseCommit) && negb (phase_is g PhaseActivate)) ||
           (gs_ActivatePublished g && negb (phase_is g PhaseActivate)))
    (ErrNew "inconsistent publication/fence state") ;;!
  fail_if (gs_ActivatePublished g &&
           (negb (is_set (gs_FenceVerifiedAt g)) || negb (gs_TargetIngressEnabled g) ||
            negb (gs_TargetIngressVerified g) || negb (is_set (gs_TargetIngressVerifiedAt g))))
    (ErrNew "activated without retained source fence and target ingress verification").

Definition check_acks (g : GroupState) : gerr :=
  for_each (fun '(phase, acks) =>
    for_each (fun '(participant, _) =>
      fail_if (negb (containsParticipant (participants_of (gs_Spec g) phase) participant))
        (ErrNew "acknowledgement by unrequired participant") ;;!
      fail_if (negb (commandsIssued g phase) ||
               str_empty (default ""%string (issued_for g phase !! participant)))
        (ErrNew "acknowledgement without an issued command")) (map_to_list acks))
    (map_to_list (gs_Acknowledgements g)).

Definition check_issued (g : GroupState) : gerr :=
  for_each (fun '(phase, commands) =>
    if bool_decide (commands = ∅) then nil_err else
    fail_if (negb (bool_decide (commands = expected_for (gs_Spec g) phase)))
      (ErrNew "invalid issued commands") ;;!
    fail_if (negb (phasePublished g phase) && negb (bool_decide (phase = gs_Phase g)))
      (ErrNew "command intent outside its current phase"))
    (map_to_list (gs_IssuedCommandIDs g)) ;;!
  for_each (fun '(phase, _) =>
    fail_if (phasePublished g phase && negb (commandsIssued g phase))
      (ErrNew "incomplete issued commands")) (map_to_list (expectedCommandIDs (gs_Spec g))).

Definition check_progress (g : GroupState) : gerr :=
  fail_if (((phase_is g PhaseDrain && gs_DrainPublished g) ||
            (phase_is g PhaseCommit && gs_CommitPublished g) || phase_is g PhaseActivate) &&
           negb (gs_Fenced g) && negb (gs_RollingBack g))
    (ErrNew "reached durable actions without a source fence") ;;!
  fail_if (gs_Completed g && negb (is_set (gs_CompletedAt g)))
    (ErrNew "complete without a completion timestamp") ;;!
  fail_if (gs_Completed g && negb (gs_RollingBack g) && negb (gs_ActivatePublished g))
    (ErrNew "complete without ACTIVE publication") ;;!
  fail_if (gs_Fenced g && negb (gs_FenceAttempted g))
    (ErrNew "fenced without a durable fence attempt") ;;!
  fail_if (gs_TargetIngressVerified g &&
           (negb (gs_TargetIngressEnabled g) || negb (is_set (gs_TargetIngressVerifiedAt g))))
    (ErrNew "inconsistent target ingress verification") ;;!
  fail_if (gs_RollbackPublished g && (gs_FenceAttempted g || gs_Fenced g) && negb (gs_Unfenced g))
    (ErrNew "advertised rollback before source unfence").

(** The retained message has the sample's payload; only the source may differ. *)
Definition same_message (original t : Telemetry) : bool :=
  str_eqb (tel_MessageID original) (tel_MessageID t) &&
  str_eqb (tel_Namespace original) (tel_Namespace t) &&
  str_eqb (tel_Group original) (tel_Group t) &&
  str_eqb (tel_TransitionID original) (tel_TransitionID t) &&
  (tel_Epoch original =? tel_Epoch t) &&
  str_eqb (tel_Participant original) (tel_Participant t) &&
  bool_decide (tel_Role original = tel_Role t) &&
  (tel_ObservedAt original =? tel_ObservedAt t) &&
  bool_decide (tel_Queued original = tel_Queued t) &&
  bool_decide (tel_Stored original = tel_Stored t) &&
  bool_decide (tel_Unacked original = tel_Unacked t).

Definition check_telemetry (g : GroupState) : gerr :=
  for_each (fun '(key, t) =>
    fail_if (negb (bool_decide (telemetrySourceKey (gs_Spec g) t = Some key)))
      (ErrNew "telemetry for unknown source") ;;!
    fail_if (negb (str_empty (tel_MessageID t)) &&
             negb (match gs_TelemetryMessages g !! tel_MessageID t with
                   | Some original => same_message original t
                   | None => false
                   end))
      (ErrNew "telemetry without matching message identity") ;;!
    fail_if (is_set (gs_ZeroSinceBySource g !! key) && negb (isKnownZero t))
      (ErrNew "zero interval for non-zero source"))
    (map_to_list (gs_LatestTelemetryBySource g)) ;;!
  for_each (fun '(key, _) =>
    fail_if (negb (is_set (gs_LatestTelemetryBySource g !! key)))
      (ErrNew "zero interval without telemetry")) (map_to_list (gs_ZeroSinceBySource g)).

Definition validateGroupState (group : string) (g : GroupState) : gerr :=
  fail_if (negb (str_eqb (spec_Group (gs_Spec g)) group))
    (ErrNew "persisted under mismatched key") ;;!
  check_flags g ;;!
  check_acks g ;;!
  check_issued g ;;!
  check_progress g ;;!
  check_telemetry g.

(** ** The repairs of [Open] *)

(** Replace the exit time of the last event. *)
Fixpoint exit_last (history : list PhaseEvent) (now : Time) : list PhaseEvent :=
  match history with
  | [] => []
  | [e] => [mkPhaseEvent (pe_Phase e) (pe_EnteredAt e) (Some now)]
  | e :: rest => e :: exit_last rest now
  end.

Section Open.
Context {net_url : NetURL} (options : Options).

(** Timestamps a document of an earlier release lacks. *)
Definition repair_times (group : string) (now : Time) (g : GroupState) : GroupState :=
  let g := if time_IsZero (gs_StartedAt g) then g <| gs_StartedAt := now |> else g in
  let g := if time_IsZero (gs_PhaseEnteredAt g)
           then g <| gs_PhaseEnteredAt := gs_StartedAt g |> else g in
  let g := if time_IsZero (gs_PhaseDeadline g) && negb (gs_Completed g)
           then g <| gs_PhaseDeadline :=
                       time_Add (gs_PhaseEnteredAt g) (phaseTimeout options group) |> else g in
  let g := if bool_decide (length (gs_PhaseHistory g) = 0%nat)
           then g <| gs_PhaseHistory :=
                       [mkPhaseEvent (gs_Phase g) (gs_PhaseEnteredAt g) None] |> else g in
  if gs_Completed g && negb (is_set (gs_CompletedAt g))
  then g <| gs_CompletedAt := Some now |>
         <| gs_PhaseDeadline := zeroTime |>
         <| gs_PhaseHistory := exit_last (gs_PhaseHistory g) now |>
  else g.

Definition open_group (now : Time) (group : string) (g : GroupState) : result GroupState :=
  wrap_err "invalid persisted transition" (spec_Validate (gs_Spec g)) ;;!
  let! roles := wrap_err "invalid participant requirements"
                  (normalizedRoleRequirements (gs_Spec g)) in
  let s := gs_Spec g <| spec_RoleRequirements := roles |> in
  let! names := wrap_err "invalid participant requirements" (normalizedRequirements s) in
  let s := s <| spec_ParticipantRequirements := names |> in
  let g := initializeMessageState (g <| gs_Spec := s |>) in
  let g := if spec_DrainGrace s =? 0
           then g <| gs_Spec := s <| spec_DrainGrace :=
                       by_group (o_DrainGraceByGroup options) group (o_ZeroGrace options) |> |>
           else g in
  let g := if gs_Fenced g then g <| gs_FenceAttempted := true |> else g in
  let g := repair_times group now g in
  validateGroupState group g ;;!
  Ok g.

Definition check_membership (group : string) (snapshot : MembershipSnapshot) : gerr :=
  wrap_err "invalid persisted membership" (Validate snapshot) ;;!
  fail_if (negb (str_eqb group (ms_ScalingGroup snapshot)))
    (ErrNew "persisted membership key contains another group").

Fixpoint open_groups (now : Time) (groups : list (string * GroupState))
    : result (gmap string GroupState) :=
  match groups with
  | [] => Ok ∅
  | (group, g) :: rest =>
      let! g := open_group now group g in
      let! opened := open_groups now rest in
      Ok (<[group := g]> opened)
  end.

End Open.

Definition Open {net_url : NetURL} (options : Options) (now : Time)
    (loaded : result PersistentState) : result PersistentState :=
  let options := withDefaults options in
  let! state := loaded in
  for_each (fun '(group, snapshot) => check_membership group snapshot)
    (map_to_list (ps_Membership state)) ;;!
  let! groups := open_groups options now (map_to_list (ps_Groups state)) in
  Ok (state <| ps_Groups := groups |>).
