(* ===== verification/ControllerSnapshots.v ===== *)
(** * The snapshots a transition publishes

    Every snapshot the controller derives from a valid specification is valid,
    and a participant's reconciler accepts each as an advance of the previous
    one: the contract between controller/controller.go ([controlSnapshot]) and
    control/reconciler.go ([compareSnapshots]). *)

From S2P Require Import Prelude Snapshot Messages Reconciler ControllerTypes.
From Stdlib Require Import ZArith Lia.
From stdpp Require Import base gmap strings list sorting numbers option.
#[local] Open Scope Z_scope.

(** The [uint64] fields of a specification are in range. *)
Definition spec_u64 (s : TransitionSpec) : Prop :=
  in_u64 (spec_Revision s) /\ in_u64 (spec_FromEpoch s).

Section Snapshots.
Context {net_url : NetURL}.

(** What validation of the PREPARE snapshot says of the two memberships. *)
Record spec_parts (s : TransitionSpec) : Prop := {
  sp_namespace : (if str_empty (spec_Namespace s) then nil_err
                  else validateNameComponent (spec_Namespace s)) = nil_err;
  sp_library : (if str_empty (spec_LibraryVersion s) then nil_err
                else validateIdentifier (spec_LibraryVersion s)) = nil_err;
  sp_group : validateIdentifier (spec_Group s) = nil_err;
  sp_hash : validateIdentifier (spec_HashContract s) = nil_err;
  sp_algorithm : validateIdentifier (spec_Algorithm s) = nil_err;
  sp_queue : validateIdentifier (q_Name (spec_Queue s)) = nil_err;
  sp_durable : q_Durable (spec_Queue s) = true;
  sp_kind : d_Kind (spec_Destination s) = DestinationTopic;
  sp_dest : validateIdentifier (d_Name (spec_Destination s)) = nil_err;
  sp_id : validateIdentifier (spec_ID s) = nil_err;
  sp_cur : validateMembership (membership (spec_Current s)) true = nil_err;
  sp_prop : validateMembership (membership (spec_Proposed s)) false = nil_err;
  sp_prop_ne : membership (spec_Proposed s) <> [];
  sp_differ : membership (spec_Current s) <> membership (spec_Proposed s);
  sp_curB : validateBrokerDescriptors (spec_CurrentBrokers s) (membership (spec_Current s)) true
            = nil_err;
  sp_propB : validateBrokerDescriptors (spec_ProposedBrokers s) (membership (spec_Proposed s)) true
             = nil_err;
  sp_curR : validateResources (spec_CurrentResources s) (spec_FromEpoch s)
              (membership (spec_Current s)) = nil_err;
  sp_propR : validateResources (spec_ProposedResources s) (spec_ToEpoch s)
               (membership (spec_Proposed s)) = nil_err;
  sp_from : spec_FromEpoch s <> 0;
  sp_max : spec_FromEpoch s <> max_u64;
  sp_to : spec_ToEpoch s = u64 (spec_FromEpoch s + 1);
  sp_rev : spec_Revision s <> 0;
  sp_rev_max : spec_Revision s <= max_u64 - 5;
}.

Ltac clear_fail :=
  repeat match goal with
  | H : fail_if _ _ = Ok _ |- _ => apply fail_if_ok in H
  end; to_prop.

Lemma spec_Validate_parts s : spec_Validate s = nil_err -> spec_parts s.
Proof.
  unfold spec_Validate, Validate, validate_common, validate_transitioning.
  cbn -[validateIdentifier validateNameComponent validateMembership validateBrokerDescriptors
        validateResources validateBrokers normalizedRoleRequirements u64 max_u64
        no_requirements SnapshotVersion slicesEqual membership].
  intros H. seq_ok. clear_fail.
  match goal with H : bool_decide (membership (spec_Proposed s) = []) = false |- _ => idtac
  | H : membership (spec_Proposed s) <> [] |- _ => idtac end.
  rewrite bool_decide_eq_false_2 in * by done.
  constructor; try done.
  intros Heq. rewrite Heq in *. by rewrite (proj2 (slicesEqual_true _ _)) in *.
Qed.

Lemma revisionFor_eq s offset :
  spec_u64 s -> spec_parts s -> 0 <= offset <= 5 ->
  revisionFor (spec_Revision s) offset = spec_Revision s + offset.
Proof.
  intros [[Hr1 Hr2] _] Hp Ho. pose proof (sp_rev _ Hp). pose proof (sp_rev_max _ Hp).
  unfold revisionFor. replace (spec_Revision s =? 0) with false by (symmetry; by apply Z.eqb_neq).
  apply u64_id. unfold in_u64. lia.
Qed.

Lemma ToEpoch_eq s : spec_u64 s -> spec_parts s -> spec_ToEpoch s = spec_FromEpoch s + 1.
Proof.
  intros [_ [? ?]] Hp. rewrite (sp_to _ Hp). apply u64_id.
  pose proof (sp_max _ Hp). unfold in_u64. lia.
Qed.

Lemma validateMembership_required l :
  l <> [] -> validateMembership l false = nil_err -> validateMembership l true = nil_err.
Proof.
  intros Hne. unfold validateMembership. simpl. by rewrite bool_decide_eq_false_2.
Qed.

(** The common checks, for a snapshot with the specification's identity. *)
Lemma validate_common_ok s m :
  spec_parts s ->
  ms_Version m = SnapshotVersion -> ms_Namespace m = spec_Namespace s ->
  ms_LibraryVersion m = spec_LibraryVersion s -> ms_ScalingGroup m = spec_Group s ->
  ms_HashContract m = spec_HashContract s -> ms_Algorithm m = spec_Algorithm s ->
  ms_Queue m = spec_Queue s -> ms_Destination m = spec_Destination s ->
  ms_Revision m <> 0 -> ms_Epoch m <> 0 ->
  validateMembership (ms_CurrentMembership m) true = nil_err ->
  validateMembership (ms_ProposedMembership m) false = nil_err ->
  validateBrokerDescriptors (ms_CurrentBrokers m) (ms_CurrentMembership m) true = nil_err ->
  validateBrokerDescriptors (ms_ProposedBrokers m) (ms_ProposedMembership m)
    (negb (bool_decide (ms_ProposedMembership m = []))) = nil_err ->
  validateResources (ms_CurrentResources m) (ms_Epoch m) (ms_CurrentMembership m) = nil_err ->
  validate_common m = nil_err.
Proof.
  intros Hp Hv Hn Hl Hg Hh Ha Hq Hd Hr He Hc Hpm Hcb Hpb Hcr. unfold validate_common.
  rewrite Hv, Hn, Hl, Hg, Hh, Ha, Hq, Hd, Hc, Hpm, Hcb, Hpb, Hcr.
  rewrite (sp_namespace _ Hp), (sp_library _ Hp), (sp_group _ Hp), (sp_hash _ Hp),
    (sp_algorithm _ Hp), (sp_queue _ Hp), (sp_durable _ Hp), (sp_kind _ Hp), (sp_dest _ Hp).
  by rewrite (proj2 (Z.eqb_neq _ _) Hr), (proj2 (Z.eqb_neq _ _) He).
Qed.

Lemma proposing_common s offset phase :
  spec_u64 s -> spec_parts s -> 0 <= offset <= 5 ->
  validate_common (proposing_snapshot s offset phase) = nil_err.
Proof.
  intros Hu Hp Ho. pose proof Hu as [[? ?] [? ?]]. pose proof (sp_rev _ Hp).
  apply (validate_common_ok s); [exact Hp|reflexivity..| | | | | | |].
  - cbn. rewrite (revisionFor_eq s) by done. lia.
  - exact (sp_from _ Hp).
  - exact (sp_cur _ Hp).
  - exact (sp_prop _ Hp).
  - exact (sp_curB _ Hp).
  - rewrite bool_decide_eq_false_2 by exact (sp_prop_ne _ Hp). exact (sp_propB _ Hp).
  - exact (sp_curR _ Hp).
Qed.

Lemma installed_common s offset phase t :
  spec_u64 s -> spec_parts s -> 0 <= offset <= 5 ->
  validate_common (installed_snapshot s offset phase <| ms_Transition := t |>) = nil_err.
Proof.
  intros Hu Hp Ho. pose proof Hu as [[? ?] [? ?]]. pose proof (sp_rev _ Hp).
  apply (validate_common_ok s); [exact Hp|reflexivity..| | | | | | |].
  - cbn. rewrite (revisionFor_eq s) by done. lia.
  - cbn. rewrite (ToEpoch_eq s) by done. lia.
  - apply validateMembership_required; [exact (sp_prop_ne _ Hp)|exact (sp_prop _ Hp)].
  - reflexivity.
  - exact (sp_propB _ Hp).
  - reflexivity.
  - exact (sp_propR _ Hp).
Qed.

Lemma rollback_common s :
  spec_u64 s -> spec_parts s -> validate_common (rollback_snapshot s) = nil_err.
Proof.
  intros Hu Hp. pose proof Hu as [[? ?] [? ?]]. pose proof (sp_rev _ Hp).
  apply (validate_common_ok s); [exact Hp|reflexivity..| | | | | | |].
  - cbn. rewrite (revisionFor_eq s) by done. lia.
  - exact (sp_from _ Hp).
  - exact (sp_cur _ Hp).
  - reflexivity.
  - exact (sp_curB _ Hp).
  - reflexivity.
  - exact (sp_curR _ Hp).
Qed.

Lemma proposing_valid s offset phase :
  spec_u64 s -> spec_parts s -> 0 <= offset <= 5 ->
  phase = CPrepare \/ phase = CPaused \/ phase = CDrain ->
  Validate (proposing_snapshot s offset phase) = nil_err.
Proof.
  intros Hu Hp Ho Hph. pose proof (sp_prop_ne _ Hp) as Hne.
  unfold Validate. rewrite proposing_common by done.
  replace (validate_transitioning (proposing_snapshot s offset phase)) with nil_err.
  { by destruct Hph as [->|[->| ->]]. }
  unfold validate_transitioning. cbn [ms_ProposedMembership ms_Transition ms_ProposedResources
    ms_CurrentMembership ms_Epoch proposing_snapshot snapshot_base setter spec_transition
    tr_ID tr_FromEpoch tr_ToEpoch].
  rewrite bool_decide_eq_false_2 by done. rewrite (sp_propR _ Hp), (sp_id _ Hp).
  destruct (slicesEqual _ _) eqn:E.
  { apply slicesEqual_true in E. by destruct (sp_differ _ Hp). }
  rewrite (proj2 (Z.eqb_neq _ _) (sp_max _ Hp)), (sp_to _ Hp), !Z.eqb_refl. done.
Qed.

Lemma committed_ok s :
  spec_parts s ->
  validate_committed (installed_snapshot s 3 CCommitted
                        <| ms_Transition := Some (spec_transition s) |>) = nil_err.
Proof.
  intros Hp. unfold validate_committed. cbn [ms_Transition ms_ProposedMembership
    ms_ProposedResources ms_Epoch installed_snapshot snapshot_base setter spec_transition
    tr_ID tr_FromEpoch tr_ToEpoch].
  rewrite (sp_id _ Hp), (proj2 (Z.eqb_neq _ _) (sp_max _ Hp)), <- (sp_to _ Hp), !Z.eqb_refl.
  reflexivity.
Qed.

(** Every snapshot the controller publishes for a valid transition, in
    each phase and for the rollback, passes the control plane's own
    validation; so [SaveMembership] never refuses it as malformed and a
    participant never rejects it. *)
Theorem controlSnapshot_valid s phase rollback :
  spec_u64 s -> spec_Validate s = nil_err ->
  rollback = true \/ validRequirementPhase phase = true ->
  Validate (controlSnapshot s phase rollback) = nil_err.
Proof.
  intros Hu Hp%spec_Validate_parts Hphase. unfold controlSnapshot.
  destruct rollback.
  { unfold Validate. by rewrite rollback_common. }
  destruct phase as [| | | | |other].
  - apply proposing_valid; auto; lia.
  - apply proposing_valid; auto; lia.
  - apply proposing_valid; auto; lia.
  - unfold Validate. rewrite installed_common by (done || lia).
    apply committed_ok; done.
  - change (installed_snapshot s 4 CActive) with
      (installed_snapshot s 4 CActive <| ms_Transition := None |>).
    unfold Validate. by rewrite installed_common by (done || lia).
  - by destruct Hphase.
Qed.

Lemma slicesEqual_refl l : slicesEqual l l = true.
Proof. by apply slicesEqual_true. Qed.
Lemma resourcesEqual_refl l : resourcesEqual l l = true.
Proof. by apply bool_decide_eq_true. Qed.
Lemma snapshotsEqual_refl m : snapshotsEqual m m = true.
Proof. by apply snapshotsEqual_true. Qed.

(** Snapshots of one specification agree on the routing contract. *)
Definition of_spec (s : TransitionSpec) (m : MembershipSnapshot) : Prop :=
  ms_Version m = SnapshotVersion /\ ms_Namespace m = spec_Namespace s /\
  ms_LibraryVersion m = spec_LibraryVersion s /\ ms_ScalingGroup m = spec_Group s /\
  ms_HashContract m = spec_HashContract s /\ ms_Algorithm m = spec_Algorithm s /\
  ms_Queue m = spec_Queue s /\ ms_Destination m = spec_Destination s.

Lemma controlSnapshot_of_spec s phase rollback : of_spec s (controlSnapshot s phase rollback).
Proof. unfold of_spec. by destruct rollback, phase. Qed.

Lemma of_spec_compatible s l r :
  of_spec s l -> of_spec s r -> validateRoutingCompatibility l r = nil_err.
Proof.
  intros (_ & L1 & L2 & _ & L3 & L4 & L5 & L6) (_ & R1 & R2 & _ & R3 & R4 & R5 & R6).
  unfold validateRoutingCompatibility.
  rewrite L1, L2, L3, L4, L5, L6, R1, R2, R3, R4, R5, R6, !str_eqb_refl,
    !bool_decide_eq_true_2 by done. done.
Qed.

(** With a greater revision and no smaller epoch, the comparison is
    [validateAdvance]. *)
Lemma compare_advance s l r :
  of_spec s l -> of_spec s r ->
  ms_Revision l < ms_Revision r -> ms_Epoch l <= ms_Epoch r ->
  compareSnapshots l r = (validateAdvance l r ;;! Ok (-1)).
Proof.
  intros (L1 & _ & _ & L2 & _) (R1 & _ & _ & R2 & _) Hr He. unfold compareSnapshots.
  rewrite L1, L2, R1, R2, Z.eqb_refl, str_eqb_refl. simpl.
  rewrite (proj2 (Z.eqb_neq _ _)), (proj2 (Z.ltb_ge _ _)), (proj2 (Z.ltb_ge _ _)) by lia. done.
Qed.

Lemma compare_stale s l r :
  of_spec s l -> of_spec s r ->
  ms_Revision r < ms_Revision l -> ms_Epoch r <= ms_Epoch l -> compareSnapshots l r = Ok 1.
Proof.
  intros (L1 & _ & _ & L2 & _) (R1 & _ & _ & R2 & _) Hr He. unfold compareSnapshots.
  rewrite L1, L2, R1, R2, Z.eqb_refl, str_eqb_refl. simpl.
  rewrite (proj2 (Z.eqb_neq _ _)), (proj2 (Z.ltb_lt _ _)), (proj2 (Z.ltb_ge _ _)) by lia. done.
Qed.

Lemma compare_same l : compareSnapshots l l = Ok 0.
Proof.
  unfold compareSnapshots. by rewrite !Z.eqb_refl, str_eqb_refl, snapshotsEqual_refl.
Qed.

(** Positions of the forward publications. *)
Definition phase_offset (p : Phase) : Z :=
  match p with
  | PhasePrepare => 0 | PhasePause => 1 | PhaseDrain => 2 | PhaseCommit => 3
  | PhaseActivate => 4 | PhaseOther _ => 0
  end.

Lemma controlSnapshot_revision s p :
  spec_u64 s -> spec_parts s -> validRequirementPhase p = true ->
  ms_Revision (controlSnapshot s p false) = spec_Revision s + phase_offset p.
Proof.
  intros Hu Hp Hv. destruct p; try done;
    cbn [controlSnapshot ms_Revision proposing_snapshot installed_snapshot snapshot_base setter];
    rewrite (revisionFor_eq s) by (done || lia); done.
Qed.

Lemma controlSnapshot_epoch s p q :
  spec_u64 s -> spec_parts s -> validRequirementPhase p = true ->
  validRequirementPhase q = true -> phase_offset p < phase_offset q ->
  ms_Epoch (controlSnapshot s p false) <= ms_Epoch (controlSnapshot s q false).
Proof.
  intros Hu Hp Hv Hw Hlt. pose proof (ToEpoch_eq s Hu Hp).
  destruct p, q; try done; cbn in *; lia.
Qed.

Lemma forward_advance s p q :
  spec_u64 s -> spec_parts s -> validRequirementPhase p = true ->
  validRequirementPhase q = true -> phase_offset p < phase_offset q ->
  validateAdvance (controlSnapshot s p false) (controlSnapshot s q false) =
  if bool_decide (q = PhaseCommit) && negb (bool_decide (p = PhaseDrain))
  then conflict "COMMITTED state does not match drained proposal" else nil_err.
Proof.
  intros Hu Hp Hv Hw Hlt. pose proof (ToEpoch_eq s Hu Hp) as Hto.
  assert (Hne : (spec_ToEpoch s =? spec_FromEpoch s) = false) by lia.
  unfold validateAdvance, transitions_match.
  rewrite (of_spec_compatible s) by apply controlSnapshot_of_spec.
  destruct p, q; try done;
    cbn [controlSnapshot ms_Phase ms_Epoch ms_Transition ms_CurrentMembership
         ms_CurrentResources ms_ProposedMembership ms_ProposedResources proposing_snapshot
         installed_snapshot snapshot_base setter];
    rewrite ?slicesEqual_refl, ?resourcesEqual_refl, ?Z.eqb_refl, ?Hne,
      ?(bool_decide_eq_true_2 (spec_transition s = spec_transition s)) by done; done.
Qed.

(** What a participant's reconciler makes of any two publications of one
    transition.  A later one is an advance, also when intermediate updates
    were missed, except that COMMITTED is accepted only right after DRAIN; a
    repeated one is a replay; an earlier one is stale. *)
Lemma compare_forward s p q :
  spec_u64 s -> spec_Validate s = nil_err ->
  validRequirementPhase p = true -> validRequirementPhase q = true ->
  compareSnapshots (controlSnapshot s p false) (controlSnapshot s q false) =
  if phase_offset p =? phase_offset q then Ok 0 else
  if phase_offset q <? phase_offset p then Ok 1 else
  if bool_decide (q = PhaseCommit) && negb (bool_decide (p = PhaseDrain))
  then Err (ErrWrap "COMMITTED state does not match drained proposal" ErrConflictingUpdate)
  else Ok (-1).
Proof.
  intros Hu Hp%spec_Validate_parts Hv Hw.
  pose proof (controlSnapshot_revision s p Hu Hp Hv) as Rp.
  pose proof (controlSnapshot_revision s q Hu Hp Hw) as Rq.
  destruct (Z.eqb_spec (phase_offset p) (phase_offset q)) as [Heq|Hneq].
  { assert (p = q) as -> by (destruct p, q; done). apply compare_same. }
  destruct (Z.ltb_spec (phase_offset q) (phase_offset p)) as [Hlt|Hge].
  - apply (compare_stale s); [apply controlSnapshot_of_spec..|lia|].
    by apply controlSnapshot_epoch.
  - rewrite (compare_advance s); [|apply controlSnapshot_of_spec..|lia|].
    + rewrite forward_advance by (done || lia). by destruct (_ && _).
    + apply controlSnapshot_epoch; done || lia.
Qed.

(** The rollback publication is an advance for a participant that holds any
    pre-commit snapshot of the transition, and it restores exactly the
    membership, brokers and resources the participant routed by. *)
Theorem compare_rollback s p phase :
  spec_u64 s -> spec_Validate s = nil_err -> phase_offset p < 3 ->
  validRequirementPhase p = true ->
  let before := controlSnapshot s p false in
  let after := controlSnapshot s phase true in
  compareSnapshots before after = Ok (-1) /\
  ms_Epoch after = ms_Epoch before /\
  ms_CurrentMembership after = ms_CurrentMembership before /\
  ms_CurrentBrokers after = ms_CurrentBrokers before /\
  ms_CurrentResources after = ms_CurrentResources before.
Proof.
  intros Hu Hp%spec_Validate_parts Hlt Hv. cbv zeta. split; [|destruct p; done].
  rewrite (compare_advance s).
  - unfold validateAdvance.
    rewrite (of_spec_compatible s) by
      (apply controlSnapshot_of_spec || apply (controlSnapshot_of_spec s phase true)).
    destruct p; try done;
      cbn [controlSnapshot rollback_snapshot ms_Phase ms_Epoch ms_Transition
           ms_CurrentMembership ms_CurrentResources proposing_snapshot snapshot_base setter];
      rewrite ?slicesEqual_refl, ?resourcesEqual_refl, ?Z.eqb_refl; done.
  - apply controlSnapshot_of_spec.
  - apply (controlSnapshot_of_spec s phase true).
  - rewrite controlSnapshot_revision by done.
    cbn [controlSnapshot rollback_snapshot ms_Revision setter].
    rewrite (revisionFor_eq s) by (done || lia). lia.
  - destruct p; cbn in *; lia.
Qed.

End Snapshots.
