(* ===== verification/ControllerSpec.v ===== *)
(** * The transition protocol, abstractly

    [gstep] is the state machine of one group: which durable change may follow
    which, with the evidence each requires; [ostep] records telemetry.  [pstep]
    lifts both to the whole document.  [ginv] is the invariant of a group; every step preserves it. *)

From S2P Require Import Prelude Snapshot Messages ControllerTypes Controller ControllerOpen.
From Stdlib Require Import ZArith Lia.
From stdpp Require Import base gmap strings list sorting numbers option relations.
#[local] Open Scope Z_scope.

(** ** Acknowledgements: the interference of one group *)
Definition ack_step (g g' : GroupState) : Prop := exists ack, ack_group ack g = Ok g'.
Definition ack_ext : relation GroupState := rtc ack_step.

(** ** Steps of one group *)
Definition live (g : GroupState) : Prop := gs_Completed g = false /\ gs_RollingBack g = false.
Definition undoing (g : GroupState) : Prop := gs_Completed g = false /\ gs_RollingBack g = true.
Definition fence_touched (g : GroupState) : bool := gs_FenceAttempted g || gs_Fenced g.

(** The phases whose commands the controller issues. *)
Definition commanded (p : Phase) : Prop :=
  p = PhasePrepare \/ p = PhasePause \/ p = PhaseDrain \/ p = PhaseActivate.

(** Which specifications are offered to [Begin]. *)
Class Admission := admits : TransitionSpec -> Prop.

Section Protocol.
Context (options : Options).

Inductive gstep : GroupState -> GroupState -> Prop :=
| st_issue g : live g -> commanded (gs_Phase g) ->
    phasePublished g (gs_Phase g) = false -> commandsIssued g (gs_Phase g) = false ->
    (gs_Phase g = PhaseActivate -> gs_TargetIngressVerified g = true) ->
    gstep g (recordIssuedCommands (gs_Phase g) g)
| st_prepared g : live g -> gs_Phase g = PhasePrepare -> commandsIssued g PhasePrepare = true ->
    gs_PreparePublished g = false ->
    gstep g (g <| gs_PreparePublished := true |>)
| st_pause g t d : live g -> gs_Phase g = PhasePrepare -> gs_PreparePublished g = true ->
    allAcknowledged g PhasePrepare = true ->
    gstep g (enterPhase PhasePause t d g)
| st_paused g : live g -> gs_Phase g = PhasePause -> commandsIssued g PhasePause = true ->
    gs_PausePublished g = false ->
    gstep g (g <| gs_PausePublished := true |>)
| st_fence_attempt g : live g -> gs_Phase g = PhasePause -> gs_PausePublished g = true ->
    allAcknowledged g PhasePause = true ->
    gs_FenceAttempted g = false ->
    gstep g (g <| gs_FenceAttempted := true |>)
| st_fenced g : live g -> gs_Phase g = PhasePause -> gs_PausePublished g = true ->
    allAcknowledged g PhasePause = true -> gs_FenceAttempted g = true ->
    gs_Fenced g = false ->
    gstep g (g <| gs_Fenced := true |>)
| st_drain g t d : live g -> gs_Phase g = PhasePause -> gs_PausePublished g = true ->
    allAcknowledged g PhasePause = true -> gs_Fenced g = true ->
    gstep g (enterPhase PhaseDrain t d g)
| st_draining g : live g -> gs_Phase g = PhaseDrain -> commandsIssued g PhaseDrain = true ->
    gs_DrainPublished g = false ->
    gstep g (g <| gs_DrainPublished := true |>)
| st_commit g g0 t0 t1 verifiedAt t d : live g -> gs_Phase g = PhaseDrain ->
    gs_DrainPublished g = true -> drainComplete options g t0 = true ->
    allAcknowledged g PhaseDrain = true ->
    ack_ext g0 g -> readinessFresh options g0 t1 = true ->
    gstep g (enterPhase PhaseCommit t d (g <| gs_FenceVerifiedAt := Some verifiedAt |>))
| st_committed g verifiedAt : live g -> gs_Phase g = PhaseCommit ->
    gs_CommitPublished g = false ->
    gstep g (g <| gs_FenceAttempted := true |> <| gs_Fenced := true |>
               <| gs_FenceVerifiedAt := Some verifiedAt |> <| gs_CommitPublished := true |>)
| st_activate g t d : live g -> gs_Phase g = PhaseCommit -> gs_CommitPublished g = true ->
    gstep g (enterPhase PhaseActivate t d g)
| st_enabled g : live g -> gs_Phase g = PhaseActivate ->
    gs_TargetIngressEnabled g = false ->
    gstep g (g <| gs_TargetIngressEnabled := true |>)
| st_verified g verifiedAt : live g -> gs_Phase g = PhaseActivate ->
    gs_TargetIngressEnabled g = true ->
    gs_TargetIngressVerified g = false ->
    gstep g (g <| gs_TargetIngressVerified := true |>
               <| gs_TargetIngressVerifiedAt := Some verifiedAt |>)
| st_activated g verifiedAt : live g -> gs_Phase g = PhaseActivate ->
    gs_TargetIngressVerified g = true -> commandsIssued g PhaseActivate = true ->
    gs_ActivatePublished g = false ->
    gstep g (g <| gs_TargetIngressVerifiedAt := Some verifiedAt |>
               <| gs_ActivatePublished := true |>)
| st_complete g t : live g -> gs_Phase g = PhaseActivate -> gs_ActivatePublished g = true ->
    allAcknowledged g PhaseActivate = true ->
    gstep g (completeState t g)
| st_rollback g : live g -> gs_Phase g <> PhaseCommit -> gs_Phase g <> PhaseActivate ->
    gstep g (g <| gs_RollingBack := true |>)
| st_unfenced g : undoing g -> fence_touched g = true ->
    gs_Unfenced g = false ->
    gstep g (g <| gs_Unfenced := true |>)
| st_rolled_back g : undoing g -> (fence_touched g = true -> gs_Unfenced g = true) ->
    gs_RollbackPublished g = false ->
    gstep g (g <| gs_RollbackPublished := true |>)
| st_complete_rollback g t : undoing g -> gs_RollbackPublished g = true ->
    gstep g (completeState t g).

(** An accepted telemetry sample. *)
Inductive ostep (g : GroupState) : GroupState -> Prop :=
| st_observe sample sources aggregate : live g -> gs_Phase g = PhaseDrain ->
    observe_out_of_scope g sample = false ->
    (tel_MessageID sample <> ""%string -> gs_TelemetryMessages g !! tel_MessageID sample = None) ->
    telemetrySourcesForSample (gs_Spec g) sample = (sources, aggregate) ->
    observe_rejected g sample sources aggregate = false ->
    ostep g (observe_group options sample sources g).

Definition gmove (g g' : GroupState) : Prop := gstep g g' \/ ostep g g'.

(** ** Steps of the document *)
Definition installs (s : PersistentState) (sp : TransitionSpec) : Prop :=
  forall g, ps_Groups s !! spec_Group sp = Some g -> canReplaceCompleted g sp = true.

Inductive pstep {net_url : NetURL} {adm : Admission} (s : PersistentState) : PersistentState -> Prop :=
| ps_group group g g' s' :
    ps_Groups s !! group = Some g -> gmove g g' ->
    group_update options group (fun _ => g') s = Ok s' -> pstep s s'
| ps_ack ack s' : ack_update ack s = Ok s' -> pstep s s'
| ps_membership snapshot s' :
    Validate snapshot = nil_err -> membership_update snapshot s = Ok s' -> pstep s s'
| ps_begin raw sp t :
    spec_Validate raw = nil_err -> normalize_spec raw = Ok sp -> admits sp -> installs s sp ->
    pstep s (s <| ps_Groups := <[spec_Group sp := created_group options sp t]> (ps_Groups s) |>).
End Protocol.

(** ** The invariant of one group *)
Record flags_ok (g : GroupState) : Prop := {
  fo_known : 1 <= state_rank (gs_Phase g);
  fo_r2 : 2 <= state_rank (gs_Phase g) -> gs_PreparePublished g = true;
  fo_r3 : 3 <= state_rank (gs_Phase g) -> gs_PausePublished g = true /\ gs_Fenced g = true;
  fo_r4 : 4 <= state_rank (gs_Phase g) ->
    gs_DrainPublished g = true /\ is_set (gs_FenceVerifiedAt g) = true /\ gs_RollingBack g = false;
  fo_r5 : 5 <= state_rank (gs_Phase g) -> gs_CommitPublished g = true;
  fo_pause : gs_PausePublished g = true -> 2 <= state_rank (gs_Phase g);
  fo_attempt : gs_FenceAttempted g = true -> gs_PausePublished g = true;
  fo_fenced : gs_Fenced g = true -> gs_FenceAttempted g = true;
  fo_drain : gs_DrainPublished g = true -> 3 <= state_rank (gs_Phase g);
  fo_commit : gs_CommitPublished g = true -> 4 <= state_rank (gs_Phase g);
  fo_enabled : gs_TargetIngressEnabled g = true -> 5 <= state_rank (gs_Phase g);
  fo_verified : gs_TargetIngressVerified g = true ->
    gs_TargetIngressEnabled g = true /\ is_set (gs_TargetIngressVerifiedAt g) = true;
  fo_activate : gs_ActivatePublished g = true -> gs_TargetIngressVerified g = true;
  fo_unfenced : gs_Unfenced g = true -> gs_RollingBack g = true;
  fo_rollback : gs_RollbackPublished g = true ->
    gs_RollingBack g = true /\ (gs_FenceAttempted g = true -> gs_Unfenced g = true);
  fo_complete : gs_Completed g = true ->
    is_set (gs_CompletedAt g) = true /\
    if gs_RollingBack g then gs_RollbackPublished g = true else gs_ActivatePublished g = true;
}.

(** The specification is valid and carries its own normal form. *)
Record spec_normal `{net_url : NetURL} (s : TransitionSpec) : Prop := {
  sn_valid : spec_Validate s = nil_err;
  sn_roles : normalizedRoleRequirements s = Ok (spec_RoleRequirements s);
  sn_names : spec_ParticipantRequirements s = participant_names <$> spec_RoleRequirements s;
}.

Record commands_ok (g : GroupState) : Prop := {
  co_issued : forall p m, gs_IssuedCommandIDs g !! p = Some m ->
    m = ∅ \/ (m = expected_for (gs_Spec g) p /\ (phasePublished g p = true \/ p = gs_Phase g));
  co_published : forall p, phasePublished g p = true -> p <> PhaseCommit ->
    commandsIssued g p = true;
  co_acks : forall p who t, acks_for g p !! who = Some t ->
    commandsIssued g p = true /\ is_Some (requirementFor (gs_Spec g) p who);
}.

(** Latest samples are filed under their own source and retained by message
    identity; a source with a zero interval is known to be at zero. *)
Record telemetry_maps_ok (s : TransitionSpec) (messages latest : gmap string Telemetry)
    (zero : gmap string Time) : Prop := {
  to_source : forall k t, latest !! k = Some t -> telemetrySourceKey s t = Some k;
  to_message : forall k t, latest !! k = Some t -> tel_MessageID t <> ""%string ->
    messages !! tel_MessageID t = Some t;
  to_known : forall k t, latest !! k = Some t -> is_Some (zero !! k) -> isKnownZero t = true;
  to_zero : forall k, is_Some (zero !! k) -> is_Some (latest !! k);
  to_time : forall k t, latest !! k = Some t -> tel_ObservedAt t <> 0;
}.

Definition telemetry_ok (g : GroupState) : Prop :=
  telemetry_maps_ok (gs_Spec g) (gs_TelemetryMessages g) (gs_LatestTelemetryBySource g)
    (gs_ZeroSinceBySource g).

Record ginv `{net_url : NetURL} (group : string) (g : GroupState) : Prop := {
  gi_group : spec_Group (gs_Spec g) = group;
  gi_spec : spec_normal (gs_Spec g);
  gi_flags : flags_ok g;
  gi_commands : commands_ok g;
  gi_telemetry : telemetry_ok g;
}.
