(* ===== verification/ControllerInv.v ===== *)
(** * Preservation of the controller's invariant

    Every step of the protocol preserves [ginv]; the lemmas are grouped by the
    part of the state they concern. *)

From S2P Require Import Prelude Snapshot Messages ControllerTypes Controller ControllerOpen ControllerSpec.
From Stdlib Require Import ZArith Lia.
From stdpp Require Import base gmap strings sorting numbers option relations list.
#[local] Open Scope Z_scope.

(** ** Acknowledgements *)

(** What a successful acknowledgement requires and does. *)
Lemma ack_group_ok ack g g' :
  ack_group ack g = Ok g' ->
  live g /\ ack_Phase ack = gs_Phase g /\ commandsIssued g (gs_Phase g) = true /\
  is_Some (requirementFor (gs_Spec g) (gs_Phase g) (ack_Participant ack)) /\
  g' = g <| gs_Acknowledgements :=
        <[gs_Phase g := <[ack_Participant ack := ack_ObservedAt ack]> (acks_for g (gs_Phase g))]>
          (gs_Acknowledgements g) |>.
Proof.
  unfold ack_group. intros H.
  destruct (gs_Completed g || _ || _ || _ || _ || _) eqn:E; [done|]. to_prop.
  match goal with H : ack_Phase ack = _ |- _ => rewrite H in * end.
  destruct (requirementFor _ _ _) eqn:?; [|done].
  repeat match type of H with context [if ?b then _ else _] => destruct b; try done end;
    simplify_eq; split_and!; try done; by eexists.
Qed.

Lemma acks_for_insert g p who t q :
  acks_for (g <| gs_Acknowledgements :=
              <[p := <[who := t]> (acks_for g p)]> (gs_Acknowledgements g) |>) q =
  if bool_decide (q = p) then <[who := t]> (acks_for g p) else acks_for g q.
Proof.
  unfold acks_for. cbn. case_bool_decide as Hq.
  - subst. by rewrite lookup_insert_eq.
  - by rewrite lookup_insert_ne.
Qed.

(** The only change is the acknowledgement map, which grows. *)
Lemma ack_ext_shape g g' :
  ack_ext g g' ->
  exists a, g' = g <| gs_Acknowledgements := a |> /\
    forall p who, is_Some (acks_for g p !! who) -> is_Some (acks_for g' p !! who).
Proof.
  induction 1 as [g|g g1 g2 [ack Hack] _ IH].
  { exists (gs_Acknowledgements g). split; [by destruct g|done]. }
  apply ack_group_ok in Hack as (_ & _ & _ & _ & ->). destruct IH as (a & -> & Hgrow).
  exists a. split; [done|]. intros p who Hs. apply Hgrow. rewrite acks_for_insert.
  case_bool_decide; [subst|done].
  destruct (decide (who = ack_Participant ack)) as [->|].
  - by rewrite lookup_insert_eq.
  - by rewrite lookup_insert_ne.
Qed.

Lemma allAcknowledged_ext g g' p :
  ack_ext g g' -> allAcknowledged g p = true -> allAcknowledged g' p = true.
Proof.
  intros (a & -> & Hgrow)%ack_ext_shape. unfold allAcknowledged. cbn [gs_Spec setter].
  rewrite !forallb_forall. intros Hall who Hin. apply Hall in Hin.
  rewrite bool_decide_eq_true in *. by apply Hgrow.
Qed.

(** ** Flags *)
Ltac flags := constructor; cbn; intros; intuition (try congruence; try lia).

Lemma flags_ext g a : flags_ok g -> flags_ok (g <| gs_Acknowledgements := a |>).
Proof. intros [] . constructor; assumption. Qed.

Lemma flags_created options s t : flags_ok (created_group options s t).
Proof. flags. Qed.

Lemma flags_enter g p t d :
  flags_ok g -> live g -> state_rank p = state_rank (gs_Phase g) + 1 ->
  (state_rank p = 2 -> gs_PreparePublished g = true) ->
  (state_rank p = 3 -> gs_PausePublished g = true /\ gs_Fenced g = true) ->
  (state_rank p = 4 -> gs_DrainPublished g = true /\ is_set (gs_FenceVerifiedAt g) = true) ->
  (state_rank p = 5 -> gs_CommitPublished g = true) ->
  flags_ok (enterPhase p t d g).
Proof.
  intros [] [Hc Hrb] Hr H2 H3 H4 H5.
  assert (forall n, n <= state_rank p -> n = state_rank p \/ n <= state_rank (gs_Phase g))
    as Hcase by lia.
  constructor; cbn; intros; try congruence; try (by intuition lia).
  - destruct (Hcase 2) as [|]; auto.
  - destruct (Hcase 3) as [|]; auto.
  - destruct (Hcase 4) as [|]; auto. destruct H4 as [? ?]; auto.
  - destruct (Hcase 5) as [|]; auto.
Qed.

(** [observe_group] touches only telemetry. *)
Lemma observe_sources_frame options sample sources g :
  exists z l, foldl (observe_source options sample) g sources =
    g <| gs_ZeroSinceBySource := z |> <| gs_LatestTelemetryBySource := l |>.
Proof.
  revert g. induction sources as [|src sources IH]; intros g; cbn [foldl].
  { exists (gs_ZeroSinceBySource g), (gs_LatestTelemetryBySource g). by destruct g. }
  destruct (IH (observe_source options sample g src)) as (z & l & ->). by exists z, l.
Qed.

Lemma observe_group_frame options sample sources g :
  exists z l m lt zs, observe_group options sample sources g =
    g <| gs_ZeroSinceBySource := z |> <| gs_LatestTelemetryBySource := l |>
      <| gs_TelemetryMessages := m |> <| gs_LatestTelemetry := lt |> <| gs_ZeroSince := zs |>.
Proof.
  unfold observe_group. destruct (observe_sources_frame options sample sources g) as (z & l & ->).
  destruct (str_empty _).
  - exists z, l, (gs_TelemetryMessages g). do 2 eexists. reflexivity.
  - do 5 eexists. reflexivity.
Qed.

Lemma flags_step options g g' : gstep options g g' -> flags_ok g -> flags_ok g'.
Proof.
  intros Hs Hf. destruct Hs.
  all: try (apply flags_enter; [by destruct Hf|done|by rewrite H0|cbn; intuition congruence..]).
  all: unfold live, undoing, fence_touched in *.
  all: try (destruct Hf; constructor; cbn; try (rewrite H0 in *; cbn in * ); intros;
            repeat case_match; intuition (try congruence; try lia); fail).
  - assert (state_rank (gs_Phase g) <= 3) by (destruct (gs_Phase g); done || cbn; lia).
    destruct Hf; constructor; cbn; intuition (try congruence; try lia).
  - destruct Hf; constructor; cbn; intros; repeat case_match; intuition (try congruence; try lia).
    match goal with H : gs_FenceAttempted g = true |- _ => rewrite H in * end. auto.
Qed.

(** ** Commands *)
Lemma expectedCommandIDs_lookup s p :
  expectedCommandIDs s !! p = phase_command_ids s p <$> (spec_RoleRequirements s !! p).
Proof.
  unfold expectedCommandIDs. rewrite map_lookup_imap.
  by destruct (spec_RoleRequirements s !! p).
Qed.

Lemma expected_for_eq s p : expected_for s p = phase_command_ids s p (requirements_of s p).
Proof.
  unfold expected_for, requirements_of. rewrite expectedCommandIDs_lookup.
  by destruct (spec_RoleRequirements s !! p).
Qed.

Lemma phase_command_ids_snoc s p rs r :
  phase_command_ids s p (rs ++ [r]) =
  <[pr_Participant r := commandID s p r]> (phase_command_ids s p rs).
Proof. unfold phase_command_ids. by rewrite foldl_app. Qed.

Lemma phase_command_ids_dom s p rs who :
  is_Some (phase_command_ids s p rs !! who) <-> who ∈ participant_names rs.
Proof.
  induction rs as [|r rs IH] using rev_ind.
  { unfold phase_command_ids. cbn. rewrite lookup_empty, elem_of_nil. split; [by intros [? ?]|done]. }
  rewrite phase_command_ids_snoc, lookup_insert_is_Some, IH. unfold participant_names.
  rewrite fmap_app, elem_of_app. cbn. rewrite elem_of_cons, elem_of_nil.
  destruct (decide (pr_Participant r = who)); naive_solver.
Qed.

Lemma operationID_nonempty s a b : operationID s a b <> ""%string.
Proof. unfold operationID. by destruct (spec_Group s). Qed.

Lemma phase_command_ids_nonempty s p rs who c :
  phase_command_ids s p rs !! who = Some c -> c <> ""%string.
Proof.
  induction rs as [|r rs IH] using rev_ind; [done|].
  rewrite phase_command_ids_snoc. intros [[_ <-]|[_ ?]]%lookup_insert_Some; [|auto].
  apply operationID_nonempty.
Qed.

Lemma requirementFor_names s p who :
  is_Some (requirementFor s p who) <-> who ∈ participant_names (requirements_of s p).
Proof.
  unfold requirementFor, participant_names. induction (requirements_of s p) as [|r rs IH]; cbn.
  { rewrite elem_of_nil. split; [by intros [? ?]|done]. }
  destruct (str_eqb (pr_Participant r) who) eqn:E.
  - apply str_eqb_true in E. rewrite elem_of_cons. split; [auto|by eexists].
  - assert (pr_Participant r <> who) by (intros Hx; by rewrite Hx, str_eqb_refl in E).
    rewrite IH, elem_of_cons. naive_solver.
Qed.

Section WithURL.
Context {net_url : NetURL}.

Lemma participants_of_names s p :
  spec_normal s -> participants_of s p = participant_names (requirements_of s p).
Proof.
  intros Hn. unfold participants_of, requirements_of. rewrite (sn_names _ Hn), lookup_fmap.
  by destruct (spec_RoleRequirements s !! p).
Qed.

Lemma requirements_nonempty s p : spec_normal s -> commanded p -> requirements_of s p <> [].
Proof.
  intros [Hv Hr _] Hc. unfold spec_Validate in Hv. seq_ok. ok_inj.
  repeat match goal with H : fail_if _ _ = nil_err |- _ => apply fail_if_ok in H end.
  unfold no_requirements in *. to_prop. unfold requirements_of.
  injection Hr as <-. by destruct Hc as [->|[->|[->| ->]]].
Qed.

Lemma expected_nonempty s p : spec_normal s -> commanded p -> expected_for s p <> ∅.
Proof.
  intros Hn Hc He. rewrite expected_for_eq in He.
  pose proof (requirements_nonempty s p Hn Hc) as Hne.
  destruct (requirements_of s p) as [|r rs] eqn:E; [done|].
  assert (is_Some (phase_command_ids s p (r :: rs) !! pr_Participant r)) as [c Hc'].
  { apply phase_command_ids_dom. left. }
  rewrite He in Hc'. done.
Qed.

Lemma issued_for_record g p q :
  issued_for (recordIssuedCommands p g) q =
  if bool_decide (q = p) then expected_for (gs_Spec g) p else issued_for g q.
Proof.
  unfold issued_for, recordIssuedCommands. cbn. case_bool_decide; subst.
  - by rewrite lookup_insert_eq.
  - by rewrite lookup_insert_ne.
Qed.

Lemma commandsIssued_iff g p :
  commandsIssued g p = true <->
  expected_for (gs_Spec g) p <> ∅ /\ issued_for g p = expected_for (gs_Spec g) p.
Proof.
  unfold commandsIssued. by rewrite andb_true_iff, negb_true_iff, bool_decide_eq_false,
    bool_decide_eq_true.
Qed.

Lemma commandsIssued_record g p q :
  commandsIssued g q = true -> commandsIssued (recordIssuedCommands p g) q = true.
Proof.
  rewrite !commandsIssued_iff, issued_for_record. cbn. case_bool_decide; subst; tauto.
Qed.

Lemma record_issues g p :
  spec_normal (gs_Spec g) -> commanded p -> commandsIssued (recordIssuedCommands p g) p = true.
Proof.
  intros Hn Hc. rewrite commandsIssued_iff, issued_for_record, bool_decide_eq_true_2 by done.
  split; [by apply (expected_nonempty (gs_Spec g))|done].
Qed.

Lemma commands_ack ack g g' : ack_group ack g = Ok g' -> commands_ok g -> commands_ok g'.
Proof.
  intros (_ & _ & Hi & Hreq & ->)%ack_group_ok [H1 H2 H3]. constructor; try done.
  intros p who t. rewrite acks_for_insert. case_bool_decide; subst; [|apply H3].
  intros [[<- _]|[_ ?]]%lookup_insert_Some; [done|]. by eapply H3.
Qed.

Lemma commands_created options s t : commands_ok (created_group options s t).
Proof. constructor; cbn; try done. intros []; done. Qed.

Lemma commands_issue g :
  spec_normal (gs_Spec g) -> commanded (gs_Phase g) -> commands_ok g ->
  commands_ok (recordIssuedCommands (gs_Phase g) g).
Proof.
  intros Hn Hc [H1 H2 H3]. constructor.
  - intros p m. cbn. intros [[<- <-]|[_ Hm]]%lookup_insert_Some; [by auto|]. by apply H1.
  - intros p Hp Hne. apply commandsIssued_record. by apply H2.
  - intros p who t Ha. apply H3 in Ha as [? ?]. split; [by apply commandsIssued_record|done].
Qed.

(** A step that keeps the commands, the acknowledgements and the
    specification, and publishes at most issued commands. *)
Lemma commands_keep g g' :
  commands_ok g ->
  gs_Spec g' = gs_Spec g -> gs_IssuedCommandIDs g' = gs_IssuedCommandIDs g ->
  gs_Acknowledgements g' = gs_Acknowledgements g ->
  (forall p, phasePublished g p = true -> phasePublished g' p = true) ->
  (gs_Phase g' = gs_Phase g \/ phasePublished g (gs_Phase g) = true) ->
  (forall p, phasePublished g' p = true -> p <> PhaseCommit ->
     phasePublished g p = true \/ commandsIssued g p = true) ->
  commands_ok g'.
Proof.
  intros [H1 H2 H3] Hs Hi Ha Hmono Hph Hpub. constructor.
  - intros p m. rewrite Hi, Hs. intros [?|[? Hp]]%H1; [by left|]. right. split; [done|].
    destruct Hp as [?| ->]; [auto|]. destruct Hph as [->|?]; auto.
  - intros p Hp Hne. rewrite commandsIssued_iff. unfold issued_for. rewrite Hi, Hs.
    rewrite <- commandsIssued_iff. destruct (Hpub _ Hp Hne); auto.
  - intros p who t. unfold acks_for. rewrite Ha, Hs. intros [? ?]%H3. split; [|done].
    rewrite commandsIssued_iff. unfold issued_for. rewrite Hi, Hs. by rewrite <- commandsIssued_iff.
Qed.

Lemma commands_step options g g' :
  gstep options g g' -> spec_normal (gs_Spec g) -> flags_ok g -> commands_ok g -> commands_ok g'.
Proof.
  intros Hs Hn Hf Hc. destruct Hs; try (by apply commands_issue).
    all: apply (commands_keep g); try done.
  all: cbn; rewrite ?H0; auto; try (by intros []; cbn; auto).
  all: try (right; by apply (fo_r4 _ Hf); rewrite H0).
Qed.
End WithURL.

(** ** Telemetry *)
Definition canonical (sample : Telemetry) (src : telemetrySource) : Telemetry :=
  sample <| tel_SourceBroker := ts_Broker src |> <| tel_SourceQueue := ts_Queue src |>.

Lemma canonical_self sample src :
  ts_Broker src = tel_SourceBroker sample -> ts_Queue src = tel_SourceQueue sample ->
  canonical sample src = sample.
Proof. destruct sample, src. cbn. by intros -> ->. Qed.

Lemma required_source s sample src :
  src ∈ requiredTelemetrySources s ->
  tel_SourceBroker sample = ts_Broker src -> tel_SourceQueue sample = ts_Queue src ->
  telemetrySourceKey s sample = Some (ts_key src).
Proof.
  intros Hin Hb Hq. unfold telemetrySourceKey, telemetrySourcesForSample.
  destruct (requiredTelemetrySources s) as [|x l]; [by apply elem_of_nil in Hin|].
  destruct (List.find _ _) as [src'|] eqn:E.
  - apply List.find_some in E as [_ [E1 E2]%andb_true_iff].
    apply str_eqb_true in E1, E2. destruct src, src'. cbn in *. congruence.
  - apply list_elem_of_In in Hin. apply (List.find_none _ _ E) in Hin.
    by rewrite Hb, Hq, !str_eqb_refl in Hin.
Qed.

(** The sources of an accepted sample: filed under their own key, and the sample
    itself unless it is the anonymous aggregate. *)
Lemma sample_sources s sample sources aggregate src :
  telemetrySourcesForSample s sample = (sources, aggregate) -> src ∈ sources ->
  telemetrySourceKey s (canonical sample src) = Some (ts_key src) /\
  (tel_MessageID sample <> ""%string -> canonical sample src = sample).
Proof.
  intros Hs Hin. pose proof Hs as Hs'. unfold telemetrySourcesForSample in Hs.
  destruct (requiredTelemetrySources s) as [|x l] eqn:Ereq.
  { simplify_eq. apply list_elem_of_singleton in Hin as ->.
    rewrite canonical_self by done. unfold telemetrySourceKey. by rewrite Hs'. }
  destruct (List.find _ _) as [src'|] eqn:E.
  - simplify_eq. apply list_elem_of_singleton in Hin as ->.
    apply List.find_some in E as [_ [E1 E2]%andb_true_iff]. apply str_eqb_true in E1, E2.
    rewrite canonical_self by done. unfold telemetrySourceKey. by rewrite Hs'.
  - destruct (_ && _) eqn:Eagg; [|simplify_eq; by apply elem_of_nil in Hin].
    case_match; simplify_eq; [|by apply elem_of_nil in Hin].
    split; [by apply required_source; rewrite ?Ereq|].
    intros Hne. to_prop. by apply str_empty_true in H0.
Qed.

Lemma maps_observe_source options s sample messages g src :
  tel_ObservedAt sample <> 0 ->
  telemetrySourceKey s (canonical sample src) = Some (ts_key src) ->
  (tel_MessageID sample <> ""%string ->
     messages !! tel_MessageID sample = Some (canonical sample src)) ->
  telemetry_maps_ok s messages (gs_LatestTelemetryBySource g) (gs_ZeroSinceBySource g) ->
  let g' := observe_source options sample g src in
  telemetry_maps_ok s messages (gs_LatestTelemetryBySource g') (gs_ZeroSinceBySource g').
Proof.
  intros Hnz Hkey Hmsg [H1 H2 H3 H4 H5]. unfold observe_source. cbn.
  fold (canonical sample src). set (key := ts_key src) in *.
  assert (Hz : forall k, k <> key ->
    (if negb (isKnownZero sample) then delete key (gs_ZeroSinceBySource g)
     else if match gs_LatestTelemetryBySource g !! key with
             | Some p => negb (isKnownZero p) || (telemetryFreshness options (tel_Group sample) <?
                           time_Sub (tel_ObservedAt sample) (tel_ObservedAt p))
             | None => true end
     then <[key := tel_ObservedAt sample]> (gs_ZeroSinceBySource g)
     else gs_ZeroSinceBySource g) !! k = gs_ZeroSinceBySource g !! k).
  { intros k Hne. repeat case_match; rewrite ?lookup_delete_ne, ?lookup_insert_ne by done; done. }
  constructor.
  - intros k t [[<- <-]|[_ ?]]%lookup_insert_Some; auto.
  - intros k t [[<- <-]|[_ Ht]]%lookup_insert_Some; [apply Hmsg|by eapply H2].
  - intros k t [[<- <-]|[Hne Ht]]%lookup_insert_Some.
    + intros Hs. destruct (isKnownZero sample) eqn:E; [done|]. cbn in Hs.
      rewrite lookup_delete_eq in Hs. by destruct Hs.
    + rewrite Hz by done. by apply H3.
  - intros k Hs. rewrite lookup_insert_is_Some.
    destruct (decide (key = k)); [by left|right; split; [done|]].
    rewrite Hz in Hs by done. by apply H4.
  - intros k t [[_ <-]|[_ Ht]]%lookup_insert_Some; [done|by eapply H5].
Qed.

Lemma maps_observe options s sample messages sources g :
  tel_ObservedAt sample <> 0 ->
  (forall src, src ∈ sources ->
     telemetrySourceKey s (canonical sample src) = Some (ts_key src) /\
     (tel_MessageID sample <> ""%string ->
        messages !! tel_MessageID sample = Some (canonical sample src))) ->
  telemetry_maps_ok s messages (gs_LatestTelemetryBySource g) (gs_ZeroSinceBySource g) ->
  let g' := foldl (observe_source options sample) g sources in
  telemetry_maps_ok s messages (gs_LatestTelemetryBySource g') (gs_ZeroSinceBySource g').
Proof.
  intros Hnz. revert g.
  induction sources as [|src sources IH]; intros g Hsrc Hok; cbn [foldl]; [done|].
  apply IH.
  - intros x Hx. apply Hsrc. by right.
  - destruct (Hsrc src) as [? ?]; [left|]. by apply maps_observe_source.
Qed.

(** Recording a fresh message identity keeps the retained messages. *)
Lemma maps_new_message s messages latest zero sample :
  messages !! tel_MessageID sample = None ->
  telemetry_maps_ok s messages latest zero ->
  telemetry_maps_ok s (<[tel_MessageID sample := sample]> messages) latest zero.
Proof.
  intros Hnew [H1 H2 H3 H4 H5]. constructor; auto.
  intros k t Ht Hne. specialize (H2 k t Ht Hne). rewrite lookup_insert_ne; [done|congruence].
Qed.

Lemma telemetry_observe options g sample sources aggregate :
  tel_ObservedAt sample <> 0 ->
  (tel_MessageID sample <> ""%string -> gs_TelemetryMessages g !! tel_MessageID sample = None) ->
  telemetrySourcesForSample (gs_Spec g) sample = (sources, aggregate) ->
  telemetry_ok g -> telemetry_ok (observe_group options sample sources g).
Proof.
  intros Hnz Hnew Hsrc Hok. unfold telemetry_ok, observe_group.
  destruct (observe_sources_frame options sample sources g) as (z & l & Hframe).
  pose proof (f_equal gs_LatestTelemetryBySource Hframe) as Hl.
  pose proof (f_equal gs_ZeroSinceBySource Hframe) as Hz. cbn in Hl, Hz.
  rewrite Hframe. destruct (str_empty (tel_MessageID sample)) eqn:E; cbn; rewrite <- Hl, <- Hz.
  - apply str_empty_true in E. apply maps_observe; [done| |exact Hok]. intros src Hin.
    destruct (sample_sources _ _ _ _ _ Hsrc Hin). split; [done|]. by intros [].
  - apply str_empty_false in E. apply maps_observe; [done| |apply maps_new_message; [auto|exact Hok]].
    intros src Hin. destruct (sample_sources _ _ _ _ _ Hsrc Hin) as [? Hc]. split; [done|].
    intros _. rewrite Hc by done. by rewrite lookup_insert_eq.
Qed.

(** ** The invariant *)
Section Invariant.
Context {net_url : NetURL} (options : Options).

Lemma gstep_spec g g' : gstep options g g' -> gs_Spec g' = gs_Spec g.
Proof. by destruct 1. Qed.

Lemma telemetry_step g g' : gstep options g g' -> telemetry_ok g -> telemetry_ok g'.
Proof. intros Hs Ht. destruct Hs; exact Ht. Qed.

Lemma ginv_step group g g' : gstep options g g' -> ginv group g -> ginv group g'.
Proof.
  intros Hs [H1 H2 H3 H4 H5]. pose proof (gstep_spec _ _ Hs) as Hspec.
  constructor; rewrite ?Hspec; try done.
  - by eapply flags_step.
  - by eapply commands_step.
  - by eapply telemetry_step.
Qed.

Lemma ginv_observe group g g' : ostep options g g' -> ginv group g -> ginv group g'.
Proof.
  intros [sample sources aggregate _ _ Hscope Hnew Hsrc _] [H1 H2 H3 H4 H5].
  assert (Ht : telemetry_ok (observe_group options sample sources g))
    by (eapply telemetry_observe; [|done..]; unfold observe_out_of_scope, time_IsZero in Hscope;
        by to_prop).
  destruct (observe_group_frame options sample sources g) as (? & ? & ? & ? & ? & Heq).
  constructor; [by rewrite Heq..| | |done]; rewrite Heq; [by destruct H3|by destruct H4].
Qed.

Lemma ginv_move group g g' : gmove options g g' -> ginv group g -> ginv group g'.
Proof. intros [?|?]; [by apply ginv_step|by apply ginv_observe]. Qed.

Lemma ginv_ack group ack g g' : ack_group ack g = Ok g' -> ginv group g -> ginv group g'.
Proof.
  intros Ha [H1 H2 H3 H4 H5]. pose proof Ha as (_ & _ & _ & _ & ->)%ack_group_ok.
  constructor; try done; [by apply flags_ext|by eapply commands_ack].
Qed.

Lemma ginv_ext group g g' : ack_ext g g' -> ginv group g -> ginv group g'.
Proof. induction 1 as [|g g1 g2 [ack Ha] _ IH]; [done|]. intros Hi. by eapply IH, ginv_ack. Qed.
End Invariant.

(** ** Progress

    Every protocol step sets a fact that nothing clears, so a transition takes
    at most [max_progress] of them. *)
Definition b2n (b : bool) : nat := if b then 1 else 0.

Definition progress (g : GroupState) : nat :=
  Z.to_nat (state_rank (gs_Phase g)) +
  b2n (commandsIssued g PhasePrepare) + b2n (commandsIssued g PhasePause) +
  b2n (commandsIssued g PhaseDrain) + b2n (commandsIssued g PhaseActivate) +
  b2n (gs_PreparePublished g) + b2n (gs_PausePublished g) + b2n (gs_FenceAttempted g) +
  b2n (gs_Fenced g) + b2n (gs_DrainPublished g) + b2n (gs_CommitPublished g) +
  b2n (gs_TargetIngressEnabled g) + b2n (gs_TargetIngressVerified g) +
  b2n (gs_ActivatePublished g) + b2n (gs_RollingBack g) + b2n (gs_Unfenced g) +
  b2n (gs_RollbackPublished g) + b2n (gs_Completed g).

Definition max_progress : nat := 22.

Lemma b2n_le b : (b2n b <= 1)%nat.
Proof. destruct b; cbn; lia. Qed.

Lemma progress_bound g : (progress g <= max_progress)%nat.
Proof.
  unfold progress, max_progress.
  assert (Z.to_nat (state_rank (gs_Phase g)) <= 5)%nat by (destruct (gs_Phase g); cbn; lia).
  pose proof b2n_le. repeat match goal with |- context [b2n ?b] =>
    let n := fresh in set (n := b2n b) in *; assert (n <= 1)%nat by apply b2n_le; clearbody n end.
  lia.
Qed.

Lemma b2n_mono (b c : bool) : (b = true -> c = true) -> (b2n b <= b2n c)%nat.
Proof. destruct b, c; cbn; intros; try lia; by discriminate H. Qed.

(** Issuing the commands of the current phase. *)
Lemma progress_issue `{NetURL} g :
  spec_normal (gs_Spec g) -> commanded (gs_Phase g) -> commandsIssued g (gs_Phase g) = false ->
  (progress g < progress (recordIssuedCommands (gs_Phase g) g))%nat.
Proof.
  intros Hn Hc Hi. pose proof (record_issues g (gs_Phase g) Hn Hc) as Hnew.
  set (g' := recordIssuedCommands (gs_Phase g) g) in *.
  assert (Hm : forall p, (b2n (commandsIssued g p) <= b2n (commandsIssued g' p))%nat).
  { intros p. apply b2n_mono, commandsIssued_record. }
  pose proof (Hm PhasePrepare). pose proof (Hm PhasePause). pose proof (Hm PhaseDrain).
  pose proof (Hm PhaseActivate).
  assert (Hs : (b2n (commandsIssued g (gs_Phase g)) < b2n (commandsIssued g' (gs_Phase g)))%nat)
    by (rewrite Hi, Hnew; cbn; lia).
  unfold progress. change (gs_Phase g') with (gs_Phase g).
  change (gs_PreparePublished g') with (gs_PreparePublished g).
  change (gs_PausePublished g') with (gs_PausePublished g).
  change (gs_FenceAttempted g') with (gs_FenceAttempted g).
  change (gs_Fenced g') with (gs_Fenced g).
  change (gs_DrainPublished g') with (gs_DrainPublished g).
  change (gs_CommitPublished g') with (gs_CommitPublished g).
  change (gs_TargetIngressEnabled g') with (gs_TargetIngressEnabled g).
  change (gs_TargetIngressVerified g') with (gs_TargetIngressVerified g).
  change (gs_ActivatePublished g') with (gs_ActivatePublished g).
  change (gs_RollingBack g') with (gs_RollingBack g).
  change (gs_Unfenced g') with (gs_Unfenced g).
  change (gs_RollbackPublished g') with (gs_RollbackPublished g).
  change (gs_Completed g') with (gs_Completed g).
  destruct Hc as [E|[E|[E|E]]]; rewrite E in Hs; lia.
Qed.

Lemma gstep_progress `{NetURL} options group g g' :
  ginv group g -> gstep options g g' -> (progress g < progress g')%nat.
Proof.
  intros [_ Hn _ _ _] Hs. destruct Hs; [by apply progress_issue|..].
  all: unfold progress, commandsIssued, issued_for, enterPhase, completeState, live, undoing in *;
    cbn [gs_Spec gs_Phase gs_IssuedCommandIDs gs_PreparePublished gs_PausePublished
         gs_FenceAttempted gs_Fenced gs_DrainPublished gs_CommitPublished gs_TargetIngressEnabled
         gs_TargetIngressVerified gs_ActivatePublished gs_RollingBack gs_Unfenced
         gs_RollbackPublished gs_Completed setter] in *;
    destruct_and?;
    repeat match goal with H : _ _ = _ |- _ => rewrite H; clear H end;
    cbn [b2n state_rank];
    repeat match goal with |- context [b2n (gs_FenceAttempted ?x)] =>
      pose proof (b2n_le (gs_FenceAttempted x)); pose proof (b2n_le (gs_Fenced x));
      generalize dependent (b2n (gs_FenceAttempted x)) end; intros; lia.
Qed.

Lemma progress_ext g g' : ack_ext g g' -> progress g' = progress g.
Proof. by intros (a & -> & _)%ack_ext_shape. Qed.

(** ** The invariant of the whole state document

    [Begin] installs a normal specification, so a created group satisfies
    [ginv]; every step of the document preserves [psinv]. *)

(** ** Normal specifications *)
Definition requirement_ok (p : Phase) (r : ParticipantRequirement) : bool :=
  negb (str_empty (pr_Participant r)) &&
  (bool_decide (pr_Role r = RoleNone) ||
   (is_ok (role_Validate (pr_Role r)) && roleAllowedForPhase (pr_Role r) p)).

Lemma check_requirements_ok p seen rs :
  check_requirements p seen rs = nil_err <->
  NoDup (participant_names rs) /\ (forall x, x ∈ participant_names rs -> x ∉ seen) /\
  Forall (fun r => requirement_ok p r = true) rs.
Proof.
  revert seen. induction rs as [|r rs IH]; intros seen; cbn [check_requirements].
  { split; [|done]. intros _. split_and!; [constructor|by intros ? ?%elem_of_nil|constructor]. }
  unfold participant_names in *. cbn [fmap list_fmap]. rewrite NoDup_cons, Forall_cons.
  unfold requirement_ok at 1. unfold fail_if.
  destruct (str_empty (pr_Participant r)); cbn; [naive_solver|].
  case_bool_decide as Hseen; cbn.
  { split; [done|]. intros (_ & Hx & _). destruct (Hx (pr_Participant r)); [left|done]. }
  assert (Hrest : check_requirements p ({[pr_Participant r]} ∪ seen) rs = nil_err <->
    ((pr_Participant r ∉ (pr_Participant <$> rs)) /\ NoDup (pr_Participant <$> rs)) /\
    (forall x, x ∈ pr_Participant r :: (pr_Participant <$> rs) -> x ∉ seen) /\
    Forall (fun r => requirement_ok p r = true) rs).
  { rewrite IH. set_unfold. naive_solver. }
  case_bool_decide as Hrole; cbn; [rewrite Hrest; naive_solver|].
  destruct (role_Validate (pr_Role r)) as [[]|e]; cbn;
    [|by split; [done|intros (_ & _ & ? & _)]].
  destruct (roleAllowedForPhase _ _); cbn; [rewrite Hrest; naive_solver|].
  split; [done|by intros (_ & _ & ? & _)].
Qed.

Lemma check_requirements_perm p rs rs' :
  rs ≡ₚ rs' -> check_requirements p ∅ rs = nil_err -> check_requirements p ∅ rs' = nil_err.
Proof.
  intros Hperm. rewrite !check_requirements_ok. unfold participant_names.
  assert (Hn : pr_Participant <$> rs ≡ₚ pr_Participant <$> rs') by by rewrite Hperm.
  intros (H1 & H2 & H3). rewrite <- Hn, <- Hperm. split_and!; [done| |done].
  intros x Hx. apply H2. by rewrite Hn.
Qed.

Section Normal.
Context {net_url : NetURL}.

Lemma normalizedRole_ok s m :
  normalizedRoleRequirements s = Ok m ->
  base_requirements s = Ok m /\
  (forall p rs, m !! p = Some rs -> check_requirements p ∅ rs = nil_err).
Proof.
  unfold normalizedRoleRequirements. intros H. seq_ok. simplify_eq. split; [done|].
  intros p rs Hl. match goal with H : for_each _ _ = _ |- _ => rewrite for_each_ok in H;
    rewrite Forall_forall in H; specialize (H (p, rs)) end.
  by apply Heqr0, elem_of_map_to_list.
Qed.

Lemma check_phases_ok {A} (m : gmap Phase A) :
  check_phases m = nil_err <-> forall p a, m !! p = Some a -> validRequirementPhase p = true.
Proof.
  unfold check_phases. rewrite for_each_ok, Forall_forall. split.
  - intros H p a Hl. specialize (H (p, a)). rewrite elem_of_map_to_list, fail_if_ok in H.
    by apply negb_false_iff, H.
  - intros H [p a] Hl%elem_of_map_to_list. rewrite fail_if_ok, (H _ _ Hl). done.
Qed.

Lemma base_requirements_phases s m p rs :
  base_requirements s = Ok m -> m !! p = Some rs -> validRequirementPhase p = true.
Proof.
  unfold base_requirements. intros H. case_bool_decide; seq_ok; simplify_eq.
  - intros Hl. apply lookup_omap_Some in Hl as (ps & _ & Hl).
    by eapply check_phases_ok.
  - by eapply check_phases_ok.
Qed.

(** A specification that already carries a nonempty checked role map. *)
Lemma normalized_fixpoint s m :
  spec_RoleRequirements s = m -> m <> ∅ ->
  (forall p rs, m !! p = Some rs -> validRequirementPhase p = true) ->
  (forall p rs, m !! p = Some rs -> check_requirements p ∅ rs = nil_err) ->
  normalizedRoleRequirements s = Ok m.
Proof.
  intros Hm Hne Hph Hck. unfold normalizedRoleRequirements, base_requirements.
  rewrite Hm, bool_decide_eq_false_2 by done.
  rewrite (proj2 (check_phases_ok m)) by done.
  rewrite (proj2 (for_each_ok _ _)); [done|].
  apply Forall_forall. intros [p rs] Hl%elem_of_map_to_list. by apply Hck.
Qed.

Lemma sort_requirements_empty rs : sort_by requirement_less rs = [] <-> rs = [].
Proof.
  split; [|by intros ->]. intros H. apply Permutation_nil. by rewrite <- H, sort_by_perm.
Qed.

Definition sorted_participants (raw : TransitionSpec) : TransitionSpec :=
  raw <| spec_RequiredParticipants := sort_strings (spec_RequiredParticipants raw) |>.

(** Sorting the participants keeps which phases have requirements. *)
Lemma sorted_requirements raw m m' p :
  base_requirements raw = Ok m -> base_requirements (sorted_participants raw) = Ok m' ->
  default [] (m !! p) <> [] -> default [] (m' !! p) <> [].
Proof.
  unfold base_requirements, legacy_requirements, sorted_participants. cbn.
  case_bool_decide; [|intros; seq_ok; by simplify_eq].
  case_bool_decide; [|intros; seq_ok; by simplify_eq].
  intros H1 H2. seq_ok. simplify_eq. clear -raw. rewrite !lookup_omap.
  cbn [list_to_map fmap list_fmap foldr uncurry fst snd].
  assert (Hl : forall l, default [] (nonempty_untyped l) <> [] -> l <> []).
  { by intros [|? ?]. }
  assert (Hr : forall l, l <> [] -> default [] (nonempty_untyped (sort_strings l)) <> []).
  { intros l Hne. destruct (sort_strings l) eqn:E; [|done]. exfalso. apply Hne.
    apply Permutation_nil. rewrite <- E. apply sort_by_perm. }
  destruct (decide (p = PhasePrepare)) as [->|N1]; [rewrite !lookup_insert_eq; cbn; auto|].
  rewrite !(lookup_insert_ne _ PhasePrepare) by done.
  destruct (decide (p = PhasePause)) as [->|N2]; [rewrite !lookup_insert_eq; cbn; auto|].
  rewrite !(lookup_insert_ne _ PhasePause) by done.
  destruct (decide (p = PhaseDrain)) as [->|N3]; [rewrite !lookup_insert_eq; cbn; auto|].
  rewrite !(lookup_insert_ne _ PhaseDrain) by done.
  destruct (decide (p = PhaseActivate)) as [->|N4]; [rewrite !lookup_insert_eq; cbn; auto|].
  rewrite !(lookup_insert_ne _ PhaseActivate) by done. by rewrite lookup_empty.
Qed.

Lemma no_requirements_sorted m p :
  no_requirements (sort_by requirement_less <$> m) p = no_requirements m p.
Proof.
  unfold no_requirements. rewrite lookup_fmap. destruct (m !! p) as [rs|]; cbn; [|done].
  apply bool_decide_ext, sort_requirements_empty.
Qed.

(** The checks of [Validate] read the requirements only through their normal
    form. *)
Lemma spec_Validate_change s s' m m' :
  spec_Validate s = nil_err ->
  normalizedRoleRequirements s = Ok m -> normalizedRoleRequirements s' = Ok m' ->
  (forall p, no_requirements m p = false -> no_requirements m' p = false) ->
  s' = s <| spec_RequiredParticipants := spec_RequiredParticipants s' |>
         <| spec_RoleRequirements := spec_RoleRequirements s' |>
         <| spec_ParticipantRequirements := spec_ParticipantRequirements s' |> ->
  spec_Validate s' = nil_err.
Proof.
  intros Hv Hm Hm' Hreq Hs'.
  unfold spec_Validate in *. rewrite Hm in Hv. rewrite Hm'. rewrite Hs'.
  cbn [spec_ID spec_Group spec_FromEpoch spec_ToEpoch spec_Revision spec_HashContract
       spec_Algorithm spec_Queue spec_Destination spec_Current spec_Proposed setter] in *.
  seq_ok. repeat match goal with H : fail_if _ _ = nil_err |- _ => rewrite H end.
  repeat match goal with H : fail_if _ _ = nil_err |- _ => apply fail_if_ok in H end. to_prop.
  rewrite !Hreq by done. simpl fail_if. cbv iota.
  exact Hv.
Qed.

Lemma normalize_spec_normal raw sp :
  spec_Validate raw = nil_err -> normalize_spec raw = Ok sp ->
  spec_normal sp /\ spec_Group sp = spec_Group raw.
Proof.
  intros Hv Hn. unfold normalize_spec in Hn. fold (sorted_participants raw) in Hn.
  destruct (normalizedRoleRequirements (sorted_participants raw)) as [m|] eqn:Hm; [|done].
  set (m' := sort_by requirement_less <$> m) in *.
  assert (exists m0, normalizedRoleRequirements raw = Ok m0) as [m0 Hm0].
  { unfold spec_Validate in Hv. seq_ok. by eexists. }
  pose proof (normalizedRole_ok _ _ Hm) as [Hb Hck].
  pose proof (normalizedRole_ok _ _ Hm0) as [Hb0 _].
  assert (Hreq : forall p, no_requirements m0 p = false -> no_requirements m' p = false).
  { intros p. unfold m'. rewrite no_requirements_sorted. unfold no_requirements.
    rewrite !bool_decide_eq_false. by apply (sorted_requirements raw). }
  assert (Hne : m' <> ∅).
  { intros He. unfold spec_Validate in Hv. rewrite Hm0 in Hv. seq_ok.
    repeat match goal with H : fail_if _ _ = nil_err |- _ => apply fail_if_ok in H end.
    to_prop. assert (no_requirements m' PhasePrepare = false) as Hp by auto.
    rewrite He in Hp. done. }
  assert (Hfix : forall s, spec_RoleRequirements s = m' ->
            normalizedRoleRequirements s = Ok m').
  { intros s Hs. apply normalized_fixpoint; [done..| |].
    - intros p rs. unfold m'. rewrite lookup_fmap_Some. intros (rs0 & _ & Hl).
      exact (base_requirements_phases _ _ _ _ Hb Hl).
    - intros p rs. unfold m'. rewrite lookup_fmap_Some. intros (rs0 & <- & Hl).
      eapply check_requirements_perm; [symmetry; apply sort_by_perm|]. by apply Hck. }
  unfold normalizedRequirements in Hn. rewrite Hfix in Hn by done.
  injection Hn as <-. split; [|done]. constructor; [|by rewrite Hfix|done].
  apply (spec_Validate_change raw _ m0 m' Hv Hm0); [by apply Hfix|exact Hreq|done].
Qed.
End Normal.

(** ** The document *)
Section Document.
Context {net_url : NetURL} {adm : Admission} (options : Options).

Record psinv (s : PersistentState) : Prop := {
  pi_version : ps_Version s = stateVersion;
  pi_membership : forall group snapshot, ps_Membership s !! group = Some snapshot ->
    Validate snapshot = nil_err /\ ms_ScalingGroup snapshot = group;
  pi_groups : forall group g, ps_Groups s !! group = Some g -> ginv group g;
  pi_history : forall group records, ps_History s !! group = Some records ->
    Z.of_nat (length records) <= Z.max 0 (o_HistoryLimit options);
}.

Lemma psinv_empty : psinv empty_state.
Proof. constructor; [done|cbn; intros ? ? H; by rewrite lookup_empty in H..]. Qed.

Lemma recordCompletion_history s group g limit k records :
  (forall k records, ps_History s !! k = Some records ->
     Z.of_nat (length records) <= Z.max 0 limit) ->
  ps_History (recordCompletion s group g limit) !! k = Some records ->
  Z.of_nat (length records) <= Z.max 0 limit.
Proof.
  intros Hold. unfold recordCompletion. destruct (gs_CompletedAt g); [|apply Hold].
  cbn. intros [[<- <-]|[_ ?]]%lookup_insert_Some; [|by eapply Hold].
  set (l := default [] _ ++ _). destruct (Z.ltb_spec limit (Z.of_nat (length l))); [|lia].
  rewrite length_drop. lia.
Qed.

Lemma recordCleanupEvidence_frame s group g :
  exists mark ev, recordCleanupEvidence s group g =
    (s <| ps_CleanupEvidence := ev |>, g <| gs_CleanupRecorded := mark |>).
Proof.
  assert (Hs : s = s <| ps_CleanupEvidence := ps_CleanupEvidence s |>) by by destruct s.
  assert (Hg : g = g <| gs_CleanupRecorded := gs_CleanupRecorded g |>) by by destruct g.
  unfold recordCleanupEvidence. repeat case_match;
    try (by do 2 eexists; rewrite <- Hs, <- Hg). by do 2 eexists.
Qed.

Lemma recordCompletion_frame s group g limit :
  recordCompletion s group g limit =
  s <| ps_History := ps_History (recordCompletion s group g limit) |>.
Proof. unfold recordCompletion. destruct (gs_CompletedAt g); by destruct s. Qed.

(** [group_update] stores the new group, up to the cleanup mark; evidence and
    history are the only other changes. *)
Lemma group_update_ok group g' s s' :
  group_update options group (fun _ => g') s = Ok s' ->
  exists mark ev hist,
    s' = s <| ps_Groups := <[group := g' <| gs_CleanupRecorded := mark |>]> (ps_Groups s) |>
           <| ps_CleanupEvidence := ev |> <| ps_History := hist |> /\
    (hist = ps_History s \/
     exists s0 x, ps_History s0 = ps_History s /\
       hist = ps_History (recordCompletion s0 group x (o_HistoryLimit options))).
Proof.
  unfold group_update. destruct (ps_Groups s !! group) as [before|]; [|done].
  assert (exists mark ev,
    (if negb (bool_decide (gs_Phase before = PhaseCommit)) &&
        bool_decide (gs_Phase g' = PhaseCommit)
     then recordCleanupEvidence s group g' else (s, g')) =
    (s <| ps_CleanupEvidence := ev |>, g' <| gs_CleanupRecorded := mark |>))
    as (mark & ev & ->).
  { case_match; [apply recordCleanupEvidence_frame|].
    exists (gs_CleanupRecorded g'), (ps_CleanupEvidence s). by destruct s, g'. }
  intros H. exists mark, ev. destruct (_ && _).
  - rewrite recordCompletion_frame in H. injection H as <-. eexists. split; [reflexivity|].
    right. do 2 eexists. split; [|reflexivity]. done.
  - injection H as <-. exists (ps_History s). split; [by destruct s|by left].
Qed.

Lemma ginv_cleanup group g mark : ginv group g -> ginv group (g <| gs_CleanupRecorded := mark |>).
Proof.
  intros [H1 H2 H3 H4 H5]. constructor; try done; [by destruct H3|by destruct H4].
Qed.

Lemma ginv_created sp t : spec_normal sp -> ginv (spec_Group sp) (created_group options sp t).
Proof.
  intros Hn. constructor; [done|done|apply flags_created|apply commands_created|].
  constructor; cbn; intros; try (by rewrite lookup_empty in H).
Qed.

Lemma pstep_inv s s' : pstep options s s' -> psinv s -> psinv s'.
Proof.
  intros Hstep [H1 H2 H3 H4]. destruct Hstep as
    [group g g' s' Hl Hg (mark & ev & hist & -> & Hh)%group_update_ok|ack s' Ha|m s' Hv Hm|
     raw sp t Hv Hn _ _].
  - constructor; cbn; try done.
    + intros k x [[<- <-]|[_ ?]]%lookup_insert_Some; [|by apply H3].
      apply ginv_cleanup. by eapply ginv_move, H3.
    + destruct Hh as [->|(s0 & x & Hs0 & ->)]; [done|]. intros.
      eapply recordCompletion_history; [|done]. by rewrite Hs0.
  - unfold ack_update in Ha. destruct (ps_Groups s !! ack_Group ack) eqn:E; [|done].
    destruct (ack_group ack g) eqn:Eg; [|done]. simplify_eq. constructor; cbn; try done.
    intros k x [[<- <-]|[_ ?]]%lookup_insert_Some; [|by apply H3].
    by eapply ginv_ack, H3.
  - unfold membership_update in Hm.
    assert (s' = s <| ps_Membership := <[ms_ScalingGroup m := m]> (ps_Membership s) |>) as ->.
    { go_inv Hm; by injection Hm. }
    constructor; cbn; try done. intros k x [[<- <-]|[_ ?]]%lookup_insert_Some; [done|by apply H2].
  - constructor; cbn; try done. intros k x [[<- <-]|[_ ?]]%lookup_insert_Some; [|by apply H3].
    destruct (normalize_spec_normal _ _ Hv Hn) as [Hsn _]. by apply ginv_created.
Qed.

Lemma psteps_inv s s' : rtc (pstep options) s s' -> psinv s -> psinv s'.
Proof. induction 1; eauto using pstep_inv. Qed.
End Document.
