(* ===== verification/ControllerRecovery.v ===== *)
(** * Recovery

    [Open] accepts every document a run of the controller can leave on disk,
    and keeps the invariant: a crash at any point of the protocol is
    recoverable. *)

From S2P Require Import Prelude Snapshot Messages ControllerTypes Controller ControllerOpen ControllerSpec ControllerInv.
From Stdlib Require Import ZArith Lia.
From stdpp Require Import base gmap strings list sorting numbers option relations fin_maps.
#[local] Open Scope Z_scope.

(** ** [initializeMessageState] *)
Lemma fill_commands_full expected issued :
  (forall k c, expected !! k = Some c -> exists c', issued !! k = Some c' /\ c' <> ""%string) ->
  fill_commands expected issued = issued.
Proof.
  unfold fill_commands. revert expected.
  apply (map_fold_weak_ind (fun r m =>
    (forall k c, m !! k = Some c -> exists c', issued !! k = Some c' /\ c' <> ""%string) ->
    r = issued)); [done|].
  intros k c m r Hk IH Hall. rewrite IH.
  - destruct (Hall k c) as (c' & -> & Hne); [by rewrite lookup_insert_eq|]. cbn.
    by apply str_empty_false in Hne as ->.
  - intros k' c' Hk'. eapply Hall. rewrite lookup_insert_ne; [done|congruence].
Qed.

Lemma fill_commands_empty expected : fill_commands expected ∅ = expected.
Proof.
  unfold fill_commands. revert expected. apply (map_fold_weak_ind (fun r m => r = m)); [done|].
  intros k c m r Hk ->. by rewrite Hk.
Qed.

Lemma initialize_lookup g p :
  gs_IssuedCommandIDs (initializeMessageState g) !! p =
  match expectedCommandIDs (gs_Spec g) !! p with
  | Some commands =>
      if phasePublished g p then Some (fill_commands commands (issued_for g p))
      else gs_IssuedCommandIDs g !! p
  | None => gs_IssuedCommandIDs g !! p
  end.
Proof.
  unfold initializeMessageState, issued_for. cbn. generalize (expectedCommandIDs (gs_Spec g)).
  intros M. revert M p. apply (map_fold_weak_ind (fun r m => forall p, r !! p =
    match m !! p with
    | Some commands =>
        if phasePublished g p
        then Some (fill_commands commands (default ∅ (gs_IssuedCommandIDs g !! p)))
        else gs_IssuedCommandIDs g !! p
    | None => gs_IssuedCommandIDs g !! p
    end)); [done|].
  intros k c m r Hk IH p. destruct (decide (p = k)) as [->|Hne].
  - rewrite lookup_insert_eq. pose proof (IH k) as IHk. rewrite Hk in IHk.
    destruct (phasePublished g k); [|done]. by rewrite lookup_insert_eq, IHk.
  - rewrite lookup_insert_ne by done. rewrite <- IH.
    destruct (phasePublished g k); [|done]. by rewrite lookup_insert_ne.
Qed.

Section Recovery.
Context {net_url : NetURL} (options : Options).

(** Requirements for COMMIT are absent or nonempty. *)
Definition commit_requirements_ok (s : TransitionSpec) : Prop :=
  spec_RoleRequirements s !! PhaseCommit <> Some [].

Lemma issued_for_cases g p :
  commands_ok g -> issued_for g p = ∅ \/ issued_for g p = expected_for (gs_Spec g) p.
Proof.
  intros Hc. unfold issued_for. destruct (gs_IssuedCommandIDs g !! p) as [m|] eqn:E; [|by left].
  cbn. destruct (co_issued _ Hc _ _ E) as [?|[? _]]; auto.
Qed.

Lemma fill_issued g p commands :
  commands_ok g -> expectedCommandIDs (gs_Spec g) !! p = Some commands ->
  fill_commands commands (issued_for g p) = commands.
Proof.
  intros Hc He. assert (Hex : expected_for (gs_Spec g) p = commands).
  { unfold expected_for. by rewrite He. }
  destruct (issued_for_cases g p Hc) as [->| ->]; [apply fill_commands_empty|].
  rewrite Hex. apply fill_commands_full. intros k c Hk. exists c. split; [done|].
  rewrite <- Hex, expected_for_eq in Hk. by eapply phase_command_ids_nonempty.
Qed.

Lemma initialize_issued_for g p :
  commands_ok g ->
  issued_for (initializeMessageState g) p =
  if phasePublished g p && is_set (expectedCommandIDs (gs_Spec g) !! p)
  then expected_for (gs_Spec g) p else issued_for g p.
Proof.
  intros Hc. unfold issued_for at 1. rewrite initialize_lookup. unfold expected_for.
  destruct (expectedCommandIDs (gs_Spec g) !! p) as [cs|] eqn:E; cbn.
  - destruct (phasePublished g p); cbn; [by apply fill_issued|done].
  - by rewrite andb_false_r.
Qed.

Lemma initialize_published g p :
  spec_normal (gs_Spec g) -> commit_requirements_ok (gs_Spec g) -> commands_ok g ->
  phasePublished g p = true -> is_Some (expectedCommandIDs (gs_Spec g) !! p) ->
  commandsIssued (initializeMessageState g) p = true.
Proof.
  intros Hn Hcr Hc Hp Hs. rewrite commandsIssued_iff, (initialize_issued_for g p Hc), Hp.
  destruct Hs as [cs Hs]. rewrite Hs. cbn [is_set andb]. split; [|done].
  change (gs_Spec (initializeMessageState g)) with (gs_Spec g).
  destruct (decide (p = PhaseCommit)) as [->|Hne].
  - rewrite expected_for_eq. rewrite expectedCommandIDs_lookup in Hs. unfold requirements_of.
    unfold commit_requirements_ok in Hcr.
    destruct (spec_RoleRequirements (gs_Spec g) !! PhaseCommit) as [[|r rs]|] eqn:E; [done| |done].
    cbn [default from_option id]. intros He.
    assert (is_Some (phase_command_ids (gs_Spec g) PhaseCommit (r :: rs) !! pr_Participant r))
      as [c Hc'] by (apply phase_command_ids_dom; left).
    by rewrite He in Hc'.
  - apply expected_nonempty; [done|]. unfold commanded. by destruct p; auto.
Qed.

Lemma initialize_commands g :
  spec_normal (gs_Spec g) -> commands_ok g -> commands_ok (initializeMessageState g).
Proof.
  intros Hn Hc. assert (Hmono : forall p, commandsIssued g p = true ->
    commandsIssued (initializeMessageState g) p = true).
  { intros p. rewrite !commandsIssued_iff, (initialize_issued_for g p Hc). cbn [gs_Spec setter].
    destruct (_ && _); tauto. }
  constructor.
  - intros p m. rewrite initialize_lookup.
    destruct (expectedCommandIDs (gs_Spec g) !! p) as [cs|] eqn:E;
      [|by apply (co_issued _ Hc)].
    destruct (phasePublished g p) eqn:Hp; [|by apply (co_issued _ Hc)].
    rewrite fill_issued by done. intros [= <-]. right. split; [|by left].
    unfold expected_for. cbn [gs_Spec setter initializeMessageState]. by rewrite E.
  - intros p Hp Hne. apply Hmono. by apply (co_published _ Hc).
  - intros p who t Ha. destruct (co_acks _ Hc p who t Ha) as [? ?]. split; [by apply Hmono|done].
Qed.

(** ** Validation accepts the invariant *)
Lemma for_each_map {K A} `{Countable K} (f : K * A -> gerr) (m : gmap K A) :
  (forall k a, m !! k = Some a -> f (k, a) = nil_err) -> for_each f (map_to_list m) = nil_err.
Proof.
  intros Hall. apply for_each_ok, Forall_forall. intros [k a] Hin%elem_of_map_to_list. auto.
Qed.

Lemma pass_check (c : bool) e (k : gerr) :
  (c = true -> False) -> k = nil_err -> (fail_if c e ;;! k) = nil_err.
Proof. destruct c; [intros []; done|done]. Qed.

Lemma pass_last (c : bool) e : (c = true -> False) -> fail_if c e = nil_err.
Proof. destruct c; [intros []; done|done]. Qed.

(** A conjunction of flags that the invariant excludes. *)
Ltac excluded :=
  unfold phase_is;
  rewrite ?orb_true_iff, ?andb_true_iff, ?negb_true_iff, ?orb_true_iff, ?andb_true_iff,
    ?negb_true_iff, ?bool_decide_eq_true, ?bool_decide_eq_false;
  intros; destruct_or?; destruct_and?; destruct_or?; destruct_and?.

Lemma rank_cases g : flags_ok g ->
  gs_Phase g = PhasePrepare \/ gs_Phase g = PhasePause \/ gs_Phase g = PhaseDrain \/
  gs_Phase g = PhaseCommit \/ gs_Phase g = PhaseActivate.
Proof. intros Hf. pose proof (fo_known _ Hf). destruct (gs_Phase g); auto 6. cbn in *. lia. Qed.

Ltac by_flags Hf :=
  destruct (rank_cases _ Hf) as [Hp|[Hp|[Hp|[Hp|Hp]]]]; destruct Hf;
  rewrite Hp in *; cbn [state_rank] in *;
  repeat match goal with
  | H : ?a <= ?b -> _ |- _ => first [specialize (H ltac:(lia)) | clear H]
  | H : context [if gs_RollingBack ?g then _ else _] |- _ => destruct (gs_RollingBack g)
  end; intuition (try congruence; try lia).

Lemma check_flags_ok g : flags_ok g -> check_flags g = nil_err.
Proof.
  intros Hf. unfold check_flags. apply pass_check; [|apply pass_check; [|apply pass_last]].
  - rewrite Z.eqb_eq. pose proof (fo_known _ Hf). lia.
  - excluded; by_flags Hf.
  - excluded; by_flags Hf.
Qed.

Lemma check_progress_ok g : flags_ok g -> check_progress g = nil_err.
Proof.
  intros Hf. unfold check_progress. do 5 (apply pass_check; [excluded; by_flags Hf|]).
  apply pass_last. excluded; by_flags Hf.
Qed.

Lemma check_acks_ok g : spec_normal (gs_Spec g) -> commands_ok g -> check_acks g = nil_err.
Proof.
  intros Hn Hc. apply for_each_map. intros p acks Hp. apply for_each_map. intros who t Hw.
  assert (Ha : acks_for g p !! who = Some t) by (unfold acks_for; by rewrite Hp).
  destruct (co_acks _ Hc _ _ _ Ha) as [Hi Hreq]. apply requirementFor_names in Hreq.
  rewrite Hi. unfold containsParticipant.
  rewrite participants_of_names, bool_decide_eq_true_2 by done. cbn [negb orb].
  apply commandsIssued_iff in Hi as [_ ->]. rewrite expected_for_eq.
  pose proof Hreq as [c Hcmd]%(phase_command_ids_dom (gs_Spec g) p). rewrite Hcmd.
  apply phase_command_ids_nonempty, str_empty_false in Hcmd. cbn. by rewrite Hcmd.
Qed.

Lemma check_issued_ok g :
  commands_ok g ->
  (forall p, phasePublished g p = true -> is_Some (expectedCommandIDs (gs_Spec g) !! p) ->
     commandsIssued g p = true) ->
  check_issued g = nil_err.
Proof.
  intros Hc Hpub. unfold check_issued. rewrite for_each_map.
  - apply for_each_map. intros p cs He. apply pass_last. excluded.
    rewrite Hpub in *; done || by eexists.
  - intros p m Hm. case_bool_decide as Hm0; [done|].
    destruct (co_issued _ Hc _ _ Hm) as [?|[-> Hp]]; [done|].
    apply pass_check; [by excluded|]. apply pass_last. excluded; congruence.
Qed.

Lemma same_message_refl t : same_message t t = true.
Proof.
  unfold same_message. by rewrite !str_eqb_refl, !Z.eqb_refl, !bool_decide_eq_true_2.
Qed.

Lemma check_telemetry_ok g : telemetry_ok g -> check_telemetry g = nil_err.
Proof.
  intros [H1 H2 H3 H4 _]. unfold check_telemetry. rewrite for_each_map.
  - apply for_each_map. intros k z Hz. apply pass_last.
    destruct (H4 k) as [t Ht]; [by eexists|]. by rewrite Ht.
  - intros k t Ht. apply pass_check; [|apply pass_check; [|apply pass_last]].
    + excluded. by destruct (H1 _ _ Ht).
    + rewrite andb_true_iff, !negb_true_iff. intros [Hne Hm].
      apply str_empty_false in Hne. by rewrite (H2 _ _ Ht), same_message_refl in Hm.
    + rewrite andb_true_iff, negb_true_iff. intros [Hz Hk].
      destruct (gs_ZeroSinceBySource g !! k) eqn:E; [|done].
      rewrite (H3 _ _ Ht) in Hk; [done|]. rewrite E. by eexists.
Qed.

Lemma validateGroupState_ok group g :
  ginv group g ->
  (forall p, phasePublished g p = true -> is_Some (expectedCommandIDs (gs_Spec g) !! p) ->
     commandsIssued g p = true) ->
  validateGroupState group g = nil_err.
Proof.
  intros [H1 H2 H3 H4 H5] Hpub. unfold validateGroupState.
  rewrite H1, str_eqb_refl, check_flags_ok, check_acks_ok, check_issued_ok, check_progress_ok
    by done. by apply check_telemetry_ok.
Qed.

(** ** The repairs keep the invariant *)
Definition with_times (g : GroupState) (a b c : Time) (d : list PhaseEvent) : GroupState :=
  g <| gs_StartedAt := a |> <| gs_PhaseEnteredAt := b |> <| gs_PhaseDeadline := c |>
    <| gs_PhaseHistory := d |>.

Lemma repair_times_frame group now g :
  flags_ok g -> exists a b c d, repair_times options group now g = with_times g a b c d.
Proof.
  intros Hf. unfold repair_times.
  set (g1 := if time_IsZero (gs_StartedAt g) then _ else _).
  assert (exists a, g1 = g <| gs_StartedAt := a |>) as [a ->].
  { subst g1. case_match; [by eexists|]. exists (gs_StartedAt g). by destruct g. }
  set (g2 := if time_IsZero (gs_PhaseEnteredAt _) then _ else _).
  assert (exists b, g2 = g <| gs_StartedAt := a |> <| gs_PhaseEnteredAt := b |>) as [b ->].
  { subst g2. case_match; [by eexists|]. exists (gs_PhaseEnteredAt g). by destruct g. }
  set (g3 := if time_IsZero (gs_PhaseDeadline _) && _ then _ else _).
  assert (exists c, g3 = g <| gs_StartedAt := a |> <| gs_PhaseEnteredAt := b |>
                           <| gs_PhaseDeadline := c |>) as [c ->].
  { subst g3. case_match; [by eexists|]. exists (gs_PhaseDeadline g). by destruct g. }
  set (g4 := if bool_decide _ then _ else _).
  assert (exists d, g4 = with_times g a b c d) as [d ->].
  { subst g4. case_match; [by eexists|]. exists (gs_PhaseHistory g). by destruct g. }
  exists a, b, c, d. cbn [gs_Completed gs_CompletedAt with_times setter].
  destruct (gs_Completed g) eqn:E; [|done].
  destruct (fo_complete _ Hf E) as [-> _]. done.
Qed.

Lemma ginv_times group g a b c d : ginv group g -> ginv group (with_times g a b c d).
Proof.
  intros [H1 H2 H3 H4 H5]. constructor; try done; [by destruct H3|by destruct H4].
Qed.

Definition with_grace (g : GroupState) (d : Duration) : GroupState :=
  g <| gs_Spec := gs_Spec g <| spec_DrainGrace := d |> |>.

Lemma ginv_grace group g d : ginv group g -> ginv group (with_grace g d).
Proof.
  intros [H1 [V R N] H3 H4 H5]. constructor; try done; [by destruct H3|by destruct H4|].
  destruct H5. by constructor.
Qed.

(** What [Open] leaves unchanged in a group. *)
Definition recovers (g g' : GroupState) : Prop :=
  gs_Phase g' = gs_Phase g /\ gs_Acknowledgements g' = gs_Acknowledgements g /\
  (forall p, phasePublished g' p = phasePublished g p) /\
  gs_Fenced g' = gs_Fenced g /\ gs_FenceAttempted g' = gs_FenceAttempted g /\
  gs_FenceVerifiedAt g' = gs_FenceVerifiedAt g /\
  gs_TargetIngressEnabled g' = gs_TargetIngressEnabled g /\
  gs_TargetIngressVerified g' = gs_TargetIngressVerified g /\
  gs_RollingBack g' = gs_RollingBack g /\ gs_Unfenced g' = gs_Unfenced g /\
  gs_RollbackPublished g' = gs_RollbackPublished g /\ gs_Completed g' = gs_Completed g /\
  gs_LatestTelemetryBySource g' = gs_LatestTelemetryBySource g /\
  gs_ZeroSinceBySource g' = gs_ZeroSinceBySource g /\
  gs_Spec g' = gs_Spec g <| spec_DrainGrace := spec_DrainGrace (gs_Spec g') |>.

Lemma open_group_ok now group g :
  ginv group g -> commit_requirements_ok (gs_Spec g) ->
  exists g', open_group options now group g = Ok g' /\ ginv group g' /\ recovers g g'.
Proof.
  intros Hi Hcr. pose proof Hi as [H1 Hn H3 H4 H5]. pose proof Hn as [V R N]. unfold open_group.
  rewrite V, R. cbn [wrap_err].
  assert (Hs : gs_Spec g <| spec_RoleRequirements := spec_RoleRequirements (gs_Spec g) |>
               = gs_Spec g) by by destruct (gs_Spec g).
  rewrite Hs. unfold normalizedRequirements. rewrite R. cbn [wrap_err]. rewrite <- N.
  assert (Hs' : gs_Spec g <| spec_ParticipantRequirements :=
                  spec_ParticipantRequirements (gs_Spec g) |> = gs_Spec g)
    by by destruct (gs_Spec g).
  rewrite Hs'. assert (Hg : g <| gs_Spec := gs_Spec g |> = g) by by destruct g.
  rewrite Hg. clear Hs Hs' Hg.
  set (g1 := initializeMessageState g).
  assert (Hi1 : ginv group g1).
  { constructor; try done; [by destruct H3|by apply initialize_commands]. }
  assert (Hpub : forall p, phasePublished g1 p = true ->
            is_Some (expectedCommandIDs (gs_Spec g1) !! p) -> commandsIssued g1 p = true).
  { intros p Hp Hs. by apply initialize_published. }
  set (g2 := if _ =? 0 then _ else g1).
  assert (exists d, g2 = with_grace g1 d) as [d ->].
  { subst g2. case_match; [by eexists|]. exists (spec_DrainGrace (gs_Spec g1)).
    unfold with_grace. by destruct g1 as [[]]. }
  assert (Hf : (if gs_Fenced (with_grace g1 d)
                then with_grace g1 d <| gs_FenceAttempted := true |> else with_grace g1 d)
               = with_grace g1 d).
  { destruct (gs_Fenced g) eqn:E; cbn; [|by rewrite E].
    rewrite E. apply (fo_fenced _ H3) in E. unfold with_grace, g1, initializeMessageState.
    destruct g. cbn in *. by subst. }
  rewrite Hf. destruct (repair_times_frame group now (with_grace g1 d)) as (a & b & c & e & ->).
  { apply (gi_flags group). by apply ginv_grace. }
  rewrite validateGroupState_ok.
  - eexists. split; [reflexivity|]. split; [by apply ginv_times, ginv_grace|]. done.
  - by apply ginv_times, ginv_grace.
  - exact Hpub.
Qed.
End Recovery.

Section OpenState.
Context {net_url : NetURL} (raw_options : Options).
Let options := withDefaults raw_options.

Lemma open_groups_ok now l :
  NoDup l.*1 ->
  (forall k g, (k, g) ∈ l -> ginv k g /\ commit_requirements_ok (gs_Spec g)) ->
  exists m, open_groups options now l = Ok m /\
    (forall k g', m !! k = Some g' -> ginv k g' /\ exists g, (k, g) ∈ l /\ recovers g g') /\
    (forall k g, (k, g) ∈ l -> exists g', m !! k = Some g' /\ recovers g g').
Proof.
  induction l as [|[k g] l IH]; intros Hnd Hall; cbn [open_groups].
  { exists ∅. split_and!; [done|by intros ? ? ?%lookup_empty_Some|by intros ? ? ?%elem_of_nil]. }
  cbn in Hnd. apply NoDup_cons in Hnd as [Hk Hnd].
  destruct (Hall k g) as [Hg Hc]; [by left|].
  destruct (open_group_ok options now k g Hg Hc) as (g' & -> & Hg' & Hr).
  destruct IH as (m & -> & Hm1 & Hm2); [done|by intros; apply Hall; right|].
  exists (<[k := g']> m). split_and!; [done| |].
  - intros k0 x [[<- <-]|[_ Hx]]%lookup_insert_Some.
    + split; [done|]. exists g. split; [by left|done].
    + apply Hm1 in Hx as (? & y & ? & ?). split; [done|]. exists y. split; [by right|done].
  - intros k0 x [[= -> ->]|Hx]%elem_of_cons.
    + exists g'. by rewrite lookup_insert_eq.
    + assert (k <> k0).
      { intros ->. apply Hk. apply list_elem_of_fmap. by exists (k0, x). }
      rewrite lookup_insert_ne by done. by apply Hm2.
Qed.

(** The recovered document: groups recover one by one, the rest is unchanged. *)
Record recovered (s s' : PersistentState) : Prop := {
  rv_version : ps_Version s' = ps_Version s;
  rv_membership : ps_Membership s' = ps_Membership s;
  rv_history : ps_History s' = ps_History s;
  rv_evidence : ps_CleanupEvidence s' = ps_CleanupEvidence s;
  rv_groups : forall k g, ps_Groups s !! k = Some g ->
    exists g', ps_Groups s' !! k = Some g' /\ recovers g g';
  rv_only : forall k g', ps_Groups s' !! k = Some g' -> is_Some (ps_Groups s !! k);
}.

Lemma open_state_ok now s :
  psinv options s -> text_kept s ->
  (forall k g, ps_Groups s !! k = Some g -> commit_requirements_ok (gs_Spec g)) ->
  exists s', Open raw_options now (JSONStore_Load (Some (JSONStore_Save s))) = Ok s' /\
    psinv options s' /\ recovered s s'.
Proof.
  intros [H1 H2 H3 H4] Htext Hcr. unfold Open. cbn [JSONStore_Load].
  assert (JSONStore_Save s = s) as ->.
  { unfold JSONStore_Save. assert (s <| ps_Version := stateVersion |> = s) as -> by (destruct s; cbn in *; by subst). done. }
  rewrite H1, Z.eqb_refl. cbn [negb fail_if].
  rewrite (for_each_map _ (ps_Membership s)).
  2: { intros k m Hm. destruct (H2 _ _ Hm) as [Hv <-]. unfold check_membership.
       rewrite Hv. cbn. by rewrite str_eqb_refl. }
  destruct (open_groups_ok now (map_to_list (ps_Groups s))) as (m & Hm & Hm1 & Hm2).
  { apply NoDup_fst_map_to_list. }
  { intros k g Hin%elem_of_map_to_list. split; [by apply H3|by eapply Hcr]. }
  fold options. rewrite Hm. eexists. split; [reflexivity|]. split; constructor; cbn; try done.
  - intros k g Hg. by apply Hm1 in Hg as [? _].
  - intros k g Hg. apply Hm2. by apply elem_of_map_to_list.
  - intros k g' Hg. apply Hm1 in Hg as (_ & g & Hin & _). apply elem_of_map_to_list in Hin.
    by eexists.
Qed.
End OpenState.
