(* ===== verification/ControllerRun.v ===== *)
(** * Running the controller: a small program logic

    [good w0 w] says that the world [w], reached inside an operation started at
    [w0], has moved only by protocol steps, that the document on disk is the
    one before the operation, the memory, or one step ahead of it, and that every external call so far was
    justified by the state committed before it.  [wp] reasons about the
    operations of Controller.v; interference by acknowledgements and membership
    updates is part of every rule. *)

From S2P Require Import Prelude Snapshot Messages ControllerTypes Controller ControllerOpen ControllerSpec ControllerInv.
From Stdlib Require Import ZArith Lia.
From stdpp Require Import base gmap strings list sorting numbers option relations.
#[local] Open Scope Z_scope.

(** The state the controller held after a trace of events. *)
Definition after_event (s : PersistentState) (e : Event) : PersistentState :=
  match e with EvSave s' SaveOk => s' | _ => s end.
Definition mem_after (s : PersistentState) (tr : list Event) : PersistentState :=
  foldl after_event s tr.

Definition wp {A} (m : ST A) (Q : A -> World -> Prop) (w : World) : Prop :=
  Q (snd (m w)) (fst (m w)).

Lemma wp_ret {A} (a : A) Q w : Q a w -> wp (ret a) Q w.
Proof. done. Qed.

Lemma wp_bind {A B} (m : ST A) (k : A -> ST B) Q w :
  wp m (fun a w' => wp (k a) Q w') w -> wp (bind m k) Q w.
Proof. unfold wp, bind. by destruct (m w). Qed.

Section Run.
Context {net_url : NetURL} {adm : Admission} (options : Options).

(** ** What justifies an external call

    [s] is the state committed before the call, [pre] the events of the same
    operation that precede it. *)
Definition fence_verified (pre : list Event) (g : GroupState) : Prop :=
  exists status t,
    [EvVerifyFence (fenceRequest g "commit-verify-fence") (Ok status); EvNow t]
      `sublist_of` pre /\
    fresh_status options (fs_Fenced status) (fs_ObservedAt status) t = true.

Definition ingress_verified (pre : list Event) (g : GroupState) : Prop :=
  exists status t,
    [EvVerifyIngress (targetIngressRequest g "activate-verify-target-ingress") (Ok status);
     EvNow t] `sublist_of` pre /\
    fresh_status options (is_Enabled status) (is_ObservedAt status) t = true.

(** The evidence for publishing [u] when the committed group is [g]. *)
Definition justified (pre : list Event) (g : GroupState) (u : ControlUpdate) : Prop :=
  if cu_Rollback u
  then undoing g /\ (fence_touched g = true -> gs_Unfenced g = true) /\
       state_rank (gs_Phase g) < 4
  else live g /\ gs_Phase g = cu_Phase u /\
       if bool_decide (cu_Phase u = PhaseCommit) then fence_verified pre g
       else commandsIssued g (cu_Phase u) = true /\
            cu_IssuedCommandIDs u = expected_for (gs_Spec g) (cu_Phase u) /\
            (cu_Phase u = PhaseActivate ->
               ingress_verified pre g /\ gs_CommitPublished g = true).

(** [u] is the group's snapshot, its membership is already persisted (or a newer
    one is), and its evidence is complete. *)
Definition publish_ok (s : PersistentState) (pre : list Event) (u : ControlUpdate) : Prop :=
  exists g m,
    ps_Groups s !! cu_Group u = Some g /\
    ps_Membership s !! cu_Group u = Some m /\
    ms_Revision (cu_Snapshot u) <= ms_Revision m /\
    cu_Snapshot u = controlSnapshot (gs_Spec g) (cu_Phase u) (cu_Rollback u) /\
    justified pre g u.

Definition event_ok (s : PersistentState) (pre : list Event) (e : Event) : Prop :=
  match e with
  | EvPublish u _ => publish_ok s pre u
  | EvFence r _ => exists g, ps_Groups s !! fr_Group r = Some g /\ live g /\
      r = fenceRequest g "fence" /\ gs_Phase g = PhasePause /\
      allAcknowledged g PhasePause = true /\ gs_FenceAttempted g = true
  | EvUnfence r _ => exists g, ps_Groups s !! fr_Group r = Some g /\ undoing g /\
      r = fenceRequest g "unfence" /\ state_rank (gs_Phase g) < 4
  | EvEnableIngress r _ => exists g, ps_Groups s !! fr_Group r = Some g /\ live g /\
      r = targetIngressRequest g "enable-target-ingress" /\ gs_Phase g = PhaseActivate /\
      gs_CommitPublished g = true
  | _ => True
  end.

Definition trace_ok (s : PersistentState) (tr : list Event) : Prop :=
  forall pre e post, tr = pre ++ e :: post -> event_ok (mem_after s pre) pre e.

Lemma trace_ok_snoc s tr e :
  trace_ok s tr -> event_ok (mem_after s tr) tr e -> trace_ok s (tr ++ [e]).
Proof.
  intros Ht He pre x post Heq. destruct post as [|y post' _] using rev_ind.
  - apply app_inj_tail in Heq as [-> ->]. done.
  - rewrite app_comm_cons, app_assoc in Heq. apply app_inj_tail in Heq as [-> _].
    by eapply Ht.
Qed.

Record good (w0 w : World) : Prop := {
  gd_inv : psinv options (w_mem w0);
  gd_steps : rtc (pstep options) (w_mem w0) (w_mem w);
  gd_trace : exists tr, w_trace w = w_trace w0 ++ tr /\ w_mem w = mem_after (w_mem w0) tr /\
               trace_ok (w_mem w0) tr;
  gd_disk : w_disk w = w_disk w0 /\ w_mem w = w_mem w0 \/ w_disk w = w_mem w \/
            pstep options (w_mem w) (w_disk w);
}.

Lemma good_start w : psinv options (w_mem w) -> good w w.
Proof.
  intros Hi. constructor; [done..| |by left]. exists []. rewrite app_nil_r.
  split_and!; [done..|]. by intros [].
Qed.

Lemma good_psinv w0 w : good w0 w -> psinv options (w_mem w).
Proof. intros []. by eapply psteps_inv. Qed.

Lemma good_ginv w0 w group g : good w0 w -> ps_Groups (w_mem w) !! group = Some g -> ginv group g.
Proof. intros Hg. apply pi_groups with options. by eapply good_psinv. Qed.

(** ** What interference preserves *)
Record framed (w w' : World) : Prop := {
  fr_groups : forall group g, ps_Groups (w_mem w) !! group = Some g ->
    exists g', ps_Groups (w_mem w') !! group = Some g' /\ ack_ext g g';
  fr_absent : forall group, ps_Groups (w_mem w) !! group = None ->
    ps_Groups (w_mem w') !! group = None;
  fr_members : forall group m, ps_Membership (w_mem w) !! group = Some m ->
    exists m', ps_Membership (w_mem w') !! group = Some m' /\ ms_Revision m <= ms_Revision m';
  fr_trace : exists tr, w_trace w' = w_trace w ++ tr;
}.

Lemma framed_refl w : framed w w.
Proof.
  constructor; [intros; eexists; split; [done|constructor]|done|
    intros; eexists; split; [done|lia]|].
  exists []. by rewrite app_nil_r.
Qed.

Lemma framed_trans w1 w2 w3 : framed w1 w2 -> framed w2 w3 -> framed w1 w3.
Proof.
  intros [A1 A0 A2 [t1 A3]] [B1 B0 B2 [t2 B3]]. constructor.
  - intros k g (g1 & H1 & E1)%A1. apply B1 in H1 as (g2 & ? & ?).
    exists g2. split; [done|]. by etrans.
  - auto.
  - intros k m (m1 & H1 & E1)%A2. apply B2 in H1 as (m2 & ? & ?). exists m2. split; [done|lia].
  - exists (t1 ++ t2). by rewrite B3, A3, app_assoc.
Qed.

Lemma framed_same w w' :
  w_mem w' = w_mem w -> (exists tr, w_trace w' = w_trace w ++ tr) -> framed w w'.
Proof.
  intros Hm Ht. constructor; rewrite ?Hm; try done; intros;
    eexists; (split; [done|]); [constructor|lia].
Qed.

(** The group is known up to new acknowledgements. *)
Definition at_group (w : World) (group : string) (g : GroupState) : Prop :=
  exists g', ps_Groups (w_mem w) !! group = Some g' /\ ack_ext g g'.

Lemma at_framed w w' group g : at_group w group g -> framed w w' -> at_group w' group g.
Proof.
  intros (g1 & H1 & E1) Hf. apply (fr_groups _ _ Hf) in H1 as (g2 & ? & ?).
  exists g2. split; [done|]. by etrans.
Qed.

Lemma at_self w group g : ps_Groups (w_mem w) !! group = Some g -> at_group w group g.
Proof. intros. exists g. split; [done|constructor]. Qed.

(** Events of the operation so far, in order. *)
Definition seen (w0 w : World) (l : list Event) : Prop :=
  exists tr, w_trace w = w_trace w0 ++ tr /\ l `sublist_of` tr.

Lemma seen_ext w0 w w' l :
  seen w0 w l -> (exists tr, w_trace w' = w_trace w ++ tr) -> seen w0 w' l.
Proof.
  intros (tr & H1 & H2) [t Ht]. exists (tr ++ t).
  rewrite Ht, H1, app_assoc. split; [done|]. by apply sublist_inserts_r.
Qed.

Lemma seen_framed w0 w w' l : seen w0 w l -> framed w w' -> seen w0 w' l.
Proof. intros Hs Hf. eapply seen_ext; [done|]. apply Hf. Qed.

Lemma seen_nil w0 w : good w0 w -> seen w0 w [].
Proof. intros [_ _ (tr & ? & _) _]. exists tr. split; [done|]. apply sublist_nil_l. Qed.

Lemma seen_snoc w0 w l e w' :
  seen w0 w l -> w_trace w' = w_trace w ++ [e] -> seen w0 w' (l ++ [e]).
Proof.
  intros (tr & H1 & H2) Ht. exists (tr ++ [e]). rewrite Ht, H1, app_assoc. split; [done|].
  by apply sublist_app.
Qed.
End Run.

(** ** Rules *)
Section Rules.
Context {net_url : NetURL} {adm : Admission} (options : Options) (env : Env).
Abbreviation good := (good options).

Lemma good_emit w0 w e :
  good w0 w -> after_event (w_mem w) e = w_mem w ->
  (forall pre, w_trace w = w_trace w0 ++ pre -> event_ok options (w_mem w) pre e) ->
  good w0 (fst (emit e w)).
Proof.
  intros [Hi Hs (tr & Ht & Hm & Hok) Hd] Ha He. constructor; try done.
  exists (tr ++ [e]). cbn. split_and!.
  - by rewrite Ht, app_assoc.
  - unfold mem_after. rewrite foldl_app. cbn. fold (mem_after (w_mem w0) tr). by rewrite <- Hm, Ha.
  - apply trace_ok_snoc; [done|]. rewrite <- Hm. by apply He.
Qed.

Lemma framed_emit w e : framed w (fst (emit e w)).
Proof. apply framed_same; [done|]. by exists [e]. Qed.

Lemma good_tick w0 w n : good w0 w -> good w0 (w <| w_tick := n |>).
Proof. by intros []. Qed.

(** A commit moves memory and disk together, only the disk, or neither. *)
Lemma save_cases w0 w next :
  good w0 w -> pstep options (w_mem w) next ->
  let '(w', err) := save env next w in
  good w0 w' /\ (exists tr, w_trace w' = w_trace w ++ tr) /\
  (err = nil_err /\ w_mem w' = next \/ is_ok err = false /\ w_mem w' = w_mem w).
Proof.
  intros [Hi Hs (tr & Ht & Hm & Hok) Hd] Hp. unfold save.
  assert (Htr : forall o, trace_ok options (w_mem w0) (tr ++ [EvSave next o])).
  { intros o. by apply trace_ok_snoc. }
  assert (Hma : forall o, mem_after (w_mem w0) (tr ++ [EvSave next o]) =
    after_event (w_mem w) (EvSave next o)).
  { intros o. unfold mem_after. rewrite foldl_app. cbn. fold (mem_after (w_mem w0) tr).
    by rewrite <- Hm. }
  destruct (env_save env (w_tick w)) eqn:E; cbn;
    (split; [constructor; cbn; [done| | |]|split; [by eexists|auto]]);
    try done; try (by eapply rtc_r); try (by auto).
  all: exists (tr ++ [EvSave next (env_save env (w_tick w))]); rewrite E, Hma, Ht, app_assoc;
    split_and!; [done|done|apply Htr].
Qed.

Definition committed (update : PersistentState -> result PersistentState) (w w' : World)
    (err : gerr) : Prop :=
  (err = nil_err /\ update (w_mem w) = Ok (w_mem w')) \/
  (w_mem w' = w_mem w /\
   (err = nil_err -> exists e, update (w_mem w) = Err e /\ errors_Is e errNoStateChange = true)).

Lemma wp_updateState w0 update (Q : gerr -> World -> Prop) w :
  good w0 w -> (forall next, update (w_mem w) = Ok next -> pstep options (w_mem w) next) ->
  (forall w' err, good w0 w' -> (exists tr, w_trace w' = w_trace w ++ tr) ->
     committed update w w' err -> Q err w') ->
  wp (updateState env update) Q w.
Proof.
  intros Hg Hp HQ. unfold wp, updateState, bind, get_mem.
  destruct (update (w_mem w)) as [next|e] eqn:E.
  - pose proof (save_cases w0 w next Hg (Hp _ eq_refl)) as Hs.
    destruct (save env next w) as [w' err] eqn:Esave. cbn.
    destruct Hs as (Hg' & Ht & [[-> Hm]|[Herr Hm]]); apply HQ; try done.
    + left. split; [done|]. by rewrite Hm.
    + right. split; [done|]. by intros ->.
  - cbn. apply HQ; [done|by exists []; rewrite app_nil_r|]. right. split; [done|].
    destruct (errors_Is e errNoStateChange) eqn:E'; [|done]. intros _. by exists e.
Qed.

Lemma wp_now w0 Q w :
  good w0 w ->
  (forall w' t, good w0 w' -> framed w w' -> w_trace w' = w_trace w ++ [EvNow t] -> Q t w') ->
  wp (now env) Q w.
Proof.
  intros Hg HQ. unfold wp, now, bind, get_tick. cbn. apply HQ.
  - by apply good_emit.
  - apply framed_emit.
  - done.
Qed.

Lemma framed_ack ack w w' :
  (exists tr, w_trace w' = w_trace w ++ tr) -> ack_update ack (w_mem w) = Ok (w_mem w') ->
  framed w w'.
Proof.
  intros Ht Ha. unfold ack_update in Ha.
  destruct (ps_Groups (w_mem w) !! ack_Group ack) as [g|] eqn:E; [|done].
  destruct (ack_group ack g) as [g1|] eqn:Eg; [|done]. injection Ha as Ha.
  constructor; [| | |done]; rewrite <- Ha; cbn; intros.
  - destruct (decide (group = ack_Group ack)) as [->|].
    + rewrite lookup_insert_eq. simplify_eq. eexists. split; [done|].
      apply rtc_once. by exists ack.
    + rewrite lookup_insert_ne by done. eexists. split; [done|constructor].
  - rewrite lookup_insert_ne; [done|congruence].
  - eexists. split; [done|lia].
Qed.

Lemma committed_same update w w' err :
  committed update w w' err -> (exists tr, w_trace w' = w_trace w ++ tr) ->
  (update (w_mem w) = Ok (w_mem w') -> framed w w') -> framed w w'.
Proof. intros [[_ H]|[H _]] Ht Hf; [auto|by apply framed_same]. Qed.

Lemma wp_Acknowledge w0 ack (Q : gerr -> World -> Prop) w :
  good w0 w -> (forall w' err, good w0 w' -> framed w w' -> Q err w') ->
  wp (Acknowledge env ack) Q w.
Proof.
  intros Hg HQ. unfold Acknowledge. case_match.
  - apply wp_bind, (wp_now w0); [done|]. intros w1 t Hg1 Hf1 _.
    apply (wp_updateState w0); [done|intros; by eapply ps_ack|]. intros w2 err Hg2 Ht2 Hc.
    apply HQ; [done|]. eapply framed_trans; [done|].
    eapply committed_same; [done..|]. by apply framed_ack.
  - apply (wp_updateState w0); [done|intros; by eapply ps_ack|]. intros w2 err Hg2 Ht2 Hc.
    apply HQ; [done|]. eapply committed_same; [done..|]. by apply framed_ack.
Qed.

Lemma membership_update_ok m s s' :
  membership_update m s = Ok s' ->
  s' = s <| ps_Membership := <[ms_ScalingGroup m := m]> (ps_Membership s) |> /\
  forall c, ps_Membership s !! ms_ScalingGroup m = Some c ->
    ms_Revision c < ms_Revision m /\ ms_Epoch c <= ms_Epoch m.
Proof.
  unfold membership_update. intros H. go_inv H; (split; [done|]);
    intros; simplify_eq; to_prop; lia.
Qed.

Lemma membership_update_same m s e :
  membership_update m s = Err e -> errors_Is e errNoStateChange = true ->
  exists c, ps_Membership s !! ms_ScalingGroup m = Some c /\ ms_Revision c = ms_Revision m.
Proof.
  unfold membership_update. intros H He. go_inv H.
  eexists. split; [done|]. to_prop. lia.
Qed.

Lemma framed_membership m w w' :
  (exists tr, w_trace w' = w_trace w ++ tr) -> membership_update m (w_mem w) = Ok (w_mem w') ->
  framed w w'.
Proof.
  intros Ht [Hm Hr]%membership_update_ok. constructor; [| | |done]; rewrite Hm; cbn; [intros k c Hc|done|intros k c Hc].
  - eexists. split; [done|constructor].
  - destruct (decide (k = ms_ScalingGroup m)) as [->|].
    + rewrite lookup_insert_eq. eexists. split; [done|]. apply Hr in Hc. lia.
    + rewrite lookup_insert_ne by done. eexists. split; [done|lia].
Qed.

(** After a successful save the membership is at least the snapshot. *)
Lemma wp_SaveMembership w0 m (Q : gerr -> World -> Prop) w :
  good w0 w ->
  (forall w' err, good w0 w' -> framed w w' ->
     (err = nil_err -> exists c, ps_Membership (w_mem w') !! ms_ScalingGroup m = Some c /\
        ms_Revision m <= ms_Revision c) -> Q err w') ->
  wp (SaveMembership env m) Q w.
Proof.
  intros Hg HQ. unfold SaveMembership. destruct (Validate m) as [[]|e] eqn:Ev.
  2: { apply wp_ret, HQ; [done|apply framed_refl|done]. }
  apply (wp_updateState w0); [done|intros; by eapply ps_membership|].
  intros w' err Hg' Ht Hc. apply HQ; [done| |].
  - eapply committed_same; [done..|]. by apply framed_membership.
  - intros Herr. destruct Hc as [[_ Hu]|[Hsame Hu]].
    + apply membership_update_ok in Hu as [-> _]. exists m. cbn. rewrite lookup_insert_eq.
      split; [done|lia].
    + destruct (Hu Herr) as (e & He & Hi).
      destruct (membership_update_same _ _ _ He Hi) as (c & ? & ?).
      exists c. rewrite Hsame. split; [done|lia].
Qed.

Lemma wp_run_foreign w0 calls (Q : unit -> World -> Prop) w :
  good w0 w -> (forall w', good w0 w' -> framed w w' -> Q tt w') ->
  wp (run_foreign env calls) Q w.
Proof.
  revert w. induction calls as [|c calls IH]; intros w Hg HQ; cbn [run_foreign].
  { apply wp_ret, HQ; [done|apply framed_refl]. }
  apply wp_bind. destruct c; cbn [foreign_call].
  - apply (wp_Acknowledge w0); [done|]. intros w1 err Hg1 Hf1. apply IH; [done|].
    intros w2 Hg2 Hf2. apply HQ; [done|]. by eapply framed_trans.
  - apply (wp_SaveMembership w0); [done|]. intros w1 err Hg1 Hf1 _. apply IH; [done|].
    intros w2 Hg2 Hf2. apply HQ; [done|]. by eapply framed_trans.
Qed.

Lemma wp_interfere w0 (Q : unit -> World -> Prop) w :
  good w0 w -> (forall w', good w0 w' -> framed w w' -> Q tt w') ->
  wp (interfere env) Q w.
Proof.
  intros Hg HQ. unfold wp, interfere.
  apply (wp_run_foreign w0 _ Q (w <| w_tick := S (w_tick w) |>)).
  - by apply good_tick.
  - intros w' Hg' Hf. apply HQ; [done|]. destruct Hf as [F1 F2 F3 F4]. by constructor.
Qed.

Lemma wp_groupState w0 group Q w :
  good w0 w ->
  (forall w', good w0 w' -> framed w w' -> Q (ps_Groups (w_mem w') !! group) w') ->
  wp (groupState env group) Q w.
Proof.
  intros Hg HQ. unfold groupState. apply wp_bind, (wp_interfere w0); [done|].
  intros w' Hg' Hf. apply wp_bind. unfold get_mem, wp at 1. cbn. apply wp_ret. by apply HQ.
Qed.

(** An external call must be justified in every state it may be made in. *)
Lemma wp_call {A} w0 (answer : nat -> A) event (Q : A -> World -> Prop) w :
  good w0 w ->
  (forall s a, after_event s (event a) = s) ->
  (forall w' a pre, good w0 w' -> framed w w' -> w_trace w' = w_trace w0 ++ pre ->
     event_ok options (w_mem w') pre (event a)) ->
  (forall w1 w' a, good w0 w' -> framed w w1 -> framed w1 w' ->
     w_trace w' = w_trace w1 ++ [event a] -> Q a w') ->
  wp (call env answer event) Q w.
Proof.
  intros Hg Ha He HQ. unfold call. apply wp_bind, (wp_interfere w0); [done|].
  intros w1 Hg1 Hf1. apply wp_bind. unfold get_tick, wp at 1. cbn. apply wp_bind.
  unfold wp at 1. apply wp_ret.
  apply (HQ w1); [|done|apply framed_emit|done].
  apply good_emit; [done|apply Ha|]. intros pre Hpre. by apply (He w1).
Qed.

Lemma group_update_at group upd s g :
  ps_Groups s !! group = Some g ->
  group_update options group upd s = group_update options group (fun _ => upd g) s.
Proof. intros Hl. unfold group_update. by rewrite Hl. Qed.

Lemma group_update_group group g' s s' :
  group_update options group (fun _ => g') s = Ok s' ->
  exists mark, ps_Groups s' !! group = Some (g' <| gs_CleanupRecorded := mark |>).
Proof.
  intros (mark & ev & hist & -> & _)%group_update_ok. exists mark. cbn.
  by rewrite lookup_insert_eq.
Qed.

Lemma group_update_ok_total group upd s g :
  ps_Groups s !! group = Some g -> exists s', group_update options group upd s = Ok s'.
Proof. intros Hl. unfold group_update. rewrite Hl. case_match. by eexists. Qed.

(** The group after a committed update. *)
Definition updated (group : string) (g : GroupState) (upd : GroupState -> GroupState)
    (w' : World) : Prop :=
  exists g' mark, ack_ext g g' /\ ginv group g' /\
    ps_Groups (w_mem w') !! group = Some (upd g' <| gs_CleanupRecorded := mark |>).

Lemma wp_updateGroup w0 group g upd (Q : gerr -> World -> Prop) w :
  good w0 w -> at_group w group g ->
  (forall g', ack_ext g g' -> ginv group g' -> gmove options g' (upd g')) ->
  (forall w' err, good w0 w' -> (exists tr, w_trace w' = w_trace w ++ tr) ->
     (err = nil_err -> updated group g upd w') ->
     (is_ok err = false -> at_group w' group g) -> Q err w') ->
  wp (updateGroup options env group upd) Q w.
Proof.
  intros Hg Hat Hstep HQ. unfold updateGroup. apply wp_bind, (wp_interfere w0); [done|].
  intros w1 Hg1 Hf1. pose proof (at_framed _ _ _ _ Hat Hf1) as (g1 & Hl & He).
  pose proof (good_ginv _ _ _ _ _ Hg1 Hl) as Hi.
  apply (wp_updateState w0); [done| |].
  - intros next Hn. rewrite (group_update_at _ _ _ _ Hl) in Hn.
    by eapply ps_group; [| |exact Hn]; [done|auto].
  - intros w2 err Hg2 [tr2 Ht2] Hc. destruct (fr_trace _ _ Hf1) as [tr1 Ht1].
    apply HQ; [done|exists (tr1 ++ tr2); by rewrite Ht2, Ht1, app_assoc| |].
    + intros ->. destruct Hc as [[_ Hu]|[_ Hu]].
      * rewrite (group_update_at _ _ _ _ Hl) in Hu. apply group_update_group in Hu as [mark Hm].
        exists g1, mark. done.
      * destruct (Hu eq_refl) as (e & He' & _).
        destruct (group_update_ok_total group upd _ _ Hl) as [s' Hs']. by rewrite Hs' in He'.
    + intros Herr. destruct Hc as [[-> _]|[Hsame _]]; [done|].
      exists g1. by rewrite Hsame.
Qed.
End Rules.
