(* ===== verification/ControllerRefine.v ===== *)
(** * The controller refines the protocol

    Every operation of Controller.v, run with arbitrary answers from brokers,
    publisher, clock and store and with arbitrary interference, moves the state
    by protocol steps only and makes only justified external calls. *)

From S2P Require Import Prelude Snapshot Messages ControllerTypes Controller ControllerOpen ControllerSpec ControllerInv ControllerRecovery ControllerRun.
From Stdlib Require Import ZArith Lia.
From stdpp Require Import base gmap strings list sorting numbers option relations.
#[local] Open Scope Z_scope.

(** [g'] is [g] up to acknowledgements, issued commands and the cleanup mark. *)
Definition same_progress (g g' : GroupState) : Prop :=
  exists a i mark, g' = g <| gs_Acknowledgements := a |> <| gs_IssuedCommandIDs := i |>
                          <| gs_CleanupRecorded := mark |>.

Lemma same_progress_ext g g1 g2 : same_progress g g1 -> ack_ext g1 g2 -> same_progress g g2.
Proof. intros (a & i & mark & ->) (b & -> & _)%ack_ext_shape. by exists b, i, mark. Qed.

Lemma same_progress_refl g : same_progress g g.
Proof.
  exists (gs_Acknowledgements g), (gs_IssuedCommandIDs g), (gs_CleanupRecorded g).
  by destruct g.
Qed.

Lemma commandsIssued_ext g g' p :
  ack_ext g g' -> commandsIssued g p = true -> commandsIssued g' p = true.
Proof. by intros (a & -> & _)%ack_ext_shape. Qed.

Lemma drainComplete_acks options g a t :
  drainComplete options (g <| gs_Acknowledgements := a |>) t = drainComplete options g t.
Proof.
  unfold drainComplete. cbn [gs_Spec gs_PhaseEnteredAt gs_LatestTelemetry gs_ZeroSince setter].
  destruct (requiredTelemetrySources (gs_Spec g)) as [|src l]; [done|].
  assert (Hl : forall l z o, drain_loop options (g <| gs_Acknowledgements := a |>) t z o l =
                             drain_loop options g t z o l); [|by rewrite Hl].
  clear. induction l as [|src l IH]; intros z o; [done|].
  cbn [drain_loop gs_Spec gs_PhaseEnteredAt gs_LatestTelemetryBySource gs_ZeroSinceBySource setter].
  repeat case_match; done.
Qed.

Section Refine.
Context {net_url : NetURL} {adm : Admission} (options : Options) (env : Env).
Abbreviation good := (good options).

Definition safe {A} (w0 : World) (m : ST A) (w : World) : Prop :=
  wp m (fun _ w' => good w0 w') w.

(** Safe, and an outcome that reports a change has made progress on [g]. *)
Definition advanced (group : string) (n : nat) (o : outcome) (w : World) : Prop :=
  o = (true, nil_err) ->
  exists g', ps_Groups (w_mem w) !! group = Some g' /\ (n < progress g')%nat.
Definition moves (w0 : World) (group : string) (n : nat) (m : ST outcome) (w : World) : Prop :=
  wp m (fun o w' => good w0 w' /\ advanced group n o w') w.

Lemma moves_idle w0 group n err w : good w0 w -> moves w0 group n (ret (false, err)) w.
Proof. intros Hg. split; [done|]. by intros [=]. Qed.

Lemma wp_publish w0 group g phase rollback (Q : gerr -> World -> Prop) w :
  good w0 w -> at_group w group g ->
  (forall w' g' pre, framed w w' -> ack_ext g g' -> ginv group g' ->
     w_trace w' = w_trace w0 ++ pre ->
     justified options pre g' (control_update g phase rollback)) ->
  (forall w' err, good w0 w' -> framed w w' -> Q err w') ->
  wp (publish env g phase rollback) Q w.
Proof.
  intros Hg Hat Hj HQ. unfold publish. apply wp_bind, (wp_interfere options _ w0); [done|].
  intros w1 Hg1 Hf1. apply wp_bind, (wp_SaveMembership options _ w0); [done|].
  intros w2 err Hg2 Hf2 Hm. pose proof (framed_trans _ _ _ Hf1 Hf2) as Hf.
  destruct err as [[]|e]; [|by apply wp_ret, HQ].
  destruct (Hm eq_refl) as (m & Hml & Hmr). apply wp_bind.
  apply (wp_call options _ w0); [done|done| |].
  - intros w3 o pre Hg3 Hf3 Hpre. cbn.
    assert (Hf' : framed w w3) by by eapply framed_trans.
    destruct (at_framed _ _ _ _ Hat Hf') as (g' & Hl & He).
    pose proof (good_ginv _ _ _ _ _ Hg3 Hl) as Hi. pose proof Hi as [Hgrp _ _ _ _].
    destruct (fr_members _ _ Hf3 _ _ Hml) as (m' & Hml' & Hmr').
    pose proof He as (a & Heq & _)%ack_ext_shape.
    assert (Hspec : gs_Spec g' = gs_Spec g) by by rewrite Heq.
    exists g', m'. cbn [cu_Group cu_Snapshot cu_Phase cu_Rollback control_update].
    assert (spec_Group (gs_Spec g) = group) as Hgr by by rewrite <- Hspec.
    rewrite Hgr. split_and!; [done| | | |by apply (Hj w3)].
    + replace group with (ms_ScalingGroup (cu_Snapshot (control_update g phase rollback)));
        [done|]. rewrite <- Hgr. cbn. by destruct rollback, phase.
    + etrans; [|exact Hmr']. exact Hmr.
    + by rewrite Hspec.
  - intros w3 w4 o Hg4 Hf3 Hf4 _. apply wp_ret. destruct o; apply HQ; try done;
      by eapply framed_trans, framed_trans.
Qed.

Lemma wp_ensureCommandIntent w0 group g (Q : result (GroupState * bool) -> World -> Prop) w :
  good w0 w -> at_group w group g -> live g -> commanded (gs_Phase g) ->
  phasePublished g (gs_Phase g) = false ->
  (gs_Phase g = PhaseActivate -> gs_TargetIngressVerified g = true) ->
  (forall w' e, good w0 w' -> Q (Err e) w') ->
  (forall w' g1 b, good w0 w' -> (exists tr, w_trace w' = w_trace w ++ tr) ->
     at_group w' group g1 -> same_progress g g1 -> commandsIssued g1 (gs_Phase g) = true ->
     (progress g <= progress g1)%nat -> Q (Ok (g1, b)) w') ->
  wp (ensureCommandIntent options env group g (gs_Phase g)) Q w.
Proof.
  intros Hg Hat Hlive Hcmd Hunp Hact HE HO. unfold ensureCommandIntent.
  destruct (commandsIssued g (gs_Phase g)) eqn:Hci.
  { apply wp_ret, HO; try done; [by exists []; rewrite app_nil_r|apply same_progress_refl]. }
  apply wp_bind, (wp_updateGroup options _ w0 _ g); [done|done| |].
  { intros g' (a & Heq & _)%ack_ext_shape _.
    assert (gs_Phase g = gs_Phase g') as Hp by by rewrite Heq.
    rewrite Hp. left. apply st_issue; rewrite <- ?Hp; rewrite ?Heq; done. }
  intros w1 err Hg1 [t1 Ht1] Hok _. destruct err as [[]|e]; [|by apply wp_ret, HE].
  destruct (Hok eq_refl) as (g' & mark & He & Hi' & Hl). clear Hok.
  apply wp_bind, (wp_groupState options _ w0); [done|]. intros w2 Hg2 Hf2. apply wp_ret.
  destruct (fr_groups _ _ Hf2 _ _ Hl) as (g2 & Hl2 & He2). rewrite Hl2.
  destruct (fr_trace _ _ Hf2) as [t2 Ht2].
  pose proof He as (a & Heq & _)%ack_ext_shape.
  apply HO; [done| |by apply at_self| | |].
  - exists (t1 ++ t2). by rewrite Ht2, Ht1, app_assoc.
  - eapply same_progress_ext; [|exact He2]. rewrite Heq. by do 3 eexists.
  - eapply commandsIssued_ext; [exact He2|].
    pose proof (good_ginv _ _ _ _ _ Hg1 Hl) as [_ Hn _ _ _].
    exact (record_issues g' (gs_Phase g) Hn Hcmd).
  - rewrite (progress_ext _ _ He2), <- (progress_ext _ _ He).
    assert (Hp : gs_Phase g = gs_Phase g') by by rewrite Heq.
    apply Nat.lt_le_incl. rewrite Hp. apply progress_issue; rewrite <- ?Hp; try done.
    + by destruct Hi'.
    + by rewrite Heq.
Qed.

Lemma moves_advance w0 group n g upd w :
  good w0 w -> at_group w group g -> (n <= progress g)%nat ->
  (forall g', ack_ext g g' -> ginv group g' -> gstep options g' (upd g')) ->
  moves w0 group n (advance options env group upd) w.
Proof.
  intros Hg Hat Hn Hs. unfold moves, advance.
  apply wp_bind, (wp_updateGroup options _ w0 _ g); [done|done|intros; left; auto|].
  intros w' err Hg' _ Hu _. apply wp_ret. split; [done|]. intros [= ->].
  destruct (Hu eq_refl) as (g' & mark & He & Hi & Hl). eexists. split; [exact Hl|].
  pose proof (gstep_progress options group g' _ Hi (Hs g' He Hi)) as Hlt.
  rewrite (progress_ext _ _ He) in Hlt.
  eapply Nat.le_lt_trans; [exact Hn|exact Hlt].
Qed.

Lemma moves_advance_phase w0 group n g phase also w :
  good w0 w -> at_group w group g -> (n <= progress g)%nat ->
  (forall t g', ack_ext g g' -> ginv group g' ->
     gstep options g' (enterPhase phase t (phaseTimeout options group) (also g'))) ->
  moves w0 group n (advance_phase options env group phase also) w.
Proof.
  intros Hg Hat Hn Hs. unfold moves, advance_phase. apply wp_bind, (wp_now options _ w0); [done|].
  intros w1 t Hg1 Hf1 _. apply (moves_advance _ _ _ g); [done|by eapply at_framed|done|].
  intros g' He Hi. by apply Hs.
Qed.

Lemma moves_complete w0 group n g w :
  good w0 w -> at_group w group g -> (n <= progress g)%nat ->
  (forall t g', ack_ext g g' -> ginv group g' -> gstep options g' (completeState t g')) ->
  moves w0 group n (complete options env group) w.
Proof.
  intros Hg Hat Hn Hs. unfold moves, complete. apply wp_bind, (wp_now options _ w0); [done|].
  intros w1 t Hg1 Hf1 _. apply (moves_advance _ _ _ g); [done|by eapply at_framed|done|].
  intros g' He Hi. by apply Hs.
Qed.

(** Publishing a commanded phase: intent, publication, mark. *)
Lemma moves_publish_phase w0 group n g mark w :
  good w0 w -> at_group w group g -> (n <= progress g)%nat -> live g -> commanded (gs_Phase g) ->
  phasePublished g (gs_Phase g) = false ->
  (gs_Phase g = PhaseActivate ->
     gs_TargetIngressVerified g = true /\ gs_CommitPublished g = true /\
     exists status t,
       seen w0 w [EvVerifyIngress
         (targetIngressRequest g "activate-verify-target-ingress") (Ok status); EvNow t] /\
       fresh_status options (is_Enabled status) (is_ObservedAt status) t = true) ->
  (forall g', same_progress g g' -> commandsIssued g' (gs_Phase g) = true ->
     gstep options g' (mark g')) ->
  moves w0 group n (publish_phase options env group g (gs_Phase g) mark) w.
Proof.
  intros Hg Hat Hn Hlive Hcmd Hunp Hact Hmark. unfold moves, publish_phase.
  apply wp_bind, (wp_ensureCommandIntent w0); [done..| | |].
  { intros H. by apply Hact in H as (? & _ & _). }
  { intros w' e Hg'. by apply wp_ret. }
  intros w1 g1 b Hg1 Ht1 Hat1 Hsame Hci Hle. apply wp_bind.
  pose proof Hsame as (a & i & mk & Heq).
  assert (Hncommit : gs_Phase g <> PhaseCommit)
    by (by destruct Hcmd as [->|[->|[->| ->]]]).
  apply (wp_publish w0 group g1); [done|done| |].
  - intros w2 g2 pre Hf2 He2 Hi2 Hpre. unfold justified. cbn [cu_Rollback control_update].
    pose proof He2 as (c & Heq2 & _)%ack_ext_shape.
    pose proof (commandsIssued_ext _ _ _ He2 Hci) as Hci2.
    cbn [cu_Phase control_update]. rewrite bool_decide_eq_false_2 by done.
    assert (Hl2 : live g2 /\ gs_Phase g2 = gs_Phase g /\ gs_Spec g2 = gs_Spec g /\
      gs_CommitPublished g2 = gs_CommitPublished g /\ gs_Spec g1 = gs_Spec g).
    { rewrite Heq2, Heq. split_and!; done. }
    destruct Hl2 as (Hl2 & Hp2 & Hs2 & Hc2 & Hs1). split_and!; [done..| |].
    + cbn. rewrite Hs2, <- Hs1. by apply commandsIssued_iff in Hci as [_ ->].
    + intros Ha. destruct (Hact Ha) as (_ & Hcp & status & t & Hseen & Hfresh).
      split; [|by rewrite Hc2]. exists status, t. split; [|done].
      assert (seen w0 w2 [EvVerifyIngress
        (targetIngressRequest g "activate-verify-target-ingress") (Ok status); EvNow t])
        as (tr & Htr & Hsub).
      { eapply seen_framed; [|done]. by eapply seen_ext. }
      rewrite Hpre in Htr. apply app_inv_head in Htr as ->.
      unfold targetIngressRequest. rewrite Hs2. exact Hsub.
  - intros w2 err Hg2 Hf2. destruct err as [[]|e]; [|by apply wp_ret].
    apply (moves_advance w0 group n g1); [done|by eapply at_framed|lia|].
    intros g' He' _. apply Hmark; [by eapply same_progress_ext|by eapply commandsIssued_ext].
Qed.

(** A guard on the group read earlier, at the group being updated. *)
Ltac still He Heq :=
  first [ done
        | by rewrite Heq
        | by eapply (allAcknowledged_ext _ _ _ He)
        | by eapply (commandsIssued_ext _ _ _ He) ].

Ltac step c :=
  let g' := fresh "g'" in let He := fresh "He" in let Heq := fresh "Heq" in
  intros g' He _; pose proof He as (? & Heq & _)%ack_ext_shape;
  try left; apply c; still He Heq.
Ltac step_at c :=
  let g' := fresh "g'" in let He := fresh "He" in let Heq := fresh "Heq" in
  intros ? g' He _; pose proof He as (? & Heq & _)%ack_ext_shape;
  apply c; still He Heq.

Lemma moves_reconcile_prepare w0 group n g w :
  good w0 w -> at_group w group g -> (n <= progress g)%nat -> live g -> gs_Phase g = PhasePrepare ->
  moves w0 group n (reconcile_prepare options env group g) w.
Proof.
  intros Hg Hat Hn Hlive Hph. unfold reconcile_prepare.
  destruct (gs_PreparePublished g) eqn:Hpub; cbn [negb].
  - destruct (allAcknowledged g PhasePrepare) eqn:Hack; [|done].
    apply (moves_advance_phase w0 group n g); [done..|]. step_at st_pause.
  - rewrite <- Hph. apply moves_publish_phase; rewrite ?Hph; try done; [by left|].
    intros g' (a & i & mk & Heq) Hci. apply st_prepared; by rewrite ?Heq in *.
Qed.

Lemma moves_reconcile_fence w0 group n g w :
  good w0 w -> at_group w group g -> (n <= progress g)%nat -> live g -> gs_Phase g = PhasePause ->
  gs_PausePublished g = true -> allAcknowledged g PhasePause = true ->
  gs_FenceAttempted g = true -> moves w0 group n (reconcile_fence options env group g) w.
Proof.
  intros Hg Hat Hn Hlive Hph Hpub Hack Hatt. unfold reconcile_fence.
  destruct (gs_Fenced g) eqn:Hf; cbn [negb].
  - apply (moves_advance_phase w0 group n g); [done..|]. step_at st_drain.
  - apply wp_bind, (wp_call options _ w0); [done|done| |].
    + intros w' o pre Hg' Hf' Hpre. cbn.
      destruct (at_framed _ _ _ _ Hat Hf') as (g' & Hl & He).
      pose proof (good_ginv _ _ _ _ _ Hg' Hl) as [Hgr _ _ _ _].
      pose proof He as (a & Heq & _)%ack_ext_shape.
      exists g'. assert (spec_Group (gs_Spec g) = group) as -> by by rewrite Heq in Hgr.
      split_and!; still He Heq.
    + intros w1 w' o Hg' Hf1 Hf2 _. destruct o; [done|].
      apply (moves_advance w0 group n g); [done|by eapply at_framed, framed_trans|done|].
      step st_fenced.
Qed.

Lemma moves_reconcile_pause w0 group n g w :
  good w0 w -> at_group w group g -> (n <= progress g)%nat -> live g -> gs_Phase g = PhasePause ->
  moves w0 group n (reconcile_pause options env group g) w.
Proof.
  intros Hg Hat Hn Hlive Hph. unfold reconcile_pause.
  destruct (gs_PausePublished g) eqn:Hpub; cbn [negb].
  2: { rewrite <- Hph. apply moves_publish_phase; rewrite ?Hph; try done; [by right; left|].
       intros g' (a & i & mk & Heq) Hci. apply st_paused; by rewrite ?Heq in *. }
  destruct (allAcknowledged g PhasePause) eqn:Hack; cbn [negb]; [|done].
  destruct (gs_FenceAttempted g) eqn:Hatt; cbn [negb]; [by apply moves_reconcile_fence|].
  apply wp_bind, (wp_updateGroup options _ w0 _ g); [done|done|step st_fence_attempt|].
  intros w1 err Hg1 _ Hok _. destruct err as [[]|e]; [|done].
  destruct (Hok eq_refl) as (g1 & mark & He1 & Hi1 & Hl1).
  apply wp_bind, (wp_groupState options _ w0); [done|]. intros w2 Hg2 Hf2.
  destruct (fr_groups _ _ Hf2 _ _ Hl1) as (g2 & Hl2 & He2). rewrite Hl2.
  pose proof (allAcknowledged_ext _ _ PhasePause He1 Hack) as Hack1.
  pose proof He1 as (a & Heq1 & _)%ack_ext_shape.
  assert (Hack2 : allAcknowledged g2 PhasePause = true).
  { by eapply allAcknowledged_ext. }
  pose proof He2 as (b & Heq2 & _)%ack_ext_shape.
  assert (Hn2 : (n <= progress g2)%nat).
  { rewrite (progress_ext _ _ He2). etrans; [exact Hn|]. rewrite <- (progress_ext _ _ He1).
    apply Nat.lt_le_incl. eapply Nat.lt_le_trans; [eapply gstep_progress; [exact Hi1|]|].
    - apply (st_fence_attempt options); by rewrite ?Heq1 in *.
    - reflexivity. }
  apply moves_reconcile_fence; try done; [by apply at_self|rewrite Heq2; cbn; rewrite ?Heq1; done..].
Qed.

Lemma moves_reconcile_drain w0 group n g w :
  good w0 w -> at_group w group g -> (n <= progress g)%nat -> live g -> gs_Phase g = PhaseDrain ->
  moves w0 group n (reconcile_drain options env group g) w.
Proof.
  intros Hg Hat Hn Hlive Hph. unfold reconcile_drain.
  destruct (gs_DrainPublished g) eqn:Hpub; cbn [negb].
  2: { rewrite <- Hph. apply moves_publish_phase; rewrite ?Hph; try done; [by right; right; left|].
       intros g' (a & i & mk & Heq) Hci. apply st_draining; by rewrite ?Heq in *. }
  apply wp_bind.
  assert (Hclock : forall Q : Time -> World -> Prop,
    (forall w1 t, good w0 w1 -> framed w w1 -> Q t w1) ->
    wp (if drain_reads_clock g then now env else ret zeroTime) Q w).
  { intros Q HQ. case_match; [|by apply wp_ret, HQ, framed_refl].
    apply (wp_now options _ w0); [done|]. intros. by apply HQ. }
  apply Hclock. intros w1 t Hg1 Hf1. clear Hclock.
  destruct (drainComplete options g t) eqn:Hdrain; cbn [negb]; [|done].
  destruct (allAcknowledged g PhaseDrain) eqn:Hack; cbn [negb]; [|done].
  apply wp_bind, (wp_now options _ w0); [done|]. intros w2 t2 Hg2 Hf2 _.
  destruct (readinessFresh options g t2) eqn:Hfresh; cbn [negb]; [|done].
  apply wp_bind, (wp_call options _ w0); [done|done|done|].
  intros w3 w4 status Hg4 Hf3 Hf4 _. destruct status as [status|e]; [|done].
  apply wp_bind, (wp_now options _ w0); [done|]. intros w5 t3 Hg5 Hf5 _.
  case_match; [done|].
  apply (moves_advance_phase w0 group n g); [done| |done|].
  - eapply at_framed; [exact Hat|]. by do 4 (eapply framed_trans; [done|]).
  - intros t4 g' He _. pose proof He as (a & Heq & _)%ack_ext_shape.
    apply (st_commit options g' g t t2); [still He Heq..| |still He Heq|done|done].
    rewrite Heq. by rewrite drainComplete_acks.
Qed.

Lemma moves_reconcile_commit w0 group n g w :
  good w0 w -> at_group w group g -> (n <= progress g)%nat -> live g -> gs_Phase g = PhaseCommit ->
  moves w0 group n (reconcile_commit options env group g) w.
Proof.
  intros Hg Hat Hn Hlive Hph. unfold reconcile_commit.
  destruct (gs_CommitPublished g) eqn:Hpub; cbn [negb].
  { apply (moves_advance_phase w0 group n g); [done..|]. step_at st_activate. }
  apply wp_bind, (wp_call options _ w0); [done|done|done|].
  intros w1 w2 status Hg2 Hf1 Hf2 Ht2. destruct status as [status|e]; [|done].
  apply wp_bind, (wp_now options _ w0); [done|]. intros w3 t Hg3 Hf3 Ht3.
  destruct (fresh_status _ _ _ _) eqn:Hfresh; cbn [negb]; [|done].
  pose proof (framed_trans _ _ _ Hf1 (framed_trans _ _ _ Hf2 Hf3)) as Hf.
  assert (Hat3 : at_group w3 group g) by by eapply at_framed.
  apply wp_bind, (wp_publish w0 group g); [done|done| |].
  - intros w4 g' pre Hf4 He Hi Hpre. pose proof He as (a & Heq & _)%ack_ext_shape.
    unfold justified. cbn [cu_Rollback cu_Phase control_update].
    rewrite bool_decide_eq_true_2 by done. split_and!; [still He Heq..|].
    exists status, t. split; [|done].
    assert (Hs : seen w0 w4 [EvVerifyFence (fenceRequest g "commit-verify-fence") (Ok status);
                             EvNow t]).
    { eapply seen_framed; [|exact Hf4].
      change [?x; ?y] with ([x] ++ [y]). eapply seen_snoc; [|exact Ht3].
      change [?x] with ([] ++ [x]). eapply seen_snoc; [|exact Ht2].
      eapply seen_framed; [eapply seen_nil; exact Hg|exact Hf1]. }
    destruct Hs as (tr & Htr & Hsub). rewrite Hpre in Htr. apply app_inv_head in Htr as ->.
    unfold fenceRequest. by rewrite Heq.
  - intros w4 err Hg4 Hf4. destruct err as [[]|e]; [|done].
    apply (moves_advance w0 group n g); [done|by eapply at_framed|done|]. step st_committed.
Qed.

Lemma moves_reconcile_activate w0 group n g w :
  good w0 w -> at_group w group g -> (n <= progress g)%nat -> live g -> gs_Phase g = PhaseActivate ->
  gs_CommitPublished g = true -> moves w0 group n (reconcile_activate options env group g) w.
Proof.
  intros Hg Hat Hn Hlive Hph Hcp. unfold reconcile_activate.
  destruct (gs_TargetIngressEnabled g) eqn:Hen; cbn [negb].
  2: { apply wp_bind, (wp_call options _ w0); [done|done| |].
       - intros w' o pre Hg' Hf' Hpre. cbn.
         destruct (at_framed _ _ _ _ Hat Hf') as (g' & Hl & He).
         pose proof (good_ginv _ _ _ _ _ Hg' Hl) as [Hgr _ _ _ _].
         pose proof He as (a & Heq & _)%ack_ext_shape.
         exists g'. assert (spec_Group (gs_Spec g) = group) as -> by by rewrite Heq in Hgr.
         split_and!; still He Heq.
       - intros w1 w' o Hg' Hf1 Hf2 _. destruct o; [done|].
         apply (moves_advance w0 group n g); [done|by eapply at_framed, framed_trans|done|].
         step st_enabled. }
  destruct (gs_TargetIngressVerified g) eqn:Hver; cbn [negb].
  2: { apply wp_bind, (wp_call options _ w0); [done|done|done|].
       intros w1 w2 status Hg2 Hf1 Hf2 _. destruct status as [status|e]; [|done].
       apply wp_bind, (wp_now options _ w0); [done|]. intros w3 t Hg3 Hf3 _.
       case_match; [done|]. apply (moves_advance w0 group n g); [done| |done|step st_verified].
       eapply at_framed; [exact Hat|]. by do 2 (eapply framed_trans; [done|]). }
  destruct (gs_ActivatePublished g) eqn:Hpub; cbn [negb].
  { destruct (allAcknowledged g PhaseActivate) eqn:Hack; [|done].
    apply (moves_complete w0 group n g); [done..|]. step_at st_complete. }
  apply wp_bind, (wp_call options _ w0); [done|done|done|].
  intros w1 w2 status Hg2 Hf1 Hf2 Ht2. destruct status as [status|e]; [|done].
  apply wp_bind, (wp_now options _ w0); [done|]. intros w3 t Hg3 Hf3 Ht3.
  destruct (fresh_status _ _ _ _) eqn:Hfresh; cbn [negb]; [|done].
  rewrite <- Hph. apply moves_publish_phase; rewrite ?Hph; try done.
  - eapply at_framed; [exact Hat|]. by do 2 (eapply framed_trans; [done|]).
  - by right; right; right.
  - intros _. split_and!; [done..|]. exists status, t. split; [|done].
    change [?x; ?y] with ([x] ++ [y]). eapply seen_snoc; [|exact Ht3].
    change [?x] with ([] ++ [x]). eapply seen_snoc; [|exact Ht2].
    eapply seen_framed; [eapply seen_nil; exact Hg|exact Hf1].
  - intros g' (a & i & mk & Heq) Hci. apply st_activated; by rewrite ?Heq in *.
Qed.

Lemma moves_reconcileRollback w0 group n g w :
  good w0 w -> at_group w group g -> (n <= progress g)%nat -> undoing g -> state_rank (gs_Phase g) < 4 ->
  moves w0 group n (reconcileRollback options env group g) w.
Proof.
  intros Hg Hat Hn Hun Hr. unfold reconcileRollback. fold (fence_touched g).
  destruct (fence_touched g && negb (gs_Unfenced g)) eqn:Hf.
  - apply andb_true_iff in Hf as [Hf1 Hf2%negb_true_iff].
    apply wp_bind, (wp_call options _ w0); [done|done| |].
    + intros w' o pre Hg' Hf' Hpre. cbn.
      destruct (at_framed _ _ _ _ Hat Hf') as (g' & Hl & He).
      pose proof (good_ginv _ _ _ _ _ Hg' Hl) as [Hgr _ _ _ _].
      pose proof He as (a & Heq & _)%ack_ext_shape.
      exists g'. assert (spec_Group (gs_Spec g) = group) as -> by by rewrite Heq in Hgr.
      split_and!; still He Heq.
    + intros w1 w' o Hg' Hfr1 Hfr2 _. destruct o; [done|].
      apply (moves_advance w0 group n g); [done|by eapply at_framed, framed_trans|done|].
      step st_unfenced.
  - assert (Hu : fence_touched g = true -> gs_Unfenced g = true).
    { intros Ht. rewrite Ht in Hf. by apply negb_false_iff. }
    destruct (gs_RollbackPublished g) eqn:Hpub; cbn [negb].
    { apply (moves_complete w0 group n g); [done..|]. step_at st_complete_rollback. }
    apply wp_bind, (wp_publish w0 group g); [done|done| |].
    + intros w' g' pre Hf' He Hi Hpre. pose proof He as (a & Heq & _)%ack_ext_shape.
      unfold justified. cbn [cu_Rollback control_update]. split_and!; still He Heq.
    + intros w' err Hg' Hf'. destruct err as [[]|e]; [|done].
      apply (moves_advance w0 group n g); [done|by eapply at_framed|done|]. step st_rolled_back.
Qed.

Lemma moves_reconcile_phase w0 group n g w :
  good w0 w -> at_group w group g -> (n <= progress g)%nat -> live g ->
  (gs_Phase g = PhaseActivate -> gs_CommitPublished g = true) ->
  moves w0 group n (reconcile_phase options env group g) w.
Proof.
  intros Hg Hat Hn Hlive Hcp. unfold reconcile_phase. destruct (gs_Phase g) eqn:Hph; [| | | | |done].
  - by apply moves_reconcile_prepare.
  - by apply moves_reconcile_pause.
  - by apply moves_reconcile_drain.
  - by apply moves_reconcile_commit.
  - apply moves_reconcile_activate; auto.
Qed.

Lemma moves_Reconcile w0 group n w :
  good w0 w ->
  (forall g, ps_Groups (w_mem w) !! group = Some g -> (n <= progress g)%nat) ->
  moves w0 group n (Reconcile options env group) w.
Proof.
  intros Hg Hn. unfold moves, Reconcile. apply wp_bind, (wp_groupState options _ w0); [done|].
  intros w1 Hg1 Hf1. destruct (ps_Groups (w_mem w1) !! group) as [g|] eqn:Hl; [|done].
  pose proof (good_ginv _ _ _ _ _ Hg1 Hl) as [_ _ Hfl _ _].
  assert (Hle : (n <= progress g)%nat).
  { destruct (ps_Groups (w_mem w) !! group) as [g0|] eqn:Hl0.
    - destruct (fr_groups _ _ Hf1 _ _ Hl0) as (g1 & Hl1 & He). simplify_eq.
      rewrite (progress_ext _ _ He). by apply Hn.
    - apply (fr_absent _ _ Hf1) in Hl0. congruence. }
  destruct (gs_Completed g) eqn:Hc; [done|].
  destruct (gs_RollingBack g) eqn:Hrb.
  { apply moves_reconcileRollback; [done|by apply at_self|done|done|].
    destruct (Z.lt_ge_cases (state_rank (gs_Phase g)) 4) as [|Hr]; [done|].
    apply (fo_r4 _ Hfl) in Hr as (_ & _ & ?). congruence. }
  assert (Hcp : gs_Phase g = PhaseActivate -> gs_CommitPublished g = true).
  { intros Hp. apply (fo_r5 _ Hfl). by rewrite Hp. }
  destruct (time_IsZero _); [by apply moves_reconcile_phase; [|apply at_self|..]|].
  apply wp_bind, (wp_now options _ w0); [done|]. intros w2 t Hg2 Hf2 _.
  destruct (_ && _); [done|]. apply moves_reconcile_phase; [done| |done|done|done].
  eapply at_framed; [by apply at_self|done].
Qed.

Lemma safe_Reconcile w0 group w : good w0 w -> safe w0 (Reconcile options env group) w.
Proof.
  intros Hg. destruct (moves_Reconcile w0 group 0 w Hg) as [? _]; [lia|]. done.
Qed.

Lemma safe_reconcile_list w0 groups w :
  good w0 w -> safe w0 (reconcile_list options env groups) w.
Proof.
  revert w. induction groups as [|group groups IH]; intros w Hg; [done|]. cbn [reconcile_list].
  apply wp_bind. pose proof (safe_Reconcile w0 group w Hg) as H1. unfold safe, wp in *.
  destruct (Reconcile options env group w) as [w1 o]. cbn in *.
  specialize (IH _ H1). unfold bind. destruct (reconcile_list options env groups w1). done.
Qed.

Lemma safe_ReconcileAll w0 w : good w0 w -> safe w0 (ReconcileAll options env) w.
Proof. intros Hg. unfold ReconcileAll. apply wp_bind. by apply safe_reconcile_list. Qed.

Lemma safe_Observe w0 sample w : good w0 w -> safe w0 (Observe options env sample) w.
Proof.
  intros Hg. unfold safe, Observe. apply wp_bind, (wp_groupState options _ w0); [done|].
  intros w1 Hg1 Hf1.
  destruct (ps_Groups (w_mem w1) !! tel_Group sample) as [g|] eqn:Hl; [|done].
  destruct (if str_empty _ then None else _) as [seen|] eqn:Hseen; [done|].
  destruct (observe_out_of_scope g sample) eqn:Hscope; [done|].
  apply wp_bind, (wp_now options _ w0); [done|]. intros w2 t Hg2 Hf2 _.
  destruct (time_After _ _); [done|].
  destruct (telemetrySourcesForSample _ _) as [sources aggregate] eqn:Hsrc.
  destruct (observe_rejected _ _ _ _) eqn:Hrej; [done|].
  eapply (wp_updateGroup options _ w0 _ g); [done| | |].
  { eapply at_framed; [apply at_self; exact Hl|exact Hf2]. }
  - intros g' He _. pose proof He as (a & Heq & _)%ack_ext_shape. right.
    pose proof Hscope as Hs. unfold observe_out_of_scope in Hs. to_prop.
    apply (st_observe options g' sample sources aggregate); rewrite ?Heq; try done.
    intros Hne. cbn. apply str_empty_false in Hne. by rewrite Hne in Hseen.
  - done.
Qed.

Lemma safe_RequestRollback w0 group proof w :
  good w0 w -> safe w0 (RequestRollback options env group proof) w.
Proof.
  intros Hg. unfold safe, RequestRollback. apply wp_bind, (wp_groupState options _ w0); [done|].
  intros w1 Hg1 Hf1. destruct (ps_Groups (w_mem w1) !! group) as [g|] eqn:Hl; [|done].
  destruct (bool_decide _ || _ || _ || _) eqn:Hcommit; [done|].
  destruct (negb _ || _ || _ || _) eqn:Hproof; [done|].
  destruct (gs_RollingBack g) eqn:Hrb; [done|]. to_prop.
  assert (Hlive : live g).
  { split; [|done]. destruct (gs_Completed g) eqn:Hc; [|done].
    pose proof (good_ginv _ _ _ _ _ Hg1 Hl) as [_ _ Hfl _ _].
    destruct (fo_complete _ Hfl Hc) as [_ Hx]. rewrite Hrb in Hx. congruence. }
  eapply (wp_updateGroup options _ w0 _ g); [done|by apply at_self| |done].
  step st_rollback.
Qed.

Lemma safe_install_group w0 raw s w :
  good w0 w -> spec_Validate raw = nil_err -> normalize_spec raw = Ok s -> admits s ->
  (forall w', framed w w' -> installs (w_mem w') s) -> safe w0 (install_group options env s) w.
Proof.
  intros Hg Hv Hn Had Hi. unfold safe, install_group. apply wp_bind, (wp_now options _ w0); [done|].
  intros w1 t Hg1 Hf1 _. cbv zeta. apply wp_bind, (wp_interfere options _ w0); [done|].
  intros w2 Hg2 Hf2. apply wp_bind, (wp_updateState options _ w0); [done| |done].
  intros next [= <-]. eapply ps_begin; [done..|]. apply Hi. by eapply framed_trans.
Qed.

Lemma installs_framed w w' s :
  framed w w' -> installs (w_mem w) s -> installs (w_mem w') s.
Proof.
  intros Hf Hi g' Hl'.
  destruct (ps_Groups (w_mem w) !! spec_Group s) as [g|] eqn:Hl.
  - destruct (fr_groups _ _ Hf _ _ Hl) as (g2 & Hl2 & He). simplify_eq.
    apply Hi in Hl. apply ack_ext_shape in He as (a & -> & _). exact Hl.
  - apply (fr_absent _ _ Hf) in Hl. congruence.
Qed.

(** The specification [Begin] would install is admitted. *)
Definition admissible (s : TransitionSpec) : Prop :=
  forall sp, normalize_spec (default_grace options s) = Ok sp -> admits sp.

Lemma safe_Begin w0 s w : good w0 w -> admissible s -> safe w0 (Begin options env s) w.
Proof.
  intros Hg Had. unfold safe, Begin. set (raw := default_grace options s).
  destruct (spec_Validate raw) as [[]|e] eqn:Hv; [|done].
  destruct (normalize_spec raw) as [sp|e] eqn:Hn; [|done].
  apply wp_bind, (wp_groupState options _ w0); [done|]. intros w1 Hg1 Hf1.
  assert (Hinst : installs (w_mem w1) sp -> safe w0 (install_group options env sp) w1).
  { intros Hi. eapply safe_install_group; [done|done|done|by apply Had|]. intros w' Hf'. by eapply installs_framed. }
  destruct (ps_Groups (w_mem w1) !! spec_Group sp) as [g|] eqn:Hl.
  - destruct (equalSpec _ _); [done|].
    destruct (canReplaceCompleted g sp) eqn:Hr; cbn [negb]; [|done].
    apply Hinst. intros g' Hl'. by simplify_eq.
  - apply Hinst. intros g' Hl'. congruence.
Qed.

Lemma safe_BeginSnapshot w0 m ps w :
  good w0 w -> (forall s, TransitionSpecFromSnapshot m ps = Ok s -> admissible s) ->
  safe w0 (BeginSnapshot options env m ps) w.
Proof.
  intros Hg Had. unfold BeginSnapshot. destruct (TransitionSpecFromSnapshot m ps); [|done].
  apply safe_Begin; auto.
Qed.
End Refine.
