(* ===== verification/ControllerTheorems.v ===== *)
(** * Correctness of the transition controller

    The theorems about whole runs: operations in any order, with any answers
    from brokers, publisher, clock and store, interleaved acknowledgements, and
    crashes with recovery from the document on disk. *)

From S2P Require Import Prelude Snapshot Messages ControllerTypes Controller ControllerOpen ControllerSnapshots ControllerSpec.
From S2P Require Import ControllerInv ControllerRecovery ControllerRun ControllerRefine.
From Stdlib Require Import ZArith Lia.
From stdpp Require Import base gmap strings sorting numbers option relations list.
#[local] Open Scope Z_scope.

(** The public operations. *)
Inductive Operation : Type :=
| OpBegin (s : TransitionSpec)
| OpBeginSnapshot (m : MembershipSnapshot) (participants : list string)
| OpAcknowledge (ack : Acknowledgement)
| OpObserve (sample : Telemetry)
| OpRequestRollback (group : string) (proof : RollbackProof)
| OpReconcile (group : string)
| OpReconcileAll
| OpSaveMembership (m : MembershipSnapshot).

Section Theorems.
Context {net_url : NetURL} {adm : Admission}.

Definition exec (options : Options) (env : Env) (op : Operation) (w : World) : World :=
  match op with
  | OpBegin s => fst (Begin options env s w)
  | OpBeginSnapshot m ps => fst (BeginSnapshot options env m ps w)
  | OpAcknowledge ack => fst (Acknowledge env ack w)
  | OpObserve sample => fst (Observe options env sample w)
  | OpRequestRollback group proof => fst (RequestRollback options env group proof w)
  | OpReconcile group => fst (Reconcile options env group w)
  | OpReconcileAll => fst (ReconcileAll options env w)
  | OpSaveMembership m => fst (SaveMembership env m w)
  end.

(** [Begin] is offered admitted specifications only. *)
Definition op_admissible (options : Options) (op : Operation) : Prop :=
  match op with
  | OpBegin s => admissible options s
  | OpBeginSnapshot m ps =>
      forall s, TransitionSpecFromSnapshot m ps = Ok s -> admissible options s
  | _ => True
  end.

Lemma exec_good options env op w :
  psinv options (w_mem w) -> op_admissible options op -> good options w (exec options env op w).
Proof.
  intros Hi Had. apply good_start in Hi as Hg. destruct op; cbn [exec op_admissible] in *.
  - by apply safe_Begin.
  - by apply safe_BeginSnapshot.
  - by apply (wp_Acknowledge options env w ack (fun _ w' => good options w w')).
  - by apply safe_Observe.
  - by apply safe_RequestRollback.
  - by apply safe_Reconcile.
  - by apply safe_ReconcileAll.
  - by apply (wp_SaveMembership options env w m (fun _ w' => good options w w')).
Qed.

(** C1: every operation of the controller moves its state by steps of the
    abstract transition protocol and nothing else, whatever the brokers, the
    publisher, the clock and the store answer and whatever acknowledgements
    and membership updates arrive in between. *)
Theorem controller_refines_protocol options env op w :
  psinv options (w_mem w) -> op_admissible options op ->
  rtc (pstep options) (w_mem w) (w_mem (exec options env op w)).
Proof. intros Hi Had. apply (exec_good options env op w Hi Had). Qed.

(** C2: every call the controller makes to the brokers or the publisher is
    justified by the state it had committed before the call and by the
    observations of the same operation: sources are fenced only after all
    PAUSE acknowledgements and a persisted attempt, unfenced only while
    rolling back before the commit point, target ingress is enabled only
    after COMMIT was published; and a control update is published only with
    its membership and command intent persisted, COMMIT and ACTIVE moreover
    only after a fresh verification by this very operation, a rollback only
    with the source fence undone. *)
Theorem external_calls_justified options env op w pre e post :
  psinv options (w_mem w) -> op_admissible options op ->
  w_trace (exec options env op w) = w_trace w ++ pre ++ e :: post ->
  event_ok options (mem_after (w_mem w) pre) pre e.
Proof.
  intros Hi Had Ht. destruct (exec_good options env op w Hi Had) as [_ _ (tr & Htr & _ & Hok) _].
  rewrite Htr in Ht. apply app_inv_head in Ht. by eapply Hok.
Qed.

(** C5: [Reconcile] makes bounded progress: whenever it reports a change it has
    durably established a further fact of the transition, of which there are
    at most [max_progress]; so it can report a change only that often. *)
Theorem reconcile_progress options env group w w' :
  psinv options (w_mem w) -> Reconcile options env group w = (w', (true, nil_err)) ->
  exists g g', ps_Groups (w_mem w) !! group = Some g /\
    ps_Groups (w_mem w') !! group = Some g' /\
    (progress g < progress g' <= max_progress)%nat.
Proof.
  intros Hi Hr. apply good_start in Hi as Hg.
  set (n := match ps_Groups (w_mem w) !! group with
            | Some g => progress g | None => max_progress end).
  assert (Hn : forall g, ps_Groups (w_mem w) !! group = Some g -> (n <= progress g)%nat).
  { intros g Hl. unfold n. by rewrite Hl. }
  pose proof (moves_Reconcile options env w group n w Hg Hn) as Hm. unfold moves, wp in Hm.
  rewrite Hr in Hm. destruct Hm as [_ Hadv]. destruct (Hadv eq_refl) as (g' & Hl' & Hlt).
  cbn in Hl'. pose proof (progress_bound g').
  destruct (ps_Groups (w_mem w) !! group) as [g|] eqn:Hl; unfold n in Hlt; [|lia].
  exists g, g'. split_and!; [done|done|lia|done].
Qed.

(** ** Membership *)
Lemma pstep_membership options s s' group m :
  pstep options s s' -> ps_Membership s !! group = Some m ->
  exists m', ps_Membership s' !! group = Some m' /\ ms_Epoch m <= ms_Epoch m' /\
    (m' = m \/ ms_Revision m < ms_Revision m').
Proof.
  intros Hs Hm. destruct Hs as
    [k g g' s' _ _ (mark & ev & hist & -> & _)%group_update_ok|ack s' Ha|x s' _ Hx|raw sp t _ _ _ _].
  - exists m. split_and!; [done|lia|by left].
  - unfold ack_update in Ha. destruct (ps_Groups s !! _); [|done].
    destruct (ack_group ack g); [|done]. simplify_eq. exists m. split_and!; [done|lia|by left].
  - apply membership_update_ok in Hx as [-> Hx]. cbn.
    destruct (decide (group = ms_ScalingGroup x)) as [->|].
    + rewrite lookup_insert_eq. apply Hx in Hm as [? ?].
      exists x. split_and!; [done|lia|by right].
    + rewrite lookup_insert_ne by done. exists m. split_and!; [done|lia|by left].
  - exists m. split_and!; [done|lia|by left].
Qed.

Lemma psteps_membership options s s' group m :
  rtc (pstep options) s s' -> ps_Membership s !! group = Some m ->
  exists m', ps_Membership s' !! group = Some m' /\ ms_Epoch m <= ms_Epoch m' /\
    (m' = m \/ ms_Revision m < ms_Revision m').
Proof.
  intros Hsteps. revert m. induction Hsteps as [s|s1 s2 s3 Hs _ IH]; intros m Hm.
  { exists m. split_and!; [done|lia|by left]. }
  destruct (pstep_membership options _ _ _ _ Hs Hm) as (m2 & Hm2 & He2 & Hr2).
  destruct (IH m2 Hm2) as (m3 & Hm3 & He3 & Hr3). exists m3. split_and!; [done|lia|].
  destruct Hr2 as [->|Hr2], Hr3 as [->|Hr3]; auto. right. lia.
Qed.

(** The authoritative membership of a group never goes backwards: no
    operation forgets it or lowers its epoch, and it changes only to a
    strictly greater revision. *)
Theorem membership_monotone options env op w group m :
  psinv options (w_mem w) -> op_admissible options op ->
  ps_Membership (w_mem w) !! group = Some m ->
  exists m', ps_Membership (w_mem (exec options env op w)) !! group = Some m' /\
    ms_Epoch m <= ms_Epoch m' /\ (m' = m \/ ms_Revision m < ms_Revision m').
Proof.
  intros Hi Had Hm. destruct (exec_good options env op w Hi Had) as [_ Hsteps _ _].
  by eapply psteps_membership.
Qed.
End Theorems.

(** ** Runs with crashes *)
Section Runs.
Context {net_url : NetURL} (raw : Options).
Abbreviation options := (withDefaults raw).

(** The specifications a caller may offer: fields in range, and requirements
    for COMMIT absent or nonempty. *)
#[local] Instance standard : Admission := fun s => spec_u64 s /\ commit_requirements_ok s.

(** One operation, or a crash followed by [Open] on the document on disk, whose
    text is UTF-8. *)
Inductive wstep (w : World) : World -> Prop :=
| ws_op env op : op_admissible options op -> wstep w (exec options env op w)
| ws_restart now s tick :
    text_kept (w_disk w) ->
    Open raw now (JSONStore_Load (Some (JSONStore_Save (w_disk w)))) = Ok s ->
    wstep w (mkWorld tick s (w_disk w) []).

Definition start_world : World := mkWorld 0 empty_state empty_state [].
Definition reachable (w : World) : Prop := rtc wstep start_world w.

(** *** The order of a group's states *)
Definition same_transition (s s' : TransitionSpec) : Prop :=
  s' = s <| spec_DrainGrace := spec_DrainGrace s' |>.

(** The epoch the group has reached. *)
Definition reached_epoch (g : GroupState) : Z :=
  if 4 <=? state_rank (gs_Phase g) then spec_ToEpoch (gs_Spec g) else spec_FromEpoch (gs_Spec g).

Definition fwd (g g' : GroupState) : Prop :=
  (same_transition (gs_Spec g) (gs_Spec g') /\
   state_rank (gs_Phase g) <= state_rank (gs_Phase g')) \/
  reached_epoch g <= spec_FromEpoch (gs_Spec g').

Definition epochs_ok (g : GroupState) : Prop :=
  spec_FromEpoch (gs_Spec g) <= spec_ToEpoch (gs_Spec g).

Lemma same_transition_refl s : same_transition s s.
Proof. unfold same_transition. by destruct s. Qed.

Lemma same_transition_epochs s s' :
  same_transition s s' -> spec_FromEpoch s' = spec_FromEpoch s /\ spec_ToEpoch s' = spec_ToEpoch s.
Proof. unfold same_transition. intros Heq. rewrite Heq. done. Qed.

Lemma reached_epoch_from g : epochs_ok g -> spec_FromEpoch (gs_Spec g) <= reached_epoch g.
Proof. unfold reached_epoch, epochs_ok. case_match; lia. Qed.

Lemma fwd_refl g : fwd g g.
Proof. left. split; [apply same_transition_refl|lia]. Qed.

Lemma reached_epoch_mono g g' :
  epochs_ok g -> same_transition (gs_Spec g) (gs_Spec g') ->
  state_rank (gs_Phase g) <= state_rank (gs_Phase g') -> reached_epoch g <= reached_epoch g'.
Proof.
  unfold reached_epoch, epochs_ok. intros He [H1 H2]%same_transition_epochs Hr.
  rewrite H1, H2. repeat case_match; to_prop; lia.
Qed.

Lemma fwd_trans g1 g2 g3 : epochs_ok g1 -> epochs_ok g2 -> fwd g1 g2 -> fwd g2 g3 -> fwd g1 g3.
Proof.
  intros E1 E2 [[S12 R12]|F12] [[S23 R23]|F23].
  - left. split; [|lia]. unfold same_transition in *. rewrite S23, S12.
    by destruct (gs_Spec g1).
  - right. pose proof (reached_epoch_mono _ _ E1 S12 R12). lia.
  - right. apply same_transition_epochs in S23 as [-> _]. done.
  - right. pose proof (reached_epoch_from _ E2). lia.
Qed.

(** *** The invariant of a run *)
Definition admitted (s : PersistentState) : Prop :=
  forall k g, ps_Groups s !! k = Some g -> standard (gs_Spec g).

Definition fwd_all (s s' : PersistentState) : Prop :=
  forall k g, ps_Groups s !! k = Some g ->
    exists g', ps_Groups s' !! k = Some g' /\ fwd g g'.

Lemma standard_epochs group g : ginv group g -> standard (gs_Spec g) -> epochs_ok g.
Proof.
  intros [_ [Hv _ _] _ _ _] [Hu _]. unfold epochs_ok.
  rewrite (ToEpoch_eq _ Hu (spec_Validate_parts _ Hv)). lia.
Qed.

Lemma gmove_spec g g' : gmove options g g' -> gs_Spec g' = gs_Spec g.
Proof.
  intros [Hs|Ho]; [by eapply gstep_spec|]. destruct Ho.
  by destruct (observe_group_frame options sample sources g) as (? & ? & ? & ? & ? & ->).
Qed.

Lemma gmove_rank g g' :
  gmove options g g' -> state_rank (gs_Phase g) <= state_rank (gs_Phase g').
Proof.
  intros [Hs|Ho].
  - destruct Hs; cbn; try lia; rewrite H0; cbn; lia.
  - destruct Ho.
    destruct (observe_group_frame options sample sources g) as (? & ? & ? & ? & ? & ->).
    cbn. lia.
Qed.

(** A transition is replaced only by one that continues from where it ended. *)
Lemma replace_epoch group g sp :
  ginv group g -> canReplaceCompleted g sp = true -> reached_epoch g = spec_FromEpoch sp.
Proof.
  intros [_ _ Hf _ _]. unfold canReplaceCompleted.
  destruct (negb (gs_Completed g) || _) eqn:E; [done|]. to_prop.
  match goal with H : gs_Completed g = true |- _ =>
    destruct (fo_complete _ Hf H) as [_ Hc] end.
  unfold reached_epoch. destruct (gs_RollingBack g) eqn:Hrb; intros Hr; to_prop.
  - destruct (Z.leb_spec 4 (state_rank (gs_Phase g))) as [Hle|]; [|done].
    apply (fo_r4 _ Hf) in Hle as (_ & _ & ?). congruence.
  - assert (5 <= state_rank (gs_Phase g)) as Hle.
    { apply (fo_enabled _ Hf), (fo_verified _ Hf), (fo_activate _ Hf), Hc. }
    rewrite (proj2 (Z.leb_le _ _)) by lia. done.
Qed.

Lemma pstep_admitted s s' : pstep options s s' -> admitted s -> admitted s'.
Proof.
  intros Hs Ha. destruct Hs as
    [k g g' s' Hl Hm (mark & ev & hist & -> & _)%group_update_ok|ack s' Hack|x s' _ Hx|
     rw sp t _ _ Had _].
  - intros j y. cbn. intros [[<- <-]|[_ ?]]%lookup_insert_Some; [|by eapply Ha].
    cbn. rewrite (gmove_spec _ _ Hm). by eapply Ha.
  - unfold ack_update in Hack. destruct (ps_Groups s !! _) as [g|] eqn:Hl; [|done].
    destruct (ack_group ack g) as [g1|] eqn:Hg; [|done]. simplify_eq.
    intros j y. cbn. intros [[<- <-]|[_ ?]]%lookup_insert_Some; [|by eapply Ha].
    apply ack_group_ok in Hg as (_ & _ & _ & _ & ->). by eapply (Ha _ g).
  - by apply membership_update_ok in Hx as [-> _].
  - intros j y. cbn. by intros [[<- <-]|[_ ?]]%lookup_insert_Some; [|eapply Ha].
Qed.

Lemma pstep_fwd s s' : psinv options s -> pstep options s s' -> fwd_all s s'.
Proof.
  intros Hi Hs. destruct Hs as
    [k g g' s' Hl Hm (mark & ev & hist & -> & _)%group_update_ok|ack s' Hack|x s' _ Hx|
     rw sp t _ _ Had Hin]; intros j y Hy; cbn.
  - destruct (decide (j = k)) as [->|].
    + rewrite lookup_insert_eq. simplify_eq. eexists. split; [done|]. left. cbn.
      split; [|by apply gmove_rank]. rewrite (gmove_spec _ _ Hm).
      apply same_transition_refl.
    + rewrite lookup_insert_ne by done. exists y. split; [done|apply fwd_refl].
  - unfold ack_update in Hack. destruct (ps_Groups s !! _) as [g|] eqn:Hl; [|done].
    destruct (ack_group ack g) as [g1|] eqn:Hg; [|done]. simplify_eq. cbn.
    destruct (decide (j = ack_Group ack)) as [->|].
    + rewrite lookup_insert_eq. simplify_eq. eexists. split; [done|].
      apply ack_group_ok in Hg as (_ & _ & _ & _ & ->).
      left. split; [apply same_transition_refl|cbn; lia].
    + rewrite lookup_insert_ne by done. exists y. split; [done|apply fwd_refl].
  - apply membership_update_ok in Hx as [-> _]. exists y. split; [done|apply fwd_refl].
  - destruct (decide (j = spec_Group sp)) as [->|].
    + rewrite lookup_insert_eq. eexists. split; [done|]. right. cbn.
      rewrite (replace_epoch (spec_Group sp) y sp); [lia|by eapply pi_groups|by apply Hin].
    + rewrite lookup_insert_ne by done. exists y. split; [done|apply fwd_refl].
Qed.

Lemma fwd_all_trans s1 s2 s3 :
  psinv options s1 -> admitted s1 -> psinv options s2 -> admitted s2 ->
  fwd_all s1 s2 -> fwd_all s2 s3 -> fwd_all s1 s3.
Proof.
  intros P1 A1 P2 A2 F12 F23 k g1 H1. destruct (F12 _ _ H1) as (g2 & H2 & Hf2).
  destruct (F23 _ _ H2) as (g3 & H3 & Hf3). exists g3. split; [done|].
  eapply fwd_trans; [| |done|done].
  - exact (standard_epochs k g1 (pi_groups _ _ P1 _ _ H1) (A1 _ _ H1)).
  - exact (standard_epochs k g2 (pi_groups _ _ P2 _ _ H2) (A2 _ _ H2)).
Qed.

Lemma psteps_run s s' :
  rtc (pstep options) s s' -> psinv options s -> admitted s ->
  psinv options s' /\ admitted s' /\ fwd_all s s'.
Proof.
  induction 1 as [s|s1 s2 s3 H12 _ IH]; intros Hi Ha.
  { split_and!; [done..|]. intros k g Hg. exists g. split; [done|apply fwd_refl]. }
  pose proof (pstep_inv _ _ _ H12 Hi) as Hi2. pose proof (pstep_admitted _ _ H12 Ha) as Ha2.
  destruct (IH Hi2 Ha2) as (Hi3 & Ha3 & Hf3). split_and!; [done..|].
  eapply (fwd_all_trans s1 s2); try done. by apply pstep_fwd.
Qed.

Record winv (w : World) : Prop := {
  wi_mem : psinv options (w_mem w);
  wi_disk : psinv options (w_disk w);
  wi_mem_adm : admitted (w_mem w);
  wi_disk_adm : admitted (w_disk w);
  wi_behind : fwd_all (w_mem w) (w_disk w);
}.

Lemma wstep_inv w w' : wstep w w' -> winv w -> winv w' /\ fwd_all (w_mem w) (w_mem w').
Proof.
  intros Hs [M D AM AD B]. destruct Hs as [env op Had|now s tick Htext Hopen].
  - destruct (exec_good options env op w M Had) as [_ Hsteps _ Hdisk].
    destruct (psteps_run _ _ Hsteps M AM) as (M' & AM' & F'). split; [|done].
    destruct Hdisk as [[Hd Hmem]|[Heq|Hp]].
    + constructor; rewrite ?Hd; try done. by rewrite Hmem.
    + constructor; rewrite ?Heq; try done. intros k g Hg. exists g. split; [done|apply fwd_refl].
    + constructor; try done; [by eapply pstep_inv|by eapply pstep_admitted|by apply pstep_fwd].
  - destruct (open_state_ok raw now (w_disk w) D Htext) as (s' & Hs' & P' & R').
    { intros k g Hg. by apply AD in Hg as [_ ?]. }
    rewrite Hopen in Hs'. injection Hs' as <-. destruct R' as [_ _ _ _ R1 R2].
    assert (Hback : forall k g', ps_Groups s !! k = Some g' ->
              exists g, ps_Groups (w_disk w) !! k = Some g /\ recovers g g').
    { intros k g' Hg'. destruct (R2 _ _ Hg') as [g Hg]. destruct (R1 _ _ Hg) as (x & Hx & ?).
      simplify_eq. by exists g. }
    assert (Hrank : forall g g', recovers g g' -> gs_Phase g' = gs_Phase g /\
      gs_Spec g' = gs_Spec g <| spec_DrainGrace := spec_DrainGrace (gs_Spec g') |>).
    { intros g g' Hr. unfold recovers in Hr. by destruct_and! Hr. }
    split; [constructor; cbn; try done|].
    + intros k g' Hg'. destruct (Hback _ _ Hg') as (g & Hg & Hr). apply Hrank in Hr as [_ ->].
      by apply (AD k g).
    + intros k g' Hg'. destruct (Hback _ _ Hg') as (g & Hg & Hr). exists g. split; [done|].
      left. apply Hrank in Hr as [-> Hsp]. split; [|lia]. unfold same_transition.
      rewrite Hsp. by destruct (gs_Spec g).
    + cbn. eapply (fwd_all_trans _ (w_disk w)); try done.
      intros k g Hg. destruct (R1 _ _ Hg) as (g' & Hg' & Hr). exists g'. split; [done|].
      left. apply Hrank in Hr as [-> Hsp]. split; [done|lia].
Qed.

Lemma winv_start : winv start_world.
Proof.
  constructor; cbn; try apply psinv_empty; intros k g H; cbn in H; by rewrite lookup_empty in H.
Qed.

Lemma wsteps_inv w w' : rtc wstep w w' -> winv w -> winv w' /\ fwd_all (w_mem w) (w_mem w').
Proof.
  induction 1 as [w|w1 w2 w3 H12 _ IH]; intros Hi.
  { split; [done|]. intros k g Hg. exists g. split; [done|apply fwd_refl]. }
  destruct (wstep_inv _ _ H12 Hi) as [Hi2 Hf2]. destruct (IH Hi2) as [Hi3 Hf3].
  split; [done|]. destruct Hi, Hi2. by eapply (fwd_all_trans _ (w_mem w2)).
Qed.


(** C4: the point of no return.  Once a group has entered COMMIT, then in
    every later state, also after crashes that leave a document of UTF-8 text,
    the same transition is still
    moving forward and not rolling back, or it completed and was succeeded by
    one that starts at or beyond its target epoch. *)
Theorem commit_irrevocable w w' group g :
  reachable w -> rtc wstep w w' ->
  ps_Groups (w_mem w) !! group = Some g ->
  gs_Phase g = PhaseCommit \/ gs_Phase g = PhaseActivate ->
  exists g', ps_Groups (w_mem w') !! group = Some g' /\
    (same_transition (gs_Spec g) (gs_Spec g') /\ gs_RollingBack g' = false /\
     (gs_Phase g' = PhaseCommit \/ gs_Phase g' = PhaseActivate) \/
     spec_ToEpoch (gs_Spec g) <= spec_FromEpoch (gs_Spec g')).
Proof.
  intros Hr Hsteps Hg Hph. destruct (wsteps_inv _ _ Hr winv_start) as [Hi _].
  destruct (wsteps_inv _ _ Hsteps Hi) as [Hi' Hf].
  assert (Hrank : 4 <= state_rank (gs_Phase g)) by (destruct Hph as [-> | ->]; cbn; lia).
  destruct (Hf _ _ Hg) as (g' & Hg' & [[Hs Hle]|He]); exists g'; (split; [done|]).
  - left. split; [done|]. pose proof (pi_groups _ _ (wi_mem _ Hi') _ _ Hg') as [_ _ Hfl _ _].
    split; [apply (fo_r4 _ Hfl); lia|]. destruct (gs_Phase g'); cbn in Hle; auto; lia.
  - right. unfold reached_epoch in He. by rewrite (proj2 (Z.leb_le _ _) Hrank) in He.
Qed.
End Runs.

(** ** What a completed drain means

    [drainComplete] folds over the required sources with running extrema; here
    it is characterised source by source.  The zero interval it measures is an
    unbroken run of known-zero samples. *)

Section Drain.
Context (options : Options).

(** A source's latest sample, at zero, observed in this phase and fresh. *)
Definition source_drained (g : GroupState) (now : Time) (src : telemetrySource)
    (t : Telemetry) (z : Time) : Prop :=
  gs_LatestTelemetryBySource g !! ts_key src = Some t /\
  gs_ZeroSinceBySource g !! ts_key src = Some z /\
  isKnownZero t = true /\ gs_PhaseEnteredAt g <= tel_ObservedAt t <= now /\
  time_Sub now (tel_ObservedAt t) <= telemetryFreshness options (spec_Group (gs_Spec g)).

Lemma drain_loop_step g now z o src rest :
  (exists t zs, source_drained g now src t zs /\
     drain_loop options g now z o (src :: rest) =
     drain_loop options g now (Z.max zs z)
       (if (o =? 0) || (tel_ObservedAt t <? o) then tel_ObservedAt t else o) rest) \/
  (drain_loop options g now z o (src :: rest) = None /\
   forall t zs, ~ source_drained g now src t zs).
Proof.
  cbn [drain_loop]. unfold source_drained.
  destruct (gs_LatestTelemetryBySource g !! ts_key src) as [t|]; [|right; naive_solver].
  destruct (gs_ZeroSinceBySource g !! ts_key src) as [zs|]; [|right; naive_solver].
  destruct (negb (isKnownZero t) || _ || _ || _) eqn:E.
  - right. split; [done|]. intros t' zs' (Ht & Hz & Hk & [H1 H2] & H3). simplify_eq.
    rewrite Hk in E. unfold time_Before, time_After in E. cbn in E.
    rewrite !orb_true_iff, !Z.ltb_lt in E. lia.
  - left. exists t, zs. unfold time_Before, time_After in *. to_prop. split.
    { split_and!; done || lia. }
    unfold time_IsZero. f_equal. destruct (Z.ltb_spec z zs); lia.
Qed.

(** The loop succeeds exactly on drained sources, with the extrema. *)
Lemma drain_loop_some g now l z0 o0 z o :
  (forall k t, gs_LatestTelemetryBySource g !! k = Some t -> tel_ObservedAt t <> 0) ->
  drain_loop options g now z0 o0 l = Some (z, o) ->
  (forall src, src ∈ l -> exists t zs, source_drained g now src t zs /\
     zs <= z /\ o <= tel_ObservedAt t) /\ z0 <= z /\ (o0 <> 0 -> o <= o0) /\
  (z = z0 \/ exists src t, src ∈ l /\ source_drained g now src t z) /\
  (o = o0 /\ (l = [] \/ o0 <> 0) \/
   exists src t zs, src ∈ l /\ source_drained g now src t zs /\ tel_ObservedAt t = o).
Proof.
  intros Hnz. revert z0 o0. induction l as [|src l IH]; intros z0 o0 H.
  { cbn in H. simplify_eq. split_and!; [by intros ? ?%elem_of_nil|lia|lia|by left|auto]. }
  destruct (drain_loop_step g now z0 o0 src l) as [(t & zs & Hd & Heq)|[Heq _]];
    [|congruence]. rewrite Heq in H. clear Heq.
  pose proof Hd as (Ht & _). pose proof (Hnz _ _ Ht) as Hne.
  apply IH in H as (Hall & Hz & Ho & Hzc & Hoc).
  set (o1 := if (o0 =? 0) || (tel_ObservedAt t <? o0) then tel_ObservedAt t else o0) in *.
  assert (Ho1 : o1 <> 0 /\ o1 <= tel_ObservedAt t /\ (o0 <> 0 -> o1 <= o0) /\
    (o1 = tel_ObservedAt t \/ o1 = o0 /\ o0 <> 0)).
  { subst o1. destruct (Z.eqb_spec o0 0); cbn; [lia|].
    destruct (Z.ltb_spec (tel_ObservedAt t) o0); lia. }
  destruct Ho1 as (N1 & L1 & L2 & C1). specialize (Ho N1). split_and!.
  - intros x [->|Hx]%elem_of_cons; [|by apply Hall]. exists t, zs. split; [done|]. lia.
  - lia.
  - intros N0. specialize (L2 N0). lia.
  - destruct Hzc as [->|(x & tx & Hx & Hdx)].
    + destruct (Z.max_spec zs z0) as [[_ ->]|[_ ->]]; [by left|].
      right. exists src, t. split; [left|done].
    + right. exists x, tx. split; [by right|done].
  - destruct Hoc as [[-> _]|(x & tx & zx & Hx & Hdx & <-)].
    + destruct C1 as [->|[-> ?]]; [|left; auto].
      right. exists src, t, zs. split_and!; [left|done|done].
    + right. exists x, tx, zx. split_and!; [by right|done|done].
Qed.

Lemma drain_loop_total g now l z0 o0 :
  (forall src, src ∈ l -> exists t zs, source_drained g now src t zs) ->
  exists z o, drain_loop options g now z0 o0 l = Some (z, o).
Proof.
  revert z0 o0. induction l as [|src l IH]; intros z0 o0 Hall; [by do 2 eexists|].
  destruct (drain_loop_step g now z0 o0 src l) as [(t & zs & Hd & ->)|[_ Hno]].
  - apply IH. intros x Hx. apply Hall. by right.
  - destruct (Hall src) as (t & zs & Hd); [left|]. by destruct (Hno t zs).
Qed.

Lemma source_drained_fun g now src t t' z z' :
  source_drained g now src t z -> source_drained g now src t' z' -> t = t' /\ z = z'.
Proof. intros (H1 & H2 & _) (H3 & H4 & _). by simplify_eq. Qed.

(** A drain with known sources is complete exactly when every required
    source has a fresh known-zero sample of this phase and all sources share
    one zero window of at least the drain grace: from the start of any
    source's zero interval, and from the start of the phase, to any source's
    latest sample.  One non-zero, unknown, stale or missing source suffices
    to hold the transition back. *)
Theorem drain_common_window `{NetURL} group g now :
  ginv group g -> requiredTelemetrySources (gs_Spec g) <> [] ->
  drainComplete options g now = true <->
  forall a b, a ∈ requiredTelemetrySources (gs_Spec g) ->
    b ∈ requiredTelemetrySources (gs_Spec g) ->
    exists ta za tb zb, source_drained g now a ta za /\ source_drained g now b tb zb /\
      spec_DrainGrace (gs_Spec g) <= time_Sub (tel_ObservedAt ta) zb /\
      spec_DrainGrace (gs_Spec g) <= time_Sub (tel_ObservedAt ta) (gs_PhaseEnteredAt g).
Proof.
  intros [_ _ _ _ [_ _ _ _ Hnz]] Hne. unfold drainComplete.
  destruct (requiredTelemetrySources (gs_Spec g)) as [|s0 l0] eqn:Ereq; [done|].
  rewrite <- Ereq in *. set (l := requiredTelemetrySources (gs_Spec g)) in *.
  assert (Hs0 : s0 ∈ l) by (rewrite Ereq; left). split.
  - destruct (drain_loop _ _ _ _ _ _) as [[z o]|] eqn:E; [|done]. intros Hgr%Z.leb_le.
    apply drain_loop_some in E as (Hall & Hz & _); [|done].
    intros a b Ha Hb. destruct (Hall a Ha) as (ta & za & Hda & _ & Hoa).
    destruct (Hall b Hb) as (tb & zb & Hdb & Hzb & _).
    exists ta, za, tb, zb. unfold time_Sub, clamp_i64 in *. split_and!; [done..| |]; lia.
  - intros Hall. destruct (drain_loop_total g now l (gs_PhaseEnteredAt g) zeroTime) as (z & o & E).
    { intros src Hin. destruct (Hall src src Hin Hin) as (t & zs & _ & _ & Hd & _). by exists t, zs. }
    rewrite E. apply Z.leb_le. apply drain_loop_some in E as (_ & _ & _ & Hz & Ho); [|done].
    destruct Ho as [[_ [?|?]]|(a & ta & za & Ha & Hda & <-)]; [by rewrite Ereq in *|done|].
    destruct Hz as [->|(b & tb & Hb & Hdb)].
    + destruct (Hall a s0 Ha Hs0) as (ta' & za' & _ & _ & Hda' & _ & _ & Hg).
      by destruct (source_drained_fun _ _ _ _ _ _ _ Hda Hda') as [-> _].
    + destruct (Hall a b Ha Hb) as (ta' & za' & tb' & zb' & Hda' & Hdb' & Hg & _).
      destruct (source_drained_fun _ _ _ _ _ _ _ Hda Hda') as [-> _].
      by destruct (source_drained_fun _ _ _ _ _ _ _ Hdb Hdb') as [_ ->].
Qed.
End Drain.

(** ** Zero intervals *)
Section ZeroInterval.
Context (options : Options).

(** Known-zero samples, each within the freshness of the one before. *)
Fixpoint unbroken (prev : Telemetry) (run : list Telemetry) : Prop :=
  match run with
  | [] => True
  | s :: rest =>
      isKnownZero s = true /\
      time_Sub (tel_ObservedAt s) (tel_ObservedAt prev) <= telemetryFreshness options (tel_Group s) /\
      unbroken s rest
  end.

Definition zero_run (z : Time) (run : list Telemetry) : Prop :=
  exists s rest, run = s :: rest /\ tel_ObservedAt s = z /\ isKnownZero s = true /\ unbroken s rest.

(** The accepted samples of a phase with the sources each speaks for. *)
Abbreviation history := (list (Telemetry * list telemetrySource)) (only parsing).

Definition replay_telemetry (g : GroupState) (h : history) : GroupState :=
  foldl (fun g '(sample, sources) => observe_group options sample sources g) g h.

(** The samples that speak for one source. *)
Definition samples_for (key : string) (h : history) : list Telemetry :=
  (filter (fun x => key ∈ ts_key <$> x.2) h).*1.

Lemma unbroken_snoc p run s :
  unbroken p run -> isKnownZero s = true ->
  time_Sub (tel_ObservedAt s) (tel_ObservedAt (default p (last run))) <=
    telemetryFreshness options (tel_Group s) ->
  unbroken p (run ++ [s]).
Proof.
  revert p. induction run as [|x run IH]; intros p Hu Hk Hgap; [done|].
  destruct Hu as (H1 & H2 & H3). cbn. split_and!; [done..|]. apply IH; try done.
  rewrite last_cons in Hgap. by destruct (last run).
Qed.

Lemma zero_run_snoc z run p s :
  zero_run z run -> last run = Some p -> isKnownZero s = true ->
  time_Sub (tel_ObservedAt s) (tel_ObservedAt p) <= telemetryFreshness options (tel_Group s) ->
  zero_run z (run ++ [s]).
Proof.
  intros (x & rest & -> & Hz & Hk & Hu) Hl Hs Hgap. exists x, (rest ++ [s]).
  split_and!; [done..|]. apply unbroken_snoc; try done.
  rewrite last_cons in Hl. destruct (last rest); by simplify_eq.
Qed.

(** Two samples with the same payload for drain purposes. *)
Definition same_reading (p s : Telemetry) : Prop :=
  tel_ObservedAt p = tel_ObservedAt s /\ isKnownZero p = isKnownZero s.

Lemma observe_sources_key sample sources g key :
  let g' := foldl (observe_source options sample) g sources in
  (key ∉ ts_key <$> sources ->
     gs_LatestTelemetryBySource g' !! key = gs_LatestTelemetryBySource g !! key /\
     gs_ZeroSinceBySource g' !! key = gs_ZeroSinceBySource g !! key) /\
  (key ∈ ts_key <$> sources ->
     (exists p, gs_LatestTelemetryBySource g' !! key = Some p /\ same_reading p sample) /\
     forall z, gs_ZeroSinceBySource g' !! key = Some z ->
       isKnownZero sample = true /\
       (z = tel_ObservedAt sample \/
        gs_ZeroSinceBySource g !! key = Some z /\
        exists p, gs_LatestTelemetryBySource g !! key = Some p /\ isKnownZero p = true /\
          time_Sub (tel_ObservedAt sample) (tel_ObservedAt p) <=
            telemetryFreshness options (tel_Group sample))).
Proof.
  induction sources as [|src sources IH] using rev_ind; cbn; [set_solver|].
  rewrite foldl_app, fmap_app. cbn. destruct IH as [IHout IHin].
  set (g1 := foldl (observe_source options sample) g sources) in *. split.
  - intros Hni. rewrite elem_of_app, list_elem_of_singleton in Hni.
    assert (key <> ts_key src) by naive_solver. destruct IHout as [<- <-]; [naive_solver|].
    rewrite lookup_insert_ne by done. split; [done|].
    repeat case_match; rewrite ?lookup_delete_ne, ?lookup_insert_ne by done; done.
  - rewrite elem_of_app, list_elem_of_singleton. intros Hin.
    destruct (decide (key = ts_key src)) as [->|Hne].
    + split; [eexists; rewrite lookup_insert_eq; split; [done|by split]|].
      intros z. destruct (isKnownZero sample) eqn:Hk; cbn; [|by rewrite lookup_delete_eq].
      case_match eqn:Hprev.
      * rewrite lookup_insert_eq. intros [= <-]. auto.
      * intros Hz. split; [done|]. destruct (gs_LatestTelemetryBySource g1 !! _) as [p|] eqn:Hp;
          [|done]. to_prop.
        destruct (decide (ts_key src ∈ ts_key <$> sources)) as [Hin'|Hout].
        -- destruct (IHin Hin') as [_ Hz']. destruct (Hz' _ Hz) as [_ ?]. done.
        -- destruct (IHout Hout) as [H1 H2]. rewrite H1 in Hp. rewrite H2 in Hz.
           right. split; [done|]. by exists p.
    + destruct IHin as [(p & Hp & Hr) Hz]; [naive_solver|].
      rewrite lookup_insert_ne by done. split; [by exists p|]. intros z Hz'. apply Hz.
      revert Hz'. repeat case_match; rewrite ?lookup_delete_ne, ?lookup_insert_ne by done; done.
Qed.

Lemma observe_group_maps sample sources g :
  let g' := observe_group options sample sources g in
  let g1 := foldl (observe_source options sample) g sources in
  gs_LatestTelemetryBySource g' = gs_LatestTelemetryBySource g1 /\
  gs_ZeroSinceBySource g' = gs_ZeroSinceBySource g1.
Proof. unfold observe_group. cbn. by destruct (str_empty _). Qed.

Lemma samples_for_snoc key h sample sources :
  samples_for key (h ++ [(sample, sources)]) =
  samples_for key h ++ (if bool_decide (key ∈ ts_key <$> sources) then [sample] else []).
Proof.
  unfold samples_for. rewrite list.filter_app, fmap_app. f_equal.
  case_bool_decide; [by rewrite list.filter_cons_True|by rewrite list.filter_cons_False].
Qed.

(** The zero interval of a source never spans a non-zero, unknown or late
    observation.  Whatever samples were recorded since the phase began, if
    the source has a zero interval starting at [z], then its most recent
    samples form an unbroken run that begins with the sample observed at [z]:
    each of them known to be zero, each within the telemetry freshness of the
    previous one. *)
Theorem zero_interval_unbroken g h key z :
  gs_LatestTelemetryBySource g !! key = None -> gs_ZeroSinceBySource g !! key = None ->
  gs_ZeroSinceBySource (replay_telemetry g h) !! key = Some z ->
  exists before run, samples_for key h = before ++ run /\ zero_run z run.
Proof.
  intros Hl0 Hz0. cut (forall h,
    (forall p, gs_LatestTelemetryBySource (replay_telemetry g h) !! key = Some p ->
       exists s, last (samples_for key h) = Some s /\ same_reading p s) /\
    (forall z, gs_ZeroSinceBySource (replay_telemetry g h) !! key = Some z ->
       exists before run, samples_for key h = before ++ run /\ zero_run z run)); [naive_solver|].
  clear h z. intros h. induction h as [|[sample sources] h [IHl IHz]] using rev_ind.
  { cbn. rewrite Hl0, Hz0. done. }
  unfold replay_telemetry in *. rewrite foldl_app, samples_for_snoc. cbn [foldl].
  set (g1 := foldl _ g h) in *.
  destruct (observe_group_maps sample sources g1) as [-> ->].
  destruct (observe_sources_key sample sources g1 key) as [Hout Hin].
  case_bool_decide as Hk.
  - destruct (Hin Hk) as [(p & Hp & Hr) Hz]. split.
    { intros p' Hp'. simplify_eq. exists sample. by rewrite last_snoc. }
    intros z Hz'. destruct (Hz z Hz') as [Hks [->|(Hzp & q & Hq & Hkq & Hgap)]].
    + exists (samples_for key h), [sample]. split; [done|]. by exists sample, [].
    + destruct (IHz _ Hzp) as (before & run & Hs & Hrun).
      destruct (IHl _ Hq) as (s & Hlast & Ho & _). exists before, (run ++ [sample]).
      rewrite Hs, app_assoc. split; [done|]. eapply zero_run_snoc; [done| |done|].
      * rewrite Hs in Hlast. destruct Hrun as (x & rest & -> & _).
        rewrite last_app_cons in Hlast. exact Hlast.
      * by rewrite <- Ho.
  - destruct (Hout Hk) as [-> ->]. rewrite app_nil_r. done.
Qed.
End ZeroInterval.
