(* ===== verification/ControllerScenario.v ===== *)
(** * A complete transition of the controller

    A concrete scale-out of one group from one broker to two, driven from an
    empty store to completion, with a second run that is rolled back.  The
    theorems about the controller are instantiated at its states. *)

From S2P Require Import Prelude Snapshot Messages Reconciler ControllerTypes Controller ControllerOpen ControllerSnapshots ControllerSpec ControllerInv ControllerRecovery ControllerRun ControllerRefine ControllerTheorems.
From Stdlib Require Import ZArith Lia.
From stdpp Require Import base gmap strings list sorting numbers option relations.
#[local] Open Scope Z_scope.
#[local] Open Scope string_scope.

(** A parser for the two endpoints of the scenario. *)
#[local] Instance scenario_urls : NetURL := fun s =>
  if str_eqb s "amqps://b1:5671" then Some (mkURL "amqps" "b1:5671" None "" "" "") else
  if str_eqb s "amqps://b2:5671" then Some (mkURL "amqps" "b2:5671" None "" "" "") else
  None.

Definition resource (epoch : Z) (broker queue : string) : EpochResourceIdentity :=
  mkEpochResourceIdentity epoch broker "all" queue "orders/in".

Definition subscriber : ParticipantRequirement := mkRequirement "sub-1" RoleSubscriber.
Definition publisher : ParticipantRequirement := mkRequirement "pub-1" RolePublisher.

Definition scale_out : TransitionSpec := {|
  spec_ID := "t-1"; spec_Namespace := "ns"; spec_LibraryVersion := "v1";
  spec_Group := "orders"; spec_Revision := 1; spec_FromEpoch := 1; spec_ToEpoch := 2;
  spec_Current := [mkBroker "b1" "orders/in"];
  spec_Proposed := [mkBroker "b1" "orders/in"; mkBroker "b2" "orders/in"];
  spec_CurrentBrokers := [mkBrokerDescriptor "b1" "amqps://b1:5671"];
  spec_ProposedBrokers :=
    [mkBrokerDescriptor "b1" "amqps://b1:5671"; mkBrokerDescriptor "b2" "amqps://b2:5671"];
  spec_Queue := mkQueueInfo "orders" true;
  spec_Destination := mkDestinationInfo DestinationTopic "orders/in";
  spec_CurrentResources := [resource 1 "b1" "orders.b1.1"];
  spec_ProposedResources := [resource 2 "b1" "orders.b1.2"; resource 2 "b2" "orders.b2.2"];
  spec_HashContract := "customer-v1"; spec_Algorithm := AlgorithmRendezvousV1;
  spec_DrainGrace := 0;
  spec_RequiredParticipants := [];
  spec_ParticipantRequirements := ∅;
  spec_RoleRequirements := list_to_map
    [(PhasePrepare, [subscriber]); (PhasePause, [publisher]); (PhaseDrain, [subscriber]);
     (PhaseActivate, [subscriber; publisher])];
|}.

Definition raw_options : Options := mkOptions 0 0 0 0 ∅ 0 ∅ ∅ 0.
Abbreviation scenario_options := (withDefaults raw_options).

(** Everything answers at time [t], and answers well. *)
Definition healthy (t : Time) : Env := {|
  env_now _ := t;
  env_save _ := SaveOk;
  env_fence _ _ := None;
  env_unfence _ _ := None;
  env_enable _ _ := None;
  env_verifyFence _ _ := Ok (mkFenceStatus true t);
  env_verifyIngress _ _ := Ok (mkIngressStatus true t);
  env_publish _ _ := None;
  env_foreign _ := [];
|}.

Definition ack (phase : Phase) (r : ParticipantRequirement) (t : Time) : Operation :=
  OpAcknowledge (mkAcknowledgement (commandID scale_out phase r) "ns" "orders" "t-1" 2 phase
    (pr_Participant r) (pr_Participant r) (pr_Role r) t).

Definition sample (id : string) (queued : Z) (t : Time) : Telemetry :=
  mkTelemetry id "ns" "orders" "t-1" 1 "b1" RoleBroker "b1" "orders.b1.1" t
    (mkCount true queued) (mkCount true 0) (mkCount true 0).

Definition at_ (s : Z) : Time := 1000 * Second + s * Second.
Definition reconcile : Operation := OpReconcile "orders".

Definition to_drain : list (Time * Operation) :=
  [(at_ 0, OpBegin scale_out);
   (at_ 1, reconcile); (at_ 1, ack PhasePrepare subscriber (at_ 1)); (at_ 1, reconcile);
   (at_ 2, reconcile); (at_ 2, ack PhasePause publisher (at_ 2));
   (at_ 2, reconcile); (at_ 2, reconcile);
   (at_ 3, reconcile)].
Definition to_commit : list (Time * Operation) :=
  to_drain ++
  [(at_ 4, ack PhaseDrain subscriber (at_ 4));
   (at_ 5, OpObserve (sample "m1" 3 (at_ 5)));
   (at_ 7, OpObserve (sample "m2" 0 (at_ 7)));
   (at_ 12, OpObserve (sample "m3" 0 (at_ 12)));
   (at_ 13, reconcile)].
Definition to_active : list (Time * Operation) :=
  to_commit ++
  [(at_ 14, reconcile); (at_ 14, reconcile);
   (at_ 15, reconcile); (at_ 15, reconcile); (at_ 15, reconcile);
   (at_ 16, ack PhaseActivate subscriber (at_ 16)); (at_ 16, ack PhaseActivate publisher (at_ 16));
   (at_ 17, reconcile)].

Definition run_op (w : World) (step : Time * Operation) : World :=
  exec scenario_options (healthy (fst step)) (snd step) w.
Definition run (ops : list (Time * Operation)) : World := foldl run_op start_world ops.

Definition orders (w : World) : option GroupState := ps_Groups (w_mem w) !! "orders".

(** ** The runs are reachable *)
Lemma scale_out_admissible : admissible (adm := standard) scenario_options scale_out.
Proof.
  intros sp H. vm_compute in H. injection H as <-.
  split; [split; unfold in_u64, max_u64; cbn; lia|]. by vm_compute.
Qed.

Definition scenario_op (op : Operation) : bool :=
  match op with
  | OpBegin s => bool_decide (s = scale_out)
  | OpBeginSnapshot _ _ => false
  | _ => true
  end.

Lemma scenario_admissible op :
  scenario_op op = true -> op_admissible (adm := standard) scenario_options op.
Proof.
  destruct op; cbn; intros H; try done. apply bool_decide_eq_true in H as ->.
  apply scale_out_admissible.
Qed.

Lemma run_steps w ops :
  forallb (fun step => scenario_op (snd step)) ops = true ->
  rtc (wstep raw_options) w (foldl run_op w ops).
Proof.
  revert w. induction ops as [|[t op] ops IH]; intros w H; cbn in H; [constructor|].
  apply andb_true_iff in H as [Hop Hops]. cbn. eapply rtc_l; [|by apply IH].
  apply ws_op. by apply scenario_admissible.
Qed.

Lemma run_reachable ops :
  forallb (fun step => scenario_op (snd step)) ops = true -> reachable raw_options (run ops).
Proof. apply run_steps. Qed.

Lemma run_inv ops :
  forallb (fun step => scenario_op (snd step)) ops = true ->
  psinv scenario_options (w_mem (run ops)).
Proof.
  intros H. destruct (wsteps_inv raw_options _ _ (run_reachable _ H) (winv_start raw_options))
    as [[Hm _ _ _ _] _]. exact Hm.
Qed.

(** The transition completes. *)
Example scenario_completes :
  match orders (run to_active) with
  | Some g => gs_Completed g && gs_ActivatePublished g && negb (gs_RollingBack g)
  | None => false
  end = true.
Proof. by vm_compute. Qed.

(** ** The theorems at the scenario *)
Lemma controller_refines_protocol_witness :
  rtc (pstep (adm := standard) scenario_options) (w_mem (run to_commit))
    (w_mem (exec scenario_options (healthy (at_ 14)) reconcile (run to_commit))).
Proof.
  apply controller_refines_protocol; [|done]. apply run_inv. by vm_compute.
Defined.

(** The call that publishes COMMIT, and its events. *)
Abbreviation before_commit := (run to_commit).
Abbreviation commit_call := (Reconcile scenario_options (healthy (at_ 14)) "orders" before_commit).
Definition commit_events : list Event :=
  drop (length (w_trace before_commit))
    (w_trace (exec scenario_options (healthy (at_ 14)) reconcile before_commit)).

Definition is_publish (e : Event) : bool := match e with EvPublish _ _ => true | _ => false end.

Lemma before_commit_inv : psinv scenario_options (w_mem before_commit).
Proof. apply run_inv. by vm_compute. Qed.

Lemma before_commit_reachable : reachable raw_options before_commit.
Proof. apply run_reachable. by vm_compute. Qed.

Lemma commit_trace :
  w_trace (exec scenario_options (healthy (at_ 14)) reconcile before_commit) =
  (w_trace before_commit ++ commit_events)%list.
Proof.
  destruct (exec_good (adm := standard) scenario_options (healthy (at_ 14)) reconcile
    before_commit before_commit_inv I) as [_ _ (tr & Htr & _) _].
  unfold commit_events. rewrite Htr, drop_app_length. reflexivity.
Qed.

Lemma pair_fst {A B} (p : A * B) b : snd p = b -> p = (fst p, b).
Proof. by intros <-; destruct p. Qed.

Lemma commit_call_result : snd commit_call = (true, nil_err).
Proof. by vm_compute. Qed.

(** The publication is the fifth event of the call. *)
Lemma external_calls_justified_witness :
  exists e, is_publish e = true /\
    event_ok scenario_options (mem_after (w_mem before_commit) (take 4 commit_events))
      (take 4 commit_events) e.
Proof.
  destruct (commit_events !! 4%nat) as [e|] eqn:E.
  - exists e. split.
    + assert (H : match commit_events !! 4%nat with Some e => is_publish e | None => false end = true)
        by (vm_compute; reflexivity).
      rewrite E in H. exact H.
    + refine (external_calls_justified (adm := standard) scenario_options (healthy (at_ 14))
        reconcile before_commit (take 4 commit_events) e (drop 5 commit_events)
        before_commit_inv I _).
      exact (eq_trans commit_trace (f_equal (app _) (eq_sym (take_drop_middle _ _ _ E)))).
  - exfalso. assert (H : is_Some (commit_events !! 4%nat)) by (vm_compute; eauto).
    rewrite E in H. by destruct H.
Defined.

Lemma reconcile_progress_witness :
  exists g g', ps_Groups (w_mem before_commit) !! "orders" = Some g /\
    ps_Groups (w_mem (fst commit_call)) !! "orders" = Some g' /\
    (progress g < progress g' <= max_progress)%nat.
Proof.
  exact (reconcile_progress (adm := standard) scenario_options (healthy (at_ 14)) "orders"
    before_commit (fst commit_call) before_commit_inv (pair_fst _ _ commit_call_result)).
Defined.

Lemma membership_monotone_witness :
  exists m m', ps_Membership (w_mem before_commit) !! "orders" = Some m /\
    ps_Membership (w_mem (exec scenario_options (healthy (at_ 14)) reconcile before_commit))
      !! "orders" = Some m' /\
    ms_Epoch m <= ms_Epoch m' /\ (m' = m \/ ms_Revision m < ms_Revision m').
Proof.
  destruct (ps_Membership (w_mem before_commit) !! "orders") as [m|] eqn:E.
  - exists m. destruct (membership_monotone (adm := standard) scenario_options (healthy (at_ 14))
      reconcile before_commit "orders" m before_commit_inv I E) as (m' & Hm' & H).
    exists m'. split; [reflexivity|]. split; [exact Hm'|exact H].
  - exfalso. assert (H : is_Some (ps_Membership (w_mem before_commit) !! "orders"))
      by (vm_compute; eauto).
    rewrite E in H. by destruct H.
Defined.

Lemma before_commit_text : text_kept (w_disk before_commit).
Proof. unfold text_kept. vm_compute. reflexivity. Qed.


Lemma commit_steps : rtc (wstep raw_options) before_commit (run to_active).
Proof.
  unfold run, to_active. rewrite foldl_app. apply run_steps. by vm_compute.
Qed.

Lemma commit_irrevocable_witness :
  exists g g', ps_Groups (w_mem before_commit) !! "orders" = Some g /\
    ps_Groups (w_mem (run to_active)) !! "orders" = Some g' /\
      (same_transition (gs_Spec g) (gs_Spec g') /\ gs_RollingBack g' = false /\
       (gs_Phase g' = PhaseCommit \/ gs_Phase g' = PhaseActivate) \/
       spec_ToEpoch (gs_Spec g) <= spec_FromEpoch (gs_Spec g')).
Proof.
  destruct (ps_Groups (w_mem before_commit) !! "orders") as [g|] eqn:E.
  - assert (Hp : option_map gs_Phase (ps_Groups (w_mem before_commit) !! "orders") = Some PhaseCommit)
      by (vm_compute; reflexivity).
    rewrite E in Hp. injection Hp as Hp.
    destruct (commit_irrevocable raw_options before_commit (run to_active) "orders" g
      before_commit_reachable commit_steps E (or_introl Hp)) as (g' & Hg' & H).
    exists g, g'. split; [reflexivity|]. split; [exact Hg'|exact H].
  - exfalso. assert (H : is_Some (ps_Groups (w_mem before_commit) !! "orders"))
      by (vm_compute; eauto).
    rewrite E in H. by destruct H.
Defined.

(** ** Draining *)
Definition to_drained : list (Time * Operation) := take 13 to_commit.
Abbreviation drained := (run to_drained).

Lemma drained_inv : psinv scenario_options (w_mem drained).
Proof. apply run_inv. by vm_compute. Qed.

Lemma drain_common_window_witness :
  exists g, ps_Groups (w_mem drained) !! "orders" = Some g /\
    forall a b, a ∈ requiredTelemetrySources (gs_Spec g) ->
      b ∈ requiredTelemetrySources (gs_Spec g) ->
      exists ta za tb zb, source_drained scenario_options g (at_ 13) a ta za /\
        source_drained scenario_options g (at_ 13) b tb zb /\
        spec_DrainGrace (gs_Spec g) <= time_Sub (tel_ObservedAt ta) zb /\
        spec_DrainGrace (gs_Spec g) <= time_Sub (tel_ObservedAt ta) (gs_PhaseEnteredAt g).
Proof.
  destruct (ps_Groups (w_mem drained) !! "orders") as [g|] eqn:E.
  - exists g. split; [reflexivity|].
    assert (H : match ps_Groups (w_mem drained) !! "orders" with
                | Some g => drainComplete scenario_options g (at_ 13) &&
                            negb (bool_decide (requiredTelemetrySources (gs_Spec g) = []))
                | None => false end = true) by (vm_compute; reflexivity).
    rewrite E in H. apply andb_true_iff in H as [Hd Hs].
    apply negb_true_iff, bool_decide_eq_false in Hs.
    exact (proj1 (drain_common_window scenario_options "orders" g (at_ 13)
      (pi_groups _ _ drained_inv _ _ E) Hs) Hd).
  - exfalso. assert (H : is_Some (ps_Groups (w_mem drained) !! "orders")) by (vm_compute; eauto).
    rewrite E in H. by destruct H.
Defined.

(** A non-zero sample, then two zero samples in time. *)
Definition queue_b1 : telemetrySource := mkTelemetrySource "b1" "orders.b1.1".
Definition samples : list (Telemetry * list telemetrySource) :=
  [(sample "m1" 3 (at_ 5), [queue_b1]); (sample "m2" 0 (at_ 7), [queue_b1]);
   (sample "m3" 0 (at_ 12), [queue_b1])].
Definition fresh_group : GroupState := created_group scenario_options scale_out (at_ 0).

Lemma zero_interval_unbroken_witness :
  exists before run, samples_for (ts_key queue_b1) samples = (before ++ run)%list /\
    zero_run scenario_options (at_ 7) run.
Proof.
  apply (zero_interval_unbroken scenario_options fresh_group samples (ts_key queue_b1) (at_ 7));
    vm_compute; reflexivity.
Defined.

(** ** Snapshots *)
Lemma scale_out_u64 : spec_u64 scale_out.
Proof. split; unfold in_u64, max_u64; cbn; lia. Qed.

Lemma scale_out_valid : spec_Validate scale_out = nil_err.
Proof. by vm_compute. Qed.

Lemma controlSnapshot_valid_witness :
  Validate (controlSnapshot scale_out PhaseCommit false) = nil_err.
Proof.
  apply controlSnapshot_valid; [exact scale_out_u64|exact scale_out_valid|right; reflexivity].
Defined.

(** ** A participant that follows the transition *)
Abbreviation published phase := (controlSnapshot scale_out phase false).
Definition subscribed : Reconciler := fst (BeginSubscribe NewReconciler).
Definition baselined : Reconciler := fst (ApplyBaseline subscribed (published PhasePrepare)).
Definition buffering : Reconciler :=
  fst (ApplyUpdate (fst (ApplyUpdate baselined (published PhaseDrain))) (published PhasePause)).
Definition following : Reconciler := fst (FinishBootstrap buffering).

Lemma following_reachable : rtc rstep NewReconciler following.
Proof.
  unfold following, buffering, baselined, subscribed.
  refine (rtc_r _ _ _ _ (rs_finish _)). refine (rtc_r _ _ _ _ (rs_update _ _)).
  refine (rtc_r _ _ _ _ (rs_update _ _)). refine (rtc_r _ _ _ _ (rs_baseline _ _)).
  exact (rtc_once _ _ (rs_subscribe _)).
Qed.

Lemma reconciler_invariant_witness : rc_ok following.
Proof. exact (reconciler_invariant following following_reachable). Defined.

Lemma following_current : rc_current following = Some (published PhaseDrain).
Proof. by vm_compute. Qed.

Lemma installed_snapshot_monotone_witness :
  exists c', rc_current (fst (ApplyUpdate following (published PhaseCommit))) = Some c' /\
    advances (published PhaseDrain) c'.
Proof.
  exact (installed_snapshot_monotone following _ _ following_reachable
    (rs_update following (published PhaseCommit)) following_current).
Defined.

(** The same updates in the other order. *)
Definition buffering' : Reconciler :=
  fst (ApplyUpdate (fst (ApplyUpdate baselined (published PhasePause))) (published PhaseDrain)).

Lemma FinishBootstrap_order_independent_witness :
  snd (FinishBootstrap buffering') = Ok (published PhaseDrain).
Proof.
  apply (FinishBootstrap_order_independent buffering buffering' (published PhaseDrain));
    try (vm_compute; reflexivity).
  replace (rc_buffered buffering') with [published PhasePause; published PhaseDrain]
    by (vm_compute; reflexivity).
  replace (rc_buffered buffering) with [published PhaseDrain; published PhasePause]
    by (vm_compute; reflexivity).
  apply Permutation_swap.
Defined.

