(* ===== verification/Outbox.v ===== *)
(** * The durable outbox (outbox/outbox.go)

    Accepted publish requests, kept in a bbolt database and in memory until a
    broker acknowledges them.  A [Store] is the memory; every public method
    holds the store's mutex, so each is one function on [Store].  [bbolt] is an
    interface ([Bolt]): a transaction is a function on the buckets, and
    [Update] applies it completely or not at all.  [time.Now] is an argument of
    the operations that read the clock.  The test seam [beforeCommit] is left
    out (a failing [Update] covers it). *)

From S2P Require Import Prelude Heap.
From Stdlib Require Import ZArith Lia.
From stdpp Require Import base gmap strings sorting numbers option list.
#[local] Open Scope Z_scope.

Definition defaultMaxMessages : Z := 10000.
Definition defaultMaxBytes : Z := 67108864.
Definition databaseFormatVersion : Z := 1.

Definition ErrFull := ErrNew "outbox capacity exceeded".
Definition ErrDuplicate := ErrNew "duplicate event ID".
Definition ErrNotFound := ErrNew "outbox record not found".
Definition ErrInvalidRecord := ErrNew "invalid outbox record".
Definition ErrInvalidState := ErrNew "invalid outbox state transition".
Definition ErrClosed := ErrNew "outbox is closed".

(** ** Data *)

(** [State], a string type: [StateNone] is the empty string. *)
Inductive State : Type :=
| StateNone | StateUnassigned | StateReady | StateInEventsA | StateAckUncertain
| StateOther (s : string).

#[export] Instance State_eq_dec : EqDecision State.
Proof. solve_decision. Defined.

(** [Record], a reserved word here. *)
Record Rec := mkRec {
  r_EventID : string;
  r_Payload : list Z;
  r_Topic : string;
  r_Properties : gmap string string;
  r_OrderingKey : string;
  r_Group : string;
  r_Hash : string;
  r_HashContract : string;
  r_LibraryVersion : string;
  r_RoutingAlgorithm : string;
  r_BrokerEndpoint : string;
  r_Epoch : Z;
  r_Broker : string;
  r_Destination : string;
  r_State : State;
  r_Attempts : Z;
  r_LastError : string;
  r_Sequence : Z;
  r_AcceptedAt : Time;
  r_UpdatedAt : Time;
  r_SizeBytes : Z;
}.

#[export] Instance eta_Rec : Eta Rec := fun r =>
  mkRec (r_EventID r) (r_Payload r) (r_Topic r) (r_Properties r) (r_OrderingKey r) (r_Group r)
    (r_Hash r) (r_HashContract r) (r_LibraryVersion r) (r_RoutingAlgorithm r)
    (r_BrokerEndpoint r) (r_Epoch r) (r_Broker r) (r_Destination r) (r_State r) (r_Attempts r)
    (r_LastError r) (r_Sequence r) (r_AcceptedAt r) (r_UpdatedAt r) (r_SizeBytes r).

#[export] Instance Rec_eq_dec : EqDecision Rec.
Proof. solve_decision. Defined.

(** The zero value, which reading an absent map entry yields. *)
Definition zero_rec : Rec :=
  mkRec "" [] "" ∅ "" "" "" "" "" "" "" 0 "" "" StateNone 0 "" 0 zeroTime zeroTime 0.

Record Assignment := mkAssignment {
  as_Epoch : Z;
  as_Broker : string;
  as_BrokerEndpoint : string;
  as_Destination : string;
}.

Record AssignmentUpdate := mkAssignmentUpdate { au_EventID : string; au_Assignment : Assignment }.
Record StateUpdate := mkStateUpdate { su_EventID : string; su_Reason : string }.

(** [CompletionOutcome], a [uint8]. *)
Inductive CompletionOutcome : Type :=
| CompletionAcknowledged | CompletionRejected | CompletionAckUncertain
| CompletionOther (n : Z).

Record Completion := mkCompletion {
  co_EventID : string;
  co_Attempts : Z;
  co_Epoch : Z;
  co_Outcome : CompletionOutcome;
  co_Reason : string;
}.

Record Limits := mkLimits { MaxMessages : Z; MaxBytes : Z }.

Record Stats := mkStats {
  Messages : Z;
  Bytes : Z;
  HighWaterMessages : Z;
  HighWaterBytes : Z;
}.

(** ** JSON

    What [json.Marshal] writes for a string: quotes, two-byte escapes for
    quote, backslash and the named controls, six-byte escapes for the other
    controls, for the HTML characters, for U+2028 and U+2029 and for a byte
    that is not UTF-8. *)
Definition json_chunk_len (c : chunk) : Z :=
  match c with
  | Invalid _ => 6
  | Valid bytes rune =>
      if bool_decide (rune ∈ [34; 92; 8; 9; 10; 12; 13]) then 2 else
      if (rune <? 32) || bool_decide (rune ∈ [60; 62; 38; 8232; 8233]) then 6
      else Z.of_nat (length bytes)
  end.

Definition sum_Z (l : list Z) : Z := foldr Z.add 0 l.

Definition json_string_len (s : string) : Z :=
  2 + sum_Z (json_chunk_len <$> utf8_chunks (bytes_of s)).

(** [base64.StdEncoding] between quotes. *)
Definition json_bytes_len (b : list Z) : Z := 2 + 4 * ((Z.of_nat (length b) + 2) / 3).

(** Comma-separated members of the given lengths between braces. *)
Definition json_object_len (members : list Z) : Z :=
  2 + sum_Z members + Z.max 0 (Z.of_nat (length members) - 1).

Definition json_member_len (name : string) (value : Z) : Z := len name + 3 + value.

Definition json_map_len (m : gmap string string) : Z :=
  json_object_len ((fun '(k, v) => json_string_len k + 1 + json_string_len v) <$> map_to_list m).

Definition acceptedSize (r : Rec) : Z :=
  json_object_len
    ([json_member_len "event_id" (json_string_len (r_EventID r))] ++
     (if bool_decide (r_Payload r = []) then []
      else [json_member_len "payload" (json_bytes_len (r_Payload r))]) ++
     [json_member_len "topic" (json_string_len (r_Topic r))] ++
     (if bool_decide (r_Properties r = ∅) then []
      else [json_member_len "properties" (json_map_len (r_Properties r))]) ++
     [json_member_len "ordering_key" (json_string_len (r_OrderingKey r));
      json_member_len "group" (json_string_len (r_Group r));
      json_member_len "hash" (json_string_len (r_Hash r));
      json_member_len "hash_contract" (json_string_len (r_HashContract r));
      json_member_len "library_version" (json_string_len (r_LibraryVersion r))]).

(** A map after a JSON round trip: keys are written in order, and the last of
    several that coincide is kept. *)
Definition json_properties (m : gmap string string) : gmap string string :=
  foldl (fun acc k => <[json_coerce k := json_coerce (default ""%string (m !! k))]> acc) ∅
    (sort_strings (elements (dom m))).

(** The record [json.Unmarshal] reads back; only known states are stored. *)
Definition json_rec (r : Rec) : Rec :=
  mkRec (json_coerce (r_EventID r)) (r_Payload r) (json_coerce (r_Topic r))
    (json_properties (r_Properties r)) (json_coerce (r_OrderingKey r)) (json_coerce (r_Group r))
    (json_coerce (r_Hash r)) (json_coerce (r_HashContract r)) (json_coerce (r_LibraryVersion r))
    (json_coerce (r_RoutingAlgorithm r)) (json_coerce (r_BrokerEndpoint r)) (r_Epoch r)
    (json_coerce (r_Broker r)) (json_coerce (r_Destination r)) (r_State r) (r_Attempts r)
    (json_coerce (r_LastError r)) (r_Sequence r) (r_AcceptedAt r) (r_UpdatedAt r) (r_SizeBytes r).

(** [Time.MarshalJSON] refuses years outside [0,9999]. *)
Definition json_time_ok (t : Time) : bool :=
  (-31622400 * Second <=? t) && (t <? 315537897600 * Second).

(** [json.Marshal] of a record.  The bytes are represented by the record they
    decode to. *)
Definition encode (r : Rec) : result Rec :=
  if json_time_ok (r_AcceptedAt r) && json_time_ok (r_UpdatedAt r) then Ok (json_rec r)
  else Err (ErrNew "Time.MarshalJSON: year outside of range [0,9999]").

(** ** The database *)

(** Sequence keys are eight big-endian bytes, so a number. *)
Record Buckets := mkBuckets {
  b_format : Z;
  b_records : gmap Z Rec;
  b_events : gmap string Z;
  b_next : Z;
  b_total : Z;
}.

#[export] Instance eta_Buckets : Eta Buckets := fun b =>
  mkBuckets (b_format b) (b_records b) (b_events b) (b_next b) (b_total b).

(** go.etcd.io/bbolt: the buckets of an open database ([None] before they are
    created), and [Update], which commits the whole transaction when it returns
    [nil] and otherwise leaves the buckets as they were. *)
Class Bolt (B : Type) := {
  contents : B -> option Buckets;
  Update : (option Buckets -> result (option Buckets)) -> B -> B * gerr;
  Update_commits tx b b' : Update tx b = (b', nil_err) -> tx (contents b) = Ok (contents b');
  Update_rolls_back tx b b' e : Update tx b = (b', Err e) -> contents b' = contents b;
}.

(** A transaction on existing buckets. *)
Definition in_buckets (f : Buckets -> Buckets) (c : option Buckets) : result (option Buckets) :=
  match c with
  | Some b => Ok (Some (f b))
  | None => Err (ErrNew "bucket is nil")
  end.

Definition put_record (r encoded : Rec) (b : Buckets) : Buckets :=
  b <| b_records := <[r_Sequence r := encoded]> (b_records b) |>.
Definition put_event (r : Rec) (b : Buckets) : Buckets :=
  b <| b_events := <[r_EventID r := r_Sequence r]> (b_events b) |>.
Definition delete_record (r : Rec) (b : Buckets) : Buckets :=
  b <| b_records := delete (r_Sequence r) (b_records b) |>
    <| b_events := delete (r_EventID r) (b_events b) |>.

Definition put_all (rs : list (Rec * Rec)) (b : Buckets) : Buckets :=
  foldl (fun b '(r, e) => put_record r e b) b rs.
Definition accept_all (rs : list (Rec * Rec)) (b : Buckets) : Buckets :=
  foldl (fun b '(r, e) => put_event r (put_record r e b)) b rs.
Definition delete_all (rs : list Rec) (b : Buckets) : Buckets :=
  foldl (fun b r => delete_record r b) b rs.

(** ** The store *)

(** [orderingLane]; its [key] is the key it has in [lanes]. *)
Record Lane := mkLane {
  ln_eventIDs : list string;
  ln_head : nat;
  ln_headSequence : Z;
  ln_readyIndex : Z;
}.

#[export] Instance eta_Lane : Eta Lane := fun l =>
  mkLane (ln_eventIDs l) (ln_head l) (ln_headSequence l) (ln_readyIndex l).

Definition new_lane : Lane := mkLane [] 0 0 (-1).

Record Store (B : Type) := mkStore {
  st_limits : Limits;
  st_db : option B;
  st_records : gmap string Rec;
  st_order : list string;
  st_lanes : gmap string Lane;
  st_readyLanes : list string;
  st_nextSeq : Z;
  st_bytes : Z;
  st_highWaterMessages : Z;
  st_highWaterBytes : Z;
  st_deleted : Z;
}.
Arguments mkStore {B}.
Arguments st_limits {B}.
Arguments st_db {B}.
Arguments st_records {B}.
Arguments st_order {B}.
Arguments st_lanes {B}.
Arguments st_readyLanes {B}.
Arguments st_nextSeq {B}.
Arguments st_bytes {B}.
Arguments st_highWaterMessages {B}.
Arguments st_highWaterBytes {B}.
Arguments st_deleted {B}.

#[export] Instance eta_Store {B} : Eta (Store B) := fun s =>
  mkStore (st_limits s) (st_db s) (st_records s) (st_order s) (st_lanes s) (st_readyLanes s)
    (st_nextSeq s) (st_bytes s) (st_highWaterMessages s) (st_highWaterBytes s) (st_deleted s).

Definition effectiveOrderingKey (r : Rec) : string :=
  if str_empty (r_OrderingKey r) then (r_Group r +:+ NUL +:+ r_Hash r)%string else r_OrderingKey r.

(** ** The heap of ready lanes *)
Abbreviation LaneHeap := (list string * gmap string Lane)%type.

Definition head_seq (lanes : gmap string Lane) (key : string) : Z :=
  match lanes !! key with Some l => ln_headSequence l | None => 0 end.

(** What [Less] compares: the head sequence, then the key. *)
Definition rank_less (a b : Z * string) : bool :=
  if negb (fst a =? fst b) then fst a <? fst b else str_ltb (snd a) (snd b).
Definition lane_rank (lanes : gmap string Lane) (key : string) : Z * string :=
  (head_seq lanes key, key).

Definition set_ready_index (key : string) (i : Z) (lanes : gmap string Lane) : gmap string Lane :=
  alter (fun l => l <| ln_readyIndex := i |>) key lanes.

Definition lane_Less (h : LaneHeap) (i j : nat) : bool :=
  match fst h !! i, fst h !! j with
  | Some a, Some b => rank_less (lane_rank (snd h) a) (lane_rank (snd h) b)
  | _, _ => false
  end.

Definition lane_Swap (h : LaneHeap) (i j : nat) : LaneHeap :=
  match fst h !! i, fst h !! j with
  | Some a, Some b =>
      (list_Swap (fst h) i j,
       set_ready_index a (Z.of_nat j) (set_ready_index b (Z.of_nat i) (snd h)))
  | _, _ => h
  end.

#[export] Instance lane_heap : HeapInterface LaneHeap :=
  {| h_Len h := length (fst h); h_Less := lane_Less; h_Swap := lane_Swap |}.

Definition lane_Push (key : string) (h : LaneHeap) : LaneHeap :=
  (fst h ++ [key], set_ready_index key (Z.of_nat (length (fst h))) (snd h)).

Definition lane_Pop (h : LaneHeap) : LaneHeap * option string :=
  (match last (fst h) with
   | Some key => (take (length (fst h) - 1) (fst h), set_ready_index key (-1) (snd h))
   | None => h
   end, last (fst h)).

(** ** The eligible index *)
Section Index.
Context {B : Type}.

Definition set_heap (h : LaneHeap) (s : Store B) : Store B :=
  s <| st_readyLanes := fst h |> <| st_lanes := snd h |>.

Definition lane_at (key : string) (s : Store B) : Lane := default new_lane (st_lanes s !! key).

Definition update_lane (key : string) (f : Lane -> Lane) (s : Store B) : Store B :=
  s <| st_lanes := alter f key (st_lanes s) |>.

(** [if lane.readyIndex >= 0 { heap.Remove(...) }]. *)
Definition remove_ready (key : string) (s : Store B) : Store B :=
  if 0 <=? ln_readyIndex (lane_at key s)
  then set_heap (fst (heap_Remove lane_Pop (st_readyLanes s, st_lanes s)
                       (Z.to_nat (ln_readyIndex (lane_at key s))))) s
  else s.

Definition refreshLane (key : string) (s : Store B) : Store B :=
  let s := remove_ready key s in
  let lane := lane_at key s in
  match ln_eventIDs lane !! ln_head lane with
  | None => update_lane key (fun l => l <| ln_headSequence := 0 |>) s
  | Some id =>
      match st_records s !! id with
      | None => update_lane key (fun l => l <| ln_headSequence := 0 |>) s
      | Some record =>
          let s := update_lane key (fun l => l <| ln_headSequence := r_Sequence record |>) s in
          if bool_decide (r_State record = StateReady)
          then set_heap (heap_Push lane_Push key (st_readyLanes s, st_lanes s)) s
          else s
      end
  end.

Definition indexAccepted (record : Rec) (s : Store B) : Store B :=
  let key := effectiveOrderingKey record in
  let lane := lane_at key s in
  let lane := lane <| ln_eventIDs := ln_eventIDs lane ++ [r_EventID record] |> in
  let s := s <| st_lanes := <[key := lane]> (st_lanes s) |> in
  if bool_decide (length (ln_eventIDs lane) = 1%nat) then refreshLane key s else s.

(** Whether the record is the live head of its lane. *)
Definition is_lane_head (record : Rec) (s : Store B) : bool :=
  match st_lanes s !! effectiveOrderingKey record with
  | Some lane => bool_decide (ln_eventIDs lane !! ln_head lane = Some (r_EventID record))
  | None => false
  end.

Definition refreshLaneForRecord (record : Rec) (s : Store B) : Store B :=
  if is_lane_head record s then refreshLane (effectiveOrderingKey record) s else s.

(** The loop of [removeIndexed]: how many deleted entries to skip. *)
Fixpoint skip_deleted (records : gmap string Rec) (ids : list string) : nat :=
  match ids with
  | [] => 0
  | id :: rest =>
      match records !! id with
      | Some _ => 0
      | None => S (skip_deleted records rest)
      end
  end.

Definition trim_lane (lane : Lane) : Lane :=
  if (1024 <=? ln_head lane)%nat && (length (ln_eventIDs lane) <=? ln_head lane * 2)%nat
  then lane <| ln_eventIDs := drop (ln_head lane) (ln_eventIDs lane) |> <| ln_head := 0%nat |>
  else lane.

Definition removeIndexed (record : Rec) (s : Store B) : Store B :=
  if negb (is_lane_head record s) then s else
  let key := effectiveOrderingKey record in
  let s := remove_ready key s in
  let lane := lane_at key s in
  let head := S (ln_head lane) in
  let head := (head + skip_deleted (st_records s) (drop head (ln_eventIDs lane)))%nat in
  if bool_decide (head = length (ln_eventIDs lane))
  then s <| st_lanes := delete key (st_lanes s) |>
  else refreshLane key (update_lane key (fun l => trim_lane (l <| ln_head := head |>)) s).

Definition rebuildEligibleIndex (s : Store B) : Store B :=
  foldl (fun s id =>
    match st_records s !! id with
    | Some record => indexAccepted record s
    | None => s
    end) (s <| st_lanes := ∅ |> <| st_readyLanes := [] |>) (st_order s).

Definition compactOrderIfNeeded (s : Store B) : Store B :=
  if (st_deleted s <? 1024) &&
     (Z.of_nat (length (st_order s)) <=? 2 * Z.of_nat (size (st_records s)) + 16)
  then s
  else s <| st_order := filter (fun id => is_Some (st_records s !! id)) (st_order s) |>
         <| st_deleted := 0 |>.
End Index.

(** ** Validation *)
Definition missing_identity (r : Rec) : bool :=
  str_empty (r_EventID r) || str_empty (r_Topic r) || str_empty (r_OrderingKey r) ||
  str_empty (r_Group r) || str_empty (r_Hash r) || str_empty (r_HashContract r) ||
  str_empty (r_LibraryVersion r).

Definition validateNewRecord (r : Rec) : gerr :=
  fail_if (missing_identity r)
    (ErrWrap "event ID, topic, ordering key, group, hash, hash contract, and library version are required"
       ErrInvalidRecord) ;;!
  fail_if (negb (bool_decide (r_State r = StateNone)) &&
           negb (bool_decide (r_State r = StateUnassigned)) &&
           negb (bool_decide (r_State r = StateReady)))
    (ErrWrap "initial state is not allowed" ErrInvalidRecord) ;;!
  fail_if (bool_decide (r_State r = StateReady) &&
           ((r_Epoch r =? 0) || str_empty (r_Broker r) || str_empty (r_Destination r)))
    (ErrWrap "ready record requires an assignment" ErrInvalidRecord) ;;!
  fail_if (negb (bool_decide (r_State r = StateReady)) &&
           (negb (r_Epoch r =? 0) || negb (str_empty (r_Broker r)) ||
            negb (str_empty (r_Destination r))))
    (ErrWrap "unassigned record cannot carry an assignment" ErrInvalidRecord).

Definition validateStoredRecord (r : Rec) : gerr :=
  fail_if (missing_identity r || (r_Sequence r =? 0) || (r_SizeBytes r <=? 0) ||
           negb (r_SizeBytes r =? acceptedSize r)) ErrInvalidRecord ;;!
  match r_State r with
  | StateUnassigned =>
      fail_if (negb (r_Epoch r =? 0) || negb (str_empty (r_Broker r)) ||
               negb (str_empty (r_Destination r))) ErrInvalidRecord
  | StateReady | StateInEventsA | StateAckUncertain =>
      fail_if ((r_Epoch r =? 0) || str_empty (r_Broker r) || str_empty (r_Destination r))
        ErrInvalidRecord
  | StateNone | StateOther _ => Err ErrInvalidRecord
  end.

Fixpoint unique_loop (seen : gset string) (ids : list string) : gerr :=
  match ids with
  | [] => nil_err
  | id :: rest =>
      fail_if (str_empty id) (ErrWrap "empty event ID" ErrInvalidRecord) ;;!
      fail_if (bool_decide (id ∈ seen))
        (ErrWrap "event ID appears more than once in batch" ErrInvalidRecord) ;;!
      unique_loop ({[id]} ∪ seen) rest
  end.
Definition validateUniqueEventIDs (ids : list string) : gerr := unique_loop ∅ ids.

(** Two encodings of one list, paired with their records. *)
Definition encode_all (rs : list Rec) : result (list (Rec * Rec)) :=
  fold_result (fun acc r => let! e := encode r in Ok (acc ++ [(r, e)])) [] rs.

(** ** Operations *)
Section Operations.
Context {B : Type} `{!Bolt B}.

(** [s.db.Update]: an error leaves the memory alone; the database handle is the
    one after the call. *)
Definition transact (tx : Buckets -> Buckets) (s : Store B) : Store B * gerr :=
  match st_db s with
  | None => (s, Err ErrClosed)
  | Some b => let '(b', err) := Update (in_buckets tx) b in (s <| st_db := Some b' |>, err)
  end.

Definition is_open (s : Store B) : bool := bool_decide (is_Some (st_db s)).

(** *** Acceptance *)
Definition accepted_record (now : Time) (sequence : Z) (original : Rec) : Rec :=
  let record := original
    <| r_Sequence := sequence |> <| r_AcceptedAt := now |> <| r_UpdatedAt := now |>
    <| r_Attempts := 0 |> <| r_LastError := ""%string |>
    <| r_State := if bool_decide (r_State original = StateNone) then StateUnassigned
                  else r_State original |> in
  record <| r_SizeBytes := acceptedSize record |>.

(** The loop over the input: the identifiers seen, the records accepted and
    their total size. *)
Record accepting := mkAccepting {
  ac_seen : gset string;
  ac_accepted : list Rec;
  ac_bytes : Z;
}.

Definition accept_one (operation : string) (s : Store B) (now : Time) (st : accepting)
    (original : Rec) : result accepting :=
  wrap_err operation (validateNewRecord original) ;;!
  fail_if (bool_decide (is_Some (st_records s !! r_EventID original)))
    (ErrWrap operation ErrDuplicate) ;;!
  fail_if (bool_decide (r_EventID original ∈ ac_seen st)) (ErrWrap operation ErrDuplicate) ;;!
  let record := accepted_record now
    (u64 (st_nextSeq s + Z.of_nat (length (ac_accepted st)))) original in
  fail_if (MaxBytes (st_limits s) - st_bytes s - ac_bytes st <? r_SizeBytes record)
    (ErrWrap operation ErrFull) ;;!
  Ok (mkAccepting ({[r_EventID original]} ∪ ac_seen st) (ac_accepted st ++ [record])
        (ac_bytes st + r_SizeBytes record)).

(** The in-memory part of an acceptance. *)
Definition accept_memory (accepted : list Rec) (nextSequence totalBytes : Z) (s : Store B)
    : Store B :=
  let s := foldl (fun s record =>
    indexAccepted record
      (s <| st_records := <[r_EventID record := record]> (st_records s) |>
         <| st_order := st_order s ++ [r_EventID record] |>)) s accepted in
  let s := s <| st_nextSeq := nextSequence |> <| st_bytes := totalBytes |> in
  s <| st_highWaterMessages := Z.max (st_highWaterMessages s) (Z.of_nat (size (st_records s))) |>
    <| st_highWaterBytes := Z.max (st_highWaterBytes s) (st_bytes s) |>.

Definition acceptMany (operation : string) (now : Time) (input : list Rec) (s : Store B)
    : Store B * result (list Rec) :=
  if negb (is_open s) then (s, Err (ErrWrap operation ErrClosed)) else
  if bool_decide (input = []) then (s, Ok []) else
  if MaxMessages (st_limits s) - Z.of_nat (size (st_records s)) <? Z.of_nat (length input)
  then (s, Err (ErrWrap operation ErrFull)) else
  if max_u64 - st_nextSeq s <? Z.of_nat (length input)
  then (s, Err (ErrNew "sequence exhausted")) else
  match fold_result (accept_one operation s now) (mkAccepting ∅ [] 0) input with
  | Err e => (s, Err e)
  | Ok (mkAccepting _ accepted addedBytes) =>
      let nextSequence := u64 (st_nextSeq s + Z.of_nat (length accepted)) in
      let totalBytes := st_bytes s + addedBytes in
      match encode_all accepted with
      | Err e => (s, Err (ErrWrap operation e))
      | Ok encoded =>
          let '(s, err) := transact (fun b =>
            accept_all encoded b <| b_next := nextSequence |> <| b_total := totalBytes |>) s in
          match err with
          | Err e => (s, Err (ErrWrap operation e))
          | Ok _ => (accept_memory accepted nextSequence totalBytes s, Ok accepted)
          end
      end
  end.

Definition Accept (now : Time) (record : Rec) (s : Store B) : Store B * result Rec :=
  let '(s, out) := acceptMany "accept" now [record] s in
  (s, match out with
      | Err e => Err e
      | Ok accepted => Ok (default zero_rec (accepted !! 0%nat))
      end).
Definition AcceptBatch (now : Time) (records : list Rec) (s : Store B) : Store B * result (list Rec) :=
  acceptMany "accept batch" now records s.

(** *** State changes *)
Definition update_one (operation : string) (s : Store B) (now : Time)
    (mutate : string -> Rec -> result Rec) (acc : list (Rec * Rec)) (id : string)
    : result (list (Rec * Rec)) :=
  match st_records s !! id with
  | None => Err (ErrWrap operation ErrNotFound)
  | Some record =>
      let! record := wrap_err operation (mutate id record) in
      let record := record <| r_UpdatedAt := now |> in
      let! e := wrap_err operation (encode record) in
      Ok (acc ++ [(record, e)])
  end.

Definition update_memory (updated : list Rec) (s : Store B) : Store B :=
  foldl (fun s record =>
    refreshLaneForRecord record
      (s <| st_records := <[r_EventID record := record]> (st_records s) |>)) s updated.

Definition updateMany (operation : string) (now : Time) (ids : list string)
    (mutate : string -> Rec -> result Rec) (s : Store B) : Store B * gerr :=
  if negb (is_open s) then (s, Err (ErrWrap operation ErrClosed)) else
  if bool_decide (ids = []) then (s, nil_err) else
  match validateUniqueEventIDs ids with
  | Err e => (s, Err (ErrWrap operation e))
  | Ok _ =>
      match fold_result (update_one operation s now mutate) [] ids with
      | Err e => (s, Err e)
      | Ok updated =>
          let '(s, err) := transact (put_all updated) s in
          match err with
          | Err e => (s, Err (ErrWrap operation e))
          | Ok _ => (update_memory (fst <$> updated) s, nil_err)
          end
      end
  end.

(** A map built from a list of updates: the last of several entries wins. *)
Definition last_wins {A} (l : list (string * A)) : gmap string A :=
  foldl (fun m '(k, v) => <[k := v]> m) ∅ l.

Definition assign (assignments : gmap string Assignment) (id : string) (r : Rec) : result Rec :=
  let a := default (mkAssignment 0 "" "" "") (assignments !! id) in
  if (as_Epoch a =? 0) || str_empty (as_Broker a) || str_empty (as_BrokerEndpoint a) ||
     str_empty (as_Destination a)
  then Err (ErrWrap "incomplete assignment" ErrInvalidRecord) else
  if bool_decide (r_State r = StateReady) && (r_Epoch r =? as_Epoch a) &&
     str_eqb (r_Broker r) (as_Broker a) && str_eqb (r_BrokerEndpoint r) (as_BrokerEndpoint a) &&
     str_eqb (r_Destination r) (as_Destination a)
  then Ok r else
  if negb (bool_decide (r_State r = StateUnassigned)) && negb (bool_decide (r_State r = StateReady))
  then Err (ErrWrap "cannot assign record in state" ErrInvalidState) else
  Ok (r <| r_Epoch := as_Epoch a |> <| r_Broker := as_Broker a |>
        <| r_BrokerEndpoint := as_BrokerEndpoint a |> <| r_Destination := as_Destination a |>
        <| r_State := StateReady |> <| r_LastError := ""%string |>).

Definition assignMany (operation : string) (now : Time) (updates : list AssignmentUpdate)
    (s : Store B) : Store B * gerr :=
  updateMany operation now (au_EventID <$> updates)
    (assign (last_wins ((fun u => (au_EventID u, au_Assignment u)) <$> updates))) s.

Definition Assign (now : Time) (id : string) (a : Assignment) (s : Store B) : Store B * gerr :=
  assignMany "assign" now [mkAssignmentUpdate id a] s.
Definition AssignBatch (now : Time) (updates : list AssignmentUpdate) (s : Store B)
    : Store B * gerr := assignMany "assign batch" now updates s.

Definition begin_attempt (id : string) (r : Rec) : result Rec :=
  if negb (bool_decide (r_State r = StateReady))
  then Err (ErrWrap "cannot publish record in state" ErrInvalidState)
  else Ok (r <| r_State := StateInEventsA |> <| r_Attempts := u64 (r_Attempts r + 1) |>
             <| r_LastError := ""%string |>).

Definition markInEventsAMany (operation : string) (now : Time) (ids : list string) (s : Store B)
    : Store B * gerr := updateMany operation now ids begin_attempt s.
Definition MarkInEventsA (now : Time) (id : string) (s : Store B) : Store B * gerr :=
  markInEventsAMany "mark in eventsA" now [id] s.
Definition MarkInEventsABatch (now : Time) (ids : list string) (s : Store B) : Store B * gerr :=
  markInEventsAMany "mark in eventsA batch" now ids s.

(** [reasons[eventID]] of [splitStateUpdates]. *)
Definition splitStateUpdates (updates : list StateUpdate) : list string * gmap string string :=
  (su_EventID <$> updates, last_wins ((fun u => (su_EventID u, su_Reason u)) <$> updates)).

Definition leave_attempt (next : State) (msg : string) (reasons : gmap string string)
    (id : string) (r : Rec) : result Rec :=
  if negb (bool_decide (r_State r = StateInEventsA))
  then Err (ErrWrap msg ErrInvalidState)
  else Ok (r <| r_State := next |> <| r_LastError := default ""%string (reasons !! id) |>).

Definition markRejectedMany (operation : string) (now : Time) (updates : list StateUpdate)
    (s : Store B) : Store B * gerr :=
  let '(ids, reasons) := splitStateUpdates updates in
  updateMany operation now ids
    (leave_attempt StateReady "cannot reject record in state" reasons) s.
Definition MarkRejected (now : Time) (id reason : string) (s : Store B) : Store B * gerr :=
  markRejectedMany "mark rejected" now [mkStateUpdate id reason] s.
Definition MarkRejectedBatch (now : Time) (updates : list StateUpdate) (s : Store B)
    : Store B * gerr := markRejectedMany "mark rejected batch" now updates s.

Definition markAckUncertainMany (operation : string) (now : Time) (updates : list StateUpdate)
    (s : Store B) : Store B * gerr :=
  let '(ids, reasons) := splitStateUpdates updates in
  updateMany operation now ids
    (leave_attempt StateAckUncertain "cannot mark uncertain record in state" reasons) s.
Definition MarkAckUncertain (now : Time) (id reason : string) (s : Store B) : Store B * gerr :=
  markAckUncertainMany "mark ACK uncertain" now [mkStateUpdate id reason] s.
Definition MarkAckUncertainBatch (now : Time) (updates : list StateUpdate) (s : Store B)
    : Store B * gerr := markAckUncertainMany "mark ACK uncertain batch" now updates s.

Definition retry (id : string) (r : Rec) : result Rec :=
  if negb (bool_decide (r_State r = StateAckUncertain))
  then Err (ErrWrap "cannot retry record in state" ErrInvalidState)
  else Ok (r <| r_State := StateReady |>
             <| r_LastError :=
                  "explicit retry after uncertain ACK; duplicate delivery is possible"%string |>).

Definition retryAckUncertainMany (operation : string) (now : Time) (ids : list string)
    (s : Store B) : Store B * gerr := updateMany operation now ids retry s.
Definition RetryAckUncertain (now : Time) (id : string) (s : Store B) : Store B * gerr :=
  retryAckUncertainMany "retry ACK uncertain" now [id] s.
Definition RetryAckUncertainBatch (now : Time) (ids : list string) (s : Store B) : Store B * gerr :=
  retryAckUncertainMany "retry ACK uncertain batch" now ids s.

(** *** Completion *)
Record completing := mkCompleting {
  cp_seen : gset string;
  cp_applied : list Completion;
  cp_updated : list (Rec * Rec);
  cp_deleted : list Rec;
  cp_bytes : Z;
}.

Definition complete_one (s : Store B) (now : Time) (st : completing) (c : Completion)
    : result completing :=
  fail_if (str_empty (co_EventID c)) (ErrWrap "empty event ID" ErrInvalidRecord) ;;!
  fail_if (bool_decide (co_EventID c ∈ cp_seen st))
    (ErrWrap "event ID appears more than once in batch" ErrInvalidRecord) ;;!
  let seen := {[co_EventID c]} ∪ cp_seen st in
  let skip := mkCompleting seen (cp_applied st) (cp_updated st) (cp_deleted st) (cp_bytes st) in
  match st_records s !! co_EventID c with
  | None => Ok skip
  | Some record =>
      if negb (r_Attempts record =? co_Attempts c) || negb (r_Epoch record =? co_Epoch c)
      then Ok skip else
      let settle next :=
        if negb (bool_decide (r_State record = StateInEventsA)) then Ok skip else
        let record := record <| r_State := next |> <| r_LastError := co_Reason c |>
                             <| r_UpdatedAt := now |> in
        let! e := encode record in
        Ok (mkCompleting seen (cp_applied st ++ [c]) (cp_updated st ++ [(record, e)])
              (cp_deleted st) (cp_bytes st)) in
      match co_Outcome c with
      | CompletionAcknowledged =>
          if negb (bool_decide (r_State record = StateInEventsA)) &&
             negb (bool_decide (r_State record = StateAckUncertain))
          then Ok skip
          else Ok (mkCompleting seen (cp_applied st ++ [c]) (cp_updated st)
                     (cp_deleted st ++ [record]) (cp_bytes st + r_SizeBytes record))
      | CompletionRejected => settle StateReady
      | CompletionAckUncertain => settle StateAckUncertain
      | CompletionOther _ => Err (ErrWrap "invalid completion outcome" ErrInvalidRecord)
      end
  end.

Definition delete_memory (deleted : list Rec) (s : Store B) : Store B :=
  foldl (fun s record =>
    removeIndexed record (s <| st_records := delete (r_EventID record) (st_records s) |>)) s deleted.

(** The in-memory part of a deletion: [removed] records go, [totalBytes] stays. *)
Definition finish_delete (deleted : list Rec) (totalBytes : Z) (s : Store B) : Store B :=
  let s := delete_memory deleted s in
  compactOrderIfNeeded
    (s <| st_bytes := totalBytes |>
       <| st_deleted := st_deleted s + Z.of_nat (length deleted) |>).

Definition CompleteBatch (now : Time) (completions : list Completion) (s : Store B)
    : Store B * result (list Completion) :=
  if negb (is_open s) then (s, Err (ErrWrap "complete batch" ErrClosed)) else
  if bool_decide (completions = []) then (s, Ok []) else
  match fold_result (complete_one s now) (mkCompleting ∅ [] [] [] 0) completions with
  | Err e => (s, Err (ErrWrap "complete batch" e))
  | Ok (mkCompleting _ applied updated deleted removedBytes) =>
      if bool_decide (length applied = 0%nat) then (s, Ok []) else
      let totalBytes := st_bytes s - removedBytes in
      let '(s, err) := transact (fun b =>
        let b := delete_all deleted (put_all updated b) in
        if bool_decide (deleted = []) then b else b <| b_total := totalBytes |>) s in
      match err with
      | Err e => (s, Err (ErrWrap "complete batch" e))
      | Ok _ => (finish_delete deleted totalBytes (update_memory (fst <$> updated) s), Ok applied)
      end
  end.

Definition Ack (now : Time) (id : string) (attempts epoch : Z) (s : Store B) : Store B * gerr :=
  let '(s, out) :=
    CompleteBatch now [mkCompletion id attempts epoch CompletionAcknowledged ""] s in
  (s, match out with
      | Err e => Err e
      | Ok applied =>
          if negb (bool_decide (length applied = 1%nat))
          then Err (ErrWrap "stale attempt" ErrInvalidState) else nil_err
      end).
Definition AckAttempt (now : Time) (id : string) (attempts epoch : Z) (s : Store B)
    : Store B * gerr := Ack now id attempts epoch s.

Definition ack_one (operation : string) (s : Store B) (acc : list Rec * Z) (id : string)
    : result (list Rec * Z) :=
  match st_records s !! id with
  | None => Err (ErrWrap operation ErrNotFound)
  | Some record =>
      fail_if (negb (bool_decide (r_State record = StateInEventsA)) &&
               negb (bool_decide (r_State record = StateAckUncertain)))
        (ErrWrap operation (ErrWrap "cannot ack record in state" ErrInvalidState)) ;;!
      Ok (fst acc ++ [record], snd acc + r_SizeBytes record)
  end.

Definition ackMany (operation : string) (ids : list string) (s : Store B) : Store B * gerr :=
  if negb (is_open s) then (s, Err (ErrWrap operation ErrClosed)) else
  if bool_decide (ids = []) then (s, nil_err) else
  match validateUniqueEventIDs ids with
  | Err e => (s, Err (ErrWrap operation e))
  | Ok _ =>
      match fold_result (ack_one operation s) ([], 0) ids with
      | Err e => (s, Err e)
      | Ok (removed, removedBytes) =>
          let totalBytes := st_bytes s - removedBytes in
          let '(s, err) := transact (fun b =>
            delete_all removed b <| b_total := totalBytes |>) s in
          match err with
          | Err e => (s, Err (ErrWrap operation e))
          | Ok _ => (finish_delete removed totalBytes s, nil_err)
          end
      end
  end.

(** *** Reads *)

(** [lane.eventIDs[lane.head]] of a ready lane and its record. *)
Definition head_record (s : Store B) (key : string) : Rec :=
  let lane := lane_at key s in
  default zero_rec (st_records s !! default ""%string (ln_eventIDs lane !! ln_head lane)).

Definition eligible_matches (epochs brokerSlots : option (gmap string Z)) (used : gmap string Z)
    (record : Rec) : bool :=
  match epochs with
  | None => true
  | Some epochs =>
      match epochs !! r_Group record with
      | Some epoch => epoch =? r_Epoch record
      | None => false
      end
  end &&
  match brokerSlots with
  | None => true
  | Some slots =>
      default 0 (used !! r_Broker record) <? default 0 (slots !! r_Broker record)
  end.

Definition use_slot (record : Rec) (used : gmap string Z) : gmap string Z :=
  <[r_Broker record := default 0 (used !! r_Broker record) + 1]> used.

(** The loop of [EligibleFor]: a lane leaves the candidates for good, so as many
    rounds as there are ready lanes suffice. *)
Fixpoint eligible_loop (fuel : nat) (s : Store B) (limit : Z)
    (epochs brokerSlots : option (gmap string Z)) (ready : list (Z * string))
    (eligible : list Rec) (used : gmap string Z) (candidates : list (nat * (Z * string)))
    : list Rec :=
  match fuel with
  | O => eligible
  | S fuel =>
      if limit <=? Z.of_nat (length eligible) then eligible else
      match pop_candidate rank_less candidates with
      | (_, None) => eligible
      | (candidates, Some (index, lane)) =>
          let record := head_record s (snd lane) in
          let candidates := push_children rank_less ready index candidates in
          if eligible_matches epochs brokerSlots used record
          then eligible_loop fuel s limit epochs brokerSlots ready (eligible ++ [record])
                 (use_slot record used) candidates
          else eligible_loop fuel s limit epochs brokerSlots ready eligible used candidates
      end
  end.

Definition EligibleFor (limit : Z) (epochs brokerSlots : option (gmap string Z)) (s : Store B)
    : list Rec :=
  let ready := lane_rank (st_lanes s) <$> st_readyLanes s in
  match ready with
  | [] => []
  | root :: _ =>
      if (limit <=? 0) || negb (is_open s) then [] else
      eligible_loop (length ready) s (Z.min limit (Z.of_nat (length ready))) epochs brokerSlots
        ready [] ∅ [(0%nat, root)]
  end.
Definition Eligible (limit : Z) (s : Store B) : list Rec := EligibleFor limit None None s.

Definition Records (s : Store B) : list Rec :=
  if negb (is_open s) then [] else omap (fun id => st_records s !! id) (st_order s).
Definition Unassigned (s : Store B) : list Rec :=
  if negb (is_open s) then [] else
  filter (fun r => r_State r = StateUnassigned) (omap (fun id => st_records s !! id) (st_order s)).

Definition Get (id : string) (s : Store B) : result Rec :=
  if negb (is_open s) then Err (ErrWrap "get" ErrClosed) else
  match st_records s !! id with
  | None => Err (ErrWrap "get" ErrNotFound)
  | Some record => Ok record
  end.

Definition store_Stats (s : Store B) : Stats :=
  if negb (is_open s) then mkStats 0 0 0 0 else
  mkStats (Z.of_nat (size (st_records s))) (st_bytes s) (st_highWaterMessages s)
    (st_highWaterBytes s).

(** *** Opening and closing *)
Record Loaded := mkLoaded {
  ld_records : gmap string Rec;
  ld_order : list string;
  ld_bytes : Z;
  ld_maxSequence : Z;
  ld_recovered : list Rec;
}.

Definition recover_record (now : Time) (r : Rec) : Rec :=
  r <| r_State := StateAckUncertain |>
    <| r_LastError := "publish outcome unknown after outbox recovery; retry may duplicate"%string |>
    <| r_UpdatedAt := now |>.

(** One cursor step. *)
Definition load_one (limits : Limits) (now : Time) (events : gmap string Z) (st : Loaded)
    (entry : Z * Rec) : result Loaded :=
  let '(sequence, record) := entry in
  fail_if ((sequence =? 0) || (sequence <=? ld_maxSequence st))
    (ErrNew "invalid record sequence") ;;!
  fail_if (negb (r_Sequence record =? sequence))
    (ErrNew "record sequence does not match index") ;;!
  wrap_err "invalid record" (validateStoredRecord record) ;;!
  fail_if (bool_decide (is_Some (ld_records st !! r_EventID record)))
    (ErrNew "duplicate event ID") ;;!
  fail_if (negb (bool_decide (events !! r_EventID record = Some sequence)))
    (ErrNew "record has inconsistent event index") ;;!
  fail_if (MaxBytes limits - ld_bytes st <? r_SizeBytes record) (ErrWrap "load" ErrFull) ;;!
  let inflight := bool_decide (r_State record = StateInEventsA) in
  let kept := if inflight then recover_record now record else record in
  Ok (mkLoaded (<[r_EventID record := kept]> (ld_records st)) (ld_order st ++ [r_EventID record])
        (ld_bytes st + r_SizeBytes record) sequence
        (if inflight then ld_recovered st ++ [kept] else ld_recovered st)).

(** The cursor visits the keys in byte order, which is the numeric order. *)
Definition cursor (records : gmap Z Rec) : list (Z * Rec) :=
  sort_by (fun x y => fst x <? fst y) (map_to_list records).

Definition event_indexed (loaded : gmap string Rec) (entry : string * Z) : gerr :=
  fail_if (match loaded !! fst entry with
           | Some record => negb (r_Sequence record =? snd entry)
           | None => true
           end) (ErrNew "event has no matching record").

(** The transaction of [load]: the new buckets, the loaded records and the next
    sequence. *)
Definition load_tx (newDatabase : bool) (limits : Limits) (now : Time) (c : option Buckets)
    : result (Buckets * Loaded * Z) :=
  if newDatabase
  then Ok (mkBuckets databaseFormatVersion ∅ ∅ 1 0, mkLoaded ∅ [] 0 0 [], 1) else
  match c with
  | None => Err (ErrNew "missing required bucket")
  | Some b =>
      fail_if (negb (b_format b =? databaseFormatVersion))
        (ErrNew "unsupported format version") ;;!
      fail_if (b_next b =? 0) (ErrNew "invalid next sequence 0") ;;!
      fail_if (max_i64 <? b_total b) (ErrNew "invalid byte count") ;;!
      let! ld := fold_result (load_one limits now (b_events b)) (mkLoaded ∅ [] 0 0 [])
                   (cursor (b_records b)) in
      fail_if (MaxMessages limits <? Z.of_nat (size (ld_records ld))) (ErrWrap "load" ErrFull) ;;!
      fail_if (negb (ld_bytes ld =? b_total b))
        (ErrNew "stored byte count does not match records") ;;!
      for_each (event_indexed (ld_records ld)) (map_to_list (b_events b)) ;;!
      fail_if (negb (bool_decide (size (b_events b) = size (ld_records ld))))
        (ErrNew "event index count does not match record count") ;;!
      fail_if (ld_maxSequence ld =? max_u64) (ErrNew "sequence exhausted") ;;!
      let next := if b_next b <=? ld_maxSequence ld then ld_maxSequence ld + 1 else b_next b in
      let! encoded := encode_all (ld_recovered ld) in
      Ok (put_all encoded b <| b_next := next |>, ld, next)
  end.

Definition load (newDatabase : bool) (now : Time) (limits : Limits) (db : B)
    : B * result (Store B) :=
  let loaded := load_tx newDatabase limits now (contents db) in
  let '(db, err) :=
    Update (fun c => let! out := load_tx newDatabase limits now c in Ok (Some (fst (fst out)))) db in
  match err, loaded with
  | Ok _, Ok (_, ld, next) =>
      (db, Ok (rebuildEligibleIndex {|
        st_limits := limits;
        st_db := Some db;
        st_records := ld_records ld;
        st_order := ld_order ld;
        st_lanes := ∅;
        st_readyLanes := [];
        st_nextSeq := next;
        st_bytes := ld_bytes ld;
        st_highWaterMessages := Z.of_nat (size (ld_records ld));
        st_highWaterBytes := ld_bytes ld;
        st_deleted := 0;
      |}))
  | Err e, _ => (db, Err (ErrWrap "load outbox" e))
  | Ok _, Err e => (db, Err (ErrWrap "load outbox" e))
  end.

Definition default_limits (limits : Limits) : Limits :=
  mkLimits (if MaxMessages limits =? 0 then defaultMaxMessages else MaxMessages limits)
    (if MaxBytes limits =? 0 then defaultMaxBytes else MaxBytes limits).

(** [Open] on an opened database file; whether the file is new, the directory
    and the file itself are the operating system's. *)
Definition Open (newDatabase : bool) (now : Time) (limits : Limits) (db : B)
    : B * result (Store B) :=
  if (MaxMessages limits <? 0) || (MaxBytes limits <? 0)
  then (db, Err (ErrNew "open outbox: limits must not be negative"))
  else load newDatabase now (default_limits limits) db.

Definition Close (s : Store B) : Store B := s <| st_db := None |>.
End Operations.
