(* ===== verification/OutboxIndex.v ===== *)
(** * The eligible index of the outbox

    The ready-lane heap and the back pointers of its lanes stay consistent
    ([heap_inv]), and refreshing or removing a lane changes only that lane. *)

From S2P Require Import Prelude Heap Outbox.
From Stdlib Require Import ZArith Lia.
From stdpp Require Import base gmap strings sorting numbers option list.
#[local] Open Scope Z_scope.

(** ** The rank order *)
Lemma rank_less_asym a b : rank_less a b = true -> rank_less b a = false.
Proof.
  unfold rank_less. rewrite (Z.eqb_sym (fst b)). destruct (Z.eqb_spec (fst a) (fst b)); cbn.
  - apply str_ltb_asym.
  - intros H. to_prop. apply Z.ltb_ge. lia.
Qed.

Lemma rank_le_trans a b c :
  le_by rank_less a b -> le_by rank_less b c -> le_by rank_less a c.
Proof.
  unfold le_by, rank_less. intros H1 H2.
  destruct (Z.eqb_spec (fst b) (fst a)), (Z.eqb_spec (fst c) (fst b)),
    (Z.eqb_spec (fst c) (fst a)); cbn in *; to_prop; try lia; try (apply Z.ltb_ge; lia).
  by eapply str_le_trans.
Qed.

Lemma rank_le_antisym a b : le_by rank_less a b -> le_by rank_less b a -> a = b.
Proof.
  unfold le_by, rank_less. rewrite (Z.eqb_sym (fst a)). intros H1 H2.
  destruct (Z.eqb_spec (fst b) (fst a)) as [He|]; cbn in *; to_prop; [|lia].
  destruct a as [x s], b as [y t]. cbn in *. subst. f_equal. by apply str_ltb_total.
Qed.

(** ** Lanes up to their back pointers *)
Definition erase (l : Lane) : Lane := l <| ln_readyIndex := 0 |>.
Definition same_lanes (m m' : gmap string Lane) : Prop := erase <$> m = erase <$> m'.

#[export] Instance same_lanes_equiv : Equivalence same_lanes.
Proof. unfold same_lanes. split; congruence. Qed.

Lemma same_lanes_lookup m m' k l :
  same_lanes m m' -> m !! k = Some l -> exists i, m' !! k = Some (l <| ln_readyIndex := i |>).
Proof.
  intros Hs Hl. apply (f_equal (lookup k)) in Hs. rewrite !lookup_fmap, Hl in Hs.
  destruct (m' !! k) as [l'|]; [|done]. cbn in Hs. injection Hs as H1 H2 H3.
  exists (ln_readyIndex l'). destruct l, l'. cbn in *. by subst.
Qed.

Lemma same_lanes_None m m' k : same_lanes m m' -> m !! k = None <-> m' !! k = None.
Proof.
  intros Hs. apply (f_equal (lookup k)) in Hs. rewrite !lookup_fmap in Hs.
  by destruct (m !! k), (m' !! k).
Qed.

Lemma same_lanes_set k i m : same_lanes (set_ready_index k i m) m.
Proof.
  unfold same_lanes, set_ready_index. apply map_eq. intros j. rewrite !lookup_fmap.
  destruct (decide (j = k)) as [->|]; [rewrite lookup_alter_eq|by rewrite lookup_alter_ne].
  by destruct (m !! k).
Qed.

Lemma same_lanes_seq m m' k : same_lanes m m' -> head_seq m k = head_seq m' k.
Proof.
  intros Hs. unfold head_seq. destruct (m !! k) as [l|] eqn:Hl.
  - by destruct (same_lanes_lookup _ _ _ _ Hs Hl) as [i ->].
  - by apply (same_lanes_None _ _ k Hs) in Hl as ->.
Qed.

(** ** The heap shows the ranks of its lanes *)
Definition ranks (h : LaneHeap) : list (Z * string) := lane_rank (snd h) <$> fst h.

Lemma ranks_same m m' (keys : list string) : same_lanes m m' -> lane_rank m <$> keys = lane_rank m' <$> keys.
Proof.
  intros Hs. apply list_fmap_ext. intros _ k _. unfold lane_rank. f_equal. by apply same_lanes_seq.
Qed.

Lemma list_Swap_fmap {A C} (f : A -> C) (l : list A) i j : f <$> list_Swap l i j = list_Swap (f <$> l) i j.
Proof.
  unfold list_Swap. rewrite !list_lookup_fmap.
  destruct (l !! i), (l !! j); cbn; rewrite ?list_fmap_insert; done.
Qed.

Lemma lane_Swap_same h i j : same_lanes (snd (lane_Swap h i j)) (snd h).
Proof.
  unfold lane_Swap. destruct (fst h !! i), (fst h !! j); cbn; try done.
  by rewrite !same_lanes_set.
Qed.

#[export] Instance lane_view : HeapView LaneHeap (Z * string) rank_less.
Proof.
  refine {| h_view := ranks |}; unfold ranks.
  - intros c. cbn. by rewrite length_fmap.
  - intros c i j. cbn. unfold lane_Less, list_Less. rewrite !list_lookup_fmap.
    by destruct (fst c !! i), (fst c !! j).
  - intros c i j. rewrite (ranks_same _ (snd c)) by apply lane_Swap_same.
    cbn [h_Swap lane_heap]. unfold lane_Swap. rewrite <- list_Swap_fmap.
    destruct (fst c !! i) eqn:Hi, (fst c !! j) eqn:Hj; cbn; try done;
      unfold list_Swap; by rewrite ?Hi, ?Hj.
Defined.

(** ** Back pointers *)
Record pointers_ok (h : LaneHeap) : Prop := {
  po_in : forall i k, fst h !! i = Some k ->
    exists l, snd h !! k = Some l /\ ln_readyIndex l = Z.of_nat i;
  po_out : forall k l, snd h !! k = Some l -> k ∉ fst h -> ln_readyIndex l = -1;
}.

Lemma pointers_NoDup h : pointers_ok h -> NoDup (fst h).
Proof.
  intros [Hin _]. apply NoDup_alt. intros i j k Hi Hj.
  apply Hin in Hi as (l & Hl & E1), Hj as (l' & Hl' & E2). simplify_eq. lia.
Qed.

Lemma set_ready_lookup key i m k :
  set_ready_index key i m !! k =
  if decide (k = key) then (fun l => l <| ln_readyIndex := i |>) <$> m !! k else m !! k.
Proof.
  unfold set_ready_index. case_decide as Hk.
  - subst. by rewrite lookup_alter_eq.
  - by rewrite lookup_alter_ne.
Qed.

Lemma pointers_Swap h i j : pointers_ok h -> pointers_ok (lane_Swap h i j).
Proof.
  intros Hp. pose proof (pointers_NoDup h Hp) as Hnd. destruct Hp as [Hin Hout].
  unfold lane_Swap. destruct (fst h !! i) as [a|] eqn:Ha; [|done].
  destruct (fst h !! j) as [b|] eqn:Hb; [|done].
  assert (Hperm : list_Swap (fst h) i j ≡ₚ fst h) by apply swap_perm.
  split; cbn [fst snd].
  - intros n k. rewrite (swap_lookup _ _ _ _ _ _ Ha Hb). rewrite !set_ready_lookup. intros Hk.
    destruct (Hin _ _ Ha) as (la & Hla & _), (Hin _ _ Hb) as (lb & Hlb & _).
    destruct (Nat.eqb_spec n i) as [->|Hni].
    { injection Hk as <-. destruct (decide (b = a)) as [->|Hba].
      - rewrite Hla. case_decide; [|done]. cbn. eexists. split; [done|]. cbn.
        f_equal. by eapply NoDup_lookup.
      - rewrite decide_True by done. rewrite Hlb. eexists. split; [done|]. done. }
    destruct (Nat.eqb_spec n j) as [->|Hnj].
    { injection Hk as <-. rewrite decide_True by done. case_decide; rewrite Hla; eexists; done. }
    assert (k <> a) by (intros ->; by apply Hni, (NoDup_lookup _ _ _ _ Hnd Hk Ha)).
    assert (k <> b) by (intros ->; by apply Hnj, (NoDup_lookup _ _ _ _ Hnd Hk Hb)).
    rewrite !decide_False by done. by apply Hin.
  - intros k l. rewrite Hperm, !set_ready_lookup. intros Hl Hk.
    assert (k <> a) by (intros ->; apply Hk; by eapply list_elem_of_lookup_2).
    assert (k <> b) by (intros ->; apply Hk; by eapply list_elem_of_lookup_2).
    rewrite !decide_False in Hl by done. by apply (Hout k).
Qed.

(** What every swap keeps, [up] and [down] keep. *)
Lemma up_keeps (P : LaneHeap -> Prop) h j :
  (forall h i j, P h -> P (lane_Swap h i j)) -> P h -> P (up h j).
Proof.
  intros HP. unfold up. generalize (S j) as fuel. intros fuel. revert h j.
  induction fuel as [|fuel IH]; intros h j Hh; [done|]. cbn. case_match; [done|].
  apply IH. by apply HP.
Qed.

Lemma down_keeps (P : LaneHeap -> Prop) h i n :
  (forall h i j, P h -> P (lane_Swap h i j)) -> P h -> P (fst (down h i n)).
Proof.
  intros HP Hh. unfold down.
  cut (P (fst (down_fuel n h i n))); [by destruct (down_fuel n h i n)|].
  generalize n at 1 as fuel. intros fuel. revert h i Hh.
  induction fuel as [|fuel IH]; intros h i Hh; [done|]. cbn [down_fuel]. case_match; [done|].
  case_match; [done|]. apply IH. by apply HP.
Qed.

(** ** Push and Remove on the lane heap *)
Record heap_inv (h : LaneHeap) : Prop := {
  hi_heap : heap_ok rank_less (ranks h);
  hi_pointers : pointers_ok h;
}.

Lemma up_same h j : same_lanes (snd (up h j)) (snd h).
Proof.
  apply (up_keeps (fun h' => same_lanes (snd h') (snd h))); [|done].
  intros h' i k Hs. by rewrite lane_Swap_same.
Qed.
Lemma down_same h i n : same_lanes (snd (fst (down h i n))) (snd h).
Proof.
  apply (down_keeps (fun h' => same_lanes (snd h') (snd h))); [|done].
  intros h' a b Hs. by rewrite lane_Swap_same.
Qed.

(** The keys are the second components of the ranks. *)
Lemma ranks_keys h : snd <$> ranks h = fst h.
Proof. unfold ranks. rewrite <- list_fmap_compose. apply list_fmap_id. Qed.

Lemma ranks_perm h h' r : ranks h ≡ₚ r :: ranks h' -> fst h ≡ₚ snd r :: fst h'.
Proof. intros Hp. rewrite <- !ranks_keys, Hp. done. Qed.

Lemma lane_Push_ok k h l :
  heap_inv h -> snd h !! k = Some l -> k ∉ fst h ->
  let h' := heap_Push lane_Push k h in
  heap_inv h' /\ fst h' ≡ₚ k :: fst h /\ same_lanes (snd h') (snd h).
Proof.
  intros [Hh Hp] Hl Hk. unfold heap_Push. set (h1 := lane_Push k h).
  assert (Hs1 : same_lanes (snd h1) (snd h)) by apply same_lanes_set.
  assert (Hr1 : ranks h1 = list_push (lane_rank (snd h) k) (ranks h)).
  { unfold ranks. rewrite (ranks_same _ _ _ Hs1). unfold h1, list_push. cbn. by rewrite fmap_app. }
  assert (Hp1 : pointers_ok h1).
  { destruct Hp as [Hin Hout]. unfold h1, lane_Push. split; cbn [fst snd].
    - intros i a Ha. rewrite set_ready_lookup. apply lookup_app_Some in Ha as [Ha|[Hge Ha]].
      + assert (a <> k) by (intros ->; apply Hk; by eapply list_elem_of_lookup_2).
        rewrite decide_False by done. by apply Hin.
      + apply list_lookup_singleton_Some in Ha as [Hz <-]. rewrite decide_True, Hl by done.
        eexists. split; [done|]. cbn. lia.
    - intros a la. rewrite set_ready_lookup, elem_of_app, list_elem_of_singleton.
      intros Hla Ha. rewrite decide_False in Hla by tauto. apply (Hout a); tauto. }
  assert (Hlen : (length (fst h1) - 1)%nat = (length (list_push (lane_rank (snd h) k) (ranks h)) - 1)%nat).
  { unfold h1, lane_Push, list_push, ranks. cbn. by rewrite !length_app, length_fmap. }
  destruct (heap_Push_ok rank_less rank_less_asym rank_le_trans (lane_rank (snd h) k) (ranks h) Hh)
    as [Ho Hperm]. unfold heap_Push in Ho, Hperm. cbn [h_Len list_heap] in Ho, Hperm.
  cbn [h_Len lane_heap]. rewrite Hlen.
  assert (Hv : ranks (up h1 (length (list_push (lane_rank (snd h) k) (ranks h)) - 1)) =
    up (H := list_heap rank_less) (list_push (lane_rank (snd h) k) (ranks h))
       (length (list_push (lane_rank (snd h) k) (ranks h)) - 1)).
  { rewrite <- Hr1 at 2. exact (view_up (less := rank_less) h1 _). }
  rewrite <- Hv in Ho, Hperm. split_and!.
  - split; [done|]. apply up_keeps; [|done]. intros. by apply pointers_Swap.
  - rewrite <- ranks_keys, Hperm. cbn. by rewrite ranks_keys.
  - by rewrite up_same.
Qed.

(** The lane's [Pop] is the list's. *)
Lemma lane_Pop_view h :
  ranks (fst (lane_Pop h)) = fst (list_pop (ranks h)) /\ same_lanes (snd (fst (lane_Pop h))) (snd h).
Proof.
  unfold lane_Pop, list_pop. destruct (last (fst h)) as [k|] eqn:Hk; cbn.
  - split; [|apply same_lanes_set]. unfold ranks. cbn.
    rewrite (ranks_same _ _ _ (same_lanes_set k (-1) (snd h))).
    by rewrite length_fmap, fmap_take.
  - split; [|done]. apply last_None in Hk. unfold ranks. by rewrite Hk.
Qed.

Lemma pointers_Pop h : pointers_ok h -> pointers_ok (fst (lane_Pop h)).
Proof.
  intros Hp. pose proof (pointers_NoDup _ Hp) as Hnd. destruct Hp as [Hin Hout].
  unfold lane_Pop. destruct (last (fst h)) as [k|] eqn:Hk; [|by split]. cbn.
  apply last_Some in Hk as [l' Hl']. rewrite Hl' in *. rewrite length_app. cbn.
  replace (length l' + 1 - 1)%nat with (length l') by lia. rewrite take_app_length.
  apply NoDup_app in Hnd as (_ & Hd & _). split; cbn [fst snd].
  - intros i a Ha. assert (a <> k).
    { intros ->. eapply Hd; [by eapply list_elem_of_lookup_2|]. by left. }
    rewrite set_ready_lookup, decide_False by done. apply Hin. by apply lookup_app_l_Some.
  - intros a la. rewrite set_ready_lookup. case_decide as Hak.
    + subst. intros (l & _ & ->)%fmap_Some. done.
    + intros Hla Ha. apply (Hout a); [done|]. set_solver.
Qed.

(** Before the final [Pop], [Remove] only swaps. *)
Lemma lane_Remove_ok h i k :
  heap_inv h -> fst h !! i = Some k ->
  let h' := fst (heap_Remove lane_Pop h i) in
  heap_inv h' /\ fst h ≡ₚ k :: fst h' /\ same_lanes (snd h') (snd h).
Proof.
  intros [Hh Hp] Hk.
  assert (Hr : ranks h !! i = Some (lane_rank (snd h) k)).
  { unfold ranks. by rewrite list_lookup_fmap, Hk. }
  pose proof (heap_Remove_ok rank_less rank_less_asym rank_le_trans i _ _ Hh Hr) as Hok.
  cut (exists c, heap_Remove lane_Pop h i = lane_Pop c /\ pointers_ok c /\
         same_lanes (snd c) (snd h) /\
         heap_Remove (H := list_heap rank_less) list_pop (ranks h) i = list_pop (ranks c)).
  { intros (c & Hc & Hpc & Hsc & Hrc). rewrite Hc. rewrite Hrc in Hok.
    destruct (lane_Pop_view c) as [Hv Hs]. pose proof (pointers_Pop c Hpc) as Hpp.
    destruct (list_pop (ranks c)) as [l' o]. cbn in Hv. rewrite <- Hv in Hok.
    destruct Hok as (_ & Hh' & Hperm). split_and!; [by split| |by rewrite Hs].
    exact (ranks_perm _ _ _ Hperm). }
  unfold heap_Remove. cbn [h_Len h_Swap list_heap lane_heap].
  replace (length (ranks h)) with (length (fst h)) by (unfold ranks; by rewrite length_fmap).
  destruct (length (fst h) - 1 =? i)%nat; [by exists h|]. set (n := (length (fst h) - 1)%nat).
  assert (Hsw : ranks (lane_Swap h i n) = list_Swap (ranks h) i n) by exact (view_Swap h i n).
  rewrite <- Hsw. set (h1 := lane_Swap h i n).
  assert (Hp1 : pointers_ok h1) by (by apply pointers_Swap).
  assert (Hs1 : same_lanes (snd h1) (snd h)) by apply lane_Swap_same.
  destruct (view_down (less := rank_less) h1 i n) as [Hd1 Hd2]. cbn [h_view lane_view] in Hd1, Hd2.
  destruct (down h1 i n) as [h2 moved] eqn:E2.
  destruct (down (H := list_heap rank_less) (ranks h1) i n) as [l2 moved'] eqn:E3. cbn in Hd1, Hd2. subst.
  assert (Hp2 : pointers_ok h2).
  { change h2 with (fst (h2, moved')). rewrite <- E2. apply down_keeps; [|done].
    intros. by apply pointers_Swap. }
  assert (Hs2 : same_lanes (snd h2) (snd h)).
  { change h2 with (fst (h2, moved')). rewrite <- E2, down_same. done. }
  destruct moved'; [by exists h2|]. exists (up h2 i). split_and!; [done| | |].
  - apply up_keeps; [|done]. intros. by apply pointers_Swap.
  - by rewrite up_same.
  - f_equal. symmetry. exact (view_up (less := rank_less) h2 i).
Qed.

(** ** The index of a store *)
Section StoreIndex.
Context {B : Type}.
Implicit Types s : Store B.

Definition lane_state s : LaneHeap := (st_readyLanes s, st_lanes s).

(** Nothing but the index changes. *)
Definition index_only s s' : Prop :=
  s' = s <| st_lanes := st_lanes s' |> <| st_readyLanes := st_readyLanes s' |>.

(** Every lane but [key]'s is as before. *)
Definition others_kept (key : string) s s' : Prop :=
  forall k, k <> key ->
    erase <$> st_lanes s' !! k = erase <$> st_lanes s !! k /\
    (k ∈ st_readyLanes s' <-> k ∈ st_readyLanes s).

Lemma index_only_refl s : index_only s s.
Proof. unfold index_only. by destruct s. Qed.

Lemma index_only_trans s1 s2 s3 : index_only s1 s2 -> index_only s2 s3 -> index_only s1 s3.
Proof. unfold index_only. intros H1 H2. rewrite H2, H1. done. Qed.

Lemma index_only_fields s s' :
  index_only s s' ->
  st_records s' = st_records s /\ st_order s' = st_order s /\ st_db s' = st_db s /\
  st_limits s' = st_limits s /\ st_nextSeq s' = st_nextSeq s /\ st_bytes s' = st_bytes s.
Proof. intros H. rewrite H. done. Qed.

Lemma others_kept_refl key s : others_kept key s s.
Proof. done. Qed.

Lemma others_kept_trans key s1 s2 s3 :
  others_kept key s1 s2 -> others_kept key s2 s3 -> others_kept key s1 s3.
Proof.
  intros H12 H23 k Hk. destruct (H12 k Hk) as [E1 E2], (H23 k Hk) as [E3 E4].
  by rewrite E3, E4.
Qed.

Lemma remove_ready_ok key s :
  heap_inv (lane_state s) ->
  let s' := remove_ready key s in
  index_only s s' /\ heap_inv (lane_state s') /\ others_kept key s s' /\
  same_lanes (st_lanes s') (st_lanes s) /\ key ∉ st_readyLanes s'.
Proof.
  intros Hi. unfold remove_ready, lane_at. pose proof Hi as [Hh [Hin Hout]].
  assert (Hnone : st_lanes s !! key = None -> key ∉ st_readyLanes s).
  { intros Hl [i Hk]%list_elem_of_lookup_1. destruct (Hin _ _ Hk) as (l & E & _).
    cbn in E. by rewrite Hl in E. }
  destruct (st_lanes s !! key) as [ln|] eqn:Hl; cbn.
  2: { split_and!; try done; [apply index_only_refl|by apply Hnone]. }
  destruct (Z.leb_spec 0 (ln_readyIndex ln)) as [Hge|Hlt].
  - assert (Hk : fst (lane_state s) !! Z.to_nat (ln_readyIndex ln) = Some key).
    { destruct (decide (key ∈ st_readyLanes s)) as [[i Hk]%list_elem_of_lookup_1|Hn].
      - destruct (Hin _ _ Hk) as (l & E & Hx). cbn in E. simplify_eq. by rewrite Hx, Nat2Z.id.
      - apply (Hout key ln) in Hn; [lia|done]. }
    destruct (lane_Remove_ok (lane_state s) _ key Hi Hk) as (Hi' & Hperm & Hs).
    change (st_readyLanes s, st_lanes s) with (lane_state s).
    set (h' := fst (heap_Remove lane_Pop (lane_state s) _)) in *. cbn.
    assert (Hnd : NoDup (key :: fst h')).
    { rewrite <- Hperm. apply pointers_NoDup. by split. }
    apply NoDup_cons in Hnd as [Hnin _]. split_and!; [done|by destruct h'| |done|done].
    intros k Hne. cbn. split.
    + apply (f_equal (lookup k)) in Hs. by rewrite !lookup_fmap in Hs.
    + change (st_readyLanes s) with (fst (lane_state s)). rewrite Hperm. set_solver.
  - split_and!; try done; [apply index_only_refl|]. intros [i Hk]%list_elem_of_lookup_1.
    destruct (Hin _ _ Hk) as (l & E & Hx). cbn in E. simplify_eq. lia.
Qed.

(** Changing a lane that is not in the heap. *)
Lemma update_lane_ok key f s :
  heap_inv (lane_state s) -> key ∉ st_readyLanes s ->
  (forall l, ln_readyIndex (f l) = ln_readyIndex l) ->
  let s' := update_lane key f s in
  index_only s s' /\ heap_inv (lane_state s') /\ others_kept key s s' /\
  st_readyLanes s' = st_readyLanes s.
Proof.
  intros [Hh [Hin Hout]] Hk Hf. unfold update_lane. cbn. split_and!; [done| | |done].
  - assert (Hl : forall k, k ∈ st_readyLanes s -> alter f key (st_lanes s) !! k = st_lanes s !! k).
    { intros k Hkr. rewrite lookup_alter_ne; [done|]. intros <-. done. }
    split; [|split]; cbn.
    + unfold ranks, lane_state in *. cbn in *. erewrite list_fmap_ext; [exact Hh|].
      intros i k Hik%list_elem_of_lookup_2. unfold lane_rank, head_seq. cbn. by rewrite Hl.
    + intros i k Hik. rewrite Hl by (by eapply list_elem_of_lookup_2). by apply Hin.
    + intros k l. destruct (decide (k = key)) as [->|].
      * rewrite lookup_alter_eq. intros (l0 & E & ->)%fmap_Some Hn. rewrite Hf. by apply (Hout key).
      * rewrite lookup_alter_ne by done. apply Hout.
  - intros k Hne. cbn. by rewrite lookup_alter_ne.
Qed.

(** The record at the head of a lane. *)
Definition head_of s (ln : Lane) : option Rec :=
  ln_eventIDs ln !! ln_head ln ≫= fun id => st_records s !! id.

Definition head_seq_of s (ln : Lane) : Z :=
  match head_of s ln with Some r => r_Sequence r | None => 0 end.

Definition head_ready s (ln : Lane) : Prop :=
  exists r, head_of s ln = Some r /\ r_State r = StateReady.

Lemma erase_eq l l' : erase l = erase l' ->
  ln_eventIDs l = ln_eventIDs l' /\ ln_head l = ln_head l' /\ ln_headSequence l = ln_headSequence l'.
Proof. intros H. by injection H as -> -> ->. Qed.

Lemma refreshLane_ok key s ln :
  heap_inv (lane_state s) -> st_lanes s !! key = Some ln ->
  let s' := refreshLane key s in
  index_only s s' /\ heap_inv (lane_state s') /\ others_kept key s s' /\
  erase <$> st_lanes s' !! key = Some (erase (ln <| ln_headSequence := head_seq_of s ln |>)) /\
  (key ∈ st_readyLanes s' <-> head_ready s ln).
Proof.
  intros Hi Hl. unfold refreshLane.
  destruct (remove_ready_ok key s Hi) as (I1 & H1 & O1 & S1 & N1).
  set (s1 := remove_ready key s) in *. cbn zeta.
  destruct (index_only_fields _ _ I1) as (Er & _).
  symmetry in S1. destruct (same_lanes_lookup _ _ _ _ S1 Hl) as [i Hl1].
  assert (Hat : lane_at key s1 = ln <| ln_readyIndex := i |>) by (unfold lane_at; by rewrite Hl1).
  rewrite Hat. cbn [ln_eventIDs ln_head setter].
  assert (Hset : forall q, let s2 := update_lane key (fun l => l <| ln_headSequence := q |>) s1 in
    index_only s s2 /\ heap_inv (lane_state s2) /\ others_kept key s s2 /\
    st_lanes s2 !! key = Some (ln <| ln_headSequence := q |> <| ln_readyIndex := i |>) /\
    key ∉ st_readyLanes s2).
  { intros q. destruct (update_lane_ok key (fun l => l <| ln_headSequence := q |>) s1 H1 N1)
      as (I2 & H2 & O2 & R2); [done|]. cbn zeta. rewrite R2. split_and!; try done.
    - by eapply index_only_trans.
    - by eapply others_kept_trans.
    - unfold update_lane. cbn. by rewrite lookup_alter_eq, Hl1. }
  assert (Hmiss : forall q, head_of s ln = None -> q = 0 ->
    let s2 := update_lane key (fun l => l <| ln_headSequence := q |>) s1 in
    index_only s s2 /\ heap_inv (lane_state s2) /\ others_kept key s s2 /\
    erase <$> st_lanes s2 !! key = Some (erase (ln <| ln_headSequence := head_seq_of s ln |>)) /\
    (key ∈ st_readyLanes s2 <-> head_ready s ln)).
  { intros q Hn ->. destruct (Hset 0) as (I2 & H2 & O2 & L2 & N2). cbn zeta.
    split_and!; try done.
    - rewrite L2. cbn. unfold head_seq_of. rewrite Hn. done.
    - split; [done|]. intros (r & E & _). congruence. }
  unfold head_of in Hmiss.
  destruct (ln_eventIDs ln !! ln_head ln) as [id|] eqn:Hid; [|by apply Hmiss].
  cbn in Hmiss. rewrite Er. destruct (st_records s !! id) as [r|] eqn:Hr; [|by apply Hmiss].
  clear Hmiss. destruct (Hset (r_Sequence r)) as (I2 & H2 & O2 & L2 & N2).
  set (s2 := update_lane _ _ s1) in *.
  assert (Hho : head_of s ln = Some r) by (unfold head_of; by rewrite Hid).
  assert (Hseq : head_seq_of s ln = r_Sequence r) by (unfold head_seq_of; by rewrite Hho).
  rewrite Hseq. case_bool_decide as Hst.
  2: { split_and!; try done; [by rewrite L2|]. split; [done|]. intros (r' & E & ?). congruence. }
  destruct (lane_Push_ok key (lane_state s2) _ H2 L2 N2) as (H3 & P3 & S3).
  change (st_readyLanes s2, st_lanes s2) with (lane_state s2).
  set (h := heap_Push lane_Push key (lane_state s2)) in *.
  assert (Hlook : forall k, erase <$> snd h !! k = erase <$> st_lanes s2 !! k).
  { intros k. apply (f_equal (lookup k)) in S3. by rewrite !lookup_fmap in S3. }
  clearbody h. split_and!.
  - eapply index_only_trans; [exact I2|]. done.
  - by destruct h.
  - eapply others_kept_trans; [exact O2|]. intros k Hne. cbn. split; [apply Hlook|].
    rewrite P3. cbn. set_solver.
  - cbn. by rewrite Hlook, L2.
  - cbn. rewrite P3. split; [|intros _; by left]. intros _. by exists r.
Qed.
End StoreIndex.
