(* ===== verification/OutboxMemory.v ===== *)
(** * The memory of the outbox

    [recs s] is what the store holds, in acceptance order; [mem_ok] relates the
    order, the lanes and the ready heap to it.  Accepting, changing and deleting
    one record do to [recs] what they say and keep [mem_ok]. *)

From S2P Require Import Prelude Heap Outbox OutboxIndex.
From Stdlib Require Import ZArith Lia.
From stdpp Require Import base gmap strings sorting numbers option list.
#[local] Open Scope Z_scope.

(** ** Lists of options *)
Lemma omap_app_one {A C} (f : A -> option C) (l : list A) x y : f x = Some y -> omap f (l ++ [x]) = omap f l ++ [y].
Proof. intros H. rewrite omap_app. cbn. by rewrite H. Qed.

Lemma omap_ext_in {A C} (f g : A -> option C) (l : list A) :
  (forall x, x ∈ l -> f x = g x) -> omap f l = omap g l.
Proof.
  intros H. apply list_omap_ext. apply Forall_Forall2_diag, Forall_forall. exact H.
Qed.

Lemma omap_omap {A C D} (f : A -> option C) (g : C -> option D) (l : list A) :
  omap g (omap f l) = omap (fun x => f x ≫= g) l.
Proof.
  induction l as [|x l IH]; [done|]. cbn. destruct (f x) as [y|]; cbn; [|done].
  by destruct (g y); cbn; rewrite IH.
Qed.

Lemma omap_drop_head {A C} (f : A -> option C) (l : list A) n x y :
  l !! n = Some x -> f x = Some y -> omap f (drop n l) = y :: omap f (drop (S n) l).
Proof.
  intros Hx Hy. rewrite <- (take_drop_middle l n x Hx) at 1.
  rewrite drop_app_length'; [cbn; by rewrite Hy|].
  apply lookup_lt_Some in Hx. rewrite length_take. lia.
Qed.

Section Sorted.
Context {A : Type} (key : A -> Z).
Abbreviation by_key := (fun a b => key a < key b).

Lemma sorted_omap (f : A -> option A) (l : list A) :
  (forall x y, f x = Some y -> key y = key x) ->
  StronglySorted by_key l -> StronglySorted by_key (omap f l).
Proof.
  intros Hf. induction 1 as [|x l Hs IH Hx]; cbn; [constructor|].
  destruct (f x) as [y|] eqn:E; [|done]. constructor; [done|].
  apply Forall_forall. intros z (w & Hw & Hz)%list_elem_of_omap.
  rewrite (Hf _ _ E), (Hf _ _ Hz). rewrite Forall_forall in Hx. by apply Hx.
Qed.

Lemma sorted_snoc (l : list A) x :
  StronglySorted by_key l -> (forall y, y ∈ l -> key y < key x) -> StronglySorted by_key (l ++ [x]).
Proof.
  induction 1 as [|y l Hs IH Hy]; cbn; intros Hx; [repeat constructor|].
  constructor; [apply IH; intros; apply Hx; by right|].
  rewrite Forall_app. split; [done|]. apply Forall_singleton. apply Hx. left.
Qed.

Lemma sorted_NoDup (l : list A) : StronglySorted by_key l -> NoDup l.
Proof.
  induction 1 as [|x l Hs IH Hx]; constructor; [|done].
  intros Hin. rewrite Forall_forall in Hx. specialize (Hx _ Hin). lia.
Qed.
End Sorted.

(** ** What the store holds *)
Section Memory.
Context {B : Type}.
Implicit Types s : Store B.

Definition live s (ids : list string) : list Rec := omap (fun id => st_records s !! id) ids.
Definition recs s : list Rec := live s (st_order s).
Definition in_lane (k : string) (r : Rec) : Prop := effectiveOrderingKey r = k.
#[local] Instance in_lane_dec k r : Decision (in_lane k r).
Proof. unfold in_lane. apply _. Defined.
Definition queue s (k : string) : list Rec := filter (in_lane k) (recs s).

Record lane_fits s (k : string) (ln : Lane) : Prop := {
  lf_tail : live s (drop (ln_head ln) (ln_eventIDs ln)) = queue s k;
  lf_head : is_Some (head_of s ln);
  lf_seq : ln_headSequence ln = head_seq_of s ln;
  lf_ready : k ∈ st_readyLanes s <-> head_ready s ln;
}.

Record mem_ok s : Prop := {
  mo_ids : forall id r, st_records s !! id = Some r -> r_EventID r = id;
  mo_all : forall id r, st_records s !! id = Some r -> id ∈ st_order s;
  mo_sorted : StronglySorted (fun a b => r_Sequence a < r_Sequence b) (recs s);
  mo_heap : heap_inv (lane_state s);
  mo_lane : forall k ln, st_lanes s !! k = Some ln -> lane_fits s k ln;
  mo_none : forall k, st_lanes s !! k = None -> queue s k = [];
}.

(** An identifier that no record, order entry or lane still mentions. *)
Record fresh_id s (id : string) : Prop := {
  fi_order : id ∉ st_order s;
  fi_lanes : forall k ln, st_lanes s !! k = Some ln -> id ∉ drop (ln_head ln) (ln_eventIDs ln);
}.

Lemma elem_of_live s ids r : r ∈ live s ids <-> exists id, id ∈ ids /\ st_records s !! id = Some r.
Proof. apply list_elem_of_omap. Qed.

Lemma elem_of_recs s r :
  mem_ok s -> r ∈ recs s <-> st_records s !! r_EventID r = Some r.
Proof.
  intros Hm. unfold recs. rewrite elem_of_live. split.
  - intros (id & _ & Hr). by rewrite (mo_ids _ Hm _ _ Hr).
  - intros Hr. exists (r_EventID r). split; [by eapply mo_all|done].
Qed.

(** ** Index changes *)
Lemma head_of_erase s ln ln' : erase ln = erase ln' -> head_of s ln = head_of s ln'.
Proof. intros (H1 & H2 & _)%erase_eq. unfold head_of. by rewrite H1, H2. Qed.

Lemma head_of_records s s' ln : st_records s = st_records s' -> head_of s ln = head_of s' ln.
Proof. unfold head_of. by intros ->. Qed.

(** A lane fits whatever changed elsewhere. *)
Lemma lane_fits_keep s s' k ln ln' :
  st_records s' = st_records s -> st_order s' = st_order s -> erase ln' = erase ln ->
  (k ∈ st_readyLanes s' <-> k ∈ st_readyLanes s) -> lane_fits s k ln -> lane_fits s' k ln'.
Proof.
  intros Hr Ho He Hk [Ht Hh Hs Hrd]. pose proof (erase_eq _ _ He) as (E1 & E2 & E3).
  assert (Hho : head_of s' ln' = head_of s ln).
  { rewrite (head_of_records s' s) by done. by apply head_of_erase. }
  split.
  - unfold live, queue, recs, live in *. rewrite E1, E2, Hr, Ho. done.
  - by rewrite Hho.
  - unfold head_seq_of. by rewrite Hho, E3, Hs.
  - rewrite Hk, Hrd. unfold head_ready. by rewrite Hho.
Qed.

Lemma erase_lookup (o : option Lane) ln : erase <$> o = Some (erase ln) ->
  exists ln', o = Some ln' /\ erase ln' = erase ln.
Proof. intros (ln' & -> & E)%fmap_Some. by exists ln'. Qed.

(** Refreshing one lane restores the invariant when all the others fit. *)
Lemma refresh_restores s key ln :
  heap_inv (lane_state s) -> st_lanes s !! key = Some ln ->
  live s (drop (ln_head ln) (ln_eventIDs ln)) = queue s key -> is_Some (head_of s ln) ->
  (forall k ln', k <> key -> st_lanes s !! k = Some ln' -> lane_fits s k ln') ->
  (forall k, k <> key -> st_lanes s !! k = None -> queue s k = []) ->
  let s' := refreshLane key s in
  index_only s s' /\ heap_inv (lane_state s') /\
  (forall k ln', st_lanes s' !! k = Some ln' -> lane_fits s' k ln') /\
  (forall k, st_lanes s' !! k = None -> queue s' k = []) /\
  (forall k ln', st_lanes s' !! k = Some ln' -> exists ln0, st_lanes s !! k = Some ln0 /\
     ln_head ln' = ln_head ln0 /\ ln_eventIDs ln' = ln_eventIDs ln0).
Proof.
  intros Hi Hl Htail Hhead Hfit Hnone.
  destruct (refreshLane_ok key s ln Hi Hl) as (I & H & O & L & R). cbn zeta.
  set (s' := refreshLane key s) in *. clearbody s'.
  destruct (index_only_fields _ _ I) as (Er & Eo & _).
  apply erase_lookup in L as (ln1 & L1 & E1). pose proof (erase_eq _ _ E1) as (F1 & F2 & F3).
  cbn in F1, F2, F3.
  assert (Hho : head_of s' ln1 = head_of s ln).
  { rewrite (head_of_records s' s) by done. unfold head_of. by rewrite F1, F2. }
  assert (Hq : forall k, queue s' k = queue s k).
  { intros k. unfold queue, recs, live. by rewrite Er, Eo. }
  split_and!; [done|done| | |].
  - intros k ln' Hk. destruct (decide (k = key)) as [->|Hne].
    + rewrite L1 in Hk. injection Hk as <-. split.
      * rewrite Hq, <- Htail. unfold live. by rewrite F1, F2, Er.
      * by rewrite Hho.
      * unfold head_seq_of in *. by rewrite Hho.
      * rewrite R. unfold head_ready. by rewrite Hho.
    + destruct (O k Hne) as [Ok1 Ok2]. rewrite Hk in Ok1. symmetry in Ok1.
      apply erase_lookup in Ok1 as (ln0 & L0 & E0).
      by eapply (lane_fits_keep s); [| | | |apply Hfit].
  - intros k Hk. rewrite Hq. destruct (decide (k = key)) as [->|Hne]; [congruence|].
    apply Hnone; [done|]. destruct (O k Hne) as [Ok1 _]. rewrite Hk in Ok1.
    by destruct (st_lanes s !! k).
  - intros k ln' Hk. destruct (decide (k = key)) as [->|Hne].
    + rewrite L1 in Hk. injection Hk as <-. by exists ln.
    + destruct (O k Hne) as [Ok1 _]. rewrite Hk in Ok1. symmetry in Ok1.
      apply erase_lookup in Ok1 as (ln0 & L0 & E0). exists ln0. split; [done|].
      apply erase_eq in E0 as (-> & -> & _). done.
Qed.

(** A lane put in place with the sequence and pointer it had, or a new one. *)
Lemma insert_lane_ok key ln s s' :
  heap_inv (lane_state s) ->
  (match st_lanes s !! key with
   | Some l0 => ln_headSequence ln = ln_headSequence l0 /\ ln_readyIndex ln = ln_readyIndex l0
   | None => ln_readyIndex ln = -1
   end) ->
  st_lanes s' = <[key := ln]> (st_lanes s) -> st_readyLanes s' = st_readyLanes s ->
  heap_inv (lane_state s').
Proof.
  intros [Hh [Hin Hout]] Hl El Er. unfold lane_state in *. rewrite El, Er. split; [|split]; cbn in *.
  - unfold ranks in *. cbn in *. erewrite list_fmap_ext; [exact Hh|].
    intros i k Hik. unfold lane_rank, head_seq. cbn. f_equal.
    destruct (decide (k = key)) as [->|]; [|by rewrite lookup_insert_ne].
    rewrite lookup_insert_eq. destruct (Hin _ _ Hik) as (l & E & _). rewrite E in *. by destruct Hl.
  - intros i k Hik. destruct (Hin _ _ Hik) as (l & E & Hx).
    destruct (decide (k = key)) as [->|]; [|rewrite lookup_insert_ne by done; by exists l].
    rewrite lookup_insert_eq. rewrite E in Hl. exists ln. split; [done|].
    destruct Hl as [_ ->]. done.
  - intros k l. destruct (decide (k = key)) as [->|].
    + rewrite lookup_insert_eq. intros [= <-] Hk. destruct (st_lanes s !! key) as [l0|] eqn:E.
      * destruct Hl as [_ ->]. by apply (Hout key).
      * done.
    + rewrite lookup_insert_ne by done. apply Hout.
Qed.

(** ** Accepting one record *)
Definition store_record (r : Rec) s : Store B :=
  s <| st_records := <[r_EventID r := r]> (st_records s) |>
    <| st_order := st_order s ++ [r_EventID r] |>.

Lemma live_insert s r ids :
  r_EventID r ∉ ids -> live (store_record r s) ids = live s ids.
Proof.
  intros Hn. apply omap_ext_in. intros id Hid. cbn. apply lookup_insert_ne. by intros <-.
Qed.

Lemma recs_store s r : fresh_id s (r_EventID r) -> recs (store_record r s) = recs s ++ [r].
Proof.
  intros [Hn _]. unfold recs at 1. cbn [st_order setter store_record].
  unfold live. erewrite omap_app_one by (cbn; apply lookup_insert_eq).
  f_equal. exact (live_insert s r _ Hn).
Qed.

Lemma queue_store s r k :
  fresh_id s (r_EventID r) ->
  queue (store_record r s) k = queue s k ++ if decide (in_lane k r) then [r] else [].
Proof.
  intros Hf. unfold queue. by rewrite recs_store, list.filter_app by done.
Qed.

Lemma lane_fits_store s r k ln :
  fresh_id s (r_EventID r) -> ~ in_lane k r -> st_lanes s !! k = Some ln ->
  lane_fits s k ln -> lane_fits (store_record r s) k ln.
Proof.
  intros Hf Hk Hl [Ht Hh Hs Hrd]. pose proof (fi_lanes _ _ Hf _ _ Hl) as Hn.
  assert (Hho : head_of (store_record r s) ln = head_of s ln).
  { unfold head_of. destruct (ln_eventIDs ln !! ln_head ln) as [id|] eqn:E; [|done]. cbn.
    apply lookup_insert_ne. intros <-. apply Hn. apply list_elem_of_lookup.
    exists 0%nat. by rewrite lookup_drop, Nat.add_0_r. }
  split.
  - rewrite live_insert, Ht, queue_store by done. rewrite decide_False by done. by rewrite app_nil_r.
  - by rewrite Hho.
  - unfold head_seq_of. by rewrite Hho.
  - unfold head_ready. rewrite Hho. exact Hrd.
Qed.

Definition accept_record (r : Rec) s : Store B := indexAccepted r (store_record r s).

(** A lane that gains a record at its end. *)
Lemma accept_existing s r ln :
  mem_ok s -> fresh_id s (r_EventID r) -> st_lanes s !! effectiveOrderingKey r = Some ln ->
  let ln' := ln <| ln_eventIDs := ln_eventIDs ln ++ [r_EventID r] |> in
  let s' := store_record r s <| st_lanes := <[effectiveOrderingKey r := ln']> (st_lanes s) |> in
  accept_record r s = s' /\ heap_inv (lane_state s') /\
  (forall k ln, st_lanes s' !! k = Some ln -> lane_fits s' k ln).
Proof.
  intros Hm Hf Hl. set (key := effectiveOrderingKey r) in *. cbn zeta.
  pose proof (mo_lane _ Hm _ _ Hl) as [Ht Hh Hs Hrd].
  pose proof (fi_lanes _ _ Hf _ _ Hl) as Hn.
  destruct Hh as [r0 Hr0]. pose proof Hr0 as Hr0'. unfold head_of in Hr0'.
  destruct (ln_eventIDs ln !! ln_head ln) as [id0|] eqn:E0; [cbn in Hr0'|done].
  pose proof (lookup_lt_Some _ _ _ E0) as Hlt.
  assert (Hne : id0 <> r_EventID r).
  { intros ->. apply Hn, list_elem_of_lookup. exists 0%nat. by rewrite lookup_drop, Nat.add_0_r. }
  split_and!.
  - unfold accept_record, indexAccepted. fold key. unfold lane_at. cbn.
    rewrite Hl. cbn. case_bool_decide as Hlen; [|done]. rewrite length_app in Hlen. cbn in Hlen. lia.
  - eapply (insert_lane_ok key _ s); [apply Hm| |done|done]. by rewrite Hl.
  - intros k l. cbn. destruct (decide (k = key)) as [->|Hk].
    + rewrite lookup_insert_eq. intros [= <-].
      assert (Hho : head_of (store_record r s) (ln <| ln_eventIDs := ln_eventIDs ln ++ [r_EventID r] |>)
                    = head_of s ln).
      { unfold head_of. cbn. rewrite lookup_app_l, E0 by done. cbn. by apply lookup_insert_ne. }
      split; cbn.
      * rewrite drop_app_le by lia. unfold live. erewrite omap_app_one by (cbn; apply lookup_insert_eq).
        transitivity (queue (store_record r s) key); [|done].
        rewrite queue_store, decide_True by done. f_equal.
        rewrite <- Ht. exact (live_insert s r _ Hn).
      * change (is_Some (head_of (store_record r s)
                  (ln <| ln_eventIDs := ln_eventIDs ln ++ [r_EventID r] |>))). by rewrite Hho, Hr0.
      * unfold head_seq_of in *. change (head_of _ _) with (head_of (store_record r s)
                  (ln <| ln_eventIDs := ln_eventIDs ln ++ [r_EventID r] |>)). by rewrite Hho.
      * rewrite Hrd. unfold head_ready. change (head_of _ (ln <| ln_eventIDs := _ |>)) with
          (head_of (store_record r s) (ln <| ln_eventIDs := ln_eventIDs ln ++ [r_EventID r] |>)).
        by rewrite Hho.
    + rewrite lookup_insert_ne by done. intros Hlk.
      eapply (lane_fits_keep (store_record r s)); [done..|].
      apply lane_fits_store; [done|by intros <-|done|by apply Hm].
Qed.

(** The head entries of the lanes after an acceptance. *)
Definition lanes_extend s s' (id : string) : Prop :=
  forall k ln', st_lanes s' !! k = Some ln' ->
    drop (ln_head ln') (ln_eventIDs ln') = [id] \/
    exists ln, st_lanes s !! k = Some ln /\
      forall x, x ∈ drop (ln_head ln') (ln_eventIDs ln') ->
        x = id \/ x ∈ drop (ln_head ln) (ln_eventIDs ln).

(** The first record of its key. *)
Lemma accept_first s r :
  mem_ok s -> fresh_id s (r_EventID r) -> st_lanes s !! effectiveOrderingKey r = None ->
  let s' := accept_record r s in
  index_only (store_record r s) s' /\ heap_inv (lane_state s') /\
  (forall k ln, st_lanes s' !! k = Some ln -> lane_fits s' k ln) /\
  (forall k, st_lanes s' !! k = None -> queue s' k = []) /\
  lanes_extend s s' (r_EventID r).
Proof.
  intros Hm Hf Hl. set (key := effectiveOrderingKey r) in *. cbn zeta.
  set (ln := mkLane [r_EventID r] 0 0 (-1)).
  set (s1 := store_record r s <| st_lanes := <[key := ln]> (st_lanes s) |>).
  assert (Hacc : accept_record r s = refreshLane key s1).
  { unfold accept_record, indexAccepted. fold key. unfold lane_at. cbn. by rewrite Hl. }
  rewrite Hacc. pose proof (mo_none _ Hm _ Hl) as Hq.
  assert (H1 : heap_inv (lane_state s1)).
  { eapply (insert_lane_ok key ln s); [apply Hm| |done|done]. by rewrite Hl. }
  assert (Hl1 : st_lanes s1 !! key = Some ln) by apply lookup_insert_eq.
  destruct (refresh_restores s1 key ln H1 Hl1) as (I & H & L & N & E).
  - change (live s1 [r_EventID r] = queue s1 key). unfold live. cbn. rewrite lookup_insert_eq.
    transitivity (queue (store_record r s) key); [|done].
    by rewrite queue_store, Hq, decide_True by done.
  - unfold head_of. cbn. rewrite lookup_insert_eq. by eexists.
  - intros k ln' Hk. cbn. rewrite lookup_insert_ne by done. intros Hlk.
    eapply (lane_fits_keep (store_record r s)); [done..|].
    apply lane_fits_store; [done|by intros <-|done|by apply Hm].
  - intros k Hk. cbn. rewrite lookup_insert_ne by done. intros Hlk.
    transitivity (queue (store_record r s) k); [done|].
    rewrite queue_store, (mo_none _ Hm _ Hlk), decide_False by (done || by intros <-). done.
  - set (s' := refreshLane key s1) in *. clearbody s'. split_and!; try done.
    intros k ln' Hk. destruct (E k ln' Hk) as (ln0 & L0 & E1 & E2). rewrite E1, E2.
    cbn in L0. destruct (decide (k = key)) as [->|].
    + rewrite lookup_insert_eq in L0. injection L0 as <-. by left.
    + rewrite lookup_insert_ne in L0 by done. right. exists ln0. split; [done|]. by right.
Qed.

Lemma accept_record_ok s r :
  mem_ok s -> fresh_id s (r_EventID r) -> (forall x, x ∈ recs s -> r_Sequence x < r_Sequence r) ->
  let s' := accept_record r s in
  mem_ok s' /\ recs s' = recs s ++ [r] /\ index_only (store_record r s) s' /\
  forall id, id <> r_EventID r -> fresh_id s id -> fresh_id s' id.
Proof.
  intros Hm Hf Hseq. cbn zeta.
  assert (Hcase : index_only (store_record r s) (accept_record r s) /\
    heap_inv (lane_state (accept_record r s)) /\
    (forall k ln, st_lanes (accept_record r s) !! k = Some ln -> lane_fits (accept_record r s) k ln) /\
    (forall k, st_lanes (accept_record r s) !! k = None -> queue (accept_record r s) k = []) /\
    lanes_extend s (accept_record r s) (r_EventID r)).
  { destruct (st_lanes s !! effectiveOrderingKey r) as [ln|] eqn:Hl; [|by apply accept_first].
    destruct (accept_existing s r ln Hm Hf Hl) as (-> & H & L). split_and!; try done.
    - intros k. cbn. intros [Hlk Hk]%lookup_insert_None.
      transitivity (queue (store_record r s) k); [done|].
      rewrite queue_store, (mo_none _ Hm _ Hlk), decide_False by (done || by intros <-). done.
    - intros k ln'. cbn. destruct (decide (k = effectiveOrderingKey r)) as [->|].
      + rewrite lookup_insert_eq. intros [= <-]. right. exists ln. split; [done|]. cbn.
        pose proof (mo_lane _ Hm _ _ Hl) as [_ [r0 Hr0] _ _]. unfold head_of in Hr0.
        destruct (ln_eventIDs ln !! ln_head ln) eqn:E; [|done]. apply lookup_lt_Some in E.
        intros x. rewrite drop_app_le by lia. set_solver.
      + rewrite lookup_insert_ne by done. intros Hlk. right. exists ln'. split; [done|]. by right. }
  destruct Hcase as (I & H & L & N & E). set (s' := accept_record r s) in *. clearbody s'.
  destruct (index_only_fields _ _ I) as (Er & Eo & _). cbn in Er, Eo.
  assert (Hrecs : recs s' = recs s ++ [r]).
  { rewrite <- recs_store by done. unfold recs, live. by rewrite Er, Eo. }
  split_and!; [split|done|done|].
  - intros id x. rewrite Er. intros [[<- <-]|[_ ?]]%lookup_insert_Some; [done|by apply Hm].
  - intros id x. rewrite Er, Eo, elem_of_app, list_elem_of_singleton.
    intros [[<- <-]|[_ Hx]]%lookup_insert_Some; [by right|]. left. by eapply Hm.
  - rewrite Hrecs. apply sorted_snoc; [apply Hm|done].
  - done.
  - done.
  - done.
  - intros id Hne [F1 F2]. split; [rewrite Eo; set_solver|].
    intros k ln' Hk. destruct (E k ln' Hk) as [->|(ln & Hlk & Hin)]; [set_solver|].
    intros Hx%Hin. destruct Hx as [?|Hx]; [done|]. by apply (F2 k ln).
Qed.

(** ** Changing or deleting one record *)
Definition revise (id : string) (o : option Rec) s : Store B :=
  s <| st_records := partial_alter (fun _ => o) id (st_records s) |>.
Definition revision (id : string) (o : option Rec) (x : Rec) : option Rec :=
  if decide (r_EventID x = id) then o else Some x.

(** The replacement keeps the record's identity, lane and position. *)
Definition same_slot (r r' : Rec) : Prop :=
  r_EventID r' = r_EventID r /\ effectiveOrderingKey r' = effectiveOrderingKey r /\
  r_Sequence r' = r_Sequence r.

Section Revise.
Context (s : Store B) (Hm : mem_ok s) (r : Rec) (o : option Rec).
Context (Hr : st_records s !! r_EventID r = Some r) (Ho : forall r', o = Some r' -> same_slot r r').
Abbreviation id := (r_EventID r).
Abbreviation s0 := (revise id o s).
Abbreviation rev := (revision id o).

Lemma revise_lookup x : st_records s0 !! x = st_records s !! x ≫= rev.
Proof.
  cbn. unfold revision. destruct (decide (x = id)) as [->|Hne].
  - rewrite lookup_partial_alter_eq, Hr. cbn. by rewrite decide_True.
  - rewrite lookup_partial_alter_ne by done. destruct (st_records s !! x) as [y|] eqn:E; [|done].
    cbn. rewrite decide_False; [done|]. by rewrite (mo_ids _ Hm _ _ E).
Qed.

Lemma revision_slot x y : st_records s !! r_EventID x = Some x -> rev x = Some y -> same_slot x y.
Proof.
  intros Hx. unfold revision. case_decide as E; [|intros [= ->]; done].
  rewrite E, Hr in Hx. injection Hx as <-. apply Ho.
Qed.

Lemma live_revise ids : live s0 ids = omap rev (live s ids).
Proof. unfold live. rewrite omap_omap. apply omap_ext_in. intros x _. apply revise_lookup. Qed.

Lemma recs_revise : recs s0 = omap rev (recs s).
Proof. apply (live_revise (st_order s)). Qed.

Lemma filter_omap {A} (P : A -> Prop) `{forall x, Decision (P x)} (f : A -> option A) (l : list A) :
  (forall x y, x ∈ l -> f x = Some y -> P y <-> P x) ->
  filter P (omap f l) = omap f (filter P l).
Proof.
  induction l as [|x l IH]; intros Hf; [done|]. cbn [omap list_omap].
  specialize (IH ltac:(intros; apply Hf; [by right|done])).
  destruct (f x) as [y|] eqn:E.
  - pose proof (Hf x y ltac:(left) E) as Hp. destruct (decide (P x)) as [Hx|Hx].
    + rewrite !filter_cons_True by tauto. cbn. by rewrite E, IH.
    + rewrite !filter_cons_False by tauto. exact IH.
  - destruct (decide (P x)); [rewrite filter_cons_True by done|rewrite filter_cons_False by done].
    + cbn. rewrite E. exact IH.
    + exact IH.
Qed.

Lemma queue_revise k : queue s0 k = omap rev (queue s k).
Proof.
  unfold queue. rewrite recs_revise. apply filter_omap. intros x y Hx Hy.
  apply elem_of_recs in Hx; [|done]. apply revision_slot in Hy as (_ & E & _); [|done].
  unfold in_lane. by rewrite E.
Qed.

Lemma head_revise ln : head_of s0 ln = head_of s ln ≫= rev.
Proof.
  unfold head_of. destruct (ln_eventIDs ln !! ln_head ln); [|done]. apply revise_lookup.
Qed.

Lemma head_in_queue k ln x :
  st_lanes s !! k = Some ln -> head_of s ln = Some x -> x ∈ queue s k.
Proof.
  intros Hl Hx. rewrite <- (lf_tail _ _ _ (mo_lane _ Hm _ _ Hl)). unfold head_of in Hx.
  destruct (ln_eventIDs ln !! ln_head ln) as [i|] eqn:E; [|done]. cbn in Hx.
  unfold live. rewrite (omap_drop_head _ _ _ _ _ E Hx). left.
Qed.

(** A lane that is headed by another record needs no refresh. *)
Lemma lane_fits_revise k ln :
  st_lanes s !! k = Some ln ->
  k <> effectiveOrderingKey r \/ ln_eventIDs ln !! ln_head ln <> Some id -> lane_fits s0 k ln.
Proof.
  intros Hl Hne. pose proof (mo_lane _ Hm _ _ Hl) as [Ht [x Hx] Hs Hrd].
  assert (Hid : r_EventID x <> id).
  { intros E. destruct Hne as [Hk|Hh].
    - apply Hk. pose proof (head_in_queue k ln x Hl Hx) as Hin.
      apply list_elem_of_filter in Hin as [Hkx Hin]. apply elem_of_recs in Hin; [|done].
      rewrite E, Hr in Hin. by injection Hin as <-.
    - unfold head_of in Hx. destruct (ln_eventIDs ln !! ln_head ln) as [i|] eqn:Ei; [|done].
      cbn in Hx. apply (mo_ids _ Hm) in Hx as Hi. congruence. }
  assert (Hho : head_of s0 ln = head_of s ln).
  { rewrite head_revise, Hx. cbn. unfold revision. by rewrite decide_False. }
  split.
  - by rewrite live_revise, Ht, queue_revise.
  - rewrite Hho. by eexists.
  - unfold head_seq_of. by rewrite Hho.
  - unfold head_ready. rewrite Hho. exact Hrd.
Qed.

Lemma none_revise k : st_lanes s !! k = None -> queue s0 k = [].
Proof. intros Hk. by rewrite queue_revise, (mo_none _ Hm _ Hk). Qed.

(** The record's lane exists. *)
Lemma own_lane : exists ln, st_lanes s !! effectiveOrderingKey r = Some ln.
Proof.
  destruct (st_lanes s !! effectiveOrderingKey r) as [ln|] eqn:E; [by exists ln|].
  apply (mo_none _ Hm) in E. exfalso.
  assert (Hin : r ∈ queue s (effectiveOrderingKey r)).
  { apply list_elem_of_filter. split; [done|]. by apply elem_of_recs. }
  rewrite E in Hin. by apply elem_of_nil in Hin.
Qed.

(** Everything but the index of a revised store. *)
Lemma revised_mem s' :
  index_only s0 s' -> heap_inv (lane_state s') ->
  (forall k ln, st_lanes s' !! k = Some ln -> lane_fits s' k ln) ->
  (forall k, st_lanes s' !! k = None -> queue s' k = []) ->
  mem_ok s' /\ recs s' = omap rev (recs s).
Proof.
  intros I H L N. destruct (index_only_fields _ _ I) as (Er & Eo & _).
  assert (Hrecs : recs s' = omap rev (recs s)).
  { rewrite <- recs_revise. unfold recs, live. by rewrite Er, Eo. }
  split; [split|done]; try done.
  - intros i x. rewrite Er, revise_lookup. destruct (st_records s !! i) as [y|] eqn:E; [|done].
    cbn. intros Hx. pose proof (mo_ids _ Hm _ _ E) as <-.
    by apply revision_slot in Hx as (? & _ & _).
  - intros i x. rewrite Er, Eo, revise_lookup. destruct (st_records s !! i) as [y|] eqn:E; [|done].
    intros _. by eapply Hm.
  - rewrite Hrecs. clear Hrecs. pose proof (mo_sorted _ Hm) as Hs.
    assert (Hin : Forall (fun x => st_records s !! r_EventID x = Some x) (recs s)).
    { apply Forall_forall. intros x Hx. by apply elem_of_recs. }
    induction Hs as [|x l Hs IH Hx]; cbn; [constructor|].
    apply Forall_cons in Hin as [Hinx Hin].
    destruct (rev x) as [y|] eqn:E; [|by apply IH]. constructor; [by apply IH|].
    apply Forall_forall. intros z (w & Hw & Hz)%list_elem_of_omap.
    rewrite Forall_forall in Hin, Hx. apply revision_slot in E as (_ & _ & ->); [|done].
    apply revision_slot in Hz as (_ & _ & ->); [|by apply Hin]. by apply Hx.
Qed.
End Revise.

(** The entries from the head of every lane on are entries it had. *)
Definition lanes_shrink s s' : Prop :=
  forall k ln', st_lanes s' !! k = Some ln' -> exists ln, st_lanes s !! k = Some ln /\
    forall x, x ∈ drop (ln_head ln') (ln_eventIDs ln') -> x ∈ drop (ln_head ln) (ln_eventIDs ln).

Lemma fresh_shrink s s' id :
  lanes_shrink s s' -> st_order s' = st_order s -> fresh_id s id -> fresh_id s' id.
Proof.
  intros Hl Ho [F1 F2]. split; [by rewrite Ho|]. intros k ln' Hk Hin.
  destruct (Hl k ln' Hk) as (ln & Hlk & Hsub). by apply (F2 k ln Hlk), Hsub.
Qed.

Definition update_record (r : Rec) s : Store B :=
  refreshLaneForRecord r (s <| st_records := <[r_EventID r := r]> (st_records s) |>).

Lemma update_record_ok s r r' :
  mem_ok s -> st_records s !! r_EventID r = Some r -> same_slot r r' ->
  let s' := update_record r' s in
  mem_ok s' /\ recs s' = omap (revision (r_EventID r) (Some r')) (recs s) /\
  index_only (revise (r_EventID r) (Some r') s) s' /\
  forall id, fresh_id s id -> fresh_id s' id.
Proof.
  intros Hm Hr Hslot. cbn zeta. pose proof Hslot as (Eid & Ekey & Eseq).
  assert (Ho : forall x, Some r' = Some x -> same_slot r x) by (by intros x [= <-]).
  set (s0 := revise (r_EventID r) (Some r') s).
  assert (Hupd : update_record r' s = refreshLaneForRecord r' s0).
  { unfold update_record. rewrite Eid. done. }
  rewrite Hupd. unfold refreshLaneForRecord, is_lane_head. rewrite Ekey, Eid.
  destruct (own_lane s Hm r Hr) as [ln Hl].
  change (st_lanes s0) with (st_lanes s). rewrite Hl. set (key := effectiveOrderingKey r) in *.
  assert (Hfin : forall s', index_only s0 s' -> heap_inv (lane_state s') ->
    (forall k ln, st_lanes s' !! k = Some ln -> lane_fits s' k ln) ->
    (forall k, st_lanes s' !! k = None -> queue s' k = []) -> lanes_shrink s s' ->
    mem_ok s' /\ recs s' = omap (revision (r_EventID r) (Some r')) (recs s) /\ index_only s0 s' /\
    forall id, fresh_id s id -> fresh_id s' id).
  { intros s' I H L N Sh. destruct (revised_mem s Hm r (Some r') Hr Ho s' I H L N) as [M R].
    split_and!; try done. intros id. apply fresh_shrink; [done|].
    by destruct (index_only_fields _ _ I) as (_ & -> & _). }
  case_bool_decide as Hhead.
  - destruct (refresh_restores s0 key ln) as (I & H & L & N & E); try done; [apply Hm| | | | |].
    + unfold s0. rewrite (live_revise s Hm r _ Hr), (queue_revise s Hm r _ Hr Ho). f_equal.
      exact (lf_tail _ _ _ (mo_lane _ Hm _ _ Hl)).
    + unfold head_of. rewrite Hhead. cbn. rewrite lookup_partial_alter_eq. by eexists.
    + intros k ln' Hk Hlk. apply (lane_fits_revise s Hm r _ Hr Ho k ln' Hlk). by left.
    + intros k _. exact (none_revise s Hm r _ Hr Ho k).
    + apply Hfin; try done. intros k ln' Hk. destruct (E k ln' Hk) as (ln0 & ? & E1 & E2).
      exists ln0. split; [done|]. by rewrite E1, E2.
  - apply Hfin; [apply index_only_refl|apply Hm| | |].
    + intros k ln' Hlk. apply (lane_fits_revise s Hm r _ Hr Ho k ln' Hlk).
      destruct (decide (k = key)) as [->|]; [right|by left].
      assert (ln' = ln) as -> by (change (st_lanes s0) with (st_lanes s) in Hlk; congruence). done.
    + intros k. exact (none_revise s Hm r _ Hr Ho k).
    + intros k ln' Hk. by exists ln'.
Qed.

(** *** Deletion *)
Lemma skip_deleted_live s ids :
  live s ids = live s (drop (skip_deleted (st_records s) ids) ids).
Proof.
  induction ids as [|i ids IH]; [done|]. cbn. destruct (st_records s !! i) eqn:E; [|done].
  cbn. by rewrite E.
Qed.

Lemma skip_deleted_stop s ids :
  let n := skip_deleted (st_records s) ids in
  n = length ids \/ exists i r, ids !! n = Some i /\ st_records s !! i = Some r.
Proof.
  induction ids as [|i ids IH]; cbn; [by left|].
  destruct (st_records s !! i) as [r|] eqn:E; [right; by exists i, r|].
  destruct IH as [->|(j & r & ? & ?)]; [by left|right; by exists j, r].
Qed.

Lemma trim_lane_tail ln :
  drop (ln_head (trim_lane ln)) (ln_eventIDs (trim_lane ln)) = drop (ln_head ln) (ln_eventIDs ln) /\
  ln_eventIDs (trim_lane ln) !! ln_head (trim_lane ln) = ln_eventIDs ln !! ln_head ln /\
  ln_readyIndex (trim_lane ln) = ln_readyIndex ln.
Proof.
  unfold trim_lane. case_match; [|done]. cbn. split_and!; [by rewrite drop_0| |done].
  by rewrite lookup_drop, Nat.add_0_r.
Qed.

(** Deleting a lane outside the heap. *)
Lemma delete_lane_ok key s s' :
  heap_inv (lane_state s) -> key ∉ st_readyLanes s ->
  st_lanes s' = delete key (st_lanes s) -> st_readyLanes s' = st_readyLanes s ->
  heap_inv (lane_state s').
Proof.
  intros [Hh [Hin Hout]] Hk El Er. unfold lane_state in *. rewrite El, Er.
  assert (Hl : forall k, k ∈ st_readyLanes s -> delete key (st_lanes s) !! k = st_lanes s !! k).
  { intros k Hkr. rewrite lookup_delete_ne; [done|]. by intros <-. }
  split; [|split]; cbn in *.
  - unfold ranks in *. cbn in *. erewrite list_fmap_ext; [exact Hh|].
    intros i k Hik%list_elem_of_lookup_2. unfold lane_rank, head_seq. cbn. by rewrite Hl.
  - intros i k Hik. rewrite Hl by (by eapply list_elem_of_lookup_2). by apply Hin.
  - intros k l [_ Hlk]%lookup_delete_Some. by apply Hout.
Qed.

Definition delete_entry (r : Rec) s : Store B :=
  removeIndexed r (s <| st_records := delete (r_EventID r) (st_records s) |>).

(** *** The lane of a deleted head

    [s1] is the store once the lane has left the heap; [h] is where its next
    live entry is. *)
Section DeleteHead.
Context (s : Store B) (Hm : mem_ok s) (r : Rec) (Hr : st_records s !! r_EventID r = Some r).
Abbreviation key := (effectiveOrderingKey r).
Abbreviation s0 := (revise (r_EventID r) None s).
Context (ln : Lane) (Hl : st_lanes s !! key = Some ln).
Context (Hhead : ln_eventIDs ln !! ln_head ln = Some (r_EventID r)).
Context (s1 : Store B) (I1 : index_only s0 s1) (O1 : others_kept key s0 s1).

Lemma no_slot x : None = Some x -> same_slot r x.
Proof. done. Qed.

Definition next_head : nat :=
  (S (ln_head ln) + skip_deleted (st_records s1) (drop (S (ln_head ln)) (ln_eventIDs ln)))%nat.

Lemma queue_unindexed k : queue s1 k = queue s0 k.
Proof.
  destruct (index_only_fields _ _ I1) as (Er & Eo & _).
  unfold queue, recs, live. by rewrite Er, Eo.
Qed.

Lemma next_head_tail : live s1 (drop next_head (ln_eventIDs ln)) = queue s1 key.
Proof.
  rewrite queue_unindexed, (queue_revise s Hm r None Hr no_slot).
  rewrite <- (lf_tail _ _ _ (mo_lane _ Hm _ _ Hl)), <- (live_revise s Hm r None Hr).
  unfold next_head. rewrite <- drop_drop, <- skip_deleted_live.
  assert (Hd : drop (ln_head ln) (ln_eventIDs ln) =
               r_EventID r :: drop (S (ln_head ln)) (ln_eventIDs ln)).
  { rewrite <- (take_drop_middle _ _ _ Hhead) at 1. rewrite drop_app_length'; [done|].
    apply lookup_lt_Some in Hhead. rewrite length_take. lia. }
  destruct (index_only_fields _ _ I1) as (Er & _).
  rewrite Hd. unfold live. rewrite Er. cbn. by rewrite lookup_partial_alter_eq.
Qed.

Lemma next_head_live :
  next_head = length (ln_eventIDs ln) \/
  exists x, (ln_eventIDs ln !! next_head ≫= fun id => st_records s1 !! id) = Some x.
Proof.
  destruct (skip_deleted_stop s1 (drop (S (ln_head ln)) (ln_eventIDs ln)))
    as [Hn|(j & x & Hj & Hx)].
  - left. unfold next_head. rewrite Hn, length_drop. apply lookup_lt_Some in Hhead. lia.
  - right. rewrite lookup_drop in Hj. exists x. unfold next_head. by rewrite Hj.
Qed.

Lemma next_head_sub x :
  x ∈ drop next_head (ln_eventIDs ln) -> x ∈ drop (ln_head ln) (ln_eventIDs ln).
Proof.
  unfold next_head. set (n := skip_deleted _ _).
  replace (S (ln_head ln) + n)%nat with (ln_head ln + (1 + n))%nat by lia.
  rewrite <- drop_drop. intros [j Hj]%list_elem_of_lookup_1. rewrite lookup_drop in Hj.
  by eapply list_elem_of_lookup_2.
Qed.

Lemma other_lane k ln' : k <> key -> st_lanes s1 !! k = Some ln' ->
  exists ln0, st_lanes s !! k = Some ln0 /\ erase ln0 = erase ln'.
Proof.
  intros Hk Hlk. destruct (O1 k Hk) as [E1 _]. rewrite Hlk in E1. symmetry in E1.
  by apply erase_lookup in E1.
Qed.

Lemma other_fits k ln' : k <> key -> st_lanes s1 !! k = Some ln' -> lane_fits s1 k ln'.
Proof.
  intros Hk Hlk. destruct (other_lane k ln' Hk Hlk) as (ln0 & L0 & E0).
  destruct (index_only_fields _ _ I1) as (Er & Eo & _). destruct (O1 k Hk) as [_ E2].
  apply (lane_fits_keep s0 s1 k ln0); try done.
  by apply (lane_fits_revise s Hm r None Hr no_slot k ln0); [|left].
Qed.

Lemma other_none k : k <> key -> st_lanes s1 !! k = None -> queue s1 k = [].
Proof.
  intros Hk Hlk. rewrite queue_unindexed. apply (none_revise s Hm r None Hr no_slot).
  destruct (O1 k Hk) as [E1 _]. rewrite Hlk in E1. cbn in E1. by destruct (st_lanes s !! k).
Qed.

Lemma other_shrinks k ln' : k <> key -> st_lanes s1 !! k = Some ln' ->
  exists ln0, st_lanes s !! k = Some ln0 /\
    forall x, x ∈ drop (ln_head ln') (ln_eventIDs ln') -> x ∈ drop (ln_head ln0) (ln_eventIDs ln0).
Proof.
  intros Hk Hlk. destruct (other_lane k ln' Hk Hlk) as (ln0 & L0 & E0).
  exists ln0. split; [done|]. by apply erase_eq in E0 as (-> & -> & _).
Qed.

Context (H1 : heap_inv (lane_state s1)) (N1 : key ∉ st_readyLanes s1).
Context (i : Z) (Hl1 : st_lanes s1 !! key = Some (ln <| ln_readyIndex := i |>)).

(** No live entry is left. *)
Lemma lane_exhausted :
  next_head = length (ln_eventIDs ln) ->
  let s' := s1 <| st_lanes := delete key (st_lanes s1) |> in
  index_only s0 s' /\ heap_inv (lane_state s') /\
  (forall k ln, st_lanes s' !! k = Some ln -> lane_fits s' k ln) /\
  (forall k, st_lanes s' !! k = None -> queue s' k = []) /\ lanes_shrink s s'.
Proof.
  intros Hend. cbn zeta. split_and!.
  - eapply index_only_trans; [exact I1|done].
  - by eapply (delete_lane_ok key s1).
  - intros k ln'. cbn. intros [Hk Hlk]%lookup_delete_Some.
    by eapply (lane_fits_keep s1); [..|apply other_fits].
  - intros k. cbn. intros Hlk. destruct (decide (k = key)) as [->|Hk].
    + transitivity (queue s1 key); [done|]. by rewrite <- next_head_tail, Hend, drop_all.
    + rewrite lookup_delete_ne in Hlk by done. by apply other_none.
  - intros k ln'. cbn. intros [Hk Hlk]%lookup_delete_Some. by apply other_shrinks.
Qed.

(** The lane moves to its next live entry. *)
Lemma lane_advances :
  next_head <> length (ln_eventIDs ln) ->
  let s' := refreshLane key (update_lane key (fun l => trim_lane (l <| ln_head := next_head |>)) s1) in
  index_only s0 s' /\ heap_inv (lane_state s') /\
  (forall k ln, st_lanes s' !! k = Some ln -> lane_fits s' k ln) /\
  (forall k, st_lanes s' !! k = None -> queue s' k = []) /\ lanes_shrink s s'.
Proof.
  intros Hend. cbn zeta. set (f := fun l => trim_lane (l <| ln_head := next_head |>)).
  destruct (update_lane_ok key f s1 H1 N1) as (I2 & H2 & O2 & R2).
  { intros l. unfold f. by destruct (trim_lane_tail (l <| ln_head := next_head |>)) as (_ & _ & ->). }
  set (s2 := update_lane key f s1) in *. set (ln2 := f (ln <| ln_readyIndex := i |>)).
  assert (Hl2 : st_lanes s2 !! key = Some ln2).
  { unfold s2, update_lane. cbn. by rewrite lookup_alter_eq, Hl1. }
  assert (Hl2k : forall k, k <> key -> st_lanes s2 !! k = st_lanes s1 !! k).
  { intros k Hk. unfold s2, update_lane. cbn. by rewrite lookup_alter_ne. }
  destruct (trim_lane_tail (ln <| ln_readyIndex := i |> <| ln_head := next_head |>)) as (T1 & T2 & _).
  assert (U1 : drop (ln_head ln2) (ln_eventIDs ln2) = drop next_head (ln_eventIDs ln)) by exact T1.
  assert (U2 : ln_eventIDs ln2 !! ln_head ln2 = ln_eventIDs ln !! next_head) by exact T2.
  destruct (index_only_fields _ _ I2) as (Er2 & Eo2 & _). clear T1 T2. clearbody ln2 s2.
  assert (Hq2 : forall k, queue s2 k = queue s1 k).
  { intros k. unfold queue, recs, live. by rewrite Er2, Eo2. }
  destruct (refresh_restores s2 key ln2) as (I3 & H3 & L3 & N3 & E3); try done.
  - rewrite U1, Hq2, <- next_head_tail. unfold live. by rewrite Er2.
  - unfold head_of. rewrite U2, Er2. by destruct next_head_live.
  - intros k ln' Hk. rewrite Hl2k by done. intros Hlk.
    apply (lane_fits_keep s1 s2 k ln'); try done; [by rewrite R2|by apply other_fits].
  - intros k Hk. rewrite Hl2k, Hq2 by done. by apply other_none.
  - split_and!; try done.
    + eapply index_only_trans; [exact I1|]. by eapply index_only_trans.
    + intros k ln' Hk. destruct (E3 k ln' Hk) as (ln0 & L0 & E1 & E2). rewrite E1, E2.
      destruct (decide (k = key)) as [->|Hne].
      * rewrite Hl2 in L0. injection L0 as <-. exists ln. split; [done|].
        intros x. rewrite U1. apply next_head_sub.
      * rewrite Hl2k in L0 by done. by apply other_shrinks.
Qed.
End DeleteHead.

Lemma delete_head s r ln :
  mem_ok s -> st_records s !! r_EventID r = Some r ->
  st_lanes s !! effectiveOrderingKey r = Some ln ->
  ln_eventIDs ln !! ln_head ln = Some (r_EventID r) ->
  let s' := delete_entry r s in
  index_only (revise (r_EventID r) None s) s' /\ heap_inv (lane_state s') /\
  (forall k ln, st_lanes s' !! k = Some ln -> lane_fits s' k ln) /\
  (forall k, st_lanes s' !! k = None -> queue s' k = []) /\ lanes_shrink s s'.
Proof.
  intros Hm Hr Hl Hhead. cbn zeta. set (s0 := revise (r_EventID r) None s).
  assert (Hdel : delete_entry r s = removeIndexed r s0) by done. rewrite Hdel. clear Hdel.
  unfold removeIndexed, is_lane_head. change (st_lanes s0) with (st_lanes s).
  rewrite Hl, bool_decide_true by done. cbn [negb].
  destruct (remove_ready_ok (effectiveOrderingKey r) s0) as (I1 & H1 & O1 & S1 & N1); [apply Hm|].
  set (s1 := remove_ready _ s0) in *.
  symmetry in S1. destruct (same_lanes_lookup _ _ _ _ S1 Hl) as [i Hl1].
  assert (Hat : lane_at (effectiveOrderingKey r) s1 = ln <| ln_readyIndex := i |>)
    by (unfold lane_at; by rewrite Hl1).
  rewrite Hat. cbn [ln_eventIDs ln_head setter]. clearbody s1. fold (next_head ln s1).
  case_bool_decide.
  - by apply (lane_exhausted s Hm r Hr ln Hl Hhead s1 I1 O1).
  - by apply (lane_advances s Hm r Hr ln Hl Hhead s1 I1 O1 H1 N1 i Hl1).
Qed.

Lemma delete_entry_ok s r :
  mem_ok s -> st_records s !! r_EventID r = Some r ->
  let s' := delete_entry r s in
  mem_ok s' /\ recs s' = omap (revision (r_EventID r) None) (recs s) /\
  index_only (revise (r_EventID r) None s) s' /\
  forall id, fresh_id s id -> fresh_id s' id.
Proof.
  intros Hm Hr. cbn zeta. assert (Ho : forall x, None = Some x -> same_slot r x) by done.
  set (s0 := revise (r_EventID r) None s). destruct (own_lane s Hm r Hr) as [ln Hl].
  assert (Hcase : index_only s0 (delete_entry r s) /\ heap_inv (lane_state (delete_entry r s)) /\
    (forall k ln, st_lanes (delete_entry r s) !! k = Some ln -> lane_fits (delete_entry r s) k ln) /\
    (forall k, st_lanes (delete_entry r s) !! k = None -> queue (delete_entry r s) k = []) /\
    lanes_shrink s (delete_entry r s)).
  { destruct (decide (ln_eventIDs ln !! ln_head ln = Some (r_EventID r))) as [Hh|Hh].
    { by apply (delete_head s r ln). }
    assert (Hsame : delete_entry r s = s0).
    { unfold delete_entry, removeIndexed, is_lane_head. cbn. rewrite Hl.
      by rewrite bool_decide_false. }
    rewrite Hsame. split_and!; [apply index_only_refl|apply Hm| | |].
    - intros k ln' Hlk. apply (lane_fits_revise s Hm r _ Hr Ho k ln' Hlk).
      destruct (decide (k = effectiveOrderingKey r)) as [->|]; [right|by left].
      assert (ln' = ln) as -> by (change (st_lanes s0) with (st_lanes s) in Hlk; congruence). done.
    - intros k. exact (none_revise s Hm r _ Hr Ho k).
    - intros k ln' Hk. by exists ln'. }
  destruct Hcase as (I & H & L & N & Sh).
  destruct (revised_mem s Hm r None Hr Ho _ I H L N) as [M R]. split_and!; try done.
  intros id. apply fresh_shrink; [done|]. by destruct (index_only_fields _ _ I) as (_ & -> & _).
Qed.
End Memory.
