(* ===== verification/OutboxStore.v ===== *)
(** * The outbox store: invariant and operations

    [sinv] is the invariant of an open store: the memory is consistent, within
    its limits, and the database mirrors it.  Every operation keeps it, and does
    to the list of records ([recs]) what its specification says. *)

From S2P Require Import Prelude Heap Outbox OutboxIndex OutboxMemory.
From Stdlib Require Import ZArith Lia.
From stdpp Require Import base gmap strings sorting numbers option list.
#[local] Open Scope Z_scope.

Definition total_bytes (rs : list Rec) : Z := sum_Z (r_SizeBytes <$> rs).

(** Facts about an accepted record; its size is not computed below. *)
Lemma accepted_id now n o : r_EventID (accepted_record now n o) = r_EventID o.
Proof. reflexivity. Qed.
Lemma accepted_sequence now n o : r_Sequence (accepted_record now n o) = n.
Proof. reflexivity. Qed.

(** *** Sizes are positive *)
Lemma sum_Z_nonneg (l : list Z) : Forall (Z.le 0) l -> 0 <= sum_Z l.
Proof. unfold sum_Z. induction 1; cbn; lia. Qed.

Lemma json_string_len_nonneg s : 0 <= json_string_len s.
Proof.
  unfold json_string_len.
  assert (0 <= sum_Z (json_chunk_len <$> utf8_chunks (bytes_of s))); [|lia].
  apply sum_Z_nonneg, Forall_fmap, Forall_forall. intros c _. unfold compose, json_chunk_len.
  destruct c; repeat case_match; lia.
Qed.

Lemma json_object_len_pos (l : list Z) : Forall (Z.le 0) l -> 2 <= json_object_len l.
Proof. intros H%sum_Z_nonneg. unfold json_object_len. lia. Qed.

Lemma json_member_len_nonneg name v : 0 <= v -> 0 <= json_member_len name v.
Proof. unfold json_member_len, len. lia. Qed.

Lemma json_map_len_nonneg m : 0 <= json_map_len m.
Proof.
  unfold json_map_len.
  assert (2 <= json_object_len ((fun '(k, v) => json_string_len k + 1 + json_string_len v) <$>
    map_to_list m)); [|lia].
  apply json_object_len_pos, Forall_fmap, Forall_forall. intros [k v] _. cbn.
  pose proof (json_string_len_nonneg k). pose proof (json_string_len_nonneg v). lia.
Qed.

Lemma acceptedSize_pos r : 0 < acceptedSize r.
Proof.
  unfold acceptedSize.
  match goal with |- 0 < json_object_len ?l => assert (2 <= json_object_len l); [|lia] end.
  assert (0 <= json_bytes_len (r_Payload r)).
  { unfold json_bytes_len. pose proof (Z.div_pos (Z.of_nat (length (r_Payload r)) + 2) 3). lia. }
  pose proof (json_map_len_nonneg (r_Properties r)).
  apply json_object_len_pos. repeat apply Forall_app_2; repeat case_bool_decide;
    repeat constructor; apply json_member_len_nonneg; auto using json_string_len_nonneg.
Qed.

Lemma accepted_size now n o :
  r_SizeBytes (accepted_record now n o) = acceptedSize (accepted_record now n o).
Proof. reflexivity. Qed.

Lemma accepted_times now n o :
  json_time_ok (r_AcceptedAt (accepted_record now n o)) &&
  json_time_ok (r_UpdatedAt (accepted_record now n o)) = json_time_ok now.
Proof. cbn. apply andb_diag. Qed.

Lemma accepted_valid now n o :
  validateNewRecord o = nil_err -> n <> 0 ->
  validateStoredRecord (accepted_record now n o) = nil_err.
Proof.
  intros Hv Hn. unfold validateNewRecord in Hv. unfold validateStoredRecord.
  rewrite <- accepted_size, Z.eqb_refl, accepted_sequence.
  rewrite (proj2 (Z.leb_gt _ 0)) by (rewrite accepted_size; apply acceptedSize_pos).
  rewrite (proj2 (Z.eqb_neq n 0)) by done.
  change (missing_identity (accepted_record now n o)) with (missing_identity o).
  cbn [r_State r_Epoch r_Broker r_Destination accepted_record setter].
  destruct (missing_identity o); [done|]. cbn in *.
  destruct (r_State o), (r_Epoch o =? 0), (str_empty (r_Broker o)), (str_empty (r_Destination o));
    vm_compute in Hv |- *; done.
Qed.
#[local] Opaque acceptedSize accepted_record validateNewRecord u64.

Lemma sum_Z_app l l' : sum_Z (l ++ l') = sum_Z l + sum_Z l'.
Proof. unfold sum_Z. induction l as [|x l IH]; cbn; [done|]. rewrite IH. lia. Qed.
Lemma total_cons x l : total_bytes (x :: l) = r_SizeBytes x + total_bytes l.
Proof. reflexivity. Qed.
Lemma total_app l l' : total_bytes (l ++ l') = total_bytes l + total_bytes l'.
Proof. unfold total_bytes. by rewrite fmap_app, sum_Z_app. Qed.

(** A record and what [json.Marshal] stores for it. *)
Definition with_json (r : Rec) : Rec * Rec := (r, json_rec r).

Section Store.
Context {B : Type} `{!Bolt B}.
Implicit Types s : Store B.

(** ** The database mirrors the memory *)
Record mirrors s (b : Buckets) : Prop := {
  mi_format : b_format b = databaseFormatVersion;
  mi_records : forall k e, b_records b !! k = Some e <->
    exists r, r ∈ recs s /\ r_Sequence r = k /\ e = json_rec r;
  mi_events : b_events b = r_Sequence <$> st_records s;
}.

(** Record, order and counters that an index change leaves alone. *)
Record unmoved s s' : Prop := {
  fr_limits : st_limits s' = st_limits s;
  fr_db : st_db s' = st_db s;
  fr_next : st_nextSeq s' = st_nextSeq s;
  fr_bytes : st_bytes s' = st_bytes s;
}.

Lemma unmoved_refl s : unmoved s s.
Proof. done. Qed.
Lemma unmoved_trans s1 s2 s3 : unmoved s1 s2 -> unmoved s2 s3 -> unmoved s1 s3.
Proof. intros [] []. split; congruence. Qed.
Lemma unmoved_index s s' : index_only s s' -> unmoved s s'.
Proof. intros (? & ? & ? & ? & ? & ?)%index_only_fields. done. Qed.

Record sinv s : Prop := {
  sv_mem : mem_ok s;
  sv_valid : forall r, r ∈ recs s -> validateStoredRecord r = nil_err;
  sv_seq : forall r, r ∈ recs s -> 0 < r_Sequence r < st_nextSeq s;
  sv_next : 1 <= st_nextSeq s <= max_u64;
  sv_bytes : st_bytes s = total_bytes (recs s);
  sv_maxBytes : st_bytes s <= MaxBytes (st_limits s);
  sv_maxMessages : Z.of_nat (size (st_records s)) <= MaxMessages (st_limits s);
  sv_db : forall b, st_db s = Some b -> exists bk, contents b = Some bk /\ mirrors s bk /\
    b_next bk = st_nextSeq s /\ b_total bk = st_bytes s;
}.

(** *** Steps of the mirror *)
Lemma seq_inj s x y :
  mem_ok s -> x ∈ recs s -> y ∈ recs s -> r_Sequence x = r_Sequence y -> x = y.
Proof.
  intros Hm. generalize (mo_sorted _ Hm). generalize (recs s). intros l.
  induction 1 as [|z l Hs IH Hz]; [by intros ?%elem_of_nil|]. rewrite Forall_forall in Hz.
  intros [->|Hx]%elem_of_cons [->|Hy]%elem_of_cons E; [done| | |by apply IH].
  - specialize (Hz _ Hy). lia.
  - specialize (Hz _ Hx). lia.
Qed.

Lemma elem_of_revised s r o x :
  mem_ok s -> st_records s !! r_EventID r = Some r ->
  x ∈ omap (revision (r_EventID r) o) (recs s) <->
  o = Some x \/ x ∈ recs s /\ r_EventID x <> r_EventID r.
Proof.
  intros Hm Hr. rewrite list_elem_of_omap. unfold revision. split.
  - intros (y & Hy & E). case_decide; [by left|]. injection E as ->. by right.
  - intros [->|[Hx Hne]].
    + exists r. split; [by apply elem_of_recs|]. by rewrite decide_True.
    + exists x. split; [done|]. by rewrite decide_False.
Qed.

(** The buckets outside the record and event tables. *)
Definition tables_only (b b' : Buckets) : Prop :=
  b' = b <| b_records := b_records b' |> <| b_events := b_events b' |>.

Lemma tables_trans b1 b2 b3 : tables_only b1 b2 -> tables_only b2 b3 -> tables_only b1 b3.
Proof. unfold tables_only. intros H1 H2. rewrite H2, H1. done. Qed.

Lemma mirrors_accept s b r :
  mem_ok s -> fresh_id s (r_EventID r) -> (forall x, x ∈ recs s -> r_Sequence x < r_Sequence r) ->
  mirrors s b -> mirrors (accept_record r s) (put_event r (put_record r (json_rec r) b)).
Proof.
  intros Hm Hf Hseq [F R E]. destruct (accept_record_ok s r Hm Hf Hseq) as (_ & Er & I & _).
  destruct (index_only_fields _ _ I) as (Em & _). split; [done| |].
  - intros k e. rewrite Er. cbn. destruct (decide (r_Sequence r = k)) as [<-|Hne].
    + rewrite lookup_insert_eq. split; [intros [= <-]; exists r; set_solver|].
      intros (x & Hx & Ex & ->). f_equal. apply elem_of_app in Hx as [Hx|Hx%list_elem_of_singleton].
      * specialize (Hseq _ Hx). lia.
      * by subst.
    + rewrite lookup_insert_ne, R by done. split.
      * intros (x & Hx & ? & ?). exists x. set_solver.
      * intros (x & [Hx|Hx%list_elem_of_singleton]%elem_of_app & ? & ?); [by exists x|by subst].
  - cbn. rewrite Em, E. cbn. by rewrite fmap_insert.
Qed.

Lemma mirrors_update s b r r' :
  mem_ok s -> st_records s !! r_EventID r = Some r -> same_slot r r' ->
  mirrors s b -> mirrors (update_record r' s) (put_record r' (json_rec r') b).
Proof.
  intros Hm Hr Hs [F R E]. destruct (update_record_ok s r r' Hm Hr Hs) as (_ & Er & I & _).
  destruct (index_only_fields _ _ I) as (Em & _). destruct Hs as (E1 & E2 & E3). split; [done| |].
  - intros k e. rewrite Er. setoid_rewrite (elem_of_revised s r (Some r') _ Hm Hr). cbn. rewrite E3.
    apply (elem_of_recs s r Hm) in Hr. destruct (decide (r_Sequence r = k)) as [<-|Hne].
    + rewrite lookup_insert_eq. split; [intros [= <-]; exists r'; by split_and!; [left|..]|].
      intros (x & [[= ->]|[Hx Hid]] & Ex & ->); [done|]. destruct Hid.
      by rewrite (seq_inj s x r Hm Hx Hr Ex).
    + rewrite lookup_insert_ne, R by done. split.
      * intros (x & Hx & Ex & ->). exists x. split_and!; [right; split; [done|]|done..].
        intros Hid. apply Hne. rewrite <- Ex.
        apply elem_of_recs in Hx, Hr; [|done..]. rewrite Hid, Hr in Hx. by injection Hx as ->.
      * intros (x & [[= ->]|[Hx Hid]] & Ex & ->); [by rewrite E3 in Ex|by exists x].
  - cbn [b_events put_record setter]. rewrite Em, E. cbn [st_records setter revise]. symmetry.
    apply map_eq. intros i. rewrite !lookup_fmap. destruct (decide (r_EventID r = i)) as [<-|Hne].
    + rewrite lookup_partial_alter_eq, Hr. cbn. by rewrite E3.
    + by rewrite lookup_partial_alter_ne by done.
Qed.

Lemma mirrors_delete s b r :
  mem_ok s -> st_records s !! r_EventID r = Some r ->
  mirrors s b -> mirrors (delete_entry r s) (delete_record r b).
Proof.
  intros Hm Hr [F R E]. destruct (delete_entry_ok s r Hm Hr) as (_ & Er & I & _).
  destruct (index_only_fields _ _ I) as (Em & _). split; [done| |].
  - intros k e. rewrite Er. setoid_rewrite (elem_of_revised s r None _ Hm Hr). cbn.
    apply (elem_of_recs s r Hm) in Hr. destruct (decide (r_Sequence r = k)) as [<-|Hne].
    + rewrite lookup_delete_eq. split; [done|]. intros (x & [[=]|[Hx Hid]] & Ex & ->).
      destruct Hid. by rewrite (seq_inj s x r Hm Hx Hr Ex).
    + rewrite lookup_delete_ne, R by done. split.
      * intros (x & Hx & Ex & ->). exists x. split_and!; [right; split; [done|]|done..].
        intros Hid. apply Hne. rewrite <- Ex.
        apply elem_of_recs in Hx, Hr; [|done..]. rewrite Hid, Hr in Hx. by injection Hx as ->.
      * intros (x & [[=]|[Hx Hid]] & Ex & ->). by exists x.
  - cbn. rewrite Em, E. exact (eq_sym (fmap_delete _ _ _)).
Qed.

(** *** Lists of steps

    [s] with a mirror [b] goes to [s'] with [b']. *)
Record moves s (b : Buckets) s' (b' : Buckets) : Prop := {
  mv_mem : mem_ok s';
  mv_mirror : mirrors s' b';
  mv_fixed : unmoved s s';
}.

Lemma moves_refl s b : mem_ok s -> mirrors s b -> moves s b s b.
Proof. by split. Qed.
Lemma moves_trans s1 b1 s2 b2 s3 b3 :
  moves s1 b1 s2 b2 -> moves s2 b2 s3 b3 -> moves s1 b1 s3 b3.
Proof. intros [] []. split; [done..|]. by eapply unmoved_trans. Qed.


Lemma accept_list_ok (rs : list Rec) : forall s b,
  mem_ok s -> mirrors s b -> NoDup (r_EventID <$> rs) ->
  (forall r, r ∈ rs -> fresh_id s (r_EventID r)) ->
  StronglySorted (fun a b => r_Sequence a < r_Sequence b) (recs s ++ rs) ->
  let s' := foldl (fun s r => accept_record r s) s rs in
  moves s b s' (accept_all (with_json <$> rs) b) /\ recs s' = recs s ++ rs /\
  size (st_records s') = (size (st_records s) + length rs)%nat /\
  forall id, id ∉ r_EventID <$> rs -> fresh_id s id -> fresh_id s' id.
Proof.
  induction rs as [|r rs IH]; intros s b Hm Hb Hnd Hf Hs; cbn.
  { split_and!; [by apply moves_refl|by rewrite app_nil_r|lia|done]. }
  apply NoDup_cons in Hnd as [Hnr Hnd]. pose proof (Hf r ltac:(left)) as Hfr.
  assert (Hlt : forall x, x ∈ recs s -> r_Sequence x < r_Sequence r).
  { intros x Hx. apply StronglySorted_app in Hs as (Hs & _ & _). apply Hs; [done|left]. }
  destruct (accept_record_ok s r Hm Hfr Hlt) as (Hm1 & E1 & I1 & F1).
  pose proof (mirrors_accept s b r Hm Hfr Hlt Hb) as Hb1.
  assert (M1 : moves s b (accept_record r s) (put_event r (put_record r (json_rec r) b))).
  { split; [done..|]. apply unmoved_trans with (store_record r s); [done|by apply unmoved_index]. }
  destruct (IH _ _ Hm1 Hb1 Hnd) as (M2 & E2 & S2 & F2).
  { intros x Hx. apply F1; [|apply Hf; by right]. intros E. apply Hnr. rewrite <- E.
    by apply list_elem_of_fmap_2. }
  { by rewrite E1, <- app_assoc. }
  split_and!.
  - eapply moves_trans; [exact M1|exact M2].
  - by rewrite E2, E1, <- app_assoc.
  - rewrite S2. apply index_only_fields in I1 as (-> & _). cbn. rewrite map_size_insert_None; [lia|].
    destruct (st_records s !! r_EventID r) as [x|] eqn:Ex; [|done]. exfalso.
    by eapply (fi_order _ _ Hfr), mo_all.
  - intros id Hid Hfid. apply not_elem_of_cons in Hid as [? ?]. apply F2; [done|]. by apply F1.
Qed.

(** The record a list of replacements leaves in place of [x]. *)
Definition overlay1 (u x : Rec) : Rec := if decide (r_EventID x = r_EventID u) then u else x.
Definition overlay (us : list Rec) (x : Rec) : Rec := foldl (fun x u => overlay1 u x) x us.
Definition replaces s (u : Rec) : Prop :=
  exists r, st_records s !! r_EventID u = Some r /\ same_slot r u.

Lemma revision_overlay id u (l : list Rec) :
  r_EventID u = id -> omap (revision id (Some u)) l = overlay1 u <$> l.
Proof.
  intros <-. induction l as [|x l IH]; [done|]. cbn. rewrite IH. unfold revision, overlay1.
  by case_decide.
Qed.

Lemma update_list_ok (us : list Rec) : forall s b,
  mem_ok s -> mirrors s b -> (forall u, u ∈ us -> replaces s u) ->
  let s' := foldl (fun s r => update_record r s) s us in
  moves s b s' (put_all (with_json <$> us) b) /\ recs s' = overlay us <$> recs s /\
  size (st_records s') = size (st_records s) /\
  forall id, fresh_id s id -> fresh_id s' id.
Proof.
  induction us as [|u us IH]; intros s b Hm Hb Hu; cbn.
  { split_and!; [by apply moves_refl|by rewrite list_fmap_id|done..]. }
  destruct (Hu u ltac:(left)) as (r & Hr & Hs). pose proof Hs as (E1 & E2 & E3).
  rewrite E1 in Hr.
  destruct (update_record_ok s r u Hm Hr Hs) as (Hm1 & R1 & I1 & F1).
  pose proof (mirrors_update s b r u Hm Hr Hs Hb) as Hb1.
  assert (M1 : moves s b (update_record u s) (put_record u (json_rec u) b)).
  { split; [done..|]. eapply unmoved_trans; [|by apply unmoved_index]. done. }
  apply index_only_fields in I1 as (Em & _). cbn in Em.
  destruct (IH _ _ Hm1 Hb1) as (M2 & R2 & S2 & F2).
  { intros v Hv. destruct (Hu v ltac:(by right)) as (x & Hx & Hvx). unfold replaces. rewrite Em.
    destruct (decide (r_EventID v = r_EventID r)) as [E|Hne].
    - rewrite E, lookup_partial_alter_eq. exists u. split; [done|].
      rewrite E, Hr in Hx. injection Hx as <-. unfold same_slot in *. intuition congruence.
    - rewrite lookup_partial_alter_ne by done. by exists x. }
  split_and!.
  - eapply moves_trans; [exact M1|exact M2].
  - rewrite R2, R1, (revision_overlay _ u) by done. by rewrite <- list_fmap_compose.
  - rewrite S2, Em. transitivity (size (<[r_EventID r := u]> (st_records s))); [done|].
    by apply map_size_insert_Some.
  - auto.
Qed.

Lemma revision_filter id (l : list Rec) :
  omap (revision id None) l = filter (fun x => r_EventID x <> id) l.
Proof.
  induction l as [|x l IH]; [done|]. cbn [omap list_omap]. rewrite IH. unfold revision.
  destruct (decide (r_EventID x = id)) as [E|E].
  - by rewrite filter_cons_False by tauto.
  - by rewrite (filter_cons_True _ x).
Qed.

Lemma total_without s r :
  mem_ok s -> st_records s !! r_EventID r = Some r ->
  total_bytes (filter (fun x => r_EventID x <> r_EventID r) (recs s)) = total_bytes (recs s) - r_SizeBytes r.
Proof.
  intros Hm Hr. assert (Hin : r ∈ recs s) by by apply elem_of_recs.
  assert (Huniq : forall x, x ∈ recs s -> r_EventID x = r_EventID r -> x = r).
  { intros x Hx E. apply elem_of_recs in Hx; [|done]. rewrite E, Hr in Hx. by injection Hx. }
  pose proof (sorted_NoDup _ _ (mo_sorted _ Hm)) as Hnd. revert Hin Huniq Hnd.
  generalize (recs s). induction l as [|x l IH]; intros Hin Hu Hnd; [by apply elem_of_nil in Hin|].
  apply NoDup_cons in Hnd as [Hx Hnd]. destruct (decide (r_EventID x = r_EventID r)) as [E|E].
  - pose proof (Hu x ltac:(left) E) as ->. rewrite filter_cons_False by tauto.
    rewrite filter_all; [rewrite total_cons; lia|]. intros y Hy E'. apply Hx.
    by rewrite <- (Hu y ltac:(by right) E').
  - rewrite filter_cons_True by done. apply elem_of_cons in Hin as [->|Hin]; [done|].
    assert (IH' := IH Hin ltac:(intros; apply Hu; [by right|done]) Hnd).
    rewrite !total_cons. lia.
Qed.

Lemma delete_list_ok (rs : list Rec) : forall s b,
  mem_ok s -> mirrors s b -> NoDup (r_EventID <$> rs) ->
  (forall r, r ∈ rs -> st_records s !! r_EventID r = Some r) ->
  let s' := foldl (fun s r => delete_entry r s) s rs in
  moves s b s' (delete_all rs b) /\
  recs s' = filter (fun x => r_EventID x ∉ r_EventID <$> rs) (recs s) /\
  total_bytes (recs s') = total_bytes (recs s) - total_bytes rs /\
  (size (st_records s') <= size (st_records s))%nat /\
  forall id, fresh_id s id -> fresh_id s' id.
Proof.
  induction rs as [|r rs IH]; intros s b Hm Hb Hnd Hr; cbn.
  { split_and!; [by apply moves_refl|..|done]; [|unfold total_bytes; cbn; lia|lia].
    rewrite filter_all; [done|]. intros x _. apply not_elem_of_nil. }
  apply NoDup_cons in Hnd as [Hnr Hnd]. pose proof (Hr r ltac:(left)) as Hr1.
  destruct (delete_entry_ok s r Hm Hr1) as (Hm1 & R1 & I1 & F1).
  pose proof (mirrors_delete s b r Hm Hr1 Hb) as Hb1. rewrite revision_filter in R1.
  assert (M1 : moves s b (delete_entry r s) (delete_record r b)).
  { split; [done..|]. eapply unmoved_trans; [|by apply unmoved_index]. done. }
  apply index_only_fields in I1 as (Em & _). cbn in Em.
  destruct (IH _ _ Hm1 Hb1 Hnd) as (M2 & R2 & T2 & S2 & F2).
  { intros x Hx. rewrite Em. rewrite lookup_partial_alter_ne; [apply Hr; by right|].
    intros E. apply Hnr. rewrite E. by apply list_elem_of_fmap_2. }
  split_and!.
  - eapply moves_trans; [exact M1|exact M2].
  - rewrite R2, R1, list_filter_filter. apply list_filter_iff. set_solver.
  - rewrite T2, R1, (total_without s r Hm Hr1). pose proof (total_cons r rs). cbn in *. lia.
  - etrans; [exact S2|]. rewrite Em.
    transitivity (size (delete (r_EventID r) (st_records s))); [done|].
    rewrite map_size_delete. destruct (st_records s !! _); cbn; lia.
  - auto.
Qed.

(** ** Accepting records *)
Fixpoint stamp (now : Time) (sequence : Z) (input : list Rec) : list Rec :=
  match input with
  | [] => []
  | original :: rest => accepted_record now sequence original :: stamp now (sequence + 1) rest
  end.

Lemma stamp_length now n input : length (stamp now n input) = length input.
Proof. revert n. induction input as [|o input IH]; intros n; cbn; [done|]. by rewrite IH. Qed.

Lemma stamp_snoc now n input o :
  stamp now n (input ++ [o]) =
  stamp now n input ++ [accepted_record now (n + Z.of_nat (length input)) o].
Proof.
  revert n. induction input as [|x input IH]; intros n; cbn [stamp app length].
  - by rewrite Z.add_0_r.
  - rewrite IH. replace (n + 1 + Z.of_nat (length input)) with
      (n + Z.of_nat (S (length input))) by lia. done.
Qed.

Lemma stamp_ids now n input : r_EventID <$> stamp now n input = r_EventID <$> input.
Proof.
  revert n. induction input as [|x input IH]; intros n; [done|]. cbn [stamp fmap list_fmap].
  by rewrite IH, accepted_id.
Qed.

Lemma stamp_elem now n input r :
  r ∈ stamp now n input ->
  exists i o, o ∈ input /\ r = accepted_record now (n + Z.of_nat i) o /\ (i < length input)%nat.
Proof.
  revert n. induction input as [|x input IH]; intros n; cbn [stamp]; [by intros ?%elem_of_nil|].
  intros [->|Hr]%elem_of_cons.
  - exists 0%nat, x. split_and!; [left|f_equal; lia|cbn; lia].
  - destruct (IH _ Hr) as (i & o & Ho & -> & Hi). exists (S i), o.
    split_and!; [by right|f_equal; lia|cbn; lia].
Qed.

Lemma stamp_app now n input input' :
  stamp now n (input ++ input') =
  stamp now n input ++ stamp now (n + Z.of_nat (length input)) input'.
Proof.
  revert n. induction input as [|x input IH]; intros n; cbn [stamp app length].
  - by rewrite Z.add_0_r.
  - rewrite IH. by replace (n + 1 + Z.of_nat (length input)) with
      (n + Z.of_nat (S (length input))) by lia.
Qed.

Lemma stamp_total now n input : 0 <= total_bytes (stamp now n input).
Proof.
  apply sum_Z_nonneg, Forall_fmap, Forall_forall. intros r (i & o & _ & -> & _)%stamp_elem.
  unfold compose. rewrite accepted_size. pose proof (acceptedSize_pos (accepted_record now (n + Z.of_nat i) o)).
  lia.
Qed.

(** What the acceptance loop established about the records it took. *)
Record accepting_ok s (now : Time) (input : list Rec) (st : accepting) : Prop := {
  ao_accepted : ac_accepted st = stamp now (st_nextSeq s) input;
  ao_seen : forall id, id ∈ ac_seen st <-> id ∈ r_EventID <$> input;
  ao_nodup : NoDup (r_EventID <$> input);
  ao_new : forall o, o ∈ input -> st_records s !! r_EventID o = None;
  ao_valid : forall o, o ∈ input -> validateNewRecord o = nil_err;
  ao_bytes : ac_bytes st = total_bytes (ac_accepted st);
  ao_room : st_bytes s + ac_bytes st <= MaxBytes (st_limits s);
}.

Lemma accept_loop_ok operation s now input st :
  sinv s -> st_nextSeq s + Z.of_nat (length input) <= max_u64 ->
  fold_result (accept_one operation s now) (mkAccepting ∅ [] 0) input = Ok st ->
  accepting_ok s now input st.
Proof.
  intros Hi Hmax Hf.
  cut ((length input <= length input)%nat -> accepting_ok s now input st); [auto|].
  revert Hf. apply (fold_result_ind _ (fun pre st => (length pre <= length input)%nat ->
    accepting_ok s now pre st)).
  { intros _. split; cbn; try done; try (by intros ? ?%elem_of_nil); [set_solver|constructor|].
    rewrite Z.add_0_r. apply Hi. }
  intros pre o st1 st2 IH Hone Hlen. rewrite length_app in Hlen. cbn in Hlen.
  destruct (IH ltac:(lia)) as [Ha Hs Hn Hnew Hv Hb Hroom]. unfold accept_one in Hone.
  destruct (validateNewRecord o) as [[]|] eqn:Ev; [|done]. cbn [wrap_err] in Hone.
  destruct (bool_decide (is_Some (st_records s !! r_EventID o))) eqn:E1; [done|]. cbn [fail_if] in Hone.
  destruct (bool_decide (r_EventID o ∈ ac_seen st1)) eqn:E2; [done|]. cbn [fail_if] in Hone.
  rewrite Ha, stamp_length, u64_id in Hone by (pose proof (sv_next _ Hi); unfold in_u64; lia).
  remember (accepted_record now (st_nextSeq s + Z.of_nat (length pre)) o) as r eqn:Hr.
  destruct (_ <? r_SizeBytes r) eqn:E3; [done|]. cbn [fail_if] in Hone. injection Hone as <-. to_prop.
  apply eq_None_not_Some in E1. rewrite Hs in E2. split; cbn [ac_accepted ac_seen ac_bytes].
  - by rewrite stamp_snoc, Hr.
  - intros id. rewrite fmap_app, elem_of_union, Hs. set_solver.
  - rewrite fmap_app. apply NoDup_app. split_and!; [done| |apply NoDup_singleton]. set_solver.
  - intros x [?|Hx%list_elem_of_singleton]%elem_of_app; [by apply Hnew|by subst].
  - intros x [?|Hx%list_elem_of_singleton]%elem_of_app; [by apply Hv|by subst].
  - rewrite total_app, <- Ha, <- Hb. unfold total_bytes. cbn. lia.
  - lia.
Qed.
End Store.
