(* ===== verification/OutboxComplete.v ===== *)
(** * Operations on the outbox store

    What acceptance, state changes, completion and acknowledgement do to the
    list of records, on success and on failure, and that each keeps [sinv]. *)

From S2P Require Import Prelude Heap Outbox OutboxIndex OutboxMemory OutboxStore.
From Stdlib Require Import ZArith Lia.
From stdpp Require Import base gmap strings sorting numbers option list.
#[local] Open Scope Z_scope.

(** A state change of one record: what makes it safe to store. *)
Definition mutation_ok (mutate : string -> Rec -> result Rec) : Prop :=
  forall id r r', mutate id r = Ok r' ->
    same_slot r r' /\ r_SizeBytes r' = r_SizeBytes r /\
    (validateStoredRecord r = nil_err -> validateStoredRecord r' = nil_err).

Definition touch (now : Time) (r : Rec) : Rec := r <| r_UpdatedAt := now |>.
Lemma touch_valid now r : validateStoredRecord (touch now r) = validateStoredRecord r.
Proof. reflexivity. Qed.

(** Validity depends on a record's identity, size, state and assignment. *)
Definition identity_size (r : Rec) : bool :=
  missing_identity r || (r_Sequence r =? 0) || (r_SizeBytes r <=? 0) ||
  negb (r_SizeBytes r =? acceptedSize r).
Definition unassigned (r : Rec) : bool :=
  (r_Epoch r =? 0) || str_empty (r_Broker r) || str_empty (r_Destination r).

Lemma stored_valid r :
  identity_size r = false -> unassigned r = false ->
  r_State r ∈ [StateReady; StateInEventsA; StateAckUncertain] -> validateStoredRecord r = nil_err.
Proof.
  unfold validateStoredRecord, identity_size, unassigned. intros -> -> Hs.
  repeat (apply elem_of_cons in Hs as [->|Hs]; [done|]). by apply elem_of_nil in Hs.
Qed.

Lemma stored_inv r :
  validateStoredRecord r = nil_err -> identity_size r = false /\
  (r_State r <> StateUnassigned -> unassigned r = false /\
   r_State r ∈ [StateReady; StateInEventsA; StateAckUncertain]).
Proof.
  unfold validateStoredRecord. fold (identity_size r). fold (unassigned r).
  destruct (identity_size r); [done|]. intros H. split; [done|]. intros Hn.
  destruct (r_State r); cbn in H; try done; destruct (unassigned r); try done;
    (split; [done|set_solver]).
Qed.

Lemma begin_attempt_ok : mutation_ok begin_attempt.
Proof.
  intros id r r'. unfold begin_attempt. case_bool_decide as E; [|done]. cbn [negb]. intros [= <-].
  split; [done|]. split; [done|]. intros (Hi & Ha)%stored_inv.
  destruct Ha as [Ha _]; [by rewrite E|]. apply stored_valid; [exact Hi|exact Ha|]. cbn. set_solver.
Qed.

Lemma leave_attempt_ok next msg reasons :
  next ∈ [StateReady; StateInEventsA; StateAckUncertain] ->
  mutation_ok (leave_attempt next msg reasons).
Proof.
  intros Hn id r r'. unfold leave_attempt. case_bool_decide as E; [|done]. cbn [negb]. intros [= <-].
  split; [done|]. split; [done|]. intros (Hi & Ha)%stored_inv.
  destruct Ha as [Ha _]; [by rewrite E|]. apply stored_valid; [exact Hi|exact Ha|exact Hn].
Qed.

Lemma retry_ok : mutation_ok retry.
Proof.
  intros id r r'. unfold retry. case_bool_decide as E; [|done]. cbn [negb]. intros [= <-].
  split; [done|]. split; [done|]. intros (Hi & Ha)%stored_inv.
  destruct Ha as [Ha _]; [by rewrite E|]. apply stored_valid; [exact Hi|exact Ha|]. cbn. set_solver.
Qed.

Lemma assign_ok assignments : mutation_ok (assign assignments).
Proof.
  intros id r r'. unfold assign. set (a := default _ _). destruct (_ || _) eqn:Ea; [done|].
  destruct (_ && _); [by intros [= <-]|]. destruct (negb _ && _); [done|]. intros [= <-].
  split; [done|]. split; [done|]. intros (Hi & _)%stored_inv. to_prop.
  apply stored_valid; [exact Hi| |cbn; set_solver]. unfold unassigned. cbn.
  apply orb_false_iff; split; [apply orb_false_iff; split|]; try done. by apply Z.eqb_neq.
Qed.
#[local] Opaque acceptedSize accepted_record validateNewRecord u64 validateStoredRecord.

Section Operations.
Context {B : Type} `{!Bolt B}.
Implicit Types s : Store B.

(** ** Stores with the same memory *)
Record same_memory s s' : Prop := {
  sm_records : st_records s' = st_records s;
  sm_order : st_order s' = st_order s;
  sm_lanes : st_lanes s' = st_lanes s;
  sm_ready : st_readyLanes s' = st_readyLanes s;
}.

Lemma same_recs s s' : same_memory s s' -> recs s' = recs s.
Proof. intros [E1 E2 _ _]. unfold recs, live. by rewrite E1, E2. Qed.

Lemma same_fresh s s' id : same_memory s s' -> fresh_id s id -> fresh_id s' id.
Proof. intros [_ E2 E3 _] [F1 F2]. split; [by rewrite E2|by rewrite E3]. Qed.

Lemma same_mem_ok s s' : same_memory s s' -> mem_ok s -> mem_ok s'.
Proof.
  intros Hs [M1 M2 M3 M4 M5 M6]. pose proof Hs as [E1 E2 E3 E4].
  split; rewrite ?E1, ?E2, ?(same_recs _ _ Hs); [done..| | |].
  - unfold lane_state. by rewrite E3, E4.
  - intros k ln. rewrite E3. intros Hl. apply (lane_fits_keep s s' k ln ln); [done..| |by apply M5].
    by rewrite E4.
  - intros k. rewrite E3. unfold queue. rewrite (same_recs _ _ Hs). apply M6.
Qed.

Lemma same_mirrors s s' b : same_memory s s' -> mirrors s b -> mirrors s' b.
Proof.
  intros Hs [M1 M2 M3]. split; rewrite ?(same_recs _ _ Hs); [done..|].
  by rewrite (sm_records _ _ Hs).
Qed.

(** ** Transactions *)

(** A failed operation: only the database handle may differ, and it holds what
    it held. *)
Record rolled_back s s' : Prop := {
  rb_memory : s' = s <| st_db := st_db s' |>;
  rb_db : option_Forall2 (fun b b' => contents b' = contents b) (st_db s) (st_db s');
}.

Lemma rolled_back_refl s : rolled_back s s.
Proof. split; [by destruct s|]. destruct (st_db s); by constructor. Qed.

Lemma rolled_back_memory s s' : rolled_back s s' -> same_memory s s'.
Proof. intros [-> _]. by split. Qed.

Lemma sinv_rolled_back s s' : sinv s -> rolled_back s s' -> sinv s'.
Proof.
  intros [? ? ? ? ? ? ? Hdb] Hr. pose proof (rolled_back_memory _ _ Hr) as Hs. destruct Hr as [E D].
  remember (st_db s') as d eqn:Ed. clear Ed. subst s'.
  split; try done.
  - by eapply same_mem_ok.
  - cbn. intros b ->. inversion D as [b0 ? Hc Hb0|]; simplify_eq.
    destruct (Hdb b0 ltac:(done)) as (bk & Hbk & Hm & Hn & Ht). exists bk.
    rewrite Hc. split_and!; [done| |done..]. by eapply same_mirrors.
Qed.

Lemma transact_err f s s' e : transact f s = (s', Err e) -> rolled_back s s'.
Proof.
  unfold transact. destruct (st_db s) as [b|] eqn:Eb.
  - destruct (Update _ b) as [b' err] eqn:Eu. intros [= <- ->].
    apply Update_rolls_back in Eu. split; [done|]. rewrite Eb. by constructor.
  - intros [= <- _]. apply rolled_back_refl.
Qed.

Lemma transact_ok f s s' :
  transact f s = (s', nil_err) -> sinv s ->
  exists b' bk, s' = s <| st_db := Some b' |> /\ contents b' = Some (f bk) /\
    mirrors s bk /\ b_next bk = st_nextSeq s /\ b_total bk = st_bytes s.
Proof.
  unfold transact. intros H Hi. destruct (st_db s) as [b|] eqn:Eb; [|done].
  destruct (Update _ b) as [b' err] eqn:Eu. injection H as <- ->.
  destruct (sv_db _ Hi b Eb) as (bk & Hbk & Hm & Hn & Ht).
  apply Update_commits in Eu. rewrite Hbk in Eu. cbn in Eu. injection Eu as Eu.
  by exists b', bk.
Qed.

Lemma encode_all_ok (rs : list Rec) ps : encode_all rs = Ok ps -> ps = with_json <$> rs.
Proof.
  unfold encode_all. apply (fold_result_ind _ (fun pre ps => ps = with_json <$> pre)); [done|].
  intros pre r ps1 ps2 -> H. unfold Outbox.encode in H. destruct (_ && _); [|done].
  cbn in H. injection H as <-.
  by rewrite fmap_app.
Qed.

(** ** Acceptance *)
Lemma stamp_sorted now n (input : list Rec) :
  StronglySorted (fun a b => r_Sequence a < r_Sequence b) (stamp now n input).
Proof.
  revert n. induction input as [|o input IH]; intros n; cbn; constructor; [done|].
  apply Forall_forall. intros r (i & x & _ & -> & _)%stamp_elem. rewrite !accepted_sequence. lia.
Qed.

Lemma accept_all_tables (ps : list (Rec * Rec)) : forall b, tables_only b (accept_all ps b).
Proof.
  unfold accept_all. induction ps as [|[r e] ps IH]; intros b; [by destruct b|]. cbn.
  eapply tables_trans; [|apply IH]. done.
Qed.

Lemma put_all_tables (ps : list (Rec * Rec)) : forall b, tables_only b (put_all ps b).
Proof.
  unfold put_all. induction ps as [|[r e] ps IH]; intros b; [by destruct b|]. cbn.
  eapply tables_trans; [|apply IH]. done.
Qed.

Lemma delete_all_tables (rs : list Rec) : forall b, tables_only b (delete_all rs b).
Proof.
  unfold delete_all. induction rs as [|r rs IH]; intros b; [by destruct b|]. cbn.
  eapply tables_trans; [|apply IH]. done.
Qed.

Lemma tables_fields b b' :
  tables_only b b' -> b_format b' = b_format b /\ b_next b' = b_next b /\ b_total b' = b_total b.
Proof. intros ->. done. Qed.

(** The invariant of a store after a committed change. *)
Lemma sinv_committed s s' b' bk' :
  st_db s' = Some b' -> contents b' = Some bk' -> mirrors s' bk' ->
  b_next bk' = st_nextSeq s' -> b_total bk' = st_bytes s' -> mem_ok s' ->
  (forall r, r ∈ recs s' -> validateStoredRecord r = nil_err) ->
  (forall r, r ∈ recs s' -> 0 < r_Sequence r < st_nextSeq s') ->
  1 <= st_nextSeq s' <= max_u64 -> st_bytes s' = total_bytes (recs s') ->
  st_bytes s' <= MaxBytes (st_limits s') ->
  Z.of_nat (size (st_records s')) <= MaxMessages (st_limits s') -> sinv s'.
Proof. intros Hb Hc. split; try done. intros b. rewrite Hb. intros [= <-]. by exists bk'. Qed.

Lemma mirrors_tables s b b' :
  mirrors s b -> b_format b' = b_format b -> b_records b' = b_records b ->
  b_events b' = b_events b -> mirrors s b'.
Proof. intros [F R E] Ef Er Ee. split; [congruence|by rewrite Er|by rewrite Ee]. Qed.

(** What an accepted batch is: stamped with the next sequences, appended. *)
Record accepted_batch s (now : Time) (input : list Rec) s' (acc : list Rec) : Prop := {
  ab_stamped : acc = stamp now (st_nextSeq s) input;
  ab_recs : recs s' = recs s ++ acc;
  ab_next : st_nextSeq s' = st_nextSeq s + Z.of_nat (length input);
  ab_limits : st_limits s' = st_limits s;
  ab_fresh : forall id, id ∉ r_EventID <$> input -> fresh_id s id -> fresh_id s' id;
}.

(** The committed acceptance: memory and database move together. *)
Lemma accept_commit s now input st b' bk :
  sinv s -> (forall o, o ∈ input -> fresh_id s (r_EventID o)) -> accepting_ok s now input st ->
  Z.of_nat (size (st_records s)) + Z.of_nat (length input) <= MaxMessages (st_limits s) ->
  st_nextSeq s + Z.of_nat (length input) <= max_u64 -> mirrors s bk ->
  let next := st_nextSeq s + Z.of_nat (length input) in
  let bytes := st_bytes s + ac_bytes st in
  contents b' = Some (accept_all (with_json <$> ac_accepted st) bk
                        <| b_next := next |> <| b_total := bytes |>) ->
  let s' := accept_memory (ac_accepted st) next bytes (s <| st_db := Some b' |>) in
  sinv s' /\ accepted_batch s now input s' (ac_accepted st).
Proof.
  intros Hi Hf [Ha _ Hnd Hnew Hv Hb Hroom] Hmsgs Hmax Hmir. destruct st as [seen acc bytes].
  cbn [ac_accepted ac_bytes] in *. cbn zeta. intros Hb'. pose proof (sv_next _ Hi) as Hnext.
  set (s1 := s <| st_db := Some b' |>) in *.
  assert (Hs1 : same_memory s s1) by done.
  destruct (accept_list_ok acc s1 bk) as ([Hm Hmi Hu] & Hrecs & Hsize & Hfr).
  { apply (same_mem_ok s); [done|apply Hi]. }
  { by apply (same_mirrors s). }
  { by rewrite Ha, stamp_ids. }
  { intros r Hr. rewrite Ha in Hr. apply (same_fresh s); [done|].
    apply stamp_elem in Hr as (i & o & Ho & -> & _). rewrite accepted_id. by apply Hf. }
  { change (recs s1) with (recs s). apply StronglySorted_app. split_and!.
    - intros x y Hx Hy. rewrite Ha in Hy. apply stamp_elem in Hy as (i & o & _ & -> & _).
      rewrite accepted_sequence. pose proof (sv_seq _ Hi x Hx). lia.
    - apply Hi.
    - rewrite Ha. apply stamp_sorted. }
  unfold accept_memory. change (foldl _ s1 acc) with (foldl (fun s r => accept_record r s) s1 acc).
  set (s2 := foldl _ s1 acc) in *. change (recs s1) with (recs s) in Hrecs. clearbody s2.
  match goal with |- sinv ?x /\ _ => set (s3 := x) end.
  assert (Hs3 : same_memory s2 s3) by done.
  destruct Hu as [Ul Ud Un Ub].
  pose proof (accept_all_tables (with_json <$> acc) bk) as (Tf & Tn & Tt)%tables_fields.
  assert (F : st_db s3 = Some b' /\ st_limits s3 = st_limits s /\
    st_nextSeq s3 = st_nextSeq s + Z.of_nat (length input) /\ st_bytes s3 = st_bytes s + bytes).
  { split_and!; [exact Ud|exact Ul|done..]. }
  clearbody s3. destruct F as (Fd & Fl & Fn & Fb). pose proof (same_recs _ _ Hs3) as Er.
  rewrite Hrecs in Er. split.
  - eapply (sinv_committed s); [exact Fd|exact Hb'|..]; rewrite ?Fl, ?Fn, ?Fb, ?Er.
    + eapply mirrors_tables; [by eapply same_mirrors|done..].
    + done.
    + done.
    + by eapply same_mem_ok.
    + rewrite Ha. intros r [Hr|Hr]%elem_of_app; [by apply Hi|].
      apply stamp_elem in Hr as (i & o & Ho & -> & _). apply accepted_valid; [by apply Hv|lia].
    + rewrite Ha. intros r [Hr|Hr]%elem_of_app.
      * pose proof (sv_seq _ Hi r Hr). lia.
      * apply stamp_elem in Hr as (i & o & Ho & -> & Hlt). rewrite accepted_sequence. lia.
    + lia.
    + by rewrite total_app, (sv_bytes _ Hi), Hb.
    + done.
    + rewrite (sm_records _ _ Hs3), Hsize, Ha, stamp_length.
      change (st_records s1) with (st_records s). lia.
  - split; [done..|].
    intros id Hid Hfid. apply (same_fresh s2); [done|]. apply Hfr; [by rewrite Ha, stamp_ids|].
    by apply (same_fresh s).
Qed.

Lemma acceptMany_ok operation now input s s' out :
  sinv s -> (forall o, o ∈ input -> fresh_id s (r_EventID o)) ->
  acceptMany operation now input s = (s', out) ->
  sinv s' /\
  match out with
  | Err _ => rolled_back s s'
  | Ok acc => accepted_batch s now input s' acc
  end.
Proof.
  intros Hi Hf H. pose proof (rolled_back_refl s) as Hrb. unfold acceptMany in H.
  destruct (negb (is_open s)) eqn:Eo; [by injection H as <- <-|].
  case_bool_decide as En.
  { injection H as <- <-. split; [done|]. subst. split; cbn; rewrite ?app_nil_r; try done; lia. }
  destruct (_ <? Z.of_nat (length input)) eqn:E1; [by injection H as <- <-|].
  destruct (max_u64 - _ <? _) eqn:E2; [by injection H as <- <-|]. to_prop.
  destruct (fold_result _ _ input) as [[seen acc bytes]|e] eqn:Ef; [|by injection H as <- <-].
  apply accept_loop_ok in Ef; [|done|lia]. pose proof (ao_accepted _ _ _ _ Ef) as Ha. cbn in Ha.
  destruct (encode_all acc) as [ps|e] eqn:Ee; [|by injection H as <- <-].
  apply encode_all_ok in Ee as ->. pose proof (sv_next _ Hi) as Hnext.
  rewrite Ha, stamp_length, u64_id in H by (unfold in_u64; lia). rewrite <- Ha in H.
  destruct (transact _ s) as [s1 err] eqn:Et. destruct err as [[]|e].
  2: { injection H as <- <-. apply transact_err in Et. split; [by eapply sinv_rolled_back|done]. }
  injection H as <- <-. apply transact_ok in Et as (b' & bk & -> & Hb' & Hmir & Hbn & Hbt); [|done].
  apply (accept_commit s now input _ b' bk Hi Hf Ef); [lia..|done|exact Hb'].
Qed.
(** ** Replacing and deleting records *)

(** A replacement in the same slot that is still a valid stored record. *)
Definition valid_edit s (u : Rec) : Prop :=
  exists r, st_records s !! r_EventID u = Some r /\ same_slot r u /\
    r_SizeBytes u = r_SizeBytes r /\ validateStoredRecord u = nil_err.

Lemma overlay_spec (us : list Rec) : forall x y,
  (forall u, u ∈ us -> r_EventID u = r_EventID x -> u = y) -> r_EventID y = r_EventID x ->
  overlay us x = if decide (r_EventID x ∈ r_EventID <$> us) then y else x.
Proof.
  induction us as [|u us IH]; intros x y Hu Hy; [done|]. unfold overlay. cbn [foldl].
  change (foldl _ ?z us) with (overlay us z). unfold overlay1. cbn [fmap list_fmap].
  destruct (decide (r_EventID x = r_EventID u)) as [E|E].
  - rewrite (decide_True (P := r_EventID x ∈ _ :: _)) by (rewrite E; left).
    pose proof (Hu u ltac:(left) (eq_sym E)) as ->. rewrite (IH y y); [by case_decide| |done].
    intros v Hv Ev. apply Hu; [by right|congruence].
  - rewrite (IH x y); [|intros; apply Hu; [by right|done]|done]. apply decide_ext. set_solver.
Qed.

Lemma overlay_cases s us x :
  mem_ok s -> (forall u, u ∈ us -> valid_edit s u) -> x ∈ recs s ->
  overlay us x = x \/ exists u, u ∈ us /\ overlay us x = u /\ same_slot x u /\
    r_SizeBytes u = r_SizeBytes x.
Proof.
  intros Hm Hu Hx. apply elem_of_recs in Hx; [|done].
  assert (Hs : forall u, u ∈ us -> r_EventID u = r_EventID x -> same_slot x u /\
    r_SizeBytes u = r_SizeBytes x).
  { intros u Hin E. destruct (Hu u Hin) as (r & Hr & Hs & Hz & _).
    rewrite E, Hx in Hr. by injection Hr as <-. }
  assert (Hgen : forall us' y, (forall u, u ∈ us' -> u ∈ us) -> r_EventID y = r_EventID x ->
    overlay us' y = y \/ exists u, u ∈ us /\ overlay us' y = u /\ r_EventID u = r_EventID x).
  { intros us'. unfold overlay. induction us' as [|u us' IH]; intros y Hsub Hy; [by left|]. cbn.
    unfold overlay1. case_decide as E.
    - destruct (IH u ltac:(intros; apply Hsub; by right) ltac:(congruence)) as [Eu|Eu];
        [|by right]. right. exists u. split_and!; [apply Hsub; left|done|congruence].
    - apply (IH y); [intros; apply Hsub; by right|done]. }
  destruct (Hgen us x ltac:(done) eq_refl) as [->|(u & Hin & -> & E)]; [by left|right].
  exists u. destruct (Hs u Hin E). by split_and!.
Qed.

Lemma total_overlay s us :
  mem_ok s -> (forall u, u ∈ us -> valid_edit s u) ->
  total_bytes (overlay us <$> recs s) = total_bytes (recs s).
Proof.
  intros Hm Hu. unfold total_bytes. f_equal. rewrite <- list_fmap_compose.
  apply list_fmap_ext. intros i x Hx%list_elem_of_lookup_2. cbn.
  by destruct (overlay_cases s us x Hm Hu Hx) as [->|(u & _ & -> & _ & E)].
Qed.

(** Updates, then deletions of other records, on a memory and its mirror. *)
Record revised s (us ds : list Rec) s' : Prop := {
  rv_recs : recs s' = filter (fun x => r_EventID x ∉ r_EventID <$> ds) (overlay us <$> recs s);
  rv_valid : forall r, r ∈ recs s' -> validateStoredRecord r = nil_err;
  rv_seq : forall r, r ∈ recs s' -> 0 < r_Sequence r < st_nextSeq s;
  rv_total : total_bytes (recs s') = st_bytes s - total_bytes ds;
  rv_size : (size (st_records s') <= size (st_records s))%nat;
  rv_fresh : forall id, fresh_id s id -> fresh_id s' id;
}.

Lemma revise_ok s (us ds : list Rec) db bk :
  sinv s -> (forall u, u ∈ us -> valid_edit s u) -> NoDup (r_EventID <$> ds) ->
  (forall r, r ∈ ds -> st_records s !! r_EventID r = Some r) ->
  (forall id, id ∈ r_EventID <$> us -> id ∉ r_EventID <$> ds) -> mirrors s bk ->
  let s1 := s <| st_db := db |> in
  let s' := delete_memory ds (update_memory us s1) in
  moves s1 bk s' (delete_all ds (put_all (with_json <$> us) bk)) /\ revised s us ds s'.
Proof.
  intros Hi Hu Hnd Hd Hdis Hb. cbn zeta. set (s1 := s <| st_db := db |>).
  assert (Hs1 : same_memory s s1) by done.
  assert (Hm : mem_ok s1) by (apply (same_mem_ok s); [done|apply Hi]).
  destruct (update_list_ok us s1 bk) as (M1 & R1 & S1 & F1); [done|by apply (same_mirrors s)|..].
  { intros u Hin. destruct (Hu u Hin) as (r & ? & ? & _). by exists r. }
  change (foldl _ s1 us) with (update_memory us s1) in *. set (s2 := update_memory us s1) in *.
  change (recs s1) with (recs s) in *. clearbody s2.
  destruct (delete_list_ok ds s2 (put_all (with_json <$> us) bk)) as (M2 & R2 & T2 & S2 & F2).
  { apply M1. } { apply M1. } { done. }
  { intros r Hr. pose proof (Hd r Hr) as Hl. apply elem_of_recs; [apply M1|]. rewrite R1.
    apply list_elem_of_fmap. exists r. apply elem_of_recs in Hl; [|apply Hi]. split; [|done].
    rewrite (overlay_spec us r r); [by case_decide| |done]. intros u Hin E. exfalso.
    apply (Hdis (r_EventID u)); [by apply list_elem_of_fmap_2|]. rewrite E.
    by apply list_elem_of_fmap_2. }
  change (foldl _ s2 ds) with (delete_memory ds s2) in *. clearbody s1.
  assert (Hin : forall r, r ∈ recs (delete_memory ds s2) ->
    exists x, x ∈ recs s /\ r = overlay us x).
  { intros r. rewrite R2, R1. intros [_ Hr]%list_elem_of_filter.
    apply list_elem_of_fmap in Hr as (x & -> & Hx). by exists x. }
  split; [eapply moves_trans; [exact M1|exact M2]|]. split.
  - by rewrite R2, R1.
  - intros r (x & Hx & ->)%Hin. destruct (overlay_cases s us x (sv_mem _ Hi) Hu Hx)
      as [->|(u & Hu1 & -> & _)]; [by apply Hi|]. by destruct (Hu u Hu1) as (? & _ & _ & _ & ?).
  - intros r (x & Hx & ->)%Hin. pose proof (sv_seq _ Hi x Hx).
    by destruct (overlay_cases s us x (sv_mem _ Hi) Hu Hx) as [->|(u & _ & -> & (_ & _ & ->) & _)].
  - rewrite T2, R1, (total_overlay s us (sv_mem _ Hi) Hu). by rewrite (sv_bytes _ Hi).
  - rewrite <- (sm_records _ _ Hs1), <- S1. exact S2.
  - intros id Hf. by apply F2, F1, (same_fresh s).
Qed.
(** ** Compaction *)
Lemma live_filter s (ids : list string) :
  live s (filter (fun id => is_Some (st_records s !! id)) ids) = live s ids.
Proof.
  unfold live in *. induction ids as [|i ids IH]; [done|]. rewrite filter_cons.
  destruct (st_records s !! i) as [r|] eqn:E.
  - rewrite decide_True by by eexists. cbn. by rewrite E, IH.
  - rewrite decide_False by by intros []. cbn. by rewrite E, IH.
Qed.

Lemma compact_ok s b :
  mem_ok s -> mirrors s b ->
  let s' := compactOrderIfNeeded s in
  moves s b s' b /\ recs s' = recs s /\ st_records s' = st_records s /\
  forall id, fresh_id s id -> fresh_id s' id.
Proof.
  intros Hm Hb. cbn zeta. unfold compactOrderIfNeeded. case_match.
  { split_and!; [by apply moves_refl|done..]. }
  match goal with |- moves _ _ ?x _ /\ _ => set (s' := x) end.
  assert (Er : recs s' = recs s) by exact (live_filter s (st_order s)).
  assert (Em : st_records s' = st_records s) by done.
  assert (Hm' : mem_ok s').
  { pose proof Hm as [M1 M2 M3 M4 M5 M6]. split; rewrite ?Er, ?Em; [done| |done|done|..].
    - intros id r Hr. apply list_elem_of_filter. split; [by eexists|by eapply M2].
    - intros k ln Hl. destruct (M5 k ln Hl) as [L1 L2 L3 L4]. split; [|done..].
      unfold queue. rewrite Er. exact L1.
    - intros k Hk. unfold queue. rewrite Er. by apply M6. }
  split_and!; [split; [done| |done]|done..|].
  - destruct Hb as [B1 B2 B3]. split; [done|by rewrite Er|done].
  - intros id [F1 F2]. split; [|done]. intros [_ Hin]%list_elem_of_filter. by apply F1.
Qed.

(** The invariant after a committed revision that removes [ds]. *)
Lemma finish_delete_ok s (us ds : list Rec) b' bk :
  sinv s -> (forall u, u ∈ us -> valid_edit s u) -> NoDup (r_EventID <$> ds) ->
  (forall r, r ∈ ds -> st_records s !! r_EventID r = Some r) ->
  (forall id, id ∈ r_EventID <$> us -> id ∉ r_EventID <$> ds) ->
  mirrors s bk -> b_next bk = st_nextSeq s ->
  let left := st_bytes s - total_bytes ds in
  contents b' = Some (delete_all ds (put_all (with_json <$> us) bk) <| b_total := left |>) ->
  let s' := finish_delete ds left (update_memory us (s <| st_db := Some b' |>)) in
  sinv s' /\ revised s us ds s' /\ st_limits s' = st_limits s /\ st_nextSeq s' = st_nextSeq s.
Proof.
  intros Hi Hu Hnd Hd Hdis Hb Hn. cbn zeta. intros Hb'.
  destruct (revise_ok s us ds (Some b') bk Hi Hu Hnd Hd Hdis Hb) as (M & R). unfold finish_delete.
  set (s1 := s <| st_db := Some b' |>) in *. set (s2 := delete_memory ds (update_memory us s1)) in *.
  destruct M as [Mm Mb [Ml Md Mn Mt]]. clearbody s2.
  pose proof (tables_fields _ _ (put_all_tables (with_json <$> us) bk)) as (P1 & P2 & P3).
  pose proof (tables_fields _ _ (delete_all_tables ds (put_all (with_json <$> us) bk)))
    as (D1 & D2 & D3).
  set (s3 := s2 <| st_bytes := st_bytes s - total_bytes ds |>
                <| st_deleted := st_deleted s2 + Z.of_nat (length ds) |>).
  assert (Hs3 : same_memory s2 s3) by done.
  destruct (compact_ok s3 (delete_all ds (put_all (with_json <$> us) bk)))
    as ([Cm Cb [Cl Cd Cn Ct]] & Cr & Ce & Cf).
  { by apply (same_mem_ok s2). } { by apply (same_mirrors s2). }
  set (s4 := compactOrderIfNeeded s3) in *.
  assert (F : st_db s4 = Some b' /\ st_limits s4 = st_limits s /\ st_nextSeq s4 = st_nextSeq s /\
    st_bytes s4 = st_bytes s - total_bytes ds /\ recs s4 = recs s2 /\
    st_records s4 = st_records s2).
  { split_and!; [rewrite Cd; exact Md|rewrite Cl; exact Ml|rewrite Cn; exact Mn|by rewrite Ct|
      by rewrite Cr|by rewrite Ce]. }
  assert (Hf4 : forall id, fresh_id s2 id -> fresh_id s4 id).
  { intros id Hid. apply Cf. by apply (same_fresh s2). }
  clearbody s4. destruct F as (F1 & F2 & F3 & F4 & F5 & F6). destruct R as [R1 R2 R3 R4 R5 R6].
  split; [|split; [split|done]]; rewrite ?F5, ?F6; try done; [|by eauto].
  eapply (sinv_committed s); [exact F1|exact Hb'|..]; rewrite ?F2, ?F3, ?F4, ?F5, ?F6; try done.
  - by eapply mirrors_tables.
  - cbn. by rewrite D2, P2, Hn.
  - apply Hi.
  - pose proof (sv_maxBytes _ Hi). pose proof (sv_bytes _ Hi).
    assert (0 <= total_bytes ds); [|lia]. apply sum_Z_nonneg, Forall_fmap, Forall_forall.
    intros r Hr. unfold compose. apply Hd, elem_of_recs in Hr; [|apply Hi].
    apply (sv_valid _ Hi), stored_inv in Hr as [E _]. unfold identity_size in E. to_prop. lia.
  - pose proof (sv_maxMessages _ Hi). lia.
Qed.
(** ** State changes *)
Lemma unique_loop_ok (ids : list string) : forall seen,
  unique_loop seen ids = nil_err -> NoDup ids /\ (forall id, id ∈ ids -> id ∉ seen /\ id <> ""%string).
Proof.
  induction ids as [|i ids IH]; intros seen; cbn; [intros _; split; [constructor|set_solver]|].
  destruct (str_empty i) eqn:E1; [done|]. case_bool_decide as E2; [done|]. cbn.
  intros [Hnd Hs]%IH. apply str_empty_false in E1. split.
  - constructor; [|done]. intros Hin. destruct (Hs i Hin). set_solver.
  - intros id [->|Hin]%elem_of_cons; [done|]. destruct (Hs id Hin). set_solver.
Qed.

Lemma unique_ok ids : validateUniqueEventIDs ids = nil_err -> NoDup ids /\ ""%string ∉ ids.
Proof. intros [H1 H2]%unique_loop_ok. split; [done|]. intros Hin. by destruct (H2 _ Hin). Qed.

(** What [updateMany] makes of a record it selects. *)
Definition edited (mutate : string -> Rec -> result Rec) (now : Time) (r : Rec) : Rec :=
  match mutate (r_EventID r) r with
  | Ok r' => touch now r'
  | Err _ => r
  end.
Definition edit_of s (mutate : string -> Rec -> result Rec) (now : Time) (id : string) (u : Rec)
    : Prop :=
  exists r r', st_records s !! id = Some r /\ mutate id r = Ok r' /\ u = touch now r'.

Lemma update_loop_ok operation s now mutate (ids : list string) ps :
  fold_result (update_one operation s now mutate) [] ids = Ok ps ->
  exists us, ps = with_json <$> us /\ Forall2 (edit_of s mutate now) ids us.
Proof.
  apply (fold_result_ind _ (fun ids ps =>
    exists us, ps = with_json <$> us /\ Forall2 (edit_of s mutate now) ids us)).
  { exists []. by split; [|constructor]. }
  intros pre id ps1 ps2 (us & -> & HF) H. unfold update_one in H.
  destruct (st_records s !! id) as [r|] eqn:Er; [|done].
  destruct (mutate id r) as [r'|] eqn:Em; [|done]. cbn [wrap_err] in H.
  unfold Outbox.encode in H. destruct (_ && _); [|done]. cbn [wrap_err] in H. injection H as <-.
  exists (us ++ [touch now r']). split; [by rewrite fmap_app|].
  apply Forall2_app; [done|]. constructor; [|constructor]. by exists r, r'.
Qed.

Section Edits.
Context (s : Store B) (Hi : sinv s) (mutate : string -> Rec -> result Rec) (now : Time).
Context (Hok : mutation_ok mutate) (ids : list string) (us : list Rec).
Context (HF : Forall2 (edit_of s mutate now) ids us).

Lemma edit_id id u : edit_of s mutate now id u -> r_EventID u = id.
Proof.
  intros (r & r' & Hr & Hm & ->). destruct (Hok _ _ _ Hm) as ((E1 & _) & _).
  change (r_EventID r' = id). rewrite E1. by apply (mo_ids _ (sv_mem _ Hi)).
Qed.

Lemma edit_ids : r_EventID <$> us = ids.
Proof.
  induction HF as [|id u ids' us' Hu HF' IH]; [done|]. cbn. by rewrite (edit_id _ _ Hu), IH.
Qed.

Lemma edit_source u : u ∈ us -> exists r r', r_EventID u ∈ ids /\
  st_records s !! r_EventID u = Some r /\ mutate (r_EventID u) r = Ok r' /\ u = touch now r' /\
  same_slot r u /\ r_SizeBytes u = r_SizeBytes r.
Proof.
  intros [i Hin]%list_elem_of_lookup_1. destruct (Forall2_lookup_r _ _ _ _ _ HF Hin) as (id & Hid & Hu).
  pose proof (edit_id _ _ Hu) as E. destruct Hu as (r & r' & Hr & Hm & ->).
  destruct (Hok _ _ _ Hm) as (Hs & Hz & _). exists r, r'. rewrite E.
  split_and!; try done. by eapply list_elem_of_lookup_2.
Qed.

Lemma edit_valid u : u ∈ us -> valid_edit s u.
Proof.
  intros (r & r' & _ & Hr & Hm & -> & Hs & Hz)%edit_source. exists r. split_and!; try done.
  rewrite touch_valid. apply (Hok _ _ _ Hm). apply (sv_valid _ Hi), elem_of_recs; [apply Hi|].
  by rewrite (mo_ids _ (sv_mem _ Hi) _ _ Hr).
Qed.

Lemma edited_id x : r_EventID (edited mutate now x) = r_EventID x.
Proof.
  unfold edited. destruct (mutate _ x) as [x'|] eqn:E; [|done]. by destruct (Hok _ _ _ E) as ((? & _) & _).
Qed.

Lemma edit_overlay x :
  x ∈ recs s -> overlay us x = if decide (r_EventID x ∈ ids) then edited mutate now x else x.
Proof.
  intros Hx. apply elem_of_recs in Hx; [|apply Hi]. rewrite <- edit_ids.
  apply overlay_spec; [|by apply edited_id]. intros u Hu E.
  destruct (edit_source u Hu) as (r & r' & _ & Hr & Hm & -> & _ & _). rewrite E in Hr, Hm.
  rewrite Hx in Hr. injection Hr as <-. unfold edited. by rewrite Hm.
Qed.

Lemma edit_found id : id ∈ ids -> exists r r', st_records s !! id = Some r /\ mutate id r = Ok r'.
Proof.
  intros [i Hid]%list_elem_of_lookup_1. destruct (Forall2_lookup_l _ _ _ _ _ HF Hid) as (u & _ & Hu).
  destruct Hu as (r & r' & ? & ? & _). by exists r, r'.
Qed.
End Edits.

(** What an accepted state change is: the selected records are edited, the
    others and their order stay. *)
Record updated_batch s (mutate : string -> Rec -> result Rec) (now : Time) (ids : list string) s'
    : Prop := {
  ub_recs : recs s' =
    (fun x => if decide (r_EventID x ∈ ids) then edited mutate now x else x) <$> recs s;
  ub_found : forall id, id ∈ ids ->
    exists r r', st_records s !! id = Some r /\ mutate id r = Ok r';
  ub_next : st_nextSeq s' = st_nextSeq s;
  ub_limits : st_limits s' = st_limits s;
  ub_fresh : forall id, fresh_id s id -> fresh_id s' id;
}.

Lemma update_commit s mutate now ids us b' bk :
  sinv s -> mutation_ok mutate -> Forall2 (edit_of s mutate now) ids us ->
  mirrors s bk -> b_next bk = st_nextSeq s -> b_total bk = st_bytes s ->
  contents b' = Some (put_all (with_json <$> us) bk) ->
  let s' := update_memory us (s <| st_db := Some b' |>) in
  sinv s' /\ updated_batch s mutate now ids s'.
Proof.
  intros Hi Hok HF Hb Hn Ht Hb'. cbn zeta.
  assert (Hv : forall u, u ∈ us -> valid_edit s u) by by eapply edit_valid.
  destruct (revise_ok s us [] (Some b') bk Hi Hv) as ([Mm Mb [Ml Md Mn Mt]] & [R1 R2 R3 R4 R5 R6]);
    [constructor|by intros ? ?%elem_of_nil|by intros ? _ ?%elem_of_nil|done|].
  cbn [delete_memory delete_all foldl] in *.
  set (s' := update_memory us (s <| st_db := Some b' |>)) in *.
  pose proof (tables_fields _ _ (put_all_tables (with_json <$> us) bk)) as (P1 & P2 & P3).
  assert (F : st_db s' = Some b' /\ st_limits s' = st_limits s /\ st_nextSeq s' = st_nextSeq s /\
    st_bytes s' = st_bytes s) by by split_and!.
  clearbody s'. destruct F as (F1 & F2 & F3 & F4).
  assert (E0 : total_bytes [] = 0) by done. rewrite E0, Z.sub_0_r in R4. split.
  - eapply (sinv_committed s); [exact F1|exact Hb'|exact Mb|..]; rewrite ?F2, ?F3, ?F4; try done;
      try (apply Hi); [congruence..|]. pose proof (sv_maxMessages _ Hi). lia.
  - split; try done; [|by eapply edit_found]. rewrite R1, filter_all.
    + apply list_fmap_ext. intros i x Hx%list_elem_of_lookup_2. by eapply edit_overlay.
    + intros x _. apply not_elem_of_nil.
Qed.

Lemma updateMany_ok operation now ids mutate s s' err :
  sinv s -> mutation_ok mutate -> updateMany operation now ids mutate s = (s', err) ->
  sinv s' /\
  match err with
  | Err _ => rolled_back s s'
  | Ok _ => updated_batch s mutate now ids s'
  end.
Proof.
  intros Hi Hok H. pose proof (rolled_back_refl s) as Hrb. unfold updateMany in H.
  destruct (negb (is_open s)) eqn:Eo; [by injection H as <- <-|].
  case_bool_decide as En.
  { injection H as <- <-. split; [done|]. subst. split; try done; [|by intros ? ?%elem_of_nil].
    symmetry. apply list_fmap_id. }
  destruct (validateUniqueEventIDs ids) as [[]|e] eqn:Eu; [|by injection H as <- <-].
  destruct (fold_result _ _ ids) as [ps|e] eqn:Ef; [|by injection H as <- <-].
  apply update_loop_ok in Ef as (us & -> & HF).
  destruct (transact _ s) as [s1 err1] eqn:Et. destruct err1 as [[]|e].
  2: { injection H as <- <-. apply transact_err in Et. split; [by eapply sinv_rolled_back|done]. }
  injection H as <- <-. apply transact_ok in Et as (b' & bk & -> & Hb' & Hmir & Hbn & Hbt); [|done].
  replace (fst <$> (with_json <$> us)) with us.
  - by eapply update_commit.
  - rewrite <- list_fmap_compose. symmetry. apply list_fmap_id.
Qed.
End Operations.

(** ** Completing publish attempts

    [CompleteBatch], [Ack], [AckAttempt] and [ackMany]: a completion changes a
    record only when it names the record's current attempt, and a record leaves
    the outbox only through an acknowledgement of its current attempt. *)

(** ** Specification *)

(** What a completion makes of the record it names: [None] when it is stale,
    [Some None] when the record is removed, [Some (Some r)] when it becomes [r]. *)
Definition settled (now : Time) (next : State) (reason : string) (r : Rec) : Rec :=
  r <| r_State := next |> <| r_LastError := reason |> <| r_UpdatedAt := now |>.

Definition verdict (now : Time) (c : Completion) (r : Rec) : option (option Rec) :=
  if negb (r_Attempts r =? co_Attempts c) || negb (r_Epoch r =? co_Epoch c) then None else
  match co_Outcome c, r_State r with
  | CompletionAcknowledged, (StateInEventsA | StateAckUncertain) => Some None
  | CompletionRejected, StateInEventsA => Some (Some (settled now StateReady (co_Reason c) r))
  | CompletionAckUncertain, StateInEventsA =>
      Some (Some (settled now StateAckUncertain (co_Reason c) r))
  | _, _ => None
  end.

(** The record after a batch of completions. *)
Definition completed (now : Time) (cs : list Completion) (r : Rec) : option Rec :=
  match list_find (fun c => co_EventID c = r_EventID r) cs with
  | Some (_, c) => match verdict now c r with Some o => o | None => Some r end
  | None => Some r
  end.

Lemma verdict_settled now c r u :
  verdict now c r = Some (Some u) ->
  r_State r = StateInEventsA /\ exists next, next ∈ [StateReady; StateAckUncertain] /\
    u = settled now next (co_Reason c) r.
Proof.
  unfold verdict. destruct (_ || _); [done|].
  destruct (co_Outcome c), (r_State r); try done; intros [= <-]; (split; [done|]);
    eexists; (split; [|done]); set_solver.
Qed.

Lemma verdict_removed now c r :
  verdict now c r = Some None ->
  co_Outcome c = CompletionAcknowledged /\ r_Attempts r = co_Attempts c /\ r_Epoch r = co_Epoch c /\
  r_State r ∈ [StateInEventsA; StateAckUncertain].
Proof.
  unfold verdict. destruct (_ || _) eqn:E; [done|]. to_prop.
  destruct (co_Outcome c), (r_State r); try done; intros _; split_and!; try done; set_solver.
Qed.

Lemma settled_valid now next reason r :
  next ∈ [StateReady; StateAckUncertain] -> r_State r = StateInEventsA ->
  validateStoredRecord r = nil_err -> validateStoredRecord (settled now next reason r) = nil_err.
Proof.
  intros Hn Hs (Hi & Ha)%stored_inv. destruct Ha as [Ha _]; [by rewrite Hs|].
  apply stored_valid; [exact Hi|exact Ha|]. cbn. set_solver.
Qed.
#[local] Opaque acceptedSize validateStoredRecord.

Section Complete.
Context {B : Type} `{!Bolt B}.
Implicit Types s : Store B.

(** The completion's verdict on the record the store has under its name. *)
Definition ruling s (now : Time) (c : Completion) : option (option Rec) :=
  st_records s !! co_EventID c ≫= verdict now c.
Definition ruled_update s now c : option Rec := ruling s now c ≫= id.
Definition ruled_delete s now c : option Rec :=
  match ruling s now c with Some None => st_records s !! co_EventID c | _ => None end.

Record completing_ok s (now : Time) (pre : list Completion) (st : completing) : Prop := {
  ck_seen : forall id, id ∈ cp_seen st <-> id ∈ co_EventID <$> pre;
  ck_nodup : NoDup (co_EventID <$> pre);
  ck_applied : cp_applied st = filter (fun c => is_Some (ruling s now c)) pre;
  ck_updated : cp_updated st = with_json <$> omap (ruled_update s now) pre;
  ck_deleted : cp_deleted st = omap (ruled_delete s now) pre;
  ck_bytes : cp_bytes st = total_bytes (cp_deleted st);
}.

(** One step, by the verdict. *)
Lemma complete_one_cases s now st c st' :
  complete_one s now st c = Ok st' ->
  co_EventID c ∉ cp_seen st /\
  st' = mkCompleting ({[co_EventID c]} ∪ cp_seen st)
    (cp_applied st ++ if decide (is_Some (ruling s now c)) then [c] else [])
    (cp_updated st ++ (with_json <$> option_list (ruled_update s now c)))
    (cp_deleted st ++ option_list (ruled_delete s now c))
    (cp_bytes st + total_bytes (option_list (ruled_delete s now c))).
Proof.
  unfold complete_one, ruled_update, ruled_delete, ruling, verdict.
  destruct (str_empty _); [done|]. case_bool_decide as Hs; [done|]. cbn [fail_if]. intros H.
  split; [done|]. revert H.
  assert (T0 : forall z, z + total_bytes [] = z) by (intros; unfold total_bytes; cbn; lia).
  assert (T1 : forall z x, z + total_bytes [x] = z + r_SizeBytes x)
    by (intros; unfold total_bytes; cbn; lia).
  destruct (st_records s !! co_EventID c) as [r|];
    [|intros [= <-]; cbn; by rewrite !app_nil_r, T0].
  cbn. destruct (_ || _); [intros [= <-]; cbn; by rewrite !app_nil_r, T0|].
  destruct (co_Outcome c); [..|done].
  all: destruct (r_State r); try (rewrite !bool_decide_eq_false_2 by done);
    try (rewrite bool_decide_eq_true_2 by done); cbn [negb andb];
    try (intros [= <-]; cbn; by rewrite ?app_nil_r, ?T0, ?T1).
  all: unfold Outbox.encode; destruct (_ && _); [|done].
  all: intros [= <-]; cbn; by rewrite ?app_nil_r, ?T0, ?T1.
Qed.
Lemma complete_loop_ok s now cs st :
  fold_result (complete_one s now) (mkCompleting ∅ [] [] [] 0) cs = Ok st ->
  completing_ok s now cs st.
Proof.
  apply (fold_result_ind _ (completing_ok s now)).
  { split; cbn; try done; [set_solver|constructor]. }
  intros pre c st1 st2 [K1 K2 K3 K4 K5 K6] (Hn & ->)%complete_one_cases. rewrite K1 in Hn.
  assert (Hom : forall f : Completion -> option Rec, omap f [c] = option_list (f c)).
  { intros f. cbn. by destruct (f c). }
  split; cbn [cp_seen cp_applied cp_updated cp_deleted cp_bytes].
  - intros id. rewrite fmap_app, elem_of_union, K1. set_solver.
  - rewrite fmap_app. apply NoDup_app. split_and!; [done| |apply NoDup_singleton]. set_solver.
  - rewrite K3, list.filter_app. reflexivity.
  - by rewrite K4, omap_app, fmap_app, Hom.
  - by rewrite K5, omap_app, Hom.
  - by rewrite total_app, K6.
Qed.

(** *** The batch on the list of records *)
Section Batch.
Context (s : Store B) (Hi : sinv s) (now : Time) (cs : list Completion).
Context (Hnd : NoDup (co_EventID <$> cs)).
Abbreviation us := (omap (ruled_update s now) cs).
Abbreviation ds := (omap (ruled_delete s now) cs).

Lemma ruling_record c o :
  ruling s now c = Some o -> exists r, st_records s !! co_EventID c = Some r /\
    r_EventID r = co_EventID c /\ verdict now c r = Some o.
Proof.
  unfold ruling. destruct (st_records s !! co_EventID c) as [r|] eqn:E; [|done]. cbn. intros H.
  exists r. split_and!; [done| |done]. by apply (mo_ids _ (sv_mem _ Hi)).
Qed.

Lemma elem_of_updates u :
  u ∈ us <-> exists c r, c ∈ cs /\ st_records s !! co_EventID c = Some r /\
    r_EventID r = co_EventID c /\ verdict now c r = Some (Some u).
Proof.
  rewrite list_elem_of_omap. unfold ruled_update. split.
  - intros (c & Hc & H). destruct (ruling s now c) as [o|] eqn:E; [|done]. cbn in H. subst o.
    apply ruling_record in E as (r & ? & ? & ?). by exists c, r.
  - intros (c & r & Hc & Hr & _ & Hv). exists c. split; [done|]. unfold ruling. rewrite Hr. cbn.
    by rewrite Hv.
Qed.

Lemma elem_of_deletes r :
  r ∈ ds <-> exists c, c ∈ cs /\ st_records s !! co_EventID c = Some r /\
    r_EventID r = co_EventID c /\ verdict now c r = Some None.
Proof.
  rewrite list_elem_of_omap. unfold ruled_delete. split.
  - intros (c & Hc & H). destruct (ruling s now c) as [[u|]|] eqn:E; try done.
    apply ruling_record in E as (r' & Hr & ? & ?). rewrite Hr in H. injection H as <-. by exists c.
  - intros (c & Hc & Hr & _ & Hv). exists c. split; [done|]. unfold ruling. rewrite Hr. cbn.
    by rewrite Hv.
Qed.

Lemma update_slot c r u :
  r_EventID r = co_EventID c -> verdict now c r = Some (Some u) ->
  same_slot r u /\ r_EventID u = co_EventID c.
Proof. intros E (_ & next & _ & ->)%verdict_settled. split; [done|exact E]. Qed.

Lemma update_valid u : u ∈ us -> valid_edit s u.
Proof.
  intros (c & r & Hc & Hr & Eid & Hv)%elem_of_updates.
  destruct (update_slot c r u Eid Hv) as [Hs Eu]. exists r. rewrite Eu.
  destruct (verdict_settled _ _ _ _ Hv) as (Hst & next & Hn & ->). split_and!; [done..|].
  apply settled_valid; [done..|]. apply (sv_valid _ Hi), elem_of_recs; [apply Hi|].
  by rewrite Eid.
Qed.

(** Distinct completions name distinct records. *)
Lemma same_completion c c' : c ∈ cs -> c' ∈ cs -> co_EventID c = co_EventID c' -> c = c'.
Proof.
  intros [i Hi1]%list_elem_of_lookup_1 [j Hj]%list_elem_of_lookup_1 E.
  assert (i = j) as ->.
  { eapply (NoDup_lookup (co_EventID <$> cs)); [done|by rewrite list_lookup_fmap, Hi1|].
    rewrite list_lookup_fmap, Hj. cbn. by rewrite E. }
  congruence.
Qed.

Lemma deletes_nodup : NoDup (r_EventID <$> ds).
Proof.
  clear -Hnd Hi. induction cs as [|c cs' IH]; [constructor|].
  cbn [fmap list_fmap] in Hnd. apply NoDup_cons in Hnd as [Hn Hnd']. cbn [omap list_omap].
  destruct (ruled_delete s now c) as [r|] eqn:E; [|by apply IH]. cbn. constructor; [|by apply IH].
  intros (r' & Er & Hin)%list_elem_of_fmap.
  apply list_elem_of_omap in Hin as (c' & Hc' & E'). apply Hn.
  assert (Hid : forall c r, ruled_delete s now c = Some r -> r_EventID r = co_EventID c).
  { intros c0 r0. unfold ruled_delete. destruct (ruling s now c0) as [[]|]; try done.
    apply (mo_ids _ (sv_mem _ Hi)). }
  rewrite <- (Hid _ _ E), Er, (Hid _ _ E'). by apply list_elem_of_fmap_2.
Qed.

Lemma deletes_stored r : r ∈ ds -> st_records s !! r_EventID r = Some r.
Proof. intros (c & _ & Hr & E & _)%elem_of_deletes. by rewrite E. Qed.

Lemma updates_deletes id : id ∈ r_EventID <$> us -> id ∉ r_EventID <$> ds.
Proof.
  intros (u & -> & Hu)%list_elem_of_fmap (d & Ed & Hd)%list_elem_of_fmap.
  apply elem_of_updates in Hu as (c & r & Hc & Hr & Er & Hv).
  apply elem_of_deletes in Hd as (c' & Hc' & Hd & Er' & Hv').
  destruct (update_slot c r u Er Hv) as [_ Eu].
  assert (c = c') as <- by (apply same_completion; congruence). congruence.
Qed.

Lemma batch_spec x :
  x ∈ recs s ->
  completed now cs x =
  if decide (r_EventID (overlay us x) ∉ r_EventID <$> ds) then Some (overlay us x) else None.
Proof.
  intros Hx. pose proof Hx as Hl. apply elem_of_recs in Hl; [|apply Hi].
  assert (Hid : r_EventID (overlay us x) = r_EventID x).
  { destruct (overlay_cases s us x (sv_mem _ Hi) update_valid Hx) as [->|(u & _ & -> & (E & _) & _)]; done. }
  rewrite Hid. unfold completed. destruct (list_find _ cs) as [[i c]|] eqn:Ef.
  - apply list_find_Some in Ef as (Hc & Ec & _). apply list_elem_of_lookup_2 in Hc.
    assert (Hdel : r_EventID x ∈ r_EventID <$> ds <-> verdict now c x = Some None).
    { rewrite list_elem_of_fmap. split.
      - intros (d & Ed & (c' & Hc' & Hd & Er & Hv)%elem_of_deletes).
        assert (c = c') as <- by (apply same_completion; congruence).
        rewrite Ec, Hl in Hd. by injection Hd as ->.
      - intros Hv. exists x. split; [done|]. apply elem_of_deletes. exists c. by rewrite Ec. }
    assert (Hupd : forall u, u ∈ us -> r_EventID u = r_EventID x -> verdict now c x = Some (Some u)).
    { intros u (c' & r & Hc' & Hr & Er & Hv)%elem_of_updates Eu.
      destruct (update_slot c' r u Er Hv) as [_ Eu'].
      assert (c = c') as <- by (apply same_completion; congruence).
      rewrite Ec, Hl in Hr. by injection Hr as ->. }
    destruct (verdict now c x) as [[u|]|] eqn:Ev.
    + rewrite decide_True by (rewrite Hdel; done). f_equal.
      assert (Hin : u ∈ us) by (apply elem_of_updates; exists c, x; by rewrite Ec).
      destruct (update_slot c x u (eq_sym Ec) Ev) as [[Eu _] _].
      rewrite (overlay_spec us x u); [|intros v Hv Ev'; by specialize (Hupd v Hv Ev') as [= ->]|done].
      rewrite decide_True; [done|]. rewrite <- Eu. by apply list_elem_of_fmap_2.
    + rewrite decide_False; [done|]. rewrite Hdel. tauto.
    + rewrite decide_True by (rewrite Hdel; done). f_equal.
      rewrite (overlay_spec us x x); [by case_decide| |done].
      intros u Hu Eu. by specialize (Hupd u Hu Eu).
  - apply list_find_None in Ef. rewrite Forall_forall in Ef.
    rewrite decide_True.
    + f_equal. rewrite (overlay_spec us x x); [by case_decide| |done]. intros u Hu Eu. exfalso.
      apply elem_of_updates in Hu as (c & r & Hc & Hr & Er & Hv).
      destruct (update_slot c r u Er Hv) as [_ Eu']. apply (Ef c Hc). congruence.
    + intros (d & Ed & (c & Hc & Hd & Er & _)%elem_of_deletes)%list_elem_of_fmap.
      apply (Ef c Hc). congruence.
Qed.
End Batch.
Lemma filter_fmap_omap {A C} (P : C -> Prop) `{forall x, Decision (P x)} (f : A -> C)
    (g : A -> option C) (l : list A) :
  (forall x, x ∈ l -> g x = if decide (P (f x)) then Some (f x) else None) ->
  filter P (f <$> l) = omap g l.
Proof.
  induction l as [|x l IH]; intros Hg; [done|]. cbn [fmap list_fmap omap list_omap].
  rewrite (Hg x ltac:(left)), filter_cons, IH by (intros; apply Hg; by right). by case_decide.
Qed.

(** What a completed batch is: the current attempts it names are settled. *)
Record completed_batch s (now : Time) (cs : list Completion) s' (applied : list Completion)
    : Prop := {
  cb_recs : recs s' = omap (completed now cs) (recs s);
  cb_applied : applied = filter (fun c => is_Some (ruling s now c)) cs;
  cb_next : st_nextSeq s' = st_nextSeq s;
  cb_limits : st_limits s' = st_limits s;
  cb_fresh : forall id, fresh_id s id -> fresh_id s' id;
}.

(** The buckets a completion writes: without deletions the byte count stays. *)
Lemma conditional_total s (ds : list Rec) b :
  b_total b = st_bytes s ->
  (if bool_decide (ds = []) then b else b <| b_total := st_bytes s - total_bytes ds |>) =
  b <| b_total := st_bytes s - total_bytes ds |>.
Proof.
  intros Ht. case_bool_decide as E; [|done]. subst ds.
  replace (st_bytes s - total_bytes []) with (b_total b); [by destruct b|].
  rewrite Ht. unfold total_bytes. cbn. lia.
Qed.

Lemma nothing_applied s now cs :
  sinv s -> NoDup (co_EventID <$> cs) ->
  filter (fun c => is_Some (ruling s now c)) cs = [] -> recs s = omap (completed now cs) (recs s).
Proof.
  intros Hi Hnd Hnone. assert (Hr : forall c, c ∈ cs -> ruling s now c = None).
  { intros c Hc. destruct (ruling s now c) as [o|] eqn:E; [|done]. exfalso.
    assert (Hin : c ∈ filter (fun c => is_Some (ruling s now c)) cs)
      by (apply list_elem_of_filter; by rewrite E).
    rewrite Hnone in Hin. by apply elem_of_nil in Hin. }
  transitivity (omap Some (recs s)); [by induction (recs s) as [|x l IH]; cbn; [|rewrite <- IH]|].
  apply omap_ext_in. intros x Hx. apply elem_of_recs in Hx; [|apply Hi]. unfold completed.
  destruct (list_find _ cs) as [[i c]|] eqn:Ef; [|done].
  apply list_find_Some in Ef as (Hc & Ec & _). apply list_elem_of_lookup_2, Hr in Hc.
  unfold ruling in Hc. rewrite Ec, Hx in Hc. cbn in Hc. by rewrite Hc.
Qed.

Lemma CompleteBatch_ok now cs s s' out :
  sinv s -> CompleteBatch now cs s = (s', out) ->
  sinv s' /\
  match out with
  | Err _ => rolled_back s s'
  | Ok applied => completed_batch s now cs s' applied
  end.
Proof.
  intros Hi H. pose proof (rolled_back_refl s) as Hrb. unfold CompleteBatch in H.
  destruct (negb (is_open s)) eqn:Eo; [by injection H as <- <-|].
  case_bool_decide as En.
  { injection H as <- <-. subst cs. split; [done|]. split; try done.
    by apply nothing_applied; [|constructor|]. }
  destruct (fold_result _ _ cs) as [[seen applied upd del bytes]|e] eqn:Ef; [|by injection H as <- <-].
  apply complete_loop_ok in Ef as [_ Hnd Happ Hupd Hdel Hby]. cbn [cp_applied cp_updated cp_deleted cp_bytes] in *.
  case_bool_decide as Ea.
  { injection H as <- <-. apply nil_length_inv in Ea. split; [done|]. split; try done; [|congruence].
    apply nothing_applied; [done..|congruence]. }
  destruct (transact _ s) as [s1 err1] eqn:Et. destruct err1 as [[]|e].
  2: { injection H as <- <-. apply transact_err in Et. split; [by eapply sinv_rolled_back|done]. }
  injection H as <- <-. apply transact_ok in Et as (b' & bk & -> & Hb' & Hmir & Hbn & Hbt); [|done].
  subst upd del bytes applied. set (us := omap (ruled_update s now) cs) in *.
  set (ds := omap (ruled_delete s now) cs) in *.
  pose proof (tables_fields _ _ (put_all_tables (with_json <$> us) bk)) as (P1 & P2 & P3).
  pose proof (tables_fields _ _ (delete_all_tables ds (put_all (with_json <$> us) bk)))
    as (D1 & D2 & D3).
  rewrite conditional_total in Hb' by congruence.
  replace (fst <$> (with_json <$> us)) with us
    by (rewrite <- list_fmap_compose; symmetry; apply list_fmap_id).
  destruct (finish_delete_ok s us ds b' bk Hi) as (Hs' & [R1 _ _ _ _ R6] & Hl & Hn);
    [by apply update_valid|by apply deletes_nodup|by apply deletes_stored|
     by apply updates_deletes|done..|].
  split; [done|]. split; try done.
  rewrite R1. apply filter_fmap_omap. intros x Hx. by apply batch_spec.
Qed.
(** ** Removing acknowledged records by name *)
Lemma ack_loop_ok operation s (ids : list string) removed bytes :
  fold_result (ack_one operation s) ([], 0) ids = Ok (removed, bytes) ->
  removed = omap (fun id => st_records s !! id) ids /\ bytes = total_bytes removed /\
  forall id, id ∈ ids -> exists r, st_records s !! id = Some r /\
    r_State r ∈ [StateInEventsA; StateAckUncertain].
Proof.
  set (P := fun (ids : list string) (acc : list Rec * Z) =>
    fst acc = omap (fun id => st_records s !! id) ids /\ snd acc = total_bytes (fst acc) /\
    forall id, id ∈ ids -> exists r, st_records s !! id = Some r /\
      r_State r ∈ [StateInEventsA; StateAckUncertain]).
  apply (fold_result_ind _ P).
  { split_and!; [done..|]. by intros ? ?%elem_of_nil. }
  intros pre id [rs1 z1] acc2 (E1 & E2 & E3) H. cbn [fst snd] in *. unfold ack_one in H.
  destruct (st_records s !! id) as [r|] eqn:Er; [|done]. destruct (_ && _) eqn:Es; [done|].
  cbn in H. injection H as <-. unfold P. cbn [fst snd]. split_and!.
  - rewrite E1. symmetry. by apply (omap_app_one (fun id => st_records s !! id)).
  - rewrite total_app, E2. unfold total_bytes. cbn. lia.
  - intros i [Hin|Hin%list_elem_of_singleton]%elem_of_app; [by apply E3|subst i]. exists r.
    split; [done|]. repeat case_bool_decide; try done; rewrite !elem_of_cons; auto.
Qed.

Lemma named_ids s (ids : list string) :
  mem_ok s -> (forall id, id ∈ ids -> is_Some (st_records s !! id)) ->
  r_EventID <$> omap (fun id => st_records s !! id) ids = ids.
Proof.
  intros Hm. induction ids as [|i ids IH]; intros Hs; [done|]. cbn.
  destruct (Hs i ltac:(left)) as [r Hr]. rewrite Hr. cbn. rewrite (mo_ids _ Hm _ _ Hr). f_equal.
  apply IH. intros. apply Hs. by right.
Qed.

Lemma ackMany_ok operation ids s s' err :
  sinv s -> ackMany operation ids s = (s', err) ->
  sinv s' /\
  match err with
  | Err _ => rolled_back s s'
  | Ok _ => recs s' = filter (fun r => r_EventID r ∉ ids) (recs s) /\
      (forall id, id ∈ ids -> exists r, st_records s !! id = Some r /\
        r_State r ∈ [StateInEventsA; StateAckUncertain]) /\
      (forall id, fresh_id s id -> fresh_id s' id)
  end.
Proof.
  intros Hi H. pose proof (rolled_back_refl s) as Hrb. unfold ackMany in H.
  destruct (negb (is_open s)) eqn:Eo; [by injection H as <- <-|].
  case_bool_decide as En.
  { injection H as <- <-. subst ids. split_and!; [done| |by intros ? ?%elem_of_nil|done].
    rewrite filter_all; [done|]. intros x _. apply not_elem_of_nil. }
  destruct (validateUniqueEventIDs ids) as [[]|e] eqn:Eu; [|by injection H as <- <-].
  apply unique_ok in Eu as [Hnd _].
  destruct (fold_result _ _ ids) as [[removed bytes]|e] eqn:Ef; [|by injection H as <- <-].
  apply ack_loop_ok in Ef as (Erm & Eb & Hfound).
  destruct (transact _ s) as [s1 err1] eqn:Et. destruct err1 as [[]|e].
  2: { injection H as <- <-. apply transact_err in Et. split; [by eapply sinv_rolled_back|done]. }
  injection H as <- <-. apply transact_ok in Et as (b' & bk & -> & Hb' & Hmir & Hbn & Hbt); [|done].
  assert (Hids : r_EventID <$> removed = ids).
  { rewrite Erm. apply named_ids; [apply Hi|]. intros id Hid.
    destruct (Hfound id Hid) as (r & Hr & _). by exists r. }
  rewrite Eb in *. destruct (finish_delete_ok s [] removed b' bk Hi) as (Hs' & [R1 _ _ _ _ R6] & _).
  { by intros ? ?%elem_of_nil. } { by rewrite Hids. }
  { intros r Hr. rewrite Erm in Hr. apply list_elem_of_omap in Hr as (id & _ & Hr).
    by rewrite (mo_ids _ (sv_mem _ Hi) _ _ Hr). }
  { by intros ? ?%elem_of_nil. } { done. } { done. } { exact Hb'. }
  cbn [update_memory foldl] in *. split_and!; [done| |done|done].
  rewrite R1, Hids. f_equal. apply list_fmap_id.
Qed.
End Complete.
