(* ===== verification/OutboxLoad.v ===== *)
(** * Which records may be published

    [EligibleFor] walks the heap of ready lanes.  Its result is the one a plain
    scan of the records gives: the first record of every ordering key, when it
    is ready, in sequence order, filtered by epoch and broker slots. *)

From S2P Require Import Prelude Heap Outbox OutboxIndex OutboxMemory OutboxStore OutboxComplete.
From Stdlib Require Import ZArith Lia.
From stdpp Require Import base gmap strings sorting numbers option list.
#[local] Open Scope Z_scope.

(** ** Reference definition *)

(** The first record of every key that was not seen. *)
Fixpoint lane_heads (seen : gset string) (rs : list Rec) : list Rec :=
  match rs with
  | [] => []
  | r :: rest =>
      if bool_decide (effectiveOrderingKey r ∈ seen) then lane_heads seen rest
      else r :: lane_heads ({[effectiveOrderingKey r]} ∪ seen) rest
  end.
Definition ready_heads (rs : list Rec) : list Rec :=
  filter (fun r => r_State r = StateReady) (lane_heads ∅ rs).

(** Greedy choice in order, up to [limit]. *)
Fixpoint select (limit : Z) (epochs brokerSlots : option (gmap string Z)) (used : gmap string Z)
    (rs : list Rec) : list Rec :=
  match rs with
  | [] => []
  | r :: rest =>
      if limit <=? 0 then [] else
      if eligible_matches epochs brokerSlots used r
      then r :: select (limit - 1) epochs brokerSlots (use_slot r used) rest
      else select limit epochs brokerSlots used rest
  end.
Definition eligible_spec (limit : Z) (epochs brokerSlots : option (gmap string Z)) (rs : list Rec)
    : list Rec := select limit epochs brokerSlots ∅ (ready_heads rs).

Lemma select_nonpositive limit epochs slots used rs :
  limit <= 0 -> select limit epochs slots used rs = [].
Proof. intros H. destruct rs; [done|]. cbn. by rewrite (proj2 (Z.leb_le _ _) H). Qed.

Lemma select_enough epochs slots rs : forall limit limit' used,
  Z.of_nat (length rs) <= limit -> Z.of_nat (length rs) <= limit' ->
  select limit epochs slots used rs = select limit' epochs slots used rs.
Proof.
  induction rs as [|r rs IH]; intros limit limit' used H1 H2; [done|]. cbn [select length] in *.
  rewrite !(proj2 (Z.leb_gt _ 0)) by lia. case_match; [f_equal|]; apply IH; lia.
Qed.

Lemma elem_of_lane_heads rs r : forall seen,
  r ∈ lane_heads seen rs <->
  effectiveOrderingKey r ∉ seen /\
  head (filter (fun x => effectiveOrderingKey x = effectiveOrderingKey r) rs) = Some r.
Proof.
  induction rs as [|x rs IH]; intros seen; cbn [lane_heads].
  { split; [by intros ?%elem_of_nil|by intros [_ ?]]. }
  rewrite filter_cons. case_bool_decide as Hs.
  - rewrite IH. case_decide as E; [|done]. rewrite <- E. tauto.
  - rewrite elem_of_cons, IH, not_elem_of_union, not_elem_of_singleton. case_decide as E.
    + cbn. split.
      * intros [->|((? & _) & _)]; [done|congruence].
      * intros [_ [= ->]]. by left.
    + naive_solver.
Qed.

Section Strict.
Context {A : Type} (key : A -> Z).
Abbreviation lt_key := (fun a b : A => key a < key b).

(** A strictly sorted list is determined by its elements. *)
Lemma strict_unique (l : list A) : forall l',
  StronglySorted lt_key l -> StronglySorted lt_key l' -> (forall x, x ∈ l <-> x ∈ l') -> l = l'.
Proof.
  induction l as [|x l IH]; intros [|y l'] Hl Hl' He; [done|..].
  - exfalso. apply (not_elem_of_nil y), He. left.
  - exfalso. apply (not_elem_of_nil x), He. left.
  - apply StronglySorted_inv in Hl as [Hl Hx], Hl' as [Hl' Hy]. rewrite Forall_forall in Hx, Hy.
    assert (x = y) as <-.
    { pose proof (proj1 (He x) ltac:(left)) as [->|Hin]%elem_of_cons; [done|].
      pose proof (proj2 (He y) ltac:(left)) as [->|Hin']%elem_of_cons; [done|].
      specialize (Hy _ Hin). specialize (Hx _ Hin'). lia. }
    f_equal. apply IH; [done..|]. intros z. specialize (He z). rewrite !elem_of_cons in He.
    split; intros Hz.
    + destruct (proj1 He (or_intror Hz)) as [->|]; [|done]. specialize (Hx _ Hz). lia.
    + destruct (proj2 He (or_intror Hz)) as [->|]; [|done]. specialize (Hy _ Hz). lia.
Qed.

Lemma strict_of_sorted (l : list A) :
  StronglySorted (fun a b => key a <= key b) l -> NoDup l ->
  (forall x y, x ∈ l -> y ∈ l -> key x = key y -> x = y) -> StronglySorted lt_key l.
Proof.
  induction 1 as [|x l Hs IH Hx]; intros Hnd Hinj; constructor; apply NoDup_cons in Hnd as [Hn Hnd].
  - apply IH; [done|]. intros; apply Hinj; [by right..|done].
  - rewrite Forall_forall in Hx |- *. intros y Hy. specialize (Hx _ Hy).
    destruct (Z.eq_dec (key x) (key y)) as [E|]; [|lia]. exfalso. apply Hn.
    rewrite (Hinj x y); [done|left|by right|done].
Qed.

Lemma strict_filter (P : A -> Prop) `{forall x, Decision (P x)} (l : list A) :
  StronglySorted lt_key l -> StronglySorted lt_key (filter P l).
Proof.
  induction 1 as [|x l Hs IH Hx]; [constructor|]. rewrite filter_cons. case_decide; [|done].
  constructor; [done|]. rewrite Forall_forall in Hx |- *.
  intros y [_ Hy]%list_elem_of_filter. by apply Hx.
Qed.
End Strict.

Lemma lane_heads_sorted rs : forall seen,
  StronglySorted (fun a b => r_Sequence a < r_Sequence b) rs ->
  StronglySorted (fun a b => r_Sequence a < r_Sequence b) (lane_heads seen rs).
Proof.
  induction rs as [|x rs IH]; intros seen Hs; cbn; [constructor|].
  apply StronglySorted_inv in Hs as [Hs Hx]. case_bool_decide; [by apply IH|].
  constructor; [by apply IH|]. rewrite Forall_forall in Hx |- *.
  intros y [_ Hy]%elem_of_lane_heads. apply Hx.
  apply head_Some_elem_of in Hy. by apply list_elem_of_filter in Hy as [_ ?].
Qed.

Section Eligible.
Context {B : Type} `{!Bolt B}.
Implicit Types s : Store B.

(** ** The loop is a walk *)
Lemma eligible_loop_walk s limit epochs slots ready fuel : forall eligible used cand,
  eligible_loop fuel s limit epochs slots ready eligible used cand =
  eligible ++ select (limit - Z.of_nat (length eligible)) epochs slots used
    ((fun lane => head_record s (snd lane)) <$> walk rank_less fuel ready cand).
Proof.
  induction fuel as [|fuel IH]; intros eligible used cand; cbn [eligible_loop walk].
  { by rewrite app_nil_r. }
  destruct (Z.leb_spec limit (Z.of_nat (length eligible))) as [Hle|Hlt].
  { rewrite select_nonpositive by lia. by rewrite app_nil_r. }
  destruct (pop_candidate rank_less cand) as [cand' [[i lane]|]]; [|by rewrite app_nil_r].
  cbn [fmap list_fmap select snd]. rewrite (proj2 (Z.leb_gt _ 0)) by lia. case_match.
  - rewrite IH, <- app_assoc, length_app. cbn [length app].
    by replace (limit - Z.of_nat (length eligible + 1)) with (limit - Z.of_nat (length eligible) - 1)
      by lia.
  - by rewrite IH.
Qed.

(** ** The heads of the ready lanes *)
Lemma ready_lane s k :
  mem_ok s -> k ∈ st_readyLanes s ->
  head (queue s k) = Some (head_record s k) /\ r_State (head_record s k) = StateReady /\
  head_seq (st_lanes s) k = r_Sequence (head_record s k).
Proof.
  intros Hm Hk. pose proof Hk as [i Hki]%list_elem_of_lookup_1.
  destruct (hi_pointers _ (mo_heap _ Hm)) as [Hin _]. destruct (Hin i k Hki) as (ln & Hl & _).
  cbn in Hl. destruct (mo_lane _ Hm _ _ Hl) as [Ht Hh Hs Hrd].
  apply Hrd in Hk as (r & Hr & Hst).
  assert (E : head_record s k = r).
  { unfold head_record, lane_at. rewrite Hl. cbn. unfold head_of in Hr.
    destruct (ln_eventIDs ln !! ln_head ln) as [id|]; [|done]. cbn in *. by rewrite Hr. }
  rewrite E. split_and!; [|done|].
  - rewrite <- Ht. unfold head_of in Hr.
    destruct (ln_eventIDs ln !! ln_head ln) as [id|] eqn:Eid; [|done]. cbn in Hr.
    unfold live. by rewrite (omap_drop_head _ _ _ _ _ Eid Hr).
  - unfold head_seq. rewrite Hl, Hs. unfold head_seq_of. by rewrite Hr.
Qed.

Lemma head_queue_key s k r : head (queue s k) = Some r -> effectiveOrderingKey r = k /\ r ∈ recs s.
Proof. intros H%head_Some_elem_of. by apply list_elem_of_filter in H as [? ?]. Qed.

Lemma queue_head_ready s r :
  mem_ok s -> head (queue s (effectiveOrderingKey r)) = Some r -> r_State r = StateReady ->
  effectiveOrderingKey r ∈ st_readyLanes s.
Proof.
  intros Hm Hq Hst. set (k := effectiveOrderingKey r) in *.
  destruct (st_lanes s !! k) as [ln|] eqn:Hl.
  2: { by rewrite (mo_none _ Hm _ Hl) in Hq. }
  destruct (mo_lane _ Hm _ _ Hl) as [Ht [x Hx] Hs Hrd]. apply Hrd. exists x. split; [done|].
  unfold head_of in Hx. destruct (ln_eventIDs ln !! ln_head ln) as [id|] eqn:Eid; [|done].
  cbn in Hx. rewrite <- Ht in Hq. unfold live in Hq.
  rewrite (omap_drop_head _ _ _ _ _ Eid Hx) in Hq. cbn in Hq. by injection Hq as ->.
Qed.

Lemma elem_of_ready_heads s r :
  mem_ok s -> r ∈ ready_heads (recs s) <-> exists k, k ∈ st_readyLanes s /\ r = head_record s k.
Proof.
  intros Hm. unfold ready_heads. rewrite list_elem_of_filter, elem_of_lane_heads.
  change (filter _ (recs s)) with (queue s (effectiveOrderingKey r)). split.
  - intros (Hst & _ & Hq). pose proof (queue_head_ready s r Hm Hq Hst) as Hk.
    exists (effectiveOrderingKey r). split; [done|].
    destruct (ready_lane s _ Hm Hk) as (Hq' & _). rewrite Hq in Hq'. by injection Hq'.
  - intros (k & Hk & ->). destruct (ready_lane s k Hm Hk) as (Hq & Hst & _).
    destruct (head_queue_key _ _ _ Hq) as [E _]. split_and!; [done|apply not_elem_of_empty|].
    by rewrite E.
Qed.

(** Walking the heap lists the ready heads in order. *)
Lemma walk_ready_heads s root ready :
  mem_ok s -> lane_rank (st_lanes s) <$> st_readyLanes s = root :: ready ->
  (fun lane => head_record s (snd lane)) <$>
    walk rank_less (length (root :: ready)) (root :: ready) [(0%nat, root)] =
  ready_heads (recs s).
Proof.
  intros Hm Hr. pose proof (mo_heap _ Hm) as [Hh Hp].
  destruct (walk_root_spec rank_less rank_less_asym rank_le_trans (root :: ready)) with (x := root)
    as [Hperm Hsort]; [by rewrite <- Hr|done|].
  set (w := walk _ _ _ _) in *. clearbody w. rewrite <- Hr in Hperm.
  assert (Hw : forall p, p ∈ w -> exists k, k ∈ st_readyLanes s /\ p = lane_rank (st_lanes s) k).
  { intros p. rewrite Hperm. intros (k & -> & Hk)%list_elem_of_fmap. by exists k. }
  apply (strict_unique r_Sequence).
  - assert (Hrec : forall p, p ∈ w -> fst p = r_Sequence (head_record s (snd p)) /\
      effectiveOrderingKey (head_record s (snd p)) = snd p /\ head_record s (snd p) ∈ recs s).
    { intros p Hin. destruct (Hw p Hin) as (k & Hk & ->). cbn.
      destruct (ready_lane s k Hm Hk) as (Hq & _ & E). by destruct (head_queue_key _ _ _ Hq). }
    apply strict_of_sorted.
    + clear Hperm Hw. induction Hsort as [|p w Hs IH Hp']; cbn; constructor.
      * apply IH. intros; apply Hrec. by right.
      * rewrite Forall_forall in Hp'. apply Forall_fmap, Forall_forall. intros q Hq. unfold compose.
        destruct (Hrec p ltac:(left)) as [<- _], (Hrec q ltac:(by right)) as [<- _].
        specialize (Hp' _ Hq). unfold le_by, rank_less in Hp'.
        destruct (Z.eqb_spec (fst q) (fst p)); cbn in Hp'; to_prop; lia.
    + assert (Hnd : NoDup w).
      { rewrite Hperm. apply NoDup_fmap_2; [intros a b [= _ ?]; done|]. by apply pointers_NoDup in Hp. }
      apply NoDup_fmap_2_strong; [|done]. intros p q H1 H2 E.
      destruct (Hrec p H1) as (E1 & E2 & _), (Hrec q H2) as (E3 & E4 & _).
      destruct p, q. cbn in *. congruence.
    + intros x y (p & -> & H1)%list_elem_of_fmap (q & -> & H2)%list_elem_of_fmap E.
      apply (seq_inj s); [done|by apply Hrec..|done].
  - apply strict_filter, lane_heads_sorted, Hm.
  - intros r. rewrite (elem_of_ready_heads s r Hm), list_elem_of_fmap. split.
    + intros (p & -> & Hin). destruct (Hw p Hin) as (k & Hk & ->). by exists k.
    + intros (k & Hk & ->). exists (lane_rank (st_lanes s) k). split; [done|].
      rewrite Hperm. by apply list_elem_of_fmap_2.
Qed.

Lemma EligibleFor_ok limit epochs slots s :
  mem_ok s -> is_open s = true ->
  EligibleFor limit epochs slots s = eligible_spec limit epochs slots (recs s).
Proof.
  intros Hm Ho. unfold EligibleFor, eligible_spec.
  destruct (lane_rank (st_lanes s) <$> st_readyLanes s) as [|root ready] eqn:Er.
  - assert (E : ready_heads (recs s) = []); [|by rewrite E].
    destruct (ready_heads (recs s)) as [|r l] eqn:E; [done|]. exfalso.
    assert (Hin : r ∈ ready_heads (recs s)) by (rewrite E; left).
    apply (elem_of_ready_heads s r Hm) in Hin as (k & Hk & _). apply fmap_nil_inv in Er.
    rewrite Er in Hk. by apply elem_of_nil in Hk.
  - rewrite Ho, orb_false_r. destruct (Z.leb_spec limit 0); [by rewrite select_nonpositive|].
    rewrite eligible_loop_walk, (walk_ready_heads s root ready Hm Er). cbn [app length].
    rewrite Z.sub_0_r.
    assert (Hlen : (length (ready_heads (recs s)) <= length (root :: ready))%nat).
    { rewrite <- (walk_ready_heads s root ready Hm Er), length_fmap.
      destruct (walk_root_spec rank_less rank_less_asym rank_le_trans (root :: ready)) with (x := root)
        as [Hperm _]; [|done|by rewrite Hperm].
      rewrite <- Er. apply (mo_heap _ Hm). }
    destruct (Z.le_gt_cases limit (Z.of_nat (length (root :: ready)))).
    + cbn [length] in *. by rewrite Z.min_l by lia.
    + cbn [length] in *. rewrite Z.min_r by lia. apply select_enough; lia.
Qed.
End Eligible.

(** ** Opening an outbox

    [Open] on the database an outbox left behind: the records come back in
    order, those whose publication was under way become uncertain, and the
    store satisfies [sinv] again. *)

(** ** Records that survive a JSON round trip *)
Definition utf8_map (m : gmap string string) : bool :=
  forallb (fun '(k, v) => utf8_ValidString k && utf8_ValidString v) (map_to_list m).

Definition utf8_record (r : Rec) : bool :=
  forallb utf8_ValidString [r_EventID r; r_Topic r; r_OrderingKey r; r_Group r; r_Hash r;
    r_HashContract r; r_LibraryVersion r; r_RoutingAlgorithm r; r_BrokerEndpoint r; r_Broker r;
    r_Destination r; r_LastError r] && utf8_map (r_Properties r).

Lemma json_properties_id m : utf8_map m = true -> json_properties m = m.
Proof.
  intros Hu. assert (Hv : forall k v, m !! k = Some v ->
    utf8_ValidString k = true /\ utf8_ValidString v = true).
  { intros k v Hk. unfold utf8_map in Hu. rewrite forallb_forall in Hu.
    specialize (Hu (k, v)). cbn in Hu. apply andb_true_iff, Hu.
    by apply list_elem_of_In, elem_of_map_to_list. }
  unfold json_properties. set (keys := sort_strings (elements (dom m))).
  assert (Hk : forall k, k ∈ keys <-> is_Some (m !! k)).
  { intros k. unfold keys, sort_strings. rewrite elem_of_sort_by, elem_of_elements.
    apply elem_of_dom. }
  assert (Hgen : forall (ks : list string) (acc : gmap string string), (forall k, k ∈ ks -> is_Some (m !! k)) ->
    forall k, foldl (fun acc k => <[json_coerce k := json_coerce (default ""%string (m !! k))]> acc) acc ks
      !! k = if decide (k ∈ ks) then m !! k else acc !! k).
  { induction ks as [|x ks IH]; intros acc Hks k; cbn [foldl]; [done|].
    rewrite IH by (intros; apply Hks; by right).
    destruct (Hks x ltac:(left)) as [v Hx]. destruct (Hv x v Hx) as [H1 H2].
    rewrite Hx. cbn [default from_option id]. rewrite !json_coerce_valid by done.
    destruct (decide (k ∈ ks)) as [Hin|Hn].
    - by rewrite decide_True by by right.
    - destruct (decide (k = x)) as [->|Hne].
      + by rewrite lookup_insert_eq, decide_True, Hx by left.
      + rewrite lookup_insert_ne, decide_False by (try done; set_solver). done. }
  apply map_eq. intros k. rewrite Hgen by (intros; by apply Hk). case_decide as H; [done|].
  rewrite lookup_empty. symmetry. apply eq_None_not_Some. by rewrite <- Hk.
Qed.

Lemma json_rec_id r : utf8_record r = true -> json_rec r = r.
Proof.
  unfold utf8_record. intros [H Hp]%andb_true_iff. cbn in H. to_prop.
  unfold json_rec. rewrite !json_coerce_valid, json_properties_id by done. by destruct r.
Qed.

(** What a reopened store needs of a stored record. *)
Definition storable (r : Rec) : bool := utf8_record r && json_time_ok (r_AcceptedAt r).

(** The record after recovery. *)
Definition recovered (now : Time) (r : Rec) : Rec :=
  if bool_decide (r_State r = StateInEventsA) then recover_record now r else r.

Lemma recover_valid now r :
  r_State r = StateInEventsA -> validateStoredRecord r = nil_err ->
  validateStoredRecord (recover_record now r) = nil_err.
Proof.
  intros Hs (Hi & Ha)%stored_inv. destruct Ha as [Ha _]; [by rewrite Hs|].
  apply stored_valid; [exact Hi|exact Ha|]. cbn. set_solver.
Qed.
#[local] Opaque acceptedSize validateStoredRecord.

Lemma recovered_slot now r : same_slot r (recovered now r) /\
  r_SizeBytes (recovered now r) = r_SizeBytes r.
Proof. unfold recovered. by case_bool_decide. Qed.

(** ** Folding to success *)
Lemma fold_result_total {A S} (f : S -> A -> result S) (P : list A -> S -> Prop) (s0 : S) (l : list A) :
  P [] s0 ->
  (forall pre x post s, l = pre ++ x :: post -> P pre s ->
     exists s', f s x = Ok s' /\ P (pre ++ [x]) s') ->
  exists s, fold_result f s0 l = Ok s /\ P l s.
Proof.
  intros H0 Hs. cut (forall post pre s, l = pre ++ post -> P pre s ->
    exists s', fold_result f s post = Ok s' /\ P l s').
  { intros H. by apply (H l []). }
  induction post as [|x post IH]; intros pre s El Hp; cbn.
  - exists s. split; [done|]. by rewrite El, app_nil_r.
  - destruct (Hs pre x post s El Hp) as (s' & -> & Hp').
    apply (IH (pre ++ [x])); [|done]. by rewrite <- app_assoc.
Qed.

Section Load.
Context {B : Type} `{!Bolt B}.
Implicit Types s t : Store B.

(** ** Rebuilding the index *)
Lemma index_new r s :
  st_lanes s !! effectiveOrderingKey r = None -> st_records s !! r_EventID r = Some r ->
  indexAccepted r s =
  let key := effectiveOrderingKey r in
  let lane := new_lane <| ln_eventIDs := [r_EventID r] |> <| ln_headSequence := r_Sequence r |> in
  let s' := s <| st_lanes := <[key := lane]> (st_lanes s) |> in
  if bool_decide (r_State r = StateReady)
  then set_heap (heap_Push lane_Push key (st_readyLanes s', st_lanes s')) s' else s'.
Proof.
  intros Hl Hr. unfold indexAccepted, lane_at. rewrite Hl. cbn [default from_option id].
  rewrite bool_decide_eq_true_2 by done. cbn zeta. unfold refreshLane, remove_ready, lane_at, update_lane.
  cbn [st_lanes setter st_records st_readyLanes]. rewrite lookup_insert_eq. cbn -[set_heap heap_Push].
  rewrite lookup_insert_eq. cbn -[set_heap heap_Push]. rewrite Hr, alter_insert_eq. done.
Qed.

Lemma index_old r s ln :
  st_lanes s !! effectiveOrderingKey r = Some ln -> ln_eventIDs ln <> [] ->
  indexAccepted r s =
  s <| st_lanes := <[effectiveOrderingKey r :=
         ln <| ln_eventIDs := ln_eventIDs ln ++ [r_EventID r] |>]> (st_lanes s) |>.
Proof.
  intros Hl Hn. unfold indexAccepted, lane_at. rewrite Hl. cbn [default from_option id].
  rewrite bool_decide_eq_false_2; [done|]. cbn. rewrite length_app. cbn.
  destruct (ln_eventIDs ln); [done|]. cbn. lia.
Qed.

(** Indexing looks at the index and at the record itself. *)
Lemma index_cong r s t :
  mem_ok s -> st_records t !! r_EventID r = Some r ->
  st_lanes s = st_lanes t -> st_readyLanes s = st_readyLanes t ->
  let s' := accept_record r s in
  let t' := indexAccepted r t in
  st_lanes s' = st_lanes t' /\ st_readyLanes s' = st_readyLanes t' /\
  st_records t' = st_records t.
Proof.
  intros Hm Hr El Er. unfold accept_record. cbn zeta.
  assert (Hr' : st_records (store_record r s) !! r_EventID r = Some r) by apply lookup_insert_eq.
  destruct (st_lanes s !! effectiveOrderingKey r) as [ln|] eqn:Hl.
  - assert (Hn : ln_eventIDs ln <> []).
    { intros E. destruct (lf_head _ _ _ (mo_lane _ Hm _ _ Hl)) as [x Hx]. unfold head_of in Hx.
      by rewrite E in Hx. }
    rewrite (index_old r (store_record r s) ln), (index_old r t ln);
      [cbn; by rewrite El, Er|by rewrite <- El|done|done|done].
  - rewrite (index_new r (store_record r s)), (index_new r t); [|by rewrite <- El|done|done|done].
    cbn zeta. cbn [st_lanes st_readyLanes setter store_record]. rewrite El, Er. by case_bool_decide.
Qed.
Lemma index_only_accepted r s : index_only s (indexAccepted r s).
Proof.
  unfold indexAccepted, refreshLane, remove_ready, update_lane, set_heap, index_only.
  repeat case_match; destruct s; done.
Qed.

(** The map of a list of records. *)
Definition records_of (rs : list Rec) : gmap string Rec :=
  foldl (fun m r => <[r_EventID r := r]> m) ∅ rs.

Lemma records_of_lookup (rs : list Rec) r :
  NoDup (r_EventID <$> rs) -> r ∈ rs -> records_of rs !! r_EventID r = Some r.
Proof.
  unfold records_of. revert r. induction rs as [|x rs IH] using rev_ind; intros r Hnd Hr.
  { by apply elem_of_nil in Hr. }
  rewrite fmap_app in Hnd. apply NoDup_app in Hnd as (Hnd & Hd & _). rewrite foldl_app. cbn.
  apply elem_of_app in Hr as [Hr|Hr%list_elem_of_singleton].
  - rewrite lookup_insert_ne; [by apply IH|]. intros E. apply (Hd (r_EventID r)).
    + by apply list_elem_of_fmap_2.
    + rewrite <- E. by left.
  - subst x. apply lookup_insert_eq.
Qed.

Lemma accept_list_fields (rs : list Rec) : forall s,
  let s' := foldl (fun s r => accept_record r s) s rs in
  st_records s' = foldl (fun m r => <[r_EventID r := r]> m) (st_records s) rs /\
  st_order s' = st_order s ++ (r_EventID <$> rs).
Proof.
  induction rs as [|r rs IH]; intros s; cbn; [by rewrite app_nil_r|].
  destruct (IH (accept_record r s)) as [-> ->].
  destruct (index_only_fields _ _ (index_only_accepted r (store_record r s))) as (E1 & E2 & _).
  unfold accept_record. rewrite E1, E2. cbn. by rewrite <- app_assoc.
Qed.

Definition cleared (t : Store B) : Store B :=
  t <| st_records := ∅ |> <| st_order := [] |> <| st_lanes := ∅ |> <| st_readyLanes := [] |>.

Lemma cleared_ok t : mem_ok (cleared t) /\ recs (cleared t) = [] /\
  forall id, fresh_id (cleared t) id.
Proof.
  split_and!; [|done|].
  - split; try (cbn; intros *; rewrite lookup_empty; done); [constructor|].
    split; [|split; cbn; [done|intros k l; by rewrite lookup_empty]].
    intros k Hk. cbn in Hk. lia.
  - intros id. split; cbn; [apply not_elem_of_nil|]. intros k ln. by rewrite lookup_empty.
Qed.

Section Rebuild.
Context (t : Store B) (rs : list Rec) (Hids : NoDup (r_EventID <$> rs)).
Context (Hsort : StronglySorted (fun a b => r_Sequence a < r_Sequence b) rs).
Context (Hrecords : st_records t = records_of rs) (Horder : st_order t = r_EventID <$> rs).
Abbreviation replayed := (fun pre => foldl (fun s r => accept_record r s) (cleared t) pre).

Lemma replay_ok pre post :
  rs = pre ++ post -> mem_ok (replayed pre) /\ recs (replayed pre) = pre /\
  forall id, id ∉ r_EventID <$> pre -> fresh_id (replayed pre) id.
Proof.
  intros E. rewrite E, fmap_app in Hids. rewrite E in Hsort.
  apply NoDup_app in Hids as (Hnd & _). apply StronglySorted_app in Hsort as (_ & Hs & _).
  destruct (cleared_ok t) as (Hm & Hr & Hf).
  destruct (accept_list_ok pre (cleared t) (mkBuckets databaseFormatVersion ∅ ∅ 1 0))
    as ([Hm' _ _] & Hr' & _ & Hf'); [done|split; [done|..|done]|done|by intros; apply Hf|by rewrite Hr|].
  { intros k e. rewrite Hr. cbn. rewrite lookup_empty. split; [done|].
    by intros (? & ?%elem_of_nil & _). }
  split_and!; [done|by rewrite Hr', Hr|]. intros id Hid. apply Hf'; [done|apply Hf].
Qed.

Abbreviation rebuild := (fun pre => foldl (fun s id =>
    match st_records s !! id with
    | Some record => indexAccepted record s
    | None => s
    end) (t <| st_lanes := ∅ |> <| st_readyLanes := [] |>) (r_EventID <$> pre)).

Lemma rebuild_replay pre : forall post,
  rs = pre ++ post ->
  st_lanes (replayed pre) = st_lanes (rebuild pre) /\
  st_readyLanes (replayed pre) = st_readyLanes (rebuild pre) /\
  st_records (rebuild pre) = st_records t.
Proof.
  induction pre as [|r pre IH] using rev_ind; intros post E; [done|].
  rewrite <- app_assoc in E. destruct (IH _ E) as (E1 & E2 & E3).
  destruct (replay_ok pre _ E) as (Hm & _ & _). rewrite !fmap_app, !foldl_app. cbn [foldl fmap list_fmap].
  assert (Hr : st_records (rebuild pre) !! r_EventID r = Some r).
  { rewrite E3, Hrecords. apply records_of_lookup; [done|]. rewrite E. set_solver. }
  rewrite Hr, <- E3. by apply index_cong.
Qed.

Lemma rebuild_ok :
  let t' := rebuildEligibleIndex t in
  mem_ok t' /\ recs t' = rs /\ unmoved t t' /\ st_records t' = st_records t /\
  forall id, id ∉ r_EventID <$> rs -> fresh_id t' id.
Proof.
  cbn zeta. destruct (rebuild_replay rs [] ltac:(by rewrite app_nil_r)) as (E1 & E2 & E3).
  destruct (replay_ok rs [] ltac:(by rewrite app_nil_r)) as (Hm & Hr & Hf).
  destruct (accept_list_fields rs (cleared t)) as [F1 F2]. cbn in F1, F2.
  assert (Hgen : forall ids s, let s' := foldl (fun s id =>
      match st_records s !! id with Some record => indexAccepted record s | None => s end) s ids in
    unmoved s s' /\ st_order s' = st_order s).
  { induction ids as [|i ids IH]; intros s; cbn; [done|]. case_match; [|apply IH].
    destruct (IH (indexAccepted r s)) as [H1 H2]. pose proof (index_only_accepted r s) as I.
    split; [eapply unmoved_trans; [by apply unmoved_index|done]|].
    rewrite H2. by apply index_only_fields in I as (_ & -> & _). }
  unfold rebuildEligibleIndex. rewrite Horder.
  destruct (Hgen (r_EventID <$> rs) (t <| st_lanes := ∅ |> <| st_readyLanes := [] |>)) as [G1 G2].
  set (t' := foldl _ _ (r_EventID <$> rs)) in *. change (rebuild rs) with t' in *. clearbody t'.
  assert (Hsame : same_memory (replayed rs) t').
  { split; [|by rewrite F2, G2|done..]. rewrite E3, F1, Hrecords. done. }
  split_and!; [by eapply same_mem_ok|by rewrite (same_recs _ _ Hsame)| |done|].
  - eapply unmoved_trans; [|exact G1]. done.
  - intros id Hid. by apply (same_fresh _ _ id Hsame), Hf.
Qed.
End Rebuild.
(** ** The cursor *)
Lemma recs_ids_nodup s : mem_ok s -> NoDup (r_EventID <$> recs s).
Proof.
  intros Hm. apply NoDup_fmap_2_strong; [|by eapply sorted_NoDup, mo_sorted].
  intros x y Hx Hy E. apply elem_of_recs in Hx, Hy; [|done..]. rewrite E, Hy in Hx. by injection Hx.
Qed.

Lemma cursor_recs s bk :
  mem_ok s -> mirrors s bk -> (forall r, r ∈ recs s -> json_rec r = r) ->
  cursor (b_records bk) = (fun r => (r_Sequence r, r)) <$> recs s.
Proof.
  intros Hm [_ Hb _] Hj.
  assert (He : forall k r, (k, r) ∈ map_to_list (b_records bk) <-> r ∈ recs s /\ r_Sequence r = k).
  { intros k r. rewrite elem_of_map_to_list, Hb. split.
    - intros (x & Hx & <- & ->). by rewrite Hj.
    - intros [Hr <-]. exists r. by rewrite Hj. }
  apply (strict_unique fst).
  - apply strict_of_sorted.
    + unfold cursor. pose proof (sort_by_sorted (fun x y : Z * Rec => fst x <? fst y)) as Hs.
      eapply StronglySorted_ind; [..|apply Hs]; [constructor|..].
      * intros x l _ IH Hx. constructor; [done|]. eapply Forall_impl; [exact Hx|].
        intros y Hy. unfold le_by in Hy. to_prop. lia.
      * intros x y Hxy. to_prop. apply Z.ltb_ge. lia.
      * intros x y z Hxy Hyz. unfold le_by in *. to_prop. apply Z.ltb_ge. lia.
    + unfold cursor. rewrite sort_by_perm. apply NoDup_map_to_list.
    + intros [k x] [k' y]. unfold cursor. rewrite !elem_of_sort_by, !He. cbn.
      intros [Hx <-] [Hy <-] E. f_equal; [done|]. by apply (seq_inj s).
  - pose proof (mo_sorted _ Hm) as Hs. clear -Hs. induction Hs as [|x l Hs IH Hx]; cbn; [constructor|].
    constructor; [done|]. apply Forall_fmap. exact Hx.
  - intros [k r]. unfold cursor. rewrite elem_of_sort_by, He, list_elem_of_fmap. split.
    + intros [Hr <-]. by exists r.
    + intros (x & [= -> ->] & Hr). done.
Qed.
(** ** Loading *)
Record loading_ok (now : Time) (pre : list Rec) (st : Loaded) : Prop := {
  lo_records : ld_records st = records_of (recovered now <$> pre);
  lo_order : ld_order st = r_EventID <$> pre;
  lo_bytes : ld_bytes st = total_bytes pre;
  lo_max : forall r, r ∈ pre -> r_Sequence r <= ld_maxSequence st;
  lo_maxIn : ld_maxSequence st = 0 \/ exists r, r ∈ pre /\ r_Sequence r = ld_maxSequence st;
  lo_recovered : ld_recovered st =
    recovered now <$> filter (fun r => r_State r = StateInEventsA) pre;
}.

Lemma records_of_snoc (rs : list Rec) r :
  records_of (rs ++ [r]) = <[r_EventID r := r]> (records_of rs).
Proof. unfold records_of. by rewrite foldl_app. Qed.

Lemma records_of_None (rs : list Rec) id :
  id ∉ r_EventID <$> rs -> records_of rs !! id = None.
Proof.
  induction rs as [|x rs IH] using rev_ind; intros Hn; [apply lookup_empty|].
  rewrite fmap_app in Hn. rewrite records_of_snoc, lookup_insert_ne by set_solver.
  apply IH. set_solver.
Qed.

Lemma recovered_ids now (rs : list Rec) : r_EventID <$> (recovered now <$> rs) = r_EventID <$> rs.
Proof.
  rewrite <- list_fmap_compose. apply list_fmap_ext. intros i x _. cbn.
  by destruct (recovered_slot now x) as [[-> _] _].
Qed.

Section Reopen.
Context (s : Store B) (Hi : sinv s) (limits : Limits) (now : Time).
Context (Hjson : forall r, r ∈ recs s -> json_rec r = r) (bk : Buckets) (Hb : mirrors s bk).
Context (Hbytes : st_bytes s <= MaxBytes limits).

Lemma load_step pre r post st :
  recs s = pre ++ r :: post -> loading_ok now pre st ->
  exists st', load_one limits now (b_events bk) st (r_Sequence r, r) = Ok st' /\
    loading_ok now (pre ++ [r]) st'.
Proof.
  intros E [L1 L2 L3 L4 L5 L6].
  assert (Hr : r ∈ recs s) by (rewrite E; set_solver).
  pose proof (recs_ids_nodup s (sv_mem _ Hi)) as Hnd. rewrite E, fmap_app in Hnd.
  apply NoDup_app in Hnd as (_ & Hd & Hnd). cbn in Hnd. apply NoDup_cons in Hnd as [Hnr _].
  assert (Hmax : ld_maxSequence st < r_Sequence r).
  { pose proof (sv_seq _ Hi r Hr). destruct L5 as [->|(x & Hx & <-)]; [lia|].
    pose proof (mo_sorted _ (sv_mem _ Hi)) as Hs. rewrite E in Hs.
    apply StronglySorted_app in Hs as (Hs & _ & _). apply Hs; [done|left]. }
  unfold load_one. pose proof (sv_seq _ Hi r Hr) as Hseq.
  rewrite (proj2 (Z.eqb_neq _ 0)), (proj2 (Z.leb_gt _ _)) by lia. cbn [fail_if orb].
  rewrite Z.eqb_refl, (sv_valid _ Hi r Hr). cbn [negb fail_if wrap_err].
  assert (Hid : r_EventID r ∉ r_EventID <$> pre).
  { intros Hin. apply (Hd _ Hin). left. }
  rewrite L1, records_of_None by by rewrite recovered_ids.
  rewrite bool_decide_eq_false_2 by by intros []. cbn [fail_if].
  rewrite (mi_events _ _ Hb), lookup_fmap.
  rewrite (proj1 (elem_of_recs s r (sv_mem _ Hi)) Hr). cbn [fmap option_fmap option_map].
  rewrite bool_decide_eq_true_2 by done. cbn [negb fail_if].
  assert (Hroom : ld_bytes st + r_SizeBytes r <= MaxBytes limits).
  { rewrite L3. rewrite (sv_bytes _ Hi), E, total_app, total_cons in Hbytes.
    assert (0 <= total_bytes post); [|lia]. apply sum_Z_nonneg, Forall_fmap, Forall_forall.
    intros x Hx. unfold compose. assert (Hxs : x ∈ recs s) by (rewrite E; set_solver).
    apply (sv_valid _ Hi), stored_inv in Hxs as [Hz _]. unfold identity_size in Hz. to_prop. lia. }
  rewrite (proj2 (Z.ltb_ge _ _)) by lia. cbn [fail_if]. fold (recovered now r).
  eexists. split; [done|]. split; cbn [ld_records ld_order ld_bytes ld_maxSequence ld_recovered].
  - rewrite fmap_app. cbn [fmap list_fmap]. rewrite records_of_snoc.
    by destruct (recovered_slot now r) as [[-> _] _].
  - by rewrite L2, fmap_app.
  - rewrite L3, total_app. unfold total_bytes at 3. cbn. lia.
  - intros x [Hx|Hx%list_elem_of_singleton]%elem_of_app; [|by subst]. specialize (L4 x Hx). lia.
  - right. exists r. set_solver.
  - rewrite L6, list.filter_app, fmap_app. destruct (decide (r_State r = StateInEventsA)) as [Hs|Hs].
    + by rewrite bool_decide_eq_true_2, filter_cons_True by done.
    + by rewrite bool_decide_eq_false_2, filter_cons_False, app_nil_r by done.
Qed.

Lemma load_loop_ok :
  exists st, fold_result (load_one limits now (b_events bk)) (mkLoaded ∅ [] 0 0 [])
    (cursor (b_records bk)) = Ok st /\ loading_ok now (recs s) st.
Proof.
  rewrite (cursor_recs s bk (sv_mem _ Hi) Hb Hjson).
  cut (exists st, fold_result (fun st r => load_one limits now (b_events bk) st (r_Sequence r, r))
    (mkLoaded ∅ [] 0 0 []) (recs s) = Ok st /\ loading_ok now (recs s) st).
  { intros (st & H & Hl). exists st. split; [|done]. rewrite <- H. clear.
    generalize (mkLoaded ∅ [] 0 0 []). induction (recs s) as [|x l IH]; intros st; [done|]. cbn [fold_result fmap list_fmap].
    destruct (load_one _ _ _ st _); [apply IH|done]. }
  apply fold_result_total.
  - split; cbn; try done; [by intros ? ?%elem_of_nil|by left].
  - intros pre r post st E Hl. by eapply load_step.
Qed.

Context (Hmessages : Z.of_nat (size (st_records s)) <= MaxMessages limits).
Context (Hi64 : st_bytes s <= max_i64) (Hnow : json_time_ok now = true).
Context (Htimes : forall r, r ∈ recs s -> json_time_ok (r_AcceptedAt r) = true).
Context (Hnext : b_next bk = st_nextSeq s) (Htotal : b_total bk = st_bytes s).
Abbreviation inflight := (filter (fun r => r_State r = StateInEventsA) (recs s)).
Abbreviation rewritten := (recovered now <$> inflight).

Lemma loaded_records : records_of (recovered now <$> recs s) = recovered now <$> st_records s.
Proof.
  apply map_eq. intros id. rewrite lookup_fmap.
  destruct (st_records s !! id) as [r|] eqn:E.
  - pose proof (mo_ids _ (sv_mem _ Hi) _ _ E) as <-. cbn.
    destruct (recovered_slot now r) as [[Er _] _]. rewrite <- Er at 1.
    apply records_of_lookup; [rewrite recovered_ids; apply recs_ids_nodup, Hi|].
    apply list_elem_of_fmap_2. by apply elem_of_recs; [apply Hi|].
  - cbn. apply records_of_None. rewrite recovered_ids.
    intros (r & -> & Hr)%list_elem_of_fmap. apply elem_of_recs in Hr; [|apply Hi]. congruence.
Qed.

Lemma encode_rewritten : encode_all rewritten = Ok (with_json <$> rewritten).
Proof.
  destruct (fold_result_total (fun acc r => let! e := Outbox.encode r in Ok (acc ++ [(r, e)]))
    (fun pre ps => ps = with_json <$> pre) [] rewritten) as (ps & H & ->); [done| |exact H].
  intros pre x post ps E ->. exists (with_json <$> (pre ++ [x])). split; [|done].
  assert (Hx : x ∈ rewritten) by (rewrite E; set_solver).
  apply list_elem_of_fmap in Hx as (r & -> & [Hs Hr]%list_elem_of_filter).
  unfold Outbox.encode, recovered. rewrite bool_decide_eq_true_2 by done.
  cbn [recover_record r_AcceptedAt r_UpdatedAt setter]. rewrite (Htimes r Hr), Hnow. cbn.
  by rewrite fmap_app.
Qed.

Lemma load_tx_ok :
  exists ld, loading_ok now (recs s) ld /\
    load_tx false limits now (Some bk) =
    Ok (put_all (with_json <$> rewritten) bk <| b_next := st_nextSeq s |>, ld, st_nextSeq s).
Proof.
  destruct load_loop_ok as (ld & Hl & Hld). exists ld. split; [done|].
  destruct Hld as [L1 L2 L3 L4 L5 L6]. pose proof (sv_next _ Hi) as Hn. unfold load_tx.
  rewrite (mi_format _ _ Hb), Hl, Hnext, Htotal, Z.eqb_refl. cbn [negb fail_if].
  rewrite (proj2 (Z.eqb_neq _ 0)), (proj2 (Z.ltb_ge _ _)) by lia. cbn [fail_if].
  rewrite L1, loaded_records, map_size_fmap, (proj2 (Z.ltb_ge _ _)) by lia. cbn [fail_if].
  rewrite L3, <- (sv_bytes _ Hi), Z.eqb_refl. cbn [negb fail_if].
  assert (Hev : for_each (event_indexed (recovered now <$> st_records s))
    (map_to_list (b_events bk)) = nil_err).
  { apply for_each_ok, Forall_forall. intros [id sq]. rewrite elem_of_map_to_list, (mi_events _ _ Hb), lookup_fmap.
    unfold event_indexed. cbn [fst snd]. rewrite lookup_fmap.
    destruct (st_records s !! id) as [r|]; [|done]. cbn. intros [= <-].
    destruct (recovered_slot now r) as [(_ & _ & ->) _]. by rewrite Z.eqb_refl. }
  rewrite Hev, (mi_events _ _ Hb), map_size_fmap, bool_decide_eq_true_2 by done. cbn [negb fail_if].
  assert (Hmax : ld_maxSequence ld < st_nextSeq s).
  { destruct L5 as [->|(r & Hr & <-)]; [lia|]. by apply (sv_seq _ Hi). }
  rewrite (proj2 (Z.eqb_neq _ max_u64)), (proj2 (Z.leb_gt _ _)) by lia. cbn [fail_if].
  by rewrite L6, encode_rewritten.
Qed.

Lemma rewritten_valid u : u ∈ rewritten -> valid_edit s u.
Proof.
  intros (r & -> & [Hs Hr]%list_elem_of_filter)%list_elem_of_fmap. exists r.
  destruct (recovered_slot now r) as [Hslot Hz]. pose proof Hslot as [E _]. split_and!; try done.
  - rewrite E. by apply elem_of_recs; [apply Hi|].
  - unfold recovered. rewrite bool_decide_eq_true_2 by done. by apply recover_valid; [|apply Hi].
Qed.

Lemma rewritten_overlay x : x ∈ recs s -> overlay rewritten x = recovered now x.
Proof.
  intros Hx. destruct (recovered_slot now x) as [[E _] _].
  rewrite (overlay_spec _ x (recovered now x)); [|..|done].
  - case_decide as H; [done|]. unfold recovered. case_bool_decide as Hs; [|done]. destruct H.
    rewrite <- E. apply list_elem_of_fmap_2, list_elem_of_fmap_2. by apply list_elem_of_filter.
  - intros u (r & -> & [_ Hr]%list_elem_of_filter)%list_elem_of_fmap Eu.
    destruct (recovered_slot now r) as [[E' _] _]. rewrite E' in Eu.
    apply elem_of_recs in Hr, Hx; [|apply Hi..]. rewrite Eu, Hx in Hr. by injection Hr as ->.
Qed.
End Reopen.

Lemma recs_determine s t : mem_ok s -> mem_ok t -> recs s = recs t -> st_records s = st_records t.
Proof.
  intros Hs Ht E. apply map_eq. intros id. apply option_eq. intros r. split; intros Hr.
  - pose proof (mo_ids _ Hs _ _ Hr) as <-. apply elem_of_recs; [done|]. rewrite <- E.
    by apply elem_of_recs.
  - pose proof (mo_ids _ Ht _ _ Hr) as <-. apply elem_of_recs; [done|]. rewrite E.
    by apply elem_of_recs.
Qed.

(** What reopening the database of [s] needs: limits that hold its records, and
    records that were written as they are. *)
Record reopenable s (limits : Limits) (now : Time) : Prop := {
  ro_records : forall r, r ∈ recs s -> storable r = true;
  ro_bytes : st_bytes s <= MaxBytes limits;
  ro_messages : Z.of_nat (size (st_records s)) <= MaxMessages limits;
  ro_int64 : st_bytes s <= max_i64;
  ro_now : json_time_ok now = true;
}.

Lemma storable_json r : storable r = true -> json_rec r = r /\ json_time_ok (r_AcceptedAt r) = true.
Proof. intros [? ?]%andb_true_iff. split; [by apply json_rec_id|done]. Qed.

(** The memory built from what was loaded. *)
Lemma loaded_store s limits now ld (db : option B) bk :
  sinv s -> mirrors s bk -> loading_ok now (recs s) ld ->
  let t := rebuildEligibleIndex (mkStore limits db (ld_records ld) (ld_order ld) ∅ []
    (st_nextSeq s) (ld_bytes ld) (Z.of_nat (size (ld_records ld))) (ld_bytes ld) 0) in
  let rewritten := recovered now <$> filter (fun r => r_State r = StateInEventsA) (recs s) in
  mem_ok t /\ recs t = recovered now <$> recs s /\ mirrors t (put_all (with_json <$> rewritten) bk) /\
  st_limits t = limits /\ st_db t = db /\ st_nextSeq t = st_nextSeq s /\ st_bytes t = st_bytes s /\
  size (st_records t) = size (st_records s) /\
  (forall id, id ∉ r_EventID <$> recs s -> fresh_id t id).
Proof.
  intros Hi Hb [L1 L2 L3 _ _ _]. cbn zeta. set (t0 := mkStore _ _ _ _ _ _ _ _ _ _ _).
  destruct (rebuild_ok t0 (recovered now <$> recs s)) as (Hm & Hr & [U1 U2 U3 U4] & Er & Hf).
  { rewrite recovered_ids. apply recs_ids_nodup, Hi. }
  { pose proof (mo_sorted _ (sv_mem _ Hi)) as Hs. clear -Hs.
    induction Hs as [|x l Hs IH Hx]; cbn; [constructor|]. constructor; [done|].
    apply Forall_fmap. eapply Forall_impl; [exact Hx|]. intros y Hy. unfold compose.
    destruct (recovered_slot now x) as [(_ & _ & ->) _], (recovered_slot now y) as [(_ & _ & ->) _].
    exact Hy. }
  { exact L1. } { cbn. by rewrite L2, recovered_ids. }
  set (t := rebuildEligibleIndex t0) in *. rewrite recovered_ids in Hf.
  set (us := recovered now <$> filter _ (recs s)).
  destruct (update_list_ok us s bk (sv_mem _ Hi) Hb) as ([Hm1 Hb1 _] & Hr1 & Hz1 & _).
  { intros u (r & ? & ? & _)%(rewritten_valid s Hi now). by exists r. }
  set (s1 := foldl _ s us) in *. clearbody s1 t.
  assert (E : recs s1 = recs t).
  { rewrite Hr, Hr1. apply list_fmap_ext. intros i x Hx%list_elem_of_lookup_2.
    by apply (rewritten_overlay s Hi now). }
  assert (Em : st_records s1 = st_records t) by by apply recs_determine.
  split_and!; try done.
  - destruct Hb1 as [B1 B2 B3]. split; [done|by rewrite <- E|by rewrite <- Em].
  - rewrite U4. cbn. by rewrite L3, (sv_bytes _ Hi).
  - by rewrite <- Em.
Qed.

(** A database that commits every transaction it can run. *)
Definition commits (b : B) : Prop := forall tx c, tx (contents b) = Ok c -> snd (Update tx b) = nil_err.

(** Reopening: unless the database itself fails, the records come back. *)
Lemma load_ok s b limits now :
  sinv s -> st_db s = Some b -> reopenable s limits now ->
  let '(b', out) := load false now limits b in
  match out with
  | Ok t => sinv t /\ recs t = recovered now <$> recs s /\ st_limits t = limits /\
      st_nextSeq t = st_nextSeq s /\ (forall id, id ∉ r_EventID <$> recs s -> fresh_id t id) /\
      st_db t = Some b'
  | Err _ => contents b' = contents b /\ ~ commits b
  end.
Proof.
  intros Hi Hdb [R1 R2 R3 R4 R5]. destruct (sv_db _ Hi b Hdb) as (bk & Hbk & Hb & Hn & Ht).
  destruct (load_tx_ok s Hi limits now) with (bk := bk) as (ld & Hld & Htx); try done;
    [by intros r Hr; apply storable_json, R1..|].
  unfold load. rewrite Hbk, Htx. destruct (Update _ b) as [b' err] eqn:Eu.
  destruct err as [[]|e].
  2:{ split; [apply Update_rolls_back in Eu; congruence|]. intros Hc.
      match type of Eu with Update ?tx b = _ => pose proof (Hc tx) as Hc' end.
      rewrite Hbk, Htx, Eu in Hc'. by specialize (Hc' _ eq_refl). }
  apply Update_commits in Eu. rewrite Hbk, Htx in Eu. cbn [fst] in Eu. injection Eu as Eu.
  destruct (loaded_store s limits now ld (Some b') bk Hi Hb Hld)
    as (Hm & Hr & Hmi & T1 & T2 & T3 & T4 & T5 & Tf).
  set (rw := recovered now <$> filter _ (recs s)) in *.
  set (t := rebuildEligibleIndex _) in *. clearbody t.
  pose proof (tables_fields _ _ (put_all_tables (with_json <$> rw) bk)) as (P1 & P2 & P3).
  split_and!; [|done..]. eapply (sinv_committed s); [exact T2|exact (eq_sym Eu)|..];
    rewrite ?T1, ?T3, ?T4, ?T5; try done; try apply Hi.
  - by eapply mirrors_tables.
  - cbn. by rewrite P3.
  - rewrite Hr. intros r (x & -> & Hx)%list_elem_of_fmap. unfold recovered.
    case_bool_decide; [apply recover_valid; [done|]|]; by apply Hi.
  - rewrite Hr. intros r (x & -> & Hx)%list_elem_of_fmap.
    destruct (recovered_slot now x) as [(_ & _ & ->) _]. by apply Hi.
  - rewrite Hr, (sv_bytes _ Hi). unfold total_bytes. f_equal. rewrite <- list_fmap_compose.
    apply list_fmap_ext. intros i x _. cbn. by destruct (recovered_slot now x) as [_ ->].
Qed.

(** A new database: an empty store. *)
Lemma load_new_ok b limits now :
  0 <= MaxBytes limits -> 0 <= MaxMessages limits ->
  let '(b', out) := load true now limits b in
  match out with
  | Ok t => sinv t /\ recs t = [] /\ st_limits t = limits /\ forall id, fresh_id t id
  | Err _ => contents b' = contents b
  end.
Proof.
  intros H1 H2. unfold load. cbn [load_tx]. destruct (Update _ b) as [b' err] eqn:Eu.
  destruct err as [[]|e]; [|by eapply Update_rolls_back].
  apply Update_commits in Eu. cbn [load_tx] in Eu. injection Eu as Eu.
  set (t0 := mkStore _ _ _ _ _ _ _ _ _ _ _).
  destruct (rebuild_ok t0 []) as (Hm & Hr & [U1 U2 U3 U4] & Er & Hf); [constructor|constructor|done|done|].
  set (t := rebuildEligibleIndex t0) in *. clearbody t.
  split_and!; [|done|done|intros; by apply Hf, not_elem_of_nil].
  eapply (sinv_committed t); [exact U2|exact (eq_sym Eu)|..]; rewrite ?U1, ?U3, ?U4, ?Hr, ?Er; try done.
  - split; [done|..].
    + intros k e. rewrite Hr. cbn. rewrite lookup_empty. split; [done|].
      by intros (? & ?%elem_of_nil & _).
    + by rewrite Er.
  - by intros ? ?%elem_of_nil.
  - by intros ? ?%elem_of_nil.
Qed.
End Load.
