(* ===== verification/OutboxTheorems.v ===== *)
(** * The outbox as a queue of records

    The public operations of an outbox store, as requests, refine changes of a
    list of records ([perform_refines]).  From it: the invariant of every
    reachable store, the life cycle of a record, and that a record leaves only
    through an acknowledgement of its current attempt. *)

From S2P Require Import Prelude Heap Outbox OutboxIndex OutboxMemory OutboxStore OutboxComplete.
From S2P Require Import OutboxLoad.
From Stdlib Require Import ZArith Lia.
From stdpp Require Import base gmap strings sorting numbers relations option list.
#[local] Open Scope Z_scope.

(** ** Requests *)
Inductive request : Type :=
| RAccept (now : Time) (r : Rec)
| RAcceptBatch (now : Time) (rs : list Rec)
| RAssign (now : Time) (id : string) (a : Assignment)
| RAssignBatch (now : Time) (us : list AssignmentUpdate)
| RMarkInEventsA (now : Time) (id : string)
| RMarkInEventsABatch (now : Time) (ids : list string)
| RMarkRejected (now : Time) (id reason : string)
| RMarkRejectedBatch (now : Time) (us : list StateUpdate)
| RMarkAckUncertain (now : Time) (id reason : string)
| RMarkAckUncertainBatch (now : Time) (us : list StateUpdate)
| RRetryAckUncertain (now : Time) (id : string)
| RRetryAckUncertainBatch (now : Time) (ids : list string)
| RCompleteBatch (now : Time) (cs : list Completion)
| RAck (now : Time) (id : string) (attempts epoch : Z)
| RAckAttempt (now : Time) (id : string) (attempts epoch : Z).

Definition outcome {A} (r : result A) : gerr :=
  match r with Ok _ => nil_err | Err e => Err e end.

Definition perform {B} `{!Bolt B} (req : request) (s : Store B) : Store B * gerr :=
  match req with
  | RAccept now r => let '(s', out) := Accept now r s in (s', outcome out)
  | RAcceptBatch now rs => let '(s', out) := AcceptBatch now rs s in (s', outcome out)
  | RAssign now id a => Assign now id a s
  | RAssignBatch now us => AssignBatch now us s
  | RMarkInEventsA now id => MarkInEventsA now id s
  | RMarkInEventsABatch now ids => MarkInEventsABatch now ids s
  | RMarkRejected now id reason => MarkRejected now id reason s
  | RMarkRejectedBatch now us => MarkRejectedBatch now us s
  | RMarkAckUncertain now id reason => MarkAckUncertain now id reason s
  | RMarkAckUncertainBatch now us => MarkAckUncertainBatch now us s
  | RRetryAckUncertain now id => RetryAckUncertain now id s
  | RRetryAckUncertainBatch now ids => RetryAckUncertainBatch now ids s
  | RCompleteBatch now cs => let '(s', out) := CompleteBatch now cs s in (s', outcome out)
  | RAck now id attempts epoch => Ack now id attempts epoch s
  | RAckAttempt now id attempts epoch => AckAttempt now id attempts epoch s
  end.

(** ** The specification: a list of records and the next sequence *)
Abbreviation Queue := (list Rec * Z)%type.

Inductive change : Type :=
| Append (now : Time) (input : list Rec)
| Edit (now : Time) (ids : list string) (mutate : string -> Rec -> result Rec)
| Settle (now : Time) (cs : list Completion).

Definition apply_change (c : change) (q : Queue) : Queue :=
  match c with
  | Append now input =>
      (fst q ++ stamp now (snd q) input, snd q + Z.of_nat (length input))
  | Edit now ids mutate =>
      ((fun x => if decide (r_EventID x ∈ ids) then edited mutate now x else x) <$> fst q, snd q)
  | Settle now cs => (omap (completed now cs) (fst q), snd q)
  end.

Definition assignments_of (us : list AssignmentUpdate) : gmap string Assignment :=
  last_wins ((fun u => (au_EventID u, au_Assignment u)) <$> us).
Definition assigning now us : change :=
  Edit now (au_EventID <$> us) (assign (assignments_of us)).
Definition leaving now next msg us : change :=
  Edit now (fst (splitStateUpdates us)) (leave_attempt next msg (snd (splitStateUpdates us))).
Definition rejecting now us := leaving now StateReady "cannot reject record in state" us.
Definition doubting now us :=
  leaving now StateAckUncertain "cannot mark uncertain record in state" us.
Definition acking now id attempts epoch : change :=
  Settle now [mkCompletion id attempts epoch CompletionAcknowledged ""].

Definition change_of (req : request) : change :=
  match req with
  | RAccept now r => Append now [r]
  | RAcceptBatch now rs => Append now rs
  | RAssign now id a => assigning now [mkAssignmentUpdate id a]
  | RAssignBatch now us => assigning now us
  | RMarkInEventsA now id => Edit now [id] begin_attempt
  | RMarkInEventsABatch now ids => Edit now ids begin_attempt
  | RMarkRejected now id reason => rejecting now [mkStateUpdate id reason]
  | RMarkRejectedBatch now us => rejecting now us
  | RMarkAckUncertain now id reason => doubting now [mkStateUpdate id reason]
  | RMarkAckUncertainBatch now us => doubting now us
  | RRetryAckUncertain now id => Edit now [id] retry
  | RRetryAckUncertainBatch now ids => Edit now ids retry
  | RCompleteBatch now cs => Settle now cs
  | RAck now id attempts epoch | RAckAttempt now id attempts epoch => acking now id attempts epoch
  end.

(** The identifiers a request introduces. *)
Definition new_ids (req : request) : list string :=
  match change_of req with Append _ input => r_EventID <$> input | _ => [] end.

Section Run.
Context {B : Type} `{!Bolt B}.
Implicit Types s : Store B.

Definition queue_of s : Queue := (recs s, st_nextSeq s).

(** What every request establishes. *)
Record performed s (c : change) (ids : list string) s' (err : gerr) : Prop := {
  pf_inv : sinv s';
  pf_queue : queue_of s' = if is_ok err then apply_change c (queue_of s) else queue_of s;
  pf_limits : st_limits s' = st_limits s;
  pf_fresh : forall id, id ∉ ids -> fresh_id s id -> fresh_id s' id;
}.

Lemma rolled_back_performed s s' c ids e :
  sinv s' -> rolled_back s s' -> performed s c ids s' (Err e).
Proof.
  intros Hi Hr. pose proof (rolled_back_memory _ _ Hr) as Hs. split; [done|..].
  - cbn. unfold queue_of. rewrite (same_recs _ _ Hs). destruct Hr as [-> _]. done.
  - by destruct Hr as [-> _].
  - intros id _. by apply same_fresh.
Qed.

Lemma perform_append operation now input s s' out :
  sinv s -> (forall o, o ∈ input -> fresh_id s (r_EventID o)) ->
  acceptMany operation now input s = (s', out) ->
  performed s (Append now input) (r_EventID <$> input) s' (outcome out).
Proof.
  intros Hi Hf H. destruct (acceptMany_ok _ _ _ _ _ _ Hi Hf H) as [Hi' Hout].
  destruct out as [acc|e]; [|by apply rolled_back_performed].
  destruct Hout as [-> Hr Hn Hl Hfr]. split; try done. cbn. unfold queue_of. by rewrite Hr, Hn.
Qed.

Lemma perform_edit operation now ids mutate s s' err :
  sinv s -> mutation_ok mutate -> updateMany operation now ids mutate s = (s', err) ->
  performed s (Edit now ids mutate) [] s' err.
Proof.
  intros Hi Hok H. destruct (updateMany_ok _ _ _ _ _ _ _ Hi Hok H) as [Hi' Hout].
  destruct err as [[]|e]; [|by apply rolled_back_performed].
  destruct Hout as [Hr _ Hn Hl Hfr]. split; try done; [|by auto]. cbn. unfold queue_of.
  by rewrite Hr, Hn.
Qed.

Lemma perform_settle now cs s s' out :
  sinv s -> CompleteBatch now cs s = (s', out) ->
  performed s (Settle now cs) [] s' (outcome out).
Proof.
  intros Hi H. destruct (CompleteBatch_ok _ _ _ _ _ Hi H) as [Hi' Hout].
  destruct out as [applied|e]; [|by apply rolled_back_performed].
  destruct Hout as [Hr _ Hn Hl Hfr]. split; try done; [|by auto]. cbn. unfold queue_of.
  by rewrite Hr, Hn.
Qed.

(** A stale acknowledgement reports an error and changes nothing. *)
Lemma perform_ack now id attempts epoch s s' err :
  sinv s -> Ack now id attempts epoch s = (s', err) ->
  performed s (acking now id attempts epoch) [] s' err.
Proof.
  intros Hi H. unfold Ack in H. set (c := mkCompletion _ _ _ _ _) in *.
  destruct (CompleteBatch now [c] s) as [s1 out] eqn:E.
  destruct (CompleteBatch_ok _ _ _ _ _ Hi E) as [Hi' Hout].
  pose proof (perform_settle _ _ _ _ _ Hi E) as [P1 P2 P3 P4].
  destruct out as [applied|e]; injection H as <- <-; [|by apply rolled_back_performed].
  destruct Hout as [Hr Ha Hn _ _]. case_bool_decide as El; cbn [negb]; [by split|].
  split; try done. cbn. unfold queue_of. rewrite Hn, Hr. f_equal. symmetry.
  apply nothing_applied; [done|apply NoDup_singleton|]. rewrite <- Ha. rewrite Ha in El |- *.
  rewrite filter_cons in El |- *. by case_decide.
Qed.

Lemma perform_ok req s s' err :
  sinv s -> (forall id, id ∈ new_ids req -> fresh_id s id) -> perform req s = (s', err) ->
  performed s (change_of req) (new_ids req) s' err.
Proof.
  intros Hi Hf H. destruct req; cbn in H |- *.
  - unfold Accept in H. destruct (acceptMany _ _ _ _) as [s1 out] eqn:E.
    assert (Hp : performed s (Append now [r]) (r_EventID <$> [r]) s1 (outcome out)).
    { eapply perform_append; [done| |exact E]. intros o Ho. apply Hf.
      cbn. rewrite list_elem_of_singleton in Ho. subst o. left. }
    destruct out; by injection H as <- <-.
  - unfold AcceptBatch in H. destruct (acceptMany _ _ _ _) as [s1 out] eqn:E.
    injection H as <- <-. eapply perform_append; [done| |exact E]. intros o Ho. apply Hf.
    by apply list_elem_of_fmap_2.
  - by eapply perform_edit; [|apply assign_ok|exact H].
  - by eapply perform_edit; [|apply assign_ok|exact H].
  - by eapply perform_edit; [|apply begin_attempt_ok|exact H].
  - by eapply perform_edit; [|apply begin_attempt_ok|exact H].
  - eapply perform_edit; [done|apply leave_attempt_ok; set_solver|exact H].
  - eapply perform_edit; [done|apply leave_attempt_ok; set_solver|exact H].
  - eapply perform_edit; [done|apply leave_attempt_ok; set_solver|exact H].
  - eapply perform_edit; [done|apply leave_attempt_ok; set_solver|exact H].
  - by eapply perform_edit; [|apply retry_ok|exact H].
  - by eapply perform_edit; [|apply retry_ok|exact H].
  - destruct (CompleteBatch _ _ _) as [s1 out] eqn:E. injection H as <- <-.
    by eapply perform_settle.
  - by eapply perform_ack.
  - by eapply perform_ack.
Qed.

(** ** Reachable stores *)

(** A store and the identifiers it was ever given.  Callers do not use an
    identifier twice; a restart is a crash or [Close] followed by [Open] on the
    same database. *)
Inductive outbox_step : Store B * gset string -> Store B * gset string -> Prop :=
| os_request req s s' err used :
    (forall id, id ∈ new_ids req -> id ∉ used) -> perform req s = (s', err) ->
    outbox_step (s, used) (s', list_to_set (new_ids req) ∪ used)
| os_restart now limits s b b' t used :
    st_db s = Some b -> reopenable s (default_limits limits) now ->
    Open false now limits b = (b', Ok t) -> outbox_step (s, used) (t, used).

Definition outbox_init (p : Store B * gset string) : Prop :=
  snd p = ∅ /\ exists now limits b b', Open true now limits b = (b', Ok (fst p)).

Definition outbox_inv (p : Store B * gset string) : Prop :=
  sinv (fst p) /\ forall id, id ∉ snd p -> fresh_id (fst p) id.

Lemma default_limits_nonneg limits :
  (MaxMessages limits <? 0) || (MaxBytes limits <? 0) = false ->
  0 <= MaxBytes (default_limits limits) /\ 0 <= MaxMessages (default_limits limits).
Proof.
  intros H. to_prop. unfold default_limits, defaultMaxMessages, defaultMaxBytes. cbn.
  repeat case_match; lia.
Qed.

Lemma outbox_init_inv p : outbox_init p -> outbox_inv p.
Proof.
  destruct p as [t used]. intros [Hu (now & limits & b & b' & H)]. cbn in Hu, H. subst used.
  unfold Open in H. destruct (_ || _) eqn:E; [done|]. apply default_limits_nonneg in E as [E1 E2].
  pose proof (load_new_ok b (default_limits limits) now E1 E2) as Hl. rewrite H in Hl.
  destruct Hl as (Hi & _ & _ & Hf). split; [done|]. intros id _. apply Hf.
Qed.

Lemma outbox_step_inv p q : outbox_step p q -> outbox_inv p -> outbox_inv q.
Proof.
  intros [req s s' err used Hn H|now limits s b b' t used Hdb Hro H] [Hi Hf]; cbn [fst snd] in *.
  - destruct (perform_ok req s s' err Hi) as [P1 _ _ P4]; [by intros; apply Hf, Hn|done|].
    split; [done|]. intros id Hid. cbn in *. apply P4; [|apply Hf]; set_solver.
  - unfold Open in H. destruct (_ || _); [done|].
    pose proof (load_ok s b (default_limits limits) now Hi Hdb Hro) as Hl. rewrite H in Hl.
    destruct Hl as (Hi' & _ & _ & _ & Hf' & _). split; [done|]. cbn. intros id Hid. apply Hf'.
    intros (r & -> & Hr)%list_elem_of_fmap. apply elem_of_recs in Hr; [|apply Hi].
    by eapply (fi_order _ _ (Hf _ Hid)), mo_all; [apply Hi|].
Qed.

Lemma outbox_reachable_inv p q : outbox_init p -> rtc outbox_step p q -> outbox_inv q.
Proof.
  intros H0%outbox_init_inv. induction 1; [done|]. eauto using outbox_step_inv.
Qed.
End Run.

(** ** What the outbox guarantees

    The life cycle of a record, the theorems about the store, an in-memory
    database to evaluate them on, and two concrete runs the code does not
    handle. *)

(** ** Life cycle of a record *)

(** What no operation changes: everything but delivery state and assignment. *)
Definition envelope (r : Rec) : Rec :=
  r <| r_State := StateNone |> <| r_Attempts := 0 |> <| r_LastError := ""%string |>
    <| r_Epoch := 0 |> <| r_Broker := ""%string |> <| r_BrokerEndpoint := ""%string |>
    <| r_Destination := ""%string |> <| r_UpdatedAt := 0 |>.

(** The broker, epoch and destination of a record and its attempt count. *)
Definition attempt (r : Rec) : Z * string * string * string * Z :=
  (r_Epoch r, r_Broker r, r_BrokerEndpoint r, r_Destination r, r_Attempts r).

Inductive moved (r r' : Rec) : Prop :=
| mv_stay : r_State r' = r_State r -> attempt r' = attempt r -> moved r r'
| mv_assign :
    r_State r ∈ [StateUnassigned; StateReady] -> r_State r' = StateReady ->
    r_Attempts r' = r_Attempts r -> moved r r'
| mv_begin :
    r_State r = StateReady -> r_State r' = StateInEventsA ->
    attempt r' = attempt (r <| r_Attempts := u64 (r_Attempts r + 1) |>) -> moved r r'
| mv_return :
    r_State r = StateInEventsA -> r_State r' ∈ [StateReady; StateAckUncertain] ->
    attempt r' = attempt r -> moved r r'
| mv_retry :
    r_State r = StateAckUncertain -> r_State r' = StateReady -> attempt r' = attempt r ->
    moved r r'.

(** The record's successor after a change. *)
Definition succeeds (r r' : Rec) : Prop := envelope r' = envelope r /\ moved r r'.

Lemma succeeds_refl r : succeeds r r.
Proof. split; [done|by apply mv_stay]. Qed.

Definition mutation_moves (mutate : string -> Rec -> result Rec) : Prop :=
  forall now id r r', mutate id r = Ok r' -> succeeds r (touch now r').

Lemma begin_moves : mutation_moves begin_attempt.
Proof.
  intros now id r r'. unfold begin_attempt. case_bool_decide as E; [|done]. intros [= <-].
  split; [done|]. by apply mv_begin.
Qed.
Lemma leave_moves next msg reasons :
  next ∈ [StateReady; StateAckUncertain] -> mutation_moves (leave_attempt next msg reasons).
Proof.
  intros Hn now id r r'. unfold leave_attempt. case_bool_decide as E; [|done]. intros [= <-].
  split; [done|]. by apply mv_return.
Qed.
Lemma retry_moves : mutation_moves retry.
Proof.
  intros now id r r'. unfold retry. case_bool_decide as E; [|done]. intros [= <-].
  split; [done|]. by apply mv_retry.
Qed.
Lemma assign_moves assignments : mutation_moves (assign assignments).
Proof.
  intros now id r r'. unfold assign. destruct (_ || _); [done|].
  destruct (_ && _); [intros [= <-]; split; [done|by apply mv_stay]|].
  destruct (negb _ && _) eqn:Es; [done|]. intros [= <-]. split; [done|].
  apply mv_assign; [|done..]. repeat case_bool_decide; try done; rewrite !elem_of_cons; auto.
Qed.

(** The completion that removes a record. *)
Definition acknowledged_by (c : change) (r : Rec) : Prop :=
  exists now cs k, c = Settle now cs /\ k ∈ cs /\ co_EventID k = r_EventID r /\
    co_Outcome k = CompletionAcknowledged /\ co_Attempts k = r_Attempts r /\
    co_Epoch k = r_Epoch r /\ r_State r ∈ [StateInEventsA; StateAckUncertain].

Definition change_moves (c : change) : Prop :=
  match c with Edit _ _ mutate => mutation_moves mutate | _ => True end.

Lemma change_of_moves req : change_moves (change_of req).
Proof.
  destruct req; cbn; auto using assign_moves, begin_moves, retry_moves;
    apply leave_moves; set_solver.
Qed.

Lemma apply_change_moves c q r :
  change_moves c -> r ∈ fst q ->
  (exists r', r' ∈ fst (apply_change c q) /\ succeeds r r') \/ acknowledged_by c r.
Proof.
  intros Hc Hr. destruct c as [now input|now ids mutate|now cs]; cbn in *.
  - left. exists r. split; [apply elem_of_app; by left|apply succeeds_refl].
  - left. eexists. split; [by apply list_elem_of_fmap_2|]. cbn. case_decide; [|apply succeeds_refl].
    unfold edited. destruct (mutate _ r) as [r'|] eqn:E; [by eapply Hc|apply succeeds_refl].
  - destruct (completed now cs r) as [r'|] eqn:E.
    + left. exists r'. split; [apply list_elem_of_omap; by exists r|]. unfold completed in E.
      destruct (list_find _ cs) as [[i c]|]; [|injection E as <-; apply succeeds_refl].
      destruct (verdict now c r) as [[u|]|] eqn:Ev; [|done|injection E as <-; apply succeeds_refl].
      injection E as <-. apply verdict_settled in Ev as (Hs & next & Hn & ->).
      split; [done|]. by apply mv_return.
    + right. unfold completed in E. destruct (list_find _ cs) as [[i c]|] eqn:Ef; [|done].
      apply list_find_Some in Ef as (Hi & Ei & _). apply list_elem_of_lookup_2 in Hi.
      destruct (verdict now c r) as [[u|]|] eqn:Ev; try done.
      apply verdict_removed in Ev as (Ho & Ha & He & Hs). by exists now, cs, c.
Qed.

(** ** A database in memory, to run the store on *)
#[export, refine] Instance mem_bolt : Bolt (option Buckets) := {
  contents b := b;
  Update tx b := match tx b with Ok b' => (b', nil_err) | Err e => (b, Err e) end;
}.
Proof.
  - intros tx b b'. by destruct (tx b); intros [= ->].
  - intros tx b b' e. by destruct (tx b); intros [= -> _].
Defined.

Section Theorems.
Context {B : Type} `{!Bolt B}.
Implicit Types s t : Store B.

(** Every reachable outbox (opened new, then any sequence of requests with
    identifiers that were not used before, and restarts) satisfies [sinv]: the
    index agrees with the records, every record is a valid stored record, the
    sequences are increasing and below the next one, count and bytes are exact
    and within the limits, and the database holds exactly the records. *)
Theorem outbox_invariant (p q : Store B * gset string) :
  outbox_init p -> rtc outbox_step p q -> sinv (fst q).
Proof. intros H1 H2. by destruct (outbox_reachable_inv p q H1 H2). Qed.

(** C6: Every public operation of a store, given event IDs for new records that
    the store does not list any more, refines its specification on the queue of
    records: when it reports success the queue is what the
    specification says, and when it reports an error (full, duplicate, not
    found, wrong state, stale attempt, closed, database failure) the queue is
    as before; the invariant is kept in both cases. *)
Theorem perform_refines req s s' err :
  sinv s -> (forall id, id ∈ new_ids req -> fresh_id s id) -> perform req s = (s', err) ->
  sinv s' /\
  queue_of s' = if is_ok err then apply_change (change_of req) (queue_of s) else queue_of s.
Proof. intros Hi Hf H. by destruct (perform_ok req s s' err Hi Hf H). Qed.

(** C7: No accepted record is lost or altered.  A step is an operation whose new
    records have event IDs that were not used before, or a restart with a
    database that holds UTF-8 text and fits the limits.  After any step of a
    reachable outbox a record either is still there with the same
    envelope (payload, topic, keys, sequence, size) and has made one move of
    its life cycle, or the step was a completion that acknowledged its current
    attempt under its current epoch. *)
Theorem record_lifecycle (p q : Store B * gset string) r :
  outbox_inv p -> outbox_step p q -> r ∈ recs (fst p) ->
  (exists r', r' ∈ recs (fst q) /\ succeeds r r') \/
  exists req s' err, perform req (fst p) = (s', err) /\ fst q = s' /\
    acknowledged_by (change_of req) r.
Proof.
  intros [Hi Hf] Hstep Hr.
  destruct Hstep as [req s s' err used Hn H|now limits s b b' t used Hdb Hro H]; cbn [fst snd] in *.
  - destruct (perform_ok req s s' err Hi) as [_ Hq _ _]; [by intros; apply Hf, Hn|done|].
    destruct (is_ok err).
    + destruct (apply_change_moves _ (queue_of s) r (change_of_moves req) Hr) as [(r' & Hr' & Hs)|Ha].
      * left. exists r'. split; [|done]. by rewrite <- Hq in Hr'.
      * right. by exists req, s', err.
    + left. exists r. split; [|apply succeeds_refl]. injection Hq as -> _. done.
  - unfold Open in H. destruct (_ || _); [done|].
    pose proof (load_ok s b (default_limits limits) now Hi Hdb Hro) as Hl. rewrite H in Hl.
    destruct Hl as (_ & Hrecs & _). left. exists (recovered now r).
    split; [rewrite Hrecs; by apply list_elem_of_fmap_2|]. unfold recovered.
    case_bool_decide; [|apply succeeds_refl]. split; [done|]. apply mv_return; [done| |done].
    cbn. set_solver.
Qed.

(** C8: [EligibleFor] returns exactly what a scan of the records in sequence
    order gives: the oldest record of each ordering key, if it is ready,
    greedily filtered by the epochs and the free broker slots, at most [limit]
    of them. *)
Theorem EligibleFor_reference limit epochs slots s :
  sinv s -> is_open s = true ->
  EligibleFor limit epochs slots s = eligible_spec limit epochs slots (recs s).
Proof. intros Hi. apply EligibleFor_ok, Hi. Qed.

(** C9: [Open] on the database of a store (after a crash or a close) succeeds
    when the database commits its transaction, the limits hold the records and
    these are valid UTF-8 with times JSON can write; it brings back every record
    in order, those whose publication was under way as uncertain, with the same
    next sequence.  When the database fails, its contents are left as they were. *)
Theorem Open_roundtrip s b limits now :
  sinv s -> st_db s = Some b -> 0 <= MaxMessages limits -> 0 <= MaxBytes limits ->
  reopenable s (default_limits limits) now ->
  (commits b -> exists b' t, Open false now limits b = (b', Ok t)) /\
  (forall b' t, Open false now limits b = (b', Ok t) ->
     sinv t /\ st_db t = Some b' /\ Records t = recovered now <$> recs s /\ st_nextSeq t = st_nextSeq s) /\
  (forall b' e, Open false now limits b = (b', Err e) -> contents b' = contents b).
Proof.
  intros Hi Hdb H1 H2 Hro. unfold Open.
  rewrite (proj2 (Z.ltb_ge _ 0)), (proj2 (Z.ltb_ge _ 0)) by lia. cbn [orb].
  pose proof (load_ok s b (default_limits limits) now Hi Hdb Hro) as Hl.
  destruct (load false now (default_limits limits) b) as [b' [t|e]].
  - destruct Hl as (Hi' & Hr & _ & Hn & _ & Hd). split_and!; [by exists b', t| |done].
    intros b1 t1 [= <- <-]. split_and!; [done|done| |done]. unfold Records, is_open. by rewrite Hd.
  - destruct Hl as [Hc Hn]. split_and!; [done|done|]. by intros b1 e1 [= <- <-].
Qed.

(** A closed store refuses every operation with [ErrClosed] and stays as it
    is, and its reads return nothing. *)
Lemma closed_rejects req s :
  exists e, perform req (Close s) = (Close s, Err e) /\ errors_Is e ErrClosed = true /\
    Records (Close s) = [] /\ Unassigned (Close s) = [] /\
    (forall limit epochs slots, EligibleFor limit epochs slots (Close s) = []) /\
    (forall id, Get id (Close s) = Err (ErrWrap "get" ErrClosed)).
Proof.
  assert (Hr : Records (Close s) = [] /\ Unassigned (Close s) = [] /\
    (forall limit epochs slots, EligibleFor limit epochs slots (Close s) = []) /\
    (forall id, Get id (Close s) = Err (ErrWrap "get" ErrClosed))).
  { split_and!; try done. intros. unfold EligibleFor. case_match; [done|]. by rewrite orb_true_r. }
  destruct req; eexists; (split; [reflexivity|split; [reflexivity|exact Hr]]).
Qed.

(** ** Acceptance succeeds *)

Record acceptable s (now : Time) (input : list Rec) : Prop := {
  ac_nonempty : input <> [];
  ac_valid : forall o, o ∈ input -> validateNewRecord o = nil_err;
  ac_new : forall o, o ∈ input -> st_records s !! r_EventID o = None;
  ac_distinct : NoDup (r_EventID <$> input);
  ac_messages : Z.of_nat (size (st_records s)) + Z.of_nat (length input) <= MaxMessages (st_limits s);
  ac_sequences : st_nextSeq s + Z.of_nat (length input) <= max_u64;
  ac_room : st_bytes s + total_bytes (stamp now (st_nextSeq s) input) <= MaxBytes (st_limits s);
  ac_clock : json_time_ok now = true;
}.
#[local] Opaque acceptedSize accepted_record validateNewRecord u64.

Lemma accept_loop_total operation s now input :
  sinv s -> acceptable s now input ->
  exists st, fold_result (accept_one operation s now) (mkAccepting ∅ [] 0) input = Ok st.
Proof.
  intros Hi [_ Hv Hnew Hnd _ Hseq Hroom _].
  destruct (fold_result_total (accept_one operation s now) (fun pre st =>
    ac_accepted st = stamp now (st_nextSeq s) pre /\ ac_bytes st = total_bytes (ac_accepted st) /\
    forall id, id ∈ ac_seen st <-> id ∈ r_EventID <$> pre) (mkAccepting ∅ [] 0) input)
    as (st & H & _); [split_and!; [done..|set_solver]| |by exists st].
  intros pre o post st E (Ha & Hb & Hs). assert (Ho : o ∈ input) by (rewrite E; set_solver).
  rewrite E, fmap_app in Hnd. apply NoDup_app in Hnd as (_ & Hd & _).
  unfold accept_one. rewrite (Hv o Ho), (Hnew o Ho). cbn [wrap_err].
  rewrite bool_decide_eq_false_2 by by intros []. cbn [fail_if].
  rewrite bool_decide_eq_false_2 by (rewrite Hs; intros Hin; apply (Hd _ Hin); left). cbn [fail_if].
  assert (Hlen : (length pre < length input)%nat) by (rewrite E, length_app; cbn; lia).
  rewrite Ha, stamp_length, u64_id by (pose proof (sv_next _ Hi); unfold in_u64; lia).
  assert (Hfit : ac_bytes st + r_SizeBytes (accepted_record now (st_nextSeq s + Z.of_nat (length pre)) o)
    <= MaxBytes (st_limits s) - st_bytes s).
  { rewrite Hb, Ha. rewrite E in Hroom. change (o :: post) with ([o] ++ post) in Hroom.
    rewrite app_assoc, stamp_app, stamp_snoc, !total_app, total_cons in Hroom.
    pose proof (stamp_total now (st_nextSeq s + Z.of_nat (length (pre ++ [o]))) post).
    unfold total_bytes at 2 in Hroom. cbn in Hroom. lia. }
  rewrite (proj2 (Z.ltb_ge _ _)) by lia. cbn [fail_if]. eexists. split; [done|].
  cbn [ac_accepted ac_bytes ac_seen]. split_and!.
  - by rewrite stamp_snoc.
  - rewrite total_app, <- Ha, <- Hb. unfold total_bytes. cbn. lia.
  - intros id. rewrite elem_of_union, Hs, fmap_app. set_solver.
Qed.

Lemma encode_stamped now n input :
  json_time_ok now = true -> encode_all (stamp now n input) = Ok (with_json <$> stamp now n input).
Proof.
  intros Hn. destruct (fold_result_total (fun acc r => let! e := Outbox.encode r in Ok (acc ++ [(r, e)]))
    (fun pre ps => ps = with_json <$> pre) [] (stamp now n input)) as (ps & H & ->);
    [done| |exact H].
  intros pre x post ps E ->. exists (with_json <$> (pre ++ [x])). split; [|done].
  assert (Hx : x ∈ stamp now n input) by (rewrite E; set_solver).
  apply stamp_elem in Hx as (i & o & _ & -> & _). unfold Outbox.encode.
  rewrite accepted_times, Hn. cbn. by rewrite fmap_app.
Qed.

(** A batch of valid records with new, distinct identifiers that fits the
    limits is accepted whenever the database commits, and the records returned
    are the input stamped with the next sequences. *)
Theorem AcceptBatch_succeeds s b now input :
  sinv s -> st_db s = Some b -> commits b -> acceptable s now input ->
  exists s', AcceptBatch now input s = (s', Ok (stamp now (st_nextSeq s) input)).
Proof.
  intros Hi Hdb Hc Ha. unfold AcceptBatch, acceptMany.
  destruct (accept_loop_total "accept batch" s now input Hi Ha) as ([seen acc bytes] & Hl).
  pose proof Ha as [Hne _ _ _ Hmsg Hseq _ Hnow].
  assert (Ho : is_open s = true) by (unfold is_open; rewrite Hdb; by apply bool_decide_eq_true).
  rewrite Ho, bool_decide_eq_false_2 by done. cbn [negb].
  rewrite (proj2 (Z.ltb_ge _ _)), (proj2 (Z.ltb_ge _ _)) by lia. rewrite Hl.
  apply accept_loop_ok in Hl as [Hacc _ _ _ _ _ _]; [|done..]. cbn in Hacc. subst acc.
  rewrite (encode_stamped now _ input Hnow). unfold transact. rewrite Hdb.
  destruct (sv_db _ Hi b Hdb) as (bk & Hbk & _). destruct (Update _ b) as [b' err] eqn:Eu.
  assert (E : err = nil_err); [|subst err; by eexists].
  match type of Eu with Update ?tx _ = _ => pose proof (Hc tx) as Htx end.
  rewrite Hbk in Htx. specialize (Htx _ eq_refl). by rewrite Eu in Htx.
Qed.
End Theorems.
