(* ===== verification/OutboxScenario.v ===== *)
(** * A concrete outbox

    An in-memory database, two records of one ordering key and one of another,
    and the instances of the outbox theorems on them. *)

From S2P Require Import Prelude Heap Outbox OutboxIndex OutboxMemory OutboxStore OutboxComplete.
From S2P Require Import OutboxLoad OutboxTheorems.
From Stdlib Require Import ZArith Lia.
From stdpp Require Import base gmap strings sorting numbers relations option list.
#[local] Open Scope Z_scope.

Abbreviation Disk := (option Buckets).

Definition event (id key : string) : Rec :=
  zero_rec <| r_EventID := id |> <| r_Topic := "orders"%string |> <| r_OrderingKey := key |>
    <| r_Group := "g"%string |> <| r_Hash := "h"%string |> <| r_HashContract := "c"%string |>
    <| r_LibraryVersion := "v1"%string |>.

Definition target : Assignment := mkAssignment 1 "broker-1" "tcp://b1" "orders/1".
Definition opened : Store Disk :=
  match snd (Open true 1 (mkLimits 0 0) (None : Disk)) with
  | Ok t => t
  | Err _ => mkStore (mkLimits 0 0) None ∅ [] ∅ [] 0 0 0 0 0
  end.

Definition play (reqs : list request) (s : Store Disk) : Store Disk :=
  foldl (fun s req => fst (perform req s)) s reqs.

Definition batch : list Rec := [event "a" "k"; event "b" "k"; event "c" "l"].
Definition setup : list request :=
  [RAcceptBatch 2 batch;
   RAssignBatch 3 [mkAssignmentUpdate "a" target; mkAssignmentUpdate "b" target;
                   mkAssignmentUpdate "c" target];
   RMarkInEventsA 4 "c"].
Definition running : Store Disk := play setup opened.

(** ** Reachability of the concrete stores *)
Lemma opened_init : outbox_init (opened, ∅).
Proof. split; [done|]. exists 1, (mkLimits 0 0), None. eexists. vm_compute. reflexivity. Qed.

Lemma opened_inv : outbox_inv (opened, ∅).
Proof. apply outbox_init_inv, opened_init. Qed.

(** The identifiers of a list of requests are new and distinct. *)
Fixpoint all_new (used : gset string) (reqs : list request) : bool :=
  match reqs with
  | [] => true
  | req :: rest =>
      forallb (fun id => bool_decide (id ∉ used)) (new_ids req) &&
      all_new (list_to_set (new_ids req) ∪ used) rest
  end.
Definition names (reqs : list request) (used : gset string) : gset string :=
  foldl (fun used req => list_to_set (new_ids req) ∪ used) used reqs.

Lemma play_steps (reqs : list request) : forall (s : Store Disk) used,
  all_new used reqs = true -> rtc outbox_step (s, used) (play reqs s, names reqs used).
Proof.
  induction reqs as [|req reqs IH]; intros s used H; cbn in *; [done|].
  apply andb_true_iff in H as [H1 H2]. eapply rtc_l; [|by apply IH].
  apply (os_request req s (fst (perform req s)) (snd (perform req s))); [|by destruct (perform req s)].
  intros id Hid. rewrite forallb_forall in H1. apply list_elem_of_In, H1 in Hid.
  by apply bool_decide_eq_true in Hid.
Qed.

Lemma running_steps : rtc outbox_step (opened, ∅) (running, names setup ∅).
Proof. apply play_steps. vm_compute. reflexivity. Qed.

Lemma running_inv : outbox_inv (running, names setup ∅).
Proof. exact (outbox_reachable_inv _ _ opened_init running_steps). Qed.

Lemma inv_store {B} `{!Bolt B} (s : Store B) used : outbox_inv (s, used) -> sinv s.
Proof. by intros []. Qed.
Definition running_sinv : sinv running := inv_store running _ running_inv.
Definition opened_sinv : sinv opened := inv_store opened _ opened_inv.

Lemma pair_snd {A C} (p : A * C) y : snd p = y -> p = (fst p, y).
Proof. destruct p. by intros <-. Qed.

(** ** Witnesses *)
Lemma outbox_invariant_witness :
  sinv (fst (running, names setup ∅)) /\ length (Records running) = 3%nat.
Proof.
  split; [|vm_compute; reflexivity].
  exact (outbox_invariant (opened, ∅) (running, names setup ∅) opened_init running_steps).
Defined.

(** The uncertain record [c] is acknowledged and leaves. *)
Definition ack_c : request := RAck 5 "c" 1 1.
Lemma ack_c_succeeds : snd (perform ack_c running) = nil_err.
Proof. vm_compute. reflexivity. Qed.
Lemma perform_refines_witness :
  let s' := fst (perform ack_c running) in
  (sinv s' /\ queue_of s' = if is_ok nil_err then apply_change (change_of ack_c) (queue_of running)
                            else queue_of running) /\
  length (Records s') = 2%nat.
Proof.
  intros s'. split; [|vm_compute; reflexivity].
  refine (perform_refines ack_c running s' nil_err running_sinv _ (pair_snd _ _ ack_c_succeeds)).
  intros id Hid. by apply elem_of_nil in Hid.
Defined.

Definition record_c : Rec := default zero_rec (st_records running !! "c"%string).
Lemma record_lifecycle_witness :
  let p := (running, names setup ∅) in
  let q := (fst (perform ack_c running), list_to_set (new_ids ack_c) ∪ names setup ∅) in
  (exists r', r' ∈ recs (fst q) /\ succeeds record_c r') \/
  exists req s' err, perform req (fst p) = (s', err) /\ fst q = s' /\
    acknowledged_by (change_of req) record_c.
Proof.
  intros p q. apply (record_lifecycle p q record_c).
  - exact running_inv.
  - apply (os_request ack_c running _ (snd (perform ack_c running))).
    + intros id Hid. by apply elem_of_nil in Hid.
    + exact (pair_snd _ _ eq_refl).
  - apply (proj2 (elem_of_recs running record_c (sv_mem _ running_sinv))). vm_compute. reflexivity.
Defined.

Lemma EligibleFor_reference_witness :
  EligibleFor 10 None None running = eligible_spec 10 None None (recs running) /\
  r_EventID <$> EligibleFor 10 None None running = ["a"%string].
Proof.
  split; [|vm_compute; reflexivity].
  apply (EligibleFor_reference 10 None None running running_sinv). vm_compute. reflexivity.
Defined.

Definition disk_of (s : Store Disk) : Disk := default None (st_db s).
Definition reopened : Store Disk :=
  match snd (Open false 9 (mkLimits 0 0) (disk_of running)) with Ok t => t | Err _ => opened end.
Lemma reopened_eq : Open false 9 (mkLimits 0 0) (disk_of running) = (disk_of reopened, Ok reopened).
Proof. vm_compute. reflexivity. Qed.
Lemma forallb_elem {A} (f : A -> bool) (l : list A) :
  forallb f l = true -> forall x, x ∈ l -> f x = true.
Proof. rewrite forallb_forall. intros H x Hx. by apply H, list_elem_of_In. Qed.
Lemma running_reopenable : reopenable running (default_limits (mkLimits 0 0)) 9.
Proof.
  split; [apply forallb_elem|..]; vm_compute; done.
Qed.
(** The demonstration database never fails. *)
Lemma Disk_commits (d : Disk) : commits d.
Proof. intros tx c H. cbn. cbn in H. by rewrite H. Qed.

Lemma Open_roundtrip_witness :
  ((exists b' t, Open false 9 (mkLimits 0 0) (disk_of running) = (b', Ok t)) /\
   sinv reopened /\ st_db reopened = Some (disk_of reopened) /\
   Records reopened = recovered 9 <$> recs running /\ st_nextSeq reopened = st_nextSeq running) /\
  r_State <$> Records reopened = [StateReady; StateReady; StateAckUncertain].
Proof.
  split; [|vm_compute; reflexivity].
  assert (Hdb : st_db running = Some (disk_of running)) by (vm_compute; reflexivity).
  destruct (Open_roundtrip running (disk_of running) (mkLimits 0 0) 9 running_sinv Hdb
    (Z.le_refl 0) (Z.le_refl 0) running_reopenable) as (H1 & H2 & _).
  split; [exact (H1 (Disk_commits _))|].
  exact (H2 _ _ reopened_eq).
Defined.

Lemma AcceptBatch_succeeds_witness :
  exists s', AcceptBatch 2 batch opened = (s', Ok (stamp 2 (st_nextSeq opened) batch)).
Proof.
  apply (AcceptBatch_succeeds opened (disk_of opened) 2 batch).
  - exact opened_sinv.
  - vm_compute. reflexivity.
  - apply Disk_commits.
  - split; [done| | | |by vm_compute..].
    + refine (fun o Ho => proj1 (bool_decide_eq_true _) (forallb_elem (fun o =>
        bool_decide (validateNewRecord o = nil_err)) batch _ o Ho)). vm_compute. reflexivity.
    + refine (fun o Ho => proj1 (bool_decide_eq_true _) (forallb_elem (fun o =>
        bool_decide (st_records opened !! r_EventID o = None)) batch _ o Ho)). vm_compute. reflexivity.
    + apply (bool_decide_unpack (NoDup (r_EventID <$> batch))). by vm_compute.
Defined.

(** ** What the store does not handle *)

(** An event identifier that is used again after its first record was
    acknowledged is accepted, and the store then reports the one record twice
    in [Records] and in [Unassigned]. *)
Theorem event_id_reuse_duplicates :
  let again := play [RAccept 2 (event "a" "k"); RAssign 3 "a" target; RMarkInEventsA 4 "a";
                     RAck 5 "a" 1 1; RAccept 6 (event "a" "k")] opened in
  r_EventID <$> Records again = ["a"%string; "a"%string] /\
  r_EventID <$> Unassigned again = ["a"%string; "a"%string] /\ Messages (store_Stats again) = 1.
Proof. vm_compute. done. Qed.

(** A record whose event identifier is not valid UTF-8 is accepted, and the
    outbox then cannot be opened again. *)
Theorem invalid_utf8_blocks_reopen :
  let bad := event (string_of_bytes [255]) "k" in
  let '(s, out) := Accept 2 bad opened in
  is_ok out = true /\ is_ok (snd (Open false 9 (mkLimits 0 0) (disk_of s))) = false.
Proof. vm_compute. done. Qed.
