(* ===== verification/Publisher.v ===== *)
(** * The publisher shim (shim/publisher/publisher.go, fail_closed.go)

    A [Publisher] is the durable outbox, the installed memberships and the
    placement cache.  [ApplyMembership], [FailClosed] and [RetryAckUncertain]
    hold the publisher's lock, [AcceptBatch] its read lock, so each is one
    function on the state.  [Dispatch] gives the lock up between records: an
    [Env] answers its broker and context calls and runs other goroutines where
    the code holds no lock ([others]) or only the read lock ([readers]). *)

From S2P Require Import Prelude Customer Routing Snapshot Outbox.
From Stdlib Require Import ZArith Lia String.
From stdpp Require Import base gmap strings numbers option list.
#[local] Open Scope Z_scope.

Definition PropertyEventID : string := "swlb.event_id".
Definition PropertyScalingGroup : string := "swlb.group".
Definition PropertyBusinessHash : string := "swlb.business_hash".
Definition PropertyHashContract : string := "swlb.hash_contract".
Definition PropertyLibraryVersion : string := "swlb.library_version".
Definition PropertyEpoch : string := "swlb.routing_epoch".
Definition PropertyQueuePartition : string := "JMSXGroupID".

Definition ErrNoValidMembership := ErrNew "publisher has no valid membership for scaling group".
Definition ErrStaleMembership := ErrNew "publisher membership revision is not newer".
Definition ErrInvalidConfig := ErrNew "invalid publisher configuration".
Definition ErrPublishRejected := ErrNew "broker definitively rejected publish".
Definition ErrPublishRetryable := ErrNew "retryable immediate publish failure".
Definition ErrAckUncertain :=
  ErrNew "broker ACK is uncertain; record retained and retry may duplicate".
Definition ErrReservedProperty :=
  ErrNew "publisher: application header uses reserved routing name".

(** [error.Error()]: the text kept of an error. *)
Fixpoint error_Error (e : gerror) : string :=
  match e with
  | ErrNew msg => msg
  | ErrWrap msg inner => (msg +:+ ": " +:+ error_Error inner)%string
  end.

(** [strings.TrimSuffix]. *)
Definition strings_TrimSuffix (s suffix : string) : string :=
  let n := String.length s in
  let k := String.length suffix in
  if (k <=? n)%nat && str_eqb (String.substring (n - k) k s) suffix
  then String.substring 0 (n - k) s else s.

(** [strconv.FormatUint(x, 10)]. *)
Fixpoint decimal_digits (fuel : nat) (x : Z) (acc : string) : string :=
  match fuel with
  | O => acc
  | S fuel =>
      let acc := String (Ascii.ascii_of_N (Z.to_N (48 + x mod 10))) acc in
      if x / 10 =? 0 then acc else decimal_digits fuel (x / 10) acc
  end.
Definition FormatUint (x : Z) : string := decimal_digits 20 x "".

(** ** Data *)
Inductive PublishOutcome : Type :=
| OutcomeUnknown | OutcomeAcknowledged | OutcomeRejected | OutcomeOther (n : Z).

#[export] Instance PublishOutcome_eq_dec : EqDecision PublishOutcome.
Proof. solve_decision. Defined.

Record BrokerMessage := mkBrokerMessage {
  bm_EventID : string;
  bm_Payload : list Z;
  bm_Topic : string;
  bm_Properties : gmap string string;
  bm_Destination : string;
  bm_BrokerEndpoint : string;
  bm_Epoch : Z;
}.

Record Contract := mkContract { ct_HashContract : string; ct_LibraryVersion : string }.

Record Receipt := mkReceipt {
  rt_EventID : string;
  rt_State : State;
  rt_Group : string;
  rt_Hash : string;
  rt_Epoch : Z;
  rt_Broker : string;
}.

Record DispatchReport := mkDispatchReport {
  dr_Attempted : Z;
  dr_Acknowledged : Z;
  dr_Rejected : Z;
  dr_Uncertain : Z;
}.

#[export] Instance eta_DispatchReport : Eta DispatchReport := fun r =>
  mkDispatchReport (dr_Attempted r) (dr_Acknowledged r) (dr_Rejected r) (dr_Uncertain r).

(** [placementCacheKey]: group, hash and revision. *)
Abbreviation placementCacheKey := (string * string * Z)%type.

Record Publisher (B : Type) := mkPublisher {
  p_outbox : Store B;
  p_contracts : gmap string Contract;
  p_membership : gmap string MembershipSnapshot;
  p_placementCache : gmap placementCacheKey Assignment;
  p_placementOrder : list placementCacheKey;
  p_placementLimit : Z;
}.
Arguments mkPublisher {B}.
Arguments p_outbox {B}.
Arguments p_contracts {B}.
Arguments p_membership {B}.
Arguments p_placementCache {B}.
Arguments p_placementOrder {B}.
Arguments p_placementLimit {B}.

#[export] Instance eta_Publisher {B} : Eta (Publisher B) := fun p =>
  mkPublisher (p_outbox p) (p_contracts p) (p_membership p) (p_placementCache p)
    (p_placementOrder p) (p_placementLimit p).

(** [Config]: nil interfaces and pointers are [None]; the broker itself is part
    of the environment of [Dispatch]. *)
Record Config (B P : Type) := mkConfig {
  cf_Outbox : option (Store B);
  cf_CustomerLibrary : option (CustomerLibrary P);
  cf_Broker : bool;
  cf_Contracts : gmap string Contract;
  cf_ScalingGroup : string;
  cf_HashContract : string;
  cf_LibraryVersion : string;
}.
Arguments cf_Outbox {B P}.
Arguments cf_CustomerLibrary {B P}.
Arguments cf_Broker {B P}.
Arguments cf_Contracts {B P}.
Arguments cf_ScalingGroup {B P}.
Arguments cf_HashContract {B P}.
Arguments cf_LibraryVersion {B P}.

Definition errorText (err : option gerror) (fallback : gerror) : string :=
  match err with
  | Some e => error_Error e
  | None => error_Error fallback
  end.

(** [errors.Join]: [nil] when every error is; the first stands for the rest. *)
Definition errors_Join (errs : list gerror) : gerr :=
  match errs with
  | [] => nil_err
  | e :: _ => Err e
  end.

Definition receiptFor (r : Rec) : Receipt :=
  mkReceipt (r_EventID r) (r_State r) (r_Group r) (r_Hash r) (r_Epoch r) (r_Broker r).

Definition brokerMessage (r : Rec) : BrokerMessage :=
  let properties :=
    <[PropertyEpoch := FormatUint (r_Epoch r)]>
    (<[PropertyLibraryVersion := r_LibraryVersion r]>
    (<[PropertyHashContract := r_HashContract r]>
    (<[PropertyBusinessHash := r_Hash r]>
    (<[PropertyScalingGroup := r_Group r]>
    (<[PropertyEventID := r_EventID r]> (r_Properties r)))))) in
  mkBrokerMessage (r_EventID r) (r_Payload r) (r_Topic r) properties (r_Destination r)
    (r_BrokerEndpoint r) (r_Epoch r).

(** A phase under which records may be routed and published. *)
Definition routable (phase : CtlPhase) : bool :=
  bool_decide (phase = CActive) || bool_decide (phase = CPrepare).

Section Routing.
Context {P : Type} (library : CustomerLibrary P).

(** The loop over [CurrentResources]. *)
Fixpoint resource_loop (broker : string) (matched : bool) (destination : string)
    (resources : list EpochResourceIdentity) : result (bool * string) :=
  match resources with
  | [] => Ok (matched, destination)
  | identity :: rest =>
      if negb (str_eqb (er_BrokerID identity) broker)
      then resource_loop broker matched destination rest else
      if matched then Err (ErrNew "routing resources contain duplicate broker") else
      resource_loop broker true
        (strings_TrimSuffix (er_IngressTopic identity) ">" +:+ "events")%string rest
  end.

(** The function [assignmentFor]. *)
Definition route (hashString : string) (snapshot : MembershipSnapshot) : result Assignment :=
  let! digest := ParseBusinessHash hashString in
  let! policy := RoutingPolicy library in
  let! broker := RendezvousBroker (Some policy) (ms_ScalingGroup snapshot) digest
    (ms_CurrentMembership snapshot) in
  let! destination :=
    if bool_decide (ms_CurrentResources snapshot = []) then Ok (d_Name (ms_Destination snapshot))
    else
      let! out := resource_loop broker false (d_Name (ms_Destination snapshot))
        (ms_CurrentResources snapshot) in
      if negb (fst out) then Err (ErrNew "routing resources do not contain selected broker")
      else Ok (snd out) in
  match BrokerEndpoint snapshot broker false with
  | None => Err (ErrNew "routing snapshot has no endpoint for broker")
  | Some endpoint => Ok (mkAssignment (ms_Epoch snapshot) broker endpoint destination)
  end.

Section Operations.
Context {B : Type} `{!Bolt B} {net_url : NetURL} (encode_payload : P -> result (list Z)).

(** The method [assignmentFor]: through the placement cache. *)
Definition assignmentFor (p : Publisher B) (hashString : string) (snapshot : MembershipSnapshot)
    : Publisher B * result Assignment :=
  let key := (ms_ScalingGroup snapshot, hashString, ms_Revision snapshot) in
  match p_placementCache p !! key with
  | Some assignment => (p, Ok assignment)
  | None =>
      match route hashString snapshot with
      | Err e => (p, Err e)
      | Ok assignment =>
          let p :=
            match p_placementOrder p with
            | oldest :: rest =>
                if p_placementLimit p <=? Z.of_nat (length (p_placementOrder p))
                then p <| p_placementCache := delete oldest (p_placementCache p) |>
                       <| p_placementOrder := rest |>
                else p
            | [] => p
            end in
          (p <| p_placementCache := <[key := assignment]> (p_placementCache p) |>
             <| p_placementOrder := p_placementOrder p ++ [key] |>, Ok assignment)
      end
  end.

(** *** Construction *)
Definition contract_used (contracts : gmap string Contract) (algorithm : string) (r : Rec) : gerr :=
  fail_if (negb (str_eqb (r_RoutingAlgorithm r) algorithm)) (ErrWrap "algorithm" ErrInvalidConfig) ;;!
  match contracts !! r_Group r with
  | Some contract =>
      fail_if (negb (str_eqb (r_HashContract r) (ct_HashContract contract)) ||
               negb (str_eqb (r_LibraryVersion r) (ct_LibraryVersion contract)))
        (ErrWrap "incompatible customer contract" ErrInvalidConfig)
  | None => Err (ErrWrap "incompatible customer contract" ErrInvalidConfig)
  end.

Definition contract_complete (entry : string * Contract) : gerr :=
  fail_if (str_empty (fst entry) || str_empty (ct_HashContract (snd entry)) ||
           str_empty (ct_LibraryVersion (snd entry)))
    (ErrWrap "contract map cannot contain an empty group, hash contract, or library version"
       ErrInvalidConfig).

Definition New (config : Config B P) : result (Publisher B) :=
  match cf_Outbox config, cf_CustomerLibrary config, cf_Broker config with
  | Some outbox, Some library, true =>
      let shorthandConfigured :=
        negb (str_empty (cf_ScalingGroup config)) || negb (str_empty (cf_HashContract config)) ||
        negb (str_empty (cf_LibraryVersion config)) in
      fail_if (shorthandConfigured &&
               (negb (bool_decide (cf_Contracts config = ∅)) || str_empty (cf_ScalingGroup config) ||
                str_empty (cf_HashContract config) || str_empty (cf_LibraryVersion config)))
        (ErrWrap "single-group shorthand" ErrInvalidConfig) ;;!
      let contracts :=
        if shorthandConfigured
        then <[cf_ScalingGroup config :=
                 mkContract (cf_HashContract config) (cf_LibraryVersion config)]> (cf_Contracts config)
        else cf_Contracts config in
      fail_if (bool_decide (contracts = ∅))
        (ErrWrap "at least one group contract is required" ErrInvalidConfig) ;;!
      match RoutingPolicy library with
      | Err _ => Err (ErrWrap "routing policy" ErrInvalidConfig)
      | Ok policy =>
          for_each (contract_used contracts (RoutingAlgorithm policy)) (Records outbox) ;;!
          for_each contract_complete (map_to_list contracts) ;;!
          Ok (mkPublisher outbox contracts ∅ ∅ [] 4096)
      end
  | _, _, _ => Err (ErrWrap "outbox, customer library, and broker are required" ErrInvalidConfig)
  end.

(** *** Membership *)

(** The loop over the buffered records: assignments and errors. *)
Fixpoint assign_loop (contract : Contract) (snapshot : MembershipSnapshot) (p : Publisher B)
    (assignments : list AssignmentUpdate) (errs : list gerror) (records : list Rec)
    : Publisher B * (list AssignmentUpdate * list gerror) :=
  match records with
  | [] => (p, (assignments, errs))
  | record :: rest =>
      if negb (str_eqb (r_Group record) (ms_ScalingGroup snapshot)) ||
         (negb (bool_decide (r_State record = StateUnassigned)) &&
          negb (bool_decide (r_State record = StateReady)))
      then assign_loop contract snapshot p assignments errs rest else
      if negb (str_eqb (r_HashContract record) (ct_HashContract contract)) ||
         negb (str_eqb (r_LibraryVersion record) (ct_LibraryVersion contract)) ||
         negb (str_eqb (r_RoutingAlgorithm record) (ms_Algorithm snapshot))
      then assign_loop contract snapshot p assignments
             (errs ++ [ErrNew "assign buffered event: routing metadata mismatch"]) rest
      else
        match assignmentFor p (r_Hash record) snapshot with
        | (p, Err e) =>
            assign_loop contract snapshot p assignments
              (errs ++ [ErrWrap "assign buffered event" e]) rest
        | (p, Ok assignment) =>
            assign_loop contract snapshot p
              (assignments ++ [mkAssignmentUpdate (r_EventID record) assignment]) errs rest
        end
  end.

(** The checks of [ApplyMembership] against the configured contract. *)
Definition membership_contract (p : Publisher B) (snapshot : MembershipSnapshot) : result Contract :=
  let! policy := wrap_err "apply membership" (RoutingPolicy library) in
  fail_if (negb (str_eqb (ms_Algorithm snapshot) (RoutingAlgorithm policy)))
    (ErrNew "apply membership: routing algorithm does not match customer library algorithm") ;;!
  match p_contracts p !! ms_ScalingGroup snapshot with
  | None => Err (ErrNew "apply membership: hash contract does not match configured contract")
  | Some contract =>
      fail_if (negb (str_eqb (ms_HashContract snapshot) (ct_HashContract contract)))
        (ErrNew "apply membership: hash contract does not match configured contract") ;;!
      fail_if (negb (str_eqb (ms_LibraryVersion snapshot) (ct_LibraryVersion contract)))
        (ErrNew "apply membership: library version does not match configured version") ;;!
      Ok contract
  end.

Definition install (snapshot : MembershipSnapshot) (p : Publisher B) : Publisher B :=
  p <| p_membership := <[ms_ScalingGroup snapshot := snapshot]> (p_membership p) |>.

(** Past the checks: assign what is buffered, then expose the membership. *)
Definition install_membership (now : Time) (contract : Contract) (snapshot : MembershipSnapshot)
    (p : Publisher B) : Publisher B * gerr :=
  if negb (bool_decide (ms_Phase snapshot = CActive)) then (install snapshot p, nil_err) else
  let '(p, (assignments, errs)) :=
    assign_loop contract snapshot p [] [] (Records (p_outbox p)) in
  let '(p, errs) :=
    if bool_decide (errs = []) && negb (bool_decide (assignments = []))
    then
      let '(outbox, err) := AssignBatch now assignments (p_outbox p) in
      (p <| p_outbox := outbox |>, match err with Err e => [e] | Ok _ => [] end)
    else (p, errs) in
  match errors_Join errs with
  | Err e => (p, Err e)
  | Ok _ => (install snapshot p, nil_err)
  end.

Definition ApplyMembership (now : Time) (snapshot : MembershipSnapshot) (p : Publisher B)
    : Publisher B * gerr :=
  match Validate snapshot with
  | Err e => (p, Err (ErrWrap "apply membership" e))
  | Ok _ =>
      match membership_contract p snapshot with
      | Err e => (p, Err e)
      | Ok contract =>
          match p_membership p !! ms_ScalingGroup snapshot with
          | Some current =>
              if ms_Revision snapshot <=? ms_Revision current
              then (p, if (ms_Revision snapshot =? ms_Revision current) &&
                          bool_decide (snapshot = current)
                       then nil_err else Err (ErrWrap "apply membership" ErrStaleMembership))
              else install_membership now contract snapshot p
          | None => install_membership now contract snapshot p
          end
      end
  end.

Definition FailClosed (group : string) (p : Publisher B) : Publisher B * gerr :=
  if str_empty group then (p, Err (ErrNew "publisher: fail-closed group is required"))
  else (p <| p_membership := delete group (p_membership p) |>, nil_err).

(** *** Acceptance *)
Definition reserved_header (entry : string * string) : bool :=
  String.prefix "swlb." (fst entry) || str_eqb (fst entry) PropertyQueuePartition.

(** The unassigned record of a message, before a route is looked up. *)
Definition unrouted (message : MessageView P) (contract : Contract) (snapshot : MembershipSnapshot)
    (group hashString : string) (payload : list Z) : Rec :=
  zero_rec <| r_EventID := mv_EventID message |> <| r_Payload := payload |>
    <| r_Topic := mv_Topic message |> <| r_Properties := mv_Headers message |>
    <| r_OrderingKey := (group +:+ NUL +:+ hashString)%string |> <| r_Group := group |>
    <| r_Hash := hashString |> <| r_HashContract := ct_HashContract contract |>
    <| r_LibraryVersion := ct_LibraryVersion contract |>
    <| r_RoutingAlgorithm := ms_Algorithm snapshot |> <| r_State := StateUnassigned |>.

Definition with_route (a : Assignment) (r : Rec) : Rec :=
  r <| r_State := StateReady |> <| r_Epoch := as_Epoch a |> <| r_Broker := as_Broker a |>
    <| r_BrokerEndpoint := as_BrokerEndpoint a |> <| r_Destination := as_Destination a |>.

(** The part of [recordFor] that reads the publisher only. *)
Definition draft (p : Publisher B) (message : MessageView P) : result (Rec * MembershipSnapshot) :=
  fail_if (str_empty (mv_EventID message) || str_empty (mv_Topic message))
    (ErrNew "accept message: event ID and topic are required") ;;!
  fail_if (existsb reserved_header (map_to_list (mv_Headers message)))
    (ErrWrap "accept" ErrReservedProperty) ;;!
  let! group := wrap_err "accept: get scaling group" (GetScalingGroup library message) in
  fail_if (str_empty group)
    (ErrNew "accept: customer library returned empty scaling group") ;;!
  match p_membership p !! group with
  | None => Err (ErrWrap "accept" ErrNoValidMembership)
  | Some snapshot =>
      match p_contracts p !! group with
      | None => Err (ErrNew "accept: incompatible routing contract")
      | Some contract =>
          fail_if (negb (str_eqb (ms_HashContract snapshot) (ct_HashContract contract)) ||
                   negb (str_eqb (ms_LibraryVersion snapshot) (ct_LibraryVersion contract)))
            (ErrNew "accept: incompatible routing contract") ;;!
          let! hash := wrap_err "accept: get business hash" (GetBusinessHash library message) in
          let! payload := wrap_err "accept: encode payload" (encode_payload (mv_Payload message)) in
          Ok (unrouted message contract snapshot group (hex_EncodeToString hash) payload, snapshot)
      end
  end.

Definition recordFor (p : Publisher B) (message : MessageView P) : Publisher B * result Rec :=
  match draft p message with
  | Err e => (p, Err e)
  | Ok (record, snapshot) =>
      if routable (ms_Phase snapshot)
      then
        match assignmentFor p (r_Hash record) snapshot with
        | (p, Err e) => (p, Err (ErrWrap "accept: assign route" e))
        | (p, Ok assignment) => (p, Ok (with_route assignment record))
        end
      else (p, Ok record)
  end.

Fixpoint records_loop (p : Publisher B) (messages : list (MessageView P))
    : Publisher B * result (list Rec) :=
  match messages with
  | [] => (p, Ok [])
  | message :: rest =>
      match recordFor p message with
      | (p, Err e) => (p, Err (ErrWrap "accept batch record" e))
      | (p, Ok record) =>
          let '(p, out) := records_loop p rest in
          (p, let! records := out in Ok (record :: records))
      end
  end.

Definition AcceptBatch (now : Time) (messages : list (MessageView P)) (p : Publisher B)
    : Publisher B * result (list Receipt) :=
  if bool_decide (messages = []) then (p, Ok []) else
  match records_loop p messages with
  | (p, Err e) => (p, Err e)
  | (p, Ok records) =>
      let '(outbox, out) := Outbox.AcceptBatch now records (p_outbox p) in
      (p <| p_outbox := outbox |>, let! accepted := out in Ok (receiptFor <$> accepted))
  end.

Definition Accept (now : Time) (message : MessageView P) (p : Publisher B)
    : Publisher B * result Receipt :=
  let '(p, out) := AcceptBatch now [message] p in
  (p, let! receipts := out in
      match receipts with
      | receipt :: _ => Ok receipt
      | [] => Err (ErrNew "index out of range")
      end).

(** *** Uncertain and late results *)
Definition RetryAckUncertain (now : Time) (eventID : string) (p : Publisher B) : Publisher B * gerr :=
  match Get eventID (p_outbox p) with
  | Err e => (p, Err e)
  | Ok record =>
      match p_membership p !! r_Group record with
      | None => (p, Err (ErrWrap "retry" ErrNoValidMembership))
      | Some snapshot =>
          if negb (bool_decide (ms_Phase snapshot = CActive))
          then (p, Err (ErrWrap "retry" ErrNoValidMembership)) else
          if negb (str_eqb (r_RoutingAlgorithm record) (ms_Algorithm snapshot))
          then (p, Err (ErrNew "retry: routing algorithm changed")) else
          match assignmentFor p (r_Hash record) snapshot with
          | (p, Err e) => (p, Err e)
          | (p, Ok a) =>
              if negb (as_Epoch a =? r_Epoch record) || negb (str_eqb (as_Broker a) (r_Broker record)) ||
                 negb (str_eqb (as_BrokerEndpoint a) (r_BrokerEndpoint record)) ||
                 negb (str_eqb (as_Destination a) (r_Destination record))
              then (p, Err (ErrNew "retry: current route differs from uncertain route"))
              else
                let '(outbox, err) := Outbox.RetryAckUncertain now eventID (p_outbox p) in
                (p <| p_outbox := outbox |>, err)
          end
      end
  end.

Definition Ack (now : Time) (eventID : string) (attempts epoch : Z) (p : Publisher B)
    : Publisher B * gerr :=
  let '(outbox, err) := Outbox.Ack now eventID attempts epoch (p_outbox p) in
  (p <| p_outbox := outbox |>, err).

Definition Lookup (eventID : string) (p : Publisher B) : result Receipt :=
  let! record := Get eventID (p_outbox p) in Ok (receiptFor record).
End Operations.
End Routing.

(** ** Dispatch

    The broker, the context, the clock and the other goroutines.  [others] runs
    where [Dispatch] holds no lock; [readers] where it holds the read lock, so
    it cannot change the memberships. *)
Record Env (B W : Type) := mkEnv {
  env_Publish : W -> string -> BrokerMessage -> W * (PublishOutcome * option gerror);
  env_Err : W -> W * option gerror;
  env_Now : W -> W * Time;
  env_others : W -> Publisher B -> W * Publisher B;
  env_readers : W -> Publisher B -> W * Publisher B;
}.
Arguments env_Publish {B W}.
Arguments env_Err {B W}.
Arguments env_Now {B W}.
Arguments env_others {B W}.
Arguments env_readers {B W}.

Section Dispatch.
Context {B W : Type} `{!Bolt B} (env : Env B W).

Definition activeEpochs (p : Publisher B) : gmap string Z :=
  omap (fun snapshot => if routable (ms_Phase snapshot) then Some (ms_Epoch snapshot) else None)
    (p_membership p).

(** The admission check under the read lock. *)
Definition admitted (p : Publisher B) (record : Rec) : bool :=
  match p_membership p !! r_Group record with
  | None => false
  | Some snapshot => routable (ms_Phase snapshot) && (ms_Epoch snapshot =? r_Epoch record)
  end.

(** The variables of the loop; [ds_calls] is the ghost list of publish calls,
    each with the publisher when the record was marked and when it was
    published. *)
Record dispatching := mkDispatching {
  ds_world : W;
  ds_pub : Publisher B;
  ds_report : DispatchReport;
  ds_errors : list gerror;
  ds_calls : list (Publisher B * Publisher B * Rec);
}.

#[export] Instance eta_dispatching : Eta dispatching := fun d =>
  mkDispatching (ds_world d) (ds_pub d) (ds_report d) (ds_errors d) (ds_calls d).

Definition add_error (e : gerror) (d : dispatching) : dispatching :=
  d <| ds_errors := ds_errors d ++ [e] |>.

(** An outbox operation of the loop, at the current time. *)
Definition outbox_op (op : Time -> Store B -> Store B * gerr) (d : dispatching)
    : dispatching * gerr :=
  let '(w, t) := env_Now env (ds_world d) in
  let '(outbox, err) := op t (p_outbox (ds_pub d)) in
  (d <| ds_world := w |> <| ds_pub := ds_pub d <| p_outbox := outbox |> |>, err).

(** The switch on the outcome of a publish call ([default e publishErr] is
    [errors.Join(publishErr, e)]). *)
Definition finish (record : Rec) (outcome : PublishOutcome) (publishErr : option gerror)
    (d : dispatching) : dispatching :=
  if bool_decide (outcome = OutcomeAcknowledged) && bool_decide (publishErr = None)
  then
    match outbox_op (fun t => Outbox.Ack t (r_EventID record) (u64 (r_Attempts record + 1))
                                (r_Epoch record)) d with
    | (d, Err e) => add_error (ErrWrap "persist ACK" e) d
    | (d, Ok _) =>
        d <| ds_report := ds_report d <| dr_Acknowledged := dr_Acknowledged (ds_report d) + 1 |> |>
    end
  else if bool_decide (outcome = OutcomeRejected)
  then
    match outbox_op (fun t => MarkRejected t (r_EventID record)
                                (errorText publishErr ErrPublishRejected)) d with
    | (d, Err e) => add_error (default e publishErr) d
    | (d, Ok _) =>
        add_error (ErrWrap "publish" ErrPublishRejected)
          (d <| ds_report := ds_report d <| dr_Rejected := dr_Rejected (ds_report d) + 1 |> |>)
    end
  else
    match outbox_op (fun t => MarkAckUncertain t (r_EventID record)
                                (errorText publishErr ErrAckUncertain)) d with
    | (d, Err e) => add_error (default e publishErr) d
    | (d, Ok _) =>
        add_error (ErrWrap "publish" ErrAckUncertain)
          (d <| ds_report := ds_report d <| dr_Uncertain := dr_Uncertain (ds_report d) + 1 |> |>)
    end.

(** Other goroutines. *)
Definition yield_to (run : W -> Publisher B -> W * Publisher B) (d : dispatching) : dispatching :=
  let '(w, p) := run (ds_world d) (ds_pub d) in d <| ds_world := w |> <| ds_pub := p |>.

(** One record, from the admission check to its result. *)
Definition dispatch_one (record : Rec) (d : dispatching) : dispatching :=
  let d := yield_to (env_others env) d in
  if negb (admitted (ds_pub d) record) then d else
  match outbox_op (fun t => MarkInEventsA t (r_EventID record)) d with
  | (d, Err e) => add_error e d
  | (d, Ok _) =>
      let marked := ds_pub d in
      let d := d <| ds_report := ds_report d <| dr_Attempted := dr_Attempted (ds_report d) + 1 |> |> in
      let d := yield_to (env_readers env) d in
      let d := d <| ds_calls := ds_calls d ++ [(marked, ds_pub d, record)] |> in
      let '(w, (outcome, publishErr)) :=
        env_Publish env (ds_world d) (r_Broker record) (brokerMessage record) in
      finish record outcome publishErr (yield_to (env_others env) (d <| ds_world := w |>))
  end.

Fixpoint dispatch_loop (records : list Rec) (d : dispatching) : dispatching :=
  match records with
  | [] => d
  | record :: rest =>
      let '(w, err) := env_Err env (ds_world d) in
      let d := d <| ds_world := w |> in
      match err with
      | Some e => add_error e d
      | None => dispatch_loop rest (dispatch_one record d)
      end
  end.

Definition Dispatch (limit : Z) (w : W) (p : Publisher B) : dispatching :=
  let d := mkDispatching w p (mkDispatchReport 0 0 0 0) [] [] in
  if limit <=? 0 then d else
  dispatch_loop (EligibleFor limit (Some (activeEpochs p)) None (p_outbox p)) d.
End Dispatch.
Arguments ds_world {B W}.
Arguments ds_pub {B W}.
Arguments ds_report {B W}.
Arguments ds_errors {B W}.
Arguments ds_calls {B W}.
