(* ===== verification/PublisherInv.v ===== *)
(** * Invariant of the publisher

    [authority] is what the control plane published: at most one snapshot per
    group and revision.  The placement cache agrees with it, so the cached
    [assignmentFor] is [route]; every routed record in the outbox follows a
    published snapshot; and every operation keeps the invariant. *)

From S2P Require Import Prelude Customer Routing Snapshot Heap Outbox OutboxIndex OutboxMemory.
From S2P Require Import OutboxStore OutboxComplete OutboxLoad OutboxTheorems Publisher.
From Stdlib Require Import ZArith Lia.
From stdpp Require Import base gmap strings numbers relations option list.
#[local] Open Scope Z_scope.

Section Invariant.
Context {P : Type} (library : CustomerLibrary P) (encode_payload : P -> result (list Z)).
Context {B : Type} `{!Bolt B} {net_url : NetURL}.
Context (authority : string -> Z -> option MembershipSnapshot).
Implicit Types p : Publisher B.

Definition published (s : MembershipSnapshot) : Prop :=
  authority (ms_ScalingGroup s) (ms_Revision s) = Some s.

(** ** The placement cache *)
Record cache_ok p : Prop := {
  ch_entry : forall g h n a, p_placementCache p !! (g, h, n) = Some a ->
    exists s, authority g n = Some s /\ route library h s = Ok a;
  ch_order : forall k, k ∈ p_placementOrder p <-> is_Some (p_placementCache p !! k);
  ch_nodup : NoDup (p_placementOrder p);
  ch_bound : Z.of_nat (length (p_placementOrder p)) <= p_placementLimit p;
  ch_limit : 0 < p_placementLimit p;
}.

(** A publisher up to its cache. *)
Definition same_but_cache p p' : Prop :=
  p' = p <| p_placementCache := p_placementCache p' |> <| p_placementOrder := p_placementOrder p' |>.

Lemma same_but_cache_refl p : same_but_cache p p.
Proof. by destruct p. Qed.
Lemma same_but_cache_trans p1 p2 p3 :
  same_but_cache p1 p2 -> same_but_cache p2 p3 -> same_but_cache p1 p3.
Proof. unfold same_but_cache. intros -> ->. done. Qed.
Lemma same_but_cache_fields p p' :
  same_but_cache p p' -> p_outbox p' = p_outbox p /\ p_contracts p' = p_contracts p /\
  p_membership p' = p_membership p.
Proof. intros ->. done. Qed.

(** Evicting the oldest entry when the cache is full. *)
Definition evict p : Publisher B :=
  match p_placementOrder p with
  | oldest :: rest =>
      if p_placementLimit p <=? Z.of_nat (length (p_placementOrder p))
      then p <| p_placementCache := delete oldest (p_placementCache p) |>
             <| p_placementOrder := rest |>
      else p
  | [] => p
  end.

Lemma evict_ok p :
  cache_ok p -> cache_ok (evict p) /\ same_but_cache p (evict p) /\
  Z.of_nat (length (p_placementOrder (evict p))) < p_placementLimit p /\
  forall k, p_placementCache p !! k = None -> p_placementCache (evict p) !! k = None.
Proof.
  intros [C1 C2 C3 C4 C5]. unfold evict. destruct (p_placementOrder p) as [|oldest rest] eqn:E.
  - split_and!; [by split; rewrite ?E|apply same_but_cache_refl|rewrite E; cbn; lia|done].
  - destruct (Z.leb_spec (p_placementLimit p) (Z.of_nat (length (oldest :: rest)))) as [Hf|Hf].
    + apply NoDup_cons in C3 as [Hn Hnd]. split_and!; [split; cbn| | |]; try done.
      * intros g h n a [_ Ha]%lookup_delete_Some. by apply (C1 g h n a).
      * intros k. destruct (decide (k = oldest)) as [->|Hne].
        -- rewrite lookup_delete_eq. split; [done|by intros []].
        -- rewrite lookup_delete_ne, <- C2, elem_of_cons by done. tauto.
      * cbn [length] in *. lia.
      * cbn [length] in *. cbn. lia.
      * intros k Hk. cbn. by apply lookup_delete_None; right.
    + split_and!; [by split; rewrite ?E|apply same_but_cache_refl|by rewrite E|done].
Qed.

Lemma assignmentFor_ok p h s :
  cache_ok p -> published s ->
  let '(p', out) := assignmentFor library p h s in
  out = route library h s /\ cache_ok p' /\ same_but_cache p p'.
Proof.
  intros Hc Hs. unfold assignmentFor. set (key := (_, _, _)).
  destruct (p_placementCache p !! key) as [a|] eqn:Ek.
  { destruct (ch_entry _ Hc _ _ _ _ Ek) as (s' & Hs' & Hr). unfold published in Hs.
    rewrite Hs in Hs'. injection Hs' as <-. split_and!; [done|done|apply same_but_cache_refl]. }
  destruct (route library h s) as [a|e] eqn:Er; [|split_and!; [done|done|apply same_but_cache_refl]].
  change (match p_placementOrder p with [] => _ | _ :: _ => _ end) with (evict p).
  destruct (evict_ok p Hc) as ([C1 C2 C3 C4 C5] & Hsame & Hlt & Hnone). set (p1 := evict p) in *.
  clearbody p1. specialize (Hnone key Ek). split_and!; [done| |].
  - assert (Hlim : p_placementLimit p1 = p_placementLimit p) by (rewrite Hsame; done).
    split; cbn; rewrite ?Hlim.
    + intros g h' n a' [[Eq Ea]|[_ Ha]]%lookup_insert_Some; [|by apply (C1 g h' n a')].
      injection Eq as <- <- <-. subst a'. by exists s.
    + intros k. rewrite elem_of_app, C2. destruct (decide (k = key)) as [->|Hne].
      * rewrite lookup_insert_eq. split; [by eexists|intros _; right; left].
      * rewrite lookup_insert_ne by done. set_solver.
    + apply NoDup_app. split_and!; [done| |apply NoDup_singleton].
      intros k Hk ->%list_elem_of_singleton. apply C2 in Hk. rewrite Hnone in Hk. by destruct Hk.
    + rewrite length_app. cbn. lia.
    + apply Hc.
  - eapply same_but_cache_trans; [exact Hsame|done].
Qed.

(** ** The invariant *)
Definition assignment_of (r : Rec) : Assignment :=
  mkAssignment (r_Epoch r) (r_Broker r) (r_BrokerEndpoint r) (r_Destination r).

(** The record has the route that a published snapshot of its group gives. *)
Definition routed_by (s : MembershipSnapshot) (r : Rec) : Prop :=
  published s /\ ms_ScalingGroup s = r_Group r /\ route library (r_Hash r) s = Ok (assignment_of r).
Definition routed (r : Rec) : Prop := r_State r = StateUnassigned \/ exists s, routed_by s r.

Record pinv p (used : gset string) : Prop := {
  pi_outbox : outbox_inv (p_outbox p, used);
  pi_cache : cache_ok p;
  pi_member : forall g s, p_membership p !! g = Some s ->
    ms_ScalingGroup s = g /\ published s /\ Validate s = nil_err;
  pi_routed : forall r, r ∈ recs (p_outbox p) -> routed r;
}.

Lemma pi_sinv p used : pinv p used -> sinv (p_outbox p).
Proof. intros [[H _] _ _ _]. exact H. Qed.

Lemma pinv_cache p p' used :
  pinv p used -> same_but_cache p p' -> cache_ok p' -> pinv p' used.
Proof.
  intros [I1 I2 I3 I4] (E1 & E2 & E3)%same_but_cache_fields Hc.
  split; [by rewrite E1|done|by rewrite E3|by rewrite E1].
Qed.

(** A change of the outbox alone. *)
Lemma pinv_outbox p used used' (o : Store B) :
  pinv p used -> outbox_inv (o, used') -> (forall r, r ∈ recs o -> routed r) ->
  pinv (p <| p_outbox := o |>) used'.
Proof. intros [I1 [C1 C2 C3 C4 C5] I3 I4] Ho Hr. by split. Qed.

(** Moving without a new assignment keeps a record routed. *)
Lemma moved_routed r r' :
  succeeds r r' -> (r_State r' = StateUnassigned \/ assignment_of r' = assignment_of r) ->
  (r_State r = StateUnassigned -> r_State r' = StateUnassigned) -> routed r -> routed r'.
Proof.
  intros [He _] [Hu|Ha] Hs [Hr|(s & H1 & H2 & H3)]; [by left|by left|left; by apply Hs|].
  right. exists s. assert (r_Group r' = r_Group r /\ r_Hash r' = r_Hash r) as [Eg Eh].
  { split; [exact (f_equal r_Group He)|exact (f_equal r_Hash He)]. }
  split; [done|]. by rewrite Eg, Eh, Ha.
Qed.

(** ** Assigning buffered records *)
Definition buffered (snapshot : MembershipSnapshot) (r : Rec) : bool :=
  str_eqb (r_Group r) (ms_ScalingGroup snapshot) &&
  (bool_decide (r_State r = StateUnassigned) || bool_decide (r_State r = StateReady)).

Definition plan (contract : Contract) (snapshot : MembershipSnapshot) (r : Rec) : result Assignment :=
  if negb (str_eqb (r_HashContract r) (ct_HashContract contract)) ||
     negb (str_eqb (r_LibraryVersion r) (ct_LibraryVersion contract)) ||
     negb (str_eqb (r_RoutingAlgorithm r) (ms_Algorithm snapshot))
  then Err (ErrNew "assign buffered event: routing metadata mismatch")
  else wrap_err "assign buffered event" (route library (r_Hash r) snapshot).

Definition planned contract snapshot r : option AssignmentUpdate :=
  if buffered snapshot r
  then match plan contract snapshot r with
       | Ok a => Some (mkAssignmentUpdate (r_EventID r) a) | Err _ => None end
  else None.
Definition unplanned contract snapshot r : option gerror :=
  if buffered snapshot r
  then match plan contract snapshot r with Ok _ => None | Err e => Some e end
  else None.

Lemma assign_loop_ok contract snapshot (records : list Rec) : forall p assignments errs,
  cache_ok p -> published snapshot ->
  let '(p', (assignments', errs')) :=
    assign_loop library contract snapshot p assignments errs records in
  assignments' = assignments ++ omap (planned contract snapshot) records /\
  errs' = errs ++ omap (unplanned contract snapshot) records /\
  cache_ok p' /\ same_but_cache p p'.
Proof.
  induction records as [|r records IH]; intros p assignments errs Hc Hs; cbn [assign_loop].
  { rewrite !app_nil_r. split_and!; try done. apply same_but_cache_refl. }
  cbn [omap list_omap]. unfold planned at 1, unplanned at 1, buffered, plan.
  destruct (str_eqb (r_Group r) _) eqn:Eg; cbn [negb orb andb];
    [|by apply IH].
  rewrite <- negb_orb. destruct (bool_decide _ || _); cbn [negb]; [|by apply IH].
  destruct (_ || _).
  { specialize (IH p assignments
      (errs ++ [ErrNew "assign buffered event: routing metadata mismatch"]) Hc Hs).
    by rewrite <- app_assoc in IH. }
  pose proof (assignmentFor_ok p (r_Hash r) snapshot Hc Hs) as Ha.
  destruct (assignmentFor library p (r_Hash r) snapshot) as [p1 out].
  destruct Ha as (-> & Hc1 & Hs1). destruct (route library (r_Hash r) snapshot) as [a|e]; cbn [wrap_err].
  - specialize (IH p1 (assignments ++ [mkAssignmentUpdate (r_EventID r) a]) errs Hc1 Hs).
    destruct (assign_loop _ _ _ p1 _ _ records) as [p2 [as2 es2]].
    destruct IH as (-> & -> & Hc2 & Hs2). rewrite <- app_assoc. split_and!; try done.
    by eapply same_but_cache_trans.
  - specialize (IH p1 assignments (errs ++ [ErrWrap "assign buffered event" e]) Hc1 Hs).
    destruct (assign_loop _ _ _ p1 _ _ records) as [p2 [as2 es2]].
    destruct IH as (-> & -> & Hc2 & Hs2). rewrite <- app_assoc. split_and!; try done.
    by eapply same_but_cache_trans.
Qed.

(** The map of a list of assignments to distinct events. *)
Lemma last_wins_lookup {A} (l : list (string * A)) k v :
  NoDup (fst <$> l) -> (k, v) ∈ l -> last_wins l !! k = Some v.
Proof.
  unfold last_wins. revert k v. induction l as [|[k' v'] l IH] using rev_ind; intros k v Hnd Hin.
  { by apply elem_of_nil in Hin. }
  rewrite fmap_app in Hnd. apply NoDup_app in Hnd as (Hnd & Hd & _). rewrite foldl_app. cbn.
  apply elem_of_app in Hin as [Hin|Hin%list_elem_of_singleton].
  - rewrite lookup_insert_ne; [by apply IH|]. intros ->. apply (Hd k); [|by left].
    apply list_elem_of_fmap. by exists (k, v).
  - injection Hin as -> ->. apply lookup_insert_eq.
Qed.

Lemma assign_result m id r r' :
  assign m id r = Ok r' ->
  r_State r ∈ [StateUnassigned; StateReady] /\ r_State r' = StateReady /\
  assignment_of r' = default (mkAssignment 0 "" "" "") (m !! id) /\ envelope r' = envelope r.
Proof.
  unfold assign. set (a := default _ _). destruct (_ || _); [done|].
  destruct (_ && _) eqn:E.
  { intros [= <-]. to_prop. repeat match goal with H : str_eqb _ _ = true |- _ =>
      apply str_eqb_true in H end. split_and!; [rewrite !elem_of_cons; auto|done| |done].
    unfold assignment_of. destruct a. cbn in *. congruence. }
  destruct (negb _ && _) eqn:Es; [done|]. intros [= <-].
  split_and!; [|done|by destruct a|done].
  repeat case_bool_decide; try done; rewrite !elem_of_cons; auto.
Qed.

(** A request that brings no new identifier. *)
Lemma request_keeps req (o o' : Store B) err used :
  outbox_inv (o, used) -> new_ids req = [] -> perform req o = (o', err) -> outbox_inv (o', used).
Proof.
  intros [Hi Hf] Hn H. cbn in Hi, Hf. destruct (perform_ok req o o' err Hi) as [P1 _ _ P4]; [|done|].
  - rewrite Hn. by intros ? ?%elem_of_nil.
  - split; [done|]. intros id Hid. cbn. apply P4; [rewrite Hn; apply not_elem_of_nil|by apply Hf].
Qed.

Section Assign.
Context (o : Store B) (Hi : sinv o) (contract : Contract) (snapshot : MembershipSnapshot).
Context (Hall : omap (unplanned contract snapshot) (recs o) = []).
Abbreviation assignments := (omap (planned contract snapshot) (recs o)).

Lemma buffered_planned r :
  r ∈ recs o -> buffered snapshot r = true ->
  exists a, route library (r_Hash r) snapshot = Ok a /\
    mkAssignmentUpdate (r_EventID r) a ∈ assignments.
Proof.
  intros Hr Hb. assert (Hn : unplanned contract snapshot r = None).
  { destruct (unplanned contract snapshot r) as [e|] eqn:E; [|done]. exfalso.
    assert (Hin : e ∈ omap (unplanned contract snapshot) (recs o)).
    { apply list_elem_of_omap. by exists r. }
    rewrite Hall in Hin. by apply elem_of_nil in Hin. }
  unfold unplanned in Hn. rewrite Hb in Hn. destruct (plan contract snapshot r) as [a|] eqn:Ep; [|done].
  exists a. split.
  - unfold plan in Ep. destruct (_ || _); [done|]. destruct (route _ _ _); [|done]. cbn in Ep. congruence.
  - apply list_elem_of_omap. exists r. split; [done|]. unfold planned. by rewrite Hb, Ep.
Qed.

Lemma planned_source u :
  u ∈ assignments -> exists r, r ∈ recs o /\ buffered snapshot r = true /\
    r_EventID r = au_EventID u /\ route library (r_Hash r) snapshot = Ok (au_Assignment u).
Proof.
  intros (r & Hr & H)%list_elem_of_omap. unfold planned in H.
  destruct (buffered snapshot r) eqn:Hb; [|done].
  destruct (plan contract snapshot r) as [a|] eqn:Ep; [|done]. injection H as <-. exists r.
  split_and!; try done. cbn. unfold plan in Ep. destruct (_ || _); [done|].
  destruct (route _ _ _); [|done]. cbn in Ep. congruence.
Qed.

Lemma assignments_distinct : NoDup (au_EventID <$> assignments).
Proof.
  pose proof (recs_ids_nodup o (sv_mem _ Hi)) as Hnd. clear Hall.
  induction (recs o) as [|r l IH]; cbn; [constructor|]. apply NoDup_cons in Hnd as [Hn Hnd].
  assert (Hid : forall r u, planned contract snapshot r = Some u -> au_EventID u = r_EventID r).
  { intros x u. unfold planned. destruct (buffered _ x); [|done]. destruct (plan _ _ x); [|done].
    by intros [= <-]. }
  destruct (planned contract snapshot r) as [u|] eqn:E; [|by apply IH]. cbn. constructor; [|by apply IH].
  intros (u' & Eu & (r' & Hr' & E')%list_elem_of_omap)%list_elem_of_fmap. apply Hn.
  rewrite <- (Hid _ _ E), Eu, (Hid _ _ E'). by apply list_elem_of_fmap_2.
Qed.

Lemma AssignBatch_ok now o' :
  published snapshot -> AssignBatch now assignments o = (o', nil_err) ->
  forall r', r' ∈ recs o' ->
  (r_State r' = StateReady /\ routed_by snapshot r') \/
  (r' ∈ recs o /\ buffered snapshot r' = false).
Proof.
  intros Hp H. unfold AssignBatch, assignMany in H.
  set (m := last_wins _) in H. destruct (updateMany_ok _ _ _ _ _ _ _ Hi (assign_ok m) H) as [_ Hu].
  destruct Hu as [Hrecs Hfound _ _ _]. intros r' Hr'. rewrite Hrecs in Hr'.
  apply list_elem_of_fmap in Hr' as (x & -> & Hx). case_decide as Hin.
  - left. destruct (Hfound _ Hin) as (x0 & y & Hx0 & Hy).
    pose proof Hx as Hl. apply elem_of_recs in Hl; [|apply Hi]. rewrite Hl in Hx0. injection Hx0 as <-.
    unfold edited. rewrite Hy. destruct (assign_result _ _ _ _ Hy) as (_ & Hs & Ha & He).
    split; [exact Hs|]. apply list_elem_of_fmap in Hin as (u & Eu & Hu).
    destruct (planned_source u Hu) as (x2 & Hx2 & Hb & Ei & Hroute).
    apply elem_of_recs in Hx2; [|apply Hi]. rewrite Ei, <- Eu, Hl in Hx2. injection Hx2 as <-.
    assert (Hm : m !! r_EventID x = Some (au_Assignment u)).
    { apply last_wins_lookup.
      - rewrite <- list_fmap_compose. exact assignments_distinct.
      - apply list_elem_of_fmap. exists u. by rewrite Eu. }
    rewrite Hm in Ha. cbn in Ha. unfold buffered in Hb. apply andb_true_iff in Hb as [Hg _].
    apply str_eqb_true in Hg.
    assert (r_Group y = r_Group x /\ r_Hash y = r_Hash x) as [Eg Eh].
    { split; [exact (f_equal r_Group He)|exact (f_equal r_Hash He)]. }
    split; [done|]. cbn. rewrite Eg, Eh. split; [done|]. rewrite Hroute, <- Ha. done.
  - right. split; [done|]. destruct (buffered snapshot x) eqn:Hb; [|done]. exfalso. apply Hin.
    destruct (buffered_planned x Hx Hb) as (a & _ & Ha).
    apply list_elem_of_fmap. by exists (mkAssignmentUpdate (r_EventID x) a).
Qed.
End Assign.

(** ** Membership *)

(** What installing a snapshot establishes. *)
Record installed (snapshot : MembershipSnapshot) p p' : Prop := {
  in_membership : p_membership p' = <[ms_ScalingGroup snapshot := snapshot]> (p_membership p);
  in_routes : ms_Phase snapshot = CActive -> is_open (p_outbox p) = true ->
    forall r, r ∈ recs (p_outbox p') -> buffered snapshot r = true ->
      r_State r = StateReady /\ routed_by snapshot r;
}.

Lemma install_pinv snapshot p used :
  pinv p used -> published snapshot -> Validate snapshot = nil_err -> pinv (install snapshot p) used.
Proof.
  intros [I1 [C1 C2 C3 C4 C5] I3 I4] Hp Hv. split; [done|by split| |done].
  cbn. intros g s [[<- <-]|[_ Hs]]%lookup_insert_Some; [done|by apply I3].
Qed.

Lemma install_membership_ok now contract snapshot p used p' err :
  pinv p used -> published snapshot -> Validate snapshot = nil_err ->
  install_membership library now contract snapshot p = (p', err) ->
  pinv p' used /\
  match err with
  | Ok _ => installed snapshot p p'
  | Err _ => p_membership p' = p_membership p /\ recs (p_outbox p') = recs (p_outbox p)
  end.
Proof.
  intros Hp Hpub Hv H. unfold install_membership in H. case_bool_decide as Ea; cbn [negb] in H.
  2: { injection H as <- <-. split; [by apply install_pinv|]. by split. }
  pose proof (assign_loop_ok contract snapshot (Records (p_outbox p)) p [] []
    (pi_cache _ _ Hp) Hpub) as Hl.
  destruct (assign_loop _ _ _ p [] [] _) as [p1 [us es]]. destruct Hl as (-> & -> & Hc1 & Hs1).
  cbn [app] in H. pose proof (pinv_cache _ _ _ Hp Hs1 Hc1) as Hp1.
  destruct (same_but_cache_fields _ _ Hs1) as (Eo & _ & Em).
  assert (Hrec : is_open (p_outbox p) = true -> Records (p_outbox p) = recs (p_outbox p)).
  { intros Ho. unfold Records. by rewrite Ho. }
  case_bool_decide as Ees; cbn [andb] in H.
  2: { destruct (omap (unplanned contract snapshot) _) as [|e es]; [done|]. cbn in H.
       injection H as <- <-. split; [done|]. by rewrite Eo. }
  case_bool_decide as Eus; cbn [negb] in H.
  { rewrite Ees in H. cbn in H. injection H as <- <-. split; [by apply install_pinv|].
    split; [cbn; by rewrite Em|]. intros _ Ho r Hr Hb. exfalso. cbn in Hr. rewrite Eo in Hr.
    rewrite (Hrec Ho) in Ees, Eus.
    destruct (buffered_planned (p_outbox p) contract snapshot Ees r Hr Hb) as (a & _ & Hin).
    rewrite Eus in Hin. by apply elem_of_nil in Hin. }
  destruct (is_open (p_outbox p)) eqn:Ho.
  2: { exfalso. apply Eus. unfold Records. by rewrite Ho. }
  rewrite (Hrec eq_refl) in *. rewrite Eo in H.
  destruct (AssignBatch now _ (p_outbox p)) as [o' err'] eqn:Eb.
  pose proof (request_keeps (RAssignBatch now _) _ _ _ used (pi_outbox _ _ Hp) eq_refl Eb) as Ho'.
  destruct err' as [[]|e]; cbn in H; injection H as <- <-.
  - pose proof (AssignBatch_ok (p_outbox p) (pi_sinv _ _ Hp) contract snapshot Ees now o' Hpub Eb) as Hr.
    assert (Hq : pinv (p1 <| p_outbox := o' |>) used).
    { apply (pinv_outbox p1 used used o' Hp1 Ho'). intros r Hin.
      destruct (Hr r Hin) as [[_ Hb]|[Hin' _]]; [right; by exists snapshot|by apply (pi_routed _ _ Hp)]. }
    split; [by apply install_pinv|]. split; [cbn; by rewrite Em|].
    intros _ _ r Hin Hb. cbn in Hin. destruct (Hr r Hin) as [?|[_ Hn]]; [done|congruence].
  - destruct (perform_ok (RAssignBatch now (omap (planned contract snapshot) (recs (p_outbox p))))
      (p_outbox p) o' (Err e) (pi_sinv _ _ Hp)) as [_ Hq _ _];
      [by intros ? ?%elem_of_nil|exact Eb|]. injection Hq as Hq _. cbn. split; [|by rewrite Em].
    apply (pinv_outbox p1 used used o' Hp1 Ho'). intros r Hin. rewrite Hq in Hin.
    by apply (pi_routed _ _ Hp).
Qed.

Lemma ApplyMembership_ok now snapshot p used p' err :
  pinv p used -> published snapshot -> ApplyMembership library now snapshot p = (p', err) ->
  pinv p' used /\
  match err with
  | Ok _ => p' = p /\ p_membership p !! ms_ScalingGroup snapshot = Some snapshot \/
      installed snapshot p p' /\
      (forall current, p_membership p !! ms_ScalingGroup snapshot = Some current ->
         ms_Revision current < ms_Revision snapshot)
  | Err _ => p_membership p' = p_membership p /\ recs (p_outbox p') = recs (p_outbox p)
  end.
Proof.
  intros Hp Hpub H. unfold ApplyMembership in H.
  destruct (Validate snapshot) as [[]|e] eqn:Hv; [|by injection H as <- <-].
  destruct (membership_contract library p snapshot) as [contract|e]; [|by injection H as <- <-].
  destruct (p_membership p !! ms_ScalingGroup snapshot) as [current|] eqn:Ec.
  - destruct (Z.leb_spec (ms_Revision snapshot) (ms_Revision current)).
    { destruct (_ && _) eqn:E; injection H as <- <-; [|done]. to_prop. subst. split; [done|]. by left. }
    destruct (install_membership_ok _ _ _ _ _ _ _ Hp Hpub Hv H) as [Hp' Hout].
    split; [done|]. destruct err as [[]|e]; [|done]. right. split; [done|]. by intros ? [= <-].
  - destruct (install_membership_ok _ _ _ _ _ _ _ Hp Hpub Hv H) as [Hp' Hout].
    split; [done|]. destruct err as [[]|e]; [|done]. right. by split.
Qed.

(** ** Acceptance *)

(** The record of a message, without the cache. *)
Definition record_spec p (message : MessageView P) : result Rec :=
  let! out := draft library encode_payload p message in
  if routable (ms_Phase (snd out))
  then
    let! a := wrap_err "accept: assign route" (route library (r_Hash (fst out)) (snd out)) in
    Ok (with_route a (fst out))
  else Ok (fst out).

Fixpoint batch_spec p (messages : list (MessageView P)) : result (list Rec) :=
  match messages with
  | [] => Ok []
  | message :: rest =>
      let! r := wrap_err "accept batch record" (record_spec p message) in
      let! rs := batch_spec p rest in
      Ok (r :: rs)
  end.

(** What a successful draft is. *)
Lemma draft_ok p used message r s :
  pinv p used -> draft library encode_payload p message = Ok (r, s) ->
  p_membership p !! r_Group r = Some s /\ published s /\ ms_ScalingGroup s = r_Group r /\
  r_State r = StateUnassigned /\ r_EventID r = mv_EventID message /\
  GetScalingGroup library message = Ok (r_Group r).
Proof.
  intros Hp H. unfold draft in H. destruct (_ || _); [done|]. destruct (existsb _ _); [done|].
  cbn [fail_if] in H. destruct (GetScalingGroup library message) as [group|] eqn:Eg; [|done].
  cbn [wrap_err] in H. destruct (str_empty group); [done|]. cbn [fail_if] in H.
  destruct (p_membership p !! group) as [snapshot|] eqn:Em; [|done].
  destruct (p_contracts p !! group) as [contract|]; [|done]. destruct (_ || _); [done|].
  cbn [fail_if] in H. destruct (GetBusinessHash _ _); [|done]. cbn [wrap_err] in H.
  destruct (encode_payload _); [|done]. cbn [wrap_err] in H. injection H as <- <-.
  destruct (pi_member _ _ Hp _ _ Em) as (E & Hpub & _). by split_and!.
Qed.

Lemma draft_cache p p' message :
  same_but_cache p p' -> draft library encode_payload p' message = draft library encode_payload p message.
Proof. intros (_ & E2 & E3)%same_but_cache_fields. unfold draft. by rewrite E2, E3. Qed.

Lemma recordFor_ok p used message :
  pinv p used ->
  let '(p', out) := recordFor library encode_payload p message in
  out = record_spec p message /\ cache_ok p' /\ same_but_cache p p'.
Proof.
  intros Hp. unfold recordFor, record_spec.
  destruct (draft library encode_payload p message) as [[r s]|e] eqn:Ed;
    [|split_and!; [done|apply Hp|apply same_but_cache_refl]].
  destruct (draft_ok _ _ _ _ _ Hp Ed) as (_ & Hpub & _). cbn [fst snd].
  destruct (routable (ms_Phase s)); [|split_and!; [done|apply Hp|apply same_but_cache_refl]].
  pose proof (assignmentFor_ok p (r_Hash r) s (pi_cache _ _ Hp) Hpub) as Ha.
  destruct (assignmentFor library p (r_Hash r) s) as [p1 out]. destruct Ha as (-> & Hc & Hs).
  by destruct (route library (r_Hash r) s).
Qed.

Lemma batch_spec_cache p p' messages :
  same_but_cache p p' -> batch_spec p' messages = batch_spec p messages.
Proof.
  intros Hs. induction messages as [|m ms IH]; [done|]. cbn. unfold record_spec.
  by rewrite (draft_cache _ _ m Hs), IH.
Qed.

Lemma records_loop_ok messages : forall p used,
  pinv p used ->
  let '(p', out) := records_loop library encode_payload p messages in
  out = batch_spec p messages /\ cache_ok p' /\ same_but_cache p p'.
Proof.
  induction messages as [|m ms IH]; intros p used Hp; cbn.
  { split_and!; [done|apply Hp|apply same_but_cache_refl]. }
  pose proof (recordFor_ok p used m Hp) as Hr.
  destruct (recordFor library encode_payload p m) as [p1 out]. destruct Hr as (-> & Hc & Hs).
  destruct (record_spec p m) as [r|e]; cbn [wrap_err]; [|done].
  pose proof (IH p1 used (pinv_cache _ _ _ Hp Hs Hc)) as Hl.
  destruct (records_loop library encode_payload p1 ms) as [p2 out2]. destruct Hl as (-> & Hc2 & Hs2).
  rewrite (batch_spec_cache _ _ ms Hs).
  split_and!; [done|done|]. by eapply same_but_cache_trans.
Qed.

Lemma record_spec_ok p used message r :
  pinv p used -> record_spec p message = Ok r ->
  r_EventID r = mv_EventID message /\ routed r /\ r_State r ∈ [StateUnassigned; StateReady].
Proof.
  intros Hp H. unfold record_spec in H.
  destruct (draft library encode_payload p message) as [[d s]|e] eqn:Ed; [|done].
  destruct (draft_ok _ _ _ _ _ Hp Ed) as (Hm & Hpub & Hg & Hs & He & _). cbn [fst snd] in H.
  destruct (routable (ms_Phase s)).
  - destruct (route library (r_Hash d) s) as [a|] eqn:Er; [|done]. cbn in H. injection H as <-.
    split_and!; [done| |cbn; set_solver]. right. exists s. split; [done|]. split; [done|]. cbn.
    rewrite Er. by destruct a.
  - injection H as <-. split_and!; [done|by left|rewrite Hs; set_solver].
Qed.

Lemma batch_spec_ok p used messages : forall rs,
  pinv p used -> batch_spec p messages = Ok rs ->
  r_EventID <$> rs = mv_EventID <$> messages /\
  forall r, r ∈ rs -> routed r /\ r_State r ∈ [StateUnassigned; StateReady].
Proof.
  induction messages as [|m ms IH]; intros rs Hp H; cbn in H.
  { injection H as <-. split; [done|]. by intros ? ?%elem_of_nil. }
  destruct (record_spec p m) as [r|e] eqn:Er; [|done]. cbn in H.
  destruct (batch_spec p ms) as [rs'|e]; [|done]. injection H as <-.
  destruct (record_spec_ok _ _ _ _ Hp Er) as (E1 & E2 & E3). destruct (IH rs' Hp eq_refl) as [I1 I2].
  split; [cbn; by rewrite E1, I1|]. intros x [->|Hx]%elem_of_cons; [done|by apply I2].
Qed.

Lemma stamped_routed now n r :
  routed r -> r_State r ∈ [StateUnassigned; StateReady] -> routed (accepted_record now n r).
Proof.
  intros Hr Hs. assert (E : r_State (accepted_record now n r) = r_State r).
  { unfold accepted_record. cbn. rewrite bool_decide_eq_false_2; [done|]. intros E.
    rewrite E in Hs. repeat (apply elem_of_cons in Hs as [?|Hs]; [done|]). by apply elem_of_nil in Hs. }
  destruct Hr as [Hr|(s & H1 & H2 & H3)]; [left; congruence|right; by exists s].
Qed.

Lemma AcceptBatch_ok now messages p used p' out :
  pinv p used -> (forall m, m ∈ messages -> mv_EventID m ∉ used) ->
  AcceptBatch library encode_payload now messages p = (p', out) ->
  pinv p' (list_to_set (mv_EventID <$> messages) ∪ used) /\ p_membership p' = p_membership p /\
  match out with
  | Ok receipts => exists rs, batch_spec p messages = Ok rs /\
      let acc := stamp now (st_nextSeq (p_outbox p)) rs in
      recs (p_outbox p') = recs (p_outbox p) ++ acc /\ receipts = receiptFor <$> acc
  | Err _ => recs (p_outbox p') = recs (p_outbox p)
  end.
Proof.
  intros Hp Hnew H.
  assert (Hgrow : forall p' X, pinv p' used -> pinv p' (X ∪ used)).
  { intros q X [[O1 O2] I2 I3 I4]. split; try done. split; [done|]. cbn in *. intros id Hid.
    apply O2. set_solver. }
  unfold AcceptBatch in H. case_bool_decide as En.
  { injection H as <- <-. subst messages. split_and!; [by apply Hgrow|done|]. exists []. cbn.
    by rewrite app_nil_r. }
  pose proof (records_loop_ok messages p used Hp) as Hl.
  destruct (records_loop library encode_payload p messages) as [p1 out1]. destruct Hl as (-> & Hc & Hs).
  pose proof (pinv_cache _ _ _ Hp Hs Hc) as Hp1.
  destruct (same_but_cache_fields _ _ Hs) as (Eo & _ & Em).
  destruct (batch_spec p messages) as [rs|e] eqn:Eb.
  2: { injection H as <- <-. split_and!; [by apply Hgrow|done|by rewrite Eo]. }
  destruct (batch_spec_ok p used messages rs Hp Eb) as [Hids Hrs]. rewrite Eo in H.
  destruct (Outbox.AcceptBatch now rs (p_outbox p)) as [o' aout] eqn:Ea. injection H as <- <-.
  assert (Hfr : forall o, o ∈ rs -> fresh_id (p_outbox p) (r_EventID o)).
  { intros o Ho. apply (proj2 (pi_outbox _ _ Hp)). cbn.
    assert (Hin : r_EventID o ∈ mv_EventID <$> messages) by (rewrite <- Hids; by apply list_elem_of_fmap_2).
    apply list_elem_of_fmap in Hin as (m & -> & Hm). by apply Hnew. }
  destruct (acceptMany_ok _ _ _ _ _ _ (pi_sinv _ _ Hp) Hfr Ea) as [Hi' Hout].
  destruct (perform_append _ _ _ _ _ _ (pi_sinv _ _ Hp) Hfr Ea) as [_ _ _ Hfresh].
  assert (Hinv : outbox_inv (o', list_to_set (mv_EventID <$> messages) ∪ used)).
  { split; [done|]. cbn. intros id Hid. apply Hfresh; [rewrite Hids; set_solver|].
    apply (proj2 (pi_outbox _ _ Hp)). cbn. set_solver. }
  split; [|split; [by rewrite <- Em|]].
  - apply (pinv_outbox p1 used _ o' Hp1 Hinv). intros r Hr.
    destruct aout as [acc|e].
    + destruct Hout as [-> Hrec _ _ _]. rewrite Hrec in Hr.
      apply elem_of_app in Hr as [Hr|Hr]; [by apply (pi_routed _ _ Hp)|].
      apply stamp_elem in Hr as (i & x & Hx & -> & _). by apply stamped_routed; apply Hrs.
    + rewrite (same_recs _ _ (rolled_back_memory _ _ Hout)) in Hr. by apply (pi_routed _ _ Hp).
  - destruct aout as [acc|e]; cbn.
    + destruct Hout as [-> Hrec _ _ _]. exists rs. by split.
    + by rewrite (same_recs _ _ (rolled_back_memory _ _ Hout)).
Qed.
End Invariant.
