(* ===== verification/PublisherRun.v ===== *)
(** * Runs of the publisher

    The atomic operations of a publisher as a step relation, the invariant of
    its runs, and [Dispatch] among other goroutines: every message it publishes
    is the oldest of its ordering key and belongs to the installed epoch. *)

From S2P Require Import Prelude Customer Routing Snapshot Heap Outbox OutboxIndex OutboxMemory.
From S2P Require Import OutboxStore OutboxComplete OutboxLoad OutboxTheorems.
From S2P Require Import Publisher PublisherInv.
From Stdlib Require Import ZArith Lia.
From stdpp Require Import base gmap strings numbers relations option list.
#[local] Open Scope Z_scope.

(** ** Requests that neither accept nor assign *)
Definition settling (req : request) : bool :=
  match req with
  | RAccept _ _ | RAcceptBatch _ _ | RAssign _ _ _ | RAssignBatch _ _ => false
  | _ => true
  end.

(** The assignment stays, and the record is not unassigned. *)
Definition still (r r' : Rec) : Prop :=
  assignment_of r' = assignment_of r /\ r_State r <> StateUnassigned /\ r_State r' <> StateUnassigned.
Definition mutation_still (mutate : string -> Rec -> result Rec) : Prop :=
  forall now id r r', mutate id r = Ok r' -> still r (touch now r').

Lemma begin_still : mutation_still begin_attempt.
Proof.
  intros now id r r'. unfold begin_attempt. case_bool_decide as E; [|done]. intros [= <-].
  by split_and!; [|rewrite E|].
Qed.
Lemma leave_still next msg reasons :
  next <> StateUnassigned -> mutation_still (leave_attempt next msg reasons).
Proof.
  intros Hn now id r r'. unfold leave_attempt. case_bool_decide as E; [|done]. intros [= <-].
  by split_and!; [|rewrite E|].
Qed.
Lemma retry_still : mutation_still retry.
Proof.
  intros now id r r'. unfold retry. case_bool_decide as E; [|done]. intros [= <-].
  by split_and!; [|rewrite E|].
Qed.

Definition change_still (c : change) : Prop :=
  match c with Append _ _ => False | Edit _ _ mutate => mutation_still mutate | Settle _ _ => True end.
Lemma settling_still req : settling req = true -> change_still (change_of req).
Proof.
  destruct req; cbn; try done; intros _; auto using begin_still, retry_still; by apply leave_still.
Qed.

(** Where a record of the changed queue comes from. *)
Lemma apply_change_back c q r' :
  change_moves c -> r' ∈ fst (apply_change c q) ->
  (exists r, r ∈ fst q /\ succeeds r r' /\ (change_still c -> r' = r \/ still r r')) \/
  (exists now input, c = Append now input /\ r' ∈ stamp now (snd q) input).
Proof.
  assert (Hsame : forall r, r ∈ fst q -> exists r0, r0 ∈ fst q /\ succeeds r0 r /\
    (change_still c -> r = r0 \/ still r0 r)).
  { intros r Hr. exists r. split_and!; [done|apply succeeds_refl|by left]. }
  intros Hc Hr. destruct c as [now input|now ids mutate|now cs]; cbn in *.
  - apply elem_of_app in Hr as [Hr|Hr]; [left; by apply Hsame|right; by exists now, input].
  - left. apply list_elem_of_fmap in Hr as (r & -> & Hr). case_decide; [|by apply Hsame].
    unfold edited. destruct (mutate _ r) as [y|] eqn:E; [|by apply Hsame].
    exists r. split_and!; [done|by eapply Hc|]. intros Hs. right. by eapply Hs.
  - left. apply list_elem_of_omap in Hr as (r & Hr & E). unfold completed in E.
    destruct (list_find _ cs) as [[i c]|]; [|injection E as <-; by apply Hsame].
    destruct (verdict now c r) as [[u|]|] eqn:Ev; [|done|injection E as <-; by apply Hsame].
    injection E as <-. apply verdict_settled in Ev as (Hs & next & Hn & ->).
    exists r. split_and!; [done|split; [done|by apply mv_return]|]. intros _. right.
    split_and!; [done|by rewrite Hs|]. cbn. intros ->. set_solver.
Qed.

Section Run.
Context {P : Type} (library : CustomerLibrary P) (encode_payload : P -> result (list Z)).
Context {B : Type} `{!Bolt B} {net_url : NetURL}.
Context (authority : string -> Z -> option MembershipSnapshot).
Implicit Types p : Publisher B.
Abbreviation pinv := (pinv library authority).
Abbreviation routed := (routed library authority).
Abbreviation published := (published authority).

(** ** Steps *)
Inductive pub_step : Publisher B * gset string -> Publisher B * gset string -> Prop :=
| ps_accept now messages p p' out used :
    (forall m, m ∈ messages -> mv_EventID m ∉ used) ->
    AcceptBatch library encode_payload now messages p = (p', out) ->
    pub_step (p, used) (p', list_to_set (mv_EventID <$> messages) ∪ used)
| ps_apply now snapshot p p' err used :
    published snapshot -> ApplyMembership library now snapshot p = (p', err) ->
    pub_step (p, used) (p', used)
| ps_fail_closed group p p' err used :
    FailClosed group p = (p', err) -> pub_step (p, used) (p', used)
| ps_retry now id p p' err used :
    RetryAckUncertain library now id p = (p', err) -> pub_step (p, used) (p', used)
| ps_settle req p o err used :
    settling req = true -> perform req (p_outbox p) = (o, err) ->
    pub_step (p, used) (p <| p_outbox := o |>, used).

Lemma settle_pinv req p o err used :
  pinv p used -> settling req = true -> perform req (p_outbox p) = (o, err) ->
  pinv (p <| p_outbox := o |>) used.
Proof.
  intros Hp Hs H. assert (Hn : new_ids req = []) by by destruct req.
  apply pinv_outbox with (used := used); [done|by eapply request_keeps; [apply Hp|..]|].
  destruct (perform_ok req (p_outbox p) o err (pi_sinv _ _ _ _ Hp)) as [_ Hq _ _];
    [rewrite Hn; by intros ? ?%elem_of_nil|done|].
  intros r' Hr. assert (Hr' : r' ∈ fst (queue_of o)) by done. rewrite Hq in Hr'.
  destruct (is_ok err); [|by apply (pi_routed _ _ _ _ Hp)].
  destruct (apply_change_back _ _ _ (change_of_moves req) Hr') as [(r & Hin & [He _] & Hst)|Hap].
  - apply (pi_routed _ _ _ _ Hp) in Hin. destruct (Hst (settling_still req Hs)) as [->|(Ha & Hu & Hu')];
      [done|]. destruct Hin as [?|(s & H1 & H2 & H3)]; [done|]. right. exists s. split; [done|].
    assert (r_Group r' = r_Group r /\ r_Hash r' = r_Hash r) as [Eg Eh].
    { split; [exact (f_equal r_Group He)|exact (f_equal r_Hash He)]. }
    by rewrite Eg, Eh, Ha.
  - destruct Hap as (now & input & E & _). unfold new_ids in Hn. by destruct req.
Qed.

Lemma RetryAckUncertain_ok now id p used p' err :
  pinv p used -> RetryAckUncertain library now id p = (p', err) ->
  pinv p' used /\ p_membership p' = p_membership p /\
  (p_outbox p' = p_outbox p \/ err = snd (perform (RRetryAckUncertain now id) (p_outbox p)) /\
   p_outbox p' = fst (perform (RRetryAckUncertain now id) (p_outbox p))).
Proof.
  intros Hp H. unfold RetryAckUncertain in H.
  destruct (Get id (p_outbox p)) as [r|e] eqn:Eg; [|injection H as <- <-; by split_and!; [|done|left]].
  destruct (p_membership p !! r_Group r) as [s|] eqn:Em;
    [|injection H as <- <-; by split_and!; [|done|left]].
  destruct (negb _); [injection H as <- <-; by split_and!; [|done|left]|].
  destruct (negb _); [injection H as <- <-; by split_and!; [|done|left]|].
  destruct (pi_member _ _ _ _ Hp _ _ Em) as (_ & Hpub & _).
  pose proof (assignmentFor_ok library authority p (r_Hash r) s (pi_cache _ _ _ _ Hp) Hpub) as Ha.
  destruct (assignmentFor library p (r_Hash r) s) as [p1 out]. destruct Ha as (_ & Hc & Hs).
  destruct (same_but_cache_fields _ _ Hs) as (Eo & _ & Emm).
  pose proof (pinv_cache _ _ _ _ _ Hp Hs Hc) as Hp1.
  destruct out as [a|e]; [|injection H as <- <-; by split_and!; [|done|left]].
  destruct (_ || _); [injection H as <- <-; by split_and!; [|done|left]|].
  destruct (Outbox.RetryAckUncertain now id (p_outbox p1)) as [o err1] eqn:Er.
  injection H as <- <-. split_and!; [|done|].
  - by apply (settle_pinv (RRetryAckUncertain now id) p1 o err1 used Hp1 eq_refl).
  - right. cbn. rewrite <- Eo, Er. done.
Qed.

Lemma pub_step_inv c c' :
  pub_step c c' -> pinv (fst c) (snd c) -> pinv (fst c') (snd c').
Proof.
  intros H Hp. destruct H as [now ms p p' out used Hn H|now s p p' err used Hs H|g p p' err used H
    |now id p p' err used H|req p o err used Hs H]; cbn [fst snd] in *.
  - by eapply AcceptBatch_ok.
  - by eapply ApplyMembership_ok.
  - unfold FailClosed in H. destruct (str_empty g); injection H as <- <-; [done|].
    destruct Hp as [I1 [C1 C2 C3 C4 C5] I3 I4]. split; [done|by split| |done]. cbn.
    intros g' s' [_ Hm]%lookup_delete_Some. by apply I3.
  - by eapply RetryAckUncertain_ok.
  - by eapply settle_pinv.
Qed.

Lemma pub_steps_inv c c' :
  rtc pub_step c c' -> pinv (fst c) (snd c) -> pinv (fst c') (snd c').
Proof. induction 1; eauto using pub_step_inv. Qed.

(** ** What a step does to the outbox *)
Definition outbox_moves_by (kind : request -> Prop) p (used : gset string) p' : Prop :=
  p_outbox p' = p_outbox p \/
  exists req, kind req /\ (forall id, id ∈ new_ids req -> id ∉ used) /\
    p_outbox p' = fst (perform req (p_outbox p)).
Abbreviation outbox_moves := (outbox_moves_by (fun _ => True)).

Lemma moves_weaken kind p used p' : outbox_moves_by kind p used p' -> outbox_moves p used p'.
Proof. intros [?|(req & _ & ? & ?)]; [by left|right; by exists req]. Qed.

(** The requests of [AcceptBatch] and [ApplyMembership]. *)
Definition accepting (req : request) : Prop :=
  exists now rs, req = RAcceptBatch now rs /\
    forall r, r ∈ rs -> r_State r ∈ [StateUnassigned; StateReady].
Definition assigning_request (req : request) : Prop := exists now us, req = RAssignBatch now us.

Lemma AcceptBatch_moves now messages p used p' out :
  pinv p used -> (forall m, m ∈ messages -> mv_EventID m ∉ used) ->
  AcceptBatch library encode_payload now messages p = (p', out) ->
  outbox_moves_by accepting p used p'.
Proof.
  intros Hp Hn H. unfold AcceptBatch in H. case_bool_decide; [injection H as <- <-; by left|].
  pose proof (records_loop_ok library encode_payload authority messages p used Hp) as Hl.
  destruct (records_loop library encode_payload p messages) as [p1 out1]. destruct Hl as (-> & _ & Hs).
  destruct (same_but_cache_fields _ _ Hs) as (Eo & _).
  destruct (batch_spec library encode_payload p messages) as [rs|e] eqn:Eb;
    [|injection H as <- <-; by left].
  destruct (batch_spec_ok library encode_payload authority p used messages rs Hp Eb) as [Hids Hst].
  destruct (Outbox.AcceptBatch now rs (p_outbox p1)) as [o aout] eqn:Ea. injection H as <- <-.
  right. exists (RAcceptBatch now rs). split_and!.
  - exists now, rs. split; [done|]. intros r Hr. by apply Hst.
  - unfold new_ids. cbn. rewrite Hids. intros id (m & -> & Hm)%list_elem_of_fmap. by apply Hn.
  - cbn. rewrite <- Eo, Ea. done.
Qed.

Lemma ApplyMembership_moves now snapshot p used p' err :
  pinv p used -> published snapshot -> ApplyMembership library now snapshot p = (p', err) ->
  outbox_moves_by assigning_request p used p'.
Proof.
  intros Hp Hpub H. unfold ApplyMembership in H.
  destruct (Validate snapshot); [|injection H as <- <-; by left].
  destruct (membership_contract library p snapshot) as [contract|]; [|injection H as <- <-; by left].
  assert (Hi : forall p' err, install_membership library now contract snapshot p = (p', err) ->
    outbox_moves_by assigning_request p used p').
  { clear H p' err. intros p' err H. unfold install_membership in H.
    destruct (negb _); [injection H as <- <-; by left|].
    pose proof (assign_loop_ok library authority contract snapshot (Records (p_outbox p)) p [] []
      (pi_cache _ _ _ _ Hp) Hpub) as Hl.
    destruct (assign_loop _ _ _ p [] [] _) as [p1 [us es]]. destruct Hl as (_ & _ & _ & Hs1).
    destruct (same_but_cache_fields _ _ Hs1) as (Eo & _).
    destruct (_ && _); [|by destruct (errors_Join es); injection H as <- <-; left].
    destruct (AssignBatch now us (p_outbox p1)) as [o err1] eqn:Ea.
    right. exists (RAssignBatch now us). split; [by exists now, us|].
    split; [by intros ? ?%elem_of_nil|]. cbn. rewrite <- Eo, Ea.
    by destruct (errors_Join _); injection H as <- <-. }
  destruct (p_membership p !! _) as [current|]; [|by eapply Hi].
  destruct (_ <=? _); [injection H as <- <-; by left|by eapply Hi].
Qed.

Lemma pub_step_moves c c' :
  pub_step c c' -> pinv (fst c) (snd c) -> snd c ⊆ snd c' /\ outbox_moves (fst c) (snd c) (fst c').
Proof.
  intros H Hp. destruct H as [now ms p p' out used Hn H|now s p p' err used Hs H|g p p' err used H
    |now id p p' err used H|req p o err used Hs H]; cbn [fst snd] in *.
  - split; [set_solver|by eapply moves_weaken, AcceptBatch_moves].
  - split; [done|by eapply moves_weaken, ApplyMembership_moves].
  - split; [done|]. unfold FailClosed in H. destruct (str_empty g); injection H as <- <-; by left.
  - split; [done|]. destruct (RetryAckUncertain_ok _ _ _ _ _ _ Hp H) as (_ & _ & [E|[_ E]]);
      [by left|]. right. exists (RRetryAckUncertain now id). split_and!; [done|by intros ? ?%elem_of_nil|done].
  - split; [done|]. right. exists req. assert (Hn : new_ids req = []) by by destruct req.
    rewrite Hn. split_and!; [done|by intros ? ?%elem_of_nil|]. cbn. by rewrite H.
Qed.

(** ** The oldest record of its ordering key *)
Definition heads_line (o : Store B) (record : Rec) : Prop :=
  forall r, r ∈ recs o -> r_EventID r = r_EventID record ->
    envelope r = envelope record /\
    forall x, x ∈ recs o -> effectiveOrderingKey x = effectiveOrderingKey r ->
      r_Sequence r <= r_Sequence x.

Lemma envelope_fields r r' :
  envelope r' = envelope r -> r_EventID r' = r_EventID r /\ r_Sequence r' = r_Sequence r /\
  effectiveOrderingKey r' = effectiveOrderingKey r.
Proof.
  intros E. split_and!; [exact (f_equal r_EventID E)|exact (f_equal r_Sequence E)|].
  exact (f_equal effectiveOrderingKey E).
Qed.

(** A record of the outbox after a request: an old one, or a new one with a
    later sequence. *)
Lemma perform_back req (o o' : Store B) err used :
  outbox_inv (o, used) -> (forall id, id ∈ new_ids req -> id ∉ used) ->
  perform req o = (o', err) -> forall r', r' ∈ recs o' ->
  (exists r, r ∈ recs o /\ envelope r' = envelope r) \/
  (r_EventID r' ∈ new_ids req /\ st_nextSeq o <= r_Sequence r').
Proof.
  intros [Hi Hf] Hn H r' Hr. cbn [fst snd] in *.
  destruct (perform_ok req o o' err Hi) as [_ Hq _ _]; [by intros; apply Hf, Hn|done|].
  assert (Hr' : r' ∈ fst (queue_of o')) by done. rewrite Hq in Hr'.
  destruct (is_ok err); [|left; by exists r'].
  destruct (apply_change_back _ _ _ (change_of_moves req) Hr') as [(r & Hin & [He _] & _)|Hap].
  - left. by exists r.
  - right. destruct Hap as (now & input & E & Hst). unfold new_ids. rewrite E.
    apply stamp_elem in Hst as (i & x & Hx & -> & _). rewrite accepted_id, accepted_sequence.
    split; [by apply list_elem_of_fmap_2|]. cbn. lia.
Qed.

Lemma moves_heads p used p' record :
  pinv p used -> outbox_moves p used p' -> r_EventID record ∈ used ->
  heads_line (p_outbox p) record -> heads_line (p_outbox p') record.
Proof.
  intros Hp [->|(req & _ & Hn & E)] Hu Hh; [done|].
  destruct (perform req (p_outbox p)) as [o err] eqn:H. cbn in E. rewrite E.
  pose proof (perform_back _ _ _ _ _ (pi_outbox _ _ _ _ Hp) Hn H) as Hback.
  pose proof (pi_sinv _ _ _ _ Hp) as Hi.
  intros r' Hr' Eid. destruct (Hback r' Hr') as [(r & Hr & He)|[Hnew _]].
  2: { rewrite Eid in Hnew. by apply Hn in Hnew. }
  destruct (envelope_fields _ _ He) as (E1 & E2 & E3).
  destruct (Hh r Hr ltac:(congruence)) as [Hrec Hold]. split; [congruence|].
  intros x' Hx' Ek. destruct (Hback x' Hx') as [(x & Hx & Hex)|[_ Hseq]].
  - destruct (envelope_fields _ _ Hex) as (X1 & X2 & X3). rewrite E2, X2. apply Hold; [done|congruence].
  - pose proof (sv_seq _ Hi r Hr). lia.
Qed.

Lemma steps_heads c c' record :
  rtc pub_step c c' -> pinv (fst c) (snd c) -> r_EventID record ∈ snd c ->
  heads_line (p_outbox (fst c)) record ->
  r_EventID record ∈ snd c' /\ heads_line (p_outbox (fst c')) record.
Proof.
  induction 1 as [c|c1 c2 c3 Hs _ IH]; intros Hp Hu Hh; [done|].
  destruct (pub_step_moves _ _ Hs Hp) as [Hsub Hm].
  apply IH; [by eapply pub_step_inv|by apply Hsub|]. by eapply moves_heads.
Qed.

(** ** Dispatch among other goroutines *)
Section DispatchRun.
Context {W : Type} (env : Env B W).

(** The other goroutines use the publisher through its operations; while this
    one holds the read lock the memberships stay. *)
Record lawful : Prop := {
  lw_others : forall w p used, pinv p used ->
    exists used', rtc pub_step (p, used) (snd (env_others env w p), used');
  lw_readers : forall w p used, pinv p used ->
    (exists used', rtc pub_step (p, used) (snd (env_readers env w p), used')) /\
    p_membership (snd (env_readers env w p)) = p_membership p;
}.
Context (Hlaw : lawful).

(** A publish call: the membership admits it when the record is marked and
    still when it is published, and what is published is the durable record,
    in flight, the oldest of its ordering key. *)
Definition good_call (call : Publisher B * Publisher B * Rec) : Prop :=
  let '(marked, calling, record) := call in
  admitted marked record = true /\ admitted calling record = true /\
  heads_line (p_outbox marked) record /\
  exists r, r ∈ recs (p_outbox marked) /\ r_EventID r = r_EventID record /\
    r_State r = StateInEventsA /\ envelope r = envelope record.

Definition tracked (todo : list Rec) (p : Publisher B) (used : gset string) : Prop :=
  pinv p used /\ forall record, record ∈ todo ->
    r_EventID record ∈ used /\ heads_line (p_outbox p) record.

Lemma tracked_steps todo p used p' used' :
  rtc pub_step (p, used) (p', used') -> tracked todo p used -> tracked todo p' used'.
Proof.
  intros Hs [Hp Ht]. split; [exact (pub_steps_inv _ _ Hs Hp)|].
  intros record Hin. destruct (Ht record Hin) as [Hu Hh]. exact (steps_heads _ _ record Hs Hp Hu Hh).
Qed.

Lemma tracked_settle todo p used req o err :
  settling req = true -> perform req (p_outbox p) = (o, err) -> tracked todo p used ->
  tracked todo (p <| p_outbox := o |>) used.
Proof.
  intros Hs H. apply tracked_steps. apply rtc_once. by eapply ps_settle.
Qed.

Lemma tracked_op todo op d used :
  (forall t, exists req, settling req = true /\ op t = perform req) ->
  tracked todo (ds_pub d) used -> tracked todo (ds_pub (fst (outbox_op env op d))) used.
Proof.
  intros Hop Ht. unfold outbox_op. destruct (env_Now env (ds_world d)) as [w t].
  destruct (Hop t) as (req & Hs & ->). destruct (perform req _) as [o err] eqn:E. cbn.
  by eapply tracked_settle.
Qed.

Lemma tracked_others todo d used :
  tracked todo (ds_pub d) used ->
  exists used', tracked todo (ds_pub (yield_to (env_others env) d)) used'.
Proof.
  intros Ht. destruct (lw_others Hlaw (ds_world d) (ds_pub d) used (proj1 Ht)) as [used' Hs].
  exists used'. unfold yield_to. destruct (env_others env _ _) as [w p]. cbn in *.
  by eapply tracked_steps.
Qed.

Lemma outbox_op_fields op (d : @dispatching B W) :
  ds_calls (fst (outbox_op env op d)) = ds_calls d /\ ds_report (fst (outbox_op env op d)) = ds_report d.
Proof. unfold outbox_op. destruct (env_Now env _) as [w t]. by destruct (op t _). Qed.

(** The switch on the outcome touches the outbox by one settling request. *)
Lemma finish_pub record outcome e d :
  exists op, (forall t, exists req, settling req = true /\ op t = perform req) /\
    ds_pub (finish env record outcome e d) = ds_pub (fst (outbox_op env op d)) /\
    ds_calls (finish env record outcome e d) = ds_calls d.
Proof.
  assert (Hcalls : forall op, ds_calls (fst (outbox_op env op d)) = ds_calls d)
    by (intros op; apply outbox_op_fields).
  unfold finish. destruct (_ && _); [|case_bool_decide].
  - set (op := fun t => Outbox.Ack t _ _ _). specialize (Hcalls op). exists op.
    split; [intros t; by eexists (RAck _ _ _ _)|]. by destruct (outbox_op env op d) as [d1 [[]|]].
  - set (op := fun t => MarkRejected t _ _). specialize (Hcalls op). exists op.
    split; [intros t; by eexists (RMarkRejected _ _ _)|].
    by destruct (outbox_op env op d) as [d1 [[]|]].
  - set (op := fun t => MarkAckUncertain t _ _). specialize (Hcalls op). exists op.
    split; [intros t; by eexists (RMarkAckUncertain _ _ _)|].
    by destruct (outbox_op env op d) as [d1 [[]|]].
Qed.

(** A successful mark: the durable record is in flight. *)
Lemma mark_ok t id (o o' : Store B) :
  sinv o -> MarkInEventsA t id o = (o', nil_err) ->
  exists r, r ∈ recs o' /\ r_EventID r = id /\ r_State r = StateInEventsA.
Proof.
  intros Hi H. unfold MarkInEventsA, markInEventsAMany in H.
  destruct (updateMany_ok _ _ _ _ _ _ _ Hi begin_attempt_ok H) as [_ [Hrecs Hfound _ _ _]].
  destruct (Hfound id ltac:(left)) as (r & r' & Hr & Hm).
  pose proof (mo_ids _ (sv_mem _ Hi) _ _ Hr) as Eid. exists (touch t r').
  unfold begin_attempt in Hm. case_bool_decide as Es; [|done]. injection Hm as <-.
  split_and!; [|done|done]. rewrite Hrecs. apply list_elem_of_fmap. exists r. split.
  - rewrite decide_True by (rewrite Eid; left). unfold edited, begin_attempt.
    by rewrite bool_decide_eq_true_2.
  - apply elem_of_recs; [apply Hi|]. by rewrite Eid.
Qed.

(** The report counts the calls, and each result at most once. *)
Definition settled_count (r : DispatchReport) : Z :=
  dr_Acknowledged r + dr_Rejected r + dr_Uncertain r.
Definition report_ok (d : @dispatching B W) : Prop :=
  dr_Attempted (ds_report d) = Z.of_nat (length (ds_calls d)) /\
  settled_count (ds_report d) <= dr_Attempted (ds_report d).

Lemma finish_report record outcome e (d : @dispatching B W) :
  dr_Attempted (ds_report (finish env record outcome e d)) = dr_Attempted (ds_report d) /\
  settled_count (ds_report (finish env record outcome e d)) <= settled_count (ds_report d) + 1.
Proof.
  unfold finish, settled_count. destruct (_ && _); [|case_bool_decide];
    match goal with |- context [outbox_op env ?op d] =>
      destruct (outbox_op_fields op d) as [_ <-]; destruct (outbox_op env op d) as [d1 [[]|]] end;
    cbn; lia.
Qed.

Record loop_inv (todo : list Rec) (d : @dispatching B W) (used : gset string) : Prop := {
  li_tracked : tracked todo (ds_pub d) used;
  li_calls : Forall good_call (ds_calls d);
  li_report : report_ok d;
}.

Lemma mark_step record todo d used :
  tracked (record :: todo) (ds_pub d) used ->
  let '(d', err) := outbox_op env (fun t => MarkInEventsA t (r_EventID record)) d in
  tracked (record :: todo) (ds_pub d') used /\
  p_membership (ds_pub d') = p_membership (ds_pub d) /\
  ds_calls d' = ds_calls d /\ ds_report d' = ds_report d /\
  (err = nil_err -> exists r, r ∈ recs (p_outbox (ds_pub d')) /\
     r_EventID r = r_EventID record /\ r_State r = StateInEventsA).
Proof.
  intros Ht. set (op := fun t => MarkInEventsA t _).
  assert (Hop : forall t, exists req, settling req = true /\ op t = perform req).
  { intros t. by exists (RMarkInEventsA t (r_EventID record)). }
  pose proof (tracked_op _ op d used Hop Ht) as Ht2. revert Ht2.
  unfold outbox_op. destruct (env_Now env (ds_world d)) as [w t].
  destruct (op t _) as [o err] eqn:E. cbn. intros Ht2. split_and!; try done. intros ->.
  eapply mark_ok; [|exact E]. eapply pi_sinv, Ht.
Qed.

Lemma good_call_intro record todo (d : @dispatching B W) used calling r :
  tracked (record :: todo) (ds_pub d) used -> admitted (ds_pub d) record = true ->
  p_membership calling = p_membership (ds_pub d) ->
  r ∈ recs (p_outbox (ds_pub d)) -> r_EventID r = r_EventID record -> r_State r = StateInEventsA ->
  good_call (ds_pub d, calling, record).
Proof.
  intros [_ Ht] Ha Em Hr Eid Hs. destruct (Ht record ltac:(left)) as [_ Hh].
  destruct (Hh r Hr Eid) as [He _]. split_and!; try done; [|by exists r].
  unfold admitted in *. by rewrite Em.
Qed.

Lemma yield_to_fields run (d : @dispatching B W) :
  ds_pub (yield_to run d) = snd (run (ds_world d) (ds_pub d)) /\
  ds_calls (yield_to run d) = ds_calls d /\ ds_report (yield_to run d) = ds_report d.
Proof. unfold yield_to. by destruct (run _ _). Qed.

(** From the publish call to the recorded result. *)
Lemma settle_step record todo (d2 d3 d4 : @dispatching B W) used outcome perr :
  tracked (record :: todo) (ds_pub d4) used -> good_call (ds_pub d2, ds_pub d3, record) ->
  ds_calls d4 = ds_calls d2 ++ [(ds_pub d2, ds_pub d3, record)] -> Forall good_call (ds_calls d2) ->
  dr_Attempted (ds_report d4) = Z.of_nat (length (ds_calls d2)) + 1 ->
  settled_count (ds_report d4) < dr_Attempted (ds_report d4) ->
  let d := finish env record outcome perr (yield_to (env_others env) d4) in
  exists used' extra, loop_inv todo d used' /\
    ds_calls d = ds_calls d2 ++ extra /\ (snd <$> extra) `sublist_of` [record].
Proof.
  intros Ht4 Hgood Ec4 Hc Ha Hs d. destruct (tracked_others _ d4 used Ht4) as [used5 Ht5].
  destruct (yield_to_fields (env_others env) d4) as (_ & Ec5 & Er5). subst d.
  set (d5 := yield_to (env_others env) d4) in *. clearbody d5.
  destruct (finish_pub record outcome perr d5) as (op & Hop & Ep & Ecs).
  destruct (finish_report record outcome perr d5) as [Ra Rs]. rewrite Er5 in Ra, Rs.
  exists used5, [(ds_pub d2, ds_pub d3, record)]. rewrite Ecs, Ec5, Ec4. split_and!; [|done|done].
  split.
  - rewrite Ep. apply tracked_op; [done|]. destruct Ht5 as [Hp Ht5]. split; [done|].
    intros x Hx. apply Ht5. by right.
  - rewrite Ecs, Ec5, Ec4. apply Forall_app. split; [done|by apply Forall_singleton].
  - unfold report_ok. rewrite Ecs, Ec5, Ec4, length_app, Ra. cbn. split; lia.
Qed.

Lemma dispatch_one_ok record todo d used :
  loop_inv (record :: todo) d used ->
  exists used' extra, loop_inv todo (dispatch_one env record d) used' /\
    ds_calls (dispatch_one env record d) = ds_calls d ++ extra /\ (snd <$> extra) `sublist_of` [record].
Proof.
  intros [Ht Hc Hr]. unfold dispatch_one. destruct (tracked_others _ d used Ht) as [used1 Ht1].
  destruct (yield_to_fields (env_others env) d) as (_ & Ec1 & Er1). unfold report_ok in Hr.
  set (d1 := yield_to (env_others env) d) in *. clearbody d1. rewrite <- Ec1, <- Er1 in *.
  clear Ec1 Er1 Ht d.
  assert (Hskip : forall p u, tracked (record :: todo) p u -> tracked todo p u).
  { intros p u [Hp H]. split; [done|]. intros x Hx. apply H. by right. }
  assert (Hstop : forall d2, tracked (record :: todo) (ds_pub d2) used1 -> ds_calls d2 = ds_calls d1 ->
    ds_report d2 = ds_report d1 -> exists used' extra, loop_inv todo d2 used' /\
      ds_calls d2 = ds_calls d1 ++ extra /\ (snd <$> extra) `sublist_of` [record]).
  { intros d2 Ht2 E1 E2. exists used1, []. rewrite app_nil_r. split_and!; [|done|apply sublist_nil_l].
    split; [by apply Hskip|by rewrite E1|]. unfold report_ok. by rewrite E1, E2. }
  destruct (admitted (ds_pub d1) record) eqn:Ead; cbn [negb]; [|by apply Hstop].
  pose proof (mark_step record todo d1 used1 Ht1) as Hm.
  destruct (outbox_op env _ d1) as [d2 err]. destruct Hm as (Ht2 & Em & Ec & Erp & Hmark).
  destruct err as [[]|e]; [|by apply Hstop]. clear Hstop. rewrite <- Ec, <- Erp in *.
  destruct (Hmark eq_refl) as (r & Hin & Eid & Hst).
  destruct (lw_readers Hlaw (ds_world d2) (ds_pub d2) used1 (proj1 Ht2)) as [[used3 Hs3] Em3].
  match goal with |- context [yield_to (env_readers env) ?x] => set (d2' := x) end.
  destruct (yield_to_fields (env_readers env) d2') as (Ep3 & Ec3 & Er3).
  set (d3 := yield_to (env_readers env) d2') in *. change (ds_calls d2') with (ds_calls d2) in Ec3.
  change (ds_pub d3 = snd (env_readers env (ds_world d2) (ds_pub d2))) in Ep3.
  assert (Ea3 : dr_Attempted (ds_report d3) = dr_Attempted (ds_report d2) + 1 /\
    settled_count (ds_report d3) = settled_count (ds_report d2)) by by rewrite Er3.
  rewrite <- Ep3 in *. clearbody d3. clear d2' Er3.
  assert (Hgood : good_call (ds_pub d2, ds_pub d3, record)).
  { eapply good_call_intro; try done. unfold admitted in *. by rewrite Em. }
  assert (Ht3 : tracked (record :: todo) (ds_pub d3) used3) by by eapply tracked_steps.
  destruct (env_Publish env _ _ _) as [w4 [outcome perr]].
  match goal with |- context [finish env record outcome perr (yield_to _ ?x)] => set (d4 := x) end.
  assert (Ht4 : tracked (record :: todo) (ds_pub d4) used3) by exact Ht3.
  assert (Ec4 : ds_calls d4 = ds_calls d2 ++ [(ds_pub d2, ds_pub d3, record)]) by by rewrite <- Ec3.
  change (ds_report d3) with (ds_report d4) in Ea3. clearbody d4.
  eapply settle_step; try done; lia.
Qed.

Lemma dispatch_loop_ok (todo : list Rec) : forall d used,
  loop_inv todo d used ->
  exists used' extra, loop_inv [] (dispatch_loop env todo d) used' /\
    ds_calls (dispatch_loop env todo d) = ds_calls d ++ extra /\ (snd <$> extra) `sublist_of` todo.
Proof.
  induction todo as [|record todo IH]; intros d used Hi; cbn [dispatch_loop].
  { exists used, []. rewrite app_nil_r. by split_and!. }
  destruct (env_Err env (ds_world d)) as [w err].
  assert (Hi' : loop_inv (record :: todo) (d <| ds_world := w |>) used)
    by (destruct Hi as [H1 H2 H3]; split; [exact H1|exact H2|exact H3]).
  assert (Ec' : ds_calls d = ds_calls (d <| ds_world := w |>)) by done. rewrite Ec'.
  set (d1 := d <| ds_world := w |>) in *. clearbody d1. destruct err as [e|].
  { exists used, []. rewrite app_nil_r. split_and!; [|done|apply sublist_nil_l].
    destruct Hi' as [[Hp _] Hc Hr]. split; [split; [done|]|done|done]. by intros ? ?%elem_of_nil. }
  destruct (dispatch_one_ok record todo d1 used Hi') as (used2 & ex & Hi2 & Ec2 & Hl2).
  destruct (IH _ _ Hi2) as (used3 & ex3 & Hi3 & Ec3 & Hl3).
  exists used3, (ex ++ ex3). split; [done|]. rewrite Ec3, Ec2, <- app_assoc. split; [done|].
  rewrite fmap_app. by apply (sublist_app _ [record]).
Qed.
End DispatchRun.
End Run.
