(* ===== verification/PublisherTheorems.v ===== *)
(** * What the publisher guarantees

    Its invariant over every run, what [ApplyMembership] and [AcceptBatch] do,
    and the safety of [Dispatch] among other goroutines. *)

From S2P Require Import Prelude Customer Routing Snapshot Heap Outbox OutboxIndex OutboxMemory.
From S2P Require Import OutboxStore OutboxComplete OutboxLoad OutboxTheorems.
From S2P Require Import Publisher PublisherInv PublisherRun.
From Stdlib Require Import ZArith Lia.
From stdpp Require Import base gmap strings numbers relations option sorting list.
#[local] Open Scope Z_scope.

(** ** What [Dispatch] starts from *)
Lemma select_sublist epochs slots (rs : list Rec) : forall limit used,
  select limit epochs slots used rs `sublist_of` rs /\
  Z.of_nat (length (select limit epochs slots used rs)) <= Z.max 0 limit.
Proof.
  induction rs as [|r rs IH]; intros limit used; cbn [select]; [split; [done|cbn; lia]|].
  destruct (Z.leb_spec limit 0); [split; [apply sublist_nil_l|cbn; lia]|].
  destruct (eligible_matches _ _ _ _).
  - destruct (IH (limit - 1) (use_slot r used)) as [H1 H2]. split; [by apply sublist_skip|].
    cbn [length]. lia.
  - destruct (IH limit used) as [H1 H2]. split; [by apply sublist_cons|done].
Qed.

Lemma lane_heads_keys (rs : list Rec) : forall seen,
  NoDup (effectiveOrderingKey <$> lane_heads seen rs).
Proof.
  induction rs as [|r rs IH]; intros seen; cbn [lane_heads]; [constructor|].
  case_bool_decide; [done|]. cbn. constructor; [|done].
  intros (x & E & Hx)%list_elem_of_fmap. apply elem_of_lane_heads in Hx as [Hn _]. set_solver.
Qed.

Lemma head_least (l : list Rec) r x :
  StronglySorted (fun a b => r_Sequence a < r_Sequence b) l -> head l = Some r -> x ∈ l ->
  r_Sequence r <= r_Sequence x.
Proof.
  destruct l as [|y l]; [done|]. intros [_ Hs]%StronglySorted_inv [= ->] [->|Hx]%elem_of_cons; [lia|].
  rewrite Forall_forall in Hs. specialize (Hs x Hx). lia.
Qed.

Section Eligible.
Context {B : Type} `{!Bolt B}.
Implicit Types o : Store B.

Record dispatchable (o : Store B) (limit : Z) (records : list Rec) : Prop := {
  dp_known : forall r, r ∈ records -> r ∈ recs o /\ r_State r = StateReady;
  dp_heads : forall r, r ∈ records -> heads_line o r;
  dp_keys : NoDup (effectiveOrderingKey <$> records);
  dp_bound : Z.of_nat (length records) <= Z.max 0 limit;
}.

Lemma EligibleFor_dispatchable o limit epochs slots :
  sinv o -> dispatchable o limit (EligibleFor limit epochs slots o).
Proof.
  intros Hi. destruct (is_open o) eqn:Ho.
  2: { assert (E : EligibleFor limit epochs slots o = []).
       { unfold EligibleFor. case_match; [done|]. by rewrite Ho, orb_true_r. }
       rewrite E. split; try (by intros ? ?%elem_of_nil); [constructor|cbn; lia]. }
  rewrite (EligibleFor_ok _ _ _ o (sv_mem _ Hi) Ho). unfold eligible_spec, ready_heads.
  set (rs := filter _ _). destruct (select_sublist epochs slots rs limit ∅) as [Hsub Hlen].
  assert (Hin : forall r, r ∈ select limit epochs slots ∅ rs -> r ∈ lane_heads ∅ (recs o) /\
    r_State r = StateReady).
  { intros r Hr. apply (sublist_subseteq _ _ Hsub) in Hr. apply list_elem_of_filter in Hr. tauto. }
  assert (Hrec : forall r, r ∈ lane_heads ∅ (recs o) -> r ∈ recs o).
  { intros r [_ H]%elem_of_lane_heads. apply head_Some_elem_of, list_elem_of_filter in H. tauto. }
  split; [|..|done].
  - intros r [H1 H2]%Hin. auto.
  - intros r [Hh _]%Hin r' Hr' E. pose proof (Hrec _ Hh) as Hr.
    assert (r' = r) as ->.
    { apply elem_of_recs in Hr, Hr'; [|apply Hi..]. rewrite E, Hr in Hr'. by injection Hr'. }
    split; [done|]. intros x Hx Ek. apply elem_of_lane_heads in Hh as [_ Hh].
    eapply head_least; [|exact Hh|apply list_elem_of_filter; by split].
    apply strict_filter, (mo_sorted _ (sv_mem _ Hi)).
  - eapply sublist_NoDup; [apply (lane_heads_keys (recs o) ∅)|].
    apply fmap_sublist. etrans; [exact Hsub|]. apply sublist_filter.
Qed.

Lemma recs_used (o : Store B) used r : outbox_inv (o, used) -> r ∈ recs o -> r_EventID r ∈ used.
Proof.
  intros [Hi Hf] Hr. cbn in *. destruct (decide (r_EventID r ∈ used)) as [|Hn]; [done|]. exfalso.
  apply (fi_order _ _ (Hf _ Hn)). apply elem_of_recs in Hr; [|apply Hi]. eapply mo_all; [apply Hi|done].
Qed.
End Eligible.

(** ** Theorems *)
Section Theorems.
Context {P : Type} (library : CustomerLibrary P) (encode_payload : P -> result (list Z)).
Context {B : Type} `{!Bolt B} {net_url : NetURL}.
Context (authority : string -> Z -> option MembershipSnapshot).
Implicit Types p : Publisher B.
Abbreviation pinv := (pinv library authority).
Abbreviation published := (published authority).
Abbreviation routed_by := (routed_by library authority).
Abbreviation pub_step := (pub_step library encode_payload authority).

(** A publisher as [New] returns it, over an outbox whose routed records follow
    published snapshots. *)
Record started (config : Config B P) (p : Publisher B) (used : gset string) : Prop := {
  sd_new : New config = Ok p;
  sd_outbox : outbox_inv (p_outbox p, used);
  sd_routed : forall r, r ∈ recs (p_outbox p) -> routed library authority r;
}.

Lemma New_fields (config : Config B P) p :
  New config = Ok p ->
  p_membership p = ∅ /\ p_placementCache p = ∅ /\ p_placementOrder p = [] /\ p_placementLimit p = 4096.
Proof.
  unfold New. destruct (cf_Outbox config), (cf_CustomerLibrary config), (cf_Broker config); try done.
  destruct (fail_if _ _); [|done]. destruct (fail_if _ _); [|done]. destruct (RoutingPolicy _); [|done].
  destruct (for_each _ _); [|done]. destruct (for_each _ _); [|done]. by intros [= <-].
Qed.

Lemma started_inv config p used : started config p used -> pinv p used.
Proof.
  intros [Hn Ho Hr]. destruct (New_fields _ _ Hn) as (E1 & E2 & E3 & E4).
  split; [done| |by rewrite E1|done]. split; rewrite ?E2, ?E3, ?E4; [done| |constructor|cbn; lia|lia].
  intros k. rewrite lookup_empty. split; [by intros ?%elem_of_nil|by intros []].
Qed.

(** In every run of a publisher (accepting batches, applying memberships,
    failing closed, retrying, marking and settling attempts, in any order and
    with any database failures) the outbox keeps its own invariant, every
    installed membership is a valid published snapshot of its group, every
    record that is not waiting for a route has the route which some published
    snapshot of its group gives its hash, and the placement cache holds at most
    4096 entries and answers for every published snapshot what the routing
    function computes. *)
Theorem publisher_invariant config p0 used0 p used :
  started config p0 used0 -> rtc pub_step (p0, used0) (p, used) ->
  sinv (p_outbox p) /\
  (forall g s, p_membership p !! g = Some s ->
     ms_ScalingGroup s = g /\ published s /\ Validate s = nil_err) /\
  (forall r, r ∈ recs (p_outbox p) -> r_State r = StateUnassigned \/ exists s, routed_by s r) /\
  Z.of_nat (size (p_placementCache p)) <= p_placementLimit p /\
  (forall h s, published s -> snd (assignmentFor library p h s) = route library h s).
Proof.
  intros Hs Hrun. pose proof (started_inv _ _ _ Hs) as H0.
  pose proof (pub_steps_inv _ _ _ _ _ Hrun H0) as Hp. cbn [fst snd] in Hp.
  split_and!; [by eapply pi_sinv|apply Hp|apply Hp| |].
  - destruct Hp as [_ [_ Co Cn Cb _] _ _]. etrans; [|exact Cb].
    assert (E : dom (p_placementCache p) = list_to_set (p_placementOrder p)).
    { apply set_eq. intros k. by rewrite elem_of_dom, elem_of_list_to_set, Co. }
    by rewrite <- size_dom, E, size_list_to_set.
  - intros h s Hpub. pose proof (assignmentFor_ok library authority p h s (pi_cache _ _ _ _ Hp) Hpub) as Ha.
    destruct (assignmentFor library p h s) as [p' out]. by destruct Ha.
Qed.

(** C11: [ApplyMembership] with a published snapshot either reports success, and
    then it was installed already or it is newer than the one it replaces and,
    if it is ACTIVE and the outbox is open, every unassigned or ready record of the group now has its
    route under this snapshot; or it reports an error, and then neither the
    memberships nor the records have changed, so no record is routed by a
    membership that is not exposed. *)
Theorem ApplyMembership_all_or_nothing now snapshot p used p' err :
  pinv p used -> published snapshot -> ApplyMembership library now snapshot p = (p', err) ->
  match err with
  | Ok _ => p' = p /\ p_membership p !! ms_ScalingGroup snapshot = Some snapshot \/
      installed library authority snapshot p p' /\
      (forall current, p_membership p !! ms_ScalingGroup snapshot = Some current ->
         ms_Revision current < ms_Revision snapshot)
  | Err _ => p_membership p' = p_membership p /\ recs (p_outbox p') = recs (p_outbox p)
  end.
Proof. intros Hp Hs H. by destruct (ApplyMembership_ok _ _ _ _ _ _ _ _ Hp Hs H). Qed.

(** [AcceptBatch] of messages with new event IDs is all or nothing.  On
    success the outbox has exactly one more record per message, in order and
    with consecutive sequences, each for a group that has a membership, routed
    by that membership if it is ACTIVE or PREPARE and unassigned otherwise; on
    any error, a group without a membership included, nothing is written. *)
Theorem AcceptBatch_atomic now messages p used p' out :
  pinv p used -> (forall m, m ∈ messages -> mv_EventID m ∉ used) ->
  AcceptBatch library encode_payload now messages p = (p', out) ->
  match out with
  | Ok receipts => exists rs,
      Forall2 (fun m r => record_spec library encode_payload p m = Ok r /\
        exists s, p_membership p !! r_Group r = Some s /\ GetScalingGroup library m = Ok (r_Group r) /\
          if routable (ms_Phase s) then r_State r = StateReady /\ routed_by s r
          else r_State r = StateUnassigned) messages rs /\
      recs (p_outbox p') = recs (p_outbox p) ++ stamp now (st_nextSeq (p_outbox p)) rs /\
      receipts = receiptFor <$> stamp now (st_nextSeq (p_outbox p)) rs
  | Err _ => recs (p_outbox p') = recs (p_outbox p)
  end.
Proof.
  intros Hp Hn H. destruct (AcceptBatch_ok _ _ _ _ _ _ _ _ _ Hp Hn H) as (_ & _ & Hout).
  destruct out as [receipts|e]; [|done]. destruct Hout as (rs & Hb & Hr & Hrc). exists rs.
  split; [|done]. clear -Hp Hb. revert rs Hb. induction messages as [|m ms IH]; intros rs Hb; cbn in Hb.
  { by injection Hb as <-. }
  destruct (record_spec library encode_payload p m) as [r|e] eqn:Er; [|done]. cbn in Hb.
  destruct (batch_spec library encode_payload p ms) as [rs'|e]; [|done]. injection Hb as <-.
  constructor; [|by apply IH]. split; [done|]. unfold record_spec in Er.
  destruct (draft library encode_payload p m) as [[d s]|e] eqn:Ed; [|done]. cbn in Er.
  destruct (draft_ok _ _ _ _ _ _ _ _ Hp Ed) as (H1 & H2 & H3 & H4 & H5 & H6).
  destruct (routable (ms_Phase s)) eqn:Ep.
  - destruct (route library (r_Hash d) s) as [a|] eqn:Ea; [|done]. cbn in Er. injection Er as <-.
    exists s. rewrite Ep. split_and!; [done|done|done|]. split_and!; [done|done|]. cbn. rewrite Ea.
    by destruct a.
  - injection Er as <-. exists s. by rewrite Ep.
Qed.

End Theorems.

(** ** Where the code stops short *)
Section Gaps.
Context {net_url : NetURL}.

(** The consumer sets of the resources on a broker. *)
Definition sets_on (broker : string) (resources : list EpochResourceIdentity) : list string :=
  er_ConsumerSet <$> filter (fun r => er_BrokerID r = broker) resources.

Lemma resources_loop_sets epoch brokers resources : forall acc acc',
  resources_loop epoch brokers acc resources = Ok acc' ->
  ra_consumerSets acc' = list_to_set (er_ConsumerSet <$> resources) ∪ ra_consumerSets acc /\
  forall b, broker_sets acc' b = list_to_set (sets_on b resources) ∪ broker_sets acc b.
Proof.
  induction resources as [|r rest IH]; intros acc acc' H; cbn [resources_loop] in H.
  { injection H as <-. split; [set_solver|]. intros b. set_solver. }
  repeat match type of H with
  | context [fail_if ?c ?e] => destruct (fail_if c e); [|done]
  | context [validateNameComponent ?s] => destruct (validateNameComponent s); [|done]
  | context [validateIdentifier ?s] => destruct (validateIdentifier s); [|done]
  end.
  destruct (IH _ _ H) as [H1 H2]. cbn in H1. split; [rewrite H1; set_solver|].
  intros b. rewrite (H2 b). unfold sets_on. rewrite filter_cons.
  unfold broker_sets at 1. cbn [ra_brokerSets]. case_decide as E.
  - rewrite <- E, lookup_insert_eq. cbn [default]. rewrite fmap_cons, list_to_set_cons. set_solver.
  - rewrite lookup_insert_ne by congruence. done.
Qed.

(** In valid resources every member serves every consumer set. *)
Lemma validateResources_cover resources epoch membership b :
  validateResources resources epoch membership = nil_err -> b ∈ membership ->
  size (list_to_set (sets_on b resources) : gset string) =
  size (list_to_set (er_ConsumerSet <$> resources) : gset string).
Proof.
  unfold validateResources. destruct (fail_if _ _); [|done].
  destruct (resources_loop _ _ _ _) as [acc|] eqn:El; [|done]. intros H Hb.
  destruct (resources_loop_sets _ _ _ _ _ El) as [H1 H2]. cbn in H1. specialize (H2 b).
  unfold broker_sets at 2 in H2. cbn in H2. rewrite lookup_empty in H2. cbn in H2.
  apply for_each_ok in H. rewrite Forall_forall in H. specialize (H b Hb). cbn in H.
  destruct (fail_if _ _) as [[]|] eqn:Ef; [|done].
  apply fail_if_ok, negb_false_iff, bool_decide_eq_true in Ef.
  rewrite H1, H2, !(union_empty_r_L (_ : gset string)) in Ef. exact Ef.
Qed.

(** A route exists only where the broker has one resource. *)
Lemma resource_loop_single broker resources : forall matched destination out,
  resource_loop broker matched destination resources = Ok out ->
  (length (sets_on broker resources) <= if matched then 0 else 1)%nat.
Proof.
  unfold sets_on. induction resources as [|r rest IH]; intros matched destination out H; cbn in H.
  { destruct matched; cbn; lia. }
  rewrite filter_cons. destruct (str_eqb (er_BrokerID r) broker) eqn:E; cbn [negb] in H.
  - apply str_eqb_true in E. rewrite decide_True by done. destruct matched; [done|].
    apply IH in H. cbn in *. lia.
  - rewrite decide_False; [by eapply IH|]. intros Heq. by rewrite Heq, str_eqb_refl in E.
Qed.

Lemma set_of_few (l : list string) : (length l <= 1)%nat -> (size (list_to_set l : gset string) <= 1)%nat.
Proof.
  destruct l as [|x [|]]; cbn; intros H; [|rewrite union_empty_r_L, size_singleton|]; try lia.
  by rewrite size_empty; lia.
Qed.
Lemma set_of_two (l : list string) x y :
  x ∈ l -> y ∈ l -> x <> y -> (2 <= size (list_to_set l : gset string))%nat.
Proof.
  intros Hx Hy Hn. assert (E : (size ({[x; y]} : gset string) = 2)%nat).
  { rewrite size_union by set_solver. by rewrite !size_singleton. }
  rewrite <- E. apply subseteq_size. intros z. rewrite elem_of_list_to_set. set_solver.
Qed.

(** A valid snapshot whose resources serve more than one consumer set gives
    no route to any message: every member carries one resource per consumer
    set, and [assignmentFor] takes the second for a duplicate of the broker. *)
Theorem consumer_sets_unroutable {P} (library : CustomerLibrary P) s r1 r2 h :
  Validate s = nil_err -> r1 ∈ ms_CurrentResources s -> r2 ∈ ms_CurrentResources s ->
  er_ConsumerSet r1 <> er_ConsumerSet r2 -> exists e, route library h s = Err e.
Proof.
  intros Hv H1 H2 Hne. destruct (route library h s) as [a|e] eqn:Er; [exfalso|by exists e].
  assert (Hr : validateResources (ms_CurrentResources s) (ms_Epoch s) (ms_CurrentMembership s) = nil_err).
  { unfold Validate in Hv. destruct (validate_common s) as [[]|] eqn:E; [|done]. unfold validate_common in E.
    repeat match type of E with match ?c with Ok _ => _ | Err _ => _ end = _ => destruct c; [|done] end.
    done. }
  unfold route in Er. destruct (ParseBusinessHash h); [|done]. destruct (RoutingPolicy library); [|done].
  destruct (RendezvousBroker _ _ _ _) as [b|] eqn:Eb; [|done].
  apply RendezvousBroker_ok in Eb as (_ & _ & Hb & _).
  rewrite bool_decide_eq_false_2 in Er by (intros E; rewrite E in H1; by apply elem_of_nil in H1).
  destruct (resource_loop _ _ _ _) as [out|] eqn:El; [|done]. apply resource_loop_single in El.
  pose proof (set_of_few _ El) as Hfew. rewrite (validateResources_cover _ _ _ _ Hr Hb) in Hfew.
  pose proof (set_of_two (er_ConsumerSet <$> ms_CurrentResources s) _ _
    (list_elem_of_fmap_2 _ _ _ H1) (list_elem_of_fmap_2 _ _ _ H2) Hne). lia.
Qed.

(** [FailClosed] forgets which revision was installed: an older snapshot
    that [ApplyMembership] refuses as stale is installed after it, so the group
    comes back into use without a newer snapshot. *)
Lemma FailClosed_readmits_older {P} (library : CustomerLibrary P) {B} `{!Bolt B}
    now older current contract (p : Publisher B) :
  Validate older = nil_err -> membership_contract library p older = Ok contract ->
  p_membership p !! ms_ScalingGroup older = Some current ->
  ms_Revision older < ms_Revision current -> ms_Phase older <> CActive ->
  let closed := fst (FailClosed (ms_ScalingGroup older) p) in
  snd (ApplyMembership library now older p) = Err (ErrWrap "apply membership" ErrStaleMembership) /\
  snd (ApplyMembership library now older closed) = nil_err /\
  p_membership (fst (ApplyMembership library now older closed)) !! ms_ScalingGroup older = Some older.
Proof.
  intros Hv Hc Hm Hr Ha closed. unfold ApplyMembership. rewrite Hv, Hc, Hm.
  rewrite (proj2 (Z.leb_le _ _)) by lia. rewrite (proj2 (Z.eqb_neq _ _)) by lia. split; [done|].
  assert (Hne : str_empty (ms_ScalingGroup older) = false).
  { unfold Validate, validate_common in Hv. destruct (fail_if _ _); [|done].
    destruct (if str_empty (ms_Namespace older) then _ else _); [|done].
    destruct (if str_empty (ms_LibraryVersion older) then _ else _); [|done].
    unfold validateIdentifier in Hv. by destruct (str_empty (ms_ScalingGroup older)). }
  subst closed. unfold FailClosed. rewrite Hne. cbn [fst]. unfold membership_contract in *. cbn.
  rewrite Hc, lookup_delete_eq. unfold install_membership. rewrite bool_decide_eq_false_2 by done. cbn.
  by rewrite lookup_insert_eq.
Qed.
End Gaps.
