(* ===== verification/PublisherScenario.v ===== *)
(** * A publisher through a scale-out

    A concrete publisher over an in-memory database: it accepts under an ACTIVE
    membership of one broker, buffers while the group is PAUSED, and routes to
    the second broker once the next epoch is ACTIVE.  The theorems about the
    publisher are instantiated at its states. *)

From S2P Require Import Prelude Customer Routing Snapshot Heap Outbox OutboxIndex OutboxMemory.
From S2P Require Import OutboxStore OutboxComplete OutboxLoad OutboxTheorems.
From S2P Require Import OutboxScenario.
From S2P Require Import Publisher PublisherInv PublisherRun PublisherTheorems.
From Stdlib Require Import ZArith Lia String.
From stdpp Require Import base gmap strings numbers relations option list.
#[local] Open Scope Z_scope.
#[local] Open Scope string_scope.

#[local] Instance demo_urls : NetURL := fun s =>
  if str_eqb s "amqps://b1:5671" then Some (mkURL "amqps" "b1:5671" None "" "" "") else
  if str_eqb s "amqps://b2:5671" then Some (mkURL "amqps" "b2:5671" None "" "" "") else
  None.

(** Messages of one group; the payload decides the hash, and [by_name] prefers
    the broker with the larger name. *)
Definition demo_library : CustomerLibrary string :=
  mkCustomerLibrary (fun _ => Ok "orders")
    (fun m => Ok (replicate 32 (len (mv_Payload m)))) (Some by_name).
Definition demo_encode (payload : string) : result (list Z) := Ok (bytes_of payload).

Definition demo_resource (epoch : Z) (broker consumers queue : string) : EpochResourceIdentity :=
  mkEpochResourceIdentity epoch broker consumers queue ("orders/" +:+ broker +:+ "/>").
Definition b1 : BrokerDescriptor := mkBrokerDescriptor "b1" "amqps://b1:5671".
Definition b2 : BrokerDescriptor := mkBrokerDescriptor "b2" "amqps://b2:5671".
Definition old_resources := [demo_resource 1 "b1" "all" "q.b1.1"].
Definition new_resources := [demo_resource 2 "b1" "all" "q.b1.2"; demo_resource 2 "b2" "all" "q.b2.2"].

Definition settled (revision epoch : Z) (members : list string) (brokers : list BrokerDescriptor)
    (resources : list EpochResourceIdentity) : MembershipSnapshot :=
  mkMembershipSnapshot SnapshotVersion "ns" "v1" "orders" revision epoch CActive "customer-v1" "by-name"
    members [] brokers [] None (mkQueueInfo "orders" true)
    (mkDestinationInfo DestinationTopic "orders/in") resources [].
Definition moving (revision : Z) (phase : CtlPhase) : MembershipSnapshot :=
  mkMembershipSnapshot SnapshotVersion "ns" "v1" "orders" revision 1 phase "customer-v1" "by-name"
    ["b1"] ["b1"; "b2"] [b1] [b1; b2] (Some (mkTransition "t-1" 1 2)) (mkQueueInfo "orders" true)
    (mkDestinationInfo DestinationTopic "orders/in") old_resources new_resources.
Definition one_broker : MembershipSnapshot := settled 1 1 ["b1"] [b1] old_resources.
Definition preparing : MembershipSnapshot := moving 2 CPrepare.
Definition paused : MembershipSnapshot := moving 3 CPaused.
Definition two_brokers : MembershipSnapshot := settled 4 2 ["b1"; "b2"] [b1; b2] new_resources.

Definition demo_authority (group : string) (revision : Z) : option MembershipSnapshot :=
  if str_eqb group "orders"
  then list_find (fun s => ms_Revision s = revision) [one_broker; preparing; paused; two_brokers]
         ≫= fun '(_, s) => Some s
  else None.

Definition demo_config : Config Disk string :=
  mkConfig _ _ (Some opened) (Some demo_library) true ∅ "orders" "customer-v1" "v1".
Definition blank : Publisher Disk := mkPublisher opened ∅ ∅ ∅ [] 0.
Definition fresh_publisher : Publisher Disk :=
  match New demo_config with Ok p => p | Err _ => blank end.

Definition message (id payload : string) : MessageView string := mkMessageView "orders/new" ∅ payload id.

(** ** A run *)
Definition state : Type := Publisher Disk * gset string.
Inductive input := Take (ms : list (MessageView string)) | Learn (s : MembershipSnapshot).
Definition act (c : state) (i : input) : state :=
  match i with
  | Take ms => (fst (AcceptBatch demo_library demo_encode 10 ms (fst c)),
                list_to_set (mv_EventID <$> ms) ∪ snd c)
  | Learn s => (fst (ApplyMembership demo_library 11 s (fst c)), snd c)
  end.
Definition act_ok (c : state) (i : input) : bool :=
  match i with
  | Take ms => forallb (fun m => bool_decide (mv_EventID m ∉ snd c)) ms
  | Learn s => bool_decide (demo_authority (ms_ScalingGroup s) (ms_Revision s) = Some s)
  end.
Fixpoint acts_ok (c : state) (l : list input) : bool :=
  match l with [] => true | i :: l => act_ok c i && acts_ok (act c i) l end.
Definition after (l : list input) : state := foldl act (fresh_publisher, ∅) l.

Definition until_paused : list input :=
  [Learn one_broker; Take [message "e1" "x"; message "e2" "x"; message "e3" "yy"];
   Learn preparing; Learn paused].
Definition until_buffered : list input := until_paused ++ [Take [message "e4" "zzz"]].
Definition until_active : list input := until_buffered ++ [Learn two_brokers].

Lemma after_snoc l i : after (l ++ [i])%list = act (after l) i.
Proof. apply foldl_snoc. Qed.

Abbreviation demo_step := (pub_step demo_library demo_encode demo_authority).
Abbreviation demo_inv := (pinv demo_library demo_authority).

Lemma acts_steps (l : list input) : forall c, acts_ok c l = true -> rtc demo_step c (foldl act c l).
Proof.
  induction l as [|i l IH]; intros c H; [done|]. cbn in H. apply andb_true_iff in H as [H1 H2].
  eapply rtc_l; [|by apply IH]. destruct c as [p used], i as [ms|s]; cbn in *.
  - apply (ps_accept _ _ _ 10 ms p _ (snd (AcceptBatch demo_library demo_encode 10 ms p))).
    + intros m Hm. by apply (forallb_elem _ _ H1), bool_decide_eq_true in Hm.
    + by destruct (AcceptBatch _ _ _ _ _).
  - apply bool_decide_eq_true in H1.
    apply (ps_apply _ _ _ 11 s p _ (snd (ApplyMembership demo_library 11 s p))); [done|].
    by destruct (ApplyMembership _ _ _ _).
Qed.

Lemma fresh_started : started demo_library demo_authority demo_config fresh_publisher ∅.
Proof.
  split; [vm_compute; reflexivity| |].
  - assert (E : p_outbox fresh_publisher = opened) by (vm_compute; reflexivity). rewrite E.
    exact opened_inv.
  - assert (E : recs (p_outbox fresh_publisher) = []) by (vm_compute; reflexivity). rewrite E.
    intros r Hr. destruct (proj1 (elem_of_nil r) Hr).
Qed.

Lemma run_of l : acts_ok (fresh_publisher, ∅) l = true -> rtc demo_step (fresh_publisher, ∅) (after l).
Proof. apply acts_steps. Qed.
Lemma inv_after l : acts_ok (fresh_publisher, ∅) l = true -> demo_inv (fst (after l)) (snd (after l)).
Proof.
  intros H. apply (pub_steps_inv _ _ _ _ _ (run_of l H)). exact (started_inv _ _ _ _ _ fresh_started).
Qed.

Definition active : Publisher Disk := fst (after until_active).
Definition active_ids : gset string := snd (after until_active).
Lemma active_run : rtc demo_step (fresh_publisher, ∅) (active, active_ids).
Proof. unfold active, active_ids. rewrite <- surjective_pairing. apply run_of. vm_compute. reflexivity. Qed.
Lemma active_pinv : demo_inv active active_ids.
Proof. apply inv_after. vm_compute. reflexivity. Qed.

(** ** Witnesses *)
Lemma publisher_invariant_witness :
  (sinv (p_outbox active) /\
   (forall g s, p_membership active !! g = Some s ->
      ms_ScalingGroup s = g /\ published demo_authority s /\ Validate s = nil_err) /\
   (forall r, r ∈ recs (p_outbox active) ->
      r_State r = StateUnassigned \/ exists s, routed_by demo_library demo_authority s r) /\
   Z.of_nat (size (p_placementCache active)) <= p_placementLimit active /\
   (forall h s, published demo_authority s ->
      snd (assignmentFor demo_library active h s) = route demo_library h s)) /\
  r_Broker <$> Records (p_outbox active) = ["b2"; "b2"; "b2"; "b2"].
Proof.
  split; [|vm_compute; reflexivity].
  exact (publisher_invariant demo_library demo_encode demo_authority demo_config fresh_publisher ∅
    active active_ids fresh_started active_run).
Defined.

Definition buffering : Publisher Disk := fst (after until_buffered).
Definition buffering_ids : gset string := snd (after until_buffered).
Lemma buffering_pinv : demo_inv buffering buffering_ids.
Proof. apply inv_after. vm_compute. reflexivity. Qed.
Lemma two_brokers_published : published demo_authority two_brokers.
Proof. vm_compute. reflexivity. Qed.
Lemma active_eq : active = fst (ApplyMembership demo_library 11 two_brokers buffering).
Proof.
  unfold active, until_active, buffering. rewrite after_snoc. generalize (after until_buffered).
  intros [p used]. reflexivity.
Qed.
Lemma activation_succeeds :
  ApplyMembership demo_library 11 two_brokers buffering = (active, nil_err).
Proof. rewrite active_eq. apply pair_snd. vm_compute. reflexivity. Qed.

Lemma ApplyMembership_all_or_nothing_witness :
  (active = buffering /\ p_membership buffering !! ms_ScalingGroup two_brokers = Some two_brokers \/
   installed demo_library demo_authority two_brokers buffering active /\
   (forall current, p_membership buffering !! ms_ScalingGroup two_brokers = Some current ->
      ms_Revision current < ms_Revision two_brokers)) /\
  r_State <$> Records (p_outbox buffering) = [StateReady; StateReady; StateReady; StateUnassigned].
Proof.
  split; [|vm_compute; reflexivity].
  exact (ApplyMembership_all_or_nothing demo_library demo_authority 11 two_brokers buffering
    buffering_ids active nil_err buffering_pinv two_brokers_published activation_succeeds).
Defined.

Definition late : list (MessageView string) := [message "e5" "zzz"; message "e6" "wwww"].
Definition late_accepted : Publisher Disk := fst (AcceptBatch demo_library demo_encode 10 late active).
Definition late_receipts : list Receipt :=
  match snd (AcceptBatch demo_library demo_encode 10 late active) with Ok l => l | Err _ => [] end.
Lemma late_succeeds : is_ok (snd (AcceptBatch demo_library demo_encode 10 late active)) = true.
Proof. vm_compute. reflexivity. Qed.
Lemma ok_pair {A C} (x : A * result C) d :
  is_ok (snd x) = true -> x = (fst x, Ok (match snd x with Ok l => l | Err _ => d end)).
Proof. by destruct x as [a []]. Qed.
Lemma late_eq : AcceptBatch demo_library demo_encode 10 late active = (late_accepted, Ok late_receipts).
Proof. exact (ok_pair _ [] late_succeeds). Qed.
Lemma late_new m : m ∈ late -> mv_EventID m ∉ active_ids.
Proof.
  intros Hm. apply (bool_decide_eq_true (mv_EventID m ∉ active_ids)).
  refine (forallb_elem (fun m => bool_decide (mv_EventID m ∉ active_ids)) late _ m Hm).
  vm_compute. reflexivity.
Qed.

Lemma AcceptBatch_atomic_witness :
  (exists rs,
     Forall2 (fun m r => record_spec demo_library demo_encode active m = Ok r /\
       exists s, p_membership active !! r_Group r = Some s /\
         GetScalingGroup demo_library m = Ok (r_Group r) /\
         if routable (ms_Phase s)
         then r_State r = StateReady /\ routed_by demo_library demo_authority s r
         else r_State r = StateUnassigned) late rs /\
     recs (p_outbox late_accepted) =
       (recs (p_outbox active) ++ stamp 10 (st_nextSeq (p_outbox active)) rs)%list /\
     late_receipts = receiptFor <$> stamp 10 (st_nextSeq (p_outbox active)) rs) /\
  rt_Broker <$> late_receipts = ["b2"; "b2"].
Proof.
  split; [|vm_compute; reflexivity].
  exact (AcceptBatch_atomic demo_library demo_encode demo_authority 10 late active active_ids
    late_accepted (Ok late_receipts) active_pinv late_new late_eq).
Defined.

(** A broker that acknowledges everything, and nobody else. *)
Definition alone : Env Disk unit :=
  mkEnv _ _ (fun w _ _ => (w, (OutcomeAcknowledged, None))) (fun w => (w, None)) (fun w => (w, 20))
    (fun w p => (w, p)) (fun w p => (w, p)).
Lemma alone_lawful : lawful demo_library demo_encode demo_authority alone.
Proof.
  split; intros w p used _; [exists used; apply rtc_refl|].
  split; [exists used; apply rtc_refl|reflexivity].
Qed.

Definition dispatched := Dispatch alone 10 tt active.

(** Two consumer sets, as a group with two independent subscriptions has. *)
Definition two_sets : MembershipSnapshot :=
  settled 5 2 ["b1"] [b1] [demo_resource 2 "b1" "billing" "q.b1.billing"; demo_resource 2 "b1" "audit" "q.b1.audit"].
Lemma consumer_sets_unroutable_witness :
  Validate two_sets = nil_err /\ exists e, route demo_library "00" two_sets = Err e.
Proof.
  split; [vm_compute; reflexivity|].
  apply (consumer_sets_unroutable demo_library two_sets
    (demo_resource 2 "b1" "billing" "q.b1.billing") (demo_resource 2 "b1" "audit" "q.b1.audit")).
  - vm_compute. reflexivity.
  - left.
  - right. left.
  - discriminate.
Defined.

Definition held : Publisher Disk := fst (after until_paused).
Example FailClosed_older_installed :
  let closed := fst (FailClosed (ms_ScalingGroup preparing) held) in
  (snd (ApplyMembership demo_library 12 preparing held) =
     Err (ErrWrap "apply membership" ErrStaleMembership) /\
   snd (ApplyMembership demo_library 12 preparing closed) = nil_err /\
   p_membership (fst (ApplyMembership demo_library 12 preparing closed)) !!
     ms_ScalingGroup preparing = Some preparing) /\
  routable (ms_Phase paused) = false /\ routable (ms_Phase preparing) = true.
Proof.
  intros closed. split; [|split; reflexivity].
  apply (FailClosed_readmits_older demo_library 12 preparing paused
    (mkContract "customer-v1" "v1") held).
  - vm_compute. reflexivity.
  - vm_compute. reflexivity.
  - vm_compute. reflexivity.
  - vm_compute. reflexivity.
  - discriminate.
Qed.

(** ** Two dispatchers *)

(** Another [Dispatch] took [e1] from the same eligible records, and its
    publication was rejected, before this one reached the record. *)
Definition rival (n : nat) (p : Publisher Disk) : nat * Publisher Disk :=
  match n with
  | O => (1%nat, p <| p_outbox :=
           fst (MarkRejected 21 "e1" "rejected" (fst (MarkInEventsA 21 "e1" (p_outbox p)))) |>)
  | S _ => (n, p)
  end.
Definition contended : Env Disk nat :=
  mkEnv _ _ (fun w _ _ => (w, (OutcomeAcknowledged, None))) (fun w => (w, None)) (fun w => (w, 22))
    rival (fun w p => (w, p)).

(** With two dispatchers an acknowledged record can be stranded: [Dispatch]
    settles with the attempt count it read before it marked the record, so when
    another dispatcher made an attempt in between, the acknowledgement is
    refused as stale, and the record stays in flight, neither delivered nor
    retried, and holds back its ordering key. *)
Theorem Dispatch_strands_acknowledged :
  let d := Dispatch contended 10 O active in
  Get "e1" (p_outbox (ds_pub d)) =
    Ok (default zero_rec (st_records (p_outbox (ds_pub d)) !! "e1")) /\
  r_State (default zero_rec (st_records (p_outbox (ds_pub d)) !! "e1")) = StateInEventsA /\
  r_Attempts (default zero_rec (st_records (p_outbox (ds_pub d)) !! "e1")) = 2 /\
  dr_Acknowledged (ds_report d) = 2 /\ dr_Attempted (ds_report d) = 3 /\
  errors_Is (default (ErrNew "") (head (ds_errors d))) ErrInvalidState = true /\
  r_EventID <$> Records (p_outbox (ds_pub d)) = ["e1"; "e2"] /\
  EligibleFor 10 (Some (activeEpochs (ds_pub d))) None (p_outbox (ds_pub d)) = [].
Proof.
  intros d. split_and!; vm_compute; reflexivity.
Qed.
