(* ===== verification/Async.v ===== *)
(** * The asynchronous dispatcher (shim/publisher/async_dispatcher.go)

    An [AsyncDispatcher] marks a batch of records in flight, hands each to the
    broker from a goroutine of its own, and a worker writes the terminal results
    to the outbox in batches.  Each region the code runs under one lock is a
    function here; the goroutines (one [Dispatch] at a time, the submissions,
    the futures being awaited, the completion worker, [Close]) are the [System],
    and AsyncRun.v interleaves their regions. *)

From S2P Require Import Prelude Customer Routing Snapshot Outbox Publisher.
From Stdlib Require Import ZArith Lia String.
From stdpp Require Import base gmap strings numbers option list.
#[local] Open Scope Z_scope.

Definition ErrDispatcherClosed := ErrNew "async dispatcher is closed".
Definition completionRetryInitialDelay : Z := 10000000.
Definition completionRetryMaxDelay : Z := 1000000000.

(** ** Data *)
Record PublishAttempt := mkPublishAttempt {
  pa_EventID : string;
  pa_Number : Z;
  pa_Epoch : Z;
}.

#[export] Instance PublishAttempt_eq_dec : EqDecision PublishAttempt.
Proof. solve_decision. Defined.

Record AsyncPublishResult := mkAsyncPublishResult {
  ar_Attempt : PublishAttempt;
  ar_Outcome : PublishOutcome;
  ar_Err : option gerror;
}.

Record TerminalAttemptObservation := mkObservation {
  ob_Group : string;
  ob_AttemptNumber : Z;
  ob_Epoch : Z;
  ob_Outcome : PublishOutcome;
  ob_BrokerLatency : Z;
}.

(** [AttemptObserver] is only whether there is one. *)
Record AsyncDispatcherConfig := mkAsyncConfig {
  ac_MaxInEventsA : Z;
  ac_MaxInEventsAPerBroker : Z;
  ac_AckTimeout : Z;
  ac_CompletionBatchSize : Z;
  ac_CompletionFlushPeriod : Z;
  ac_AttemptObserver : bool;
}.

#[export] Instance eta_AsyncDispatcherConfig : Eta AsyncDispatcherConfig := fun c =>
  mkAsyncConfig (ac_MaxInEventsA c) (ac_MaxInEventsAPerBroker c) (ac_AckTimeout c)
    (ac_CompletionBatchSize c) (ac_CompletionFlushPeriod c) (ac_AttemptObserver c).

(** [Phase] is [None] where the code leaves the empty string. *)
Record DispatcherStatus := mkDispatcherStatus {
  ss_Group : string;
  ss_Phase : option CtlPhase;
  ss_Epoch : Z;
  ss_TransitionID : string;
  ss_Paused : bool;
  ss_Quiescent : bool;
  ss_InEventsA : Z;
  ss_NativeInEventsA : Z;
  ss_DurableInEventsA : Z;
  ss_AckUncertain : Z;
  ss_Acknowledged : Z;
  ss_Rejected : Z;
  ss_Uncertain : Z;
  ss_LastError : option gerror;
}.

Record dispatcherCounters := mkCounters {
  ct_acknowledged : Z;
  ct_rejected : Z;
  ct_uncertain : Z;
  ct_lastError : option gerror;
}.

#[export] Instance eta_dispatcherCounters : Eta dispatcherCounters := fun c =>
  mkCounters (ct_acknowledged c) (ct_rejected c) (ct_uncertain c) (ct_lastError c).

Record pendingAttempt := mkPendingAttempt {
  pd_attempt : PublishAttempt;
  pd_group : string;
  pd_broker : string;
}.

Record completedAttempt := mkCompletedAttempt {
  cm_attempt : PublishAttempt;
  cm_outcome : PublishOutcome;
  cm_err : option gerror;
  cm_brokerLatency : Z;
}.
Definition cm_id (c : completedAttempt) : string := pa_EventID (cm_attempt c).

(** The dispatcher.  [ad_changed] counts the channels [signalLocked] has closed;
    [ad_stopped] also says that [stop] is closed. *)
Record AsyncDispatcher (B : Type) := mkAsyncDispatcher {
  ad_publisher : Publisher B;
  ad_config : AsyncDispatcherConfig;
  ad_pending : gmap string pendingAttempt;
  ad_counters : gmap string dispatcherCounters;
  ad_changed : Z;
  ad_closed : bool;
  ad_stopped : bool;
  ad_completions : list completedAttempt;
  ad_persistenceRetry : list completedAttempt;
}.
Arguments mkAsyncDispatcher {B}.
Arguments ad_publisher {B}.
Arguments ad_config {B}.
Arguments ad_pending {B}.
Arguments ad_counters {B}.
Arguments ad_changed {B}.
Arguments ad_closed {B}.
Arguments ad_stopped {B}.
Arguments ad_completions {B}.
Arguments ad_persistenceRetry {B}.

#[export] Instance eta_AsyncDispatcher {B} : Eta (AsyncDispatcher B) := fun d =>
  mkAsyncDispatcher (ad_publisher d) (ad_config d) (ad_pending d) (ad_counters d) (ad_changed d)
    (ad_closed d) (ad_stopped d) (ad_completions d) (ad_persistenceRetry d).

(** The checks and defaults of the configuration. *)
Definition async_config (config : AsyncDispatcherConfig) : result AsyncDispatcherConfig :=
  fail_if ((ac_MaxInEventsA config <=? 0) || (ac_AckTimeout config <=? 0))
    (ErrWrap "positive max in-progress and ACK timeout are required" ErrInvalidConfig) ;;!
  fail_if ((ac_MaxInEventsAPerBroker config <? 0) ||
           (ac_MaxInEventsA config <? ac_MaxInEventsAPerBroker config))
    (ErrWrap "per-broker max in-progress must be between zero and the global maximum"
       ErrInvalidConfig) ;;!
  fail_if ((ac_CompletionBatchSize config <? 0) || (ac_CompletionFlushPeriod config <? 0))
    (ErrWrap "completion batch settings must not be negative" ErrInvalidConfig) ;;!
  let config :=
    if ac_CompletionBatchSize config =? 0 then config <| ac_CompletionBatchSize := 64 |>
    else config in
  Ok (if ac_CompletionFlushPeriod config =? 0
      then config <| ac_CompletionFlushPeriod := 1000000 |> else config).

(** Nil pointers and interfaces are [None] and [false]. *)
Definition NewAsyncDispatcher {B} (publisher : option (Publisher B)) (broker : bool)
    (config : AsyncDispatcherConfig) : result (AsyncDispatcher B) :=
  match publisher, broker with
  | Some publisher, true =>
      let! config := async_config config in
      Ok (mkAsyncDispatcher publisher config ∅ ∅ 0 false false [] [])
  | _, _ => Err (ErrWrap "publisher and async broker are required" ErrInvalidConfig)
  end.

Section Dispatcher.
Context {B : Type} `{!Bolt B}.
Implicit Types d : AsyncDispatcher B.

Definition signalLocked d : AsyncDispatcher B := d <| ad_changed := ad_changed d + 1 |>.

Definition zero_counters : dispatcherCounters := mkCounters 0 0 0 None.
Definition counterLocked (group : string) d : dispatcherCounters :=
  default zero_counters (ad_counters d !! group).
Definition set_counter (group : string) (c : dispatcherCounters) d : AsyncDispatcher B :=
  d <| ad_counters := <[group := c]> (ad_counters d) |>.

(** ** Dispatch *)
Definition attempt_of (record : Rec) : PublishAttempt :=
  mkPublishAttempt (r_EventID record) (u64 (r_Attempts record + 1)) (r_Epoch record).
Definition pending_of (record : Rec) : pendingAttempt :=
  mkPendingAttempt (attempt_of record) (r_Group record) (r_Broker record).

Definition pending_on (broker : string) (pending : gmap string pendingAttempt) : Z :=
  Z.of_nat (size (filter (fun '(_, p) => pd_broker p = broker) pending)).

(** Under [d.mu]: the limit that is left and the attempts per broker, [None]
    when [Dispatch] returns at once. *)
Definition measure (limit : Z) d : result (option (Z * (string -> Z))) :=
  if ad_closed d then Err ErrDispatcherClosed else
  let available := ac_MaxInEventsA (ad_config d) - Z.of_nat (size (ad_pending d)) in
  let pendingByBroker :=
    if 0 <? ac_MaxInEventsAPerBroker (ad_config d)
    then fun broker => pending_on broker (ad_pending d) else fun _ => 0 in
  if available <=? 0 then Ok None else Ok (Some (Z.min limit available, pendingByBroker)).

(** The slots of the brokers of the groups that may publish. *)
Definition brokerSlots (pendingByBroker : string -> Z) d : option (gmap string Z) :=
  let most := ac_MaxInEventsAPerBroker (ad_config d) in
  if 0 <? most
  then
    Some (list_to_map
      (snapshot ← (map_to_list (p_membership (ad_publisher d))).*2;
       if routable (ms_Phase snapshot)
       then (fun broker => (broker, Z.max 0 (most - pendingByBroker broker)))
              <$> ms_CurrentMembership snapshot
       else []))
  else None.

(** Under the publisher's read lock: the records to publish. *)
Definition select_records (limit : Z) (pendingByBroker : string -> Z) d : list Rec :=
  EligibleFor limit (Some (activeEpochs (ad_publisher d))) (brokerSlots pendingByBroker d)
    (p_outbox (ad_publisher d)).

Definition set_outbox (o : Store B) d : AsyncDispatcher B :=
  d <| ad_publisher := ad_publisher d <| p_outbox := o |> |>.

(** The batch becomes durably in flight. *)
Definition mark_records (now : Time) (records : list Rec) d : AsyncDispatcher B * gerr :=
  let '(o, err) := MarkInEventsABatch now (r_EventID <$> records) (p_outbox (ad_publisher d)) in
  (set_outbox o d, err).

(** Under [d.mu]: the attempts become pending. *)
Definition register (records : list Rec) d : AsyncDispatcher B :=
  signalLocked (d <| ad_pending :=
    foldl (fun pending record => <[r_EventID record := pending_of record]> pending)
      (ad_pending d) records |>).

(** What [PublishAsync] answers: an error, a nil future or a future. *)
Inductive submission : Type :=
| SubmitFailed (err : gerror) | SubmitNil | SubmitFuture.

(** A submission's goroutine up to [submissions.Done()]: the immediate
    rejection, or [None] when it goes on to await the future. *)
Definition submit (record : Rec) (answer : submission) (latency : Z) : option completedAttempt :=
  match answer with
  | SubmitFailed err =>
      Some (mkCompletedAttempt (attempt_of record) OutcomeRejected (Some err) latency)
  | SubmitNil =>
      Some (mkCompletedAttempt (attempt_of record) OutcomeRejected
              (Some (ErrNew "async broker returned a nil future")) latency)
  | SubmitFuture => None
  end.

(** The error [Dispatch] reports for one immediate rejection. *)
Definition rejection_error : gerror := ErrWrap "publish" ErrPublishRejected.

(** The terminal result of an awaited future: what [Await] returned. *)
Definition await (attempt : PublishAttempt) (answer : gerror + AsyncPublishResult) (latency : Z)
    : completedAttempt :=
  match answer with
  | inl err => mkCompletedAttempt attempt OutcomeUnknown (Some err) latency
  | inr result =>
      if negb (bool_decide (ar_Attempt result = attempt))
      then mkCompletedAttempt attempt OutcomeUnknown
             (Some (ErrNew "publish correlation mismatch")) latency else
      if bool_decide (ar_Outcome result = OutcomeAcknowledged) && bool_decide (ar_Err result = None)
      then mkCompletedAttempt attempt OutcomeAcknowledged (ar_Err result) latency else
      if bool_decide (ar_Outcome result = OutcomeRejected)
      then mkCompletedAttempt attempt OutcomeRejected (ar_Err result) latency
      else mkCompletedAttempt attempt OutcomeUnknown (ar_Err result) latency
  end.

(** ** Applying terminal results *)
Definition completion_update (c : completedAttempt) : Completion :=
  let a := cm_attempt c in
  match cm_outcome c with
  | OutcomeAcknowledged =>
      mkCompletion (pa_EventID a) (pa_Number a) (pa_Epoch a) CompletionAcknowledged ""
  | OutcomeRejected =>
      mkCompletion (pa_EventID a) (pa_Number a) (pa_Epoch a) CompletionRejected
        (errorText (cm_err c) ErrPublishRejected)
  | _ =>
      mkCompletion (pa_EventID a) (pa_Number a) (pa_Epoch a) CompletionAckUncertain
        (errorText (cm_err c) ErrAckUncertain)
  end.

(** How far an [applyCompletions] has come: waiting for [commitMu]; retrying the
    results one by one after the batch failed with [err]; past the durable part. *)
Inductive apply_stage : Type :=
| AWait
| AItems (todo : list completedAttempt) (applied : list Completion)
    (failed : list completedAttempt) (err : gerror)
| AAccount (applied : list Completion) (failed : list completedAttempt).

(** [CompleteBatch] of the whole batch. *)
Definition apply_batch (now : Time) (batch : list completedAttempt) d
    : AsyncDispatcher B * apply_stage :=
  let '(o, out) := CompleteBatch now (completion_update <$> batch) (p_outbox (ad_publisher d)) in
  (set_outbox o d,
   match out with
   | Ok applied => AAccount applied []
   | Err e => AItems batch [] [] e
   end).

(** [CompleteBatch] of one result. *)
Definition apply_item (now : Time) (c : completedAttempt) (todo : list completedAttempt)
    (applied : list Completion) (failed : list completedAttempt) (err : gerror) d
    : AsyncDispatcher B * apply_stage :=
  let '(o, out) := CompleteBatch now [completion_update c] (p_outbox (ad_publisher d)) in
  (set_outbox o d,
   match out with
   | Ok completed => AItems todo (applied ++ completed) failed err
   | Err _ => AItems todo applied (failed ++ [c]) err
   end).

(** Whether the attempt is the pending one of its event. *)
Definition is_pending (c : completedAttempt) d : option pendingAttempt :=
  match ad_pending d !! cm_id c with
  | Some pending => if bool_decide (pd_attempt pending = cm_attempt c) then Some pending else None
  | None => None
  end.

Definition recordPersistenceErrors (batch : list completedAttempt) (err : gerror) d
    : AsyncDispatcher B :=
  signalLocked (foldl (fun d c =>
    match is_pending c d with
    | Some pending =>
        set_counter (pd_group pending)
          (counterLocked (pd_group pending) d <| ct_lastError := Some err |>) d
    | None => d
    end) d batch).

(** Past the one-by-one retries. *)
Definition apply_recorded (failed : list completedAttempt) (err : gerror) d : AsyncDispatcher B :=
  if bool_decide (failed = []) then d else recordPersistenceErrors failed err d.

(** The counters of a group after a result that was applied (the first of the
    joined errors stands for them). *)
Definition count_outcome (outcome : PublishOutcome) (c : dispatcherCounters) : dispatcherCounters :=
  match outcome with
  | OutcomeAcknowledged => c <| ct_acknowledged := u64 (ct_acknowledged c + 1) |>
  | OutcomeRejected =>
      c <| ct_rejected := u64 (ct_rejected c + 1) |> <| ct_lastError := Some ErrPublishRejected |>
  | _ => c <| ct_uncertain := u64 (ct_uncertain c + 1) |> <| ct_lastError := Some ErrAckUncertain |>
  end.

(** One result of the batch: the dispatcher, whether a pending attempt has gone,
    and the observations. *)
Definition account_one (appliedIDs failedIDs : list string)
    (acc : AsyncDispatcher B * bool * list TerminalAttemptObservation) (c : completedAttempt)
    : AsyncDispatcher B * bool * list TerminalAttemptObservation :=
  let '(d, changed, observations) := acc in
  match is_pending c d with
  | None => acc
  | Some pending =>
      if bool_decide (cm_id c ∈ failedIDs) then acc else
      let counted := bool_decide (cm_id c ∈ appliedIDs) in
      let d1 :=
        if counted
        then set_counter (pd_group pending)
               (count_outcome (cm_outcome c) (counterLocked (pd_group pending) d)) d
        else d in
      let observations :=
        if counted && ac_AttemptObserver (ad_config d)
        then observations ++
          [mkObservation (pd_group pending) (pa_Number (cm_attempt c)) (pa_Epoch (cm_attempt c))
             (cm_outcome c) (cm_brokerLatency c)]
        else observations in
      (d1 <| ad_pending := delete (cm_id c) (ad_pending d1) |>, true, observations)
  end.

(** Under [d.mu]: the results are accounted for. *)
Definition account (batch : list completedAttempt) (applied : list Completion)
    (failed : list completedAttempt) d : AsyncDispatcher B * list TerminalAttemptObservation :=
  let '(d, changed, observations) :=
    foldl (account_one (co_EventID <$> applied) (cm_id <$> failed)) (d, false, []) batch in
  (if changed then signalLocked d else d, observations).

(** The call without interleaving: every durable part at its own time. *)
Fixpoint apply_items (now : Time) (todo : list completedAttempt) (applied : list Completion)
    (failed : list completedAttempt) (err : gerror) d
    : AsyncDispatcher B * (list Completion * list completedAttempt) :=
  match todo with
  | [] => (apply_recorded failed err d, (applied, failed))
  | c :: todo =>
      match apply_item now c todo applied failed err d with
      | (d, AItems todo' applied failed err) => apply_items now todo applied failed err d
      | (d, _) => (d, (applied, failed))
      end
  end.
Definition applyCompletions (now : Time) (batch : list completedAttempt) d
    : AsyncDispatcher B * (list completedAttempt * list TerminalAttemptObservation) :=
  let '(d, (applied, failed)) :=
    match apply_batch now batch d with
    | (d, AItems todo applied failed err) => apply_items now todo applied failed err d
    | (d, AAccount applied failed) => (d, (applied, failed))
    | (d, AWait) => (d, ([], []))
    end in
  let '(d, observations) := account batch applied failed d in
  (d, (failed, observations)).

(** ** The completion worker *)
Inductive worker_phase : Type :=
| WSelect
| WCollect (batch : list completedAttempt)
| WApply (batch : list completedAttempt) (stage : apply_stage) (stopping : bool)
| WDone.

Record worker := mkWorker {
  wk_phase : worker_phase;
  wk_retrying : gmap string completedAttempt;
  wk_retry : bool;
  wk_retryDelay : Z;
}.

#[export] Instance eta_worker : Eta worker := fun w =>
  mkWorker (wk_phase w) (wk_retrying w) (wk_retry w) (wk_retryDelay w).

Definition new_worker : worker := mkWorker WSelect ∅ false completionRetryInitialDelay.

Definition stopRetryTimer (w : worker) : worker := w <| wk_retry := false |>.
Definition scheduleRetry (w : worker) : worker :=
  if bool_decide (wk_retrying w = ∅) || wk_retry w then w else
  w <| wk_retry := true |>
    <| wk_retryDelay := Z.min (wk_retryDelay w * 2) completionRetryMaxDelay |>.

Definition insert_failed (failed : list completedAttempt) (m : gmap string completedAttempt)
    : gmap string completedAttempt :=
  foldl (fun m c => <[cm_id c := c]> m) m failed.

(** A result arrives that [Dispatch] could not persist. *)
Definition worker_receive (c : completedAttempt) (w : worker) : worker :=
  scheduleRetry (w <| wk_retrying := <[cm_id c := c]> (wk_retrying w) |>).

(** The retry timer: a batch of everything that is being retried. *)
Definition worker_retry (batch : list completedAttempt) (w : worker) : worker :=
  w <| wk_retry := false |> <| wk_phase := WApply batch AWait false |>.

(** After [applyCompletions]. *)
Definition worker_applied (batch failed : list completedAttempt) (w : worker) : worker :=
  let kept := foldl (fun m c => delete (cm_id c) m) (wk_retrying w) batch in
  let w := w <| wk_retrying := insert_failed failed kept |> <| wk_phase := WSelect |> in
  scheduleRetry
    (if bool_decide (wk_retrying w = ∅)
     then stopRetryTimer (w <| wk_retryDelay := completionRetryInitialDelay |>) else w).

(** After [applyCompletions] in the branch that saw [stop]. *)
Definition worker_stopped (failed : list completedAttempt) (w : worker) : worker :=
  stopRetryTimer (w <| wk_retrying := insert_failed failed (wk_retrying w) |> <| wk_phase := WDone |>).

(** ** Status and Close *)
Definition count_where {A} (f : A -> bool) (l : list A) : Z :=
  Z.of_nat (length (filter (fun x => f x = true) l)).

(** The three reads of [Status]: the membership under the publisher's read lock,
    the records, and the pending attempts under [d.mu]. *)
Definition Status (group : string) (membership : gmap string MembershipSnapshot)
    (records : list Rec) d : DispatcherStatus :=
  let in_state st r := str_eqb (r_Group r) group && bool_decide (r_State r = st) in
  let paused :=
    match membership !! group with
    | Some snapshot => bool_decide (ms_Phase snapshot = CPaused)
    | None => false
    end in
  let durable := count_where (in_state StateInEventsA) records in
  let uncertain := count_where (in_state StateAckUncertain) records in
  let native :=
    count_where (fun p => str_eqb (pd_group p) group) (map_to_list (ad_pending d)).*2 in
  let counter := counterLocked group d in
  mkDispatcherStatus group (ms_Phase <$> membership !! group)
    (default 0 (ms_Epoch <$> membership !! group))
    (default ""%string (tr_ID <$> (membership !! group ≫= ms_Transition)))
    paused (paused && (native =? 0) && (durable =? 0) && (uncertain =? 0))
    (Z.max native durable) native durable uncertain
    (ct_acknowledged counter) (ct_rejected counter) (ct_uncertain counter) (ct_lastError counter).

(** [Close]: the first critical section. *)
Definition close_enter d : AsyncDispatcher B := signalLocked (d <| ad_closed := true |>).

(** What one round of its loop finds. *)
Inductive close_round : Type := CloseReturns | CloseAwaitsDone | CloseAwaitsChange.
Definition close_check d : AsyncDispatcher B * close_round :=
  if ad_stopped d then (d, CloseReturns) else
  if bool_decide (ad_pending d = ∅) then (d <| ad_stopped := true |>, CloseAwaitsDone)
  else (d, CloseAwaitsChange).

(** ** The goroutines *)
Inductive dispatch_phase : Type :=
| DIdle
| DMeasured (limit : Z) (pendingByBroker : string -> Z)
| DSelected (records : list Rec)
| DMarked (records : list Rec)
| DSubmitting (attempted : Z) (todo : list Rec) (immediate : list completedAttempt)
| DApply (attempted : Z) (batch : list completedAttempt) (stage : apply_stage)
| DHandOver (report : DispatchReport) (failed : list completedAttempt)
| DReturn (report : DispatchReport) (errs : list gerror).

(** The phases in which [Dispatch] holds the publisher's read lock. *)
Definition holds_lock (ph : dispatch_phase) : bool :=
  match ph with DIdle | DMeasured _ _ | DReturn _ _ => false | _ => true end.

Record System := mkSystem {
  sy_d : AsyncDispatcher B;
  sy_dispatch : dispatch_phase;
  sy_awaiting : list PublishAttempt;
  sy_worker : worker;
}.

#[export] Instance eta_System : Eta System := fun s =>
  mkSystem (sy_d s) (sy_dispatch s) (sy_awaiting s) (sy_worker s).

(** [commitMu] is held. *)
Definition stage_holds (stage : apply_stage) : bool :=
  match stage with AWait => false | _ => true end.
Definition committing (s : System) : bool :=
  match sy_dispatch s with DApply _ _ stage => stage_holds stage | _ => false end ||
  match wk_phase (sy_worker s) with WApply _ stage _ => stage_holds stage | _ => false end.

(** *** [Dispatch], region by region *)
Definition zero_report : DispatchReport := mkDispatchReport 0 0 0 0.

Definition dispatch_measure (limit : Z) (s : System) : System :=
  s <| sy_dispatch :=
    match measure limit (sy_d s) with
    | Err e => DReturn zero_report [e]
    | Ok None => DReturn zero_report []
    | Ok (Some (limit, pendingByBroker)) => DMeasured limit pendingByBroker
    end |>.

Definition dispatch_select (limit : Z) (pendingByBroker : string -> Z) (s : System) : System :=
  let records := select_records limit pendingByBroker (sy_d s) in
  s <| sy_dispatch :=
    if bool_decide (records = []) then DReturn zero_report [] else DSelected records |>.

Definition dispatch_mark (now : Time) (records : list Rec) (s : System) : System :=
  let '(d, err) := mark_records now records (sy_d s) in
  s <| sy_d := d |>
    <| sy_dispatch := match err with Err e => DReturn zero_report [e] | Ok _ => DMarked records end |>.

Definition dispatch_register (records : list Rec) (s : System) : System :=
  s <| sy_d := register records (sy_d s) |>
    <| sy_dispatch := DSubmitting (Z.of_nat (length records)) records [] |>.

(** One of the submissions answers; [rest] are the others. *)
Definition dispatch_submit (attempted : Z) (record : Rec) (rest : list Rec)
    (immediate : list completedAttempt) (answer : submission) (latency : Z) (s : System) : System :=
  match submit record answer latency with
  | Some c => s <| sy_dispatch := DSubmitting attempted rest (immediate ++ [c]) |>
  | None =>
      s <| sy_dispatch := DSubmitting attempted rest immediate |>
        <| sy_awaiting := attempt_of record :: sy_awaiting s |>
  end.

Definition dispatch_submitted (attempted : Z) (immediate : list completedAttempt) (s : System)
    : System :=
  s <| sy_dispatch :=
    if bool_decide (immediate = []) then DReturn (mkDispatchReport attempted 0 0 0) []
    else DApply attempted immediate AWait |>.

Definition dispatch_account (attempted : Z) (batch : list completedAttempt)
    (applied : list Completion) (failed : list completedAttempt) (s : System) : System :=
  s <| sy_d := fst (account batch applied failed (sy_d s)) |>
    <| sy_dispatch :=
         DHandOver (mkDispatchReport attempted 0 (Z.of_nat (length batch)) 0) failed |>.

(** The sends on [persistenceRetry], which block while it is full, and the return. *)
Definition dispatch_hand_over (report : DispatchReport) (c : completedAttempt)
    (rest : list completedAttempt) (s : System) : System :=
  s <| sy_d := sy_d s <| ad_persistenceRetry := ad_persistenceRetry (sy_d s) ++ [c] |> |>
    <| sy_dispatch := DHandOver report rest |>.
Definition dispatch_return (report : DispatchReport) (s : System) : System :=
  s <| sy_dispatch :=
    DReturn report (replicate (Z.to_nat (dr_Rejected report)) rejection_error) |>.

(** *** The futures and the worker *)
Definition resolve (a : PublishAttempt) (rest : list PublishAttempt)
    (answer : gerror + AsyncPublishResult) (latency : Z) (s : System) : System :=
  s <| sy_awaiting := rest |>
    <| sy_d := sy_d s <| ad_completions := ad_completions (sy_d s) ++ [await a answer latency] |> |>.

Definition set_phase (ph : worker_phase) (s : System) : System :=
  s <| sy_worker := sy_worker s <| wk_phase := ph |> |>.

Definition take_completion (batch : list completedAttempt) (c : completedAttempt)
    (rest : list completedAttempt) (s : System) : System :=
  set_phase (WCollect (batch ++ [c])) (s <| sy_d := sy_d s <| ad_completions := rest |> |>).

Definition take_retry (c : completedAttempt) (rest : list completedAttempt) (s : System) : System :=
  s <| sy_d := sy_d s <| ad_persistenceRetry := rest |> |>
    <| sy_worker := worker_receive c (sy_worker s) |>.

Definition worker_account (batch : list completedAttempt) (applied : list Completion)
    (failed : list completedAttempt) (stopping : bool) (s : System) : System :=
  s <| sy_d := fst (account batch applied failed (sy_d s)) |>
    <| sy_worker := if stopping then worker_stopped failed (sy_worker s)
                    else worker_applied batch failed (sy_worker s) |>.
End Dispatcher.
Arguments System : clear implicits.
Arguments mkSystem {B}.
