(* ===== verification/AsyncRun.v ===== *)
(** * Who answers for an attempt

    The dispatcher keeps three accounts of a publish attempt: the durable record
    in flight, the pending entry, and the goroutine, channel or map that carries
    its result.  [books] says how they agree; the lemmas say that each region of
    the code keeps it so. *)

From S2P Require Import Prelude Heap Customer Routing Snapshot Outbox OutboxIndex OutboxMemory.
From S2P Require Import OutboxStore OutboxComplete OutboxLoad OutboxTheorems Publisher PublisherInv.
From S2P Require Import PublisherRun PublisherTheorems Async.
From Stdlib Require Import ZArith Lia.
From stdpp Require Import base gmap strings numbers relations option list.
#[local] Open Scope Z_scope.

Lemma u64_succ_ne n : u64 (n + 1) <> n.
Proof.
  unfold u64. intros E. pose proof (Z.mod_pos_bound (n + 1) 18446744073709551616 ltac:(lia)).
  destruct (Z.eq_dec (n + 1) 18446744073709551616) as [E1|].
  - rewrite E1 in E. rewrite Z_mod_same_full in E. lia.
  - rewrite Z.mod_small in E; lia.
Qed.

(** ** Records *)
Definition oldest (rs : list Rec) (r : Rec) : Prop :=
  forall x, x ∈ rs -> effectiveOrderingKey x = effectiveOrderingKey r -> r_Sequence r <= r_Sequence x.

(** The record is in flight under this attempt. *)
Definition in_flight_as (rs : list Rec) (a : PublishAttempt) (r : Rec) : Prop :=
  r_State r = StateInEventsA /\ r_Attempts r = pa_Number a /\ r_Epoch r = pa_Epoch a /\ oldest rs r.

(** The attempt is settled: its record waits, or a later attempt is under way. *)
Definition settled_as (a : PublishAttempt) (r : Rec) : Prop :=
  r_State r <> StateInEventsA /\ r_Attempts r = pa_Number a \/
  r_State r = StateInEventsA /\ r_Attempts r = u64 (pa_Number a + 1).

(** Where the records of a later outbox come from. *)
Definition descends (rs rs' : list Rec) : Prop :=
  forall r', r' ∈ rs' -> (exists r, r ∈ rs /\ envelope r' = envelope r) \/
    (forall r, r ∈ rs -> r_EventID r <> r_EventID r' /\ r_Sequence r < r_Sequence r').

Lemma oldest_descends rs rs' r r' :
  descends rs rs' -> r ∈ rs -> envelope r' = envelope r -> oldest rs r -> oldest rs' r'.
Proof.
  intros Hd Hr He Ho x' Hx Ek. destruct (envelope_fields _ _ He) as (E1 & E2 & E3).
  destruct (Hd x' Hx) as [(x & Hin & Hex)|Hnew].
  - destruct (envelope_fields _ _ Hex) as (X1 & X2 & X3). rewrite E2, X2. apply Ho; [done|congruence].
  - destruct (Hnew r Hr) as [_ ?]. lia.
Qed.

(** ** The accounts *)
Record books (rs : list Rec) (pending : gmap string pendingAttempt)
    (marked carried limbo : list PublishAttempt) : Prop := {
  bk_nodup : NoDup (pa_EventID <$> (marked ++ carried));
  bk_pending : forall a, a ∈ carried ->
    exists p, pending !! pa_EventID a = Some p /\ pd_attempt p = a;
  bk_carried : forall id p, pending !! id = Some p ->
    pa_EventID (pd_attempt p) = id /\ (pd_attempt p ∈ carried \/ pd_attempt p ∈ limbo);
  bk_group : forall id p r, pending !! id = Some p -> r ∈ rs -> r_EventID r = id ->
    r_Group r = pd_group p;
  bk_claim : forall a r, a ∈ marked ++ carried -> r ∈ rs -> r_EventID r = pa_EventID a ->
    in_flight_as rs a r;
  bk_limbo : forall a r, a ∈ limbo -> r ∈ rs -> r_EventID r = pa_EventID a -> settled_as a r;
  bk_apart : forall a, a ∈ limbo -> a ∉ marked ++ carried;
  bk_flight : forall r, r ∈ rs -> r_State r = StateInEventsA ->
    exists a, a ∈ marked ++ carried /\ pa_EventID a = r_EventID r;
}.

Lemma books_perm rs pending marked carried carried' limbo limbo' :
  carried ≡ₚ carried' -> (forall a, a ∈ limbo <-> a ∈ limbo') ->
  books rs pending marked carried limbo -> books rs pending marked carried' limbo'.
Proof.
  intros Hp Hl [B1 B2 B3 B4 B5 B6 B7 B8].
  assert (Hc : forall a, a ∈ carried <-> a ∈ carried') by (intros a; by rewrite Hp).
  assert (Ha : forall a, a ∈ marked ++ carried <-> a ∈ marked ++ carried') by (intros a; by rewrite Hp).
  split.
  - by rewrite <- Hp.
  - intros a Ha'. apply B2. by apply Hc.
  - intros id p Hp'. rewrite <- Hc, <- Hl. by apply B3.
  - done.
  - intros a r Ha'. apply B5. by apply Ha.
  - intros a r Ha'. apply B6. by apply Hl.
  - intros a Ha'. rewrite <- Ha. apply B7. by apply Hl.
  - intros r Hr Hs. destruct (B8 r Hr Hs) as (a & ? & ?). exists a. by rewrite <- Ha.
Qed.

(** ** Other goroutines *)

(** Their outbox operations neither start nor end an attempt, except that an
    acknowledgement may remove its record. *)
Definition quiet (rs rs' : list Rec) : Prop :=
  forall r', r' ∈ rs' ->
    (exists r, r ∈ rs /\ envelope r' = envelope r /\
       (r_State r' = StateInEventsA <-> r_State r = StateInEventsA) /\ r_Attempts r' = r_Attempts r /\
       (r_State r' = StateInEventsA -> r_Epoch r' = r_Epoch r)) \/
    (r_State r' <> StateInEventsA /\
     forall r, r ∈ rs -> r_EventID r <> r_EventID r' /\ r_Sequence r < r_Sequence r').

Lemma quiet_refl rs : quiet rs rs.
Proof. intros r Hr. left. by exists r. Qed.

Lemma quiet_descends rs rs' : quiet rs rs' -> descends rs rs'.
Proof. intros H r' Hr. destruct (H r' Hr) as [(r & Hin & He & _)|[_ Hn]]; [left; by exists r|by right]. Qed.

(** A new record does not take the name of an attempt. *)
Definition unclaimed (rs rs' : list Rec) (ids : list string) : Prop :=
  forall r', r' ∈ rs' -> r_EventID r' ∈ ids -> exists r, r ∈ rs /\ r_EventID r = r_EventID r'.

Lemma books_quiet rs rs' pending marked carried limbo :
  quiet rs rs' -> unclaimed rs rs' (pa_EventID <$> (marked ++ carried ++ limbo)) ->
  books rs pending marked carried limbo -> books rs' pending marked carried limbo.
Proof.
  intros Hq Hu [B1 B2 B3 B4 B5 B6 B7 B8].
  assert (Hold : forall a r', a ∈ marked ++ carried ++ limbo -> r' ∈ rs' ->
    r_EventID r' = pa_EventID a -> exists r, r ∈ rs /\ envelope r' = envelope r /\
       (r_State r' = StateInEventsA <-> r_State r = StateInEventsA) /\ r_Attempts r' = r_Attempts r /\
       (r_State r' = StateInEventsA -> r_Epoch r' = r_Epoch r)).
  { intros a r' Ha Hr E. destruct (Hq r' Hr) as [?|[_ Hn]]; [done|].
    destruct (Hu r' Hr) as (r & Hin & Er); [rewrite E; by apply list_elem_of_fmap_2|].
    by destruct (Hn r Hin). }
  assert (Hm : forall a, a ∈ marked ++ carried -> a ∈ marked ++ carried ++ limbo) by set_solver.
  split; try done.
  - intros id p r' Hp Hr E. destruct (B3 id p Hp) as [Ei Hin].
    destruct (Hold (pd_attempt p) r') as (r & Hr0 & He & _); [set_solver|done|congruence|].
    destruct (envelope_fields _ _ He) as (E1 & _).
    rewrite (f_equal r_Group He : r_Group r' = r_Group r). eapply B4; [done..|congruence].
  - intros a r' Ha Hr E. destruct (Hold a r' (Hm _ Ha) Hr E) as (r & Hin & He & Hs & Hat & Hep).
    destruct (envelope_fields _ _ He) as (E1 & _).
    destruct (B5 a r Ha Hin ltac:(congruence)) as (S1 & S2 & S3 & S4). apply Hs in S1.
    split_and!; [done|congruence|rewrite Hep; done|].
    eapply oldest_descends; [by apply quiet_descends|done..].
  - intros a r' Ha Hr E. destruct (Hold a r' ltac:(set_solver) Hr E) as (r & Hin & He & Hs & Hat & _).
    destruct (envelope_fields _ _ He) as (E1 & _). unfold settled_as. rewrite Hs, Hat.
    apply (B6 a r); [done..|congruence].
  - intros r' Hr S. destruct (Hq r' Hr) as [(r & Hin & He & Hs & _)|[Hn _]]; [|done].
    destruct (envelope_fields _ _ He) as (E1 & _). rewrite E1. apply B8; tauto.
Qed.

(** ** Marking *)
Definition marking (now : Time) (records : list Rec) (r : Rec) : Rec :=
  if decide (r_EventID r ∈ r_EventID <$> records) then edited begin_attempt now r else r.

(** The records a [Dispatch] has selected. *)
Record selected (rs : list Rec) (records : list Rec) : Prop := {
  sl_nodup : NoDup (r_EventID <$> records);
  sl_ready : forall r, r ∈ records -> r ∈ rs /\ r_State r = StateReady /\ oldest rs r;
}.

(** Record names are unique. *)
Definition named_once (rs : list Rec) : Prop :=
  forall r r', r ∈ rs -> r' ∈ rs -> r_EventID r = r_EventID r' -> r = r'.

Lemma marking_cases rs now records r :
  named_once rs -> selected rs records -> r ∈ rs ->
  (r ∈ records /\ r_State r = StateReady /\ oldest rs r /\
   marking now records r = touch now (r <| r_State := StateInEventsA |>
     <| r_Attempts := u64 (r_Attempts r + 1) |> <| r_LastError := ""%string |>)) \/
  (r_EventID r ∉ r_EventID <$> records /\ marking now records r = r).
Proof.
  intros Hu [_ Hsl] Hr. unfold marking. case_decide as E; [left|by right].
  apply list_elem_of_fmap in E as (x & Ex & Hx). destruct (Hsl x Hx) as (Hin & Hs & Ho).
  assert (r = x) as -> by by apply Hu. split_and!; try done.
  unfold edited, begin_attempt. by rewrite bool_decide_eq_true_2.
Qed.

Lemma books_mark rs now records pending carried limbo :
  named_once rs -> selected rs records -> books rs pending [] carried limbo ->
  books (marking now records <$> rs) pending (attempt_of <$> records) carried limbo.
Proof.
  intros Hu Hsl [B1 B2 B3 B4 B5 B6 B7 B8]. cbn [app] in *.
  assert (Hids : pa_EventID <$> (attempt_of <$> records) = r_EventID <$> records)
    by by rewrite <- list_fmap_compose.
  assert (Hd : descends rs (marking now records <$> rs)).
  { intros r' (r & -> & Hr)%list_elem_of_fmap. left. exists r. split; [done|].
    by destruct (marking_cases rs now records r Hu Hsl Hr) as [(_ & _ & _ & ->)|(_ & ->)]. }
  assert (Hdisj : forall a r, a ∈ carried -> r ∈ records -> pa_EventID a <> r_EventID r).
  { intros a r Ha Hr E. destruct (sl_ready _ _ Hsl r Hr) as (Hin & Hs & _).
    destruct (B5 a r Ha Hin (eq_sym E)) as (S1 & _). congruence. }
  split; try done.
  - rewrite fmap_app, Hids. apply NoDup_app. split_and!; [apply Hsl| |done].
    intros id (r & -> & Hr)%list_elem_of_fmap (a & E & Ha)%list_elem_of_fmap. by apply (Hdisj a r).
  - intros id p r' Hp (r & -> & Hr)%list_elem_of_fmap E.
    destruct (marking_cases rs now records r Hu Hsl Hr) as [(_ & _ & _ & Em)|(_ & Em)];
      rewrite Em in E |- *; by apply (B4 id p r).
  - intros a r' Ha (r & -> & Hr)%list_elem_of_fmap E. apply elem_of_app in Ha.
    destruct (marking_cases rs now records r Hu Hsl Hr) as [(Hin & Hs & Ho & Em)|(Hin & Em)].
    + destruct Ha as [(x & -> & Hx)%list_elem_of_fmap|Ha].
      * rewrite Em in E |- *. cbn in E. destruct (sl_ready _ _ Hsl x Hx) as (Hxr & _).
        assert (r = x) as -> by by apply Hu. split_and!; try done.
        eapply (oldest_descends rs _ x); [done..|]. done.
      * exfalso. rewrite Em in E. by apply (Hdisj a r).
    + rewrite Em in E |- *. destruct Ha as [(x & -> & Hx)%list_elem_of_fmap|Ha].
      * exfalso. apply Hin. cbn in E. rewrite E. by apply list_elem_of_fmap_2.
      * destruct (B5 a r Ha Hr E) as (S1 & S2 & S3 & S4). split_and!; try done.
        by eapply (oldest_descends rs _ r).
  - intros a r' Ha (r & -> & Hr)%list_elem_of_fmap E.
    destruct (marking_cases rs now records r Hu Hsl Hr) as [(Hin & Hs & Ho & Em)|(Hin & Em)];
      rewrite Em in E |- *; [|by apply B6]. right. split; [done|]. cbn.
    destruct (B6 a r Ha Hr E) as [[_ ->]|[Hf _]]; [done|congruence].
  - intros a Ha [(x & -> & Hx)%list_elem_of_fmap|Hin]%elem_of_app; [|by apply (B7 a)].
    destruct (sl_ready _ _ Hsl x Hx) as (Hxr & Hs & _).
    destruct (B6 _ x Ha Hxr eq_refl) as [[_ E]|[Hf _]]; [|congruence]. cbn in E.
    by apply (u64_succ_ne (r_Attempts x)).
  - intros r' (r & -> & Hr)%list_elem_of_fmap Hs.
    destruct (marking_cases rs now records r Hu Hsl Hr) as [(Hin & _ & _ & Em)|(Hin & Em)];
      rewrite Em in Hs |- *.
    + exists (attempt_of r). split; [|done]. apply elem_of_app. left. by apply list_elem_of_fmap_2.
    + destruct (B8 r Hr Hs) as (a & Ha & E). exists a. split; [|done]. apply elem_of_app. by right.
Qed.

(** ** Registering *)
Definition registered (records : list Rec) (pending : gmap string pendingAttempt)
    : gmap string pendingAttempt :=
  foldl (fun pending record => <[r_EventID record := pending_of record]> pending) pending records.

Lemma registered_lookup (records : list Rec) : forall pending id,
  NoDup (r_EventID <$> records) ->
  registered records pending !! id =
  match list_find (fun r => r_EventID r = id) records with
  | Some (_, r) => Some (pending_of r)
  | None => pending !! id
  end.
Proof.
  induction records as [|x records IH]; intros pending id Hnd; [done|].
  rewrite fmap_cons in Hnd. apply NoDup_cons in Hnd as [Hn Hnd].
  change (registered (x :: records) pending)
    with (registered records (<[r_EventID x := pending_of x]> pending)).
  rewrite (IH _ _ Hnd). cbn [list_find]. case_decide as E.
  - destruct (list_find _ records) as [[i r]|] eqn:Ef.
    + apply list_find_Some in Ef as (Hi & Ei & _). exfalso. apply Hn. rewrite E, <- Ei.
      by eapply list_elem_of_fmap_2, list_elem_of_lookup_2.
    + cbn. subst id. apply lookup_insert_eq.
  - rewrite lookup_insert_ne by done. by destruct (list_find _ records) as [[i r]|].
Qed.

Lemma registered_cases (records : list Rec) pending id p :
  NoDup (r_EventID <$> records) -> registered records pending !! id = Some p ->
  (exists r, r ∈ records /\ r_EventID r = id /\ p = pending_of r) \/
  (id ∉ r_EventID <$> records /\ pending !! id = Some p).
Proof.
  intros Hnd. rewrite registered_lookup by done. destruct (list_find _ records) as [[i r]|] eqn:Ef.
  - intros [= <-]. left. apply list_find_Some in Ef as (Hi & Ei & _). exists r.
    split_and!; [by eapply list_elem_of_lookup_2|done..].
  - intros Hp. right. split; [|done]. apply list_find_None in Ef. rewrite Forall_forall in Ef.
    intros (r & -> & Hr)%list_elem_of_fmap. by apply (Ef r).
Qed.

Lemma registered_new (records : list Rec) pending r :
  NoDup (r_EventID <$> records) -> r ∈ records ->
  registered records pending !! r_EventID r = Some (pending_of r).
Proof.
  intros Hnd Hr. rewrite registered_lookup by done.
  destruct (list_find _ records) as [[i x]|] eqn:Ef.
  - apply list_find_Some in Ef as (Hi & Ei & _). do 2 f_equal.
    apply list_elem_of_lookup_1 in Hr as [j Hj].
    assert (i = j) as ->; [|congruence].
    eapply (NoDup_lookup _ i j (r_EventID r) Hnd); rewrite list_lookup_fmap; [rewrite Hi|rewrite Hj];
      cbn; congruence.
  - apply list_find_None in Ef. rewrite Forall_forall in Ef. by destruct (Ef r Hr).
Qed.

Lemma books_register rs records pending carried limbo :
  books rs pending (attempt_of <$> records) carried limbo ->
  (forall x r, x ∈ records -> r ∈ rs -> r_EventID r = r_EventID x -> r_Group r = r_Group x) ->
  books rs (registered records pending) [] ((attempt_of <$> records) ++ carried) limbo.
Proof.
  intros [B1 B2 B3 B4 B5 B6 B7 B8] Hg. cbn [app].
  assert (Hids : pa_EventID <$> (attempt_of <$> records) = r_EventID <$> records)
    by by rewrite <- list_fmap_compose.
  rewrite fmap_app, Hids in B1. pose proof B1 as (Hnd & Hdisj & _)%NoDup_app.
  split; try done; cbn [app].
  - by rewrite fmap_app, Hids.
  - intros a [(r & -> & Hr)%list_elem_of_fmap|Ha]%elem_of_app.
    + exists (pending_of r). split; [by apply registered_new|done].
    + destruct (B2 a Ha) as (p & Hp & E). exists p. split; [|done].
      rewrite registered_lookup by done. destruct (list_find _ records) as [[i r]|] eqn:Ef; [|done].
      apply list_find_Some in Ef as (Hi & Ei & _). exfalso.
      eapply Hdisj; [|by apply list_elem_of_fmap_2]. rewrite <- Ei.
      by eapply list_elem_of_fmap_2, list_elem_of_lookup_2.
  - intros id p [(r & Hr & E & ->)|[Hn Hp]]%registered_cases; [| |done].
    + split; [done|]. left. apply elem_of_app. left. by apply (list_elem_of_fmap_2 attempt_of).
    + destruct (B3 id p Hp) as [E Hin]. split; [done|]. rewrite elem_of_app. tauto.
  - intros id p r [(x & Hx & E & ->)|[Hn Hp]]%registered_cases; [| |done]; intros Hr Er.
    + cbn. apply Hg; [done..|congruence].
    + by apply (B4 id p r).
Qed.

(** ** Settling *)
Lemma update_fields c :
  co_EventID (completion_update c) = cm_id c /\
  co_Attempts (completion_update c) = pa_Number (cm_attempt c) /\
  co_Epoch (completion_update c) = pa_Epoch (cm_attempt c) /\
  co_Outcome (completion_update c) ∈ [CompletionAcknowledged; CompletionRejected; CompletionAckUncertain].
Proof. unfold completion_update, cm_id. destruct (cm_outcome c); cbn; split_and!; try done; set_solver. Qed.

(** A completion of the record's current attempt always settles it. *)
Lemma verdict_current now c rs r :
  in_flight_as rs (cm_attempt c) r ->
  verdict now (completion_update c) r = Some None \/
  exists next, next ∈ [StateReady; StateAckUncertain] /\
    verdict now (completion_update c) r =
      Some (Some (settled now next (co_Reason (completion_update c)) r)).
Proof.
  intros (S1 & S2 & S3 & _). destruct (update_fields c) as (_ & U2 & U3 & U4).
  unfold verdict. rewrite U2, U3, S1, S2, S3, !Z.eqb_refl. cbn [negb orb].
  repeat (apply elem_of_cons in U4 as [->|U4]); [by left|right..|by apply elem_of_nil in U4];
    eexists; (split; [|done]); set_solver.
Qed.

(** What a batch of results makes of a record. *)
Lemma completed_cases now rs (batch : list completedAttempt) r :
  NoDup (cm_id <$> batch) ->
  (forall c, c ∈ batch -> cm_id c = r_EventID r -> in_flight_as rs (cm_attempt c) r) ->
  (exists c, c ∈ batch /\ cm_id c = r_EventID r /\
     match completed now (completion_update <$> batch) r with
     | None => True
     | Some r' => envelope r' = envelope r /\ r_State r' <> StateInEventsA /\
         r_Attempts r' = r_Attempts r
     end) \/
  (r_EventID r ∉ cm_id <$> batch /\ completed now (completion_update <$> batch) r = Some r).
Proof.
  intros Hnd Hf. unfold completed. destruct (list_find _ _) as [[i u]|] eqn:E.
  - left. apply list_find_Some in E as (Hi & Eu & _). rewrite list_lookup_fmap in Hi.
    destruct (batch !! i) as [c|] eqn:Ec; [|done]. cbn in Hi. injection Hi as <-.
    apply list_elem_of_lookup_2 in Ec. destruct (update_fields c) as (U1 & _). rewrite U1 in Eu.
    exists c. split_and!; [done..|].
    destruct (verdict_current now c rs r (Hf c Ec Eu)) as [->|(next & Hn & ->)]; [done|].
    split_and!; [done| |done]. cbn. intros ->. set_solver.
  - right. apply list_find_None in E. rewrite Forall_forall in E. split; [|done].
    intros (c & Ec & Hc)%list_elem_of_fmap. destruct (update_fields c) as (U1 & _).
    apply (E (completion_update c)); [by apply list_elem_of_fmap_2|congruence].
Qed.

Lemma books_settle rs now (batch : list completedAttempt) pending marked rest limbo :
  (forall a c, a ∈ limbo -> c ∈ batch -> pa_EventID a <> cm_id c) ->
  books rs pending marked ((cm_attempt <$> batch) ++ rest) limbo ->
  books (omap (completed now (completion_update <$> batch)) rs) pending marked rest
    ((cm_attempt <$> batch) ++ limbo).
Proof.
  intros Hfar [B1 B2 B3 B4 B5 B6 B7 B8].
  assert (Hids : pa_EventID <$> (cm_attempt <$> batch) = cm_id <$> batch) by by rewrite <- list_fmap_compose.
  rewrite !fmap_app, Hids in B1. apply NoDup_app in B1 as (N1 & N2 & N3).
  apply NoDup_app in N3 as (Nb & Nd & Nr).
  assert (Hb : forall c, c ∈ batch -> cm_attempt c ∈ marked ++ (cm_attempt <$> batch) ++ rest).
  { intros c Hc. apply elem_of_app. right. apply elem_of_app. left. by apply list_elem_of_fmap_2. }
  assert (Hsub : forall a, a ∈ marked ++ rest -> a ∈ marked ++ (cm_attempt <$> batch) ++ rest) by set_solver.
  assert (Hcase : forall r, r ∈ rs -> _) by
    (intros r Hr; exact (completed_cases now rs batch r Nb
       (fun c Hc E => B5 _ r (Hb c Hc) Hr (eq_sym E)))).
  assert (Hback : forall r', r' ∈ omap (completed now (completion_update <$> batch)) rs ->
    exists r, r ∈ rs /\ envelope r' = envelope r /\
      ((exists c, c ∈ batch /\ cm_id c = r_EventID r /\ r_State r' <> StateInEventsA /\
          r_Attempts r' = r_Attempts r) \/
       (r_EventID r ∉ cm_id <$> batch /\ r' = r))).
  { intros r' (r & Hr & E)%list_elem_of_omap. exists r. split; [done|].
    destruct (Hcase r Hr) as [(c & Hc & Ec & Hm)|[Hn Hm]].
    - rewrite E in Hm. destruct Hm as (M1 & M2 & M3). split; [done|]. left. by exists c.
    - rewrite Hm in E. injection E as <-. split; [done|]. by right. }
  assert (Hd : descends rs (omap (completed now (completion_update <$> batch)) rs)).
  { intros r' (r & Hr & He & _)%Hback. left. by exists r. }
  assert (Happ : forall a c, a ∈ marked ++ rest -> c ∈ batch -> pa_EventID a <> cm_id c).
  { intros a c Ha Hc E. apply (list_elem_of_fmap_2 cm_id) in Hc. rewrite <- E in Hc.
    apply elem_of_app in Ha as [Ha|Ha]; apply (list_elem_of_fmap_2 pa_EventID) in Ha.
    - apply (N2 _ Ha). apply elem_of_app. by left.
    - by apply (Nd _ Hc). }
  split.
  - rewrite fmap_app. apply NoDup_app. split_and!; [done| |done]. intros x Hx Hx'.
    apply (N2 x Hx), elem_of_app. by right.
  - intros a Ha. apply B2. set_solver.
  - intros id p Hp. destruct (B3 id p Hp) as [E Hin]. split; [done|]. set_solver.
  - intros id p r' Hp (r & Hr & He & _)%Hback E.
    rewrite (f_equal r_Group He : r_Group r' = r_Group r).
    apply (B4 id p r Hp Hr). destruct (envelope_fields _ _ He). congruence.
  - intros a r' Ha Hr' E. destruct (Hback r' Hr') as (r & Hr & He & Hc).
    destruct (envelope_fields _ _ He) as (E1 & _). destruct Hc as [(c & Hc & Ec & _)|[_ ->]].
    + exfalso. apply (Happ a c Ha Hc). congruence.
    + destruct (B5 a r (Hsub a Ha) Hr E) as (S1 & S2 & S3 & S4). split_and!; try done.
      by eapply (oldest_descends rs _ r).
  - intros a r' Ha Hr' E. destruct (Hback r' Hr') as (r & Hr & He & Hc).
    destruct (envelope_fields _ _ He) as (E1 & _).
    apply elem_of_app in Ha as [(c & -> & Hcb)%list_elem_of_fmap|Ha].
    + left. destruct (B5 _ r (Hb c Hcb) Hr ltac:(congruence)) as (S1 & S2 & _).
      destruct Hc as [(c' & _ & _ & M1 & M2)|[Hn _]]; [split; congruence|].
      exfalso. apply Hn. replace (r_EventID r) with (cm_id c) by (unfold cm_id; congruence).
      by apply list_elem_of_fmap_2.
    + destruct Hc as [(c' & Hc' & Ec' & _)|[_ ->]]; [|by apply B6].
      exfalso. apply (Hfar a c' Ha Hc'). congruence.
  - intros a [(c & -> & Hc)%list_elem_of_fmap|Ha]%elem_of_app Hin.
    + apply (Happ _ c Hin Hc). done.
    + apply (B7 a Ha). by apply Hsub.
  - intros r' Hr' Hs. destruct (Hback r' Hr') as (r & Hr & He & [(c & _ & _ & M1 & _)|[Hn ->]]); [done|].
    destruct (B8 r Hr Hs) as (a & Ha & E). exists a. split; [|done].
    apply elem_of_app in Ha as [Ha|Ha]; [apply elem_of_app; by left|].
    apply elem_of_app in Ha as [(c & -> & Hc)%list_elem_of_fmap|Ha]; [|apply elem_of_app; by right].
    exfalso. apply Hn. rewrite <- E. by apply (list_elem_of_fmap_2 cm_id).
Qed.

(** ** Accounting *)
Section Account.
Context {B : Type} `{!Bolt B}.
Implicit Types d : AsyncDispatcher B.

(** What accounting leaves alone. *)
Record accounts d d' : Prop := {
  av_publisher : ad_publisher d' = ad_publisher d;
  av_config : ad_config d' = ad_config d;
  av_closed : ad_closed d' = ad_closed d;
  av_stopped : ad_stopped d' = ad_stopped d;
  av_completions : ad_completions d' = ad_completions d;
  av_retry : ad_persistenceRetry d' = ad_persistenceRetry d;
}.
Lemma accounts_refl d : accounts d d.
Proof. done. Qed.
Lemma accounts_trans d1 d2 d3 : accounts d1 d2 -> accounts d2 d3 -> accounts d1 d3.
Proof. intros [] []. split; congruence. Qed.

(** A terminal result that ends the pending entry [p] of [id]. *)
Definition ended (batch failed : list completedAttempt) (id : string) (p : pendingAttempt) : Prop :=
  exists c, c ∈ batch /\ cm_id c = id /\ id ∉ cm_id <$> failed /\ pd_attempt p = cm_attempt c.

Lemma account_one_ok ids failed (d : AsyncDispatcher B) changed obs c :
  let d' := (account_one ids (cm_id <$> failed) (d, changed, obs) c).1.1 in
  accounts d d' /\ forall id p, ad_pending d' !! id = Some p <->
    ad_pending d !! id = Some p /\ ~ ended [c] failed id p.
Proof.
  assert (Hstay : (forall p, ad_pending d !! cm_id c = Some p -> pd_attempt p = cm_attempt c ->
      cm_id c ∈ cm_id <$> failed) ->
    forall id p, ad_pending d !! id = Some p <-> ad_pending d !! id = Some p /\ ~ ended [c] failed id p).
  { intros Hn id p. split; [|tauto]. intros Hp. split; [done|].
    intros (x & ->%list_elem_of_singleton & E & Hf & Ea). subst id. by apply Hf, (Hn p). }
  unfold account_one, is_pending. destruct (ad_pending d !! cm_id c) as [q|] eqn:Eq.
  2: { split; [done|]. by apply Hstay. }
  case_bool_decide as Ea; [|split; [done|]; apply Hstay; congruence].
  case_bool_decide as Ef; [split; [done|]; apply Hstay; congruence|]. cbn zeta.
  set (d1 := if bool_decide (_ ∈ ids) then _ else d).
  assert (Hd1 : accounts d d1 /\ ad_pending d1 = ad_pending d) by (subst d1; by case_bool_decide).
  clearbody d1. destruct Hd1 as [Hv Hp1]. cbn [fst snd]. split.
  - eapply accounts_trans; [exact Hv|done].
  - intros id p. cbn. rewrite Hp1, lookup_delete_Some. split.
    + intros [Hne Hp]. split; [done|]. by intros (x & ->%list_elem_of_singleton & E & _).
    + intros [Hp Hne]. split; [|done]. intros <-. apply Hne. exists c.
      split_and!; [by left|done..|]. rewrite Eq in Hp. by injection Hp as <-.
Qed.

Lemma account_loop_ok ids failed batch : forall (d : AsyncDispatcher B) changed obs,
  let d' := (foldl (account_one ids (cm_id <$> failed)) (d, changed, obs) batch).1.1 in
  accounts d d' /\ forall id p, ad_pending d' !! id = Some p <->
    ad_pending d !! id = Some p /\ ~ ended batch failed id p.
Proof.
  induction batch as [|c batch IH]; intros d changed obs; cbn [foldl].
  { split; [done|]. intros id p. cbn. split; [|tauto]. intros Hp. split; [done|].
    by intros (c & ?%elem_of_nil & _). }
  pose proof (account_one_ok ids failed d changed obs c) as [H1 H2].
  destruct (account_one ids _ (d, changed, obs) c) as [[d1 changed1] obs1]. cbn [fst] in H1, H2.
  destruct (IH d1 changed1 obs1) as [I1 I2]. split; [by eapply accounts_trans|].
  intros id p. rewrite I2, H2. split.
  - intros [[Hp Hn1] Hn2]. split; [done|]. intros (x & [->|Hx]%elem_of_cons & Hr).
    + apply Hn1. exists c. split; [by left|done].
    + apply Hn2. by exists x.
  - intros [Hp Hn]. split_and!; [done|..]; intros (x & Hx & Hr); apply Hn; exists x; (split; [|done]).
    + apply list_elem_of_singleton in Hx as ->. by left.
    + by right.
Qed.

Lemma account_ok batch applied failed d :
  let d' := fst (account batch applied failed d) in
  accounts d d' /\ forall id p, ad_pending d' !! id = Some p <->
    ad_pending d !! id = Some p /\ ~ ended batch failed id p.
Proof.
  pose proof (account_loop_ok (co_EventID <$> applied) failed batch d false []) as [H1 H2].
  unfold account. destruct (foldl _ _ batch) as [[d1 changed] obs]. cbn [fst] in *.
  destruct changed; [|done]. split; [by eapply accounts_trans|done].
Qed.

Lemma recorded_ok failed err d :
  accounts d (apply_recorded failed err d) /\ ad_pending (apply_recorded failed err d) = ad_pending d.
Proof.
  unfold apply_recorded. case_bool_decide as E; [done|]. clear E. unfold recordPersistenceErrors.
  match goal with |- context [foldl ?f d failed] => set (step := f) end.
  assert (Hf : forall d0, accounts d0 (foldl step d0 failed) /\
    ad_pending (foldl step d0 failed) = ad_pending d0).
  { assert (Hone : forall d0 c, accounts d0 (step d0 c) /\ ad_pending (step d0 c) = ad_pending d0).
    { intros d0 c. unfold step. by destruct (is_pending c d0). }
    clearbody step. induction failed as [|c failed IH]; intros d0; [done|]. cbn [foldl].
    destruct (IH (step d0 c)) as [I1 I2], (Hone d0 c) as [J1 J2].
    split; [by eapply accounts_trans|congruence]. }
  destruct (Hf d) as [H1 H2]. split; [by eapply accounts_trans|done].
Qed.
End Account.

Lemma books_account rs pending pending' marked carried limbo batch failed :
  (forall id p, pending' !! id = Some p <-> pending !! id = Some p /\ ~ ended batch failed id p) ->
  (forall a, a ∈ limbo <-> exists c, c ∈ batch /\ cm_id c ∉ cm_id <$> failed /\ a = cm_attempt c) ->
  books rs pending marked carried limbo -> books rs pending' marked carried [].
Proof.
  intros Hp Hl [B1 B2 B3 B4 B5 B6 B7 B8]. split; try done.
  - intros a Ha. destruct (B2 a Ha) as (p & Hin & E). exists p. split; [|done]. apply Hp. split; [done|].
    intros (c & Hc & Ei & Hf & Ea). apply (B7 a).
    + apply Hl. exists c. split_and!; [done|by rewrite Ei|congruence].
    + apply elem_of_app. by right.
  - intros id p [Hin Hn]%Hp. destruct (B3 id p Hin) as [E [Hc|Hc]]; (split; [done|]); [by left|].
    exfalso. apply Hl in Hc as (c & Hc & Hf & Ea). apply Hn.
    assert (Ei : cm_id c = id) by (unfold cm_id; by rewrite <- Ea). exists c. by rewrite <- Ei.
  - intros id p r [Hin _]%Hp. by apply B4.
  - by intros a r ?%elem_of_nil.
  - by intros a ?%elem_of_nil.
Qed.

(** ** Runs of the asynchronous dispatcher

    The regions of Async.v interleaved: one [Dispatch] at a time, its
    submissions, the awaited futures, the completion worker, [Close], and other
    users of the publisher, who cannot change the memberships while [Dispatch]
    holds the read lock. *)

(** ** Quiet requests *)
Definition mutation_quiet (mutate : string -> Rec -> result Rec) : Prop :=
  forall now id r r', mutate id r = Ok r' ->
    envelope (touch now r') = envelope r /\ r_State r <> StateInEventsA /\
    r_State r' = StateReady /\ r_Attempts r' = r_Attempts r.

(** No outcome becomes uncertain. *)
Definition no_doubt (rs rs' : list Rec) : Prop :=
  forall r', r' ∈ rs' -> r_State r' = StateAckUncertain ->
    exists r, r ∈ rs /\ envelope r' = envelope r /\ r_State r = StateAckUncertain.
Lemma no_doubt_refl rs : no_doubt rs rs.
Proof. intros r Hr Hs. by exists r. Qed.

Lemma assign_quiet m : mutation_quiet (assign m).
Proof.
  intros now id r r' H. destruct (assign_result _ _ _ _ H) as (Hs & Hs' & _ & He).
  split_and!; [done| |done|].
  - intros E. rewrite E in Hs. set_solver.
  - destruct (assign_moves m now id r r' H) as [_ Hm]. cbn in Hm.
    destruct Hm as [_ Ha| |Hs1 Hs2 _|Hs1 Hs2 _|Hs1 Hs2 _]; cbn in *; try congruence.
    + by injection Ha.
    + rewrite Hs1 in Hs. set_solver.
    + rewrite Hs1 in Hs. set_solver.
Qed.
Lemma retry_quiet : mutation_quiet retry.
Proof.
  intros now id r r'. unfold retry. case_bool_decide as E; [|done]. intros [= <-].
  by split_and!; [|rewrite E|..].
Qed.

Lemma edit_quiet now (ids : list string) mutate (rs : list Rec) :
  mutation_quiet mutate ->
  quiet rs ((fun x => if decide (r_EventID x ∈ ids) then edited mutate now x else x) <$> rs).
Proof.
  intros Hm r' (r & -> & Hr)%list_elem_of_fmap. left. exists r. split; [done|].
  case_decide; [|done]. unfold edited. destruct (mutate _ r) as [y|] eqn:E; [|done].
  destruct (Hm now _ _ _ E) as (M1 & M2 & M3 & M4). split_and!; [done| |done|]; cbn; by rewrite M3.
Qed.
Lemma edit_no_doubt now (ids : list string) mutate (rs : list Rec) :
  mutation_quiet mutate ->
  no_doubt rs ((fun x => if decide (r_EventID x ∈ ids) then edited mutate now x else x) <$> rs).
Proof.
  intros Hm r' (r & -> & Hr)%list_elem_of_fmap. case_decide; [|by exists r]. unfold edited.
  destruct (mutate _ r) as [y|] eqn:E; [|by exists r]. destruct (Hm now _ _ _ E) as (_ & _ & M3 & _).
  cbn. congruence.
Qed.

(** An acknowledgement removes a record or does nothing. *)
Lemma ack_removes now id n e (r r' : Rec) :
  completed now [mkCompletion id n e CompletionAcknowledged ""] r = Some r' -> r' = r.
Proof.
  unfold completed. destruct (list_find _ _) as [[i c]|] eqn:E; [|congruence].
  apply list_find_Some in E as (Hi & _). apply list_elem_of_lookup_2, list_elem_of_singleton in Hi.
  subst c. unfold verdict. destruct (_ || _); [congruence|]. cbn.
  destruct (r_State r); congruence.
Qed.
Lemma ack_keeps_ready now id n e (r : Rec) :
  r_State r = StateReady -> completed now [mkCompletion id n e CompletionAcknowledged ""] r = Some r.
Proof.
  intros Hs. unfold completed. destruct (list_find _ _) as [[i c]|] eqn:E; [|done].
  apply list_find_Some in E as (Hi & _). apply list_elem_of_lookup_2, list_elem_of_singleton in Hi.
  subst c. unfold verdict. rewrite Hs. by destruct (_ || _).
Qed.

Lemma recs_named_once {B} `{!Bolt B} (o : Store B) : sinv o -> named_once (recs o).
Proof.
  intros Hi r r' Hr Hr' E. apply elem_of_recs in Hr, Hr'; [|apply Hi..]. rewrite E in Hr. congruence.
Qed.

Section Run.
Context {P : Type} (library : CustomerLibrary P) (encode_payload : P -> result (list Z)).
Context {B : Type} `{!Bolt B} {net_url : NetURL}.
Context (authority : string -> Z -> option MembershipSnapshot).
Implicit Types p : Publisher B.
Implicit Types d : AsyncDispatcher B.
Implicit Types s : System B.
Abbreviation pinv := (pinv library authority).
Abbreviation published := (published authority).

(** ** Other users of the publisher *)
Inductive others_step (locked : bool) : Publisher B * gset string -> Publisher B * gset string -> Prop :=
| ot_accept now messages p p' out used :
    (forall m, m ∈ messages -> mv_EventID m ∉ used) ->
    Publisher.AcceptBatch library encode_payload now messages p = (p', out) ->
    others_step locked (p, used) (p', list_to_set (mv_EventID <$> messages) ∪ used)
| ot_ack now id attempts epoch p p' err used :
    Publisher.Ack now id attempts epoch p = (p', err) -> others_step locked (p, used) (p', used)
| ot_apply now snapshot p p' err used :
    locked = false -> published snapshot -> ApplyMembership library now snapshot p = (p', err) ->
    others_step locked (p, used) (p', used)
| ot_fail_closed group p p' err used :
    locked = false -> FailClosed group p = (p', err) -> others_step locked (p, used) (p', used)
| ot_retry now id p p' err used :
    locked = false -> RetryAckUncertain library now id p = (p', err) ->
    others_step locked (p, used) (p', used).

Lemma others_pub locked c c' :
  others_step locked c c' -> pub_step library encode_payload authority c c'.
Proof.
  destruct 1; [by eapply ps_accept| |by eapply ps_apply|by eapply ps_fail_closed|by eapply ps_retry].
  unfold Publisher.Ack in H. destruct (Outbox.Ack now id attempts epoch (p_outbox p)) as [o e] eqn:E.
  injection H as <- <-. by apply (ps_settle _ _ _ (RAck now id attempts epoch) p o e).
Qed.

(** What they may do to the records. *)
Record mild (locked : bool) p (used : gset string) p' (used' : gset string) : Prop := {
  ml_quiet : quiet (recs (p_outbox p)) (recs (p_outbox p'));
  ml_doubt : no_doubt (recs (p_outbox p)) (recs (p_outbox p'));
  ml_old : forall r', r' ∈ recs (p_outbox p') -> r_EventID r' ∈ used ->
    exists r, r ∈ recs (p_outbox p) /\ r_EventID r = r_EventID r';
  ml_used : used ⊆ used';
  ml_member : locked = true -> p_membership p' = p_membership p;
  ml_ready : locked = true -> forall r, r ∈ recs (p_outbox p) -> r_State r = StateReady ->
    r ∈ recs (p_outbox p');
}.

Lemma mild_same p p' used locked :
  p_outbox p' = p_outbox p -> (locked = true -> p_membership p' = p_membership p) ->
  mild locked p used p' used.
Proof. intros E Em. split; rewrite ?E; try done; [apply quiet_refl|apply no_doubt_refl|]. intros r Hr _. by exists r. Qed.

Lemma accept_mild locked p used p' used' :
  pinv p used -> outbox_moves_by accepting p used p' -> used ⊆ used' ->
  p_membership p' = p_membership p -> mild locked p used p' used'.
Proof.
  intros Hp [E|(req & (now & rs & -> & Hst) & Hn & E)] Hu Em.
  { destruct (mild_same p p' used locked E (fun _ => Em)) as [M1 M1' M2 M3 M4 M5]. by split. }
  destruct (perform (RAcceptBatch now rs) (p_outbox p)) as [o err] eqn:H. cbn [fst] in E.
  pose proof (pi_outbox _ _ _ _ Hp) as [Hi Hf]. cbn [fst snd] in Hi, Hf.
  destruct (perform_ok _ _ _ _ Hi ltac:(intros; by apply Hf, Hn) H) as [_ Hq _ _].
  assert (Hrec : recs o = recs (p_outbox p) \/
    recs o = recs (p_outbox p) ++ stamp now (st_nextSeq (p_outbox p)) rs).
  { destruct (is_ok err); [right|left]; by injection Hq as Hq _. }
  rewrite <- E in Hrec. destruct Hrec as [Er|Er].
  { split; rewrite ?Er; try done; [apply quiet_refl|apply no_doubt_refl|]. intros r Hr _. by exists r. }
  assert (Hnew : forall x, x ∈ stamp now (st_nextSeq (p_outbox p)) rs ->
    r_State x ∉ [StateInEventsA; StateAckUncertain] /\ r_EventID x ∉ used /\
    st_nextSeq (p_outbox p) <= r_Sequence x).
  { intros x (i & y & Hy & -> & _)%stamp_elem. rewrite accepted_id, accepted_sequence.
    split_and!; [|apply Hn; by apply (list_elem_of_fmap_2 r_EventID)|lia].
    specialize (Hst y Hy). unfold accepted_record. cbn. case_bool_decide as Es.
    - rewrite Es in Hst. set_solver.
    - repeat (apply elem_of_cons in Hst as [->|Hst]); [set_solver..|by apply elem_of_nil in Hst]. }
  split; rewrite ?Er; try done.
  - intros r' [Hr|Hr]%elem_of_app; [left; by exists r'|right].
    destruct (Hnew r' Hr) as (N1 & N2 & N3). split; [set_solver|]. intros r Hin.
    pose proof (sv_seq _ Hi r Hin). split; [|lia]. intros Eq. apply N2. rewrite <- Eq.
    eapply recs_used; [apply Hp|done].
  - intros r' [Hr|Hr]%elem_of_app Hs; [by exists r'|]. destruct (Hnew r' Hr) as (N1 & _). set_solver.
  - intros r' [Hr|Hr]%elem_of_app Hin; [by exists r'|]. by destruct (Hnew r' Hr) as (_ & ? & _).
  - intros _ r Hr _. apply elem_of_app. by left.
Qed.

(** A request that edits or settles quietly. *)
Lemma edit_mild p used req p' now ids mutate :
  pinv p used -> change_of req = Edit now ids mutate -> mutation_quiet mutate ->
  p_outbox p' = fst (perform req (p_outbox p)) -> mild false p used p' used.
Proof.
  intros Hp Hc Hm E. destruct (perform req (p_outbox p)) as [o err] eqn:H. cbn [fst] in E.
  pose proof (pi_outbox _ _ _ _ Hp) as [Hi Hf]. cbn [fst snd] in Hi, Hf.
  assert (Hnew : new_ids req = []) by (unfold new_ids; by rewrite Hc).
  destruct (perform_ok _ _ _ _ Hi ltac:(rewrite Hnew; by intros ? ?%elem_of_nil) H) as [_ Hq _ _].
  rewrite Hc in Hq. destruct (is_ok err); injection Hq as Hq _; rewrite <- E in Hq.
  - pose proof (edit_quiet now ids mutate (recs (p_outbox p)) Hm) as Hqt. rewrite <- Hq in Hqt.
    split; try done; [rewrite Hq; by apply edit_no_doubt|]. intros r' Hr Hin. destruct (Hqt r' Hr) as [(r & Hr0 & He & _)|[_ Hn]].
    + exists r. split; [done|]. by destruct (envelope_fields _ _ He).
    + rewrite Hq in Hr. apply list_elem_of_fmap in Hr as (x & -> & Hx). exists x. split; [done|].
      case_decide; [|done]. unfold edited. destruct (mutate _ x) as [y|] eqn:Ey; [|done].
      destruct (Hm now _ _ _ Ey) as (He & _). by destruct (envelope_fields _ _ He).
  - split; rewrite ?Hq; try done; [apply quiet_refl|apply no_doubt_refl|]. intros r Hr _. by exists r.
Qed.

Lemma ack_mild locked now id n e p p' err used :
  pinv p used -> Publisher.Ack now id n e p = (p', err) -> mild locked p used p' used.
Proof.
  intros Hp H. unfold Publisher.Ack in H.
  destruct (Outbox.Ack now id n e (p_outbox p)) as [o e0] eqn:Ea. injection H as <- <-.
  destruct (perform_ack _ _ _ _ _ _ _ (pi_sinv _ _ _ _ Hp) Ea) as [_ Hq _ _].
  destruct (is_ok e0); injection Hq as Hq _.
  - split; cbn; rewrite ?Hq; try done.
    + intros r' (r & Hr & Ec)%list_elem_of_omap. apply ack_removes in Ec as ->. left. by exists r.
    + intros r' (r & Hr & Ec)%list_elem_of_omap Hs. apply ack_removes in Ec as ->. by exists r.
    + intros r' (r & Hr & Ec)%list_elem_of_omap _. apply ack_removes in Ec as ->. by exists r.
    + intros _ r Hr Hs. apply list_elem_of_omap. exists r. split; [done|]. by apply ack_keeps_ready.
  - split; cbn; rewrite ?Hq; try done; [apply quiet_refl|apply no_doubt_refl|]. intros r Hr _. by exists r.
Qed.

Lemma others_mild locked c c' :
  others_step locked c c' -> pinv (fst c) (snd c) -> mild locked (fst c) (snd c) (fst c') (snd c').
Proof.
  intros H Hp. destruct H as [now ms p p' out used Hn H|now id n e p p' err used H
    |now s p p' err used -> Hs H|g p p' err used -> H|now id p p' err used -> H]; cbn [fst snd] in *.
  - apply accept_mild; [done|by eapply AcceptBatch_moves|set_solver|by eapply AcceptBatch_ok].
  - by eapply ack_mild.
  - destruct (ApplyMembership_moves _ _ _ _ _ _ _ _ Hp Hs H) as [E|(req & (t & us & ->) & _ & E)];
      [by apply mild_same|]. by eapply (edit_mild p used (RAssignBatch t us)); [|reflexivity|apply assign_quiet|].
  - unfold FailClosed in H. destruct (str_empty g); injection H as <- <-; by apply mild_same.
  - destruct (RetryAckUncertain_ok _ _ _ _ _ _ _ _ Hp H) as (_ & _ & [E|[_ E]]);
      [by apply mild_same|].
    by eapply (edit_mild p used (RRetryAckUncertain now id)); [|reflexivity|apply retry_quiet|].
Qed.

(** ** Steps *)

(** [applyCompletions] up to the accounting; [free] says that [commitMu] is. *)
Inductive apply_step (free : bool) (batch : list completedAttempt)
    : AsyncDispatcher B * apply_stage -> AsyncDispatcher B * apply_stage -> Prop :=
| ap_batch now d : free = true -> apply_step free batch (d, AWait) (apply_batch now batch d)
| ap_item now c todo applied failed err d :
    apply_step free batch (d, AItems (c :: todo) applied failed err)
      (apply_item now c todo applied failed err d)
| ap_recorded applied failed err d :
    apply_step free batch (d, AItems [] applied failed err)
      (apply_recorded failed err d, AAccount applied failed).

Abbreviation capacity s := (ac_MaxInEventsA (ad_config (sy_d s))).
Abbreviation batch_size s := (ac_CompletionBatchSize (ad_config (sy_d s))).

Inductive async_step : System B * gset string -> System B * gset string -> Prop :=
| as_others s p used used' :
    others_step (holds_lock (sy_dispatch s)) (ad_publisher (sy_d s), used) (p, used') ->
    async_step (s, used) (s <| sy_d := sy_d s <| ad_publisher := p |> |>, used')
| as_measure limit s used :
    sy_dispatch s = DIdle -> 0 < limit -> async_step (s, used) (dispatch_measure limit s, used)
| as_select limit by_broker s used :
    sy_dispatch s = DMeasured limit by_broker ->
    async_step (s, used) (dispatch_select limit by_broker s, used)
| as_mark now records s used :
    sy_dispatch s = DSelected records -> async_step (s, used) (dispatch_mark now records s, used)
| as_register records s used :
    sy_dispatch s = DMarked records -> async_step (s, used) (dispatch_register records s, used)
| as_submit n todo record rest immediate answer latency s used :
    sy_dispatch s = DSubmitting n todo immediate -> todo ≡ₚ record :: rest ->
    async_step (s, used) (dispatch_submit n record rest immediate answer latency s, used)
| as_submitted n immediate s used :
    sy_dispatch s = DSubmitting n [] immediate ->
    async_step (s, used) (dispatch_submitted n immediate s, used)
| as_dispatch_apply n batch stage stage' d s used :
    sy_dispatch s = DApply n batch stage ->
    apply_step (negb (committing s)) batch (sy_d s, stage) (d, stage') ->
    async_step (s, used) (s <| sy_d := d |> <| sy_dispatch := DApply n batch stage' |>, used)
| as_dispatch_account n batch applied failed s used :
    sy_dispatch s = DApply n batch (AAccount applied failed) ->
    async_step (s, used) (dispatch_account n batch applied failed s, used)
| as_hand_over report c rest s used :
    sy_dispatch s = DHandOver report (c :: rest) ->
    Z.of_nat (length (ad_persistenceRetry (sy_d s))) < capacity s ->
    async_step (s, used) (dispatch_hand_over report c rest s, used)
| as_return report s used :
    sy_dispatch s = DHandOver report [] -> async_step (s, used) (dispatch_return report s, used)
| as_idle report errs s used :
    sy_dispatch s = DReturn report errs -> async_step (s, used) (s <| sy_dispatch := DIdle |>, used)
| as_resolve a rest answer latency s used :
    sy_awaiting s ≡ₚ a :: rest ->
    Z.of_nat (length (ad_completions (sy_d s))) < capacity s ->
    async_step (s, used) (resolve a rest answer latency s, used)
| as_receive c rest s used :
    wk_phase (sy_worker s) = WSelect -> ad_persistenceRetry (sy_d s) = c :: rest ->
    async_step (s, used) (take_retry c rest s, used)
| as_retry batch s used :
    wk_phase (sy_worker s) = WSelect -> wk_retry (sy_worker s) = true ->
    batch ≡ₚ (map_to_list (wk_retrying (sy_worker s))).*2 ->
    async_step (s, used) (s <| sy_worker := worker_retry batch (sy_worker s) |>, used)
| as_first c rest s used :
    wk_phase (sy_worker s) = WSelect -> ad_completions (sy_d s) = c :: rest ->
    async_step (s, used) (take_completion [] c rest s, used)
| as_collect batch c rest s used :
    wk_phase (sy_worker s) = WCollect batch -> Z.of_nat (length batch) < batch_size s ->
    ad_completions (sy_d s) = c :: rest ->
    async_step (s, used) (take_completion batch c rest s, used)
| as_flush batch s used :
    wk_phase (sy_worker s) = WCollect batch ->
    batch_size s <= Z.of_nat (length batch) \/ ad_completions (sy_d s) = [] ->
    async_step (s, used) (set_phase (WApply batch AWait false) s, used)
| as_collect_stop batch s used :
    wk_phase (sy_worker s) = WCollect batch -> ad_stopped (sy_d s) = true ->
    async_step (s, used) (set_phase (WApply batch AWait true) s, used)
| as_worker_apply batch stage stage' stopping d s used :
    wk_phase (sy_worker s) = WApply batch stage stopping ->
    apply_step (negb (committing s)) batch (sy_d s, stage) (d, stage') ->
    async_step (s, used) (set_phase (WApply batch stage' stopping) (s <| sy_d := d |>), used)
| as_worker_account batch applied failed stopping s used :
    wk_phase (sy_worker s) = WApply batch (AAccount applied failed) stopping ->
    async_step (s, used) (worker_account batch applied failed stopping s, used)
| as_worker_stop s used :
    wk_phase (sy_worker s) = WSelect -> ad_stopped (sy_d s) = true ->
    async_step (s, used) (s <| sy_worker := stopRetryTimer (sy_worker s) <| wk_phase := WDone |> |>, used)
| as_close_enter s used :
    async_step (s, used) (s <| sy_d := close_enter (sy_d s) |>, used)
| as_close_check s used :
    ad_closed (sy_d s) = true -> async_step (s, used) (s <| sy_d := fst (close_check (sy_d s)) |>, used).

(** ** Who carries an attempt *)
Definition stage_live (batch : list completedAttempt) (stage : apply_stage) : list completedAttempt :=
  match stage with
  | AWait => batch
  | AItems todo _ failed _ => todo ++ failed
  | AAccount _ failed => failed
  end.
Definition stage_limbo (batch : list completedAttempt) (stage : apply_stage) : list completedAttempt :=
  filter (fun c => cm_id c ∉ cm_id <$> stage_live batch stage) batch.

Definition dispatch_live (ph : dispatch_phase) : list PublishAttempt :=
  match ph with
  | DSubmitting _ todo immediate => (attempt_of <$> todo) ++ (cm_attempt <$> immediate)
  | DApply _ batch stage => cm_attempt <$> stage_live batch stage
  | DHandOver _ failed => cm_attempt <$> failed
  | _ => []
  end.
Definition worker_busy (w : worker) : list completedAttempt :=
  match wk_phase w with
  | WCollect batch => batch
  | WApply batch stage _ => stage_live batch stage
  | _ => []
  end.
(** The results under retry that are not in the batch being applied. *)
Definition worker_batch (w : worker) : list string :=
  match wk_phase w with WApply batch _ _ => cm_id <$> batch | _ => [] end.
Definition worker_waiting (w : worker) : list completedAttempt :=
  filter (fun c => cm_id c ∉ worker_batch w) (map_to_list (wk_retrying w)).*2.

Definition marked s : list PublishAttempt :=
  match sy_dispatch s with DMarked records => attempt_of <$> records | _ => [] end.
Definition carried s : list PublishAttempt :=
  dispatch_live (sy_dispatch s) ++ sy_awaiting s ++
  (cm_attempt <$> ad_completions (sy_d s) ++ ad_persistenceRetry (sy_d s) ++
     worker_busy (sy_worker s) ++ worker_waiting (sy_worker s)).
Definition dispatch_limbo (ph : dispatch_phase) : list completedAttempt :=
  match ph with DApply _ batch stage => stage_limbo batch stage | _ => [] end.
Definition worker_limbo (w : worker) : list completedAttempt :=
  match wk_phase w with WApply batch stage _ => stage_limbo batch stage | _ => [] end.
Definition limbo s : list PublishAttempt :=
  cm_attempt <$> dispatch_limbo (sy_dispatch s) ++ worker_limbo (sy_worker s).
End Run.
