(* ===== verification/AsyncInv.v ===== *)
(** * Invariant of the asynchronous dispatcher

    In every state of a run the accounts of AsyncBooks.v agree, the limits of
    the configuration hold, and the records a [Dispatch] is working on belong
    to an installed epoch that is open for publication. *)

From S2P Require Import Prelude Customer Routing Snapshot Heap Outbox OutboxIndex OutboxMemory.
From S2P Require Import OutboxStore OutboxComplete OutboxLoad OutboxTheorems.
From S2P Require Import Publisher PublisherInv PublisherRun PublisherTheorems Async AsyncRun.
From Stdlib Require Import ZArith Lia.
From stdpp Require Import base gmap strings numbers relations option list.
#[local] Open Scope Z_scope.

(** ** Limits *)
Definition on_broker (b : string) (records : list Rec) : Z :=
  Z.of_nat (length (filter (fun r => r_Broker r = b) records)).

Lemma on_broker_cons b r records :
  on_broker b (r :: records) = (if decide (r_Broker r = b) then 1 else 0) + on_broker b records.
Proof. unfold on_broker. rewrite filter_cons. case_decide; cbn [length]; lia. Qed.

Lemma pending_on_mono b (m m' : gmap string pendingAttempt) : m' ⊆ m -> pending_on b m' <= pending_on b m.
Proof.
  intros H. unfold pending_on. apply inj_le, map_subseteq_size, map_subseteq_spec.
  intros id q [Hq Hb]%map_lookup_filter_Some. apply map_lookup_filter_Some. split; [|done].
  by eapply lookup_weaken.
Qed.

Lemma pending_on_insert b id p (m : gmap string pendingAttempt) :
  pending_on b (<[id := p]> m) <= pending_on b m + (if decide (pd_broker p = b) then 1 else 0).
Proof.
  unfold pending_on. set (f := filter (fun '(_, q) => pd_broker q = b)).
  assert (H : dom (f (<[id := p]> m)) ⊆ dom (f m) ∪ (if decide (pd_broker p = b) then {[id]} else ∅)).
  { intros k [q [Hq Hb]%map_lookup_filter_Some]%elem_of_dom. apply elem_of_union.
    apply lookup_insert_Some in Hq as [[-> ->]|[Hne Hq]].
    - right. rewrite decide_True by done. set_solver.
    - left. apply elem_of_dom. exists q. by apply map_lookup_filter_Some. }
  rewrite <- !size_dom. apply subseteq_size in H. pose proof (size_union_alt (dom (f m))
    (if decide (pd_broker p = b) then {[id]} else ∅)) as E.
  assert (Hs : (size ((if decide (pd_broker p = b) then {[id]} else ∅) ∖ dom (f m) : gset string) <=
    if decide (pd_broker p = b) then 1 else 0)%nat).
  { etrans; [apply subseteq_size, subseteq_difference_l; reflexivity|].
    case_decide; by rewrite ?size_singleton, ?size_empty. }
  case_decide; lia.
Qed.

Lemma size_insert_le id p (m : gmap string pendingAttempt) :
  Z.of_nat (size (<[id := p]> m)) <= Z.of_nat (size m) + 1.
Proof. rewrite map_size_insert. destruct (m !! id); cbn; lia. Qed.

Lemma registered_size (records : list Rec) : forall m,
  Z.of_nat (size (registered records m)) <= Z.of_nat (size m) + Z.of_nat (length records).
Proof.
  induction records as [|r records IH]; intros m; [cbn; lia|].
  change (registered (r :: records) m) with (registered records (<[r_EventID r := pending_of r]> m)).
  pose proof (IH (<[r_EventID r := pending_of r]> m)). pose proof (size_insert_le (r_EventID r) (pending_of r) m).
  cbn [length]. lia.
Qed.
Lemma registered_on b (records : list Rec) : forall m,
  pending_on b (registered records m) <= pending_on b m + on_broker b records.
Proof.
  induction records as [|r records IH]; intros m; [unfold on_broker; cbn; lia|].
  change (registered (r :: records) m) with (registered records (<[r_EventID r := pending_of r]> m)).
  pose proof (IH (<[r_EventID r := pending_of r]> m)) as H.
  pose proof (pending_on_insert b (r_EventID r) (pending_of r) m) as H1. cbn [pd_broker pending_of] in H1.
  rewrite on_broker_cons. case_decide; lia.
Qed.

(** ** Selection *)
Lemma select_slots epochs slots b (rs : list Rec) : forall limit used,
  let records := select limit epochs (Some slots) used rs in
  on_broker b records = 0 \/ default 0 (used !! b) + on_broker b records <= default 0 (slots !! b).
Proof.
  induction rs as [|r rs IH]; intros limit used; cbn [select]; [by left|].
  destruct (limit <=? 0); [by left|]. destruct (eligible_matches _ _ _ r) eqn:E; [|apply IH].
  rewrite on_broker_cons. specialize (IH (limit - 1) (use_slot r used)). cbn zeta in IH.
  unfold use_slot in IH |- *. unfold eligible_matches in E. apply andb_true_iff in E as [_ E].
  apply Z.ltb_lt in E. case_decide as Eb.
  - right. subst b. rewrite lookup_insert_eq in IH. cbn [from_option id] in IH. lia.
  - rewrite lookup_insert_ne in IH by done. exact IH.
Qed.

Lemma select_matches epochs slots (rs : list Rec) : forall limit used r,
  r ∈ select limit (Some epochs) slots used rs -> epochs !! r_Group r = Some (r_Epoch r).
Proof.
  induction rs as [|x rs IH]; intros limit used r; cbn [select]; [by intros ?%elem_of_nil|].
  destruct (limit <=? 0); [by intros ?%elem_of_nil|].
  destruct (eligible_matches _ _ _ x) eqn:E; [|apply IH]. intros [->|Hr]%elem_of_cons; [|by eapply IH].
  unfold eligible_matches in E. apply andb_true_iff in E as [E _].
  destruct (epochs !! r_Group x) as [e|]; [|done]. by apply Z.eqb_eq in E as ->.
Qed.

(** ** The worker's results under retry *)
Abbreviation results m := ((map_to_list m).*2).
Definition keyed (m : gmap string completedAttempt) : Prop :=
  forall id c, m !! id = Some c -> cm_id c = id.

Lemma elem_of_results m c : keyed m -> c ∈ results m <-> m !! cm_id c = Some c.
Proof.
  intros Hk. rewrite list_elem_of_fmap. split.
  - intros ([id x] & -> & Hin%elem_of_map_to_list). cbn. by rewrite (Hk _ _ Hin).
  - intros H. exists (cm_id c, c). split; [done|]. by apply elem_of_map_to_list.
Qed.
Lemma results_ids m : keyed m -> NoDup (cm_id <$> results m).
Proof.
  intros Hk. assert (E : cm_id <$> results m = (map_to_list m).*1).
  { rewrite <- list_fmap_compose. apply list_fmap_ext. intros i [id c] Hin. cbn.
    apply Hk, elem_of_map_to_list. by eapply list_elem_of_lookup_2. }
  rewrite E. apply NoDup_fst_map_to_list.
Qed.
Lemma ids_nodup (l : list completedAttempt) : NoDup (cm_id <$> l) -> NoDup l.
Proof. apply NoDup_fmap_1. Qed.

Lemma kept_lookup (batch : list completedAttempt) : forall m id,
  foldl (fun m c => delete (cm_id c) m) m batch !! id =
  if decide (id ∈ cm_id <$> batch) then None else (m : gmap string completedAttempt) !! id.
Proof.
  induction batch as [|c batch IH]; intros m id; [done|]. cbn [foldl]. rewrite IH.
  destruct (decide (id = cm_id c)) as [->|Hne].
  - rewrite lookup_delete_eq, (decide_True (P := cm_id c ∈ cm_id <$> (c :: batch))) by left.
    by case_decide.
  - rewrite lookup_delete_ne by done. cbn. repeat case_decide; set_solver.
Qed.

Lemma insert_failed_lookup (failed : list completedAttempt) : forall m id c,
  NoDup (cm_id <$> failed) ->
  insert_failed failed m !! id = Some c <->
  (c ∈ failed /\ cm_id c = id) \/ (id ∉ cm_id <$> failed /\ m !! id = Some c).
Proof.
  induction failed as [|x failed IH]; intros m id c Hnd.
  { cbn. set_solver. }
  rewrite fmap_cons in Hnd. apply NoDup_cons in Hnd as [Hn Hnd].
  change (insert_failed (x :: failed) m) with (insert_failed failed (<[cm_id x := x]> m)).
  rewrite (IH _ _ _ Hnd), lookup_insert_Some, elem_of_cons, fmap_cons, not_elem_of_cons.
  split.
  - intros [[? ?]|(H1 & [[E1 E2]|[E1 E2]])]; [tauto|left; subst; tauto|right; naive_solver].
  - intros [[[->|H] <-]|[[H1 H2] H3]]; [right|left|right]; naive_solver.
Qed.

Lemma insert_failed_keyed failed m : NoDup (cm_id <$> failed) -> keyed m -> keyed (insert_failed failed m).
Proof. intros Hnd Hk id c [[_ ?]|[_ ?]]%insert_failed_lookup; [done|by apply Hk|done]. Qed.

(** Failed results join those under retry. *)
Lemma insert_failed_results failed m :
  NoDup (cm_id <$> failed) -> keyed m -> (forall c, c ∈ failed -> m !! cm_id c = None) ->
  results (insert_failed failed m) ≡ₚ failed ++ results m.
Proof.
  intros Hnd Hk Hd. pose proof (insert_failed_keyed failed m Hnd Hk) as Hk'.
  apply NoDup_Permutation; [by apply ids_nodup, results_ids| |].
  - apply NoDup_app. split_and!; [by apply ids_nodup| |by apply ids_nodup, results_ids].
    intros c Hc Hin%elem_of_results; [|done]. by rewrite (Hd c Hc) in Hin.
  - intros c. rewrite elem_of_app, !elem_of_results, insert_failed_lookup by done. split.
    + intros [[? _]|[_ ?]]; tauto.
    + intros [?|Hm]; [by left|right]. split; [|done].
      intros (x & E & Hx)%list_elem_of_fmap. rewrite E, (Hd x Hx) in Hm. done.
Qed.

Lemma kept_results (batch : list completedAttempt) m :
  keyed m -> let kept := foldl (fun m c => delete (cm_id c) m) m batch in
  keyed kept /\ results kept ≡ₚ filter (fun c => cm_id c ∉ cm_id <$> batch) (results m).
Proof.
  intros Hk kept. assert (Hkept : keyed kept).
  { intros id c. unfold kept. rewrite kept_lookup. case_decide; [done|apply Hk]. }
  split; [done|]. apply NoDup_Permutation; [by apply ids_nodup, results_ids| |].
  - apply NoDup_filter. by apply ids_nodup, results_ids.
  - intros c. rewrite list_elem_of_filter, !elem_of_results by done. unfold kept.
    rewrite kept_lookup. case_decide; naive_solver.
Qed.

Lemma scheduleRetry_fields w :
  wk_phase (scheduleRetry w) = wk_phase w /\ wk_retrying (scheduleRetry w) = wk_retrying w.
Proof. unfold scheduleRetry. by destruct (_ || _). Qed.

Lemma worker_applied_fields batch failed w :
  wk_phase (worker_applied batch failed w) = WSelect /\
  wk_retrying (worker_applied batch failed w) =
    insert_failed failed (foldl (fun m c => delete (cm_id c) m) (wk_retrying w) batch).
Proof.
  unfold worker_applied. match goal with |- context [scheduleRetry ?x] => destruct (scheduleRetry_fields x) as [E1 E2] end.
  rewrite E1, E2. by case_bool_decide.
Qed.

Lemma waiting_all w : worker_batch w = [] -> worker_waiting w = results (wk_retrying w).
Proof. intros E. unfold worker_waiting. rewrite E. apply filter_all. intros c _. apply not_elem_of_nil. Qed.

(** ** Stages of an application *)
Lemma limbo_wait batch : stage_limbo batch AWait = [].
Proof.
  unfold stage_limbo. cbn [stage_live]. destruct (filter _ _) as [|c l] eqn:E; [done|]. exfalso.
  assert (Hc : c ∈ c :: l) by left. rewrite <- E in Hc. apply list_elem_of_filter in Hc as [Hn Hc].
  by apply Hn, list_elem_of_fmap_2.
Qed.
Lemma limbo_all batch applied : stage_limbo batch (AAccount applied []) = batch.
Proof. unfold stage_limbo. cbn. apply filter_all. intros c _. apply not_elem_of_nil. Qed.

Lemma elem_of_limbo batch stage c :
  c ∈ stage_limbo batch stage <-> c ∈ batch /\ cm_id c ∉ cm_id <$> stage_live batch stage.
Proof. unfold stage_limbo. rewrite list_elem_of_filter. tauto. Qed.

Lemma same_id (batch : list completedAttempt) c c' :
  NoDup (cm_id <$> batch) -> c ∈ batch -> c' ∈ batch -> cm_id c = cm_id c' -> c = c'.
Proof.
  intros Hnd [i Hi]%list_elem_of_lookup_1 [j Hj]%list_elem_of_lookup_1 E.
  assert (i = j) as ->; [|congruence].
  eapply (NoDup_lookup _ i j (cm_id c) Hnd); rewrite list_lookup_fmap; [rewrite Hi|rewrite Hj]; cbn;
    congruence.
Qed.

Lemma live_ids (l : list completedAttempt) : pa_EventID <$> (cm_attempt <$> l) = cm_id <$> l.
Proof. by rewrite <- list_fmap_compose. Qed.

(** One result settled: it moves from the live ones to those in limbo. *)
Lemma limbo_item batch c todo applied applied' failed err :
  NoDup (cm_id <$> batch) -> c ∈ batch -> cm_id c ∉ cm_id <$> (todo ++ failed) ->
  forall a, a ∈ cm_attempt c :: (cm_attempt <$> stage_limbo batch (AItems (c :: todo) applied failed err)) <->
    a ∈ cm_attempt <$> stage_limbo batch (AItems todo applied' failed err).
Proof.
  intros Hnd Hc Hn a. rewrite elem_of_cons, !list_elem_of_fmap. setoid_rewrite elem_of_limbo.
  cbn [stage_live app fmap list_fmap]. setoid_rewrite not_elem_of_cons. split.
  - intros [->|(x & -> & Hx & _ & Hx')]; [exists c|exists x]; by split_and!.
  - intros (x & -> & Hx & Hx'). destruct (decide (cm_id x = cm_id c)) as [E|Hne].
    + left. by rewrite (same_id batch x c Hnd Hx Hc E).
    + right. by exists x.
Qed.

Section Inv.
Context {P : Type} (library : CustomerLibrary P) (encode_payload : P -> result (list Z)).
Context {B : Type} `{!Bolt B} {net_url : NetURL}.
Context (authority : string -> Z -> option MembershipSnapshot).
Implicit Types p : Publisher B.
Implicit Types d : AsyncDispatcher B.
Implicit Types s : System B.
Abbreviation pinv := (pinv library authority).

Lemma activeEpochs_admitted p r :
  activeEpochs p !! r_Group r = Some (r_Epoch r) -> admitted p r = true.
Proof.
  unfold activeEpochs, admitted. rewrite lookup_omap.
  destruct (p_membership p !! r_Group r) as [snapshot|]; [|done]. cbn.
  destruct (routable (ms_Phase snapshot)); [|done]. intros [= ->]. by rewrite Z.eqb_refl.
Qed.

Abbreviation most d := (ac_MaxInEventsA (ad_config d)).
Abbreviation most_on d := (ac_MaxInEventsAPerBroker (ad_config d)).

Definition measured d (limit : Z) (by_broker : string -> Z) : Prop :=
  0 < limit /\ Z.of_nat (size (ad_pending d)) + limit <= most d /\
  (0 < most_on d -> forall b, pending_on b (ad_pending d) <= by_broker b).

(** The pending attempts leave room for these records. *)
Definition room d (records : list Rec) : Prop :=
  Z.of_nat (size (ad_pending d)) + Z.of_nat (length records) <= most d /\
  (0 < most_on d -> forall b, on_broker b records = 0 \/
     pending_on b (ad_pending d) + on_broker b records <= most_on d).

Definition within d : Prop :=
  Z.of_nat (size (ad_pending d)) <= most d /\
  (0 < most_on d -> forall b, pending_on b (ad_pending d) <= most_on d).

Lemma brokerSlots_bound d by_broker slots b :
  brokerSlots by_broker d = Some slots ->
  0 < most_on d /\ default 0 (slots !! b) <= Z.max 0 (most_on d - by_broker b).
Proof.
  unfold brokerSlots. destruct (Z.ltb_spec 0 (most_on d)); [|done]. intros [= <-]. split; [done|].
  destruct (list_to_map _ !! b) as [n|] eqn:E; [|cbn; lia]. apply elem_of_list_to_map_2 in E.
  apply list_elem_of_bind in E as (snapshot & Hin & _). destruct (routable _).
  - apply list_elem_of_fmap in Hin as (b' & [= -> ->] & _). cbn. lia.
  - by apply elem_of_nil in Hin.
Qed.

Lemma select_records_room d used limit by_broker :
  pinv (ad_publisher d) used -> measured d limit by_broker ->
  room d (select_records limit by_broker d) /\
  (forall r, r ∈ select_records limit by_broker d -> admitted (ad_publisher d) r = true).
Proof.
  intros Hp (Hl & Hm & Hb). pose proof (pi_sinv _ _ _ _ Hp) as Hi. unfold select_records.
  set (o := p_outbox (ad_publisher d)) in *.
  destruct (EligibleFor_dispatchable o limit (Some (activeEpochs (ad_publisher d)))
    (brokerSlots by_broker d) Hi) as [_ _ _ Hlen].
  destruct (is_open o) eqn:Ho.
  2: { assert (E : forall e sl, EligibleFor limit e sl o = []).
       { intros e sl. unfold EligibleFor. case_match; [done|]. by rewrite Ho, orb_true_r. }
       rewrite E. split; [split; [cbn; lia|intros; by left]|by intros ? ?%elem_of_nil]. }
  rewrite (EligibleFor_ok _ _ _ o (sv_mem _ Hi) Ho) in *. unfold eligible_spec in *.
  split; [|intros r Hr; by eapply activeEpochs_admitted, select_matches].
  split; [lia|]. intros Hper b. destruct (brokerSlots by_broker d) as [slots|] eqn:Es.
  2: { exfalso. unfold brokerSlots in Es. by rewrite (proj2 (Z.ltb_lt _ _) Hper) in Es. }
  destruct (brokerSlots_bound _ _ _ b Es) as [_ Hsl].
  pose proof (select_slots (Some (activeEpochs (ad_publisher d))) slots b (ready_heads (recs o)) limit ∅) as Hs.
  cbn zeta in Hs. rewrite lookup_empty in Hs. cbn [from_option id] in Hs. specialize (Hb Hper b).
  unfold on_broker in *. set (n := length (filter _ _)) in *. destruct Hs as [Hs|Hs]; [by left|].
  destruct (Z.eq_dec (Z.of_nat n) 0); [by left|]. right. lia.
Qed.

Lemma select_records_selected d used limit by_broker :
  pinv (ad_publisher d) used ->
  selected (recs (p_outbox (ad_publisher d))) (select_records limit by_broker d).
Proof.
  intros Hp. pose proof (pi_sinv _ _ _ _ Hp) as Hi.
  destruct (EligibleFor_dispatchable (p_outbox (ad_publisher d)) limit
    (Some (activeEpochs (ad_publisher d))) (brokerSlots by_broker d) Hi) as [D1 D2 D3 _].
  unfold select_records. set (records := EligibleFor _ _ _ _) in *. clearbody records. split.
  - clear D2. induction records as [|r records IH]; cbn in *; [constructor|].
    apply NoDup_cons in D3 as [Hn Hnd]. constructor; [|apply IH; [intros; apply D1; by right|done]].
    intros (x & E & Hx)%list_elem_of_fmap. apply Hn. apply list_elem_of_fmap. exists x.
    split; [|done]. f_equal. apply (recs_named_once _ Hi); [apply D1; left|apply D1; by right|done].
  - intros r Hr. destruct (D1 r Hr) as [H1 H2]. split_and!; [done..|].
    destruct (D2 r Hr r H1 eq_refl) as [_ Ho]. intros x Hx E. by apply Ho.
Qed.

(** ** The invariant *)
Abbreviation records_of d := (recs (p_outbox (ad_publisher d))).

Definition stage_ok (batch : list completedAttempt) (stage : apply_stage) : Prop :=
  NoDup (cm_id <$> batch) /\ forall c, c ∈ stage_live batch stage -> c ∈ batch.

Definition grouped (rs : list Rec) (records : list Rec) : Prop :=
  forall x r, x ∈ records -> r ∈ rs -> r_EventID r = r_EventID x -> r_Group r = r_Group x.

Definition dispatch_ok d (ph : dispatch_phase) : Prop :=
  match ph with
  | DMeasured limit by_broker => measured d limit by_broker
  | DSelected records =>
      selected (records_of d) records /\ room d records /\
      forall r, r ∈ records -> admitted (ad_publisher d) r = true
  | DMarked records =>
      grouped (records_of d) records /\ room d records /\
      forall r, r ∈ records -> admitted (ad_publisher d) r = true
  | DSubmitting _ todo _ => forall r, r ∈ todo -> admitted (ad_publisher d) r = true
  | DApply _ batch stage => stage_ok batch stage
  | _ => True
  end.

Definition worker_ok (w : worker) : Prop :=
  (forall id c, wk_retrying w !! id = Some c -> cm_id c = id) /\
  match wk_phase w with
  | WApply batch stage stopping =>
      stage_ok batch stage /\
      (stopping = true -> forall c, c ∈ batch -> wk_retrying w !! cm_id c = None)
  | _ => True
  end.

Definition dispatch_holds (ph : dispatch_phase) : bool :=
  match ph with DApply _ _ stage => stage_holds stage | _ => false end.
Definition worker_holds (w : worker) : bool :=
  match wk_phase w with WApply _ stage _ => stage_holds stage | _ => false end.

Record ainv s (used : gset string) : Prop := {
  ai_pub : pinv (ad_publisher (sy_d s)) used;
  ai_books : books (records_of (sy_d s)) (ad_pending (sy_d s)) (marked s) (carried s) (limbo s);
  ai_used : forall a, a ∈ marked s ++ carried s ++ limbo s -> pa_EventID a ∈ used;
  ai_dispatch : dispatch_ok (sy_d s) (sy_dispatch s);
  ai_worker : worker_ok (sy_worker s);
  ai_alone : dispatch_holds (sy_dispatch s) && worker_holds (sy_worker s) = false;
  ai_within : within (sy_d s);
}.

(** *** Steps that only pass attempts on *)
Record same_core d d' : Prop := {
  sc_publisher : ad_publisher d' = ad_publisher d;
  sc_config : ad_config d' = ad_config d;
  sc_pending : ad_pending d' = ad_pending d;
}.

Lemma same_core_ok d d' ph : same_core d d' -> dispatch_ok d ph -> dispatch_ok d' ph.
Proof.
  intros [E1 E2 E3]. unfold dispatch_ok, measured, room. destruct ph; rewrite ?E1, ?E2, ?E3; done.
Qed.
Lemma same_core_within d d' : same_core d d' -> within d -> within d'.
Proof. intros [E1 E2 E3]. unfold within. by rewrite E2, E3. Qed.

Lemma ainv_shuffle s s' used :
  ainv s used -> same_core (sy_d s) (sy_d s') -> marked s' = marked s ->
  carried s' ≡ₚ carried s -> (forall a, a ∈ limbo s' <-> a ∈ limbo s) ->
  dispatch_ok (sy_d s) (sy_dispatch s') -> worker_ok (sy_worker s') ->
  dispatch_holds (sy_dispatch s') && worker_holds (sy_worker s') = false -> ainv s' used.
Proof.
  intros [I1 I2 I3 I4 I5 I6 I7] Hc Em Hp Hl Hd Hw Ha. pose proof Hc as [E1 E2 E3].
  split; [by rewrite E1| | |by eapply same_core_ok|done|done|by eapply same_core_within].
  - rewrite E1, E3, Em. eapply books_perm; [symmetry; exact Hp| |exact I2]. intros a. by rewrite Hl.
  - intros a. rewrite Em, !elem_of_app, Hp, Hl. intros Hin. apply I3. rewrite !elem_of_app. done.
Qed.

(** *** The durable part of [applyCompletions] *)

(** What it does to the records: nothing new, and what is ready stays. *)
Record calm (rs rs' : list Rec) : Prop := {
  cl_back : forall r', r' ∈ rs' -> exists r, r ∈ rs /\ envelope r' = envelope r;
  cl_ready : forall r, r ∈ rs -> r_State r = StateReady -> r ∈ rs';
}.
Lemma calm_refl rs : calm rs rs.
Proof. split; [|done]. intros r Hr. by exists r. Qed.

Lemma calm_selected rs rs' records : descends rs rs' ->
  (forall r, r ∈ rs -> r_State r = StateReady -> r ∈ rs') -> selected rs records -> selected rs' records.
Proof.
  intros Hd Hk [S1 S2]. split; [done|]. intros r Hr. destruct (S2 r Hr) as (H1 & H2 & H3).
  split_and!; [by apply Hk|done|]. by eapply (oldest_descends rs _ r).
Qed.

Lemma completed_ready now cs r : r_State r = StateReady -> completed now cs r = Some r.
Proof.
  intros Hs. unfold completed, verdict. destruct (list_find _ cs) as [[i c]|]; [|done]. rewrite Hs.
  destruct (_ || _); [done|]. by destruct (co_Outcome c).
Qed.

Lemma settle_calm now cs rs : calm rs (omap (completed now cs) rs).
Proof.
  split.
  - intros r' (r & Hr & E)%list_elem_of_omap. exists r. split; [done|]. unfold completed in E.
    destruct (list_find _ cs) as [[i c]|]; [|congruence].
    destruct (verdict now c r) as [[u|]|] eqn:Ev; [|done|congruence].
    apply verdict_settled in Ev as (_ & next & _ & ->). by injection E as <-.
  - intros r Hr Hs. apply list_elem_of_omap. exists r. by rewrite completed_ready.
Qed.

(** [CompleteBatch] within the dispatcher. *)
Lemma CompleteBatch_pub now (cs : list Completion) d used o out :
  pinv (ad_publisher d) used -> CompleteBatch now cs (p_outbox (ad_publisher d)) = (o, out) ->
  pinv (ad_publisher (set_outbox o d)) used /\
  match out with
  | Ok _ => recs o = omap (completed now cs) (records_of d)
  | Err _ => recs o = records_of d
  end.
Proof.
  intros Hp H. split.
  - apply (settle_pinv library authority (RCompleteBatch now cs) (ad_publisher d) o (outcome out)); [done..|].
    cbn. by rewrite H.
  - pose proof (perform_settle _ _ _ _ _ (pi_sinv _ _ _ _ Hp) H) as [_ Hq _ _].
    by destruct out; injection Hq.
Qed.

Record applied_ok batch (d d' : AsyncDispatcher B) (stage' : apply_stage) used marked rest : Prop := {
  ao_pub : pinv (ad_publisher d') used;
  ao_stage : stage_ok batch stage';
  ao_books : books (records_of d') (ad_pending d') marked
    ((cm_attempt <$> stage_live batch stage') ++ rest) (cm_attempt <$> stage_limbo batch stage');
  ao_config : ad_config d' = ad_config d;
  ao_pending : ad_pending d' = ad_pending d;
  ao_member : p_membership (ad_publisher d') = p_membership (ad_publisher d);
  ao_chans : ad_completions d' = ad_completions d /\ ad_persistenceRetry d' = ad_persistenceRetry d;
  ao_calm : calm (records_of d) (records_of d');
  ao_holds : stage_holds stage' = true;
}.

Lemma apply_batch_ok now batch d used marked rest :
  pinv (ad_publisher d) used -> NoDup (cm_id <$> batch) ->
  books (records_of d) (ad_pending d) marked ((cm_attempt <$> batch) ++ rest) [] ->
  let '(d', stage') := apply_batch now batch d in applied_ok batch d d' stage' used marked rest.
Proof.
  intros Hp Hnd Hb. unfold apply_batch.
  destruct (CompleteBatch now _ _) as [o out] eqn:E.
  destruct (CompleteBatch_pub _ _ _ _ _ _ Hp E) as [Hp' Hr]. destruct out as [applied|e].
  - split; try done; cbn [stage_live ad_publisher set_outbox].
    + split; [done|]. by intros c ?%elem_of_nil.
    + cbn. rewrite limbo_all, Hr. rewrite <- (app_nil_r (cm_attempt <$> batch)).
      apply books_settle; [by intros a c ?%elem_of_nil|done].
    + cbn. rewrite Hr. apply settle_calm.
  - split; try done; cbn [stage_live ad_publisher set_outbox].
    + split; [done|]. intros c. cbn. by rewrite app_nil_r.
    + cbn. rewrite Hr. eapply books_perm; [|..|exact Hb]; [by rewrite app_nil_r|].
      intros a. split; [by intros ?%elem_of_nil|].
      intros (c & _ & [Hc Hn]%elem_of_limbo)%list_elem_of_fmap. exfalso. apply Hn. cbn.
      rewrite app_nil_r. by apply list_elem_of_fmap_2.
    + cbn. rewrite Hr. apply calm_refl.
Qed.

Lemma apply_item_ok now batch c todo applied failed err d used marked rest :
  pinv (ad_publisher d) used -> stage_ok batch (AItems (c :: todo) applied failed err) ->
  books (records_of d) (ad_pending d) marked ((cm_attempt <$> (c :: todo) ++ failed) ++ rest)
    (cm_attempt <$> stage_limbo batch (AItems (c :: todo) applied failed err)) ->
  let '(d', stage') := apply_item now c todo applied failed err d in
  applied_ok batch d d' stage' used marked rest.
Proof.
  intros Hp [Hnd Hsub] Hb. unfold apply_item.
  assert (Hc : c ∈ batch) by (apply Hsub; left).
  assert (Hn : cm_id c ∉ cm_id <$> (todo ++ failed)).
  { pose proof (bk_nodup _ _ _ _ _ Hb) as H. rewrite fmap_app in H. apply NoDup_app in H as (_ & _ & H).
    rewrite fmap_app, live_ids in H. apply NoDup_app in H as (H & _). by apply NoDup_cons in H as [? _]. }
  destruct (CompleteBatch now _ _) as [o out] eqn:E.
  destruct (CompleteBatch_pub _ _ _ _ _ _ Hp E) as [Hp' Hr]. destruct out as [completed|e].
  - split; try done; cbn [stage_live ad_publisher set_outbox].
    + split; [done|]. intros x Hx. apply Hsub. by right.
    + cbn. rewrite Hr. eapply books_perm; [reflexivity|by apply (limbo_item batch c todo applied)|].
      apply (books_settle _ now [c] _ marked); [|exact Hb]. intros a x (y & -> & Hy)%list_elem_of_fmap.
      intros ->%list_elem_of_singleton Ex. apply elem_of_limbo in Hy as [_ Hy]. apply Hy. cbn.
      rewrite <- Ex. by left.
    + cbn. rewrite Hr. apply settle_calm.
  - split; try done; cbn [stage_live ad_publisher set_outbox].
    + split; [done|]. intros x. cbn [stage_live] in *. rewrite !elem_of_app, list_elem_of_singleton.
      intros Hx. apply Hsub. rewrite elem_of_app, elem_of_cons. tauto.
    + cbn. rewrite Hr. eapply books_perm; [|..|exact Hb].
      * cbn [stage_live]. apply Permutation_app_tail, fmap_Permutation.
        by rewrite app_assoc, <- Permutation_cons_append.
      * intros a. rewrite !list_elem_of_fmap. setoid_rewrite elem_of_limbo. cbn [stage_live].
        assert (Hset : forall x, x ∈ cm_id <$> ((c :: todo) ++ failed) <->
          x ∈ cm_id <$> (todo ++ failed ++ [c])).
        { intros x. rewrite !fmap_app. cbn. rewrite elem_of_cons, !elem_of_app, list_elem_of_singleton. tauto. }
        split; intros (x & -> & Hx & Hx'); exists x; (split_and!; [done..|]); intros Hin; by apply Hx', Hset.
    + cbn. rewrite Hr. apply calm_refl.
Qed.

Lemma apply_step_ok free batch d stage d' stage' used marked rest :
  apply_step free batch (d, stage) (d', stage') ->
  pinv (ad_publisher d) used -> stage_ok batch stage ->
  books (records_of d) (ad_pending d) marked ((cm_attempt <$> stage_live batch stage) ++ rest)
    (cm_attempt <$> stage_limbo batch stage) ->
  applied_ok batch d d' stage' used marked rest.
Proof.
  intros H Hp Hs Hb. inversion H as [now d0 Hf E1 E2|now c todo ap fa e d0 E1 E2|ap fa e d0 E1 E2]; subst.
  - rewrite limbo_wait in Hb. pose proof (apply_batch_ok now batch d used marked rest Hp (proj1 Hs) Hb) as Ha.
    rewrite E2 in Ha. exact Ha.
  - pose proof (apply_item_ok now _ _ _ _ _ _ _ _ _ _ Hp Hs Hb) as Ha. rewrite E2 in Ha. exact Ha.
  - destruct (recorded_ok fa e d) as [[V1 V2 V3 V4 V5 V6] Vp]. split; try done.
    + by rewrite V1.
    + rewrite V1, Vp. exact Hb.
    + by rewrite V1.
    + rewrite V1. apply calm_refl.
Qed.

End Inv.
