(* ===== verification/AsyncSteps.v ===== *)
(** * Every step of the dispatcher keeps the invariant *)

From S2P Require Import Prelude Customer Routing Snapshot Heap Outbox OutboxIndex OutboxMemory.
From S2P Require Import OutboxStore OutboxComplete OutboxLoad OutboxTheorems.
From S2P Require Import Publisher PublisherInv PublisherRun PublisherTheorems.
From S2P Require Import Async AsyncRun AsyncInv.
From Stdlib Require Import ZArith Lia.
From stdpp Require Import base gmap strings numbers relations option list.
#[local] Open Scope Z_scope.

Section Steps.
Context {P : Type} (library : CustomerLibrary P) (encode_payload : P -> result (list Z)).
Context {B : Type} `{!Bolt B} {net_url : NetURL}.
Context (authority : string -> Z -> option MembershipSnapshot).
Implicit Types p : Publisher B.
Implicit Types d : AsyncDispatcher B.
Implicit Types s : System B.
Abbreviation pinv := (pinv library authority).
Abbreviation ainv := (ainv library authority).
Abbreviation records_of d := (recs (p_outbox (ad_publisher d))).

(** ** Other users *)
Lemma admitted_member p p' r : p_membership p' = p_membership p -> admitted p' r = admitted p r.
Proof. intros E. unfold admitted. by rewrite E. Qed.

(** A record with a known name comes from one with the same envelope. *)
Lemma mild_back locked p used p' used' r' :
  mild locked p used p' used' -> r' ∈ recs (p_outbox p') -> r_EventID r' ∈ used ->
  exists r, r ∈ recs (p_outbox p) /\ envelope r' = envelope r.
Proof.
  intros [M1 _ M2 _ _ _] Hr Hu. destruct (M1 r' Hr) as [(r & Hin & He & _)|[_ Hn]]; [by exists r|].
  destruct (M2 r' Hr Hu) as (r & Hin & E). by destruct (Hn r Hin).
Qed.

Lemma grouped_back rs rs' records :
  (forall x r', x ∈ records -> r' ∈ rs' -> r_EventID r' = r_EventID x ->
     exists r, r ∈ rs /\ envelope r' = envelope r) ->
  grouped rs records -> grouped rs' records.
Proof.
  intros Hb Hg x r' Hx Hr E. destruct (Hb x r' Hx Hr E) as (r & Hin & He).
  rewrite (f_equal r_Group He : r_Group r' = r_Group r). apply Hg; [done..|].
  destruct (envelope_fields _ _ He). congruence.
Qed.

Lemma others_dispatch d p used used' ph :
  mild (holds_lock ph) (ad_publisher d) used p used' ->
  (forall x, x ∈ match ph with DMarked records => records | _ => [] end -> r_EventID x ∈ used) ->
  dispatch_ok d ph -> dispatch_ok (d <| ad_publisher := p |>) ph.
Proof.
  intros Hm Hu Hd. pose proof Hm as [M1 _ _ _ M4 M5]. destruct ph; cbn in *; try exact Hd.
  - destruct Hd as (D1 & D2 & D3). split_and!; [|done|].
    + by eapply calm_selected; [apply quiet_descends|apply M5|].
    + intros r Hr. rewrite (admitted_member _ _ r (M4 eq_refl)). by apply D3.
  - destruct Hd as (D1 & D2 & D3). split_and!; [|done|].
    + eapply grouped_back; [|exact D1]. intros x r' Hx Hr E. eapply mild_back; [done..|].
      rewrite E. by apply Hu.
    + intros r Hr. rewrite (admitted_member _ _ r (M4 eq_refl)). by apply D3.
  - intros r Hr. rewrite (admitted_member _ _ r (M4 eq_refl)). by apply Hd.
Qed.

Lemma ainv_others s p used used' :
  others_step library encode_payload authority (holds_lock (sy_dispatch s))
    (ad_publisher (sy_d s), used) (p, used') ->
  ainv s used -> ainv (s <| sy_d := sy_d s <| ad_publisher := p |> |>) used'.
Proof.
  intros H [I1 I2 I3 I4 I5 I6 I7]. pose proof (others_mild _ _ _ _ _ _ H I1) as Hm. cbn [fst snd] in Hm.
  pose proof Hm as [M1 _ M2 M3 _ _]. split; try done.
  - exact (pub_step_inv _ _ _ _ _ (others_pub _ _ _ _ _ _ H) I1).
  - cbn. eapply books_quiet; [exact M1| |exact I2].
    intros r' Hr (a & E & Ha)%list_elem_of_fmap. apply M2; [done|]. rewrite E. by apply I3.
  - intros a Ha. apply M3. by apply I3.
  - apply (others_dispatch _ _ used used'); [done| |done]. intros x Hx.
    cbn in Hx. destruct (sy_dispatch s) eqn:Ed; try by apply elem_of_nil in Hx.
    apply (I3 (attempt_of x)), elem_of_app. left. unfold marked. rewrite Ed.
    by apply list_elem_of_fmap_2.
Qed.

(** ** Marking and registering *)
Lemma MarkInEventsABatch_ok now records d used o err :
  pinv (ad_publisher d) used ->
  MarkInEventsABatch now (r_EventID <$> records) (p_outbox (ad_publisher d)) = (o, err) ->
  pinv (ad_publisher (set_outbox o d)) used /\
  recs o = match err with Ok _ => marking now records <$> records_of d | Err _ => records_of d end.
Proof.
  intros Hp H. split.
  - by apply (settle_pinv library authority (RMarkInEventsABatch now (r_EventID <$> records))
      (ad_publisher d) o err).
  - destruct (perform_ok (RMarkInEventsABatch now (r_EventID <$> records)) (p_outbox (ad_publisher d)) o err
      (pi_sinv _ _ _ _ Hp)) as [_ Hq _ _]; [by intros ? ?%elem_of_nil|done|].
    destruct err; by injection Hq.
Qed.

Lemma marking_envelope now records r : envelope (marking now records r) = envelope r.
Proof.
  unfold marking. case_decide; [|done]. unfold edited, begin_attempt. by case_bool_decide.
Qed.

Lemma ainv_mark now records s used :
  sy_dispatch s = DSelected records -> ainv s used -> ainv (dispatch_mark now records s) used.
Proof.
  intros Ed Hi. pose proof Hi as [I1 I2 I3 I4 I5 I6 I7]. rewrite Ed in I4. destruct I4 as (D1 & D2 & D3).
  unfold dispatch_mark, mark_records.
  destruct (MarkInEventsABatch _ _ _) as [o err] eqn:Em.
  destruct (MarkInEventsABatch_ok _ _ _ _ _ _ I1 Em) as [Hp Hr].
  pose proof (recs_named_once _ (pi_sinv _ _ _ _ I1)) as Hon.
  assert (Ec : carried s = carried (s <| sy_dispatch := DIdle |>)) by (unfold carried; by rewrite Ed).
  assert (El : limbo s = limbo (s <| sy_dispatch := DIdle |>)) by (unfold limbo; by rewrite Ed).
  assert (Emk : marked s = []) by (unfold marked; by rewrite Ed).
  rewrite Ec, El, Emk in I2. rewrite Ec, El, Emk in I3. destruct err as [[]|e]; split; try done.
  - cbn -[carried limbo marked]. rewrite Hr. exact (books_mark _ now _ _ _ _ Hon D1 I2).
  - intros a [Ha|Ha]%elem_of_app; [|by apply I3]. cbn in Ha.
    apply list_elem_of_fmap in Ha as (x & -> & Hx). cbn. eapply recs_used; [apply I1|].
    by apply (sl_ready _ _ D1).
  - cbn. split_and!; [|done|done]. rewrite Hr. intros x r' Hx (r & -> & Hin)%list_elem_of_fmap E.
    pose proof (marking_envelope now records r) as He. destruct (envelope_fields _ _ He) as (E1 & _).
    rewrite (f_equal r_Group He : r_Group (marking now records r) = r_Group r). f_equal.
    apply Hon; [done|by apply (sl_ready _ _ D1)|congruence].
  - cbn -[carried limbo marked]. rewrite Hr. exact I2.
Qed.

Lemma ainv_register records s used :
  sy_dispatch s = DMarked records -> ainv s used -> ainv (dispatch_register records s) used.
Proof.
  intros Ed [I1 I2 I3 I4 I5 I6 I7]. rewrite Ed in I4. destruct I4 as (D1 & [R1 R2] & D3).
  assert (Ec : carried (dispatch_register records s) = (attempt_of <$> records) ++ carried s).
  { unfold carried. rewrite Ed. cbn. by rewrite app_nil_r. }
  assert (El : limbo (dispatch_register records s) = limbo s) by (unfold limbo; by rewrite Ed).
  assert (Emk : marked s = attempt_of <$> records) by (unfold marked; by rewrite Ed).
  split; try done.
  - rewrite Ec, El. rewrite Emk in I2. exact (books_register _ _ _ _ _ I2 D1).
  - intros a. rewrite Ec, El. intros Ha. apply I3. rewrite Emk. cbn in Ha. rewrite !elem_of_app in *. tauto.
  - split; cbn.
    + pose proof (registered_size records (ad_pending (sy_d s))) as H. unfold registered in H. lia.
    + intros Hper b. pose proof (registered_on b records (ad_pending (sy_d s))) as H. unfold registered in H.
      destruct I7 as [_ W]. specialize (W Hper b). destruct (R2 Hper b); lia.
Qed.

(** ** The durable part of [applyCompletions] *)
Lemma no_dispatch_limbo ph : dispatch_holds ph = false -> dispatch_limbo ph = [].
Proof. destruct ph as [| | | | |n batch [| |]| |]; try done. intros _. apply limbo_wait. Qed.
Lemma no_worker_limbo w : worker_holds w = false -> worker_limbo w = [].
Proof.
  unfold worker_holds, worker_limbo. destruct (wk_phase w) as [| |batch [| |] st|]; try done.
  intros _. apply limbo_wait.
Qed.
Lemma apply_step_takes free batch d stage x :
  apply_step free batch (d, stage) x -> free = true \/ stage_holds stage = true.
Proof. intros H. inversion H; subst; [by left|by right..]. Qed.

Lemma committing_holds s : committing s = dispatch_holds (sy_dispatch s) || worker_holds (sy_worker s).
Proof. done. Qed.

(** The phase of a [Dispatch] survives what an application does. *)
Lemma applied_dispatch batch d d' stage' used mk rest ph :
  applied_ok library authority batch d d' stage' used mk rest -> dispatch_ok d ph -> dispatch_ok d' ph.
Proof.
  intros [_ _ _ Ec Ep Em _ [C1 C2] _]. assert (Hd : descends (records_of d) (records_of d')).
  { intros r' Hr. left. by apply C1. }
  unfold dispatch_ok, measured, room. rewrite Ec, Ep. destruct ph; try done.
  - intros (D1 & D2 & D3). split_and!; [by eapply calm_selected|apply D2..|].
    intros r Hr. rewrite (admitted_member _ _ r Em). by apply D3.
  - intros (D1 & D2 & D3). split_and!; [|apply D2..|].
    + eapply grouped_back; [|exact D1]. intros x r' _ Hr _. by apply C1.
    + intros r Hr. rewrite (admitted_member _ _ r Em). by apply D3.
  - intros D r Hr. rewrite (admitted_member _ _ r Em). by apply D.
Qed.

Lemma applied_within batch d d' stage' used mk rest :
  applied_ok library authority batch d d' stage' used mk rest -> within d -> within d'.
Proof. intros [_ _ _ Ec Ep _ _ _ _]. unfold within. by rewrite Ec, Ep. Qed.

(** Settled or not, an attempt of the batch keeps its name. *)
Lemma applied_used batch stage stage' (rest : list PublishAttempt) (used : gset string) :
  stage_ok batch stage -> stage_ok batch stage' ->
  (forall a, a ∈ (cm_attempt <$> stage_live batch stage) ++ rest ++ (cm_attempt <$> stage_limbo batch stage) ->
     pa_EventID a ∈ used) ->
  forall a, a ∈ (cm_attempt <$> stage_live batch stage') ++ rest ++ (cm_attempt <$> stage_limbo batch stage') ->
    pa_EventID a ∈ used.
Proof.
  intros [_ S1] [_ S2] Hu a.
  assert (Hb : forall c, c ∈ batch -> cm_id c ∈ used).
  { intros c Hc. destruct (decide (cm_id c ∈ cm_id <$> stage_live batch stage)) as [Hin|Hn].
    - apply list_elem_of_fmap in Hin as (x & -> & Hx). apply (Hu (cm_attempt x)).
      apply elem_of_app. left. by apply list_elem_of_fmap_2.
    - apply (Hu (cm_attempt c)). rewrite !elem_of_app. do 2 right. apply list_elem_of_fmap_2.
      by apply elem_of_limbo. }
  intros [(c & -> & Hc)%list_elem_of_fmap|[Ha|(c & -> & Hc)%list_elem_of_fmap]%elem_of_app]%elem_of_app.
  - by apply Hb, S2.
  - apply Hu. rewrite !elem_of_app. tauto.
  - apply Hb. by apply elem_of_limbo in Hc as [? _].
Qed.

Lemma ainv_dispatch_apply n batch stage stage' d s used :
  sy_dispatch s = DApply n batch stage ->
  apply_step (negb (committing s)) batch (sy_d s, stage) (d, stage') ->
  ainv s used -> ainv (s <| sy_d := d |> <| sy_dispatch := DApply n batch stage' |>) used.
Proof.
  intros Ed Hs [I1 I2 I3 I4 I5 I6 I7]. rewrite Ed in I4, I6. cbn [dispatch_ok dispatch_holds] in I4, I6.
  assert (Hw : worker_holds (sy_worker s) = false).
  { destruct (apply_step_takes _ _ _ _ _ Hs) as [H|H]; [|by rewrite H in I6].
    rewrite committing_holds in H. destruct (worker_holds _); [|done]. by rewrite orb_true_r in H. }
  assert (El : limbo s = cm_attempt <$> stage_limbo batch stage).
  { unfold limbo. rewrite Ed, (no_worker_limbo _ Hw). cbn. by rewrite app_nil_r. }
  assert (Em : marked s = []) by (unfold marked; by rewrite Ed).
  set (rest := sy_awaiting s ++ (cm_attempt <$> ad_completions (sy_d s) ++ ad_persistenceRetry (sy_d s) ++
     worker_busy (sy_worker s) ++ worker_waiting (sy_worker s))).
  assert (Ec : carried s = (cm_attempt <$> stage_live batch stage) ++ rest) by (unfold carried; by rewrite Ed).
  rewrite El, Em, Ec in I2. rewrite El, Em, Ec in I3.
  pose proof (apply_step_ok library authority _ _ _ _ _ _ used [] rest Hs I1 I4 I2) as Ha.
  pose proof Ha as [A1 A2 A3 A4 A5 A6 [A7 A7'] A8 A9].
  set (s' := s <| sy_d := d |> <| sy_dispatch := DApply n batch stage' |>).
  assert (Ec' : carried s' = (cm_attempt <$> stage_live batch stage') ++ rest).
  { unfold carried, rest. cbn -[worker_busy worker_waiting]. by rewrite A7, A7'. }
  assert (El' : limbo s' = cm_attempt <$> stage_limbo batch stage').
  { unfold limbo. cbn -[worker_limbo]. rewrite (no_worker_limbo _ Hw). by rewrite app_nil_r. }
  split; try done.
  - rewrite Ec', El'. exact A3.
  - rewrite Ec', El'. intros a Ha'. cbn in Ha', I3. rewrite <- app_assoc in Ha', I3.
    by eapply (applied_used batch stage stage' rest).
  - cbn. by rewrite A9, Hw.
  - by eapply applied_within.
Qed.

Lemma ainv_worker_apply batch stage stage' stopping d s used :
  wk_phase (sy_worker s) = WApply batch stage stopping ->
  apply_step (negb (committing s)) batch (sy_d s, stage) (d, stage') ->
  ainv s used -> ainv (set_phase (WApply batch stage' stopping) (s <| sy_d := d |>)) used.
Proof.
  intros Ew Hs [I1 I2 I3 I4 I5 I6 I7]. destruct I5 as [Hk I5]. rewrite Ew in I5. destruct I5 as [Hst Hstop].
  unfold worker_holds in I6. rewrite Ew in I6.
  assert (Hd : dispatch_holds (sy_dispatch s) = false).
  { destruct (apply_step_takes _ _ _ _ _ Hs) as [H|H].
    - rewrite committing_holds in H. by destruct (dispatch_holds _).
    - by rewrite H, andb_true_r in I6. }
  set (rest := dispatch_live (sy_dispatch s) ++ sy_awaiting s ++
    (cm_attempt <$> ad_completions (sy_d s) ++ ad_persistenceRetry (sy_d s) ++ worker_waiting (sy_worker s))).
  assert (El : limbo s = cm_attempt <$> stage_limbo batch stage).
  { unfold limbo. rewrite (no_dispatch_limbo _ Hd). unfold worker_limbo. by rewrite Ew. }
  assert (Ec : carried s ≡ₚ (cm_attempt <$> stage_live batch stage) ++ rest).
  { unfold carried, rest, worker_busy. rewrite Ew, !fmap_app. solve_Permutation. }
  rewrite El in I2, I3. apply (books_perm _ _ _ _ _ _ _ Ec (fun a => iff_refl _)) in I2.
  pose proof (apply_step_ok library authority _ _ _ _ _ _ used (marked s) rest Hs I1 Hst I2) as Ha.
  pose proof Ha as [A1 A2 A3 A4 A5 A6 [A7 A7'] A8 A9].
  set (s' := set_phase (WApply batch stage' stopping) (s <| sy_d := d |>)).
  assert (Ewt : worker_waiting (sy_worker s') = worker_waiting (sy_worker s)).
  { unfold worker_waiting, worker_batch. cbn. by rewrite Ew. }
  assert (Ec' : carried s' ≡ₚ (cm_attempt <$> stage_live batch stage') ++ rest).
  { unfold carried, rest. rewrite Ewt. unfold worker_busy. cbn -[worker_waiting].
    rewrite A7, A7', !fmap_app. solve_Permutation. }
  assert (El' : limbo s' = cm_attempt <$> stage_limbo batch stage').
  { unfold limbo. cbn -[dispatch_limbo]. by rewrite (no_dispatch_limbo _ Hd). }
  split; try done.
  - rewrite El'. eapply books_perm; [symmetry; exact Ec'|done|exact A3].
  - rewrite El'. intros a. rewrite Ec'. intros Ha'. change (marked s') with (marked s) in Ha'.
    apply (applied_used batch stage stage' (rest ++ marked s) used Hst A2).
    + intros x Hx. apply I3. rewrite Ec. clear -Hx. clearbody rest. rewrite !elem_of_app in *. tauto.
    + clear -Ha'. clearbody rest. rewrite !elem_of_app in *. tauto.
  - by eapply applied_dispatch.
  - cbn. by rewrite Hd.
  - by eapply applied_within.
Qed.

(** ** Accounting *)
Lemma shrink_dispatch d d' ph :
  ad_publisher d' = ad_publisher d -> ad_config d' = ad_config d -> ad_pending d' ⊆ ad_pending d ->
  dispatch_ok d ph -> dispatch_ok d' ph.
Proof.
  intros E1 E2 Hsub. pose proof (map_subseteq_size _ _ Hsub) as Hs.
  pose proof (fun b => pending_on_mono b _ _ Hsub) as Hon.
  assert (Hroom : forall records, room d records -> room d' records).
  { intros records [R1 R2]. unfold room. rewrite E2. split; [lia|]. intros Hper b.
    specialize (Hon b). destruct (R2 Hper b); [by left|right; lia]. }
  unfold dispatch_ok, measured. rewrite E1, E2. destruct ph; try done.
  - intros (D1 & D2 & D3). split_and!; [done|lia|]. intros Hper b. specialize (Hon b).
    specialize (D3 Hper b). lia.
  - intros (D1 & D2 & D3). split_and!; [done|by apply Hroom|done].
  - intros (D1 & D2 & D3). split_and!; [done|by apply Hroom|done].
Qed.
Lemma shrink_within d d' :
  ad_config d' = ad_config d -> ad_pending d' ⊆ ad_pending d -> within d -> within d'.
Proof.
  intros E2 Hsub [W1 W2]. pose proof (map_subseteq_size _ _ Hsub) as Hs.
  unfold within. rewrite E2. split; [lia|]. intros Hper b. specialize (W2 Hper b).
  pose proof (pending_on_mono b _ _ Hsub). lia.
Qed.

Lemma account_shrinks batch applied failed d :
  let d' := fst (account batch applied failed d) in
  accounts d d' /\ ad_pending d' ⊆ ad_pending d /\
  forall id q, ad_pending d' !! id = Some q <-> ad_pending d !! id = Some q /\ ~ ended batch failed id q.
Proof.
  destruct (account_ok batch applied failed d) as [H1 H2]. split_and!; [done| |done].
  apply map_subseteq_spec. intros id p Hp. by apply H2 in Hp as [? _].
Qed.

(** What is in limbo after the durable part is what accounting ends. *)
Lemma account_limbo batch applied failed a :
  a ∈ cm_attempt <$> stage_limbo batch (AAccount applied failed) <->
  exists c, c ∈ batch /\ cm_id c ∉ cm_id <$> failed /\ a = cm_attempt c.
Proof.
  rewrite list_elem_of_fmap. setoid_rewrite elem_of_limbo. cbn. naive_solver.
Qed.

Lemma ainv_dispatch_account n batch applied failed s used :
  sy_dispatch s = DApply n batch (AAccount applied failed) ->
  ainv s used -> ainv (dispatch_account n batch applied failed s) used.
Proof.
  intros Ed [I1 I2 I3 I4 I5 I6 I7]. rewrite Ed in I4, I6. cbn [dispatch_holds stage_holds andb] in I6.
  assert (El : limbo s = cm_attempt <$> stage_limbo batch (AAccount applied failed)).
  { unfold limbo. rewrite Ed, (no_worker_limbo _ I6). cbn. by rewrite app_nil_r. }
  destruct (account_shrinks batch applied failed (sy_d s)) as ([V1 V2 V3 V4 V5 V6] & Hsub & Hacc).
  set (s' := dispatch_account n batch applied failed s).
  assert (Ec : carried s' = carried s).
  { unfold carried. rewrite Ed. cbn -[worker_busy worker_waiting account]. by rewrite V5, V6. }
  assert (El' : limbo s' = []) by (unfold limbo; cbn -[worker_limbo]; by rewrite (no_worker_limbo _ I6)).
  assert (Em : marked s' = marked s) by (unfold marked; by rewrite Ed).
  split; try done.
  - cbn -[account]. by rewrite V1.
  - rewrite Ec, El', Em. cbn -[account carried marked]. rewrite V1.
    eapply books_account; [exact Hacc| |exact I2]. intros a. rewrite El. apply account_limbo.
  - rewrite Ec, El', Em, app_nil_r. intros a Ha. apply I3. rewrite app_assoc. apply elem_of_app. by left.
  - by eapply shrink_within.
Qed.

(** The worker after an application: what failed waits for the retry timer. *)
Lemma worker_account_results batch applied failed (stopping : bool) w :
  wk_phase w = WApply batch (AAccount applied failed) stopping -> worker_ok w ->
  NoDup (cm_id <$> failed) ->
  let w' := if stopping then worker_stopped failed w else worker_applied batch failed w in
  worker_ok w' /\ worker_busy w' = [] /\ worker_holds w' = false /\
  worker_waiting w' ≡ₚ failed ++ worker_waiting w.
Proof.
  intros Ew [Hk Hok] Hnd. rewrite Ew in Hok. destruct Hok as [[_ Hsub] Hstop].
  assert (Ewt : worker_waiting w = filter (fun c => cm_id c ∉ cm_id <$> batch) ((map_to_list (wk_retrying w)).*2)).
  { unfold worker_waiting, worker_batch. by rewrite Ew. }
  destruct stopping; cbn zeta.
  - assert (Hd : forall c, c ∈ failed -> wk_retrying w !! cm_id c = None).
    { intros c Hc. apply Hstop; [done|]. by apply Hsub. }
    split_and!; try done; [split; [|done]; by apply insert_failed_keyed|].
    rewrite waiting_all by done. cbn. rewrite Ewt, filter_all; [by apply insert_failed_results|].
    intros c Hc%elem_of_results; [|done]. intros (x & E & Hx)%list_elem_of_fmap.
    by rewrite E, (Hstop eq_refl x Hx) in Hc.
  - destruct (worker_applied_fields batch failed w) as [E1 E2].
    destruct (kept_results batch (wk_retrying w) Hk) as [Hkk Hkr].
    split_and!; unfold worker_ok, worker_busy, worker_holds; rewrite ?E1; try done.
    + split; [|done]. rewrite E2. by apply insert_failed_keyed.
    + rewrite waiting_all by (unfold worker_batch; by rewrite E1).
      rewrite E2, Ewt, <- Hkr. apply insert_failed_results; [done..|]. intros c Hc.
      rewrite kept_lookup, decide_True; [done|]. by apply list_elem_of_fmap_2, Hsub.
Qed.

Lemma ainv_worker_account batch applied failed stopping s used :
  wk_phase (sy_worker s) = WApply batch (AAccount applied failed) stopping ->
  ainv s used -> ainv (worker_account batch applied failed stopping s) used.
Proof.
  intros Ew [I1 I2 I3 I4 I5 I6 I7].
  assert (Hd : dispatch_holds (sy_dispatch s) = false).
  { unfold worker_holds in I6. rewrite Ew in I6. by rewrite andb_true_r in I6. }
  assert (Hnd : NoDup (cm_id <$> failed)).
  { pose proof (bk_nodup _ _ _ _ _ I2) as H. unfold carried, worker_busy in H. rewrite Ew in H. cbn in H.
    rewrite !fmap_app, !live_ids in H. do 5 apply NoDup_app in H as (_ & _ & H).
    by apply NoDup_app in H as (H & _). }
  destruct (worker_account_results _ _ _ _ _ Ew I5 Hnd) as (W1 & W2 & W3 & W4).
  assert (El : limbo s = cm_attempt <$> stage_limbo batch (AAccount applied failed)).
  { unfold limbo. rewrite (no_dispatch_limbo _ Hd). unfold worker_limbo. by rewrite Ew. }
  destruct (account_shrinks batch applied failed (sy_d s)) as ([V1 V2 V3 V4 V5 V6] & Hsub & Hacc).
  unfold worker_account. set (w' := if stopping then _ else _) in *.
  set (s' := s <| sy_d := fst _ |> <| sy_worker := w' |>).
  assert (Ec : carried s' ≡ₚ carried s).
  { unfold carried. cbn -[worker_busy worker_waiting account dispatch_live]. rewrite V5, V6, W2.
    unfold worker_busy. rewrite Ew. cbn -[worker_waiting account dispatch_live w'].
    do 3 f_equiv. by rewrite W4. }
  assert (El' : limbo s' = []).
  { unfold limbo. cbn -[worker_limbo dispatch_limbo w']. by rewrite (no_dispatch_limbo _ Hd), (no_worker_limbo _ W3). }
  assert (Em : marked s' = marked s) by done.
  split; try done.
  - cbn -[account]. by rewrite V1.
  - rewrite El', Em. eapply books_perm; [symmetry; exact Ec|done|]. cbn -[account carried marked].
    rewrite V1. eapply books_account; [exact Hacc| |exact I2]. intros a. rewrite El. apply account_limbo.
  - rewrite El', Em, app_nil_r. intros a. rewrite Ec. intros Ha. apply I3. rewrite app_assoc.
    apply elem_of_app. by left.
  - by apply (shrink_dispatch (sy_d s)).
  - cbn. by rewrite Hd.
  - by eapply shrink_within.
Qed.

(** ** Steps that only pass attempts on *)
Lemma measure_ok limit d limit' by_broker :
  0 < limit -> measure limit d = Ok (Some (limit', by_broker)) -> measured d limit' by_broker.
Proof.
  unfold measure. intros Hl. destruct (ad_closed d); [done|]. cbn zeta.
  destruct (Z.leb_spec (ac_MaxInEventsA (ad_config d) - Z.of_nat (size (ad_pending d))) 0); [done|].
  intros [= <- <-]. split_and!; [lia|lia|]. intros Hper b. by rewrite (proj2 (Z.ltb_lt _ _) Hper).
Qed.

Lemma ainv_measure limit s used :
  sy_dispatch s = DIdle -> 0 < limit -> ainv s used -> ainv (dispatch_measure limit s) used.
Proof.
  intros Ed Hl Hi. pose proof Hi as [_ _ _ _ I5 _ _]. unfold dispatch_measure. set (ph := match _ with Ok _ => _ | Err _ => _ end).
  assert (Hph : dispatch_ok (sy_d s) ph /\ dispatch_live ph = [] /\ dispatch_limbo ph = [] /\
    dispatch_holds ph = false /\ marked (s <| sy_dispatch := ph |>) = []).
  { subst ph. destruct (measure limit (sy_d s)) as [[[l by_broker]|]|e] eqn:E; try done.
    split_and!; try done. by apply (measure_ok limit). }
  clearbody ph. destruct Hph as (H1 & H2 & H3 & H4 & H5).
  apply (ainv_shuffle _ _ s); try done.
  - rewrite H5. unfold marked. by rewrite Ed.
  - unfold carried. cbn -[worker_busy worker_waiting dispatch_live]. by rewrite H2, Ed.
  - intros a. unfold limbo. cbn -[worker_limbo dispatch_limbo]. by rewrite H3, Ed.
  - cbn. by rewrite H4.
Qed.

Lemma ainv_select limit by_broker s used :
  sy_dispatch s = DMeasured limit by_broker -> ainv s used -> ainv (dispatch_select limit by_broker s) used.
Proof.
  intros Ed Hi. pose proof Hi as [I1 _ _ I4 I5 _ _]. rewrite Ed in I4. unfold dispatch_select.
  pose proof (select_records_selected library authority _ used limit by_broker I1) as Hs.
  destruct (select_records_room library authority _ used limit by_broker I1 I4) as [Hr Ha].
  apply (ainv_shuffle _ _ s); try done; unfold carried, limbo, marked; rewrite ?Ed; cbn; by case_bool_decide.
Qed.

Lemma submit_attempt record answer latency c :
  submit record answer latency = Some c -> cm_attempt c = attempt_of record.
Proof. by destruct answer; intros [= <-]. Qed.
Lemma await_attempt a answer latency : cm_attempt (await a answer latency) = a.
Proof. destruct answer as [e|r]; cbn; [done|]. by repeat case_match. Qed.

Lemma ainv_submit n todo record rest immediate answer latency s used :
  sy_dispatch s = DSubmitting n todo immediate -> todo ≡ₚ record :: rest ->
  ainv s used -> ainv (dispatch_submit n record rest immediate answer latency s) used.
Proof.
  intros Ed Hp Hi. pose proof Hi as [_ _ _ I4 I5 _ _]. rewrite Ed in I4. cbn in I4.
  assert (Hd : forall r, r ∈ rest -> admitted (ad_publisher (sy_d s)) r = true).
  { intros r Hr. apply I4. rewrite Hp. by right. }
  unfold dispatch_submit. destruct (submit record answer latency) as [c|] eqn:Es.
  - apply submit_attempt in Es. apply (ainv_shuffle _ _ s); try done; unfold carried, limbo, marked;
      rewrite ?Ed; try done.
    cbn -[worker_busy worker_waiting]. apply Permutation_app_tail. rewrite Hp, fmap_app. cbn. rewrite Es.
    solve_Permutation.
  - apply (ainv_shuffle _ _ s); try done; unfold carried, limbo, marked; rewrite ?Ed; try done.
    cbn -[worker_busy worker_waiting]. rewrite Hp. cbn. solve_Permutation.
Qed.

(** The results on their way to the outbox have names of their own. *)
Lemma results_nodup s used :
  ainv s used -> NoDup (cm_id <$> ad_completions (sy_d s) ++ ad_persistenceRetry (sy_d s) ++
    worker_busy (sy_worker s) ++ worker_waiting (sy_worker s)).
Proof.
  intros [_ I2 _ _ _ _ _]. pose proof (bk_nodup _ _ _ _ _ I2) as H. unfold carried in H.
  rewrite !(fmap_app pa_EventID), live_ids in H. by do 3 apply NoDup_app in H as (_ & _ & H).
Qed.

Lemma ainv_submitted n immediate s used :
  sy_dispatch s = DSubmitting n [] immediate -> ainv s used -> ainv (dispatch_submitted n immediate s) used.
Proof.
  intros Ed Hi. pose proof Hi as [_ I2 _ _ I5 _ _]. unfold dispatch_submitted.
  assert (Hnd : NoDup (cm_id <$> immediate)).
  { pose proof (bk_nodup _ _ _ _ _ I2) as H. unfold carried in H. rewrite Ed in H. cbn [dispatch_live fmap list_fmap app] in H.
    rewrite !fmap_app, live_ids in H. apply NoDup_app in H as (_ & _ & H). by apply NoDup_app in H as (H & _). }
  case_bool_decide as En; apply (ainv_shuffle _ _ s); try done; unfold carried, limbo, marked; rewrite ?Ed; try done.
  - by subst.
  - cbn -[worker_limbo stage_limbo]. by rewrite limbo_wait.
Qed.

Lemma ainv_hand_over report c rest s used :
  sy_dispatch s = DHandOver report (c :: rest) -> ainv s used -> ainv (dispatch_hand_over report c rest s) used.
Proof.
  intros Ed Hi. pose proof Hi as [_ _ _ _ I5 _ _].
  apply (ainv_shuffle _ _ s); try done; unfold carried, limbo, marked; rewrite ?Ed; try done.
  cbn -[worker_busy worker_waiting]. rewrite !fmap_app. cbn. solve_Permutation.
Qed.

Lemma ainv_quiet_phase ph s used :
  dispatch_live (sy_dispatch s) = [] -> dispatch_limbo (sy_dispatch s) = [] -> marked s = [] ->
  match ph with DIdle | DReturn _ _ => True | _ => False end ->
  ainv s used -> ainv (s <| sy_dispatch := ph |>) used.
Proof.
  intros H1 H2 H3 Hph Hi. pose proof Hi as [_ _ _ _ I5 _ _].
  apply (ainv_shuffle _ _ s); try done; unfold carried, limbo; rewrite ?H1, ?H2, ?H3; by destruct ph.
Qed.

Lemma ainv_resolve a rest answer latency s used :
  sy_awaiting s ≡ₚ a :: rest -> ainv s used -> ainv (resolve a rest answer latency s) used.
Proof.
  intros Hp Hi. pose proof Hi as [_ _ _ I4 I5 I6 _].
  apply (ainv_shuffle _ _ s); try done. unfold carried. cbn -[worker_busy worker_waiting dispatch_live].
  rewrite Hp, !fmap_app. cbn. rewrite await_attempt. solve_Permutation.
Qed.

(** *** The worker *)
Lemma ainv_worker w d s used :
  ainv s used -> same_core (sy_d s) d -> worker_ok w -> worker_holds w = false ->
  worker_holds (sy_worker s) = false ->
  (cm_attempt <$> ad_completions d ++ ad_persistenceRetry d ++ worker_busy w ++ worker_waiting w) ≡ₚ
  (cm_attempt <$> ad_completions (sy_d s) ++ ad_persistenceRetry (sy_d s) ++
     worker_busy (sy_worker s) ++ worker_waiting (sy_worker s)) ->
  ainv (s <| sy_d := d |> <| sy_worker := w |>) used.
Proof.
  intros Hi Hc Hw Hh Hh' Hp. pose proof Hi as [_ _ _ I4 _ _ _].
  apply (ainv_shuffle _ _ s); try done.
  - unfold carried. cbn -[worker_busy worker_waiting dispatch_live]. by rewrite Hp.
  - intros a. unfold limbo. cbn -[worker_limbo dispatch_limbo]. by rewrite !no_worker_limbo.
  - cbn. by rewrite Hh, andb_false_r.
Qed.

(** What is under retry is not on its way otherwise. *)
Lemma retrying_apart s used c :
  ainv s used -> worker_batch (sy_worker s) = [] ->
  c ∈ ad_completions (sy_d s) ++ ad_persistenceRetry (sy_d s) ++ worker_busy (sy_worker s) ->
  wk_retrying (sy_worker s) !! cm_id c = None.
Proof.
  intros Hi Hb Hc. pose proof (results_nodup _ _ Hi) as Hnd. destruct Hi as [_ _ _ _ [Hk _] _ _].
  assert (Hd : NoDup (cm_id <$> (ad_completions (sy_d s) ++ ad_persistenceRetry (sy_d s) ++
    worker_busy (sy_worker s)) ++ worker_waiting (sy_worker s))) by by rewrite <- !app_assoc.
  rewrite fmap_app in Hd. apply NoDup_app in Hd as (_ & Hd & _). rewrite (waiting_all _ Hb) in Hd.
  destruct (wk_retrying (sy_worker s) !! cm_id c) as [x|] eqn:E; [|done]. exfalso.
  apply (Hd (cm_id c)); [by apply list_elem_of_fmap_2|].
  rewrite <- (Hk _ _ E). apply list_elem_of_fmap_2, elem_of_results; [done|]. by rewrite (Hk _ _ E).
Qed.

Lemma ainv_receive c rest s used :
  wk_phase (sy_worker s) = WSelect -> ad_persistenceRetry (sy_d s) = c :: rest ->
  ainv s used -> ainv (take_retry c rest s) used.
Proof.
  intros Ew Er Hi. pose proof Hi as [_ _ _ _ [Hk _] _ _].
  assert (Hb : worker_batch (sy_worker s) = []) by (unfold worker_batch; by rewrite Ew).
  assert (Hn : wk_retrying (sy_worker s) !! cm_id c = None).
  { apply (retrying_apart s used); [done..|]. rewrite Er, !elem_of_app, elem_of_cons. auto. }
  unfold take_retry, worker_receive. match goal with |- context [scheduleRetry ?x] =>
    destruct (scheduleRetry_fields x) as [E1 E2]; set (w := scheduleRetry x) in * end.
  clearbody w. cbn in E1, E2. rewrite Ew in E1.
  assert (Hf : worker_holds w = false /\ worker_holds (sy_worker s) = false)
    by (unfold worker_holds; by rewrite E1, Ew).
  apply ainv_worker; try done; try apply Hf.
  - split; [|by rewrite E1]. intros id x. rewrite E2. intros [[<- <-]|[_ Hx]]%lookup_insert_Some; [done|by apply Hk].
  - cbn -[worker_busy worker_waiting]. rewrite (waiting_all _ Hb), (waiting_all w), E2, Er;
      [|unfold worker_batch; by rewrite E1].
    unfold worker_busy. rewrite E1, Ew, map_to_list_insert by done. cbn. rewrite !fmap_app. cbn.
    rewrite fmap_app. solve_Permutation.
Qed.

Lemma ainv_retry batch s used :
  wk_phase (sy_worker s) = WSelect -> batch ≡ₚ results (wk_retrying (sy_worker s)) ->
  ainv s used -> ainv (s <| sy_worker := worker_retry batch (sy_worker s) |>) used.
Proof.
  intros Ew Hp Hi. pose proof Hi as [_ _ _ _ [Hk _] _ _].
  assert (Hf : worker_holds (sy_worker s) = false) by (unfold worker_holds; by rewrite Ew).
  change (s <| sy_worker := worker_retry batch (sy_worker s) |>)
    with (s <| sy_d := sy_d s |> <| sy_worker := worker_retry batch (sy_worker s) |>).
  apply ainv_worker; try done.
  - split; [done|]. cbn. split; [|done]. split; [|done]. rewrite Hp. by apply results_ids.
  - rewrite (waiting_all (sy_worker s)) by (unfold worker_batch; by rewrite Ew).
    unfold worker_busy. rewrite Ew. cbn -[worker_waiting].
    assert (E : worker_waiting (worker_retry batch (sy_worker s)) = []).
    { unfold worker_waiting. cbn. destruct (filter _ _) as [|x l] eqn:E; [done|]. exfalso.
      assert (Hx : x ∈ x :: l) by left. rewrite <- E in Hx. apply list_elem_of_filter in Hx as [Hn Hx].
      apply Hn, list_elem_of_fmap_2. by rewrite Hp. }
    by rewrite E, app_nil_r, Hp.
Qed.

Lemma ainv_take batch c rest s used :
  match wk_phase (sy_worker s) with WSelect => batch = [] | WCollect b => batch = b | _ => False end ->
  ad_completions (sy_d s) = c :: rest -> ainv s used -> ainv (take_completion batch c rest s) used.
Proof.
  intros Hb Ec Hi. pose proof Hi as [_ _ _ _ [Hk _] _ _].
  assert (Hf : worker_holds (sy_worker s) = false /\ worker_batch (sy_worker s) = [] /\
    worker_busy (sy_worker s) = batch).
  { unfold worker_holds, worker_batch, worker_busy. by destruct (wk_phase (sy_worker s)); subst. }
  destruct Hf as (F1 & F2 & F3).
  apply (ainv_worker _ (sy_d s <| ad_completions := rest |>)); try done.
  cbn -[worker_waiting worker_busy]. rewrite F3, Ec, (waiting_all _ F2), waiting_all by done. cbn.
  rewrite !fmap_app. cbn. solve_Permutation.
Qed.

Lemma ainv_flush batch stopping s used :
  wk_phase (sy_worker s) = WCollect batch -> ainv s used ->
  ainv (set_phase (WApply batch AWait stopping) s) used.
Proof.
  intros Ew Hi. pose proof Hi as [_ _ _ _ [Hk _] _ _].
  assert (Hb : worker_batch (sy_worker s) = []) by (unfold worker_batch; by rewrite Ew).
  assert (Hbusy : worker_busy (sy_worker s) = batch) by (unfold worker_busy; by rewrite Ew).
  assert (Hn : forall c, c ∈ batch -> wk_retrying (sy_worker s) !! cm_id c = None).
  { intros c Hc. apply (retrying_apart s used); [done..|]. rewrite Hbusy, !elem_of_app. auto. }
  pose proof (results_nodup _ _ Hi) as Hnd. rewrite Hbusy, !fmap_app in Hnd.
  do 2 apply NoDup_app in Hnd as (_ & _ & Hnd). apply NoDup_app in Hnd as (Hnd & _).
  assert (Hf : worker_holds (sy_worker s) = false) by (unfold worker_holds; by rewrite Ew).
  apply (ainv_worker _ (sy_d s)); try done.
  rewrite Hbusy, (waiting_all _ Hb). unfold worker_busy. cbn -[worker_waiting].
  unfold worker_waiting. cbn. rewrite filter_all; [done|].
  intros c Hc%elem_of_results; [|done]. intros (x & E & Hx)%list_elem_of_fmap.
  by rewrite E, (Hn x Hx) in Hc.
Qed.

Lemma ainv_worker_stop s used :
  wk_phase (sy_worker s) = WSelect -> ainv s used ->
  ainv (s <| sy_worker := stopRetryTimer (sy_worker s) <| wk_phase := WDone |> |>) used.
Proof.
  intros Ew Hi. pose proof Hi as [_ _ _ _ [Hk _] _ _].
  apply (ainv_worker _ (sy_d s)); try done; [unfold worker_holds; by rewrite Ew|].
  rewrite !waiting_all by (unfold worker_batch; by rewrite ?Ew). unfold worker_busy. by rewrite Ew.
Qed.

Lemma ainv_core d s used :
  ainv s used -> same_core (sy_d s) d -> ad_completions d = ad_completions (sy_d s) ->
  ad_persistenceRetry d = ad_persistenceRetry (sy_d s) -> ainv (s <| sy_d := d |>) used.
Proof.
  intros Hi Hc E1 E2. pose proof Hi as [_ _ _ I4 I5 I6 _]. apply (ainv_shuffle _ _ s); try done.
  unfold carried. cbn -[worker_busy worker_waiting dispatch_live]. by rewrite E1, E2.
Qed.

(** ** Every step *)
Lemma ainv_step c c' :
  async_step library encode_payload authority c c' -> ainv (fst c) (snd c) -> ainv (fst c') (snd c').
Proof.
  intros H Hi. destruct H; cbn [fst snd] in *; eauto using ainv_others, ainv_measure, ainv_select, ainv_mark,
    ainv_register, ainv_submit, ainv_submitted, ainv_dispatch_apply, ainv_dispatch_account, ainv_hand_over,
    ainv_resolve, ainv_receive, ainv_retry, ainv_flush, ainv_worker_apply, ainv_worker_account, ainv_worker_stop.
  - apply ainv_quiet_phase; try done; unfold marked; by rewrite H.
  - apply ainv_quiet_phase; try done; unfold marked; by rewrite H.
  - apply ainv_take; try done. by rewrite H.
  - apply ainv_take; try done. by rewrite H.
  - by apply ainv_core.
  - unfold close_check. destruct (ad_stopped _); [|case_bool_decide]; by apply ainv_core.
Qed.

Lemma ainv_steps c c' :
  rtc (async_step library encode_payload authority) c c' -> ainv (fst c) (snd c) -> ainv (fst c') (snd c').
Proof. induction 1; eauto using ainv_step. Qed.
End Steps.
