(* ===== verification/AsyncTheorems.v ===== *)
(** * What the asynchronous dispatcher guarantees

    Its limits and accounts, the ordering of native publications, and what a
    quiescent status means. *)

From S2P Require Import Prelude Customer Routing Snapshot Heap Outbox OutboxIndex OutboxMemory.
From S2P Require Import OutboxStore OutboxComplete OutboxLoad OutboxTheorems.
From S2P Require Import Publisher PublisherInv PublisherRun PublisherTheorems.
From S2P Require Import Async AsyncRun AsyncInv AsyncSteps.
From Stdlib Require Import ZArith Lia.
From stdpp Require Import base gmap strings numbers relations option list.
#[local] Open Scope Z_scope.

Section Theorems.
Context {P : Type} (library : CustomerLibrary P) (encode_payload : P -> result (list Z)).
Context {B : Type} `{!Bolt B} {net_url : NetURL}.
Context (authority : string -> Z -> option MembershipSnapshot).
Implicit Types p : Publisher B.
Implicit Types d : AsyncDispatcher B.
Implicit Types s : System B.
Abbreviation pinv := (pinv library authority).
Abbreviation ainv := (ainv library authority).
Abbreviation async_step := (async_step library encode_payload authority).
Abbreviation records_of d := (recs (p_outbox (ad_publisher d))).

(** A dispatcher over a publisher none of whose records is in flight, as it is
    after [Open]. *)
Record async_started (config : AsyncDispatcherConfig) s (used : gset string) : Prop := {
  sd_new : NewAsyncDispatcher (Some (ad_publisher (sy_d s))) true config = Ok (sy_d s);
  sd_sys : s = mkSystem (sy_d s) DIdle [] new_worker;
  sd_pub : pinv (ad_publisher (sy_d s)) used;
  sd_calm : forall r, r ∈ records_of (sy_d s) -> r_State r <> StateInEventsA;
}.

Lemma async_config_ok config config' :
  async_config config = Ok config' ->
  0 < ac_MaxInEventsA config' /\ 0 <= ac_MaxInEventsAPerBroker config' <= ac_MaxInEventsA config' /\
  0 < ac_CompletionBatchSize config' /\ 0 < ac_CompletionFlushPeriod config'.
Proof.
  unfold async_config. destruct (_ || _) eqn:E1; [done|]. cbn [fail_if].
  destruct (_ || _) eqn:E2 in |- *; [done|]. cbn [fail_if]. destruct (_ || _) eqn:E3 in |- *; [done|].
  cbn [fail_if]. intros [= <-]. to_prop.
  destruct (Z.eqb_spec (ac_CompletionBatchSize config) 0), (Z.eqb_spec (ac_CompletionFlushPeriod config) 0);
    cbn; repeat case_match; cbn; to_prop; lia.
Qed.

Lemma started_ainv config s used : async_started config s used -> ainv s used.
Proof.
  intros [Hn Hs Hp Hc]. assert (Hd : ad_pending (sy_d s) = ∅ /\ ad_completions (sy_d s) = [] /\
    ad_persistenceRetry (sy_d s) = [] /\ 0 < ac_MaxInEventsA (ad_config (sy_d s)) /\
    0 <= ac_MaxInEventsAPerBroker (ad_config (sy_d s))).
  { unfold NewAsyncDispatcher in Hn. destruct (async_config config) as [c|] eqn:E; [|done]. cbn in Hn.
    apply async_config_ok in E. injection Hn as Hn. rewrite <- Hn. cbn. split_and!; try done; apply E. }
  destruct Hd as (D1 & D2 & D3 & D4 & D5). destruct s as [d ph aw w]. injection Hs as -> -> ->. cbn in *.
  assert (Ec : carried (mkSystem d DIdle [] new_worker) = []).
  { unfold carried. cbn. rewrite D2, D3. done. }
  split; try done.
  - rewrite Ec. cbn [sy_d]. rewrite D1. split; cbn; try done; try (by intros ? ?%elem_of_nil);
      [constructor|by intros ? ? ?%elem_of_nil|by intros ? ? ?%elem_of_nil|].
    intros r Hr Hs. by destruct (Hc r Hr).
  - rewrite Ec. cbn. by intros ? ?%elem_of_nil.
  - split; cbn [sy_d]; rewrite D1; [rewrite map_size_empty; cbn; lia|]. intros Hper b. unfold pending_on.
    rewrite map_filter_empty, map_size_empty. cbn. lia.
Qed.

Lemma reached_ainv config s0 used0 s used :
  async_started config s0 used0 -> rtc async_step (s0, used0) (s, used) -> ainv s used.
Proof. intros H0 H. exact (ainv_steps _ _ _ _ _ H (started_ainv _ _ _ H0)). Qed.

(** ** Accounts *)
Lemma carried_bound s used :
  ainv s used -> (length (carried s) <= size (ad_pending (sy_d s)))%nat.
Proof.
  intros [_ [B1 B2 _ _ _ _ _ _] _ _ _ _ _]. rewrite fmap_app in B1. apply NoDup_app in B1 as (_ & _ & B1).
  rewrite <- (length_fmap pa_EventID), <- size_dom, <- (size_list_to_set (C := gset string) _ B1).
  apply subseteq_size. intros id. rewrite elem_of_list_to_set. intros (a & -> & Ha)%list_elem_of_fmap.
  destruct (B2 a Ha) as (p & Hp & _). apply elem_of_dom. by exists p.
Qed.

(** The attempt a record in flight is on. *)
Definition current_attempt (r : Rec) : PublishAttempt :=
  mkPublishAttempt (r_EventID r) (r_Attempts r) (r_Epoch r).

Lemma claim_current rs a r :
  in_flight_as rs a r -> r_EventID r = pa_EventID a -> a = current_attempt r.
Proof. intros (_ & E2 & E3 & _) E1. destruct a. unfold current_attempt. cbn in *. congruence. Qed.

(** C12: In every run of an asynchronous dispatcher, with any answers of the
    broker, database failures, memberships and interleavings of its goroutines,
    the unresolved attempts stay within the configured maximum and, if it is
    set, the maximum per broker; every goroutine that has a result to pass on
    finds room in its channel; and every record durably in flight is either
    just marked by the running [Dispatch] or has its current attempt pending
    and carried by exactly one future, channel, batch or retry entry: no
    terminal result is lost or doubled. *)
Theorem async_accounts config s0 used0 s used :
  async_started config s0 used0 -> rtc async_step (s0, used0) (s, used) ->
  let d := sy_d s in
  within d /\
  (sy_awaiting s <> [] -> Z.of_nat (length (ad_completions d)) < ac_MaxInEventsA (ad_config d)) /\
  (forall report c rest, sy_dispatch s = DHandOver report (c :: rest) ->
     Z.of_nat (length (ad_persistenceRetry d)) < ac_MaxInEventsA (ad_config d)) /\
  NoDup (carried s) /\
  (forall r, r ∈ records_of d -> r_State r = StateInEventsA ->
     current_attempt r ∈ marked s \/
     current_attempt r ∈ carried s /\
     exists q, ad_pending d !! r_EventID r = Some q /\ pd_attempt q = current_attempt r /\
       pd_group q = r_Group r).
Proof.
  intros H0 Hrun d. pose proof (reached_ainv _ _ _ _ _ H0 Hrun) as Hi.
  pose proof (carried_bound _ _ Hi) as Hb. pose proof Hi as [I1 [B1 B2 B3 B4 B5 B6 B7 B8] _ _ _ _ I7].
  destruct I7 as [W1 W2]. unfold carried in Hb. rewrite !length_app, length_fmap, !length_app in Hb.
  split_and!; [done|..].
  - intros Hne. destruct (sy_awaiting s); [done|]. cbn in Hb. subst d. lia.
  - intros report c rest Ed. rewrite Ed in Hb. cbn in Hb. subst d. lia.
  - rewrite fmap_app in B1. apply NoDup_app in B1 as (_ & _ & B1). by apply NoDup_fmap_1 in B1.
  - intros r Hr Hs. destruct (B8 r Hr Hs) as (a & Ha & Ea).
    pose proof (B5 a r Ha Hr (eq_sym Ea)) as Hf.
    rewrite <- (claim_current _ _ _ Hf (eq_sym Ea)). apply elem_of_app in Ha as [Ha|Ha]; [by left|right].
    split; [done|]. destruct (B2 a Ha) as (q & Hq & Eq). exists q. rewrite Ea in Hq.
    split_and!; [done..|]. symmetry. by apply (B4 (r_EventID r)).
Qed.

(** C13: At most one unresolved attempt per ordering key, and always the oldest
    record: in every run, an attempt whose terminal result is not yet durable
    and whose record is still there is the current attempt of a record in
    flight, the oldest of its ordering key; two such attempts of one ordering
    key are the same; and a record about to be handed to the broker belongs to
    the installed epoch of a group that is open for publication. *)
Theorem async_ordering config s0 used0 s used :
  async_started config s0 used0 -> rtc async_step (s0, used0) (s, used) ->
  let d := sy_d s in
  (forall a r, a ∈ carried s -> r ∈ records_of d -> r_EventID r = pa_EventID a ->
     a = current_attempt r /\ r_State r = StateInEventsA /\ oldest (records_of d) r) /\
  (forall a a' r r', a ∈ carried s -> a' ∈ carried s -> r ∈ records_of d -> r' ∈ records_of d ->
     r_EventID r = pa_EventID a -> r_EventID r' = pa_EventID a' ->
     effectiveOrderingKey r = effectiveOrderingKey r' -> a = a') /\
  (forall n todo immediate record, sy_dispatch s = DSubmitting n todo immediate -> record ∈ todo ->
     admitted (ad_publisher d) record = true /\ attempt_of record ∈ carried s).
Proof.
  intros H0 Hrun d. pose proof (reached_ainv _ _ _ _ _ H0 Hrun) as Hi.
  pose proof Hi as [I1 [B1 B2 B3 B4 B5 B6 B7 B8] _ I4 _ _ _].
  assert (Hc : forall a r, a ∈ carried s -> r ∈ records_of d -> r_EventID r = pa_EventID a ->
    in_flight_as (records_of d) a r).
  { intros a r Ha. apply B5. apply elem_of_app. by right. }
  split_and!.
  - intros a r Ha Hr E. pose proof (Hc a r Ha Hr E) as Hf.
    split; [by eapply claim_current|]. destruct Hf as (F1 & _ & _ & F4). done.
  - intros a a' r r' Ha Ha' Hr Hr' E E' Ek.
    destruct (Hc a r Ha Hr E) as (_ & _ & _ & Ho), (Hc a' r' Ha' Hr' E') as (_ & _ & _ & Ho').
    assert (r = r') as <-.
    { apply (seq_inj (p_outbox (ad_publisher d))); [apply (pi_sinv _ _ _ _ I1)|done..|].
      specialize (Ho r' Hr' (eq_sym Ek)). specialize (Ho' r Hr Ek). lia. }
    rewrite (claim_current _ _ _ (Hc a r Ha Hr E) E). symmetry.
    exact (claim_current _ _ _ (Hc a' r Ha' Hr E') E').
  - intros n todo immediate record Ed Hin. rewrite Ed in I4. split; [by apply I4|].
    unfold carried. rewrite Ed. apply elem_of_app. left. cbn [dispatch_live]. apply elem_of_app. left.
    by apply list_elem_of_fmap_2.
Qed.

(** ** Quiescence *)
Definition paused_in (g : string) s : Prop :=
  exists snapshot, p_membership (ad_publisher (sy_d s)) !! g = Some snapshot /\ ms_Phase snapshot = CPaused.

(** A step after which the group is PAUSED. *)
Definition paused_step (g : string) (c c' : System B * gset string) : Prop :=
  async_step c c' /\ paused_in g (fst c').

(** No durable record of the group is in flight or uncertain. *)
Definition settled_group (g : string) s : Prop :=
  forall r, r ∈ records_of (sy_d s) -> r_Group r = g ->
    r_State r <> StateInEventsA /\ r_State r <> StateAckUncertain.
(** No attempt of the group is pending. *)
Definition idle_group (g : string) s : Prop :=
  forall id q, ad_pending (sy_d s) !! id = Some q -> pd_group q <> g.

Lemma paused_excluded g s r : paused_in g s -> admitted (ad_publisher (sy_d s)) r = true -> r_Group r <> g.
Proof.
  intros (snapshot & Hm & Hph) Ha <-. unfold admitted in Ha. rewrite Hm in Ha. unfold routable in Ha.
  rewrite Hph in Ha. done.
Qed.

(** Where an application can leave an uncertain outcome. *)
Lemma completed_doubt now cs r r' :
  completed now cs r = Some r' ->
  r_Group r' = r_Group r /\ (r_State r' = r_State r \/ r_State r = StateInEventsA).
Proof.
  unfold completed. destruct (list_find _ cs) as [[i c]|]; [|intros [= ->]; auto].
  destruct (verdict now c r) as [[u|]|] eqn:Ev; [|done|intros [= ->]; auto].
  apply verdict_settled in Ev as (Hs & next & _ & ->). intros [= <-]. auto.
Qed.

Lemma settle_settled g now (cs : list Completion) d used o out :
  pinv (ad_publisher d) used -> CompleteBatch now cs (p_outbox (ad_publisher d)) = (o, out) ->
  (forall r, r ∈ records_of d -> r_Group r = g -> r_State r <> StateInEventsA /\ r_State r <> StateAckUncertain) ->
  forall r, r ∈ recs o -> r_Group r = g -> r_State r <> StateInEventsA /\ r_State r <> StateAckUncertain.
Proof.
  intros Hp H Hs. destruct (CompleteBatch_pub _ _ _ _ _ _ _ _ Hp H) as [_ Hr].
  destruct out as [applied|e]; rewrite Hr; [|done].
  intros r' (r & Hin & E)%list_elem_of_omap Hg. destruct (completed_doubt _ _ _ _ E) as [Eg Hst].
  destruct (Hs r Hin ltac:(congruence)) as [H1 H2]. destruct Hst as [->|?]; done.
Qed.

Lemma apply_settled g free batch d stage d' stage' used :
  apply_step free batch (d, stage) (d', stage') -> pinv (ad_publisher d) used ->
  (forall r, r ∈ records_of d -> r_Group r = g -> r_State r <> StateInEventsA /\ r_State r <> StateAckUncertain) ->
  forall r, r ∈ records_of d' -> r_Group r = g -> r_State r <> StateInEventsA /\ r_State r <> StateAckUncertain.
Proof.
  intros H Hp Hs. inversion H as [now d0 Hf E1 E2|now c todo ap fa e d0 E1 E2|ap fa e d0 E1 E2]; subst.
  - unfold apply_batch in E2. destruct (CompleteBatch now _ _) as [o out] eqn:E. injection E2 as <- _.
    by eapply settle_settled.
  - unfold apply_item in E2. destruct (CompleteBatch now _ _) as [o out] eqn:E. injection E2 as <- _.
    by eapply settle_settled.
  - destruct (recorded_ok fa e d) as [[V1 _ _ _ _ _] _]. by rewrite V1.
Qed.

Lemma apply_pending free batch d stage d' stage' :
  apply_step free batch (d, stage) (d', stage') ->
  ad_pending d' = ad_pending d /\ ad_config d' = ad_config d.
Proof.
  intros H. inversion H as [now d0 Hf E1 E2|now c todo ap fa e d0 E1 E2|ap fa e d0 E1 E2]; subst.
  - unfold apply_batch in E2. destruct (CompleteBatch now _ _) as [o out]. by injection E2 as <- _.
  - unfold apply_item in E2. destruct (CompleteBatch now _ _) as [o out]. by injection E2 as <- _.
  - by destruct (recorded_ok fa e d) as [[_ V2 _ _ _ _] ?].
Qed.

Lemma mark_settled g now records s used :
  sy_dispatch s = DSelected records -> ainv s used -> paused_in g s -> settled_group g s ->
  settled_group g (dispatch_mark now records s).
Proof.
  intros Ed [I1 _ _ I4 _ _ _] Hpa Hs. rewrite Ed in I4. destruct I4 as (D1 & _ & D3).
  unfold dispatch_mark, mark_records. destruct (MarkInEventsABatch _ _ _) as [o err] eqn:Em.
  destruct (MarkInEventsABatch_ok _ _ _ _ _ _ _ _ I1 Em) as [_ Hr].
  intros r'. cbn. rewrite Hr. destruct err as [[]|e]; [|by apply Hs].
  intros (r & -> & Hin)%list_elem_of_fmap.
  pose proof (recs_named_once _ (pi_sinv _ _ _ _ I1)) as Hon.
  destruct (marking_cases _ now records r Hon D1 Hin) as [(Hx & _ & _ & ->)|(_ & ->)]; [|by apply Hs].
  cbn. intros Hg. by destruct (paused_excluded g s r Hpa (D3 r Hx)).
Qed.

Lemma settled_step g c c' :
  async_step c c' -> ainv (fst c) (snd c) -> paused_in g (fst c) -> settled_group g (fst c) ->
  settled_group g (fst c').
Proof.
  intros H Hi Hpa Hs. pose proof Hi as [I1 _ _ _ _ _ _].
  destruct H; cbn [fst snd] in *; try exact Hs; try (by eapply mark_settled).
  - destruct (others_mild _ _ _ _ _ _ H I1) as [M1 M2 _ _ _ _]. cbn [fst snd] in M1, M2.
    intros r' Hr Hg. split.
    + intros Hst. destruct (M1 r' Hr) as [(r & Hin & He & Hif & _)|[Hn _]]; [|done]. apply Hif in Hst.
      destruct (Hs r Hin) as [? _]; [|done]. by rewrite <- (f_equal r_Group He : r_Group r' = r_Group r).
    + intros Hst. destruct (M2 r' Hr Hst) as (r & Hin & He & Hst').
      destruct (Hs r Hin) as [_ ?]; [|done]. by rewrite <- (f_equal r_Group He : r_Group r' = r_Group r).
  - unfold dispatch_submit. by destruct (submit _ _ _).
  - exact (apply_settled g _ _ _ _ _ _ _ H0 I1 Hs).
  - destruct (account_shrinks batch applied failed (sy_d s)) as ([V1 _ _ _ _ _] & _).
    unfold settled_group. cbn -[account]. by rewrite V1.
  - exact (apply_settled g _ _ _ _ _ _ _ H0 I1 Hs).
  - destruct (account_shrinks batch applied failed (sy_d s)) as ([V1 _ _ _ _ _] & _).
    unfold settled_group. cbn -[account]. by rewrite V1.
  - unfold close_check. destruct (ad_stopped _); [|case_bool_decide]; exact Hs.
Qed.

Lemma idle_step g c c' :
  async_step c c' -> ainv (fst c) (snd c) -> paused_in g (fst c) -> idle_group g (fst c) ->
  idle_group g (fst c').
Proof.
  intros H Hi Hpa Hs. pose proof Hi as [I1 I2 _ I4 _ _ _].
  destruct H; cbn [fst snd] in *; try exact Hs.
  - unfold dispatch_mark, mark_records. by destruct (MarkInEventsABatch _ _ _).
  - rewrite H in I4. destruct I4 as (_ & _ & D3). intros id q Hq. cbn in Hq.
    assert (Hnd : NoDup (r_EventID <$> records)).
    { pose proof (bk_nodup _ _ _ _ _ I2) as Hn. unfold marked in Hn. rewrite H, fmap_app in Hn.
      apply NoDup_app in Hn as (Hn & _). by rewrite <- list_fmap_compose in Hn. }
    apply (registered_cases records _ id q Hnd) in Hq as [(r & Hr & _ & ->)|[_ Hq]]; [|by apply (Hs id)].
    cbn. by apply (paused_excluded g s), D3.
  - unfold dispatch_submit. by destruct (submit _ _ _).
  - destruct (apply_pending _ _ _ _ _ _ H0) as [E _]. intros id q. cbn. rewrite E. apply Hs.
  - destruct (account_shrinks batch applied failed (sy_d s)) as (_ & _ & Hacc).
    intros id q [Hq _]%Hacc. by apply (Hs id).
  - destruct (apply_pending _ _ _ _ _ _ H0) as [E _]. intros id q. cbn. rewrite E. apply Hs.
  - destruct (account_shrinks batch applied failed (sy_d s)) as (_ & _ & Hacc).
    intros id q [Hq _]%Hacc. by apply (Hs id).
  - unfold close_check. destruct (ad_stopped _); [|case_bool_decide]; exact Hs.
Qed.

Lemma paused_run g c c' :
  rtc (paused_step g) c c' -> ainv (fst c) (snd c) -> paused_in g (fst c) ->
  ainv (fst c') (snd c') /\ paused_in g (fst c') /\
  (settled_group g (fst c) -> settled_group g (fst c')) /\ (idle_group g (fst c) -> idle_group g (fst c')).
Proof.
  induction 1 as [c|c1 c2 c3 [Hs Hp2] _ IH]; intros Hi Hp; [done|].
  destruct (IH (ainv_step _ _ _ _ _ Hs Hi) Hp2) as (I1 & I2 & I3 & I4).
  split_and!; [done..|intros H; by eapply I3, settled_step|intros H; by eapply I4, idle_step].
Qed.

Lemma count_zero {A} (f : A -> bool) (l : list A) x : count_where f l = 0 -> x ∈ l -> f x = false.
Proof.
  unfold count_where. intros H Hx. destruct (f x) eqn:E; [|done]. exfalso.
  assert (Hin : x ∈ filter (fun x => f x = true) l) by (apply list_elem_of_filter; done).
  destruct (filter _ l); [by apply elem_of_nil in Hin|]. cbn in H. lia.
Qed.

Lemma quiescent_parts group membership records d :
  ss_Quiescent (Status group membership records d) = true ->
  (exists snapshot, membership !! group = Some snapshot /\ ms_Phase snapshot = CPaused) /\
  (forall r, r ∈ records -> r_Group r = group -> r_State r <> StateInEventsA /\ r_State r <> StateAckUncertain) /\
  (forall id q, ad_pending d !! id = Some q -> pd_group q <> group).
Proof.
  cbn. rewrite !andb_true_iff, !Z.eqb_eq. intros [[[H1 H2] H3] H4]. split_and!.
  - destruct (membership !! group) as [snapshot|]; [|done]. exists snapshot. split; [done|].
    by apply bool_decide_eq_true in H1.
  - intros r Hr Hg. pose proof (count_zero _ _ r H3 Hr) as E3. pose proof (count_zero _ _ r H4 Hr) as E4.
    cbn in E3, E4. rewrite Hg, str_eqb_refl in E3, E4. cbn [andb] in E3, E4.
    apply bool_decide_eq_false in E3, E4. done.
  - intros id q Hq Hg. assert (Hin : q ∈ (map_to_list (ad_pending d)).*2).
    { apply list_elem_of_fmap. exists (id, q). split; [done|]. by apply elem_of_map_to_list. }
    pose proof (count_zero _ _ q H2 Hin) as E. cbn in E. by rewrite Hg, str_eqb_refl in E.
Qed.

(** A quiescent status is the transition evidence it claims to be, although
    [Status] reads the membership, the records and the pending attempts one
    after the other.  If the group stays PAUSED from the first read on, then
    from the last read on, for as long as it stays PAUSED and whatever else the
    goroutines do, the group has no unresolved attempt and no durable record in
    flight or with an uncertain outcome. *)
Theorem quiescent_sound config g start used c0 c1 c2 c3 :
  async_started config start used -> rtc async_step (start, used) c0 ->
  rtc (paused_step g) c0 c1 -> rtc (paused_step g) c1 c2 -> rtc (paused_step g) c2 c3 ->
  is_open (p_outbox (ad_publisher (sy_d (fst c1)))) = true ->
  ss_Quiescent (Status g (p_membership (ad_publisher (sy_d (fst c0))))
    (Records (p_outbox (ad_publisher (sy_d (fst c1))))) (sy_d (fst c2))) = true ->
  (forall a, a ∈ carried (fst c3) -> exists q,
     ad_pending (sy_d (fst c3)) !! pa_EventID a = Some q /\ pd_group q <> g) /\
  (forall r, r ∈ records_of (sy_d (fst c3)) -> r_Group r = g ->
     r_State r <> StateInEventsA /\ r_State r <> StateAckUncertain).
Proof.
  intros H0 H1 H2 H3 H4 Ho Hq. pose proof (ainv_steps _ _ _ _ _ H1 (started_ainv _ _ _ H0)) as Hi0.
  apply quiescent_parts in Hq as (Hp0 & Hr & Hn).
  destruct (paused_run _ _ _ H2 Hi0 Hp0) as (Hi1 & Hp1 & _).
  destruct (paused_run _ _ _ H3 Hi1 Hp1) as (Hi2 & Hp2 & Hs2 & _).
  destruct (paused_run _ _ _ H4 Hi2 Hp2) as (Hi3 & Hp3 & Hs3 & Hn3).
  unfold Records in Hr. rewrite Ho in Hr. split.
  - intros a Ha. destruct (bk_pending _ _ _ _ _ (ai_books _ _ _ _ Hi3) a Ha) as (q & Hq & _).
    exists q. split; [done|]. by eapply (Hn3 Hn).
  - apply Hs3, Hs2. exact Hr.
Qed.
End Theorems.
