(* ===== verification/AsyncScenario.v ===== *)
(** * An asynchronous dispatcher at work

    Concrete runs: two lanes are published while the group prepares a
    transition, PAUSED arrives while their results are outstanding, and the
    status becomes quiescent once they are durable; and a [Close] that returns
    while a [Dispatch] is under way. *)

From S2P Require Import Prelude Customer Routing Snapshot Heap Outbox OutboxIndex OutboxMemory.
From S2P Require Import OutboxStore OutboxComplete OutboxLoad OutboxTheorems.
From S2P Require Import OutboxScenario.
From S2P Require Import Publisher PublisherInv PublisherRun PublisherTheorems PublisherScenario.
From S2P Require Import Async AsyncRun AsyncInv AsyncSteps AsyncTheorems.
From Stdlib Require Import ZArith Lia String.
From stdpp Require Import base gmap strings numbers relations option list.
#[local] Open Scope Z_scope.
#[local] Open Scope string_scope.
#[local] Existing Instance demo_urls.

(** ** Moves *)
Inductive move :=
| MLearn (s : MembershipSnapshot)
| MTake (ms : list (MessageView string))
| MMeasure (limit : Z) | MSelect | MMark | MRegister
| MSubmit (answer : submission) | MSubmitted | MIdle
| MResolve (answer : PublishAttempt -> gerror + AsyncPublishResult)
| MFirst | MFlush | MApply | MApplied | MStop
| MCloseEnter | MCloseCheck.

Definition config_t : Type := System Disk * gset string.

(** The step a move takes, if it is enabled. *)
Definition play (m : move) (c : config_t) : option config_t :=
  let '(s, used) := c in
  let p := ad_publisher (sy_d s) in
  match m with
  | MLearn snapshot =>
      if negb (holds_lock (sy_dispatch s)) &&
         bool_decide (demo_authority (ms_ScalingGroup snapshot) (ms_Revision snapshot) = Some snapshot)
      then Some (s <| sy_d := sy_d s <| ad_publisher := fst (ApplyMembership demo_library 30 snapshot p) |> |>, used)
      else None
  | MTake ms =>
      if forallb (fun m => bool_decide (mv_EventID m ∉ used)) ms
      then Some (s <| sy_d := sy_d s <| ad_publisher :=
                        fst (Publisher.AcceptBatch demo_library demo_encode 30 ms p) |> |>,
                 list_to_set (mv_EventID <$> ms) ∪ used)
      else None
  | MMeasure limit =>
      match sy_dispatch s with
      | DIdle => if (0 <? limit)%Z then Some (dispatch_measure limit s, used) else None
      | _ => None
      end
  | MSelect =>
      match sy_dispatch s with
      | DMeasured limit by_broker => Some (dispatch_select limit by_broker s, used)
      | _ => None
      end
  | MMark =>
      match sy_dispatch s with
      | DSelected records => Some (dispatch_mark 30 records s, used) | _ => None
      end
  | MRegister =>
      match sy_dispatch s with
      | DMarked records => Some (dispatch_register records s, used) | _ => None
      end
  | MSubmit answer =>
      match sy_dispatch s with
      | DSubmitting n (record :: rest) immediate =>
          Some (dispatch_submit n record rest immediate answer 0 s, used)
      | _ => None
      end
  | MSubmitted =>
      match sy_dispatch s with
      | DSubmitting n [] immediate => Some (dispatch_submitted n immediate s, used) | _ => None
      end
  | MIdle =>
      match sy_dispatch s with
      | DReturn _ _ => Some (s <| sy_dispatch := DIdle |>, used) | _ => None
      end
  | MResolve answer =>
      match sy_awaiting s with
      | a :: rest =>
          if (Z.of_nat (List.length (ad_completions (sy_d s))) <? ac_MaxInEventsA (ad_config (sy_d s)))%Z
          then Some (resolve a rest (answer a) 0 s, used) else None
      | [] => None
      end
  | MFirst =>
      match wk_phase (sy_worker s), ad_completions (sy_d s) with
      | WSelect, x :: rest => Some (take_completion [] x rest s, used)
      | _, _ => None
      end
  | MFlush =>
      match wk_phase (sy_worker s), ad_completions (sy_d s) with
      | WCollect batch, [] => Some (set_phase (WApply batch AWait false) s, used)
      | _, _ => None
      end
  | MApply =>
      match wk_phase (sy_worker s) with
      | WApply batch AWait stopping =>
          if committing s then None else
          Some (set_phase (WApply batch (snd (apply_batch 30 batch (sy_d s))) stopping)
                  (s <| sy_d := fst (apply_batch 30 batch (sy_d s)) |>), used)
      | _ => None
      end
  | MApplied =>
      match wk_phase (sy_worker s) with
      | WApply batch (AAccount applied failed) stopping =>
          Some (worker_account batch applied failed stopping s, used)
      | _ => None
      end
  | MStop =>
      match wk_phase (sy_worker s) with
      | WSelect =>
          if ad_stopped (sy_d s)
          then Some (s <| sy_worker := stopRetryTimer (sy_worker s) <| wk_phase := WDone |> |>, used)
          else None
      | _ => None
      end
  | MCloseEnter => Some (s <| sy_d := close_enter (sy_d s) |>, used)
  | MCloseCheck =>
      if ad_closed (sy_d s) then Some (s <| sy_d := fst (close_check (sy_d s)) |>, used) else None
  end.

Abbreviation demo_async := (async_step demo_library demo_encode demo_authority).

Lemma play_step m c c' : play m c = Some c' -> demo_async c c'.
Proof.
  destruct c as [s used]. destruct m; cbn [play]; intros H;
    repeat match type of H with
    | (if ?b then _ else _) = Some _ => destruct b eqn:?; try discriminate
    | match ?l with _ => _ end = Some _ => destruct l eqn:?; try discriminate
    end; injection H as <-; to_prop.
  - eapply as_others, (ot_apply _ _ _ _ 30 s0 _ _ _); [done..|apply surjective_pairing].
  - eapply as_others, (ot_accept _ _ _ _ 30 ms); [|apply surjective_pairing].
    intros m Hm. match goal with H : forallb _ _ = true |- _ => apply (forallb_elem _ _ H) in Hm end.
    by apply bool_decide_eq_true in Hm.
  - by apply as_measure.
  - by apply as_select.
  - by apply as_mark.
  - by apply as_register.
  - by eapply as_submit.
  - by apply as_submitted.
  - by eapply as_idle.
  - eapply as_resolve; [by rewrite Heql|done].
  - by apply as_first.
  - apply as_flush; [done|by right].
  - eapply as_worker_apply; [done|]. rewrite <- surjective_pairing. apply ap_batch.
    by rewrite Heqb.
  - by apply as_worker_account.
  - by apply as_worker_stop.
  - apply as_close_enter.
  - by apply as_close_check.
Qed.

Definition plays (l : list move) (c : config_t) : option config_t :=
  foldl (fun o m => o ≫= play m) (Some c) l.
Lemma plays_steps (l : list move) : forall c c', plays l c = Some c' -> rtc demo_async c c'.
Proof.
  induction l as [|m l IH]; intros c c' H; [injection H as <-; apply rtc_refl|]. unfold plays in H. cbn in H.
  destruct (play m c) as [c1|] eqn:E.
  - eapply rtc_l; [by apply (play_step m)|by apply IH].
  - exfalso. clear -H. induction l; cbn in H; [done|auto].
Qed.

(** ** A transition *)
Definition until_preparing : list input :=
  [Learn one_broker; Take [message "e1" "x"; message "e2" "x"; message "e3" "yy"]; Learn preparing].
Definition prepared : Publisher Disk := fst (after until_preparing).
Definition prepared_ids : gset string := snd (after until_preparing).
Lemma prepared_pinv : demo_inv prepared prepared_ids.
Proof. apply inv_after. vm_compute. reflexivity. Qed.

Definition async_demo : AsyncDispatcherConfig := mkAsyncConfig 4 2 5000000000 0 0 true.
Definition no_dispatcher (p : Publisher Disk) : AsyncDispatcher Disk :=
  mkAsyncDispatcher p async_demo ∅ ∅ 0 false false [] [].
Definition dispatcher_of (p : Publisher Disk) : AsyncDispatcher Disk :=
  match NewAsyncDispatcher (Some p) true async_demo with Ok d => d | Err _ => no_dispatcher p end.
Definition start_on (p : Publisher Disk) : System Disk := mkSystem (dispatcher_of p) DIdle [] new_worker.
Definition start : config_t := (start_on prepared, prepared_ids).

(** Nothing is in flight in a list of records. *)
Definition grounded (rs : list Rec) : bool := forallb (fun r => negb (bool_decide (r_State r = StateInEventsA))) rs.
Lemma grounded_ok rs : grounded rs = true -> forall r, r ∈ rs -> r_State r <> StateInEventsA.
Proof. intros H r Hr. apply (forallb_elem _ _ H) in Hr. by to_prop. Qed.

Lemma prepared_started : async_started demo_library demo_authority async_demo (start_on prepared) prepared_ids.
Proof.
  split; [reflexivity|reflexivity|exact prepared_pinv|]. apply grounded_ok. vm_compute. reflexivity.
Qed.

Definition acknowledged (a : PublishAttempt) : gerror + AsyncPublishResult :=
  inr (mkAsyncPublishResult a OutcomeAcknowledged None).
Definition timed_out (a : PublishAttempt) : gerror + AsyncPublishResult :=
  inl (ErrNew "context deadline exceeded").

(** Both lanes are handed to the broker; PAUSED arrives; one is acknowledged. *)
Definition publishing : list move :=
  [MMeasure 10; MSelect; MMark; MRegister; MSubmit SubmitFuture; MSubmit SubmitFuture; MSubmitted; MIdle;
   MLearn paused; MResolve acknowledged].
(** The results become durable. *)
Definition settling_moves : list move :=
  [MFirst; MFlush; MApply; MApplied; MResolve acknowledged; MFirst; MFlush; MApply; MApplied].

Definition at_moves (l : list move) : config_t := default start (plays l start).
Definition outstanding : config_t := at_moves publishing.
Definition quiet_at : config_t := at_moves (publishing ++ settling_moves).

Lemma plays_at l : bool_decide (is_Some (plays l start)) = true -> plays l start = Some (at_moves l).
Proof. intros [c H]%bool_decide_eq_true. unfold at_moves. by rewrite H. Qed.

Lemma outstanding_run : rtc demo_async start outstanding.
Proof. apply (plays_steps publishing), plays_at. vm_compute. reflexivity. Qed.
Lemma quiet_run : rtc demo_async start quiet_at.
Proof. apply (plays_steps (publishing ++ settling_moves)), plays_at. vm_compute. reflexivity. Qed.

Lemma async_accounts_witness :
  (let d := sy_d (fst outstanding) in
   within d /\
   (sy_awaiting (fst outstanding) <> [] ->
      Z.of_nat (List.length (ad_completions d)) < ac_MaxInEventsA (ad_config d)) /\
   (forall report c rest, sy_dispatch (fst outstanding) = DHandOver report (c :: rest) ->
      Z.of_nat (List.length (ad_persistenceRetry d)) < ac_MaxInEventsA (ad_config d)) /\
   NoDup (carried (fst outstanding)) /\
   (forall r, r ∈ recs (p_outbox (ad_publisher d)) -> r_State r = StateInEventsA ->
      current_attempt r ∈ marked (fst outstanding) \/
      current_attempt r ∈ carried (fst outstanding) /\
      exists q, ad_pending d !! r_EventID r = Some q /\ pd_attempt q = current_attempt r /\
        pd_group q = r_Group r)) /\
  r_State <$> Records (p_outbox (ad_publisher (sy_d (fst outstanding)))) =
    [StateInEventsA; StateReady; StateInEventsA].
Proof.
  split; [|vm_compute; reflexivity].
  apply (async_accounts demo_library demo_encode demo_authority async_demo (start_on prepared) prepared_ids
    (fst outstanding) (snd outstanding) prepared_started).
  rewrite <- surjective_pairing. exact outstanding_run.
Defined.

Lemma async_ordering_witness :
  (let d := sy_d (fst outstanding) in
   (forall a r, a ∈ carried (fst outstanding) -> r ∈ recs (p_outbox (ad_publisher d)) ->
      r_EventID r = pa_EventID a ->
      a = current_attempt r /\ r_State r = StateInEventsA /\ oldest (recs (p_outbox (ad_publisher d))) r) /\
   (forall a a' r r', a ∈ carried (fst outstanding) -> a' ∈ carried (fst outstanding) ->
      r ∈ recs (p_outbox (ad_publisher d)) -> r' ∈ recs (p_outbox (ad_publisher d)) ->
      r_EventID r = pa_EventID a -> r_EventID r' = pa_EventID a' ->
      effectiveOrderingKey r = effectiveOrderingKey r' -> a = a') /\
   (forall n todo immediate record, sy_dispatch (fst outstanding) = DSubmitting n todo immediate ->
      record ∈ todo ->
      admitted (ad_publisher d) record = true /\ attempt_of record ∈ carried (fst outstanding))) /\
  pa_EventID <$> carried (fst outstanding) = ["e1"; "e3"].
Proof.
  split; [|vm_compute; reflexivity].
  apply (async_ordering demo_library demo_encode demo_authority async_demo (start_on prepared) prepared_ids
    (fst outstanding) (snd outstanding) prepared_started).
  rewrite <- surjective_pairing. exact outstanding_run.
Defined.

(** A message accepted while the group is PAUSED. *)
Definition later : config_t := at_moves (publishing ++ settling_moves ++ [MTake [message "e9" "x"]])%list.
Lemma later_step : paused_step demo_library demo_encode demo_authority "orders" quiet_at later.
Proof.
  split.
  - apply (play_step (MTake [message "e9" "x"])). unfold later, quiet_at.
    assert (E : bool_decide (is_Some (plays (publishing ++ settling_moves)%list start)) = true) by (vm_compute; reflexivity).
    apply plays_at in E. unfold at_moves. rewrite app_assoc. unfold plays at 2. rewrite foldl_snoc.
    change (foldl _ (Some start) _) with (plays (publishing ++ settling_moves)%list start). rewrite E.
    generalize (at_moves (publishing ++ settling_moves)%list) E. clear E. intros c E. cbn [default mbind option_bind].
    assert (Hs : is_Some (play (MTake [message "e9" "x"]) c)).
    { assert (Hb : bool_decide (is_Some (plays (publishing ++ settling_moves)%list start ≫= play (MTake [message "e9" "x"]))) = true)
        by (vm_compute; reflexivity). apply bool_decide_eq_true in Hb. by rewrite E in Hb. }
    destruct Hs as [c' Hc']. by rewrite Hc'.
  - exists paused. split; vm_compute; reflexivity.
Qed.

Lemma quiescent_sound_witness :
  ((forall a, a ∈ carried (fst later) -> exists q,
      ad_pending (sy_d (fst later)) !! pa_EventID a = Some q /\ pd_group q <> "orders") /\
   (forall r, r ∈ recs (p_outbox (ad_publisher (sy_d (fst later)))) -> r_Group r = "orders" ->
      r_State r <> StateInEventsA /\ r_State r <> StateAckUncertain)) /\
  r_State <$> Records (p_outbox (ad_publisher (sy_d (fst later)))) = [StateReady; StateUnassigned].
Proof.
  split; [|vm_compute; reflexivity].
  apply (quiescent_sound demo_library demo_encode demo_authority async_demo "orders" (start_on prepared)
    prepared_ids quiet_at quiet_at quiet_at later prepared_started quiet_run (rtc_refl _ _) (rtc_refl _ _)
    (rtc_once _ _ later_step)).
  - vm_compute. reflexivity.
  - vm_compute. reflexivity.
Defined.

(** ** Closing *)

(** [Close] runs to its end between the first two regions of a [Dispatch]. *)
Definition closing : list move :=
  [MMeasure 10; MCloseEnter; MCloseCheck; MStop;
   MSelect; MMark; MRegister; MSubmit SubmitFuture; MSubmit SubmitFuture; MSubmitted; MIdle;
   MResolve acknowledged; MResolve timed_out].
Definition closed_early : config_t := at_moves closing.

(** [Close] does not wait for every admitted attempt: when it runs between
    the regions of a [Dispatch] that has already passed the check for a closed
    dispatcher, it sees no pending attempt, stops the worker and returns
    without an error; the [Dispatch] then marks its records in flight and
    publishes them, and their results, even a positive acknowledgement, stay
    in the channel with nobody to make them durable. *)
Theorem Close_misses_admitted :
  rtc demo_async start closed_early /\
  (let s := fst closed_early in
   ad_stopped (sy_d s) = true /\ wk_phase (sy_worker s) = WDone /\
   snd (close_check (sy_d s)) = CloseReturns /\
   r_State <$> Records (p_outbox (ad_publisher (sy_d s))) = [StateInEventsA; StateReady; StateInEventsA] /\
   cm_outcome <$> ad_completions (sy_d s) = [OutcomeAcknowledged; OutcomeUnknown] /\
   Z.of_nat (size (ad_pending (sy_d s))) = 2).
Proof.
  split; [apply (plays_steps closing), plays_at; vm_compute; reflexivity|].
  cbn zeta. split_and!; vm_compute; reflexivity.
Qed.
