(* ===== verification/Policy.v ===== *)
(** * Capacity policy: samples, profiles and validation (policy/types.go)

    Measurements that are known or unknown, the capacity profiles of exact
    broker builds, the policy and state of scaling groups, and every check on
    them.  [int] is a 64-bit integer. *)

From S2P Require Import Prelude Float64.
From Stdlib Require Import ZArith Lia.
From stdpp Require Import base gmap strings numbers option list.
#[local] Open Scope Z_scope.

(** Two's complement of 64 bits. *)
Definition i64 (x : Z) : Z := (x + 9223372036854775808) mod 18446744073709551616 - 9223372036854775808.
Definition in_i64 (x : Z) : Prop := min_i64 <= x <= max_i64.
(** [len(l)]. *)
Definition llen {A} (l : list A) : Z := Z.of_nat (length l).
(** [slices.Contains]. *)
Definition contains (l : list string) (s : string) : bool := bool_decide (s ∈ l).

Definition ErrProfileNotFound := ErrNew "policy: exact capacity profile not found".
Definition ErrUnknownTelemetry := ErrNew "policy: telemetry is unknown".
Definition ErrStaleTelemetry := ErrNew "policy: telemetry is stale".

(** ** Measurements *)
Record Metric := mkMetric { mt_Known : bool; mt_Value : float64 }.

Definition KnownMetric (value : float64) : Metric := mkMetric true value.
Definition UnknownMetric : Metric := mkMetric false fzero.

Definition metric_validate (m : Metric) : gerr :=
  if negb (mt_Known m)
  then fail_if (negb (feqb (mt_Value m) fzero)) (ErrNew "policy: unknown metric must not carry a value")
  else fail_if (math_IsNaN (mt_Value m) || math_IsInf (mt_Value m) || fltb (mt_Value m) fzero)
         (ErrNew "policy: metric must be a finite non-negative value").

Record Resources := mkResources {
  rs_IngressBytesPerSecond : Metric;
  rs_EgressBytesPerSecond : Metric;
  rs_SpoolBytes : Metric;
  rs_Connections : Metric;
}.

Definition resources_validate (r : Resources) : gerr :=
  for_each metric_validate
    [rs_IngressBytesPerSecond r; rs_EgressBytesPerSecond r; rs_SpoolBytes r; rs_Connections r].
Definition resources_allKnown (r : Resources) : bool :=
  mt_Known (rs_IngressBytesPerSecond r) && mt_Known (rs_EgressBytesPerSecond r) &&
  mt_Known (rs_SpoolBytes r) && mt_Known (rs_Connections r).

Record Backlog := mkBacklog { bk_QueuedMessages : Metric; bk_UnackedMessages : Metric }.

Definition backlog_validate (b : Backlog) : gerr :=
  metric_validate (bk_QueuedMessages b) ;;! metric_validate (bk_UnackedMessages b).
Definition backlog_allKnown (b : Backlog) : bool :=
  mt_Known (bk_QueuedMessages b) && mt_Known (bk_UnackedMessages b).

(** ** Samples *)
Record BrokerSample := mkBrokerSample {
  bs_BrokerID : string;
  bs_ServiceClass : string;
  bs_BrokerVersion : string;
  bs_ObservedAt : Time;
  bs_Resources : Resources;
}.

Record GroupSample := mkGroupSample {
  gm_GroupID : string;
  gm_BrokerID : string;
  gm_ObservedAt : Time;
  gm_Resources : Resources;
  gm_Backlog : Backlog;
}.

Record TelemetrySnapshot := mkTelemetrySnapshot {
  tl_CapturedAt : Time;
  tl_Brokers : list BrokerSample;
  tl_Groups : list GroupSample;
}.

(** [groupBrokerKey]: group and broker. *)
Abbreviation groupBrokerKey := (string * string)%type.

Definition valid_broker_sample (capturedAt : Time) (seen : gset string) (sample : BrokerSample)
    : result (gset string) :=
  fail_if (str_empty (bs_BrokerID sample) || str_empty (bs_ServiceClass sample) ||
           str_empty (bs_BrokerVersion sample))
    (ErrNew "policy: broker sample requires broker, service class, and version") ;;!
  fail_if (time_IsZero (bs_ObservedAt sample) || time_After (bs_ObservedAt sample) capturedAt)
    (ErrNew "policy: broker sample has an invalid observation time") ;;!
  fail_if (bool_decide (bs_BrokerID sample ∈ seen)) (ErrNew "policy: duplicate broker sample") ;;!
  resources_validate (bs_Resources sample) ;;!
  Ok ({[bs_BrokerID sample]} ∪ seen).

Definition valid_group_sample (capturedAt : Time) (seen : gset groupBrokerKey) (sample : GroupSample)
    : result (gset groupBrokerKey) :=
  fail_if (str_empty (gm_GroupID sample) || str_empty (gm_BrokerID sample))
    (ErrNew "policy: group sample requires group and broker") ;;!
  fail_if (time_IsZero (gm_ObservedAt sample) || time_After (gm_ObservedAt sample) capturedAt)
    (ErrNew "policy: group sample has an invalid observation time") ;;!
  let key := (gm_GroupID sample, gm_BrokerID sample) in
  fail_if (bool_decide (key ∈ seen)) (ErrNew "policy: duplicate group sample") ;;!
  resources_validate (gm_Resources sample) ;;!
  backlog_validate (gm_Backlog sample) ;;!
  Ok ({[key]} ∪ seen).

Definition snapshot_Validate (s : TelemetrySnapshot) : gerr :=
  fail_if (time_IsZero (tl_CapturedAt s)) (ErrNew "policy: telemetry capture time is required") ;;!
  fold_result (valid_broker_sample (tl_CapturedAt s)) ∅ (tl_Brokers s) ;;!
  fold_result (valid_group_sample (tl_CapturedAt s)) ∅ (tl_Groups s) ;;!
  nil_err.

(** ** Capacity profiles *)
Record CapacityLimits := mkCapacityLimits {
  cl_IngressBytesPerSecond : float64;
  cl_EgressBytesPerSecond : float64;
  cl_SpoolBytes : float64;
  cl_Connections : float64;
}.

Definition valid_limit (value : float64) : gerr :=
  fail_if (math_IsNaN value || math_IsInf value || fleb value fzero)
    (ErrNew "policy: all capacity limits must be finite and greater than zero").
Definition limits_validate (l : CapacityLimits) : gerr :=
  for_each valid_limit
    [cl_IngressBytesPerSecond l; cl_EgressBytesPerSecond l; cl_SpoolBytes l; cl_Connections l].

Record CapacityProfile := mkCapacityProfile {
  cp_ServiceClass : string;
  cp_BrokerVersion : string;
  cp_Limits : CapacityLimits;
}.

(** [profileKey]: service class and version. *)
Abbreviation profileKey := (string * string)%type.
Definition ProfileCatalog : Type := gmap profileKey CapacityProfile.

Definition add_profile (catalog : ProfileCatalog) (profile : CapacityProfile) : result ProfileCatalog :=
  fail_if (str_empty (cp_ServiceClass profile) || str_empty (cp_BrokerVersion profile))
    (ErrNew "policy: capacity profile requires service class and broker version") ;;!
  wrap_err "policy: capacity profile" (limits_validate (cp_Limits profile)) ;;!
  let key := (cp_ServiceClass profile, cp_BrokerVersion profile) in
  fail_if (bool_decide (is_Some (catalog !! key))) (ErrNew "policy: duplicate capacity profile") ;;!
  Ok (<[key := profile]> catalog).
Definition NewProfileCatalog (profiles : list CapacityProfile) : result ProfileCatalog :=
  fold_result add_profile ∅ profiles.

Definition catalog_Lookup (c : ProfileCatalog) (serviceClass brokerVersion : string)
    : result CapacityProfile :=
  match c !! (serviceClass, brokerVersion) with
  | Some profile => Ok profile
  | None => Err (ErrWrap "service class, broker version" ErrProfileNotFound)
  end.

(** ** Brokers and groups *)
Record Broker := mkBroker {
  bro_ID : string;
  bro_ServiceClass : string;
  bro_BrokerVersion : string;
  bro_Ready : bool;
  bro_EligibleGroups : list string;
}.

Definition eligibleFor (b : Broker) (group : string) : bool :=
  bro_Ready b && contains (bro_EligibleGroups b) group.

Record GroupPolicy := mkGroupPolicy {
  gp_MinimumBrokers : Z;
  gp_MaximumBrokers : Z;
  gp_WarmBrokers : Z;
  gp_HeadroomPercent : float64;
  gp_PressureWindow : Duration;
  gp_TelemetryMaxAge : Duration;
  gp_Cooldown : Duration;
  gp_MaxConcurrentChanges : Z;
}.

Definition policy_floor (p : GroupPolicy) : Z := i64 (gp_MinimumBrokers p + gp_WarmBrokers p).
Definition saturationThreshold (p : GroupPolicy) : float64 :=
  fsub (f_of_Z 1) (fdiv (gp_HeadroomPercent p) (f_of_Z 100)).

Definition policy_validate (p : GroupPolicy) : gerr :=
  fail_if ((gp_MinimumBrokers p <? 1) || (gp_MaximumBrokers p <? gp_MinimumBrokers p) ||
           (gp_WarmBrokers p <? 0) ||
           (gp_MaximumBrokers p <? i64 (gp_MinimumBrokers p + gp_WarmBrokers p)))
    (ErrNew "policy: group has invalid minimum, maximum, or warm broker counts") ;;!
  fail_if (math_IsNaN (gp_HeadroomPercent p) || math_IsInf (gp_HeadroomPercent p) ||
           fltb (gp_HeadroomPercent p) fzero || fleb (f_of_Z 100) (gp_HeadroomPercent p))
    (ErrNew "policy: group headroom must be in [0,100)") ;;!
  fail_if ((gp_PressureWindow p <=? 0) || (gp_TelemetryMaxAge p <=? 0) || (gp_Cooldown p <? 0) ||
           (gp_MaxConcurrentChanges p <? 1))
    (ErrNew "policy: group has invalid pressure window, freshness, cooldown, or concurrency").

Record ScaleInChoice := mkScaleInChoice {
  sc_BrokerID : string;
  sc_Safe : bool;
  sc_Evidence : string;
}.

Record GroupState := mkGroupState {
  gr_ID : string;
  gr_Membership : list string;
  gr_Policy : GroupPolicy;
  gr_ActiveTransitions : Z;
  gr_LastTransitionAt : Time;
  gr_ScaleInChoice : option ScaleInChoice;
}.

Definition valid_member (brokers : gmap string Broker) (seen : gset string) (id : string)
    : result (gset string) :=
  fail_if (bool_decide (brokers !! id = None)) (ErrNew "policy: group references unknown broker") ;;!
  fail_if (bool_decide (id ∈ seen)) (ErrNew "policy: group repeats broker") ;;!
  Ok ({[id]} ∪ seen).

Definition group_validate (now : Time) (brokers : gmap string Broker) (g : GroupState) : gerr :=
  fail_if (str_empty (gr_ID g)) (ErrNew "policy: group ID is required") ;;!
  policy_validate (gr_Policy g) ;;!
  fail_if (gr_ActiveTransitions g <? 0) (ErrNew "policy: group has a negative active transition count") ;;!
  fail_if (negb (time_IsZero (gr_LastTransitionAt g)) && time_After (gr_LastTransitionAt g) now)
    (ErrNew "policy: group last transition is in the future") ;;!
  fail_if (gp_MaximumBrokers (gr_Policy g) <? llen (gr_Membership g))
    (ErrNew "policy: group membership exceeds maximum broker count") ;;!
  fold_result (valid_member brokers) ∅ (gr_Membership g) ;;!
  match gr_ScaleInChoice g with
  | None => nil_err
  | Some choice =>
      fail_if (str_empty (sc_BrokerID choice) || negb (contains (gr_Membership g) (sc_BrokerID choice)))
        (ErrNew "policy: group scale-in choice must name a current broker") ;;!
      fail_if (sc_Safe choice && str_empty (sc_Evidence choice))
        (ErrNew "policy: group safe scale-in choice requires evidence")
  end.

(** ** Inventory *)
Fixpoint adjacentDuplicate (values : list string) : string :=
  match values with
  | x :: (y :: _) as rest => if str_eqb y x then y else adjacentDuplicate rest
  | _ => ""%string
  end.

Definition add_broker (catalog : ProfileCatalog) (brokers : gmap string Broker) (broker : Broker)
    : result (gmap string Broker) :=
  fail_if (str_empty (bro_ID broker) || str_empty (bro_ServiceClass broker) ||
           str_empty (bro_BrokerVersion broker))
    (ErrNew "policy: broker requires ID, service class, and version") ;;!
  fail_if (bool_decide (is_Some (brokers !! bro_ID broker))) (ErrNew "policy: duplicate broker") ;;!
  catalog_Lookup catalog (bro_ServiceClass broker) (bro_BrokerVersion broker) ;;!
  let groups := sort_by str_ltb (bro_EligibleGroups broker) in
  fail_if (negb (str_empty (adjacentDuplicate groups))) (ErrNew "policy: broker repeats eligible group") ;;!
  Ok (<[bro_ID broker := mkBroker (bro_ID broker) (bro_ServiceClass broker) (bro_BrokerVersion broker)
          (bro_Ready broker) groups]> brokers).
Definition validateInventory (inventory : list Broker) (catalog : ProfileCatalog)
    : result (gmap string Broker) :=
  fold_result (add_broker catalog) ∅ inventory.
