(* ===== verification/PolicyAggregate.v ===== *)
(** * Telemetry aggregation (policy/aggregate.go)

    One collector cycle, validated and combined into an assessment per broker
    and per group. *)

From S2P Require Import Prelude Float64 Policy.
From Stdlib Require Import ZArith Lia.
From stdpp Require Import base gmap strings numbers option list.
#[local] Open Scope Z_scope.

Inductive TelemetryState : Type := TelemetryKnown | TelemetryUnknown | TelemetryStale.
#[export] Instance TelemetryState_eq_dec : EqDecision TelemetryState.
Proof. solve_decision. Defined.

(** ** Utilization *)
Record Utilization := mkUtilization {
  ut_Ingress : float64;
  ut_Egress : float64;
  ut_Spool : float64;
  ut_Connections : float64;
}.
Definition zero_utilization : Utilization := mkUtilization fzero fzero fzero fzero.

Definition Peak (u : Utilization) : float64 :=
  fmax (fmax (fmax (ut_Ingress u) (ut_Egress u)) (ut_Spool u)) (ut_Connections u).
Definition utilization_max (u other : Utilization) : Utilization :=
  mkUtilization (fmax (ut_Ingress u) (ut_Ingress other)) (fmax (ut_Egress u) (ut_Egress other))
    (fmax (ut_Spool u) (ut_Spool other)) (fmax (ut_Connections u) (ut_Connections other)).

Record resourcesValue := mkResourcesValue {
  v_ingress : float64;
  v_egress : float64;
  v_spool : float64;
  v_connections : float64;
}.
Definition zero_value : resourcesValue := mkResourcesValue fzero fzero fzero fzero.

Definition knownResources (r : Resources) : option resourcesValue :=
  if negb (resources_allKnown r) then None else
  Some (mkResourcesValue (mt_Value (rs_IngressBytesPerSecond r)) (mt_Value (rs_EgressBytesPerSecond r))
    (mt_Value (rs_SpoolBytes r)) (mt_Value (rs_Connections r))).
Definition value_add (v other : resourcesValue) : resourcesValue :=
  mkResourcesValue (fadd (v_ingress v) (v_ingress other)) (fadd (v_egress v) (v_egress other))
    (fadd (v_spool v) (v_spool other)) (fadd (v_connections v) (v_connections other)).
Definition utilization (value : resourcesValue) (limit : CapacityLimits) : Utilization :=
  mkUtilization (fdiv (v_ingress value) (cl_IngressBytesPerSecond limit))
    (fdiv (v_egress value) (cl_EgressBytesPerSecond limit))
    (fdiv (v_spool value) (cl_SpoolBytes limit)) (fdiv (v_connections value) (cl_Connections limit)).
Definition divide (value limit : float64) : float64 :=
  if feqb limit fzero then math_Inf else fdiv value limit.
Definition utilizationAcross (value limit : resourcesValue) : Utilization :=
  mkUtilization (divide (v_ingress value) (v_ingress limit)) (divide (v_egress value) (v_egress limit))
    (divide (v_spool value) (v_spool limit)) (divide (v_connections value) (v_connections limit)).
Definition limitsValue (l : CapacityLimits) : resourcesValue :=
  mkResourcesValue (cl_IngressBytesPerSecond l) (cl_EgressBytesPerSecond l) (cl_SpoolBytes l)
    (cl_Connections l).

(** ** Assessments *)
Record BrokerAssessment := mkBrokerAssessment {
  ba_BrokerID : string;
  ba_State : TelemetryState;
  ba_Reason : string;
  ba_ObservedAt : Time;
  ba_BrokerUtilization : Utilization;
  ba_GroupedUtilization : Utilization;
  ba_SharedUtilization : Utilization;
  ba_ContributingGroups : list string;
}.
#[export] Instance eta_BrokerAssessment : Eta BrokerAssessment := fun a =>
  mkBrokerAssessment (ba_BrokerID a) (ba_State a) (ba_Reason a) (ba_ObservedAt a)
    (ba_BrokerUtilization a) (ba_GroupedUtilization a) (ba_SharedUtilization a)
    (ba_ContributingGroups a).

Inductive PressureKind : Type :=
| PressureUnknown | PressureNone | PressureBrokerSaturation | PressureDownstreamBacklog.
#[export] Instance PressureKind_eq_dec : EqDecision PressureKind.
Proof. solve_decision. Defined.

Record GroupAssessment := mkGroupAssessment {
  ga_GroupID : string;
  ga_State : TelemetryState;
  ga_Reason : string;
  ga_Pressure : PressureKind;
  ga_WorkloadUtilization : Utilization;
  ga_SharedUtilization : Utilization;
  ga_QueuedMessages : float64;
  ga_UnackedMessages : float64;
  ga_ReadyWarmBrokers : Z;
  ga_WarmBrokerShortfall : Z;
  ga_SustainedSince : Time;
  ga_Refusal : string;
}.
#[export] Instance eta_GroupAssessment : Eta GroupAssessment := fun a =>
  mkGroupAssessment (ga_GroupID a) (ga_State a) (ga_Reason a) (ga_Pressure a)
    (ga_WorkloadUtilization a) (ga_SharedUtilization a) (ga_QueuedMessages a) (ga_UnackedMessages a)
    (ga_ReadyWarmBrokers a) (ga_WarmBrokerShortfall a) (ga_SustainedSince a) (ga_Refusal a).

Record Aggregation := mkAggregation {
  ag_CapturedAt : Time;
  ag_Brokers : list BrokerAssessment;
  ag_Groups : list GroupAssessment;
}.
#[export] Instance eta_Aggregation : Eta Aggregation := fun a =>
  mkAggregation (ag_CapturedAt a) (ag_Brokers a) (ag_Groups a).

Record aggregationContext := mkContext {
  cx_now : Time;
  cx_snapshot : TelemetrySnapshot;
  cx_catalog : ProfileCatalog;
  cx_brokers : gmap string Broker;
  cx_groups : list GroupState;
  cx_brokerSamples : gmap string BrokerSample;
  cx_groupSamples : gmap groupBrokerKey GroupSample;
  cx_memberships : gmap string (list string);
}.

(** ** One broker *)

(** The loop of [maxTelemetryAgeForBroker], then its result. *)
Definition least_age (id : string) (age : Duration) (group : GroupState) : Duration :=
  if contains (gr_Membership group) id &&
     ((age =? 0) || (gp_TelemetryMaxAge (gr_Policy group) <? age))
  then gp_TelemetryMaxAge (gr_Policy group) else age.
Definition maxTelemetryAgeForBroker (id : string) (groups : list GroupState) : Duration :=
  let age := foldl (least_age id) 0 groups in
  if age =? 0 then max_i64 else age.

(** [None] is the panic. *)
Fixpoint findGroup (groups : list GroupState) (id : string) : option GroupState :=
  match groups with
  | [] => None
  | group :: rest => if str_eqb (gr_ID group) id then Some group else findGroup rest id
  end.

(** The variables of the loop over the groups of a broker. *)
Record broker_acc := mkBrokerAcc {
  bc_observedAt : Time;
  bc_grouped : resourcesValue;
  bc_stale : list string;
  bc_unknown : list string;
}.
#[export] Instance eta_broker_acc : Eta broker_acc := fun a =>
  mkBrokerAcc (bc_observedAt a) (bc_grouped a) (bc_stale a) (bc_unknown a).

Definition contribute (c : aggregationContext) (id : string) (acc : broker_acc) (groupID : string)
    : option broker_acc :=
  match findGroup (cx_groups c) groupID with
  | None => None
  | Some group =>
      match cx_groupSamples c !! (groupID, id) with
      | None => Some (acc <| bc_unknown := bc_unknown acc ++ [("group " +:+ groupID +:+ " sample")%string] |>)
      | Some sample =>
          let acc :=
            if time_Before (gm_ObservedAt sample) (bc_observedAt acc)
            then acc <| bc_observedAt := gm_ObservedAt sample |> else acc in
          let acc :=
            if gp_TelemetryMaxAge (gr_Policy group) <? time_Sub (cx_now c) (gm_ObservedAt sample)
            then acc <| bc_stale := bc_stale acc ++ [("group " +:+ groupID +:+ " sample")%string] |> else acc in
          match knownResources (gm_Resources sample) with
          | None => Some (acc <| bc_unknown := bc_unknown acc ++ [("group " +:+ groupID +:+ " resources")%string] |>)
          | Some values => Some (acc <| bc_grouped := value_add (bc_grouped acc) values |>)
          end
      end
  end.

Fixpoint contribute_all (c : aggregationContext) (id : string) (acc : broker_acc) (ids : list string)
    : option broker_acc :=
  match ids with
  | [] => Some acc
  | groupID :: rest =>
      match contribute c id acc groupID with
      | None => None
      | Some acc => contribute_all c id acc rest
      end
  end.

Definition zero_limits : CapacityLimits := mkCapacityLimits fzero fzero fzero fzero.
(** [profile, _ := catalog.Lookup(...)] of [brokers[id]]. *)
Definition broker_limits (c : aggregationContext) (id : string) : CapacityLimits :=
  match cx_brokers c !! id with
  | None => zero_limits
  | Some broker =>
      match catalog_Lookup (cx_catalog c) (bro_ServiceClass broker) (bro_BrokerVersion broker) with
      | Ok profile => cp_Limits profile
      | Err _ => zero_limits
      end
  end.

Definition assessBroker (c : aggregationContext) (id : string) : option BrokerAssessment :=
  let contributing := default [] (cx_memberships c !! id) in
  let assessment := mkBrokerAssessment id TelemetryKnown "" zeroTime zero_utilization
    zero_utilization zero_utilization contributing in
  match cx_brokerSamples c !! id with
  | None => Some (assessment <| ba_State := TelemetryUnknown |>
                             <| ba_Reason := "missing broker sample"%string |>)
  | Some sample =>
      let stale :=
        if maxTelemetryAgeForBroker id (cx_groups c) <? time_Sub (cx_now c) (bs_ObservedAt sample)
        then ["broker sample"%string] else [] in
      let brokerValues := knownResources (bs_Resources sample) in
      let unknown := match brokerValues with None => ["broker resources"%string] | Some _ => [] end in
      match contribute_all c id (mkBrokerAcc (bs_ObservedAt sample) zero_value stale unknown) contributing with
      | None => None
      | Some acc =>
          let assessment := assessment <| ba_ObservedAt := bc_observedAt acc |> in
          if negb (bool_decide (bc_stale acc = []))
          then Some (assessment <| ba_State := TelemetryStale |>
                                <| ba_Reason := strings_Join (bc_stale acc) ", " |>) else
          if negb (bool_decide (bc_unknown acc = []))
          then Some (assessment <| ba_State := TelemetryUnknown |>
                                <| ba_Reason := strings_Join (bc_unknown acc) ", " |>) else
          let own := utilization (default zero_value brokerValues) (broker_limits c id) in
          let grouped := utilization (bc_grouped acc) (broker_limits c id) in
          Some (assessment <| ba_BrokerUtilization := own |> <| ba_GroupedUtilization := grouped |>
                           <| ba_SharedUtilization := utilization_max own grouped |>)
      end
  end.

(** ** One group *)
Record group_acc := mkGroupAcc {
  gc_demand : resourcesValue;
  gc_capacity : resourcesValue;
  gc_stale : list string;
  gc_unknown : list string;
  gc_shared : Utilization;
  gc_queued : float64;
  gc_unacked : float64;
}.
#[export] Instance eta_group_acc : Eta group_acc := fun a =>
  mkGroupAcc (gc_demand a) (gc_capacity a) (gc_stale a) (gc_unknown a) (gc_shared a) (gc_queued a)
    (gc_unacked a).

Definition zero_assessment : BrokerAssessment :=
  mkBrokerAssessment "" TelemetryKnown "" zeroTime zero_utilization zero_utilization zero_utilization [].

(** The state of the broker, then its sample for the group.  (The zero value of
    a missing assessment has the empty state, which the switch ignores.) *)
Definition broker_part (c : aggregationContext) (assessments : gmap string BrokerAssessment)
    (acc : group_acc) (brokerID : string) : group_acc :=
  let ba := default zero_assessment (assessments !! brokerID) in
  let note := ("broker " +:+ brokerID +:+ ": " +:+ ba_Reason ba)%string in
  let acc :=
    match ba_State ba with
    | TelemetryStale => acc <| gc_stale := gc_stale acc ++ [note] |>
    | TelemetryUnknown => acc <| gc_unknown := gc_unknown acc ++ [note] |>
    | TelemetryKnown => acc
    end in
  acc <| gc_shared := utilization_max (gc_shared acc) (ba_SharedUtilization ba) |>
      <| gc_capacity := value_add (gc_capacity acc) (limitsValue (broker_limits c brokerID)) |>.

Definition sample_part (c : aggregationContext) (group : GroupState) (acc : group_acc)
    (brokerID : string) : group_acc :=
  match cx_groupSamples c !! (gr_ID group, brokerID) with
  | None =>
      acc <| gc_unknown := gc_unknown acc ++ [("missing group sample for broker " +:+ brokerID)%string] |>
  | Some sample =>
      let acc :=
        if gp_TelemetryMaxAge (gr_Policy group) <? time_Sub (cx_now c) (gm_ObservedAt sample)
        then acc <| gc_stale := gc_stale acc ++ [("stale group sample for broker " +:+ brokerID)%string] |>
        else acc in
      let acc :=
        match knownResources (gm_Resources sample) with
        | None => acc <| gc_unknown := gc_unknown acc ++
                           [("unknown group resources for broker " +:+ brokerID)%string] |>
        | Some values => acc <| gc_demand := value_add (gc_demand acc) values |>
        end in
      if negb (backlog_allKnown (gm_Backlog sample))
      then acc <| gc_unknown := gc_unknown acc ++ [("unknown backlog for broker " +:+ brokerID)%string] |>
      else
        acc <| gc_queued := fadd (gc_queued acc) (mt_Value (bk_QueuedMessages (gm_Backlog sample))) |>
            <| gc_unacked := fadd (gc_unacked acc) (mt_Value (bk_UnackedMessages (gm_Backlog sample))) |>
  end.

Definition assess_member c assessments group acc brokerID : group_acc :=
  sample_part c group (broker_part c assessments acc brokerID) brokerID.

Definition ready_warm (group : GroupState) (brokers : list Broker) : Z :=
  llen (filter (fun b => negb (contains (gr_Membership group) (bro_ID b)) && eligibleFor b (gr_ID group) = true)
    brokers).

Definition assessGroup (c : aggregationContext) (assessments : gmap string BrokerAssessment)
    (group : GroupState) : GroupAssessment :=
  let unknown := if bool_decide (gr_Membership group = [])
                 then ["group membership is empty"%string] else [] in
  let acc := foldl (assess_member c assessments group)
    (mkGroupAcc zero_value zero_value [] unknown zero_utilization fzero fzero) (gr_Membership group) in
  let ready := ready_warm group (snd <$> map_to_list (cx_brokers c)) in
  let assessment := mkGroupAssessment (gr_ID group) TelemetryKnown "" PressureNone zero_utilization
    (gc_shared acc) (gc_queued acc) (gc_unacked acc) ready
    (Z.max 0 (i64 (gp_WarmBrokers (gr_Policy group) - ready))) zeroTime "" in
  if negb (bool_decide (gc_stale acc = []))
  then assessment <| ga_State := TelemetryStale |> <| ga_Pressure := PressureUnknown |>
                  <| ga_Reason := strings_Join (gc_stale acc) "; " |> else
  if negb (bool_decide (gc_unknown acc = []))
  then assessment <| ga_State := TelemetryUnknown |> <| ga_Pressure := PressureUnknown |>
                  <| ga_Reason := strings_Join (gc_unknown acc) "; " |> else
  let assessment := assessment <| ga_WorkloadUtilization := utilizationAcross (gc_demand acc) (gc_capacity acc) |> in
  if fleb (saturationThreshold (gr_Policy group)) (Peak (gc_shared acc))
  then assessment <| ga_Pressure := PressureBrokerSaturation |>
  else if fltb fzero (gc_queued acc) || fltb fzero (gc_unacked acc)
  then assessment <| ga_Pressure := PressureDownstreamBacklog |>
  else assessment.

(** ** The cycle *)

(** The groups: distinct, valid, and the brokers each belongs to. *)
Definition add_member (group : string) (memberships : gmap string (list string)) (broker : string)
    : gmap string (list string) :=
  <[broker := default [] (memberships !! broker) ++ [group]]> memberships.

Definition add_group (now : Time) (brokers : gmap string Broker)
    (acc : gset string * gmap string (list string)) (group : GroupState)
    : result (gset string * gmap string (list string)) :=
  fail_if (bool_decide (gr_ID group ∈ fst acc)) (ErrNew "policy: duplicate group") ;;!
  group_validate now brokers group ;;!
  Ok ({[gr_ID group]} ∪ fst acc, foldl (add_member (gr_ID group)) (snd acc) (gr_Membership group)).

Definition add_broker_sample (brokers : gmap string Broker) (samples : gmap string BrokerSample)
    (sample : BrokerSample) : result (gmap string BrokerSample) :=
  match brokers !! bs_BrokerID sample with
  | None => Err (ErrNew "policy: telemetry references unknown broker")
  | Some broker =>
      fail_if (negb (str_eqb (bs_ServiceClass sample) (bro_ServiceClass broker)) ||
               negb (str_eqb (bs_BrokerVersion sample) (bro_BrokerVersion broker)))
        (ErrNew "policy: broker telemetry profile identity does not match inventory") ;;!
      Ok (<[bs_BrokerID sample := sample]> samples)
  end.

Definition add_group_sample (brokers : gmap string Broker) (groups : gset string)
    (samples : gmap groupBrokerKey GroupSample) (sample : GroupSample)
    : result (gmap groupBrokerKey GroupSample) :=
  fail_if (negb (bool_decide (gm_GroupID sample ∈ groups)))
    (ErrNew "policy: telemetry references unknown group") ;;!
  fail_if (bool_decide (brokers !! gm_BrokerID sample = None))
    (ErrNew "policy: telemetry references unknown broker") ;;!
  Ok (<[(gm_GroupID sample, gm_BrokerID sample) := sample]> samples).

(** Up to the two loops that assess. *)
Definition aggregation_context (now : Time) (snapshot : TelemetrySnapshot) (catalog : ProfileCatalog)
    (inventory : list Broker) (groups : list GroupState) : result aggregationContext :=
  fail_if (time_IsZero now) (ErrNew "policy: evaluation time is required") ;;!
  fail_if (time_After (tl_CapturedAt snapshot) now)
    (ErrNew "policy: telemetry capture time is in the future") ;;!
  snapshot_Validate snapshot ;;!
  let! brokers := validateInventory inventory catalog in
  let! known := fold_result (add_group now brokers) (∅, ∅) groups in
  let! brokerSamples := fold_result (add_broker_sample brokers) ∅ (tl_Brokers snapshot) in
  let! groupSamples := fold_result (add_group_sample brokers (fst known)) ∅ (tl_Groups snapshot) in
  Ok (mkContext now snapshot catalog brokers groups brokerSamples groupSamples
        (sort_by str_ltb <$> snd known)).

Fixpoint assess_brokers (c : aggregationContext) (ids : list string) : option (list BrokerAssessment) :=
  match ids with
  | [] => Some []
  | id :: rest =>
      match assessBroker c id with
      | None => None
      | Some assessment =>
          match assess_brokers c rest with
          | None => None
          | Some assessments => Some (assessment :: assessments)
          end
      end
  end.

Definition by_BrokerID (assessments : list BrokerAssessment) : gmap string BrokerAssessment :=
  foldl (fun m a => <[ba_BrokerID a := a]> m) ∅ assessments.
Definition group_less (a b : GroupState) : bool := str_ltb (gr_ID a) (gr_ID b).

Definition panic_findGroup := ErrNew "panic: validated group missing".
Definition Aggregate (now : Time) (snapshot : TelemetrySnapshot) (catalog : ProfileCatalog)
    (inventory : list Broker) (groups : list GroupState) : result Aggregation :=
  let! c := aggregation_context now snapshot catalog inventory groups in
  let ids := sort_by str_ltb (fst <$> map_to_list (cx_brokers c)) in
  match assess_brokers c ids with
  | None => Err panic_findGroup
  | Some brokers =>
      Ok (mkAggregation (tl_CapturedAt snapshot) brokers
            (assessGroup c (by_BrokerID brokers) <$> sort_by group_less (cx_groups c)))
  end.
