(* ===== verification/PolicyEngine.v ===== *)
(** * The policy engine (policy/engine.go)

    Recommendations per group from one aggregated cycle and the sustained
    pressure windows, bounded per group and over all groups. *)

From S2P Require Import Prelude Float64 Policy PolicyAggregate.
From Stdlib Require Import ZArith Lia.
From stdpp Require Import base gmap strings numbers option list.
#[local] Open Scope Z_scope.

Inductive Action : Type := ActionNone | ActionScaleOut | ActionScaleIn.
#[export] Instance Action_eq_dec : EqDecision Action.
Proof. solve_decision. Defined.

Record Recommendation := mkRecommendation {
  rm_GroupID : string;
  rm_Action : Action;
  rm_BrokerID : string;
  rm_CurrentMembership : list string;
  rm_ProposedMembership : list string;
  rm_Pressure : PressureKind;
  rm_Telemetry : TelemetryState;
  rm_Reason : string;
  rm_Evidence : string;
}.
#[export] Instance eta_Recommendation : Eta Recommendation := fun r =>
  mkRecommendation (rm_GroupID r) (rm_Action r) (rm_BrokerID r) (rm_CurrentMembership r)
    (rm_ProposedMembership r) (rm_Pressure r) (rm_Telemetry r) (rm_Reason r) (rm_Evidence r).

Record Decision_ := mkDecision {
  dc_At : Time;
  dc_Aggregation : Aggregation;
  dc_Groups : list Recommendation;
  dc_Transitions : list Recommendation;
}.
#[export] Instance eta_Decision : Eta Decision_ := fun d =>
  mkDecision (dc_At d) (dc_Aggregation d) (dc_Groups d) (dc_Transitions d).

Record EngineOptions := mkEngineOptions { eo_MaxConcurrentTransitions : Z }.

Record Engine := mkEngine {
  en_catalog : ProfileCatalog;
  en_options : EngineOptions;
  en_pressure : gmap string Time;
  en_lastAt : Time;
}.
#[export] Instance eta_Engine : Eta Engine := fun e =>
  mkEngine (en_catalog e) (en_options e) (en_pressure e) (en_lastAt e).

Record EngineState := mkEngineState {
  es_LastEvaluatedAt : Time;
  es_PressureSince : gmap string Time;
}.

Definition NewEngine (catalog : ProfileCatalog) (options : EngineOptions) : result Engine :=
  fail_if (eo_MaxConcurrentTransitions options <? 1)
    (ErrNew "policy: global maximum concurrent transitions must be positive") ;;!
  Ok (mkEngine catalog options ∅ zeroTime).

Definition engine_State (e : Engine) : EngineState := mkEngineState (en_lastAt e) (en_pressure e).

Definition valid_window (lastAt : Time) (entry : string * Time) : gerr :=
  fail_if (str_empty (fst entry) || time_IsZero (snd entry) || time_After (snd entry) lastAt)
    (ErrNew "policy: invalid persisted pressure window").
Definition RestoreState (state : EngineState) (now : Time) (e : Engine) : Engine * gerr :=
  let checked :=
    fail_if (time_IsZero now) (ErrNew "policy: restore time is required") ;;!
    fail_if (negb (time_IsZero (es_LastEvaluatedAt state)) && time_After (es_LastEvaluatedAt state) now)
      (ErrNew "policy: last evaluation is in the future") ;;!
    fail_if (time_IsZero (es_LastEvaluatedAt state) && negb (bool_decide (es_PressureSince state = ∅)))
      (ErrNew "policy: persisted pressure requires a last evaluation time") ;;!
    for_each (valid_window (es_LastEvaluatedAt state)) (map_to_list (es_PressureSince state)) in
  match checked with
  | Err err => (e, Err err)
  | Ok _ => (e <| en_lastAt := es_LastEvaluatedAt state |> <| en_pressure := es_PressureSince state |>,
             nil_err)
  end.

(** ** Recommendations *)
Definition plain (group : GroupState) (assessment : GroupAssessment) (reason : string) : Recommendation :=
  mkRecommendation (gr_ID group) ActionNone "" (gr_Membership group) [] (ga_Pressure assessment)
    (ga_State assessment) reason "".

Definition removeBroker (membership : list string) (brokerID : string) : list string :=
  filter (fun id => id <> brokerID) membership.

Definition candidates (group : GroupState) (inventory : list Broker) : list string :=
  bro_ID <$> filter (fun b => negb (contains (gr_Membership group) (bro_ID b)) &&
                              eligibleFor b (gr_ID group) = true) inventory.

Definition scaleOut (group : GroupState) (assessment : GroupAssessment) (inventory : list Broker)
    (reason : string) : Recommendation * bool :=
  if gp_MaximumBrokers (gr_Policy group) <=? llen (gr_Membership group)
  then (plain group assessment "maximum broker count is reached", false) else
  match sort_by str_ltb (candidates group inventory) with
  | [] => (plain group assessment "no ready broker satisfies the group's feature placement constraints", false)
  | broker :: _ =>
      (plain group assessment reason <| rm_Action := ActionScaleOut |> <| rm_BrokerID := broker |>
         <| rm_ProposedMembership := gr_Membership group ++ [broker] |>, true)
  end.

Definition scaleIn (group : GroupState) (assessment : GroupAssessment) : Recommendation * bool :=
  if llen (gr_Membership group) <=? policy_floor (gr_Policy group)
  then (plain group assessment "membership is at minimum plus warm count", false) else
  match gr_ScaleInChoice group with
  | None => (plain group assessment "scale-in requires an explicit safe broker choice", false)
  | Some choice =>
      if negb (sc_Safe choice)
      then (plain group assessment "explicit scale-in choice is not proven safe", false) else
      let proposed := removeBroker (gr_Membership group) (sc_BrokerID choice) in
      if llen proposed <? policy_floor (gr_Policy group)
      then (plain group assessment "scale-in would violate minimum plus warm count", false) else
      (plain group assessment "explicit broker choice is proven safe and capacity is below the headroom threshold"
         <| rm_Action := ActionScaleIn |> <| rm_BrokerID := sc_BrokerID choice |>
         <| rm_ProposedMembership := proposed |> <| rm_Evidence := sc_Evidence choice |>, true)
  end.

Definition error_text (e : gerror) (reason : string) : string :=
  match e with ErrNew msg => (msg +:+ ": " +:+ reason)%string | ErrWrap msg _ => msg end.

Definition recommend (now : Time) (group : GroupState) (assessment : GroupAssessment)
    (inventory : list Broker) (sustainedSince : Time) : Recommendation * bool :=
  match ga_State assessment with
  | TelemetryStale => (plain group assessment (error_text ErrStaleTelemetry (ga_Reason assessment)), false)
  | TelemetryUnknown =>
      (plain group assessment (error_text ErrUnknownTelemetry (ga_Reason assessment)), false)
  | TelemetryKnown =>
      if gp_MaxConcurrentChanges (gr_Policy group) <=? gr_ActiveTransitions group
      then (plain group assessment "group transition limit reached", false) else
      if 0 <? gr_ActiveTransitions group
      then (plain group assessment "group already has a membership transition", false) else
      if negb (time_IsZero (gr_LastTransitionAt group)) &&
         (time_Sub now (gr_LastTransitionAt group) <? gp_Cooldown (gr_Policy group))
      then (plain group assessment "group cooldown is active", false) else
      if llen (gr_Membership group) <? policy_floor (gr_Policy group)
      then scaleOut group assessment inventory "membership is below minimum plus warm count" else
      match ga_Pressure assessment with
      | PressureBrokerSaturation =>
          if time_IsZero sustainedSince ||
             (time_Sub now sustainedSince <? gp_PressureWindow (gr_Policy group))
          then (plain group assessment
                  "broker pressure has not been sustained for the configured window", false) else
          if gp_MaximumBrokers (gr_Policy group) <=? llen (gr_Membership group)
          then (plain group assessment
                  "broker pressure is sustained but maximum broker count is reached", false) else
          scaleOut group assessment inventory "broker pressure is sustained beyond the headroom threshold"
      | PressureDownstreamBacklog =>
          (plain group assessment "downstream backlog exists without broker saturation", false)
      | PressureNone | PressureUnknown => scaleIn group assessment
      end
  end.

(** ** Evaluation *)
Definition hasNewPressureObservation (group : GroupState) (assessments : gmap string BrokerAssessment)
    (after : Time) : bool :=
  forallb (fun id => time_After (ba_ObservedAt (default zero_assessment (assessments !! id))) after)
    (gr_Membership group).

Definition by_GroupID (assessments : list GroupAssessment) : gmap string GroupAssessment :=
  foldl (fun m a => <[ga_GroupID a := a]> m) ∅ assessments.
Definition zero_group_assessment : GroupAssessment :=
  mkGroupAssessment "" TelemetryUnknown "" PressureUnknown zero_utilization zero_utilization fzero fzero
    0 0 zeroTime "".
Definition assessment_of_group (byGroup : gmap string GroupAssessment) (id : string) : GroupAssessment :=
  default zero_group_assessment (byGroup !! id).

(** The window of one group: started, kept or broken. *)
Definition advance_window (now lastAt : Time) (byGroup : gmap string GroupAssessment)
    (byBroker : gmap string BrokerAssessment) (pressure : gmap string Time) (group : GroupState)
    : gmap string Time :=
  let assessment := assessment_of_group byGroup (gr_ID group) in
  if bool_decide (ga_State assessment = TelemetryKnown) &&
     bool_decide (ga_Pressure assessment = PressureBrokerSaturation)
  then
    let exists_ := bool_decide (is_Some (pressure !! gr_ID group)) in
    let freshCycle := time_IsZero lastAt || hasNewPressureObservation group byBroker lastAt in
    if negb exists_ && freshCycle then <[gr_ID group := now]> pressure else
    if exists_ && negb freshCycle then delete (gr_ID group) pressure else pressure
  else delete (gr_ID group) pressure.

Fixpoint updateGroupAssessment (groups : list GroupAssessment) (update : GroupAssessment)
    : list GroupAssessment :=
  match groups with
  | [] => []
  | a :: rest =>
      if str_eqb (ga_GroupID a) (ga_GroupID update) then update :: rest
      else a :: updateGroupAssessment rest update
  end.

Definition free_global (options : EngineOptions) (groups : list GroupState) : Z :=
  let free := foldl (fun free group => i64 (free - gr_ActiveTransitions group))
    (eo_MaxConcurrentTransitions options) groups in
  if free <? 0 then 0 else free.

(** The globally limited recommendation. *)
Definition refused (r : Recommendation) : Recommendation :=
  r <| rm_Reason := "global transition limit reached"%string |> <| rm_Action := ActionNone |>
    <| rm_BrokerID := ""%string |> <| rm_ProposedMembership := [] |>.

Definition decide_group (now : Time) (byGroup : gmap string GroupAssessment) (inventory : list Broker)
    (pressure : gmap string Time) (acc : Z * Decision_) (group : GroupState) : Z * Decision_ :=
  let '(free, d) := acc in
  let since := default zeroTime (pressure !! gr_ID group) in
  let assessment := assessment_of_group byGroup (gr_ID group) <| ga_SustainedSince := since |> in
  let d := d <| dc_Aggregation := dc_Aggregation d
                  <| ag_Groups := updateGroupAssessment (ag_Groups (dc_Aggregation d)) assessment |> |> in
  let '(recommendation, eligible) := recommend now group assessment inventory since in
  if eligible
  then
    if 0 <? free
    then (free - 1, d <| dc_Transitions := dc_Transitions d ++ [recommendation] |>
                      <| dc_Groups := dc_Groups d ++ [recommendation] |>)
    else (free, d <| dc_Groups := dc_Groups d ++ [refused recommendation] |>)
  else (free, d <| dc_Groups := dc_Groups d ++ [recommendation] |>).

Definition Evaluate (now : Time) (snapshot : TelemetrySnapshot) (inventory : list Broker)
    (groups : list GroupState) (e : Engine) : Engine * result Decision_ :=
  if negb (time_IsZero (en_lastAt e)) && negb (time_After now (en_lastAt e))
  then (e, Err (ErrNew "policy: evaluation time must increase monotonically")) else
  match Aggregate now snapshot (en_catalog e) inventory groups with
  | Err err => (e, Err err)
  | Ok aggregation =>
      let byGroup := by_GroupID (ag_Groups aggregation) in
      let byBroker := by_BrokerID (ag_Brokers aggregation) in
      let orderedGroups := sort_by group_less groups in
      let nextPressure := foldl (advance_window now (en_lastAt e) byGroup byBroker) (en_pressure e) orderedGroups in
      let '(_, decision) :=
        foldl (decide_group now byGroup inventory nextPressure)
          (free_global (en_options e) orderedGroups, mkDecision now aggregation [] []) orderedGroups in
      (e <| en_pressure := nextPressure |> <| en_lastAt := now |>, Ok decision)
  end.
