(* ===== verification/PolicyDecide.v ===== *)
(** * Facts about one policy cycle

    What a successful aggregation has checked, that it never panics, and what
    the assessments of brokers and groups say. *)

From S2P Require Import Prelude Float64 Policy PolicyAggregate PolicyEngine.
From Stdlib Require Import ZArith Lia.
From stdpp Require Import base gmap strings numbers option sorting list.
#[local] Open Scope Z_scope.

(** Inverting a chain of checks. *)
Ltac checks H :=
  repeat match type of H with
  | match ?c with Ok _ => _ | Err _ => _ end = Ok _ =>
      let E := fresh "E" in destruct c eqn:E; [|discriminate H]
  end;
  repeat match goal with u : unit |- _ => destruct u end.

(** ** Indexing a list by a key *)
Section Index.
Context {A : Type} (key : A -> string).
Definition index_by (l : list A) : gmap string A := foldl (fun m a => <[key a := a]> m) ∅ l.

Lemma index_by_snoc l a : index_by (l ++ [a]) = <[key a := a]> (index_by l).
Proof. unfold index_by. by rewrite foldl_snoc. Qed.

Lemma index_by_Some l k a : index_by l !! k = Some a -> a ∈ l /\ key a = k.
Proof.
  induction l as [|x l IH] using rev_ind; [done|]. rewrite index_by_snoc.
  intros [[<- <-]|[_ H]]%lookup_insert_Some; [set_solver|]. apply IH in H. set_solver.
Qed.
Lemma index_by_None l k : index_by l !! k = None -> k ∉ key <$> l.
Proof.
  induction l as [|x l IH] using rev_ind; [intros _; apply not_elem_of_nil|]. rewrite index_by_snoc.
  rewrite fmap_app. intros [H Hne]%lookup_insert_None. apply IH in H. cbn. set_solver.
Qed.
Lemma index_by_lookup l a : NoDup (key <$> l) -> a ∈ l -> index_by l !! key a = Some a.
Proof.
  intros Hnd Ha. destruct (index_by l !! key a) as [b|] eqn:E.
  - apply index_by_Some in E as [Hb Ek]. f_equal.
    apply list_elem_of_lookup in Ha as [i Hi], Hb as [j Hj].
    assert (i = j) as ->; [|congruence]. eapply (NoDup_lookup (key <$> l)); [done|..].
    + by rewrite list_lookup_fmap, Hi.
    + by rewrite list_lookup_fmap, Hj, <- Ek.
  - apply index_by_None in E. exfalso. apply E, list_elem_of_fmap. by exists a.
Qed.
End Index.

(** ** The groups of a cycle *)
Lemma add_members_spec group ids : forall ms b x,
  x ∈ default [] (foldl (add_member group) ms ids !! b) <->
  x ∈ default [] (ms !! b) \/ x = group /\ b ∈ ids.
Proof.
  induction ids as [|i ids IH]; intros ms b x; cbn; [set_solver|]. rewrite IH. unfold add_member.
  destruct (decide (i = b)) as [->|Hne].
  - rewrite lookup_insert_eq. cbn. rewrite elem_of_app, list_elem_of_singleton, elem_of_cons. tauto.
  - rewrite lookup_insert_ne by done. rewrite elem_of_cons. naive_solver.
Qed.

Lemma add_groups_ok now brokers groups : forall acc acc',
  fold_result (add_group now brokers) acc groups = Ok acc' ->
  NoDup (gr_ID <$> groups) /\
  (forall g, g ∈ groups -> gr_ID g ∉ fst acc /\ group_validate now brokers g = nil_err) /\
  fst acc' = list_to_set (gr_ID <$> groups) ∪ fst acc /\
  forall b x, x ∈ default [] (snd acc' !! b) <->
    x ∈ default [] (snd acc !! b) \/ exists g, g ∈ groups /\ gr_ID g = x /\ b ∈ gr_Membership g.
Proof.
  induction groups as [|g groups IH]; intros acc acc' H; cbn in H.
  { injection H as <-. split_and!; [constructor|by intros ? ?%elem_of_nil|set_solver|].
    intros b x. split; [by left|]. intros [?|(g & Hg & _)]; [done|by apply elem_of_nil in Hg]. }
  destruct (add_group now brokers acc g) as [acc1|] eqn:Eg; [|done]. unfold add_group in Eg.
  checks Eg. injection Eg as <-. destruct (IH _ _ H) as (H1 & H2 & H3 & H4). cbn in *.
  apply fail_if_ok, bool_decide_eq_false in E.
  assert (Hnew : gr_ID g ∉ gr_ID <$> groups).
  { intros (g' & Eg & Hg')%list_elem_of_fmap. destruct (H2 g' Hg') as [Hn _]. set_solver. }
  split_and!; [by constructor| |set_solver|].
  - intros x [->|Hx]%elem_of_cons; [done|]. destruct (H2 x Hx). set_solver.
  - intros b x. rewrite H4, add_members_spec. split.
    + intros [[?|[-> Hb]]|(g' & Hg & ?)]; [by left|right|right].
      * exists g. split; [by left|done].
      * exists g'. split; [by right|done].
    + intros [?|(g' & [->|Hg]%elem_of_cons & Eg & Hb)]; [by do 2 left|left; right; by split|right].
      by exists g'.
Qed.

(** ** What a successful context has checked *)
Record context_ok (now : Time) (snapshot : TelemetrySnapshot) (catalog : ProfileCatalog)
    (inventory : list Broker) (groups : list GroupState) (c : aggregationContext) : Prop := {
  co_now : cx_now c = now;
  co_groups : cx_groups c = groups;
  co_catalog : cx_catalog c = catalog;
  co_captured : tl_CapturedAt snapshot <= now;
  co_distinct : NoDup (gr_ID <$> groups);
  co_valid : forall g, g ∈ groups -> group_validate now (cx_brokers c) g = nil_err;
  co_memberships : forall b x, x ∈ default [] (cx_memberships c !! b) <->
    exists g, g ∈ groups /\ gr_ID g = x /\ b ∈ gr_Membership g;
  co_brokers : validateInventory inventory catalog = Ok (cx_brokers c);
  co_snapshot : snapshot_Validate snapshot = nil_err;
  co_brokerSamples : forall b s, cx_brokerSamples c !! b = Some s -> s ∈ tl_Brokers snapshot /\ bs_BrokerID s = b;
  co_groupSamples : forall k s, cx_groupSamples c !! k = Some s ->
    s ∈ tl_Groups snapshot /\ (gm_GroupID s, gm_BrokerID s) = k;
}.

Lemma broker_samples_ok brokers samples : forall acc acc',
  fold_result (add_broker_sample brokers) acc samples = Ok acc' ->
  forall b s, acc' !! b = Some s -> acc !! b = Some s \/ s ∈ samples /\ bs_BrokerID s = b.
Proof.
  induction samples as [|x samples IH]; intros acc acc' H b s Hs; cbn in H.
  { injection H as <-. by left. }
  destruct (add_broker_sample brokers acc x) as [acc1|] eqn:E; [|done].
  unfold add_broker_sample in E. destruct (brokers !! _); [|done]. checks E. injection E as <-.
  destruct (IH _ _ H b s Hs) as [[[<- <-]|[_ ?]]%lookup_insert_Some|[? ?]]; set_solver.
Qed.
Lemma group_samples_ok brokers groups samples : forall acc acc',
  fold_result (add_group_sample brokers groups) acc samples = Ok acc' ->
  forall k s, acc' !! k = Some s -> acc !! k = Some s \/
    s ∈ samples /\ (gm_GroupID s, gm_BrokerID s) = k.
Proof.
  induction samples as [|x samples IH]; intros acc acc' H k s Hs; cbn in H.
  { injection H as <-. by left. }
  destruct (add_group_sample brokers groups acc x) as [acc1|] eqn:E; [|done].
  unfold add_group_sample in E. checks E. injection E as <-.
  destruct (IH _ _ H k s Hs) as [[[<- <-]|[_ ?]]%lookup_insert_Some|[? ?]]; set_solver.
Qed.

Lemma aggregation_context_ok now snapshot catalog inventory groups c :
  aggregation_context now snapshot catalog inventory groups = Ok c ->
  context_ok now snapshot catalog inventory groups c.
Proof.
  unfold aggregation_context. intros H. checks H. injection H as <-.
  destruct (add_groups_ok _ _ _ _ _ E3) as (H1 & H2 & _ & H4).
  apply fail_if_ok in E0. unfold time_After in E0. apply Z.ltb_ge in E0. split; cbn; try done.
  - intros g Hg. by apply H2.
  - intros b x. specialize (H4 b x). cbn in H4. rewrite lookup_fmap, lookup_empty in *. cbn in H4.
    match type of H4 with context [snd ?p !! b] => destruct (snd p !! b) as [l|] end; cbn in *; rewrite ?elem_of_sort_by; rewrite H4;
      (split; [intros [[]%elem_of_nil|?]|]; auto).
  - intros b s Hs. destruct (broker_samples_ok _ _ _ _ E4 b s Hs); [done|by eauto].
  - intros k s Hs. destruct (group_samples_ok _ _ _ _ _ E5 k s Hs); [done|by eauto].
Qed.

(** ** Assessing brokers never panics *)
Lemma findGroup_Some groups id :
  id ∈ gr_ID <$> groups -> exists g, findGroup groups id = Some g /\ g ∈ groups /\ gr_ID g = id.
Proof.
  induction groups as [|g groups IH]; [by intros ?%elem_of_nil|]. cbn.
  destruct (str_eqb (gr_ID g) id) eqn:E.
  { intros _. apply str_eqb_true in E. exists g. split_and!; [done|left|done]. }
  intros [->|Hin]%elem_of_cons; [by rewrite str_eqb_refl in E|].
  destruct (IH Hin) as (g' & ? & ? & ?). exists g'. split_and!; [done|by right|done].
Qed.

Section Context.
Context (now : Time) (snapshot : TelemetrySnapshot) (catalog : ProfileCatalog).
Context (inventory : list Broker) (groups : list GroupState) (c : aggregationContext).
Context (Hc : context_ok now snapshot catalog inventory groups c).

Lemma contribute_total id acc x :
  x ∈ default [] (cx_memberships c !! id) -> exists acc', contribute c id acc x = Some acc'.
Proof.
  intros (g & Hg & <- & _)%(co_memberships _ _ _ _ _ _ Hc). unfold contribute.
  destruct (findGroup_Some (cx_groups c) (gr_ID g)) as (g' & -> & _).
  { rewrite (co_groups _ _ _ _ _ _ Hc). apply list_elem_of_fmap. by exists g. }
  destruct (cx_groupSamples c !! _); [|by eexists]. destruct (knownResources _); by eexists.
Qed.

Lemma contribute_all_total id ids : forall acc,
  ids ⊆ default [] (cx_memberships c !! id) -> exists acc', contribute_all c id acc ids = Some acc'.
Proof.
  induction ids as [|x ids IH]; intros acc Hsub; cbn; [by eexists|].
  destruct (contribute_total id acc x) as [acc1 ->]; [set_solver|]. apply IH. set_solver.
Qed.

Lemma assessBroker_total id : exists a, assessBroker c id = Some a /\ ba_BrokerID a = id.
Proof.
  unfold assessBroker. destruct (cx_brokerSamples c !! id) as [s|]; [|by eexists].
  match goal with |- context [contribute_all c id ?acc ?ids] =>
    destruct (contribute_all_total id ids acc) as [acc' ->]; [done|] end.
  do 2 (destruct (negb _); [by eexists|]). by eexists.
Qed.

Lemma assess_brokers_total ids : exists l, assess_brokers c ids = Some l.
Proof.
  induction ids as [|id ids [l IH]]; cbn; [by eexists|].
  destruct (assessBroker_total id) as (a & -> & _). rewrite IH. by eexists.
Qed.
End Context.

Lemma assess_brokers_spec c ids : forall l,
  assess_brokers c ids = Some l -> Forall2 (fun id a => assessBroker c id = Some a) ids l.
Proof.
  induction ids as [|id ids IH]; intros l H; cbn in H; [injection H as <-; constructor|].
  destruct (assessBroker c id) as [a|] eqn:E; [|done].
  destruct (assess_brokers c ids) as [l'|]; [|done]. injection H as <-. constructor; auto.
Qed.

(** ** A successful aggregation *)
Record cycle_ok now snapshot catalog inventory groups (agg : Aggregation) (c : aggregationContext) : Prop := {
  cy_context : context_ok now snapshot catalog inventory groups c;
  cy_brokers : forall b, is_Some (cx_brokers c !! b) ->
    exists a, by_BrokerID (ag_Brokers agg) !! b = Some a /\ a ∈ ag_Brokers agg /\
      assessBroker c b = Some a /\ ba_BrokerID a = b;
  cy_broker_of : forall a, a ∈ ag_Brokers agg -> assessBroker c (ba_BrokerID a) = Some a /\
    by_BrokerID (ag_Brokers agg) !! ba_BrokerID a = Some a;
  cy_group : forall g, g ∈ groups ->
    by_GroupID (ag_Groups agg) !! gr_ID g = Some (assessGroup c (by_BrokerID (ag_Brokers agg)) g);
  cy_group_of : forall a, a ∈ ag_Groups agg -> exists g, g ∈ groups /\
    a = assessGroup c (by_BrokerID (ag_Brokers agg)) g;
}.

Lemma assessGroup_ID c m g : ga_GroupID (assessGroup c m g) = gr_ID g.
Proof.
  unfold assessGroup. set (acc := foldl _ _ _). clearbody acc.
  do 2 (destruct (negb _); [done|]). destruct (fleb _ _); [done|]. by destruct (_ || _).
Qed.

Lemma Aggregate_context now snapshot catalog inventory groups c :
  aggregation_context now snapshot catalog inventory groups = Ok c ->
  exists agg, Aggregate now snapshot catalog inventory groups = Ok agg /\
    cycle_ok now snapshot catalog inventory groups agg c.
Proof.
  intros E. pose proof (aggregation_context_ok _ _ _ _ _ _ E) as Hc. unfold Aggregate. rewrite E.
  set (ids := sort_by _ _). destruct (assess_brokers_total _ _ _ _ _ _ Hc ids) as [l El].
  rewrite El. eexists. split; [done|]. apply assess_brokers_spec in El.
  assert (Hids : ba_BrokerID <$> l = ids).
  { clearbody ids. clear -El Hc. induction El as [|id a ids l Ha _ IH]; cbn; [done|]. f_equal; [|done].
    destruct (assessBroker_total _ _ _ _ _ _ Hc id) as (a' & E & Eid). congruence. }
  assert (Hnd : NoDup (ba_BrokerID <$> l)).
  { rewrite Hids. subst ids. rewrite sort_by_perm. apply NoDup_fst_map_to_list. }
  assert (Hof : forall a, a ∈ l -> assessBroker c (ba_BrokerID a) = Some a).
  { intros a Ha. apply list_elem_of_lookup in Ha as [i Hi].
    destruct (Forall2_lookup_r _ _ _ _ _ El Hi) as (id & Hid & Es).
    destruct (assessBroker_total _ _ _ _ _ _ Hc id) as (a' & E' & Eid). congruence. }
  split; cbn; [done| | | |].
  - intros b [x Hx]. assert (Hb : b ∈ ba_BrokerID <$> l).
    { rewrite Hids. apply elem_of_sort_by, list_elem_of_fmap. exists (b, x). split; [done|].
      by apply elem_of_map_to_list. }
    apply list_elem_of_fmap in Hb as (a & -> & Ha). exists a. split_and!; [|done|by apply Hof|done].
    exact (index_by_lookup ba_BrokerID l a Hnd Ha).
  - intros a Ha. split; [by apply Hof|]. exact (index_by_lookup ba_BrokerID l a Hnd Ha).
  - intros g Hg. rewrite <- (assessGroup_ID c (by_BrokerID l) g).
    refine (index_by_lookup ga_GroupID _ _ _ _).
    + rewrite <- list_fmap_compose. rewrite (list_fmap_ext _ gr_ID).
      * rewrite sort_by_perm, (co_groups _ _ _ _ _ _ Hc). apply Hc.
      * intros i g' _. apply assessGroup_ID.
    + apply list_elem_of_fmap_2, elem_of_sort_by. by rewrite (co_groups _ _ _ _ _ _ Hc).
  - intros a (g & -> & Hg)%list_elem_of_fmap. exists g. split; [|done].
    apply elem_of_sort_by in Hg. by rewrite (co_groups _ _ _ _ _ _ Hc) in Hg.
Qed.

Lemma Aggregate_ok now snapshot catalog inventory groups agg :
  Aggregate now snapshot catalog inventory groups = Ok agg ->
  exists c, cycle_ok now snapshot catalog inventory groups agg c.
Proof.
  intros H. unfold Aggregate in H.
  destruct (aggregation_context _ _ _ _ _) as [c|] eqn:E; [|done].
  destruct (Aggregate_context _ _ _ _ _ _ E) as (agg' & H' & Hc). unfold Aggregate in H'.
  rewrite E in H'. rewrite H' in H. injection H as <-. by exists c.
Qed.

(** ** What an assessment means

    A group is assessed as known only on complete, fresh telemetry of all its
    brokers and of every group that shares them, and it is saturated exactly
    when one of its brokers is. *)

(** ** Complete telemetry *)
Definition fresh_for (now observed : Time) (g : GroupState) : Prop :=
  time_Sub now observed <= gp_TelemetryMaxAge (gr_Policy g).

Record complete (now : Time) (snapshot : TelemetrySnapshot) (groups : list GroupState)
    (g : GroupState) : Prop := {
  ct_members : gr_Membership g <> [];
  ct_broker : forall b, b ∈ gr_Membership g -> exists s, s ∈ tl_Brokers snapshot /\ bs_BrokerID s = b /\
    resources_allKnown (bs_Resources s) = true /\ fresh_for now (bs_ObservedAt s) g;
  ct_sharing : forall b h, b ∈ gr_Membership g -> h ∈ groups -> b ∈ gr_Membership h ->
    exists s, s ∈ tl_Groups snapshot /\ gm_GroupID s = gr_ID h /\ gm_BrokerID s = b /\
      resources_allKnown (gm_Resources s) = true /\ fresh_for now (gm_ObservedAt s) h;
  ct_backlog : forall b, b ∈ gr_Membership g -> exists s, s ∈ tl_Groups snapshot /\
    gm_GroupID s = gr_ID g /\ gm_BrokerID s = b /\ backlog_allKnown (gm_Backlog s) = true;
}.

Lemma snoc_not_nil {A} (l : list A) x : l ++ [x] <> [].
Proof. by destruct l. Qed.

(** ** The loop over the groups of a broker *)
Section Contribute.
Context (c : aggregationContext) (id : string).

(** The sample of a group on the broker can be used. *)
Definition usable (groupID : string) : Prop :=
  exists g s, findGroup (cx_groups c) groupID = Some g /\ cx_groupSamples c !! (groupID, id) = Some s /\
    resources_allKnown (gm_Resources s) = true /\ fresh_for (cx_now c) (gm_ObservedAt s) g.

Lemma contribute_clean acc groupID acc' :
  contribute c id acc groupID = Some acc' -> bc_stale acc' = [] -> bc_unknown acc' = [] ->
  bc_stale acc = [] /\ bc_unknown acc = [] /\ usable groupID.
Proof.
  unfold contribute, usable, fresh_for. destruct (findGroup _ _) as [g|] eqn:Eg; [|done].
  destruct (cx_groupSamples c !! _) as [s|] eqn:Es.
  2: { intros [= <-]. cbn. by intros _ ?%snoc_not_nil. }
  unfold knownResources. destruct (resources_allKnown _) eqn:Ek; cbn [negb].
  2: { intros [= <-]. cbn. repeat case_match; cbn; by intros _ ?%snoc_not_nil. }
  destruct (Z.ltb_spec (gp_TelemetryMaxAge (gr_Policy g)) (time_Sub (cx_now c) (gm_ObservedAt s))) as [Hl|Hl].
  { intros [= <-]. cbn. by intros ?%snoc_not_nil. }
  intros [= <-]. destruct (time_Before _ _); cbn; intros; split_and!; try done; by exists g, s.
Qed.

Lemma contribute_all_clean ids : forall acc acc',
  contribute_all c id acc ids = Some acc' -> bc_stale acc' = [] -> bc_unknown acc' = [] ->
  bc_stale acc = [] /\ bc_unknown acc = [] /\ Forall usable ids.
Proof.
  induction ids as [|x ids IH]; intros acc acc' H Hs Hu; cbn in H.
  { injection H as <-. by split_and!. }
  destruct (contribute c id acc x) as [acc1|] eqn:E; [|done].
  destruct (IH _ _ H Hs Hu) as (H1 & H2 & H3).
  destruct (contribute_clean _ _ _ E H1 H2) as (H4 & H5 & H6). by split_and!; [..|constructor].
Qed.
End Contribute.

(** A known broker: its own sample and those of all its groups are usable. *)
Lemma assessBroker_known c id a :
  assessBroker c id = Some a -> ba_State a = TelemetryKnown ->
  (exists s, cx_brokerSamples c !! id = Some s /\ resources_allKnown (bs_Resources s) = true /\
     time_Sub (cx_now c) (bs_ObservedAt s) <= maxTelemetryAgeForBroker id (cx_groups c)) /\
  Forall (usable c id) (default [] (cx_memberships c !! id)).
Proof.
  unfold assessBroker. destruct (cx_brokerSamples c !! id) as [s|]; [|by intros [= <-]].
  destruct (contribute_all _ _ _ _) as [acc|] eqn:E; [|done].
  case_bool_decide as E1; cbn [negb]; [|by intros [= <-]].
  case_bool_decide as E2; cbn [negb]; [|by intros [= <-]]. intros _ _.
  destruct (contribute_all_clean _ _ _ _ _ E E1 E2) as (Hs & Hu & Hall). cbn in Hs, Hu.
  split; [|done]. exists s. split; [done|]. unfold knownResources in Hu.
  destruct (resources_allKnown _); [|done]. split; [done|].
  destruct (Z.ltb_spec (maxTelemetryAgeForBroker id (cx_groups c)) (time_Sub (cx_now c) (bs_ObservedAt s)));
    [done|lia].
Qed.

(** The freshness required of a broker sample is at most that of each group. *)
Lemma least_age_le id groups : forall age,
  0 <= age -> (forall g, g ∈ groups -> 0 < gp_TelemetryMaxAge (gr_Policy g)) ->
  let age' := foldl (least_age id) age groups in
  (0 < age -> 0 < age' <= age) /\ 0 <= age' /\
  forall g, g ∈ groups -> id ∈ gr_Membership g -> 0 < age' <= gp_TelemetryMaxAge (gr_Policy g).
Proof.
  induction groups as [|x groups IH]; intros age Ha Hp; cbn.
  { split_and!; [lia|done|by intros ? ?%elem_of_nil]. }
  pose proof (Hp x ltac:(left)) as Hx.
  assert (H1 : 0 <= least_age id age x /\ (0 < age -> 0 < least_age id age x <= age) /\
    (id ∈ gr_Membership x -> 0 < least_age id age x <= gp_TelemetryMaxAge (gr_Policy x))).
  { unfold least_age, contains. case_bool_decide; cbn [andb]; [|split_and!; [lia|lia|done]].
    destruct (Z.eqb_spec age 0), (Z.ltb_spec (gp_TelemetryMaxAge (gr_Policy x)) age); cbn; lia. }
  destruct H1 as (H1 & H2 & H3). destruct (IH (least_age id age x) H1) as (I1 & I2 & I3).
  { intros g Hg. apply Hp. by right. }
  split_and!; [lia|done|]. intros g [->|Hg]%elem_of_cons Hin; [|by apply I3].
  specialize (H3 Hin). lia.
Qed.

Lemma policy_validate_age p : policy_validate p = nil_err -> 0 < gp_TelemetryMaxAge p.
Proof.
  unfold policy_validate. intros H. checks H. apply fail_if_ok in H.
  repeat (apply orb_false_iff in H as [H ?]). lia.
Qed.
Lemma group_validate_policy now brokers g :
  group_validate now brokers g = nil_err -> policy_validate (gr_Policy g) = nil_err.
Proof. unfold group_validate. intros H. checks H. done. Qed.

(** ** The loop over the members of a group *)
Section Member.
Context (c : aggregationContext) (m : gmap string BrokerAssessment) (g : GroupState).
Abbreviation shared b := (ba_SharedUtilization (default zero_assessment (m !! b))).

Lemma assess_member_clean acc b :
  gc_stale (assess_member c m g acc b) = [] -> gc_unknown (assess_member c m g acc b) = [] ->
  gc_stale acc = [] /\ gc_unknown acc = [] /\
  ba_State (default zero_assessment (m !! b)) = TelemetryKnown /\
  exists s, cx_groupSamples c !! (gr_ID g, b) = Some s /\ backlog_allKnown (gm_Backlog s) = true.
Proof.
  unfold assess_member, sample_part, broker_part.
  destruct (cx_groupSamples c !! _) as [s|]; [|cbn; by intros _ ?%snoc_not_nil].
  destruct (backlog_allKnown _) eqn:Eb; cbn [negb]; [|cbn; by intros _ ?%snoc_not_nil].
  destruct (knownResources _); [|cbn; by intros _ ?%snoc_not_nil].
  destruct (_ <? _); [cbn; by intros ?%snoc_not_nil|].
  destruct (ba_State _) eqn:Es; cbn; [|by intros _ ?%snoc_not_nil|by intros ?%snoc_not_nil].
  intros H1 H2. split_and!; try done. by exists s.
Qed.

Lemma assess_member_shared acc b :
  gc_shared (assess_member c m g acc b) = utilization_max (gc_shared acc) (shared b).
Proof.
  unfold assess_member, sample_part, broker_part.
  destruct (cx_groupSamples c !! _); [|destruct (ba_State _); done].
  destruct (negb _), (knownResources _), (_ <? _), (ba_State _); done.
Qed.

Lemma assess_members_clean bs : forall acc,
  gc_stale (foldl (assess_member c m g) acc bs) = [] ->
  gc_unknown (foldl (assess_member c m g) acc bs) = [] ->
  gc_stale acc = [] /\ gc_unknown acc = [] /\
  forall b, b ∈ bs -> ba_State (default zero_assessment (m !! b)) = TelemetryKnown /\
    exists s, cx_groupSamples c !! (gr_ID g, b) = Some s /\ backlog_allKnown (gm_Backlog s) = true.
Proof.
  induction bs as [|b bs IH]; intros acc Hs Hu; cbn in *.
  { split_and!; try done. by intros ? ?%elem_of_nil. }
  destruct (IH _ Hs Hu) as (H1 & H2 & H3). destruct (assess_member_clean _ _ H1 H2) as (H4 & H5 & H6).
  split_and!; try done. intros x [->|Hx]%elem_of_cons; auto.
Qed.

Lemma assess_members_shared bs : forall acc,
  gc_shared (foldl (assess_member c m g) acc bs) =
  foldl (fun u b => utilization_max u (shared b)) (gc_shared acc) bs.
Proof.
  induction bs as [|b bs IH]; intros acc; cbn; [done|]. by rewrite IH, assess_member_shared.
Qed.

(** A known group has members, all of them known, and is saturated by the
    maximum over them. *)
Lemma assessGroup_known :
  ga_State (assessGroup c m g) = TelemetryKnown ->
  gr_Membership g <> [] /\
  (forall b, b ∈ gr_Membership g -> ba_State (default zero_assessment (m !! b)) = TelemetryKnown /\
     exists s, cx_groupSamples c !! (gr_ID g, b) = Some s /\ backlog_allKnown (gm_Backlog s) = true) /\
  (ga_Pressure (assessGroup c m g) = PressureBrokerSaturation <->
   fleb (saturationThreshold (gr_Policy g))
     (Peak (foldl (fun u b => utilization_max u (shared b)) zero_utilization (gr_Membership g))) = true).
Proof.
  unfold assessGroup. set (acc := foldl _ _ _).
  case_bool_decide as E1; cbn [negb]; [|done]. case_bool_decide as E2; cbn [negb]; [|done]. intros _.
  destruct (assess_members_clean _ _ E1 E2) as (_ & Hu & Hall). cbn in Hu.
  split_and!; [by case_bool_decide|done|].
  assert (Es : gc_shared acc = foldl (fun u b => utilization_max u (shared b)) zero_utilization (gr_Membership g))
    by apply assess_members_shared.
  rewrite <- Es. destruct (fleb _ _); [by split|].
  split; [|done]. destruct (_ || _); cbn; done.
Qed.
End Member.

(** ** Known means complete *)
Lemma valid_members_ok brokers ids : forall seen seen',
  fold_result (valid_member brokers) seen ids = Ok seen' ->
  NoDup ids /\ forall b, b ∈ ids -> is_Some (brokers !! b) /\ b ∉ seen.
Proof.
  induction ids as [|x ids IH]; intros seen seen' H; cbn in H.
  { split; [constructor|by intros ? ?%elem_of_nil]. }
  destruct (valid_member brokers seen x) as [seen1|] eqn:E; [|done]. unfold valid_member in E. checks E.
  injection E as <-. apply fail_if_ok, bool_decide_eq_false in E0, E1.
  destruct (IH _ _ H) as [H1 H2]. split.
  - constructor; [|done]. intros Hx. destruct (H2 x Hx). set_solver.
  - intros b [->|Hb]%elem_of_cons; [split; [by apply not_eq_None_Some|done]|].
    destruct (H2 b Hb). split; [done|set_solver].
Qed.

Lemma findGroup_distinct groups g :
  NoDup (gr_ID <$> groups) -> g ∈ groups -> findGroup groups (gr_ID g) = Some g.
Proof.
  induction groups as [|x l IH]; intros Hnd Hg; [by apply elem_of_nil in Hg|]. cbn in *.
  apply NoDup_cons in Hnd as [Hn Hnd]. destruct (str_eqb (gr_ID x) (gr_ID g)) eqn:E.
  - apply str_eqb_true in E. apply elem_of_cons in Hg as [->|Hg]; [done|].
    exfalso. apply Hn. rewrite E. by apply list_elem_of_fmap_2.
  - apply elem_of_cons in Hg as [->|Hg]; [by rewrite str_eqb_refl in E|]. by apply IH.
Qed.

Section Cycle.
Context (now : Time) (snapshot : TelemetrySnapshot) (catalog : ProfileCatalog).
Context (inventory : list Broker) (groups : list GroupState) (agg : Aggregation).
Context (c : aggregationContext) (Hcy : cycle_ok now snapshot catalog inventory groups agg c).

Lemma members_known g b : g ∈ groups -> b ∈ gr_Membership g -> is_Some (cx_brokers c !! b).
Proof.
  destruct Hcy as [Hc _ _ _ _]. intros Hg Hb. pose proof (co_valid _ _ _ _ _ _ Hc g Hg) as Hv.
  unfold group_validate in Hv. checks Hv. by eapply valid_members_ok.
Qed.

(** The assessment of a group. *)
Lemma group_assessment g a :
  g ∈ groups -> a ∈ ag_Groups agg -> ga_GroupID a = gr_ID g ->
  a = assessGroup c (by_BrokerID (ag_Brokers agg)) g.
Proof.
  destruct Hcy as [Hc _ _ _ Hof]. intros Hg Ha Eid. destruct (Hof a Ha) as (g' & Hg' & ->).
  rewrite assessGroup_ID in Eid. f_equal.
  pose proof (findGroup_distinct groups g' (co_distinct _ _ _ _ _ _ Hc) Hg') as E1.
  rewrite Eid, (findGroup_distinct groups g (co_distinct _ _ _ _ _ _ Hc) Hg) in E1. by injection E1.
Qed.

Lemma known_complete g a :
  g ∈ groups -> a ∈ ag_Groups agg -> ga_GroupID a = gr_ID g -> ga_State a = TelemetryKnown ->
  complete now snapshot groups g.
Proof.
  intros Hg Ha Eid Hk. pose proof Hcy as [Hc Hb _ _ _].
  pose proof (group_assessment g a Hg Ha Eid) as ->. destruct (assessGroup_known _ _ _ Hk) as (Hne & Hall & _).
  assert (Hbk : forall b, b ∈ gr_Membership g ->
    (exists s, cx_brokerSamples c !! b = Some s /\ resources_allKnown (bs_Resources s) = true /\
       time_Sub now (bs_ObservedAt s) <= maxTelemetryAgeForBroker b groups) /\
    Forall (usable c b) (default [] (cx_memberships c !! b))).
  { intros b Hin. destruct (Hb b (members_known g b Hg Hin)) as (ba & Elk & _ & Eba & _).
    destruct (Hall b Hin) as [Hst _]. rewrite Elk in Hst. cbn in Hst.
    rewrite <- (co_now _ _ _ _ _ _ Hc), <- (co_groups _ _ _ _ _ _ Hc).
    by apply (assessBroker_known c b ba). }
  assert (Hages : forall h, h ∈ groups -> 0 < gp_TelemetryMaxAge (gr_Policy h)).
  { intros h Hh. eapply policy_validate_age, group_validate_policy, Hc, Hh. }
  split; [done|..].
  - intros b Hin. destruct (Hbk b Hin) as [(s & Hs & Hkn & Hage) _].
    destruct (co_brokerSamples _ _ _ _ _ _ Hc b s Hs) as [H1 H2]. exists s. split_and!; try done.
    unfold fresh_for. etrans; [exact Hage|]. unfold maxTelemetryAgeForBroker.
    destruct (least_age_le b groups 0 ltac:(lia) Hages) as (_ & _ & Hle). specialize (Hle g Hg Hin).
    rewrite (proj2 (Z.eqb_neq _ 0)) by lia. lia.
  - intros b h Hin Hh Hbh. destruct (Hbk b Hin) as [_ Hus]. rewrite Forall_forall in Hus.
    destruct (Hus (gr_ID h)) as (g' & s & Hf & Hs & Hkn & Hfr).
    { apply (co_memberships _ _ _ _ _ _ Hc). by exists h. }
    destruct (co_groupSamples _ _ _ _ _ _ Hc _ s Hs) as [H1 [= H2 H3]]. exists s. split_and!; try done.
    rewrite (co_now _ _ _ _ _ _ Hc) in Hfr. rewrite (co_groups _ _ _ _ _ _ Hc) in Hf.
    rewrite (findGroup_distinct groups h) in Hf; [|apply Hc|done]. by injection Hf as <-.
  - intros b Hin. destruct (Hall b Hin) as [_ (s & Hs & Hbl)].
    destruct (co_groupSamples _ _ _ _ _ _ Hc _ s Hs) as [H1 [= H2 H3]]. by exists s.
Qed.
End Cycle.

(** ** Saturation

    With validated measurements and capacities no utilization is NaN, so the
    maximum over brokers and dimensions reaches a threshold exactly when one of
    them does. *)

Lemma fleb_fmax t x y : number x -> number y -> fleb t (fmax x y) = fleb t x || fleb t y.
Proof.
  intros Hx Hy. destruct (fmax_le x y Hx Hy) as [H1 H2].
  assert (Hd : fleb t (fmax x y) = true -> fleb t x = true \/ fleb t y = true).
  { unfold fmax, number in *. rewrite Hx, Hy. cbn [orb].
    assert (fleb t (if fltb x y then y else x) = true -> fleb t x = true \/ fleb t y = true)
      by (destruct (fltb x y); auto).
    destruct x as [sx|sx| |sx mx ex], y as [sy|sy| |sy my ey]; done. }
  apply Bool.eq_true_iff_eq. rewrite orb_true_iff. split; [done|].
  intros [H|H]; eapply fleb_trans; [exact Hx|done|done|exact Hy|done|done].
Qed.

(** ** Utilizations *)
Definition all_of (Q : float64 -> Prop) (u : Utilization) : Prop :=
  Q (ut_Ingress u) /\ Q (ut_Egress u) /\ Q (ut_Spool u) /\ Q (ut_Connections u).
Abbreviation unumber := (all_of number).
Abbreviation unonneg := (all_of nonneg).

Lemma unonneg_number u : unonneg u -> unumber u.
Proof. intros (H1 & H2 & H3 & H4). split_and!; auto with float. Qed.
Lemma unonneg_max u v : unonneg u -> unonneg v -> unonneg (utilization_max u v).
Proof.
  intros (H1 & H2 & H3 & H4) (K1 & K2 & K3 & K4). unfold all_of. cbn. split_and!; auto with float.
Qed.
Lemma Peak_nonneg u : unonneg u -> nonneg (Peak u).
Proof. intros (H1 & H2 & H3 & H4). unfold Peak. auto 6 with float. Qed.

Lemma fleb_Peak t u :
  unumber u -> fleb t (Peak u) = fleb t (ut_Ingress u) || fleb t (ut_Egress u) ||
    fleb t (ut_Spool u) || fleb t (ut_Connections u).
Proof. intros (H1 & H2 & H3 & H4). unfold Peak. rewrite !fleb_fmax; auto with float. Qed.

Lemma Peak_max t u v :
  unonneg u -> unonneg v ->
  fleb t (Peak (utilization_max u v)) = fleb t (Peak u) || fleb t (Peak v).
Proof.
  intros Hu Hv. rewrite !fleb_Peak by auto using unonneg_number, unonneg_max. cbn.
  destruct (unonneg_number _ Hu) as (H1 & H2 & H3 & H4), (unonneg_number _ Hv) as (K1 & K2 & K3 & K4).
  rewrite !fleb_fmax by done.
  destruct (fleb t (ut_Ingress u)), (fleb t (ut_Egress u)), (fleb t (ut_Spool u)),
    (fleb t (ut_Connections u)), (fleb t (ut_Ingress v)), (fleb t (ut_Egress v)), (fleb t (ut_Spool v)); done.
Qed.

Lemma Peak_fold (f : string -> Utilization) t (bs : list string) : forall u,
  unonneg u -> (forall b, b ∈ bs -> unonneg (f b)) ->
  fleb t (Peak (foldl (fun u b => utilization_max u (f b)) u bs)) = true <->
  fleb t (Peak u) = true \/ exists b, b ∈ bs /\ fleb t (Peak (f b)) = true.
Proof.
  induction bs as [|b bs IH]; intros u Hu Hf; cbn.
  { split; [by left|]. intros [?|(b & Hb & _)]; [done|by apply elem_of_nil in Hb]. }
  assert (Hb : unonneg (f b)) by (apply Hf; left).
  rewrite IH; [|by apply unonneg_max|intros x Hx; apply Hf; by right].
  rewrite Peak_max, orb_true_iff by done. split.
  - intros [[?|?]|(x & Hx & ?)]; [by left|right; exists b; by split; [left|]|].
    right. exists x. split; [by right|done].
  - intros [?|(x & [->|Hx]%elem_of_cons & ?)]; [by do 2 left|left; by right|right; by exists x].
Qed.

Lemma fleb_zero t v : nonneg v -> fleb t fzero = true -> fleb t v = true.
Proof.
  intros [Hn Hl] Ht. eapply (fleb_trans t fzero v); [done|done|].
  rewrite fltb_fleb in Hl by done. by apply negb_false_iff in Hl.
Qed.

(** With at least one broker the initial zero does not matter. *)
Lemma Peak_members (f : string -> Utilization) t (bs : list string) :
  bs <> [] -> (forall b, b ∈ bs -> unonneg (f b)) ->
  fleb t (Peak (foldl (fun u b => utilization_max u (f b)) zero_utilization bs)) = true <->
  exists b, b ∈ bs /\ fleb t (Peak (f b)) = true.
Proof.
  intros Hne Hf. rewrite Peak_fold; [|by unfold all_of; cbn; rewrite !nonneg_cases|done].
  split; [|by right]. intros [Hz|?]; [|done]. destruct bs as [|b bs]; [done|]. exists b.
  split; [left|]. apply fleb_zero; [|exact Hz]. apply Peak_nonneg, Hf. left.
Qed.

(** ** Validated measurements *)
Lemma metric_nonneg m : metric_validate m = nil_err -> mt_Known m = true -> nonneg (mt_Value m).
Proof.
  unfold metric_validate. intros H Hk. rewrite Hk in H. cbn in H. apply fail_if_ok in H.
  apply orb_false_iff in H as [[H1 _]%orb_false_iff H2]. by split.
Qed.

Definition vnonneg (v : resourcesValue) : Prop :=
  nonneg (v_ingress v) /\ nonneg (v_egress v) /\ nonneg (v_spool v) /\ nonneg (v_connections v).

Lemma known_nonneg r v : resources_validate r = nil_err -> knownResources r = Some v -> vnonneg v.
Proof.
  unfold knownResources, resources_allKnown. intros H Hk. destruct (_ && _) eqn:E; [|done].
  injection Hk as <-. apply for_each_ok in H.
  apply andb_true_iff in E as [[[E1 E2]%andb_true_iff E3]%andb_true_iff E4]. inversion_clear H as [|? ? H1 Hr].
  inversion_clear Hr as [|? ? H2 Hr1]. inversion_clear Hr1 as [|? ? H3 Hr2].
  inversion_clear Hr2 as [|? ? H4 _]. split_and!; by apply metric_nonneg.
Qed.

Lemma value_add_nonneg v w : vnonneg v -> vnonneg w -> vnonneg (value_add v w).
Proof. intros (?&?&?&?) (?&?&?&?). unfold vnonneg. cbn. split_and!; auto with float. Qed.

Lemma limit_positive y : valid_limit y = nil_err -> positive_limit y.
Proof.
  unfold valid_limit. intros H. apply fail_if_ok in H.
  apply orb_false_iff in H as [[H1 H2]%orb_false_iff H3].
  destruct y as [s|s| |[] m e]; try done. by exists m, e.
Qed.
Lemma utilization_nonneg v l : vnonneg v -> limits_validate l = nil_err -> unonneg (utilization v l).
Proof.
  intros (H1 & H2 & H3 & H4) Hl. apply for_each_ok in Hl. inversion_clear Hl as [|? ? L1 Hr].
  inversion_clear Hr as [|? ? L2 Hr1]. inversion_clear Hr1 as [|? ? L3 Hr2].
  inversion_clear Hr2 as [|? ? L4 _]. unfold all_of. cbn.
  split_and!; apply fdiv_nonneg; auto using limit_positive.
Qed.

(** ** Validated catalogs and snapshots *)
Definition catalog_ok (catalog : ProfileCatalog) : Prop :=
  forall k p, catalog !! k = Some p -> limits_validate (cp_Limits p) = nil_err.

Lemma NewProfileCatalog_ok profiles catalog : NewProfileCatalog profiles = Ok catalog -> catalog_ok catalog.
Proof.
  unfold NewProfileCatalog. assert (H0 : catalog_ok ∅) by by intros k p Hp.
  revert H0. generalize (∅ : ProfileCatalog). induction profiles as [|x l IH]; intros c0 H0 H; cbn in H.
  { by injection H as <-. }
  destruct (add_profile c0 x) as [c1|] eqn:E; [|done]. apply (IH c1); [|done].
  unfold add_profile in E. checks E. injection E as <-.
  intros k p [[<- <-]|[_ Hp]]%lookup_insert_Some; [|by eapply H0].
  by destruct (limits_validate _) as [[]|].
Qed.

Lemma brokers_profiled inventory catalog brokers :
  validateInventory inventory catalog = Ok brokers -> catalog_ok catalog ->
  forall b x, brokers !! b = Some x -> exists p,
    catalog_Lookup catalog (bro_ServiceClass x) (bro_BrokerVersion x) = Ok p /\
    limits_validate (cp_Limits p) = nil_err.
Proof.
  intros H Hcat. set (good := fun x : Broker => exists p,
    catalog_Lookup catalog (bro_ServiceClass x) (bro_BrokerVersion x) = Ok p /\
    limits_validate (cp_Limits p) = nil_err).
  unfold validateInventory in H. assert (H0 : forall b x, (∅ : gmap string Broker) !! b = Some x -> good x)
    by by intros b x Hx. revert H0 H. generalize (∅ : gmap string Broker).
  induction inventory as [|x l IH]; intros m H0 H; cbn in H; [by injection H as <-|].
  destruct (add_broker catalog m x) as [m1|] eqn:E; [|done]. apply (IH m1); [|done].
  unfold add_broker in E. checks E. injection E as <-.
  intros b y [[<- <-]|[_ Hy]]%lookup_insert_Some; [|by eapply H0]. unfold good. cbn.
  eexists. split; [eassumption|]. unfold catalog_Lookup in *.
  match goal with H : match ?o with _ => _ end = Ok _ |- _ => destruct o eqn:El; [|done];
    injection H as <- end. by eapply Hcat.
Qed.

Lemma broker_samples_validated now samples : forall seen seen',
  fold_result (valid_broker_sample now) seen samples = Ok seen' ->
  forall s, s ∈ samples -> resources_validate (bs_Resources s) = nil_err.
Proof.
  induction samples as [|x l IH]; intros seen seen' H s Hs; [by apply elem_of_nil in Hs|]. cbn in H.
  destruct (valid_broker_sample now seen x) as [seen1|] eqn:E; [|done].
  apply elem_of_cons in Hs as [->|Hs]; [|by eapply IH]. unfold valid_broker_sample in E. by checks E.
Qed.
Lemma group_samples_validated now samples : forall seen seen',
  fold_result (valid_group_sample now) seen samples = Ok seen' ->
  forall s, s ∈ samples -> resources_validate (gm_Resources s) = nil_err.
Proof.
  induction samples as [|x l IH]; intros seen seen' H s Hs; [by apply elem_of_nil in Hs|]. cbn in H.
  destruct (valid_group_sample now seen x) as [seen1|] eqn:E; [|done].
  apply elem_of_cons in Hs as [->|Hs]; [|by eapply IH]. unfold valid_group_sample in E. by checks E.
Qed.

(** ** Brokers and groups of a cycle *)
Section Cycle.
Context (now : Time) (snapshot : TelemetrySnapshot) (catalog : ProfileCatalog).
Context (inventory : list Broker) (groups : list GroupState) (agg : Aggregation).
Context (c : aggregationContext) (Hcy : cycle_ok now snapshot catalog inventory groups agg c).
Context (Hcat : catalog_ok catalog).

Lemma contribute_all_nonneg id ids : forall acc acc',
  vnonneg (bc_grouped acc) -> contribute_all c id acc ids = Some acc' -> vnonneg (bc_grouped acc').
Proof.
  pose proof Hcy as [Hc _ _ _ _]. pose proof (co_snapshot _ _ _ _ _ _ Hc) as Hv.
  unfold snapshot_Validate in Hv. checks Hv.
  induction ids as [|x ids IH]; intros acc acc' Ha H; cbn in H; [by injection H as <-|].
  destruct (contribute c id acc x) as [acc1|] eqn:Ex; [|done]. apply (IH acc1); [|done].
  unfold contribute in Ex. destruct (findGroup _ _) as [g|]; [|done].
  destruct (cx_groupSamples c !! _) as [s|] eqn:Es; [|by injection Ex as <-].
  destruct (co_groupSamples _ _ _ _ _ _ Hc _ s Es) as [Hin _].
  destruct (knownResources (gm_Resources s)) as [v|] eqn:Ek; injection Ex as <-; cbn.
  - apply value_add_nonneg; [by do 2 case_match|]. eapply known_nonneg; [|exact Ek].
    by eapply group_samples_validated.
  - by do 2 case_match.
Qed.

Lemma shared_nonneg a :
  a ∈ ag_Brokers agg -> is_Some (cx_brokers c !! ba_BrokerID a) -> unonneg (ba_SharedUtilization a).
Proof.
  pose proof Hcy as [Hc _ Hof _ _]. intros Ha [x Hx]. destruct (Hof a Ha) as [Hb _].
  assert (Hz : unonneg zero_utilization) by (unfold all_of; cbn; by rewrite !nonneg_cases).
  pose proof (co_snapshot _ _ _ _ _ _ Hc) as Hv. unfold snapshot_Validate in Hv. checks Hv.
  unfold assessBroker in Hb. destruct (cx_brokerSamples c !! _) as [s|] eqn:Es.
  2: { injection Hb as <-. exact Hz. }
  destruct (contribute_all _ _ _ _) as [acc|] eqn:Ec; [|done].
  do 2 (destruct (negb _); [injection Hb as <-; exact Hz|]). injection Hb as <-.
  unfold broker_limits. rewrite Hx.
  destruct (brokers_profiled _ _ _ (co_brokers _ _ _ _ _ _ Hc) Hcat _ _ Hx) as (p & Hp & Hl).
  rewrite (co_catalog _ _ _ _ _ _ Hc), Hp. destruct (co_brokerSamples _ _ _ _ _ _ Hc _ s Es) as [Hin _].
  assert (Hzv : vnonneg zero_value) by (unfold vnonneg; cbn; by rewrite !nonneg_cases).
  apply unonneg_max; apply utilization_nonneg; try done.
  - destruct (knownResources (bs_Resources s)) as [v|] eqn:Ek; [|done]. eapply known_nonneg; [|exact Ek].
    by eapply broker_samples_validated.
  - eapply contribute_all_nonneg; [|exact Ec]. exact Hzv.
Qed.

Lemma saturated_iff g a :
  g ∈ groups -> a ∈ ag_Groups agg -> ga_GroupID a = gr_ID g -> ga_State a = TelemetryKnown ->
  ga_Pressure a = PressureBrokerSaturation <->
  exists ba, ba ∈ ag_Brokers agg /\ ba_BrokerID ba ∈ gr_Membership g /\
    fleb (saturationThreshold (gr_Policy g)) (Peak (ba_SharedUtilization ba)) = true.
Proof.
  intros Hg Ha Eid Hk. pose proof (group_assessment _ _ _ _ _ _ _ Hcy g a Hg Ha Eid) as ->.
  pose proof Hcy as [Hc Hb Hof _ _]. destruct (assessGroup_known _ _ _ Hk) as (Hne & _ & ->).
  assert (Hmem : forall b, b ∈ gr_Membership g -> is_Some (cx_brokers c !! b)).
  { intros b Hin. by eapply members_known. }
  rewrite Peak_members; [|done|].
  - split.
    + intros (b & Hin & Hle). destruct (Hb b (Hmem b Hin)) as (ba & Elk & Hba & _ & Ebid).
      rewrite Elk in Hle. exists ba. by rewrite Ebid.
    + intros (ba & Hba & Hin & Hle). exists (ba_BrokerID ba). split; [done|].
      destruct (Hof ba Hba) as [_ ->]. done.
  - intros b Hin. destruct (Hb b (Hmem b Hin)) as (ba & -> & Hba & _ & Ebid). cbn.
    apply shared_nonneg; [done|]. rewrite Ebid. by apply Hmem.
Qed.
End Cycle.

(** ** One policy evaluation

    When a recommendation is justified, what the loop over the groups admits,
    and what an evaluation does to the pressure window of a group. *)

(** ** Justified recommendations *)
Definition is_candidate (g : GroupState) (b : Broker) : Prop :=
  bro_ID b ∉ gr_Membership g /\ bro_Ready b = true /\ gr_ID g ∈ bro_EligibleGroups b.

(** The first eligible broker, in the order of names, joins at the end. *)
Definition scale_out_ok (g : GroupState) (inventory : list Broker) (r : Recommendation) : Prop :=
  exists b, b ∈ inventory /\ is_candidate g b /\ rm_BrokerID r = bro_ID b /\
    (forall b', b' ∈ inventory -> is_candidate g b' -> str_ltb (bro_ID b') (bro_ID b) = false) /\
    rm_ProposedMembership r = gr_Membership g ++ [bro_ID b] /\
    llen (rm_ProposedMembership r) <= gp_MaximumBrokers (gr_Policy g).

(** The broker chosen with evidence leaves, and the floor is kept. *)
Definition scale_in_ok (g : GroupState) (r : Recommendation) : Prop :=
  exists choice, gr_ScaleInChoice g = Some choice /\ sc_Safe choice = true /\
    rm_BrokerID r = sc_BrokerID choice /\ rm_Evidence r = sc_Evidence choice /\
    rm_ProposedMembership r = removeBroker (gr_Membership g) (sc_BrokerID choice) /\
    policy_floor (gr_Policy g) <= llen (rm_ProposedMembership r).

Record justified (now : Time) (inventory : list Broker) (since : Time) (g : GroupState)
    (a : GroupAssessment) (r : Recommendation) : Prop := {
  jf_group : rm_GroupID r = gr_ID g;
  jf_current : rm_CurrentMembership r = gr_Membership g;
  jf_known : ga_State a = TelemetryKnown;
  jf_idle : gr_ActiveTransitions g <= 0 /\ gr_ActiveTransitions g < gp_MaxConcurrentChanges (gr_Policy g);
  jf_cooldown : gr_LastTransitionAt g = 0 \/
    gp_Cooldown (gr_Policy g) <= time_Sub now (gr_LastTransitionAt g);
  jf_action :
    match rm_Action r with
    | ActionNone => False
    | ActionScaleOut => scale_out_ok g inventory r /\
        (llen (gr_Membership g) < policy_floor (gr_Policy g) \/
         ga_Pressure a = PressureBrokerSaturation /\ since <> 0 /\
         gp_PressureWindow (gr_Policy g) <= time_Sub now since)
    | ActionScaleIn => scale_in_ok g r /\ ga_Pressure a <> PressureBrokerSaturation /\
        ga_Pressure a <> PressureDownstreamBacklog
    end;
}.

Lemma elem_of_candidates g inventory x :
  x ∈ candidates g inventory <-> exists b, b ∈ inventory /\ is_candidate g b /\ x = bro_ID b.
Proof.
  unfold candidates, is_candidate, eligibleFor, contains. rewrite list_elem_of_fmap. split.
  - intros (b & -> & [Hb Hin]%list_elem_of_filter). exists b. split; [done|].
    to_prop. by split_and!.
  - intros (b & Hin & (H1 & H2 & H3) & ->). exists b. split; [done|]. apply list_elem_of_filter.
    split; [|done]. apply andb_true_iff. rewrite H2. split; [|by apply bool_decide_eq_true_2].
    by apply negb_true_iff, bool_decide_eq_false_2.
Qed.

Lemma scaleOut_true g a inventory reason r :
  scaleOut g a inventory reason = (r, true) ->
  scale_out_ok g inventory r /\ rm_Action r = ActionScaleOut /\ rm_GroupID r = gr_ID g /\
  rm_CurrentMembership r = gr_Membership g.
Proof.
  unfold scaleOut. destruct (Z.leb_spec (gp_MaximumBrokers (gr_Policy g)) (llen (gr_Membership g))); [done|].
  destruct (sort_by str_ltb (candidates g inventory)) as [|x l] eqn:E; [done|]. intros [= <-].
  split_and!; try done. pose proof (sort_strings_sorted (candidates g inventory)) as Hs.
  unfold sort_strings in Hs. rewrite E in Hs. apply StronglySorted_inv in Hs as [_ Hs].
  assert (Hx : x ∈ candidates g inventory) by (apply (elem_of_sort_by str_ltb); rewrite E; left).
  apply elem_of_candidates in Hx as (b & Hb & Hc & ->). exists b. split_and!; try done; cbn.
  - intros b' Hb' Hc'. assert (Hin : bro_ID b' ∈ bro_ID b :: l).
    { rewrite <- E. apply elem_of_sort_by, elem_of_candidates. by exists b'. }
    apply elem_of_cons in Hin as [->|Hin]; [apply str_ltb_irrefl|].
    rewrite Forall_forall in Hs. by apply Hs.
  - unfold llen in *. rewrite length_app. cbn. lia.
Qed.

(** ** One recommendation *)
Lemma recommend_true now g a inventory since r :
  recommend now g a inventory since = (r, true) -> justified now inventory since g a r.
Proof.
  unfold recommend. destruct (ga_State a) eqn:Es; [|done..].
  destruct (Z.leb_spec (gp_MaxConcurrentChanges (gr_Policy g)) (gr_ActiveTransitions g)); [done|].
  destruct (Z.ltb_spec 0 (gr_ActiveTransitions g)); [done|].
  destruct (negb _ && _) eqn:Ecd; [done|].
  assert (Hcd : gr_LastTransitionAt g = 0 \/
    gp_Cooldown (gr_Policy g) <= time_Sub now (gr_LastTransitionAt g)).
  { apply andb_false_iff in Ecd as [E|E]; to_prop; [left|by right].
    unfold time_IsZero in E. by apply Z.eqb_eq in E. }
  assert (Hout : forall reason, scaleOut g a inventory reason = (r, true) ->
    (llen (gr_Membership g) < policy_floor (gr_Policy g) \/ ga_Pressure a = PressureBrokerSaturation /\
     since <> 0 /\ gp_PressureWindow (gr_Policy g) <= time_Sub now since) ->
    justified now inventory since g a r).
  { intros reason (H1 & H2 & H3 & H4)%scaleOut_true Hwhy. split; try done. by rewrite H2. }
  destruct (Z.ltb_spec (llen (gr_Membership g)) (policy_floor (gr_Policy g))); [by intros; eapply Hout; eauto|].
  destruct (ga_Pressure a) eqn:Ep.
  1,2: unfold scaleIn; destruct (_ <=? _); [done|]; destruct (gr_ScaleInChoice g) as [choice|] eqn:Ec; [|done];
    destruct (sc_Safe choice) eqn:Esf; [|done]; cbn [negb];
    destruct (Z.ltb_spec (llen (removeBroker (gr_Membership g) (sc_BrokerID choice)))
      (policy_floor (gr_Policy g))); [done|]; intros [= <-]; split; try done;
    cbn; rewrite Ep; split_and!; try done; exists choice; by split_and!.
  - destruct (_ || _) eqn:Ew; [done|]. destruct (_ <=? _); [done|]. intros H'. eapply Hout; [done|].
    right. apply orb_false_iff in Ew as [E1 E2]. unfold time_IsZero in E1. to_prop. by split_and!.
  - done.
Qed.

(** ** The loop over the groups *)
Section Decide.
Context (now : Time) (byGroup : gmap string GroupAssessment) (inventory : list Broker).
Context (pressure : gmap string Time).

Abbreviation since g := (default zeroTime (pressure !! gr_ID g)).
(** The assessment [recommend] sees. *)
Abbreviation seen g := (assessment_of_group byGroup (gr_ID g) <| ga_SustainedSince := since g |>).
Definition recommended (g : GroupState) : Recommendation * bool := recommend now g (seen g) inventory (since g).

Lemma recommend_group g a s : rm_GroupID (fst (recommend now g a inventory s)) = gr_ID g.
Proof.
  unfold recommend, scaleOut, scaleIn. repeat (case_match; try done).
Qed.

Lemma decide_groups_ok groups : forall free d,
  0 <= free ->
  let '(free', d') := foldl (decide_group now byGroup inventory pressure) (free, d) groups in
  exists ts, dc_Transitions d' = dc_Transitions d ++ ts /\ 0 <= free' /\ llen ts = free - free' /\
    (rm_GroupID <$> ts) `sublist_of` (gr_ID <$> groups) /\
    (rm_GroupID <$> dc_Groups d') = (rm_GroupID <$> dc_Groups d) ++ (gr_ID <$> groups) /\
    (forall t, t ∈ ts -> exists g, g ∈ groups /\ recommended g = (t, true)) /\
    (forall g r, g ∈ groups -> recommended g = (r, true) -> llen groups <= free -> r ∈ ts).
Proof.
  induction groups as [|g groups IH]; intros free d Hf.
  { cbn. exists []. rewrite !app_nil_r. split_and!; try done; try (by intros ? ?%elem_of_nil).
    - unfold llen. cbn. lia.
    - intros g r Hg. by apply elem_of_nil in Hg. }
  cbn [foldl]. unfold decide_group at 2. fold (recommended g).
  pose proof (recommend_group g (seen g) (since g)) as Hid. fold (recommended g) in Hid.
  destruct (recommended g) as [r eligible] eqn:Er. cbn in Hid.
  set (d1 := d <| dc_Aggregation := _ |>).
  assert (Hstep : forall free1 d2 ts1, 0 <= free1 -> free1 <= free -> llen ts1 = free - free1 ->
    dc_Transitions d2 = dc_Transitions d ++ ts1 -> (rm_GroupID <$> ts1) `sublist_of` [gr_ID g] ->
    (rm_GroupID <$> dc_Groups d2) = (rm_GroupID <$> dc_Groups d) ++ [gr_ID g] ->
    (forall t, t ∈ ts1 -> t = r /\ eligible = true) ->
    (eligible = true -> 0 < free -> r ∈ ts1) ->
    let '(free', d') := foldl (decide_group now byGroup inventory pressure) (free1, d2) groups in
    exists ts, dc_Transitions d' = dc_Transitions d ++ ts /\ 0 <= free' /\ llen ts = free - free' /\
      (rm_GroupID <$> ts) `sublist_of` (gr_ID <$> g :: groups) /\
      (rm_GroupID <$> dc_Groups d') = (rm_GroupID <$> dc_Groups d) ++ (gr_ID <$> g :: groups) /\
      (forall t, t ∈ ts -> exists g', g' ∈ g :: groups /\ recommended g' = (t, true)) /\
      (forall g' r', g' ∈ g :: groups -> recommended g' = (r', true) ->
         llen (g :: groups) <= free -> r' ∈ ts)).
  { clear d1. intros free1 d2 ts1 H1 H2 H3 H4 H5 H6 H7 H8. specialize (IH free1 d2 H1).
    destruct (foldl _ _ groups) as [free' d']. destruct IH as (ts & I1 & I2 & I3 & I4 & I5 & I6 & I7).
    exists (ts1 ++ ts). split_and!.
    - by rewrite I1, H4, app_assoc.
    - done.
    - unfold llen in *. rewrite length_app. lia.
    - rewrite fmap_app. by apply (sublist_app _ [gr_ID g]).
    - rewrite I5, H6, <- app_assoc. done.
    - intros t [Ht|Ht]%elem_of_app.
      + destruct (H7 t Ht) as [-> ->]. exists g. split; [left|done].
      + destruct (I6 t Ht) as (g' & Hg' & ?). exists g'. split; [by right|done].
    - intros g' r' Hg' Hr' Hl. apply elem_of_app. unfold llen in *. cbn [length] in Hl.
      apply elem_of_cons in Hg' as [->|Hg'].
      + left. rewrite Er in Hr'. injection Hr' as <- ->. apply H8; [done|lia].
      + right. apply (I7 g'); [done|done|].
        assert (Z.of_nat (length ts1) <= 1).
        { apply sublist_length in H5. rewrite length_fmap in H5. cbn in H5. lia. }
        lia. }
  assert (Hg1 : forall x, rm_GroupID x = gr_ID g ->
    rm_GroupID <$> (dc_Groups d1 ++ [x]) = (rm_GroupID <$> dc_Groups d) ++ [gr_ID g]).
  { intros x Hx. rewrite fmap_app. cbn. by rewrite Hx. }
  assert (Hnil : llen ([] : list Recommendation) = 0) by done.
  destruct eligible; [destruct (Z.ltb_spec 0 free)|].
  - apply (Hstep (free - 1) _ [r]); [lia|lia|unfold llen; cbn; lia|done| |by apply Hg1| |by intros; left].
    + cbn. by rewrite Hid.
    + by intros t ->%list_elem_of_singleton.
  - apply (Hstep free _ []); [lia|lia|rewrite Hnil; lia|by rewrite app_nil_r|apply sublist_nil_l
      |by apply Hg1|by intros ? ?%elem_of_nil|lia].
  - apply (Hstep free _ []); [lia|lia|rewrite Hnil; lia|by rewrite app_nil_r|apply sublist_nil_l
      |by apply Hg1|by intros ? ?%elem_of_nil|done].
Qed.
End Decide.

(** ** One evaluation *)
Record Cycle := mkCycle {
  c_now : Time;
  c_snapshot : TelemetrySnapshot;
  c_inventory : list Broker;
  c_groups : list GroupState;
}.
Definition evaluate (c : Cycle) (e : Engine) : Engine * result Decision_ :=
  Evaluate (c_now c) (c_snapshot c) (c_inventory c) (c_groups c) e.
Definition aggregate (c : Cycle) (e : Engine) : result Aggregation :=
  Aggregate (c_now c) (c_snapshot c) (en_catalog e) (c_inventory c) (c_groups c).

(** The cycle shows the group saturated, by observations that are all newer
    than the previous evaluation. *)
Definition hot (e : Engine) (c : Cycle) (id : string) : Prop :=
  exists agg g a, aggregate c e = Ok agg /\ g ∈ c_groups c /\ gr_ID g = id /\
    a ∈ ag_Groups agg /\ ga_GroupID a = id /\
    ga_State a = TelemetryKnown /\ ga_Pressure a = PressureBrokerSaturation /\
    (en_lastAt e = 0 \/ forall b, b ∈ gr_Membership g -> exists ba, ba ∈ ag_Brokers agg /\
       ba_BrokerID ba = b /\ en_lastAt e < ba_ObservedAt ba).

(** What [advance_window] does to the window of the group itself. *)
Section Advance.
Context (now lastAt : Time) (byGroup : gmap string GroupAssessment) (byBroker : gmap string BrokerAssessment).

Definition is_hot (g : GroupState) : bool :=
  let a := assessment_of_group byGroup (gr_ID g) in
  bool_decide (ga_State a = TelemetryKnown) && bool_decide (ga_Pressure a = PressureBrokerSaturation) &&
  (time_IsZero lastAt || hasNewPressureObservation g byBroker lastAt).

Lemma advance_lookup pressure g id :
  advance_window now lastAt byGroup byBroker pressure g !! id =
  if bool_decide (id = gr_ID g)
  then (if is_hot g then Some (default now (pressure !! id)) else None)
  else pressure !! id.
Proof.
  unfold advance_window, is_hot. set (f := time_IsZero lastAt || _). set (k := bool_decide _ && bool_decide _).
  destruct (decide (id = gr_ID g)) as [->|E].
  - rewrite (bool_decide_eq_true_2 (gr_ID g = gr_ID g)) by done. destruct k; cbn [andb]; [|apply lookup_delete_eq].
    destruct (pressure !! gr_ID g) as [s|] eqn:Es.
    + rewrite bool_decide_eq_true_2 by done. destruct f; cbn; [done|apply lookup_delete_eq].
    + rewrite bool_decide_eq_false_2 by (by intros []). destruct f; cbn; [apply lookup_insert_eq|done].
  - rewrite (bool_decide_eq_false_2 (id = gr_ID g)) by done.
    destruct k; [|by rewrite lookup_delete_ne]. destruct (negb _ && _); [by rewrite lookup_insert_ne|].
    destruct (_ && _); [by rewrite lookup_delete_ne|done].
Qed.

Lemma advance_all_other groups : forall pressure id,
  id ∉ gr_ID <$> groups -> foldl (advance_window now lastAt byGroup byBroker) pressure groups !! id = pressure !! id.
Proof.
  induction groups as [|g groups IH]; intros pressure id Hn; cbn; [done|].
  rewrite IH by set_solver. rewrite advance_lookup, bool_decide_eq_false_2 by set_solver. done.
Qed.

Lemma advance_all_own groups : forall pressure g,
  NoDup (gr_ID <$> groups) -> g ∈ groups ->
  foldl (advance_window now lastAt byGroup byBroker) pressure groups !! gr_ID g =
  if is_hot g then Some (default now (pressure !! gr_ID g)) else None.
Proof.
  induction groups as [|x groups IH]; intros pressure g Hnd Hg; [by apply elem_of_nil in Hg|].
  cbn in *. apply NoDup_cons in Hnd as [Hn Hnd]. apply elem_of_cons in Hg as [->|Hg].
  - rewrite advance_all_other by done. by rewrite advance_lookup, bool_decide_eq_true_2 by done.
  - rewrite IH by done. rewrite advance_lookup, bool_decide_eq_false_2; [done|]. intros E. apply Hn.
    rewrite <- E. by apply list_elem_of_fmap_2.
Qed.
End Advance.

(** A successful evaluation, taken apart. *)
Lemma evaluate_ok c e e' d :
  evaluate c e = (e', Ok d) ->
  (en_lastAt e = 0 \/ en_lastAt e < c_now c) /\ c_now c <> 0 /\
  en_catalog e' = en_catalog e /\ en_options e' = en_options e /\ en_lastAt e' = c_now c /\
  exists agg cx, aggregate c e = Ok agg /\
    cycle_ok (c_now c) (c_snapshot c) (en_catalog e) (c_inventory c) (c_groups c) agg cx /\
    let gs := sort_by group_less (c_groups c) in
    en_pressure e' = foldl (advance_window (c_now c) (en_lastAt e) (by_GroupID (ag_Groups agg))
      (by_BrokerID (ag_Brokers agg))) (en_pressure e) gs /\
    exists free, (free, d) = foldl (decide_group (c_now c) (by_GroupID (ag_Groups agg)) (c_inventory c)
      (en_pressure e')) (free_global (en_options e) gs, mkDecision (c_now c) agg [] []) gs.
Proof.
  unfold evaluate, Evaluate. fold (aggregate c e). destruct (negb _ && negb _) eqn:Em; [done|].
  destruct (aggregate c e) as [agg|] eqn:Ea; [|done].
  destruct (Aggregate_ok _ _ _ _ _ _ Ea) as [cx Hcy]. unfold aggregate, Aggregate in Ea.
  destruct (aggregation_context _ _ _ _ _) as [cx'|] eqn:Ecx; [|done]. unfold aggregation_context in Ecx.
  checks Ecx. apply fail_if_ok in E. unfold time_IsZero in E, Em.
  destruct (foldl (decide_group _ _ _ _) _ _) as [free d'] eqn:Ed. intros [= <- <-].
  split_and!; try done.
  - apply andb_false_iff in Em as [H|H]; to_prop; [by left|right]. unfold time_After in H. by to_prop.
  - by to_prop.
  - exists agg, cx. split_and!; try done. exists free. symmetry. exact Ed.
Qed.

Lemma is_hot_hot c e agg cx g :
  cycle_ok (c_now c) (c_snapshot c) (en_catalog e) (c_inventory c) (c_groups c) agg cx ->
  aggregate c e = Ok agg -> g ∈ c_groups c ->
  is_hot (en_lastAt e) (by_GroupID (ag_Groups agg)) (by_BrokerID (ag_Brokers agg)) g = true <->
  hot e c (gr_ID g).
Proof.
  intros Hcy Ha Hg. pose proof Hcy as [Hc Hb Hof Hgr _].
  unfold is_hot, assessment_of_group. rewrite (Hgr g Hg). cbn [default].
  set (a := assessGroup _ _ g). rewrite !andb_true_iff, orb_true_iff, !bool_decide_eq_true.
  unfold hasNewPressureObservation. rewrite forallb_forall.
  assert (Hlook : forall b, b ∈ gr_Membership g -> exists ba,
    by_BrokerID (ag_Brokers agg) !! b = Some ba /\ ba ∈ ag_Brokers agg /\ ba_BrokerID ba = b).
  { intros b Hin. destruct (Hb b) as (ba & H1 & H2 & _ & H3); [by eapply members_known|by exists ba]. }
  split.
  - intros ((H1 & H2) & H3). exists agg, g, a. split_and!; try done; [|apply assessGroup_ID|].
    + destruct (index_by_Some ga_GroupID _ _ _ (Hgr g Hg)) as [Hin _]. exact Hin.
    + destruct H3 as [H3|H3]; [left; unfold time_IsZero in H3; by to_prop|right].
      intros b Hin. destruct (Hlook b Hin) as (ba & Elk & Hba & Eid). exists ba. split_and!; try done.
      specialize (H3 b (proj1 (list_elem_of_In _ _) Hin)). rewrite Elk in H3. cbn in H3.
      unfold time_After in H3. by to_prop.
  - intros (agg' & g' & a' & Ha' & Hg' & Eid & Hin & Eida & H1 & H2 & H3).
    rewrite Ha in Ha'. injection Ha' as <-.
    pose proof (group_assessment _ _ _ _ _ _ _ Hcy g a' Hg Hin Eida) as ->. split; [by split|].
    assert (g' = g) as ->.
    { pose proof (findGroup_distinct _ g (co_distinct _ _ _ _ _ _ Hc) Hg) as E1.
      rewrite <- Eid, (findGroup_distinct _ g' (co_distinct _ _ _ _ _ _ Hc) Hg') in E1. by injection E1. }
    destruct H3 as [->|H3]; [by left|right]. intros b Hb'%list_elem_of_In.
    destruct (H3 b Hb') as (ba & Hba & Ebid & Hlt). destruct (Hlook b Hb') as (ba' & Elk & _ & _).
    destruct (Hof ba Hba) as [_ Elk']. rewrite Ebid, Elk in Elk'. injection Elk' as ->.
    rewrite Elk. cbn. unfold time_After. by apply Z.ltb_lt.
Qed.

(** The window of a group after an evaluation. *)
Lemma evaluate_window c e e' d id since :
  evaluate c e = (e', Ok d) -> en_pressure e' !! id = Some since ->
  (id ∉ gr_ID <$> c_groups c /\ en_pressure e !! id = Some since) \/
  (hot e c id /\ since = default (c_now c) (en_pressure e !! id)).
Proof.
  intros H Hs. destruct (evaluate_ok _ _ _ _ H) as (_ & _ & _ & _ & _ & agg & cx & Ha & Hcy & Hp & _).
  rewrite Hp in Hs. destruct (decide (id ∈ gr_ID <$> c_groups c)) as [Hin|Hout].
  - right. apply list_elem_of_fmap in Hin as (g & -> & Hg). rewrite advance_all_own in Hs.
    + destruct (is_hot _ _ _ g) eqn:Eh; [|done]. injection Hs as <-. split; [|done].
      by eapply is_hot_hot.
    + rewrite sort_by_perm. apply Hcy.
    + by apply elem_of_sort_by.
  - left. split; [done|]. rewrite advance_all_other in Hs; [done|]. by rewrite sort_by_perm.
Qed.
