(* ===== verification/PolicyTheorems.v ===== *)
(** * What the policy engine guarantees

    Every admitted transition is justified by complete telemetry, the group's
    bounds and, for pressure, an unbroken window of saturated cycles; the number
    of transitions respects the limits; a saturated group does get its broker;
    engine state survives a restart. *)

From S2P Require Import Prelude Float64 Policy PolicyAggregate PolicyEngine PolicyDecide.
From Stdlib Require Import ZArith Lia.
From stdpp Require Import base gmap strings numbers option sorting list.
#[local] Open Scope Z_scope.

(** ** Runs of an engine *)

(** The latest cycle comes first, each with the engine that evaluated it.
    Refused cycles leave no trace; a restart restores the saved state into a
    new engine. *)
Inductive policy_run (catalog : ProfileCatalog) (options : EngineOptions)
    : Engine -> list (Engine * Cycle) -> Prop :=
| pr_new e : NewEngine catalog options = Ok e -> policy_run catalog options e []
| pr_cycle e e' h c d : policy_run catalog options e h -> evaluate c e = (e', Ok d) ->
    policy_run catalog options e' ((e, c) :: h)
| pr_refused e e' h c err : policy_run catalog options e h -> evaluate c e = (e', Err err) ->
    policy_run catalog options e' h
| pr_restart e h fresh now e' : policy_run catalog options e h -> NewEngine catalog options = Ok fresh ->
    RestoreState (engine_State e) now fresh = (e', nil_err) -> policy_run catalog options e' h.

(** An unbroken run of hot cycles of a group, the first one at [since]. *)
Inductive unbroken (id : string) : list (Engine * Cycle) -> Time -> Prop :=
| ub_start e c h : hot e c id -> unbroken id ((e, c) :: h) (c_now c)
| ub_next e c h since : unbroken id h since -> hot e c id -> unbroken id ((e, c) :: h) since.

Definition present (id : string) (h : list (Engine * Cycle)) : Prop :=
  Forall (fun '(_, c) => id ∈ gr_ID <$> c_groups c) h.

Record engine_ok (catalog : ProfileCatalog) (options : EngineOptions) (e : Engine) : Prop := {
  ek_catalog : en_catalog e = catalog;
  ek_options : en_options e = options;
  ek_window : forall id since, en_pressure e !! id = Some since ->
    id <> ""%string /\ since <> 0 /\ since <= en_lastAt e;
  ek_started : en_lastAt e = 0 -> en_pressure e = ∅;
}.

Lemma evaluate_refused c e e' err : evaluate c e = (e', Err err) -> e' = e.
Proof.
  unfold evaluate, Evaluate. destruct (_ && _); [by intros [= <- _]|].
  destruct (Aggregate _ _ _ _ _); [|by intros [= <- _]]. by destruct (foldl _ _ _).
Qed.

Lemma group_validate_ID now brokers g : group_validate now brokers g = nil_err ->
  gr_ID g <> ""%string /\ 0 <= gr_ActiveTransitions g.
Proof.
  unfold group_validate. intros H. checks H. apply fail_if_ok in E, E1. unfold str_empty, str_eqb in E.
  to_prop. by split.
Qed.

Lemma restore_ok state now e e' :
  RestoreState state now e = (e', nil_err) ->
  en_catalog e' = en_catalog e /\ en_options e' = en_options e /\
  en_lastAt e' = es_LastEvaluatedAt state /\ en_pressure e' = es_PressureSince state.
Proof.
  unfold RestoreState. cbv zeta. match goal with |- match ?x with _ => _ end = _ -> _ => destruct x end;
    [|done]. by intros [= <-].
Qed.

Lemma run_engine_ok catalog options e h : policy_run catalog options e h -> engine_ok catalog options e.
Proof.
  induction 1 as [e Hn|e e' h c d _ [I1 I2 I3 I4] He|e e' h c err _ IH He|e h fresh now e' _ [I1 I2 I3 I4] Hn Hr].
  - unfold NewEngine in Hn. checks Hn. injection Hn as <-. by split.
  - destruct (evaluate_ok _ _ _ _ He) as (Ht & Hz & Ec & Eo & El & agg & cx & Ha & Hcy & _).
    split; [congruence|congruence| |congruence]. intros id since Hs. rewrite El.
    destruct (evaluate_window _ _ _ _ _ _ He Hs) as [[_ Hold]|[Hh ->]].
    + destruct (I3 _ _ Hold) as (H1 & H2 & H3). split_and!; try done.
      destruct Ht as [Ht|Ht]; [|lia]. rewrite (I4 Ht) in Hold. by rewrite lookup_empty in Hold.
    + destruct Hh as (_ & g & _ & _ & Hg & <- & _).
      destruct (group_validate_ID _ _ _ (co_valid _ _ _ _ _ _ (cy_context _ _ _ _ _ _ _ Hcy) g Hg)).
      destruct (en_pressure e !! gr_ID g) as [s|] eqn:Es; cbn; [|split_and!; [done|done|lia]].
      destruct (I3 _ _ Es) as (H1 & H2 & H3). split_and!; try done.
      destruct Ht as [Ht|Ht]; [|lia]. rewrite (I4 Ht) in Es. by rewrite lookup_empty in Es.
  - by rewrite (evaluate_refused _ _ _ _ He).
  - destruct (restore_ok _ _ _ _ Hr) as (R1 & R2 & R3 & R4). cbn in R3, R4. unfold NewEngine in Hn. checks Hn.
    injection Hn as <-. split; [done|done| |].
    + intros id since. rewrite R3, R4. apply I3.
    + rewrite R3, R4. exact I4.
Qed.

Lemma run_unbroken catalog options e h id since :
  policy_run catalog options e h -> present id h -> en_pressure e !! id = Some since -> unbroken id h since.
Proof.
  intros H. revert since.
  induction H as [e Hn|e e' h c d _ IH He|e e' h c err _ IH He|e h fresh now e' _ IH Hn Hr];
    intros since Hp Hs.
  - unfold NewEngine in Hn. checks Hn. injection Hn as <-. done.
  - inversion_clear Hp as [|? ? Hin Hp'].
    destruct (evaluate_window _ _ _ _ _ _ He Hs) as [[Hn _]|[Hh ->]]; [done|].
    destruct (en_pressure e !! id) as [s|] eqn:Es; cbn; [|by apply ub_start].
    apply ub_next; [by apply IH|done].
  - rewrite (evaluate_refused _ _ _ _ He) in Hs. by apply IH.
  - destruct (restore_ok _ _ _ _ Hr) as (_ & _ & _ & R4). rewrite R4 in Hs. by apply IH.
Qed.

(** ** Theorems *)

(** The recommendations of a cycle, with what [recommend] saw. *)
Lemma transition_source c e e' d t :
  evaluate c e = (e', Ok d) -> t ∈ dc_Transitions d ->
  exists agg cx g a, aggregate c e = Ok agg /\
    cycle_ok (c_now c) (c_snapshot c) (en_catalog e) (c_inventory c) (c_groups c) agg cx /\
    g ∈ c_groups c /\ a ∈ ag_Groups agg /\ ga_GroupID a = gr_ID g /\
    justified (c_now c) (c_inventory c) (default 0 (en_pressure e' !! gr_ID g)) g a t.
Proof.
  intros H Ht. destruct (evaluate_ok _ _ _ _ H) as (_ & _ & _ & _ & _ & agg & cx & Ha & Hcy & _ & free & Hd).
  assert (H0 : 0 <= free_global (en_options e) (sort_by group_less (c_groups c))).
  { unfold free_global. destruct (Z.ltb_spec (foldl (fun free group => i64 (free - gr_ActiveTransitions group))
      (eo_MaxConcurrentTransitions (en_options e)) (sort_by group_less (c_groups c))) 0); lia. }
  pose proof (decide_groups_ok (c_now c) (by_GroupID (ag_Groups agg)) (c_inventory c) (en_pressure e')
    (sort_by group_less (c_groups c)) _ (mkDecision (c_now c) agg [] []) H0) as Hok.
  rewrite <- Hd in Hok. destruct Hok as (ts & E1 & _ & _ & _ & _ & Hfrom & _). cbn in E1. rewrite E1 in Ht.
  destruct (Hfrom t Ht) as (g & Hg%elem_of_sort_by & Hr). unfold recommended in Hr.
  apply recommend_true in Hr. exists agg, cx, g, (assessGroup cx (by_BrokerID (ag_Brokers agg)) g).
  pose proof (cy_group _ _ _ _ _ _ _ Hcy g Hg) as Hlk. unfold assessment_of_group in Hr. rewrite Hlk in Hr.
  cbn [default] in Hr. split_and!; try done; [|apply assessGroup_ID|].
  - by destruct (index_by_Some ga_GroupID _ _ _ Hlk).
  - destruct Hr as [J1 J2 J3 J4 J5 J6]. by split.
Qed.

(** C18: A transition is admitted only when it is justified: the telemetry of
    every broker of the group, of every group on them and of the group's
    backlog is there, known and fresh; no transition of the group is under way
    and its cooldown is over.  A scale-out adds the first ready broker that
    allows the group and stays within the maximum, and happens only below the
    floor or under saturation; a scale-in removes exactly the broker that was
    chosen with proof, keeps the floor, and never happens under saturation or
    with a backlog. *)
Theorem transitions_justified c e e' d t :
  evaluate c e = (e', Ok d) -> t ∈ dc_Transitions d ->
  exists agg g a, aggregate c e = Ok agg /\ g ∈ c_groups c /\ a ∈ ag_Groups agg /\
    ga_GroupID a = gr_ID g /\ complete (c_now c) (c_snapshot c) (c_groups c) g /\
    justified (c_now c) (c_inventory c) (default 0 (en_pressure e' !! gr_ID g)) g a t.
Proof.
  intros H Ht. destruct (transition_source _ _ _ _ _ H Ht) as (agg & cx & g & a & Ha & Hcy & Hg & Hin & Eid & Hj).
  exists agg, g, a. split_and!; try done. eapply known_complete; try done. apply Hj.
Qed.

(** A scale-out of a group that is not below its floor needs sustained
    pressure: if the group was part of every cycle, then the last cycles form
    an unbroken run, each of them with complete telemetry that is newer than
    the cycle before and shows saturation, and the run began at least the
    pressure window ago; refused cycles and restarts in between do not help. *)
Theorem scale_out_sustained catalog options e h c e' d t g :
  policy_run catalog options e h -> evaluate c e = (e', Ok d) -> t ∈ dc_Transitions d ->
  rm_Action t = ActionScaleOut -> g ∈ c_groups c -> rm_GroupID t = gr_ID g ->
  policy_floor (gr_Policy g) <= llen (gr_Membership g) -> present (gr_ID g) h ->
  exists since, unbroken (gr_ID g) ((e, c) :: h) since /\
    gp_PressureWindow (gr_Policy g) <= time_Sub (c_now c) since.
Proof.
  intros Hrun He Ht Hact Hg Eg Hfl Hp.
  destruct (transition_source _ _ _ _ _ He Ht) as (agg & cx & g' & a & _ & Hcy & Hg' & _ & _ & [J1 _ _ _ _ J6]).
  assert (g' = g) as ->.
  { pose proof (co_distinct _ _ _ _ _ _ (cy_context _ _ _ _ _ _ _ Hcy)) as Hnd.
    pose proof (findGroup_distinct _ g Hnd Hg) as E1. rewrite <- Eg, J1, (findGroup_distinct _ g' Hnd Hg') in E1.
    by injection E1. }
  rewrite Hact in J6. destruct J6 as [_ [?|(_ & Hs & Hw)]]; [lia|].
  destruct (en_pressure e' !! gr_ID g) as [since|] eqn:Es; [|done]. cbn in Hw. exists since.
  split; [|done]. refine (run_unbroken catalog options e' _ _ _ (pr_cycle _ _ _ _ _ _ _ Hrun He) _ Es).
  constructor; [by apply list_elem_of_fmap_2|done].
Qed.

Definition total_active (groups : list GroupState) : Z := foldr (fun g n => gr_ActiveTransitions g + n) 0 groups.

Lemma total_active_perm l1 l2 : l1 ≡ₚ l2 -> total_active l1 = total_active l2.
Proof. unfold total_active. induction 1; cbn in *; lia. Qed.

Lemma total_active_nonneg l : (forall g, g ∈ l -> 0 <= gr_ActiveTransitions g) -> 0 <= total_active l.
Proof.
  induction l as [|g l IH]; intros H; [done|]. change (0 <= gr_ActiveTransitions g + total_active l).
  pose proof (H g ltac:(left)). assert (0 <= total_active l) by (apply IH; intros; apply H; by right). lia.
Qed.

Lemma i64_id x : in_i64 x -> i64 x = x.
Proof. unfold in_i64, i64, min_i64, max_i64. intros H. rewrite Z.mod_small; lia. Qed.

Lemma free_global_ok options groups :
  in_i64 (eo_MaxConcurrentTransitions options) -> 0 <= eo_MaxConcurrentTransitions options ->
  (forall g, g ∈ groups -> 0 <= gr_ActiveTransitions g) -> total_active groups <= max_i64 ->
  free_global options groups = Z.max 0 (eo_MaxConcurrentTransitions options - total_active groups).
Proof.
  intros Hm H0 Hpos Ht. unfold free_global.
  assert (E : foldl (fun free g => i64 (free - gr_ActiveTransitions g)) (eo_MaxConcurrentTransitions options) groups
    = eo_MaxConcurrentTransitions options - total_active groups).
  { assert (Hgen : forall x, in_i64 x -> - max_i64 <= x - total_active groups ->
      foldl (fun free g => i64 (free - gr_ActiveTransitions g)) x groups = x - total_active groups).
    { clear Ht Hm H0. induction groups as [|g l IH]; intros x Hx Hl; [cbn; lia|].
      change (total_active (g :: l)) with (gr_ActiveTransitions g + total_active l) in *. cbn [foldl].
      assert (Hg : 0 <= gr_ActiveTransitions g) by (apply Hpos; left).
      assert (Hpos' : forall y, y ∈ l -> 0 <= gr_ActiveTransitions y) by (intros; apply Hpos; by right).
      pose proof (total_active_nonneg l Hpos') as Hl0. unfold in_i64, min_i64, max_i64 in *.
      rewrite i64_id by (unfold in_i64, min_i64, max_i64; lia). rewrite IH by (done || lia). lia. }
    apply Hgen; [done|lia]. }
  rewrite E. destruct (Z.ltb_spec (eo_MaxConcurrentTransitions options - total_active groups) 0); lia.
Qed.

Lemma evaluate_free catalog options e h c e' d :
  policy_run catalog options e h -> evaluate c e = (e', Ok d) ->
  in_i64 (eo_MaxConcurrentTransitions options) -> 0 <= eo_MaxConcurrentTransitions options ->
  total_active (c_groups c) <= max_i64 ->
  free_global (en_options e) (sort_by group_less (c_groups c)) =
  Z.max 0 (eo_MaxConcurrentTransitions options - total_active (c_groups c)).
Proof.
  intros Hrun He Hm H0 Ht. rewrite (ek_options _ _ _ (run_engine_ok _ _ _ _ Hrun)).
  destruct (evaluate_ok _ _ _ _ He) as (_ & _ & _ & _ & _ & agg & cx & _ & Hcy & _).
  rewrite <- (total_active_perm _ _ (sort_by_perm group_less (c_groups c))) in *.
  apply free_global_ok; try done. intros g Hg%elem_of_sort_by.
  exact (proj2 (group_validate_ID _ _ _ (co_valid _ _ _ _ _ _ (cy_context _ _ _ _ _ _ _ Hcy) g Hg))).
Qed.

(** An evaluation admits no more transitions than the global limit leaves
    beside those under way, at most one per group, and gives exactly one
    recommendation per group in the order of group IDs. *)
Theorem transitions_bounded catalog options e h c e' d :
  policy_run catalog options e h -> evaluate c e = (e', Ok d) ->
  in_i64 (eo_MaxConcurrentTransitions options) -> 0 <= eo_MaxConcurrentTransitions options ->
  total_active (c_groups c) <= max_i64 ->
  llen (dc_Transitions d) <= Z.max 0 (eo_MaxConcurrentTransitions options - total_active (c_groups c)) /\
  NoDup (rm_GroupID <$> dc_Transitions d) /\
  (rm_GroupID <$> dc_Groups d) = gr_ID <$> sort_by group_less (c_groups c).
Proof.
  intros Hrun He Hm H0 Ht. pose proof (evaluate_free _ _ _ _ _ _ _ Hrun He Hm H0 Ht) as Hfree.
  destruct (evaluate_ok _ _ _ _ He) as (_ & _ & _ & _ & _ & agg & cx & _ & Hcy & _ & free & Hd).
  pose proof (decide_groups_ok (c_now c) (by_GroupID (ag_Groups agg)) (c_inventory c) (en_pressure e')
    (sort_by group_less (c_groups c)) (free_global (en_options e) (sort_by group_less (c_groups c)))
    (mkDecision (c_now c) agg [] []) ltac:(lia)) as Hok.
  rewrite <- Hd in Hok. destruct Hok as (ts & E1 & H1 & H2 & H3 & H4 & _). cbn in E1, H4. rewrite E1.
  split_and!; [lia| |done]. eapply sublist_NoDup; [|exact H3]. rewrite sort_by_perm. apply Hcy.
Qed.

Lemma recommend_saturated now g a inventory since b :
  policy_validate (gr_Policy g) = nil_err -> ga_State a = TelemetryKnown ->
  ga_Pressure a = PressureBrokerSaturation -> since <> 0 ->
  gp_PressureWindow (gr_Policy g) <= time_Sub now since -> gr_ActiveTransitions g = 0 ->
  gr_LastTransitionAt g = 0 \/ gp_Cooldown (gr_Policy g) <= time_Sub now (gr_LastTransitionAt g) ->
  policy_floor (gr_Policy g) <= llen (gr_Membership g) < gp_MaximumBrokers (gr_Policy g) ->
  b ∈ inventory -> is_candidate g b ->
  exists t, recommend now g a inventory since = (t, true) /\ rm_Action t = ActionScaleOut.
Proof.
  intros Hv Hk Hsat Hnz Hw Hact Hcd Hfl Hb Hcand. unfold recommend. rewrite Hk, Hsat, Hact.
  assert (Hmax : 0 < gp_MaxConcurrentChanges (gr_Policy g)).
  { unfold policy_validate in Hv. checks Hv. apply fail_if_ok in Hv.
    repeat (apply orb_false_iff in Hv as [Hv ?]). lia. }
  rewrite (proj2 (Z.leb_gt _ 0)) by lia. cbn.
  assert (Ecd : negb (time_IsZero (gr_LastTransitionAt g)) &&
    (time_Sub now (gr_LastTransitionAt g) <? gp_Cooldown (gr_Policy g)) = false).
  { destruct Hcd as [->|Hcd]; [done|]. rewrite (proj2 (Z.ltb_ge _ _)) by lia. apply andb_false_r. }
  rewrite Ecd, (proj2 (Z.ltb_ge _ _)) by lia. unfold time_IsZero. rewrite (proj2 (Z.eqb_neq _ _)) by done.
  cbn. rewrite (proj2 (Z.ltb_ge _ _)) by lia. rewrite (proj2 (Z.leb_gt _ _)) by lia.
  unfold scaleOut. rewrite (proj2 (Z.leb_gt _ _)) by lia.
  destruct (sort_by str_ltb (candidates g inventory)) as [|x l] eqn:El; [|by eexists].
  assert (Hx : bro_ID b ∈ sort_by str_ltb (candidates g inventory)).
  { apply elem_of_sort_by, elem_of_candidates. by exists b. }
  rewrite El in Hx. by apply elem_of_nil in Hx.
Qed.

(** C19: A saturated group does get a broker: when its window is as old as the
    policy asks and this cycle shows saturation by fresh telemetry, while no
    transition of the group is under way, its cooldown is over, it is at or
    above its floor and below its maximum, a ready broker allows it, and the
    global limit leaves a slot for every group, then this evaluation admits
    its scale-out. *)
Theorem saturated_group_scales_out catalog options e h c e' d g b since :
  policy_run catalog options e h -> evaluate c e = (e', Ok d) -> g ∈ c_groups c -> hot e c (gr_ID g) ->
  en_pressure e !! gr_ID g = Some since -> gp_PressureWindow (gr_Policy g) <= time_Sub (c_now c) since ->
  gr_ActiveTransitions g = 0 ->
  gr_LastTransitionAt g = 0 \/ gp_Cooldown (gr_Policy g) <= time_Sub (c_now c) (gr_LastTransitionAt g) ->
  policy_floor (gr_Policy g) <= llen (gr_Membership g) < gp_MaximumBrokers (gr_Policy g) ->
  b ∈ c_inventory c -> is_candidate g b ->
  in_i64 (eo_MaxConcurrentTransitions options) -> total_active (c_groups c) <= max_i64 ->
  llen (c_groups c) <= eo_MaxConcurrentTransitions options - total_active (c_groups c) ->
  exists t, t ∈ dc_Transitions d /\ rm_GroupID t = gr_ID g /\ rm_Action t = ActionScaleOut.
Proof.
  intros Hrun He Hg Hhot Hs Hw Hact Hcd Hfl Hb Hcand Hm Ht Hlim.
  pose proof (run_engine_ok _ _ _ _ Hrun) as [_ Eo Hwin _].
  destruct (evaluate_ok _ _ _ _ He) as (_ & _ & _ & _ & _ & agg & cx & Ha & Hcy & Hp & free & Hd).
  assert (H0 : 0 <= eo_MaxConcurrentTransitions options).
  { clear -Hrun. induction Hrun as [e Hn| | |]; auto. unfold NewEngine in Hn. checks Hn. apply fail_if_ok in E.
    to_prop. lia. }
  pose proof (evaluate_free _ _ _ _ _ _ _ Hrun He Hm H0 Ht) as Hfree.
  pose proof (decide_groups_ok (c_now c) (by_GroupID (ag_Groups agg)) (c_inventory c) (en_pressure e')
    (sort_by group_less (c_groups c)) (free_global (en_options e) (sort_by group_less (c_groups c)))
    (mkDecision (c_now c) agg [] []) ltac:(lia)) as Hok.
  rewrite <- Hd in Hok. destruct Hok as (ts & E1 & _ & _ & _ & _ & _ & Hall). cbn in E1. rewrite E1.
  assert (Es' : en_pressure e' !! gr_ID g = Some since).
  { rewrite Hp, advance_all_own; [|rewrite sort_by_perm; apply Hcy|by apply elem_of_sort_by].
    rewrite (proj2 (is_hot_hot c e agg cx g Hcy Ha Hg) Hhot), Hs. done. }
  pose proof Hhot as (agg' & g' & a & Ha' & _ & _ & Hin & Eid & Hk & Hsat & _).
  rewrite Ha in Ha'. injection Ha' as <-.
  pose proof (group_assessment _ _ _ _ _ _ _ Hcy g a Hg Hin Eid) as Ea.
  destruct (Hwin _ _ Hs) as (_ & Hnz & _).
  assert (Hrec : exists t, recommended (c_now c) (by_GroupID (ag_Groups agg)) (c_inventory c) (en_pressure e') g
    = (t, true) /\ rm_Action t = ActionScaleOut).
  { unfold recommended, assessment_of_group. rewrite Es', (cy_group _ _ _ _ _ _ _ Hcy g Hg), <- Ea. cbn [default].
    eapply recommend_saturated; cbn; try done. apply (group_validate_policy (c_now c) (cx_brokers cx)).
    exact (co_valid _ _ _ _ _ _ (cy_context _ _ _ _ _ _ _ Hcy) g Hg). }
  destruct Hrec as (t & Hrec & Hto). exists t. split_and!; [|apply recommend_true in Hrec; apply Hrec|done].
  apply (Hall g); [by apply elem_of_sort_by|done|]. unfold llen in *. rewrite sort_by_length. lia.
Qed.

(** Saturation is shared: a group with known telemetry is saturated exactly
    when one of its brokers reaches the group's threshold in some dimension,
    by its own measurement or by the sum over all groups on it, so the load
    another group puts on a broker counts.  With a validated catalog no
    comparison involves NaN. *)
Theorem saturation_shared profiles catalog now snapshot inventory groups agg g a :
  NewProfileCatalog profiles = Ok catalog ->
  Aggregate now snapshot catalog inventory groups = Ok agg ->
  g ∈ groups -> a ∈ ag_Groups agg -> ga_GroupID a = gr_ID g -> ga_State a = TelemetryKnown ->
  ga_Pressure a = PressureBrokerSaturation <->
  exists ba, ba ∈ ag_Brokers agg /\ ba_BrokerID ba ∈ gr_Membership g /\
    fleb (saturationThreshold (gr_Policy g)) (Peak (ba_SharedUtilization ba)) = true.
Proof.
  intros Hn Ha Hg Hin Eid Hk. destruct (Aggregate_ok _ _ _ _ _ _ Ha) as [cx Hcy].
  eapply saturated_iff; try done. by eapply NewProfileCatalog_ok.
Qed.

(** The saved state of an engine in use is always accepted again, at any
    time from the last evaluation on, and brings back the same windows. *)
Theorem RestoreState_roundtrip catalog options e h fresh now :
  policy_run catalog options e h -> NewEngine catalog options = Ok fresh ->
  now <> 0 -> en_lastAt e <= now ->
  RestoreState (engine_State e) now fresh = (e, nil_err).
Proof.
  intros Hrun Hn Hz Hle. destruct (run_engine_ok _ _ _ _ Hrun) as [E1 E2 Hw Hs].
  unfold NewEngine in Hn. checks Hn. injection Hn as <-. unfold RestoreState, engine_State. cbn.
  unfold time_IsZero, time_After. rewrite (proj2 (Z.eqb_neq now 0)), (proj2 (Z.ltb_ge now _)) by lia.
  rewrite andb_false_r. cbn.
  assert (Hempty : (en_lastAt e =? 0) && negb (bool_decide (en_pressure e = ∅)) = false).
  { destruct (Z.eqb_spec (en_lastAt e) 0); [|done]. rewrite bool_decide_eq_true_2; [done|by apply Hs]. }
  rewrite Hempty. cbn.
  assert (Hall : for_each (valid_window (en_lastAt e)) (map_to_list (en_pressure e)) = nil_err).
  { apply for_each_ok, Forall_forall. intros [id since] Hin%elem_of_map_to_list.
    destruct (Hw _ _ Hin) as (H1 & H2 & H3). unfold valid_window. apply fail_if_ok. cbn.
    unfold str_empty, str_eqb, time_IsZero, time_After. rewrite bool_decide_eq_false_2 by done.
    rewrite (proj2 (Z.eqb_neq _ _)), (proj2 (Z.ltb_ge _ _)) by done. done. }
  rewrite Hall. destruct e. cbn in *. by subst.
Qed.
