(* ===== verification/PolicyScenario.v ===== *)
(** * A saturated group

    One group on one broker, with a second broker ready, over three collector
    cycles half a minute apart: the theorems about the engine are instantiated
    at them, and a run in which the group is missing from the middle cycle. *)

From S2P Require Import Prelude Float64 Policy PolicyAggregate PolicyEngine PolicyDecide.
From S2P Require Import PolicyTheorems.
From Stdlib Require Import ZArith Lia.
From stdpp Require Import base gmap strings numbers option list.
#[local] Open Scope Z_scope.
#[local] Open Scope string_scope.

Definition measured (n : Z) : Metric := KnownMetric (f_of_Z n).
Definition usage (n : Z) : Resources := mkResources (measured n) (measured 1) (measured 1) (measured 1).
Definition profile : CapacityProfile :=
  mkCapacityProfile "enterprise" "10" (mkCapacityLimits (f_of_Z 100) (f_of_Z 100) (f_of_Z 100) (f_of_Z 100)).
Definition catalog_of (r : result ProfileCatalog) : ProfileCatalog := match r with Ok c => c | Err _ => ∅ end.
Definition demo_catalog : ProfileCatalog := catalog_of (NewProfileCatalog [profile]).
Lemma demo_catalog_eq : NewProfileCatalog [profile] = Ok demo_catalog.
Proof. vm_compute. reflexivity. Qed.
Definition demo_options : EngineOptions := mkEngineOptions 2.

Definition inventory : list Broker :=
  [mkBroker "b1" "enterprise" "10" true ["orders"]; mkBroker "b2" "enterprise" "10" true ["orders"]].
Definition demo_policy : GroupPolicy :=
  mkGroupPolicy 1 3 0 (f_of_Z 20) (60 * Second) (30 * Second) 0 1.
Definition group : GroupState := mkGroupState "orders" ["b1"] demo_policy 0 0 None.

Definition clock (s : Z) : Time := (1000 + s) * Second.
Definition sampled (s n : Z) : BrokerSample := mkBrokerSample "b1" "enterprise" "10" (clock s) (usage n).
Definition cycle (s n : Z) : Cycle :=
  mkCycle (clock s)
    (mkTelemetrySnapshot (clock s) [sampled s n]
       [mkGroupSample "orders" "b1" (clock s) (usage n) (mkBacklog (measured 0) (measured 0))])
    inventory [group].
(** The same broker, without the group. *)
Definition gap (s n : Z) : Cycle :=
  mkCycle (clock s) (mkTelemetrySnapshot (clock s) [sampled s n] []) inventory [].

Definition no_decision : Decision_ := mkDecision 0 (mkAggregation 0 [] []) [] [].
Definition new_engine : Engine := mkEngine demo_catalog demo_options ∅ 0.
Definition step (e : Engine) (c : Cycle) : Engine := fst (evaluate c e).
Definition decision (c : Cycle) (e : Engine) : Decision_ :=
  match snd (evaluate c e) with Ok d => d | Err _ => no_decision end.

Lemma step_eq c e : is_ok (snd (evaluate c e)) = true -> evaluate c e = (step e c, Ok (decision c e)).
Proof. unfold step, decision. by destruct (evaluate c e) as [e' []]. Qed.

Definition e1 : Engine := step new_engine (cycle 0 90).
Definition e2 : Engine := step e1 (cycle 30 95).
Definition e3 : Engine := step e2 (cycle 60 90).
Definition d3 : Decision_ := decision (cycle 60 90) e2.
Definition history : list (Engine * Cycle) := [(e1, cycle 30 95); (new_engine, cycle 0 90)].

Lemma new_engine_eq : NewEngine demo_catalog demo_options = Ok new_engine.
Proof. reflexivity. Qed.
Lemma cycle1 : evaluate (cycle 0 90) new_engine = (e1, Ok (decision (cycle 0 90) new_engine)).
Proof. apply step_eq. vm_compute. reflexivity. Qed.
Lemma cycle2 : evaluate (cycle 30 95) e1 = (e2, Ok (decision (cycle 30 95) e1)).
Proof. apply step_eq. vm_compute. reflexivity. Qed.
Lemma cycle3 : evaluate (cycle 60 90) e2 = (e3, Ok d3).
Proof. apply step_eq. vm_compute. reflexivity. Qed.
Lemma e2_run : policy_run demo_catalog demo_options e2 history.
Proof.
  apply (pr_cycle _ _ e1 e2 _ _ (decision (cycle 30 95) e1)); [|exact cycle2].
  apply (pr_cycle _ _ new_engine e1 _ _ (decision (cycle 0 90) new_engine)); [|exact cycle1].
  apply pr_new. exact new_engine_eq.
Qed.

Definition scale_out : Recommendation := default (refused (plain group zero_group_assessment "")) (head (dc_Transitions d3)).
Lemma d3_transitions : dc_Transitions d3 = [scale_out].
Proof. vm_compute. reflexivity. Qed.
Lemma scale_out_in : scale_out ∈ dc_Transitions d3.
Proof. rewrite d3_transitions. left. Qed.
Lemma scale_out_facts :
  rm_Action scale_out = ActionScaleOut /\ rm_GroupID scale_out = "orders" /\
  rm_ProposedMembership scale_out = ["b1"; "b2"].
Proof. vm_compute. done. Qed.

(** ** Witnesses *)
Lemma transitions_justified_witness :
  (exists agg g a, aggregate (cycle 60 90) e2 = Ok agg /\ g ∈ c_groups (cycle 60 90) /\ a ∈ ag_Groups agg /\
     ga_GroupID a = gr_ID g /\
     complete (c_now (cycle 60 90)) (c_snapshot (cycle 60 90)) (c_groups (cycle 60 90)) g /\
     justified (c_now (cycle 60 90)) (c_inventory (cycle 60 90)) (default 0 (en_pressure e3 !! gr_ID g)) g a
       scale_out) /\
  rm_ProposedMembership scale_out = ["b1"; "b2"].
Proof.
  split; [|apply scale_out_facts].
  exact (transitions_justified (cycle 60 90) e2 e3 d3 scale_out cycle3 scale_out_in).
Defined.

Lemma scale_out_sustained_witness :
  exists since, unbroken (gr_ID group) ((e2, cycle 60 90) :: history) since /\
    gp_PressureWindow (gr_Policy group) <= time_Sub (c_now (cycle 60 90)) since.
Proof.
  apply (scale_out_sustained demo_catalog demo_options e2 history (cycle 60 90) e3 d3 scale_out group).
  - exact e2_run.
  - exact cycle3.
  - exact scale_out_in.
  - exact (proj1 scale_out_facts).
  - left.
  - exact (proj1 (proj2 scale_out_facts)).
  - vm_compute. discriminate.
  - repeat constructor.
Defined.

Lemma transitions_bounded_witness :
  (llen (dc_Transitions d3) <=
     Z.max 0 (eo_MaxConcurrentTransitions demo_options - total_active (c_groups (cycle 60 90))) /\
   NoDup (rm_GroupID <$> dc_Transitions d3) /\
   (rm_GroupID <$> dc_Groups d3) = gr_ID <$> sort_by group_less (c_groups (cycle 60 90))) /\
  llen (dc_Transitions d3) = 1.
Proof.
  split; [|rewrite d3_transitions; reflexivity].
  apply (transitions_bounded demo_catalog demo_options e2 history (cycle 60 90) e3 d3 e2_run cycle3).
  - split; vm_compute; discriminate.
  - vm_compute. discriminate.
  - vm_compute. discriminate.
Defined.

(** The third cycle is hot. *)
Definition agg3 : Aggregation :=
  match aggregate (cycle 60 90) e2 with Ok agg => agg | Err _ => mkAggregation 0 [] [] end.
Definition ga3 : GroupAssessment := default zero_group_assessment (head (ag_Groups agg3)).
Definition ba3 : BrokerAssessment := default zero_assessment (head (ag_Brokers agg3)).
Lemma agg3_eq : aggregate (cycle 60 90) e2 = Ok agg3.
Proof. vm_compute. reflexivity. Qed.
Lemma agg3_groups : ag_Groups agg3 = [ga3].
Proof. vm_compute. reflexivity. Qed.
Lemma agg3_brokers : head (ag_Brokers agg3) = Some ba3.
Proof. vm_compute. reflexivity. Qed.
Lemma ga3_facts : ga_GroupID ga3 = "orders" /\ ga_State ga3 = TelemetryKnown /\
  ga_Pressure ga3 = PressureBrokerSaturation.
Proof. vm_compute. done. Qed.
Lemma ba3_facts : ba_BrokerID ba3 = "b1" /\ (en_lastAt e2 <? ba_ObservedAt ba3)%Z = true.
Proof. vm_compute. done. Qed.
Lemma ga3_in : ga3 ∈ ag_Groups agg3.
Proof. rewrite agg3_groups. left. Qed.
Lemma hot3 : hot e2 (cycle 60 90) (gr_ID group).
Proof.
  exists agg3, group, ga3. split; [exact agg3_eq|]. split; [left|]. split; [reflexivity|].
  split; [exact ga3_in|]. destruct ga3_facts as (H1 & H2 & H3). split; [exact H1|]. split; [exact H2|].
  split; [exact H3|]. right. intros b Hb. apply list_elem_of_singleton in Hb. subst b. exists ba3.
  split; [exact (head_Some_elem_of _ _ agg3_brokers)|]. destruct ba3_facts as [H4 H5].
  split; [exact H4|]. apply Z.ltb_lt. exact H5.
Qed.

Definition spare : Broker := mkBroker "b2" "enterprise" "10" true ["orders"].
Lemma spare_candidate : is_candidate group spare.
Proof.
  split; [intros H; apply list_elem_of_singleton in H; discriminate|]. split; [reflexivity|]. left.
Qed.

Lemma saturated_group_scales_out_witness :
  exists t, t ∈ dc_Transitions d3 /\ rm_GroupID t = gr_ID group /\ rm_Action t = ActionScaleOut.
Proof.
  apply (saturated_group_scales_out demo_catalog demo_options e2 history (cycle 60 90) e3 d3 group spare
    (clock 0) e2_run cycle3).
  - left.
  - exact hot3.
  - vm_compute. reflexivity.
  - vm_compute. discriminate.
  - reflexivity.
  - left. reflexivity.
  - split; vm_compute; [discriminate|reflexivity].
  - right. left.
  - exact spare_candidate.
  - split; vm_compute; discriminate.
  - vm_compute. discriminate.
  - vm_compute. discriminate.
Defined.

Lemma saturation_shared_witness :
  (ga_Pressure ga3 = PressureBrokerSaturation <->
   exists ba, ba ∈ ag_Brokers agg3 /\ ba_BrokerID ba ∈ gr_Membership group /\
     fleb (saturationThreshold (gr_Policy group)) (Peak (ba_SharedUtilization ba)) = true) /\
  ga_Pressure ga3 = PressureBrokerSaturation.
Proof.
  split; [|exact (proj2 (proj2 ga3_facts))].
  apply (saturation_shared [profile] demo_catalog (clock 60) (c_snapshot (cycle 60 90)) inventory [group]).
  - exact demo_catalog_eq.
  - exact agg3_eq.
  - left.
  - exact ga3_in.
  - exact (proj1 ga3_facts).
  - exact (proj1 (proj2 ga3_facts)).
Defined.

Lemma RestoreState_roundtrip_witness :
  RestoreState (engine_State e2) (clock 40) new_engine = (e2, nil_err) /\
  en_pressure e2 !! "orders" = Some (clock 0).
Proof.
  split; [|vm_compute; reflexivity].
  apply (RestoreState_roundtrip demo_catalog demo_options e2 history new_engine (clock 40) e2_run new_engine_eq).
  - vm_compute. discriminate.
  - vm_compute. discriminate.
Defined.

(** ** A group that is missing from a cycle *)
Definition g1 : Engine := step new_engine (cycle 0 90).
Definition g2 : Engine := step g1 (gap 1800 5).
Definition d_after_gap : Decision_ := decision (cycle 3600 90) g2.

(** A pressure window outlives the group: a cycle that does not list the
    group, here with an idle broker, leaves its window in place, so when the
    group is listed again a single saturated cycle is taken as the end of an
    hour of pressure and its scale-out is admitted. *)
Theorem window_outlives_group :
  evaluate (gap 1800 5) g1 = (g2, Ok (decision (gap 1800 5) g1)) /\
  en_pressure g1 !! "orders" = Some (clock 0) /\ en_pressure g2 !! "orders" = Some (clock 0) /\
  (ba_SharedUtilization <$> head (ag_Brokers (dc_Aggregation (decision (gap 1800 5) g1)))) =
    Some (utilization_max
      (utilization (mkResourcesValue (f_of_Z 5) (f_of_Z 1) (f_of_Z 1) (f_of_Z 1)) (cp_Limits profile))
      (utilization zero_value (cp_Limits profile))) /\
  (rm_GroupID <$> dc_Transitions d_after_gap) = ["orders"] /\
  (rm_Action <$> dc_Transitions d_after_gap) = [ActionScaleOut].
Proof. split_and!; vm_compute; reflexivity. Qed.
