(* ===== verification/Lane.v ===== *)
(** * Business-key lanes of the subscriber (shim/subscriber/subscriber.go)

    [Handle] serializes the deliveries of one scaling group and business hash
    on a lane: a ticket lock whose waiters sleep on channels, which a failed
    delivery blocks until [Retry] or [Release] settles it.  Lanes are created on
    demand and dropped when idle, so they are objects behind locations.

    Every region that runs under [lane.mu] or [lanesMu] is one definition, and
    [step] interleaves the regions of the goroutines that execute [Handle],
    [Retry] and [Release]. *)

From S2P Require Import Prelude Customer.
From Stdlib Require Import ZArith Lia.
From stdpp Require Import base gmap strings numbers option list.
#[local] Open Scope Z_scope.

(** ** Data *)

(** The fields of [Binding] that [Handle] and the lifecycle use. *)
Record Binding := mkBinding {
  b_Group : string;
  b_BrokerID : string;
  b_Endpoint : string;
  b_Epoch : Z;
  b_Destination : string;
}.
#[export] Instance Binding_eq_dec : EqDecision Binding.
Proof. solve_decision. Defined.

Record Contract := mkContract { ct_HashContract : string; ct_LibraryVersion : string }.
#[export] Instance Contract_eq_dec : EqDecision Contract.
Proof. solve_decision. Defined.

Record RoutingMetadata := mkRoutingMetadata {
  rm_Group : string;
  rm_BusinessHash : BusinessHash;
  rm_HashContract : string;
  rm_LibraryVersion : string;
  rm_Epoch : Z;
  rm_OriginalTopic : string;
}.

(** A transport's delivery: [dv_routing] is [None] when it is not a
    [RoutedDelivery], [dv_rejectable] says whether it is a
    [RejectableDelivery], [dv_id] tells deliveries apart. *)
Record Delivery (P : Type) := mkDelivery {
  dv_id : Z;
  dv_message : MessageView P;
  dv_routing : option (result RoutingMetadata);
  dv_rejectable : bool;
}.
Arguments mkDelivery {P}.
Arguments dv_id {P}.
Arguments dv_message {P}.
Arguments dv_routing {P}.
Arguments dv_rejectable {P}.

Record laneKey := mkLaneKey { lk_group : string; lk_hash : BusinessHash }.
#[export] Instance laneKey_eq_dec : EqDecision laneKey.
Proof. solve_decision. Defined.
#[export] Instance laneKey_countable : Countable laneKey.
Proof.
  refine (inj_countable' (fun k => (lk_group k, lk_hash k)) (fun '(g, h) => mkLaneKey g h) _).
  by intros [].
Defined.

Record blockedDelivery (P : Type) := mkBlocked { bl_delivery : Delivery P; bl_appSucceeded : bool }.
Arguments mkBlocked {P}.
Arguments bl_delivery {P}.
Arguments bl_appSucceeded {P}.

(** [waiters map[uint64]chan struct{}]: a ticket's channel is made once, with
    its ticket, so the map is the set of registered tickets and [ln_signals]
    holds the tickets whose one-place channel is full. *)
Record lane (P : Type) := mkLane {
  ln_waiters : gset Z;
  ln_signals : gset Z;
  ln_next : Z;
  ln_serving : Z;
  ln_users : Z;
  ln_blocked : option (blockedDelivery P);
}.
Arguments mkLane {P}.
Arguments ln_waiters {P}.
Arguments ln_signals {P}.
Arguments ln_next {P}.
Arguments ln_serving {P}.
Arguments ln_users {P}.
Arguments ln_blocked {P}.
#[export] Instance lane_eta P : Eta (lane P) := fun l =>
  mkLane (ln_waiters l) (ln_signals l) (ln_next l) (ln_serving l) (ln_users l) (ln_blocked l).

Definition ErrWrongScalingGroup : gerror := ErrNew "subscriber: message belongs to a different scaling group".
Definition ErrUnexpectedContract : gerror := ErrNew "subscriber: routing contract does not match configured expectation".
Definition ErrRoutingMetadata : gerror := ErrNew "subscriber: authoritative routing metadata is required".
Definition ErrNoBlockedDelivery : gerror := ErrNew "subscriber: business key has no blocked delivery".

(** ** Admission of a delivery *)

Definition validateContract (contracts : gmap string Contract) (group hashContract libraryVersion : string) : gerr :=
  match contracts !! group with
  | None => Err (ErrWrap "group is not configured" ErrUnexpectedContract)
  | Some expected =>
      fail_if (negb (str_eqb hashContract (ct_HashContract expected)) ||
               negb (str_eqb libraryVersion (ct_LibraryVersion expected)))
        (ErrWrap "contract mismatch" ErrUnexpectedContract)
  end.

(** [Handle] up to the choice of the lane. *)
Definition admit_delivery {P} (library : CustomerLibrary P) (contracts : gmap string Contract)
    (binding : Binding) (delivery : Delivery P) : result laneKey :=
  let message := dv_message delivery in
  let! group := wrap_err "subscriber: compute scaling group" (GetScalingGroup library message) in
  fail_if (negb (str_eqb group (b_Group binding))) (ErrWrap "binding" ErrWrongScalingGroup) ;;!
  let! hash := wrap_err "subscriber: compute business hash" (GetBusinessHash library message) in
  match dv_routing delivery with
  | None => Err ErrRoutingMetadata
  | Some routing =>
      let! metadata := wrap_err "subscriber: validate routing metadata" routing in
      fail_if (negb (str_eqb (rm_Group metadata) group) ||
               negb (bool_decide (rm_BusinessHash metadata = hash)) ||
               negb (rm_Epoch metadata =? b_Epoch binding))
        (ErrNew "subscriber: routing metadata does not match customer library and binding") ;;!
      fail_if (str_empty (rm_OriginalTopic metadata) || str_empty (rm_HashContract metadata) ||
               str_empty (rm_LibraryVersion metadata))
        (ErrNew "subscriber: routing metadata is incomplete") ;;!
      validateContract contracts group (rm_HashContract metadata) (rm_LibraryVersion metadata) ;;!
      fail_if (negb (str_empty (mv_Topic message)) &&
               negb (str_eqb (rm_OriginalTopic metadata) (mv_Topic message)))
        (ErrNew "subscriber: original topic metadata does not match delivered topic") ;;!
      Ok (mkLaneKey group (rm_BusinessHash metadata))
  end.

(** ** Regions under [lane.mu] *)
Section Lane.
Context {P : Type}.
Implicit Types l : lane P.

Fixpoint notify_loop (fuel : nat) l : lane P :=
  match fuel with
  | O => l
  | S fuel =>
      if ln_serving l <? ln_next l then
        if bool_decide (ln_serving l ∈ ln_waiters l) then
          l <| ln_waiters := ln_waiters l ∖ {[ln_serving l]} |>
            <| ln_signals := ln_signals l ∪ {[ln_serving l]} |>
        else notify_loop fuel (l <| ln_serving := u64 (ln_serving l + 1) |>)
      else l
  end.

(** Each pass but the last increments [serving], which stays below [next]. *)
Definition notifyServing l : lane P :=
  match ln_blocked l with
  | Some _ => l
  | None => notify_loop (Z.to_nat (ln_next l - ln_serving l)) l
  end.

Definition finishTurn (ticket : Z) l : lane P :=
  notifyServing (if ticket =? ln_serving l then l <| ln_serving := u64 (ln_serving l + 1) |> else l).

(** One pass of the loop of [waitForTurn], from [Lock] to the [select]. *)
Inductive turn := TurnErr | TurnReady | TurnWait (wait : bool).

Definition my_turn (ticket : Z) l : bool :=
  (ticket =? ln_serving l) && bool_decide (ln_blocked l = None).

Definition waitForTurn (ctx_err : bool) (ticket : Z) l : lane P * turn :=
  if ctx_err then
    let l := l <| ln_waiters := ln_waiters l ∖ {[ticket]} |> in
    (if my_turn ticket l then notifyServing (l <| ln_serving := u64 (ln_serving l + 1) |>) else l, TurnErr)
  else if my_turn ticket l then (l <| ln_waiters := ln_waiters l ∖ {[ticket]} |>, TurnReady)
  else (l, TurnWait (bool_decide (ticket ∈ ln_waiters l))).

(** [acquireLane] on the lane it found or made. *)
Definition take_ticket l : lane P :=
  l <| ln_next := u64 (ln_next l + 1) |> <| ln_users := ln_users l + 1 |>
    <| ln_waiters := ln_waiters l ∪ {[ln_next l]} |>.

Definition new_lane : lane P := mkLane ∅ ∅ 0 0 0 None.

(** [Retry] under [lane.mu]; [handled] and [acked] are what the application
    and the transport answer if they are called. *)
Definition retry_blocked (handled acked : gerr) l : lane P * gerr :=
  match ln_blocked l with
  | None => (l, Err ErrNoBlockedDelivery)
  | Some blocked =>
      match (if bl_appSucceeded blocked then nil_err else handled) with
      | Err e => (l, Err (ErrWrap "subscriber: application retry failed" e))
      | Ok _ =>
          match acked with
          | Err e =>
              (l <| ln_blocked := Some (mkBlocked (bl_delivery blocked) true) |>,
               Err (ErrWrap "subscriber: acknowledge retried delivery" e))
          | Ok _ => (notifyServing (l <| ln_blocked := None |>), nil_err)
          end
      end
  end.

(** [Release] under [lane.mu]. *)
Definition release_blocked (rejected : gerr) l : lane P * gerr :=
  match ln_blocked l with
  | None => (l, Err ErrNoBlockedDelivery)
  | Some blocked =>
      if dv_rejectable (bl_delivery blocked) then
        match rejected with
        | Err e => (l, Err (ErrWrap "subscriber: reject released delivery" e))
        | Ok _ => (notifyServing (l <| ln_blocked := None |>), nil_err)
        end
      else (l, Err (ErrNew "subscriber: delivery does not support explicit rejection"))
  end.
End Lane.

(** ** Goroutines *)
Abbreviation laneLoc := positive (only parsing).

(** What a call returns: a [DeliveryError] with [Retained] set, or any other
    error or nil. *)
Inductive outcome := Done (e : gerr) | Retained (e : gerror).
#[export] Instance outcome_eq_dec : EqDecision outcome.
Proof. solve_decision. Defined.

Definition RetainedDelivery (r : outcome) : bool :=
  match r with Retained _ => true | Done _ => false end.

Definition context_err : gerror := ErrNew "context canceled".

(** Where a goroutine stands between two regions. *)
Inductive pc :=
| AtTurn                      (* before a pass of [waitForTurn] *)
| InSelect (wait : bool)      (* in its [select]; [false] is a nil channel *)
| InHandler                   (* in the application's [Handle] *)
| InAck                       (* in [Ack] *)
| AtFinish (r : outcome)      (* before the deferred [finishTurn] *)
| AtSettle (release : bool)   (* [Retry] or [Release], before [lane.mu] *)
| AtRelease (r : outcome).    (* before [releaseLane], which returns [r] *)
#[export] Instance pc_eq_dec : EqDecision pc.
Proof. solve_decision. Defined.

Record proc (P : Type) := mkProc {
  pr_key : laneKey;
  pr_lane : laneLoc;
  pr_ticket : Z;
  pr_delivery : option (Delivery P);
  pr_cancelled : bool;
  pr_pc : pc;
}.
Arguments mkProc {P}.
Arguments pr_key {P}.
Arguments pr_lane {P}.
Arguments pr_ticket {P}.
Arguments pr_delivery {P}.
Arguments pr_cancelled {P}.
Arguments pr_pc {P}.
#[export] Instance proc_eta P : Eta (proc P) := fun p =>
  mkProc (pr_key p) (pr_lane p) (pr_ticket p) (pr_delivery p) (pr_cancelled p) (pr_pc p).

(** [sy_lanes] is [Shim.lanes], [sy_heap] the lane objects, [sy_procs] the
    goroutines, numbered in the order they took [lanesMu]; [sy_started] lists
    the deliveries handed to the application and [sy_returned] the results of
    the calls that returned, newest first. *)
Record sys (P : Type) := mkSys {
  sy_lanes : gmap laneKey laneLoc;
  sy_heap : gmap laneLoc (lane P);
  sy_procs : gmap Z (proc P);
  sy_clock : Z;
  sy_started : list (laneKey * Z);
  sy_returned : list (Z * outcome);
}.
Arguments mkSys {P}.
Arguments sy_lanes {P}.
Arguments sy_heap {P}.
Arguments sy_procs {P}.
Arguments sy_clock {P}.
Arguments sy_started {P}.
Arguments sy_returned {P}.
#[export] Instance sys_eta P : Eta (sys P) := fun s =>
  mkSys (sy_lanes s) (sy_heap s) (sy_procs s) (sy_clock s) (sy_started s) (sy_returned s).

Definition idle_sys {P} : sys P := mkSys ∅ ∅ ∅ 0 [] [].

Inductive label (P : Type) :=
| LHandle (binding : Binding) (delivery : Delivery P)
| LSettleStart (release : bool) (key : laneKey)
| LCancel (g : Z)
| LTurn (g : Z)
| LWake (g : Z) (signal : bool)
| LHandled (g : Z) (answer : gerr)
| LAcked (g : Z) (answer : gerr)
| LFinish (g : Z)
| LSettle (g : Z) (handled settled : gerr)
| LRelease (g : Z).
Arguments LHandle {P}.
Arguments LSettleStart {P}.
Arguments LCancel {P}.
Arguments LTurn {P}.
Arguments LWake {P}.
Arguments LHandled {P}.
Arguments LAcked {P}.
Arguments LFinish {P}.
Arguments LSettle {P}.
Arguments LRelease {P}.

Section System.
Context {P : Type} (library : CustomerLibrary P) (contracts : gmap string Contract).
Implicit Types (s : sys P) (l : lane P) (p : proc P).

(** Goroutine [g] goes on at [p], its lane now [l]. *)
Definition advance (g : Z) p l s : sys P :=
  s <| sy_heap := <[pr_lane p := l]> (sy_heap s) |> <| sy_procs := <[g := p]> (sy_procs s) |>.

(** The lane of a key, made when there is none. *)
Definition find_lane (key : laneKey) s : laneLoc * lane P :=
  match sy_lanes s !! key with
  | Some loc => (loc, default new_lane (sy_heap s !! loc))
  | None => (fresh (dom (sy_heap s)), new_lane)
  end.

Definition acquireLane (key : laneKey) (delivery : Delivery P) s : sys P :=
  let '(loc, l) := find_lane key s in
  mkSys (<[key := loc]> (sy_lanes s)) (<[loc := take_ticket l]> (sy_heap s))
    (<[sy_clock s := mkProc key loc (ln_next l) (Some delivery) false AtTurn]> (sy_procs s))
    (sy_clock s + 1) (sy_started s) (sy_returned s).

(** A call that returns before it has a lane. *)
Definition refuse (e : gerror) s : sys P :=
  s <| sy_clock := sy_clock s + 1 |> <| sy_returned := (sy_clock s, Done (Err e)) :: sy_returned s |>.

(** [acquireExistingLane] for [Retry] and [Release], which return
    [ErrNoBlockedDelivery] when there is no lane. *)
Definition acquireExistingLane (release : bool) (key : laneKey) s : sys P :=
  match sy_lanes s !! key with
  | None => refuse ErrNoBlockedDelivery s
  | Some loc =>
      let l := default new_lane (sy_heap s !! loc) in
      mkSys (sy_lanes s) (<[loc := l <| ln_users := ln_users l + 1 |>]> (sy_heap s))
        (<[sy_clock s := mkProc key loc 0 None false (AtSettle release)]> (sy_procs s))
        (sy_clock s + 1) (sy_started s) (sy_returned s)
  end.

(** [releaseLane], after which the call returns. *)
Definition releaseLane (g : Z) (r : outcome) p l s : sys P :=
  let l := l <| ln_users := ln_users l - 1 |> in
  let idle := (ln_users l =? 0) && bool_decide (ln_blocked l = None) in
  mkSys
    (if idle && bool_decide (sy_lanes s !! pr_key p = Some (pr_lane p))
     then delete (pr_key p) (sy_lanes s) else sy_lanes s)
    (<[pr_lane p := l]> (sy_heap s)) (delete g (sy_procs s)) (sy_clock s) (sy_started s)
    ((g, r) :: sy_returned s).

(** [Handle] retains the delivery. *)
Definition retain (appSucceeded : bool) p l : lane P :=
  match pr_delivery p with
  | Some d => l <| ln_blocked := Some (mkBlocked d appSucceeded) |>
  | None => l
  end.

(** What a goroutine at a label's program point does. *)
Definition proc_step (lb : label P) (g : Z) p l s : option (sys P) :=
  match lb, pr_pc p with
  | LCancel _, _ => Some (advance g (p <| pr_cancelled := true |>) l s)
  | LTurn _, AtTurn =>
      let '(l, t) := waitForTurn (pr_cancelled p) (pr_ticket p) l in
      match t with
      | TurnErr => Some (advance g (p <| pr_pc := AtRelease (Done (Err context_err)) |>) l s)
      | TurnReady =>
          Some (advance g (p <| pr_pc := InHandler |>) l s
                  <| sy_started := (pr_key p, g) :: sy_started s |>)
      | TurnWait wait => Some (advance g (p <| pr_pc := InSelect wait |>) l s)
      end
  | LWake _ signal, InSelect wait =>
      if signal then
        if wait && bool_decide (pr_ticket p ∈ ln_signals l) then
          Some (advance g (p <| pr_pc := AtTurn |>)
                  (l <| ln_signals := ln_signals l ∖ {[pr_ticket p]} |>) s)
        else None
      else if pr_cancelled p then Some (advance g (p <| pr_pc := AtTurn |>) l s) else None
  | LHandled _ answer, InHandler =>
      match answer with
      | Ok _ => Some (advance g (p <| pr_pc := InAck |>) l s)
      | Err e =>
          Some (advance g
            (p <| pr_pc := AtFinish (Retained (ErrWrap "subscriber: application handling failed" e)) |>)
            (retain false p l) s)
      end
  | LAcked _ answer, InAck =>
      match answer with
      | Ok _ => Some (advance g (p <| pr_pc := AtFinish (Done nil_err) |>) l s)
      | Err e =>
          Some (advance g
            (p <| pr_pc := AtFinish (Retained (ErrWrap "subscriber: acknowledge delivery" e)) |>)
            (retain true p l) s)
      end
  | LFinish _, AtFinish r =>
      Some (advance g (p <| pr_pc := AtRelease r |>) (finishTurn (pr_ticket p) l) s)
  | LSettle _ handled settled, AtSettle release =>
      let '(l, e) := if release then release_blocked settled l else retry_blocked handled settled l in
      Some (advance g (p <| pr_pc := AtRelease (Done e) |>) l s)
  | LRelease _, AtRelease r => Some (releaseLane g r p l s)
  | _, _ => None
  end.

Definition label_proc (lb : label P) : option Z :=
  match lb with
  | LHandle _ _ | LSettleStart _ _ => None
  | LCancel g | LTurn g | LWake g _ | LHandled g _ | LAcked g _ | LFinish g | LSettle g _ _ | LRelease g => Some g
  end.

Definition step (lb : label P) s : option (sys P) :=
  match lb with
  | LHandle binding delivery =>
      match admit_delivery library contracts binding delivery with
      | Ok key => Some (acquireLane key delivery s)
      | Err e => Some (refuse e s)
      end
  | LSettleStart release key => Some (acquireExistingLane release key s)
  | _ =>
      g ← label_proc lb; p ← sy_procs s !! g; l ← sy_heap s !! pr_lane p;
      proc_step lb g p l s
  end.

(** [Retry] or [Release] settling a delivery while the [Handle] that retained
    it has not yet reached its deferred [finishTurn]. *)
Definition finishing (c : pc) : bool :=
  match c with AtFinish r => RetainedDelivery r | _ => false end.

Definition unfinished (loc : laneLoc) s : bool :=
  existsb (fun gp => bool_decide (pr_lane gp.2 = loc) && finishing (pr_pc gp.2))
    (map_to_list (sy_procs s)).

Definition early (lb : label P) s : bool :=
  match lb with
  | LSettle g _ _ =>
      match sy_procs s !! g with Some p => unfinished (pr_lane p) s | None => false end
  | _ => false
  end.

Fixpoint exec (run : list (label P)) s : option (sys P) :=
  match run with
  | [] => Some s
  | lb :: run => s' ← step lb s; exec run s'
  end.

(** Runs in which no delivery is settled that early. *)
Inductive reach : Z -> sys P -> Prop :=
| reach_idle : reach 0 idle_sys
| reach_step n s lb s' : reach n s -> early lb s = false -> step lb s = Some s' -> reach (n + 1) s'.
End System.
