(* ===== verification/LaneInv.v ===== *)
(** * Invariant of one lane

    [lane_ok] relates a lane object to the goroutines that use it: tickets are
    handed out in the order of arrival, the one being served belongs to a
    goroutine, only that goroutine has the turn, and a sleeping goroutine is
    registered or has a signal to read.  Every region of Lane.v keeps it. *)

From S2P Require Import Prelude Customer Lane.
From Stdlib Require Import ZArith Lia.
From stdpp Require Import base gmap strings numbers option list.
#[local] Open Scope Z_scope.

Definition waiting (c : pc) : bool :=
  match c with AtTurn | InSelect _ => true | _ => false end.
Definition has_turn (c : pc) : bool :=
  match c with InHandler | InAck | AtFinish _ => true | _ => false end.
Definition ticketed (c : pc) : bool := waiting c || has_turn c.

Section LaneInv.
Context {P : Type}.
Implicit Types (l : lane P) (p : proc P) (Q : gmap Z (proc P)).

Record lane_ok Q l : Prop := {
  lo_range : 0 <= ln_serving l <= ln_next l;
  lo_ticket : forall g p, Q !! g = Some p -> ticketed (pr_pc p) = true ->
    ln_serving l <= pr_ticket p < ln_next l;
  lo_order : forall g1 p1 g2 p2, Q !! g1 = Some p1 -> Q !! g2 = Some p2 ->
    ticketed (pr_pc p1) = true -> ticketed (pr_pc p2) = true -> g1 < g2 -> pr_ticket p1 < pr_ticket p2;
  lo_waiters : forall t, t ∈ ln_waiters l ->
    exists g p, Q !! g = Some p /\ waiting (pr_pc p) = true /\ pr_ticket p = t;
  lo_waiting : forall g p, Q !! g = Some p -> waiting (pr_pc p) = true ->
    pr_ticket p ∈ ln_waiters l \/
    (pr_ticket p = ln_serving l /\ ln_blocked l = None /\
     (forall w, pr_pc p = InSelect w -> pr_ticket p ∈ ln_signals l));
  lo_select : forall g p w, Q !! g = Some p -> pr_pc p = InSelect w ->
    w = true /\ (pr_ticket p ∈ ln_waiters l -> pr_ticket p = ln_serving l -> ln_blocked l <> None);
  lo_turn : forall g p, Q !! g = Some p -> has_turn (pr_pc p) = true -> pr_ticket p = ln_serving l;
  lo_blocked : forall g p, Q !! g = Some p -> has_turn (pr_pc p) = true ->
    if finishing (pr_pc p)
    then exists b, ln_blocked l = Some b /\ pr_delivery p = Some (bl_delivery b)
    else ln_blocked l = None;
  lo_served : ln_blocked l = None -> ln_serving l < ln_next l ->
    exists g p, Q !! g = Some p /\ ticketed (pr_pc p) = true /\ pr_ticket p = ln_serving l;
  lo_users : ln_users l = Z.of_nat (size Q);
  lo_delivery : forall g p, Q !! g = Some p -> ticketed (pr_pc p) = true -> is_Some (pr_delivery p);
}.

Lemma new_lane_ok : lane_ok ∅ new_lane.
Proof. split; cbn; intros; try done; try lia; set_solver. Qed.

Lemma waiting_ticketed c : waiting c = true -> ticketed c = true.
Proof. unfold ticketed. by intros ->. Qed.
Lemma has_turn_ticketed c : has_turn c = true -> ticketed c = true.
Proof. unfold ticketed. intros ->. by rewrite orb_true_r. Qed.
#[local] Hint Resolve waiting_ticketed has_turn_ticketed : core.

Lemma ticket_unique Q l g1 p1 g2 p2 :
  lane_ok Q l -> Q !! g1 = Some p1 -> Q !! g2 = Some p2 ->
  ticketed (pr_pc p1) = true -> ticketed (pr_pc p2) = true -> pr_ticket p1 = pr_ticket p2 ->
  g1 = g2 /\ p1 = p2.
Proof.
  intros H H1 H2 T1 T2 E. assert (g1 = g2) as <-; [|by simplify_eq].
  destruct (Z.lt_trichotomy g1 g2) as [C|[C|C]]; [|done|].
  - pose proof (lo_order _ _ H _ _ _ _ H1 H2 T1 T2 C). lia.
  - pose proof (lo_order _ _ H _ _ _ _ H2 H1 T2 T1 C). lia.
Qed.

(** ** Handing over the turn *)

(** Between [serving++] or [blocked = nil] and [notifyServing]: nobody has the
    turn and everyone who waits is registered. *)
Record lane_gap Q l : Prop := {
  lg_range : 0 <= ln_serving l <= ln_next l;
  lg_turn : forall g p, Q !! g = Some p -> has_turn (pr_pc p) = false;
  lg_ticket : forall g p, Q !! g = Some p -> waiting (pr_pc p) = true ->
    ln_serving l <= pr_ticket p < ln_next l /\ pr_ticket p ∈ ln_waiters l /\
    forall w, pr_pc p = InSelect w -> w = true;
  lg_order : forall g1 p1 g2 p2, Q !! g1 = Some p1 -> Q !! g2 = Some p2 ->
    waiting (pr_pc p1) = true -> waiting (pr_pc p2) = true -> g1 < g2 -> pr_ticket p1 < pr_ticket p2;
  lg_waiters : forall t, t ∈ ln_waiters l ->
    exists g p, Q !! g = Some p /\ waiting (pr_pc p) = true /\ pr_ticket p = t;
  lg_users : ln_users l = Z.of_nat (size Q);
  lg_delivery : forall g p, Q !! g = Some p -> waiting (pr_pc p) = true -> is_Some (pr_delivery p);
}.

(** What the loop of [notifyServing] does: it skips tickets nobody waits for
    and wakes the first that is registered. *)
Inductive notified l : lane P -> Prop :=
| notified_none : (forall t, ln_serving l <= t < ln_next l -> t ∉ ln_waiters l) ->
    notified l (l <| ln_serving := ln_next l |>)
| notified_some v : ln_serving l <= v < ln_next l -> v ∈ ln_waiters l ->
    (forall t, ln_serving l <= t < v -> t ∉ ln_waiters l) ->
    notified l (l <| ln_serving := v |> <| ln_waiters := ln_waiters l ∖ {[v]} |>
                  <| ln_signals := ln_signals l ∪ {[v]} |>).

Lemma notified_end l : ln_serving l = ln_next l -> notified l l.
Proof.
  intros E. pose proof (notified_none l) as H.
  assert (l <| ln_serving := ln_next l |> = l) as E' by (rewrite <- E; by destruct l).
  rewrite E' in H. apply H. lia.
Qed.

Lemma notify_loop_spec fuel l :
  0 <= ln_serving l <= ln_next l -> ln_next l <= max_u64 ->
  ln_next l - ln_serving l <= Z.of_nat fuel -> notified l (notify_loop fuel l).
Proof.
  revert l. induction fuel as [|fuel IH]; intros l Hr Hm Hf; cbn [notify_loop].
  - apply notified_end. lia.
  - destruct (Z.ltb_spec (ln_serving l) (ln_next l)) as [Hlt|Hge].
    + case_bool_decide as Hw.
      * pose proof (notified_some l (ln_serving l)) as N. unfold setter in *. cbn in *.
        apply N; [lia|done|lia].
      * assert (E : u64 (ln_serving l + 1) = ln_serving l + 1) by (apply u64_id; unfold in_u64; lia).
        rewrite E. specialize (IH (l <| ln_serving := ln_serving l + 1 |>)).
        unfold setter in *. cbn in *. destruct IH as [Hn|v Hv Hin Hn]; cbn in *; [lia..| |].
        -- apply (notified_none l). intros t Ht. destruct (decide (t = ln_serving l)) as [->|]; [done|].
           apply Hn. lia.
        -- apply (notified_some l v); [lia|done|]. intros t Ht.
           destruct (decide (t = ln_serving l)) as [->|]; [done|]. apply Hn. lia.
    + apply notified_end. lia.
Qed.

Lemma no_turn_ticketed Q l g p :
  lane_gap Q l -> Q !! g = Some p -> ticketed (pr_pc p) = true -> waiting (pr_pc p) = true.
Proof.
  intros H Hg. unfold ticketed. rewrite (lg_turn _ _ H _ _ Hg), orb_false_r. done.
Qed.

Lemma gap_ok Q l : lane_gap Q l -> ln_next l <= max_u64 -> lane_ok Q (notifyServing l).
Proof.
  intros H Hm. pose proof (fun g p => no_turn_ticketed Q l g p H) as Hnt. destruct H as [Hr Ht Hk Ho Hw Hu Hd].
  assert (Hno : forall g p, Q !! g = Some p -> has_turn (pr_pc p) = true -> False).
  { intros g p Hg T. by rewrite (Ht _ _ Hg) in T. }
  unfold notifyServing. destruct (ln_blocked l) as [b|] eqn:Eb.
  - split; try done; try congruence.
    + intros g p Hg T. apply (Hk g p Hg). by eapply Hnt.
    + intros g1 p1 g2 p2 H1 H2 T1 T2. eapply Ho; eauto.
    + intros g p Hg C. left. apply (Hk g p Hg C).
    + intros g p w Hg C. split; [|by rewrite Eb]. eapply (Hk g p Hg); [by rewrite C|done].
    + intros g p Hg T. by destruct (Hno _ _ Hg T).
    + intros g p Hg T. by destruct (Hno _ _ Hg T).
    + intros g p Hg T. eapply Hd; [done|]. by eapply Hnt.
  - destruct (notify_loop_spec (Z.to_nat (ln_next l - ln_serving l)) l) as [Hn|v Hv Hin Hn]; [lia..| |].
    + assert (Hnone : forall g p, Q !! g = Some p -> ticketed (pr_pc p) = true -> False).
      { intros g p Hg E. destruct (Hk g p Hg) as (K1 & K2 & _); [by eapply Hnt|]. by eapply Hn. }
      split; cbn; try done; try lia.
      * intros g p Hg T. by destruct (Hnone _ _ Hg T).
      * intros g1 p1 g2 p2 H1 H2 T1. by destruct (Hnone _ _ H1 T1).
      * intros g p Hg T. by destruct (Hnone _ _ Hg (waiting_ticketed _ T)).
      * intros g p w Hg T. destruct (Hnone _ _ Hg). by rewrite T.
      * intros g p Hg T. by destruct (Hno _ _ Hg T).
      * intros g p Hg T. by destruct (Hno _ _ Hg T).
      * intros g p Hg T. by destruct (Hnone _ _ Hg T).
    + assert (Hge : forall g p, Q !! g = Some p -> waiting (pr_pc p) = true -> v <= pr_ticket p < ln_next l).
      { intros g p Hg E. destruct (Hk g p Hg E) as (K1 & K2 & _).
        destruct (Z_lt_le_dec (pr_ticket p) v); [|lia]. exfalso. eapply Hn, K2. lia. }
      split; cbn.
      * lia.
      * intros g p Hg T. eapply Hge; eauto.
      * intros g1 p1 g2 p2 H1 H2 T1 T2. eapply Ho; eauto.
      * intros t Hti. apply Hw. set_solver.
      * intros g p Hg T. destruct (Hk _ _ Hg T) as (K1 & K2 & _).
        destruct (decide (pr_ticket p = v)) as [->|]; [right|left]; set_solver.
      * intros g p w Hg T. destruct (Hk g p Hg) as (K1 & K2 & K3); [by rewrite T|].
        split; [by eapply K3|]. set_solver.
      * intros g p Hg T. by destruct (Hno _ _ Hg T).
      * intros g p Hg T. by destruct (Hno _ _ Hg T).
      * intros _ _. destruct (Hw v Hin) as (g & p & ? & ? & ?). exists g, p. eauto.
      * done.
      * intros g p Hg T. eapply Hd; eauto.
Qed.

(** ** Steps of a goroutine that keeps its place in the queue *)

Lemma size_update Q g p p' : Q !! g = Some p -> size (<[g := p']> Q) = size Q.
Proof. intros H. by rewrite map_size_insert, H. Qed.

Lemma ok_move Q l g p p' :
  lane_ok Q l -> Q !! g = Some p ->
  pr_ticket p' = pr_ticket p -> pr_delivery p' = pr_delivery p ->
  waiting (pr_pc p') = waiting (pr_pc p) -> has_turn (pr_pc p') = has_turn (pr_pc p) ->
  finishing (pr_pc p') = finishing (pr_pc p) ->
  (forall w, pr_pc p' = InSelect w -> w = true /\
     (pr_ticket p ∈ ln_waiters l -> pr_ticket p = ln_serving l -> ln_blocked l <> None) /\
     (pr_ticket p ∉ ln_waiters l -> pr_ticket p ∈ ln_signals l)) ->
  lane_ok (<[g := p']> Q) l.
Proof.
  intros H Hg Et Ed Ew Eh Ef Hs.
  assert (Hlk : forall g0 q, <[g := p']> Q !! g0 = Some q -> exists q', Q !! g0 = Some q' /\
    pr_ticket q = pr_ticket q' /\ pr_delivery q = pr_delivery q' /\ waiting (pr_pc q) = waiting (pr_pc q') /\
    has_turn (pr_pc q) = has_turn (pr_pc q') /\ finishing (pr_pc q) = finishing (pr_pc q') /\
    (forall w, pr_pc q = InSelect w -> w = true /\
       (pr_ticket q' ∈ ln_waiters l -> pr_ticket q' = ln_serving l -> ln_blocked l <> None) /\
       (pr_ticket q' ∉ ln_waiters l -> pr_ticket q' ∈ ln_signals l))).
  { intros g0 q [[<- <-]|[_ Hq]]%lookup_insert_Some; [by eauto 10|]. exists q. split_and!; try done.
    intros w E. destruct (lo_select _ _ H _ _ _ Hq E). split_and!; [done..|]. intros Hn.
    destruct (lo_waiting _ _ H _ _ Hq) as [?|(_ & _ & Hx)]; [by rewrite E|done|eauto]. }
  assert (Hex : forall g0 q, Q !! g0 = Some q -> exists q', <[g := p']> Q !! g0 = Some q' /\
    waiting (pr_pc q') = waiting (pr_pc q) /\ has_turn (pr_pc q') = has_turn (pr_pc q) /\ pr_ticket q' = pr_ticket q).
  { intros g0 q Hq. destruct (decide (g = g0)) as [<-|].
    - exists p'. rewrite lookup_insert_eq. by simplify_eq.
    - exists q. by rewrite lookup_insert_ne. }
  split.
  - apply H.
  - intros g0 q (q' & Hq & -> & _ & E1 & E2 & _)%Hlk. unfold ticketed. rewrite E1, E2. apply (lo_ticket _ _ H g0 _ Hq).
  - intros g1 q1 g2 q2 (q1' & H1 & -> & _ & E1 & E2 & _)%Hlk (q2' & H2 & -> & _ & E3 & E4 & _)%Hlk.
    unfold ticketed. rewrite E1, E2, E3, E4. apply (lo_order _ _ H g1 _ g2 _ H1 H2).
  - intros t (g0 & q & Hq & W & <-)%(lo_waiters _ _ H). destruct (Hex _ _ Hq) as (q' & Hq' & E1 & E2 & E3).
    exists g0, q'. by rewrite E1, E3.
  - intros g0 q (q' & Hq & -> & _ & -> & _ & _ & S)%Hlk W.
    destruct (decide (pr_ticket q' ∈ ln_waiters l)) as [|Hn]; [by left|right].
    destruct (lo_waiting _ _ H g0 _ Hq W) as [?|(? & ? & _)]; [done|]. split_and!; [done..|].
    intros w E. by apply (S w E).
  - intros g0 q w (q' & Hq & -> & _ & _ & _ & _ & S)%Hlk E. destruct (S w E) as (? & ? & ?). done.
  - intros g0 q (q' & Hq & -> & _ & _ & -> & _)%Hlk. by apply (lo_turn _ _ H g0).
  - intros g0 q (q' & Hq & _ & -> & _ & -> & -> & _)%Hlk. by apply (lo_blocked _ _ H g0).
  - intros Hb Hlt. destruct (lo_served _ _ H Hb Hlt) as (g0 & q & Hq & W & <-).
    destruct (Hex _ _ Hq) as (q' & Hq' & E1 & E2 & E3). exists g0, q'. unfold ticketed. by rewrite E1, E2, E3.
  - rewrite (size_update _ _ _ _ Hg). apply H.
  - intros g0 q (q' & Hq & _ & -> & E1 & E2 & _)%Hlk. unfold ticketed. rewrite E1, E2. apply (lo_delivery _ _ H g0 _ Hq).
Qed.

(** Reading the signal of a channel nobody else reads. *)
Lemma ok_signals Q l t :
  lane_ok Q l -> (forall g p w, Q !! g = Some p -> pr_pc p = InSelect w -> pr_ticket p <> t) ->
  lane_ok Q (l <| ln_signals := ln_signals l ∖ {[t]} |>).
Proof.
  intros [] Ht. split; cbn; try done. intros g p Hg W.
  destruct (lo_waiting0 g p Hg W) as [?|(? & ? & S)]; [by left|right]. split_and!; [done..|].
  intros w E. pose proof (S w E). pose proof (Ht g p w Hg E). set_solver.
Qed.

(** The delivery of the goroutine that has the turn is retained. *)
Lemma ok_retain Q l g p c d b :
  lane_ok Q l -> Q !! g = Some p -> has_turn (pr_pc p) = true -> finishing c = true ->
  pr_delivery p = Some d ->
  lane_ok (<[g := p <| pr_pc := c |>]> Q) (l <| ln_blocked := Some (mkBlocked d b) |>).
Proof.
  intros H Hg T F Hd. set (p' := p <| pr_pc := c |>).
  assert (Tc : ticketed c = true) by (by destruct c as [| | | |[]| |]).
  assert (Wc : waiting c = false) by (by destruct c as [| | | |[]| |]).
  assert (Wp : waiting (pr_pc p) = false) by (by destruct (pr_pc p)).
  assert (Hne : forall g0 q, Q !! g0 = Some q -> g <> g0 -> ticketed (pr_pc q) = true -> pr_ticket q <> pr_ticket p).
  { intros g0 q Hq Hn Tq E. destruct (ticket_unique _ _ _ _ _ _ H Hg Hq) as [? _]; eauto. }
  split; cbn; try (by apply H).
  - intros g0 q [[<- <-]|[_ Hq]]%lookup_insert_Some T0; [apply (lo_ticket _ _ H g p Hg); eauto|].
    by apply (lo_ticket _ _ H g0).
  - intros g1 q1 g2 q2 [[<- <-]|[_ H1]]%lookup_insert_Some [[<- <-]|[_ H2]]%lookup_insert_Some T1 T2 Hlt; [lia|..].
    + apply (lo_order _ _ H g p g2 q2); eauto.
    + apply (lo_order _ _ H g1 q1 g p); eauto.
    + by apply (lo_order _ _ H g1 q1 g2 q2).
  - intros t (g0 & q & Hq & W & <-)%(lo_waiters _ _ H). exists g0, q.
    rewrite lookup_insert_ne by congruence. done.
  - intros g0 q [[<- <-]|[Hn Hq]]%lookup_insert_Some W; [cbn in W; congruence|].
    destruct (lo_waiting _ _ H g0 _ Hq W) as [?|(E & _)]; [by left|]. exfalso.
    apply (Hne g0 q); eauto. rewrite E. symmetry. by apply (lo_turn _ _ H g).
  - intros g0 q w [[<- <-]|[Hn Hq]]%lookup_insert_Some E; [cbn in E; by subst c|].
    split; [|done]. by eapply (lo_select _ _ H g0).
  - intros g0 q [[<- <-]|[_ Hq]]%lookup_insert_Some T0; [by apply (lo_turn _ _ H g p Hg)|]. by apply (lo_turn _ _ H g0).
  - intros g0 q [[<- <-]|[Hn Hq]]%lookup_insert_Some T0; [cbn; rewrite F; eauto|]. exfalso.
    apply (Hne g0 q); eauto. by rewrite (lo_turn _ _ H g p), (lo_turn _ _ H g0 q).
  - done.
  - rewrite (size_update Q g p p' Hg). apply H.
  - intros g0 q [[<- <-]|[_ Hq]]%lookup_insert_Some T0; [apply (lo_delivery _ _ H g p Hg); eauto|].
    by apply (lo_delivery _ _ H g0).
Qed.
End LaneInv.

(** ** Regions that move the queue of a lane

    Taking a ticket, taking the turn, leaving the queue, finishing a turn,
    settling a retained delivery and dropping the lane keep [lane_ok]. *)

Section LaneSteps.
Context {P : Type}.
Implicit Types (l : lane P) (p : proc P) (Q : gmap Z (proc P)).
#[local] Hint Resolve waiting_ticketed has_turn_ticketed : core.

Lemma other_ticket Q l g p g' q :
  lane_ok Q l -> Q !! g = Some p -> ticketed (pr_pc p) = true -> Q !! g' = Some q ->
  ticketed (pr_pc q) = true -> g <> g' -> pr_ticket q <> pr_ticket p.
Proof. intros H Hg T Hq Tq Hn E. destruct (ticket_unique _ _ _ _ _ _ H Hg Hq T Tq); done. Qed.

(** The goroutine whose ticket is served leaves, in its own pass of
    [waitForTurn] or in [finishTurn]. *)
Lemma gap_leave Q l l' g p p' :
  lane_ok Q l -> Q !! g = Some p -> ticketed (pr_pc p) = true -> pr_ticket p = ln_serving l ->
  ticketed (pr_pc p') = false ->
  ln_serving l' = ln_serving l + 1 -> ln_next l' = ln_next l -> ln_users l' = ln_users l ->
  (forall t, t ∈ ln_waiters l' <-> t ∈ ln_waiters l /\ t <> pr_ticket p) ->
  lane_gap (<[g := p']> Q) l'.
Proof.
  intros H Hg T Et T' Es En Eu Ew. apply orb_false_iff in T' as [W' H'].
  pose proof (lo_ticket _ _ H _ _ Hg T) as Hlt. pose proof (lo_range _ _ H) as Hr.
  assert (Hne : forall g0 q, Q !! g0 = Some q -> g <> g0 -> ticketed (pr_pc q) = true -> pr_ticket q <> pr_ticket p)
    by (intros; by eapply other_ticket).
  split.
  - rewrite Es, En. lia.
  - intros g0 q [[<- <-]|[Hn Hq]]%lookup_insert_Some; [done|]. apply not_true_iff_false. intros C.
    apply (Hne g0 q); [done..|by eauto|]. by rewrite Et, (lo_turn _ _ H g0 q).
  - intros g0 q [[<- <-]|[Hn Hq]]%lookup_insert_Some W; [congruence|].
    pose proof (Hne g0 q Hq Hn (waiting_ticketed _ W)) as Hx.
    pose proof (lo_ticket _ _ H _ _ Hq (waiting_ticketed _ W)).
    split_and!; [lia|rewrite En; lia|apply Ew|].
    + split; [|done]. destruct (lo_waiting _ _ H _ _ Hq W) as [?|(? & _)]; [done|lia].
    + intros w E. by eapply (lo_select _ _ H g0).
  - intros g1 q1 g2 q2 [[<- <-]|[_ H1]]%lookup_insert_Some [[<- <-]|[_ H2]]%lookup_insert_Some W1 W2; try congruence.
    apply (lo_order _ _ H g1 q1 g2 q2); eauto.
  - intros t [Ht Hnt]%Ew. destruct (lo_waiters _ _ H _ Ht) as (g0 & q & Hq & W & E). exists g0, q.
    rewrite lookup_insert_ne; [done|]. intros <-. congruence.
  - rewrite (size_update _ _ _ _ Hg), Eu. apply H.
  - intros g0 q [[<- <-]|[Hn Hq]]%lookup_insert_Some W; [congruence|]. apply (lo_delivery _ _ H g0); eauto.
Qed.

(** A goroutine gives up in the queue while its ticket is not served, or the
    lane is blocked. *)
Lemma ok_abandon Q l g p p' :
  lane_ok Q l -> Q !! g = Some p -> waiting (pr_pc p) = true -> ticketed (pr_pc p') = false ->
  my_turn (pr_ticket p) l = false ->
  lane_ok (<[g := p']> Q) (l <| ln_waiters := ln_waiters l ∖ {[pr_ticket p]} |>).
Proof.
  intros H Hg W T' M. apply orb_false_iff in T' as T''. destruct T'' as [W' H'].
  assert (Hne : forall g0 q, Q !! g0 = Some q -> g <> g0 -> ticketed (pr_pc q) = true -> pr_ticket q <> pr_ticket p)
    by (intros; eapply other_ticket; eauto).
  split; cbn.
  - apply H.
  - intros g0 q [[<- <-]|[Hn Hq]]%lookup_insert_Some T; [congruence|]. by apply (lo_ticket _ _ H g0).
  - intros g1 q1 g2 q2 [[<- <-]|[_ H1]]%lookup_insert_Some [[<- <-]|[_ H2]]%lookup_insert_Some T1 T2; try congruence.
    by apply (lo_order _ _ H g1 q1 g2 q2).
  - intros t [Ht Hnt]%elem_of_difference. destruct (lo_waiters _ _ H _ Ht) as (g0 & q & Hq & Wq & E).
    exists g0, q. rewrite lookup_insert_ne; [done|]. intros <-. apply Hnt, elem_of_singleton. congruence.
  - intros g0 q [[<- <-]|[Hn Hq]]%lookup_insert_Some Wq; [congruence|].
    pose proof (Hne g0 q Hq Hn (waiting_ticketed _ Wq)).
    destruct (lo_waiting _ _ H _ _ Hq Wq) as [?|?]; [left; set_solver|by right].
  - intros g0 q w [[<- <-]|[Hn Hq]]%lookup_insert_Some E; [by rewrite E in W'|].
    destruct (lo_select _ _ H _ _ _ Hq E) as [? Hs]. split; [done|]. intros [? _]%elem_of_difference. auto.
  - intros g0 q [[<- <-]|[Hn Hq]]%lookup_insert_Some T; [congruence|]. by apply (lo_turn _ _ H g0).
  - intros g0 q [[<- <-]|[Hn Hq]]%lookup_insert_Some T; [congruence|]. by apply (lo_blocked _ _ H g0).
  - intros Hb Hlt. destruct (lo_served _ _ H Hb Hlt) as (g0 & q & Hq & Tq & E). exists g0, q.
    rewrite lookup_insert_ne; [done|]. intros <-. simplify_eq. unfold my_turn in M.
    rewrite E, Z.eqb_refl, Hb in M. done.
  - rewrite (size_update _ _ _ _ Hg). apply H.
  - intros g0 q [[<- <-]|[Hn Hq]]%lookup_insert_Some T; [congruence|]. by apply (lo_delivery _ _ H g0).
Qed.

(** A goroutine takes the turn. *)
Lemma ok_start Q l g p p' :
  lane_ok Q l -> Q !! g = Some p -> waiting (pr_pc p) = true ->
  pr_ticket p' = pr_ticket p -> pr_delivery p' = pr_delivery p -> pr_pc p' = InHandler ->
  my_turn (pr_ticket p) l = true ->
  lane_ok (<[g := p']> Q) (l <| ln_waiters := ln_waiters l ∖ {[pr_ticket p]} |>).
Proof.
  intros H Hg W Et Ed Ec M. unfold my_turn in M. apply andb_true_iff in M as [Es Hb].
  apply Z.eqb_eq in Es. apply bool_decide_eq_true in Hb.
  assert (Hne : forall g0 q, Q !! g0 = Some q -> g <> g0 -> ticketed (pr_pc q) = true -> pr_ticket q <> pr_ticket p)
    by (intros; eapply other_ticket; eauto).
  assert (Hnt : forall g0 q, Q !! g0 = Some q -> has_turn (pr_pc q) = true -> False).
  { intros g0 q Hq T. destruct (decide (g = g0)) as [<-|Hn].
    - simplify_eq. by destruct (pr_pc p).
    - apply (Hne g0 q); eauto. rewrite Es. by apply (lo_turn _ _ H g0). }
  split; cbn.
  - apply H.
  - intros g0 q [[<- <-]|[Hn Hq]]%lookup_insert_Some T; [rewrite Et; apply (lo_ticket _ _ H g p Hg); eauto|].
    by apply (lo_ticket _ _ H g0).
  - intros g1 q1 g2 q2 [[<- <-]|[_ H1]]%lookup_insert_Some [[<- <-]|[_ H2]]%lookup_insert_Some T1 T2 Hlt; rewrite ?Et; [lia|..].
    + apply (lo_order _ _ H g p g2 q2); eauto.
    + apply (lo_order _ _ H g1 q1 g p); eauto.
    + by apply (lo_order _ _ H g1 q1 g2 q2).
  - intros t [Ht Hnt']%elem_of_difference. destruct (lo_waiters _ _ H _ Ht) as (g0 & q & Hq & Wq & E).
    exists g0, q. rewrite lookup_insert_ne; [done|]. intros <-. apply Hnt', elem_of_singleton. congruence.
  - intros g0 q [[<- <-]|[Hn Hq]]%lookup_insert_Some Wq; [by rewrite Ec in Wq|].
    pose proof (Hne g0 q Hq Hn (waiting_ticketed _ Wq)).
    destruct (lo_waiting _ _ H _ _ Hq Wq) as [?|?]; [left; set_solver|by right].
  - intros g0 q w [[<- <-]|[Hn Hq]]%lookup_insert_Some E; [by rewrite E in Ec|].
    destruct (lo_select _ _ H _ _ _ Hq E) as [? Hs]. split; [done|]. intros [? _]%elem_of_difference. auto.
  - intros g0 q [[<- <-]|[Hn Hq]]%lookup_insert_Some T; [congruence|]. by destruct (Hnt _ _ Hq T).
  - intros g0 q [[<- <-]|[Hn Hq]]%lookup_insert_Some T; [by rewrite Ec|]. by destruct (Hnt _ _ Hq T).
  - intros _ _. exists g, p'. rewrite lookup_insert_eq, Ec, Et. done.
  - rewrite (size_update _ _ _ _ Hg). apply H.
  - intros g0 q [[<- <-]|[Hn Hq]]%lookup_insert_Some T; [rewrite Ed; apply (lo_delivery _ _ H g p Hg); eauto|].
    by apply (lo_delivery _ _ H g0).
Qed.

(** ** The regions of [Handle] *)

Lemma waitForTurn_err_ok Q l g p r :
  lane_ok Q l -> Q !! g = Some p -> pr_pc p = AtTurn -> ln_next l <= max_u64 ->
  lane_ok (<[g := p <| pr_pc := AtRelease r |>]> Q) (waitForTurn true (pr_ticket p) l).1.
Proof.
  intros H Hg Hp Hm. unfold waitForTurn. cbn zeta. cbn [fst].
  assert (W : waiting (pr_pc p) = true) by (by rewrite Hp).
  destruct (my_turn _ _) eqn:M; [|by apply ok_abandon].
  assert (Es : pr_ticket p = ln_serving l) by (apply andb_true_iff in M as [?%Z.eqb_eq _]; done).
  pose proof (lo_ticket _ _ H _ _ Hg (waiting_ticketed _ W)).
  apply gap_ok; [|done]. eapply (gap_leave Q l _ g p); eauto; try done; cbn.
  - apply u64_id. unfold in_u64. pose proof (lo_range _ _ H). lia.
  - set_solver.
Qed.

Lemma waitForTurn_ready_ok Q l g p :
  lane_ok Q l -> Q !! g = Some p -> pr_pc p = AtTurn ->
  match (waitForTurn false (pr_ticket p) l).2 with
  | TurnErr => False
  | TurnReady =>
      pr_ticket p = ln_serving l /\
      lane_ok (<[g := p <| pr_pc := InHandler |>]> Q) (waitForTurn false (pr_ticket p) l).1
  | TurnWait w => lane_ok (<[g := p <| pr_pc := InSelect w |>]> Q) (waitForTurn false (pr_ticket p) l).1
  end.
Proof.
  intros H Hg Hp. unfold waitForTurn. assert (W : waiting (pr_pc p) = true) by (by rewrite Hp).
  destruct (my_turn _ _) eqn:M; cbn.
  - split; [|by apply ok_start]. by apply andb_true_iff in M as [?%Z.eqb_eq _].
  - apply (ok_move Q l g p); try done; cbn; [by rewrite Hp..|]. intros w [= <-].
    assert (Hin : pr_ticket p ∈ ln_waiters l).
    { destruct (lo_waiting _ _ H _ _ Hg W) as [?|(E & B & _)]; [done|]. unfold my_turn in M.
      by rewrite E, B, Z.eqb_refl in M. }
    split_and!; [by rewrite bool_decide_eq_true|..|done]. intros _ E B.
    unfold my_turn in M. by rewrite E, B, Z.eqb_refl in M.
Qed.

Lemma finishTurn_ok Q l g p r :
  lane_ok Q l -> Q !! g = Some p -> has_turn (pr_pc p) = true -> ln_next l <= max_u64 ->
  lane_ok (<[g := p <| pr_pc := AtRelease r |>]> Q) (finishTurn (pr_ticket p) l).
Proof.
  intros H Hg T Hm. unfold finishTurn. rewrite (lo_turn _ _ H _ _ Hg T), Z.eqb_refl.
  pose proof (lo_ticket _ _ H _ _ Hg (has_turn_ticketed _ T)) as Hlt. pose proof (lo_range _ _ H).
  apply gap_ok; [|done]. eapply (gap_leave Q l _ g p); eauto; try done; cbn.
  - by apply (lo_turn _ _ H g).
  - apply u64_id. unfold in_u64. lia.
  - intros t. split; [|by intros []]. intros Ht. split; [done|]. intros ->.
    destruct (lo_waiters _ _ H _ Ht) as (g0 & q & Hq & W & E).
    destruct (ticket_unique _ _ _ _ _ _ H Hg Hq) as [-> ->]; eauto. by destruct (pr_pc q).
Qed.

(** A retained delivery is settled after the [Handle] that retained it has
    finished its turn. *)
Lemma settled_ok Q l :
  lane_ok Q l -> ln_blocked l <> None -> (forall g p, Q !! g = Some p -> finishing (pr_pc p) = false) ->
  ln_next l <= max_u64 -> lane_ok Q (notifyServing (l <| ln_blocked := None |>)).
Proof.
  intros H Hb Hf Hm. apply gap_ok; [|done].
  assert (Hw : forall g p, Q !! g = Some p -> waiting (pr_pc p) = true -> pr_ticket p ∈ ln_waiters l).
  { intros g p Hg W. by destruct (lo_waiting _ _ H _ _ Hg W) as [?|(_ & ? & _)]. }
  split; cbn; try apply H.
  - intros g p Hg. apply not_true_iff_false. intros T. pose proof (lo_blocked _ _ H _ _ Hg T) as B.
    by rewrite (Hf _ _ Hg) in B.
  - intros g p Hg W. split; [apply (lo_ticket _ _ H g); eauto|]. split; [eauto|]. intros w E.
    by eapply (lo_select _ _ H g).
  - intros g1 p1 g2 p2 H1 H2 W1 W2. apply (lo_order _ _ H g1 p1 g2 p2); eauto.
  - intros g p Hg W. apply (lo_delivery _ _ H g); eauto.
Qed.

(** The retained delivery is marked as handled by the application. *)
Lemma ok_marked Q l b :
  lane_ok Q l -> ln_blocked l = Some b ->
  lane_ok Q (l <| ln_blocked := Some (mkBlocked (bl_delivery b) true) |>).
Proof.
  intros H Eb. split; cbn; try apply H; try done.
  - intros g p Hg W. destruct (lo_waiting _ _ H _ _ Hg W) as [?|(_ & ? & _)]; [by left|congruence].
  - intros g p w Hg E. split; [|done]. by eapply (lo_select _ _ H g).
  - intros g p Hg T. pose proof (lo_blocked _ _ H _ _ Hg T) as B. rewrite Eb in B.
    destruct (finishing _); [|done]. destruct B as (b' & [= <-] & E). by eexists.
Qed.

(** ** Arrival and departure *)

(** A new goroutine: [acquireLane], with the next ticket, or
    [acquireExistingLane], without one. *)
Lemma take_ticket_ok Q l g k loc d :
  lane_ok Q l -> (forall g' p, Q !! g' = Some p -> g' < g) -> ln_next l < max_u64 ->
  lane_ok (<[g := mkProc k loc (ln_next l) (Some d) false AtTurn]> Q) (take_ticket l).
Proof.
  intros H Hfresh Hm. pose proof (lo_range _ _ H) as Hr.
  assert (E : u64 (ln_next l + 1) = ln_next l + 1) by (apply u64_id; unfold in_u64; lia).
  assert (Hg : Q !! g = None) by (destruct (Q !! g) eqn:Hg; [pose proof (Hfresh _ _ Hg); lia|done]).
  unfold take_ticket. rewrite E. split; cbn -[size].
  - lia.
  - intros g0 q [[<- <-]|[Hn Hq]]%lookup_insert_Some T; [cbn; lia|]. pose proof (lo_ticket _ _ H g0 q Hq T). lia.
  - intros g1 q1 g2 q2 [[<- <-]|[_ H1]]%lookup_insert_Some [[<- <-]|[_ H2]]%lookup_insert_Some T1 T2 Hlt; cbn; [lia|..].
    + pose proof (Hfresh _ _ H2). lia.
    + apply (lo_ticket _ _ H g1 q1 H1 T1).
    + by apply (lo_order _ _ H g1 q1 g2 q2).
  - intros t [Ht| ->%elem_of_singleton]%elem_of_union.
    + destruct (lo_waiters _ _ H _ Ht) as (g0 & q & Hq & W & Et). exists g0, q. rewrite lookup_insert_ne by congruence. done.
    + eexists g, _. by rewrite lookup_insert_eq.
  - intros g0 q [[<- <-]|[Hn Hq]]%lookup_insert_Some W; [left; set_solver|].
    destruct (lo_waiting _ _ H _ _ Hq W) as [?|?]; [left; set_solver|by right].
  - intros g0 q w [[<- <-]|[Hn Hq]]%lookup_insert_Some C; [done|].
    destruct (lo_select _ _ H _ _ _ Hq C) as [? Hs]. split; [done|]. intros [?|Ht]%elem_of_union; [auto|].
    apply elem_of_singleton in Ht. assert (Wq : ticketed (pr_pc q) = true) by (by rewrite C).
    pose proof (lo_ticket _ _ H _ _ Hq Wq). lia.
  - intros g0 q [[<- <-]|[Hn Hq]]%lookup_insert_Some T; [done|]. by apply (lo_turn _ _ H g0).
  - intros g0 q [[<- <-]|[Hn Hq]]%lookup_insert_Some T; [done|]. by apply (lo_blocked _ _ H g0).
  - intros Hb _. destruct (decide (ln_serving l = ln_next l)) as [Es|].
    + eexists g, _. rewrite lookup_insert_eq. by split_and!.
    + destruct (lo_served _ _ H Hb) as (g0 & q & Hq & T); [lia|]. exists g0, q. rewrite lookup_insert_ne by congruence. done.
  - rewrite map_size_insert, Hg, (lo_users _ _ H). cbn. lia.
  - intros g0 q [[<- <-]|[Hn Hq]]%lookup_insert_Some T; [by eexists|]. by apply (lo_delivery _ _ H g0).
Qed.

(** Goroutines without a ticket do not matter to the queue. *)
Lemma ok_unticketed Q Q' l u :
  lane_ok Q l ->
  (forall g p, ticketed (pr_pc p) = true -> Q' !! g = Some p <-> Q !! g = Some p) ->
  u = Z.of_nat (size Q') -> lane_ok Q' (l <| ln_users := u |>).
Proof.
  intros H Hq Hu. split; cbn -[size]; try apply H.
  - intros g p Hg T. apply (lo_ticket _ _ H g); [by apply Hq|done].
  - intros g1 p1 g2 p2 H1 H2 T1 T2. apply (lo_order _ _ H g1 p1 g2 p2); try done; by apply Hq.
  - intros t (g & p & Hg & W & E)%(lo_waiters _ _ H). exists g, p. split_and!; try done. apply Hq; eauto.
  - intros g p Hg W. apply (lo_waiting _ _ H g); [apply Hq; eauto|done].
  - intros g p w Hg C. apply (lo_select _ _ H g); [apply Hq; [by rewrite C|done]|done].
  - intros g p Hg T. apply (lo_turn _ _ H g); [apply Hq; eauto|done].
  - intros g p Hg T. apply (lo_blocked _ _ H g); [apply Hq; eauto|done].
  - intros Hb Hlt. destruct (lo_served _ _ H Hb Hlt) as (g & p & Hg & T & E). exists g, p. split_and!; try done. by apply Hq.
  - done.
  - intros g p Hg T. apply (lo_delivery _ _ H g); [by apply Hq|done].
Qed.
End LaneSteps.
