(* ===== verification/LaneTheorems.v ===== *)
(** * Invariant of all lanes

    [sys_ok] holds in every state that the goroutines of Lane.v reach when no
    retained delivery is settled early: the table has exactly the lanes in use,
    each is [lane_ok] for its goroutines, and deliveries of one key start in
    the order of their arrival. *)

From S2P Require Import Prelude Customer Lane LaneInv.
From Stdlib Require Import ZArith Lia Sorted.
From stdpp Require Import base gmap strings numbers option sorting list.
#[local] Open Scope Z_scope.

Section Run.
Context {P : Type} (library : CustomerLibrary P) (contracts : gmap string Contract).
Implicit Types (s : sys P) (l : lane P) (p : proc P) (procs : gmap Z (proc P)).

Definition procs_on (loc : positive) procs : gmap Z (proc P) :=
  filter (fun '(_, p) => pr_lane p = loc) procs.

Lemma lookup_procs_on loc procs g p : procs_on loc procs !! g = Some p <-> procs !! g = Some p /\ pr_lane p = loc.
Proof. apply map_lookup_filter_Some. Qed.

Lemma procs_on_same loc procs g p :
  pr_lane p = loc -> procs_on loc (<[g := p]> procs) = <[g := p]> (procs_on loc procs).
Proof. intros E. unfold procs_on. by rewrite map_filter_insert_True. Qed.

Lemma procs_on_other loc procs g p :
  pr_lane p <> loc -> (forall q, procs !! g = Some q -> pr_lane q <> loc) ->
  procs_on loc (<[g := p]> procs) = procs_on loc procs.
Proof.
  intros E H. apply map_eq. intros i. apply option_eq. intros q. rewrite !lookup_procs_on.
  split; intros [Hi Hl]; split; try done.
  - apply lookup_insert_Some in Hi as [[<- <-]|[]]; done.
  - rewrite lookup_insert_ne; [done|]. intros ->. by eapply H.
Qed.

Lemma procs_on_delete loc procs g : procs_on loc (delete g procs) = delete g (procs_on loc procs).
Proof. unfold procs_on. by rewrite map_filter_delete. Qed.

(** The goroutines that started a delivery of a key, newest first. *)
Definition started_of (k : laneKey) s : list Z := snd <$> filter (fun x => x.1 = k) (sy_started s).

Lemma elem_of_started_of k s g : g ∈ started_of k s <-> (k, g) ∈ sy_started s.
Proof.
  unfold started_of. rewrite list_elem_of_fmap. split.
  - intros ([k' g'] & -> & [E Hin]%list_elem_of_filter). cbn in *. by subst k'.
  - intros H. exists (k, g). split; [done|]. by apply list_elem_of_filter.
Qed.

Definition lane_used l : Prop := 0 < ln_users l \/ ln_blocked l <> None.

Record sys_ok (n : Z) s : Prop := {
  so_clock : 0 <= sy_clock s <= n;
  so_gid : forall g p, sy_procs s !! g = Some p -> g < sy_clock s;
  so_key : forall g p, sy_procs s !! g = Some p -> sy_lanes s !! pr_key p = Some (pr_lane p);
  so_inj : forall k1 k2 loc, sy_lanes s !! k1 = Some loc -> sy_lanes s !! k2 = Some loc -> k1 = k2;
  so_lane : forall k loc, sy_lanes s !! k = Some loc -> exists l, sy_heap s !! loc = Some l /\
    lane_ok (procs_on loc (sy_procs s)) l /\ ln_next l <= n /\ lane_used l;
  so_sorted : forall k, StronglySorted (fun a b => b < a) (started_of k s);
  so_started : forall k g, (k, g) ∈ sy_started s -> g < sy_clock s;
  so_future : forall g p g', sy_procs s !! g = Some p -> waiting (pr_pc p) = true ->
    (pr_key p, g') ∈ sy_started s -> g' < g;
}.

Lemma idle_ok : sys_ok 0 idle_sys.
Proof. split; cbn; intros; try lia; try set_solver; try apply SSorted_nil. Qed.

Lemma proc_lane n s g p :
  sys_ok n s -> sy_procs s !! g = Some p -> exists l, sy_heap s !! pr_lane p = Some l /\
    lane_ok (procs_on (pr_lane p) (sy_procs s)) l /\ ln_next l <= n /\ procs_on (pr_lane p) (sy_procs s) !! g = Some p.
Proof.
  intros H Hg. destruct (so_lane _ _ H _ _ (so_key _ _ H _ _ Hg)) as (l & ? & ? & ? & _).
  exists l. split_and!; try done. by apply lookup_procs_on.
Qed.

Lemma sys_ok_mono n n' s : sys_ok n s -> n <= n' -> sys_ok n' s.
Proof.
  intros [] Hn. split; try done; [lia|]. intros k loc Hk. destruct (so_lane0 k loc Hk) as (l & ? & ? & ? & ?).
  exists l. split_and!; try done. lia.
Qed.

Lemma lane_ok_used (Q : gmap Z (proc P)) l g p : lane_ok (<[g := p]> Q) l -> lane_used l.
Proof.
  intros H. left. rewrite (lo_users _ _ H).
  assert (size (<[g := p]> Q) <> 0%nat); [|lia].
  intros E%map_size_empty_inv. by apply insert_non_empty in E.
Qed.

(** One goroutine moved on its own lane. *)
Lemma sys_advance n s g p p' l l' :
  sys_ok n s -> sy_procs s !! g = Some p -> sy_heap s !! pr_lane p = Some l ->
  pr_key p' = pr_key p -> pr_lane p' = pr_lane p ->
  (waiting (pr_pc p') = true -> waiting (pr_pc p) = true) ->
  lane_ok (<[g := p']> (procs_on (pr_lane p) (sy_procs s))) l' -> ln_next l' <= n ->
  sys_ok n (advance g p' l' s).
Proof.
  intros H Hg Hl Ek El Hw Hok Hn. split; cbn; try apply H.
  - intros g0 q [[<- <-]|[_ Hq]]%lookup_insert_Some; [by eapply so_gid|]. by apply (so_gid _ _ H _ _ Hq).
  - intros g0 q [[<- <-]|[_ Hq]]%lookup_insert_Some; [rewrite Ek, El; by eapply so_key|]. by apply (so_key _ _ H g0).
  - intros k loc Hk. destruct (decide (loc = pr_lane p)) as [->|Hne].
    + exists l'. rewrite El, lookup_insert_eq, procs_on_same by done. split_and!; try done. by eapply lane_ok_used.
    + rewrite lookup_insert_ne by congruence. rewrite procs_on_other; [by eapply so_lane|congruence|].
      intros q Hq. congruence.
  - intros g0 q g' [[<- <-]|[_ Hq]]%lookup_insert_Some W; [|by eapply so_future].
    rewrite Ek. eapply so_future; [done..|by apply Hw].
Qed.

(** A delivery starts: everything that started before arrived before it, and
    everything that still waits arrived after it. *)
Lemma sys_started n s g p l' :
  sys_ok n s -> sy_procs s !! g = Some p -> waiting (pr_pc p) = false ->
  lane_ok (procs_on (pr_lane p) (sy_procs s)) l' -> has_turn (pr_pc p) = true ->
  (forall g', (pr_key p, g') ∈ sy_started s -> g' < g) ->
  sys_ok n (s <| sy_started := (pr_key p, g) :: sy_started s |>).
Proof.
  intros H Hg W Hok T Hlast. split; try apply H.
  - intros k. unfold started_of, setter. cbn [sy_started]. rewrite filter_cons. case_decide as E; [|by apply H]. cbn in E. subst k.
    cbn. apply SSorted_cons; [by apply H|]. apply Forall_forall. intros g' Hin%elem_of_started_of. auto.
  - intros k g' [[= -> ->]|Hin]%elem_of_cons; [exact (so_gid _ _ H _ _ Hg)|exact (so_started _ _ H _ _ Hin)].
  - intros g0 q g' Hq Wq [[= Ek ->]|Hin]%elem_of_cons; [|exact (so_future _ _ H _ _ _ Hq Wq Hin)].
    assert (El : pr_lane q = pr_lane p).
    { pose proof (so_key _ _ H _ _ Hq) as K1. pose proof (so_key _ _ H _ _ Hg) as K2. congruence. }
    assert (Hq' : procs_on (pr_lane p) (sy_procs s) !! g0 = Some q) by (by apply lookup_procs_on).
    assert (Hg' : procs_on (pr_lane p) (sy_procs s) !! g = Some p) by (by apply lookup_procs_on).
    pose proof (lo_turn _ _ Hok _ _ Hg' T) as E1.
    pose proof (lo_ticket _ _ Hok _ _ Hq' (waiting_ticketed _ Wq)) as E2.
    destruct (Z.lt_trichotomy g g0) as [C|[C|C]]; [done|subst g0; congruence|].
    pose proof (lo_order _ _ Hok _ _ _ _ Hq' Hg' (waiting_ticketed _ Wq) (has_turn_ticketed _ T) C). lia.
Qed.

Lemma procs_on_fresh n s loc :
  sys_ok n s -> loc ∉ (dom (sy_heap s) : gset positive) -> procs_on loc (sy_procs s) = ∅.
Proof.
  intros H Hloc. apply map_empty. intros g. apply eq_None_not_Some. intros [p [Hg <-]%lookup_procs_on].
  destruct (proc_lane _ _ _ _ H Hg) as (l & Hl & _). apply Hloc. by apply elem_of_dom.
Qed.

(** A goroutine joins the lane of its key. *)
Lemma sys_join n s k loc p l' :
  sys_ok n s -> pr_key p = k -> pr_lane p = loc ->
  sy_lanes s !! k = Some loc \/ (sy_lanes s !! k = None /\ loc ∉ (dom (sy_heap s) : gset positive)) ->
  lane_ok (<[sy_clock s := p]> (procs_on loc (sy_procs s))) l' -> ln_next l' <= n + 1 ->
  sys_ok (n + 1) (mkSys (<[k := loc]> (sy_lanes s)) (<[loc := l']> (sy_heap s))
    (<[sy_clock s := p]> (sy_procs s)) (sy_clock s + 1) (sy_started s) (sy_returned s)).
Proof.
  intros H Ek El Hk Hok Hn.
  assert (Hloc : forall k', sy_lanes s !! k' = Some loc -> k' = k).
  { intros k' Hk'. destruct Hk as [Hk|[_ Hf]]; [by eapply so_inj|].
    destruct (so_lane _ _ H _ _ Hk') as (l & Hl & _). by destruct Hf; apply elem_of_dom. }
  assert (Hnew : sy_procs s !! sy_clock s = None).
  { destruct (sy_procs s !! sy_clock s) eqn:E; [|done]. apply (so_gid _ _ H) in E. lia. }
  split; cbn.
  - pose proof (so_clock _ _ H). lia.
  - intros g q [[<- _]|[_ Hq]]%lookup_insert_Some; [lia|]. apply (so_gid _ _ H) in Hq. lia.
  - intros g q [[_ <-]|[_ Hq]]%lookup_insert_Some; [by rewrite Ek, El, lookup_insert_eq|].
    apply (so_key _ _ H) in Hq. destruct (decide (k = pr_key q)) as [->|]; [|by rewrite lookup_insert_ne].
    rewrite lookup_insert_eq. destruct Hk as [Hk|[Hk _]]; congruence.
  - intros k1 k2 l [[<- <-]|[? H1]]%lookup_insert_Some [[<- E]|[? H2]]%lookup_insert_Some; try done.
    + symmetry. by apply Hloc.
    + subst l. by apply Hloc.
    + by eapply so_inj.
  - intros k' l Hl. destruct (decide (l = loc)) as [->|Hne].
    + exists l'. rewrite lookup_insert_eq, procs_on_same by done. split_and!; try done. by eapply lane_ok_used.
    + apply lookup_insert_Some in Hl as [[_ ?]|[_ Hl]]; [done|]. rewrite lookup_insert_ne by done.
      rewrite procs_on_other by congruence. destruct (so_lane _ _ H _ _ Hl) as (l0 & ? & ? & ? & ?).
      exists l0. split_and!; try done. lia.
  - apply H.
  - intros k' g Hin. apply (so_started _ _ H) in Hin. lia.
  - intros g q g' [[<- <-]|[_ Hq]]%lookup_insert_Some W Hin; [by apply (so_started _ _ H) in Hin|].
    by eapply so_future.
Qed.

Lemma acquireLane_ok n s key d :
  sys_ok n s -> n < max_u64 -> sys_ok (n + 1) (acquireLane key d s).
Proof.
  intros H Hn. unfold acquireLane.
  assert (Hfresh : forall loc g p, procs_on loc (sy_procs s) !! g = Some p -> g < sy_clock s).
  { intros loc g p [Hg _]%lookup_procs_on. by apply (so_gid _ _ H) in Hg. }
  assert (Hnext : forall l, 0 <= ln_next l <= n -> ln_next (take_ticket l) <= n + 1).
  { intros l Hl. cbn. rewrite u64_id; unfold in_u64; lia. }
  unfold find_lane. destruct (sy_lanes s !! key) as [loc|] eqn:Ek.
  - destruct (so_lane _ _ H _ _ Ek) as (l & Hl & Hok & Hx & _). rewrite Hl. change (default new_lane (Some l)) with l.
    pose proof (lo_range _ _ Hok). apply (sys_join n s key loc); try done; [by left|..].
    + apply take_ticket_ok; [done|eauto|lia].
    + apply Hnext. lia.
  - set (loc := fresh (dom (sy_heap s))).
    assert (Hloc : loc ∉ (dom (sy_heap s) : gset positive)) by apply is_fresh.
    apply (sys_join n s key loc); try done; [by right|..].
    + apply take_ticket_ok; [|eauto|done].
      rewrite (procs_on_fresh _ _ _ H Hloc). apply new_lane_ok.
    + apply Hnext. cbn. pose proof (so_clock _ _ H). lia.
Qed.

Lemma refuse_ok n s e : sys_ok n s -> sys_ok (n + 1) (refuse e s).
Proof.
  intros H. destruct (sys_ok_mono n (n + 1) s H ltac:(lia)) as [C G ? ? ? ? S ?]. pose proof (so_clock _ _ H).
  split; cbn; try done; [lia|..].
  - intros g p Hg. apply G in Hg. lia.
  - intros k g Hin. apply S in Hin. lia.
Qed.

Lemma acquireExistingLane_ok n s release key :
  sys_ok n s -> sys_ok (n + 1) (acquireExistingLane release key s).
Proof.
  intros H. unfold acquireExistingLane. destruct (sy_lanes s !! key) as [loc|] eqn:Ek; [|by apply refuse_ok].
  destruct (so_lane _ _ H _ _ Ek) as (l & Hl & Hok & Hx & _). rewrite Hl. change (default new_lane (Some l)) with l.
  assert (Hnew : procs_on loc (sy_procs s) !! sy_clock s = None).
  { destruct (procs_on loc _ !! _) eqn:E; [|done]. apply lookup_procs_on in E as [E _]. apply (so_gid _ _ H) in E. lia. }
  pose proof (sys_join n s key loc (mkProc key loc 0 None false (AtSettle release)) (l <| ln_users := ln_users l + 1 |>) H) as J.
  rewrite (insert_id (sy_lanes s)) in J by done. apply J; try done; [by left| |cbn; lia].
  eapply ok_unticketed; [done|..].
  - intros g p T. rewrite lookup_insert_Some. split; [intros [[_ <-]|[_ ?]]; done|]. intros Hg. right.
    split; [congruence|done].
  - rewrite map_size_insert, Hnew, (lo_users _ _ Hok). cbn. lia.
Qed.

(** [releaseLane]: the last user of a lane that is not blocked drops it. *)
Lemma releaseLane_ok n s g p l r :
  sys_ok n s -> sy_procs s !! g = Some p -> sy_heap s !! pr_lane p = Some l -> ticketed (pr_pc p) = false ->
  sys_ok n (releaseLane g r p l s).
Proof.
  intros H Hg Hl Tp. destruct (proc_lane _ _ _ _ H Hg) as (l0 & Hl0 & Hok & Hx & Hon). simplify_eq.
  set (l' := l <| ln_users := ln_users l - 1 |>).
  assert (Hsize : ln_users l - 1 = Z.of_nat (size (delete g (procs_on (pr_lane p) (sy_procs s))))).
  { rewrite (lo_users _ _ Hok), map_size_delete, Hon.
    assert (size (procs_on (pr_lane p) (sy_procs s)) <> 0%nat); [|lia].
    intros E%map_size_empty_inv. by rewrite E in Hon. }
  assert (Hok' : lane_ok (delete g (procs_on (pr_lane p) (sy_procs s))) l').
  { eapply ok_unticketed; [done| |done]. intros g0 q T. rewrite lookup_delete_Some. split; [by intros []|].
    intros Hq. split; [congruence|done]. }
  unfold releaseLane. fold l'. cbn zeta. rewrite (so_key _ _ H _ _ Hg).
  rewrite (bool_decide_eq_true_2 (Some (pr_lane p) = Some (pr_lane p))) by done. rewrite andb_true_r.
  assert (Hsub : forall k loc, (if (ln_users l' =? 0) && bool_decide (ln_blocked l' = None)
    then delete (pr_key p) (sy_lanes s) else sy_lanes s) !! k = Some loc -> sy_lanes s !! k = Some loc).
  { intros k loc. destruct (_ && _); [|done]. by intros [_ ?]%lookup_delete_Some. }
  split; cbn [sy_clock sy_procs sy_lanes sy_heap sy_started].
  - apply H.
  - intros g0 q [_ Hq]%lookup_delete_Some. by apply (so_gid _ _ H) in Hq.
  - intros g0 q [Hne Hq]%lookup_delete_Some. pose proof (so_key _ _ H _ _ Hq) as Kq.
    destruct (_ && _) eqn:E; [|done]. rewrite lookup_delete_ne; [done|]. intros Ek.
    apply andb_true_iff in E as [E%Z.eqb_eq _]. cbn in E. rewrite Hsize in E.
    assert (E0 : delete g (procs_on (pr_lane p) (sy_procs s)) = ∅) by (apply map_size_empty_inv; lia).
    assert (delete g (procs_on (pr_lane p) (sy_procs s)) !! g0 = Some q) as X; [|by rewrite E0 in X].
    rewrite lookup_delete_ne by done. apply lookup_procs_on. split; [done|].
    rewrite <- Ek, (so_key _ _ H _ _ Hg) in Kq. congruence.
  - intros k1 k2 loc H1%Hsub H2%Hsub. by eapply so_inj.
  - intros k loc Hk. destruct (decide (loc = pr_lane p)) as [->|Hne].
    + exists l'. rewrite lookup_insert_eq, procs_on_delete. split_and!; try done.
      pose proof (so_inj _ _ H _ _ _ (Hsub _ _ Hk) (so_key _ _ H _ _ Hg)) as ->.
      destruct (_ && _) eqn:E; [by rewrite lookup_delete_eq in Hk|]. unfold lane_used.
      apply andb_false_iff in E as [E%Z.eqb_neq|E%bool_decide_eq_false]; [left|by right]. cbn in *. lia.
    + rewrite lookup_insert_ne by done. destruct (so_lane _ _ H _ _ (Hsub _ _ Hk)) as (l0 & ? & ? & ? & ?).
      exists l0. split_and!; try done. rewrite procs_on_delete, delete_id; [done|].
      apply eq_None_not_Some. intros [q [Hq Eq]%lookup_procs_on]. congruence.
  - apply H.
  - apply H.
  - intros g0 q g' [_ Hq]%lookup_delete_Some. by eapply so_future.
Qed.

(** ** Steps *)

Lemma unfinished_false loc s g p :
  unfinished loc s = false -> procs_on loc (sy_procs s) !! g = Some p -> finishing (pr_pc p) = false.
Proof.
  intros E [Hg Hl]%lookup_procs_on. destruct (finishing (pr_pc p)) eqn:F; [|done].
  rewrite <- not_true_iff_false in E. destruct E. apply existsb_exists. exists (g, p).
  split; [by apply list_elem_of_In, elem_of_map_to_list|]. cbn. rewrite F, Hl.
  by rewrite bool_decide_eq_true_2.
Qed.

Lemma notify_next l : ln_next (notifyServing l) = ln_next l.
Proof.
  unfold notifyServing. destruct (ln_blocked l); [done|].
  generalize (Z.to_nat (ln_next l - ln_serving l)). intros fuel. revert l.
  induction fuel as [|fuel IH]; intros l; [done|]. cbn [notify_loop].
  destruct (_ <? _); [|done]. case_bool_decide; [done|]. by rewrite IH.
Qed.

Lemma settle_ok n s g p l release handled settled l' e :
  sys_ok n s -> n <= max_u64 -> sy_procs s !! g = Some p -> sy_heap s !! pr_lane p = Some l ->
  pr_pc p = AtSettle release -> unfinished (pr_lane p) s = false ->
  (if release then release_blocked settled l else retry_blocked handled settled l) = (l', e) ->
  lane_ok (procs_on (pr_lane p) (sy_procs s)) l' /\ ln_next l' = ln_next l.
Proof.
  intros H Hm Hg Hl Hp Hu. destruct (proc_lane _ _ _ _ H Hg) as (l0 & Hl0 & Hok & Hx & Hon). simplify_eq.
  assert (Hs : ln_blocked l <> None ->
    lane_ok (procs_on (pr_lane p) (sy_procs s)) (notifyServing (l <| ln_blocked := None |>))).
  { intros Hb. apply settled_ok; [done..| |lia]. intros g0 q Hq. by eapply unfinished_false. }
  destruct release; unfold release_blocked, retry_blocked; destruct (ln_blocked l) as [b|] eqn:Eb;
    try (intros [= <- <-]; done); repeat case_match; intros [= <- <-]; try done.
  all: try (split; [by apply Hs|by rewrite notify_next]).
  all: split; [by apply ok_marked|done].
Qed.

(** A goroutine without a ticket may change where it stands. *)
Lemma ok_idle_move (Q : gmap Z (proc P)) l g p p' :
  lane_ok Q l -> Q !! g = Some p -> ticketed (pr_pc p) = false -> ticketed (pr_pc p') = false ->
  lane_ok (<[g := p']> Q) l.
Proof.
  intros H Hg T T'. assert (l <| ln_users := ln_users l |> = l) as E by (by destruct l). rewrite <- E.
  eapply ok_unticketed; [done| |by rewrite (size_update _ _ _ _ Hg), (lo_users _ _ H)].
  intros g0 q Tq. rewrite lookup_insert_Some. split; [intros [[_ <-]|[_ ?]]; congruence|].
  intros Hq. right. split; [congruence|done].
Qed.

Lemma turn_step_ok n s g p l s' :
  sys_ok n s -> n <= max_u64 -> sy_procs s !! g = Some p -> sy_heap s !! pr_lane p = Some l ->
  pr_pc p = AtTurn -> proc_step (LTurn g) g p l s = Some s' -> sys_ok n s'.
Proof.
  intros H Hm Hg Hl Hp. destruct (proc_lane _ _ _ _ H Hg) as (l0 & Hl0 & Hok & Hx & Hon). simplify_eq.
  cbn [proc_step]. rewrite Hp. destruct (pr_cancelled p).
  - pose proof (waitForTurn_err_ok _ l g p (Done (Err context_err)) Hok Hon Hp ltac:(lia)) as Hw.
    assert (En : ln_next (waitForTurn true (pr_ticket p) l).1 = ln_next l).
    { cbn. destruct (my_turn _ _); [by rewrite notify_next|done]. }
    destruct (waitForTurn true _ l) as [l' t] eqn:E. cbn in Hw, En.
    assert (t = TurnErr) as -> by (unfold waitForTurn in E; by simplify_eq).
    intros [= <-]. eapply sys_advance; eauto; try done. lia.
  - pose proof (waitForTurn_ready_ok _ l g p Hok Hon Hp) as Hw.
    assert (En : ln_next (waitForTurn false (pr_ticket p) l).1 = ln_next l).
    { unfold waitForTurn. by destruct (my_turn _ _). }
    destruct (waitForTurn false _ l) as [l' [| |w]]; [done|..]; cbn in Hw, En; intros [= <-].
    + destruct Hw as [Es Hw]. set (p' := p <| pr_pc := InHandler |>) in *.
      assert (Ha : sys_ok n (advance g p' l' s)) by (eapply sys_advance; eauto; try done; lia).
      apply (sys_started n (advance g p' l' s) g p' l'); try done; cbn.
      * by rewrite lookup_insert_eq.
      * by rewrite procs_on_same.
      * intros g' Hin. by eapply (so_future _ _ H g p); [|rewrite Hp|].
    + eapply sys_advance; eauto; try done; [by rewrite Hp|lia].
Qed.

Lemma proc_step_ok n s lb g p l s' :
  sys_ok n s -> n <= max_u64 -> sy_procs s !! g = Some p -> sy_heap s !! pr_lane p = Some l ->
  label_proc lb = Some g -> early lb s = false -> proc_step lb g p l s = Some s' -> sys_ok n s'.
Proof.
  intros H Hm Hg Hl Hlb He. destruct (proc_lane _ _ _ _ H Hg) as (l0 & Hl0 & Hok & Hx & Hon). simplify_eq.
  destruct lb; cbn in Hlb; try discriminate; injection Hlb as ->; cbn [proc_step];
    destruct (pr_pc p) eqn:Hp; try discriminate.
  1-7: intros [= <-]; eapply sys_advance; eauto; cbn; try done;
    apply (ok_move _ _ _ p); try done; cbn; intros w Ew;
    destruct (lo_select _ _ Hok _ _ _ Hon Ew) as [? ?]; split_and!; [done..|]; intros Hn;
    destruct (lo_waiting _ _ Hok _ _ Hon) as [?|(_ & _ & ?)]; [by rewrite Ew|done|eauto].
  - intros Hs. eapply turn_step_ok; eauto. cbn [proc_step]. by rewrite Hp.
  - destruct signal.
    + destruct (wait && _) eqn:E; [|done]. intros [= <-]. eapply sys_advance; eauto; try done; [by rewrite Hp|].
      apply ok_signals; [apply (ok_move _ _ _ p); try done; cbn; by rewrite Hp|].
      intros g0 q w [[<- <-]|[Hn Hq]]%lookup_insert_Some Eq; [done|].
      eapply other_ticket; [done|exact Hon|by rewrite Hp|exact Hq|by rewrite Eq|done].
    + destruct (pr_cancelled p); [|done]. intros [= <-]. eapply sys_advance; eauto; try done; [by rewrite Hp|].
      apply (ok_move _ _ _ p); try done; cbn; by rewrite Hp.
  - destruct answer as [[]|e]; intros [= <-]; (eapply sys_advance; eauto; try done).
    + apply (ok_move _ _ _ p); try done; cbn; by rewrite Hp.
    + unfold retain. destruct (lo_delivery _ _ Hok _ _ Hon) as [d Ed]; [by rewrite Hp|]. rewrite Ed.
      apply ok_retain; try done. by rewrite Hp.
    + unfold retain. by destruct (pr_delivery p).
  - destruct answer as [[]|e]; intros [= <-]; (eapply sys_advance; eauto; try done).
    + apply (ok_move _ _ _ p); try done; cbn; by rewrite Hp.
    + unfold retain. destruct (lo_delivery _ _ Hok _ _ Hon) as [d Ed]; [by rewrite Hp|]. rewrite Ed.
      apply ok_retain; try done. by rewrite Hp.
    + unfold retain. by destruct (pr_delivery p).
  - intros [= <-]. eapply sys_advance; eauto; try done.
    + apply finishTurn_ok; try done; [by rewrite Hp|lia].
    + unfold finishTurn. rewrite notify_next. by destruct (_ =? _).
  - cbn in He. rewrite Hg in He. destruct (if release then _ else _) as [l' e] eqn:E. intros [= <-].
    destruct (settle_ok _ _ _ _ _ _ _ _ _ _ H Hm Hg Hl Hp He E) as [Hok' En].
    eapply sys_advance; eauto; try done; [|lia]. eapply ok_idle_move; eauto. by rewrite Hp.
  - intros [= <-]. apply releaseLane_ok; try done. by rewrite Hp.
Qed.

Lemma step_proc lb g s s' :
  label_proc lb = Some g -> step library contracts lb s = Some s' ->
  exists p l, sy_procs s !! g = Some p /\ sy_heap s !! pr_lane p = Some l /\ proc_step lb g p l s = Some s'.
Proof.
  intros Hlb Hs. assert ((g ← label_proc lb; p ← sy_procs s !! g; l ← sy_heap s !! pr_lane p; proc_step lb g p l s) = Some s') as E.
  { by destruct lb. }
  rewrite Hlb in E. cbn in E. destruct (sy_procs s !! g) as [p|]; [|done]. cbn in E.
  destruct (sy_heap s !! pr_lane p) as [l|] eqn:Hl; [|done]. by exists p, l.
Qed.

Lemma reach_ok n s : reach library contracts n s -> n <= max_u64 -> sys_ok n s.
Proof.
  induction 1 as [|n s lb s' Hr IH He Hs]; intros Hm; [apply idle_ok|].
  specialize (IH ltac:(lia)). destruct (label_proc lb) as [g|] eqn:Hlb.
  - destruct (step_proc _ _ _ _ Hlb Hs) as (p & l & Hg & Hl & Hs'). apply (sys_ok_mono n); [|lia].
    eapply proc_step_ok; eauto. lia.
  - destruct lb as [binding d|release key| | | | | | | |]; try discriminate; cbn in Hs.
    + destruct (admit_delivery _ _ _ _); injection Hs as <-; [apply acquireLane_ok; [done|lia]|by apply refuse_ok].
    + injection Hs as <-. by apply acquireExistingLane_ok.
Qed.

(** A run without early settlements, as a check. *)
Fixpoint orderly (run : list (label P)) s : bool :=
  match run with
  | [] => true
  | lb :: run =>
      negb (early lb s) && match step library contracts lb s with Some s' => orderly run s' | None => false end
  end.

Lemma exec_reach n run s s' :
  reach library contracts n s -> exec library contracts run s = Some s' -> orderly run s = true ->
  reach library contracts (n + Z.of_nat (length run)) s'.
Proof.
  revert n s. induction run as [|lb run IH]; intros n s Hr; cbn [exec orderly length].
  - intros [= <-] _. by rewrite Z.add_0_r.
  - destruct (step library contracts lb s) as [s1|] eqn:E; cbn; [|done]. intros He [Hn Ho]%andb_true_iff.
    apply negb_true_iff in Hn. replace (n + Z.of_nat (S (length run))) with (n + 1 + Z.of_nat (length run)) by lia.
    apply (IH (n + 1) s1); [by eapply reach_step|done..].
Qed.
End Run.

(** ** Theorems on the lanes

    Deliveries of one business key are handed to the application one at a time
    and in the order of their arrival; the lane never stalls unless a retained
    delivery blocks it; the table holds exactly the lanes in use.  All of this
    needs that a retained delivery is not settled in the short time before the
    [Handle] that retained it finishes its turn: two concrete runs show what
    happens otherwise. *)

Section Theorems.
Context {P : Type} (library : CustomerLibrary P) (contracts : gmap string Contract).
Implicit Types (s : sys P) (l : lane P) (p q : proc P).
Abbreviation reach := (reach library contracts).
Abbreviation step := (step library contracts).

Lemma same_lane n s g1 p1 g2 p2 :
  sys_ok n s -> sy_procs s !! g1 = Some p1 -> sy_procs s !! g2 = Some p2 -> pr_key p1 = pr_key p2 ->
  procs_on (pr_lane p1) (sy_procs s) !! g2 = Some p2.
Proof.
  intros H H1 H2 E. apply lookup_procs_on. split; [done|].
  apply (so_key _ _ H) in H1, H2. congruence.
Qed.

(** C14: in every state reached in fewer than 2^64 steps without an early
    settlement (a [Retry] or [Release] that settles a delivery before the deferred
    [finishTurn] of the [Handle] that retained it), at most one
    goroutine has the turn of a business key (from the application call to the
    deferred [finishTurn]); no delivery of the key is with the application or
    being acknowledged while a retained delivery blocks it; and when [Retry] or
    [Release] settles the retained delivery, not early, no [Handle] of the key has the
    turn. *)
Theorem lane_exclusive n s :
  reach n s -> n <= max_u64 ->
  (forall g1 p1 g2 p2, sy_procs s !! g1 = Some p1 -> sy_procs s !! g2 = Some p2 ->
     pr_key p1 = pr_key p2 -> has_turn (pr_pc p1) = true -> has_turn (pr_pc p2) = true -> g1 = g2) /\
  (forall g p l, sy_procs s !! g = Some p -> sy_heap s !! pr_lane p = Some l ->
     pr_pc p = InHandler \/ pr_pc p = InAck -> ln_blocked l = None) /\
  (forall g p l release handled settled, sy_procs s !! g = Some p -> sy_heap s !! pr_lane p = Some l ->
     pr_pc p = AtSettle release -> ln_blocked l <> None -> early (LSettle g handled settled) s = false ->
     forall g' q, sy_procs s !! g' = Some q -> pr_key q = pr_key p -> has_turn (pr_pc q) = false).
Proof.
  intros Hr Hn. pose proof (reach_ok _ _ _ _ Hr Hn) as H. split_and!.
  - intros g1 p1 g2 p2 H1 H2 Ek T1 T2. destruct (proc_lane _ _ _ _ H H1) as (l & _ & Hok & _ & Hon).
    pose proof (same_lane _ _ _ _ _ _ H H1 H2 Ek) as Hon2.
    eapply (ticket_unique _ l g1 p1 g2 p2); eauto using has_turn_ticketed.
    by rewrite (lo_turn _ _ Hok _ _ Hon T1), (lo_turn _ _ Hok _ _ Hon2 T2).
  - intros g p l Hg Hl Hp. destruct (proc_lane _ _ _ _ H Hg) as (l0 & Hl0 & Hok & _ & Hon). simplify_eq.
    pose proof (lo_blocked _ _ Hok _ _ Hon) as B. by destruct Hp as [Hp|Hp]; rewrite Hp in B; apply B.
  - intros g p l release handled settled Hg Hl Hp Hb He g' q Hq Ek. cbn in He. rewrite Hg in He.
    destruct (proc_lane _ _ _ _ H Hg) as (l0 & Hl0 & Hok & _ & Hon). simplify_eq.
    pose proof (same_lane _ _ _ _ _ _ H Hg Hq (eq_sym Ek)) as Hq'.
    apply not_true_iff_false. intros T. pose proof (lo_blocked _ _ Hok _ _ Hq' T) as B.
    by rewrite (unfinished_false _ _ _ _ He Hq') in B.
Qed.

(** C15: deliveries of one business key reach the application in the order in
    which their [Handle] calls entered [acquireLane], however the goroutines
    are scheduled, cancelled or retried, and although the lane object may have
    been dropped and made again in between. *)
Theorem lane_fifo n s k :
  reach n s -> n <= max_u64 -> StronglySorted (fun newer older => older < newer) (started_of k s).
Proof. intros Hr Hn. apply (reach_ok _ _ _ _ Hr Hn). Qed.

(** C16: no wakeup is lost in runs of fewer than 2^64 steps without an early
    settlement.  While a [Handle] of a key is in its queue or has
    its turn and no retained delivery blocks the key, the goroutine whose ticket
    is served can take its next step without any other goroutine, a
    cancellation or a new arrival. *)
Theorem lane_progress n s g p l :
  reach n s -> n <= max_u64 ->
  sy_procs s !! g = Some p -> ticketed (pr_pc p) = true ->
  sy_heap s !! pr_lane p = Some l -> ln_blocked l = None ->
  exists g' q lb s', sy_procs s !! g' = Some q /\ pr_key q = pr_key p /\ pr_ticket q = ln_serving l /\
    pr_ticket q <= pr_ticket p /\ label_proc lb = Some g' /\ lb <> LCancel g' /\ step lb s = Some s'.
Proof.
  intros Hr Hn Hg T Hl Hb. pose proof (reach_ok _ _ _ _ Hr Hn) as H.
  destruct (proc_lane _ _ _ _ H Hg) as (l0 & Hl0 & Hok & _ & Hon). simplify_eq.
  pose proof (lo_ticket _ _ Hok _ _ Hon T) as Ht.
  destruct (lo_served _ _ Hok Hb) as (g' & q & Hq & Tq & Es); [lia|].
  pose proof Hq as [Hq' El]%lookup_procs_on.
  assert (Ek : pr_key q = pr_key p).
  { eapply (so_inj _ _ H); [by apply (so_key _ _ H g')|]. rewrite El. by apply (so_key _ _ H g). }
  assert (Hlq : sy_heap s !! pr_lane q = Some l) by (by rewrite El).
  assert (Hstep : exists lb s', label_proc lb = Some g' /\ lb <> LCancel g' /\ proc_step lb g' q l s = Some s' /\
    step lb s = proc_step lb g' q l s).
  { destruct (pr_pc q) as [|w| | |r|rel|r] eqn:Eq; try done.
    - exists (LTurn g'). cbn. rewrite Eq, Hq'. cbn. rewrite Hlq. cbn. rewrite Eq.
      destruct (waitForTurn _ _ _) as [l' []]; eauto 10.
    - exists (LWake g' true). cbn. rewrite Eq, Hq'. cbn. rewrite Hlq. cbn. rewrite Eq.
      destruct (lo_select _ _ Hok _ _ _ Hq Eq) as [-> Hsel].
      assert (pr_ticket q ∈ ln_signals l) as Hs.
      { destruct (lo_waiting _ _ Hok _ _ Hq) as [Hw|(_ & _ & Hx)]; [by rewrite Eq|by destruct Hsel|by eapply Hx]. }
      rewrite bool_decide_eq_true_2 by done. cbn. eauto 10.
    - exists (LHandled g' nil_err). cbn. rewrite Eq, Hq'. cbn. rewrite Hlq. cbn. rewrite Eq. eauto 10.
    - exists (LAcked g' nil_err). cbn. rewrite Eq, Hq'. cbn. rewrite Hlq. cbn. rewrite Eq. eauto 10.
    - exists (LFinish g'). cbn. rewrite Eq, Hq'. cbn. rewrite Hlq. cbn. rewrite Eq. eauto 10. }
  destruct Hstep as (lb & s' & H1 & H2 & H3 & H4). exists g', q, lb, s'. rewrite H4.
  split_and!; try done. lia.
Qed.

(** The table of lanes holds a lane exactly while some call uses it or a
    retained delivery blocks it; so it never grows with the keys that were seen,
    and a key has one lane for all of its callers. *)
Theorem lane_table n s :
  reach n s -> n <= max_u64 ->
  (forall g p, sy_procs s !! g = Some p -> sy_lanes s !! pr_key p = Some (pr_lane p)) /\
  (forall k loc, sy_lanes s !! k = Some loc -> exists l, sy_heap s !! loc = Some l /\
     ln_users l = Z.of_nat (size (procs_on loc (sy_procs s))) /\
     ((exists g p, sy_procs s !! g = Some p /\ pr_key p = k) \/ is_Some (ln_blocked l))).
Proof.
  intros Hr Hn. pose proof (reach_ok _ _ _ _ Hr Hn) as H. split; [apply H|].
  intros k loc Hk. destruct (so_lane _ _ H _ _ Hk) as (l & Hl & Hok & _ & Hu). exists l.
  split_and!; [done|by apply (lo_users _ _ Hok)|]. destruct Hu as [Hu|Hb]; [left|right; by apply not_eq_None_Some].
  rewrite (lo_users _ _ Hok) in Hu.
  destruct (map_choose (procs_on loc (sy_procs s))) as (g & p & [Hg Ep]%lookup_procs_on).
  { intros E. rewrite E, map_size_empty in Hu. lia. }
  exists g, p. split; [done|]. eapply (so_inj _ _ H); [by apply (so_key _ _ H g)|]. by rewrite Ep.
Qed.
End Theorems.
