(* ===== verification/LaneScenario.v ===== *)
(** * Concrete runs of the lanes

    A small customer library and deliveries of one business key: a run to which
    the theorems of LaneTheorems.v apply, and the two runs in which [Retry]
    settles a delivery before the [Handle] that retained it has finished. *)

From S2P Require Import Prelude Customer Lane LaneInv LaneTheorems.
From Stdlib Require Import ZArith Lia Sorted.
From stdpp Require Import base gmap strings numbers option sorting list.
#[local] Open Scope Z_scope.

Definition demo_library : CustomerLibrary unit :=
  mkCustomerLibrary (fun _ => Ok "orders"%string) (fun _ => Ok [7]) None.
Definition demo_contracts : gmap string Contract :=
  {["orders"%string := mkContract "entity-affinity-v1" "1.0"]}.
Definition demo_binding : Binding := mkBinding "orders" "b1" "tcp://b1" 1 "q.orders.1".
Definition demo_key : laneKey := mkLaneKey "orders" [7].
Definition demo_delivery (i : Z) : Delivery unit :=
  mkDelivery i (mkMessageView "orders/new" ∅ tt "e")
    (Some (Ok (mkRoutingMetadata "orders" [7] "entity-affinity-v1" "1.0" 1 "orders/new"))) true.

Definition arrive (i : Z) : label unit := LHandle demo_binding (demo_delivery i).
Definition failed : gerr := Err (ErrNew "handler").

(** [0] is with the application and [1] and [2] wait; then [0] fails. *)
Definition queue_run : list (label unit) :=
  [arrive 0; LTurn 0; arrive 1; arrive 2; LTurn 1; LTurn 2; LHandled 0 failed].

Abbreviation demo_exec run := (exec demo_library demo_contracts run idle_sys).
Definition pc_of (g : Z) (s : sys unit) : option pc := pr_pc <$> sy_procs s !! g.


(** ** A run in order *)

(** [0] finishes its turn; [Retry] settles its delivery, which wakes [1]; [1]
    is handled and acknowledged while [2] waits. *)
Definition orderly_run : list (label unit) :=
  (queue_run ++ [LFinish 0; LRelease 0; LSettleStart false demo_key; LSettle 3 nil_err nil_err; LRelease 3;
                LWake 1 true; LTurn 1; LHandled 1 nil_err])%list.

Lemma orderly_reach : exists s, demo_exec orderly_run = Some s /\
  reach demo_library demo_contracts 15 s /\ pc_of 1 s = Some InAck /\ pc_of 2 s = Some (InSelect true) /\
  started_of demo_key s = [1; 0].
Proof.
  assert (E : exists s, demo_exec orderly_run = Some s) by (vm_compute; by eexists).
  destruct E as [s E]. exists s. split; [exact E|]. split.
  - apply (exec_reach demo_library demo_contracts 0 orderly_run idle_sys s);
      [apply reach_idle|exact E|vm_compute; reflexivity].
  - assert (H : (fun s => (pc_of 1 s, pc_of 2 s, started_of demo_key s)) <$> demo_exec orderly_run =
      Some (Some InAck, Some (InSelect true), [1; 0])) by (vm_compute; reflexivity).
    rewrite E in H. cbn in H. injection H as H1 H2 H3. exact (conj H1 (conj H2 H3)).
Qed.

Lemma demo_pc g s c : pc_of g s = Some c -> exists p, sy_procs s !! g = Some p /\ pr_pc p = c.
Proof. unfold pc_of. destruct (sy_procs s !! g) as [p|]; [|done]. intros [= <-]. by exists p. Qed.

Lemma lane_exclusive_witness : exists s, demo_exec orderly_run = Some s /\ pc_of 1 s = Some InAck /\
  forall g p, sy_procs s !! g = Some p -> has_turn (pr_pc p) = true ->
    (pr_key <$> sy_procs s !! 1) = Some (pr_key p) -> g = 1.
Proof.
  destruct orderly_reach as (s & E & R & E1 & _). exists s. split; [exact E|]. split; [exact E1|].
  destruct (demo_pc _ _ _ E1) as (p1 & H1 & C1). intros g p Hg T Ek. rewrite H1 in Ek. injection Ek as Ek.
  assert (T1 : has_turn (pr_pc p1) = true) by (rewrite C1; reflexivity).
  exact (proj1 (lane_exclusive demo_library demo_contracts 15 s R ltac:(done)) g p 1 p1 Hg H1 (eq_sym Ek) T T1).
Defined.

Lemma lane_fifo_witness : exists s, demo_exec orderly_run = Some s /\ started_of demo_key s = [1; 0] /\
  StronglySorted (fun newer older => older < newer) (started_of demo_key s).
Proof.
  destruct orderly_reach as (s & E & R & _ & _ & E3). exists s. split; [exact E|]. split; [exact E3|].
  exact (lane_fifo demo_library demo_contracts 15 s demo_key R ltac:(done)).
Defined.

Lemma lane_progress_witness : exists s g q lb s', demo_exec orderly_run = Some s /\
  pc_of 2 s = Some (InSelect true) /\ sy_procs s !! g = Some q /\ label_proc lb = Some g /\
  lb <> LCancel g /\ step demo_library demo_contracts lb s = Some s'.
Proof.
  destruct orderly_reach as (s & E & R & E1 & E2 & _). destruct (demo_pc _ _ _ E2) as (p & Hp & Cp).
  assert (K : (fun s => (pr_lane <$> sy_procs s !! 2, ln_blocked <$> sy_heap s !! 1%positive)) <$> demo_exec orderly_run =
    Some (Some 1%positive, Some None)) by (vm_compute; reflexivity).
  rewrite E in K. cbn in K. rewrite Hp in K. cbn in K. injection K as K1 K2.
  destruct (sy_heap s !! 1%positive) as [l|] eqn:Hl1; [|discriminate]. injection K2 as Hb.
  assert (Hl : sy_heap s !! pr_lane p = Some l) by (rewrite K1; exact Hl1).
  assert (T : ticketed (pr_pc p) = true) by (by rewrite Cp).
  destruct (lane_progress demo_library demo_contracts 15 s 2 p l R ltac:(done) Hp T Hl Hb)
    as (g & q & lb & s' & Hq & _ & _ & _ & L1 & L2 & L3).
  exists s, g, q, lb, s'. exact (conj E (conj E2 (conj Hq (conj L1 (conj L2 L3))))).
Defined.

Lemma lane_table_witness : exists s, demo_exec orderly_run = Some s /\
  forall k loc, sy_lanes s !! k = Some loc -> exists l, sy_heap s !! loc = Some l /\
    ln_users l = Z.of_nat (size (procs_on loc (sy_procs s))).
Proof.
  destruct orderly_reach as (s & E & R & _). exists s. split; [exact E|]. intros k loc Hk.
  destruct (proj2 (lane_table demo_library demo_contracts 15 s R ltac:(done)) k loc Hk) as (l & Hl & Hu & _).
  exists l. split; [exact Hl|exact Hu].
Defined.

(** ** Early settlement *)

(** [Retry] takes [lane.mu] between the two regions of [0]: it skips ticket 0
    and wakes [1]; the deferred [finishTurn] of [0] then passes the turn on a
    second time. *)
Definition overlap_run : list (label unit) :=
  (queue_run ++ [LSettleStart false demo_key; LSettle 3 nil_err nil_err; LWake 1 true; LTurn 1;
                LFinish 0; LWake 2 true; LTurn 2])%list.

(** As before, but [1] has not woken up when [0] finishes; all others go on to
    the end. *)
Definition stuck_run : list (label unit) :=
  (queue_run ++ [LSettleStart false demo_key; LSettle 3 nil_err nil_err; LRelease 3; LFinish 0; LRelease 0;
                LWake 1 true; LTurn 1; LWake 2 true; LTurn 2; LHandled 2 nil_err; LAcked 2 nil_err;
                LFinish 2; LRelease 2])%list.

(** C37: when [Retry] settles a retained delivery before the [Handle] that
    retained it reaches its deferred [finishTurn], the turn is passed on twice.
    In one run two deliveries of the same business key are with the application
    at once; in another a delivery is skipped and sleeps on a nil channel, with
    no step left but its cancellation, although nobody else uses the lane. *)
Theorem early_settlement_breaks_lane :
  (exists s, demo_exec overlap_run = Some s /\ pc_of 1 s = Some InHandler /\ pc_of 2 s = Some InHandler /\
     (pr_key <$> sy_procs s !! 1) = Some demo_key /\ (pr_key <$> sy_procs s !! 2) = Some demo_key) /\
  (exists s, demo_exec stuck_run = Some s /\ pc_of 1 s = Some (InSelect false) /\
     size (sy_procs s) = 1%nat /\
     forall lb, label_proc lb = Some 1 -> lb <> LCancel 1 -> step demo_library demo_contracts lb s = None).
Proof.
  split.
  - assert (E : exists s, demo_exec overlap_run = Some s) by (vm_compute; by eexists).
    destruct E as [s E].
    assert (H : (fun s => (pc_of 1 s, pc_of 2 s, pr_key <$> sy_procs s !! 1, pr_key <$> sy_procs s !! 2)) <$>
      demo_exec overlap_run = Some (Some InHandler, Some InHandler, Some demo_key, Some demo_key))
      by (vm_compute; reflexivity).
    rewrite E in H. cbn in H. injection H as H1 H2 H3 H4. exists s. exact (conj E (conj H1 (conj H2 (conj H3 H4)))).
  - assert (E : exists s, demo_exec stuck_run = Some s) by (vm_compute; by eexists).
    destruct E as [s E].
    assert (H : (fun s => (pc_of 1 s, pr_cancelled <$> sy_procs s !! 1, size (sy_procs s))) <$> demo_exec stuck_run =
      Some (Some (InSelect false), Some false, 1%nat)) by (vm_compute; reflexivity).
    rewrite E in H. cbn in H. injection H as H1 H2 H3. exists s. split; [exact E|]. split; [exact H1|]. split; [exact H3|]. clear E.
    destruct (demo_pc _ _ _ H1) as (p & Hp & Cp). rewrite Hp in H2. injection H2 as H2.
    intros lb Hlb Hn. destruct lb; cbn in Hlb; try done; injection Hlb as ->; try done; cbn; rewrite Hp; cbn;
      destruct (sy_heap s !! pr_lane p); cbn; try done; rewrite Cp; try done.
    by destruct signal; rewrite ?H2.
Qed.
