(* ===== verification/Subscriber.v ===== *)
(** * Consumer lifecycle of the subscriber shim (shim/subscriber/subscriber.go)

    [Shim] owns the native consumers of a participant: the active ones of each
    scaling group, those prepared for a pending membership transition, and those
    whose [Close] failed.  Every operation below runs under [lifecycleMu], so
    it is a function of the shim's state; the inner lock [mu] orders it only
    against operations that do not touch this state.

    Native consumers, the factory and the readiness reporter are the
    transport's: each call is recorded with its answer in the trace of
    [World], and the answers are an argument.  Go's map iteration order is an
    argument too, of which only that every entry is visited once is known. *)

From S2P Require Import Prelude Customer Snapshot Naming Lane.
From Stdlib Require Import ZArith Lia.
From stdpp Require Import base gmap strings numbers option list.
#[local] Open Scope Z_scope.

(** ** Data *)

(** [SubTransition] is the package's [Transition]. *)
Record SubTransition := mkSubTransition {
  sx_ID : string;
  sx_Group : string;
  sx_SourceEpoch : Z;
  sx_ProposedEpoch : Z;
  sx_Source : list Binding;
  sx_Proposed : list Binding;
}.
#[export] Instance SubTransition_eq_dec : EqDecision SubTransition.
Proof. solve_decision. Defined.

Record Readiness := mkReadiness {
  rd_Participant : string;
  rd_Group : string;
  rd_TransitionID : string;
  rd_Epoch : Z;
  rd_Bindings : list Binding;
  rd_Ready : bool;
  rd_Reason : string;
}.

(** A consumer is a pointer, here the number of its creation; its identity is
    the text of the pointer. *)
Abbreviation Consumer := Z (only parsing).
Definition consumerIdentity (c : Consumer) : string := FormatUint c.
Definition sameConsumer (left right : Consumer) : bool := str_eqb (consumerIdentity left) (consumerIdentity right).

Record boundConsumer := mkBound { bc_binding : Binding; bc_consumer : Consumer }.

(** The maps to [bool] only ever hold [true]. *)
Record preparedTransition := mkPrepared {
  pt_spec : SubTransition;
  pt_prepared : gmap string boundConsumer;
  pt_activated : gset string;
  pt_closedSource : gset string;
  pt_closedPrepared : gset string;
  pt_resumedSource : gset string;
  pt_paused : bool;
}.
#[export] Instance preparedTransition_eta : Eta preparedTransition := fun t =>
  mkPrepared (pt_spec t) (pt_prepared t) (pt_activated t) (pt_closedSource t) (pt_closedPrepared t)
    (pt_resumedSource t) (pt_paused t).

Record groupState := mkGroup {
  gs_active : gmap string boundConsumer;
  gs_transition : option preparedTransition;
}.
#[export] Instance groupState_eta : Eta groupState := fun g => mkGroup (gs_active g) (gs_transition g).

(** Calls to the transport, with the consumer they concern. *)
Inductive call :=
| CallPrepare (c : Consumer) (b : Binding)
| CallActivate (c : Consumer)
| CallPause (c : Consumer)
| CallClose (c : Consumer)
| CallReport (r : Readiness).

(** [w_trace] is newest first; [w_next] is the number of consumers made. *)
Record World := mkWorld { w_next : Z; w_trace : list (call * gerr) }.

Record Shim := mkShim {
  sh_participant : string;
  sh_contracts : gmap string Contract;
  sh_groups : gmap string groupState;
  sh_cleanup : gmap string Consumer;
  sh_world : World;
}.
#[export] Instance Shim_eta : Eta Shim := fun s =>
  mkShim (sh_participant s) (sh_contracts s) (sh_groups s) (sh_cleanup s) (sh_world s).

Definition ErrTransitionInProgress : gerror := ErrNew "subscriber: transition already in progress".
Definition ErrTransitionNotFound : gerror := ErrNew "subscriber: transition not found".
Definition ErrStaleTransition : gerror := ErrNew "subscriber: stale transition".
Definition ErrSourceCoverage : gerror := ErrNew "subscriber: active consumers do not cover transition source".

(** ** Bindings and transitions *)

Definition binding_Validate (b : Binding) : gerr :=
  fail_if (str_empty (b_Group b) || str_empty (b_BrokerID b) || str_empty (b_Destination b) || (b_Epoch b =? 0))
    (ErrNew "subscriber: binding group, broker, epoch and destination are required").

Definition binding_key (b : Binding) : string :=
  strings_Join [b_Group b; b_BrokerID b; b_Endpoint b; FormatUint (b_Epoch b); b_Destination b] NUL.

(** The loop over one of the two sets, and one pass of it. *)
Definition check_binding (group : string) (seen : gset string) (binding : Binding) : result (gset string) :=
  binding_Validate binding ;;!
  fail_if (negb (str_eqb (b_Group binding) group))
    (ErrNew "subscriber: binding group does not match transition group") ;;!
  fail_if (bool_decide (binding_key binding ∈ seen)) (ErrNew "subscriber: duplicate binding for broker") ;;!
  Ok ({[binding_key binding]} ∪ seen).
Definition validate_binding_set (group : string) (set : list Binding) : gerr :=
  let! _ := fold_result (check_binding group) ∅ set in nil_err.

Definition transition_Validate (t : SubTransition) : gerr :=
  fail_if (str_empty (sx_ID t) || str_empty (sx_Group t) || (sx_SourceEpoch t =? 0) ||
           (sx_ProposedEpoch t <=? sx_SourceEpoch t))
    (ErrNew "subscriber: valid transition id, group and increasing epochs are required") ;;!
  fail_if (bool_decide (sx_Proposed t = []))
    (ErrNew "subscriber: at least one proposed binding is required") ;;!
  validate_binding_set (sx_Group t) (sx_Source t) ;;!
  validate_binding_set (sx_Group t) (sx_Proposed t) ;;!
  for_each (fun b => fail_if (negb (b_Epoch b =? sx_SourceEpoch t))
    (ErrNew "subscriber: source binding epoch does not match")) (sx_Source t) ;;!
  for_each (fun b => fail_if (negb (b_Epoch b =? sx_ProposedEpoch t))
    (ErrNew "subscriber: proposed binding epoch does not match")) (sx_Proposed t).

Definition equalTransition (a b : SubTransition) : bool :=
  str_eqb (sx_ID a) (sx_ID b) && str_eqb (sx_Group a) (sx_Group b) &&
  (sx_SourceEpoch a =? sx_SourceEpoch b) && (sx_ProposedEpoch a =? sx_ProposedEpoch b) &&
  bool_decide (sx_Source a = sx_Source b) && bool_decide (sx_Proposed a = sx_Proposed b).

Fixpoint membershipMatches (bindings : list Binding) (membership : Membership) : bool :=
  match bindings, membership with
  | [], [] => true
  | b :: bindings, m :: membership => str_eqb (b_BrokerID b) m && membershipMatches bindings membership
  | _, _ => false
  end.

Definition missingBindings (required : list Binding) (active : gmap string boundConsumer) : list string :=
  b_BrokerID <$> filter (fun b => active !! binding_key b = None) required.

(** A destination resolver. *)
Abbreviation resolver := (string -> Z -> DestinationInfo -> result string) (only parsing).

(** One broker's binding, at an epoch; [missing] is the error's text. *)
Definition resolve_binding (destination : resolver) (snapshot : MembershipSnapshot) (proposed : bool)
    (epoch : Z) (unresolved missing : string) (broker : string) : result Binding :=
  let! name := wrap_err unresolved (destination broker epoch (ms_Destination snapshot)) in
  match BrokerEndpoint snapshot broker proposed with
  | None => Err (ErrNew missing)
  | Some endpoint => Ok (mkBinding (ms_ScalingGroup snapshot) broker endpoint epoch name)
  end.

Definition resolve_bindings (destination : resolver) (snapshot : MembershipSnapshot) (proposed : bool)
    (epoch : Z) (unresolved missing : string) (brokers : Membership) : result (list Binding) :=
  fold_result (fun acc broker =>
    let! b := resolve_binding destination snapshot proposed epoch unresolved missing broker in
    Ok (acc ++ [b])) [] brokers.

Definition TransitionFromSnapshot `{NetURL} (snapshot : MembershipSnapshot) (destination : option resolver)
    : result SubTransition :=
  Validate snapshot ;;!
  match ms_Phase snapshot with
  | CPrepare | CPaused | CDrain =>
      match destination, ms_Transition snapshot with
      | Some destination, Some tr =>
          let! source := resolve_bindings destination snapshot false (tr_FromEpoch tr)
            "subscriber: resolve source broker" "subscriber: no endpoint for source broker"
            (ms_CurrentMembership snapshot) in
          let! proposed := resolve_bindings destination snapshot true (tr_ToEpoch tr)
            "subscriber: resolve proposed broker" "subscriber: no endpoint for proposed broker"
            (ms_ProposedMembership snapshot) in
          let transition := mkSubTransition (tr_ID tr) (ms_ScalingGroup snapshot) (tr_FromEpoch tr) (tr_ToEpoch tr)
            source proposed in
          transition_Validate transition ;;! Ok transition
      | _, _ => Err (ErrNew "subscriber: transition and destination resolver are required")
      end
  | _ => Err (ErrNew "subscriber: transition snapshot must be PREPARE, PAUSED, or DRAIN")
  end.

(** ** The state monad of the operations *)

Definition M (A : Type) : Type := Shim -> A * Shim.
#[export] Instance M_ret : MRet M := fun _ a s => (a, s).
#[export] Instance M_bind : MBind M := fun _ _ k m s => let '(a, s) := m s in k a s.

Definition gets {A} (f : Shim -> A) : M A := fun s => (f s, s).
Definition modify (f : Shim -> Shim) : M unit := fun s => (tt, f s).

(** [if err := m; err != nil { return err }]. *)
Notation "'do!' m ';' k" := (e ← m; match e with Err e => mret (Err e) | Ok _ => k end)
  (at level 100, m at level 99, k at level 200, only parsing) : go_scope.

(** [for _, x := range l { if err := f(x); err != nil { return err } }]. *)
Fixpoint mfor {A} (f : A -> M gerr) (l : list A) : M gerr :=
  match l with
  | [] => mret nil_err
  | x :: l => do! f x; mfor f l
  end.

(** A loop that goes on after errors and collects the results. *)
Fixpoint mcollect {A} (f : A -> M gerr) (l : list A) : M (list gerr) :=
  match l with
  | [] => mret []
  | x :: l => e ← f x; es ← mcollect f l; mret (e :: es)
  end.

(** [errors.Join]: nil when all are nil; the first stands for the others. *)
Definition errors_Join (es : list gerr) : gerr := for_each id es.

(** The iteration order of Go's maps, at the [n]-th call to the transport. *)
Class RangeOrder := {
  map_range {A : Type} : nat -> gmap string A -> list (string * A);
  map_range_perm {A : Type} n (m : gmap string A) : map_range n m ≡ₚ map_to_list m;
}.

Section Ops.
Context `{NetURL} `{RangeOrder} {P : Type} (library : CustomerLibrary P).
(** The transport's answer to its [n]-th call. *)
Context (answer : nat -> gerr).
Implicit Types s : Shim.

Definition calls s : nat := length (w_trace (sh_world s)).

Definition call_transport (c : call) : M gerr := fun s =>
  let e := answer (calls s) in
  (e, s <| sh_world := mkWorld (w_next (sh_world s)) ((c, e) :: w_trace (sh_world s)) |>).

Definition Activate_consumer (c : Consumer) : M gerr := call_transport (CallActivate c).
Definition Pause_consumer (c : Consumer) : M gerr := call_transport (CallPause c).
Definition Close_consumer (c : Consumer) : M gerr := call_transport (CallClose c).
Definition ReportReadiness (r : Readiness) : M gerr := call_transport (CallReport r).

(** [factory.Prepare]: a consumer that did not exist before, or an error. *)
Definition Prepare_consumer (b : Binding) : M (result Consumer) :=
  c ← gets (fun s => w_next (sh_world s));
  e ← call_transport (CallPrepare c b);
  match e with
  | Err e => mret (Err e)
  | Ok _ =>
      _ ← modify (fun s => s <| sh_world := mkWorld (c + 1) (w_trace (sh_world s)) |>);
      mret (Ok c)
  end.

(** [range m]. *)
Definition ranged {A} (m : gmap string A) : M (list (string * A)) := gets (fun s => map_range (calls s) m).

Definition empty_group : groupState := mkGroup ∅ None.

Definition group_of (group : string) s : groupState := default empty_group (sh_groups s !! group).
Definition set_group (group : string) (g : groupState) s : Shim :=
  s <| sh_groups := <[group := g]> (sh_groups s) |>.

Definition ensureGroup (group : string) : M groupState :=
  _ ← modify (fun s => set_group group (group_of group s) s);
  gets (group_of group).

(** The pending transition is an object of the group: its fields change in
    place. *)
Definition upd_transition (group : string) (f : preparedTransition -> preparedTransition) : M unit :=
  modify (fun s => set_group group (group_of group s <| gs_transition := f <$> gs_transition (group_of group s) |>) s).

Definition trackCleanup (c : Consumer) : M unit :=
  modify (fun s => s <| sh_cleanup := <[consumerIdentity c := c]> (sh_cleanup s) |>).

Definition addActive (binding : Binding) : M gerr :=
  match binding_Validate binding with
  | Err e => mret (Err e)
  | Ok _ =>
      group ← ensureGroup (b_Group binding);
      match gs_active group !! binding_key binding with
      | Some _ => mret nil_err
      | None =>
          r ← Prepare_consumer binding;
          match r with
          | Err e => mret (Err (ErrWrap "subscriber: prepare active binding" e))
          | Ok consumer =>
              e ← Activate_consumer consumer;
              match e with
              | Err e =>
                  let activateErr := ErrWrap "subscriber: activate binding" e in
                  c ← Close_consumer consumer;
                  match c with
                  | Err _ => _ ← trackCleanup consumer; mret (Err activateErr)
                  | Ok _ => mret (Err activateErr)
                  end
              | Ok _ =>
                  group ← ensureGroup (b_Group binding);
                  match gs_active group !! binding_key binding with
                  | Some _ =>
                      c ← Close_consumer consumer;
                      match c with
                      | Err e => _ ← trackCleanup consumer; mret (Err (ErrWrap "subscriber: close duplicate active binding" e))
                      | Ok _ => mret nil_err
                      end
                  | None =>
                      _ ← modify (set_group (b_Group binding) (group <| gs_active :=
                            <[binding_key binding := mkBound binding consumer]> (gs_active group) |>));
                      mret nil_err
                  end
              end
          end
      end
  end.

Definition AddActive (binding : Binding) : M gerr := addActive binding.

(** [bindings]: by broker; the order of equal brokers is the map's. *)
Definition bindings_sorted (l : list (string * boundConsumer)) : list Binding :=
  sort_by (fun a b => str_ltb (b_BrokerID a) (b_BrokerID b)) ((fun kb => bc_binding kb.2) <$> l).
Definition bindings (consumers : gmap string boundConsumer) : M (list Binding) :=
  l ← ranged consumers; mret (bindings_sorted l).

Definition readiness (participant : string) (transition : SubTransition) (prepared : list Binding)
    (ready : bool) (reason : string) : Readiness :=
  mkReadiness participant (sx_Group transition) (sx_ID transition) (sx_ProposedEpoch transition) prepared ready reason.

Definition closePrepared (prepared active : gmap string boundConsumer) : M gerr :=
  l ← ranged prepared;
  es ← mcollect (fun kb =>
    if bool_decide (is_Some (active !! kb.1)) then mret nil_err else
    e ← Close_consumer (bc_consumer kb.2);
    match e with
    | Err e => _ ← trackCleanup (bc_consumer kb.2); mret (Err (ErrWrap "subscriber: close prepared broker" e))
    | Ok _ => mret nil_err
    end) l;
  mret (errors_Join es).

(** The loop of [prepare] over the proposed bindings: what is prepared, and the
    factory's error. *)
Fixpoint prepare_loop (active : gmap string boundConsumer) (proposed : list Binding)
    (prepared : gmap string boundConsumer) : M (gmap string boundConsumer * gerr) :=
  match proposed with
  | [] => mret (prepared, nil_err)
  | binding :: proposed =>
      match active !! binding_key binding with
      | Some existing => prepare_loop active proposed (<[binding_key binding := existing]> prepared)
      | None =>
          r ← Prepare_consumer binding;
          match r with
          | Err e => mret (prepared, Err e)
          | Ok consumer => prepare_loop active proposed (<[binding_key binding := mkBound binding consumer]> prepared)
          end
      end
  end.

Definition report (transition : SubTransition) (prepared : list Binding) (ready : bool) (reason : string) : M gerr :=
  participant ← gets sh_participant;
  ReportReadiness (readiness participant transition prepared ready reason).

(** [prepare] when no transition is pending in the group. *)
Definition prepare_new (transition : SubTransition) (active : gmap string boundConsumer) : M gerr :=
  if bool_decide (missingBindings (sx_Source transition) active <> []) then
    _ ← report transition [] false "source coverage incomplete";
    mret (Err (ErrWrap "missing" ErrSourceCoverage))
  else
    '(prepared, err) ← prepare_loop active (sx_Proposed transition) ∅;
    match err with
    | Err e =>
        closeErr ← closePrepared prepared active;
        bs ← bindings prepared;
        reportErr ← report transition bs false "prepare failed";
        mret (errors_Join [Err (ErrWrap "subscriber: prepare proposed binding" e); closeErr;
                           wrap_err "subscriber: report not ready" reportErr])
    | Ok _ =>
        group ← ensureGroup (sx_Group transition);
        match gs_transition group with
        | Some _ =>
            closeErr ← closePrepared prepared active;
            mret (errors_Join [Err ErrTransitionInProgress; closeErr])
        | None =>
            _ ← modify (set_group (sx_Group transition)
                  (group <| gs_transition := Some (mkPrepared transition prepared ∅ ∅ ∅ ∅ false) |>));
            e ← report transition (sx_Proposed transition) true "";
            mret (wrap_err "subscriber: report readiness" e)
        end
    end.

Definition prepare (transition : SubTransition) : M gerr :=
  match transition_Validate transition with
  | Err e => mret (Err e)
  | Ok _ =>
      group ← ensureGroup (sx_Group transition);
      match gs_transition group with
      | Some pending =>
          if equalTransition (pt_spec pending) transition then
            prepared ← bindings (pt_prepared pending);
            report transition prepared true ""
          else mret (Err ErrTransitionInProgress)
      | None => prepare_new transition (gs_active group)
      end
  end.

Definition Prepare (transition : SubTransition) : M gerr := prepare transition.

(** The guards that [pauseSource], [activate] and [rollback] share. *)
Definition pending_transition (group transitionID : string) s : result (groupState * preparedTransition) :=
  match sh_groups s !! group with
  | None => Err ErrTransitionNotFound
  | Some state =>
      match gs_transition state with
      | None => Err ErrTransitionNotFound
      | Some transition =>
          if str_eqb (sx_ID (pt_spec transition)) transitionID then Ok (state, transition) else Err ErrStaleTransition
      end
  end.

(** The re-check after the calls to the transport. *)
Definition still_pending (group transitionID : string) s : bool :=
  match gs_transition (group_of group s) with
  | Some t => str_eqb (sx_ID (pt_spec t)) transitionID
  | None => false
  end.

Definition source_epoch (transition : preparedTransition) (c : boundConsumer) : bool :=
  b_Epoch (bc_binding c) =? sx_SourceEpoch (pt_spec transition).

Definition pause_one (transition : preparedTransition) (kb : string * boundConsumer) : M gerr :=
  if source_epoch transition kb.2 then
    e ← Pause_consumer (bc_consumer kb.2); mret (wrap_err "subscriber: pause source broker" e)
  else mret nil_err.

Definition pauseSource (group transitionID : string) : M gerr :=
  r ← gets (pending_transition group transitionID);
  match r with
  | Err e => mret (Err e)
  | Ok (state, transition) =>
      if pt_paused transition then mret nil_err else
      l ← ranged (gs_active state);
      do! mfor (pause_one transition) l;
      ok ← gets (still_pending group transitionID);
      _ ← (if ok : bool then upd_transition group (fun t => t <| pt_paused := true |>) else mret tt);
      mret nil_err
  end.

Definition PauseSource (group transitionID : string) : M gerr := pauseSource group transitionID.

(** The bodies of the two loops of [activate]. *)
Definition activate_one (group : string) (transition : preparedTransition) (kb : string * boundConsumer) : M gerr :=
  if bool_decide (kb.1 ∈ pt_activated transition) then mret nil_err else
  e ← Activate_consumer (bc_consumer kb.2);
  match e with
  | Err e => mret (Err (ErrWrap "subscriber: activate proposed broker" e))
  | Ok _ => _ ← upd_transition group (fun t => t <| pt_activated := {[kb.1]} ∪ pt_activated t |>); mret nil_err
  end.
Definition close_source_one (group : string) (transition : preparedTransition) (kb : string * boundConsumer) : M gerr :=
  if source_epoch transition kb.2 && negb (bool_decide (kb.1 ∈ pt_closedSource transition)) then
    e ← Close_consumer (bc_consumer kb.2);
    match e with
    | Err e => mret (Err (ErrWrap "subscriber: close source broker" e))
    | Ok _ => _ ← upd_transition group (fun t => t <| pt_closedSource := {[kb.1]} ∪ pt_closedSource t |>); mret nil_err
    end
  else mret nil_err.

Definition activate (group transitionID : string) : M gerr :=
  r ← gets (pending_transition group transitionID);
  match r with
  | Err e => mret (Err e)
  | Ok (state, transition) =>
      let prepared := pt_prepared transition in
      let active := gs_active state in
      l ← ranged prepared;
      do! mfor (activate_one group transition) l;
      l ← ranged active;
      do! mfor (close_source_one group transition) l;
      ok ← gets (still_pending group transitionID);
      if ok : bool then
        _ ← modify (set_group group
              (mkGroup (prepared ∪ filter (fun kb => source_epoch transition kb.2 = false) active) None));
        mret nil_err
      else mret (Err ErrStaleTransition)
  end.

Definition Activate (group transitionID : string) : M gerr := activate group transitionID.

(** The bodies of the two loops of [rollback]. *)
Definition close_prepared_one (group : string) (active : gmap string boundConsumer) (transition : preparedTransition)
    (kb : string * boundConsumer) : M gerr :=
  if bool_decide (is_Some (active !! kb.1)) || bool_decide (kb.1 ∈ pt_closedPrepared transition) then mret nil_err else
  e ← Close_consumer (bc_consumer kb.2);
  match e with
  | Err e => mret (Err (ErrWrap "subscriber: close prepared broker" e))
  | Ok _ => _ ← upd_transition group (fun t => t <| pt_closedPrepared := {[kb.1]} ∪ pt_closedPrepared t |>); mret nil_err
  end.
Definition resume_one (group : string) (transition : preparedTransition) (kb : string * boundConsumer) : M gerr :=
  if source_epoch transition kb.2 && negb (bool_decide (kb.1 ∈ pt_resumedSource transition)) then
    e ← Activate_consumer (bc_consumer kb.2);
    match e with
    | Err e => mret (Err (ErrWrap "subscriber: resume source broker" e))
    | Ok _ => _ ← upd_transition group (fun t => t <| pt_resumedSource := {[kb.1]} ∪ pt_resumedSource t |>); mret nil_err
    end
  else mret nil_err.

Definition rollback (group transitionID : string) : M gerr :=
  r ← gets (pending_transition group transitionID);
  match r with
  | Err e => mret (Err e)
  | Ok (state, transition) =>
      let active := gs_active state in
      l ← ranged (pt_prepared transition);
      do! mfor (close_prepared_one group active transition) l;
      l ← ranged active;
      do! (if pt_paused transition then mfor (resume_one group transition) l else mret nil_err);
      _ ← modify (fun s => if still_pending group transitionID s
            then set_group group (group_of group s <| gs_transition := None |>) s else s);
      mret nil_err
  end.

Definition Rollback (group transitionID : string) : M gerr := rollback group transitionID.

Definition remove_active (group key : string) (consumer : Consumer) s : Shim :=
  match sh_groups s !! group with
  | None => s
  | Some state =>
      match gs_active state !! key with
      | Some bc => if bool_decide (bc_consumer bc = consumer)
                   then set_group group (state <| gs_active := delete key (gs_active state) |>) s else s
      | None => s
      end
  end.

Definition close_obsolete_one (group : string) (kb : string * boundConsumer) : M gerr :=
  e ← Close_consumer (bc_consumer kb.2);
  match e with
  | Err e => mret (Err (ErrWrap "subscriber: close obsolete active broker" e))
  | Ok _ => _ ← modify (remove_active group kb.1 (bc_consumer kb.2)); mret nil_err
  end.

Definition closeObsoleteActive (group : string) (current : gset string) : M gerr :=
  state ← gets (fun s => sh_groups s !! group);
  match state with
  | None => mret nil_err
  | Some state =>
      l ← ranged (filter (fun kb => kb.1 ∉ current) (gs_active state));
      mfor (close_obsolete_one group) l
  end.

(** The consumers of a group by identity: active ones and, if a transition is
    pending, prepared ones. *)
Definition group_consumers (g : groupState) : list Consumer :=
  ((fun kb => bc_consumer kb.2) <$> map_to_list (gs_active g)) ++
  match gs_transition g with
  | Some t => (fun kb => bc_consumer kb.2) <$> map_to_list (pt_prepared t)
  | None => []
  end.
Definition by_identity (l : list Consumer) : gmap string Consumer :=
  list_to_map ((fun c => (consumerIdentity c, c)) <$> l).

Definition FailClosed (groupName : string) : M gerr :=
  if str_empty groupName then mret (Err (ErrNew "subscriber: fail-closed group is required")) else
  group ← gets (fun s => sh_groups s !! groupName);
  match group with
  | None => mret nil_err
  | Some group =>
      let seen := by_identity (group_consumers group) in
      l ← ranged seen;
      es ← mcollect (fun ic =>
        e ← Close_consumer ic.2; mret (wrap_err "subscriber: close consumer for group" e)) l;
      if bool_decide (Forall (fun e => is_ok e = true) es) then
        _ ← modify (fun s => s <| sh_cleanup := filter (fun ic => seen !! ic.1 = None) (sh_cleanup s) |>
                              <| sh_groups := delete groupName (sh_groups s) |>);
        mret nil_err
      else mret (errors_Join es)
  end.

Record ownedConsumer := mkOwned { ow_group : string; ow_key : string; ow_consumer : Consumer }.

(** [owned = append(owned, ...)] unless the identity was seen. *)
Definition own_once (acc : gset string * list ownedConsumer) (item : ownedConsumer) : gset string * list ownedConsumer :=
  let '(seen, owned) := acc in
  if bool_decide (consumerIdentity (ow_consumer item) ∈ seen) then acc
  else ({[consumerIdentity (ow_consumer item)]} ∪ seen, owned ++ [item]).

Definition group_items (n : nat) (groupName : string) (g : groupState) : list ownedConsumer :=
  ((fun kb => mkOwned groupName kb.1 (bc_consumer kb.2)) <$> map_range n (gs_active g)) ++
  match gs_transition g with
  | Some t => (fun kb => mkOwned groupName kb.1 (bc_consumer kb.2)) <$> map_range n (pt_prepared t)
  | None => []
  end.

Definition owned_items s : list ownedConsumer :=
  let n := calls s in
  (foldl own_once (∅, [])
    (((fun ic => mkOwned "" "" ic.2) <$> map_range n (sh_cleanup s)) ++
     (gg ← map_range n (sh_groups s); group_items n gg.1 gg.2))).2.

(** What [Close] forgets once an item is closed. *)
Definition drop_item (item : ownedConsumer) (m : gmap string boundConsumer) : gmap string boundConsumer :=
  match m !! ow_key item with
  | Some bc => if sameConsumer (bc_consumer bc) (ow_consumer item) then delete (ow_key item) m else m
  | None => m
  end.
Definition forget_item (item : ownedConsumer) s : Shim :=
  let s := s <| sh_cleanup := delete (consumerIdentity (ow_consumer item)) (sh_cleanup s) |> in
  match sh_groups s !! ow_group item with
  | None => s
  | Some g =>
      set_group (ow_group item)
        (mkGroup (drop_item item (gs_active g))
           ((fun t => t <| pt_prepared := drop_item item (pt_prepared t) |>) <$> gs_transition g)) s
  end.

Definition close_item (item : ownedConsumer) : M gerr :=
  e ← Close_consumer (ow_consumer item);
  match e with
  | Err e => mret (Err (ErrWrap "subscriber: close consumer" e))
  | Ok _ => _ ← modify (forget_item item); mret nil_err
  end.

Definition Close : M gerr :=
  owned ← gets owned_items;
  es ← mcollect close_item owned;
  if bool_decide (Forall (fun e => is_ok e = true) es) then
    _ ← modify (fun s => s <| sh_groups := ∅ |> <| sh_cleanup := ∅ |>);
    mret nil_err
  else mret (errors_Join es).

(** ** Snapshots *)

Definition keys_of (l : list Binding) : gset string := list_to_set (binding_key <$> l).

(** ACTIVE with a pending transition. *)
Definition apply_pending (snapshot : MembershipSnapshot) (pending : preparedTransition) : M gerr :=
  let spec := pt_spec pending in
  if (sx_ProposedEpoch spec =? ms_Epoch snapshot) && membershipMatches (sx_Proposed spec) (ms_CurrentMembership snapshot) then
    do! activate (ms_ScalingGroup snapshot) (sx_ID spec);
    closeObsoleteActive (ms_ScalingGroup snapshot) (keys_of (sx_Proposed spec))
  else if (sx_SourceEpoch spec =? ms_Epoch snapshot) && membershipMatches (sx_Source spec) (ms_CurrentMembership snapshot) then
    do! rollback (ms_ScalingGroup snapshot) (sx_ID spec);
    closeObsoleteActive (ms_ScalingGroup snapshot) (keys_of (sx_Source spec))
  else mret (Err ErrStaleTransition).

(** ACTIVE without one: the loop over the members, and the keys it collected. *)
Fixpoint add_members (destination : resolver) (snapshot : MembershipSnapshot) (members : Membership)
    (current : gset string) : M (gset string * gerr) :=
  match members with
  | [] => mret (current, nil_err)
  | broker :: members =>
      match resolve_binding destination snapshot false (ms_Epoch snapshot)
              "subscriber: resolve active broker" "subscriber: no endpoint for active broker" broker with
      | Err e => mret (current, Err e)
      | Ok binding =>
          e ← addActive binding;
          match e with
          | Err e => mret (current, Err e)
          | Ok _ => add_members destination snapshot members ({[binding_key binding]} ∪ current)
          end
      end
  end.

Definition apply_active (destination : resolver) (snapshot : MembershipSnapshot) : M gerr :=
  pending ← gets (fun s => state ← sh_groups s !! ms_ScalingGroup snapshot; gs_transition state);
  match pending with
  | Some pending => apply_pending snapshot pending
  | None =>
      '(current, e) ← add_members destination snapshot (ms_CurrentMembership snapshot) ∅;
      match e with
      | Err e => mret (Err e)
      | Ok _ => closeObsoleteActive (ms_ScalingGroup snapshot) current
      end
  end.

Definition apply_transition (destination : resolver) (snapshot : MembershipSnapshot) : M gerr :=
  match TransitionFromSnapshot snapshot (Some destination) with
  | Err e => mret (Err e)
  | Ok transition =>
      do! mfor (fun source =>
        e ← addActive source; mret (wrap_err "subscriber: establish source coverage" e)) (sx_Source transition);
      prepare transition
  end.

Definition ApplySnapshot (snapshot : MembershipSnapshot) (destination : option resolver) : M gerr :=
  match Validate snapshot with
  | Err e => mret (Err e)
  | Ok _ =>
      match destination with
      | None => mret (Err (ErrNew "subscriber: destination resolver is required"))
      | Some destination =>
          match RoutingPolicy library with
          | Err e => mret (Err (ErrWrap "subscriber" e))
          | Ok policy =>
              if negb (str_eqb (ms_Algorithm snapshot) (RoutingAlgorithm policy))
              then mret (Err (ErrNew "subscriber: snapshot routing algorithm does not match customer library algorithm"))
              else
              contracts ← gets sh_contracts;
              match validateContract contracts (ms_ScalingGroup snapshot) (ms_HashContract snapshot) (ms_LibraryVersion snapshot) with
              | Err e => mret (Err (ErrWrap "subscriber: apply snapshot" e))
              | Ok _ =>
                  match ms_Phase snapshot with
                  | CCommitted => mret nil_err
                  | CActive => apply_active destination snapshot
                  | _ => apply_transition destination snapshot
                  end
              end
          end
      end
  end.
End Ops.

(** ** Construction *)

(** [Config]; the interfaces say whether they are nil. *)
Record Config (P : Type) := mkConfig {
  cf_Participant : string;
  cf_Library : option (CustomerLibrary P);
  cf_Handler : bool;
  cf_Factory : bool;
  cf_Reporter : bool;
  cf_Contracts : gmap string Contract;
}.
Arguments mkConfig {P}.
Arguments cf_Participant {P}.
Arguments cf_Library {P}.
Arguments cf_Handler {P}.
Arguments cf_Factory {P}.
Arguments cf_Reporter {P}.
Arguments cf_Contracts {P}.

Definition contract_complete (kc : string * Contract) : bool :=
  negb (str_empty kc.1 || str_empty (ct_HashContract kc.2) || str_empty (ct_LibraryVersion kc.2)).

Definition New {P} (config : Config P) (w : World) : result Shim :=
  match cf_Library config with
  | Some library =>
      fail_if (str_empty (cf_Participant config) || negb (cf_Handler config) || negb (cf_Factory config) ||
               negb (cf_Reporter config) || bool_decide (cf_Contracts config = ∅))
        (ErrNew "subscriber: participant, customer library, handler, factory, reporter and contracts are required") ;;!
      let! _ := wrap_err "subscriber" (RoutingPolicy library) in
      fail_if (negb (forallb contract_complete (map_to_list (cf_Contracts config))))
        (ErrNew "subscriber: contract map cannot contain an empty group, hash contract, or library version") ;;!
      Ok (mkShim (cf_Participant config) (cf_Contracts config) ∅ ∅ w)
  | None =>
      Err (ErrNew "subscriber: participant, customer library, handler, factory, reporter and contracts are required")
  end.
