(* ===== verification/SubscriberInv.v ===== *)
(** * Ownership of consumers in the subscriber shim

    A consumer is open from its successful [Prepare] until a successful
    [Close].  [inv L] says that every open consumer is owned by the shim (it is
    active, prepared or kept for clean-up) or in [L], the consumers an operation
    holds in its local variables, and that the bookkeeping of a pending
    transition is right. *)

From S2P Require Import Prelude Customer Snapshot Naming Lane Subscriber.
From Stdlib Require Import ZArith Lia.
From stdpp Require Import base gmap strings numbers option pretty list.
#[local] Open Scope Z_scope.

Implicit Types (s : Shim) (c h : Z) (t : preparedTransition) (g : groupState).

Definition trace s : list (call * gerr) := w_trace (sh_world s).
Definition next s : Z := w_next (sh_world s).
Definition closed s c : Prop := (CallClose c, nil_err) ∈ trace s.
Definition started s c : Prop := (CallActivate c, nil_err) ∈ trace s.

Definition holds_in c (m : gmap string boundConsumer) : Prop := exists k b, m !! k = Some b /\ bc_consumer b = c.
Definition in_group c g : Prop :=
  holds_in c (gs_active g) \/ exists t, gs_transition g = Some t /\ holds_in c (pt_prepared t).
Definition owned s c : Prop :=
  (exists i, sh_cleanup s !! i = Some c) \/ exists name g, sh_groups s !! name = Some g /\ in_group c g.

(** A pending transition against the group's active consumers. *)
Record pending_ok s (name : string) g t : Prop := {
  po_aligned : forall k a b, gs_active g !! k = Some a -> pt_prepared t !! k = Some b -> bc_consumer a = bc_consumer b;
  po_activated : forall k b, k ∈ pt_activated t -> pt_prepared t !! k = Some b -> started s (bc_consumer b);
  po_closedSource : forall k, k ∈ pt_closedSource t -> exists b, gs_active g !! k = Some b /\ closed s (bc_consumer b);
  po_closedPrepared : forall k b, k ∈ pt_closedPrepared t -> pt_prepared t !! k = Some b -> closed s (bc_consumer b);
  po_source : forall b, b ∈ sx_Source (pt_spec t) -> is_Some (gs_active g !! binding_key b);
  po_prepared : dom (pt_prepared t) = keys_of (sx_Proposed (pt_spec t));
  po_valid : transition_Validate (pt_spec t) = nil_err;
  po_group : sx_Group (pt_spec t) = name;
}.

Record inv (L : gset Z) s : Prop := {
  in_next : 0 <= next s;
  in_limbo : forall c, c ∈ L -> 0 <= c < next s;
  in_owned : forall c, owned s c -> 0 <= c < next s;
  in_cleanup : forall i c, sh_cleanup s !! i = Some c -> i = consumerIdentity c;
  in_leak : forall c, 0 <= c < next s -> closed s c \/ owned s c \/ c ∈ L;
  in_pending : forall name g t, sh_groups s !! name = Some g -> gs_transition g = Some t -> pending_ok s name g t;
}.

(** ** What a call to the transport changes *)

(** Only the world, and it only grows. *)
Record same_shim s s' : Prop := {
  ss_groups : sh_groups s' = sh_groups s;
  ss_cleanup : sh_cleanup s' = sh_cleanup s;
  ss_contracts : sh_contracts s' = sh_contracts s;
  ss_participant : sh_participant s' = sh_participant s;
}.

Definition later s s' : Prop := exists tr, trace s' = tr ++ trace s.
#[export] Instance later_preorder : PreOrder later.
Proof.
  split; [by exists []|]. intros s1 s2 s3 [tr1 E1] [tr2 E2]. exists (tr2 ++ tr1). by rewrite E2, E1, app_assoc.
Qed.

(** Later, without a report of readiness in between. *)
Definition ready_report (k : call) : bool := match k with CallReport r => rd_Ready r | _ => false end.
Definition silent s s' : Prop :=
  exists tr, trace s' = tr ++ trace s /\ forall k e, (k, e) ∈ tr -> ready_report k = false.
#[export] Instance silent_preorder : PreOrder silent.
Proof.
  split; [by exists []; split; [|set_solver]|]. intros s1 s2 s3 (tr1 & E1 & H1) (tr2 & E2 & H2).
  exists (tr2 ++ tr1). rewrite E2, E1, app_assoc. split; [done|]. intros k e [?|?]%elem_of_app; eauto.
Qed.
Lemma silent_later s s' : silent s s' -> later s s'.
Proof. intros (tr & E & _). by exists tr. Qed.
Lemma silent_call s s' k e : trace s' = (k, e) :: trace s -> ready_report k = false -> silent s s'.
Proof. intros E Hk. exists [(k, e)]. split; [done|]. by intros k' e' [= -> ->]%list_elem_of_singleton. Qed.
Lemma silent_same s s' : trace s' = trace s -> silent s s'.
Proof. intros E. exists []. split; [done|set_solver]. Qed.

Lemma closed_later s s' c : later s s' -> closed s c -> closed s' c.
Proof. unfold closed. intros [tr ->] H. apply elem_of_app. by right. Qed.
Lemma started_later s s' c : later s s' -> started s c -> started s' c.
Proof. unfold started. intros [tr ->] H. apply elem_of_app. by right. Qed.

Lemma pending_ok_later s s' name g t : later s s' -> pending_ok s name g t -> pending_ok s' name g t.
Proof.
  intros Hl []. split; try done.
  - intros k b Hk Hb. eapply started_later; eauto.
  - intros k Hk. destruct (po_closedSource0 k Hk) as (b & Hb & Hc). exists b. eauto using closed_later.
  - intros k b Hk Hb. eapply closed_later; eauto.
Qed.

Lemma inv_world L s s' :
  inv L s -> same_shim s s' -> later s s' -> next s' = next s -> inv L s'.
Proof.
  intros H [Eg Ec _ _] Hl En.
  assert (Ho : forall c, owned s' c <-> owned s c) by (intros c; unfold owned; by rewrite Eg, Ec).
  split; rewrite ?En, ?Eg, ?Ec; try apply H.
  - intros c. rewrite Ho. apply H.
  - intros c Hc. rewrite Ho. destruct (in_leak _ _ H c Hc) as [?|?]; [left; by eapply closed_later|by right].
  - intros name g t Hg Ht. eapply pending_ok_later; [done|]. by eapply in_pending.
Qed.

Section Calls.
Context (answer : nat -> gerr).

Lemma call_spec k s : exists s', call_transport answer k s = (answer (calls s), s') /\
  same_shim s s' /\ next s' = next s /\ trace s' = (k, answer (calls s)) :: trace s.
Proof. eexists. split; [reflexivity|]. by split_and!. Qed.

Lemma call_inv k s e s' L :
  call_transport answer k s = (e, s') -> inv L s ->
  inv L s' /\ same_shim s s' /\ next s' = next s /\ trace s' = (k, e) :: trace s.
Proof.
  intros E Hi. destruct (call_spec k s) as (s1 & E1 & H1 & H2 & H3). rewrite E in E1. injection E1 as -> <-.
  split_and!; try done. eapply inv_world; eauto. exists [(k, answer (calls s))]. done.
Qed.

(** A consumer that was closed needs no owner. *)
Lemma inv_drop L s c : inv L s -> closed s c -> inv (L ∖ {[c]}) s.
Proof.
  intros H Hc. split; try apply H.
  - intros x Hx. apply (in_limbo _ _ H). set_solver.
  - intros x Hx. destruct (decide (x = c)) as [->|]; [by left|].
    destruct (in_leak _ _ H x Hx) as [?|[?|?]]; [by left|by right; left|right; right; set_solver].
Qed.

Lemma identity_inj c c' : 0 <= c -> 0 <= c' -> consumerIdentity c = consumerIdentity c' -> c = c'.
Proof.
  unfold consumerIdentity, FormatUint. intros H H' E. apply (inj pretty) in E. lia.
Qed.

(** [trackCleanup] takes over a consumer. *)
Lemma trackCleanup_inv L s c :
  inv L s -> c ∈ L -> inv (L ∖ {[c]}) (trackCleanup c s).2.
Proof.
  intros H Hc. pose proof (in_limbo _ _ H _ Hc) as Hr.
  assert (Hin : forall x, owned s x -> owned (trackCleanup c s).2 x).
  { intros x [[i Hi]|Hg]; [left|by right]. cbn. destruct (decide (consumerIdentity c = i)) as [<-|].
    - pose proof (in_cleanup _ _ H _ _ Hi) as E. exists (consumerIdentity c). rewrite lookup_insert_eq. f_equal.
      apply identity_inj; [lia| |done]. apply (in_owned _ _ H). left. by eexists.
    - exists i. by rewrite lookup_insert_ne. }
  split; try apply H.
  - intros x Hx. apply (in_limbo _ _ H). set_solver.
  - intros x [[i Hi]|Hg]; [|apply (in_owned _ _ H); by right]. cbn in Hi.
    apply lookup_insert_Some in Hi as [[_ <-]|[_ Hi]]; [done|]. apply (in_owned _ _ H). left. by exists i.
  - intros i x. cbn. intros [[<- <-]|[_ Hi]]%lookup_insert_Some; [done|]. by apply (in_cleanup _ _ H).
  - intros x Hx. destruct (decide (x = c)) as [->|].
    + right; left; left. cbn. exists (consumerIdentity c). by rewrite lookup_insert_eq.
    + destruct (in_leak _ _ H x Hx) as [?|[?|?]]; [by left|right; left; auto|right; right; set_solver].
  - intros name g t Hg Ht. apply (pending_ok_later s); [by exists []|]. by apply (in_pending _ _ H).
Qed.
End Calls.

(** ** Changing one group *)

Lemma group_of_lookup name s g : sh_groups s !! name = Some g -> group_of name s = g.
Proof. unfold group_of. by intros ->. Qed.

Lemma in_group_of name s c : in_group c (group_of name s) -> owned s c.
Proof.
  unfold group_of. destruct (sh_groups s !! name) as [g|] eqn:E; cbn; intros H.
  - right. eauto.
  - by destruct H as [(k & b & ? & _)|(t & ? & _)].
Qed.

Lemma inv_set_group L L' s name g' :
  inv L s ->
  (forall c, in_group c (group_of name s) -> closed s c \/ in_group c g' \/ c ∈ L') ->
  (forall c, c ∈ L -> closed s c \/ in_group c g' \/ c ∈ L') ->
  (forall c, c ∈ L' \/ in_group c g' -> 0 <= c < next s) ->
  (forall t, gs_transition g' = Some t -> pending_ok s name g' t) ->
  inv L' (set_group name g' s).
Proof.
  intros H Hg HL Hr Hp.
  assert (Hown : forall c, in_group c g' -> owned (set_group name g' s) c).
  { intros c Hc. right. exists name, g'. cbn. by rewrite lookup_insert_eq. }
  split; cbn; try apply H.
  - intros c Hc. apply Hr. by left.
  - intros c [?|(n & g & Hn & Hc)]; [apply (in_owned _ _ H); by left|]. cbn in Hn.
    apply lookup_insert_Some in Hn as [[<- <-]|[_ Hn]]; [apply Hr; by right|].
    apply (in_owned _ _ H). right. eauto.
  - intros c Hc. destruct (in_leak _ _ H c Hc) as [?|[Ho|HcL]]; [by left| |].
    + destruct Ho as [?|(n & g & Hn & Hin)]; [right; left; by left|].
      destruct (decide (n = name)) as [->|Hne].
      * rewrite <- (group_of_lookup _ _ _ Hn) in Hin. destruct (Hg c Hin) as [?|[?|?]]; auto.
      * right; left; right. exists n, g. cbn. by rewrite lookup_insert_ne by done.
    + destruct (HL c HcL) as [?|[?|?]]; auto.
  - intros n g t Hn Ht. eapply (pending_ok_later s); [by exists []|].
    apply lookup_insert_Some in Hn as [[<- <-]|[_ Hn]]; [by apply Hp|]. by apply (in_pending _ _ H).
Qed.

Lemma inv_subset L L' s : inv L s -> L ⊆ L' -> (forall c, c ∈ L' -> 0 <= c < next s) -> inv L' s.
Proof. intros H Hs Hr. split; try apply H; try done. intros c Hc. destruct (in_leak _ _ H c Hc) as [?|[?|?]]; auto. Qed.

Lemma pending_group_of name s t L :
  inv L s -> gs_transition (group_of name s) = Some t -> pending_ok s name (group_of name s) t.
Proof.
  unfold group_of. intros H. destruct (sh_groups s !! name) as [g0|] eqn:E; [|done]. cbn. by apply (in_pending _ _ H).
Qed.

(** [ensureGroup] changes nothing that matters. *)
Lemma group_of_set name g s : group_of name (set_group name g s) = g.
Proof. unfold group_of, set_group, setter. cbn [sh_groups]. by rewrite lookup_insert_eq. Qed.
Lemma group_of_set_ne name name' g s : name <> name' -> group_of name' (set_group name g s) = group_of name' s.
Proof. intros Hn. unfold group_of, set_group, setter. cbn [sh_groups]. by rewrite lookup_insert_ne. Qed.

Lemma ensureGroup_spec name s :
  ensureGroup name s = (group_of name s, set_group name (group_of name s) s).
Proof. unfold ensureGroup, mbind, M_bind, modify, gets. by rewrite group_of_set. Qed.

Lemma ensureGroup_inv L name s : inv L s -> inv L (set_group name (group_of name s) s).
Proof.
  intros H. eapply inv_set_group; eauto.
  - intros c [Hc|Hc]; [by apply (in_limbo _ _ H)|]. apply (in_owned _ _ H). by eapply in_group_of.
  - intros t Ht. by eapply pending_group_of.
Qed.

(** ** Adding and preparing consumers

    [addActive], [closePrepared] and [prepare] keep the ownership invariant,
    and what each of them leaves behind on every branch. *)

Section Ops.
Context (answer : nat -> gerr).
Implicit Types (b : Binding).

Lemma Prepare_consumer_spec L b s r s' :
  Prepare_consumer answer b s = (r, s') -> inv L s ->
  same_shim s s' /\ silent s s' /\
  match r with
  | Ok c => c = next s /\ next s' = next s + 1 /\ inv ({[c]} ∪ L) s'
  | Err _ => inv L s'
  end.
Proof.
  unfold Prepare_consumer, mbind, M_bind, gets, modify, mret, M_ret.
  destruct (call_transport _ _ s) as [e s1] eqn:E. intros Hr Hi.
  destruct (call_inv _ _ _ _ _ _ E Hi) as (Hi1 & Hs & Hn & Ht).
  assert (Hl : silent s s1) by (by eapply silent_call).
  destruct e as [[]|e]; injection Hr as <- <-; [|done].
  destruct Hs as [Eg Ec E1 E2]. split; [done|]. split; [etrans; [exact Hl|by apply silent_same]|].
  split_and!; [done..|]. fold (next s).
  assert (Ho : forall c, owned (s1 <| sh_world := mkWorld (next s + 1) (w_trace (sh_world s1)) |>) c <-> owned s1 c) by done.
  pose proof (in_next _ _ Hi). split.
  - cbn. lia.
  - intros c [->%elem_of_singleton|Hc]%elem_of_union; cbn; [lia|]. pose proof (in_limbo _ _ Hi _ Hc). lia.
  - intros c Hc%Ho. pose proof (in_owned _ _ Hi1 _ Hc). cbn. lia.
  - apply Hi1.
  - intros c Hc. change (next _) with (next s + 1) in Hc. destruct (decide (c = next s)) as [->|]; [right; right; set_solver|].
    destruct (in_leak _ _ Hi1 c) as [?|[?|?]]; [lia|by left|right; left; by apply Ho|right; right; set_solver].
  - intros name g t Hg Ht'. apply (pending_ok_later s1); [by exists []|]. by apply (in_pending _ _ Hi1).
Qed.

(** How an operation that only adds to a group's active consumers changes the
    shim. *)
Record grows (name : string) s s' : Prop := {
  gr_silent : silent s s';
  gr_other : forall n, n <> name -> sh_groups s' !! n = sh_groups s !! n;
  gr_transition : gs_transition (group_of name s') = gs_transition (group_of name s);
  gr_active : gs_active (group_of name s) ⊆ gs_active (group_of name s');
  gr_participant : sh_participant s' = sh_participant s;
  gr_contracts : sh_contracts s' = sh_contracts s;
}.

#[export] Instance grows_preorder name : PreOrder (grows name).
Proof.
  split; [by intros s; split|]. intros s1 s2 s3 [] []. split; try congruence.
  - by etrans.
  - intros n Hn. rewrite gr_other1 by done. by apply gr_other0.
  - by etrans.
Qed.

Lemma grows_shim name s s' : same_shim s s' -> silent s s' -> grows name s s'.
Proof. intros [Eg Ec E1 E2] Hl. split; try done; unfold group_of; by rewrite Eg. Qed.

Lemma grows_ensure name s : grows name s (set_group name (group_of name s) s).
Proof.
  split; try done; [by apply silent_same| |by rewrite group_of_set..].
  intros n Hn. cbn. by rewrite lookup_insert_ne.
Qed.

Lemma grows_cleanup name s c : grows name s (trackCleanup c s).2.
Proof. split; try done. by apply silent_same. Qed.

(** Closing a consumer an operation holds, or keeping it for clean-up. *)
Lemma close_or_track L s c e s1 e' :
  inv L s -> c ∈ L -> call_transport answer (CallClose c) s = (e, s1) ->
  let s2 := match e with Ok _ => s1 | Err _ => (trackCleanup c s1).2 end in
  e' = e -> inv (L ∖ {[c]}) s2 /\ forall name, grows name s s2.
Proof.
  intros Hi Hc E s2 ->. destruct (call_inv _ _ _ _ _ _ E Hi) as (Hi1 & Hs & Hn & Ht).
  assert (Hl : silent s s1) by (by eapply silent_call).
  subst s2. destruct e as [[]|e]; split.
  - apply inv_drop; [done|]. unfold closed. rewrite Ht. by left.
  - intros name. by apply grows_shim.
  - by apply trackCleanup_inv.
  - intros name. etrans; [by apply grows_shim|apply grows_cleanup].
Qed.

(** The binding is not one that a pending transition has prepared without its
    being active. *)
Definition safe_add b s : Prop :=
  forall t, gs_transition (group_of (b_Group b) s) = Some t ->
    is_Some (pt_prepared t !! binding_key b) -> is_Some (gs_active (group_of (b_Group b) s) !! binding_key b).

Lemma pending_ok_extend s name g t k bc :
  pending_ok s name g t -> gs_active g !! k = None -> pt_prepared t !! k = None ->
  pending_ok s name (g <| gs_active := <[k := bc]> (gs_active g) |>) t.
Proof.
  intros H Hk Hp. split; try apply H; cbn.
  - intros k' a b [[<- <-]|[_ Ha]]%lookup_insert_Some Hb; [congruence|]. by eapply (po_aligned _ _ _ _ H).
  - intros k' Hk'. destruct (po_closedSource _ _ _ _ H k' Hk') as (b & Hb & Hc). exists b.
    by rewrite lookup_insert_ne by congruence.
  - intros b Hb. apply lookup_insert_is_Some'. right. by apply (po_source _ _ _ _ H).
Qed.

Lemma holds_in_insert c k bc (m : gmap string boundConsumer) :
  m !! k = None -> holds_in c (<[k := bc]> m) <-> c = bc_consumer bc \/ holds_in c m.
Proof.
  intros Hk. split.
  - intros (k' & b & [[_ <-]|[_ Hb]]%lookup_insert_Some & <-); [by left|right; by exists k', b].
  - intros [->|(k' & b & Hb & <-)]; [by exists k, bc; rewrite lookup_insert_eq|].
    exists k', b. by rewrite lookup_insert_ne by congruence.
Qed.

(** A consumer becomes active. *)
Lemma register_active L s b c :
  inv L s -> c ∈ L -> safe_add b s -> gs_active (group_of (b_Group b) s) !! binding_key b = None ->
  let g := group_of (b_Group b) s in
  let s' := set_group (b_Group b) (g <| gs_active := <[binding_key b := mkBound b c]> (gs_active g) |>) s in
  inv (L ∖ {[c]}) s' /\ grows (b_Group b) s s' /\ is_Some (gs_active (group_of (b_Group b) s') !! binding_key b).
Proof.
  intros Hi Hc Hsafe Hk g s'. set (g' := g <| gs_active := <[binding_key b := mkBound b c]> (gs_active g) |>) in s'.
  assert (Hg' : forall x, in_group x g' <-> x = c \/ in_group x g).
  { intros x. unfold in_group, g'. cbn. rewrite holds_in_insert by done. cbn. tauto. }
  split_and!.
  - eapply inv_set_group; eauto.
    + intros x Hx. right; left. apply Hg'. by right.
    + intros x Hx. destruct (decide (x = c)) as [->|]; [right; left; apply Hg'; by left|right; right; set_solver].
    + intros x [Hx|[->|Hx]%Hg']; [apply (in_limbo _ _ Hi); set_solver|by apply (in_limbo _ _ Hi)|].
      apply (in_owned _ _ Hi). by eapply in_group_of.
    + intros t Ht. apply pending_ok_extend; [by eapply pending_group_of|done|].
      apply eq_None_not_Some. intros Hp. destruct (Hsafe t Ht Hp). subst g. congruence.
  - split; try done; [by apply silent_same|..].
    + intros n Hn. subst s'. cbn. by rewrite lookup_insert_ne.
    + subst s'. by rewrite group_of_set.
    + subst s'. rewrite group_of_set. cbn. by apply insert_subseteq.
  - subst s'. rewrite group_of_set. cbn. rewrite lookup_insert_eq. eauto.
Qed.

Lemma safe_add_group b s s' :
  group_of (b_Group b) s' = group_of (b_Group b) s -> safe_add b s -> safe_add b s'.
Proof. unfold safe_add. by intros ->. Qed.

Lemma addActive_spec b s e s' :
  addActive answer b s = (e, s') -> inv ∅ s -> safe_add b s ->
  inv ∅ s' /\ grows (b_Group b) s s' /\
  (e = nil_err -> is_Some (gs_active (group_of (b_Group b) s') !! binding_key b)).
Proof.
  unfold addActive. destruct (binding_Validate b) as [[]|ev]; [|by intros [= <- <-]].
  unfold mbind at 1, M_bind at 1. rewrite ensureGroup_spec. intros E Hi Hsafe.
  set (s0 := set_group _ (group_of _ s) s) in E.
  assert (Hi0 : inv ∅ s0) by (by apply ensureGroup_inv).
  assert (Hg0 : grows (b_Group b) s s0) by apply grows_ensure.
  assert (G0 : group_of (b_Group b) s0 = group_of (b_Group b) s) by apply group_of_set.
  destruct (gs_active (group_of (b_Group b) s) !! binding_key b) as [bc|] eqn:Hk.
  { injection E as <- <-. split_and!; try done. intros _. rewrite G0, Hk. eauto. }
  unfold mbind at 1, M_bind at 1 in E. destruct (Prepare_consumer answer b s0) as [r s1] eqn:E1.
  destruct (Prepare_consumer_spec _ _ _ _ _ E1 Hi0) as (Hs1 & Hl1 & Hr).
  assert (Hg1 : grows (b_Group b) s s1) by (etrans; [done|by apply grows_shim]).
  assert (G1 : group_of (b_Group b) s1 = group_of (b_Group b) s) by (rewrite <- G0; unfold group_of; by rewrite (ss_groups _ _ Hs1)).
  destruct r as [c|er]; [|by injection E as <- <-]. destruct Hr as (-> & Hn1 & Hi1). set (c := next s0) in *.
  unfold mbind at 1, M_bind at 1 in E. destruct (Activate_consumer answer c s1) as [ea s2] eqn:E2.
  destruct (call_inv _ _ _ _ _ _ E2 Hi1) as (Hi2 & Hs2 & Hn2 & Ht2).
  assert (Hl2 : silent s1 s2) by (by eapply silent_call).
  assert (Hg2 : grows (b_Group b) s s2) by (etrans; [done|by apply grows_shim]).
  assert (G2 : group_of (b_Group b) s2 = group_of (b_Group b) s) by (rewrite <- G1; unfold group_of; by rewrite (ss_groups _ _ Hs2)).
  assert (HcL : c ∈ ({[c]} ∪ ∅ : gset Z)) by set_solver.
  assert (HL : ({[c]} ∪ ∅ : gset Z) ∖ {[c]} = ∅) by set_solver.
  destruct ea as [[]|ea]; unfold mbind at 1, M_bind at 1 in E.
  - rewrite ensureGroup_spec, G2, Hk in E. unfold mbind, M_bind, modify, mret, M_ret in E. injection E as <- <-.
    pose proof (ensureGroup_inv _ (b_Group b) _ Hi2) as Hi3.
    assert (G3 : group_of (b_Group b) (set_group (b_Group b) (group_of (b_Group b) s2) s2) = group_of (b_Group b) s)
      by (by rewrite group_of_set).
    destruct (register_active _ _ b c Hi3 HcL) as (H1 & H2 & H3); [by eapply safe_add_group|by rewrite G3|].
    rewrite G3 in H1, H2, H3. rewrite HL in H1. rewrite G2 in H1, H2, H3.
    split_and!; [done| |done]. etrans; [exact Hg2|]. etrans; [|exact H2]. rewrite <- G2. apply grows_ensure.
  - destruct (Close_consumer answer c s2) as [ec s3] eqn:E3.
    destruct (close_or_track _ _ _ _ _ ec Hi2 HcL E3 eq_refl) as [H1 H2]. rewrite HL in H1.
    destruct ec as [[]|ec]; unfold mbind, M_bind, mret, M_ret in E; injection E as <- <-; split_and!; try done;
      (etrans; [exact Hg2|apply H2]).
Qed.
End Ops.
