(* ===== verification/SubscriberClose.v ===== *)
(** * Preparing a transition

    [prepare] creates the proposed consumers, or closes what it created; the
    new pending transition satisfies [pending_ok], and readiness is reported
    only for a pending transition. *)

From S2P Require Import Prelude Customer Snapshot Naming Lane Subscriber SubscriberInv.
From Stdlib Require Import ZArith Lia.
From stdpp Require Import base gmap strings numbers option pretty list.
#[local] Open Scope Z_scope.

Section Prepare.
Context `{RangeOrder} (answer : nat -> gerr).
Implicit Types (s : Shim) (t : preparedTransition) (g : groupState).

(** The consumers of a list of entries that are not among the active ones. *)
Definition unretained (active : gmap string boundConsumer) (l : list (string * boundConsumer)) : gset Z :=
  list_to_set ((fun kb => bc_consumer kb.2) <$> filter (fun kb => active !! kb.1 = None) l).
Definition fresh_of (active prepared : gmap string boundConsumer) : gset Z := unretained active (map_to_list prepared).

Lemma elem_of_unretained active l c :
  c ∈ unretained active l <-> exists k b, (k, b) ∈ l /\ active !! k = None /\ bc_consumer b = c.
Proof.
  unfold unretained. rewrite elem_of_list_to_set, list_elem_of_fmap. split.
  - intros ([k b] & -> & [Ha Hin]%list_elem_of_filter). by exists k, b.
  - intros (k & b & Hin & Ha & <-). exists (k, b). split; [done|]. by apply list_elem_of_filter.
Qed.
Lemma elem_of_fresh_of active prepared c :
  c ∈ fresh_of active prepared <-> exists k b, prepared !! k = Some b /\ active !! k = None /\ bc_consumer b = c.
Proof. unfold fresh_of. rewrite elem_of_unretained. by setoid_rewrite elem_of_map_to_list. Qed.

Lemma mcollect_cons {A} (f : A -> M gerr) x l s :
  mcollect f (x :: l) s =
  let '(e, s1) := f x s in let '(es, s2) := mcollect f l s1 in (e :: es, s2).
Proof. cbn. unfold mbind, M_bind, mret, M_ret. destruct (f x s) as [e s1]. by destruct (mcollect f l s1). Qed.

Lemma closePrepared_spec active prepared s e s' :
  closePrepared answer prepared active s = (e, s') -> inv (fresh_of active prepared) s ->
  inv ∅ s' /\ forall name, grows name s s'.
Proof.
  unfold closePrepared, ranged, gets. unfold mbind at 1, M_bind at 1.
  set (l := map_range (calls s) prepared). set (f := fun kb : string * boundConsumer => _).
  unfold mbind at 1, M_bind at 1. destruct (mcollect f l s) as [es s1] eqn:E. intros [= <- <-] Hi.
  assert (Hl : inv (unretained active l) s).
  { eapply inv_subset; [exact Hi|..]; intros c.
    - unfold fresh_of. rewrite !elem_of_unretained. intros (k & b & Hin & ?). exists k, b.
      split; [|done]. subst l. by rewrite map_range_perm.
    - intros Hc. apply (in_limbo _ _ Hi). unfold fresh_of. rewrite elem_of_unretained in *.
      destruct Hc as (k & b & Hin & ?). exists k, b. split; [|done]. subst l. by rewrite map_range_perm in Hin. }
  clear Hi. clearbody l. revert s es s1 E Hl. induction l as [|[k b] l IH]; intros s es s1 E Hl.
  { cbn in E. injection E as <- <-. split; [|done]. done. }
  rewrite mcollect_cons in E. destruct (f (k, b) s) as [e s2] eqn:Ef.
  destruct (mcollect f l s2) as [es2 s3] eqn:El. injection E as <- <-.
  assert (Hsub : forall c, c ∈ unretained active l -> 0 <= c < next s).
  { intros c Hc. apply (in_limbo _ _ Hl). rewrite elem_of_unretained in *. set_solver. }
  enough (inv (unretained active l) s2 /\ forall name, grows name s s2) as [Hi2 Hg2].
  { destruct (IH _ _ _ El Hi2) as [? Hg3]. split; [done|]. intros name. etrans; [apply Hg2|apply Hg3]. }
  subst f. cbn [fst snd] in Ef. case_bool_decide as Ha.
  - injection Ef as <- <-. split; [|done]. eapply inv_subset; [exact Hl| |exact Hsub].
    intros c. rewrite !elem_of_unretained. intros (k' & b' & [[= -> ->]|Hin]%elem_of_cons & Hk & Hc); [|eauto].
    rewrite Hk in Ha. by destruct Ha.
  - unfold mbind, M_bind, mret, M_ret in Ef. destruct (Close_consumer answer (bc_consumer b) s) as [ec s4] eqn:Ec.
    assert (HcL : bc_consumer b ∈ unretained active ((k, b) :: l)).
    { apply elem_of_unretained. exists k, b. split; [by left|]. split; [|done]. by apply eq_None_not_Some. }
    destruct (close_or_track _ _ _ _ _ _ ec Hl HcL Ec eq_refl) as [Hi4 Hg4].
    assert (s2 = match ec with Ok _ => s4 | Err _ => (trackCleanup (bc_consumer b) s4).2 end) as ->.
    { destruct ec as [[]|]; by injection Ef as _ <-. }
    split; [|done]. assert (Hl' : later s (match ec with Ok _ => s4 | Err _ => (trackCleanup (bc_consumer b) s4).2 end)).
    { apply silent_later. apply (gr_silent _ _ _ (Hg4 ""%string)). }
    eapply inv_subset; [exact Hi4|..].
    + intros c. rewrite elem_of_difference, !elem_of_unretained. rewrite elem_of_singleton.
      intros [(k' & b' & [[= -> ->]|Hin]%elem_of_cons & Hk & Hc) Hne]; [done|eauto].
    + intros c Hc. assert (next (match ec with Ok _ => s4 | Err _ => (trackCleanup (bc_consumer b) s4).2 end) = next s) as ->.
      { destruct (call_inv _ _ _ _ _ _ Ec Hl) as (_ & _ & Hn & _). by destruct ec. }
      by apply Hsub.
Qed.

Lemma prepare_loop_spec active proposed : forall prepared s prepared' e s',
  prepare_loop answer active proposed prepared s = ((prepared', e), s') ->
  inv (fresh_of active prepared) s ->
  NoDup (binding_key <$> proposed) -> (forall b, b ∈ proposed -> prepared !! binding_key b = None) ->
  (forall k a b, active !! k = Some a -> prepared !! k = Some b -> a = b) ->
  same_shim s s' /\ silent s s' /\ inv (fresh_of active prepared') s' /\
  (forall k a b, active !! k = Some a -> prepared' !! k = Some b -> a = b) /\
  (e = nil_err -> dom prepared' = dom prepared ∪ keys_of proposed).
Proof.
  induction proposed as [|b proposed IH]; intros prepared s prepared' e s' E Hi Hnd Hfree Hal.
  { cbn in E. injection E as <- <- <-. split_and!; try done. intros _. unfold keys_of. set_solver. }
  rewrite fmap_cons in Hnd. apply NoDup_cons in Hnd as [Hb Hnd]. cbn [prepare_loop] in E.
  assert (Hnew : prepared !! binding_key b = None) by (apply Hfree; by left).
  assert (Hrest : forall x b', b' ∈ proposed -> <[binding_key b := x]> prepared !! binding_key b' = None).
  { intros x b' Hb'. rewrite lookup_insert_ne; [apply Hfree; by right|]. intros Ek. apply Hb. rewrite Ek.
    by apply list_elem_of_fmap_2. }
  assert (Hdom : forall x (p' : gmap string boundConsumer), dom p' = dom (<[binding_key b := x]> prepared) ∪ keys_of proposed ->
    dom p' = dom prepared ∪ keys_of (b :: proposed)).
  { intros x p' ->. rewrite dom_insert_L. unfold keys_of. rewrite fmap_cons, list_to_set_cons. set_solver. }
  destruct (active !! binding_key b) as [a|] eqn:Ha.
  - destruct (IH _ _ _ _ _ E) as (H1 & H2 & H3 & H4 & H5); try done.
    + eapply inv_subset; [exact Hi|..].
      * intros c. rewrite !elem_of_fresh_of. intros (k & x & Hx & Hk & Hc). exists k, x.
        rewrite lookup_insert_ne by congruence. done.
      * intros c. rewrite elem_of_fresh_of. intros (k & x & [[<- <-]|[_ Hx]]%lookup_insert_Some & Hk & Hc); [congruence|].
        apply (in_limbo _ _ Hi). apply elem_of_fresh_of. eauto.
    + by apply Hrest.
    + intros k a' x Hk [[<- <-]|[_ Hx]]%lookup_insert_Some; [congruence|eauto].
    + split_and!; try done. intros He. eapply Hdom. eauto.
  - unfold mbind, M_bind in E. destruct (Prepare_consumer answer b s) as [r s1] eqn:E1.
    destruct (Prepare_consumer_spec _ _ _ _ _ _ E1 Hi) as (Hs & Hl & Hr).
    destruct r as [c|er].
    + destruct Hr as (-> & Hn & Hi1).
      destruct (IH _ _ _ _ _ E) as (H1 & H2 & H3 & H4 & H5); try done.
      * eapply inv_subset; [exact Hi1|..].
        -- intros c [->%elem_of_singleton|Hc]%elem_of_union; apply elem_of_fresh_of.
           ++ exists (binding_key b), (mkBound b (next s)). by rewrite lookup_insert_eq.
           ++ apply elem_of_fresh_of in Hc as (k & x & Hx & Hk & Hc). exists k, x. rewrite lookup_insert_ne by congruence. done.
        -- intros c. rewrite elem_of_fresh_of. intros (k & x & Hx & Hk & Hc). apply (in_limbo _ _ Hi1).
           apply lookup_insert_Some in Hx as [[<- <-]|[_ Hx]]; [cbn in Hc; set_solver|].
           apply elem_of_union_r, elem_of_fresh_of. eauto.
      * by apply Hrest.
      * intros k a' x Hk [[<- <-]|[_ Hx]]%lookup_insert_Some; [congruence|eauto].
      * split_and!; try done; [|by etrans|].
        -- destruct Hs, H1. split; congruence.
        -- intros He. eapply Hdom. eauto.
    + unfold mret, M_ret in E. injection E as <- <- <-. by split_and!.
Qed.

(** ** Validated transitions *)

Lemma check_bindings_keys group set : forall (seen r : gset string),
  fold_result (check_binding group) seen set = Ok r ->
  NoDup (binding_key <$> set) /\ Forall (fun b => binding_key b ∉ seen) set /\ Forall (fun b => b_Group b = group) set.
Proof.
  induction set as [|b set IH]; intros seen r Hr; [by repeat split; constructor|]. cbn [fold_result] in Hr.
  unfold check_binding at 1 in Hr. destruct (binding_Validate b) as [[]|]; [|done].
  destruct (str_eqb (b_Group b) group) eqn:Eg; [|done]. cbn [negb fail_if] in Hr.
  case_bool_decide as Hs; [done|]. cbn [fail_if] in Hr.
  destruct (IH _ _ Hr) as (H1 & H2 & H3). rewrite Forall_forall in H2. split_and!.
  - rewrite fmap_cons. apply NoDup_cons. split; [|done]. intros (b' & Ek & Hin)%list_elem_of_fmap.
    apply (H2 b' Hin). rewrite Ek. set_solver.
  - constructor; [done|]. apply Forall_forall. intros b' Hin. specialize (H2 b' Hin). set_solver.
  - constructor; [|done]. by apply str_eqb_true.
Qed.

Lemma binding_set_keys group set :
  validate_binding_set group set = nil_err -> NoDup (binding_key <$> set) /\ Forall (fun b => b_Group b = group) set.
Proof.
  unfold validate_binding_set. destruct (fold_result _ _ _) as [r|] eqn:E; [|done]. intros _.
  by destruct (check_bindings_keys _ _ _ _ E) as (? & _ & ?).
Qed.

Lemma transition_Validate_ok tr :
  transition_Validate tr = nil_err ->
  NoDup (binding_key <$> sx_Proposed tr) /\ Forall (fun b => b_Group b = sx_Group tr) (sx_Source tr) /\
  Forall (fun b => b_Group b = sx_Group tr) (sx_Proposed tr) /\
  Forall (fun b => b_Epoch b = sx_SourceEpoch tr) (sx_Source tr) /\
  Forall (fun b => b_Epoch b = sx_ProposedEpoch tr) (sx_Proposed tr) /\ sx_SourceEpoch tr < sx_ProposedEpoch tr.
Proof.
  unfold transition_Validate. intros Hv.
  destruct (fail_if (_ || _ || _ || _) _) as [[]|] eqn:E0; [|done].
  destruct (fail_if (bool_decide _) _) as [[]|]; [|done].
  destruct (validate_binding_set (sx_Group tr) (sx_Source tr)) as [[]|] eqn:E1; [|done].
  destruct (validate_binding_set (sx_Group tr) (sx_Proposed tr)) as [[]|] eqn:E2; [|done].
  destruct (for_each _ (sx_Source tr)) as [[]|] eqn:E3; [|done].
  apply binding_set_keys in E1 as [_ ?], E2 as [? ?]. rewrite for_each_ok in E3, Hv. split_and!; try done.
  - eapply Forall_impl; [exact E3|]. cbn. intros b Hb. by apply fail_if_ok, negb_false_iff, Z.eqb_eq in Hb.
  - eapply Forall_impl; [exact Hv|]. cbn. intros b Hb. by apply fail_if_ok, negb_false_iff, Z.eqb_eq in Hb.
  - apply fail_if_ok in E0. apply orb_false_iff in E0 as [_ E0]. by apply Z.leb_gt in E0.
Qed.

Lemma equalTransition_true a b : equalTransition a b = true -> a = b.
Proof.
  unfold equalTransition. rewrite !andb_true_iff, !str_eqb_true, !Z.eqb_eq, !bool_decide_eq_true.
  destruct a, b; cbn. intros [[[[[-> ->] ->] ->] ->] ->]. done.
Qed.

Lemma missing_none (required : list Binding) active :
  missingBindings required active = [] -> forall b, b ∈ required -> is_Some (active !! binding_key b).
Proof.
  unfold missingBindings. intros E b Hb. apply not_eq_None_Some. intros Ha. apply fmap_nil_inv in E.
  assert (b ∈ filter (fun b => active !! binding_key b = None) required) as Hin by (by apply list_elem_of_filter).
  rewrite E in Hin. by apply not_elem_of_nil in Hin.
Qed.

(** ** The effect of [prepare] *)

(** A report of readiness names the transition. *)
Definition reports_for (tr : SubTransition) (k : call) : Prop :=
  match k with
  | CallReport r => rd_TransitionID r = sx_ID tr /\ rd_Group r = sx_Group tr /\ rd_Epoch r = sx_ProposedEpoch tr
  | _ => False
  end.

Record prepares (tr : SubTransition) s (e : gerr) s' : Prop := {
  pr_trace : exists new, trace s' = new ++ trace s /\
    forall k a, (k, a) ∈ new -> ready_report k = true ->
      reports_for tr k /\ exists t, gs_transition (group_of (sx_Group tr) s') = Some t /\ pt_spec t = tr;
  pr_other : forall n, n <> sx_Group tr -> sh_groups s' !! n = sh_groups s !! n;
  pr_active : gs_active (group_of (sx_Group tr) s) ⊆ gs_active (group_of (sx_Group tr) s');
  pr_transition : gs_transition (group_of (sx_Group tr) s') = gs_transition (group_of (sx_Group tr) s) \/
    gs_transition (group_of (sx_Group tr) s) = None;
  pr_ok : e = nil_err -> exists t, gs_transition (group_of (sx_Group tr) s') = Some t /\ pt_spec t = tr;
  pr_participant : sh_participant s' = sh_participant s;
  pr_contracts : sh_contracts s' = sh_contracts s;
}.

Lemma prepares_grows tr s e s' :
  grows (sx_Group tr) s s' -> e <> nil_err -> prepares tr s e s'.
Proof.
  intros [(new & E & Hn) ? ? ? ? ?] He. split; try done; [|by left]. exists new. split; [done|].
  intros k a Hin Hr. by rewrite (Hn k a Hin) in Hr.
Qed.

Lemma report_inv L tr bs ready reason s e s' :
  report answer tr bs ready reason s = (e, s') -> inv L s ->
  inv L s' /\ same_shim s s' /\ exists r, trace s' = (CallReport r, e) :: trace s /\
    reports_for tr (CallReport r) /\ rd_Ready r = ready.
Proof.
  unfold report, mbind, M_bind, gets, ReportReadiness. intros E Hi.
  destruct (call_inv _ _ _ _ _ _ E Hi) as (? & ? & _ & ?). split_and!; try done. by eexists.
Qed.

(** A new pending transition. *)
Lemma register_pending s tr prepared :
  inv (fresh_of (gs_active (group_of (sx_Group tr) s)) prepared) s ->
  gs_transition (group_of (sx_Group tr) s) = None -> transition_Validate tr = nil_err ->
  missingBindings (sx_Source tr) (gs_active (group_of (sx_Group tr) s)) = [] ->
  (forall k a b, gs_active (group_of (sx_Group tr) s) !! k = Some a -> prepared !! k = Some b -> a = b) ->
  dom prepared = keys_of (sx_Proposed tr) ->
  inv ∅ (set_group (sx_Group tr)
    (group_of (sx_Group tr) s <| gs_transition := Some (mkPrepared tr prepared ∅ ∅ ∅ ∅ false) |>) s).
Proof.
  intros Hi Ht Hv Hm Hal Hd. set (g := group_of (sx_Group tr) s) in *.
  eapply inv_set_group; [exact Hi|..].
  - intros c [Hc|(t & Et & _)]; [right; left; by left|]. subst g. congruence.
  - intros c (k & b & Hb & _ & Hc)%elem_of_fresh_of. right; left; right. eexists. split; [done|]. by exists k, b.
  - intros c [Hc|[Hc|(t & [= <-] & k & b & Hb & Hc)]]; [set_solver|..].
    + apply (in_owned _ _ Hi), (in_group_of (sx_Group tr)). by left.
    + cbn in Hb. destruct (gs_active g !! k) as [a|] eqn:Ha.
      * rewrite <- (Hal _ _ _ Ha Hb) in Hc. apply (in_owned _ _ Hi), (in_group_of (sx_Group tr)). left. by exists k, a.
      * apply (in_limbo _ _ Hi), elem_of_fresh_of. eauto.
  - intros t [= <-]. split; cbn -[binding_key]; [|set_solver..|by apply missing_none|done|done|done].
    intros k a b Ha Hb. by rewrite (Hal _ _ _ Ha Hb).
Qed.

Lemma prepare_new_spec tr s e s' :
  transition_Validate tr = nil_err -> inv ∅ s -> gs_transition (group_of (sx_Group tr) s) = None ->
  prepare_new answer tr (gs_active (group_of (sx_Group tr) s)) s = (e, s') ->
  inv ∅ s' /\ prepares tr s e s'.
Proof.
  intros Hv Hi Ht. unfold prepare_new. set (active := gs_active (group_of (sx_Group tr) s)). case_bool_decide as Hm.
  { unfold mbind, M_bind, mret, M_ret. destruct (report _ _ _ _ _ s) as [er s1] eqn:Er. intros [= <- <-].
    destruct (report_inv _ _ _ _ _ _ _ _ Er Hi) as (Hi1 & Hs & r & Htr & _ & Hr). split; [done|].
    assert (grows (sx_Group tr) s s1) as Hg by (apply grows_shim; [done|by eapply silent_call]).
    by apply prepares_grows. }
  unfold mbind at 1, M_bind at 1. destruct (prepare_loop answer active (sx_Proposed tr) ∅ s) as [[prepared err] s1] eqn:El.
  destruct (prepare_loop_spec _ _ _ _ _ _ _ El) as (Hs1 & Hl1 & Hi1 & Hal & Hd).
  { eapply inv_subset; [exact Hi|set_solver|]. intros c (k & b & Hb & _)%elem_of_fresh_of. done. }
  { by apply transition_Validate_ok. } { done. } { done. }
  assert (Hg1 : grows (sx_Group tr) s s1) by (by apply grows_shim).
  assert (G1 : group_of (sx_Group tr) s1 = group_of (sx_Group tr) s) by (unfold group_of; by rewrite (ss_groups _ _ Hs1)).
  destruct err as [[]|e1].
  - unfold mbind at 1, M_bind at 1. rewrite ensureGroup_spec, G1, Ht.
    unfold mbind, M_bind, modify. set (s2 := set_group _ (group_of _ s <| gs_transition := _ |>) _).
    destruct (report _ _ _ _ _ s2) as [er s3] eqn:Er. unfold mret, M_ret. intros [= <- <-].
    assert (Hi2 : inv ∅ s2).
    { assert (E2 : group_of (sx_Group tr) (set_group (sx_Group tr) (group_of (sx_Group tr) s) s1) = group_of (sx_Group tr) s)
        by apply group_of_set.
      pose proof (register_pending (set_group (sx_Group tr) (group_of (sx_Group tr) s) s1) tr prepared) as R.
      rewrite E2 in R. apply R; try done.
      - pose proof (ensureGroup_inv _ (sx_Group tr) _ Hi1) as X. by rewrite G1 in X.
      - rewrite (Hd eq_refl), dom_empty_L. set_solver. }
    destruct (report_inv _ _ _ _ _ _ _ _ Er Hi2) as (Hi3 & Hs3 & r & Htr & Hrf & Hrd). split; [done|].
    assert (G3 : group_of (sx_Group tr) s3 =
      group_of (sx_Group tr) s <| gs_transition := Some (mkPrepared tr prepared ∅ ∅ ∅ ∅ false) |>).
    { unfold group_of at 1. rewrite (ss_groups _ _ Hs3). fold (group_of (sx_Group tr) s2). apply group_of_set. }
    destruct Hs3 as [Eg3 _ E3 E4]. split; rewrite ?G3; try done; try congruence.
    + destruct (gr_silent _ _ _ Hg1) as (new & En & Hn). exists ((CallReport r, er) :: new).
      split; [rewrite Htr; change (trace s2) with (trace s1); by rewrite En|]. intros k a [[= -> ->]|Hin]%elem_of_cons Hk; [by eauto|].
      by rewrite (Hn _ _ Hin) in Hk.
    + intros n Hn. rewrite Eg3. cbn. rewrite !lookup_insert_ne by done. by apply (gr_other _ _ _ Hg1).
    + by right.
    + intros _. by eexists.
    + rewrite E4. apply (gr_participant _ _ _ Hg1).
    + rewrite E3. apply (gr_contracts _ _ _ Hg1).
  - unfold mbind, M_bind. destruct (closePrepared answer prepared active s1) as [ec s2] eqn:Ec.
    destruct (closePrepared_spec _ _ _ _ _ Ec Hi1) as [Hi2 Hg2]. unfold bindings, ranged, mbind, M_bind, gets, mret, M_ret.
    destruct (report _ _ _ _ _ s2) as [er s3] eqn:Er. intros [= <- <-].
    destruct (report_inv _ _ _ _ _ _ _ _ Er Hi2) as (Hi3 & Hs3 & r & Htr & _ & Hr). split; [done|].
    assert (Hg3 : grows (sx_Group tr) s s3).
    { etrans; [exact Hg1|]. etrans; [apply Hg2|]. apply grows_shim; [done|by eapply silent_call]. }
    by apply prepares_grows.
Qed.

Lemma prepare_spec tr s e s' :
  prepare answer tr s = (e, s') -> inv ∅ s -> inv ∅ s' /\ prepares tr s e s'.
Proof.
  unfold prepare. destruct (transition_Validate tr) as [[]|ev] eqn:Hv.
  2:{ intros [= <- <-] Hi. split; [done|]. by apply prepares_grows. }
  unfold mbind at 1, M_bind at 1. rewrite ensureGroup_spec. intros E Hi.
  set (s0 := set_group _ (group_of _ s) s) in E.
  assert (Hi0 : inv ∅ s0) by (by apply ensureGroup_inv).
  assert (Hg0 : grows (sx_Group tr) s s0) by apply grows_ensure.
  assert (G0 : group_of (sx_Group tr) s0 = group_of (sx_Group tr) s) by apply group_of_set.
  destruct (gs_transition (group_of (sx_Group tr) s)) as [t|] eqn:Et.
  - destruct (equalTransition _ _) eqn:Eq.
    2:{ unfold mret, M_ret in E. injection E as <- <-. split; [done|]. by apply prepares_grows. }
    apply equalTransition_true in Eq. unfold bindings, ranged, mbind, M_bind, gets, mret, M_ret in E.
    destruct (report_inv _ _ _ _ _ _ _ _ E Hi0) as (Hi1 & Hs1 & r & Htr & Hrf & Hrd). split; [done|].
    assert (G1 : group_of (sx_Group tr) s' = group_of (sx_Group tr) s)
      by (rewrite <- G0; unfold group_of; by rewrite (ss_groups _ _ Hs1)).
    destruct Hs1 as [Eg _ E1 E2]. split; rewrite ?G1; try done.
    + exists [(CallReport r, e)]. split; [done|]. intros k a [= -> ->]%list_elem_of_singleton _. eauto.
    + intros n Hn. rewrite Eg. by apply (gr_other _ _ _ Hg0).
    + by left.
    + eauto.
  - rewrite <- G0 in E, Et. apply prepare_new_spec in E as [Hi1 [(new & En & Hn) P2 P3 P4 P5 P6 P7]]; try done.
    split; [done|]. rewrite G0 in *. split; try done; [by exists new|].
    intros n Hne. rewrite P2 by done. by apply (gr_other _ _ _ Hg0).
Qed.
End Prepare.

(** ** Activating, rolling back and closing

    The operations that end a transition or close consumers: their loops mark
    what is done in the pending transition, so that a replay after an error
    goes on where it stopped. *)

(** ** Loops *)

Lemma mfor_ind {A} (f : A -> M gerr) (I : list A -> Shim -> Prop) (Q : Shim -> Prop) l s e s' :
  I [] s ->
  (forall pre x s e s', x ∈ l -> I pre s -> f x s = (e, s') ->
     match e with Ok _ => I (pre ++ [x]) s' | Err _ => Q s' end) ->
  mfor f l s = (e, s') ->
  match e with Ok _ => I l s' | Err _ => Q s' end.
Proof.
  intros H0 Hf. change l with ([] ++ l) at 2. revert s H0. generalize (@nil A) as pre.
  assert (Hl : forall x, x ∈ l -> x ∈ l) by done. revert Hl. generalize l at 1 3 4 as rest.
  induction rest as [|x rest IH]; intros Hl pre s H0 E.
  - cbn in E. injection E as <- <-. by rewrite app_nil_r.
  - cbn in E. unfold mbind, M_bind in E. destruct (f x s) as [e1 s1] eqn:Ef.
    pose proof (Hf pre x s e1 s1 (Hl x (list_elem_of_here _ _)) H0 Ef) as H1. destruct e1 as [[]|e1].
    + rewrite cons_middle, app_assoc. eapply IH; [|exact H1|exact E]. intros y Hy. apply Hl. by right.
    + unfold mret, M_ret in E. by injection E as <- <-.
Qed.

Lemma mfor_keeps {A} (f : A -> M gerr) (I : Shim -> Prop) l s e s' :
  (forall x s e s', x ∈ l -> I s -> f x s = (e, s') -> I s') -> I s -> mfor f l s = (e, s') -> I s'.
Proof.
  intros Hf H0 E. pose proof (mfor_ind f (fun _ => I) I l s e s' H0) as X.
  assert (match e with Ok _ => I s' | Err _ => I s' end) as Y; [|by destruct e].
  apply X; [|done]. intros pre x s1 e1 s2 Hin H1 E1. pose proof (Hf _ _ _ _ Hin H1 E1). by destruct e1.
Qed.

(** New calls, all of a kind. *)
Definition ext (K : call -> Prop) s s' : Prop :=
  exists tr, trace s' = tr ++ trace s /\ forall k e, (k, e) ∈ tr -> K k.
#[export] Instance ext_preorder K : PreOrder (ext K).
Proof.
  split; [by exists []; split; [|set_solver]|]. intros s1 s2 s3 (tr1 & E1 & H1) (tr2 & E2 & H2).
  exists (tr2 ++ tr1). rewrite E2, E1, app_assoc. split; [done|]. intros k e [?|?]%elem_of_app; eauto.
Qed.
Lemma ext_call (K : call -> Prop) s s' k e : trace s' = (k, e) :: trace s -> K k -> ext K s s'.
Proof. intros E Hk. exists [(k, e)]. split; [done|]. by intros k' e' [= -> ->]%list_elem_of_singleton. Qed.

Section Switch.
Context `{RangeOrder} (answer : nat -> gerr).
Implicit Types (s : Shim) (t : preparedTransition) (g : groupState).

(** ** Marking *)

(** Only the marks of the group's pending transition have grown. *)
Record marks (name : string) s s' : Prop := {
  mk_silent : silent s s';
  mk_other : forall n, n <> name -> sh_groups s' !! n = sh_groups s !! n;
  mk_active : gs_active (group_of name s') = gs_active (group_of name s);
  mk_pending : forall t, gs_transition (group_of name s) = Some t ->
    exists t', gs_transition (group_of name s') = Some t' /\ pt_spec t' = pt_spec t /\ pt_prepared t' = pt_prepared t;
  mk_participant : sh_participant s' = sh_participant s;
  mk_contracts : sh_contracts s' = sh_contracts s;
}.
#[export] Instance marks_preorder name : PreOrder (marks name).
Proof.
  split; [intros s; split; by eauto|]. intros s1 s2 s3 [] []. split; try congruence.
  - by etrans.
  - intros n Hn. rewrite mk_other1 by done. by apply mk_other0.
  - intros t Ht. destruct (mk_pending0 t Ht) as (t2 & H2 & E1 & E2).
    destruct (mk_pending1 t2 H2) as (t3 & H3 & E3 & E4). exists t3. by rewrite E3, E4.
Qed.

Lemma marks_shim name s s' : same_shim s s' -> silent s s' -> marks name s s'.
Proof. intros [Eg Ec E1 E2] Hl. split; try done; unfold group_of; rewrite Eg; eauto. Qed.

Lemma call_marks name k s e s' :
  call_transport answer k s = (e, s') -> inv ∅ s -> ready_report k = false ->
  inv ∅ s' /\ marks name s s' /\ trace s' = (k, e) :: trace s.
Proof.
  intros E Hi Hk. destruct (call_inv _ _ _ _ _ _ E Hi) as (Hi1 & Hs & _ & Ht).
  split_and!; try done. apply marks_shim; [done|]. by eapply silent_call.
Qed.

(** A mark that is justified. *)
Lemma upd_marks name f s t :
  inv ∅ s -> gs_transition (group_of name s) = Some t ->
  pt_spec (f t) = pt_spec t -> pt_prepared (f t) = pt_prepared t ->
  (forall k, k ∈ pt_activated (f t) -> k ∈ pt_activated t \/
     forall b, pt_prepared t !! k = Some b -> started s (bc_consumer b)) ->
  (forall k, k ∈ pt_closedSource (f t) -> k ∈ pt_closedSource t \/
     exists b, gs_active (group_of name s) !! k = Some b /\ closed s (bc_consumer b)) ->
  (forall k, k ∈ pt_closedPrepared (f t) -> k ∈ pt_closedPrepared t \/
     forall b, pt_prepared t !! k = Some b -> closed s (bc_consumer b)) ->
  inv ∅ (upd_transition name f s).2 /\ marks name s (upd_transition name f s).2 /\
  trace (upd_transition name f s).2 = trace s.
Proof.
  intros Hi Ht Es Ep H1 H2 H3. unfold upd_transition, modify. cbn [snd].
  set (g := group_of name s) in *. set (g' := g <| gs_transition := f <$> gs_transition g |>).
  assert (Et' : gs_transition g' = Some (f t)) by (unfold g', setter; cbn; by rewrite Ht).
  pose proof (pending_group_of name s t ∅ Hi Ht) as [P1 P2 P3 P4 P5 P6 P7 P8]. fold g in P1, P3, P5.
  split_and!; [|split|done].
  - eapply inv_set_group; [exact Hi|..]; fold g.
    + intros c [Hc|(t0 & Et & Hc)]; right; left; [by left|right]. exists (f t). split; [done|]. rewrite Ep. congruence.
    + set_solver.
    + intros c [Hc|Hc]; [set_solver|]. apply (in_owned _ _ Hi), (in_group_of name). fold g.
      destruct Hc as [Hc|(t0 & Et & Hc)]; [by left|right]. exists t. split; [done|]. rewrite Et' in Et.
      injection Et as <-. by rewrite Ep in Hc.
    + intros t0 E0. rewrite Et' in E0. injection E0 as <-. split; rewrite ?Es, ?Ep; try done.
      * intros k b [Hk|Hk]%H1 Hb; eauto.
      * intros k [Hk|Hk]%H2; [by apply P3|done].
      * intros k b [Hk|Hk]%H3 Hb; eauto.
  - by apply silent_same.
  - intros n Hn. cbn. by rewrite lookup_insert_ne.
  - by rewrite group_of_set.
  - intros t0 E0. rewrite group_of_set. exists (f t). split; [done|]. fold g in E0. rewrite Ht in E0. by injection E0 as <-.
  - done.
  - done.
Qed.

Lemma pending_transition_ok name id s g t :
  pending_transition name id s = Ok (g, t) ->
  group_of name s = g /\ gs_transition g = Some t /\ sx_ID (pt_spec t) = id.
Proof.
  unfold pending_transition, group_of. destruct (sh_groups s !! name) as [g0|]; [|done].
  destruct (gs_transition g0) as [t0|] eqn:Et; [|done]. destruct (str_eqb _ id) eqn:Ei; [|done].
  intros [= <- <-]. by apply str_eqb_true in Ei.
Qed.

Lemma still_pending_marks name id s s' t :
  marks name s s' -> gs_transition (group_of name s) = Some t -> sx_ID (pt_spec t) = id ->
  still_pending name id s' = true.
Proof.
  intros Hm Ht Hid. destruct (mk_pending _ _ _ Hm t Ht) as (t' & Et & Es & _).
  unfold still_pending. rewrite Et, Es, Hid. apply str_eqb_refl.
Qed.

(** [ranged] visits exactly the entries. *)
Lemma ranged_spec {A} (m : gmap string A) s : ranged m s = (map_range (calls s) m, s).
Proof. done. Qed.
Lemma elem_of_range {A} n (m : gmap string A) k x : (k, x) ∈ map_range n m <-> m !! k = Some x.
Proof. by rewrite map_range_perm, elem_of_map_to_list. Qed.

(** ** The loops of [activate] *)

(** [t0] is what an operation read when it started. *)
Definition marked name s0 t0 s : Prop :=
  inv ∅ s /\ marks name s0 s /\ gs_transition (group_of name s0) = Some t0 /\ inv ∅ s0.

Lemma marked_pending name s0 t0 s :
  marked name s0 t0 s -> exists t, gs_transition (group_of name s) = Some t /\ pt_spec t = pt_spec t0 /\
    pt_prepared t = pt_prepared t0.
Proof. intros (_ & Hm & Ht & _). by apply (mk_pending _ _ _ Hm). Qed.

Lemma marked_trans name s0 t0 s s' : marked name s0 t0 s -> inv ∅ s' -> marks name s s' -> marked name s0 t0 s'.
Proof. intros (_ & Hm & Ht & H0) Hi Hm'. split_and!; [done|by etrans|done..]. Qed.

(** A call to the transport for one entry, whose success is marked. *)
Lemma call_and_mark name s0 t0 s k e s1 (f : preparedTransition -> preparedTransition) :
  marked name s0 t0 s -> ready_report k = false -> call_transport answer k s = (e, s1) ->
  (forall t, pt_spec (f t) = pt_spec t /\ pt_prepared (f t) = pt_prepared t) ->
  (e = nil_err -> forall t, gs_transition (group_of name s1) = Some t -> pt_prepared t = pt_prepared t0 ->
     (forall x, x ∈ pt_activated (f t) -> x ∈ pt_activated t \/
        forall b, pt_prepared t !! x = Some b -> started s1 (bc_consumer b)) /\
     (forall x, x ∈ pt_closedSource (f t) -> x ∈ pt_closedSource t \/
        exists b, gs_active (group_of name s1) !! x = Some b /\ closed s1 (bc_consumer b)) /\
     (forall x, x ∈ pt_closedPrepared (f t) -> x ∈ pt_closedPrepared t \/
        forall b, pt_prepared t !! x = Some b -> closed s1 (bc_consumer b))) ->
  let s2 := match e with Ok _ => (upd_transition name f s1).2 | Err _ => s1 end in
  marked name s0 t0 s2 /\ trace s2 = (k, e) :: trace s.
Proof.
  intros Hm Hk E Hf Hj s2. destruct (call_marks name _ _ _ _ E (proj1 Hm) Hk) as (Hi1 & Hm1 & Ht1).
  assert (Hm2 : marked name s0 t0 s1) by (by eapply marked_trans).
  subst s2. destruct e as [[]|e]; [|done].
  destruct (marked_pending _ _ _ _ Hm2) as (t & Et & Es & Ep). destruct (Hf t) as [F1 F2].
  destruct (Hj eq_refl t Et Ep) as (J1 & J2 & J3).
  destruct (upd_marks name f s1 t Hi1 Et F1 F2 J1 J2 J3) as (Hi2 & Hm3 & Ht2).
  split; [by eapply marked_trans|by rewrite Ht2].
Qed.

Definition is_activate (k : call) : Prop := match k with CallActivate _ => True | _ => False end.

Definition is_close (k : call) : Prop := match k with CallClose _ => True | _ => False end.

Lemma marked_later name s0 t0 s : marked name s0 t0 s -> later s0 s.
Proof. intros (_ & Hm & _). apply silent_later, Hm. Qed.
Lemma marked_initial name s0 t0 s : marked name s0 t0 s -> pending_ok s0 name (group_of name s0) t0.
Proof. intros (_ & _ & Ht & Hi). by eapply pending_group_of. Qed.
Lemma marked_active name s0 t0 s : marked name s0 t0 s -> gs_active (group_of name s) = gs_active (group_of name s0).
Proof. intros (_ & Hm & _). apply Hm. Qed.

Lemma activate_one_step name s0 t0 k b s e s' :
  marked name s0 t0 s -> pt_prepared t0 !! k = Some b -> activate_one answer name t0 (k, b) s = (e, s') ->
  marked name s0 t0 s' /\ ext is_activate s s' /\ (e = nil_err -> started s' (bc_consumer b)).
Proof.
  intros Hm Hb. unfold activate_one. cbn [fst snd]. case_bool_decide as Ha.
  { intros [= <- <-]. split_and!; try done. intros _. eapply started_later; [by eapply marked_later|].
    by eapply (po_activated _ _ _ _ (marked_initial _ _ _ _ Hm)). }
  unfold mbind, M_bind. destruct (Activate_consumer answer (bc_consumer b) s) as [ea s1] eqn:E1. intros E.
  destruct (call_and_mark name s0 t0 s (CallActivate (bc_consumer b)) ea s1 (fun t => t <| pt_activated := {[k]} ∪ pt_activated t |>) Hm eq_refl E1)
    as [Hm2 Ht2]; [done| |].
  { intros -> t Et Ep. destruct (call_inv _ _ _ _ _ _ E1 (proj1 Hm)) as (_ & _ & _ & Ht). cbn. split_and!; eauto.
    intros x [->%elem_of_singleton|Hx]%elem_of_union; [right|by left]. rewrite Ep. intros b' Hb'. simplify_eq.
    unfold started. rewrite Ht. by left. }
  assert (s' = match ea with Ok _ => (upd_transition name (fun t => t <| pt_activated := {[k]} ∪ pt_activated t |>) s1).2 | Err _ => s1 end
    /\ (e = nil_err -> ea = nil_err)) as [-> He].
  { destruct ea as [[]|]; unfold upd_transition, modify, mret, M_ret in E; by injection E as <- <-. }
  split_and!; [done|by eapply ext_call|]. intros Hok. unfold started. rewrite Ht2, (He Hok). by left.
Qed.

Lemma activate_loop name s0 t0 n s e s' :
  marked name s0 t0 s ->
  mfor (activate_one answer name t0) (map_range n (pt_prepared t0)) s = (e, s') ->
  marked name s0 t0 s' /\ ext is_activate s s' /\
  (e = nil_err -> forall k b, pt_prepared t0 !! k = Some b -> started s' (bc_consumer b)).
Proof.
  intros Hm E.
  pose proof (mfor_ind (activate_one answer name t0)
    (fun pre s1 => marked name s0 t0 s1 /\ ext is_activate s s1 /\ forall kb, kb ∈ pre -> started s1 (bc_consumer kb.2))
    (fun s1 => marked name s0 t0 s1 /\ ext is_activate s s1) (map_range n (pt_prepared t0)) s e s') as X.
  cbv beta in X. specialize (fun H0 Hs => X H0 Hs E) as Y. clear X E. ospecialize (Y _ _); [split_and!; [done..|set_solver]| |].
  - intros pre [k b] s1 e1 s2 Hin%elem_of_range (Hm1 & Hx & Hpre) E1.
    destruct (activate_one_step _ _ _ _ _ _ _ _ Hm1 Hin E1) as (Hm2 & Hx2 & Hs).
    destruct e1 as [[]|]; split_and!; try done; try (by etrans).
    intros kb [Hkb| ->%list_elem_of_singleton]%elem_of_app; [|by apply Hs].
    eapply started_later; [|by apply Hpre]. destruct Hx2 as (tr & ? & _). by exists tr.
  - destruct e as [[]|]; [|by destruct Y]. destruct Y as (Y1 & Y2 & Y3). split_and!; try done.
    intros _ k b Hb. apply (Y3 (k, b)). by apply elem_of_range.
Qed.

Lemma close_source_step name s0 t0 k b s e s' :
  marked name s0 t0 s -> gs_active (group_of name s0) !! k = Some b -> close_source_one answer name t0 (k, b) s = (e, s') ->
  marked name s0 t0 s' /\ ext is_close s s' /\ (e = nil_err -> source_epoch t0 b = true -> closed s' (bc_consumer b)).
Proof.
  intros Hm Hb. unfold close_source_one. cbn [fst snd]. destruct (source_epoch t0 b) eqn:Es; cbn [andb].
  2:{ intros [= <- <-]. by split_and!. }
  case_bool_decide as Hk; cbn [negb].
  { intros [= <- <-]. split_and!; try done. intros _ _. eapply closed_later; [by eapply marked_later|].
    destruct (po_closedSource _ _ _ _ (marked_initial _ _ _ _ Hm) _ Hk) as (b' & Hb' & Hc). by simplify_eq. }
  unfold mbind, M_bind. destruct (Close_consumer answer (bc_consumer b) s) as [ea s1] eqn:E1. intros E.
  destruct (call_and_mark name s0 t0 s (CallClose (bc_consumer b)) ea s1 (fun t => t <| pt_closedSource := {[k]} ∪ pt_closedSource t |>) Hm eq_refl E1)
    as [Hm2 Ht2]; [done| |].
  { intros -> t Et Ep. destruct (call_inv _ _ _ _ _ _ E1 (proj1 Hm)) as (_ & Hs & _ & Ht). cbn. split_and!; eauto.
    intros x [->%elem_of_singleton|Hx]%elem_of_union; [right|by left]. exists b.
    assert (group_of name s1 = group_of name s) as -> by (unfold group_of; by rewrite (ss_groups _ _ Hs)).
    rewrite (marked_active _ _ _ _ Hm). split; [done|]. unfold closed. rewrite Ht. by left. }
  assert (s' = match ea with Ok _ => (upd_transition name (fun t => t <| pt_closedSource := {[k]} ∪ pt_closedSource t |>) s1).2 | Err _ => s1 end
    /\ (e = nil_err -> ea = nil_err)) as [-> He].
  { destruct ea as [[]|]; unfold upd_transition, modify, mret, M_ret in E; by injection E as <- <-. }
  split_and!; [done|by eapply ext_call|]. intros Hok _. unfold closed. rewrite Ht2, (He Hok). by left.
Qed.

Lemma close_source_loop name s0 t0 n s e s' :
  marked name s0 t0 s ->
  mfor (close_source_one answer name t0) (map_range n (gs_active (group_of name s0))) s = (e, s') ->
  marked name s0 t0 s' /\ ext is_close s s' /\
  (e = nil_err -> forall k b, gs_active (group_of name s0) !! k = Some b -> source_epoch t0 b = true -> closed s' (bc_consumer b)).
Proof.
  intros Hm E.
  pose proof (mfor_ind (close_source_one answer name t0)
    (fun pre s1 => marked name s0 t0 s1 /\ ext is_close s s1 /\
       forall kb, kb ∈ pre -> source_epoch t0 kb.2 = true -> closed s1 (bc_consumer kb.2))
    (fun s1 => marked name s0 t0 s1 /\ ext is_close s s1) (map_range n (gs_active (group_of name s0))) s e s') as X.
  cbv beta in X. specialize (fun H0 Hs => X H0 Hs E) as Y. clear X E. ospecialize (Y _ _); [split_and!; [done..|set_solver]| |].
  - intros pre [k b] s1 e1 s2 Hin%elem_of_range (Hm1 & Hx & Hpre) E1.
    destruct (close_source_step _ _ _ _ _ _ _ _ Hm1 Hin E1) as (Hm2 & Hx2 & Hs).
    destruct e1 as [[]|]; split_and!; try done; try (by etrans).
    intros kb [Hkb| ->%list_elem_of_singleton]%elem_of_app Hsrc; [|by apply Hs].
    eapply closed_later; [|by apply Hpre]. destruct Hx2 as (tr & ? & _). by exists tr.
  - destruct e as [[]|]; [|by destruct Y]. destruct Y as (Y1 & Y2 & Y3). split_and!; try done.
    intros _ k b Hb. apply (Y3 (k, b)). by apply elem_of_range.
Qed.

(** ** [activate] *)

(** The active consumers after a transition: the prepared ones and those that
    were not of the source epoch. *)
Definition switched t g : gmap string boundConsumer :=
  pt_prepared t ∪ filter (fun kb => source_epoch t kb.2 = false) (gs_active g).

Lemma switch_inv name s t :
  inv ∅ s -> gs_transition (group_of name s) = Some t ->
  (forall k b, gs_active (group_of name s) !! k = Some b -> source_epoch t b = true -> closed s (bc_consumer b)) ->
  inv ∅ (set_group name (mkGroup (switched t (group_of name s)) None) s).
Proof.
  intros Hi Ht Hc. set (g := group_of name s) in *.
  assert (Hp : forall k b, pt_prepared t !! k = Some b -> switched t g !! k = Some b).
  { intros k b Hb. by apply lookup_union_Some_l. }
  pose proof (po_aligned _ _ _ _ (pending_group_of name s t ∅ Hi Ht)) as Hal. fold g in Hal.
  eapply inv_set_group; [exact Hi|..]; fold g.
  - intros c [(k & b & Hb & <-)|(t0 & Et & k & b & Hb & <-)].
    + destruct (source_epoch t b) eqn:Es; [left; eauto|]. right; left; left. unfold holds_in. cbn [gs_active].
      destruct (pt_prepared t !! k) as [b'|] eqn:Eb; [exists k, b'; split; [by apply Hp|]; symmetry; eauto|].
      exists k, b. split; [|done]. apply lookup_union_Some_raw. right. split; [done|]. by apply map_lookup_filter_Some.
    + rewrite Ht in Et. injection Et as <-. right; left; left. exists k, b. split; [by apply Hp|done].
  - set_solver.
  - intros c [Hx|[(k & b & Hb & <-)|(t0 & Et & _)]]; [set_solver| |done]. cbn [gs_active] in Hb.
    apply (in_owned _ _ Hi), (in_group_of name). fold g.
    apply lookup_union_Some_raw in Hb as [Hb|[_ Hb]]; [right; exists t; split; [done|]; by exists k, b|].
    apply map_lookup_filter_Some in Hb as [Hb _]. left. by exists k, b.
  - done.
Qed.

(** Consumers of the source are closed only after every proposed consumer has
    been activated. *)
Definition ordered t s s' : Prop :=
  exists s1, ext is_activate s s1 /\ ext is_close s1 s' /\
    (trace s' = trace s1 \/ forall k b, pt_prepared t !! k = Some b -> started s1 (bc_consumer b)).

Lemma activate_spec name id s e s' :
  activate answer name id s = (e, s') -> inv ∅ s ->
  inv ∅ s' /\ later s s' /\
  match e with
  | Err _ => marks name s s' /\
      forall t, gs_transition (group_of name s) = Some t -> ordered t s s'
  | Ok _ => exists t, gs_transition (group_of name s) = Some t /\ sx_ID (pt_spec t) = id /\ ordered t s s' /\
      group_of name s' = mkGroup (switched t (group_of name s)) None /\
      (forall n, n <> name -> sh_groups s' !! n = sh_groups s !! n) /\
      (forall k b, pt_prepared t !! k = Some b -> started s' (bc_consumer b)) /\
      (forall k b, gs_active (group_of name s) !! k = Some b -> source_epoch t b = true -> closed s' (bc_consumer b)) /\
      silent s s' /\ sh_participant s' = sh_participant s /\ sh_contracts s' = sh_contracts s
  end.
Proof.
  intros E Hi. unfold activate in E. unfold mbind at 1, M_bind at 1, gets at 1 in E.
  destruct (pending_transition name id s) as [[g t]|ep] eqn:Ep.
  2:{ unfold mret, M_ret in E. injection E as <- <-. split_and!; try done. intros t _. exists s. by split_and!; [| |left]. }
  apply pending_transition_ok in Ep as (Eg & Et & Eid).
  assert (Hm0 : marked name s t s) by (split_and!; [done|done|by rewrite Eg|done]).
  unfold mbind at 1, M_bind at 1, ranged, gets at 1 in E. unfold mbind at 1, M_bind at 1 in E.
  destruct (mfor (activate_one answer name t) (map_range (calls s) (pt_prepared t)) s) as [e1 s1] eqn:E1.
  destruct (activate_loop _ _ _ _ _ _ _ Hm0 E1) as (Hm1 & Hx1 & Hs1).
  assert (Hany : forall t', gs_transition (group_of name s) = Some t' -> t' = t) by (intros t' Et'; congruence).
  destruct e1 as [[]|e1].
  2:{ unfold mret, M_ret in E. injection E as <- <-. split_and!; [apply Hm1|by eapply marked_later|apply Hm1|].
      intros t' _. exists s1. by split_and!; [| |left]. }
  unfold mbind at 1, M_bind at 1, gets at 1 in E. unfold mbind at 1, M_bind at 1 in E. rewrite <- Eg in E.
  destruct (mfor (close_source_one answer name t) _ s1) as [e2 s2] eqn:E2.
  destruct (close_source_loop _ _ _ _ _ _ _ Hm1 E2) as (Hm2 & Hx2 & Hs2).
  assert (Ho : ordered t s s2) by (exists s1; split_and!; [done..|right; by apply Hs1]).
  destruct e2 as [[]|e2].
  2:{ unfold mret, M_ret in E. injection E as <- <-. split_and!; [apply Hm2|by eapply marked_later|apply Hm2|].
      by intros t' ->%Hany. }
  unfold mbind at 1, M_bind at 1, gets at 1 in E.
  rewrite (still_pending_marks name id s s2 t) in E; [|by apply Hm2|by rewrite Eg|done].
  unfold mbind, M_bind, modify, mret, M_ret in E. injection E as <- <-.
  destruct (marked_pending _ _ _ _ Hm2) as (t2 & Et2 & Es2 & Ep2).
  pose proof (marked_active _ _ _ _ Hm2) as Ha2. pose proof (marked_later _ _ _ _ Hm2) as Hl.
  assert (Esw : pt_prepared t ∪ filter (fun kb => source_epoch t kb.2 = false) (gs_active (group_of name s)) =
    switched t2 (group_of name s2)).
  { unfold switched, source_epoch. by rewrite Ep2, Es2, Ha2. }
  rewrite Esw. split_and!.
  - apply switch_inv; [apply Hm2|done|]. rewrite Ha2. unfold source_epoch. rewrite Es2. by apply Hs2.
  - destruct Hl as [tr Htr]. by exists tr.
  - exists t. split_and!; try done.
    + by rewrite Eg.
    + rewrite group_of_set. f_equal. by rewrite <- Esw.
    + intros n Hn. cbn. rewrite lookup_insert_ne by done. by apply Hm2.
    + intros k b Hb. eapply (started_later s1); [|by eapply Hs1]. destruct Hx2 as (tr & ? & _). by exists tr.
    + by apply Hs2.
    + destruct (mk_silent _ _ _ (proj1 (proj2 Hm2))) as (tr & ? & ?). by exists tr.
    + apply (mk_participant _ _ _ (proj1 (proj2 Hm2))).
    + apply (mk_contracts _ _ _ (proj1 (proj2 Hm2))).
Qed.
End Switch.

(** ** Rolling back, pausing and closing

    [rollback] and [pauseSource] against the pending transition;
    [closeObsoleteActive], [FailClosed] and [Close] against the consumers a
    group or the whole shim owns. *)

Section Rollback.
Context `{RangeOrder} (answer : nat -> gerr).
Implicit Types (s : Shim) (t : preparedTransition) (g : groupState).

(** A loop whose body keeps [marked] and has a result for every entry. *)
Lemma marked_loop name s0 t0 (f : string * boundConsumer -> M gerr) (R : string * boundConsumer -> Shim -> Prop) l s e s' :
  (forall kb s1 s2, later s1 s2 -> R kb s1 -> R kb s2) ->
  (forall kb s1 e1 s2, kb ∈ l -> marked name s0 t0 s1 -> f kb s1 = (e1, s2) ->
     marked name s0 t0 s2 /\ later s1 s2 /\ (e1 = nil_err -> R kb s2)) ->
  marked name s0 t0 s -> mfor f l s = (e, s') ->
  marked name s0 t0 s' /\ (e = nil_err -> forall kb, kb ∈ l -> R kb s').
Proof.
  intros HR Hf Hm E.
  pose proof (mfor_ind f (fun pre s1 => marked name s0 t0 s1 /\ forall kb, kb ∈ pre -> R kb s1)
    (fun s1 => marked name s0 t0 s1) l s e s') as X.
  cbv beta in X. specialize (fun H0 Hs => X H0 Hs E) as Y. clear X E. ospecialize (Y _ _); [split; [done|set_solver]| |].
  - intros pre kb s1 e1 s2 Hin (Hm1 & Hpre) E1. destruct (Hf _ _ _ _ Hin Hm1 E1) as (Hm2 & Hl & Hr).
    destruct e1 as [[]|]; [split|]; try done.
    intros kb' [Hkb| ->%list_elem_of_singleton]%elem_of_app; [|by apply Hr]. eapply HR; eauto.
  - destruct e as [[]|]; [|done]. by destruct Y.
Qed.

Lemma close_prepared_step name s0 t0 k b s e s' :
  marked name s0 t0 s -> pt_prepared t0 !! k = Some b ->
  close_prepared_one answer name (gs_active (group_of name s0)) t0 (k, b) s = (e, s') ->
  marked name s0 t0 s' /\ later s s' /\
  (e = nil_err -> is_Some (gs_active (group_of name s0) !! k) \/ closed s' (bc_consumer b)).
Proof.
  intros Hm Hb. unfold close_prepared_one. cbn [fst snd]. case_bool_decide as Ha; cbn [orb].
  { intros [= <- <-]. split_and!; try done. by left. }
  case_bool_decide as Hk.
  { intros [= <- <-]. split_and!; try done. intros _. right. eapply closed_later; [by eapply marked_later|].
    by eapply (po_closedPrepared _ _ _ _ (marked_initial _ _ _ _ Hm)). }
  unfold mbind, M_bind. destruct (Close_consumer answer (bc_consumer b) s) as [ea s1] eqn:E1. intros E.
  destruct (call_and_mark answer name s0 t0 s (CallClose (bc_consumer b)) ea s1
    (fun t => t <| pt_closedPrepared := {[k]} ∪ pt_closedPrepared t |>) Hm eq_refl E1) as [Hm2 Ht2]; [done| |].
  { intros -> t Et Ep. destruct (call_inv _ _ _ _ _ _ E1 (proj1 Hm)) as (_ & _ & _ & Ht). cbn. split_and!; eauto.
    intros x [->%elem_of_singleton|Hx]%elem_of_union; [right|by left]. rewrite Ep. intros b' Hb'. simplify_eq.
    unfold closed. rewrite Ht. by left. }
  assert (s' = match ea with Ok _ => (upd_transition name (fun t => t <| pt_closedPrepared := {[k]} ∪ pt_closedPrepared t |>) s1).2 | Err _ => s1 end
    /\ (e = nil_err -> ea = nil_err)) as [-> He].
  { destruct ea as [[]|]; unfold upd_transition, modify, mret, M_ret in E; by injection E as <- <-. }
  split_and!; [done|by eexists [_]|]. intros Hok. right. unfold closed. rewrite Ht2, (He Hok). by left.
Qed.

Lemma resume_step name s0 t0 kb s e s' :
  marked name s0 t0 s -> resume_one answer name t0 kb s = (e, s') -> marked name s0 t0 s' /\ later s s' /\ (e = nil_err -> True).
Proof.
  intros Hm. unfold resume_one. destruct (_ && _); [|by intros [= <- <-]].
  unfold mbind, M_bind. destruct (Activate_consumer answer _ s) as [ea s1] eqn:E1. intros E.
  destruct (call_and_mark answer name s0 t0 s (CallActivate (bc_consumer kb.2)) ea s1
    (fun t => t <| pt_resumedSource := {[kb.1]} ∪ pt_resumedSource t |>) Hm eq_refl E1) as [Hm2 Ht2]; [done| |].
  { intros -> t Et Ep. cbn. split_and!; eauto. }
  assert (s' = match ea with Ok _ => (upd_transition name (fun t => t <| pt_resumedSource := {[kb.1]} ∪ pt_resumedSource t |>) s1).2 | Err _ => s1 end) as ->.
  { destruct ea as [[]|]; unfold upd_transition, modify, mret, M_ret in E; by injection E as <- <-. }
  split_and!; [done|by eexists [_]|done].
Qed.

Lemma rollback_inv name s t :
  inv ∅ s -> gs_transition (group_of name s) = Some t ->
  (forall k b, pt_prepared t !! k = Some b -> is_Some (gs_active (group_of name s) !! k) \/ closed s (bc_consumer b)) ->
  inv ∅ (set_group name (group_of name s <| gs_transition := None |>) s).
Proof.
  intros Hi Ht Hc. set (g := group_of name s) in *.
  pose proof (po_aligned _ _ _ _ (pending_group_of name s t ∅ Hi Ht)) as Hal. fold g in Hal.
  eapply inv_set_group; [exact Hi|..]; fold g.
  - intros c [Hc'|(t0 & Et & k & b & Hb & <-)]; [right; left; by left|].
    rewrite Ht in Et. injection Et as <-. destruct (Hc k b Hb) as [[a Ha]|?]; [right; left; left|by left].
    exists k, a. split; [done|eauto].
  - set_solver.
  - intros c [Hx|[Hc'|(t0 & Et & _)]]; [set_solver| |done]. apply (in_owned _ _ Hi), (in_group_of name). by left.
  - done.
Qed.

Lemma rollback_spec name id s e s' :
  rollback answer name id s = (e, s') -> inv ∅ s ->
  inv ∅ s' /\ silent s s' /\
  (forall n, n <> name -> sh_groups s' !! n = sh_groups s !! n) /\
  gs_active (group_of name s') = gs_active (group_of name s) /\
  (e = nil_err -> exists t, gs_transition (group_of name s) = Some t /\ sx_ID (pt_spec t) = id /\
     gs_transition (group_of name s') = None).
Proof.
  intros E Hi. unfold rollback in E. unfold mbind at 1, M_bind at 1, gets at 1 in E.
  destruct (pending_transition name id s) as [[g t]|ep] eqn:Ep.
  2:{ unfold mret, M_ret in E. injection E as <- <-. by split_and!. }
  apply pending_transition_ok in Ep as (Eg & Et & Eid).
  assert (Hm0 : marked name s t s) by (split_and!; [done|done|by rewrite Eg|done]).
  assert (Hres : forall s2, marked name s t s2 -> inv ∅ s2 /\ silent s s2 /\
    (forall n, n <> name -> sh_groups s2 !! n = sh_groups s !! n) /\ gs_active (group_of name s2) = gs_active (group_of name s)).
  { intros s2 Hm2. split_and!; apply Hm2. }
  unfold mbind at 1, M_bind at 1, ranged, gets at 1 in E. unfold mbind at 1, M_bind at 1 in E. rewrite <- Eg in E.
  destruct (mfor _ _ s) as [e1 s1] eqn:E1.
  destruct (marked_loop name s t _ (fun kb s1 => is_Some (gs_active (group_of name s) !! kb.1) \/ closed s1 (bc_consumer kb.2)) _ _ _ _
    ltac:(intros kb s2 s3 Hl [?|?]; [by left|right; by eapply closed_later])
    ltac:(intros [k b] s2 e2 s3 Hin%elem_of_range Hm; by apply close_prepared_step) Hm0 E1) as [Hm1 H1].
  destruct e1 as [[]|e1].
  2:{ unfold mret, M_ret in E. injection E as <- <-. destruct (Hres _ Hm1) as (? & ? & ? & ?). by split_and!. }
  unfold mbind at 1, M_bind at 1, gets at 1 in E. unfold mbind at 1, M_bind at 1 in E.
  match type of E with (let '(_, _) := ?x in _) = _ => destruct x as [e2 s2] eqn:E2 end.
  assert (Hm2 : marked name s t s2 /\ later s1 s2).
  { destruct (pt_paused t); [|by injection E2 as <- <-].
    eapply (mfor_keeps _ (fun s3 => marked name s t s3 /\ later s1 s3)); [|done|exact E2].
    intros kb s3 e3 s4 _ [Hm3 Hl3] E3. destruct (resume_step _ _ _ _ _ _ _ Hm3 E3) as (? & ? & _). split; [done|by etrans]. }
  destruct Hm2 as [Hm2 Hl2]. destruct (Hres _ Hm2) as (Hi2 & R2 & R3 & R4).
  destruct e2 as [[]|e2].
  2:{ unfold mret, M_ret in E. injection E as <- <-. by split_and!. }
  unfold mbind, M_bind, modify, mret, M_ret in E.
  rewrite (still_pending_marks name id s s2 t) in E; [|by apply Hm2|by rewrite Eg|done]. injection E as <- <-.
  destruct (marked_pending _ _ _ _ Hm2) as (t2 & Et2 & Es2 & Ep2).
  split_and!.
  - apply (rollback_inv name s2 t2); [done|done|]. rewrite Ep2, R4. intros k b Hb.
    destruct (H1 eq_refl (k, b)) as [?|?]; [by apply elem_of_range|by left|right; by eapply closed_later].
  - etrans; [exact R2|by apply silent_same].
  - intros n Hn. cbn. rewrite lookup_insert_ne by done. by apply R3.
  - by rewrite group_of_set.
  - intros _. exists t. rewrite group_of_set, Eg. done.
Qed.

Lemma pause_step name s0 t0 kb s e s' :
  marked name s0 t0 s -> pause_one answer t0 kb s = (e, s') -> marked name s0 t0 s'.
Proof.
  intros Hm. unfold pause_one. destruct (source_epoch t0 kb.2); [|by intros [= <- <-]].
  unfold mbind, M_bind. destruct (Pause_consumer answer _ s) as [ea s1] eqn:E1. intros [= <- <-].
  destruct (call_marks answer name _ _ _ _ E1 (proj1 Hm) eq_refl) as (? & ? & _). by eapply marked_trans.
Qed.

Lemma pauseSource_spec name id s e s' :
  pauseSource answer name id s = (e, s') -> inv ∅ s -> inv ∅ s' /\ marks name s s'.
Proof.
  intros E Hi. unfold pauseSource in E. unfold mbind at 1, M_bind at 1, gets at 1 in E.
  destruct (pending_transition name id s) as [[g t]|ep] eqn:Ep.
  2:{ unfold mret, M_ret in E. by injection E as <- <-. }
  apply pending_transition_ok in Ep as (Eg & Et & Eid).
  assert (Hm0 : marked name s t s) by (split_and!; [done|done|by rewrite Eg|done]).
  destruct (pt_paused t); [by injection E as <- <-|].
  unfold mbind at 1, M_bind at 1, ranged, gets at 1 in E. unfold mbind at 1, M_bind at 1 in E.
  destruct (mfor _ _ s) as [e1 s1] eqn:E1.
  assert (Hm1 : marked name s t s1).
  { eapply (mfor_keeps _ (fun s3 => marked name s t s3)); [|exact Hm0|exact E1].
    intros kb s3 e3 s4 _ Hm3 E3. by eapply pause_step. }
  destruct e1 as [[]|e1]; [|unfold mret, M_ret in E; injection E as <- <-; split; apply Hm1].
  unfold mbind at 1, M_bind at 1, gets at 1 in E.
  rewrite (still_pending_marks name id s s1 t) in E; [|by apply Hm1|by rewrite Eg|done].
  unfold mbind, M_bind, mret, M_ret in E.
  destruct (marked_pending _ _ _ _ Hm1) as (t2 & Et2 & Es2 & Ep2).
  destruct (upd_marks name (fun t => t <| pt_paused := true |>) s1 t2 (proj1 Hm1) Et2) as (Hi2 & Hm2 & _); eauto.
  unfold upd_transition, modify in *. injection E as <- <-. split; [done|]. etrans; [apply Hm1|done].
Qed.
End Rollback.

(** ** [closeObsoleteActive] *)

Section Obsolete.
Context `{RangeOrder} (answer : nat -> gerr).
Implicit Types (s : Shim) (t : preparedTransition) (g : groupState).

(** A group without a pending transition that may only lose active consumers. *)
Record shrinks (name : string) (gone : string -> Prop) s s' : Prop := {
  sk_silent : silent s s';
  sk_other : forall n, n <> name -> sh_groups s' !! n = sh_groups s !! n;
  sk_transition : gs_transition (group_of name s') = None;
  sk_active : gs_active (group_of name s') ⊆ gs_active (group_of name s);
  sk_kept : forall k, ~ gone k -> gs_active (group_of name s') !! k = gs_active (group_of name s) !! k;
  sk_participant : sh_participant s' = sh_participant s;
  sk_contracts : sh_contracts s' = sh_contracts s;
}.

Lemma remove_active_spec name k c s :
  inv ∅ s -> gs_transition (group_of name s) = None -> closed s c ->
  (forall b, gs_active (group_of name s) !! k = Some b -> bc_consumer b = c) ->
  inv ∅ (remove_active name k c s) /\ shrinks name (fun x => x = k) s (remove_active name k c s) /\
  gs_active (group_of name (remove_active name k c s)) !! k = None.
Proof.
  intros Hi Ht Hc Hb. unfold remove_active.
  assert (Hsame : gs_active (group_of name s) !! k = None -> inv ∅ s /\ shrinks name (fun x => x = k) s s /\
    gs_active (group_of name s) !! k = None) by (intros; split_and!; [done|by split|done]).
  destruct (sh_groups s !! name) as [g|] eqn:Eg; [|apply Hsame; unfold group_of; by rewrite Eg].
  rewrite (group_of_lookup _ _ _ Eg) in Ht, Hb.
  destruct (gs_active g !! k) as [b|] eqn:Ek; [|apply Hsame; by rewrite (group_of_lookup _ _ _ Eg)].
  rewrite bool_decide_eq_true_2 by eauto.
  assert (Hsub : forall x, holds_in x (delete k (gs_active g)) -> holds_in x (gs_active g)).
  { intros x (k' & b' & [_ Hb']%lookup_delete_Some & Hx). by exists k', b'. }
  split_and!; [|split|]; rewrite ?group_of_set, ?(group_of_lookup _ _ _ Eg); cbn [gs_active gs_transition]; try done.
  - eapply inv_set_group; [exact Hi|..]; rewrite ?(group_of_lookup _ _ _ Eg).
    + intros x [(k' & b' & Hb' & <-)|(t0 & Et & _)]; [|congruence].
      destruct (decide (k' = k)) as [->|Hne]; [left; simplify_eq; by rewrite (Hb _ eq_refl)|].
      right; left; left. exists k', b'. cbn. by rewrite lookup_delete_ne.
    + set_solver.
    + intros x [Hx|[Hx|(t0 & Et & _)]]; [set_solver| |cbn in Et; congruence]. apply (in_owned _ _ Hi), (in_group_of name).
      rewrite (group_of_lookup _ _ _ Eg). left. by apply Hsub.
    + cbn. congruence.
  - by apply silent_same.
  - intros n Hn. cbn. by rewrite lookup_insert_ne.
  - apply delete_subseteq.
  - intros k' Hk'. cbn. by rewrite lookup_delete_ne.
  - cbn. apply lookup_delete_eq.
Qed.

Lemma shrinks_refl name gone s : gs_transition (group_of name s) = None -> shrinks name gone s s.
Proof. by split. Qed.
Lemma shrinks_trans name gone s1 s2 s3 : shrinks name gone s1 s2 -> shrinks name gone s2 s3 -> shrinks name gone s1 s3.
Proof.
  intros [] []. split; try congruence; try by etrans.
  - intros n Hn. rewrite sk_other1 by done. auto.
  - intros k Hk. rewrite sk_kept1 by done. auto.
Qed.
Lemma shrinks_weaken name (gone gone' : string -> Prop) s s' :
  (forall k, gone k -> gone' k) -> shrinks name gone s s' -> shrinks name gone' s s'.
Proof. intros Hg []. split; try done. intros k Hk. apply sk_kept0. auto. Qed.

Lemma close_obsolete_step name k b s e s' :
  inv ∅ s -> gs_transition (group_of name s) = None ->
  (forall b', gs_active (group_of name s) !! k = Some b' -> b' = b) ->
  close_obsolete_one answer name (k, b) s = (e, s') ->
  inv ∅ s' /\ shrinks name (fun x => x = k) s s' /\ (e = nil_err -> gs_active (group_of name s') !! k = None).
Proof.
  intros Hi Ht Hb. unfold close_obsolete_one. cbn [fst snd]. unfold mbind, M_bind.
  destruct (Close_consumer answer (bc_consumer b) s) as [ea s1] eqn:E1. intros E.
  destruct (call_inv _ _ _ _ _ _ E1 Hi) as (Hi1 & Hs1 & _ & Htr).
  assert (G1 : group_of name s1 = group_of name s) by (unfold group_of; by rewrite (ss_groups _ _ Hs1)).
  assert (Hk1 : shrinks name (fun x => x = k) s s1).
  { destruct Hs1. split; rewrite ?G1; try done; [by eapply silent_call|]. intros n Hn. congruence. }
  destruct ea as [[]|ea]; unfold modify, mret, M_ret in E; injection E as <- <-; [|done].
  destruct (remove_active_spec name k (bc_consumer b) s1) as (Hi2 & Hk2 & Hn); rewrite ?G1; try done.
  - unfold closed. rewrite Htr. by left.
  - intros b' Hb'. by rewrite (Hb b' Hb').
  - split_and!; [done|by eapply shrinks_trans|done].
Qed.

Lemma closeObsoleteActive_spec name current s e s' :
  inv ∅ s -> gs_transition (group_of name s) = None ->
  closeObsoleteActive answer name current s = (e, s') ->
  inv ∅ s' /\ shrinks name (fun k => k ∉ current) s s' /\
  (e = nil_err -> dom (gs_active (group_of name s')) ⊆ current).
Proof.
  intros Hi Ht. unfold closeObsoleteActive, mbind, M_bind, gets.
  destruct (sh_groups s !! name) as [g|] eqn:Eg.
  2:{ intros [= <- <-]. split_and!; [done|by apply shrinks_refl|]. intros _. unfold group_of. rewrite Eg. cbn. set_solver. }
  unfold ranged, gets. pose proof (group_of_lookup _ _ _ Eg) as Gg.
  set (obsolete := filter (fun kb => kb.1 ∉ current) (gs_active g)).
  intros E. pose proof (mfor_ind (close_obsolete_one answer name)
    (fun pre s1 => (inv ∅ s1 /\ shrinks name (fun k => k ∉ current) s s1) /\
       forall kb, kb ∈ pre -> gs_active (group_of name s1) !! kb.1 = None)
    (fun s1 => inv ∅ s1 /\ shrinks name (fun k => k ∉ current) s s1) (map_range (calls s) obsolete) s e s') as X.
  cbv beta in X. specialize (fun H0 Hs => X H0 Hs E) as Y. clear X E.
  ospecialize (Y _ _); [split; [split; [done|by apply shrinks_refl]|set_solver]| |].
  - intros pre [k b] s1 e1 s2 Hin%elem_of_range [[Hi1 Hk1] Hpre] E1.
    apply map_lookup_filter_Some in Hin as [Hb Hk]. cbn in Hk.
    destruct (close_obsolete_step name k b s1 e1 s2) as (Hi2 & Hk2 & Hn); [done|apply Hk1| |done|].
    { intros b' Hb'. eapply lookup_weaken in Hb'; [|apply Hk1]. rewrite Gg in Hb'. congruence. }
    assert (shrinks name (fun k => k ∉ current) s s2).
    { eapply shrinks_trans; [done|]. eapply shrinks_weaken; [|done]. by intros x ->. }
    destruct e1 as [[]|]; [|done]. split; [done|].
    intros kb [Hkb| ->%list_elem_of_singleton]%elem_of_app; [|by apply Hn].
    eapply lookup_weaken_None; [by apply Hpre|apply Hk2].
  - destruct e as [[]|]; [|by destruct Y]. destruct Y as [[Hi' Hk'] Hn]. split_and!; try done.
    intros _ k [b Hb]%elem_of_dom. destruct (decide (k ∈ current)) as [|Hc]; [done|]. exfalso.
    assert (Hb0 : gs_active (group_of name s) !! k = Some b) by (eapply lookup_weaken; [done|apply Hk']).
    rewrite Gg in Hb0. ospecialize (Hn (k, b) _); [|cbn in Hn; congruence]. apply elem_of_range.
    by apply map_lookup_filter_Some.
Qed.
End Obsolete.

(** ** Shutting down a group or the whole shim

    [FailClosed] closes every consumer of a group and forgets it, or keeps
    everything; [Close] closes every consumer the shim owns and forgets those it
    closed.  [Close] need not keep the bookkeeping of a pending transition, so
    it is stated against [core], the part of the invariant about ownership. *)

Lemma mcollect_ind {A} (f : A -> M gerr) (I : list A -> list gerr -> Shim -> Prop) l s es s' :
  I [] [] s ->
  (forall pre es x s e s', x ∈ l -> I pre es s -> f x s = (e, s') -> I (pre ++ [x]) (es ++ [e]) s') ->
  mcollect f l s = (es, s') -> I l es s'.
Proof.
  intros H0 Hf.
  enough (Hgen : forall rest pre des s es s', (forall x, x ∈ rest -> x ∈ l) -> I pre des s ->
    mcollect f rest s = (es, s') -> I (pre ++ rest) (des ++ es) s').
  { intros E. by apply (Hgen l [] [] s es s'). }
  clear s s' es H0. induction rest as [|x rest IH]; intros pre des s es s' Hl H0 E.
  - cbn in E. injection E as <- <-. by rewrite !app_nil_r.
  - rewrite mcollect_cons in E. destruct (f x s) as [e1 s1] eqn:Ef. destruct (mcollect f rest s1) as [es2 s2] eqn:Er.
    injection E as <- <-. rewrite (cons_middle x), (cons_middle e1), !app_assoc. eapply IH; [| |exact Er].
    + intros y Hy. apply Hl. by right.
    + eapply Hf; [apply Hl; by left|done..].
Qed.

Definition all_ok (es : list gerr) : Prop := Forall (fun e => is_ok e = true) es.
Lemma errors_Join_err es : ~ all_ok es -> errors_Join es <> nil_err.
Proof.
  intros Hn E. apply Hn. unfold errors_Join in E. apply for_each_ok in E. eapply Forall_impl; [exact E|].
  cbn. intros e He. unfold id in He. by rewrite He.
Qed.

Section Shutdown.
Context `{RangeOrder} (answer : nat -> gerr).
Implicit Types (s : Shim) (t : preparedTransition) (g : groupState).

(** ** [FailClosed] *)

Lemma elem_of_group_consumers c g : c ∈ group_consumers g <-> in_group c g.
Proof.
  unfold group_consumers, in_group, holds_in. rewrite elem_of_app, list_elem_of_fmap. split.
  - intros [([k b] & -> & Hin%elem_of_map_to_list)|Hc]; [left; by exists k, b|right].
    destruct (gs_transition g) as [t|]; [|by apply not_elem_of_nil in Hc].
    apply list_elem_of_fmap in Hc as ([k b] & -> & Hin%elem_of_map_to_list). exists t. split; [done|]. by exists k, b.
  - intros [(k & b & Hb & <-)|(t & -> & k & b & Hb & <-)]; [left|right].
    + exists (k, b). split; [done|]. by apply elem_of_map_to_list.
    + apply list_elem_of_fmap. exists (k, b). split; [done|]. by apply elem_of_map_to_list.
Qed.

Lemma by_identity_Some l i c : by_identity l !! i = Some c -> c ∈ l /\ i = consumerIdentity c.
Proof.
  intros (c' & E & Hc')%elem_of_list_to_map_2%list_elem_of_fmap. by injection E as -> ->.
Qed.
Lemma by_identity_elem l c :
  (forall x, x ∈ l -> 0 <= x) -> c ∈ l -> by_identity l !! consumerIdentity c = Some c.
Proof.
  intros Hpos Hc. destruct (by_identity l !! consumerIdentity c) as [c'|] eqn:E.
  - apply by_identity_Some in E as [Hc' Ei]. f_equal. symmetry. apply identity_inj; auto.
  - exfalso. unfold by_identity in E. apply not_elem_of_list_to_map in E. apply E.
    apply list_elem_of_fmap. exists (consumerIdentity c, c). split; [done|]. apply list_elem_of_fmap. eauto.
Qed.

Lemma fail_closed_inv name s :
  inv ∅ s -> (forall c, in_group c (group_of name s) -> closed s c) ->
  inv ∅ (s <| sh_cleanup := filter (fun ic => by_identity (group_consumers (group_of name s)) !! ic.1 = None) (sh_cleanup s) |>
           <| sh_groups := delete name (sh_groups s) |>).
Proof.
  intros Hi Hc. set (s' := setter _ _). set (seen := by_identity _) in *.
  assert (Eg : sh_groups s' = delete name (sh_groups s)) by done.
  assert (Ec : sh_cleanup s' = filter (fun ic => seen !! ic.1 = None) (sh_cleanup s)) by done.
  assert (Hown : forall c, owned s' c -> owned s c).
  { intros c [[i Hci]|(n & g & Hn & Hin)].
    - left. exists i. rewrite Ec in Hci. by apply map_lookup_filter_Some in Hci as [? _].
    - right. exists n, g. split; [|done]. rewrite Eg in Hn. by apply lookup_delete_Some in Hn as [_ ?]. }
  split; try apply Hi; rewrite ?Ec, ?Eg.
  - intros c Hx. apply (in_owned _ _ Hi). auto.
  - intros i c [Hx _]%map_lookup_filter_Some. by apply (in_cleanup _ _ Hi).
  - intros c Hx. destruct (in_leak _ _ Hi c Hx) as [?|[Ho|?]]; [by left| |set_solver].
    destruct Ho as [[i Hci]|(n & g & Hn & Hin)].
    + destruct (seen !! i) as [c'|] eqn:Es; [left|right; left; left; exists i; rewrite Ec; by apply map_lookup_filter_Some].
      apply by_identity_Some in Es as [Hc'%elem_of_group_consumers Ei]. change (closed s c).
      rewrite (in_cleanup _ _ Hi _ _ Hci) in Ei. apply identity_inj in Ei as ->; [by apply Hc|lia|].
      apply (in_owned _ _ Hi), (in_group_of name). done.
    + destruct (decide (n = name)) as [->|Hne].
      * left. change (closed s c). apply Hc. by rewrite (group_of_lookup _ _ _ Hn).
      * right; left; right. exists n, g. split; [|done]. rewrite Eg. by rewrite lookup_delete_ne.
  - intros n g t Hn Ht. apply (pending_ok_later s); [by exists []|]. apply (in_pending _ _ Hi); [|done].
    by apply lookup_delete_Some in Hn as [_ ?].
Qed.

Lemma FailClosed_spec name s e s' :
  FailClosed answer name s = (e, s') -> inv ∅ s ->
  inv ∅ s' /\ silent s s' /\ (forall n, n <> name -> sh_groups s' !! n = sh_groups s !! n) /\
  match e with
  | Ok _ => sh_groups s' !! name = None /\ forall c, in_group c (group_of name s) -> closed s' c
  | Err _ => sh_groups s' = sh_groups s /\ sh_cleanup s' = sh_cleanup s
  end.
Proof.
  unfold FailClosed. destruct (str_empty name); [by intros [= <- <-] Hi|].
  unfold mbind at 1, M_bind at 1, gets at 1. destruct (sh_groups s !! name) as [g|] eqn:Eg.
  2:{ intros [= <- <-] Hi. split_and!; try done. intros c. unfold group_of. rewrite Eg.
      by intros [(k & b & ? & _)|(t & ? & _)]. }
  pose proof (group_of_lookup _ _ _ Eg) as Gg. unfold ranged, gets. unfold mbind at 1, M_bind at 1.
  set (seen := by_identity _). unfold mbind at 1, M_bind at 1. set (f := fun ic : string * Z => _).
  destruct (mcollect f (map_range (calls s) seen) s) as [es s1] eqn:E1. intros E Hi.
  assert (X : inv ∅ s1 /\ same_shim s s1 /\ silent s s1 /\
    (all_ok es -> forall ic, ic ∈ map_range (calls s) seen -> closed s1 ic.2)).
  { eapply (mcollect_ind f (fun pre es s1 => inv ∅ s1 /\ same_shim s s1 /\ silent s s1 /\
      (all_ok es -> forall ic, ic ∈ pre -> closed s1 ic.2))); [split_and!; [done..|set_solver]| |exact E1].
    intros pre es1 [i c] s2 e2 s3 _ (Hi2 & Hs2 & Hl2 & Hc2) E2. subst f. unfold mbind, M_bind, mret, M_ret in E2.
    cbn [snd] in E2. destruct (Close_consumer answer c s2) as [ec s4] eqn:Ec. injection E2 as <- <-.
    destruct (call_inv _ _ _ _ _ _ Ec Hi2) as (Hi4 & Hs4 & _ & Ht4).
    assert (Hl4 : silent s2 s4) by (by eapply silent_call).
    split_and!; [done|destruct Hs2, Hs4; split; congruence|by etrans|].
    intros [Ha Hb]%Forall_app ic [Hic| ->%list_elem_of_singleton]%elem_of_app.
    - eapply closed_later; [by apply silent_later|]. by apply Hc2.
    - unfold closed. rewrite Ht4. apply Forall_cons in Hb as [Hb _]. destruct ec as [[]|]; [by left|done]. }
  destruct X as (Hi1 & Hs1 & Hl1 & Hc1).
  assert (G1 : group_of name s1 = g) by (rewrite <- Gg; unfold group_of; by rewrite (ss_groups _ _ Hs1)).
  case_bool_decide as Ha.
  - unfold mbind, M_bind, modify, mret, M_ret in E. injection E as <- <-.
    assert (Hcl : forall c, in_group c g -> closed s1 c).
    { intros c Hc. apply (Hc1 Ha (consumerIdentity c, c)). apply elem_of_range. apply by_identity_elem.
      - intros x Hx%elem_of_group_consumers. apply (in_owned _ _ Hi). right. eauto.
      - by apply elem_of_group_consumers. }
    split_and!.
    + pose proof (fail_closed_inv name s1 Hi1) as F. rewrite G1 in F. by apply F.
    + etrans; [exact Hl1|by apply silent_same].
    + intros n Hn. cbn. rewrite lookup_delete_ne by done. by rewrite (ss_groups _ _ Hs1).
    + cbn. apply lookup_delete_eq.
    + rewrite Gg. by apply Hcl.
  - unfold mret, M_ret in E. injection E as <- <-. split_and!; try done.
    + intros n Hn. by rewrite (ss_groups _ _ Hs1).
    + pose proof (errors_Join_err es Ha) as Hx. destruct (errors_Join es) as [[]|]; [done|]. by destruct Hs1.
Qed.

(** ** [Close] *)

(** Ownership alone: every open consumer has an owner. *)
Record core s : Prop := {
  co_next : 0 <= next s;
  co_owned : forall c, owned s c -> 0 <= c < next s;
  co_cleanup : forall i c, sh_cleanup s !! i = Some c -> i = consumerIdentity c;
  co_leak : forall c, 0 <= c < next s -> closed s c \/ owned s c;
}.
Lemma inv_core s : inv ∅ s -> core s.
Proof. intros Hi. split; try apply Hi. intros c Hc. destruct (in_leak _ _ Hi c Hc) as [?|[?|?]]; [by left|by right|set_solver]. Qed.

Lemma own_once_complete items : forall seen acc,
  (forall i, i ∈ seen -> exists it, it ∈ acc /\ consumerIdentity (ow_consumer it) = i) ->
  forall it, it ∈ items \/ it ∈ acc -> exists it', it' ∈ (foldl own_once (seen, acc) items).2 /\
    consumerIdentity (ow_consumer it') = consumerIdentity (ow_consumer it).
Proof.
  induction items as [|x items IH]; intros seen acc Hs it Hin.
  - destruct Hin as [Hin|?]; [by apply not_elem_of_nil in Hin|eauto].
  - cbn [foldl]. unfold own_once at 2. case_bool_decide as Hx.
    + destruct Hin as [[->|Hin]%elem_of_cons|Hin]; [|apply IH; eauto..].
      destruct (Hs _ Hx) as (it & Hit & <-). apply IH; eauto.
    + assert (Hs' : forall i, i ∈ ({[consumerIdentity (ow_consumer x)]} ∪ seen : gset string) ->
        exists it, it ∈ acc ++ [x] /\ consumerIdentity (ow_consumer it) = i).
      { intros i [->%elem_of_singleton|Hi]%elem_of_union; [exists x; split; [apply elem_of_app; right; by left|done]|].
        destruct (Hs i Hi) as (it' & ? & ?). exists it'. split; [apply elem_of_app; by left|done]. }
      apply (IH _ _ Hs'). destruct Hin as [[->|Hin]%elem_of_cons|Hin]; [right|by left|right]; apply elem_of_app;
        [right; by left|by left].
Qed.
Lemma own_once_sound items : forall seen acc it, it ∈ (foldl own_once (seen, acc) items).2 -> it ∈ items \/ it ∈ acc.
Proof.
  induction items as [|x items IH]; intros seen acc it; [by right|]. cbn [foldl]. unfold own_once at 2.
  case_bool_decide; intros [Hin|Hin]%IH; try (left; by right); [by right|].
  apply elem_of_app in Hin as [?|Hin]; [by right|]. apply list_elem_of_singleton in Hin as ->. left. by left.
Qed.

(** The items [Close] collects are the consumers the shim owns. *)
Lemma elem_of_group_items n name g it :
  it ∈ group_items n name g -> in_group (ow_consumer it) g.
Proof.
  unfold group_items. intros [([k b] & -> & Hb%elem_of_range)%list_elem_of_fmap|Hin]%elem_of_app; [left; by exists k, b|right].
  destruct (gs_transition g) as [t|]; [|by apply not_elem_of_nil in Hin].
  apply list_elem_of_fmap in Hin as ([k b] & -> & Hb%elem_of_range). exists t. split; [done|]. by exists k, b.
Qed.
Lemma in_group_items n name g c : in_group c g -> exists it, it ∈ group_items n name g /\ ow_consumer it = c.
Proof.
  unfold group_items. intros [(k & b & Hb & <-)|(t & -> & k & b & Hb & <-)]; exists (mkOwned name k (bc_consumer b));
    (split; [|done]); apply elem_of_app; [left|right]; apply list_elem_of_fmap; exists (k, b); (split; [done|]);
    by apply elem_of_range.
Qed.

Definition all_items s : list ownedConsumer :=
  ((fun ic => mkOwned "" "" ic.2) <$> map_range (calls s) (sh_cleanup s)) ++
  (gg ← map_range (calls s) (sh_groups s); group_items (calls s) gg.1 gg.2).

Lemma owned_items_sound s it : it ∈ owned_items s -> owned s (ow_consumer it).
Proof.
  intros [Hin|Hin]%own_once_sound; [|by apply not_elem_of_nil in Hin].
  apply elem_of_app in Hin as [([i c] & -> & Hc%elem_of_range)%list_elem_of_fmap|Hin]; [left; by exists i|right].
  apply list_elem_of_bind in Hin as ([name g] & Hin & Hg%elem_of_range). exists name, g. split; [done|].
  by eapply elem_of_group_items.
Qed.
Lemma owned_items_complete s c : core s -> owned s c -> exists it, it ∈ owned_items s /\ ow_consumer it = c.
Proof.
  intros Hi Ho. assert (Hall : exists it, it ∈ all_items s /\ ow_consumer it = c).
  { unfold all_items. destruct Ho as [[i Hc]|(name & g & Hg & Hc)].
    - exists (mkOwned "" "" c). split; [|done]. apply elem_of_app. left. apply list_elem_of_fmap. exists (i, c).
      split; [done|]. by apply elem_of_range.
    - destruct (in_group_items (calls s) name g c Hc) as (it & Hit & <-). exists it. split; [|done].
      apply elem_of_app. right. apply list_elem_of_bind. exists (name, g). split; [done|]. by apply elem_of_range. }
  destruct Hall as (it & Hit & <-).
  destruct (own_once_complete (all_items s) ∅ [] ltac:(set_solver) it (or_introl Hit)) as (it' & Hit' & Ei).
  exists it'. split; [exact Hit'|]. pose proof (owned_items_sound s it' Hit') as Ho'.
  apply identity_inj; [apply (co_owned _ Hi); done..|done].
Qed.

Lemma drop_item_holds it (m : gmap string boundConsumer) c : holds_in c (drop_item it m) -> holds_in c m.
Proof.
  unfold drop_item. destruct (m !! ow_key it) as [b|]; [|done]. destruct (sameConsumer _ _); [|done].
  intros (k & b' & [_ Hb]%lookup_delete_Some & <-). by exists k, b'.
Qed.
Lemma holds_drop_item it (m : gmap string boundConsumer) c :
  (forall b, holds_in b m -> 0 <= b) -> 0 <= ow_consumer it ->
  holds_in c m -> holds_in c (drop_item it m) \/ c = ow_consumer it.
Proof.
  intros Hpos Hp (k & b & Hb & <-). unfold drop_item.
  destruct (m !! ow_key it) as [b'|] eqn:Ek; [|left; by exists k, b].
  destruct (sameConsumer _ _) eqn:Es; [|left; by exists k, b].
  destruct (decide (k = ow_key it)) as [->|Hne]; [right|left; exists k, b; by rewrite lookup_delete_ne].
  simplify_eq. apply str_eqb_true in Es. apply identity_inj; [|done|done]. apply Hpos. by exists (ow_key it), b.
Qed.

(** What [forget_item] forgets is closed. *)
Lemma forget_item_spec it s :
  core s -> closed s (ow_consumer it) -> owned s (ow_consumer it) \/ 0 <= ow_consumer it ->
  core (forget_item it s) /\ trace (forget_item it s) = trace s /\ next (forget_item it s) = next s /\
  (forall c, owned (forget_item it s) c -> owned s c).
Proof.
  intros Hi Hc Hpos. assert (Hp : 0 <= ow_consumer it) by (destruct Hpos as [Ho|?]; [apply (co_owned _ Hi _ Ho)|done]).
  assert (Hw : sh_world (forget_item it s) = sh_world s /\ sh_cleanup (forget_item it s) = delete (consumerIdentity (ow_consumer it)) (sh_cleanup s) /\
    sh_groups (forget_item it s) = match sh_groups s !! ow_group it with
      | None => sh_groups s
      | Some g => <[ow_group it := mkGroup (drop_item it (gs_active g))
          ((fun t => t <| pt_prepared := drop_item it (pt_prepared t) |>) <$> gs_transition g)]> (sh_groups s) end).
  { unfold forget_item. cbn. by destruct (sh_groups s !! ow_group it). }
  destruct Hw as (Ew & Ecl & Egr). set (s' := forget_item it s) in *.
  assert (Et : trace s' = trace s) by (unfold trace; by rewrite Ew).
  assert (En : next s' = next s) by (unfold next; by rewrite Ew).
  assert (Hback : forall c, owned s' c -> owned s c).
  { intros c [[i Hi']|(n & g & Hn & Hg)].
    - left. exists i. rewrite Ecl in Hi'. by apply lookup_delete_Some in Hi' as [_ ?].
    - right. rewrite Egr in Hn. destruct (sh_groups s !! ow_group it) as [g0|] eqn:E0; [|eauto].
      apply lookup_insert_Some in Hn as [[<- <-]|[_ Hn]]; [|eauto]. exists (ow_group it), g0. split; [done|].
      destruct Hg as [Hg|(t & Ht & Hg)]; cbn [gs_active gs_transition] in *; [left; by eapply drop_item_holds|right].
      destruct (gs_transition g0) as [t0|]; [|done]. injection Ht as <-. exists t0. split; [done|].
      exact (drop_item_holds it _ c Hg). }
  assert (Hfwd : forall c, owned s c -> owned s' c \/ c = ow_consumer it).
  { intros c [[i Hi']|(n & g & Hn & Hg)].
    - destruct (decide (i = consumerIdentity (ow_consumer it))) as [->|Hne].
      + right. pose proof (co_cleanup _ Hi _ _ Hi') as E. apply identity_inj; [|done|done]. apply (co_owned _ Hi). left. eauto.
      + left; left. exists i. rewrite Ecl. by rewrite lookup_delete_ne.
    - destruct (decide (n = ow_group it)) as [->|Hne].
      2:{ left; right. exists n, g. split; [|done]. rewrite Egr. destruct (sh_groups s !! ow_group it); [|done].
          by rewrite lookup_insert_ne. }
      rewrite Hn in Egr.
      assert (Hrange : forall x, in_group x g -> 0 <= x) by (intros x Hx; apply (co_owned _ Hi); right; eauto).
      destruct Hg as [Hg|(t & Ht & Hg)].
      + destruct (holds_drop_item it _ c ltac:(intros x Hx; apply Hrange; by left) Hp Hg) as [?|?]; [left; right|by right].
        eexists (ow_group it), _. rewrite Egr, lookup_insert_eq. split; [done|]. by left.
      + destruct (holds_drop_item it _ c ltac:(intros x Hx; apply Hrange; right; eauto) Hp Hg) as [?|?]; [left; right|by right].
        eexists (ow_group it), _. rewrite Egr, lookup_insert_eq. split; [done|]. right. cbn. rewrite Ht. cbn. eauto. }
  split_and!; try done. split; rewrite ?En.
  - apply Hi.
  - intros c Ho. apply (co_owned _ Hi). auto.
  - intros i c Hx. rewrite Ecl in Hx. apply lookup_delete_Some in Hx as [_ Hx]. by apply (co_cleanup _ Hi).
  - intros c Hx. unfold closed. rewrite Et. destruct (co_leak _ Hi c Hx) as [?|Ho]; [by left|].
    destruct (Hfwd c Ho) as [?| ->]; [by right|by left].
Qed.

Lemma core_call k s e s' : call_transport answer k s = (e, s') -> core s ->
  core s' /\ same_shim s s' /\ next s' = next s /\ trace s' = (k, e) :: trace s.
Proof.
  intros E Hi. destruct (call_spec answer k s) as (s1 & E1 & H1 & H2 & H3). rewrite E in E1. injection E1 as -> <-.
  split_and!; try done. destruct H1 as [Eg Ec _ _].
  assert (Ho : forall c, owned s' c <-> owned s c) by (intros c; unfold owned; by rewrite Eg, Ec).
  split; rewrite ?H2, ?Ec; try apply Hi; intros c; rewrite Ho; [apply Hi|]. intros Hc.
  destruct (co_leak _ Hi c Hc) as [?|?]; [left|by right]. unfold closed. rewrite H3. by right.
Qed.

Lemma Close_spec s e s' :
  Close answer s = (e, s') -> core s ->
  core s' /\ later s s' /\ next s' = next s /\
  (e = nil_err -> sh_groups s' = ∅ /\ sh_cleanup s' = ∅ /\ forall c, 0 <= c < next s' -> closed s' c).
Proof.
  unfold Close. unfold mbind at 1, M_bind at 1, gets at 1. unfold mbind at 1, M_bind at 1.
  destruct (mcollect (close_item answer) (owned_items s) s) as [es s1] eqn:E1. intros E Hi.
  assert (X : (core s1 /\ later s s1 /\ next s1 = next s /\ forall c, owned s1 c -> owned s c) /\
    (all_ok es -> forall it, it ∈ owned_items s -> closed s1 (ow_consumer it))).
  { eapply (mcollect_ind (close_item answer) (fun pre es s1 =>
      (core s1 /\ later s s1 /\ next s1 = next s /\ forall c, owned s1 c -> owned s c) /\
      (all_ok es -> forall it, it ∈ pre -> closed s1 (ow_consumer it)))); [split; [done|set_solver]| |exact E1].
    intros pre es1 it s2 e2 s3 Hit ((Hi2 & Hl2 & Hn2 & Ho2) & Hc2) E2. unfold close_item, mbind, M_bind in E2.
    destruct (Close_consumer answer (ow_consumer it) s2) as [ec s4] eqn:Ec.
    destruct (core_call _ _ _ _ Ec Hi2) as (Hi4 & Hs4 & Hn4 & Ht4).
    assert (Hl4 : later s2 s4) by (by eexists [_]).
    assert (Ho4 : forall c, owned s4 c -> owned s c).
    { intros c Hc. apply Ho2. destruct Hs4 as [G1 G2 _ _]. unfold owned in *. by rewrite G1, G2 in Hc. }
    assert (Hpos : 0 <= ow_consumer it) by (apply (co_owned _ Hi), owned_items_sound; done).
    destruct ec as [[]|ec]; unfold modify, mret, M_ret in E2; injection E2 as <- <-.
    - assert (Hcl : closed s4 (ow_consumer it)) by (unfold closed; rewrite Ht4; by left).
      destruct (forget_item_spec it s4 Hi4 Hcl (or_intror Hpos)) as (Hi5 & Ht5 & Hn5 & Ho5).
      assert (Hl5 : later s4 (forget_item it s4)) by (by exists []).
      split; [split_and!; [done|etrans; [done|]; by etrans|congruence|auto]|].
      intros [Ha _]%Forall_app it' [Hit'| ->%list_elem_of_singleton]%elem_of_app.
      + eapply (closed_later s2); [etrans; [exact Hl4|exact Hl5]|]. by apply Hc2.
      + by eapply closed_later.
    - split; [split_and!; [done|by etrans|congruence|done]|]. intros Ha%Forall_app. destruct Ha as [_ Ha].
      apply Forall_cons in Ha as [Ha _]. done. }
  destruct X as [(Hi1 & Hl1 & Hn1 & Ho1) Hc1]. case_bool_decide as Ha.
  - unfold mbind, M_bind, modify, mret, M_ret in E. injection E as <- <-.
    assert (Hall : forall c, 0 <= c < next s1 -> closed s1 c).
    { intros c Hc. destruct (co_leak _ Hi1 c Hc) as [?|Ho]; [done|].
      destruct (owned_items_complete s c Hi (Ho1 c Ho)) as (it & Hit & <-). by apply Hc1. }
    split_and!; try done. split; cbn.
    + apply Hi1.
    + intros c [[i Hx]|(n & g & Hx & _)]; cbn in Hx; done.
    + done.
    + intros c Hc. left. by apply Hall.
  - unfold mret, M_ret in E. injection E as <- <-. split_and!; try done.
    intros Hj. by destruct (errors_Join_err es Ha).
Qed.
End Shutdown.
