(* ===== verification/SubscriberTheorems.v ===== *)
(** * Theorems on the subscriber shim

    The operations of Subscriber.v composed into runs: no consumer is ever lost,
    sources are closed only behind activated successors, readiness means a
    prepared transition, and a successful ACTIVE snapshot leaves exactly the
    consumers of the current membership. *)

From S2P Require Import Prelude Customer Snapshot Naming Lane Subscriber SubscriberInv SubscriberClose.
From Stdlib Require Import ZArith Lia.
From stdpp Require Import base gmap strings numbers option pretty list.
#[local] Open Scope Z_scope.

Section Theorems.
Context {net_url : NetURL} `{RangeOrder} {P : Type} (library : CustomerLibrary P) (answer : nat -> gerr).
Implicit Types (s : Shim) (t : preparedTransition) (g : groupState) (snapshot : MembershipSnapshot).

(** ** ACTIVE snapshots *)

Lemma resolve_binding_ok destination snapshot proposed epoch m1 m2 broker b :
  resolve_binding destination snapshot proposed epoch m1 m2 broker = Ok b ->
  b_Group b = ms_ScalingGroup snapshot /\ b_BrokerID b = broker /\ b_Epoch b = epoch.
Proof.
  unfold resolve_binding. destruct (destination _ _ _); cbn; [|done].
  destruct (BrokerEndpoint _ _ _); [|done]. by intros [= <-].
Qed.

(** The bindings of a membership at an epoch. *)
Definition binds (name : string) (epoch : Z) (members : Membership) (bs : list Binding) : Prop :=
  b_BrokerID <$> bs = members /\ Forall (fun b => b_Group b = name /\ b_Epoch b = epoch) bs.

Lemma add_members_active destination snapshot members : forall current s current' e s',
  add_members answer destination snapshot members current s = ((current', e), s') ->
  inv ∅ s -> gs_transition (group_of (ms_ScalingGroup snapshot) s) = None ->
  inv ∅ s' /\ grows (ms_ScalingGroup snapshot) s s' /\
  (e = nil_err -> exists bs, binds (ms_ScalingGroup snapshot) (ms_Epoch snapshot) members bs /\
     current' = keys_of bs ∪ current /\
     forall b, b ∈ bs -> is_Some (gs_active (group_of (ms_ScalingGroup snapshot) s') !! binding_key b)).
Proof.
  induction members as [|broker members IH]; intros current s current' e s' E Hi Ht; cbn [add_members] in E.
  { injection E as <- <- <-. split_and!; try done. intros _. exists []. split_and!; [by split| |set_solver].
    unfold keys_of. set_solver. }
  destruct (resolve_binding _ _ _ _ _ _ _) as [b|er] eqn:Er; [|by injection E as <- <- <-].
  apply resolve_binding_ok in Er as (Eg & Eb & Ee).
  unfold mbind, M_bind in E. destruct (addActive answer b s) as [ea s1] eqn:Ea.
  destruct (addActive_spec _ _ _ _ _ Ea Hi) as (Hi1 & Hg1 & Hk1).
  { intros t. rewrite Eg, Ht. done. }
  rewrite Eg in Hg1, Hk1. destruct ea as [[]|ea]; [|by injection E as <- <- <-].
  assert (Ht1 : gs_transition (group_of (ms_ScalingGroup snapshot) s1) = None) by (by rewrite (gr_transition _ _ _ Hg1)).
  destruct (IH _ _ _ _ _ E Hi1 Ht1) as (Hi2 & Hg2 & Hok). split_and!; [done|by etrans|]. intros He.
  destruct (Hok He) as (bs & [B1 B2] & -> & B3). exists (b :: bs). split_and!.
  - split; [by rewrite fmap_cons, Eb, B1|]. by constructor.
  - unfold keys_of. rewrite fmap_cons, list_to_set_cons. set_solver.
  - intros b' [->|Hb']%elem_of_cons; [|by apply B3]. destruct (Hk1 eq_refl) as [x Hx]. exists x.
    eapply lookup_weaken; [done|apply Hg2].
Qed.

Lemma membershipMatches_true bs members : membershipMatches bs members = true -> b_BrokerID <$> bs = members.
Proof.
  revert members. induction bs as [|b bs IH]; intros [|m members]; cbn; try done.
  rewrite andb_true_iff, str_eqb_true. intros [-> Hm]. by rewrite (IH _ Hm).
Qed.

Lemma elem_of_keys_of k (bs : list Binding) : k ∈ keys_of bs <-> exists b, b ∈ bs /\ binding_key b = k.
Proof. unfold keys_of. rewrite elem_of_list_to_set, list_elem_of_fmap. naive_solver. Qed.

(** The result of an ACTIVE snapshot: what holds always, and on success. *)
Record settled (name : string) (epoch : Z) (members : Membership) s (e : gerr) s' : Prop := {
  se_inv : inv ∅ s';
  se_silent : silent s s';
  se_other : forall n, n <> name -> sh_groups s' !! n = sh_groups s !! n;
  se_ok : e = nil_err -> gs_transition (group_of name s') = None /\
    exists bs, binds name epoch members bs /\ dom (gs_active (group_of name s')) = keys_of bs;
}.

Lemma close_rest name epoch members s s1 e s' bs :
  inv ∅ s1 -> silent s s1 -> (forall n, n <> name -> sh_groups s1 !! n = sh_groups s !! n) ->
  gs_transition (group_of name s1) = None -> binds name epoch members bs ->
  (forall b, b ∈ bs -> is_Some (gs_active (group_of name s1) !! binding_key b)) ->
  closeObsoleteActive answer name (keys_of bs) s1 = (e, s') -> settled name epoch members s e s'.
Proof.
  intros Hi Hl Ho Ht Hb Hk E. destruct (closeObsoleteActive_spec _ _ _ _ _ _ Hi Ht E) as (Hi' & [] & Hd).
  split; [done|by etrans|intros n Hn; rewrite sk_other by done; auto|]. intros He. split; [done|].
  exists bs. split; [done|]. apply set_eq. intros k. split; [intros Hx; by apply Hd|].
  intros Hx. apply elem_of_dom. rewrite sk_kept by (by intros ?).
  apply elem_of_keys_of in Hx as (b & Hx & <-). auto.
Qed.

Lemma apply_pending_spec snapshot s t e s' :
  inv ∅ s -> gs_transition (group_of (ms_ScalingGroup snapshot) s) = Some t ->
  apply_pending answer snapshot t s = (e, s') ->
  settled (ms_ScalingGroup snapshot) (ms_Epoch snapshot) (ms_CurrentMembership snapshot) s e s'.
Proof.
  intros Hi Ht. set (name := ms_ScalingGroup snapshot) in *. unfold apply_pending. fold name.
  pose proof (pending_group_of name s t ∅ Hi Ht) as [P1 P2 P3 P4 P5 P6 P7 P8].
  destruct (transition_Validate_ok _ P7) as (_ & Hgs & Hgp & Hes & Hep & _).
  rewrite P8 in Hgs, Hgp. rewrite Forall_forall in Hgs, Hgp, Hes, Hep.
  destruct (_ && _) eqn:C1.
  - apply andb_true_iff in C1 as [Ee%Z.eqb_eq Em%membershipMatches_true].
    unfold mbind, M_bind. destruct (activate answer name (sx_ID (pt_spec t)) s) as [ea s1] eqn:Ea.
    destruct (activate_spec _ _ _ _ _ _ Ea Hi) as (Hi1 & _ & Hc). destruct ea as [[]|ea].
    + destruct Hc as (t' & Et' & _ & _ & Gs & Ho & _ & _ & Hl & _). rewrite Ht in Et'. injection Et' as <-.
      intros E. eapply (close_rest _ _ _ s s1 _ _ (sx_Proposed (pt_spec t))); eauto.
      * by rewrite Gs.
      * split; [done|]. apply Forall_forall. intros b Hb. split; [by apply Hgp|]. rewrite <- Ee. by apply Hep.
      * intros b Hb. rewrite Gs. cbn. unfold switched. rewrite lookup_union_is_Some. left. apply elem_of_dom.
        rewrite P6. apply elem_of_keys_of. eauto.
    + destruct Hc as [Hm _]. unfold mret, M_ret. intros [= <- <-]. split; [done|apply Hm|apply Hm|done].
  - clear C1. destruct (_ && _) eqn:C2.
    + apply andb_true_iff in C2 as [Ee%Z.eqb_eq Em%membershipMatches_true].
      unfold mbind, M_bind. destruct (rollback answer name (sx_ID (pt_spec t)) s) as [ea s1] eqn:Ea.
      destruct (rollback_spec _ _ _ _ _ _ Ea Hi) as (Hi1 & Hl & Ho & Ha & Hok). destruct ea as [[]|ea].
      * destruct (Hok eq_refl) as (t' & Et' & _ & Hn). intros E.
        eapply (close_rest _ _ _ s s1 _ _ (sx_Source (pt_spec t))); eauto.
        -- split; [done|]. apply Forall_forall. intros b Hb. split; [by apply Hgs|]. rewrite <- Ee. by apply Hes.
        -- by rewrite Ha.
      * unfold mret, M_ret. intros [= <- <-]. by split.
    + unfold mret, M_ret. intros [= <- <-]. by split.
Qed.

Lemma apply_active_spec destination snapshot s e s' :
  inv ∅ s -> apply_active answer destination snapshot s = (e, s') ->
  settled (ms_ScalingGroup snapshot) (ms_Epoch snapshot) (ms_CurrentMembership snapshot) s e s'.
Proof.
  intros Hi. unfold apply_active. unfold mbind at 1, M_bind at 1, gets at 1.
  assert (Ep : (state ← sh_groups s !! ms_ScalingGroup snapshot; gs_transition state) =
    gs_transition (group_of (ms_ScalingGroup snapshot) s)).
  { unfold group_of. by destruct (sh_groups s !! ms_ScalingGroup snapshot). }
  rewrite Ep. destruct (gs_transition _) as [t|] eqn:Et; [by apply apply_pending_spec|].
  unfold mbind, M_bind. destruct (add_members _ _ _ _ _ s) as [[current em] s1] eqn:Em.
  destruct (add_members_active _ _ _ _ _ _ _ _ Em Hi Et) as (Hi1 & Hg1 & Hok).
  destruct em as [[]|em].
  2:{ unfold mret, M_ret. intros [= <- <-]. split; [done|apply Hg1|apply Hg1|done]. }
  destruct (Hok eq_refl) as (bs & Hb & -> & Hk). rewrite union_empty_r_L.
  apply close_rest; try done; [apply Hg1..|]. by rewrite (gr_transition _ _ _ Hg1).
Qed.

(** ** Snapshots of a transition *)

Lemma TransitionFromSnapshot_ok snapshot destination tr :
  TransitionFromSnapshot snapshot destination = Ok tr ->
  transition_Validate tr = nil_err /\ sx_Group tr = ms_ScalingGroup snapshot.
Proof.
  unfold TransitionFromSnapshot. destruct (Validate snapshot) as [[]|]; [|done].
  destruct (ms_Phase snapshot); try done;
    (destruct destination as [destination|]; [|done]); (destruct (ms_Transition snapshot) as [x|]; [|done]);
    (destruct (resolve_bindings _ _ _ _ _ _ (ms_CurrentMembership _)); [|done]);
    (destruct (resolve_bindings _ _ _ _ _ _ (ms_ProposedMembership _)); [|done]);
    cbv zeta; destruct (transition_Validate _) as [[]|] eqn:Ev; (by intros [= <-] || done).
Qed.

(** No source binding of the snapshot is one that a pending transition has
    prepared without its being active.  It holds when the snapshot repeats the
    pending transition. *)
Definition calm snapshot (destination : option (string -> Z -> DestinationInfo -> result string)) s : Prop :=
  forall tr b, TransitionFromSnapshot snapshot destination = Ok tr -> b ∈ sx_Source tr -> safe_add b s.

Lemma calm_replay snapshot destination s t :
  inv ∅ s -> gs_transition (group_of (ms_ScalingGroup snapshot) s) = Some t ->
  TransitionFromSnapshot snapshot destination = Ok (pt_spec t) -> calm snapshot destination s.
Proof.
  intros Hi Ht E tr b Etr Hb. rewrite E in Etr. injection Etr as <-.
  destruct (TransitionFromSnapshot_ok _ _ _ E) as [Hv Hg].
  destruct (transition_Validate_ok _ Hv) as (_ & Hgs & _). rewrite Forall_forall in Hgs.
  intros t' _ _. rewrite (Hgs b Hb), Hg.
  by apply (po_source _ _ _ _ (pending_group_of (ms_ScalingGroup snapshot) s t ∅ Hi Ht)).
Qed.

Lemma calm_idle snapshot destination s :
  gs_transition (group_of (ms_ScalingGroup snapshot) s) = None -> calm snapshot destination s.
Proof.
  intros Ht tr b E Hb t. destruct (TransitionFromSnapshot_ok _ _ _ E) as [Hv Hg].
  destruct (transition_Validate_ok _ Hv) as (_ & Hgs & _). rewrite Forall_forall in Hgs.
  by rewrite (Hgs b Hb), Hg, Ht.
Qed.

Lemma calm_active snapshot destination s : ms_Phase snapshot = CActive -> calm snapshot destination s.
Proof.
  intros Hp tr b E. unfold TransitionFromSnapshot in E. rewrite Hp in E. by destruct (Validate snapshot) as [[]|].
Qed.

Lemma safe_add_grows name b s s' : b_Group b = name -> grows name s s' -> safe_add b s -> safe_add b s'.
Proof.
  intros Eg Hg Hs t Ht Hp. rewrite Eg in *. unfold safe_add in Hs. rewrite Eg in Hs.
  rewrite (gr_transition _ _ _ Hg) in Ht. destruct (Hs t Ht Hp) as [x Hx]. exists x.
  eapply lookup_weaken; [done|apply Hg].
Qed.

Lemma apply_transition_spec destination snapshot s e s' :
  inv ∅ s -> calm snapshot (Some destination) s -> apply_transition answer destination snapshot s = (e, s') ->
  inv ∅ s' /\ (forall n, n <> ms_ScalingGroup snapshot -> sh_groups s' !! n = sh_groups s !! n) /\
  (exists new, trace s' = new ++ trace s /\
    forall k a, (k, a) ∈ new -> ready_report k = true ->
      exists t, gs_transition (group_of (ms_ScalingGroup snapshot) s') = Some t /\ reports_for (pt_spec t) k) /\
  (e = nil_err -> exists t, gs_transition (group_of (ms_ScalingGroup snapshot) s') = Some t /\
     TransitionFromSnapshot snapshot (Some destination) = Ok (pt_spec t)).
Proof.
  intros Hi Hcalm. unfold apply_transition.
  destruct (TransitionFromSnapshot snapshot (Some destination)) as [tr|et] eqn:Etr.
  2:{ unfold mret, M_ret. intros [= <- <-]. split_and!; try done. exists []. split; [done|set_solver]. }
  destruct (TransitionFromSnapshot_ok _ _ _ Etr) as [Hv Hg].
  destruct (transition_Validate_ok _ Hv) as (_ & Hgs & _). rewrite Forall_forall in Hgs.
  unfold mbind at 1, M_bind at 1. destruct (mfor _ _ s) as [e1 s1] eqn:E1.
  assert (X : inv ∅ s1 /\ grows (sx_Group tr) s s1).
  { eapply (mfor_keeps _ (fun s1 => inv ∅ s1 /\ grows (sx_Group tr) s s1)); [|done|exact E1].
    intros b s2 e2 s3 Hb [Hi2 Hg2] E2. unfold mbind, M_bind, mret, M_ret in E2.
    destruct (addActive answer b s2) as [ea s4] eqn:Ea. injection E2 as <- <-.
    destruct (addActive_spec _ _ _ _ _ Ea Hi2) as (Hi4 & Hg4 & _).
    - eapply safe_add_grows; [by apply Hgs|done|]. by apply (Hcalm tr).
    - rewrite (Hgs b Hb) in Hg4. split; [done|by etrans]. }
  destruct X as [Hi1 Hg1]. destruct (gr_silent _ _ _ Hg1) as (new1 & En1 & Hn1).
  destruct e1 as [[]|e1].
  2:{ unfold mret, M_ret. intros [= <- <-]. split_and!; [done|rewrite <- Hg; apply Hg1| |done].
      exists new1. split; [done|]. intros k a Hin Hr. by rewrite (Hn1 k a Hin) in Hr. }
  intros E. destruct (prepare_spec _ _ _ _ _ E Hi1) as [Hi2 [(new2 & En2 & Hn2) P2 _ _ P5 _ _]].
  rewrite <- Hg. split_and!; [done|intros n Hn; rewrite P2 by done; by apply Hg1| |].
  2:{ intros He. destruct (P5 He) as (t & Et & Es). exists t. by rewrite Es. }
  exists (new2 ++ new1). split; [by rewrite En2, En1, app_assoc|].
  intros k a [Hin|Hin]%elem_of_app Hr; [|by rewrite (Hn1 k a Hin) in Hr].
  destruct (Hn2 k a Hin Hr) as [Hrf (t & Et & Es)]. exists t. by rewrite Es.
Qed.

Lemma ApplySnapshot_cases snapshot destination s e s' :
  ApplySnapshot library answer snapshot destination s = (e, s') ->
  (s' = s /\ (e = nil_err -> ms_Phase snapshot = CCommitted)) \/
  (exists d, destination = Some d /\
     ((ms_Phase snapshot = CActive /\ apply_active answer d snapshot s = (e, s')) \/
      (ms_Phase snapshot <> CActive /\ apply_transition answer d snapshot s = (e, s')))).
Proof.
  unfold ApplySnapshot. destruct (Validate snapshot); [|by intros [= <- <-]; left].
  destruct destination as [d|]; [|by intros [= <- <-]; left].
  destruct (RoutingPolicy library); [|by intros [= <- <-]; left].
  destruct (negb _); [by intros [= <- <-]; left|]. unfold mbind at 1, M_bind at 1, gets at 1.
  destruct (validateContract _ _ _ _); [|by intros [= <- <-]; left].
  destruct (ms_Phase snapshot) eqn:Ep; intros E; try (right; exists d; split; [done|]; by right + by left).
  by injection E as <- <-; left.
Qed.

Lemma ApplySnapshot_inv snapshot destination s e s' :
  inv ∅ s -> calm snapshot destination s -> ApplySnapshot library answer snapshot destination s = (e, s') -> inv ∅ s'.
Proof.
  intros Hi Hc [[-> _]|(d & -> & [[_ E]|[_ E]])]%ApplySnapshot_cases; [done|..].
  - by eapply se_inv, apply_active_spec.
  - by eapply apply_transition_spec.
Qed.

(** ** Runs *)

(** The lifecycle operations in any order, from a new shim; [Close] ends a run
    and is added by the theorem about it. *)
Inductive sreach : Shim -> Prop :=
| sr_new (config : Config P) s : New config (mkWorld 0 []) = Ok s -> sreach s
| sr_add b s e s' : sreach s -> safe_add b s -> AddActive answer b s = (e, s') -> sreach s'
| sr_apply snapshot destination s e s' : sreach s -> calm snapshot destination s ->
    ApplySnapshot library answer snapshot destination s = (e, s') -> sreach s'
| sr_prepare tr s e s' : sreach s -> Prepare answer tr s = (e, s') -> sreach s'
| sr_pause name id s e s' : sreach s -> PauseSource answer name id s = (e, s') -> sreach s'
| sr_activate name id s e s' : sreach s -> Activate answer name id s = (e, s') -> sreach s'
| sr_rollback name id s e s' : sreach s -> Rollback answer name id s = (e, s') -> sreach s'
| sr_fail_closed name s e s' : sreach s -> FailClosed answer name s = (e, s') -> sreach s'.

Lemma New_inv (config : Config P) s : New config (mkWorld 0 []) = Ok s -> inv ∅ s.
Proof.
  unfold New. destruct (cf_Library config); [|done]. destruct (fail_if _ _); [|done]. destruct (wrap_err _ _); [|done].
  destruct (fail_if _ _); [|done]. intros [= <-].
  split; unfold next; cbn [sh_world w_next].
  - done.
  - set_solver.
  - by intros x [[i Hx]|(n & g & Hx & _)].
  - done.
  - lia.
  - done.
Qed.

Lemma sreach_inv s : sreach s -> inv ∅ s.
Proof.
  induction 1 as [config s E|b s e s' _ IH Hs E|snapshot d s e s' _ IH Hc E|tr s e s' _ IH E|name id s e s' _ IH E
    |name id s e s' _ IH E|name id s e s' _ IH E|name s e s' _ IH E].
  - by eapply New_inv.
  - by eapply addActive_spec.
  - by eapply ApplySnapshot_inv.
  - by eapply prepare_spec.
  - by eapply pauseSource_spec.
  - by eapply activate_spec.
  - by eapply rollback_spec.
  - by eapply FailClosed_spec.
Qed.

(** [Close] may be called again, whatever the calls before it returned. *)
Definition closing s s' : Prop := exists e, Close answer s = (e, s').

Lemma closings_core s s' : rtc closing s s' -> core s -> core s'.
Proof. induction 1 as [|s1 s2 s3 [e E] _ IH]; intros Hc; [done|]. by apply IH, (Close_spec _ _ _ _ E Hc). Qed.

(** C17: a consumer that the factory made is never lost.  In a run of the
    lifecycle operations that makes no binding active which a pending transition
    has prepared apart from it, and whatever calls of the transport fail, at any
    time every consumer has been closed or the shim still owns it as an active
    or prepared consumer or for clean-up.  Any number of [Close] calls at the end
    keep this also when they fail half way, and once one returns nil every
    consumer ever made has been closed. *)
Theorem consumers_never_leak s s1 e s' :
  sreach s -> rtc closing s s1 -> Close answer s1 = (e, s') ->
  (forall c, 0 <= c < next s -> closed s c \/ owned s c) /\
  (forall c, 0 <= c < next s' -> closed s' c \/ owned s' c) /\
  (e = nil_err -> forall c, 0 <= c < next s' -> closed s' c).
Proof.
  intros Hr Hs E. pose proof (inv_core _ (sreach_inv _ Hr)) as Hc.
  destruct (Close_spec _ _ _ _ E (closings_core _ _ Hs Hc)) as (Hc' & _ & _ & Hok).
  split_and!; [apply Hc|apply Hc'|]. intros He. by destruct (Hok He) as (_ & _ & ?).
Qed.

(** [Activate] never closes a consumer of the source epoch before every
    proposed consumer has been activated, over any number of failed attempts:
    below each [Close] call in the trace of this attempt lies a successful
    [Activate] of every prepared consumer. *)
Theorem activate_before_close name id s e s' t above below c a :
  sreach s -> Activate answer name id s = (e, s') -> gs_transition (group_of name s) = Some t ->
  trace s' = above ++ (CallClose c, a) :: below ++ trace s ->
  forall k b, pt_prepared t !! k = Some b -> (CallActivate (bc_consumer b), nil_err) ∈ below ++ trace s.
Proof.
  intros Hr E Ht Etr k b Hb. destruct (activate_spec _ _ _ _ _ _ E (sreach_inv _ Hr)) as (_ & _ & Hc).
  assert (Ho : ordered t s s').
  { destruct e as [[]|]; [|by apply Hc]. destruct Hc as (t' & Et' & _ & Ho & _). congruence. }
  destruct Ho as (s1 & (tr1 & E1 & H1) & (tr2 & E2 & H2) & Hs).
  assert (Hsplit : above ++ (CallClose c, a) :: below = tr2 ++ tr1).
  { apply (app_inv_tail (trace s)). rewrite <- (app_assoc tr2), <- E1, <- E2, Etr. by rewrite <- !app_assoc. }
  assert (Hpre : exists mid, below = mid ++ tr1).
  { clear -Hsplit H1. revert above Hsplit. induction tr2 as [|x tr2 IH]; intros above Hsplit.
    - exfalso. cbn in Hsplit. apply (H1 (CallClose c) a). rewrite <- Hsplit. apply elem_of_app. right. by left.
    - destruct above as [|y above]; cbn in Hsplit; [injection Hsplit as _ ->; by exists tr2|].
      injection Hsplit as _ Hs. by apply (IH above). }
  destruct Hpre as [mid ->]. rewrite <- app_assoc, <- E1. apply elem_of_app. right.
  destruct Hs as [Es|Hs]; [|by eapply Hs]. exfalso.
  assert (tr2 = []) as ->.
  { rewrite E2 in Es. by apply (app_inv_tail (trace s1) tr2 []). }
  cbn in Hsplit. apply (H1 (CallClose c) a). rewrite <- Hsplit. apply elem_of_app. right. by left.
Qed.

(** Readiness is reported only for a pending transition that is covered on
    both sides: the report names the transition, every proposed binding has a
    prepared consumer and every source binding still has an active one. *)
Theorem ready_means_prepared snapshot destination s e s' :
  sreach s -> calm snapshot destination s ->
  ApplySnapshot library answer snapshot destination s = (e, s') ->
  exists new, trace s' = new ++ trace s /\ forall r a, (CallReport r, a) ∈ new -> rd_Ready r = true ->
    exists t, gs_transition (group_of (ms_ScalingGroup snapshot) s') = Some t /\
      rd_TransitionID r = sx_ID (pt_spec t) /\ rd_Group r = ms_ScalingGroup snapshot /\
      rd_Epoch r = sx_ProposedEpoch (pt_spec t) /\
      (forall b, b ∈ sx_Proposed (pt_spec t) -> is_Some (pt_prepared t !! binding_key b)) /\
      (forall b, b ∈ sx_Source (pt_spec t) ->
         is_Some (gs_active (group_of (ms_ScalingGroup snapshot) s') !! binding_key b)).
Proof.
  intros Hr Hc E. pose proof (sreach_inv _ Hr) as Hi. pose proof (ApplySnapshot_inv _ _ _ _ _ Hi Hc E) as Hi'.
  assert (X : exists new, trace s' = new ++ trace s /\ forall k a, (k, a) ∈ new -> ready_report k = true ->
    exists t, gs_transition (group_of (ms_ScalingGroup snapshot) s') = Some t /\ reports_for (pt_spec t) k).
  { apply ApplySnapshot_cases in E as [[-> _]|(d & -> & [[_ E]|[_ E]])].
    - exists []. split; [done|set_solver].
    - destruct (se_silent _ _ _ _ _ _ (apply_active_spec _ _ _ _ _ Hi E)) as (new & En & Hn).
      exists new. split; [done|]. intros k a Hin Hk. by rewrite (Hn k a Hin) in Hk.
    - by destruct (apply_transition_spec _ _ _ _ _ Hi Hc E) as (_ & _ & ? & _). }
  destruct X as (new & En & Hn). exists new. split; [done|]. intros r a Hin Hrd.
  destruct (Hn _ _ Hin Hrd) as (t & Et & R1 & R2 & R3). exists t.
  destruct (pending_group_of (ms_ScalingGroup snapshot) s' t ∅ Hi' Et) as [_ _ _ _ P5 P6 _ P8].
  split_and!; try done; [by rewrite <- P8|]. intros b Hb. apply elem_of_dom. rewrite P6. apply elem_of_keys_of. eauto.
Qed.

(** When an ACTIVE snapshot is applied successfully, with or without a
    pending transition, the group has no pending transition and active consumers
    for exactly one binding per member of the current membership, each of the
    snapshot's group and epoch; no other group has changed. *)
Theorem active_snapshot_settles snapshot destination s s' :
  sreach s -> calm snapshot destination s -> ms_Phase snapshot = CActive ->
  ApplySnapshot library answer snapshot destination s = (nil_err, s') ->
  gs_transition (group_of (ms_ScalingGroup snapshot) s') = None /\
  (exists bs, b_BrokerID <$> bs = ms_CurrentMembership snapshot /\
     Forall (fun b => b_Group b = ms_ScalingGroup snapshot /\ b_Epoch b = ms_Epoch snapshot) bs /\
     dom (gs_active (group_of (ms_ScalingGroup snapshot) s')) = keys_of bs) /\
  (forall n, n <> ms_ScalingGroup snapshot -> sh_groups s' !! n = sh_groups s !! n).
Proof.
  intros Hr Hc Hp E. pose proof (sreach_inv _ Hr) as Hi.
  apply ApplySnapshot_cases in E as [[_ Hk]|(d & -> & [[_ E]|[Hn _]])]; [by rewrite (Hk eq_refl) in Hp| |done].
  destruct (apply_active_spec _ _ _ _ _ Hi E) as [_ _ Ho Hok].
  destruct (Hok eq_refl) as (H1 & bs & [B1 B2] & H2). split_and!; try done. by exists bs.
Qed.
End Theorems.
