(* ===== verification/SubscriberScenario.v ===== *)
(** * A subscriber through a scale-out

    The shim follows the snapshots of a group that grows from one broker to
    two.  The theorems of SubscriberTheorems.v are applied at its states, and a
    second run shows a group whose [FailClosed] failed half way. *)

From S2P Require Import Prelude Customer Routing Snapshot Naming PublisherScenario Lane Subscriber SubscriberInv.
From S2P Require Import SubscriberClose SubscriberTheorems.
From Stdlib Require Import ZArith Lia String.
From stdpp Require Import base gmap strings numbers option pretty list.
#[local] Open Scope Z_scope.
#[local] Open Scope string_scope.

#[local] Existing Instance demo_urls.
#[local] Instance listed : RangeOrder := {| map_range _ _ m := map_to_list m; map_range_perm _ _ m := reflexivity _ |}.

Definition queue_of (broker : string) (epoch : Z) (_ : DestinationInfo) : result string :=
  Ok ("q." +:+ broker +:+ "." +:+ FormatUint epoch).
Definition shim_config : Subscriber.Config string :=
  Subscriber.mkConfig "sub-1" (Some demo_library) true true true {["orders" := mkContract "customer-v1" "v1"]}.
Definition blank_shim : Shim := mkShim "" ∅ ∅ ∅ (mkWorld 0 []).
Definition shim0 : Shim := match Subscriber.New shim_config (mkWorld 0 []) with Ok s => s | Err _ => blank_shim end.

Definition apply (answer : nat -> gerr) (snapshot : MembershipSnapshot) (s : Shim) : gerr * Shim :=
  ApplySnapshot demo_library answer snapshot (Some queue_of) s.

(** Every call succeeds. *)
Definition well (n : nat) : gerr := nil_err.
Definition shim1 : Shim := (apply well one_broker shim0).2.
Definition shim2 : Shim := (apply well preparing shim1).2.
Definition shim3 : Shim := (apply well two_brokers shim2).2.


Lemma pair_of {A B} (x : A * B) : x = (x.1, x.2).
Proof. by destruct x. Qed.

Lemma reach0 answer : sreach demo_library answer shim0.
Proof. apply (sr_new _ _ shim_config). vm_compute. reflexivity. Qed.
Lemma reach1 : sreach demo_library well shim1.
Proof.
  refine (sr_apply _ _ one_broker (Some queue_of) shim0 _ shim1 (reach0 _) _ (pair_of _)).
  apply calm_active. reflexivity.
Qed.
Lemma calm2 : calm preparing (Some queue_of) shim1.
Proof. apply calm_idle. vm_compute. reflexivity. Qed.
Lemma reach2 : sreach demo_library well shim2.
Proof. exact (sr_apply _ _ preparing (Some queue_of) shim1 _ shim2 reach1 calm2 (pair_of _)). Qed.
Lemma calm3 : calm two_brokers (Some queue_of) shim2.
Proof. apply calm_active. reflexivity. Qed.
Lemma reach3 : sreach demo_library well shim3.
Proof. exact (sr_apply _ _ two_brokers (Some queue_of) shim2 _ shim3 reach2 calm3 (pair_of _)). Qed.

(** The shim is closed after the scale-out. *)
Definition shim_closed : gerr * Shim := Close well shim3.

Lemma consumers_never_leak_witness :
  shim_closed.1 = nil_err /\ next shim_closed.2 = 3 /\ forall c, 0 <= c < 3 -> closed shim_closed.2 c.
Proof.
  assert (E : shim_closed.1 = nil_err) by (vm_compute; reflexivity).
  assert (N : next shim_closed.2 = 3) by (vm_compute; reflexivity).
  split; [exact E|]. split; [exact N|]. rewrite <- N.
  exact (proj2 (proj2 (consumers_never_leak demo_library well shim3 shim3 _ _ reach3 (rtc_refl _ _) (pair_of shim_closed))) E).
Defined.

(** The scale-out as the controller drives it: the two consumers of epoch 2 are
    active before the consumer of epoch 1 is closed. *)
Definition shim_switched : gerr * Shim := Activate well "orders" "t-1" shim2.

Lemma activate_before_close_witness : exists t above below,
  gs_transition (group_of "orders" shim2) = Some t /\
  trace shim_switched.2 = (above ++ (CallClose 0, nil_err) :: below ++ trace shim2)%list /\
  forall k b, pt_prepared t !! k = Some b -> (CallActivate (bc_consumer b), nil_err) ∈ (below ++ trace shim2)%list.
Proof.
  assert (Et : exists t, gs_transition (group_of "orders" shim2) = Some t).
  { assert (X : bool_decide (is_Some (gs_transition (group_of "orders" shim2))) = true) by (vm_compute; reflexivity).
    apply bool_decide_eq_true in X as [t X]. exists t. exact X. }
  destruct Et as [t Et].
  assert (Etr : exists below, trace shim_switched.2 = ([] ++ (CallClose 0, nil_err) :: below ++ trace shim2)%list).
  { exists (firstn 2 (tail (trace shim_switched.2))). vm_compute. reflexivity. }
  destruct Etr as [below Etr]. exists t, [], below. split; [exact Et|]. split; [exact Etr|].
  exact (activate_before_close demo_library well "orders" "t-1" shim2 _ shim_switched.2 t [] below 0 nil_err
    reach2 (pair_of shim_switched) Et Etr).
Defined.

Lemma ready_means_prepared_witness : exists new, trace shim2 = (new ++ trace shim1)%list /\
  forall r a, (CallReport r, a) ∈ new -> rd_Ready r = true ->
    exists t, gs_transition (group_of "orders" shim2) = Some t /\ rd_TransitionID r = sx_ID (pt_spec t).
Proof.
  destruct (ready_means_prepared demo_library well preparing (Some queue_of) shim1 _ shim2 reach1 calm2 (pair_of _))
    as (new & En & Hn).
  exists new. split; [exact En|]. intros r a Hin Hr. destruct (Hn r a Hin Hr) as (t & Et & Ei & _).
  exists t. split; [exact Et|exact Ei].
Defined.

Lemma active_snapshot_settles_witness :
  gs_transition (group_of "orders" shim3) = None /\
  exists bs, b_BrokerID <$> bs = ["b1"; "b2"] /\ dom (gs_active (group_of "orders" shim3)) = keys_of bs.
Proof.
  assert (E : ApplySnapshot demo_library well two_brokers (Some queue_of) shim2 = (nil_err, shim3)).
  { assert (X : (apply well two_brokers shim2).1 = nil_err) by (vm_compute; reflexivity). rewrite <- X. exact (pair_of _). }
  destruct (active_snapshot_settles demo_library well two_brokers (Some queue_of) shim2 shim3 reach2 calm3 eq_refl E)
    as (H1 & (bs & H2 & _ & H3) & _).
  split; [exact H1|]. exists bs. split; [exact H2|exact H3].
Defined.

(** ** A [FailClosed] that fails half way *)

(** The third of its three [Close] calls, the eighth call of the run, fails. *)
Definition eighth_fails (n : nat) : gerr := if bool_decide (n = 7%nat) then Err (ErrNew "close") else nil_err.
Definition bad1 : Shim := (apply eighth_fails one_broker shim0).2.
Definition bad2 : Shim := (apply eighth_fails preparing bad1).2.
Definition bad3 : gerr * Shim := FailClosed eighth_fails "orders" bad2.
Definition bad4 : gerr * Shim := apply eighth_fails preparing bad3.2.

Definition closed_b (s : Shim) (c : Z) : bool :=
  existsb (fun ke => match ke with (CallClose c', Ok _) => (c =? c')%Z | _ => false end) (trace s).
Lemma closed_b_true s c : closed_b s c = true -> closed s c.
Proof.
  unfold closed_b, closed. rewrite existsb_exists. intros ([k e] & Hin%list_elem_of_In & Hk).
  destruct k as [| | |c'|]; try done. destruct e as [[]|]; [|done]. apply Z.eqb_eq in Hk as ->. exact Hin.
Qed.

(** The prepared consumers of the group that are closed. *)
Definition dead_prepared (s : Shim) : list Z :=
  match gs_transition (group_of "orders" s) with
  | Some t => filter (fun c => closed_b s c = true) ((fun kb => bc_consumer kb.2) <$> map_to_list (pt_prepared t))
  | None => []
  end.

(** After a [FailClosed] in which one [Close] failed, the group keeps the
    consumers that were closed.  Applying the PREPARE snapshot again succeeds
    and reports the transition as ready although a prepared consumer of it is
    closed: the participant acknowledges a destination that nobody consumes. *)
Theorem failed_FailClosed_reports_ready :
  bad3.1 <> nil_err /\ bad4.1 = nil_err /\
  (exists r, rd_Ready r = true /\ rd_TransitionID r = "t-1" /\
     trace bad4.2 = (CallReport r, nil_err) :: trace bad3.2) /\
  exists t k b, gs_transition (group_of "orders" bad4.2) = Some t /\ pt_prepared t !! k = Some b /\
    closed bad4.2 (bc_consumer b).
Proof.
  split; [vm_compute; discriminate|]. split; [vm_compute; reflexivity|]. split.
  - eexists (match trace bad4.2 with (CallReport r, _) :: _ => r | _ => mkReadiness "" "" "" 0 [] false "" end).
    split; [vm_compute; reflexivity|]. split; vm_compute; reflexivity.
  - assert (X : dead_prepared bad4.2 <> []) by (vm_compute; discriminate). unfold dead_prepared in X.
    destruct (gs_transition (group_of "orders" bad4.2)) as [t|]; [|by destruct X].
    destruct (filter _ _) as [|c l] eqn:E; [by destruct X|].
    assert (Hc : c ∈ c :: l) by (by left). rewrite <- E in Hc. apply list_elem_of_filter in Hc as [Hc Hin].
    apply list_elem_of_fmap in Hin as ([k b] & -> & Hb%elem_of_map_to_list).
    exists t, k, b. split; [reflexivity|]. split; [exact Hb|]. apply closed_b_true. exact Hc.
Qed.

(** ** A binding that is added while it is prepared *)

(** The proposed binding of b2, whose consumer the transition has prepared. *)
Definition proposed_b2 : Binding := mkBinding "orders" "b2" "amqps://b2:5671" 2 "q.b2.2".
Definition added : gerr * Shim := AddActive well proposed_b2 shim2.
Definition overtaken : gerr * Shim := Activate well "orders" "t-1" added.2.
Definition overtaken_closed : gerr * Shim := Close well overtaken.2.

Definition closes_of (s : Shim) : list Z :=
  omap (fun ke => match fst ke with CallClose c => Some c | _ => None end) (trace s).

Lemma never_closed s c : c ∉ closes_of s -> ~ closed s c.
Proof.
  unfold closed, closes_of. intros Hn Hc. apply Hn, list_elem_of_omap. by exists (CallClose c, nil_err).
Qed.

Definition starts_of (s : Shim) : list Z :=
  omap (fun ke => match ke with (CallActivate c, Ok _) => Some c | _ => None end) (trace s).

Lemma starts_of_started s c : c ∈ starts_of s -> started s c.
Proof.
  unfold started, starts_of. intros ([k e] & Hin & Hk)%list_elem_of_omap.
  destruct k; try done. destruct e as [[]|]; [|done]. injection Hk as <-. exact Hin.
Qed.

(** C38: [AddActive] looks for its binding among the active consumers only.  When
    a pending transition has prepared a consumer for the same binding, it makes
    and activates a second one, which [Activate] then overwrites in the map of
    active consumers: every call succeeds, and after a [Close] that returns nil
    the second consumer is still active, without an owner and never closed. *)
Theorem added_binding_leaks :
  sreach demo_library well shim2 /\
  (exists t, gs_transition (group_of "orders" shim2) = Some t /\ is_Some (pt_prepared t !! binding_key proposed_b2)) /\
  added.1 = nil_err /\ overtaken.1 = nil_err /\ overtaken_closed.1 = nil_err /\
  next overtaken_closed.2 = 4 /\ started overtaken_closed.2 3 /\ ~ closed overtaken_closed.2 3.
Proof.
  split; [exact reach2|]. split.
  { assert (X : bool_decide (is_Some (gs_transition (group_of "orders" shim2) ≫= fun t => pt_prepared t !! binding_key proposed_b2)) = true)
      by (vm_compute; reflexivity).
    apply bool_decide_eq_true in X as [b X]. apply bind_Some in X as (t & Et & Eb). exists t. split; [exact Et|]. by exists b. }
  split; [vm_compute; reflexivity|]. split; [vm_compute; reflexivity|]. split; [vm_compute; reflexivity|].
  split; [vm_compute; reflexivity|]. split.
  - apply starts_of_started. apply (bool_decide_unpack (3 ∈ starts_of overtaken_closed.2)). vm_compute. exact I.
  - apply never_closed. apply (bool_decide_unpack (3 ∉ closes_of overtaken_closed.2)). vm_compute. exact I.
Qed.
