(* ===== verification/OperationStore.v ===== *)
(** * The durable operation store of the broker-0 channel (broker0/operation_store.go)

    [OperationStore] is the interface the channel's handlers use: a set of
    completed operation identifiers.  [JSONOperationStore] implements it with
    one JSON document that is replaced atomically; an identifier is kept for
    the redelivery horizon and never more than [MaxEntries] of them.

    A call is given its environment: the error of its context, the reading of
    the clock, and the action of [saveOperationState] that fails, if one does.
    The JSON document is the value the decoder sees. *)

From S2P Require Import Prelude.
From Stdlib Require Import ZArith Lia.
From stdpp Require Import base gmap strings numbers option fin_maps list.
#[local] Open Scope Z_scope.

(** ** Identifiers (broker0/envelope.go) *)
Definition validateTransportIdentifier (value : string) : gerr :=
  fail_if (str_empty value || (1024 <? len value) || negb (utf8_ValidString value) ||
           bool_decide (0 ∈ bytes_of value))
    (ErrNew "broker0: must be 1-1024 valid UTF-8 bytes without NUL") ;;!
  fail_if (existsb unicode_IsControl (runes value))
    (ErrNew "broker0: contains a control character").

Definition validateOperationID (operationID : string) : gerr :=
  validateTransportIdentifier operationID.

(** ** Options *)
Definition operationStateVersion : Z := 2.
Definition defaultOperationStoreMaxEntries : Z := 10000.
Definition defaultRedeliveryHorizon : Duration := 24 * (60 * Minute).

Definition ErrOperationStoreFull : gerror :=
  ErrNew "broker0: operation store is full within the redelivery horizon".

Record OperationStoreOptions := mkStoreOptions {
  MaxEntries : Z;
  RedeliveryHorizon : Duration;
}.
#[export] Instance eta_OperationStoreOptions : Eta OperationStoreOptions := fun o =>
  mkStoreOptions (MaxEntries o) (RedeliveryHorizon o).

Definition withDefaults (options : OperationStoreOptions) : OperationStoreOptions :=
  let options := if MaxEntries options =? 0
    then options <| MaxEntries := defaultOperationStoreMaxEntries |> else options in
  if RedeliveryHorizon options =? 0
  then options <| RedeliveryHorizon := defaultRedeliveryHorizon |> else options.

(** ** The document and the disk *)

(** The value of one member of the ["operations"] object. *)
Inductive json_value : Type :=
| JTime (t : Time)
| JBool (b : bool)
| JNull
| JOther.

(** The ["operations"] member: left out, [null], an object, or another value. *)
Inductive json_operations : Type :=
| OpsMissing
| OpsNull
| OpsObject (entries : gmap string json_value)
| OpsOther.

(** [doc_Version] is [None] when the member is not an integer, and [0] when it
    is left out. *)
Record document := mkDocument {
  doc_Version : option Z;
  doc_Operations : json_operations;
}.

Inductive file : Type :=
| Absent
| Unreadable (e : gerror)
| NotJSON
| Document (d : document).

Record operationState := mkOperationState {
  os_Version : Z;
  os_Operations : option (gmap string Time);
}.

(** The entries of a map that may be nil. *)
Definition entries (s : operationState) : gmap string Time := default ∅ (os_Operations s).

(** [json.MarshalIndent] of an [operationState]. *)
Definition marshal_state (s : operationState) : file :=
  Document (mkDocument (Some (os_Version s))
    match os_Operations s with
    | None => OpsNull
    | Some m => OpsObject (JTime <$> m)
    end).

(** [json.Unmarshal] of one member: [null] leaves the zero value. *)
Definition as_time (v : json_value) : option Time :=
  match v with JTime t => Some t | JNull => Some zeroTime | _ => None end.
Definition as_bool (v : json_value) : option bool :=
  match v with JBool b => Some b | JNull => Some false | _ => None end.

(** [json.Unmarshal] of an object into a map: every member must decode. *)
Definition unmarshal_map {A} (as_value : json_value -> option A) (m : gmap string json_value)
    : option (gmap string A) :=
  if bool_decide (map_Forall (fun _ v => is_Some (as_value v)) m) then Some (omap as_value m) else None.

(** The unmarshalled field, starting from [init]: an object is merged into it,
    [null] makes it nil. *)
Definition unmarshal_operations {A} (as_value : json_value -> option A) (init : option (gmap string A))
    (o : json_operations) : result (option (gmap string A)) :=
  match o with
  | OpsMissing => Ok init
  | OpsNull => Ok None
  | OpsObject m =>
      match unmarshal_map as_value m with
      | Some m => Ok (Some (m ∪ default ∅ init))
      | None => Err (ErrNew "json: cannot unmarshal")
      end
  | OpsOther => Err (ErrNew "json: cannot unmarshal")
  end.

(** The file under the store's path as the process sees it, whether its bytes
    have been synced, what stable storage holds under that name, and the
    temporary file with whether its bytes have been synced. *)
Record disk := mkDisk {
  d_visible : file;
  d_synced : bool;
  d_durable : file;
  d_temporary : option (file * bool);
}.
#[export] Instance eta_disk : Eta disk := fun d =>
  mkDisk (d_visible d) (d_synced d) (d_durable d) (d_temporary d).

(** What can be read under the path after a crash: the entry that stable
    storage holds or the one that was not synced yet, torn when its bytes were
    not. *)
Definition crash_images (d : disk) : list file :=
  [d_durable d; if d_synced d then d_visible d else NotJSON].

(** ** saveOperationState *)
Inductive save_action : Type :=
| SaveEncode | SaveMkdirAll | SaveCreateTemp | SaveChmod | SaveWrite | SaveSync | SaveClose
| SaveRename | SaveOpenDirectory | SaveSyncDirectory.
#[export] Instance save_action_eq_dec : EqDecision save_action.
Proof. solve_decision. Defined.

Definition save_actions : list save_action :=
  [SaveEncode; SaveMkdirAll; SaveCreateTemp; SaveChmod; SaveWrite; SaveSync; SaveClose;
   SaveRename; SaveOpenDirectory; SaveSyncDirectory].

Definition save_message (a : save_action) : string :=
  match a with
  | SaveEncode => "broker0: encode operation store"
  | SaveMkdirAll => "broker0: create operation store directory"
  | SaveCreateTemp => "broker0: create temporary operation store"
  | SaveChmod => "broker0: set operation store permissions"
  | SaveWrite => "broker0: write operation store"
  | SaveSync => "broker0: sync operation store"
  | SaveClose => "broker0: close operation store"
  | SaveRename => "broker0: replace operation store"
  | SaveOpenDirectory => "broker0: open operation store directory"
  | SaveSyncDirectory => "broker0: sync operation store directory"
  end.

(** The effect of an action that succeeds. *)
Definition save_effect (state : operationState) (a : save_action) (d : disk) : disk :=
  match a with
  | SaveEncode | SaveMkdirAll | SaveChmod | SaveClose | SaveOpenDirectory => d
  | SaveCreateTemp => d <| d_temporary := Some (NotJSON, false) |>
  | SaveWrite => d <| d_temporary := Some (marshal_state state, false) |>
  | SaveSync => d <| d_temporary := (fun t => (fst t, true)) <$> d_temporary d |>
  | SaveRename =>
      match d_temporary d with
      | Some (f, synced) =>
          d <| d_visible := f |> <| d_synced := synced |> <| d_temporary := None |>
      | None => d
      end
  | SaveSyncDirectory => d <| d_durable := if d_synced d then d_visible d else NotJSON |>
  end.

(** The actions in order until one fails; the list holds the disk after each. *)
Fixpoint save_loop (fault : option (save_action * gerror)) (state : operationState)
    (actions : list save_action) (d : disk) : list disk * gerr :=
  match actions with
  | [] => ([], nil_err)
  | a :: rest =>
      let failed :=
        match fault with
        | Some (f, e) => if bool_decide (f = a) then Some e else None
        | None => None
        end in
      match failed with
      | Some e => ([], Err (ErrWrap (save_message a) e))
      | None =>
          let d := save_effect state a d in
          let '(l, r) := save_loop fault state rest d in (d :: l, r)
      end
  end.

(** The disks passed through, the disk left after the deferred removal of the
    temporary file, and the error. *)
Definition saveOperationState (fault : option (save_action * gerror)) (state : operationState)
    (d : disk) : list disk * disk * gerr :=
  let '(l, r) := save_loop fault state save_actions d in
  (l, default d (last l) <| d_temporary := None |>, r).

(** ** The interface *)
Record CallEnv := mkCallEnv {
  ce_ctx : gerr;
  ce_now : Time;
  ce_fault : option (save_action * gerror);
}.

(** [RecordOp] is [Record], which is a keyword here. *)
Class OperationStore (S : Type) := {
  Contains : CallEnv -> S -> string -> result bool;
  RecordOp : CallEnv -> S -> string -> S * gerr;
}.

(** ** JSONOperationStore *)
Record JSONOperationStore := mkJSONStore {
  js_options : OperationStoreOptions;
  js_state : operationState;
  js_disk : disk;
}.
#[export] Instance eta_JSONOperationStore : Eta JSONOperationStore := fun s =>
  mkJSONStore (js_options s) (js_state s) (js_disk s).

Definition expired (recordedAt now : Time) (horizon : Duration) : bool :=
  negb (time_After (time_Add recordedAt horizon) now).

Definition validateEntries (s : operationState) : gerr :=
  match os_Operations s with
  | None => Err (ErrNew "broker0: operation store has no operations map")
  | Some m =>
      for_each (fun '(operationID, recordedAt) =>
        wrap_err "broker0: invalid persisted operation ID" (validateOperationID operationID) ;;!
        fail_if (time_IsZero recordedAt) (ErrNew "broker0: operation has no recorded timestamp"))
        (map_to_list m)
  end.

Definition count (m : gmap string Time) : Z := Z.of_nat (size m).

Definition validate (options : OperationStoreOptions) (s : operationState) : gerr :=
  validateEntries s ;;!
  fail_if (MaxEntries options <? count (entries s))
    (ErrWrap "store has too many entries" ErrOperationStoreFull).

(** The entries of a map that have not expired. *)
Definition unexpired (options : OperationStoreOptions) (now : Time) (m : gmap string Time)
    : gmap string Time :=
  filter (fun '(_, recordedAt) => expired recordedAt now (RedeliveryHorizon options) = false) m.

(** [pruneLocked]: the remaining entries, and whether one was deleted. *)
Definition pruneLocked (options : OperationStoreOptions) (now : Time) (s : operationState)
    : operationState * bool :=
  (mkOperationState (os_Version s) (unexpired options now <$> os_Operations s),
   bool_decide (unexpired options now (entries s) <> entries s)).

Definition json_Contains (env : CallEnv) (store : JSONOperationStore) (operationID : string)
    : result bool :=
  ce_ctx env ;;!
  validateOperationID operationID ;;!
  Ok match entries (js_state store) !! operationID with
     | Some recordedAt => negb (expired recordedAt (ce_now env) (RedeliveryHorizon (js_options store)))
     | None => false
     end.

(** [Record] and the disks it passes through. *)
Definition json_record (env : CallEnv) (store : JSONOperationStore) (operationID : string)
    : list disk * (JSONOperationStore * gerr) :=
  match ce_ctx env, validateOperationID operationID with
  | Err e, _ | Ok _, Err e => ([], (store, Err e))
  | Ok _, Ok _ =>
      let options := js_options store in
      let now := ce_now env in
      let present :=
        match entries (js_state store) !! operationID with
        | Some recordedAt => negb (expired recordedAt now (RedeliveryHorizon options))
        | None => false
        end in
      if present then ([], (store, nil_err)) else
      let next := unexpired options now (entries (js_state store)) in
      if MaxEntries options <=? count next
      then ([], (store, Err (ErrWrap "maximum" ErrOperationStoreFull))) else
      let next := mkOperationState operationStateVersion (Some (<[operationID := now]> next)) in
      let '(passed, d, r) := saveOperationState (ce_fault env) next (js_disk store) in
      match r with
      | Err e => (passed, (store <| js_disk := d |>, Err e))
      | Ok _ => (passed, (store <| js_disk := d |> <| js_state := next |>, nil_err))
      end
  end.

Definition json_Record (env : CallEnv) (store : JSONOperationStore) (operationID : string)
    : JSONOperationStore * gerr := snd (json_record env store operationID).

#[export] Instance JSONOperationStore_store : OperationStore JSONOperationStore := {|
  Contains := json_Contains;
  RecordOp := json_Record;
|}.

(** ** Opening *)
Definition fresh_state : operationState := mkOperationState operationStateVersion (Some ∅).

(** The case of version 1: every listed operation is taken as recorded now. *)
Definition migrate_legacy (options : OperationStoreOptions) (now : Time) (o : json_operations)
    : result operationState :=
  let! legacy := wrap_err "broker0: decode legacy operation store" (unmarshal_operations as_bool None o) in
  match legacy with
  | None => Err (ErrNew "broker0: operation store has no operations map")
  | Some legacy =>
      fail_if (MaxEntries options <? Z.of_nat (size legacy))
        (ErrWrap "legacy store has too many entries" ErrOperationStoreFull) ;;!
      for_each (fun '(_, completed) => fail_if (negb completed)
        (ErrNew "broker0: operation has invalid incomplete state")) (map_to_list legacy) ;;!
      let s := mkOperationState operationStateVersion (Some ((fun _ => now) <$> legacy)) in
      validate options s ;;!
      Ok s
  end.

(** The case of the current version: the state, and whether it was pruned. *)
Definition load_current (options : OperationStoreOptions) (now : Time) (o : json_operations)
    : result (operationState * bool) :=
  let! m := wrap_err "broker0: decode operation store"
    (unmarshal_operations as_time (os_Operations fresh_state) o) in
  let s := mkOperationState operationStateVersion m in
  validateEntries s ;;!
  let '(s, pruned) := pruneLocked options now s in
  fail_if (MaxEntries options <? count (entries s))
    (ErrWrap "store has too many unexpired entries" ErrOperationStoreFull) ;;!
  Ok (s, pruned).

(** The state the document holds, and with which message it is saved again. *)
Definition load_document (options : OperationStoreOptions) (now : Time) (d : document)
    : result (operationState * option string) :=
  match doc_Version d with
  | None => Err (ErrNew "broker0: decode operation store")
  | Some version =>
      if version =? 1 then
        let! s := migrate_legacy options now (doc_Operations d) in
        Ok (s, Some "broker0: migrate operation store"%string)
      else if version =? operationStateVersion then
        let! loaded := load_current options now (doc_Operations d) in
        let '(s, pruned) := loaded in
        Ok (s, if (pruned : bool) then Some "broker0: prune operation store"%string else None)
      else Err (ErrNew "broker0: unsupported operation store version")
  end.

(** [OpenJSONOperationStoreWithOptions] and the disks it passes through. *)
Definition json_open (env : CallEnv) (path : string) (options : OperationStoreOptions) (d : disk)
    : list disk * disk * result JSONOperationStore :=
  if str_empty path then ([], d, Err (ErrNew "broker0: operation store path is required")) else
  let options := withDefaults options in
  if MaxEntries options <? 1
  then ([], d, Err (ErrNew "broker0: operation store max entries must be positive")) else
  if RedeliveryHorizon options <=? 0
  then ([], d, Err (ErrNew "broker0: operation store redelivery horizon must be positive")) else
  match d_visible d with
  | Absent => ([], d, Ok (mkJSONStore options fresh_state d))
  | Unreadable e => ([], d, Err (ErrWrap "broker0: read operation store" e))
  | NotJSON => ([], d, Err (ErrNew "broker0: decode operation store"))
  | Document doc =>
      match load_document options (ce_now env) doc with
      | Err e => ([], d, Err e)
      | Ok (s, None) => ([], d, Ok (mkJSONStore options s d))
      | Ok (s, Some message) =>
          let '(passed, d, r) := saveOperationState (ce_fault env) s d in
          match r with
          | Err e => (passed, d, Err (ErrWrap message e))
          | Ok _ => (passed, d, Ok (mkJSONStore options s d))
          end
      end
  end.

Definition OpenJSONOperationStoreWithOptions (env : CallEnv) (path : string)
    (options : OperationStoreOptions) (d : disk) : result JSONOperationStore :=
  snd (json_open env path options d).

Definition OpenJSONOperationStore (env : CallEnv) (path : string) (d : disk)
    : result JSONOperationStore :=
  OpenJSONOperationStoreWithOptions env path (mkStoreOptions 0 0) d.
