(* ===== verification/OperationStoreTheorems.v ===== *)
(** * Theorems on the operation store

    What the store promises its clients ([OperationStoreLaws], discharged by
    [JSONOperationStore]), and what it keeps across process exits and power
    losses at any point of a write: an operation recorded once is answered
    [true] until its redelivery horizon has passed, no operation is answered
    that was not recorded, the document never outgrows [MaxEntries], and it can
    always be opened again. *)

From S2P Require Import Prelude OperationStore.
From Stdlib Require Import ZArith Lia.
From stdpp Require Import base gmap strings numbers option fin_maps list.
#[local] Open Scope Z_scope.

(** ** The contract of the interface *)
Class OperationStoreLaws (S : Type) `{OperationStore S} := {
  store_ok : S -> Prop;
  holds : S -> Time -> string -> bool;
  holds_mono s t t' op : t' <= t -> holds s t op = true -> holds s t' op = true;
  Contains_holds env s op b : Contains env s op = Ok b -> b = holds s (ce_now env) op;
  RecordOp_ok env s op s' r : RecordOp env s op = (s', r) -> store_ok s -> store_ok s';
  RecordOp_holds env s op s' : RecordOp env s op = (s', nil_err) -> store_ok s ->
    holds s' (ce_now env) op = true;
  RecordOp_keeps env s op s' r t o : RecordOp env s op = (s', r) -> ce_now env <= t ->
    holds s t o = true -> holds s' t o = true;
  RecordOp_only env s op s' r t o : RecordOp env s op = (s', r) -> o <> op ->
    holds s' t o = true -> holds s t o = true;
  RecordOp_failed env s op s' e t o : RecordOp env s op = (s', Err e) ->
    holds s' t o = holds s t o;
}.

(** ** Entries and their expiry *)
Definition in_horizon (h : Duration) (m : gmap string Time) (t : Time) (op : string) : bool :=
  match m !! op with Some r => negb (expired r t h) | None => false end.

Lemma expired_false r t h : expired r t h = false <-> t < r + h.
Proof. unfold expired, time_After, time_Add. rewrite negb_false_iff. lia. Qed.

Lemma in_horizon_spec h m t op : in_horizon h m t op = true <-> exists r, m !! op = Some r /\ t < r + h.
Proof.
  unfold in_horizon. destruct (m !! op) as [r|]; [|naive_solver].
  rewrite negb_true_iff, expired_false. naive_solver.
Qed.

Lemma unexpired_lookup options t m op r :
  unexpired options t m !! op = Some r <-> m !! op = Some r /\ t < r + RedeliveryHorizon options.
Proof. unfold unexpired. rewrite map_lookup_filter_Some, expired_false. done. Qed.

Lemma unexpired_size options t m : count (unexpired options t m) <= count m.
Proof.
  unfold count. apply Nat2Z.inj_le, map_subseteq_size. unfold unexpired. apply map_filter_subseteq.
Qed.

(** ** One Record *)
Inductive record_outcome (env : CallEnv) (s : JSONOperationStore) (op : string)
    : list disk * (JSONOperationStore * gerr) -> Prop :=
| record_refused e : record_outcome env s op ([], (s, Err e))
| record_present :
    in_horizon (RedeliveryHorizon (js_options s)) (entries (js_state s)) (ce_now env) op = true ->
    record_outcome env s op ([], (s, nil_err))
| record_saved next passed d r :
    is_ok (validateOperationID op) = true ->
    in_horizon (RedeliveryHorizon (js_options s)) (entries (js_state s)) (ce_now env) op = false ->
    next = unexpired (js_options s) (ce_now env) (entries (js_state s)) ->
    count next < MaxEntries (js_options s) ->
    saveOperationState (ce_fault env)
      (mkOperationState operationStateVersion (Some (<[op := ce_now env]> next))) (js_disk s)
      = (passed, d, r) ->
    record_outcome env s op
      (passed, (if is_ok r
                then s <| js_disk := d |> <| js_state :=
                  mkOperationState operationStateVersion (Some (<[op := ce_now env]> next)) |>
                else s <| js_disk := d |>, r)).

Lemma json_record_outcome env s op : record_outcome env s op (json_record env s op).
Proof.
  unfold json_record. destruct (ce_ctx env) as [[]|e]; [|constructor].
  destruct (validateOperationID op) as [[]|e] eqn:Hv; [|constructor].
  change (match entries (js_state s) !! op with Some _ => _ | None => false end) with
    (in_horizon (RedeliveryHorizon (js_options s)) (entries (js_state s)) (ce_now env) op).
  destruct (in_horizon _ _ _ _) eqn:Hp; [by constructor|].
  case_match eqn:Hfull; [constructor|].
  destruct (saveOperationState _ _ _) as [[passed d] r] eqn:Hs.
  pose proof (record_saved env s op _ passed d r ltac:(by rewrite Hv) Hp eq_refl ltac:(lia) Hs).
  destruct r as [[]|e]; exact H.
Qed.

(** ** Saving *)

(** Everything that can be read under the path, now or after a power loss. *)
Definition images (d : disk) : list file := d_visible d :: crash_images d.

(** Every disk a write passes through shows the old document or the new one. *)
Definition old_or_new (state : operationState) (d0 d : disk) : Prop :=
  Forall (fun f => f = marshal_state state \/ f ∈ images d0) (images d).

Lemma save_passes_old_or_new fault state d passed d' r :
  saveOperationState fault state d = (passed, d', r) ->
  Forall (old_or_new state d) passed /\ old_or_new state d d' /\
  (r = nil_err -> forall f, f ∈ images d' -> f = marshal_state state).
Proof.
  assert (Hv : d_visible d ∈ images d) by (apply list_elem_of_here).
  assert (Hd : d_durable d ∈ images d) by (apply list_elem_of_further, list_elem_of_here).
  assert (Hc : (if d_synced d then d_visible d else NotJSON) ∈ images d)
    by (do 2 apply list_elem_of_further; apply list_elem_of_here).
  unfold saveOperationState, old_or_new. destruct d as [v y u tmp]. cbn in Hv, Hd, Hc.
  generalize dependent (images (mkDisk v y u tmp)). intros old Hv Hd Hc.
  destruct fault as [[[] e]|]; cbn -[marshal_state]; intros [= <- <- <-];
    unfold images, crash_images; cbn -[marshal_state];
    repeat first [split | apply Forall_nil_2 | apply Forall_cons_2 | assumption | left; reflexivity
                 | right; assumption];
    try discriminate; intros _ f Hf; rewrite !elem_of_cons, elem_of_nil in Hf; tauto.
Qed.

(** ** Runs

    The process is up with its store or down with what its disk holds.  Any
    write can be cut short by the process ending, and a process that is down
    can find its disk as a power loss left it.  The clock does not go back. *)
Inductive process : Type :=
| Up (s : JSONOperationStore)
| Down (d : disk).

(** The last reading of the clock, every operation [Record] was called with,
    and the process. *)
Record run_state := mkRunState {
  rs_clock : Time;
  rs_attempted : gset string;
  rs_process : process;
}.

Section Runs.
Context (path : string) (options : OperationStoreOptions).

Inductive store_step : run_state -> run_state -> Prop :=
| step_record T A s env op s' r :
    T <= ce_now env -> RecordOp env s op = (s', r) ->
    store_step (mkRunState T A (Up s)) (mkRunState (ce_now env) ({[op]} ∪ A) (Up s'))
| step_exit T A s :
    store_step (mkRunState T A (Up s)) (mkRunState T A (Down (js_disk s)))
| step_exit_recording T A s env op d :
    T <= ce_now env -> d ∈ fst (json_record env s op) ->
    store_step (mkRunState T A (Up s)) (mkRunState (ce_now env) ({[op]} ∪ A) (Down d))
| step_power_loss T A d f :
    f ∈ crash_images d ->
    store_step (mkRunState T A (Down d)) (mkRunState T A (Down (mkDisk f true f None)))
| step_open T A d env passed d' s :
    T <= ce_now env -> json_open env path options d = (passed, d', Ok s) ->
    store_step (mkRunState T A (Down d)) (mkRunState (ce_now env) A (Up s))
| step_open_failed T A d env passed d' e :
    T <= ce_now env -> json_open env path options d = (passed, d', Err e) ->
    store_step (mkRunState T A (Down d)) (mkRunState (ce_now env) A (Down d'))
| step_exit_opening T A d env d1 :
    T <= ce_now env -> d1 ∈ fst (fst (json_open env path options d)) ->
    store_step (mkRunState T A (Down d)) (mkRunState (ce_now env) A (Down d1)).

Definition store_run : relation run_state := rtc store_step.

(** *** The invariant *)
Abbreviation horizon := (RedeliveryHorizon (withDefaults options)).
Abbreviation maximum := (MaxEntries (withDefaults options)).

(** What was recorded at [r] must be there while the horizon lasts. *)
Definition kept (promise : option (string * Time)) (T : Time) (m : gmap string Time) : Prop :=
  match promise with
  | Some (op, r) => T < r + horizon -> m !! op = Some r
  | None => True
  end.

Record good_entries (promise : option (string * Time)) (T : Time) (A : gset string)
    (m : gmap string Time) : Prop := {
  ge_valid : forall op r, m !! op = Some r ->
    is_ok (validateOperationID op) = true /\ r <> 0 /\ op ∈ A;
  ge_size : count m <= maximum;
  ge_kept : kept promise T m;
}.

Definition current_state (m : gmap string Time) : operationState :=
  mkOperationState operationStateVersion (Some m).

(** A readable file that holds good entries. *)
Definition good_file promise T A (f : file) : Prop :=
  (f = Absent /\ good_entries promise T A ∅) \/
  (exists m, f = marshal_state (current_state m) /\ good_entries promise T A m).

Definition good_disk promise T A (d : disk) : Prop := Forall (good_file promise T A) (images d).

Record good_store promise T A (s : JSONOperationStore) : Prop := {
  gst_options : js_options s = withDefaults options;
  gst_state : exists m, js_state s = current_state m /\ good_entries promise T A m;
  gst_disk : good_disk promise T A (js_disk s);
}.

Definition good_run (promise : option (string * Time)) (r : run_state) : Prop :=
  0 < rs_clock r /\ 0 < horizon /\ 1 <= maximum /\
  match rs_process r with
  | Up s => good_store promise (rs_clock r) (rs_attempted r) s
  | Down d => good_disk promise (rs_clock r) (rs_attempted r) d
  end.

(** *** Good entries stay good *)
Lemma good_entries_mono p T A m T' A' :
  T <= T' -> A ⊆ A' -> good_entries p T A m -> good_entries p T' A' m.
Proof.
  intros HT HA [Hv Hs Hk]. split; [|done|].
  - intros op r Hm. destruct (Hv op r Hm) as (?&?&?). set_solver.
  - destruct p as [[op r]|]; [|done]. cbn in *. intros. apply Hk. lia.
Qed.

Lemma good_file_mono p T A f T' A' :
  T <= T' -> A ⊆ A' -> good_file p T A f -> good_file p T' A' f.
Proof. intros HT HA [[]|(m&?&?)]; [left|right]; eauto 6 using good_entries_mono. Qed.

Lemma good_disk_mono p T A d T' A' :
  T <= T' -> A ⊆ A' -> good_disk p T A d -> good_disk p T' A' d.
Proof. unfold good_disk. intros. eapply Forall_impl; [done|]. eauto using good_file_mono. Qed.

Lemma good_store_mono p T A s T' A' :
  T <= T' -> A ⊆ A' -> good_store p T A s -> good_store p T' A' s.
Proof.
  intros HT HA [Ho (m&?&?) Hd]. split; eauto using good_disk_mono, good_entries_mono.
Qed.

Lemma good_entries_unexpired p T A m :
  good_entries p T A m -> good_entries p T A (unexpired (withDefaults options) T m).
Proof.
  intros [Hv Hs Hk]. split.
  - intros op r [Hm _]%unexpired_lookup. eauto.
  - pose proof (unexpired_size (withDefaults options) T m). lia.
  - destruct p as [[op r]|]; [|done]. intros HT. apply unexpired_lookup. split; [by apply Hk|done].
Qed.

Lemma good_entries_insert p T A m op :
  T <> 0 -> is_ok (validateOperationID op) = true ->
  in_horizon horizon m T op = false ->
  count (unexpired (withDefaults options) T m) < maximum ->
  good_entries p T A m ->
  good_entries p T ({[op]} ∪ A) (<[op := T]> (unexpired (withDefaults options) T m)).
Proof.
  intros HT Hop Habsent Hroom Hg. pose proof (good_entries_unexpired p T A m Hg) as Hu.
  split.
  - intros o r [[-> ->]|[Hne Hl]]%lookup_insert_Some; [set_solver|].
    destruct (ge_valid _ _ _ _ Hu o r Hl) as (?&?&?). set_solver.
  - unfold count in *. rewrite map_size_insert. case_match; unfold id; lia.
  - destruct p as [[o r]|]; [|done]. cbn. intros Hr.
    assert (Hm : m !! o = Some r) by (by apply (ge_kept _ _ _ _ Hg)).
    destruct (decide (o = op)) as [->|Hne].
    + assert (in_horizon horizon m T op = true) by (apply in_horizon_spec; eauto). congruence.
    + rewrite lookup_insert_ne by done. apply (ge_kept _ _ _ _ Hu). done.
Qed.

(** *** Writes *)
Lemma good_file_state p T A m : good_entries p T A m -> good_file p T A (marshal_state (current_state m)).
Proof. right. eauto. Qed.

Lemma good_disk_save p T A m fault d passed d' r :
  good_disk p T A d -> good_entries p T A m ->
  saveOperationState fault (current_state m) d = (passed, d', r) ->
  Forall (good_disk p T A) passed /\ good_disk p T A d'.
Proof.
  intros Hd Hm (Hp & Hd' & _)%save_passes_old_or_new.
  assert (Hone : forall d1, old_or_new (current_state m) d d1 -> good_disk p T A d1).
  { unfold good_disk, old_or_new. intros d1 H1. eapply Forall_impl; [exact H1|].
    intros f [->|Hf]; [by apply good_file_state|]. by eapply Forall_forall in Hf. }
  split; [|auto]. eapply Forall_impl; eauto.
Qed.

Lemma good_disk_power_loss p T A d f :
  good_disk p T A d -> f ∈ crash_images d -> good_disk p T A (mkDisk f true f None).
Proof.
  unfold good_disk. intros Hd Hf. assert (good_file p T A f) as ?.
  { eapply Forall_forall in Hd; [done|]. by apply list_elem_of_further. }
  unfold images, crash_images. cbn. rewrite !Forall_cons. auto.
Qed.

(** *** Reading the document back *)
Lemma unmarshal_marshal m : unmarshal_map as_time (JTime <$> m) = Some m.
Proof.
  unfold unmarshal_map. rewrite bool_decide_eq_true_2.
  - f_equal. apply map_eq. intros k. rewrite lookup_omap, lookup_fmap. by destruct (m !! k).
  - intros k v. rewrite lookup_fmap_Some. intros (t & <- & _). by eexists.
Qed.

Lemma validateEntries_good p T A m :
  good_entries p T A m -> validateEntries (current_state m) = nil_err.
Proof.
  intros Hg. cbn. apply for_each_ok, Forall_forall. intros [op r] Hin%elem_of_map_to_list.
  destruct (ge_valid _ _ _ _ Hg op r Hin) as (Hv & Hr & _).
  destruct (validateOperationID op) as [[]|]; [|done]. cbn.
  unfold fail_if, time_IsZero. by case_match; [lia|].
Qed.

Lemma load_good p T A m :
  good_entries p T A m -> exists again,
  load_document (withDefaults options) T (mkDocument (Some operationStateVersion) (OpsObject (JTime <$> m)))
  = Ok (current_state (unexpired (withDefaults options) T m), again).
Proof.
  intros Hg. unfold load_document. cbn [doc_Version doc_Operations]. change (operationStateVersion =? 1) with false.
  change (operationStateVersion =? operationStateVersion) with true. cbn [wrap_err].
  unfold load_current, unmarshal_operations. rewrite unmarshal_marshal. cbn [wrap_err].
  cbn [os_Operations fresh_state from_option]. unfold id. rewrite map_union_empty.
  fold (current_state m). rewrite (validateEntries_good p T A m Hg). unfold pruneLocked.
  cbn [os_Operations current_state os_Version fmap option_fmap option_map from_option].
  pose proof (ge_size _ _ _ _ Hg). pose proof (unexpired_size (withDefaults options) T m).
  unfold fail_if, entries. cbn [os_Operations from_option]. unfold id.
  destruct (Z.ltb_spec maximum (count (unexpired (withDefaults options) T m))); [lia|].
  eexists. reflexivity.
Qed.

(** *** Opening and recording *)
Lemma good_disk_open p T A d env passed d' r :
  good_disk p T A d -> T <= ce_now env ->
  json_open env path options d = (passed, d', r) ->
  Forall (good_disk p (ce_now env) A) passed /\ good_disk p (ce_now env) A d' /\
  (forall s, r = Ok s -> good_store p (ce_now env) A s).
Proof.
  intros Hd HT. apply (good_disk_mono p T A d (ce_now env) A) in Hd; [|done|done]. unfold json_open.
  do 3 (case_match; [intros [= <- <- <-]; split_and!; [constructor|done|discriminate]|]).
  assert (Hv : good_file p (ce_now env) A (d_visible d)) by (by inversion Hd).
  destruct Hv as [[-> Hm]|(m & -> & Hm)].
  - intros [= <- <- <-]. split_and!; [constructor|done|]. intros s [= <-]. split; eauto.
  - cbn [marshal_state current_state os_Version os_Operations].
    destruct (load_good p (ce_now env) A m Hm) as [again ->].
    apply good_entries_unexpired in Hm. destruct again as [message|].
    + destruct (saveOperationState _ _ _) as [[passed1 d1] r1] eqn:Hs.
      destruct (good_disk_save _ _ _ _ _ _ _ _ _ Hd Hm Hs) as [Hp Hd1].
      destruct r1 as [[]|e]; intros [= <- <- <-]; (split_and!; [done|done|]); [|discriminate].
      intros s [= <-]. split; eauto.
    + intros [= <- <- <-]. split_and!; [constructor|done|]. intros s [= <-]. split; eauto.
Qed.

Lemma good_store_record p T A s env op :
  0 < T -> good_store p T A s -> T <= ce_now env ->
  let '(passed, (s', _)) := json_record env s op in
  Forall (good_disk p (ce_now env) ({[op]} ∪ A)) passed /\
  good_store p (ce_now env) ({[op]} ∪ A) s'.
Proof.
  intros HT0 Hs HT. pose proof (good_store_mono p T A s (ce_now env) A HT ltac:(done) Hs) as Hs1.
  pose proof (good_store_mono p _ A s (ce_now env) ({[op]} ∪ A) HT ltac:(set_solver) Hs) as Hs2.
  destruct (json_record_outcome env s op) as [e|Hin|next passed d r Hop Hin Hnext Hroom Hsave];
    [split; [constructor|done]..|].
  destruct Hs1 as [Ho (m & Hm & Hg) _]. rewrite Hm, Ho in *. cbn in Hin, Hnext. subst next.
  pose proof (good_entries_insert p (ce_now env) A m op ltac:(lia) Hop Hin Hroom Hg) as Hg'.
  destruct (good_disk_save _ _ _ _ _ _ _ _ _ (gst_disk _ _ _ _ Hs2) Hg' Hsave) as [Hp Hd].
  split; [done|]. destruct r as [[]|e]; cbn; split; cbn; eauto; apply Hs2.
Qed.

Lemma good_run_step p r r' : store_step r r' -> good_run p r -> good_run p r'.
Proof.
  unfold good_run. intros Hstep (HT0 & Hh & Hm & Hg). destruct Hstep; cbn in *.
  - pose proof (good_store_record p T A s env op ltac:(lia) Hg H) as Hr.
    unfold RecordOp, JSONOperationStore_store, json_Record in H0.
    destruct (json_record env s op) as [passed [s1 r1]]. cbn in H0. simplify_eq.
    split_and!; [lia|done|done|apply Hr].
  - split_and!; [done..|apply Hg].
  - pose proof (good_store_record p T A s env op ltac:(lia) Hg H) as Hr.
    destruct (json_record env s op) as [passed [s1 r1]]. cbn in H0.
    split_and!; [lia|done|done|]. destruct Hr as [Hr _]. by eapply Forall_forall in Hr.
  - split_and!; [done..|]. eauto using good_disk_power_loss.
  - destruct (good_disk_open _ _ _ _ _ _ _ _ Hg H H0) as (_ & _ & Hs). split_and!; auto with lia.
  - destruct (good_disk_open _ _ _ _ _ _ _ _ Hg H H0) as (_ & Hd & _). split_and!; auto with lia.
  - destruct (json_open env path options d) as [[passed d'] r] eqn:Ho. cbn in H0.
    destruct (good_disk_open _ _ _ _ _ _ _ _ Hg H Ho) as (Hd & _ & _).
    split_and!; [lia|done|done|]. by eapply Forall_forall in Hd.
Qed.

Lemma good_run_store_run p r r' : store_run r r' -> good_run p r -> good_run p r'.
Proof. induction 1; eauto using good_run_step. Qed.

(** A store that was just opened on an empty directory. *)
Definition started (T : Time) (s : JSONOperationStore) : Prop :=
  0 < T /\ exists env, json_open env path options (mkDisk Absent true Absent None)
                     = ([], mkDisk Absent true Absent None, Ok s).

Lemma started_good T s : started T s -> good_run None (mkRunState T ∅ (Up s)).
Proof.
  intros [HT [env H]]. unfold json_open in H. do 3 (case_match; [done|]). cbn in H. simplify_eq.
  assert (good_entries None T ∅ ∅).
  { split; [|unfold count; rewrite map_size_empty; lia|done]. intros op r. by rewrite lookup_empty. }
  unfold good_run. cbn. split_and!; [lia|lia|lia|]. split; [done|by exists ∅|].
  unfold good_disk, images, crash_images. cbn. rewrite !Forall_cons. unfold good_file. auto 10.
Qed.

(** A [Record] that wrote its operation makes a promise. *)
Lemma record_promises T A s env op s' :
  good_run None (mkRunState T A (Up s)) -> T <= ce_now env ->
  in_horizon horizon (entries (js_state s)) (ce_now env) op = false ->
  RecordOp env s op = (s', nil_err) ->
  good_run (Some (op, ce_now env)) (mkRunState (ce_now env) ({[op]} ∪ A) (Up s')).
Proof.
  intros (HT0 & Hh & Hm & Hs) HT Habsent Hr. cbn in HT0, Hs.
  pose proof (good_store_record None T A s env op HT0 Hs HT) as Hg.
  unfold RecordOp, JSONOperationStore_store, json_Record in Hr.
  pose proof (gst_options _ _ _ _ Hs) as Ho.
  destruct (json_record_outcome env s op) as [e|Hin|next passed d r Hop Hin Hnext Hroom Hsave];
    cbn in Hr; [done|rewrite Ho in Hin; congruence|].
  destruct r as [[]|e]; [|done]. cbn in Hr, Hg. injection Hr as <-.
  destruct Hg as [_ [_ (m & [= Hm1] & Hg) _]].
  assert (Hp : good_entries (Some (op, ce_now env)) (ce_now env) ({[op]} ∪ A) m).
  { destruct Hg as [Hv Hsz _]. split; [done|done|]. intros _. rewrite <- Hm1. apply lookup_insert_eq. }
  unfold good_run. cbn. split_and!; [lia|done|done|]. split; cbn; [done|subst m; by eexists|].
  destruct (save_passes_old_or_new _ _ _ _ _ _ Hsave) as (_ & _ & Hnew).
  apply Forall_forall. intros f Hf. rewrite (Hnew eq_refl f Hf). subst m. by apply good_file_state.
Qed.

Lemma Contains_in_horizon env s op b :
  Contains env s op = Ok b ->
  b = in_horizon (RedeliveryHorizon (js_options s)) (entries (js_state s)) (ce_now env) op.
Proof.
  cbn. unfold json_Contains. destruct (ce_ctx env) as [[]|]; [|done].
  destruct (validateOperationID op) as [[]|]; [|done]. by intros [= <-].
Qed.

(** C21: an operation that [Record] has written is answered by [Contains] until
    its redelivery horizon has passed: whatever is recorded afterwards, and
    whatever exits of the process, power losses (at any action of any later
    write) and openings lie in between. *)
Theorem recorded_operation_retained T0 s0 T A s env op s' T' A' s2 env2 :
  started T0 s0 -> store_run (mkRunState T0 ∅ (Up s0)) (mkRunState T A (Up s)) ->
  T <= ce_now env -> Contains env s op = Ok false -> RecordOp env s op = (s', nil_err) ->
  store_run (mkRunState (ce_now env) ({[op]} ∪ A) (Up s')) (mkRunState T' A' (Up s2)) ->
  ce_ctx env2 = nil_err -> T' <= ce_now env2 < ce_now env + horizon ->
  Contains env2 s2 op = Ok true.
Proof.
  intros H0%started_good H1 HT Habsent%Contains_in_horizon Hr H2 Hctx Hnow.
  pose proof (good_run_store_run _ _ _ H1 H0) as Hg.
  assert (Ho : js_options s = withDefaults options) by apply Hg. rewrite Ho in Habsent.
  pose proof (record_promises T A s env op s' Hg HT (eq_sym Habsent) Hr) as Hp.
  pose proof (good_run_store_run _ _ _ H2 Hp) as (_ & _ & _ & [Ho2 (m & Hm & Hk) _]). cbn in Hk.
  destruct Hk as [Hv _ Hk]. cbn in Hk. specialize (Hk ltac:(lia)).
  cbn. unfold json_Contains. rewrite Hctx. destruct (Hv op _ Hk) as (Hop & _ & _).
  destruct (validateOperationID op) as [[]|]; [|done]. rewrite Hm, Ho2. cbn. unfold id. rewrite Hk.
  by rewrite (proj2 (expired_false _ _ _)) by lia.
Qed.

(** Through any run, the store answers [true] only for an operation that
    [Record] was called with, and never holds more than [MaxEntries]. *)
Theorem store_sound_and_bounded T0 s0 T A s :
  started T0 s0 -> store_run (mkRunState T0 ∅ (Up s0)) (mkRunState T A (Up s)) ->
  count (entries (js_state s)) <= MaxEntries (js_options s) /\
  (forall env op, Contains env s op = Ok true -> op ∈ A).
Proof.
  intros H0%started_good H1. destruct (good_run_store_run _ _ _ H1 H0) as (_ & _ & _ & [Ho (m & Hm & Hg) _]).
  cbn in Hg. rewrite Ho, Hm. split; [apply Hg|].
  intros env op Hc%Contains_in_horizon. rewrite Hm in Hc.
  symmetry in Hc. apply in_horizon_spec in Hc as (r & Hl & _). by apply (ge_valid _ _ _ _ Hg op r).
Qed.

(** Whatever the process and the disk went through, the store opens again
    when the writes of the opening succeed. *)
Theorem store_reopens T0 s0 T A d env :
  started T0 s0 -> store_run (mkRunState T0 ∅ (Up s0)) (mkRunState T A (Down d)) ->
  T <= ce_now env -> ce_fault env = None ->
  exists s, OpenJSONOperationStoreWithOptions env path options d = Ok s.
Proof.
  intros Hst H1 HT Hf. pose proof Hst as [_ [env0 Hopen]].
  destruct (good_run_store_run _ _ _ H1 (started_good _ _ Hst)) as (_ & _ & _ & Hd). cbn in Hd.
  apply (good_disk_mono _ T A d (ce_now env) A) in Hd; [|done|done].
  unfold json_open in Hopen. unfold OpenJSONOperationStoreWithOptions, json_open.
  do 3 (case_match; [done|]). clear Hopen.
  assert (Hv : good_file None (ce_now env) A (d_visible d)) by (by inversion Hd).
  destruct Hv as [[-> Hm]|(m & -> & Hm)]; [by eexists|].
  cbn [marshal_state current_state os_Version os_Operations].
  destruct (load_good None (ce_now env) A m Hm) as [[message|] ->]; [|by eexists].
  rewrite Hf. by eexists.
Qed.
End Runs.

(** ** The JSON store keeps the contract *)
Lemma json_Record_cases env s op s' r :
  RecordOp env s op = (s', r) ->
  js_options s' = js_options s /\
  ((js_state s' = js_state s /\
    (r = nil_err -> in_horizon (RedeliveryHorizon (js_options s)) (entries (js_state s)) (ce_now env) op = true)) \/
   (r = nil_err /\ entries (js_state s') =
     <[op := ce_now env]> (unexpired (js_options s) (ce_now env) (entries (js_state s))) /\
    in_horizon (RedeliveryHorizon (js_options s)) (entries (js_state s)) (ce_now env) op = false)).
Proof.
  unfold RecordOp, JSONOperationStore_store, json_Record.
  destruct (json_record_outcome env s op) as [e|Hin|next passed d [[]|e] Hop Hin -> Hroom Hsave];
    cbn; intros [= <- <-]; cbn; (split; [done|]); [left|left|right|left]; by split_and?.
Qed.

#[export] Instance JSONOperationStore_laws : OperationStoreLaws JSONOperationStore.
Proof.
  refine {|
    store_ok s := 0 < RedeliveryHorizon (js_options s);
    holds s := in_horizon (RedeliveryHorizon (js_options s)) (entries (js_state s));
  |}.
  - intros s t t' op Ht. rewrite !in_horizon_spec. intros (r & Hr & Hlt). exists r. split; [done|lia].
  - intros env s op b. apply Contains_in_horizon.
  - intros env s op s' r [-> _]%json_Record_cases. done.
  - intros env s op s' [-> [[-> H]|(_ & -> & _)]]%json_Record_cases Hok; [auto|].
    apply in_horizon_spec. eexists. rewrite lookup_insert_eq. split; [done|lia].
  - intros env s op s' r t o [-> [[-> _]|(_ & -> & Hno)]]%json_Record_cases Ht; [auto|].
    rewrite !in_horizon_spec. intros (x & Hx & Hlt). destruct (decide (o = op)) as [->|Hne].
    + exists (ce_now env). rewrite lookup_insert_eq. split; [done|].
      assert (in_horizon (RedeliveryHorizon (js_options s)) (entries (js_state s)) (ce_now env) op = true)
        by (apply in_horizon_spec; exists x; split; [done|lia]). congruence.
    + exists x. rewrite lookup_insert_ne, unexpired_lookup by done. split; [|lia]. split; [done|lia].
  - intros env s op s' r t o [-> [[-> _]|(_ & -> & _)]]%json_Record_cases Hne; [auto|].
    rewrite !in_horizon_spec. intros (x & Hx & Hlt). rewrite lookup_insert_ne in Hx by done.
    apply unexpired_lookup in Hx as [Hx _]. eauto.
  - intros env s op s' e t o [-> [[-> _]|(? & _)]]%json_Record_cases; [done|discriminate].
Defined.

(** ** A store that loses power in the middle of a write

    A store of two entries and a horizon of ten: ["a"] is recorded at 5, the
    machine loses power at 8 between the rename and the directory sync of the
    write of ["b"], the old document survives, and the store is opened again. *)

Definition small : OperationStoreOptions := mkStoreOptions 2 10.
Definition at_time (t : Time) : CallEnv := mkCallEnv nil_err t None.
Definition empty_disk : disk := mkDisk Absent true Absent None.

Definition opened : JSONOperationStore := mkJSONStore small fresh_state empty_disk.
Definition with_a : JSONOperationStore := fst (RecordOp (at_time 5) opened "a"%string).

(** The disk after the rename of the write of ["b"]. *)
Definition half_written : disk :=
  default empty_disk (fst (json_record (at_time 8) with_a "b"%string) !! 7%nat).

(** What stable storage still held. *)
Definition recovered_disk : disk := mkDisk (d_durable half_written) true (d_durable half_written) None.

Definition reopened : JSONOperationStore :=
  mkJSONStore small (mkOperationState operationStateVersion (Some {["a"%string := 5]})) recovered_disk.

Lemma opened_started : started "ops.json"%string small 1 opened.
Proof. split; [done|]. exists (at_time 1). vm_compute. reflexivity. Qed.

Definition a_recorded : run_state := mkRunState 5 ({["a"%string]} ∪ ∅) (Up with_a).
Definition b_lost : run_state :=
  mkRunState 9 ({["b"%string]} ∪ ({["a"%string]} ∪ ∅)) (Up reopened).

Lemma power_loss_run : store_run "ops.json"%string small a_recorded b_lost.
Proof.
  eapply rtc_l; [apply (step_exit_recording _ _ 5 _ with_a (at_time 8) "b"%string half_written);
    [done|apply (list_elem_of_lookup_2 _ 7%nat); vm_compute; reflexivity]|].
  eapply rtc_l; [apply (step_power_loss _ _ 8 _ half_written (d_durable half_written));
    apply list_elem_of_here|].
  eapply rtc_l; [|apply rtc_refl].
  apply (step_open _ _ 8 _ recovered_disk (at_time 9) [] recovered_disk); [done|].
  vm_compute. reflexivity.
Qed.

Lemma recorded_operation_retained_witness :
  Contains (at_time 14) reopened "a"%string = Ok true.
Proof.
  apply (recorded_operation_retained "ops.json"%string small 1 opened 1 ∅ opened (at_time 5) "a"%string
    with_a 9 ({["b"%string]} ∪ ({["a"%string]} ∪ ∅)) reopened (at_time 14));
    [exact opened_started|apply rtc_refl|done|reflexivity|reflexivity|exact power_loss_run|done|].
  vm_compute. split; [discriminate|reflexivity].
Defined.

Lemma store_sound_and_bounded_witness :
  count (entries (js_state with_a)) <= MaxEntries (js_options with_a) /\
  (forall env op, Contains env with_a op = Ok true -> op ∈ ({["a"%string]} ∪ ∅ : gset string)).
Proof.
  apply (store_sound_and_bounded "ops.json"%string small 1 opened 5); [exact opened_started|].
  eapply rtc_l; [|apply rtc_refl].
  apply (step_record _ _ 1 ∅ opened (at_time 5) "a"%string with_a nil_err); [done|reflexivity].
Defined.

Lemma store_reopens_witness :
  exists s, OpenJSONOperationStoreWithOptions (at_time 2) "ops.json"%string small empty_disk = Ok s.
Proof.
  apply (store_reopens "ops.json"%string small 1 opened 1 ∅); [exact opened_started| |done|done].
  eapply rtc_l; [|apply rtc_refl]. apply (step_exit _ _ 1 ∅ opened).
Defined.
