(* ===== verification/Wire.v ===== *)
(** * Wire format of the control messages (control/snapshot.go, messages.go, bootstrap.go)

    The strict parsers of package control and the documents [json.Marshal]
    writes.  A JSON text is the value its tokens spell: objects keep their
    members in order, repeated names included.  What [encoding/json] does with
    such a value is written out: a member is matched to a struct field by its
    exact name or else by its case-folded name, is decoded into the value the
    field already has, and [null] leaves a field as it is.  The text of a time
    stamp is a parameter. *)

From S2P Require Import Prelude Outbox Snapshot Messages Controller.
From Stdlib Require Import ZArith Lia.
From stdpp Require Import base gmap strings pretty numbers option list.
#[local] Open Scope string_scope.
#[local] Open Scope list_scope.
#[local] Open Scope Z_scope.

(** ** JSON values *)

(** [JsonNumber] is an integer literal without sign or exponent, which is what
    [strconv.ParseUint] reads; any other number keeps its text. *)
Inductive json : Type :=
| JsonNull
| JsonBool (b : bool)
| JsonNumber (n : Z)
| JsonOtherNumber (text : string)
| JsonString (s : string)
| JsonArray (l : list json)
| JsonObject (members : list (string * json)).

(** The bytes of a payload: how many they are and the values they spell one
    after the other; [None] is a text that is no JSON value. *)
Record payload := mkPayload {
  pl_len : Z;
  pl_values : list (option json);
}.

(** RFC 3339 texts of time stamps ([Time.MarshalJSON], [Time.UnmarshalJSON]). *)
Class TimeText := {
  time_format : Time -> string;
  time_parse : string -> option Time;
}.

(** A text reads back as the time it was written for. *)
Class TimeTextLaws `{TimeText} : Prop := {
  time_roundtrip t : json_time_ok t = true -> time_parse (time_format t) = Some t;
}.

(** ** scanJSONValue *)
Definition secretFieldNames : list string :=
  ["apikey"; "authorization"; "credential"; "credentials"; "password"; "secret"; "token"; "username"]%string.

(** [unicode.ToLower] on the runes whose lower case is ASCII; the lower case of
    every other rune is not. *)
Definition lower_rune (r : Z) : Z :=
  if (65 <=? r) && (r <=? 90) then r + 32
  else if r =? 8490 then 107 else if r =? 304 then 105 else r.

(** The runes of the key in lower case, without ["_"] and ["-"]. *)
Definition normalized (key : string) : list Z :=
  filter (fun r => r <> 95 /\ r <> 45) (lower_rune <$> runes key).

Definition is_secret (key : string) : bool :=
  existsb (fun name => bool_decide (normalized key = runes name)) secretFieldNames.

Fixpoint scanJSONValue (value : json) : gerr :=
  match value with
  | JsonObject members =>
      (fix loop (seen : gset string) (members : list (string * json)) : gerr :=
         match members with
         | [] => nil_err
         | (key, value) :: rest =>
             fail_if (bool_decide (key ∈ seen)) (ErrNew "duplicate field") ;;!
             fail_if (is_secret key) (ErrNew "secret-bearing field is forbidden") ;;!
             scanJSONValue value ;;!
             loop ({[key]} ∪ seen) rest
         end) ∅ members
  | JsonArray l =>
      (fix loop (l : list json) : gerr :=
         match l with
         | [] => nil_err
         | value :: rest => scanJSONValue value ;;! loop rest
         end) l
  | _ => nil_err
  end.

(** The value a decoder reads first, and that nothing follows it. *)
Definition first_value (data : payload) : result json :=
  match pl_values data with
  | Some value :: _ => Ok value
  | _ => Err (ErrNew "json: syntax error")
  end.
Definition no_trailing (message : string) (data : payload) : gerr :=
  match tail (pl_values data) with
  | [] => nil_err
  | Some _ :: _ => Err (ErrNew message)
  | None :: _ => Err (ErrWrap "control: decode trailing data" (ErrNew "json: syntax error"))
  end.

Definition rejectDuplicateOrSecretFields (data : payload) : gerr :=
  wrap_err "control: inspect snapshot fields"
    (let! value := first_value data in scanJSONValue value) ;;!
  no_trailing "control: snapshot contains trailing JSON value" data.

(** ** encoding/json into Go values *)
Definition decoder (A : Type) : Type := json -> A -> result A.

Definition type_error {A} : result A := Err (ErrNew "json: cannot unmarshal").

Definition dec_string : decoder string := fun j old =>
  match j with JsonNull => Ok old | JsonString s => Ok s | _ => type_error end.

Definition dec_bool : decoder bool := fun j old =>
  match j with JsonNull => Ok old | JsonBool b => Ok b | _ => type_error end.

(** An unsigned integer of at most [max]. *)
Definition dec_uint (max : Z) : decoder Z := fun j old =>
  match j with
  | JsonNull => Ok old
  | JsonNumber n => if (0 <=? n) && (n <=? max) then Ok n else type_error
  | _ => type_error
  end.
Definition max_u32 : Z := 4294967295.
Definition dec_u32 : decoder Z := dec_uint max_u32.
Definition dec_u64 : decoder Z := dec_uint max_u64.

(** A named string type. *)
Definition dec_named {A} (of_string : string -> A) : decoder A := fun j old =>
  match j with JsonNull => Ok old | JsonString s => Ok (of_string s) | _ => type_error end.

Definition dec_time `{TimeText} : decoder Time := fun j old =>
  match j with
  | JsonNull => Ok old
  | JsonString s => match time_parse s with Some t => Ok t | None => type_error end
  | _ => type_error
  end.

(** A slice: element [i] is decoded into element [i] of the old slice. *)
Fixpoint dec_elements {A} (zero : A) (d : decoder A) (l : list json) (old : list A)
    : result (list A) :=
  match l with
  | [] => Ok []
  | j :: rest =>
      let! x := d j (default zero (head old)) in
      let! xs := dec_elements zero d rest (tail old) in
      Ok (x :: xs)
  end.
Definition dec_slice {A} (zero : A) (d : decoder A) : decoder (list A) := fun j old =>
  match j with
  | JsonNull => Ok []
  | JsonArray l => dec_elements zero d l old
  | _ => type_error
  end.

Definition dec_pointer {A} (zero : A) (d : decoder A) : decoder (option A) := fun j old =>
  match j with
  | JsonNull => Ok None
  | _ => let! x := d j (default zero old) in Ok (Some x)
  end.

(** A struct field: its name in the document and how it is decoded. *)
Definition field {R A} (name : string) (proj : R -> A) `{Setter R A proj} (d : decoder A)
    : string * decoder R :=
  (name, fun j r => let! v := d j (proj r) in Ok (setter (proj := proj) (fun _ => v) r)).

(** The fold of a rune that has an ASCII rune in its case orbit. *)
Definition fold_rune (r : Z) : Z :=
  if (97 <=? r) && (r <=? 122) then r - 32
  else if r =? 383 then 83 else if r =? 8490 then 75 else r.
Definition foldName (key : string) : list Z := fold_rune <$> runes key.

Definition find_by {R} (matches : string -> bool) (fields : list (string * decoder R))
    : option (decoder R) :=
  snd <$> find (fun f => matches (fst f)) fields.

Definition find_field {R} (key : string) (fields : list (string * decoder R)) : option (decoder R) :=
  match find_by (str_eqb key) fields with
  | Some d => Some d
  | None => find_by (fun name => bool_decide (foldName key = foldName name)) fields
  end.

(** One member, with [DisallowUnknownFields]. *)
Definition dec_member {R} (fields : list (string * decoder R)) (r : R) (member : string * json)
    : result R :=
  match find_field (fst member) fields with
  | Some d => d (snd member) r
  | None => Err (ErrNew "json: unknown field")
  end.
Definition dec_struct {R} (fields : list (string * decoder R)) : decoder R := fun j old =>
  match j with
  | JsonNull => Ok old
  | JsonObject members => fold_result (dec_member fields) old members
  | _ => type_error
  end.

(** ** What json.Marshal writes *)
Definition enc_string (s : string) : json := JsonString (json_coerce s).
(** A nil slice is [null] and an empty one is [[]]: both are read back as the
    empty slice, so the model writes [null] for either. *)
Definition enc_slice {A} (f : A -> json) (l : list A) : json :=
  match l with [] => JsonNull | _ => JsonArray (f <$> l) end.
(** A member tagged [omitempty]. *)
Definition omitempty (name : string) (empty : bool) (value : json) : list (string * json) :=
  if empty then [] else [(name, value)].
Definition nilp {A} (l : list A) : bool := match l with [] => true | _ => false end.

(** The length of the compact text of a value whose strings are UTF-8. *)
Fixpoint json_len (value : json) : Z :=
  match value with
  | JsonNull => 4
  | JsonBool b => if b then 4 else 5
  | JsonNumber n => len (pretty n)
  | JsonOtherNumber text => len text
  | JsonString s => json_string_len s
  | JsonArray l => json_object_len (json_len <$> l)
  | JsonObject members =>
      json_object_len ((fun m => json_string_len (fst m) + 1 + json_len (snd m)) <$> members)
  end.
Definition text_of (value : json) : payload := mkPayload (json_len value) [Some value].

(** ** Named strings *)
Definition phase_of (s : string) : CtlPhase :=
  if str_eqb s "ACTIVE" then CActive else
  if str_eqb s "PREPARE" then CPrepare else
  if str_eqb s "PAUSED" then CPaused else
  if str_eqb s "DRAIN" then CDrain else
  if str_eqb s "COMMITTED" then CCommitted else COther s.
Definition phase_text (p : CtlPhase) : string :=
  match p with
  | CActive => "ACTIVE" | CPrepare => "PREPARE" | CPaused => "PAUSED" | CDrain => "DRAIN"
  | CCommitted => "COMMITTED" | COther s => s
  end.

Definition role_of (s : string) : ParticipantRole :=
  if str_eqb s "" then RoleNone else
  if str_eqb s "publisher" then RolePublisher else
  if str_eqb s "subscriber" then RoleSubscriber else
  if str_eqb s "broker" then RoleBroker else
  if str_eqb s "observer" then RoleObserver else RoleOther s.

Definition kind_of (s : string) : DestinationKind :=
  if str_eqb s "TOPIC" then DestinationTopic else
  if str_eqb s "QUEUE" then DestinationQueue else DestinationOther s.
Definition kind_text (k : DestinationKind) : string :=
  match k with
  | DestinationTopic => "TOPIC" | DestinationQueue => "QUEUE" | DestinationOther s => s
  end.

(** ** Membership snapshots *)
#[export] Instance eta_Transition : Eta Transition := fun t =>
  mkTransition (tr_ID t) (tr_FromEpoch t) (tr_ToEpoch t).
#[export] Instance eta_QueueInfo : Eta QueueInfo := fun q => mkQueueInfo (q_Name q) (q_Durable q).
#[export] Instance eta_DestinationInfo : Eta DestinationInfo := fun d =>
  mkDestinationInfo (d_Kind d) (d_Name d).
#[export] Instance eta_BrokerDescriptor : Eta BrokerDescriptor := fun d =>
  mkBrokerDescriptor (bd_ID d) (bd_Endpoint d).
#[export] Instance eta_EpochResourceIdentity : Eta EpochResourceIdentity := fun r =>
  mkEpochResourceIdentity (er_Epoch r) (er_BrokerID r) (er_ConsumerSet r) (er_QueueName r)
    (er_IngressTopic r).
#[export] Instance eta_MembershipSnapshot : Eta MembershipSnapshot := fun s =>
  mkMembershipSnapshot (ms_Version s) (ms_Namespace s) (ms_LibraryVersion s) (ms_ScalingGroup s)
    (ms_Revision s) (ms_Epoch s) (ms_Phase s) (ms_HashContract s) (ms_Algorithm s)
    (ms_CurrentMembership s) (ms_ProposedMembership s) (ms_CurrentBrokers s)
    (ms_ProposedBrokers s) (ms_Transition s) (ms_Queue s) (ms_Destination s)
    (ms_CurrentResources s) (ms_ProposedResources s).

Definition transition_fields : list (string * decoder Transition) :=
  [field "id" tr_ID dec_string; field "from_epoch" tr_FromEpoch dec_u64;
   field "to_epoch" tr_ToEpoch dec_u64].
Definition queue_fields : list (string * decoder QueueInfo) :=
  [field "name" q_Name dec_string; field "durable" q_Durable dec_bool].
Definition destination_fields : list (string * decoder DestinationInfo) :=
  [field "kind" d_Kind (dec_named kind_of); field "name" d_Name dec_string].
Definition descriptor_fields : list (string * decoder BrokerDescriptor) :=
  [field "id" bd_ID dec_string; field "endpoint" bd_Endpoint dec_string].
Definition resource_fields : list (string * decoder EpochResourceIdentity) :=
  [field "epoch" er_Epoch dec_u64; field "broker_id" er_BrokerID dec_string;
   field "consumer_set" er_ConsumerSet dec_string; field "queue_name" er_QueueName dec_string;
   field "ingress_topic" er_IngressTopic dec_string].

Definition zero_transition : Transition := mkTransition "" 0 0.
Definition zero_descriptor : BrokerDescriptor := mkBrokerDescriptor "" "".
Definition zero_resource : EpochResourceIdentity := mkEpochResourceIdentity 0 "" "" "" "".
Definition zero_snapshot : MembershipSnapshot :=
  mkMembershipSnapshot 0 "" "" "" 0 0 (COther "") "" "" [] [] [] [] None (mkQueueInfo "" false)
    (mkDestinationInfo (DestinationOther "") "") [] [].

Definition snapshot_fields : list (string * decoder MembershipSnapshot) :=
  let descriptors := dec_slice zero_descriptor (dec_struct descriptor_fields) in
  let resources := dec_slice zero_resource (dec_struct resource_fields) in
  [field "version" ms_Version dec_u32;
   field "namespace" ms_Namespace dec_string;
   field "library_version" ms_LibraryVersion dec_string;
   field "scaling_group" ms_ScalingGroup dec_string;
   field "revision" ms_Revision dec_u64;
   field "epoch" ms_Epoch dec_u64;
   field "phase" ms_Phase (dec_named phase_of);
   field "hash_contract" ms_HashContract dec_string;
   field "algorithm" ms_Algorithm dec_string;
   field "current_membership" ms_CurrentMembership (dec_slice ""%string dec_string);
   field "proposed_membership" ms_ProposedMembership (dec_slice ""%string dec_string);
   field "current_brokers" ms_CurrentBrokers descriptors;
   field "proposed_brokers" ms_ProposedBrokers descriptors;
   field "transition" ms_Transition (dec_pointer zero_transition (dec_struct transition_fields));
   field "queue" ms_Queue (dec_struct queue_fields);
   field "destination" ms_Destination (dec_struct destination_fields);
   field "current_resources" ms_CurrentResources resources;
   field "proposed_resources" ms_ProposedResources resources].

Definition enc_transition (t : Transition) : json :=
  JsonObject [("id", enc_string (tr_ID t)); ("from_epoch", JsonNumber (tr_FromEpoch t));
    ("to_epoch", JsonNumber (tr_ToEpoch t))]%string.
Definition enc_descriptor (d : BrokerDescriptor) : json :=
  JsonObject [("id", enc_string (bd_ID d)); ("endpoint", enc_string (bd_Endpoint d))]%string.
Definition enc_resource (r : EpochResourceIdentity) : json :=
  JsonObject [("epoch", JsonNumber (er_Epoch r)); ("broker_id", enc_string (er_BrokerID r));
    ("consumer_set", enc_string (er_ConsumerSet r)); ("queue_name", enc_string (er_QueueName r));
    ("ingress_topic", enc_string (er_IngressTopic r))]%string.

(** [json.Marshal(snapshot)]. *)
Definition enc_snapshot (s : MembershipSnapshot) : json := JsonObject (
  [("version", JsonNumber (ms_Version s))] ++
  omitempty "namespace" (str_empty (ms_Namespace s)) (enc_string (ms_Namespace s)) ++
  omitempty "library_version" (str_empty (ms_LibraryVersion s)) (enc_string (ms_LibraryVersion s)) ++
  [("scaling_group", enc_string (ms_ScalingGroup s));
   ("revision", JsonNumber (ms_Revision s)); ("epoch", JsonNumber (ms_Epoch s));
   ("phase", enc_string (phase_text (ms_Phase s)));
   ("hash_contract", enc_string (ms_HashContract s)); ("algorithm", enc_string (ms_Algorithm s));
   ("current_membership", enc_slice enc_string (ms_CurrentMembership s))] ++
  omitempty "proposed_membership" (nilp (ms_ProposedMembership s))
    (enc_slice enc_string (ms_ProposedMembership s)) ++
  [("current_brokers", enc_slice enc_descriptor (ms_CurrentBrokers s))] ++
  omitempty "proposed_brokers" (nilp (ms_ProposedBrokers s))
    (enc_slice enc_descriptor (ms_ProposedBrokers s)) ++
  omitempty "transition" (bool_decide (ms_Transition s = None))
    (from_option enc_transition JsonNull (ms_Transition s)) ++
  [("queue", JsonObject [("name", enc_string (q_Name (ms_Queue s)));
      ("durable", JsonBool (q_Durable (ms_Queue s)))]);
   ("destination", JsonObject [("kind", enc_string (kind_text (d_Kind (ms_Destination s))));
      ("name", enc_string (d_Name (ms_Destination s)))])] ++
  omitempty "current_resources" (nilp (ms_CurrentResources s))
    (enc_slice enc_resource (ms_CurrentResources s)) ++
  omitempty "proposed_resources" (nilp (ms_ProposedResources s))
    (enc_slice enc_resource (ms_ProposedResources s))).

(** ** Envelopes *)
#[export] Instance eta_RegistrationEnvelope : Eta RegistrationEnvelope := fun e =>
  mkRegistrationEnvelope (re_Version e) (re_MessageID e) (re_Namespace e) (re_Group e)
    (re_TransitionID e) (re_Epoch e) (re_Phase e) (re_Participant e) (re_Role e)
    (re_ConsumerSet e) (re_LibraryVersion e) (re_ObservedAt e).
#[export] Instance eta_CommandEnvelope : Eta CommandEnvelope := fun e =>
  mkCommandEnvelope (ce_Version e) (ce_MessageID e) (ce_Namespace e) (ce_Group e)
    (ce_TransitionID e) (ce_Epoch e) (ce_Phase e) (ce_Participant e) (ce_Role e)
    (ce_IssuedAt e) (ce_Deadline e).
#[export] Instance eta_AcknowledgementEnvelope : Eta AcknowledgementEnvelope := fun e =>
  mkAcknowledgementEnvelope (ae_Version e) (ae_MessageID e) (ae_CommandID e) (ae_Namespace e)
    (ae_Group e) (ae_TransitionID e) (ae_Epoch e) (ae_Phase e) (ae_Participant e) (ae_Role e)
    (ae_Ready e) (ae_ObservedAt e).
#[export] Instance eta_MetricCount : Eta MetricCount := fun c => mkMetricCount (mc_Known c) (mc_Value c).
#[export] Instance eta_TelemetryEnvelope : Eta TelemetryEnvelope := fun e =>
  mkTelemetryEnvelope (te_Version e) (te_MessageID e) (te_Namespace e) (te_Group e)
    (te_TransitionID e) (te_Epoch e) (te_Phase e) (te_Participant e) (te_Role e)
    (te_SourceBroker e) (te_SourceQueue e) (te_ObservedAt e) (te_Queued e) (te_Stored e) (te_Unacked e).
#[export] Instance eta_SnapshotRequest : Eta SnapshotRequest := fun r =>
  mkSnapshotRequest (sr_Version r) (sr_CorrelationID r) (sr_Namespace r) (sr_Group r)
    (sr_Participant r) (sr_Role r) (sr_RequestedAt r).
#[export] Instance eta_SnapshotResponse : Eta SnapshotResponse := fun r =>
  mkSnapshotResponse (sp_Version r) (sp_CorrelationID r) (sp_Namespace r) (sp_Group r)
    (sp_Participant r) (sp_Role r) (sp_Snapshot r).

Definition metric_fields : list (string * decoder MetricCount) :=
  [field "known" mc_Known dec_bool; field "value" mc_Value dec_u64].
Definition enc_metric (c : MetricCount) : json :=
  JsonObject [("known", JsonBool (mc_Known c)); ("value", JsonNumber (mc_Value c))].

Definition zero_metric : MetricCount := mkMetricCount false 0.
Definition zero_registration : RegistrationEnvelope :=
  mkRegistrationEnvelope 0 "" "" "" "" 0 (COther "") "" RoleNone "" "" zeroTime.
Definition zero_command : CommandEnvelope :=
  mkCommandEnvelope 0 "" "" "" "" 0 (COther "") "" RoleNone zeroTime zeroTime.
Definition zero_acknowledgement : AcknowledgementEnvelope :=
  mkAcknowledgementEnvelope 0 "" "" "" "" "" 0 (COther "") "" RoleNone false zeroTime.
Definition zero_telemetry : TelemetryEnvelope :=
  mkTelemetryEnvelope 0 "" "" "" "" 0 (COther "") "" RoleNone "" "" zeroTime zero_metric
    zero_metric zero_metric.
Definition zero_request : SnapshotRequest := mkSnapshotRequest 0 "" "" "" "" RoleNone zeroTime.
Definition zero_response : SnapshotResponse := mkSnapshotResponse 0 "" "" "" "" RoleNone zero_snapshot.

Section Parsers.
Context {net_url : NetURL} {time_text : TimeText}.

Definition registration_fields : list (string * decoder RegistrationEnvelope) :=
  [field "version" re_Version dec_u32; field "message_id" re_MessageID dec_string;
   field "namespace" re_Namespace dec_string; field "group" re_Group dec_string;
   field "transition_id" re_TransitionID dec_string; field "epoch" re_Epoch dec_u64;
   field "phase" re_Phase (dec_named phase_of); field "participant" re_Participant dec_string;
   field "role" re_Role (dec_named role_of); field "consumer_set" re_ConsumerSet dec_string;
   field "library_version" re_LibraryVersion dec_string; field "observed_at" re_ObservedAt dec_time].
Definition command_fields : list (string * decoder CommandEnvelope) :=
  [field "version" ce_Version dec_u32; field "message_id" ce_MessageID dec_string;
   field "namespace" ce_Namespace dec_string; field "group" ce_Group dec_string;
   field "transition_id" ce_TransitionID dec_string; field "epoch" ce_Epoch dec_u64;
   field "phase" ce_Phase (dec_named phase_of); field "participant" ce_Participant dec_string;
   field "role" ce_Role (dec_named role_of); field "issued_at" ce_IssuedAt dec_time;
   field "deadline" ce_Deadline dec_time].
Definition acknowledgement_fields : list (string * decoder AcknowledgementEnvelope) :=
  [field "version" ae_Version dec_u32; field "message_id" ae_MessageID dec_string;
   field "command_id" ae_CommandID dec_string; field "namespace" ae_Namespace dec_string;
   field "group" ae_Group dec_string; field "transition_id" ae_TransitionID dec_string;
   field "epoch" ae_Epoch dec_u64; field "phase" ae_Phase (dec_named phase_of);
   field "participant" ae_Participant dec_string; field "role" ae_Role (dec_named role_of);
   field "ready" ae_Ready dec_bool; field "observed_at" ae_ObservedAt dec_time].
Definition telemetry_fields : list (string * decoder TelemetryEnvelope) :=
  [field "version" te_Version dec_u32; field "message_id" te_MessageID dec_string;
   field "namespace" te_Namespace dec_string; field "group" te_Group dec_string;
   field "transition_id" te_TransitionID dec_string; field "epoch" te_Epoch dec_u64;
   field "phase" te_Phase (dec_named phase_of); field "participant" te_Participant dec_string;
   field "role" te_Role (dec_named role_of); field "source_broker" te_SourceBroker dec_string;
   field "source_queue" te_SourceQueue dec_string; field "observed_at" te_ObservedAt dec_time;
   field "queued" te_Queued (dec_struct metric_fields);
   field "stored" te_Stored (dec_struct metric_fields);
   field "unacked" te_Unacked (dec_struct metric_fields)].
Definition request_fields : list (string * decoder SnapshotRequest) :=
  [field "version" sr_Version dec_u32; field "correlation_id" sr_CorrelationID dec_string;
   field "namespace" sr_Namespace dec_string; field "group" sr_Group dec_string;
   field "participant" sr_Participant dec_string; field "role" sr_Role (dec_named role_of);
   field "requested_at" sr_RequestedAt dec_time].
Definition response_fields : list (string * decoder SnapshotResponse) :=
  [field "version" sp_Version dec_u32; field "correlation_id" sp_CorrelationID dec_string;
   field "namespace" sp_Namespace dec_string; field "group" sp_Group dec_string;
   field "participant" sp_Participant dec_string; field "role" sp_Role (dec_named role_of);
   field "snapshot" sp_Snapshot (dec_struct snapshot_fields)].

(** [json.Marshal] of the envelopes. *)
Definition enc_time (t : Time) : json := JsonString (time_format t).

Definition enc_registration (e : RegistrationEnvelope) : json := JsonObject (
  [("version", JsonNumber (re_Version e)); ("message_id", enc_string (re_MessageID e));
   ("namespace", enc_string (re_Namespace e)); ("group", enc_string (re_Group e))] ++
  omitempty "transition_id" (str_empty (re_TransitionID e)) (enc_string (re_TransitionID e)) ++
  [("epoch", JsonNumber (re_Epoch e)); ("phase", enc_string (phase_text (re_Phase e)));
   ("participant", enc_string (re_Participant e)); ("role", enc_string (role_string (re_Role e)))] ++
  omitempty "consumer_set" (str_empty (re_ConsumerSet e)) (enc_string (re_ConsumerSet e)) ++
  [("library_version", enc_string (re_LibraryVersion e)); ("observed_at", enc_time (re_ObservedAt e))]).
Definition enc_command (e : CommandEnvelope) : json := JsonObject
  [("version", JsonNumber (ce_Version e)); ("message_id", enc_string (ce_MessageID e));
   ("namespace", enc_string (ce_Namespace e)); ("group", enc_string (ce_Group e));
   ("transition_id", enc_string (ce_TransitionID e)); ("epoch", JsonNumber (ce_Epoch e));
   ("phase", enc_string (phase_text (ce_Phase e))); ("participant", enc_string (ce_Participant e));
   ("role", enc_string (role_string (ce_Role e))); ("issued_at", enc_time (ce_IssuedAt e));
   ("deadline", enc_time (ce_Deadline e))].
Definition enc_acknowledgement (e : AcknowledgementEnvelope) : json := JsonObject
  [("version", JsonNumber (ae_Version e)); ("message_id", enc_string (ae_MessageID e));
   ("command_id", enc_string (ae_CommandID e)); ("namespace", enc_string (ae_Namespace e));
   ("group", enc_string (ae_Group e)); ("transition_id", enc_string (ae_TransitionID e));
   ("epoch", JsonNumber (ae_Epoch e)); ("phase", enc_string (phase_text (ae_Phase e)));
   ("participant", enc_string (ae_Participant e)); ("role", enc_string (role_string (ae_Role e)));
   ("ready", JsonBool (ae_Ready e)); ("observed_at", enc_time (ae_ObservedAt e))].
Definition enc_telemetry (e : TelemetryEnvelope) : json := JsonObject
  [("version", JsonNumber (te_Version e)); ("message_id", enc_string (te_MessageID e));
   ("namespace", enc_string (te_Namespace e)); ("group", enc_string (te_Group e));
   ("transition_id", enc_string (te_TransitionID e)); ("epoch", JsonNumber (te_Epoch e));
   ("phase", enc_string (phase_text (te_Phase e))); ("participant", enc_string (te_Participant e));
   ("role", enc_string (role_string (te_Role e))); ("source_broker", enc_string (te_SourceBroker e));
   ("source_queue", enc_string (te_SourceQueue e)); ("observed_at", enc_time (te_ObservedAt e));
   ("queued", enc_metric (te_Queued e)); ("stored", enc_metric (te_Stored e));
   ("unacked", enc_metric (te_Unacked e))].

(** The three strict parsers differ in their messages only. *)
Definition parse_strict {T} (what : string) (zero : T) (d : decoder T) (validate : T -> gerr)
    (data : payload) : result T :=
  fail_if (maxSnapshotBytes <? pl_len data) (ErrNew (what +:+ " exceeds one MiB")) ;;!
  rejectDuplicateOrSecretFields data ;;!
  let! value := wrap_err ("decode " +:+ what) (let! j := first_value data in d j zero) in
  no_trailing (what +:+ " contains trailing JSON value") data ;;!
  validate value ;;!
  Ok value.

Definition ParseMembershipSnapshot (data : payload) : result MembershipSnapshot :=
  parse_strict "control: snapshot" zero_snapshot (dec_struct snapshot_fields) Validate data.

(** [parseEnvelope] and its four instances. *)
Definition ParseRegistrationEnvelope : payload -> result RegistrationEnvelope :=
  parse_strict "control: envelope" zero_registration (dec_struct registration_fields) registration_Validate.
Definition ParseCommandEnvelope : payload -> result CommandEnvelope :=
  parse_strict "control: envelope" zero_command (dec_struct command_fields) command_Validate.
Definition ParseAcknowledgementEnvelope : payload -> result AcknowledgementEnvelope :=
  parse_strict "control: envelope" zero_acknowledgement (dec_struct acknowledgement_fields) ack_Validate.
Definition ParseTelemetryEnvelope : payload -> result TelemetryEnvelope :=
  parse_strict "control: envelope" zero_telemetry (dec_struct telemetry_fields) telemetry_Validate.

(** [parseStrictBootstrap] and its instances. *)
Definition ParseSnapshotRequest : payload -> result SnapshotRequest :=
  parse_strict "control: bootstrap envelope" zero_request (dec_struct request_fields) request_Validate.
Definition ParseSnapshotResponse : payload -> result SnapshotResponse :=
  parse_strict "control: bootstrap envelope" zero_response (dec_struct response_fields)
    (fun value =>
       fail_if (negb (sp_Version value =? BootstrapProtocolVersion))
         (ErrNew "control: unsupported snapshot response version") ;;!
       Validate (sp_Snapshot value)).
End Parsers.
