(* ===== verification/WireTheorems.v ===== *)
(** * Theorems on the wire format

    What a strict parser accepts, that it reads back what [json.Marshal] wrote,
    and the repeated members it lets through. *)

From S2P Require Import Prelude Outbox Snapshot Messages Controller Wire.
From Stdlib Require Import ZArith Lia.
From stdpp Require Import base gmap strings pretty numbers option list.
#[local] Open Scope string_scope.
#[local] Open Scope list_scope.
#[local] Open Scope Z_scope.

(** ** Fields by their exact names *)
Fixpoint name_index (key : string) (names : list string) : option nat :=
  match names with
  | [] => None
  | name :: rest => if str_eqb key name then Some O else S <$> name_index key rest
  end.

Lemma find_field_index {R} key (fields : list (string * decoder R)) i :
  name_index key (fst <$> fields) = Some i -> find_field key fields = snd <$> fields !! i.
Proof.
  assert (H : forall i, name_index key (fst <$> fields) = Some i ->
    find_by (str_eqb key) fields = snd <$> fields !! i /\ is_Some (fields !! i)).
  { induction fields as [|[name d] fields IH]; intros j; [done|]. unfold find_by in *. cbn.
    destruct (str_eqb key name) eqn:Hk; [intros [= <-]; cbn; eauto|].
    rewrite fmap_Some. intros (k & Hk' & ->). cbn. auto. }
  intros Hi. unfold find_field. destruct (H i Hi) as [-> [x Hx]]. by rewrite Hx.
Qed.

(** ** Decoding member by member *)
Lemma fold_result_app {A S} (f : S -> A -> result S) l1 l2 s :
  fold_result f s (l1 ++ l2) = let! s := fold_result f s l1 in fold_result f s l2.
Proof. revert s. induction l1 as [|x l1 IH]; intros s; cbn; [done|]. destruct (f s x); auto. Qed.

Section Members.
Context {R A : Type} (fields : list (string * decoder R)).
Context (key : string) (proj : R -> A) (set : (A -> A) -> R -> R) (d : decoder A).
Context (Hfind : find_field key fields = Some (snd (@field R A key proj set d))).

Lemma dec_members_cons v rest r x :
  d v (proj r) = Ok x ->
  fold_result (dec_member fields) r ((key, v) :: rest) =
  fold_result (dec_member fields) (set (fun _ => x) r) rest.
Proof. intros Hd. cbn [fold_result]. unfold dec_member at 1. cbn [fst snd]. rewrite Hfind. cbn [snd field]. by rewrite Hd. Qed.

Lemma dec_members_omit empty v rest r x :
  (forall r, set (fun _ => proj r) r = r) ->
  (empty = true -> proj r = x) -> (empty = false -> d v (proj r) = Ok x) ->
  fold_result (dec_member fields) r (omitempty key empty v ++ rest) =
  fold_result (dec_member fields) (set (fun _ => x) r) rest.
Proof.
  intros Heta He Hd. destruct empty; cbn [omitempty app].
  - rewrite <- (He eq_refl), Heta. done.
  - by apply dec_members_cons, Hd.
Qed.
End Members.

(** The field that a literal name denotes. *)
Ltac find_literal :=
  erewrite find_field_index by (vm_compute; reflexivity);
  unfold transition_fields, queue_fields, destination_fields, descriptor_fields, resource_fields,
    snapshot_fields, metric_fields, registration_fields, command_fields, acknowledgement_fields,
    telemetry_fields;
  cbn [lookup list_lookup fmap option_fmap option_map]; reflexivity.
(** The struct decoded so far, as a record of values. *)
Ltac normalize_struct :=
  match goal with
  | |- fold_result ?f ?r ?l = ?rhs =>
      let r' := eval cbv beta iota delta [
        ms_Version ms_Namespace ms_LibraryVersion ms_ScalingGroup ms_Revision ms_Epoch ms_Phase
        ms_HashContract ms_Algorithm ms_CurrentMembership ms_ProposedMembership ms_CurrentBrokers
        ms_ProposedBrokers ms_Transition ms_Queue ms_Destination ms_CurrentResources
        ms_ProposedResources zero_snapshot
        re_Version re_MessageID re_Namespace re_Group re_TransitionID re_Epoch re_Phase
        re_Participant re_Role re_ConsumerSet re_LibraryVersion re_ObservedAt zero_registration
        ce_Version ce_MessageID ce_Namespace ce_Group ce_TransitionID ce_Epoch ce_Phase
        ce_Participant ce_Role ce_IssuedAt ce_Deadline zero_command
        ae_Version ae_MessageID ae_CommandID ae_Namespace ae_Group ae_TransitionID ae_Epoch ae_Phase
        ae_Participant ae_Role ae_Ready ae_ObservedAt zero_acknowledgement
        te_Version te_MessageID te_Namespace te_Group te_TransitionID te_Epoch te_Phase
        te_Participant te_Role te_SourceBroker te_SourceQueue te_ObservedAt te_Queued te_Stored
        te_Unacked zero_telemetry] in r in
      change (fold_result f r' l = rhs)
  | |- _ => idtac
  end.
Ltac member_by tac := erewrite dec_members_cons; [|find_literal|tac]; normalize_struct.
Tactic Notation "member" "by" tactic3(tac) := member_by tac.
Tactic Notation "optional" "by" tactic3(tac1) "else" tactic3(tac2) :=
  erewrite dec_members_omit; [|find_literal|intros []; reflexivity|tac1|tac2]; normalize_struct; cbn [app].

(** *** Values *)
Lemma dec_uint_number max n old : 0 <= n <= max -> dec_uint max (JsonNumber n) old = Ok n.
Proof. intros. cbn. rewrite (proj2 (Z.leb_le 0 n)), (proj2 (Z.leb_le n max)) by lia. done. Qed.

Lemma dec_u64_number n old : in_u64 n -> dec_u64 (JsonNumber n) old = Ok n.
Proof. apply dec_uint_number. Qed.

Lemma dec_named_text {A} (of_string : string -> A) text x old :
  of_string (json_coerce text) = x -> dec_named of_string (enc_string text) old = Ok x.
Proof. by intros <-. Qed.

Lemma phase_text_of p : validPhase p = true -> phase_of (json_coerce (phase_text p)) = p.
Proof. by destruct p. Qed.

Lemma role_text_of r : role_Validate r = nil_err -> role_of (json_coerce (role_string r)) = r.
Proof. by destruct r. Qed.

Lemma dec_elements_enc {A} zero (d : decoder A) (enc : A -> json) (f : A -> A) l old :
  (forall x old, x ∈ l -> d (enc x) old = Ok (f x)) ->
  dec_elements zero d (enc <$> l) old = Ok (f <$> l).
Proof.
  revert old. induction l as [|x l IH]; intros old H; [done|]. cbn.
  rewrite H by apply list_elem_of_here. rewrite IH; [done|]. intros. apply H. by right.
Qed.

Lemma dec_slice_enc {A} zero (d : decoder A) (enc : A -> json) (f : A -> A) l old :
  (forall x old, x ∈ l -> d (enc x) old = Ok (f x)) ->
  dec_slice zero d (enc_slice enc l) old = Ok (f <$> l).
Proof. intros H. destruct l as [|x l]; [done|]. by apply dec_elements_enc. Qed.

(** *** Structs of a snapshot *)
Lemma dec_transition_enc t old :
  in_u64 (tr_FromEpoch t) -> in_u64 (tr_ToEpoch t) ->
  dec_struct transition_fields (enc_transition t) old = Ok (json_transition t).
Proof.
  intros Hf Ht. unfold dec_struct, enc_transition. member by reflexivity.
  do 2 (member by (by apply dec_u64_number)). reflexivity.
Qed.

Lemma dec_descriptor_enc x old : dec_struct descriptor_fields (enc_descriptor x) old = Ok (json_descriptor x).
Proof. unfold dec_struct, enc_descriptor. do 2 (member by reflexivity). reflexivity. Qed.

Lemma dec_resource_enc x old :
  in_u64 (er_Epoch x) -> dec_struct resource_fields (enc_resource x) old = Ok (json_resource x).
Proof.
  intros He. unfold dec_struct, enc_resource. member by (by apply dec_u64_number).
  do 4 (member by reflexivity). reflexivity.
Qed.

Lemma str_empty_coerce s : str_empty s = true -> "" = json_coerce s.
Proof. unfold str_empty, str_eqb. intros ->%bool_decide_eq_true. reflexivity. Qed.

Lemma nilp_fmap {A} (f : A -> A) l : nilp l = true -> [] = f <$> l.
Proof. by destruct l. Qed.

Lemma dec_transition_pointer o old :
  (forall t, o = Some t -> in_u64 (tr_FromEpoch t) /\ in_u64 (tr_ToEpoch t)) ->
  dec_pointer zero_transition (dec_struct transition_fields) (from_option enc_transition JsonNull o) old
  = Ok (json_transition <$> o).
Proof.
  intros H. destruct o as [t|]; [|done]. destruct (H t eq_refl). cbn [from_option].
  transitivity (let! x := dec_struct transition_fields (enc_transition t) (default zero_transition old) in
    Ok (Some x)); [done|]. by rewrite dec_transition_enc.
Qed.

Lemma dec_queue_enc q old :
  dec_struct queue_fields
    (JsonObject [("name", enc_string (q_Name q)); ("durable", JsonBool (q_Durable q))]) old
  = Ok (mkQueueInfo (json_coerce (q_Name q)) (q_Durable q)).
Proof. unfold dec_struct. do 2 (member by reflexivity). reflexivity. Qed.

Lemma dec_destination_enc d old :
  d_Kind d = DestinationTopic ->
  dec_struct destination_fields
    (JsonObject [("kind", enc_string (kind_text (d_Kind d))); ("name", enc_string (d_Name d))]) old
  = Ok (mkDestinationInfo (d_Kind d) (json_coerce (d_Name d))).
Proof.
  intros ->. unfold dec_struct. member by reflexivity. member by reflexivity. reflexivity.
Qed.

#[local] Opaque json_coerce.

(** The numbers of a snapshot are [uint64]s. *)
Record snapshot_u64 (s : MembershipSnapshot) : Prop := {
  su_revision : in_u64 (ms_Revision s);
  su_epoch : in_u64 (ms_Epoch s);
  su_transition : forall t, ms_Transition s = Some t -> in_u64 (tr_FromEpoch t) /\ in_u64 (tr_ToEpoch t);
  su_current : forall r, r ∈ ms_CurrentResources s -> in_u64 (er_Epoch r);
  su_proposed : forall r, r ∈ ms_ProposedResources s -> in_u64 (er_Epoch r);
}.

Lemma dec_snapshot_enc s :
  ms_Version s = SnapshotVersion -> validPhase (ms_Phase s) = true ->
  d_Kind (ms_Destination s) = DestinationTopic -> snapshot_u64 s ->
  dec_struct snapshot_fields (enc_snapshot s) zero_snapshot = Ok (json_snapshot s).
Proof.
  intros Hv Hp Hk [Hrev Hep Htr Hcur Hprop]. unfold dec_struct, enc_snapshot. cbn [app].
  member by (rewrite Hv; reflexivity).
  do 2 (optional by (apply str_empty_coerce) else (intros _; reflexivity)).
  member by reflexivity.
  do 2 (member by (by apply dec_u64_number)).
  member by (exact (dec_named_text _ _ _ _ (phase_text_of _ Hp))).
  do 2 (member by reflexivity).
  member by (by apply (dec_slice_enc _ _ _ json_coerce)).
  optional by (apply (nilp_fmap json_coerce)) else (intros _; by apply (dec_slice_enc _ _ _ json_coerce)).
  member by (apply (dec_slice_enc _ _ _ json_descriptor); intros; apply dec_descriptor_enc).
  optional by (apply (nilp_fmap json_descriptor))
    else (intros _; apply (dec_slice_enc _ _ _ json_descriptor); intros; apply dec_descriptor_enc).
  optional by (intros He%bool_decide_eq_true; exact (eq_sym (f_equal (fmap (M:=option) json_transition) He)))
    else (intros _; by apply dec_transition_pointer).
  member by (by apply dec_queue_enc).
  member by (by apply dec_destination_enc).
  rewrite <- (app_nil_r (omitempty "proposed_resources" _ _)).
  optional by (apply (nilp_fmap json_resource))
    else (intros _; apply (dec_slice_enc _ _ _ json_resource); intros; by apply dec_resource_enc, Hcur).
  optional by (apply (nilp_fmap json_resource))
    else (intros _; apply (dec_slice_enc _ _ _ json_resource); intros; by apply dec_resource_enc, Hprop).
  unfold json_snapshot. rewrite Hv. reflexivity.
Qed.

(** ** The scan *)
Section JsonInd.
Context (P : json -> Prop).
Context (Hnull : P JsonNull) (Hbool : forall b, P (JsonBool b)) (Hnumber : forall n, P (JsonNumber n)).
Context (Hother : forall t, P (JsonOtherNumber t)) (Hstring : forall s, P (JsonString s)).
Context (Harray : forall l, Forall P l -> P (JsonArray l)).
Context (Hobject : forall m, Forall (fun kv => P (snd kv)) m -> P (JsonObject m)).

Fixpoint json_ind' (value : json) : P value :=
  match value with
  | JsonNull => Hnull
  | JsonBool b => Hbool b
  | JsonNumber n => Hnumber n
  | JsonOtherNumber t => Hother t
  | JsonString s => Hstring s
  | JsonArray l => Harray l ((fix all l : Forall P l :=
      match l with
      | [] => Forall_nil_2 P
      | x :: l => Forall_cons_2 P x l (json_ind' x) (all l)
      end) l)
  | JsonObject m => Hobject m ((fix all m : Forall (fun kv => P (snd kv)) m :=
      match m with
      | [] => Forall_nil_2 _
      | kv :: m => Forall_cons_2 _ kv m (json_ind' (snd kv)) (all m)
      end) m)
  end.
End JsonInd.

(** Every object has members of distinct names, none of them a secret's. *)
Inductive clean : json -> Prop :=
| clean_null : clean JsonNull
| clean_bool b : clean (JsonBool b)
| clean_number n : clean (JsonNumber n)
| clean_other t : clean (JsonOtherNumber t)
| clean_string s : clean (JsonString s)
| clean_array l : (forall x, x ∈ l -> clean x) -> clean (JsonArray l)
| clean_object m :
    NoDup (fst <$> m) -> (forall k v, (k, v) ∈ m -> is_secret k = false /\ clean v) ->
    clean (JsonObject m).

Fixpoint scan_members (seen : gset string) (members : list (string * json)) : gerr :=
  match members with
  | [] => nil_err
  | (key, value) :: rest =>
      fail_if (bool_decide (key ∈ seen)) (ErrNew "duplicate field") ;;!
      fail_if (is_secret key) (ErrNew "secret-bearing field is forbidden") ;;!
      scanJSONValue value ;;!
      scan_members ({[key]} ∪ seen) rest
  end.

Lemma scan_object m : scanJSONValue (JsonObject m) = scan_members ∅ m.
Proof. cbn [scanJSONValue]. generalize (∅ : gset string). induction m as [|[k v] m IH]; intros seen; [done|].
  cbn. by rewrite <- IH. Qed.

Lemma scan_array l : scanJSONValue (JsonArray l) = for_each scanJSONValue l.
Proof. cbn [scanJSONValue]. induction l as [|x l IH]; [done|]. cbn. by rewrite <- IH. Qed.


Lemma seq_ok (a b : gerr) : (a ;;! b) = nil_err <-> a = nil_err /\ b = nil_err.
Proof. destruct a as [[]|e]; split; [by intros|by intros [_ ?]|done|by intros [? _]]. Qed.

Lemma scan_members_ok m seen :
  scan_members seen m = nil_err <->
  NoDup (fst <$> m) /\
  forall k v, (k, v) ∈ m -> k ∉ seen /\ is_secret k = false /\ scanJSONValue v = nil_err.
Proof.
  revert seen. induction m as [|[k v] m IH]; intros seen.
  - split; [|done]. intros _. split; [constructor|]. intros k v Hk. by apply not_elem_of_nil in Hk.
  - cbn [scan_members fmap list_fmap fst]. rewrite !seq_ok, !fail_if_ok, bool_decide_eq_false, IH, NoDup_cons.
    setoid_rewrite elem_of_cons. setoid_rewrite not_elem_of_union. setoid_rewrite not_elem_of_singleton.
    split.
    + intros (Hs & Hsec & Hv & Hnd & Hm). split; [split; [|done]|].
      * intros ((k' & v') & Heq & Hin)%list_elem_of_fmap. cbn in Heq. subst k'. naive_solver.
      * intros k' v' [[= -> ->]|Hin]; [done|]. naive_solver.
    + intros ((Hk & Hnd) & Hm). destruct (Hm k v (or_introl eq_refl)) as (? & ? & ?).
      split_and!; [done..|]. intros k' v' Hin. destruct (Hm k' v' (or_intror Hin)) as (? & ? & ?).
      split_and!; [|done..]. intros ->. apply Hk, list_elem_of_fmap. by exists (k, v').
Qed.

Lemma scan_clean value : scanJSONValue value = nil_err <-> clean value.
Proof.
  induction value as [| | | | |l IH|m IH] using json_ind'; try (split; [constructor|done]).
  - rewrite scan_array, for_each_ok. rewrite Forall_forall in IH |- *. split.
    + intros H. constructor. intros x Hx. by apply IH, H.
    + intros Hc. inversion Hc as [| | | | |? H|]; subst. intros x Hx. by apply IH, H.
  - rewrite scan_object, scan_members_ok. rewrite Forall_forall in IH. split.
    + intros [Hnd H]. constructor; [done|]. intros k v Hin. destruct (H k v Hin) as (_ & ? & ?).
      split; [done|]. by apply (IH (k, v)).
    + intros Hc. inversion Hc as [| | | | | |? Hnd H]; subst. split; [done|]. intros k v Hin.
      destruct (H k v Hin) as [? ?]. split_and!; [set_solver|done|]. by apply (IH (k, v)).
Qed.

(** *** Encoded documents are clean *)

(** Members whose names are among [names], in order, with clean values. *)
Inductive listed : list string -> list (string * json) -> Prop :=
| listed_nil : listed [] []
| listed_cons n names v m : clean v -> listed names m -> listed (n :: names) ((n, v) :: m)
| listed_skip n names m : listed names m -> listed (n :: names) m.

Lemma listed_omit n names empty v m :
  clean v -> listed names m -> listed (n :: names) (omitempty n empty v ++ m).
Proof. intros. destruct empty; cbn; by constructor. Qed.

Lemma listed_members names m :
  listed names m -> sublist (fst <$> m) names /\ forall k v, (k, v) ∈ m -> k ∈ names /\ clean v.
Proof.
  induction 1 as [|n names v m Hv Hm [Hs IH]|n names m Hm [Hs IH]]; cbn.
  - split; [constructor|]. intros k v Hk. by apply not_elem_of_nil in Hk.
  - split; [by constructor|]. intros k v' [[= -> ->]|Hin]%elem_of_cons; [by split; [left|]|].
    destruct (IH k v' Hin). by split; [right|].
  - split; [by constructor|]. intros k v Hin. destruct (IH k v Hin). by split; [right|].
Qed.

Lemma clean_listed names m :
  NoDup names -> Forall (fun k => is_secret k = false) names -> listed names m -> clean (JsonObject m).
Proof.
  intros Hnd Hsec [Hs Hm]%listed_members. constructor; [by eapply sublist_NoDup|].
  intros k v Hin. destruct (Hm k v Hin) as [Hk Hv]. rewrite Forall_forall in Hsec. auto.
Qed.

Lemma clean_slice {A} (enc : A -> json) l : (forall x, clean (enc x)) -> clean (enc_slice enc l).
Proof.
  intros H. destruct l as [|x l]; [constructor|]. constructor. intros y Hy.
  apply list_elem_of_fmap in Hy as (z & -> & _). apply H.
Qed.

Create HintDb wire.
#[local] Hint Resolve listed_nil listed_cons listed_omit clean_null clean_bool clean_number clean_string
  clean_slice : wire.

Lemma clean_string_enc s : clean (enc_string s).
Proof. constructor. Qed.
#[local] Hint Resolve clean_string_enc : wire.

(** An object written member by member from literal names. *)
Ltac clean_struct :=
  eapply clean_listed; [| |eauto 30 with wire]; apply (bool_decide_unpack _); vm_compute; exact I.

Lemma clean_transition t : clean (enc_transition t).
Proof. unfold enc_transition. clean_struct. Qed.
Lemma clean_descriptor d : clean (enc_descriptor d).
Proof. unfold enc_descriptor. clean_struct. Qed.
Lemma clean_resource r : clean (enc_resource r).
Proof. unfold enc_resource. clean_struct. Qed.
Lemma clean_metric c : clean (enc_metric c).
Proof. unfold enc_metric. clean_struct. Qed.
Lemma clean_queue q :
  clean (JsonObject [("name", enc_string (q_Name q)); ("durable", JsonBool (q_Durable q))]).
Proof. clean_struct. Qed.
Lemma clean_destination d :
  clean (JsonObject [("kind", enc_string (kind_text (d_Kind d))); ("name", enc_string (d_Name d))]).
Proof. clean_struct. Qed.
Lemma clean_transition_pointer o : clean (from_option enc_transition JsonNull o).
Proof. destruct o; [apply clean_transition|constructor]. Qed.
#[local] Hint Resolve clean_descriptor clean_resource clean_metric clean_queue clean_destination
  clean_transition_pointer : wire.

Lemma clean_snapshot s : clean (enc_snapshot s).
Proof.
  unfold enc_snapshot. cbn [app]. rewrite <- (app_nil_r (omitempty "proposed_resources" _ _)). clean_struct.
Qed.

(** ** What the parsers accept *)
Lemma no_trailing_text message value : no_trailing message (text_of value) = nil_err.
Proof. done. Qed.

(** A document that is short enough, clean, decodes and validates is accepted. *)
Lemma parse_strict_text {T} what zero (d : decoder T) validate value x :
  json_len value <= maxSnapshotBytes -> clean value -> d value zero = Ok x -> validate x = nil_err ->
  parse_strict what zero d validate (text_of value) = Ok x.
Proof.
  intros Hlen Hclean%scan_clean Hd Hv. unfold parse_strict, rejectDuplicateOrSecretFields.
  cbn [first_value text_of pl_values pl_len]. rewrite Hclean, Hd. cbn. rewrite Hv.
  unfold fail_if. by destruct (Z.ltb_spec maxSnapshotBytes (json_len value)); [lia|].
Qed.

(** What is accepted was one clean value, decoded and validated. *)
Lemma parse_strict_ok {T} what zero (d : decoder T) validate data x :
  parse_strict what zero d validate data = Ok x ->
  pl_len data <= maxSnapshotBytes /\ validate x = nil_err /\
  exists value, pl_values data = [Some value] /\ clean value /\ d value zero = Ok x.
Proof.
  unfold parse_strict, rejectDuplicateOrSecretFields, no_trailing, first_value, fail_if.
  destruct (Z.ltb_spec maxSnapshotBytes (pl_len data)); [done|].
  destruct (pl_values data) as [|[value|] [|[|] rest]]; try done; cbn;
    destruct (scanJSONValue value) as [[]|] eqn:Hs; try done; cbn.
  destruct (d value zero) as [y|] eqn:Hd; [|done]. cbn. destruct (validate y) as [[]|] eqn:Hv; [|done].
  intros [= <-]. apply scan_clean in Hs. eauto 10.
Qed.

(** ** Validated snapshots survive JSON *)
Section Validated.
Context {net_url : NetURL} {time_text : TimeText}.

Lemma identifier_coerce v : validateIdentifier v = nil_err -> json_coerce v = v.
Proof.
  unfold validateIdentifier. rewrite !seq_ok, fail_if_ok. intros (H & _).
  apply json_coerce_valid. destruct (utf8_ValidString v); [done|]. by rewrite !orb_true_r in H.
Qed.

Lemma component_coerce v : validateNameComponent v = nil_err -> json_coerce v = v.
Proof. unfold validateNameComponent. rewrite seq_ok. intros [? _]. by apply identifier_coerce. Qed.

Lemma membership_coerce seen l : membership_loop seen l = nil_err -> json_coerce <$> l = l.
Proof.
  revert seen. induction l as [|b l IH]; intros seen; [done|]. cbn [membership_loop].
  rewrite !seq_ok. intros (Hb & _ & Hl). rewrite fmap_cons, (IH _ Hl). by rewrite identifier_coerce.
Qed.

Lemma descriptors_coerce members seen l :
  (forall d, d ∈ l -> utf8_ValidString (bd_Endpoint d) = true) ->
  descriptors_loop members seen l = nil_err -> json_descriptor <$> l = l.
Proof.
  intros Hu. revert seen. induction l as [|d l IH]; intros seen; [done|]. cbn [descriptors_loop].
  rewrite !seq_ok. intros (Hd & _ & _ & _ & Hl). rewrite fmap_cons. f_equal.
  - unfold json_descriptor. rewrite (identifier_coerce _ Hd), json_coerce_valid by (apply Hu; left).
    by destruct d.
  - apply (IH ltac:(intros; apply Hu; by right) _ Hl).
Qed.

Lemma resources_coerce epoch brokers acc l acc' :
  resources_loop epoch brokers acc l = Ok acc' -> json_resource <$> l = l.
Proof.
  revert acc. induction l as [|r l IH]; intros acc; [done|]. cbn [resources_loop].
  destruct (fail_if _ _); [|done].
  destruct (validateNameComponent (er_BrokerID r)) as [[]|] eqn:Hb; [|done].
  destruct (fail_if _ _); [|done].
  destruct (validateNameComponent (er_ConsumerSet r)) as [[]|] eqn:Hc; [|done].
  destruct (validateIdentifier (er_QueueName r)) as [[]|] eqn:Hq; [|done].
  destruct (validateIdentifier (er_IngressTopic r)) as [[]|] eqn:Ht; [|done].
  do 2 (destruct (fail_if _ _); [|done]). intros Hl. rewrite fmap_cons, (IH _ Hl). f_equal.
  unfold json_resource. rewrite !component_coerce, !identifier_coerce by done. by destruct r.
Qed.

Lemma validateResources_coerce l epoch membership :
  validateResources l epoch membership = nil_err -> json_resource <$> l = l.
Proof.
  unfold validateResources. rewrite seq_ok. intros [_ H].
  destruct (resources_loop _ _ _ _) eqn:Hl; [|done]. eauto using resources_coerce.
Qed.

Lemma validateMembership_coerce l req : validateMembership l req = nil_err -> json_coerce <$> l = l.
Proof. unfold validateMembership. rewrite !seq_ok. intros (_ & _ & H). eauto using membership_coerce. Qed.

Lemma validateDescriptors_coerce l m req :
  (forall d, d ∈ l -> utf8_ValidString (bd_Endpoint d) = true) ->
  validateBrokerDescriptors l m req = nil_err -> json_descriptor <$> l = l.
Proof. unfold validateBrokerDescriptors. rewrite !seq_ok. intros ? (_ & _ & H). eauto using descriptors_coerce. Qed.

Definition endpoints_utf8 (s : MembershipSnapshot) : Prop :=
  forall d, d ∈ ms_CurrentBrokers s \/ d ∈ ms_ProposedBrokers s -> utf8_ValidString (bd_Endpoint d) = true.

Lemma if_empty_coerce v (check : string -> gerr) :
  (forall v, check v = nil_err -> json_coerce v = v) ->
  (if str_empty v then nil_err else check v) = nil_err -> json_coerce v = v.
Proof.
  intros Hc. destruct (str_empty v) eqn:He; [|auto]. intros _.
  apply bool_decide_eq_true in He. by subst.
Qed.

Lemma proposed_state_coerce s :
  Validate s = nil_err ->
  json_resource <$> ms_ProposedResources s = ms_ProposedResources s /\
  json_transition <$> ms_Transition s = ms_Transition s.
Proof.
  assert (Htr : forall t, validateIdentifier (tr_ID t) = nil_err -> json_transition t = t).
  { intros t H. unfold json_transition. rewrite (identifier_coerce _ H). by destruct t. }
  unfold Validate. rewrite seq_ok. intros [_ H].
  assert (Hmid : validate_transitioning s = nil_err ->
    json_resource <$> ms_ProposedResources s = ms_ProposedResources s /\
    json_transition <$> ms_Transition s = ms_Transition s).
  { unfold validate_transitioning. rewrite !seq_ok. intros (_ & Hres & _ & Ht).
    destruct (ms_Transition s) as [t|]; [|done]. rewrite !seq_ok in Ht. destruct Ht as (Ht & _ & _).
    cbn. rewrite (Htr t Ht). eauto using validateResources_coerce. }
  destruct (ms_Phase s); [|by apply Hmid..| |done].
  - unfold validate_active in H. apply fail_if_ok in H.
    destruct (ms_Transition s); [by rewrite !orb_true_r in H|].
    destruct (ms_ProposedResources s); [done|]. by rewrite !orb_true_r in H.
  - unfold validate_committed in H. destruct (ms_Transition s) as [t|]; [|done].
    rewrite !seq_ok, fail_if_ok in H. destruct H as (H & Ht & _). cbn. rewrite (Htr t Ht).
    destruct (ms_ProposedResources s); [done|]. by rewrite orb_true_r in H.
Qed.

Lemma json_snapshot_id s : Validate s = nil_err -> endpoints_utf8 s -> json_snapshot s = s.
Proof.
  intros Hv Hu. destruct (proposed_state_coerce s Hv) as [Hpr Htr].
  unfold Validate in Hv. rewrite seq_ok in Hv. destruct Hv as [Hc _]. unfold validate_common in Hc.
  rewrite !seq_ok in Hc.
  destruct Hc as (_ & Hns & Hlib & Hsg & _ & _ & Hhash & Halg & Hcm & Hpm & Hcb & Hpb & Hq & _ & _ & Hd & Hcr).
  unfold json_snapshot. rewrite Hpr, Htr.
  rewrite (if_empty_coerce _ _ component_coerce Hns), (if_empty_coerce _ _ identifier_coerce Hlib).
  rewrite (identifier_coerce _ Hsg), (identifier_coerce _ Hhash), (identifier_coerce _ Halg).
  rewrite (validateMembership_coerce _ _ Hcm), (validateMembership_coerce _ _ Hpm).
  rewrite (validateDescriptors_coerce _ _ _ (fun d Hd => Hu d (or_introl Hd)) Hcb).
  rewrite (validateDescriptors_coerce _ _ _ (fun d Hd => Hu d (or_intror Hd)) Hpb).
  rewrite (identifier_coerce _ Hq), (identifier_coerce _ Hd), (validateResources_coerce _ _ _ Hcr).
  by destruct s as [? ? ? ? ? ? ? ? ? ? ? ? ? ? [] [] ? ?].
Qed.

Lemma Validate_known s :
  Validate s = nil_err ->
  ms_Version s = SnapshotVersion /\ validPhase (ms_Phase s) = true /\
  d_Kind (ms_Destination s) = DestinationTopic.
Proof.
  unfold Validate. rewrite seq_ok. intros [Hc Hp]. unfold validate_common in Hc.
  rewrite !seq_ok, !fail_if_ok in Hc.
  destruct Hc as (Hv & _ & _ & _ & _ & _ & _ & _ & _ & _ & _ & _ & _ & _ & Hk & _).
  apply negb_false_iff in Hv, Hk. apply Z.eqb_eq in Hv. apply bool_decide_eq_true in Hk.
  split_and!; [done| |done]. by destruct (ms_Phase s).
Qed.

(** C34: a valid snapshot of at most one MiB whose endpoints are UTF-8 is parsed
    from its own JSON document to the very same snapshot. *)
Theorem snapshot_roundtrip s :
  Validate s = nil_err -> snapshot_u64 s -> endpoints_utf8 s ->
  json_len (enc_snapshot s) <= maxSnapshotBytes ->
  ParseMembershipSnapshot (text_of (enc_snapshot s)) = Ok s.
Proof.
  intros Hv Hn Hu Hlen. destruct (Validate_known s Hv) as (Hver & Hp & Hk).
  apply parse_strict_text; [done|apply clean_snapshot| |done].
  rewrite dec_snapshot_enc by done. by rewrite json_snapshot_id.
Qed.

(** *** Envelopes *)
Record scope_wire (version : Z) (messageID namespace group transitionID : string) (phase : CtlPhase)
    (participant : string) (role : ParticipantRole) : Prop := {
  sw_version : version = ProtocolVersion;
  sw_message : json_coerce messageID = messageID;
  sw_namespace : json_coerce namespace = namespace;
  sw_group : json_coerce group = group;
  sw_transition : json_coerce transitionID = transitionID;
  sw_phase : phase_of (json_coerce (phase_text phase)) = phase;
  sw_participant : json_coerce participant = participant;
  sw_role : role_of (json_coerce (role_string role)) = role;
}.

Lemma validateEnvelopeScope_wire version messageID namespace group transitionID epoch phase
    participant role observedAt required :
  validateEnvelopeScope version messageID namespace group transitionID epoch phase participant role
    observedAt required = nil_err ->
  scope_wire version messageID namespace group transitionID phase participant role.
Proof.
  unfold validateEnvelopeScope. rewrite !seq_ok, !fail_if_ok, for_each_ok, !Forall_cons.
  intros (Hv & (Hm & Hg & Hp & _) & Hns & Ht & _ & Hph & Hr & _).
  apply negb_false_iff in Hv, Hph. apply Z.eqb_eq in Hv. split; auto using identifier_coerce,
    component_coerce, phase_text_of, role_text_of.
  destruct required; cbn in Ht; [by apply identifier_coerce|].
  destruct (str_empty transitionID) eqn:He; cbn in Ht; [|by apply identifier_coerce].
  apply bool_decide_eq_true in He. by subst.
Qed.

Lemma dec_string_enc v old : json_coerce v = v -> dec_string (enc_string v) old = Ok v.
Proof. intros H. cbn. by rewrite H. Qed.

Lemma str_empty_eq v : str_empty v = true -> "" = v.
Proof. by intros ->%bool_decide_eq_true. Qed.

Lemma dec_version v old : v = ProtocolVersion -> dec_u32 (JsonNumber v) old = Ok v.
Proof. by intros ->. Qed.

Context {time_laws : TimeTextLaws}.

Lemma dec_time_enc t old : json_time_ok t = true -> dec_time (enc_time t) old = Ok t.
Proof. intros H. cbn. by rewrite time_roundtrip. Qed.

Lemma dec_metric_enc c old : in_u64 (mc_Value c) -> dec_struct metric_fields (enc_metric c) old = Ok c.
Proof.
  intros H. unfold dec_struct, enc_metric. member by reflexivity. member by (by apply dec_u64_number).
  by destruct c.
Qed.

Lemma clean_time t : clean (enc_time t).
Proof. constructor. Qed.
#[local] Hint Resolve clean_time : wire.

(** A member of a scope or of a validated identifier. *)
Ltac scalar :=
  member by (first [ by apply dec_version | apply dec_string_enc; assumption
                   | eapply dec_named_text; eassumption | by apply dec_u64_number
                   | by apply dec_time_enc | by apply dec_metric_enc | reflexivity ]).

Lemma registration_roundtrip e :
  registration_Validate e = nil_err -> in_u64 (re_Epoch e) -> json_time_ok (re_ObservedAt e) = true ->
  json_len (enc_registration e) <= maxSnapshotBytes ->
  ParseRegistrationEnvelope (text_of (enc_registration e)) = Ok e.
Proof.
  intros Hv He Ht Hlen. apply parse_strict_text; [done| | |done].
  { unfold enc_registration. cbn [app]. clean_struct. }
  unfold registration_Validate in Hv. rewrite !seq_ok in Hv.
  destruct Hv as (Hs%validateEnvelopeScope_wire & _ & Hlib%identifier_coerce & Hset).
  assert (Hc : json_coerce (re_ConsumerSet e) = re_ConsumerSet e).
  { destruct (bool_decide _); [by apply component_coerce|]. apply fail_if_ok, negb_false_iff in Hset.
    apply bool_decide_eq_true in Hset. by rewrite Hset. }
  destruct Hs. unfold dec_struct, enc_registration. cbn [app]. do 4 scalar.
  optional by (apply str_empty_eq) else (intros _; by apply dec_string_enc). do 4 scalar.
  optional by (apply str_empty_eq) else (intros _; by apply dec_string_enc). do 2 scalar.
  by destruct e.
Qed.

Lemma command_roundtrip e :
  command_Validate e = nil_err -> in_u64 (ce_Epoch e) ->
  json_time_ok (ce_IssuedAt e) = true -> json_time_ok (ce_Deadline e) = true ->
  json_len (enc_command e) <= maxSnapshotBytes ->
  ParseCommandEnvelope (text_of (enc_command e)) = Ok e.
Proof.
  intros Hv He Ht Hd Hlen. apply parse_strict_text; [done| | |done].
  { unfold enc_command. clean_struct. }
  unfold command_Validate in Hv. rewrite !seq_ok in Hv. destruct Hv as (Hs%validateEnvelopeScope_wire & _ & _).
  destruct Hs. unfold dec_struct, enc_command. do 11 scalar. by destruct e.
Qed.

Lemma acknowledgement_roundtrip e :
  ack_Validate e = nil_err -> in_u64 (ae_Epoch e) -> json_time_ok (ae_ObservedAt e) = true ->
  json_len (enc_acknowledgement e) <= maxSnapshotBytes ->
  ParseAcknowledgementEnvelope (text_of (enc_acknowledgement e)) = Ok e.
Proof.
  intros Hv He Ht Hlen. apply parse_strict_text; [done| | |done].
  { unfold enc_acknowledgement. clean_struct. }
  unfold ack_Validate in Hv. rewrite !seq_ok in Hv.
  destruct Hv as (Hs%validateEnvelopeScope_wire & Hc%identifier_coerce & _).
  destruct Hs. unfold dec_struct, enc_acknowledgement. do 12 scalar. by destruct e.
Qed.

Lemma telemetry_roundtrip e :
  telemetry_Validate e = nil_err -> in_u64 (te_Epoch e) -> json_time_ok (te_ObservedAt e) = true ->
  in_u64 (mc_Value (te_Queued e)) -> in_u64 (mc_Value (te_Stored e)) -> in_u64 (mc_Value (te_Unacked e)) ->
  json_len (enc_telemetry e) <= maxSnapshotBytes ->
  ParseTelemetryEnvelope (text_of (enc_telemetry e)) = Ok e.
Proof.
  intros Hv He Ht Hq Hst Hu Hlen. apply parse_strict_text; [done| | |done].
  { unfold enc_telemetry. clean_struct. }
  unfold telemetry_Validate in Hv. rewrite !seq_ok in Hv.
  destruct Hv as (Hs%validateEnvelopeScope_wire & _ & Hb%identifier_coerce & Hsq%identifier_coerce & _).
  destruct Hs. unfold dec_struct, enc_telemetry. do 15 scalar. by destruct e.
Qed.
End Validated.

(** ** Strictness *)
Lemma dec_members_known {R} (fields : list (string * decoder R)) members r r' :
  fold_result (dec_member fields) r members = Ok r' ->
  forall k v, (k, v) ∈ members -> is_Some (find_field k fields).
Proof.
  revert r. induction members as [|[k v] members IH]; intros r Hd k' v' Hin;
    [by apply not_elem_of_nil in Hin|].
  cbn [fold_result] in Hd. unfold dec_member in Hd at 1. cbn [fst snd] in Hd.
  destruct (find_field k fields) as [d|] eqn:Hf; [|done].
  destruct (d v r) as [r1|]; [|done].
  apply elem_of_cons in Hin as [[= -> ->]|Hin]; [by rewrite Hf|]. by eapply IH.
Qed.

(** Whatever [ParseMembershipSnapshot] accepts is one JSON value of at most
    one MiB with nothing after it, in which no object repeats a name or names a
    secret at any depth; every member of the top object belongs to a field, and
    the snapshot validates. *)
Theorem accepted_snapshots_are_strict `{net_url : NetURL} data s :
  ParseMembershipSnapshot data = Ok s ->
  pl_len data <= maxSnapshotBytes /\ Validate s = nil_err /\
  exists members, pl_values data = [Some (JsonObject members)] /\ clean (JsonObject members) /\
    forall k v, (k, v) ∈ members -> is_Some (find_field k snapshot_fields).
Proof.
  intros (Hlen & Hv & value & Hval & Hclean & Hd)%parse_strict_ok. split_and!; [done..|].
  destruct value as [| | | | | |members]; try discriminate Hd.
  { injection Hd as <-. discriminate Hv. }
  exists members. split_and!; [done..|]. by apply (dec_members_known _ _ _ _ Hd).
Qed.
