(* ===== verification/WireScenario.v ===== *)
(** * Documents on the wire

    A snapshot and envelopes that make the round trip, and a document in which
    a field is given twice. *)

From S2P Require Import Prelude Outbox Snapshot Messages Controller PublisherScenario Wire WireTheorems.
From Stdlib Require Import ZArith Ascii Lia.
From stdpp Require Import base gmap strings pretty numbers option list.
#[local] Open Scope string_scope.
#[local] Open Scope list_scope.
#[local] Open Scope Z_scope.
#[local] Existing Instance demo_urls.

(** Time stamps written in binary, as an example of texts that read back. *)
Fixpoint positive_text (p : positive) : string :=
  match p with
  | xH => ""
  | xO p => String "0"%char (positive_text p)
  | xI p => String "1"%char (positive_text p)
  end.
Fixpoint text_positive (s : string) : option positive :=
  match s with
  | "" => Some xH
  | String "0"%char s => xO <$> text_positive s
  | String "1"%char s => xI <$> text_positive s
  | _ => None
  end.
#[local] Instance binary_times : TimeText := {|
  time_format t := match t with
    | Z0 => "z" | Zpos p => String "+"%char (positive_text p) | Zneg p => String "-"%char (positive_text p)
    end;
  time_parse s := match s with
    | String "z"%char _ => Some 0
    | String "+"%char s => Zpos <$> text_positive s
    | String "-"%char s => Zneg <$> text_positive s
    | _ => None
    end;
|}.

Lemma text_positive_text p : text_positive (positive_text p) = Some p.
Proof. induction p as [p IH|p IH|]; cbn; [by rewrite IH..|done]. Qed.

#[local] Instance binary_times_laws : TimeTextLaws.
Proof. split. intros [|p|p] _; cbn; [done|by rewrite text_positive_text..]. Qed.

Lemma two_brokers_u64 : snapshot_u64 two_brokers.
Proof.
  split; unfold in_u64, max_u64; [by cbn..| | |].
  - intros t H. discriminate H.
  - apply Forall_forall. repeat constructor; cbn; lia.
  - apply Forall_forall. repeat constructor.
Qed.

Lemma snapshot_roundtrip_witness :
  ParseMembershipSnapshot (text_of (enc_snapshot two_brokers)) = Ok two_brokers.
Proof.
  apply snapshot_roundtrip; [by vm_compute|exact two_brokers_u64| |by vm_compute].
  intros d Hd. rewrite <- elem_of_app in Hd. revert d Hd. apply Forall_forall.
  repeat constructor; by vm_compute.
Defined.

Lemma accepted_snapshots_are_strict_witness :
  pl_len (text_of (enc_snapshot two_brokers)) <= maxSnapshotBytes /\ Validate two_brokers = nil_err /\
  exists members, pl_values (text_of (enc_snapshot two_brokers)) = [Some (JsonObject members)] /\
    clean (JsonObject members) /\
    forall k v, (k, v) ∈ members -> is_Some (find_field k snapshot_fields).
Proof. apply accepted_snapshots_are_strict. by vm_compute. Defined.

(** The members of an encoded snapshot, and one more at the end. *)
Definition with_member (s : MembershipSnapshot) (member : string * json) : json :=
  match enc_snapshot s with
  | JsonObject members => JsonObject (members ++ [member])
  | other => other
  end.

(** The parser's promise to reject duplicate fields is kept for equal names
    only.  A document that gives the revision as ["revision": 1] and again as
    ["Revision": 7] is accepted, and the second value is the one that counts;
    repeated with the same spelling, it is rejected. *)
Theorem case_variant_duplicate_accepted :
  ParseMembershipSnapshot (text_of (with_member one_broker ("Revision", JsonNumber 7))) =
    Ok (one_broker <| ms_Revision := 7 |>) /\
  ms_Revision one_broker = 1 /\
  is_ok (ParseMembershipSnapshot (text_of (with_member one_broker ("revision", JsonNumber 7)))) = false.
Proof. split_and!; by vm_compute. Qed.
