(* ===== verification/Broker0.v ===== *)
(** * The broker-0 control channel (broker0/envelope.go, transport.go, publisher.go)

    Typed messages and their parsing, deliveries and publications of the native
    transport, and the publisher that sends each operation until the broker has
    accepted it and the operation store has recorded it.

    Native clients, resolvers and clocks answer through an environment; every
    call to them is appended to a trace.  The operation store is used through
    its interface. *)

From S2P Require Import Prelude Customer Outbox Snapshot Messages Naming ControllerTypes Controller Wire OperationStore.
From Stdlib Require Import ZArith Lia.
From stdpp Require Import base gmap strings numbers option list.
#[local] Open Scope Z_scope.

(** ** Messages *)
Inductive Kind : Type :=
| KindMembershipSnapshot | KindSnapshotRequest | KindRegistration | KindCommand
| KindAcknowledgement | KindTelemetry | KindOther (s : string).
#[export] Instance Kind_eq_dec : EqDecision Kind.
Proof. solve_decision. Defined.

Record Message := mkMessage {
  m_Kind : Kind;
  m_OperationID : string;
  m_Group : string;
  m_Snapshot : option MembershipSnapshot;
  m_Registration : option RegistrationEnvelope;
  m_Command : option CommandEnvelope;
  m_Acknowledgement : option AcknowledgementEnvelope;
  m_Telemetry : option TelemetryEnvelope;
}.
#[export] Instance eta_Message : Eta Message := fun m =>
  mkMessage (m_Kind m) (m_OperationID m) (m_Group m) (m_Snapshot m) (m_Registration m) (m_Command m)
    (m_Acknowledgement m) (m_Telemetry m).

Section Messages.
Context {net_url : NetURL} {time_text : TimeText}.

(** The encoders validate first; [marshalPayload] fails on a time outside the
    years RFC 3339 can write. *)
Definition marshalPayload (times : list Time) (value : json) : result payload :=
  if forallb json_time_ok times then Ok (text_of value)
  else Err (ErrWrap "broker0: encode payload" (ErrNew "Time.MarshalJSON: year outside of range [0,9999]")).

Definition encodeMembershipSnapshot (snapshot : MembershipSnapshot) : result payload :=
  Validate snapshot ;;! marshalPayload [] (enc_snapshot snapshot).
Definition encodeRegistration (registration : RegistrationEnvelope) : result payload :=
  registration_Validate registration ;;!
  marshalPayload [re_ObservedAt registration] (enc_registration registration).
Definition encodeCommand (command : CommandEnvelope) : result payload :=
  command_Validate command ;;!
  marshalPayload [ce_IssuedAt command; ce_Deadline command] (enc_command command).
Definition encodeAcknowledgement (acknowledgement : AcknowledgementEnvelope) : result payload :=
  ack_Validate acknowledgement ;;!
  marshalPayload [ae_ObservedAt acknowledgement] (enc_acknowledgement acknowledgement).
Definition encodeTelemetry (telemetry : TelemetryEnvelope) : result payload :=
  telemetry_Validate telemetry ;;!
  marshalPayload [te_ObservedAt telemetry] (enc_telemetry telemetry).

(** The identifier of the transport, when it has one, is the message's. *)
Definition match_operation (operationID messageID : string) : gerr :=
  fail_if (negb (str_empty operationID) && negb (str_eqb operationID messageID))
    (ErrNew "broker0: transport operation does not match message").

Definition parseMessage (kind : Kind) (operationID : string) (data : payload) : result Message :=
  let message := mkMessage kind operationID "" None None None None None in
  match kind with
  | KindMembershipSnapshot =>
      (if str_empty operationID then nil_err else validateOperationID operationID) ;;!
      let! snapshot := wrap_err "broker0: membership payload" (ParseMembershipSnapshot data) in
      Ok (message <| m_Group := ms_ScalingGroup snapshot |> <| m_Snapshot := Some snapshot |>)
  | KindRegistration =>
      let! registration := wrap_err "broker0: registration payload" (ParseRegistrationEnvelope data) in
      match_operation operationID (re_MessageID registration) ;;!
      Ok (message <| m_OperationID := re_MessageID registration |> <| m_Group := re_Group registration |>
            <| m_Registration := Some registration |>)
  | KindCommand =>
      let! command := wrap_err "broker0: command payload" (ParseCommandEnvelope data) in
      match_operation operationID (ce_MessageID command) ;;!
      Ok (message <| m_OperationID := ce_MessageID command |> <| m_Group := ce_Group command |>
            <| m_Command := Some command |>)
  | KindAcknowledgement =>
      let! acknowledgement :=
        wrap_err "broker0: acknowledgement payload" (ParseAcknowledgementEnvelope data) in
      match_operation operationID (ae_MessageID acknowledgement) ;;!
      Ok (message <| m_OperationID := ae_MessageID acknowledgement |>
            <| m_Group := ae_Group acknowledgement |> <| m_Acknowledgement := Some acknowledgement |>)
  | KindTelemetry =>
      let! telemetry := wrap_err "broker0: telemetry payload" (ParseTelemetryEnvelope data) in
      match_operation operationID (te_MessageID telemetry) ;;!
      Ok (message <| m_OperationID := te_MessageID telemetry |> <| m_Group := te_Group telemetry |>
            <| m_Telemetry := Some telemetry |>)
  | KindSnapshotRequest | KindOther _ => Err (ErrNew "broker0: unsupported payload kind")
  end.
End Messages.

(** ** Messages for the controller *)
Definition controllerPhase (phase : CtlPhase) : result Phase :=
  match phase with
  | CPrepare => Ok PhasePrepare
  | CPaused => Ok PhasePause
  | CDrain => Ok PhaseDrain
  | CCommitted => Ok PhaseCommit
  | CActive => Ok PhaseActivate
  | COther _ => Err (ErrNew "broker0: unsupported controller phase")
  end.

Definition acknowledgementForController (envelope : AcknowledgementEnvelope) : result Acknowledgement :=
  let! phase := controllerPhase (ae_Phase envelope) in
  Ok {| ack_CommandID := ae_CommandID envelope; ack_Namespace := ae_Namespace envelope;
        ack_Group := ae_Group envelope; ack_TransitionID := ae_TransitionID envelope;
        ack_Epoch := ae_Epoch envelope; ack_Phase := phase;
        ack_Participant := ae_Participant envelope; ack_AuthenticatedParticipant := "";
        ack_Role := ae_Role envelope; ack_ObservedAt := ae_ObservedAt envelope |}.

Definition count_for (c : MetricCount) : Count := mkCount (mc_Known c) (mc_Value c).
Definition telemetryForController (envelope : TelemetryEnvelope) : Telemetry :=
  {| tel_MessageID := te_MessageID envelope; tel_Namespace := te_Namespace envelope;
     tel_Group := te_Group envelope; tel_TransitionID := te_TransitionID envelope;
     tel_Epoch := te_Epoch envelope; tel_Participant := te_Participant envelope;
     tel_Role := te_Role envelope; tel_SourceBroker := te_SourceBroker envelope;
     tel_SourceQueue := te_SourceQueue envelope; tel_ObservedAt := te_ObservedAt envelope;
     tel_Queued := count_for (te_Queued envelope); tel_Stored := count_for (te_Stored envelope);
     tel_Unacked := count_for (te_Unacked envelope) |}.

(** ** The transport *)
Record Publication := mkPublication {
  pub_Destination : string;
  pub_Kind : Kind;
  pub_OperationID : string;
  pub_Payload : payload;
}.

(** The queue binding of a [ScopedDelivery]; [qs_Participant] is [None] when the
    transport knows no participant. *)
Record QueueScope := mkQueueScope {
  qs_Participant : option string;
  qs_Kind : Kind;
  qs_Group : string;
  qs_Role : ParticipantRole;
}.

(** [dl_Scope] is [None] for a delivery that is no [ScopedDelivery]. *)
Record Delivery := mkDelivery {
  dl_Kind : Kind;
  dl_OperationID : string;
  dl_Payload : payload;
  dl_Scope : option QueueScope;
  dl_Rejectable : bool;
}.

Record ParticipantQueue := mkParticipantQueue {
  pq_Participant : string;
  pq_Principal : string;
  pq_Role : ParticipantRole;
  pq_Group : string;
  pq_Kind : Kind;
  pq_Queue : string;
  pq_Topic : string;
}.

(** ** PersistentControlPublisher *)
Record PublishEnv := mkPublishEnv {
  pe_ctx : gerr;
  pe_contains : CallEnv;
  pe_native : Publication -> gerr;
  pe_record : CallEnv;
}.

(** [destinations] and [targets], the second of which may be nil. *)
Record Resolvers := mkResolvers {
  rs_destination : Kind -> string -> result string;
  rs_target : option (Kind -> string -> ParticipantRole -> string -> result string);
}.

Section Publisher.
Context {sha : Sha256} {net_url : NetURL} {time_text : TimeText} {S : Type} {store_ops : OperationStore S}.

Record ControlPublisher := mkControlPublisher {
  cp_operations : S;
  cp_resolvers : Resolvers;
  cp_published : list (Publication * gerr);
}.

#[export] Instance eta_ControlPublisher : Eta ControlPublisher := fun p =>
  mkControlPublisher (cp_operations p) (cp_resolvers p) (cp_published p).

Definition publishLocked (env : PublishEnv) (kind : Kind) (destination operationID : string)
    (data : payload) (p : ControlPublisher) : ControlPublisher * gerr :=
  let publication := mkPublication destination kind operationID data in
  let answer := pe_native env publication in
  let p := p <| cp_published := cp_published p ++ [(publication, answer)] |> in
  match answer with
  | Err e => (p, Err (ErrWrap "broker0: publish operation" e))
  | Ok _ =>
      let '(operations, r) := RecordOp (pe_record env) (cp_operations p) operationID in
      (p <| cp_operations := operations |>, wrap_err "broker0: record published operation" r)
  end.

(** The lock, the context and the completed operations are checked first. *)
Definition unless_completed (env : PublishEnv) (operationID : string)
    (k : ControlPublisher -> ControlPublisher * gerr) (p : ControlPublisher) : ControlPublisher * gerr :=
  match pe_ctx env with
  | Err e => (p, Err e)
  | Ok _ =>
      match Contains (pe_contains env) (cp_operations p) operationID with
      | Err e => (p, Err (ErrWrap "broker0: check operation" e))
      | Ok true => (p, nil_err)
      | Ok false => k p
      end
  end.

Definition publish (env : PublishEnv) (kind : Kind) (group operationID : string) (data : payload)
    (p : ControlPublisher) : ControlPublisher * gerr :=
  unless_completed env operationID (fun p =>
    match rs_destination (cp_resolvers p) kind group with
    | Err e => (p, Err (ErrWrap "broker0: resolve destination" e))
    | Ok destination =>
        if str_empty destination then (p, Err (ErrNew "broker0: empty destination"))
        else publishLocked env kind destination operationID data p
    end) p.

Definition publishTo (env : PublishEnv) (kind : Kind) (destination operationID : string)
    (data : payload) (p : ControlPublisher) : ControlPublisher * gerr :=
  unless_completed env operationID (fun p =>
    if str_empty destination then (p, Err (ErrNew "broker0: empty destination"))
    else publishLocked env kind destination operationID data p) p.

Definition publishSnapshot (env : PublishEnv) (operationID : string) (snapshot : MembershipSnapshot)
    (p : ControlPublisher) : ControlPublisher * gerr :=
  match encodeMembershipSnapshot snapshot with
  | Err e => (p, Err e)
  | Ok data => publish env KindMembershipSnapshot (ms_ScalingGroup snapshot) operationID data p
  end.

(** [Publish], which satisfies [controller.ControlPublisher]. *)
Definition Publish_update (env : PublishEnv) (update : ControlUpdate) (p : ControlPublisher)
    : ControlPublisher * gerr :=
  if str_empty (cu_OperationID update) || str_empty (cu_Group update) ||
     negb (str_eqb (cu_Group update) (ms_ScalingGroup (cu_Snapshot update)))
  then (p, Err (ErrNew "broker0: invalid controller control update scope"))
  else publishSnapshot env (cu_OperationID update) (cu_Snapshot update) p.

Definition PublishSnapshotOperation (env : PublishEnv) (operationID : string)
    (snapshot : MembershipSnapshot) (p : ControlPublisher) : ControlPublisher * gerr :=
  publishSnapshot env operationID snapshot p.

Definition PublishSnapshotTo (env : PublishEnv) (destination operationID : string)
    (snapshot : MembershipSnapshot) (p : ControlPublisher) : ControlPublisher * gerr :=
  match encodeMembershipSnapshot snapshot with
  | Err e => (p, Err e)
  | Ok data => publishTo env KindMembershipSnapshot destination operationID data p
  end.

Definition snapshot_operation (snapshot : MembershipSnapshot) : string :=
  (ms_ScalingGroup snapshot +:+ "/snapshot/" +:+ FormatUint (ms_Revision snapshot) +:+ "/" +:+
   FormatUint (ms_Epoch snapshot) +:+ "/" +:+ phase_text (ms_Phase snapshot))%string.

Definition PublishSnapshot (env : PublishEnv) (snapshot : MembershipSnapshot) (p : ControlPublisher)
    : ControlPublisher * gerr :=
  publishSnapshot env (snapshot_operation snapshot) snapshot p.

(** A participant-scoped message: encoded, resolved, published. *)
Definition publish_scoped (env : PublishEnv) (kind : Kind) (operationID : string)
    (data : result payload) (destination : result string) (p : ControlPublisher)
    : ControlPublisher * gerr :=
  match data, destination with
  | Err e, _ | Ok _, Err e => (p, Err e)
  | Ok data, Ok destination => publishTo env kind destination operationID data p
  end.

Definition target (p : ControlPublisher) (kind : Kind) (group : string) (role : ParticipantRole)
    (participant : string) : result string :=
  match rs_target (cp_resolvers p) with
  | None => Err (ErrNew "broker0: message requires a participant-scoped destination resolver")
  | Some resolve => resolve kind group role participant
  end.

Definition PublishRegistration (env : PublishEnv) (e : RegistrationEnvelope) (p : ControlPublisher)
    : ControlPublisher * gerr :=
  publish_scoped env KindRegistration (re_MessageID e) (encodeRegistration e)
    (target p KindRegistration (re_Group e) (re_Role e) (re_Participant e)) p.
Definition PublishAcknowledgement (env : PublishEnv) (e : AcknowledgementEnvelope)
    (p : ControlPublisher) : ControlPublisher * gerr :=
  publish_scoped env KindAcknowledgement (ae_MessageID e) (encodeAcknowledgement e)
    (target p KindAcknowledgement (ae_Group e) (ae_Role e) (ae_Participant e)) p.
Definition PublishTelemetry (env : PublishEnv) (e : TelemetryEnvelope) (p : ControlPublisher)
    : ControlPublisher * gerr :=
  publish_scoped env KindTelemetry (te_MessageID e) (encodeTelemetry e)
    (target p KindTelemetry (te_Group e) (te_Role e) (te_Participant e)) p.

(** Without a resolver, the managed topic of the participant. *)
Definition command_destination (p : ControlPublisher) (e : CommandEnvelope) : result string :=
  match rs_target (cp_resolvers p) with
  | Some resolve => resolve KindCommand (ce_Group e) (ce_Role e) (ce_Participant e)
  | None =>
      let! names := NewManagedNames (ce_Namespace e) in
      CommandTopic names (ce_Group e) (ce_Role e) (ce_Participant e)
  end.
Definition PublishCommand (env : PublishEnv) (e : CommandEnvelope) (p : ControlPublisher)
    : ControlPublisher * gerr :=
  publish_scoped env KindCommand (ce_MessageID e) (encodeCommand e) (command_destination p e) p.
End Publisher.
Arguments ControlPublisher S : clear implicits.
