(* ===== verification/Broker0Inbox.v ===== *)
(** * The inboxes of the broker-0 channel (broker0/inbox.go, participant.go, snapshot_rpc.go)

    [ControllerInbox] feeds the controller from one participant's queue,
    [CommandInbox] feeds a participant from the controller's commands, and the
    snapshot server answers bootstrap requests.  A handler is one call; [Run]
    is driven by a script of what the transport delivers and answers, so a
    prefix of a run is a run.  Every call to the outside is an event of the
    trace. *)

From S2P Require Import Prelude Customer Outbox Snapshot Messages Naming ControllerTypes Controller Wire OperationStore Broker0.
From Stdlib Require Import ZArith Lia.
From stdpp Require Import base gmap strings numbers option list.
#[local] Open Scope Z_scope.

Definition context_Canceled : gerror := ErrNew "context canceled".

(** How a delivery was handled; [Terminal] is [terminalInboxError] or
    [permanentCommandError]. *)
Inductive handled : Type :=
| Handled
| Terminal (e : gerror)
| Transient (e : gerror).

(** ** ControllerInbox *)

(** [ControllerHandler]; [ch_Register] is [None] for a controller that is no
    [RegistrationHandler]. *)
Class ControllerHandler (C : Type) := {
  ch_env : Type;
  ch_Acknowledge : ch_env -> Acknowledgement -> C -> C * gerr;
  ch_Observe : ch_env -> Telemetry -> C -> C * gerr;
  ch_Register : option (ch_env -> RegistrationEnvelope -> C -> C * gerr);
}.

Inductive inbox_event : Type :=
| IvAcknowledge (operationID : string) (a : Acknowledgement) (r : gerr)
| IvObserve (operationID : string) (t : Telemetry) (r : gerr)
| IvRegister (operationID : string) (e : RegistrationEnvelope) (r : gerr)
| IvRecord (operationID : string) (r : gerr)
| IvAck (d : Delivery) (operationID : string) (r : gerr)
| IvReject (d : Delivery) (r : gerr)
| IvBackoff (delay : Duration).

Record HandleEnv `{ControllerHandler C} := mkHandleEnv {
  he_contains : CallEnv;
  he_controller : ch_env;
  he_record : CallEnv;
  he_ack : gerr;
}.

Section ControllerInbox.
Context {net_url : NetURL} {time_text : TimeText}.
Context {S C : Type} {store_ops : OperationStore S} {controller_ops : ControllerHandler C}.

Record Inbox := mkInbox {
  in_operations : S;
  in_controller : C;
  in_trace : list inbox_event;
}.
#[export] Instance eta_Inbox : Eta Inbox := fun i =>
  mkInbox (in_operations i) (in_controller i) (in_trace i).

Definition in_emit (e : inbox_event) (i : Inbox) : Inbox := i <| in_trace := in_trace i ++ [e] |>.

(** The scope a message claims for itself. *)
Definition claimed_scope (message : Message) : option (string * string * ParticipantRole) :=
  match m_Kind message with
  | KindRegistration =>
      (fun e => (re_Participant e, re_Group e, re_Role e)) <$> m_Registration message
  | KindAcknowledgement =>
      (fun e => (ae_Participant e, ae_Group e, ae_Role e)) <$> m_Acknowledgement message
  | KindTelemetry =>
      (fun e => (te_Participant e, te_Group e, te_Role e)) <$> m_Telemetry message
  | _ => None
  end.

Definition validateControllerDeliveryScope (delivery : Delivery) (message : Message) : result string :=
  match dl_Scope delivery with
  | None => Err (ErrNew "delivery has no trusted queue binding")
  | Some scope =>
      match qs_Participant scope with
      | None => Err (ErrNew "delivery has no queue-bound participant")
      | Some participant =>
          validateTransportIdentifier participant ;;!
          fail_if (negb (bool_decide (qs_Kind scope = m_Kind message)))
            (ErrNew "queue kind does not match payload kind") ;;!
          let '(claimedParticipant, claimedGroup, claimedRole) :=
            default (""%string, ""%string, RoleNone) (claimed_scope message) in
          fail_if (negb (str_eqb participant claimedParticipant) ||
                   negb (str_eqb (qs_Group scope) claimedGroup) ||
                   negb (bool_decide (qs_Role scope = claimedRole)))
            (ErrNew "queue scope does not match payload scope") ;;!
          Ok participant
      end
  end.

(** The switch on the kind: the error of the controller, or a terminal one. *)
Definition apply_message (env : HandleEnv) (participant : string) (message : Message) (i : Inbox)
    : Inbox * (gerror + gerr) :=
  let op := m_OperationID message in
  match m_Kind message, m_Registration message, m_Acknowledgement message, m_Telemetry message with
  | KindRegistration, Some registration, _, _ =>
      match ch_Register with
      | None => (i, inl (ErrNew "broker0: controller does not support participant registration"))
      | Some register =>
          let '(c, r) := register (he_controller env) registration (in_controller i) in
          (in_emit (IvRegister op registration r) (i <| in_controller := c |>), inr r)
      end
  | KindAcknowledgement, _, Some envelope, _ =>
      match acknowledgementForController envelope with
      | Err e => (i, inr (Err e))
      | Ok a =>
          let a := mkAcknowledgement (ack_CommandID a) (ack_Namespace a) (ack_Group a)
            (ack_TransitionID a) (ack_Epoch a) (ack_Phase a) (ack_Participant a) participant
            (ack_Role a) (ack_ObservedAt a) in
          let '(c, r) := ch_Acknowledge (he_controller env) a (in_controller i) in
          (in_emit (IvAcknowledge op a r) (i <| in_controller := c |>), inr r)
      end
  | KindTelemetry, _, _, Some envelope =>
      let t := telemetryForController envelope in
      let '(c, r) := ch_Observe (he_controller env) t (in_controller i) in
      (in_emit (IvObserve op t r) (i <| in_controller := c |>), inr r)
  | _, _, _, _ => (i, inr nil_err)
  end.

Definition is_terminal (e : gerror) : bool :=
  errors_Is e ErrStaleMessage || errors_Is e ErrTransitionNotFound || errors_Is e ErrUnknownParticipant.

Definition ack_delivery (env : HandleEnv) (delivery : Delivery) (op : string) (i : Inbox)
    : Inbox * handled :=
  let i := in_emit (IvAck delivery op (he_ack env)) i in
  match he_ack env with
  | Err e => (i, Transient (ErrWrap "broker0: acknowledge inbox operation" e))
  | Ok _ => (i, Handled)
  end.

Definition Handle (env : HandleEnv) (delivery : option Delivery) (i : Inbox) : Inbox * handled :=
  match delivery with
  | None => (i, Terminal (ErrNew "broker0: nil controller inbox delivery"))
  | Some delivery =>
      match parseMessage (dl_Kind delivery) (dl_OperationID delivery) (dl_Payload delivery) with
      | Err e => (i, Terminal (ErrWrap "broker0: parse controller inbox delivery" e))
      | Ok message =>
          let op := m_OperationID message in
          if negb (bool_decide (m_Kind message ∈ [KindRegistration; KindAcknowledgement; KindTelemetry]))
          then (i, Terminal (ErrNew "broker0: controller inbox does not accept kind")) else
          match validateControllerDeliveryScope delivery message with
          | Err e => (i, Terminal (ErrWrap "broker0: validate controller inbox binding" e))
          | Ok participant =>
              match Contains (he_contains env) (in_operations i) op with
              | Err e => (i, Transient (ErrWrap "broker0: check inbox operation" e))
              | Ok true => ack_delivery env delivery op i
              | Ok false =>
                  match apply_message env participant message i with
                  | (i, inl e) => (i, Terminal e)
                  | (i, inr (Err e)) =>
                      let applied := ErrWrap "broker0: apply inbox operation" e in
                      (i, if is_terminal e then Terminal applied else Transient applied)
                  | (i, inr (Ok _)) =>
                      let '(operations, r) := RecordOp (he_record env) (in_operations i) op in
                      let i := in_emit (IvRecord op r) (i <| in_operations := operations |>) in
                      match r with
                      | Err e => (i, Transient (ErrWrap "broker0: record inbox operation" e))
                      | Ok _ => ack_delivery env delivery op i
                      end
                  end
              end
          end
      end
  end.

(** *** Run

    One attempt: the answers of [Handle]'s calls and of [Reject], the context's
    error when [Handle] failed, and whether the back-off timer fired before the
    context ended. *)
Record attempt := mkAttempt {
  at_handle : HandleEnv;
  at_reject : gerr;
  at_ctx : gerr;
  at_timer : gerr;
}.

(** The inner loop: the delivery was settled, [Run] returned, or the script is
    at its end. *)
Inductive delivery_outcome : Type :=
| Settled
| Returned (r : gerr)
| Pending.

Definition initial_backoff : Duration := 250000000.
Definition next_backoff (delay : Duration) : Duration := Z.min (delay * 2) (5 * Second).

Fixpoint run_delivery (attempts : list attempt) (backoff : Duration) (delivery : Delivery) (i : Inbox)
    : Inbox * delivery_outcome :=
  match attempts with
  | [] => (i, Pending)
  | a :: rest =>
      match Handle (at_handle a) (Some delivery) i with
      | (i, Handled) => (i, Settled)
      | (i, Terminal e) =>
          if negb (dl_Rejectable delivery)
          then (i, Returned (Err (ErrWrap "broker0: terminal controller message cannot be rejected" e)))
          else
            let i := in_emit (IvReject delivery (at_reject a)) i in
            match at_reject a with
            | Err _ => (i, Returned (Err (ErrWrap "broker0: reject terminal controller message" e)))
            | Ok _ => (i, Settled)
            end
      | (i, Transient e) =>
          if negb (is_ok (at_ctx a)) || errors_Is e context_Canceled then (i, Returned (at_ctx a)) else
          if negb (dl_Rejectable delivery) then (i, Returned (Err e)) else
          match at_timer a with
          | Ok _ => run_delivery rest (next_backoff backoff) delivery (in_emit (IvBackoff backoff) i)
          | Err done => (i, Returned (Err done))
          end
      end
  end.

(** What [Receive] answers, the context's error then, and the attempts made. *)
Record received := mkReceived {
  rv_delivery : result (option Delivery);
  rv_ctx : gerr;
  rv_attempts : list attempt;
}.

Fixpoint Run (script : list received) (i : Inbox) : Inbox * delivery_outcome :=
  match script with
  | [] => (i, Pending)
  | r :: rest =>
      match rv_delivery r with
      | Err e =>
          (i, Returned (if negb (is_ok (rv_ctx r)) || errors_Is e context_Canceled then rv_ctx r
                        else Err (ErrWrap "broker0: receive controller inbox" e)))
      | Ok None => (i, Returned (Err (ErrNew "broker0: durable receiver returned nil delivery")))
      | Ok (Some delivery) =>
          match run_delivery (rv_attempts r) initial_backoff delivery i with
          | (i, Settled) => Run rest i
          | (i, outcome) => (i, outcome)
          end
      end
  end.
End ControllerInbox.
Arguments Inbox S C : clear implicits.
Arguments attempt C {controller_ops}.
Arguments received C {controller_ops}.

(** The controller of this development. *)
Definition Controller_handler {net_url : NetURL} (options : Options) : ControllerHandler World := {|
  ch_env := Env;
  ch_Acknowledge env a w := Acknowledge env a w;
  ch_Observe env t w := Observe options env t w;
  ch_Register := None;
|}.
