(* ===== verification/Broker0Theorems.v ===== *)
(** * Theorems on the inboxes of the broker-0 channel *)

From S2P Require Import Prelude Customer Outbox Snapshot Messages Naming ControllerTypes Controller Wire WireTheorems OperationStore OperationStoreTheorems Broker0 Broker0Inbox.
From Stdlib Require Import ZArith Lia.
From stdpp Require Import base gmap strings numbers option list.
#[local] Open Scope Z_scope.

Section ControllerInboxTheorems.
Context {net_url : NetURL} {time_text : TimeText}.
Context {S C : Type} {store_ops : OperationStore S} {store_laws : OperationStoreLaws S}.
Context {controller_ops : ControllerHandler C}.
Implicit Types (i : Inbox S C) (d : Delivery).

(** ** One call of Handle *)

(** The queue that [d] came from is bound to this scope. *)
Definition bound_to d (kind : Kind) (participant group : string) (role : ParticipantRole) : Prop :=
  dl_Scope d = Some (mkQueueScope (Some participant) kind group role).

(** [e] hands the operation [op] of the delivery [d] to the controller, in the
    scope of the queue. *)
Inductive hands_over d (op : string) : inbox_event -> gerr -> Prop :=
| hands_registration e r :
    bound_to d KindRegistration (re_Participant e) (re_Group e) (re_Role e) ->
    registration_Validate e = nil_err -> re_MessageID e = op ->
    hands_over d op (IvRegister op e r) r
| hands_acknowledgement a r :
    bound_to d KindAcknowledgement (ack_Participant a) (ack_Group a) (ack_Role a) ->
    ack_AuthenticatedParticipant a = ack_Participant a ->
    hands_over d op (IvAcknowledge op a r) r
| hands_telemetry t r :
    bound_to d KindTelemetry (tel_Participant t) (tel_Group t) (tel_Role t) ->
    tel_MessageID t = op ->
    hands_over d op (IvObserve op t r) r.

Inductive handle_outcome (env : HandleEnv) d i : Inbox S C * handled -> Prop :=
| ho_refused e : handle_outcome env d i (i, Terminal e)
| ho_unchecked e : handle_outcome env d i (i, Transient e)
| ho_completed op h :
    holds (in_operations i) (ce_now (he_contains env)) op = true ->
    (he_ack env = nil_err -> h = Handled) ->
    handle_outcome env d i (in_emit (IvAck d op (he_ack env)) i, h)
| ho_unapplied op ev e c h :
    holds (in_operations i) (ce_now (he_contains env)) op = false ->
    hands_over d op ev (Err e) -> h <> Handled ->
    handle_outcome env d i (in_emit ev (i <| in_controller := c |>), h)
| ho_unrecorded op ev c s' e h :
    holds (in_operations i) (ce_now (he_contains env)) op = false ->
    hands_over d op ev nil_err -> h <> Handled ->
    RecordOp (he_record env) (in_operations i) op = (s', Err e) ->
    handle_outcome env d i
      (in_emit (IvRecord op (Err e)) (in_emit ev (i <| in_controller := c |>) <| in_operations := s' |>), h)
| ho_done op ev c s' h :
    holds (in_operations i) (ce_now (he_contains env)) op = false ->
    hands_over d op ev nil_err ->
    RecordOp (he_record env) (in_operations i) op = (s', nil_err) ->
    (he_ack env = nil_err -> h = Handled) ->
    handle_outcome env d i
      (in_emit (IvAck d op (he_ack env)) (in_emit (IvRecord op nil_err)
        (in_emit ev (i <| in_controller := c |>) <| in_operations := s' |>)), h).

Lemma scope_bound d message participant :
  validateControllerDeliveryScope d message = Ok participant ->
  forall p g r, claimed_scope message = Some (p, g, r) ->
  participant = p /\ bound_to d (m_Kind message) p g r.
Proof.
  unfold validateControllerDeliveryScope, bound_to. intros H p g r Hc. rewrite Hc in H.
  destruct (dl_Scope d) as [[[q|] k g' r']|]; cbn in H; try done.
  destruct (validateTransportIdentifier q); [|done]. unfold fail_if in H.
  destruct (bool_decide_reflect (k = m_Kind message)); [|done]. cbn in H.
  unfold str_eqb in H. destruct (bool_decide_reflect (q = p)); [|done].
  destruct (bool_decide_reflect (g' = g)); [|done].
  destruct (bool_decide_reflect (r' = r)); [|done]. cbn in H. by simplify_eq.
Qed.

(** The payload of a parsed message is the one of its kind. *)
Inductive parsed : Message -> Prop :=
| parsed_snapshot op s :
    parsed (mkMessage KindMembershipSnapshot op (ms_ScalingGroup s) (Some s) None None None None)
| parsed_registration e : registration_Validate e = nil_err ->
    parsed (mkMessage KindRegistration (re_MessageID e) (re_Group e) None (Some e) None None None)
| parsed_command e : command_Validate e = nil_err ->
    parsed (mkMessage KindCommand (ce_MessageID e) (ce_Group e) None None (Some e) None None)
| parsed_acknowledgement e : ack_Validate e = nil_err ->
    parsed (mkMessage KindAcknowledgement (ae_MessageID e) (ae_Group e) None None None (Some e) None)
| parsed_telemetry e : telemetry_Validate e = nil_err ->
    parsed (mkMessage KindTelemetry (te_MessageID e) (te_Group e) None None None None (Some e)).

Lemma parseMessage_parsed kind op data m :
  parseMessage kind op data = Ok m -> m_Kind m = kind /\ parsed m.
Proof.
  unfold parseMessage. destruct kind; try done.
  - destruct (if str_empty op then _ else _); [|done].
    destruct (ParseMembershipSnapshot data); [|done]. intros [= <-]. split; [done|constructor].
  - destruct (ParseRegistrationEnvelope data) as [e|] eqn:H; [|done]. cbn.
    destruct (match_operation _ _); [|done]. intros [= <-]. split; [done|].
    constructor. by apply parse_strict_ok in H as (_ & ? & _).
  - destruct (ParseCommandEnvelope data) as [e|] eqn:H; [|done]. cbn.
    destruct (match_operation _ _); [|done]. intros [= <-]. split; [done|].
    constructor. by apply parse_strict_ok in H as (_ & ? & _).
  - destruct (ParseAcknowledgementEnvelope data) as [e|] eqn:H; [|done]. cbn.
    destruct (match_operation _ _); [|done]. intros [= <-]. split; [done|].
    constructor. by apply parse_strict_ok in H as (_ & ? & _).
  - destruct (ParseTelemetryEnvelope data) as [e|] eqn:H; [|done]. cbn.
    destruct (match_operation _ _); [|done]. intros [= <-]. split; [done|].
    constructor. by apply parse_strict_ok in H as (_ & ? & _).
Qed.

Lemma apply_message_outcome env d participant message i :
  parsed message ->
  m_Kind message ∈ [KindRegistration; KindAcknowledgement; KindTelemetry] ->
  validateControllerDeliveryScope d message = Ok participant ->
  (exists e, apply_message env participant message i = (i, inl e)) \/
  (exists ev c r, apply_message env participant message i
                  = (in_emit ev (i <| in_controller := c |>), inr r) /\
                  hands_over d (m_OperationID message) ev r).
Proof.
  intros Hp Hk Hs. pose proof (scope_bound d message participant Hs) as Hb.
  destruct Hp as [op s|e He|e He|e He|e He]; try (by exfalso; set_solver).
  - destruct (Hb _ _ _ eq_refl) as [-> Hq]. cbn [m_Kind] in Hq. unfold apply_message. cbn [m_Kind m_Registration].
    destruct ch_Register as [register|]; [right|left; by eexists].
    destruct (register _ _ _) as [c r]. exists (IvRegister (re_MessageID e) e r), c, r. split; [done|]. by constructor.
  - destruct (Hb _ _ _ eq_refl) as [-> Hq]. cbn [m_Kind] in Hq. right. unfold apply_message. cbn [m_Kind m_Acknowledgement m_OperationID].
    destruct (acknowledgementForController e) as [a|err] eqn:Ha.
    + unfold acknowledgementForController in Ha. destruct (controllerPhase _); [|done]. injection Ha as <-.
      destruct (ch_Acknowledge _ _ _) as [c r]. eexists _, c, r. split; [reflexivity|]. by constructor.
    + exfalso. unfold acknowledgementForController in Ha.
      assert (Hph : validPhase (ae_Phase e) = true).
      { unfold ack_Validate, validateEnvelopeScope in He. rewrite !seq_ok, !fail_if_ok in He.
        destruct He as ((_ & _ & _ & _ & _ & Hph & _) & _). by apply negb_false_iff. }
      by destruct (ae_Phase e).
  - destruct (Hb _ _ _ eq_refl) as [-> Hq]. cbn [m_Kind] in Hq. right. unfold apply_message. cbn [m_Kind m_Telemetry m_OperationID].
    destruct (ch_Observe _ _ _) as [c r]. eexists _, c, r. split; [reflexivity|]. by constructor.
Qed.

Lemma ack_delivery_outcome env d op i :
  exists h, ack_delivery env d op i = (in_emit (IvAck d op (he_ack env)) i, h) /\
    (he_ack env = nil_err -> h = Handled).
Proof. unfold ack_delivery. destruct (he_ack env) as [[]|e]; eexists; split; done. Qed.

Lemma Handle_outcome env d i : handle_outcome env d i (Handle env (Some d) i).
Proof.
  unfold Handle. destruct (parseMessage _ _ _) as [message|e] eqn:Hp; [|constructor].
  apply parseMessage_parsed in Hp as [_ Hp].
  destruct (bool_decide_reflect (m_Kind message ∈ [KindRegistration; KindAcknowledgement; KindTelemetry]))
    as [Hk|]; [|constructor]. cbn [negb].
  destruct (validateControllerDeliveryScope d message) as [participant|e] eqn:Hs; [|constructor].
  destruct (Contains _ _ _) as [[]|e] eqn:Hc; [| |constructor].
  { destruct (ack_delivery_outcome env d (m_OperationID message) i) as (h & -> & Hh).
    constructor; [by rewrite <- (Contains_holds _ _ _ _ Hc)|done]. }
  apply Contains_holds in Hc. symmetry in Hc.
  destruct (apply_message_outcome env d participant message i Hp Hk Hs)
    as [(e & ->)|(ev & c & r & -> & Ho)]; [constructor|].
  destruct r as [[]|e].
  - destruct (RecordOp _ _ _) as [s' r] eqn:Hr. destruct r as [[]|e].
    + match goal with |- handle_outcome _ _ _ (ack_delivery _ _ _ ?j) =>
        destruct (ack_delivery_outcome env d (m_OperationID message) j) as (h & -> & Hh) end.
      by econstructor.
    + by econstructor.
  - eapply ho_unapplied; [done|done|]. by case_match.
Qed.

(** ** Runs *)

(** The operation was complete when the inbox started, or the controller
    accepted it and it was recorded right after. *)
Definition justified (s0 : S) (tr : list inbox_event) (op : string) : Prop :=
  (exists t, holds s0 t op = true) \/
  (exists d ev pre post, tr = pre ++ ev :: IvRecord op nil_err :: post /\ hands_over d op ev nil_err).

Definition acks_justified (s0 : S) (tr : list inbox_event) : Prop :=
  forall pre d op r post, tr = pre ++ IvAck d op r :: post -> justified s0 pre op.

Definition is_ack (e : inbox_event) : bool := match e with IvAck _ _ _ => true | _ => false end.

Record inbox_inv (s0 : S) i : Prop := {
  ii_acks : acks_justified s0 (in_trace i);
  ii_store : forall t op, holds (in_operations i) t op = true -> justified s0 (in_trace i) op;
}.

Lemma justified_snoc s0 tr e op : justified s0 tr op -> justified s0 (tr ++ [e]) op.
Proof.
  intros [H|(d & ev & pre & post & -> & H)]; [by left|]. right.
  exists d, ev, pre, (post ++ [e]). by rewrite <- app_assoc.
Qed.

Lemma acks_snoc s0 tr e :
  acks_justified s0 tr -> (forall d op r, e = IvAck d op r -> justified s0 tr op) ->
  acks_justified s0 (tr ++ [e]).
Proof.
  intros H He pre d op r post Heq. destruct post as [|x post _] using rev_ind.
  - apply app_inj_tail in Heq as [<- ->]. eauto.
  - rewrite app_comm_cons, app_assoc in Heq. apply app_inj_tail in Heq as [-> _]. by eapply H.
Qed.

Lemma inv_emit s0 i e : inbox_inv s0 i -> is_ack e = false -> inbox_inv s0 (in_emit e i).
Proof.
  intros [Ha Hs] He. split; cbn; [|eauto using justified_snoc].
  apply acks_snoc; [done|]. by intros d op r ->.
Qed.

Lemma inv_ack s0 i d op r :
  inbox_inv s0 i -> justified s0 (in_trace i) op -> inbox_inv s0 (in_emit (IvAck d op r) i).
Proof.
  intros [Ha Hs] Hj. split; cbn; [|eauto using justified_snoc].
  apply acks_snoc; [done|]. by intros d' op' r' [= <- <- <-].
Qed.

Lemma hands_over_not_ack d op ev r : hands_over d op ev r -> is_ack ev = false.
Proof. by destruct 1. Qed.

Lemma inv_controller s0 i c : inbox_inv s0 i -> inbox_inv s0 (i <| in_controller := c |>).
Proof. intros [? ?]. by split. Qed.

Lemma inv_Handle s0 env d i : inbox_inv s0 i -> inbox_inv s0 (fst (Handle env (Some d) i)).
Proof.
  intros Hi. destruct (Handle_outcome env d i) as
    [e|e|op h Hin Hh|op ev e c h Hno Hev Hh|op ev c s' e h Hno Hev Hh Hr|op ev c s' h Hno Hev Hr Hh]; cbn [fst].
  - done.
  - done.
  - apply inv_ack; [done|]. by eapply ii_store.
  - apply inv_emit; eauto using inv_controller, hands_over_not_ack.
  - apply inv_emit; [|done]. pose proof (inv_emit s0 _ ev (inv_controller s0 i c Hi) (hands_over_not_ack _ _ _ _ Hev)) as [Ha Hs].
    split; [done|]. cbn. intros t o. rewrite (RecordOp_failed _ _ _ _ _ t o Hr). apply Hs.
  - assert (Hrec : inbox_inv s0 (in_emit (IvRecord op nil_err) (in_emit ev (i <| in_controller := c |>) <| in_operations := s' |>))).
    { pose proof (inv_emit s0 _ ev (inv_controller s0 i c Hi) (hands_over_not_ack _ _ _ _ Hev)) as [Ha Hs].
      split; cbn; [by apply acks_snoc|]. intros t o Ho. destruct (decide (o = op)) as [->|Hne].
      - right. exists d, ev, (in_trace i), []. by rewrite <- app_assoc.
      - apply justified_snoc, (Hs t o). cbn. by eapply RecordOp_only. }
    apply inv_ack; [done|]. right. exists d, ev, (in_trace i), []. cbn. by rewrite <- app_assoc.
Qed.

(** What every [Handle] keeps, [Run] keeps. *)
Section RunInvariant.
Context (P : Inbox S C -> Prop) (Q : attempt C -> Prop).
Context (Hhandle : forall a d i, Q a -> P i -> P (fst (Handle (at_handle a) (Some d) i))).
Context (Hreject : forall d r i, P i -> P (in_emit (IvReject d r) i)).
Context (Hbackoff : forall b i, P i -> P (in_emit (IvBackoff b) i)).

Lemma run_delivery_invariant attempts backoff d i :
  Forall Q attempts -> P i -> P (fst (run_delivery attempts backoff d i)).
Proof.
  intros Hq. revert backoff i. induction Hq as [|a attempts Ha Hq IH]; intros backoff i Hi; [done|].
  cbn [run_delivery]. pose proof (Hhandle a d i Ha Hi) as Hh.
  destruct (Handle _ _ _) as [j [|e|e]]; cbn [fst] in Hh.
  - done.
  - case_match; [done|]. case_match; cbn [fst]; by apply Hreject.
  - case_match; [done|]. case_match; [done|]. destruct (at_timer a); [|done].
    by apply IH, Hbackoff.
Qed.

Lemma Run_invariant script i :
  Forall (fun r => Forall Q (rv_attempts r)) script -> P i -> P (fst (Run script i)).
Proof.
  intros Hq. revert i. induction Hq as [|r script Hr Hq IH]; intros i Hi; [done|]. cbn [Run].
  destruct (rv_delivery r) as [[d|]|e]; [|done..].
  pose proof (run_delivery_invariant (rv_attempts r) initial_backoff d i Hr Hi) as Hd.
  destruct (run_delivery _ _ _ _) as [j []]; cbn [fst] in Hd; auto.
Qed.
End RunInvariant.

Lemma inv_Run s0 script i : inbox_inv s0 i -> inbox_inv s0 (fst (Run script i)).
Proof.
  apply (Run_invariant (inbox_inv s0) (fun _ => True)); auto using inv_Handle, inv_emit.
  apply Forall_forall. intros r _. by apply Forall_forall.
Qed.

(** C22: the controller inbox acknowledges a delivery only when its operation was
    already complete, or after the controller has accepted it, in the scope of
    the queue it came from, and the operation has been recorded durably.  It
    holds for every script of deliveries, failures, retries and rejections. *)
Theorem inbox_acks_only_durable script i i' outcome pre d op r post :
  in_trace i = [] -> Run script i = (i', outcome) ->
  in_trace i' = pre ++ IvAck d op r :: post ->
  (exists t, holds (in_operations i) t op = true) \/
  (exists d' ev a b, pre = a ++ ev :: IvRecord op nil_err :: b /\ hands_over d' op ev nil_err).
Proof.
  intros Ht Hrun. assert (Hi : inbox_inv (in_operations i) i).
  { split; [|left; eauto]. rewrite Ht. intros a ? ? ? ? Heq. by destruct a. }
  pose proof (inv_Run _ script i Hi) as [Ha _]. rewrite Hrun in Ha. apply Ha.
Qed.

(** The event hands [op] to the controller. *)
Definition hands (op : string) (e : inbox_event) : bool :=
  match e with
  | IvRegister o _ _ | IvAcknowledge o _ _ | IvObserve o _ _ => str_eqb o op
  | _ => false
  end.

Lemma hands_over_hands d o ev r op : hands_over d o ev r -> hands op ev = str_eqb o op.
Proof. by destruct 1. Qed.

(** Every reading of the clock by the operation store is at most [T]. *)
Definition until (T : Time) (a : attempt C) : Prop :=
  ce_now (he_contains (at_handle a)) <= T /\ ce_now (he_record (at_handle a)) <= T.

(** An operation that is recorded is not handed to the controller again
    while its record lasts, however often its message is redelivered, under any
    other traffic and any failures. *)
Theorem recorded_operation_not_reapplied T op script i i' outcome :
  in_trace i = [] -> holds (in_operations i) T op = true ->
  Forall (fun r => Forall (until T) (rv_attempts r)) script ->
  Run script i = (i', outcome) ->
  Forall (fun e => hands op e = false) (in_trace i').
Proof.
  intros Ht Hin Hq Hrun.
  assert (H : holds (in_operations i') T op = true /\ Forall (fun e => hands op e = false) (in_trace i'));
    [|apply H].
  replace i' with (fst (Run script i)) by (by rewrite Hrun). clear Hrun i' outcome.
  apply (Run_invariant (fun i => holds (in_operations i) T op = true /\
    Forall (fun e => hands op e = false) (in_trace i)) (until T));
    [|intros d r j [? ?]; split; [done|by apply Forall_app_2; [|constructor]]
     |intros b j [? ?]; split; [done|by apply Forall_app_2; [|constructor]]
     |done|by rewrite Ht].
  clear Ht Hin Hq i script. intros a d i [Hc Hr] [Hin Htr].
  assert (Hne : forall o ev r, hands_over d o ev r ->
    holds (in_operations i) (ce_now (he_contains (at_handle a))) o = false -> hands op ev = false).
  { intros o ev r Hev Hno. rewrite (hands_over_hands _ _ _ _ op Hev). apply bool_decide_eq_false.
    intros ->. by rewrite (holds_mono _ _ _ _ Hc Hin) in Hno. }
  destruct (Handle_outcome (at_handle a) d i) as
    [e|e|o h Ho Hh|o ev e c h Hno Hev Hh|o ev c s' e h Hno Hev Hh Hrec|o ev c s' h Hno Hev Hrec Hh];
    cbn [fst in_emit in_trace in_operations]; cbn; rewrite ?Forall_app, ?Forall_singleton;
    split_and?; try done; try (by eapply Hne); by eapply RecordOp_keeps.
Qed.
End ControllerInboxTheorems.

(** ** With the controller *)
Section WithController.
Context {net_url : NetURL} {time_text : TimeText}.
Context {S : Type} {store_ops : OperationStore S} {store_laws : OperationStoreLaws S}.
Context (options : Options).
#[local] Instance controller_in_front : ControllerHandler World := Controller_handler options.

Lemma ack_group_errors a g e :
  ack_group a g = Err e -> errors_Is e errNoStateChange = true ->
  exists t, acks_for g (ack_Phase a) !! ack_Participant a = Some t /\ ack_ObservedAt a <= t.
Proof.
  unfold ack_group. case_match; [by intros [= <-]|].
  destruct (requirementFor _ _ _) as [q|]; [|by intros [= <-]].
  case_match; [by intros [= <-]|]. case_match; [by intros [= <-]|].
  destruct (acks_for g _ !! _) as [t|]; [|done]. unfold time_After.
  destruct (Z.ltb_spec t (ack_ObservedAt a)); cbn; [done|]. intros [= <-] _. eauto.
Qed.

Lemma ack_group_records a g g' :
  ack_group a g = Ok g' -> acks_for g' (ack_Phase a) !! ack_Participant a = Some (ack_ObservedAt a).
Proof.
  unfold ack_group. case_match; [done|].
  destruct (requirementFor _ _ _) as [q|]; [|done].
  repeat (case_match; [done|]). repeat case_match; try done; intros [= <-]; unfold acks_for at 1;
    cbn; rewrite lookup_insert_eq; cbn; by rewrite lookup_insert_eq.
Qed.

Lemma Acknowledge_recorded env a w w' :
  time_IsZero (ack_ObservedAt a) = false -> Acknowledge env a w = (w', nil_err) ->
  exists g t, ps_Groups (w_mem w') !! ack_Group a = Some g /\
    acks_for g (ack_Phase a) !! ack_Participant a = Some t /\ ack_ObservedAt a <= t.
Proof.
  intros Hz. unfold Acknowledge. rewrite Hz. unfold updateState, bind, get_mem, ack_update.
  destruct (ps_Groups (w_mem w) !! ack_Group a) as [g|] eqn:Hg; [|done].
  destruct (ack_group a g) as [g'|e] eqn:Hack.
  - unfold save. destruct (env_save env (w_tick w)); [|done..]. intros [= <-]. cbn.
    exists g', (ack_ObservedAt a). rewrite lookup_insert_eq. split_and!; [done|by eapply ack_group_records|lia].
  - unfold ret. destruct (errors_Is e errNoStateChange) eqn:He; [|done]. intros [= <-].
    destruct (ack_group_errors a g e Hack He) as (t & ? & ?). eauto.
Qed.

(** When the inbox in front of the controller has settled an acknowledgement
    that it had not seen before, the controller's state holds that participant's
    acknowledgement of that phase, observed no earlier than it says. *)
Theorem settled_acknowledgement_recorded env d message e i i' :
  parseMessage (dl_Kind d) (dl_OperationID d) (dl_Payload d) = Ok message ->
  m_Acknowledgement message = Some e ->
  Contains (he_contains env) (in_operations i) (ae_MessageID e) = Ok false ->
  Handle env (Some d) i = (i', Handled) ->
  exists phase g t, controllerPhase (ae_Phase e) = Ok phase /\
    ps_Groups (w_mem (in_controller i')) !! ae_Group e = Some g /\
    acks_for g phase !! ae_Participant e = Some t /\ ae_ObservedAt e <= t.
Proof.
  intros Hp Hack Hno H. unfold Handle in H. rewrite Hp in H.
  apply parseMessage_parsed in Hp as [_ Hp]. destruct Hp as [| | |e' He'|]; try done.
  cbn in Hack. injection Hack as ->. cbn [m_Kind m_OperationID] in H.
  destruct (bool_decide _); [|done]. cbn [negb] in H.
  destruct (validateControllerDeliveryScope _ _) as [participant|]; [|done]. rewrite Hno in H.
  unfold apply_message in H. cbn [m_Kind m_Acknowledgement m_OperationID m_Registration m_Telemetry] in H.
  unfold acknowledgementForController in H. destruct (controllerPhase (ae_Phase e)) as [phase|err]; [|by destruct (is_terminal err)].
  cbn [ch_Acknowledge controller_in_front Controller_handler] in H.
  match type of H with context [Acknowledge ?v ?x ?w] =>
    destruct (Acknowledge v x w) as [w' r] eqn:Ha end.
  destruct r as [[]|err]; [|by destruct (is_terminal err)].
  apply Acknowledge_recorded in Ha as (g & t & Hg & Ht & Hle).
  2:{ cbn. unfold ack_Validate, validateEnvelopeScope in He'. rewrite !seq_ok, !fail_if_ok in He'. apply He'. }
  cbn in Hg, Ht, Hle. destruct (RecordOp _ _ _) as [s' [[]|err]]; [|done]. unfold ack_delivery in H.
  destruct (he_ack env); [|done]. injection H as <-. exists phase, g, t. split_and!; done.
Qed.
End WithController.
