(* ===== verification/Broker0Command.v ===== *)
(** * The participant's side of the broker-0 channel (broker0/participant.go, snapshot_rpc.go)

    [CommandHandler] executes one command, [CommandInbox] drives it,
    [BindCommandInboxes] binds the queues, and [SnapshotRequestServer] serves
    snapshot requests on the controller's side of the bootstrap exchange. *)

From S2P Require Import Prelude Customer Outbox Snapshot Messages Naming ControllerTypes Controller Wire OperationStore Broker0 Broker0Inbox.
From Stdlib Require Import ZArith Lia.
From stdpp Require Import base gmap strings numbers option list.
#[local] Open Scope Z_scope.

(** ** CommandHandler *)

(** [AcknowledgementPublisher]. *)
Class AcknowledgementPublisher (P : Type) := {
  ap_env : Type;
  ap_publish : ap_env -> AcknowledgementEnvelope -> P -> P * gerr;
}.

#[export] Instance ControlPublisher_acknowledges {sha : Sha256} {net_url : NetURL} {time_text : TimeText}
    {S : Type} {store_ops : OperationStore S} : AcknowledgementPublisher (ControlPublisher S) := {|
  ap_env := PublishEnv;
  ap_publish env e p := PublishAcknowledgement env e p;
|}.

Record CommandHandler := mkCommandHandler {
  h_Participant : string;
  h_Role : ParticipantRole;
  h_Namespace : string;
  h_Groups : gset string;
}.

(** The loop over the groups of [NewCommandHandler]. *)
Definition allow_group (allowed : gset string) (group : string) : result (gset string) :=
  validateTransportIdentifier group ;;!
  fail_if (bool_decide (group ∈ allowed)) (ErrNew "broker0: duplicate command group") ;;!
  Ok ({[group]} ∪ allowed).

(** [given] is that the store, the executor and the publisher are not nil. *)
Definition NewCommandHandler (participant : string) (role : ParticipantRole) (namespace : string)
    (groups : list string) (given : bool) : result CommandHandler :=
  validateTransportIdentifier participant ;;!
  role_Validate role ;;!
  fail_if (str_empty namespace || bool_decide (groups = []) || negb given)
    (ErrNew "broker0: command handler namespace, groups, operation store, executor, and publisher are required") ;;!
  let! allowed := fold_result allow_group ∅ groups in
  Ok (mkCommandHandler participant role namespace allowed).

Inductive command_event : Type :=
| CvExecute (command : CommandEnvelope) (at_ : Time) (r : gerr)
| CvPublish (a : AcknowledgementEnvelope) (r : gerr)
| CvRecord (operationID : string) (r : gerr)
| CvAck (d : Delivery) (operationID : string) (r : gerr)
| CvReject (d : Delivery) (r : gerr)
| CvBackoff (delay : Duration).

Record CommandEnv `{AcknowledgementPublisher P} := mkCommandEnv {
  cv_contains : CallEnv;
  cv_now : Time;
  cv_execute : CommandEnvelope -> gerr;
  cv_now_after : Time;
  cv_publish : ap_env;
  cv_record : CallEnv;
  cv_ack : gerr;
}.

Section CommandHandler.
Context {net_url : NetURL} {time_text : TimeText}.
Context {S P : Type} {store_ops : OperationStore S} {publisher_ops : AcknowledgementPublisher P}.

Record Participant := mkParticipant {
  pa_operations : S;
  pa_publisher : P;
  pa_trace : list command_event;
}.
#[export] Instance eta_Participant : Eta Participant := fun p =>
  mkParticipant (pa_operations p) (pa_publisher p) (pa_trace p).

Definition pa_emit (e : command_event) (p : Participant) : Participant :=
  p <| pa_trace := pa_trace p ++ [e] |>.

(** The acknowledgement of an executed command. *)
Definition command_acknowledgement (command : CommandEnvelope) (observedAt : Time)
    : AcknowledgementEnvelope := {|
  ae_Version := ProtocolVersion; ae_MessageID := (ce_MessageID command +:+ "/ack")%string;
  ae_CommandID := ce_MessageID command; ae_Namespace := ce_Namespace command;
  ae_Group := ce_Group command; ae_TransitionID := ce_TransitionID command;
  ae_Epoch := ce_Epoch command; ae_Phase := ce_Phase command;
  ae_Participant := ce_Participant command; ae_Role := ce_Role command; ae_Ready := true;
  ae_ObservedAt := observedAt |}.

(** From the check of the operation on. *)
Definition handle_command (env : CommandEnv) (delivery : Delivery) (command : CommandEnvelope)
    (p : Participant) : Participant * handled :=
  let op := ce_MessageID command in
  match Contains (cv_contains env) (pa_operations p) op with
  | Err e => (p, Transient (ErrWrap "broker0: check command operation" e))
  | Ok true =>
      let p := pa_emit (CvAck delivery op (cv_ack env)) p in
      (p, match cv_ack env with Ok _ => Handled | Err e => Transient e end)
  | Ok false =>
      if time_After (cv_now env) (ce_Deadline command)
      then (p, Terminal (ErrNew "broker0: command deadline has expired")) else
      let executed := cv_execute env command in
      let p := pa_emit (CvExecute command (cv_now env) executed) p in
      match executed with
      | Err e => (p, Transient (ErrWrap "broker0: execute command" e))
      | Ok _ =>
          let acknowledgement := command_acknowledgement command (cv_now_after env) in
          match ValidateForCommand acknowledgement command with
          | Err e => (p, Transient (ErrWrap "broker0: build acknowledgement for command" e))
          | Ok _ =>
              let '(publisher, r) := ap_publish (cv_publish env) acknowledgement (pa_publisher p) in
              let p := pa_emit (CvPublish acknowledgement r) (p <| pa_publisher := publisher |>) in
              match r with
              | Err e => (p, Transient (ErrWrap "broker0: publish acknowledgement for command" e))
              | Ok _ =>
                  let '(operations, r) := RecordOp (cv_record env) (pa_operations p) op in
                  let p := pa_emit (CvRecord op r) (p <| pa_operations := operations |>) in
                  match r with
                  | Err e => (p, Transient (ErrWrap "broker0: record command" e))
                  | Ok _ =>
                      let p := pa_emit (CvAck delivery op (cv_ack env)) p in
                      (p, match cv_ack env with
                          | Ok _ => Handled
                          | Err e => Transient (ErrWrap "broker0: acknowledge command delivery" e)
                          end)
                  end
              end
          end
      end
  end.

Definition command_Handle (h : CommandHandler) (env : CommandEnv) (delivery : option Delivery)
    (p : Participant) : Participant * handled :=
  match delivery with
  | None => (p, Transient (ErrNew "broker0: nil command delivery"))
  | Some delivery =>
      if negb (bool_decide (dl_Kind delivery = KindCommand))
      then (p, Terminal (ErrNew "broker0: command inbox received kind")) else
      match parseMessage (dl_Kind delivery) (dl_OperationID delivery) (dl_Payload delivery) with
      | Err e => (p, Terminal e)
      | Ok message =>
          match m_Command message with
          | None => (p, Terminal (ErrNew "nil dereference"))
          | Some command =>
              if negb (str_eqb (ce_Namespace command) (h_Namespace h)) ||
                 negb (str_eqb (ce_Participant command) (h_Participant h)) ||
                 negb (bool_decide (ce_Role command = h_Role h))
              then (p, Terminal (ErrNew "broker0: command scope does not match participant")) else
              if negb (bool_decide (ce_Group command ∈ h_Groups h))
              then (p, Terminal (ErrNew "broker0: command group is not assigned to participant")) else
              handle_command env delivery command p
          end
      end
  end.

(** ** CommandInbox.Run *)
Record command_attempt := mkCommandAttempt {
  ca_handle : CommandEnv;
  ca_reject : gerr;
  ca_ctx : gerr;
  ca_timer : gerr;
}.

(** Unlike the controller's inbox, a nil delivery is not refused, and a delivery
    that cannot be rejected is retried all the same. *)
Fixpoint run_command (h : CommandHandler) (attempts : list command_attempt) (backoff : Duration)
    (delivery : option Delivery) (p : Participant) : Participant * delivery_outcome :=
  match attempts with
  | [] => (p, Pending)
  | a :: rest =>
      match command_Handle h (ca_handle a) delivery p with
      | (p, Handled) => (p, Settled)
      | (p, Terminal e) =>
          match delivery with
          | Some d =>
              if negb (dl_Rejectable d)
              then (p, Returned (Err (ErrWrap "broker0: terminal command cannot be rejected" e)))
              else
                let p := pa_emit (CvReject d (ca_reject a)) p in
                match ca_reject a with
                | Err _ => (p, Returned (Err (ErrWrap "broker0: reject terminal command" e)))
                | Ok _ => (p, Settled)
                end
          | None => (p, Returned (Err (ErrWrap "broker0: terminal command cannot be rejected" e)))
          end
      | (p, Transient e) =>
          if negb (is_ok (ca_ctx a)) || errors_Is e context_Canceled then (p, Returned (ca_ctx a)) else
          match ca_timer a with
          | Ok _ => run_command h rest (next_backoff backoff) delivery (pa_emit (CvBackoff backoff) p)
          | Err done => (p, Returned (Err done))
          end
      end
  end.

Record command_received := mkCommandReceived {
  cr_delivery : result (option Delivery);
  cr_ctx : gerr;
  cr_attempts : list command_attempt;
}.

Fixpoint command_Run (h : CommandHandler) (script : list command_received) (p : Participant)
    : Participant * delivery_outcome :=
  match script with
  | [] => (p, Pending)
  | r :: rest =>
      match cr_delivery r with
      | Err e =>
          (p, Returned (if negb (is_ok (cr_ctx r)) || errors_Is e context_Canceled then cr_ctx r
                        else Err (ErrWrap "broker0: receive participant command" e)))
      | Ok delivery =>
          match run_command h (cr_attempts r) initial_backoff delivery p with
          | (p, Settled) => command_Run h rest p
          | (p, outcome) => (p, outcome)
          end
      end
  end.
End CommandHandler.
Arguments Participant S P : clear implicits.
Arguments command_attempt P {publisher_ops}.
Arguments command_received P {publisher_ops}.

(** ** BindCommandInboxes *)

(** A receiver is the number of its binding. *)
Inductive bind_event : Type :=
| BvBind (receiver : nat) (q : ParticipantQueue)
| BvClose (receiver : nat).

Record BindEnv := mkBindEnv {
  bv_queue : string -> ParticipantRole -> string -> result string;
  bv_bind : ParticipantQueue -> gerr;
}.

(** The inboxes bound so far and the calls made. *)
Record Binding_state := mkBindingState {
  bs_inboxes : gmap string nat;
  bs_next : nat;
  bs_trace : list bind_event;
}.

(** [closeAll]; [order] is the order of the map iteration. *)
Definition closeAll (order : gmap string nat -> list (string * nat)) (s : Binding_state) : Binding_state :=
  mkBindingState (bs_inboxes s) (bs_next s)
    (bs_trace s ++ ((fun kr => BvClose (snd kr)) <$> order (bs_inboxes s))).

Definition bind_group_inbox (env : BindEnv) (participant : string) (role : ParticipantRole)
    (s : Binding_state) (group : string) : Binding_state * gerr :=
  match bv_queue env group role participant with
  | Err e => (s, Err (ErrWrap "broker0: resolve command queue" e))
  | Ok queue =>
      if str_empty queue then (s, Err (ErrNew "broker0: resolved command queue is empty")) else
      let q := mkParticipantQueue participant "" role group KindCommand queue "" in
      match bv_bind env q with
      | Err e => (s, Err (ErrWrap "broker0: bind command queue" e))
      | Ok _ =>
          (mkBindingState (<[group := bs_next s]> (bs_inboxes s)) (Datatypes.S (bs_next s))
             (bs_trace s ++ [BvBind (bs_next s) q]), nil_err)
      end
  end.

Fixpoint bind_groups (env : BindEnv) (order : gmap string nat -> list (string * nat))
    (participant : string) (role : ParticipantRole) (groups : list string) (s : Binding_state)
    : Binding_state * gerr :=
  match groups with
  | [] => (s, nil_err)
  | group :: rest =>
      match bind_group_inbox env participant role s group with
      | (s, Err e) => (closeAll order s, Err e)
      | (s, Ok _) => bind_groups env order participant role rest s
      end
  end.

(** The factory, the resolver and the handler are not nil. *)
Definition BindCommandInboxes (env : BindEnv) (order : gmap string nat -> list (string * nat))
    (participant : string) (role : ParticipantRole) (groups : list string) : Binding_state * gerr :=
  bind_groups env order participant role groups (mkBindingState ∅ 0 []).

(** ** SnapshotRequestServer *)
Record SnapshotRequestDelivery := mkSnapshotRequestDelivery {
  sd_Request : SnapshotRequest;
  sd_ReplyTo : string;
  sd_CorrelationID : string;
  sd_Participant : option string;
}.

Inductive server_event : Type :=
| SvRespond (replyTo correlationID : string) (response : SnapshotResponse) (r : gerr)
| SvAck (d : SnapshotRequestDelivery) (r : gerr)
| SvReject (d : SnapshotRequestDelivery) (r : gerr).

(** The resolver, the authorizer and the snapshot source, and what the transport
    answers to this request. *)
Record ServerEnv := mkServerEnv {
  se_reply : SnapshotRequest -> result string;
  se_authorize : SnapshotRequest -> string -> gerr;
  se_source : string -> option MembershipSnapshot;
  se_publish : gerr;
  se_ack : gerr;
  se_reject : gerr;
}.

Section Server.
Context {net_url : NetURL}.

Definition response_to (request : SnapshotRequest) (snapshot : MembershipSnapshot) : SnapshotResponse := {|
  sp_Version := BootstrapProtocolVersion; sp_CorrelationID := sr_CorrelationID request;
  sp_Namespace := sr_Namespace request; sp_Group := sr_Group request;
  sp_Participant := sr_Participant request; sp_Role := sr_Role request; sp_Snapshot := snapshot |}.

(** [delivery.Reject], then the next request. *)
Definition reject_request (env : ServerEnv) (d : SnapshotRequestDelivery) : list server_event * gerr :=
  ([SvReject d (se_reject env)], wrap_err "broker0: reject snapshot request" (se_reject env)).

(** The request names the principal it came from and its reply address. *)
Definition trusted_request (env : ServerEnv) (d : SnapshotRequestDelivery) : bool :=
  let request := sd_Request d in
  match sd_Participant d, se_reply env request with
  | Some principal, Ok expected =>
      str_eqb principal (sr_Participant request) &&
      str_eqb (sd_CorrelationID d) (sr_CorrelationID request) && str_eqb (sd_ReplyTo d) expected
  | _, _ => false
  end.

(** One turn of the loop: the calls made, and the error with which [Run] returns. *)
Definition serve (env : ServerEnv) (d : SnapshotRequestDelivery) : list server_event * gerr :=
  let request := sd_Request d in
  if negb (trusted_request env d) then reject_request env d else
  if negb (is_ok (request_Validate request)) ||
     negb (is_ok (se_authorize env request (default ""%string (sd_Participant d))))
  then reject_request env d else
  match se_source env (sr_Group request) with
  | None => reject_request env d
  | Some snapshot =>
      let response := response_to request snapshot in
      match ValidateFor response request with
      | Err e => ([], Err (ErrWrap "broker0: build snapshot response" e))
      | Ok _ =>
          let sent := SvRespond (sd_ReplyTo d) (sr_CorrelationID request) response (se_publish env) in
          match se_publish env with
          | Err e => ([sent], Err (ErrWrap "broker0: publish snapshot response" e))
          | Ok _ => ([sent; SvAck d (se_ack env)], wrap_err "broker0: acknowledge snapshot request" (se_ack env))
          end
      end
  end.

(** [Run] over the requests received, until one makes it return. *)
Fixpoint server_Run (script : list (ServerEnv * SnapshotRequestDelivery)) : list server_event * gerr :=
  match script with
  | [] => ([], nil_err)
  | (env, d) :: rest =>
      let '(l, r) := serve env d in
      match r with
      | Err e => (l, Err e)
      | Ok _ => let '(l', r) := server_Run rest in (l ++ l', r)
      end
  end.
End Server.
