(* ===== verification/Broker0CommandTheorems.v ===== *)
(** * Theorems on commands, publications and snapshot requests *)

From S2P Require Import Prelude Customer Outbox Snapshot Messages Naming ControllerTypes Controller Wire WireTheorems OperationStore OperationStoreTheorems Broker0 Broker0Inbox Broker0Theorems Broker0Command.
From Stdlib Require Import ZArith Lia.
From stdpp Require Import base gmap strings numbers option list.
#[local] Open Scope Z_scope.

(** ** Commands *)
Section Commands.
Context {net_url : NetURL} {time_text : TimeText}.
Context {S P : Type} {store_ops : OperationStore S} {store_laws : OperationStoreLaws S}.
Context {publisher_ops : AcknowledgementPublisher P} (h : CommandHandler).
Implicit Types (p : Participant S P) (d : Delivery).

(** The command is for this participant. *)
Record assigned (command : CommandEnvelope) : Prop := {
  as_valid : command_Validate command = nil_err;
  as_namespace : ce_Namespace command = h_Namespace h;
  as_participant : ce_Participant command = h_Participant h;
  as_role : ce_Role command = h_Role h;
  as_group : ce_Group command ∈ h_Groups h;
}.

(** The command was executed before its deadline. *)
Definition executes (command : CommandEnvelope) (e : command_event) (r : gerr) : Prop :=
  assigned command /\ exists t, t <= ce_Deadline command /\ e = CvExecute command t r.

(** The acknowledgement that is published for it. *)
Definition acknowledges (command : CommandEnvelope) (e : command_event) (r : gerr) : Prop :=
  exists t, e = CvPublish (command_acknowledgement command t) r /\
    ValidateForCommand (command_acknowledgement command t) command = nil_err.

Inductive command_outcome (env : CommandEnv) d p : Participant S P * handled -> Prop :=
| co_refused e : command_outcome env d p (p, Terminal e)
| co_unchecked e : command_outcome env d p (p, Transient e)
| co_completed op r :
    holds (pa_operations p) (ce_now (cv_contains env)) op = true ->
    command_outcome env d p (pa_emit (CvAck d op (cv_ack env)) p, r)
| co_unexecuted command ev r e :
    holds (pa_operations p) (ce_now (cv_contains env)) (ce_MessageID command) = false ->
    executes command ev r -> command_outcome env d p (pa_emit ev p, Transient e)
| co_unpublished command ev ev' q e e' :
    holds (pa_operations p) (ce_now (cv_contains env)) (ce_MessageID command) = false ->
    executes command ev nil_err -> acknowledges command ev' (Err e) ->
    command_outcome env d p (pa_emit ev' (pa_emit ev p <| pa_publisher := q |>), Transient e')
| co_unrecorded command ev ev' q s' e e' :
    holds (pa_operations p) (ce_now (cv_contains env)) (ce_MessageID command) = false ->
    executes command ev nil_err -> acknowledges command ev' nil_err ->
    RecordOp (cv_record env) (pa_operations p) (ce_MessageID command) = (s', Err e) ->
    command_outcome env d p
      (pa_emit (CvRecord (ce_MessageID command) (Err e))
        (pa_emit ev' (pa_emit ev p <| pa_publisher := q |>) <| pa_operations := s' |>), Transient e')
| co_done command ev ev' q s' r :
    holds (pa_operations p) (ce_now (cv_contains env)) (ce_MessageID command) = false ->
    executes command ev nil_err -> acknowledges command ev' nil_err ->
    RecordOp (cv_record env) (pa_operations p) (ce_MessageID command) = (s', nil_err) ->
    command_outcome env d p
      (pa_emit (CvAck d (ce_MessageID command) (cv_ack env)) (pa_emit (CvRecord (ce_MessageID command) nil_err)
        (pa_emit ev' (pa_emit ev p <| pa_publisher := q |>) <| pa_operations := s' |>)), r).

Lemma handle_command_outcome env d command p :
  assigned command -> command_outcome env d p (handle_command env d command p).
Proof.
  intros Ha. unfold handle_command.
  destruct (Contains _ _ _) as [[]|e] eqn:Hc; [| |constructor].
  { constructor. by rewrite <- (Contains_holds _ _ _ _ Hc). }
  apply Contains_holds in Hc. symmetry in Hc. unfold time_After.
  destruct (Z.ltb_spec (ce_Deadline command) (cv_now env)) as [|Hdl]; [constructor|].
  assert (Hex : forall r, executes command (CvExecute command (cv_now env) r) r).
  { intros r. split; [done|]. by eexists. }
  destruct (cv_execute env command) as [[]|e]; [|by eapply co_unexecuted].
  destruct (ValidateForCommand _ _) as [[]|e] eqn:Hv; [|by eapply co_unexecuted].
  assert (Hpub : forall r, acknowledges command (CvPublish (command_acknowledgement command (cv_now_after env)) r) r).
  { intros r. by eexists. }
  destruct (ap_publish _ _ _) as [q [[]|e]]; [|by eapply co_unpublished].
  destruct (RecordOp _ _ _) as [s' [[]|e]] eqn:Hr; [by eapply co_done|by eapply co_unrecorded].
Qed.

Lemma command_Handle_outcome env d p : command_outcome env d p (command_Handle h env (Some d) p).
Proof.
  unfold command_Handle. destruct (bool_decide _); [|constructor]. cbn [negb].
  destruct (parseMessage _ _ _) as [message|e] eqn:Hp; [|constructor].
  apply parseMessage_parsed in Hp as [_ Hp].
  destruct (m_Command message) as [command|] eqn:Hm; [|constructor].
  assert (Hv : command_Validate command = nil_err) by (destruct Hp; cbn in Hm; by simplify_eq).
  unfold str_eqb. destruct (bool_decide_reflect (ce_Namespace command = h_Namespace h)); [|constructor].
  destruct (bool_decide_reflect (ce_Participant command = h_Participant h)); [|constructor].
  destruct (bool_decide_reflect (ce_Role command = h_Role h)); [|constructor]. cbn [negb orb].
  destruct (bool_decide_reflect (ce_Group command ∈ h_Groups h)); [|constructor]. cbn [negb].
  by apply handle_command_outcome.
Qed.

(** *** Runs *)
Section RunInvariant.
Context (I : Participant S P -> Prop).
Context (Hhandle : forall env d p, I p -> I (fst (command_Handle h env (Some d) p))).
Context (Hemit : forall e p, (forall c t r, e <> CvExecute c t r) -> (forall d o r, e <> CvAck d o r) ->
  I p -> I (pa_emit e p)).

Lemma run_command_invariant attempts backoff (d : option Delivery) p :
  I p -> I (fst (run_command h attempts backoff d p)).
Proof.
  revert backoff p. induction attempts as [|a attempts IH]; intros backoff p Hp; [done|]. cbn [run_command].
  assert (Hh : I (fst (command_Handle h (ca_handle a) d p))) by (destruct d; [by apply Hhandle|done]).
  destruct (command_Handle _ _ _ _) as [q [|e|e]]; cbn [fst] in Hh.
  - done.
  - destruct d as [d|]; [|done]. case_match; [done|]. case_match; cbn [fst]; by apply Hemit.
  - case_match; [done|]. destruct (ca_timer a); [|done]. by apply IH, Hemit.
Qed.

Lemma command_Run_invariant script p : I p -> I (fst (command_Run h script p)).
Proof.
  revert p. induction script as [|r script IH]; intros p Hp; [done|]. cbn [command_Run].
  destruct (cr_delivery r) as [d|e]; [|done].
  pose proof (run_command_invariant (cr_attempts r) initial_backoff d p Hp) as Hd.
  destruct (run_command _ _ _ _ _) as [j []]; cbn [fst] in Hd; auto.
Qed.
End RunInvariant.

(** The command was complete at the start, or it was executed, acknowledged and
    recorded, in this order. *)
Definition command_justified (s0 : S) (tr : list command_event) (op : string) : Prop :=
  (exists t, holds s0 t op = true) \/
  (exists command ev ev' pre post, ce_MessageID command = op /\
    tr = pre ++ ev :: ev' :: CvRecord op nil_err :: post /\
    executes command ev nil_err /\ acknowledges command ev' nil_err).

Record command_inv (s0 : S) p : Prop := {
  ci_acks : forall pre d op r post, pa_trace p = pre ++ CvAck d op r :: post -> command_justified s0 pre op;
  ci_executed : forall command t r, CvExecute command t r ∈ pa_trace p ->
    assigned command /\ t <= ce_Deadline command;
  ci_store : forall t op, holds (pa_operations p) t op = true -> command_justified s0 (pa_trace p) op;
}.

Lemma command_justified_snoc s0 tr e op : command_justified s0 tr op -> command_justified s0 (tr ++ [e]) op.
Proof.
  intros [H|(c & ev & ev' & pre & post & Hop & -> & H)]; [by left|]. right.
  exists c, ev, ev', pre, (post ++ [e]). by rewrite <- app_assoc.
Qed.

Lemma snoc_split {A} (tr : list A) e pre x post :
  tr ++ [e] = pre ++ x :: post ->
  (post = [] /\ tr = pre /\ e = x) \/ exists post', post = post' ++ [e] /\ tr = pre ++ x :: post'.
Proof.
  destruct post as [|y post _] using rev_ind; intros Heq.
  - left. by apply app_inj_tail in Heq as [-> ->].
  - right. rewrite app_comm_cons, app_assoc in Heq. apply app_inj_tail in Heq as [-> ->]. eauto.
Qed.

Lemma command_inv_emit s0 p e :
  command_inv s0 p ->
  (forall d op r, e = CvAck d op r -> command_justified s0 (pa_trace p) op) ->
  (forall c t r, e = CvExecute c t r -> assigned c /\ t <= ce_Deadline c) ->
  command_inv s0 (pa_emit e p).
Proof.
  intros [Ha He Hs] Hack Hex. split; cbn.
  - intros pre d op r post [(_ & <- & ->)|(post' & _ & Heq)]%snoc_split; eauto.
  - intros c t r [Hin|Heq%list_elem_of_singleton]%elem_of_app; eauto.
  - eauto using command_justified_snoc.
Qed.

Lemma command_inv_publisher s0 p q : command_inv s0 p -> command_inv s0 (p <| pa_publisher := q |>).
Proof. intros [? ? ?]. by split. Qed.

Lemma command_inv_executed s0 p command ev r :
  command_inv s0 p -> executes command ev r -> command_inv s0 (pa_emit ev p).
Proof.
  intros Hp [Has (t & Hle & ->)]. apply command_inv_emit; [done|done|]. by intros c t' r' [= <- <- <-].
Qed.

Lemma command_inv_published s0 p command ev r q :
  command_inv s0 p -> acknowledges command ev r -> command_inv s0 (pa_emit ev (p <| pa_publisher := q |>)).
Proof. intros Hp (t & -> & _). apply command_inv_emit; [by apply command_inv_publisher|done|done]. Qed.

Lemma command_inv_Handle s0 env d p :
  command_inv s0 p -> command_inv s0 (fst (command_Handle h env (Some d) p)).
Proof.
  intros Hp. destruct (command_Handle_outcome env d p) as
    [e|e|op r Hin|c ev r e Hno Hex|c ev ev' q e e' Hno Hex Hpub|c ev ev' q s' e e' Hno Hex Hpub Hr
    |c ev ev' q s' r Hno Hex Hpub Hr]; cbn [fst]; [done|done| | | | |].
  - apply command_inv_emit; [done| |done]. intros d' op' r' [= <- <- <-]. by eapply ci_store.
  - eauto using command_inv_executed.
  - eauto using command_inv_executed, command_inv_published.
  - apply command_inv_emit; [|done|done].
    pose proof (command_inv_published s0 _ c ev' _ q (command_inv_executed _ _ _ _ _ Hp Hex) Hpub) as [Ha He Hs].
    split; [done..|]. cbn. intros t o. rewrite (RecordOp_failed _ _ _ _ _ t o Hr). apply Hs.
  - pose proof (command_inv_published s0 _ c ev' _ q (command_inv_executed _ _ _ _ _ Hp Hex) Hpub) as [Ha He Hs].
    assert (Hj : command_justified s0 ((pa_trace p ++ [ev]) ++ [ev'; CvRecord (ce_MessageID c) nil_err]) (ce_MessageID c)).
    { right. exists c, ev, ev', (pa_trace p), []. by rewrite <- app_assoc. }
    apply command_inv_emit; [|intros d' op' r' [= <- <- <-]; cbn; by rewrite <- app_assoc|done].
    split; cbn.
    + intros pre d' op r' post [(_ & <- & ?)|(post' & _ & Heq)]%snoc_split; [done|by eapply Ha].
    + intros c' t' r' [Hin|Heq%list_elem_of_singleton]%elem_of_app; [by eapply He|done].
    + intros t o Ho. destruct (decide (o = ce_MessageID c)) as [->|Hne]; [by rewrite <- app_assoc|].
      apply command_justified_snoc, (Hs t o). cbn. by eapply RecordOp_only.
Qed.

(** C23: a participant settles a command only when it was already complete, or
    after it was executed locally, its acknowledgement, which matches the
    command, was accepted by the broker, and the command was recorded.  Every
    command it executes is valid, addressed to it in an assigned group, and not
    past its deadline. *)
Theorem commands_settle_in_order script p p' outcome :
  pa_trace p = [] -> command_Run h script p = (p', outcome) ->
  (forall pre d op r post, pa_trace p' = pre ++ CvAck d op r :: post ->
     (exists t, holds (pa_operations p) t op = true) \/
     (exists command ev ev' a b, ce_MessageID command = op /\
        pre = a ++ ev :: ev' :: CvRecord op nil_err :: b /\
        executes command ev nil_err /\ acknowledges command ev' nil_err)) /\
  (forall command t r, CvExecute command t r ∈ pa_trace p' ->
     assigned command /\ t <= ce_Deadline command).
Proof.
  intros Ht Hrun. assert (Hp : command_inv (pa_operations p) p).
  { split; [|rewrite Ht; by intros c t r Hin%not_elem_of_nil|left; eauto].
    rewrite Ht. intros a ? ? ? ? Heq. by destruct a. }
  assert (Hp' : command_inv (pa_operations p) (fst (command_Run h script p))).
  { apply command_Run_invariant; [eauto using command_inv_Handle| |done].
    intros e q Hex Hack Hq. apply command_inv_emit; [done| |].
    - intros d op r ->. by destruct (Hack d op r).
    - intros c t r ->. by destruct (Hex c t r). }
  rewrite Hrun in Hp'. destruct Hp' as [Ha He _]. split; [apply Ha|apply He].
Qed.
End Commands.

(** *** Long command identifiers *)
Lemma length_append (s t : string) : String.length (s +:+ t) = (String.length s + String.length t)%nat.
Proof. induction s as [|c s IH]; [done|]. cbn. by rewrite <- IH. Qed.

Lemma long_identifier_refused {net_url : NetURL} v : maxIdentifierBytes < len v -> is_ok (validateIdentifier v) = false.
Proof.
  intros H. unfold validateIdentifier, fail_if. destruct (Z.ltb_spec maxIdentifierBytes (len v)); [|lia].
  by rewrite orb_true_r.
Qed.

Lemma long_acknowledgement_refused {net_url : NetURL} command t :
  1020 < len (ce_MessageID command) ->
  is_ok (ValidateForCommand (command_acknowledgement command t) command) = false.
Proof.
  intros Hlen. unfold ValidateForCommand, ack_Validate, validateEnvelopeScope. cbn [command_acknowledgement
    ae_Version ae_MessageID ae_Group ae_Participant]. cbn [for_each].
  destruct (fail_if _ _); [|done]. pose proof (long_identifier_refused (ce_MessageID command +:+ "/ack")%string) as H.
  destruct (validateIdentifier _); [|done]. discriminate H.
  unfold len, maxIdentifierBytes in *. rewrite length_append. cbn. lia.
Qed.

Section LongIdentifiers.
Context {net_url : NetURL} {time_text : TimeText}.
Context {S P : Type} {store_ops : OperationStore S} {publisher_ops : AcknowledgementPublisher P}.

(** An acknowledgement takes its identifier from the command's, with
    ["/ack"] appended, so a command whose identifier is longer than 1020 bytes,
    though valid up to 1024, is executed but never acknowledged: each attempt
    executes it again and fails as if the failure were transient. *)
Theorem long_command_never_acknowledged env d command (p : Participant S P) :
  1020 < len (ce_MessageID command) ->
  Contains (cv_contains env) (pa_operations p) (ce_MessageID command) = Ok false ->
  cv_now env <= ce_Deadline command -> cv_execute env command = nil_err ->
  exists e, handle_command env d command p
            = (pa_emit (CvExecute command (cv_now env) nil_err) p, Transient e).
Proof.
  intros Hlen Hc Hd Hx. unfold handle_command, time_After. rewrite Hc, Hx.
  destruct (Z.ltb_spec (ce_Deadline command) (cv_now env)); [lia|].
  pose proof (long_acknowledgement_refused command (cv_now_after env) Hlen) as Hv.
  destruct (ValidateForCommand _ _); [done|]. by eexists.
Qed.
End LongIdentifiers.

(** ** Publications *)
Section Publications.
Context {sha : Sha256} {net_url : NetURL} {time_text : TimeText}.
Context {S : Type} {store_ops : OperationStore S} {store_laws : OperationStoreLaws S}.
Implicit Types (p : ControlPublisher S).

(** The calls of the publisher's interface. *)
Inductive publisher_call : Type :=
| CallUpdate (u : ControlUpdate)
| CallSnapshotOperation (operationID : string) (s : MembershipSnapshot)
| CallSnapshotTo (destination operationID : string) (s : MembershipSnapshot)
| CallSnapshot (s : MembershipSnapshot)
| CallRegistration (e : RegistrationEnvelope)
| CallCommand (e : CommandEnvelope)
| CallAcknowledgement (e : AcknowledgementEnvelope)
| CallTelemetry (e : TelemetryEnvelope).

Definition exec_call (env : PublishEnv) (c : publisher_call) p : ControlPublisher S * gerr :=
  match c with
  | CallUpdate u => Publish_update env u p
  | CallSnapshotOperation op s => PublishSnapshotOperation env op s p
  | CallSnapshotTo destination op s => PublishSnapshotTo env destination op s p
  | CallSnapshot s => PublishSnapshot env s p
  | CallRegistration e => PublishRegistration env e p
  | CallCommand e => PublishCommand env e p
  | CallAcknowledgement e => PublishAcknowledgement env e p
  | CallTelemetry e => PublishTelemetry env e p
  end.

(** The operation a call stands for. *)
Definition call_operation (c : publisher_call) : string :=
  match c with
  | CallUpdate u => cu_OperationID u
  | CallSnapshotOperation op _ | CallSnapshotTo _ op _ => op
  | CallSnapshot s => snapshot_operation s
  | CallRegistration e => re_MessageID e
  | CallCommand e => ce_MessageID e
  | CallAcknowledgement e => ae_MessageID e
  | CallTelemetry e => te_MessageID e
  end.

Inductive publish_outcome (env : PublishEnv) (op : string) p : ControlPublisher S * gerr -> Prop :=
| po_refused e : publish_outcome env op p (p, Err e)
| po_completed : holds (cp_operations p) (ce_now (pe_contains env)) op = true ->
    publish_outcome env op p (p, nil_err)
| po_unpublished publication e e' :
    holds (cp_operations p) (ce_now (pe_contains env)) op = false ->
    pub_OperationID publication = op -> pub_Destination publication <> ""%string ->
    publish_outcome env op p (p <| cp_published := cp_published p ++ [(publication, Err e)] |>, Err e')
| po_published publication s' r :
    holds (cp_operations p) (ce_now (pe_contains env)) op = false ->
    pub_OperationID publication = op -> pub_Destination publication <> ""%string ->
    RecordOp (pe_record env) (cp_operations p) op = (s', r) ->
    publish_outcome env op p
      (p <| cp_published := cp_published p ++ [(publication, nil_err)] |> <| cp_operations := s' |>,
       wrap_err "broker0: record published operation" r).

Lemma publishLocked_outcome env kind destination op data p :
  holds (cp_operations p) (ce_now (pe_contains env)) op = false -> str_empty destination = false ->
  publish_outcome env op p (publishLocked env kind destination op data p).
Proof.
  intros Hno Hd. unfold publishLocked.
  assert (destination <> ""%string) by (intros ->; done).
  destruct (pe_native env _) as [[]|e]; [|by constructor].
  destruct (RecordOp _ _ _) as [s' r] eqn:Hr. by constructor.
Qed.

Lemma unless_completed_outcome env op k p :
  (holds (cp_operations p) (ce_now (pe_contains env)) op = false -> publish_outcome env op p (k p)) ->
  publish_outcome env op p (unless_completed env op k p).
Proof.
  intros Hk. unfold unless_completed. destruct (pe_ctx env); [|constructor].
  destruct (Contains _ _ _) as [[]|e] eqn:Hc; [| |constructor].
  - constructor. by rewrite <- (Contains_holds _ _ _ _ Hc).
  - apply Hk. by rewrite <- (Contains_holds _ _ _ _ Hc).
Qed.

Lemma publishTo_outcome env kind destination op data p :
  publish_outcome env op p (publishTo env kind destination op data p).
Proof.
  apply unless_completed_outcome. intros Hno.
  destruct (str_empty destination) eqn:Hd; [constructor|]. by apply publishLocked_outcome.
Qed.

Lemma publish_outcome_ok env kind group op data p :
  publish_outcome env op p (publish env kind group op data p).
Proof.
  apply unless_completed_outcome. intros Hno. destruct (rs_destination _ _ _) as [destination|]; [|constructor].
  destruct (str_empty destination) eqn:Hd; [constructor|]. by apply publishLocked_outcome.
Qed.

Lemma publish_scoped_outcome env kind op data destination p :
  publish_outcome env op p (publish_scoped env kind op data destination p).
Proof. unfold publish_scoped. destruct data, destination; auto using publishTo_outcome, po_refused. Qed.

Lemma publishSnapshot_outcome env op s p : publish_outcome env op p (publishSnapshot env op s p).
Proof. unfold publishSnapshot. destruct (encodeMembershipSnapshot s); auto using publish_outcome_ok, po_refused. Qed.

Lemma exec_call_outcome env c p : publish_outcome env (call_operation c) p (exec_call env c p).
Proof.
  destruct c; cbn [exec_call call_operation]; try apply publish_scoped_outcome.
  - unfold Publish_update. case_match; [constructor|apply publishSnapshot_outcome].
  - apply publishSnapshot_outcome.
  - unfold PublishSnapshotTo. destruct (encodeMembershipSnapshot s); auto using publishTo_outcome, po_refused.
  - apply publishSnapshot_outcome.
Qed.

Definition exec_calls (calls : list (PublishEnv * publisher_call)) p : ControlPublisher S :=
  foldl (fun p '(env, c) => fst (exec_call env c p)) p calls.

(** A call of the publisher that returns without error leaves its operation
    recorded, with the broker having accepted it now or at an earlier call; and
    a recorded operation is not sent to the broker again while its record lasts,
    whatever other calls are made. *)
Theorem publications_recorded_once T op calls p :
  holds (cp_operations p) T op = true ->
  Forall (fun ec => ce_now (pe_contains (fst ec)) <= T /\ ce_now (pe_record (fst ec)) <= T) calls ->
  (forall publication r, (publication, r) ∈ cp_published (exec_calls calls p) ->
     pub_OperationID publication = op -> (publication, r) ∈ cp_published p) /\
  (forall env c p', store_ok (cp_operations p) -> exec_call env c p = (p', nil_err) ->
     holds (cp_operations p') (ce_now (pe_record env)) (call_operation c) = true \/
     holds (cp_operations p) (ce_now (pe_contains env)) (call_operation c) = true).
Proof.
  intros Hin Hclock. split.
  - revert p Hin. induction Hclock as [|[env c] calls [Hc Hr] Hclock IH]; intros p Hin publication r H Hop; [done|].
    cbn [exec_calls foldl] in H. cbn in Hc, Hr. fold (exec_calls calls (fst (exec_call env c p))) in H.
    pose proof (exec_call_outcome env c p) as Ho. destruct (exec_call env c p) as [p' r'].
    inversion Ho as [e|Hh|q e e' Hno Hq Hd|q s' r1 Hno Hq Hd Hrec]; subst; cbn [fst] in H.
    + by eapply IH.
    + by eapply IH.
    + apply IH in H; [|done|done]. cbn in H. apply elem_of_app in H as [H|H%list_elem_of_singleton]; [done|].
      injection H as -> ->. pose proof (holds_mono _ _ _ _ Hc Hin). congruence.
    + apply IH in H; [|by eapply RecordOp_keeps|done]. cbn in H.
      apply elem_of_app in H as [H|H%list_elem_of_singleton]; [done|].
      injection H as -> ->. pose proof (holds_mono _ _ _ _ Hc Hin). congruence.
  - intros env c p' Hok H. pose proof (exec_call_outcome env c p) as Ho. rewrite H in Ho.
    inversion Ho as [e|Hh|q e e' Hno Hq Hd|q s' r1 Hno Hq Hd Hrec]; subst; [by right|].
    left. destruct r1 as [[]|e]; [|done]. cbn. by eapply RecordOp_holds.
Qed.
End Publications.

(** ** Snapshot requests *)
Section Server.
Context {net_url : NetURL}.

(** The response goes to the principal that asked, at its own reply address,
    with its authorized group's current snapshot. *)
Record answered (env : ServerEnv) (d : SnapshotRequestDelivery) (replyTo correlationID : string)
    (response : SnapshotResponse) : Prop := {
  an_principal : sd_Participant d = Some (sp_Participant response);
  an_participant : sr_Participant (sd_Request d) = sp_Participant response;
  an_authorized : se_authorize env (sd_Request d) (sp_Participant response) = nil_err;
  an_reply : se_reply env (sd_Request d) = Ok replyTo;
  an_correlation : correlationID = sr_CorrelationID (sd_Request d) /\ correlationID = sd_CorrelationID d;
  an_snapshot : se_source env (sr_Group (sd_Request d)) = Some (sp_Snapshot response);
  an_valid : ValidateFor response (sd_Request d) = nil_err;
}.

Lemma serve_events env d l r :
  serve env d = (l, r) ->
  (l = [SvReject d (se_reject env)]) \/ (l = [] /\ r <> nil_err) \/
  (exists response, answered env d (sd_ReplyTo d) (sr_CorrelationID (sd_Request d)) response /\
    ((exists e, l = [SvRespond (sd_ReplyTo d) (sr_CorrelationID (sd_Request d)) response (Err e)] /\ r <> nil_err) \/
     l = [SvRespond (sd_ReplyTo d) (sr_CorrelationID (sd_Request d)) response nil_err; SvAck d (se_ack env)])).
Proof.
  unfold serve, trusted_request, reject_request.
  destruct (sd_Participant d) as [principal|] eqn:Hp; [|intros [= <- <-]; by left].
  destruct (se_reply env (sd_Request d)) as [expected|] eqn:Hre; [|intros [= <- <-]; by left].
  unfold str_eqb. destruct (bool_decide_reflect (principal = sr_Participant (sd_Request d))) as [->|];
    [|intros [= <- <-]; by left].
  destruct (bool_decide_reflect (sd_CorrelationID d = sr_CorrelationID (sd_Request d))) as [Hc|];
    [|intros [= <- <-]; by left].
  destruct (bool_decide_reflect (sd_ReplyTo d = expected)) as [<-|]; [|intros [= <- <-]; by left].
  cbn [andb negb]. destruct (request_Validate _) as [[]|]; [|intros [= <- <-]; by left]. cbn [default from_option id].
  destruct (se_authorize env _ _) as [[]|] eqn:Hau; [|intros [= <- <-]; by left]. cbn [is_ok negb orb].
  destruct (se_source env _) as [snapshot|] eqn:Hso; [|intros [= <- <-]; by left].
  destruct (ValidateFor _ _) as [[]|] eqn:Hva; [|intros [= <- <-]; right; left; done].
  intros H. right. right. exists (response_to (sd_Request d) snapshot). split; [by split; cbn|].
  destruct (se_publish env) as [[]|e]; injection H as <- <-; [by right|left; by eexists].
Qed.

(** Through any run of the snapshot server, every response is sent to the
    authenticated principal that asked for it, at the reply address of that
    request, with an authorized and valid current snapshot of the group; and a
    request is acknowledged only right after its response was accepted. *)
Theorem server_answers_only_principals script l r :
  server_Run script = (l, r) ->
  (forall replyTo correlationID response o, SvRespond replyTo correlationID response o ∈ l ->
     exists env d, (env, d) ∈ script /\ answered env d replyTo correlationID response) /\
  (forall pre d o post, l = pre ++ SvAck d o :: post ->
     exists pre' replyTo correlationID response,
       pre = pre' ++ [SvRespond replyTo correlationID response nil_err] /\
       exists env, (env, d) ∈ script /\ answered env d replyTo correlationID response).
Proof.
  revert l r. induction script as [|[env d] script IH]; intros l r H.
  { injection H as <- <-. split; [by intros ? ? ? ? ?%not_elem_of_nil|]. intros [|] ? ? ? ?; done. }
  cbn [server_Run] in H. destruct (serve env d) as [l1 r1] eqn:Hs.
  assert (H1 : (forall a b response o, SvRespond a b response o ∈ l1 -> answered env d a b response) /\
    (forall pre d' o post, l1 = pre ++ SvAck d' o :: post -> d' = d /\ post = [] /\ exists a b response,
       pre = [SvRespond a b response nil_err] /\ answered env d a b response)).
  { apply serve_events in Hs as [->|[[-> _]|(response & Ha & [(e & -> & _)| ->])]]; (split;
      [set_solver|intros [|? [|? [|]]] ? ? ? Heq; cbn in Heq; simplify_eq]). eauto 10. }
  destruct H1 as [Hresp Hack]. destruct r1 as [[]|e].
  - destruct (server_Run script) as [l2 r2] eqn:Hrun. injection H as <- <-.
    destruct (IH l2 r2 eq_refl) as [IHr IHa]. split.
    + intros a b response o [Hin|Hin]%elem_of_app.
      * exists env, d. split; [left|eauto].
      * destruct (IHr _ _ _ _ Hin) as (env' & d' & ? & ?). exists env', d'. split; [by right|done].
    + intros pre d' o post Heq. apply app_eq_app in Heq as (k & [[-> Hl2]|[-> Hl1]]).
      * destruct k as [|x k].
        { destruct (IHa [] d' o post) as (pre' & ? & ? & ? & Hnil & _); [done|].
          by destruct pre'. }
        cbn in Hl2. injection Hl2 as <- ->. destruct (Hack pre d' o k eq_refl) as (-> & _ & a & b & response & -> & Ha).
        exists [], a, b, response. split; [done|]. exists env. split; [left|done].
      * destruct (IHa k d' o post) as (pre' & a & b & response & -> & env' & Hin & Ha); [done|].
        exists (l1 ++ pre'), a, b, response. rewrite app_assoc. split; [done|]. exists env'. split; [by right|done].
  - injection H as <- <-. split.
    + intros a b response o Hin. exists env, d. split; [left|eauto].
    + intros pre d' o post Heq. destruct (Hack pre d' o post Heq) as (-> & -> & a & b & response & -> & Ha).
      exists [], a, b, response. split; [done|]. exists env. split; [left|done].
Qed.
End Server.

(** ** Binding command queues *)
Section Binding.
Context (env : BindEnv) (order : gmap string nat -> list (string * nat)).
Context (Horder : forall m, order m ≡ₚ map_to_list m).
Context (participant : string) (role : ParticipantRole).

(** Every receiver that was bound is held for its group, and none is closed. *)
Record bound_so_far (groups : list string) (s : Binding_state) : Prop := {
  bf_held : forall n q, BvBind n q ∈ bs_trace s -> bs_inboxes s !! pq_Group q = Some n /\ pq_Group q ∈ groups;
  bf_open : forall n, BvClose n ∉ bs_trace s;
  bf_groups : forall g, g ∈ groups -> is_Some (bs_inboxes s !! g);
}.

Lemma bind_groups_ok groups before s s' r :
  NoDup (before ++ groups) -> bound_so_far before s ->
  bind_groups env order participant role groups s = (s', r) ->
  match r with
  | Ok _ => bound_so_far (before ++ groups) s'
  | Err _ => forall n q, BvBind n q ∈ bs_trace s' -> BvClose n ∈ bs_trace s'
  end.
Proof.
  revert before s. induction groups as [|g groups IH]; intros before s Hnd Hs H; cbn in H.
  { injection H as <- <-. by rewrite app_nil_r. }
  assert (Hclose : forall n q, BvBind n q ∈ bs_trace (closeAll order s) -> BvClose n ∈ bs_trace (closeAll order s)).
  { cbn. intros n q [Hin|Hin]%elem_of_app; [|by apply list_elem_of_fmap in Hin as ([] & ? & _)].
    apply elem_of_app. right. apply list_elem_of_fmap. exists (pq_Group q, n). split; [done|].
    rewrite Horder. apply elem_of_map_to_list. by apply (bf_held _ _ Hs). }
  unfold bind_group_inbox in H. destruct (bv_queue env g role participant) as [queue|]; [|by injection H as <- <-].
  destruct (str_empty queue); [by injection H as <- <-|].
  destruct (bv_bind env _) as [[]|]; [|by injection H as <- <-].
  assert (Hg : g ∉ before) by (apply NoDup_app in Hnd as (_ & Hd & _); intros Hin; apply (Hd g Hin); left).
  specialize (IH (before ++ [g])). rewrite <- app_assoc in IH. apply (IH _ Hnd) in H; [done|].
  destruct Hs as [Hheld Hopen Hgr]. split; cbn.
  - intros n q [Hin|Heq%list_elem_of_singleton]%elem_of_app; [|injection Heq as -> ->]; cbn.
    + destruct (Hheld n q Hin). rewrite lookup_insert_ne by (intros ->; contradiction). set_solver.
    + rewrite lookup_insert_eq. set_solver.
  - intros n [Hin|?%list_elem_of_singleton]%elem_of_app; [by eapply Hopen|done].
  - intros g' [Hin|Heq%list_elem_of_singleton]%elem_of_app; [|subst; by rewrite lookup_insert_eq].
    rewrite lookup_insert_is_Some. destruct (decide (g = g')); [by left|right]. auto.
Qed.

(** When binding the command queues of distinct groups fails, every receiver
    bound before is closed; when it succeeds, every group has its own open
    receiver. *)
Theorem binding_never_leaks groups s r :
  NoDup groups -> BindCommandInboxes env order participant role groups = (s, r) ->
  match r with
  | Ok _ => bound_so_far groups s
  | Err _ => forall n q, BvBind n q ∈ bs_trace s -> BvClose n ∈ bs_trace s
  end.
Proof.
  intros Hnd H. apply (bind_groups_ok groups [] _ _ _ Hnd) in H; [done|].
  split; cbn; [by intros n q ?%not_elem_of_nil|by intros n ?%not_elem_of_nil|by intros g ?%not_elem_of_nil].
Qed.
End Binding.
