(* ===== verification/Orchestrator.v ===== *)
(** * The group orchestrator (broker0/orchestrator.go)

    [GroupOrchestrator.Run] follows one group's membership for a participant: it
    subscribes to updates, requests a full snapshot, reconciles the two and hands
    each new state to the local applier.  Its goroutine waits in one [select];
    each case is a step of [orchestrate], and a run is any sequence of cases
    that are enabled.  The goroutine of a request only sends the answer, so a
    request is its sending and, later, its result. *)

From S2P Require Import Prelude Outbox Snapshot Messages Reconciler ControllerTypes Controller Wire OperationStore Broker0.
From Stdlib Require Import ZArith Lia.
From stdpp Require Import base gmap strings numbers option list.
#[local] Open Scope Z_scope.

Definition ErrNoAuthoritativeState : gerror := ErrNew "broker0: no authoritative membership state".
Definition ErrMembershipStale : gerror := ErrNew "broker0: authoritative membership is stale".

(** ** Options *)
Record OrchestratorOptions := mkOrchestratorOptions {
  oo_Namespace : string;
  oo_Group : string;
  oo_Participant : string;
  oo_Role : ParticipantRole;
  oo_RefreshInterval : Duration;
  oo_MaxStaleness : Duration;
  oo_RequestTimeout : Duration;
  oo_RetryInitial : Duration;
  oo_RetryMaximum : Duration;
}.
#[export] Instance eta_OrchestratorOptions : Eta OrchestratorOptions := fun o =>
  mkOrchestratorOptions (oo_Namespace o) (oo_Group o) (oo_Participant o) (oo_Role o)
    (oo_RefreshInterval o) (oo_MaxStaleness o) (oo_RequestTimeout o) (oo_RetryInitial o)
    (oo_RetryMaximum o).

Definition positive_or (d default : Duration) : Duration := if d <=? 0 then default else d.

Definition orchestrator_withDefaults (o : OrchestratorOptions) : OrchestratorOptions :=
  o <| oo_RefreshInterval := positive_or (oo_RefreshInterval o) Minute |>
    <| oo_MaxStaleness := positive_or (oo_MaxStaleness o) (5 * Minute) |>
    <| oo_RequestTimeout := positive_or (oo_RequestTimeout o) (10 * Second) |>
    <| oo_RetryInitial := positive_or (oo_RetryInitial o) 250000000 |>
    <| oo_RetryMaximum := positive_or (oo_RetryMaximum o) (5 * Second) |>.

(** [given] is that no collaborator is nil. *)
Definition NewGroupOrchestrator (given : bool) (options : OrchestratorOptions)
    : result OrchestratorOptions :=
  let options := orchestrator_withDefaults options in
  fail_if (negb given)
    (ErrNew "broker0: subscriber, snapshot requester, applier, and operation store are required") ;;!
  for_each validateTransportIdentifier
    [oo_Namespace options; oo_Group options; oo_Participant options] ;;!
  role_Validate (oo_Role options) ;;!
  fail_if ((oo_MaxStaleness options <=? oo_RefreshInterval options) ||
           (oo_RetryMaximum options <? oo_RetryInitial options))
    (ErrNew "broker0: invalid refresh, staleness, or retry bounds") ;;!
  Ok options.

(** ** State *)
Record pendingDelivery := mkPending {
  pd_delivery : Delivery;
  pd_message : Message;
  pd_completed : bool;
}.

Inductive orch_event : Type :=
| OvRequest (r : SnapshotRequest)
| OvApply (m : Message) (r : gerr)
| OvFailClosed (cause : gerror) (r : gerr)
| OvRecord (operationID : string) (r : gerr)
| OvAck (d : Delivery) (operationID : string) (r : gerr).

(** One turn's environment: the clock and the fresh correlation identifier of a
    request, the applier, and the store's and the transport's answers to the
    [n]-th record and acknowledgement of the turn. *)
Record TurnEnv := mkTurnEnv {
  te_now : Time;
  te_correlation : string;
  te_contains : CallEnv;
  te_apply : Message -> gerr;
  te_failClosed : gerr;
  te_record : nat -> CallEnv;
  te_ack : nat -> gerr;
}.

(** The cases of the [select]. *)
Inductive turn : Type :=
| TurnContextDone (e : gerror)
| TurnRefresh
| TurnRetry
| TurnStale
| TurnReconnect
| TurnReconnectsClosed
| TurnSubscriptionError (e : option gerror)
| TurnErrorsClosed
| TurnDelivery (d : option Delivery)
| TurnDeliveriesClosed
| TurnResult (r : result SnapshotResponse).

Section Orchestrator.
Context {net_url : NetURL} {time_text : TimeText} {S : Type} {store_ops : OperationStore S}.
Context (options : OrchestratorOptions).

(** The fields of [GroupOrchestrator] behind its lock, the operation store, and
    the local variables of [Run]. *)
Record Orchestrator := mkOrchestrator {
  o_ready : bool;
  o_failed : bool;
  o_current : MembershipSnapshot;
  o_operations : S;
  l_reconciler : Reconciler;
  l_inflight : option SnapshotRequest;
  l_requestAgain : bool;
  l_retry : bool;
  l_retryDelay : Duration;
  l_pending : list pendingDelivery;
  l_ready : bool;
  l_reconnects : bool;
  l_errors : bool;
  o_trace : list orch_event;
}.
#[export] Instance eta_Orchestrator : Eta Orchestrator := fun o =>
  mkOrchestrator (o_ready o) (o_failed o) (o_current o) (o_operations o) (l_reconciler o)
    (l_inflight o) (l_requestAgain o) (l_retry o) (l_retryDelay o) (l_pending o) (l_ready o)
    (l_reconnects o) (l_errors o) (o_trace o).

(** [Snapshot]: what the participant may route by. *)
Definition orchestrator_Snapshot (o : Orchestrator) : option MembershipSnapshot :=
  if negb (o_ready o) || o_failed o then None else Some (o_current o).

Definition o_emit (e : orch_event) (o : Orchestrator) : Orchestrator :=
  o <| o_trace := o_trace o ++ [e] |>.

(** [fail]: routing is revoked, then the applier is told. *)
Definition orchestrator_fail (env : TurnEnv) (cause : gerror) (o : Orchestrator) : Orchestrator * option gerror :=
  let o := o_emit (OvFailClosed cause (te_failClosed env)) (o <| o_failed := true |>) in
  (o, Some (match te_failClosed env with Ok _ => cause | Err e => ErrWrap "joined" cause end)).

Definition orchestrator_apply (env : TurnEnv) (m : Message) (o : Orchestrator) : Orchestrator * gerr :=
  match m_Snapshot m with
  | None => (o, Err (ErrNew "broker0: cannot apply empty membership snapshot"))
  | Some snapshot =>
      let r := te_apply env m in
      let o := o_emit (OvApply m r) o in
      match r with
      | Err e => (o, Err e)
      | Ok _ => (o <| o_current := snapshot |> <| o_ready := true |> <| o_failed := false |>, nil_err)
      end
  end.

Definition ack_update (env : TurnEnv) (n : nat) (d : Delivery) (op : string) (o : Orchestrator)
    : Orchestrator * gerr :=
  (o_emit (OvAck d op (te_ack env n)) o, te_ack env n).

Definition complete_update (env : TurnEnv) (n : nat) (op : string) (d : Delivery) (o : Orchestrator)
    : Orchestrator * gerr :=
  let '(operations, r) := RecordOp (te_record env n) (o_operations o) op in
  let o := o_emit (OvRecord op r) (o <| o_operations := operations |>) in
  match r with
  | Err e => (o, Err e)
  | Ok _ => ack_update env n d op o
  end.

(** The closure [startRequest]. *)
Definition startRequest (env : TurnEnv) (o : Orchestrator) : Orchestrator :=
  match l_inflight o with
  | Some _ => o <| l_requestAgain := true |>
  | None =>
      let request := mkSnapshotRequest BootstrapProtocolVersion (te_correlation env)
        (oo_Namespace options) (oo_Group options) (oo_Participant options) (oo_Role options)
        (te_now env) in
      o_emit (OvRequest request) (o <| l_inflight := Some request |>)
  end.

(** [if requestAgain { requestAgain = false; startRequest() }]. *)
Definition start_again (env : TurnEnv) (o : Orchestrator) : Orchestrator :=
  if l_requestAgain o then startRequest env (o <| l_requestAgain := false |>) else o.

Definition isSuperseded (r : Reconciler) (update : MembershipSnapshot) (e : gerror) : bool :=
  errors_Is e ErrStaleUpdate &&
  match reconciler_Snapshot r with
  | Some current =>
      (ms_Revision update <? ms_Revision current) && (ms_Epoch update <=? ms_Epoch current)
  | None => false
  end.

Definition subscribed_reconciler : Reconciler := fst (BeginSubscribe NewReconciler).

(** A ready orchestrator meets a snapshot: the reconciler decides, and a new
    state is applied; [Some e] is the error that stops [Run]. *)
Definition reconcile_update (env : TurnEnv) (m : Message) (s : MembershipSnapshot) (o : Orchestrator)
    : Orchestrator * option gerror :=
  let '(reconciler, r) := ApplyUpdate (l_reconciler o) s in
  let o := o <| l_reconciler := reconciler |> in
  match r with
  | Err e => (o, if isSuperseded reconciler s e then None else Some e)
  | Ok false => (o, None)
  | Ok true =>
      match orchestrator_apply env m o with
      | (o, Err e) => (o, Some e)
      | (o, Ok _) => (o, None)
      end
  end.

Definition turn_reconnect (env : TurnEnv) (o : Orchestrator) : Orchestrator * option gerror :=
  let o := o <| o_failed := true |> <| l_ready := false |> <| l_reconciler := subscribed_reconciler |> in
  let o := o_emit (OvFailClosed ErrNoAuthoritativeState (te_failClosed env)) o in
  match te_failClosed env with
  | Err e => orchestrator_fail env e o
  | Ok _ => (startRequest env o, None)
  end.

Definition turn_delivery (env : TurnEnv) (delivery : Delivery) (o : Orchestrator)
    : Orchestrator * option gerror :=
  match parseMessage (dl_Kind delivery) (dl_OperationID delivery) (dl_Payload delivery) with
  | Err e => orchestrator_fail env (ErrWrap "broker0: invalid membership update scope" e) o
  | Ok m =>
      if negb (bool_decide (m_Kind m = KindMembershipSnapshot)) ||
         negb (str_eqb (m_Group m) (oo_Group options))
      then orchestrator_fail env (ErrNew "broker0: invalid membership update scope") o else
      match m_Snapshot m with
      | Some snapshot =>
          match Contains (te_contains env) (o_operations o) (m_OperationID m) with
          | Err e => orchestrator_fail env e o
          | Ok completed =>
              if negb (l_ready o) then
                match ApplyUpdate (l_reconciler o) snapshot with
                | (reconciler, Err e) => orchestrator_fail env e (o <| l_reconciler := reconciler |>)
                | (reconciler, Ok _) =>
                    (o <| l_reconciler := reconciler |>
                       <| l_pending := l_pending o ++ [mkPending delivery m completed] |>, None)
                end
              else if completed then
                match ack_update env 0 delivery (m_OperationID m) o with
                | (o, Err e) => orchestrator_fail env e o
                | (o, Ok _) => (o, None)
                end
              else
                match reconcile_update env m snapshot o with
                | (o, Some e) => orchestrator_fail env e o
                | (o, None) =>
                    match complete_update env 0 (m_OperationID m) delivery o with
                    | (o, Err e) => orchestrator_fail env e o
                    | (o, Ok _) => (o, None)
                    end
                end
          end
      | None => orchestrator_fail env (ErrNew "nil dereference") o
      end
  end.

(** The loop over the deliveries buffered during the bootstrap. *)
Fixpoint settle_pending (env : TurnEnv) (n : nat) (pending : list pendingDelivery) (o : Orchestrator)
    : Orchestrator * gerr :=
  match pending with
  | [] => (o, nil_err)
  | buffered :: rest =>
      let op := m_OperationID (pd_message buffered) in
      match (if pd_completed buffered then ack_update env n (pd_delivery buffered) op o
             else complete_update env n op (pd_delivery buffered) o) with
      | (o, Err e) => (o, Err e)
      | (o, Ok _) => settle_pending env (Datatypes.S n) rest o
      end
  end.

Definition snapshot_message (op : string) (s : MembershipSnapshot) : Message :=
  mkMessage KindMembershipSnapshot op (ms_ScalingGroup s) (Some s) None None None None.

(** The first full snapshot: baseline, replay of the buffered updates, apply. *)
Definition finish_bootstrap (env : TurnEnv) (request : SnapshotRequest) (s : MembershipSnapshot)
    (o : Orchestrator) : Orchestrator * option gerror :=
  match ApplyBaseline (l_reconciler o) s with
  | (reconciler, Err e) => orchestrator_fail env e (o <| l_reconciler := reconciler |>)
  | (reconciler, Ok _) =>
      match FinishBootstrap reconciler with
      | (reconciler, Err e) => orchestrator_fail env e (o <| l_reconciler := reconciler |>)
      | (reconciler, Ok final) =>
          let o := o <| l_reconciler := reconciler |> in
          match orchestrator_apply env (snapshot_message (sr_CorrelationID request) final) o with
          | (o, Err e) => orchestrator_fail env e o
          | (o, Ok _) =>
              match settle_pending env 0 (l_pending o) o with
              | (o, Err e) => orchestrator_fail env e o
              | (o, Ok _) => (o <| l_pending := [] |> <| l_ready := true |>, None)
              end
          end
      end
  end.

Definition turn_result (env : TurnEnv) (request : SnapshotRequest) (r : result SnapshotResponse)
    (o : Orchestrator) : Orchestrator * option gerror :=
  let o := o <| l_inflight := None |> in
  match r with
  | Err _ =>
      let o := if l_retry o then o else
        o <| l_retry := true |>
          <| l_retryDelay := Z.min (l_retryDelay o * 2) (oo_RetryMaximum options) |> in
      (start_again env o, None)
  | Ok response =>
      match ValidateFor response request with
      | Err e => orchestrator_fail env e o
      | Ok _ =>
          let o := o <| l_retryDelay := oo_RetryInitial options |> in
          let '(o, stopped) :=
            if negb (l_ready o) then finish_bootstrap env request (sp_Snapshot response) o
            else match reconcile_update env
                         (mkMessage KindMembershipSnapshot (sr_CorrelationID request) (sp_Group response)
                            (Some (sp_Snapshot response)) None None None None)
                         (sp_Snapshot response) o with
                 | (o, Some e) => orchestrator_fail env e o
                 | (o, None) => (o, None)
                 end in
          match stopped with
          | Some e => (o, Some e)
          | None => (start_again env o, None)
          end
      end
  end.

(** One case of the [select]; [None] when it is not enabled.  [Some e] in the
    result is the error [Run] returns with. *)
Definition orchestrate (env : TurnEnv) (t : turn) (o : Orchestrator)
    : option (Orchestrator * option gerror) :=
  match t with
  | TurnContextDone e => Some (orchestrator_fail env e o)
  | TurnRefresh => Some (startRequest env o, None)
  | TurnRetry => if l_retry o then Some (startRequest env (o <| l_retry := false |>), None) else None
  | TurnStale => Some (orchestrator_fail env ErrMembershipStale o)
  | TurnReconnect => if l_reconnects o then Some (turn_reconnect env o) else None
  | TurnReconnectsClosed => if l_reconnects o then Some (o <| l_reconnects := false |>, None) else None
  | TurnSubscriptionError e =>
      if l_errors o
      then Some (match e with
                 | Some e => orchestrator_fail env (ErrWrap "broker0: update subscription" e) o
                 | None => (o, None)
                 end)
      else None
  | TurnErrorsClosed => if l_errors o then Some (o <| l_errors := false |>, None) else None
  | TurnDelivery (Some d) => Some (turn_delivery env d o)
  | TurnDelivery None =>
      Some (orchestrator_fail env (ErrNew "broker0: update subscription returned nil delivery") o)
  | TurnDeliveriesClosed =>
      Some (orchestrator_fail env (ErrNew "broker0: update delivery channel closed") o)
  | TurnResult r =>
      match l_inflight o with
      | Some request => Some (turn_result env request r o)
      | None => None
      end
  end.

(** [Run] up to the loop: the initial fail-closed state, the subscription (with
    which of its channels are not nil) and the first request. *)
Definition orchestrator_start (env : TurnEnv) (subscription : result (bool * bool * bool)) (operations : S)
    : Orchestrator * option gerror :=
  let o := mkOrchestrator false false zero_snapshot operations subscribed_reconciler None false false
    (oo_RetryInitial options) [] false false false [] in
  let o := o_emit (OvFailClosed ErrNoAuthoritativeState (te_failClosed env)) o in
  match te_failClosed env with
  | Err e => (o, Some (ErrWrap "broker0: establish initial fail-closed state" e))
  | Ok _ =>
      match subscription with
      | Err e => (o, Some (ErrWrap "broker0: subscribe to group updates" e))
      | Ok (deliveries, reconnects, errors) =>
          if negb deliveries
          then orchestrator_fail env (ErrNew "broker0: update subscription has no delivery channel") o
          else (startRequest env (o <| l_reconnects := reconnects |> <| l_errors := errors |>), None)
      end
  end.

(** A run of the loop that has not returned yet. *)
Inductive orchestrated : Orchestrator -> Prop :=
| orch_start env subscription operations o :
    orchestrator_start env subscription operations = (o, None) -> orchestrated o
| orch_turn env t o o' :
    orchestrated o -> orchestrate env t o = Some (o', None) -> orchestrated o'.
End Orchestrator.
Arguments Orchestrator S : clear implicits.
