(* ===== verification/OrchestratorTheorems.v ===== *)
(** * Theorems on the group orchestrator *)

From S2P Require Import Prelude Outbox Snapshot Messages Reconciler ControllerTypes Controller Wire WireTheorems OperationStore OperationStoreTheorems Broker0 Broker0Inbox Broker0Theorems Orchestrator.
From Stdlib Require Import ZArith Lia.
From stdpp Require Import base gmap strings numbers option list.
#[local] Open Scope Z_scope.

(** ** The reconciler's operations, seen from the orchestrator *)
Section ReconcilerFacts.
Context {net_url : NetURL}.

Lemma bind_group_group r s r' :
  bind_group r s = Ok r' -> rc_group r' = rc_group r \/ rc_group r' = ms_ScalingGroup s.
Proof.
  unfold bind_group. destruct (str_empty (rc_group r)); case_match; try done; intros [= <-]; auto.
Qed.

Lemma ApplyUpdate_ready r s r' res :
  rc_ok r -> rc_ready r = true -> ApplyUpdate r s = (r', res) ->
  rc_ready r' = true /\ rc_started r' = rc_started r /\ rc_current r' = (if decide (res = Ok true) then Some s else rc_current r).
Proof.
  intros Hok Hr H. unfold ApplyUpdate in H.
  destruct (Validate s) as [[]|e] eqn:Hv; [|injection H as <- <-; by rewrite decide_False].
  destruct (rc_started r) eqn:Hst; cbn [negb] in H; [|injection H as <- <-; by rewrite decide_False].
  destruct (bind_group r s) as [r1|e] eqn:Hb; [|injection H as <- <-; by rewrite decide_False].
  destruct (bind_group_ok _ _ _ Hok Hv Hb) as (_ & _ & Hr1 & Hc1 & Hs1 & _).
  rewrite Hr1, Hr in H. cbn [negb] in H. unfold applyLocked in H. rewrite Hc1 in H.
  destruct (rc_current r) as [c|] eqn:Hc; [|injection H as <- <-; rewrite decide_False by done; by rewrite Hr1, Hs1, Hc1, Hr].
  destruct (compareSnapshots c s) as [n|e]; [|injection H as <- <-; rewrite decide_False by done; by rewrite Hr1, Hs1, Hc1, Hr].
  destruct (0 <? n); [injection H as <- <-; rewrite decide_False by done; by rewrite Hr1, Hs1, Hc1, Hr|].
  destruct (n =? 0); injection H as <- <-; [rewrite decide_False by done|rewrite decide_True by done];
    cbn; by rewrite ?Hr1, ?Hs1, ?Hc1, ?Hr.
Qed.

Lemma ApplyUpdate_unready r s r' b :
  rc_ok r -> rc_ready r = false -> ApplyUpdate r s = (r', Ok b) ->
  rc_ready r' = false /\ rc_started r' = rc_started r /\ rc_buffered r' = rc_buffered r ++ [s].
Proof.
  intros Hok Hr H. unfold ApplyUpdate in H. destruct (Validate s) as [[]|e] eqn:Hv; [|done].
  destruct (rc_started r) eqn:Hst; cbn [negb] in H; [|done].
  destruct (bind_group r s) as [r1|e] eqn:Hb; [|done].
  destruct (bind_group_ok _ _ _ Hok Hv Hb) as (_ & _ & Hr1 & _ & Hs1 & Hb1 & _).
  rewrite Hr1, Hr in H. cbn [negb] in H. injection H as <- <-. cbn. by rewrite Hr1, Hr, Hs1, Hb1.
Qed.

Lemma ApplyUpdate_group r s r' res :
  ApplyUpdate r s = (r', res) ->
  rc_group r' = rc_group r \/ rc_group r' = ms_ScalingGroup s.
Proof.
  unfold ApplyUpdate. destruct (Validate s); [|intros [= <- <-]; by left].
  destruct (rc_started r); [|intros [= <- <-]; by left]. cbn [negb].
  destruct (bind_group r s) as [r1|e] eqn:Hb; [|intros [= <- <-]; by left].
  apply bind_group_group in Hb.
  assert (Hg : forall r2 res, applyLocked r1 s = (r2, res) -> rc_group r2 = rc_group r1).
  { intros r2 res1. unfold applyLocked. repeat case_match; by intros [= <- <-]. }
  destruct (rc_ready r1); cbn [negb]; intros H; [apply Hg in H; by rewrite H|].
  by injection H as <- <-.
Qed.

Lemma ApplyBaseline_unready r s r' :
  rc_ok r -> rc_ready r = false -> ApplyBaseline r s = (r', nil_err) ->
  rc_ready r' = false /\ rc_started r' = rc_started r /\ rc_buffered r' = rc_buffered r /\
  rc_group r' = ms_ScalingGroup s.
Proof.
  intros Hok Hr H. unfold ApplyBaseline in H. destruct (Validate s) as [[]|e] eqn:Hv; [|done].
  destruct (rc_started r) eqn:Hst; cbn [negb] in H; [|done].
  destruct (bind_group r s) as [r1|e] eqn:Hb; [|done].
  destruct (bind_group_ok _ _ _ Hok Hv Hb) as (_ & Hg & Hr1 & _ & Hs1 & Hb1 & _).
  rewrite Hr1, Hr in H. destruct (rc_baseline r1) as [b|].
  - destruct (compareSnapshots b s) as [n|]; [|done]. destruct (n <? 0); [|case_match; [done|]];
      injection H as <-; cbn; by rewrite Hr1, Hs1, Hb1.
  - injection H as <-. cbn. by rewrite Hr1, Hs1, Hb1.
Qed.

Lemma FinishBootstrap_done r r' s :
  rc_ready r = false -> FinishBootstrap r = (r', Ok s) ->
  rc_ready r' = true /\ rc_started r' = true /\ rc_current r' = Some s /\ rc_group r' = rc_group r /\
  forall u, u ∈ rc_buffered r -> ms_Revision u <= ms_Revision s.
Proof.
  intros Hr H. unfold FinishBootstrap in H. destruct (rc_started r) eqn:Hst; cbn [negb] in H; [|done].
  rewrite Hr in H. destruct (rc_baseline r) as [b|]; [|done].
  destruct (replay b _) as [c|] eqn:Hrep; [|done]. injection H as <- <-. cbn. split_and!; [done..|].
  apply replay_newest in Hrep as (_ & _ & _ & Hall). intros u Hu. apply Hall.
  by rewrite sort_by_perm.
Qed.
End ReconcilerFacts.

Section Theorems.
Context {net_url : NetURL} {time_text : TimeText}.
Context {S : Type} {store_ops : OperationStore S} {store_laws : OperationStoreLaws S}.
Context (options : OrchestratorOptions).
Implicit Types (o : Orchestrator S).

(** ** What the applier has installed *)
Definition install (acc : option MembershipSnapshot) (e : orch_event) : option MembershipSnapshot :=
  match e with
  | OvApply m (Ok _) => m_Snapshot m
  | OvFailClosed _ _ => None
  | _ => acc
  end.
Definition installed (tr : list orch_event) : option MembershipSnapshot := foldl install None tr.

Lemma installed_snoc tr e : installed (tr ++ [e]) = install (installed tr) e.
Proof. unfold installed. by rewrite foldl_app. Qed.

(** ** The invariant of the loop *)
Record oinv o : Prop := {
  oi_rc : rc_ok (l_reconciler o);
  oi_started : rc_started (l_reconciler o) = true;
  oi_ready : rc_ready (l_reconciler o) = l_ready o;
  oi_group : rc_group (l_reconciler o) = ""%string \/ rc_group (l_reconciler o) = oo_Group options;
  oi_exposed : orchestrator_Snapshot o = if l_ready o then rc_current (l_reconciler o) else None;
  oi_installed : orchestrator_Snapshot o = installed (o_trace o);
}.

(** The steps that leave all of this alone. *)
Record same_core o o' : Prop := {
  sc_reconciler : l_reconciler o' = l_reconciler o;
  sc_ready : l_ready o' = l_ready o;
  sc_snapshot : orchestrator_Snapshot o' = orchestrator_Snapshot o;
  sc_installed : installed (o_trace o') = installed (o_trace o);
  sc_failed : o_failed o' = o_failed o;
}.

#[export] Instance same_core_refl : Reflexive same_core.
Proof. by split. Qed.
#[export] Instance same_core_trans : Transitive same_core.
Proof. intros x y z [] []. split; congruence. Qed.

Lemma oinv_core o o' : same_core o o' -> oinv o -> oinv o'.
Proof.
  intros [Hr Hrd Hs Hi _] [H1 H2 H3 H4 H5 H6]. split; rewrite ?Hr, ?Hrd, ?Hs, ?Hi; done.
Qed.

Lemma core_startRequest env o : same_core o (startRequest options env o).
Proof. unfold startRequest. destruct (l_inflight o); split; cbn; rewrite ?installed_snoc; done. Qed.

Lemma core_start_again env o : same_core o (start_again options env o).
Proof.
  unfold start_again. destruct (l_requestAgain o); [|done].
  etransitivity; [|apply core_startRequest]. by split.
Qed.

Lemma core_ack env n d op o : same_core o (fst (ack_update env n d op o)).
Proof. split; cbn; rewrite ?installed_snoc; done. Qed.

Lemma core_complete env n d op o : same_core o (fst (complete_update env n op d o)).
Proof.
  unfold complete_update. destruct (RecordOp _ _ _) as [s' r].
  assert (Hc : same_core o (o_emit (OvRecord op r) (o <| o_operations := s' |>)))
    by (split; cbn; rewrite ?installed_snoc; done).
  destruct r as [[]|e]; [|done]. etransitivity; [exact Hc|apply core_ack].
Qed.

Lemma core_settle env n pending o : same_core o (fst (settle_pending env n pending o)).
Proof.
  revert n o. induction pending as [|b pending IH]; intros n o; [done|]. cbn [settle_pending].
  assert (Hb : same_core o (fst (if pd_completed b
    then ack_update env n (pd_delivery b) (m_OperationID (pd_message b)) o
    else complete_update env n (m_OperationID (pd_message b)) (pd_delivery b) o)))
    by (destruct (pd_completed b); [apply core_ack|apply core_complete]).
  destruct (if pd_completed b then _ else _) as [o1 [[]|e]]; [|done].
  etransitivity; [exact Hb|apply IH].
Qed.

(** A failure revokes routing for good. *)
Lemma fail_revoked env cause o :
  exists o' e, orchestrator_fail env cause o = (o', Some e) /\ orchestrator_Snapshot o' = None /\
    installed (o_trace o') = None.
Proof.
  unfold orchestrator_fail. eexists _, _. split; [reflexivity|].
  unfold orchestrator_Snapshot. cbn. rewrite orb_true_r, installed_snoc. done.
Qed.

(** A step that goes on keeps the invariant; one that returns has revoked
    routing. *)
Definition step_ok (res : Orchestrator S * option gerror) : Prop :=
  match snd res with
  | None => oinv (fst res)
  | Some _ => orchestrator_Snapshot (fst res) = None /\ installed (o_trace (fst res)) = None
  end.

Lemma fail_ok env cause o : step_ok (orchestrator_fail env cause o).
Proof. destruct (fail_revoked env cause o) as (o' & e & -> & H). exact H. Qed.

(** Applying the reconciler's new current snapshot. *)
Lemma apply_ok env m s o o' :
  m_Snapshot m = Some s -> rc_ok (l_reconciler o) -> rc_started (l_reconciler o) = true ->
  rc_ready (l_reconciler o) = true -> rc_current (l_reconciler o) = Some s ->
  rc_group (l_reconciler o) = oo_Group options ->
  orchestrator_apply env m o = (o', nil_err) -> oinv (o' <| l_ready := true |>).
Proof.
  intros Hm Hok Hst Hr Hc Hg H. unfold orchestrator_apply in H. rewrite Hm in H.
  destruct (te_apply env m) as [[]|] eqn:Ha; [|done]. injection H as <-.
  split; cbn; [done|done|done|by right| |].
  - unfold orchestrator_Snapshot. cbn. by rewrite Hc.
  - unfold orchestrator_Snapshot. cbn. rewrite installed_snoc. cbn. by rewrite Hm.
Qed.

Lemma reconcile_update_ok env m s o :
  oinv o -> l_ready o = true -> m_Snapshot m = Some s -> ms_ScalingGroup s = oo_Group options ->
  let '(o', stopped) := reconcile_update env m s o in
  stopped = None -> oinv o' /\ l_ready o' = true.
Proof.
  intros Ho Hready Hm Hgs. unfold reconcile_update.
  destruct (ApplyUpdate (l_reconciler o) s) as [r' res] eqn:Hu.
  pose proof Ho as [Hok Hst Hr Hg He Hi]. rewrite Hready in Hr.
  destruct (ApplyUpdate_ready _ _ _ _ Hok Hr Hu) as (Hr' & Hst' & Hc').
  pose proof (ApplyUpdate_ok _ _ _ _ Hok Hu) as Hok'.
  assert (Hg' : rc_group r' = oo_Group options).
  { destruct (ApplyUpdate_group _ _ _ _ Hu) as [->| ->]; [|done].
    destruct Hg as [Hg|Hg]; [|done]. destruct (ro_ready _ Hok Hr) as [c Hc].
    destruct (ro_current _ Hok c Hc) as [Hv Hcg]. rewrite Hg in Hcg. by apply Validate_group in Hv. }
  assert (Hkeep : rc_current r' = rc_current (l_reconciler o) -> oinv (o <| l_reconciler := r' |>)).
  { intros Heq. split; cbn; [done|congruence|congruence|by right| |done].
    unfold orchestrator_Snapshot in *. cbn. by rewrite Heq. }
  destruct res as [[]|e].
  - rewrite decide_True in Hc' by done.
    destruct (orchestrator_apply env m _) as [o1 [[]|e]] eqn:Ha; [|done]. intros _.
    assert (Hl : l_ready o1 = true).
    { unfold orchestrator_apply in Ha. rewrite Hm in Ha. destruct (te_apply env m); [|done].
      injection Ha as <-. done. }
    apply (apply_ok env m s) in Ha; [|done|done|cbn; congruence|done|done|done].
    split; [|done]. revert Ha. destruct o1. cbn in *. by subst.
  - rewrite decide_False in Hc' by done. auto.
  - rewrite decide_False in Hc' by done. case_match; [|done]. auto.
Qed.

Lemma reconnect_ok env o : step_ok (turn_reconnect options env o).
Proof.
  unfold turn_reconnect. destruct (te_failClosed env) as [[]|e] eqn:Hf; [|apply fail_ok].
  cbn [step_ok snd fst]. eapply oinv_core; [apply core_startRequest|].
  split; cbn.
  - apply rsteps_ok, rtc_once, rs_subscribe.
  - done.
  - done.
  - by left.
  - unfold orchestrator_Snapshot. cbn. by rewrite orb_true_r.
  - unfold orchestrator_Snapshot. cbn. by rewrite orb_true_r, installed_snoc.
Qed.

Lemma then_fail env (res : Orchestrator S * gerr) o :
  oinv o -> same_core o (fst res) ->
  step_ok (match res with
           | (o, Err e) => orchestrator_fail env e o
           | (o, Ok _) => (o, None)
           end).
Proof. intros Ho Hc. destruct res as [o1 [[]|e]]; [|apply fail_ok]. by eapply oinv_core. Qed.

Lemma delivery_ok env d o : oinv o -> step_ok (turn_delivery options env d o).
Proof.
  intros Ho. unfold turn_delivery. destruct (parseMessage _ _ _) as [m|e] eqn:Hp; [|apply fail_ok].
  destruct (_ || _) eqn:Hscope; [apply fail_ok|].
  apply orb_false_iff in Hscope as [Hk Hgr]. apply negb_false_iff in Hk, Hgr.
  apply bool_decide_eq_true in Hk. apply str_eqb_true in Hgr.
  destruct (m_Snapshot m) as [s|] eqn:Hm; [|apply fail_ok].
  assert (Hgs : ms_ScalingGroup s = oo_Group options).
  { apply parseMessage_parsed in Hp as [_ Hp]. destruct Hp; cbn in Hm, Hgr; by simplify_eq. }
  destruct (Contains _ _ _) as [completed|e]; [|apply fail_ok].
  destruct (l_ready o) eqn:Hready; cbn [negb].
  - destruct completed.
    { apply (then_fail env (ack_update env 0 d (m_OperationID m) o) o Ho). apply core_ack. }
    pose proof (reconcile_update_ok env m s o Ho Hready Hm Hgs) as Hu.
    destruct (reconcile_update env m s o) as [o1 [e|]]; [apply fail_ok|].
    destruct (Hu eq_refl) as [Ho1 _].
    apply (then_fail env (complete_update env 0 (m_OperationID m) d o1) o1 Ho1). apply core_complete.
  - destruct (ApplyUpdate (l_reconciler o) s) as [r' [b|e]] eqn:Hu; [|apply fail_ok].
    destruct Ho as [Hok Hst Hr Hg He Hi]. rewrite Hready in Hr.
    destruct (ApplyUpdate_unready _ _ _ _ Hok Hr Hu) as (Hr' & Hst' & _).
    cbn [step_ok snd fst]. split; cbn.
    + by eapply ApplyUpdate_ok.
    + congruence.
    + congruence.
    + destruct (ApplyUpdate_group _ _ _ _ Hu) as [->| ->]; auto.
    + by rewrite Hready in *.
    + done.
Qed.

Lemma bootstrap_ok env request s o :
  oinv o -> l_ready o = false -> ms_ScalingGroup s = oo_Group options ->
  step_ok (finish_bootstrap env request s o).
Proof.
  intros Ho Hready Hgs. unfold finish_bootstrap. destruct Ho as [Hok Hst Hr Hg He Hi]. rewrite Hready in Hr.
  destruct (ApplyBaseline (l_reconciler o) s) as [r1 [[]|e]] eqn:Hb; [|apply fail_ok].
  destruct (ApplyBaseline_unready _ _ _ Hok Hr Hb) as (Hr1 & Hs1 & _ & Hg1).
  pose proof (ApplyBaseline_ok _ _ _ _ Hok Hb) as Hok1.
  destruct (FinishBootstrap r1) as [r2 [final|e]] eqn:Hf; [|apply fail_ok].
  destruct (FinishBootstrap_done _ _ _ Hr1 Hf) as (Hr2 & Hs2 & Hc2 & Hg2 & _).
  destruct (FinishBootstrap_ok _ _ _ Hok1 Hf) as [Hok2 _].
  destruct (orchestrator_apply env _ _) as [o1 [[]|e]] eqn:Ha; [|apply fail_ok].
  apply (apply_ok env _ final) in Ha; [|done|done|done|done|done|cbn; congruence].
  pose proof (core_settle env 0 (l_pending o1) o1) as Hc.
  destruct (settle_pending env 0 (l_pending o1) o1) as [o2 [[]|e]]; [|apply fail_ok]. cbn [fst] in Hc.
  cbn [step_ok snd fst]. eapply oinv_core; [|exact Ha].
  destruct Hc as [H1 _ H3 H4 H5]. split; cbn; done.
Qed.

(** The request in flight is for this group. *)
Definition inflight_ok o : Prop := forall r, l_inflight o = Some r -> sr_Group r = oo_Group options.

Lemma result_ok env request r o :
  oinv o -> sr_Group request = oo_Group options -> step_ok (turn_result options env request r o).
Proof.
  intros Ho Hgr. unfold turn_result. destruct r as [response|e].
  - destruct (ValidateFor response request) as [[]|e] eqn:Hv; [|apply fail_ok].
    assert (Hgs : ms_ScalingGroup (sp_Snapshot response) = oo_Group options).
    { unfold ValidateFor in Hv. rewrite !WireTheorems.seq_ok, !fail_if_ok in Hv.
      destruct Hv as (_ & _ & Hs & _ & Hx). do 2 apply orb_false_iff in Hs as [Hs _].
      apply orb_false_iff in Hs as [_ Hg]. apply orb_false_iff in Hx as [_ Hx].
      apply negb_false_iff, str_eqb_true in Hg, Hx. congruence. }
    set (o1 := o <| l_inflight := None |> <| l_retryDelay := oo_RetryInitial options |>).
    assert (Ho1 : oinv o1) by (eapply oinv_core; [|exact Ho]; by split).
    assert (Hstep : step_ok (if negb (l_ready o1)
      then finish_bootstrap env request (sp_Snapshot response) o1
      else match reconcile_update env (mkMessage KindMembershipSnapshot (sr_CorrelationID request)
                   (sp_Group response) (Some (sp_Snapshot response)) None None None None) (sp_Snapshot response) o1 with
           | (o, Some e) => orchestrator_fail env e o
           | (o, None) => (o, None)
           end)).
    { destruct (l_ready o1) eqn:Hready; cbn [negb]; [|by apply bootstrap_ok].
      match goal with |- context [reconcile_update env ?m ?s o1] =>
        pose proof (reconcile_update_ok env m s o1 Ho1 Hready eq_refl Hgs) as Hu;
        destruct (reconcile_update env m s o1) as [o2 [e|]] end; [apply fail_ok|].
      by apply Hu. }
    destruct (if negb (l_ready o1) then _ else _) as [o2 [e|]]; [done|].
    cbn [step_ok snd fst] in *. eapply oinv_core; [apply core_start_again|done].
  - cbn [step_ok snd fst]. eapply oinv_core; [apply core_start_again|].
    eapply oinv_core; [|exact Ho]. destruct (l_retry _); by split.
Qed.

(** *** Every turn *)
Lemma inflight_startRequest env o : inflight_ok o -> inflight_ok (startRequest options env o).
Proof.
  intros H. unfold startRequest. destruct (l_inflight o) eqn:E; [|intros r [= <-]; done].
  intros r. cbn. rewrite E. intros [= <-]. by apply H.
Qed.

Lemma turn_ok env t o res :
  oinv o -> inflight_ok o -> orchestrate options env t o = Some res -> step_ok res.
Proof.
  intros Ho Hf H. destruct t; cbn [orchestrate] in H; repeat case_match; simplify_eq; try apply fail_ok; try done.
  - eapply oinv_core; [apply core_startRequest|done].
  - eapply oinv_core; [apply core_startRequest|]. eapply oinv_core; [|exact Ho]. by split.
  - apply reconnect_ok.
  - eapply oinv_core; [|exact Ho]. by split.
  - eapply oinv_core; [|exact Ho]. by split.
  - by apply delivery_ok.
  - apply result_ok; auto.
Qed.

(** Only [startRequest] puts a request in flight. *)
Lemma inflight_fail env cause o : l_inflight (fst (orchestrator_fail env cause o)) = l_inflight o.
Proof. done. Qed.
Lemma inflight_apply env m o : l_inflight (fst (orchestrator_apply env m o)) = l_inflight o.
Proof. unfold orchestrator_apply. by repeat case_match. Qed.
Lemma inflight_complete env n op d o : l_inflight (fst (complete_update env n op d o)) = l_inflight o.
Proof. unfold complete_update. destruct (RecordOp _ _ _) as [s' [[]|e]]; done. Qed.
Lemma inflight_settle env n pending o : l_inflight (fst (settle_pending env n pending o)) = l_inflight o.
Proof.
  revert n o. induction pending as [|b pending IH]; intros n o; [done|]. cbn [settle_pending].
  assert (Hb : l_inflight (fst (if pd_completed b
    then ack_update env n (pd_delivery b) (m_OperationID (pd_message b)) o
    else complete_update env n (m_OperationID (pd_message b)) (pd_delivery b) o)) = l_inflight o)
    by (destruct (pd_completed b); [done|apply inflight_complete]).
  destruct (if pd_completed b then _ else _) as [o1 [[]|e]]; [|done]. by rewrite IH.
Qed.
Lemma inflight_reconcile env m s o : l_inflight (fst (reconcile_update env m s o)) = l_inflight o.
Proof.
  unfold reconcile_update. destruct (ApplyUpdate _ _) as [r' [[]|e]]; [|done..].
  pose proof (inflight_apply env m (o <| l_reconciler := r' |>)) as H.
  destruct (orchestrator_apply _ _ _) as [o1 [[]|e]]; exact H.
Qed.
Lemma inflight_bootstrap env request s o : l_inflight (fst (finish_bootstrap env request s o)) = l_inflight o.
Proof.
  unfold finish_bootstrap. destruct (ApplyBaseline _ _) as [r1 [[]|e]]; [|done].
  destruct (FinishBootstrap r1) as [r2 [final|e]]; [|done].
  match goal with |- context [orchestrator_apply env ?m ?o'] =>
    pose proof (inflight_apply env m o') as H; destruct (orchestrator_apply env m o') as [o1 [[]|e]] end; [|exact H].
  pose proof (inflight_settle env 0 (l_pending o1) o1) as H'.
  destruct (settle_pending _ _ _ _) as [o2 [[]|e]]; cbn in *; congruence.
Qed.

Lemma inflight_start_again env o : inflight_ok o -> inflight_ok (start_again options env o).
Proof. intros H. unfold start_again. case_match; [by apply inflight_startRequest|done]. Qed.

Lemma inflight_turn env t o res :
  inflight_ok o -> orchestrate options env t o = Some res -> inflight_ok (fst res).
Proof.
  intros Hf H. assert (Hsame : forall o1, l_inflight o1 = l_inflight o -> inflight_ok o1).
  { intros o1 Heq x. rewrite Heq. apply Hf. }
  assert (Hnone : forall o1, l_inflight o1 = None -> inflight_ok o1) by (intros o1 Heq x; by rewrite Heq).
  destruct t; cbn [orchestrate] in H; repeat case_match; simplify_eq; try (by apply Hsame);
    try (by apply inflight_startRequest).
  - unfold turn_reconnect. case_match; [|by apply Hsame]. by apply inflight_startRequest.
  - unfold turn_delivery. destruct (parseMessage _ _ _) as [m|]; [|by apply Hsame].
    case_match; [by apply Hsame|]. destruct (m_Snapshot m) as [s|]; [|by apply Hsame].
    destruct (Contains _ _ _) as [completed|]; [|by apply Hsame]. destruct (l_ready o); cbn [negb].
    + destruct completed; [cbn; case_match; by apply Hsame|].
      pose proof (inflight_reconcile env m s o) as Hr.
      destruct (reconcile_update env m s o) as [o1 [e|]]; [by apply Hsame|].
      match goal with |- context [complete_update env 0 ?op ?d o1] =>
        pose proof (inflight_complete env 0 op d o1) as Hc;
        destruct (complete_update env 0 op d o1) as [o2 [[]|e]] end; apply Hsame; cbn in *; congruence.
    + destruct (ApplyUpdate _ _) as [r' [b|e]]; by apply Hsame.
  - match goal with Hi : l_inflight o = Some ?r |- _ => rename r into request end.
    unfold turn_result. destruct r as [response|e].
    + destruct (ValidateFor _ _); [|by apply Hnone].
      set (o1 := o <| l_inflight := None |> <| l_retryDelay := oo_RetryInitial options |>).
      assert (Hres : l_inflight (fst (if negb (l_ready o1)
        then finish_bootstrap env request (sp_Snapshot response) o1
        else match reconcile_update env (mkMessage KindMembershipSnapshot (sr_CorrelationID request)
                     (sp_Group response) (Some (sp_Snapshot response)) None None None None) (sp_Snapshot response) o1 with
             | (o, Some e) => orchestrator_fail env e o
             | (o, None) => (o, None)
             end)) = None).
      { destruct (l_ready o1); cbn [negb]; [|by rewrite inflight_bootstrap].
        match goal with |- context [reconcile_update env ?m ?x o1] =>
          pose proof (inflight_reconcile env m x o1) as Hr; destruct (reconcile_update env m x o1) as [o2 [e|]] end;
          exact Hr. }
      destruct (if negb (l_ready o1) then _ else _) as [o2 [e|]]; [by apply Hnone|].
      by apply inflight_start_again, Hnone.
    + apply inflight_start_again, Hnone. by destruct (l_retry _).
Qed.

Lemma orchestrated_inv o : orchestrated options o -> oinv o /\ inflight_ok o.
Proof.
  induction 1 as [env subscription operations o H|env t o o' Horch [Ho Hf] Hstep].
  - unfold orchestrator_start in H. destruct (te_failClosed env); [|done].
    destruct subscription as [[[[] reconnects] errs]|e]; try done. cbn [negb] in H. injection H as <-. split.
    + eapply oinv_core; [apply core_startRequest|]. split; cbn; try done; [|by left].
      apply rsteps_ok, rtc_once, rs_subscribe.
    + by apply inflight_startRequest.
  - split; [apply (turn_ok env t o _ Ho Hf Hstep)|apply (inflight_turn env t o _ Hf Hstep)].
Qed.

(** C24: What the orchestrator lets the participant route by is exactly what its
    applier installed last, the current snapshot of a reconciler that has been
    through its bootstrap: a valid snapshot of this group. *)
Theorem exposed_state_is_authoritative o :
  orchestrated options o ->
  orchestrator_Snapshot o = installed (o_trace o) /\
  forall s, orchestrator_Snapshot o = Some s ->
    reconciler_Snapshot (l_reconciler o) = Some s /\ Validate s = nil_err /\
    ms_ScalingGroup s = oo_Group options.
Proof.
  intros [[Hok Hst Hr Hg He Hi] _]%orchestrated_inv. split; [done|]. intros s Hs.
  rewrite Hs in He. destruct (l_ready o); [|done]. symmetry in He.
  destruct (ro_current _ Hok s He) as [Hv Hsg]. split_and!; [|done|].
  - unfold reconciler_Snapshot. by rewrite Hr.
  - destruct Hg as [Hg|Hg]; [|congruence]. rewrite Hg in Hsg. by apply Validate_group in Hv.
Qed.

(** [Run] never returns, on any path and at any time, without having revoked
    routing and told the applier to fail closed. *)
Theorem returned_run_fails_closed env t o o' e :
  orchestrated options o -> orchestrate options env t o = Some (o', Some e) ->
  orchestrator_Snapshot o' = None /\ installed (o_trace o') = None.
Proof. intros [Ho Hf]%orchestrated_inv H. apply (turn_ok env t o _ Ho Hf H). Qed.

(** *** Progress of the exposed state *)
Lemma apply_reconciler env m o :
  l_reconciler (fst (orchestrator_apply env m o)) = l_reconciler o /\
  l_ready (fst (orchestrator_apply env m o)) = l_ready o /\
  l_pending (fst (orchestrator_apply env m o)) = l_pending o /\
  o_operations (fst (orchestrator_apply env m o)) = o_operations o.
Proof. unfold orchestrator_apply. by repeat case_match. Qed.

Lemma reconcile_reconciler env m s o :
  l_reconciler (fst (reconcile_update env m s o)) = fst (ApplyUpdate (l_reconciler o) s) /\
  l_ready (fst (reconcile_update env m s o)) = l_ready o.
Proof.
  unfold reconcile_update. destruct (ApplyUpdate (l_reconciler o) s) as [r' [[]|e]]; [|done..].
  destruct (apply_reconciler env m (o <| l_reconciler := r' |>)) as (H1 & H2 & _).
  destruct (orchestrator_apply _ _ _) as [o1 [[]|e]]; done.
Qed.

(** What a turn does to the reconciler of a ready orchestrator. *)
Definition follows (o o' : Orchestrator S) : Prop :=
  l_ready o' = true /\
  (l_reconciler o' = l_reconciler o \/ exists s, l_reconciler o' = fst (ApplyUpdate (l_reconciler o) s)).

Lemma follows_core o o1 o2 : follows o o1 -> same_core o1 o2 -> follows o o2.
Proof. intros [Hr Hc] [H1 H2 _ _ _]. split; [congruence|]. by rewrite H1. Qed.

Lemma ready_turn_follows env t o o' :
  l_ready o = true -> t <> TurnReconnect -> orchestrate options env t o = Some (o', None) -> follows o o'.
Proof.
  intros Hr Ht H. assert (Hself : follows o o) by (by split; [|left]).
  assert (Hfail : forall cause o1, orchestrator_fail env cause o1 <> (o', None)) by done.
  destruct t; cbn [orchestrate] in H; repeat case_match; simplify_eq.
  all: try (by exfalso; eapply Hfail).
  all: try (eapply follows_core; [exact Hself|]; first [by split|apply core_startRequest|etransitivity; [|apply core_startRequest]; by split]).
  - unfold turn_delivery in H. destruct (parseMessage _ _ _) as [m|]; [|by exfalso; eapply Hfail].
    case_match; [by exfalso; eapply Hfail|]. destruct (m_Snapshot m) as [s|]; [|by exfalso; eapply Hfail].
    destruct (Contains _ _ _) as [completed|]; [|by exfalso; eapply Hfail]. rewrite Hr in H. cbn [negb] in H.
    destruct completed.
    + cbn in H. case_match; [|by exfalso; eapply Hfail]. injection H as <-.
      eapply follows_core; [exact Hself|]. split; cbn; rewrite ?installed_snoc; done.
    + destruct (reconcile_reconciler env m s o) as [H1 H2].
      destruct (reconcile_update env m s o) as [o1 [e|]]; [by exfalso; eapply Hfail|]. cbn in H1, H2.
      match goal with _ : context [complete_update env 0 ?op ?d o1] |- _ =>
        pose proof (core_complete env 0 d op o1) as Hc; destruct (complete_update env 0 op d o1) as [o2 [[]|e]] end;
        [|by exfalso; eapply Hfail]. injection H as <-.
      apply (follows_core o o1); [|exact Hc]. split; [congruence|]. right. eauto.
  - unfold turn_result in H. destruct r as [response|e].
    + destruct (ValidateFor _ _); [|by exfalso; eapply Hfail]. cbn in H. rewrite Hr in H. cbn [negb] in H.
      match type of H with context [reconcile_update env ?m ?s ?o1] =>
        destruct (reconcile_reconciler env m s o1) as [H1 H2]; destruct (reconcile_update env m s o1) as [o2 [e|]] end;
        [by cbn in H|]. injection H as <-. cbn in H1, H2.
      eapply follows_core; [|apply core_start_again]. split; [congruence|]. right. eauto.
    + injection H as <-. eapply follows_core; [|apply core_start_again].
      eapply follows_core; [exact Hself|]. destruct (l_retry _); by split.
Qed.

(** As long as the subscription does not reconnect, the exposed snapshot is
    replaced only by one of a higher revision and no lower epoch that is a legal
    successor of it; it never moves back and never disappears while [Run] goes
    on. *)
Theorem exposed_state_advances env t o o' s :
  orchestrated options o -> orchestrate options env t o = Some (o', None) -> t <> TurnReconnect ->
  orchestrator_Snapshot o = Some s ->
  exists s', orchestrator_Snapshot o' = Some s' /\ advances s s'.
Proof.
  intros Ho Hstep Ht Hs. pose proof (orchestrated_inv o' (orch_turn options env t o o' Ho Hstep)) as [Hi' _].
  apply orchestrated_inv in Ho as [Hi _]. pose proof (oi_exposed _ Hi) as He. rewrite Hs in He.
  destruct (l_ready o) eqn:Hr; [|done]. symmetry in He.
  destruct (ready_turn_follows env t o o' Hr Ht Hstep) as [Hr' Hrc].
  rewrite (oi_exposed _ Hi'), Hr'. destruct Hrc as [->|(x & ->)].
  - exists s. split; [done|]. by left.
  - apply (rstep_current (l_reconciler o)); [constructor|apply Hi|done].
Qed.

(** ** Acknowledged updates *)

(** The snapshot a delivery carries. *)
Definition update_of (d : Delivery) : option MembershipSnapshot :=
  match parseMessage (dl_Kind d) (dl_OperationID d) (dl_Payload d) with
  | Ok m => m_Snapshot m
  | Err _ => None
  end.

(** [o'] has more events than [o]; the acknowledgements among them satisfy [P]. *)
Definition adds (P : Delivery -> string -> Prop) (o o' : Orchestrator S) : Prop :=
  exists l, o_trace o' = o_trace o ++ l /\ forall d op a, OvAck d op a ∈ l -> P d op.

Lemma adds_refl P o o' : o_trace o' = o_trace o -> adds P o o'.
Proof. intros H. exists []. rewrite app_nil_r. split; [done|]. by intros d op a ?%not_elem_of_nil. Qed.

Lemma adds_trans P o1 o2 o3 : adds P o1 o2 -> adds P o2 o3 -> adds P o1 o3.
Proof.
  intros (l1 & H1 & P1) (l2 & H2 & P2). exists (l1 ++ l2). rewrite H2, H1, app_assoc. split; [done|].
  intros d op a [Hin|Hin]%elem_of_app; eauto.
Qed.

Lemma adds_emit (P : Delivery -> string -> Prop) o o' e :
  o_trace o' = o_trace o ++ [e] -> (forall d op a, e = OvAck d op a -> P d op) -> adds P o o'.
Proof. intros H He. exists [e]. split; [done|]. intros d op a Hin%list_elem_of_singleton. by eapply He. Qed.

Lemma adds_startRequest P env o : adds P o (startRequest options env o).
Proof. unfold startRequest. case_match; [by apply adds_refl|]. by eapply adds_emit. Qed.

Lemma adds_start_again P env o : adds P o (start_again options env o).
Proof.
  unfold start_again. case_match; [|by apply adds_refl].
  eapply adds_trans; [by apply (adds_refl P o (o <| l_requestAgain := false |>))|apply adds_startRequest].
Qed.

Lemma adds_fail P env cause o o1 : adds P o o1 -> adds P o (fst (orchestrator_fail env cause o1)).
Proof. intros H. eapply adds_trans; [exact H|]. by eapply adds_emit. Qed.

Lemma adds_apply P env m o : adds P o (fst (orchestrator_apply env m o)).
Proof.
  unfold orchestrator_apply. destruct (m_Snapshot m); [|by apply adds_refl].
  destruct (te_apply env m); by eapply adds_emit.
Qed.

Lemma adds_reconcile P env m s o : adds P o (fst (reconcile_update env m s o)).
Proof.
  unfold reconcile_update. destruct (ApplyUpdate _ _) as [r' [[]|e]]; [|by apply adds_refl..].
  eapply adds_trans; [by apply (adds_refl P o (o <| l_reconciler := r' |>))|].
  pose proof (adds_apply P env m (o <| l_reconciler := r' |>)) as H.
  destruct (orchestrator_apply _ _ _) as [o1 [[]|e]]; exact H.
Qed.

Lemma adds_ack (P : Delivery -> string -> Prop) env n d op o : P d op -> adds P o (fst (ack_update env n d op o)).
Proof. intros H. eapply adds_emit; [reflexivity|]. by intros d' op' a' [= <- <- <-]. Qed.

Lemma adds_complete (P : Delivery -> string -> Prop) env n d op o :
  P d op -> adds P o (fst (complete_update env n op d o)).
Proof.
  intros H. unfold complete_update. destruct (RecordOp _ _ _) as [s' [[]|e]].
  - eapply adds_trans; [|by apply adds_ack]. by eapply adds_emit.
  - by eapply adds_emit.
Qed.

Lemma adds_settle (P : Delivery -> string -> Prop) env n pending o :
  (forall b, b ∈ pending -> P (pd_delivery b) (m_OperationID (pd_message b))) ->
  adds P o (fst (settle_pending env n pending o)).
Proof.
  revert n o. induction pending as [|b pending IH]; intros n o Hb; [by apply adds_refl|]. cbn [settle_pending].
  assert (H1 : adds P o (fst (if pd_completed b
    then ack_update env n (pd_delivery b) (m_OperationID (pd_message b)) o
    else complete_update env n (m_OperationID (pd_message b)) (pd_delivery b) o)))
    by (destruct (pd_completed b); [apply adds_ack|apply adds_complete]; apply Hb; left).
  destruct (if pd_completed b then _ else _) as [o1 [[]|e]]; [|exact H1].
  eapply adds_trans; [exact H1|]. apply IH. intros b' Hin. apply Hb. by right.
Qed.

(** The buffered deliveries are buffered in the reconciler too. *)
Record pending_ok o : Prop := {
  pn_ready : l_ready o = true -> l_pending o = [];
  pn_buffered : forall b, b ∈ l_pending o -> exists s,
    update_of (pd_delivery b) = Some s /\ s ∈ rc_buffered (l_reconciler o);
  pn_completed : forall b, b ∈ l_pending o -> pd_completed b = true ->
    exists t, holds (o_operations o) t (m_OperationID (pd_message b)) = true;
}.

(** Runs in which the subscription does not reconnect while updates are
    buffered. *)
Inductive steady : Orchestrator S -> Prop :=
| steady_start env subscription operations o :
    orchestrator_start options env subscription operations = (o, None) -> steady o
| steady_turn env t o o' :
    steady o -> orchestrate options env t o = Some (o', None) ->
    (t = TurnReconnect -> l_pending o = []) -> steady o'.

Lemma steady_orchestrated o : steady o -> orchestrated options o.
Proof. induction 1; [by eapply orch_start|by eapply orch_turn]. Qed.

Lemma pending_startRequest env o :
  l_pending (startRequest options env o) = l_pending o /\
  o_operations (startRequest options env o) = o_operations o.
Proof. unfold startRequest. by case_match. Qed.
Lemma pending_start_again env o :
  l_pending (start_again options env o) = l_pending o /\
  o_operations (start_again options env o) = o_operations o.
Proof.
  unfold start_again. case_match; [|done].
  by destruct (pending_startRequest env (o <| l_requestAgain := false |>)) as [-> ->].
Qed.

(** An update that leaves the buffers alone. *)
Lemma pending_same o o' :
  l_ready o' = l_ready o -> l_pending o' = l_pending o -> o_operations o' = o_operations o ->
  rc_buffered (l_reconciler o') = rc_buffered (l_reconciler o) -> pending_ok o -> pending_ok o'.
Proof. intros H1 H2 H3 H4 [Ha Hb Hc]. split; rewrite ?H1, ?H2, ?H3, ?H4; done. Qed.

Lemma pending_empty o : l_pending o = [] -> pending_ok o.
Proof. intros H. split; rewrite H; [done|by intros b ?%not_elem_of_nil..]. Qed.

Lemma pending_request env o : pending_ok o -> pending_ok (startRequest options env o).
Proof.
  destruct (core_startRequest env o) as [H1 H2 _ _ _]. destruct (pending_startRequest env o) as [H3 H4].
  apply pending_same; congruence.
Qed.
Lemma pending_again env o : pending_ok o -> pending_ok (start_again options env o).
Proof.
  destruct (core_start_again env o) as [H1 H2 _ _ _]. destruct (pending_start_again env o) as [H3 H4].
  apply pending_same; congruence.
Qed.

(** *** A ready orchestrator and one update *)
Lemma reconcile_update_newest env m s o :
  oinv o -> l_ready o = true ->
  let '(o', stopped) := reconcile_update env m s o in
  stopped = None -> exists c, rc_current (l_reconciler o') = Some c /\ ms_Revision s <= ms_Revision c.
Proof.
  intros [Hok Hst Hr _ _ _] Hready. rewrite Hready in Hr. unfold reconcile_update.
  destruct (ApplyUpdate (l_reconciler o) s) as [r' res] eqn:Hu.
  destruct (ApplyUpdate_ready _ _ _ _ Hok Hr Hu) as (Hr' & _ & Hc').
  destruct res as [[]|e].
  - rewrite decide_True in Hc' by done. destruct (apply_reconciler env m (o <| l_reconciler := r' |>)) as (H1 & _).
    destruct (orchestrator_apply _ _ _) as [o1 [[]|e]]; [|done]. intros _. cbn in H1. rewrite H1. eauto with lia.
  - intros _. cbn. exists s. split; [|lia]. rewrite decide_False in Hc' by done. rewrite Hc'.
    unfold ApplyUpdate in Hu. destruct (Validate s) as [[]|] eqn:Hv; [|done]. rewrite Hst in Hu. cbn [negb] in Hu.
    destruct (bind_group (l_reconciler o) s) as [r1|] eqn:Hb; [|done].
    destruct (bind_group_ok _ _ _ Hok Hv Hb) as (_ & _ & Hr1 & Hc1 & _). rewrite Hr1, Hr in Hu. cbn [negb] in Hu.
    unfold applyLocked in Hu. rewrite Hc1 in Hu. destruct (rc_current (l_reconciler o)) as [c|]; [|done].
    destruct (compareSnapshots c s) as [n|] eqn:Hcmp; [|done]. destruct (0 <? n); [done|].
    destruct (Z.eqb_spec n 0) as [->|]; [|done]. by rewrite (compare_replays _ _ Hcmp).
  - destruct (isSuperseded r' s e) eqn:Hs; [|done]. intros _. cbn. unfold isSuperseded in Hs.
    apply andb_true_iff in Hs as [_ Hs]. unfold reconciler_Snapshot in Hs. rewrite Hr' in Hs. cbn in Hs.
    destruct (rc_current r') as [c|]; [|done]. apply andb_true_iff in Hs as [Hlt _]. exists c. split; [done|].
    apply Z.ltb_lt in Hlt. lia.
Qed.

(** The update was complete before this turn, or the reconciler is at its
    revision or beyond. *)
Definition reflected (s0 : S) (r : Reconciler) (d : Delivery) (op : string) : Prop :=
  exists s, update_of d = Some s /\
    ((exists t, holds s0 t op = true) \/
     exists c, rc_current r = Some c /\ ms_Revision s <= ms_Revision c).

Lemma bootstrap_reflected env request s o :
  oinv o -> l_ready o = false -> pending_ok o ->
  let '(o', stopped) := finish_bootstrap env request s o in
  adds (reflected (o_operations o) (l_reconciler o')) o o' /\ (stopped = None -> pending_ok o').
Proof.
  intros [Hok Hst Hr _ _ _] Hready [_ Hbuf Hcomp]. rewrite Hready in Hr. unfold finish_bootstrap.
  assert (Hf : forall P cause o1, adds P o o1 ->
    let '(o', stopped) := orchestrator_fail env cause o1 in adds P o o' /\ (stopped = None -> pending_ok o')).
  { intros P cause o1 H1. by apply (adds_fail P env cause o o1) in H1. }
  destruct (ApplyBaseline (l_reconciler o) s) as [r1 [[]|e]] eqn:Hb; [|apply Hf; by apply adds_refl].
  destruct (ApplyBaseline_unready _ _ _ Hok Hr Hb) as (Hr1 & _ & Hb1 & _).
  destruct (FinishBootstrap r1) as [r2 [final|e]] eqn:Hfin; [|apply Hf; by apply adds_refl].
  destruct (FinishBootstrap_done _ _ _ Hr1 Hfin) as (_ & _ & Hc2 & _ & Hall).
  set (o1 := o <| l_reconciler := r2 |>). set (m := snapshot_message (sr_CorrelationID request) final).
  pose proof (adds_apply (reflected (o_operations o) r2) env m o1) as Hadd.
  destruct (apply_reconciler env m o1) as (Hrec & _ & Hpend & Hops).
  destruct (orchestrator_apply env m o1) as [o2 [[]|e]]; cbn [fst] in *;
    [|split; [|done]; cbn [l_reconciler]; replace (l_reconciler _) with r2 by (symmetry; exact Hrec);
      apply (adds_fail _ env e o o2); by apply (adds_trans _ _ o1); [apply adds_refl|]].
  pose proof (adds_settle (reflected (o_operations o) r2) env 0 (l_pending o2) o2) as Hsettle.
  destruct (core_settle env 0 (l_pending o2) o2) as [Hrec2 _ _ _ _].
  assert (Hall2 : adds (reflected (o_operations o) r2) o (fst (settle_pending env 0 (l_pending o2) o2))).
  { apply (adds_trans _ _ o2); [by apply (adds_trans _ _ o1); [apply adds_refl|]|]. apply Hsettle.
    rewrite Hpend. intros b Hin. destruct (Hbuf b Hin) as (u & Hu & Hub). exists u. split; [done|].
    right. exists final. split; [done|]. apply Hall. by rewrite Hb1. }
  destruct (settle_pending env 0 (l_pending o2) o2) as [o3 [[]|e]]; cbn [fst] in *.
  - split; [|intros _; by apply pending_empty]. cbn. by replace (l_reconciler o3) with r2 by (rewrite Hrec2; symmetry; exact Hrec).
  - split; [|done]. cbn. replace (l_reconciler o3) with r2 by (rewrite Hrec2; symmetry; exact Hrec). by apply (adds_fail _ env e o o3).
Qed.

Lemma pending_complete env n op d o : l_pending (fst (complete_update env n op d o)) = l_pending o.
Proof. unfold complete_update. destruct (RecordOp _ _ _) as [s' [[]|e]]; done. Qed.

Lemma pending_reconcile env m s o : l_pending (fst (reconcile_update env m s o)) = l_pending o.
Proof.
  unfold reconcile_update. destruct (ApplyUpdate _ _) as [r' [[]|e]]; [|done..].
  destruct (apply_reconciler env m (o <| l_reconciler := r' |>)) as (_ & _ & H & _).
  destruct (orchestrator_apply _ _ _) as [o1 [[]|e]]; exact H.
Qed.

(** What a turn adds, and that it keeps the buffers in step. *)
Definition turn_reflects o (res : Orchestrator S * option gerror) : Prop :=
  adds (reflected (o_operations o) (l_reconciler (fst res))) o (fst res) /\
  (snd res = None -> pending_ok (fst res)).

Lemma reflects_fail env cause o o1 :
  adds (reflected (o_operations o) (l_reconciler o1)) o o1 -> turn_reflects o (orchestrator_fail env cause o1).
Proof. intros H. split; [|done]. by apply (adds_fail _ env cause o o1) in H. Qed.

Lemma delivery_reflects env d o :
  oinv o -> pending_ok o -> turn_reflects o (turn_delivery options env d o).
Proof.
  intros Ho Hp. assert (Hself : forall cause, turn_reflects o (orchestrator_fail env cause o))
    by (intros; apply reflects_fail; by apply adds_refl).
  unfold turn_delivery. destruct (parseMessage _ _ _) as [m|e] eqn:Hparse; [|apply Hself].
  case_match; [apply Hself|]. destruct (m_Snapshot m) as [s|] eqn:Hm; [|apply Hself].
  assert (Hupd : update_of d = Some s) by (unfold update_of; by rewrite Hparse).
  destruct (Contains _ _ _) as [completed|e] eqn:Hc; [|apply Hself].
  destruct (l_ready o) eqn:Hready; cbn [negb].
  - pose proof (pn_ready _ Hp Hready) as Hnil. destruct completed.
    + assert (Hadd : adds (reflected (o_operations o) (l_reconciler o)) o (fst (ack_update env 0 d (m_OperationID m) o))).
      { apply adds_ack. exists s. split; [done|]. left. eexists. by rewrite <- (Contains_holds _ _ _ _ Hc). }
      unfold ack_update in *. cbn [fst] in Hadd.
      destruct (te_ack env 0) as [[]|e]; [split; [done|intros _; by apply pending_empty]|by apply reflects_fail].
    + pose proof (reconcile_update_newest env m s o Ho Hready) as Hnew.
      pose proof (adds_reconcile (reflected (o_operations o) (l_reconciler (fst (reconcile_update env m s o)))) env m s o) as Hadd.
      pose proof (pending_reconcile env m s o) as Hpr.
      destruct (reconcile_update env m s o) as [o1 [e|]]; cbn [fst] in *; [by apply reflects_fail|].
      assert (Hadd2 : adds (reflected (o_operations o) (l_reconciler o1)) o (fst (complete_update env 0 (m_OperationID m) d o1))).
      { eapply adds_trans; [exact Hadd|]. apply adds_complete. exists s. split; [done|]. right. by apply Hnew. }
      pose proof (pending_complete env 0 (m_OperationID m) d o1) as Hpc.
      destruct (core_complete env 0 d (m_OperationID m) o1) as [Hrc _ _ _ _].
      destruct (complete_update _ _ _ _ _) as [o2 [[]|e]]; cbn [fst] in *; rewrite <- Hrc in Hadd2;
        [|by apply reflects_fail]. split; [done|]. intros _. apply pending_empty. cbn. congruence.
  - destruct (ApplyUpdate (l_reconciler o) s) as [r' [b|e]] eqn:Hu; [|apply reflects_fail; by apply adds_refl].
    split; [by apply adds_refl|]. intros _. cbn [fst].
    destruct Ho as [Hok _ Hr _ _ _]. rewrite Hready in Hr.
    destruct (ApplyUpdate_unready _ _ _ _ Hok Hr Hu) as (_ & _ & Hbuf). destruct Hp as [_ Hb Hcm].
    split; cbn; [by rewrite Hready| |].
    + rewrite Hbuf. intros x [Hin|Heq%list_elem_of_singleton]%elem_of_app.
      * destruct (Hb x Hin) as (u & ? & ?). exists u. set_solver.
      * subst x. exists s. set_solver.
    + intros x [Hin|Heq%list_elem_of_singleton]%elem_of_app; [auto|]. subst x. cbn. intros ->.
      eexists. by rewrite <- (Contains_holds _ _ _ _ Hc).
Qed.

Lemma result_reflects env request r o :
  oinv o -> pending_ok o -> turn_reflects o (turn_result options env request r o).
Proof.
  intros Ho Hp. unfold turn_result. destruct r as [response|e].
  - destruct (ValidateFor _ _); [|apply reflects_fail; by apply adds_refl].
    set (o1 := o <| l_inflight := None |> <| l_retryDelay := oo_RetryInitial options |>).
    assert (Ho1 : oinv o1) by (eapply oinv_core; [|exact Ho]; by split).
    assert (Hp1 : pending_ok o1) by (by eapply pending_same; [..|exact Hp]).
    assert (Hres : turn_reflects o1 (if negb (l_ready o1)
      then finish_bootstrap env request (sp_Snapshot response) o1
      else match reconcile_update env (mkMessage KindMembershipSnapshot (sr_CorrelationID request)
                   (sp_Group response) (Some (sp_Snapshot response)) None None None None) (sp_Snapshot response) o1 with
           | (o, Some e) => orchestrator_fail env e o
           | (o, None) => (o, None)
           end)).
    { destruct (l_ready o1) eqn:Hready; cbn [negb].
      - pose proof (pn_ready _ Hp1 Hready) as Hnil.
        match goal with |- context [reconcile_update env ?m ?x o1] =>
          pose proof (adds_reconcile (reflected (o_operations o1) (l_reconciler (fst (reconcile_update env m x o1)))) env m x o1) as Hadd;
          pose proof (pending_reconcile env m x o1) as Hpr;
          destruct (reconcile_update env m x o1) as [o2 [e|]] end; cbn [fst] in *; [by apply reflects_fail|].
        split; [done|]. intros _. apply pending_empty. cbn. congruence.
      - pose proof (bootstrap_reflected env request (sp_Snapshot response) o1 Ho1 Hready Hp1) as Hb.
        destruct (finish_bootstrap _ _ _ _) as [o2 stopped]. exact Hb. }
    destruct (if negb (l_ready o1) then _ else _) as [o2 [e|]]; [exact Hres|]. destruct Hres as [Hadd Hpo].
    cbn [fst snd] in *. split; cbn [fst snd]; [|intros _; by apply pending_again, Hpo].
    destruct (core_start_again env o2) as [-> _ _ _ _]. eapply adds_trans; [exact Hadd|apply adds_start_again].
  - split; cbn [fst snd].
    + eapply adds_trans; [|apply adds_start_again]. apply adds_refl. by destruct (l_retry _).
    + intros _. apply pending_again. eapply pending_same; [..|exact Hp]; by destruct (l_retry _).
Qed.

Lemma turn_reflected env t o res :
  oinv o -> pending_ok o -> (t = TurnReconnect -> l_pending o = []) ->
  orchestrate options env t o = Some res -> turn_reflects o res.
Proof.
  intros Ho Hp Hsteady H.
  assert (Hself : forall cause, turn_reflects o (orchestrator_fail env cause o))
    by (intros; apply reflects_fail; by apply adds_refl).
  destruct t; cbn [orchestrate] in H; repeat case_match; simplify_eq; try apply Hself;
    try (by split; [by apply adds_refl|intros _; by eapply pending_same; [..|exact Hp]]).
  - split; [apply adds_startRequest|intros _; by apply pending_request].
  - split; cbn [fst snd].
    + eapply adds_trans; [by apply (adds_refl _ o (o <| l_retry := false |>))|apply adds_startRequest].
    + intros _. apply pending_request. by eapply pending_same; [..|exact Hp].
  - unfold turn_reconnect. case_match; [|apply reflects_fail; by eapply adds_emit].
    split; cbn [fst snd].
    + eapply adds_trans; [|apply adds_startRequest]. by eapply adds_emit.
    + intros _. apply pending_request, pending_empty. cbn. by apply Hsteady.
  - by apply delivery_reflects.
  - by apply result_reflects.
Qed.

Lemma steady_pending o : steady o -> pending_ok o.
Proof.
  induction 1 as [env subscription operations o H|env t o o' Hs IH Hstep Hre].
  - unfold orchestrator_start in H. destruct (te_failClosed env); [|done].
    destruct subscription as [[[[] reconnects] errs]|e]; try done. cbn [negb] in H. injection H as <-.
    by apply pending_request, pending_empty.
  - apply steady_orchestrated, orchestrated_inv in Hs as [Ho _].
    by apply (turn_reflected env t o (o', None) Ho IH Hre Hstep).
Qed.

(** In a run that does not reconnect while updates are buffered, a membership
    update is acknowledged only when its operation was already complete or the
    reconciler is at its revision or a later one: no acknowledged update is
    lost. *)
Theorem acknowledged_updates_reflected env t o o' r d op a :
  steady o -> (t = TurnReconnect -> l_pending o = []) ->
  orchestrate options env t o = Some (o', r) ->
  OvAck d op a ∈ drop (length (o_trace o)) (o_trace o') ->
  exists s, update_of d = Some s /\
    ((exists t, holds (o_operations o) t op = true) \/
     exists c, rc_current (l_reconciler o') = Some c /\ ms_Revision s <= ms_Revision c).
Proof.
  intros Hs Hre Hstep Hin. pose proof (steady_pending o Hs) as Hp.
  apply steady_orchestrated, orchestrated_inv in Hs as [Ho _].
  destruct (turn_reflected env t o (o', r) Ho Hp Hre Hstep) as [(l & Htr & Hacks) _].
  cbn [fst] in Htr. rewrite Htr, drop_app_length in Hin. exact (Hacks d op a Hin).
Qed.
End Theorems.
