(* ===== verification/OrchestratorScenario.v ===== *)
(** * Runs of the group orchestrator

    A participant that bootstraps and follows an update, and two runs in which
    the subscription reconnects while a snapshot request is in flight.  The
    controller had answered that request before the reconnection. *)

From S2P Require Import Prelude Outbox Snapshot Messages Reconciler ControllerTypes Controller PublisherScenario Wire WireTheorems WireScenario OperationStore OperationStoreTheorems Broker0 Orchestrator OrchestratorTheorems.
From Stdlib Require Import ZArith Lia.
From stdpp Require Import base gmap strings numbers option list.
#[local] Open Scope string_scope.
#[local] Open Scope list_scope.
#[local] Open Scope Z_scope.
#[local] Existing Instance demo_urls.
#[local] Existing Instance binary_times.

Definition follower : OrchestratorOptions :=
  orchestrator_withDefaults (mkOrchestratorOptions "ns" "orders" "sub-1" RoleSubscriber 0 0 0 0 0).

(** Everything answers, at time [t]. *)
Definition calm (t : Time) (correlation : string) : TurnEnv :=
  mkTurnEnv t correlation (at_time t) (fun _ => nil_err) nil_err (fun _ => at_time t) (fun _ => nil_err).

Definition empty_store : JSONOperationStore := OperationStoreTheorems.opened.
Definition update (op : string) (s : MembershipSnapshot) : Delivery :=
  mkDelivery KindMembershipSnapshot op (text_of (enc_snapshot s)) None true.
Definition reply (correlation : string) (s : MembershipSnapshot) : SnapshotResponse :=
  mkSnapshotResponse BootstrapProtocolVersion correlation "ns" "orders" "sub-1" RoleSubscriber s.

(** The state after a list of turns, if each was enabled and went on. *)
Fixpoint turns (script : list (TurnEnv * turn)) (o : Orchestrator JSONOperationStore)
    : option (Orchestrator JSONOperationStore) :=
  match script with
  | [] => Some o
  | (env, t) :: rest =>
      match orchestrate follower env t o with
      | Some (o, None) => turns rest o
      | _ => None
      end
  end.

Lemma turns_orchestrated script o o' :
  orchestrated follower o -> turns script o = Some o' -> orchestrated follower o'.
Proof.
  revert o. induction script as [|[env t] script IH]; intros o Ho H; cbn in H; [by injection H as <-|].
  destruct (orchestrate follower env t o) as [[o1 [e|]]|] eqn:Hs; [done| |done].
  apply (IH o1); [by eapply orch_turn|done].
Qed.

Definition begun : Orchestrator JSONOperationStore :=
  fst (orchestrator_start follower (calm 1 "c1") (Ok (true, true, true)) empty_store).

Lemma begun_orchestrated : orchestrated follower begun.
Proof. apply (orch_start follower (calm 1 "c1") (Ok (true, true, true)) empty_store). by vm_compute. Qed.

Lemma run_from_begun script o :
  turns script begun = Some o -> orchestrated follower o.
Proof. apply turns_orchestrated, begun_orchestrated. Qed.

Lemma turns_steady script o :
  Forall (fun et => snd et <> TurnReconnect) script -> turns script begun = Some o -> steady follower o.
Proof.
  assert (Hb : steady follower begun).
  { apply (steady_start follower (calm 1 "c1") (Ok (true, true, true)) empty_store). by vm_compute. }
  revert Hb. generalize begun. intros o1 Ho1 Hall. revert o1 Ho1.
  induction Hall as [|[env t] script Ht Hall IH]; intros o1 Ho1 H; cbn in H; [by injection H as <-|].
  destruct (orchestrate follower env t o1) as [[o2 [e|]]|] eqn:Hs; [done| |done].
  apply (IH o2); [|done]. apply (steady_turn follower env t o1 o2 Ho1 Hs). by intros ->.
Qed.

(** ** A run without trouble *)
Definition bootstrapped_script : list (TurnEnv * turn) :=
  [(calm 2 "c2", TurnResult (Ok (reply "c1" one_broker)))].
Definition followed_script : list (TurnEnv * turn) :=
  bootstrapped_script ++ [(calm 3 "c2", TurnRefresh); (calm 3 "c3", TurnDelivery (Some (update "u2" preparing)))].

Definition state_after (script : list (TurnEnv * turn)) : Orchestrator JSONOperationStore :=
  default begun (turns script begun).
Definition bootstrapped : Orchestrator JSONOperationStore := state_after bootstrapped_script.
Definition followed : Orchestrator JSONOperationStore := state_after followed_script.

Lemma state_after_run script :
  turns script begun = Some (state_after script) -> orchestrated follower (state_after script).
Proof. apply run_from_begun. Qed.

Lemma followed_snapshot : orchestrator_Snapshot followed = Some preparing.
Proof. by vm_compute. Qed.

Lemma exposed_state_is_authoritative_witness :
  orchestrator_Snapshot followed = installed (o_trace followed) /\
  forall s, orchestrator_Snapshot followed = Some s ->
    reconciler_Snapshot (l_reconciler followed) = Some s /\ Validate s = nil_err /\
    ms_ScalingGroup s = oo_Group follower.
Proof. apply exposed_state_is_authoritative. apply state_after_run. by vm_compute. Defined.

Lemma returned_run_fails_closed_witness :
  orchestrator_Snapshot (fst (orchestrator_fail (calm 9 "c9") ErrMembershipStale followed)) = None /\
  installed (o_trace (fst (orchestrator_fail (calm 9 "c9") ErrMembershipStale followed))) = None.
Proof.
  apply (returned_run_fails_closed follower (calm 9 "c9") TurnStale followed _ ErrMembershipStale);
    [|reflexivity]. apply state_after_run. by vm_compute.
Defined.

Lemma exposed_state_advances_witness :
  exists s', orchestrator_Snapshot followed = Some s' /\ advances one_broker s'.
Proof.
  apply (exposed_state_advances follower (calm 3 "c3") (TurnDelivery (Some (update "u2" preparing)))
    (state_after (bootstrapped_script ++ [(calm 3 "c2", TurnRefresh)]))).
  - apply state_after_run. by vm_compute.
  - by vm_compute.
  - discriminate.
  - by vm_compute.
Defined.

(** The last acknowledgement of the run. *)
Lemma acknowledged_updates_reflected_witness :
  exists s, update_of (update "u2" preparing) = Some s /\
    ((exists t, holds (o_operations (state_after (bootstrapped_script ++ [(calm 3 "c2", TurnRefresh)]))) t "u2" = true) \/
     exists c, rc_current (l_reconciler followed) = Some c /\ ms_Revision s <= ms_Revision c).
Proof.
  apply (acknowledged_updates_reflected follower (calm 3 "c3") (TurnDelivery (Some (update "u2" preparing)))
    (state_after (bootstrapped_script ++ [(calm 3 "c2", TurnRefresh)])) followed None
    (update "u2" preparing) "u2" nil_err).
  - apply (turns_steady (bootstrapped_script ++ [(calm 3 "c2", TurnRefresh)]));
      [repeat constructor; discriminate|by vm_compute].
  - discriminate.
  - by vm_compute.
  - apply (list_elem_of_lookup_2 _ 2%nat). by vm_compute.
Defined.

(** ** Reconnecting with a request in flight *)

(** The update of revision 2 is buffered, the subscription reconnects, and the
    answer to the request of before, of revision 1, arrives. *)
Definition lost_script : list (TurnEnv * turn) :=
  [(calm 2 "c2", TurnDelivery (Some (update "u2" preparing)));
   (calm 3 "c3", TurnReconnect);
   (calm 4 "c4", TurnResult (Ok (reply "c1" one_broker)))].
Definition lost : Orchestrator JSONOperationStore := state_after lost_script.

(** Revision 2 is being followed, the subscription reconnects, and the answer to
    the refresh of before, of revision 1, arrives. *)
Definition regressed_script : list (TurnEnv * turn) :=
  followed_script ++
  [(calm 4 "c4", TurnReconnect); (calm 5 "c5", TurnResult (Ok (reply "c2" one_broker)))].
Definition regressed : Orchestrator JSONOperationStore := state_after regressed_script.

(** C39: a reconnection replaces the reconciler but keeps the list of buffered
    deliveries and the request in flight.  In the first run the update of
    revision 2 is recorded as complete and acknowledged, so that it is not
    delivered again, while the participant is left with revision 1 and no buffer
    holds the update.  In the second run the participant has followed revision 2
    and is put back to revision 1 by the answer to a request sent before the
    reconnection, which is taken as the fresh full snapshot. *)
Theorem reconnect_trusts_old_requests :
  (orchestrated follower lost /\ update_of (update "u2" preparing) = Some preparing /\
   OvAck (update "u2" preparing) "u2" nil_err ∈ o_trace lost /\
   Contains (at_time 4) (o_operations lost) "u2" = Ok true /\
   orchestrator_Snapshot lost = Some one_broker /\
   l_pending lost = [] /\ rc_buffered (l_reconciler lost) = []) /\
  (orchestrated follower regressed /\ orchestrator_Snapshot followed = Some preparing /\
   orchestrator_Snapshot regressed = Some one_broker) /\
  ms_Revision one_broker < ms_Revision preparing.
Proof.
  split_and!; try (apply state_after_run); try (by vm_compute).
  apply (list_elem_of_lookup_2 _ 5%nat). by vm_compute.
Qed.
