(* ===== verification/Broker0Scenario.v ===== *)
(** * The broker-0 channel around one transition

    The subscriber of the scale-out of [ControllerScenario] executes its PREPARE
    command and publishes the acknowledgement; the controller's inbox applies
    it, records it and settles it, and settles a redelivery of it without
    applying it again. *)

From S2P Require Import Prelude Customer Outbox Snapshot Messages Naming ControllerTypes Controller ControllerScenario.
From S2P Require Import Wire WireTheorems WireScenario OperationStore OperationStoreTheorems.
From S2P Require Import Broker0 Broker0Inbox Broker0Theorems Broker0Command Broker0CommandTheorems.
From Stdlib Require Import ZArith Lia.
From stdpp Require Import base gmap strings numbers option list.
#[local] Open Scope Z_scope.
#[local] Open Scope string_scope.
#[local] Open Scope list_scope.
#[local] Existing Instance scenario_urls.
#[local] Existing Instance binary_times.
#[local] Instance front : ControllerHandler World := Controller_handler scenario_options.

(** ** The messages *)
Definition prepare_command (id : string) : CommandEnvelope :=
  mkCommandEnvelope ProtocolVersion id "ns" "orders" "t-1" 2 CPrepare
    "sub-1" RoleSubscriber (at_ 1) (at_ 30).
Definition prepare_id : string := commandID scale_out PhasePrepare subscriber.
Definition prepared : AcknowledgementEnvelope :=
  command_acknowledgement (prepare_command prepare_id) (at_ 2).

Definition command_delivery : Delivery :=
  mkDelivery KindCommand prepare_id (text_of (enc_command (prepare_command prepare_id))) None true.
Definition acknowledgement_delivery : Delivery :=
  mkDelivery KindAcknowledgement (ae_MessageID prepared) (text_of (enc_acknowledgement prepared))
    (Some (mkQueueScope (Some "sub-1") KindAcknowledgement "orders" RoleSubscriber)) true.

Lemma ends_with {A B : Type} (p : A * B) (b : B) : snd p = b -> p = (fst p, b).
Proof. by destruct p; intros <-. Qed.

(** ** The stores *)
Definition store_call (t : Time) : CallEnv := mkCallEnv nil_err t None.
Definition empty_store : JSONOperationStore :=
  mkJSONStore (mkStoreOptions 10 (3600 * Second)) fresh_state (mkDisk Absent true Absent None).

(** ** The controller's inbox *)
Definition answers (t : Time) : HandleEnv := mkHandleEnv _ _ (store_call t) (healthy t) (store_call t) nil_err.
Definition try_at (t : Time) : attempt World := mkAttempt (answers t) nil_err nil_err nil_err.
Definition receive (t : Time) : received World :=
  mkReceived (Ok (Some acknowledgement_delivery)) nil_err [try_at t].

(** After the PREPARE commands have been issued. *)
Definition preparing : Inbox JSONOperationStore World := mkInbox empty_store (run (take 2 to_drain)) [].
Definition first_delivery : Inbox JSONOperationStore World * delivery_outcome :=
  Run [receive (at_ 3)] preparing.
Definition seen : Inbox JSONOperationStore World :=
  mkInbox (in_operations (fst first_delivery)) (in_controller (fst first_delivery)) [].

(** The trace of the first delivery: applied, recorded, settled. *)
Example first_delivery_trace : exists a,
  in_trace (fst first_delivery) =
    [IvAcknowledge (ae_MessageID prepared) a nil_err; IvRecord (ae_MessageID prepared) nil_err;
     IvAck acknowledgement_delivery (ae_MessageID prepared) nil_err].
Proof. eexists. vm_compute. reflexivity. Qed.

Lemma inbox_acks_only_durable_witness :
  (exists t, holds empty_store t (ae_MessageID prepared) = true) \/
  (exists d' ev a b,
     take 2 (in_trace (fst first_delivery)) = a ++ ev :: IvRecord (ae_MessageID prepared) nil_err :: b /\
     hands_over d' (ae_MessageID prepared) ev nil_err).
Proof.
  apply (inbox_acks_only_durable [receive (at_ 3)] preparing (fst first_delivery) Pending
    (take 2 (in_trace (fst first_delivery))) acknowledgement_delivery (ae_MessageID prepared) nil_err []);
    [reflexivity|apply ends_with; vm_compute; reflexivity|vm_compute; reflexivity].
Defined.

Lemma recorded_operation_not_reapplied_witness :
  Forall (fun e => hands (ae_MessageID prepared) e = false)
    (in_trace (fst (Run [receive (at_ 60); receive (at_ 90)] seen))).
Proof.
  apply (recorded_operation_not_reapplied (at_ 90) (ae_MessageID prepared)
    [receive (at_ 60); receive (at_ 90)] seen _ Pending); [reflexivity|vm_compute; reflexivity| |].
  - repeat constructor; vm_compute; discriminate.
  - apply ends_with. vm_compute. reflexivity.
Defined.

Lemma settled_acknowledgement_recorded_witness :
  exists phase g t, controllerPhase CPrepare = Ok phase /\
    ps_Groups (w_mem (in_controller (fst (Handle (answers (at_ 3)) (Some acknowledgement_delivery) preparing))))
      !! "orders" = Some g /\
    acks_for g phase !! "sub-1" = Some t /\ at_ 2 <= t.
Proof.
  apply (settled_acknowledgement_recorded scenario_options (answers (at_ 3)) acknowledgement_delivery
    (mkMessage KindAcknowledgement (ae_MessageID prepared) "orders" None None None (Some prepared) None)
    prepared preparing);
    [vm_compute; reflexivity|reflexivity|vm_compute; reflexivity|apply ends_with; vm_compute; reflexivity].
Defined.

(** ** The participant's inbox *)

(** A publisher of acknowledgements that the broker accepts. *)
#[local] Instance outgoing : AcknowledgementPublisher (list AcknowledgementEnvelope) := {|
  ap_env := unit;
  ap_publish _ e sent := ((sent ++ [e]), nil_err);
|}.

Definition participant : CommandHandler :=
  mkCommandHandler "sub-1" RoleSubscriber "ns" {["orders"]}.
Definition command_answers (t : Time) : CommandEnv :=
  mkCommandEnv _ _ (store_call t) t (fun _ => nil_err) t tt (store_call t) nil_err.
Definition receive_command (t : Time) : command_received (list AcknowledgementEnvelope) :=
  mkCommandReceived (Ok (Some command_delivery)) nil_err
    [mkCommandAttempt (command_answers t) nil_err nil_err nil_err].
Definition idle : Participant JSONOperationStore (list AcknowledgementEnvelope) :=
  mkParticipant empty_store [] [].
Definition commanded : Participant JSONOperationStore (list AcknowledgementEnvelope) * delivery_outcome :=
  command_Run participant [receive_command (at_ 2); receive_command (at_ 3)] idle.

(** The command, delivered twice, is executed once and its acknowledgement is
    the one the controller's inbox receives above. *)
Example commanded_once :
  (match pa_trace (fst commanded) with
   | [CvExecute _ _ _; CvPublish a _; CvRecord _ _; CvAck _ _ _; CvAck _ _ _] => bool_decide (ae_MessageID a = ae_MessageID prepared)
   | _ => false
   end = true) /\ pa_publisher (fst commanded) = [prepared].
Proof. split; vm_compute; reflexivity. Qed.

Lemma commands_settle_in_order_witness :
  (forall pre d op r post, pa_trace (fst commanded) = (pre ++ CvAck d op r :: post) ->
     (exists t, holds empty_store t op = true) \/
     (exists command ev ev' a b, ce_MessageID command = op /\
        pre = (a ++ ev :: ev' :: CvRecord op nil_err :: b) /\
        executes participant command ev nil_err /\ acknowledges command ev' nil_err)) /\
  (forall command t r, CvExecute command t r ∈ pa_trace (fst commanded) ->
     assigned participant command /\ t <= ce_Deadline command).
Proof.
  apply (commands_settle_in_order participant [receive_command (at_ 2); receive_command (at_ 3)] idle
    (fst commanded) Pending); [reflexivity|apply ends_with; vm_compute; reflexivity].
Defined.

(** A valid command with an identifier of 1021 bytes. *)
Definition long_command : CommandEnvelope :=
  prepare_command (String.concat "" (replicate 1021 "x")).

Lemma long_command_never_acknowledged_witness :
  command_Validate long_command = nil_err /\
  exists e, handle_command (command_answers (at_ 2)) command_delivery long_command idle
            = (pa_emit (CvExecute long_command (at_ 2) nil_err) idle, Transient e).
Proof.
  split; [vm_compute; reflexivity|].
  apply (long_command_never_acknowledged (command_answers (at_ 2)) command_delivery long_command idle);
    [vm_compute; reflexivity|vm_compute; reflexivity|vm_compute; discriminate|reflexivity].
Defined.
