(* ===== verification/Cloud.v ===== *)
(** * Cloud services of a qualification run (cloud/types.go, journal.go, lifecycle.go)

    The identity of a service and how an existing service is compared with it,
    the durable journal, and the lifecycle that creates, adopts and deletes the
    services of an immutable plan.

    [ensureOne] and [Cleanup] are written as trees of requests to the Mission
    Control API and to the journal ([prog]); [CloudTheorems] runs them under
    arbitrary answers, interleaved, with crashes. *)

From S2P Require Import Prelude.
From Stdlib Require Import ZArith Lia.
From stdpp Require Import base gmap strings pretty numbers option list.
#[local] Open Scope Z_scope.

(** ** Services *)
Record ConnectionPort := mkConnectionPort { port_Protocol : string; port_Port : Z }.
#[export] Instance ConnectionPort_eq_dec : EqDecision ConnectionPort.
Proof. solve_decision. Defined.

Record ConnectionEndpoint := mkConnectionEndpoint {
  ep_ID : string;
  ep_Name : string;
  ep_Description : string;
  ep_AccessType : string;
  ep_CreationState : string;
  ep_Hostnames : list string;
  ep_Ports : list ConnectionPort;
}.
#[export] Instance ConnectionEndpoint_eq_dec : EqDecision ConnectionEndpoint.
Proof. solve_decision. Defined.

Record ServiceIdentity := mkServiceIdentity {
  id_Name : string;
  id_DatacenterID : string;
  id_ServiceClassID : string;
  id_BrokerVersion : string;
  id_MessageVPN : string;
  id_MaxSpoolUsageGB : Z;
  id_EnvironmentID : string;
  id_Locked : bool;
  id_RedundancyGroupSSLEnabled : bool;
  id_DMREnabled : bool;
  id_ServiceConnectionEndpoints : list ConnectionEndpoint;
}.

Record CreateServiceRequest := mkCreateServiceRequest {
  cr_Name : string;
  cr_DatacenterID : string;
  cr_ServiceClassID : string;
  cr_BrokerVersion : string;
  cr_MessageVPN : string;
  cr_MaxSpoolUsageGB : Z;
  cr_EnvironmentID : string;
  cr_Locked : bool;
  cr_RedundancyGroupSSLEnabled : bool;
  cr_DMREnabled : bool;
  cr_ServiceConnectionEndpoints : list ConnectionEndpoint;
}.

Record Credential := mkCredential { cred_Username : string; cred_Password : string; cred_Token : string }.

Record MessageVPN := mkMessageVPN {
  vpn_Name : string;
  vpn_Subdomain : string;
  vpn_ServiceCredential : Credential;
  vpn_ManagementAdminCredential : Credential;
  vpn_MissionControlManagerCredential : Credential;
}.

Record Broker := mkBroker {
  br_Version : string;
  br_MaxSpoolUsageGB : Z;
  br_RedundancyGroupSSLEnabled : bool;
  br_ManagementReadOnlyCredential : Credential;
  br_MessageVPNs : list MessageVPN;
}.

Record Service := mkService {
  sv_ID : string;
  sv_Name : string;
  sv_BrokerVersion : string;
  sv_CreatedBy : string;
  sv_OwnedBy : string;
  sv_DatacenterID : string;
  sv_ServiceClassID : string;
  sv_MessageVPN : string;
  sv_EnvironmentID : string;
  sv_Locked : bool;
  sv_CreationState : string;
  sv_AdminState : string;
  sv_DMREnabled : bool;
  sv_OngoingOperationIDs : list string;
  sv_Broker : Broker;
  sv_ConnectionEndpoints : list ConnectionEndpoint;
}.

Record Operation := mkOperation {
  op_ID : string;
  op_OperationType : string;
  op_ResourceID : string;
  op_Status : string;
}.

Record PlannedService := mkPlannedService { pl_Role : string; pl_Request : CreateServiceRequest }.

(** Slices are copied; a clone is the same value. *)
Definition Identity (r : CreateServiceRequest) : ServiceIdentity := {|
  id_Name := cr_Name r; id_DatacenterID := cr_DatacenterID r; id_ServiceClassID := cr_ServiceClassID r;
  id_BrokerVersion := cr_BrokerVersion r; id_MessageVPN := cr_MessageVPN r;
  id_MaxSpoolUsageGB := cr_MaxSpoolUsageGB r; id_EnvironmentID := cr_EnvironmentID r;
  id_Locked := cr_Locked r; id_RedundancyGroupSSLEnabled := cr_RedundancyGroupSSLEnabled r;
  id_DMREnabled := cr_DMREnabled r; id_ServiceConnectionEndpoints := cr_ServiceConnectionEndpoints r |}.

Definition identity_validate (i : ServiceIdentity) : gerr :=
  fail_if (blank (id_Name i) || blank (id_DatacenterID i) || blank (id_ServiceClassID i) ||
           blank (id_BrokerVersion i) || blank (id_MessageVPN i))
    (ErrNew "service identity requires name, datacenter ID, service class ID, broker version, and message VPN").

Definition port_matches (wanted actual : ConnectionPort) : bool :=
  str_eqb (port_Protocol wanted) (port_Protocol actual) && (port_Port wanted =? port_Port actual).
Definition endpointIdentityMatches (wanted actual : ConnectionEndpoint) : bool :=
  str_eqb (ep_Name wanted) (ep_Name actual) && str_eqb (ep_AccessType wanted) (ep_AccessType actual) &&
  forallb (fun w => existsb (port_matches w) (ep_Ports actual)) (ep_Ports wanted).

Definition differs (c : bool) (field : string) : list string := if c then [field] else [].

Definition mismatches (i : ServiceIdentity) (s : Service) : list string :=
  differs (negb (str_eqb (sv_Name s) (id_Name i))) "name" ++
  differs (negb (str_eqb (sv_DatacenterID s) (id_DatacenterID i))) "datacenterId" ++
  differs (negb (str_eqb (sv_ServiceClassID s) (id_ServiceClassID i))) "serviceClassId" ++
  differs (negb (str_eqb (sv_BrokerVersion s) (id_BrokerVersion i))) "eventBrokerServiceVersion" ++
  differs (negb (str_eqb (sv_MessageVPN s) (id_MessageVPN i))) "msgVpnName" ++
  differs (negb (str_empty (id_EnvironmentID i)) &&
           negb (str_eqb (sv_EnvironmentID s) (id_EnvironmentID i))) "environmentId" ++
  differs (negb (Bool.eqb (sv_Locked s) (id_Locked i))) "locked" ++
  differs (negb (id_MaxSpoolUsageGB i =? 0) &&
           negb (br_MaxSpoolUsageGB (sv_Broker s) =? id_MaxSpoolUsageGB i)) "maxSpoolUsage" ++
  differs (negb (Bool.eqb (br_RedundancyGroupSSLEnabled (sv_Broker s)) (id_RedundancyGroupSSLEnabled i)))
    "redundancyGroupSslEnabled" ++
  differs (negb (forallb (fun w => existsb (endpointIdentityMatches w) (sv_ConnectionEndpoints s))
                   (id_ServiceConnectionEndpoints i))) "serviceConnectionEndpoints".

Definition identity_matches (i : ServiceIdentity) (s : Service) : bool :=
  bool_decide (mismatches i s = []).

(** [reflect.DeepEqual] is equality here: the slices of a plan are clones, in
    which an empty slice is nil, and JSON keeps nil slices nil. *)
Definition matchesPlan (i planned : ServiceIdentity) : bool :=
  if negb (str_eqb (id_Name i) (id_Name planned)) ||
     negb (str_eqb (id_DatacenterID i) (id_DatacenterID planned)) ||
     negb (str_eqb (id_ServiceClassID i) (id_ServiceClassID planned)) ||
     negb (str_eqb (id_BrokerVersion i) (id_BrokerVersion planned)) ||
     negb (str_eqb (id_MessageVPN i) (id_MessageVPN planned)) ||
     negb (str_eqb (id_EnvironmentID i) (id_EnvironmentID planned)) ||
     negb (Bool.eqb (id_Locked i) (id_Locked planned)) ||
     negb (Bool.eqb (id_RedundancyGroupSSLEnabled i) (id_RedundancyGroupSSLEnabled planned))
  then false else
  if negb (id_MaxSpoolUsageGB i =? 0) && negb (id_MaxSpoolUsageGB i =? id_MaxSpoolUsageGB planned)
  then false else
  if id_DMREnabled i && negb (Bool.eqb (id_DMREnabled i) (id_DMREnabled planned)) then false else
  if negb (bool_decide (id_ServiceConnectionEndpoints i = [])) &&
     negb (bool_decide (id_ServiceConnectionEndpoints i = id_ServiceConnectionEndpoints planned))
  then false else true.

(** ** The plan *)

(** The hash of the canonical JSON of the services. *)
Class PlanDigest := plan_digest : list PlannedService -> string.

Record QualificationPlan := mkQualificationPlan {
  qp_services : list PlannedService;
  qp_sha256 : string;
}.

Definition plan_roles : list string := ["broker-0"; "broker-a"; "broker-b"; "broker-c"]%string.

(** The loop: the roles and the names seen so far. *)
Definition check_planned (seen : gset string * gset string) (s : PlannedService)
    : result (gset string * gset string) :=
  let identity := Identity (pl_Request s) in
  fail_if (negb (bool_decide (pl_Role s ∈ plan_roles)) || bool_decide (pl_Role s ∈ seen.1))
    (ErrNew "qualification plan has invalid or duplicate role") ;;!
  wrap_err "qualification plan" (identity_validate identity) ;;!
  fail_if (bool_decide (id_Name identity ∈ seen.2)) (ErrNew "qualification plan duplicate service name") ;;!
  Ok ({[pl_Role s]} ∪ seen.1, {[id_Name identity]} ∪ seen.2).

Definition NewQualificationPlan `{PlanDigest} (services : list PlannedService) : result QualificationPlan :=
  let! _ := fold_result check_planned (∅, ∅) services in
  let services := sort_by (fun s t => str_ltb (pl_Role s) (pl_Role t)) services in
  Ok (mkQualificationPlan services (plan_digest services)).

(** ** The journal *)
Inductive lifecycle_state : Type :=
| stateCreateIntent | stateCreating | stateReady | stateDeleting | stateDeleted | stateAbsent
| stateOther (s : string).
#[export] Instance lifecycle_state_eq_dec : EqDecision lifecycle_state.
Proof. solve_decision. Defined.

Record JournalService := mkJournalService {
  jr_Role : string;
  jr_Identity : ServiceIdentity;
  jr_State : lifecycle_state;
  jr_IdempotencyKey : string;
  jr_ServiceID : string;
  jr_OperationID : string;
  jr_UpdatedAt : Time;
}.
#[export] Instance eta_JournalService : Eta JournalService := fun r =>
  mkJournalService (jr_Role r) (jr_Identity r) (jr_State r) (jr_IdempotencyKey r) (jr_ServiceID r)
    (jr_OperationID r) (jr_UpdatedAt r).

Definition journalSchemaVersion : Z := 1.

(** A nil map of services is the empty one. *)
Record journalDocument := mkJournalDocument {
  jd_SchemaVersion : Z;
  jd_PlanSHA256 : string;
  jd_TokenOwner : string;
  jd_Services : gmap string JournalService;
}.
#[export] Instance eta_journalDocument : Eta journalDocument := fun d =>
  mkJournalDocument (jd_SchemaVersion d) (jd_PlanSHA256 d) (jd_TokenOwner d) (jd_Services d).

(** The file under the journal's path: whether its permissions are private, and
    the document it decodes to. *)
Inductive journal_file : Type :=
| JAbsent
| JFile (private : bool) (content : option journalDocument).

(** The file as the process sees it, and what stable storage holds. *)
Record journal_disk := mkJournalDisk {
  jk_visible : journal_file;
  jk_durable : journal_file;
}.
#[export] Instance eta_journal_disk : Eta journal_disk := fun d =>
  mkJournalDisk (jk_visible d) (jk_durable d).

(** What can be found after a crash. *)
Definition journal_images (d : journal_disk) : list journal_file := [jk_visible d; jk_durable d].

Record Journal := mkJournal {
  jo_document : journalDocument;
  jo_locked : bool;
  jo_disk : journal_disk;
}.
#[export] Instance eta_Journal : Eta Journal := fun j =>
  mkJournal (jo_document j) (jo_locked j) (jo_disk j).

Definition jo_services (j : Journal) : gmap string JournalService := jd_Services (jo_document j).

(** *** persistLocked *)
Inductive persist_action : Type :=
| PCreateTemp | PChmodTemp | PEncode | PSync | PClose | PRename | PChmod | POpenDirectory
| PSyncDirectory | PCloseDirectory.
#[export] Instance persist_action_eq_dec : EqDecision persist_action.
Proof. solve_decision. Defined.

Definition persist_actions : list persist_action :=
  [PCreateTemp; PChmodTemp; PEncode; PSync; PClose; PRename; PChmod; POpenDirectory;
   PSyncDirectory; PCloseDirectory].

(** The temporary file is private and synced when it replaces the journal. *)
Definition persist_effect (document : journalDocument) (a : persist_action) (d : journal_disk) : journal_disk :=
  match a with
  | PRename => d <| jk_visible := JFile true (Some document) |>
  | PSyncDirectory => d <| jk_durable := jk_visible d |>
  | _ => d
  end.

(** The actions in order until one fails. *)
Fixpoint persist_loop (fault : option (persist_action * gerror)) (document : journalDocument)
    (actions : list persist_action) (d : journal_disk) : journal_disk * gerr :=
  match actions with
  | [] => (d, nil_err)
  | a :: rest =>
      match fault with
      | Some (f, e) =>
          if bool_decide (f = a) then (d, Err (ErrWrap "persist lifecycle journal" e))
          else persist_loop fault document rest (persist_effect document a d)
      | None => persist_loop fault document rest (persist_effect document a d)
      end
  end.

Definition persistLocked (fault : option (persist_action * gerror)) (j : Journal) : Journal * gerr :=
  let '(d, r) := persist_loop fault (jo_document j) persist_actions (jo_disk j) in
  (j <| jo_disk := d |>, r).

(** [put] changes the document in memory before it persists it. *)
Definition put (now : Time) (fault : option (persist_action * gerror)) (record : JournalService)
    (j : Journal) : Journal * gerr :=
  if negb (jo_locked j) then (j, Err (ErrNew "lifecycle journal is closed")) else
  let document := jo_document j in
  persistLocked fault
    (j <| jo_document := document <| jd_Services :=
            <[jr_Role record := record <| jr_UpdatedAt := now |>]> (jd_Services document) |> |>).

(** *** Opening and closing *)
Record OpenEnv := mkOpenEnv {
  oe_mkdir : gerr;
  oe_chmod : gerr;
  oe_lock : gerr;
  oe_open : gerr;
  oe_stat : gerr;
  oe_fault : option (persist_action * gerror);
}.

Definition fresh_document (plan : QualificationPlan) (owner : string) : journalDocument :=
  mkJournalDocument journalSchemaVersion (qp_sha256 plan) owner ∅.

Definition check_document (plan : QualificationPlan) (owner : string) (document : journalDocument) : gerr :=
  fail_if (negb (jd_SchemaVersion document =? journalSchemaVersion))
    (ErrNew "unsupported lifecycle journal schema") ;;!
  fail_if (negb (str_eqb (jd_PlanSHA256 document) (qp_sha256 plan)))
    (ErrNew "lifecycle journal qualification plan hash does not match") ;;!
  fail_if (negb (str_eqb (jd_TokenOwner document) owner))
    (ErrNew "lifecycle journal token owner does not match").

(** [load]: the journal, or the disk it left and the error. *)
Definition journal_load (env : OpenEnv) (plan : QualificationPlan) (owner : string) (d : journal_disk)
    : journal_disk * result Journal :=
  match jk_visible d with
  | JAbsent =>
      let '(j, r) := persistLocked (oe_fault env) (mkJournal (fresh_document plan owner) true d) in
      (jo_disk j, r ;;! Ok j)
  | JFile private content =>
      (d,
       wrap_err "open lifecycle journal" (oe_open env) ;;!
       wrap_err "stat lifecycle journal" (oe_stat env) ;;!
       fail_if (negb private) (ErrNew "lifecycle journal permissions are not private") ;;!
       match content with
       | None => Err (ErrNew "decode lifecycle journal")
       | Some document => check_document plan owner document ;;! Ok (mkJournal document true d)
       end)
  end.

Definition OpenJournal (env : OpenEnv) (path : string) (plan : QualificationPlan) (owner : string)
    (d : journal_disk) : journal_disk * result Journal :=
  if str_empty path then (d, Err (ErrNew "journal path is required")) else
  if str_empty owner then (d, Err (ErrNew "token owner is required")) else
  match oe_mkdir env, oe_chmod env, oe_lock env with
  | Ok _, Ok _, Ok _ => journal_load env plan owner d
  | Err e, _, _ => (d, Err (ErrWrap "create journal directory" e))
  | _, Err e, _ => (d, Err (ErrWrap "secure journal directory" e))
  | _, _, Err e => (d, Err e)
  end.

Definition journal_Close (j : Journal) : Journal := j <| jo_locked := false |>.

(** ** Requests

    A request to the API ([QWait] stands for the read-only polling of
    [WaitOperation]), the clock, the random source or the journal, and the type
    of its answer. *)
Inductive request : Type :=
| QGet (id : string)
| QList
| QCreate (r : CreateServiceRequest) (key : string)
| QDelete (id key : string)
| QWait (service operation : string)
| QSleep (d : Duration)
| QRandomKey
| QService (role : string)
| QServices
| QPut (record : JournalService).

Definition answer (q : request) : Type :=
  match q with
  | QGet _ => result Service
  | QList => result (list Service)
  | QCreate _ _ | QDelete _ _ | QWait _ _ => result Operation
  | QSleep _ | QPut _ => gerr
  | QRandomKey => result string
  | QService _ => option JournalService
  | QServices => gmap string JournalService
  end.

Inductive prog (A : Type) : Type :=
| Done (a : A)
| Ask (q : request) (k : answer q -> prog A).
Arguments Done {A} a.
Arguments Ask {A} q k.

Fixpoint pbind {A B} (p : prog A) (k : A -> prog B) : prog B :=
  match p with
  | Done a => k a
  | Ask q c => Ask q (fun a => pbind (c a) k)
  end.

(** [x, err := p; if err != nil { return err }]. *)
Definition ptry {A B} (p : prog (result A)) (k : A -> prog (result B)) : prog (result B) :=
  pbind p (fun r => match r with Ok a => k a | Err e => Done (Err e) end).

Definition pwrap {A} (msg : string) (p : prog (result A)) : prog (result A) :=
  pbind p (fun r => Done (wrap_err msg r)).

Declare Scope prog_scope.
Notation "x <- p ;; k" := (pbind p (fun x => k))
  (at level 100, p at next level, right associativity) : prog_scope.
Notation "x <-! p ;; k" := (ptry p (fun x => k))
  (at level 100, p at next level, right associativity) : prog_scope.
Notation "'do!' p ;; k" := (ptry p (fun _ => k))
  (at level 100, p at next level, right associativity) : prog_scope.
#[local] Open Scope prog_scope.

(** ** The client *)
Definition HTTPError (status : Z) : gerror := ErrWrap "HTTPError" (ErrNew (pretty status)).

(** [errors.As] finds an [HTTPError] anywhere in the chain. *)
Definition IsHTTPStatus {A} (r : result A) (status : Z) : bool :=
  match r with Ok _ => false | Err e => errors_Is e (HTTPError status) end.
Definition StatusNotFound : Z := 404.

Definition GetService (id : string) : prog (result Service) :=
  if blank id then Done (Err (ErrNew "service ID is required")) else Ask (QGet id) Done.
Definition ListServices : prog (result (list Service)) := Ask QList Done.
Definition CreateService (r : CreateServiceRequest) (key : string) : prog (result Operation) :=
  match identity_validate (Identity r) with
  | Err e => Done (Err e)
  | Ok _ => Ask (QCreate r key) Done
  end.
Definition DeleteService (id key : string) : prog (result Operation) :=
  if blank id then Done (Err (ErrNew "service ID is required")) else Ask (QDelete id key) Done.
Definition WaitOperation (service operation : string) : prog (result Operation) :=
  if blank service || blank operation
  then Done (Err (ErrNew "service ID and operation ID are required"))
  else Ask (QWait service operation) Done.

(** ** The lifecycle *)
Record Lifecycle := mkLifecycle {
  lc_owner : string;
  lc_idempotencyHeader : string;
  lc_plan : QualificationPlan;
  lc_pollInterval : Duration;
}.

(** [given] is that the client and the journal are not nil. *)
Definition NewLifecycle (given : bool) (owner header : string) (plan : QualificationPlan)
    (pollInterval : Duration) : result Lifecycle :=
  fail_if (negb given) (ErrNew "client and journal are required") ;;!
  fail_if (str_empty owner)
    (ErrNew "client token owner is required for safe lifecycle reconciliation") ;;!
  Ok (mkLifecycle owner header plan (if pollInterval <=? 0 then 2 * Second else pollInterval)).

Definition ownedBy (s : Service) (owner : string) : bool :=
  negb (str_empty owner) && (str_eqb (sv_OwnedBy s) owner || str_eqb (sv_CreatedBy s) owner).

Definition endpoint_ready (e : ConnectionEndpoint) : bool :=
  negb (str_empty (ep_ID e)) && str_eqb (ep_CreationState e) "completed".
Definition endpoint_present (s : Service) (wanted : ConnectionEndpoint) : bool :=
  existsb (fun e => str_eqb (ep_Name e) (ep_Name wanted) && str_eqb (ep_AccessType e) (ep_AccessType wanted))
    (sv_ConnectionEndpoints s).

Definition verifyReadyService (s : Service) (planned : PlannedService) : gerr :=
  fail_if (negb (str_eqb (sv_CreationState s) "COMPLETED")) (ErrNew "service creation state, want COMPLETED") ;;!
  fail_if (negb (str_eqb (sv_AdminState s) "START")) (ErrNew "service admin state, want START") ;;!
  fail_if (bool_decide (sv_ConnectionEndpoints s = [])) (ErrNew "service has no connection endpoints") ;;!
  fail_if (negb (forallb endpoint_ready (sv_ConnectionEndpoints s)))
    (ErrNew "service endpoint creation state, want completed") ;;!
  fail_if (negb (forallb (endpoint_present s) (cr_ServiceConnectionEndpoints (pl_Request planned))))
    (ErrNew "service is missing requested endpoint").

Section Lifecycle.
Context (l : Lifecycle).

(** A service that is not the one that was asked for. *)
Definition verify_identity (identity : ServiceIdentity) (s : Service) : gerr :=
  fail_if (negb (bool_decide (mismatches identity s = []))) (ErrNew "service identity fields differ") ;;!
  fail_if (negb (ownedBy s (lc_owner l))) (ErrNew "service owner differs from token owner").

(** The loop over one listing: exact matches and collisions of the name. *)
Fixpoint classify (identity : ServiceIdentity) (services exact collisions : list Service)
    : prog (result (list Service * list Service)) :=
  match services with
  | [] => Done (Ok (exact, collisions))
  | summary :: rest =>
      if negb (str_eqb (sv_Name summary) (id_Name identity)) then classify identity rest exact collisions else
      if str_empty (sv_ID summary) then classify identity rest exact (collisions ++ [summary]) else
      service <-! pwrap "get same-name service for reconciliation" (GetService (sv_ID summary)) ;;
      if identity_matches identity service && ownedBy service (lc_owner l)
      then classify identity rest (exact ++ [service]) collisions
      else classify identity rest exact (collisions ++ [service])
  end.

(** The attempts that are left, of three. *)
Fixpoint find_loop (left_ : nat) (identity : ServiceIdentity) : prog (result (option Service)) :=
  match left_ with
  | O => Done (Ok None)
  | S n =>
      services <-! pwrap "list services for uncertain-create reconciliation" ListServices ;;
      found <-! classify identity services [] [] ;;
      let '(exact, collisions) := found in
      if (1 <? Z.of_nat (length exact)) then Done (Err (ErrNew "refusing adoption: exact identity and owner matches exist")) else
      if negb (bool_decide (collisions = []))
      then Done (Err (ErrNew "refusing adoption: service name collision has different identity or owner")) else
      match exact with
      | service :: _ => Done (Ok (Some service))
      | [] =>
          match n with
          | O => Done (Ok None)
          | S _ =>
              do! Ask (QSleep (lc_pollInterval l * Z.of_nat (3 - n))) Done ;;
              find_loop n identity
          end
      end
  end.

Definition findServiceByIdentity (identity : ServiceIdentity) : prog (result (option Service)) :=
  find_loop 3 identity.

(** The end of every path to a ready service: it is read, compared, and recorded
    as [record] says. *)
Definition conclude (planned : PlannedService) (record : JournalService) : prog (result Service) :=
  service <-! GetService (jr_ServiceID record) ;;
  do! Done (verify_identity (Identity (pl_Request planned)) service) ;;
  do! Done (verifyReadyService service planned) ;;
  do! Ask (QPut (record <| jr_State := stateReady |>)) Done ;;
  Done (Ok service).

(** The answer to a create request is recorded and awaited. *)
Definition created (record : JournalService) (op : Operation) : prog (result JournalService) :=
  if str_empty (op_ID op) || str_empty (op_ResourceID op)
  then Done (Err (ErrNew "create response lacks operation ID or service resource ID")) else
  let record := record <| jr_State := stateCreating |> <| jr_OperationID := op_ID op |>
                       <| jr_ServiceID := op_ResourceID op |> in
  do! Ask (QPut record) Done ;;
  do! WaitOperation (jr_ServiceID record) (jr_OperationID record) ;;
  Done (Ok record).

(** A service that was found is adopted; its one running operation is awaited. *)
Definition adopt (record : JournalService) (exact : Service) : prog (result JournalService) :=
  let record := record <| jr_ServiceID := sv_ID exact |> in
  if str_empty (jr_ServiceID record) then Done (Err (ErrNew "matching service has no ID")) else
  match sv_OngoingOperationIDs exact with
  | [] => Done (Ok record)
  | [operation] =>
      let record := record <| jr_State := stateCreating |> <| jr_OperationID := operation |> in
      do! Ask (QPut record) Done ;;
      do! WaitOperation (jr_ServiceID record) (jr_OperationID record) ;;
      Done (Ok record)
  | _ => Done (Err (ErrNew "matching service has multiple ongoing operations; refusing ambiguous adoption"))
  end.

Definition reconcileCreate (planned : PlannedService) (record : JournalService) : prog (result Service) :=
  exact <-! findServiceByIdentity (Identity (pl_Request planned)) ;;
  record <-!
    (match exact with
     | None =>
         if str_empty (lc_idempotencyHeader l)
         then Done (Err (ErrNew "create remains unresolved after reconciliation; refusing an unsafe retry"))
         else
           op <-! pwrap "retry uncertain create" (CreateService (pl_Request planned) (jr_IdempotencyKey record)) ;;
           created record op
     | Some exact => adopt record exact
     end) ;;
  conclude planned (record <| jr_OperationID := ""%string |>).

(** No record yet: the intent is persisted before the request is sent. *)
Definition create_first (planned : PlannedService) : prog (result Service) :=
  key <-! Ask QRandomKey Done ;;
  let record := mkJournalService (pl_Role planned) (Identity (pl_Request planned)) stateCreateIntent key "" "" 0 in
  do! pwrap "persist create intent" (Ask (QPut record) Done) ;;
  op <-! pwrap "create request has uncertain outcome" (CreateService (pl_Request planned) key) ;;
  record <-! created record op ;;
  conclude planned record.

Definition ensureOne (planned : PlannedService) : prog (result Service) :=
  found <- Ask (QService (pl_Role planned)) Done ;;
  match found with
  | None => create_first planned
  | Some record =>
      if negb (matchesPlan (jr_Identity record) (Identity (pl_Request planned)))
      then Done (Err (ErrNew "journal identity differs from immutable plan")) else
      match jr_State record with
      | stateReady =>
          r <- GetService (jr_ServiceID record) ;;
          (match r with
           | Ok service => do! Done (verifyReadyService service planned) ;; Done (Ok service)
           | Err e =>
               Done (Err (if IsHTTPStatus r StatusNotFound
                          then ErrNew "journaled service ID no longer exists; refusing implicit replacement"
                          else e))
           end)
      | stateCreating =>
          if negb (str_empty (jr_ServiceID record)) && negb (str_empty (jr_OperationID record))
          then do! WaitOperation (jr_ServiceID record) (jr_OperationID record) ;; conclude planned record
          else reconcileCreate planned record
      | stateCreateIntent => reconcileCreate planned record
      | stateDeleting => Done (Err (ErrNew "service cleanup is incomplete; finish cleanup before ensuring"))
      | stateDeleted | stateAbsent =>
          Done (Err (ErrNew "service was deleted or proven absent; refusing implicit paid re-creation"))
      | stateOther _ => Done (Err (ErrNew "journal contains unknown state"))
      end
  end.

(** The results of the goroutines of [Ensure], collected: the services, and
    whether any of them failed. *)
Definition Ensure_results (results : list (string * result Service)) : gmap string Service * bool :=
  foldl (fun acc kr => match kr.2 with
                       | Ok s => (<[kr.1 := s]> acc.1, acc.2)
                       | Err _ => (acc.1, true)
                       end) (∅, false) results.

(** ** Cleanup *)

(** Is the intent of this role still to be resolved? *)
Definition unresolved (services : gmap string JournalService) (planned : PlannedService) : option JournalService :=
  match services !! pl_Role planned with
  | Some record => if bool_decide (jr_State record = stateCreateIntent) then Some record else None
  | None => None
  end.

(** The first loop: every intent is resolved before anything is deleted. *)
Fixpoint resolve_intents (plan : list PlannedService) (services : gmap string JournalService)
    : prog (result (gmap string JournalService)) :=
  match plan with
  | [] => Done (Ok services)
  | planned :: rest =>
      match unresolved services planned with
      | None => resolve_intents rest services
      | Some record =>
          if negb (matchesPlan (jr_Identity record) (Identity (pl_Request planned)))
          then Done (Err (ErrNew "cleanup: journal identity differs from plan")) else
          found <-! pwrap "cleanup: reconcile create intent" (findServiceByIdentity (jr_Identity record)) ;;
          match found with
          | None => Done (Err (ErrNew "cleanup: create intent remains unresolved; retry cleanup later"))
          | Some service =>
              let record := record <| jr_State := stateReady |> <| jr_ServiceID := sv_ID service |> in
              record <-! Done (match sv_OngoingOperationIDs service with
                               | [] => Ok record
                               | [operation] =>
                                   Ok (record <| jr_State := stateCreating |> <| jr_OperationID := operation |>)
                               | _ => Err (ErrNew "cleanup: matching service has multiple ongoing operations")
                               end) ;;
              do! pwrap "cleanup: persist reconciled service ID" (Ask (QPut record) Done) ;;
              resolve_intents rest (<[pl_Role planned := record]> services)
          end
      end
  end.

Fixpoint absent_loop (left_ : nat) (id : string) : prog gerr :=
  match left_ with
  | O => Done (Err (ErrNew "service ID still exists after deletion"))
  | S n =>
      r <- GetService id ;;
      if IsHTTPStatus r StatusNotFound then Done nil_err else
      match r with
      | Err e => Done (Err e)
      | Ok _ =>
          match n with
          | O => Done (Err (ErrNew "service ID still exists after deletion"))
          | S _ => do! Ask (QSleep (lc_pollInterval l)) Done ;; absent_loop n id
          end
      end
  end.
Definition verifyAbsent (id : string) : prog gerr := absent_loop 3 id.

(** An operation that is awaited and may have ended with its service. *)
Definition wait_or_gone (msg service operation : string) : prog gerr :=
  r <- WaitOperation service operation ;;
  match r with
  | Ok _ => Done nil_err
  | Err e => Done (if IsHTTPStatus r StatusNotFound then nil_err else Err (ErrWrap msg e))
  end.

Definition record_deleted (record : JournalService) : prog gerr :=
  Ask (QPut (record <| jr_State := stateDeleted |> <| jr_OperationID := ""%string |>)) Done.

Definition verified_deleted (record : JournalService) : prog gerr :=
  do! pwrap "cleanup" (verifyAbsent (jr_ServiceID record)) ;;
  record_deleted record.

(** The journaled service is read, compared and deleted. *)
Definition delete_verified (record : JournalService) : prog gerr :=
  r <- GetService (jr_ServiceID record) ;;
  if IsHTTPStatus r StatusNotFound then record_deleted record else
  match r with
  | Err e => Done (Err (ErrWrap "cleanup: verify journaled service" e))
  | Ok service =>
      do! Done (wrap_err "cleanup" (verify_identity (jr_Identity record) service)) ;;
      r <- DeleteService (jr_ServiceID record) (jr_IdempotencyKey record +:+ "-delete") ;;
      if IsHTTPStatus r StatusNotFound then record_deleted record else
      match r with
      | Err e => Done (Err (ErrWrap "cleanup" e))
      | Ok op =>
          let record := record <| jr_State := stateDeleting |> <| jr_OperationID := op_ID op |> in
          do! Ask (QPut record) Done ;;
          do! (if str_empty (op_ID op) then Done nil_err
               else wait_or_gone "cleanup" (jr_ServiceID record) (op_ID op)) ;;
          verified_deleted record
      end
  end.

Definition cleanup_one (planned : PlannedService) (record : JournalService) : prog gerr :=
  if negb (matchesPlan (jr_Identity record) (Identity (pl_Request planned)))
  then Done (Err (ErrNew "cleanup: journal identity differs from plan")) else
  if str_empty (jr_ServiceID record)
  then Done (Err (ErrNew "cleanup: unresolved record has no exact service ID; reconcile create before cleanup")) else
  if bool_decide (jr_State record = stateDeleting) && negb (str_empty (jr_OperationID record))
  then do! wait_or_gone "cleanup" (jr_ServiceID record) (jr_OperationID record) ;; verified_deleted record else
  if bool_decide (jr_State record = stateCreating) && negb (str_empty (jr_OperationID record))
  then do! wait_or_gone "cleanup: await create before delete" (jr_ServiceID record) (jr_OperationID record) ;;
       let record := record <| jr_OperationID := ""%string |> in
       do! Ask (QPut record) Done ;;
       delete_verified record
  else delete_verified record.

Definition is_gone (record : JournalService) : bool :=
  bool_decide (jr_State record = stateDeleted) || bool_decide (jr_State record = stateAbsent).

(** The second loop, over the plan from its end. *)
Fixpoint cleanup_loop (plan : list PlannedService) (services : gmap string JournalService) : prog gerr :=
  match plan with
  | [] => Done nil_err
  | planned :: rest =>
      match services !! pl_Role planned with
      | None => cleanup_loop rest services
      | Some record =>
          if is_gone record then cleanup_loop rest services else
          do! cleanup_one planned record ;;
          cleanup_loop rest services
      end
  end.

Definition Cleanup : prog gerr :=
  services <- Ask QServices Done ;;
  services <-! resolve_intents (qp_services (lc_plan l)) services ;;
  cleanup_loop (reverse (qp_services (lc_plan l))) services.
End Lifecycle.
