(* ===== verification/CloudTheorems.v ===== *)
(** * Theorems on the cloud lifecycle

    The programs of [Cloud] run in one process at a time, [Ensure] as one thread
    per planned service, under arbitrary answers of the API, failing writes of
    the journal, crashes and restarts.  [guarded] says what a program may ask
    for, given what it knows of the journal; it holds of [ensureOne] and
    [Cleanup] by following their text, and every run of guarded programs keeps
    the invariant of the world. *)

From S2P Require Import Prelude Cloud.
From Stdlib Require Import ZArith Lia.
From stdpp Require Import base gmap strings numbers option fin_maps relations list.
#[local] Open Scope Z_scope.
#[local] Open Scope prog_scope.

(** ** Runs *)
Inductive event : Type :=
| EvGet (id : string) (r : result Service)
| EvList (r : result (list Service))
| EvCreate (r : CreateServiceRequest) (key : string) (a : result Operation)
| EvDelete (id key : string) (a : result Operation)
| EvWait (service operation : string) (a : result Operation)
| EvPut (record : JournalService) (r : gerr).

Definition event_of (q : request) : answer q -> list event :=
  match q return answer q -> list event with
  | QGet id => fun a => [EvGet id a]
  | QList => fun a => [EvList a]
  | QCreate r key => fun a => [EvCreate r key a]
  | QDelete id key => fun a => [EvDelete id key a]
  | QWait s o => fun a => [EvWait s o a]
  | QPut record => fun a => [EvPut record a]
  | _ => fun _ => []
  end.

(** The journal answers for itself; everything else answers arbitrarily. *)
Definition answered (j : Journal) (q : request) : answer q -> Journal -> Prop :=
  match q return answer q -> Journal -> Prop with
  | QService role => fun a j' => a = jo_services j !! role /\ j' = j
  | QServices => fun a j' => a = jo_services j /\ j' = j
  | QPut record => fun a j' => exists now fault, put now fault record j = (j', a)
  | _ => fun _ j' => j' = j
  end.

(** One program on its own: its events, its result and the journal it leaves. *)
Fixpoint run_prog {A} (p : prog A) (j : Journal) (tr : list event) (r : A) (j' : Journal) : Prop :=
  match p with
  | Done a => tr = [] /\ r = a /\ j' = j
  | Ask q k => exists a j1 tr', answered j q a j1 /\ tr = event_of q a ++ tr' /\ run_prog (k a) j1 tr' r j'
  end.

Inductive outcome : Type :=
| Ensured (r : result Service)
| Cleaned (r : gerr).

Inductive process : Type :=
| Down (d : journal_disk)
| Up (j : Journal) (threads : gmap string (prog outcome)).

Record world := mkWorld { wd_process : process; wd_trace : list (string * event) }.

Definition world_disk (w : world) : journal_disk :=
  match wd_process w with Down d => d | Up j _ => jo_disk j end.

Section Lifecycle.
Context (l : Lifecycle) (path : string).

Definition ensure_thread (planned : PlannedService) : prog outcome :=
  r <- ensureOne l planned ;; Done (Ensured r).
Definition cleanup_thread : prog outcome := r <- Cleanup l ;; Done (Cleaned r).

(** The goroutines of [Ensure], by role. *)
Definition ensure_threads : gmap string (prog outcome) :=
  list_to_map ((fun planned => (pl_Role planned, ensure_thread planned)) <$> qp_services (lc_plan l)).

Definition cleanup_name : string := "cleanup".

Inductive lifecycle_step : world -> world -> Prop :=
| step_open env d d' r tr :
    OpenJournal env path (lc_plan l) (lc_owner l) d = (d', r) ->
    lifecycle_step (mkWorld (Down d) tr)
      (mkWorld (match r with Ok j => Up j ∅ | Err _ => Down d' end) tr)
| step_ensure j tr :
    lifecycle_step (mkWorld (Up j ∅) tr) (mkWorld (Up j ensure_threads) tr)
| step_cleanup j tr :
    lifecycle_step (mkWorld (Up j ∅) tr) (mkWorld (Up j {[cleanup_name := cleanup_thread]}) tr)
| step_ask t q k a j j' ts tr :
    ts !! t = Some (Ask q k) -> answered j q a j' ->
    lifecycle_step (mkWorld (Up j ts) tr)
      (mkWorld (Up j' (<[t := k a]> ts)) (tr ++ (pair t <$> event_of q a)))
| step_return t o j ts tr :
    ts !! t = Some (Done o) -> lifecycle_step (mkWorld (Up j ts) tr) (mkWorld (Up j (delete t ts)) tr)
| step_close j tr : lifecycle_step (mkWorld (Up j ∅) tr) (mkWorld (Down (jo_disk j)) tr)
| step_crash p f tr :
    f ∈ journal_images (world_disk (mkWorld p tr)) ->
    lifecycle_step (mkWorld p tr) (mkWorld (Down (mkJournalDisk f f)) tr).

Definition first_world : world := mkWorld (Down (mkJournalDisk JAbsent JAbsent)) [].

(** The keys of the create requests sent for a role. *)
Definition creates (role : string) (tr : list (string * event)) : list string :=
  omap (fun te => match te.2 with
                  | EvCreate _ key _ => if str_eqb te.1 role then Some key else None
                  | _ => None
                  end) tr.

(** Records are filed under their roles. *)
Definition roles_ok (m : gmap string JournalService) : Prop := forall role r, m !! role = Some r -> jr_Role r = role.

(** ** What a program may ask *)
Inductive known : Type :=
| Fresh
| Intended (r : JournalService)
| Known (r : JournalService).

Definition known_key (s : known) : option string :=
  match s with Fresh => None | Intended r | Known r => Some (jr_IdempotencyKey r) end.

Definition settle (s : known) : known := match s with Intended r => Known r | s => s end.

(** [id] is the journaled service of a planned role, and the API just answered
    with a service of the recorded identity and of this owner. *)
Definition deletable (σ : gmap string known) (seen : option (string * Service)) (id key : string) : Prop :=
  exists planned r s, planned ∈ qp_services (lc_plan l) /\ σ !! pl_Role planned = Some (Known r) /\
    matchesPlan (jr_Identity r) (Identity (pl_Request planned)) = true /\
    jr_ServiceID r = id /\ seen = Some (id, s) /\ verify_identity l (jr_Identity r) s = nil_err /\
    key = (jr_IdempotencyKey r +:+ "-delete")%string.

(** [guarded p Q σ seen]: from a state of knowledge [σ], with [seen] the answer
    of the request before, [p] asks only for what it may, and [Q] holds of its
    result. *)
Fixpoint guarded {A} (me : string) (p : prog A)
    (Q : A -> gmap string known -> option (string * Service) -> Prop)
    (σ : gmap string known) (seen : option (string * Service)) : Prop :=
  match p with
  | Done a => Q a σ seen
  | Ask q k =>
      match q return (answer q -> prog A) -> Prop with
      | QGet id => fun k => forall a,
          guarded me (k a) Q σ (match a with Ok s => Some (id, s) | Err _ => None end)
      | QCreate _ key => fun k =>
          (lc_idempotencyHeader l = ""%string ->
           exists r, σ !! me = Some (Intended r) /\ jr_IdempotencyKey r = key) /\
          forall a, guarded me (k a) Q (alter settle me σ) None
      | QDelete id key => fun k =>
          me = cleanup_name /\ deletable σ seen id key /\ forall a, guarded me (k a) Q σ None
      | QPut record => fun k =>
          exists s, σ !! jr_Role record = Some s /\
            (forall key, known_key s = Some key -> jr_IdempotencyKey record = key) /\
            (forall a, guarded me (k a) Q (<[jr_Role record :=
               match s, a with Fresh, Ok _ => Intended record | _, _ => Known record end]> σ) None)
      | QService role => fun k =>
          role = me /\
          forall a, (forall r, a = Some r -> jr_Role r = role) -> guarded me (k a) Q {[role := match a with Some r => Known r | None => Fresh end]} None
      | QServices => fun k =>
          me = cleanup_name /\ forall m, roles_ok m -> guarded me (k m) Q (Known <$> m) None
      | _ => fun k => forall a, guarded me (k a) Q σ None
      end k
  end.

(** Programs that neither write nor create nor delete. *)
Fixpoint quiet {A} (p : prog A) : Prop :=
  match p with
  | Done _ => True
  | Ask q k =>
      match q return (answer q -> prog A) -> Prop with
      | QGet _ | QList | QWait _ _ | QSleep _ | QRandomKey => fun k => forall a, quiet (k a)
      | _ => fun _ => False
      end k
  end.

Lemma guarded_bind {A B} me (p : prog A) (k : A -> prog B) Q σ seen :
  guarded me p (fun a => guarded me (k a) Q) σ seen -> guarded me (pbind p k) Q σ seen.
Proof.
  revert σ seen. induction p as [a|q c IH]; intros σ seen H; [exact H|].
  destruct q; cbn in *; try (intros a; by apply IH).
  - destruct H as [H1 H2]. split; [done|]. intros a. by apply IH.
  - destruct H as (H1 & H2 & H3). split_and!; [done..|]. intros a. by apply IH.
  - destruct H as [H1 H2]. split; [done|]. intros a Ha. apply IH. by apply H2.
  - destruct H as [H1 H2]. split; [done|]. intros a Ha. apply IH. by apply H2.
  - destruct H as (s & H1 & H2 & H3). exists s. split_and!; [done..|]. intros a. by apply IH.
Qed.

Lemma guarded_try {A B} me (p : prog (result A)) (k : A -> prog (result B)) Q σ seen :
  guarded me p (fun r σ' seen' => match r with
    | Ok a => guarded me (k a) Q σ' seen' | Err e => Q (Err e) σ' seen' end) σ seen ->
  guarded me (ptry p k) Q σ seen.
Proof.
  intros H. apply guarded_bind. revert H. generalize σ seen.
  induction p as [[a|e]|q c IH]; intros σ' seen'; [done..|].
  destruct q; cbn; try (intros H a; by apply IH); naive_solver.
Qed.

Lemma guarded_quiet {A} me (p : prog A) Q σ seen :
  quiet p -> (forall a seen', Q a σ seen') -> guarded me p Q σ seen.
Proof.
  intros Hp HQ. revert seen. induction p as [a|q c IH]; intros seen; [apply HQ|].
  destruct q; cbn in *; try done; intros a; by apply IH.
Qed.

Lemma quiet_bind {A B} (p : prog A) (k : A -> prog B) :
  quiet p -> (forall a, quiet (k a)) -> quiet (pbind p k).
Proof.
  intros Hp Hk. induction p as [a|q c IH]; [apply Hk|]. destruct q; cbn in *; try done; intros a; by apply IH.
Qed.
Lemma quiet_try {A B} (p : prog (result A)) (k : A -> prog (result B)) :
  quiet p -> (forall a, quiet (k a)) -> quiet (ptry p k).
Proof. intros Hp Hk. apply quiet_bind; [done|]. intros [a|e]; [apply Hk|done]. Qed.
Lemma quiet_wrap {A} msg (p : prog (result A)) : quiet p -> quiet (pwrap msg p).
Proof. intros Hp. by apply quiet_bind. Qed.
Lemma quiet_get id : quiet (GetService id).
Proof. unfold GetService. by destruct (blank id). Qed.
Lemma quiet_wait s o : quiet (WaitOperation s o).
Proof. unfold WaitOperation. by destruct (blank s || blank o). Qed.
#[local] Hint Resolve quiet_bind quiet_try quiet_wrap quiet_get quiet_wait : quiet.

Lemma quiet_classify identity services exact collisions :
  quiet (classify l identity services exact collisions).
Proof.
  revert exact collisions. induction services as [|s rest IH]; intros exact collisions; [done|]. cbn.
  repeat (case_match; auto). apply quiet_try; [auto with quiet|]. intros a. case_match; auto.
Qed.

Lemma quiet_find n identity : quiet (find_loop l n identity).
Proof.
  induction n as [|n IH]; [done|]. cbn. intros a. destruct a as [services|e]; [cbn|done].
  apply quiet_try; [apply quiet_classify|]. intros [exact collisions]. repeat case_match; try done.
  intros r. by destruct r.
Qed.

Lemma quiet_absent n id : quiet (absent_loop l n id).
Proof.
  induction n as [|n IH]; [done|]. cbn. apply quiet_bind; [apply quiet_get|]. intros a.
  repeat case_match; try done. intros r. by destruct r.
Qed.

Lemma quiet_wait_or_gone msg s o : quiet (wait_or_gone msg s o).
Proof. apply quiet_bind; [apply quiet_wait|]. intros a. by case_match. Qed.

(** ** The programs are guarded *)
Definition tracked (σ : gmap string known) (record : JournalService) : Prop :=
  exists s, σ !! jr_Role record = Some s /\ known_key s = Some (jr_IdempotencyKey record).

(** The same role and key, and so tracked alike. *)
Definition same_key (r r' : JournalService) : Prop :=
  jr_Role r' = jr_Role r /\ jr_IdempotencyKey r' = jr_IdempotencyKey r.

Lemma tracked_same σ r r' : same_key r r' -> tracked σ r -> tracked σ r'.
Proof. intros [E1 E2] (s & H1 & H2). exists s. by rewrite E1, E2. Qed.

Lemma tracked_insert σ r : tracked (<[jr_Role r := Known r]> σ) r.
Proof. exists (Known r). by rewrite lookup_insert_eq. Qed.

Lemma guarded_put {A} me record (k : gerr -> prog A) Q σ seen :
  tracked σ record -> (forall a, guarded me (k a) Q (<[jr_Role record := Known record]> σ) None) ->
  guarded me (Ask (QPut record) k) Q σ seen.
Proof.
  intros (s & Hs & Hk) H. exists s. split_and!; [done|by rewrite Hk; intros key [= <-]|].
  intros a. by destruct s; [|apply H..].
Qed.

(** What the helpers of [ensureOne] leave: any knowledge after an error, the
    returned record otherwise. *)
Definition leaves (record : JournalService) (r : result JournalService) (σ : gmap string known)
    (seen : option (string * Service)) : Prop :=
  match r with Ok record' => tracked σ record' /\ same_key record record' | Err _ => True end.

Lemma guarded_wait_record me record Q σ seen :
  tracked σ record ->
  (forall σ' seen', tracked σ' record -> Q (Ok record) σ' seen') -> (forall e σ' seen', Q (Err e) σ' seen') ->
  guarded me (do! Ask (QPut record) Done ;; do! WaitOperation (jr_ServiceID record) (jr_OperationID record) ;;
              Done (Ok record)) Q σ seen.
Proof.
  intros Ht Hok Herr. apply guarded_put; [done|]. intros [[]|e]; [|apply Herr].
  apply guarded_try, guarded_quiet; [apply quiet_wait|]. intros [op|e] seen'; [|apply Herr].
  apply Hok, tracked_insert.
Qed.

Lemma guarded_created me record op σ seen :
  tracked σ record -> guarded me (created record op) (leaves record) σ seen.
Proof.
  intros Ht. unfold created. case_match; [done|]. apply guarded_wait_record; [by eapply tracked_same| |done].
  done.
Qed.

Lemma guarded_adopt me record s σ seen :
  tracked σ record -> guarded me (adopt record s) (leaves record) σ seen.
Proof.
  intros Ht. unfold adopt. case_match; [done|]. destruct (sv_OngoingOperationIDs s) as [|o [|]]; [|..|done].
  - cbn. split; [by eapply tracked_same|done].
  - apply guarded_wait_record; [by eapply tracked_same| |done]. done.
Qed.

Definition anything {A} (a : A) (σ : gmap string known) (seen : option (string * Service)) : Prop := True.

Lemma guarded_conclude me planned record σ seen :
  tracked σ record -> guarded me (conclude l planned record) anything σ seen.
Proof.
  intros Ht. unfold conclude. apply guarded_try, guarded_quiet; [apply quiet_get|]. intros [s|e] seen'; [|done].
  destruct (verify_identity _ _ _); cbn -[guarded]; [|done]. destruct (verifyReadyService _ _); cbn -[guarded]; [|done].
  apply guarded_put; [by eapply tracked_same|]. by intros [[]|e].
Qed.

Lemma guarded_conclude_after me planned record (p : prog (result JournalService)) (f : JournalService -> JournalService) σ seen :
  (forall r, same_key r (f r)) -> guarded me p (leaves record) σ seen ->
  guarded me (r <-! p ;; conclude l planned (f r)) anything σ seen.
Proof.
  intros Hf H. apply guarded_try. revert H. generalize σ seen. induction p as [[r|e]|q c IH]; intros σ' seen'.
  - intros [Ht _]. apply guarded_conclude. by eapply tracked_same.
  - done.
  - destruct q; cbn; try (intros H a; by apply IH); naive_solver.
Qed.

(** A retry of the create needs the idempotency header. *)
Lemma guarded_reconcile me planned record σ seen :
  tracked σ record -> jr_Role record = me -> guarded me (reconcileCreate l planned record) anything σ seen.
Proof.
  intros Ht Hme. unfold reconcileCreate. apply guarded_try, guarded_quiet; [apply quiet_find|].
  intros [[s|]|e] seen'; [|..|done].
  - apply (guarded_conclude_after _ _ record _ (fun r => r <| jr_OperationID := ""%string |>)); [done|]. by apply guarded_adopt.
  - destruct (str_empty (lc_idempotencyHeader l)) eqn:Eh; [done|].
    apply (guarded_conclude_after _ _ record _ (fun r => r <| jr_OperationID := ""%string |>)); [done|].
    apply guarded_try. unfold pwrap, CreateService. destruct (identity_validate _); [|done]. cbn -[guarded].
    split; [intros Hh; by rewrite Hh in Eh|]. intros [op|e]; [|done]. apply guarded_created.
    destruct Ht as (s & Hs & Hk). exists (settle s). rewrite Hme in *. rewrite lookup_alter, decide_True, Hs by done.
    split; [done|]. by destruct s.
Qed.

Lemma guarded_create_first planned σ seen :
  σ !! pl_Role planned = Some Fresh ->
  guarded (pl_Role planned) (create_first l planned) anything σ seen.
Proof.
  intros Hs. unfold create_first. intros [key|e]; [|done]. cbn -[guarded created conclude].
  exists Fresh. cbn [jr_Role]. split; [done|]. split; [done|]. intros [[]|e]; [|done]. cbn -[guarded created conclude].
  unfold CreateService. destruct (identity_validate _); [|done]. cbn -[guarded created conclude].
  split; [intros _; eexists; rewrite lookup_insert_eq; done|]. intros [op|e]; [|done]. cbn -[guarded created conclude].
  eapply (guarded_conclude_after _ _ _ _ (fun r => r)); [done|]. apply guarded_created.
  eexists. cbn [jr_Role]. rewrite lookup_alter, decide_True by done. rewrite lookup_insert_eq. done.
Qed.

Lemma guarded_ensureOne planned σ seen :
  guarded (pl_Role planned) (ensureOne l planned) anything σ seen.
Proof.
  unfold ensureOne. cbn -[guarded create_first]. split; [done|]. intros [r|] Hr; cbn -[guarded create_first].
  2:{ apply guarded_create_first. by rewrite lookup_singleton_eq. }
  specialize (Hr r eq_refl).
  assert (Ht : tracked {[pl_Role planned := Known r]} r).
  { exists (Known r). by rewrite Hr, lookup_singleton_eq. }
  case_match; [done|]. destruct (jr_State r); try done.
  - by apply guarded_reconcile.
  - case_match; [|by apply guarded_reconcile].
    apply guarded_try, guarded_quiet; [apply quiet_wait|]. intros [op|e] seen'; [|done]. by apply guarded_conclude.
  - apply guarded_bind, guarded_quiet; [apply quiet_get|]. intros [s|e] seen'; [|done]. by case_match.
Qed.

(** *** Cleanup *)

(** Only the knowledge about [role] has changed. *)
Definition apart {A} (role : string) (σ : gmap string known) (a : A) (σ' : gmap string known)
    (seen : option (string * Service)) : Prop := forall role', role' <> role -> σ' !! role' = σ !! role'.

Definition agrees (σ : gmap string known) (services : gmap string JournalService) (roles : list string) : Prop :=
  forall role r, role ∈ roles -> services !! role = Some r -> σ !! role = Some (Known r) /\ jr_Role r = role.

Lemma guarded_weaken {A} me (p : prog A) (Q Q' : A -> gmap string known -> option (string * Service) -> Prop) σ seen :
  guarded me p Q σ seen -> (forall a σ' seen', Q a σ' seen' -> Q' a σ' seen') -> guarded me p Q' σ seen.
Proof.
  intros H HQ. revert σ seen H. induction p as [a|q c IH]; intros σ seen; [apply HQ|].
  destruct q; cbn; try (intros H a; by apply IH); naive_solver.
Qed.

Lemma guarded_record_deleted me record σ seen :
  tracked σ record -> guarded me (record_deleted record) (apart (jr_Role record) σ) σ seen.
Proof.
  intros Ht. unfold record_deleted. apply guarded_put; [by eapply tracked_same|].
  intros a role' Hne. by rewrite lookup_insert_ne.
Qed.

Lemma guarded_verified_deleted me record σ seen :
  tracked σ record -> guarded me (verified_deleted l record) (apart (jr_Role record) σ) σ seen.
Proof.
  intros Ht. unfold verified_deleted. apply guarded_try, guarded_quiet; [apply quiet_wrap, quiet_absent|].
  intros [[]|e] seen'; [|done]. by apply guarded_record_deleted.
Qed.

Section CleanupOne.
Context (planned : PlannedService) (Hplan : planned ∈ qp_services (lc_plan l)).

Lemma guarded_delete_verified record σ seen :
  jr_Role record = pl_Role planned -> σ !! pl_Role planned = Some (Known record) ->
  matchesPlan (jr_Identity record) (Identity (pl_Request planned)) = true ->
  guarded cleanup_name (delete_verified l record) (apart (pl_Role planned) σ) σ seen.
Proof.
  intros Hr Hs Hm. assert (Ht : tracked σ record) by (exists (Known record); by rewrite Hr).
  pose proof Hs as Hs'. rewrite <- Hr in Hs' |- *.
  pose proof (fun seen' => guarded_record_deleted cleanup_name record σ seen' Ht) as Hdel.
  unfold delete_verified. apply guarded_bind. unfold GetService.
  destruct (blank (jr_ServiceID record)) eqn:Eb; [done|]. intros [s|e]; cbn [guarded].
  2:{ destruct (IsHTTPStatus _ _); [apply Hdel|done]. }
  change (IsHTTPStatus (Ok s) StatusNotFound) with false. cbv iota. apply guarded_try.
  destruct (verify_identity l (jr_Identity record) s) as [[]|e] eqn:Ev; cbn [wrap_err guarded]; [|done].
  apply guarded_bind. unfold DeleteService. rewrite Eb. split; [done|].
  split. { exists planned, record, s. split_and!; done. }
  intros a. cbn [guarded]. destruct (IsHTTPStatus a StatusNotFound); [apply Hdel|].
  destruct a as [op|e]; [|done]. apply guarded_put; [by eapply tracked_same|].
  intros [[]|e]; [|intros ? ?; by rewrite lookup_insert_ne].
  apply guarded_try, guarded_quiet; [case_match; [done|apply quiet_wait_or_gone]|].
  intros [[]|e] seen'; [|intros ? ?; by rewrite lookup_insert_ne].
  eapply guarded_weaken; [apply guarded_verified_deleted, tracked_insert|].
  intros a σ' ? Ha role' Hne. rewrite (Ha role' Hne). by rewrite lookup_insert_ne.
Qed.

Lemma guarded_cleanup_one record σ seen :
  jr_Role record = pl_Role planned -> σ !! pl_Role planned = Some (Known record) ->
  guarded cleanup_name (cleanup_one l planned record) (apart (pl_Role planned) σ) σ seen.
Proof.
  intros Hr Hs. assert (Ht : tracked σ record) by (exists (Known record); by rewrite Hr).
  unfold cleanup_one. destruct (matchesPlan _ _) eqn:Hm; [cbn [negb]|done]. case_match; [done|]. case_match.
  { apply guarded_try, guarded_quiet; [apply quiet_wait_or_gone|]. intros [[]|e] seen'; [|done].
    rewrite <- Hr. by apply guarded_verified_deleted. }
  case_match; [|by apply guarded_delete_verified].
  apply guarded_try, guarded_quiet; [apply quiet_wait_or_gone|]. intros [[]|e] seen'; [|done].
  apply guarded_put; [by eapply tracked_same|]. change (jr_Role (record <| jr_OperationID := ""%string |>)) with (jr_Role record). rewrite Hr.
  intros [[]|e]; [|intros ? ?; by rewrite lookup_insert_ne].
  eapply guarded_weaken; [apply guarded_delete_verified; [done|by rewrite lookup_insert_eq|done]|].
  intros a σ' ? Ha role' Hne. rewrite (Ha role' Hne). by rewrite lookup_insert_ne.
Qed.
End CleanupOne.

Lemma guarded_cleanup_loop plan services σ seen :
  (forall planned, planned ∈ plan -> planned ∈ qp_services (lc_plan l)) -> NoDup (pl_Role <$> plan) ->
  agrees σ services (pl_Role <$> plan) ->
  guarded cleanup_name (cleanup_loop l plan services) anything σ seen.
Proof.
  revert σ seen. induction plan as [|planned rest IH]; intros σ seen Hin Hnd Ha; [done|].
  cbn [fmap list_fmap] in Hnd, Ha. apply NoDup_cons in Hnd as [Hni Hnd].
  assert (Hrest : forall seen', guarded cleanup_name (cleanup_loop l rest services) anything σ seen').
  { intros seen'. apply IH; [intros; by apply Hin; right|done|]. intros role r Hr. apply Ha. by right. }
  cbn [cleanup_loop]. destruct (services !! pl_Role planned) as [record|] eqn:Es; [|done]. case_match; [done|].
  destruct (Ha (pl_Role planned) record) as [Hs Hr]; [left|done|].
  apply guarded_try. eapply guarded_weaken; [apply (guarded_cleanup_one planned); [apply Hin; left|done..]|].
  intros [[]|e] σ' seen' Hap; [|done]. apply IH; [intros; by apply Hin; right|done|].
  intros role r Hrole Hl. rewrite (Hap role); [apply Ha; [by right|done]|]. intros ->. done.
Qed.

Lemma guarded_resolve plan services σ seen all :
  (forall p, p ∈ plan -> pl_Role p ∈ all) -> agrees σ services all ->
  guarded cleanup_name (resolve_intents l plan services)
    (fun r σ' _ => match r with Ok services' => agrees σ' services' all | Err _ => True end) σ seen.
Proof.
  revert services σ seen. induction plan as [|planned rest IH]; intros services σ seen Hin Ha; [done|].
  cbn [resolve_intents]. unfold unresolved. destruct (services !! pl_Role planned) as [record|] eqn:Es.
  2:{ apply IH; [intros; by apply Hin; right|done]. }
  destruct (Ha (pl_Role planned) record) as [Hs Hr]; [by apply Hin; left|done|].
  case_bool_decide; [|apply IH; [intros; by apply Hin; right|done]]. case_match; [done|].
  apply guarded_try, guarded_quiet; [apply quiet_wrap, quiet_find|]. intros [[s|]|e] seen'; [|done..].
  assert (Hput : forall record' seen', same_key record record' ->
    guarded cleanup_name (do! pwrap "cleanup: persist reconciled service ID" (Ask (QPut record') Done) ;;
       resolve_intents l rest (<[pl_Role planned := record']> services))
      (fun r σ' _ => match r with Ok services' => agrees σ' services' all | Err _ => True end) σ seen').
  { intros record' seen2 Hk. cbn -[guarded resolve_intents].
    apply guarded_put; [by eapply tracked_same; [|exists (Known record); rewrite Hr]|].
    intros [[]|e]; [|done]. cbn -[guarded resolve_intents]. destruct Hk as [Hk _]. rewrite Hk, Hr. apply IH; [intros; by apply Hin; right|].
    intros role r Hrole [[<- <-]|[Hne Hl]]%lookup_insert_Some.
    - rewrite lookup_insert_eq. split; [done|congruence].
    - rewrite lookup_insert_ne by done. by apply Ha. }
  destruct (sv_OngoingOperationIDs s) as [|o [|]]; [| |done]; by apply Hput.
Qed.

Lemma guarded_Cleanup σ seen :
  NoDup (pl_Role <$> qp_services (lc_plan l)) -> guarded cleanup_name (Cleanup l) anything σ seen.
Proof.
  intros Hnd. unfold Cleanup. cbn -[guarded cleanup_loop resolve_intents]. split; [done|]. intros m Hm.
  apply guarded_try. eapply guarded_weaken.
  - apply (guarded_resolve _ _ _ _ (pl_Role <$> qp_services (lc_plan l))).
    + intros p Hp. by apply list_elem_of_fmap_2.
    + intros role r _ Hl. rewrite lookup_fmap, Hl. split; [done|by apply Hm].
  - intros [services|e] σ' seen' Ha; [|done]. apply guarded_cleanup_loop.
    + intros p. by rewrite elem_of_reverse.
    + by rewrite fmap_reverse, reverse_Permutation.
    + intros role r. rewrite fmap_reverse, elem_of_reverse. apply Ha.
Qed.

(** ** The invariant of the world *)
Implicit Types (j : Journal) (tr : list (string * event)) (d : journal_disk).

(** Every record is filed under its role and was put by some thread. *)
Definition services_ok tr (m : gmap string JournalService) : Prop := forall role r, m !! role = Some r ->
  jr_Role r = role /\ exists t r0 a, (t, EvPut r0 a) ∈ tr /\ r = r0 <| jr_UpdatedAt := jr_UpdatedAt r |>.

Definition file_ok tr (f : journal_file) : Prop :=
  match f with JFile _ (Some doc) => services_ok tr (jd_Services doc) | _ => True end.

Definition file_has (role key : string) (f : journal_file) : Prop :=
  exists doc r, f = JFile true (Some doc) /\ jd_Services doc !! role = Some r /\ jr_IdempotencyKey r = key.
Definition disk_has d (role key : string) : Prop := Forall (file_has role key) (journal_images d).
Definition mem_has j (role key : string) : Prop :=
  exists r, jo_services j !! role = Some r /\ jr_IdempotencyKey r = key.

Definition filed j (role : string) (r : JournalService) : Prop :=
  exists u, jo_services j !! role = Some (r <| jr_UpdatedAt := u |>).

Definition known_ok j tr (role : string) (s : known) : Prop :=
  match s with
  | Fresh => jo_services j !! role = None
  | Known r => filed j role r
  | Intended r => filed j role r /\ disk_has (jo_disk j) role (jr_IdempotencyKey r) /\
      (lc_idempotencyHeader l = ""%string -> creates role tr = [])
  end.

Record thread_ok j tr (t : string) (p : prog outcome) (σ : gmap string known) (seen : option (string * Service)) : Prop := {
  th_guarded : guarded t p anything σ seen;
  th_owns : forall role s, σ !! role = Some s -> role = t \/ t = cleanup_name;
  th_known : forall role s, σ !! role = Some s -> known_ok j tr role s;
  th_seen : forall id s, seen = Some (id, s) -> t = cleanup_name -> last tr = Some (t, EvGet id (Ok s));
}.

Definition sent_once tr : Prop :=
  lc_idempotencyHeader l = ""%string -> forall role, (length (creates role tr) <= 1)%nat.
Definition sent_durable d tr : Prop :=
  lc_idempotencyHeader l = ""%string -> forall role key, key ∈ creates role tr -> disk_has d role key.
Definition sent_filed j tr : Prop :=
  lc_idempotencyHeader l = ""%string -> forall role key, key ∈ creates role tr -> mem_has j role key.

Definition delete_justified (pre : list (string * event)) (t id key : string) : Prop :=
  exists pre' s planned record t' a,
    pre = pre' ++ [(t, EvGet id (Ok s))] /\ planned ∈ qp_services (lc_plan l) /\
    (t', EvPut record a) ∈ pre /\
    jr_Role record = pl_Role planned /\ jr_ServiceID record = id /\
    key = (jr_IdempotencyKey record +:+ "-delete")%string /\
    matchesPlan (jr_Identity record) (Identity (pl_Request planned)) = true /\
    verify_identity l (jr_Identity record) s = nil_err.

Definition deletes_ok tr : Prop := forall pre t id key a post,
  tr = pre ++ (t, EvDelete id key a) :: post -> delete_justified pre t id key.

Record up_ok j (ts : gmap string (prog outcome)) tr : Prop := {
  up_locked : jo_locked j = true;
  up_services : services_ok tr (jo_services j);
  up_sent : sent_filed j tr;
  up_threads : forall t p, ts !! t = Some p -> exists σ seen, thread_ok j tr t p σ seen;
  up_cleanup : forall t, is_Some (ts !! cleanup_name) -> is_Some (ts !! t) -> t = cleanup_name;
}.

Record world_ok (w : world) : Prop := {
  wo_files : Forall (file_ok (wd_trace w)) (journal_images (world_disk w));
  wo_once : sent_once (wd_trace w);
  wo_durable : sent_durable (world_disk w) (wd_trace w);
  wo_deletes : deletes_ok (wd_trace w);
  wo_up : match wd_process w with Down _ => True | Up j ts => up_ok j ts (wd_trace w) end;
}.

(** *** Writing the journal *)
Definition of_memory j (f : journal_file) : Prop := f = JFile true (Some (jo_document j)).

Lemma persist_images fault doc d d' r :
  persist_loop fault doc persist_actions d = (d', r) ->
  Forall (fun f => f ∈ journal_images d \/ f = JFile true (Some doc)) (journal_images d') /\
  (r = nil_err -> Forall (fun f => f = JFile true (Some doc)) (journal_images d')).
Proof.
  unfold journal_images, persist_actions. destruct fault as [[[] e]|]; cbn; intros [= <- <-]; cbn;
    rewrite !Forall_cons, !Forall_nil; split; intros; try discriminate; set_solver.
Qed.

Lemma put_spec now fault record j j' a :
  put now fault record j = (j', a) -> jo_locked j = true ->
  jo_locked j' = true /\
  jo_services j' = <[jr_Role record := record <| jr_UpdatedAt := now |>]> (jo_services j) /\
  Forall (fun f => f ∈ journal_images (jo_disk j) \/ of_memory j' f) (journal_images (jo_disk j')) /\
  (a = nil_err -> Forall (of_memory j') (journal_images (jo_disk j'))).
Proof.
  intros H Hl. unfold put in H. rewrite Hl in H. cbn [negb] in H. unfold persistLocked in H.
  match type of H with context [persist_loop ?f ?doc ?acts ?d] => destruct (persist_loop f doc acts d) as [d' r] eqn:E end.
  injection H as <- <-. apply persist_images in E as [E1 E2]. split_and!; done.
Qed.

(** A write keeps what every image of the disk has, when memory has it too. *)
Lemma put_disk_has now fault record j j' a role key :
  put now fault record j = (j', a) -> jo_locked j = true ->
  disk_has (jo_disk j) role key -> mem_has j' role key -> disk_has (jo_disk j') role key.
Proof.
  intros H Hl Hd (r & Hr & Hk). apply put_spec in H as (_ & Hs & Hf & _); [|done].
  unfold disk_has. eapply Forall_impl; [exact Hf|]. intros f [Hin| ->].
  - by eapply Forall_forall in Hd.
  - eexists _, r. split_and!; done.
Qed.

Lemma creates_snoc role tr t e :
  creates role (tr ++ [(t, e)]) = creates role tr ++
    match e with EvCreate _ key _ => if str_eqb t role then [key] else [] | _ => [] end.
Proof. unfold creates. rewrite omap_app. f_equal. cbn. destruct e; try done. by destruct (str_eqb t role). Qed.

Lemma services_ok_mono tr e m : services_ok tr m -> services_ok (tr ++ e) m.
Proof.
  intros H role r Hr. destruct (H role r Hr) as (Hrole & t & r0 & a & Hin & E). split; [done|].
  exists t, r0, a. split; [|done]. set_solver.
Qed.
Lemma file_ok_mono tr e f : file_ok tr f -> file_ok (tr ++ e) f.
Proof. destruct f as [|? [doc|]]; [done| |done]. apply services_ok_mono. Qed.

Lemma deletes_snoc tr t e :
  deletes_ok tr -> (forall id key a, e = EvDelete id key a -> delete_justified tr t id key) ->
  deletes_ok (tr ++ [(t, e)]).
Proof.
  intros Hd He pre t' id key a post Heq.
  destruct post as [|x post _] using rev_ind.
  - apply app_inj_tail in Heq as [-> [= -> ->]]. by eapply He.
  - rewrite app_comm_cons, app_assoc in Heq. apply app_inj_tail in Heq as [-> _]. by eapply Hd.
Qed.

(** *** Steps *)
Lemma thread_frame j j' tr evs t t' p σ seen :
  thread_ok j tr t' p σ seen -> t' <> cleanup_name -> t' <> t ->
  jo_services j' !! t' = jo_services j !! t' ->
  (forall key, disk_has (jo_disk j) t' key -> mem_has j t' key -> disk_has (jo_disk j') t' key) ->
  (evs = [] \/ exists e, evs = [(t, e)]) ->
  thread_ok j' (tr ++ evs) t' p σ seen.
Proof.
  intros [Hg Ho Hk Hs] Hc Hne Hj Hd He. split; [done|done| |done].
  intros role s Hrole. destruct (Ho role s Hrole) as [->|]; [|done]. specialize (Hk t' s Hrole).
  destruct s as [|r|r]; cbn in *; [by rewrite Hj| |by unfold filed; rewrite Hj].
  destruct Hk as ([u Hu] & Hdisk & Hcr). split_and!; [by exists u; rewrite Hj| |].
  - apply Hd; [done|]. by exists (r <| jr_UpdatedAt := u |>).
  - intros Hh. destruct He as [->|[e ->]]; [by rewrite app_nil_r; apply Hcr|]. rewrite creates_snoc, (Hcr Hh).
    destruct e; try done. unfold str_eqb. by rewrite bool_decide_eq_false_2.
Qed.

Record advanced j tr j' t (p : prog outcome) evs : Prop := {
  av_thread : exists σ seen, thread_ok j' (tr ++ evs) t p σ seen;
  av_events : evs = [] \/ exists e, evs = [(t, e)];
  av_locked : jo_locked j' = true;
  av_services : services_ok (tr ++ evs) (jo_services j');
  av_files : Forall (file_ok (tr ++ evs)) (journal_images (jo_disk j'));
  av_apart : forall role, role <> t -> t <> cleanup_name -> jo_services j' !! role = jo_services j !! role;
  av_keeps : forall role key, disk_has (jo_disk j) role key -> mem_has j role key -> disk_has (jo_disk j') role key;
  av_once : sent_once (tr ++ evs);
  av_filed : sent_filed j' (tr ++ evs);
  av_durable : sent_durable (jo_disk j') (tr ++ evs);
  av_deletes : deletes_ok (tr ++ evs);
}.

Lemma advance j ts tr j' t p p' evs :
  world_ok (mkWorld (Up j ts) tr) -> ts !! t = Some p -> advanced j tr j' t p' evs ->
  world_ok (mkWorld (Up j' (<[t := p']> ts)) (tr ++ evs)).
Proof.
  intros [Hf Ho Hd Hdel [Hl Hs Hsf Hts Hc]] Ht [Ath Aev Al As Af Aa Ak Ao Afi Ad Adel].
  split; [done|done|done|done|]. split; [done|done|done| |].
  - intros t' q [[<- <-]|[Hne Hq]]%lookup_insert_Some; [done|].
    destruct (Hts t' q Hq) as (σ & seen & Hth). exists σ, seen.
    assert (t' <> cleanup_name) as Hnc by (intros ->; destruct Hne; by apply Hc; eauto).
    assert (t <> cleanup_name) as Htc by (intros ->; destruct Hne; symmetry; by apply Hc; eauto).
    eapply thread_frame; [done|done|by apply not_eq_sym|apply Aa; [by apply not_eq_sym|done]|by intros; apply Ak|done].
  - intros t' Hcl [q Hq]. assert (Hcl' : is_Some (ts !! cleanup_name)).
    { destruct Hcl as [x [[<- _]|[_ Hx]]%lookup_insert_Some]; eauto. }
    apply lookup_insert_Some in Hq as [[<- _]|[_ Hq]]; apply Hc; eauto.
Qed.

(** The journal does not change, and nothing is sent. *)
Definition plain (e : event) : bool :=
  match e with EvCreate _ _ _ | EvDelete _ _ _ => false | _ => true end.

Lemma creates_plain role tr t evs :
  (evs = [] \/ exists e, evs = [(t, e)] /\ plain e = true) -> creates role (tr ++ evs) = creates role tr.
Proof.
  intros [->|(e & -> & He)]; [by rewrite app_nil_r|]. rewrite creates_snoc. by destruct e; rewrite ?app_nil_r.
Qed.

Lemma advanced_plain j ts tr t p p' σ seen evs :
  world_ok (mkWorld (Up j ts) tr) -> ts !! t = Some p ->
  (evs = [] \/ exists e, evs = [(t, e)] /\ plain e = true) ->
  thread_ok j (tr ++ evs) t p' σ seen -> advanced j tr j t p' evs.
Proof.
  intros [Hf Ho Hd Hdel [Hl Hs Hsf Hts Hc]] Ht He Hth. split; try done; eauto.
  - destruct He as [->|(e & -> & _)]; eauto.
  - by apply services_ok_mono.
  - eapply Forall_impl; [exact Hf|]. intros f. apply file_ok_mono.
  - intros Hh role. rewrite (creates_plain _ _ t) by done. by apply Ho.
  - intros Hh role key. rewrite (creates_plain _ _ t) by done. by apply Hsf.
  - intros Hh role key. rewrite (creates_plain _ _ t) by done. by apply Hd.
  - destruct He as [->|(e & -> & He)]; [by rewrite app_nil_r|]. apply deletes_snoc; [done|]. by intros ? ? ? ->.
Qed.

Lemma known_ok_plain j tr t evs role s :
  (evs = [] \/ exists e, evs = [(t, e)] /\ plain e = true) -> known_ok j tr role s -> known_ok j (tr ++ evs) role s.
Proof. intros He. destruct s; [done| |done]. cbn. by rewrite (creates_plain _ _ t) by done. Qed.

Lemma thread_plain j tr t p p' σ seen seen' evs :
  thread_ok j tr t p σ seen ->
  (evs = [] \/ exists e, evs = [(t, e)] /\ plain e = true) ->
  guarded t p' anything σ seen' ->
  (forall id s, seen' = Some (id, s) -> last (tr ++ evs) = Some (t, EvGet id (Ok s))) ->
  thread_ok j (tr ++ evs) t p' σ seen'.
Proof.
  intros [Hg Ho Hk Hs] He Hg' Hs'. split; [done|done| |auto].
  intros role s Hrole. eapply known_ok_plain; eauto.
Qed.

Section Asking.
Context (j : Journal) (ts : gmap string (prog outcome)) (tr : list (string * event)) (t : string) (σ : gmap string known) (seen : option (string * Service)).
Context (Hw : world_ok (mkWorld (Up j ts) tr)).

Lemma filed_self role r : jo_services j !! role = Some r -> filed j role r.
Proof. intros H. exists (jr_UpdatedAt r). rewrite H. by destruct r. Qed.

Lemma ask_create r key a k :
  thread_ok j tr t (Ask (QCreate r key) k) σ seen -> ts !! t = Some (Ask (QCreate r key) k) ->
  advanced j tr j t (k a) [(t, EvCreate r key a)].
Proof.
  intros [[Hi Hg] Ho Hk Hs] Ht. destruct Hw as [Hf Honce Hd Hdel [Hl Hsv Hsf Hts Hc]].
  assert (Hsent : lc_idempotencyHeader l = ""%string ->
    creates t tr = [] /\ disk_has (jo_disk j) t key /\ mem_has j t key).
  { intros Hh. destruct (Hi Hh) as (rec & Hrec & <-). destruct (Hk _ _ Hrec) as ([u Hu] & Hdisk & Hcr).
    split_and!; [by apply Hcr|done|]. by eexists. }
  assert (Hin : lc_idempotencyHeader l = ""%string -> forall role key', key' ∈ creates role (tr ++ [(t, EvCreate r key a)]) ->
    key' ∈ creates role tr \/ role = t /\ key' = key).
  { intros _ role key'. rewrite creates_snoc, elem_of_app. intros [H|H]; [by left|right].
    destruct (str_eqb t role) eqn:E; [|by apply elem_of_nil in H]. apply bool_decide_eq_true in E as ->.
    by apply list_elem_of_singleton in H. }
  split; try done.
  - exists (alter settle t σ), None. split; [by apply Hg| | |done].
    + intros role s. rewrite lookup_alter_Some. intros [(-> & s0 & H & _)|[_ H]]; [by left|by eapply Ho].
    + intros role s. rewrite lookup_alter_Some. intros [(-> & s0 & H & ->)|[Hne H]].
      * specialize (Hk _ _ H). destruct s0; cbn in *; [done|by destruct Hk|done].
      * specialize (Hk _ _ H). destruct s; cbn in *; [done| |done]. destruct Hk as (H1 & H2 & H3). split_and!; [done..|].
        intros Hh. rewrite creates_snoc, (H3 Hh). unfold str_eqb. by rewrite bool_decide_eq_false_2 by congruence.
  - eauto.
  - by apply services_ok_mono.
  - eapply Forall_impl; [exact Hf|]. intros f. apply file_ok_mono.
  - intros Hh role. rewrite creates_snoc. destruct (str_eqb t role) eqn:E; [|rewrite app_nil_r; by apply Honce].
    apply bool_decide_eq_true in E as <-. destruct (Hsent Hh) as (-> & _). cbn. lia.
  - intros Hh role key' [H|[-> ->]]%Hin; [by apply Hsf|by apply Hsent|done].
  - intros Hh role key' [H|[-> ->]]%Hin; [by apply Hd|by apply Hsent|done].
  - by apply deletes_snoc.
Qed.

Lemma ask_delete id key a k :
  thread_ok j tr t (Ask (QDelete id key) k) σ seen -> ts !! t = Some (Ask (QDelete id key) k) ->
  advanced j tr j t (k a) [(t, EvDelete id key a)].
Proof.
  intros [(Hme & Hdl & Hg) Ho Hk Hs] Ht. destruct Hw as [Hf Honce Hd Hdel [Hl Hsv Hsf Hts Hc]].
  assert (Hcr : forall role, creates role (tr ++ [(t, EvDelete id key a)]) = creates role tr).
  { intros role. by rewrite creates_snoc, app_nil_r. }
  split; try done; try (by intros Hh role; rewrite Hcr; auto).
  - exists σ, None. split; [by apply Hg|done| |done]. intros role s H. specialize (Hk _ _ H).
    destruct s; cbn in *; [done| |done]. by rewrite Hcr.
  - eauto.
  - by apply services_ok_mono.
  - eapply Forall_impl; [exact Hf|]. intros f. apply file_ok_mono.
  - apply deletes_snoc; [done|]. intros id' key' a' [= <- <- <-].
    destruct Hdl as (planned & r & s & Hp & Hr & Hm & Hid & -> & Hv & ->).
    specialize (Hs id s eq_refl Hme). apply last_Some in Hs as [pre' ->].
    destruct (Hk _ _ Hr) as [u Hu]. destruct (Hsv _ _ Hu) as (Hrole & t' & r0 & a' & Hin & E).
    exists pre', s, planned, r0, t', a'. destruct r, r0. cbn in *. injection E as -> -> -> -> -> ->. split_and!; done.
Qed.

Lemma ask_put record a k j' :
  thread_ok j tr t (Ask (QPut record) k) σ seen -> ts !! t = Some (Ask (QPut record) k) ->
  answered j (QPut record) a j' -> advanced j tr j' t (k a) [(t, EvPut record a)].
Proof.
  intros [(s & Hs & Hkey & Hg) Ho Hk _] Ht (now & fault & Hput).
  pose proof Hw as [Hf Honce Hd Hdel [Hl Hsv Hsf Hts Hc]].
  pose proof (put_spec _ _ _ _ _ _ Hput Hl) as (Hl' & Hs' & Himg & Hok).
  assert (Hev : [(t, EvPut record a)] = [] \/ exists e, [(t, EvPut record a)] = [(t, e)] /\ plain e = true) by eauto.
  assert (Hmem : forall role key, mem_has j role key -> mem_has j' role key).
  { intros role key (r & Hr & Hrk). unfold mem_has. rewrite Hs'. destruct (decide (role = jr_Role record)) as [->|Hne].
    - rewrite lookup_insert_eq. eexists. split; [done|]. cbn. apply Hkey. specialize (Hk _ _ Hs).
      destruct s as [|r'|r']; cbn in *; [congruence| |]; [destruct Hk as ([u Hu] & _)|destruct Hk as [u Hu]];
        rewrite Hu in Hr; injection Hr as <-; by rewrite <- Hrk.
    - rewrite lookup_insert_ne by done. eauto. }
  assert (Hkeep : forall role key, disk_has (jo_disk j) role key -> mem_has j role key -> disk_has (jo_disk j') role key).
  { intros role key H1 H2. eapply put_disk_has; eauto. }
  assert (Hfiled : filed j' (jr_Role record) record) by (exists now; by rewrite Hs', lookup_insert_eq).
  assert (Hother : forall role r, role <> jr_Role record -> filed j role r -> filed j' role r).
  { intros role r Hne [u Hu]. exists u. by rewrite Hs', lookup_insert_ne. }
  assert (Hsv' : services_ok (tr ++ [(t, EvPut record a)]) (jo_services j')).
  { rewrite Hs'. intros role r [[<- <-]|[Hne Hr]]%lookup_insert_Some.
    - split; [done|]. exists t, record, a. split; [set_solver|done].
    - by apply (services_ok_mono tr _ (jo_services j) Hsv). }
  split; try done; eauto.
  - eexists _, None. split; [by apply Hg| | |done].
    + intros role s' [[<- _]|[_ H]]%lookup_insert_Some; by eapply Ho.
    + intros role s' [[<- <-]|[Hne H]]%lookup_insert_Some.
      * assert (known_ok j' (tr ++ [(t, EvPut record a)]) (jr_Role record) (Known record)) by done.
        specialize (Hk _ _ Hs). destruct s as [|r|r]; [|done..]. destruct a as [[]|e]; [|done]. cbn. split_and!; [done| |].
        -- eapply Forall_impl; [by apply Hok|]. intros f ->. eexists _, _. split_and!; [done|fold (jo_services j'); by rewrite Hs', lookup_insert_eq|done].
        -- intros Hh. rewrite (creates_plain _ _ t) by done. cbn in Hk.
           destruct (creates (jr_Role record) tr) as [|key ks] eqn:E; [done|].
           assert (Hin : key ∈ creates (jr_Role record) tr) by (rewrite E; left).
           destruct (Hsf Hh _ _ Hin) as (r & Hr & _). cbn in Hr. congruence.
      * specialize (Hk _ _ H). destruct s' as [|r|r]; cbn in *; [by rewrite Hs', lookup_insert_ne| |by apply Hother].
        destruct Hk as ([u Hu] & H2 & H3). split_and!; [by apply Hother; [|exists u]| |].
        -- apply Hkeep; [done|]. by eexists.
        -- intros Hh. rewrite (creates_plain _ _ t) by done. by apply H3.
  - eapply Forall_impl; [exact Himg|]. intros f [Hin| ->]; [|done]. apply file_ok_mono. by eapply Forall_forall in Hf.
  - intros role Hne Hnc. rewrite Hs', lookup_insert_ne; [done|]. destruct (Ho _ _ Hs) as [->|]; [congruence|done].
  - intros Hh role. rewrite (creates_plain _ _ t) by done. by apply Honce.
  - intros Hh role key. rewrite (creates_plain _ _ t) by done. intros H. by apply Hmem, Hsf.
  - intros Hh role key. rewrite (creates_plain _ _ t) by done. intros H. apply Hkeep; [by apply Hd|by apply Hsf].
  - by apply deletes_snoc.
Qed.

Lemma ask_ok q k a j' :
  thread_ok j tr t (Ask q k) σ seen -> ts !! t = Some (Ask q k) -> answered j q a j' ->
  advanced j tr j' t (k a) (pair t <$> event_of q a).
Proof.
  intros Hth Ht Ha. destruct q; cbn in Ha |- *; subst;
    try (eapply ask_create; done); try (eapply ask_delete; done); try (eapply ask_put; done).
  - eapply advanced_plain; [done|done|eauto|]. eapply thread_plain; [done|eauto|by apply (th_guarded _ _ _ _ _ _ Hth)|].
    intros id' s Hs. rewrite last_snoc. destruct a; by simplify_eq.
  - eapply advanced_plain; [done|done|eauto|]. eapply thread_plain; [done|eauto|by apply (th_guarded _ _ _ _ _ _ Hth)|done].
  - eapply advanced_plain; [done|done|eauto|]. eapply thread_plain; [done|eauto|by apply (th_guarded _ _ _ _ _ _ Hth)|done].
  - eapply advanced_plain; [done|done|eauto|]. eapply thread_plain; [done|eauto|by apply (th_guarded _ _ _ _ _ _ Hth)|done].
  - eapply advanced_plain; [done|done|eauto|]. eapply thread_plain; [done|eauto|by apply (th_guarded _ _ _ _ _ _ Hth)|done].
  - destruct Ha as [-> ->]. destruct Hth as [[-> Hg] _ _ _]. destruct Hw as [_ _ _ _ [_ Hsv _ _ _]].
    eapply advanced_plain; [exact Hw|done|eauto|]. rewrite app_nil_r. split; [apply Hg| | |done].
    + intros r Hr. by apply Hsv in Hr as [? _].
    + intros role s [<- _]%lookup_singleton_Some. by left.
    + intros role s [<- <-]%lookup_singleton_Some. destruct (jo_services j !! t) as [r|] eqn:E; [|done]. by apply filed_self.
  - destruct Ha as [-> ->]. destruct Hth as [[-> Hg] _ _ _]. destruct Hw as [_ _ _ _ [_ Hsv _ _ _]].
    eapply advanced_plain; [exact Hw|done|eauto|]. rewrite app_nil_r. split; [apply Hg| | |done].
    + intros role r Hr. by apply Hsv in Hr as [? _].
    + by right.
    + intros role s. rewrite lookup_fmap, fmap_Some. intros (r & Hr & ->). by apply filed_self.
Qed.
End Asking.

(** *** Opening, crashing *)
Lemma OpenJournal_spec env d d' r :
  OpenJournal env path (lc_plan l) (lc_owner l) d = (d', r) ->
  (jk_visible d = JAbsent /\
   Forall (fun f => f ∈ journal_images d \/ f = JFile true (Some (fresh_document (lc_plan l) (lc_owner l))))
     (journal_images d') /\
   forall j, r = Ok j -> jo_locked j = true /\ jo_disk j = d' /\
     jo_document j = fresh_document (lc_plan l) (lc_owner l)) \/
  (d' = d /\ forall j, r = Ok j -> jo_locked j = true /\ jo_disk j = d /\
     jk_visible d = JFile true (Some (jo_document j))).
Proof.
  unfold OpenJournal. destruct (str_empty path); [by intros [= <- <-]; right|].
  destruct (str_empty (lc_owner l)); [by intros [= <- <-]; right|].
  destruct (oe_mkdir env); [|by intros [= <- <-]; right]. destruct (oe_chmod env); [|by intros [= <- <-]; right].
  destruct (oe_lock env); [|by intros [= <- <-]; right]. unfold journal_load.
  destruct (jk_visible d) as [|private [doc|]] eqn:Ev.
  - unfold persistLocked. cbn [jo_document jo_disk].
    destruct (persist_loop _ _ _ _) as [d1 r1] eqn:E. intros [= <- <-]. apply persist_images in E as [E1 _].
    left. split_and!; [done|done|]. intros j. destruct r1 as [[]|e]; [|done]. by intros [= <-].
  - intros [= <- <-]. right. split; [done|]. intros j. destruct (oe_open env), (oe_stat env); try done. cbn.
    destruct private; [|done]. cbn. destruct (check_document _ _ _); [|done]. by intros [= <-].
  - intros [= <- <-]. right. split; [done|]. intros j. by destruct (oe_open env), (oe_stat env), private.
Qed.

Lemma disk_absent d role key : jk_visible d = JAbsent -> ~ disk_has d role key.
Proof. intros Hv [(doc & r & E & _) _]%Forall_cons. congruence. Qed.

Lemma open_ok env d d' r tr :
  OpenJournal env path (lc_plan l) (lc_owner l) d = (d', r) -> world_ok (mkWorld (Down d) tr) ->
  world_ok (mkWorld (match r with Ok j => Up j ∅ | Err _ => Down d' end) tr).
Proof.
  intros Ho [Hf Honce Hd Hdel _]. cbn in *. apply OpenJournal_spec in Ho as [(Hv & Himg & Hr)|(-> & Hr)].
  - assert (Hnone : lc_idempotencyHeader l = ""%string -> forall role key, key ∈ creates role tr -> False).
    { intros Hh role key Hin. destruct (disk_absent _ role key Hv). by apply Hd. }
    assert (Hf' : Forall (file_ok tr) (journal_images d')).
    { eapply Forall_impl; [exact Himg|]. intros f [Hin| ->]; [by eapply Forall_forall in Hf|by intros ? ? ?]. }
    destruct r as [j|e]; [|split; try done; by intros Hh role key ?%Hnone].
    destruct (Hr j eq_refl) as (Hl & <- & Hdoc). split; try done; [by intros Hh role key ?%Hnone|].
    split; [done| |by intros Hh role key ?%Hnone|by intros ? ?|by intros ? [? ?]].
    unfold jo_services. rewrite Hdoc. by intros ? ? ?.
  - destruct r as [j|e]; [|by split]. destruct (Hr j eq_refl) as (Hl & <- & Hdoc).
    split; try done. split; [done| | |by intros ? ?|by intros ? [? ?]].
    + unfold journal_images in Hf. rewrite Hdoc in Hf. by apply Forall_cons in Hf as [? _].
    + intros Hh role key Hin. pose proof (Hd Hh role key Hin) as [(doc & r & E & Hk) _]%Forall_cons.
      rewrite Hdoc in E. injection E as <-. by exists r.
Qed.

Lemma crash_ok p f tr :
  f ∈ journal_images (world_disk (mkWorld p tr)) -> world_ok (mkWorld p tr) ->
  world_ok (mkWorld (Down (mkJournalDisk f f)) tr).
Proof.
  intros Hin [Hf Honce Hd Hdel _]. split; try done.
  - eapply Forall_forall in Hf; [|exact Hin]. by repeat constructor.
  - intros Hh role key Hk. specialize (Hd Hh role key Hk). eapply Forall_forall in Hd; [|exact Hin]. by repeat constructor.
Qed.

(** ** The plan *)
Lemma fold_check_planned services seen seen' :
  fold_result check_planned seen services = Ok seen' ->
  NoDup (pl_Role <$> services) /\ Forall (fun s => pl_Role s ∈ plan_roles /\ pl_Role s ∉ seen.1) services.
Proof.
  revert seen. induction services as [|s rest IH]; intros seen; [split; constructor|]. cbn.
  destruct (check_planned seen s) as [seen1|e] eqn:E; [|done]. intros H. destruct (IH _ H) as [Hnd Hall].
  unfold check_planned in E. destruct (fail_if _ _) as [[]|e] eqn:E1; [|done]. apply fail_if_ok, orb_false_iff in E1 as [E1 E2].
  apply negb_false_iff, bool_decide_eq_true in E1. apply bool_decide_eq_false in E2.
  destruct (wrap_err _ _); [|done]. destruct (fail_if _ _); [|done]. injection E as <-. cbn in Hall. split.
  - constructor; [|done]. intros (x & Ex & Hx)%list_elem_of_fmap. eapply Forall_forall in Hall as [_ Hn]; [|exact Hx]. set_solver.
  - constructor; [done|]. eapply Forall_impl; [exact Hall|]. cbn. intros x [? ?]. set_solver.
Qed.

Lemma plan_ok `{PlanDigest} services plan :
  NewQualificationPlan services = Ok plan ->
  NoDup (pl_Role <$> qp_services plan) /\ Forall (fun s => pl_Role s ∈ plan_roles) (qp_services plan).
Proof.
  unfold NewQualificationPlan. destruct (fold_result _ _ _) as [seen|e] eqn:E; [|done]. intros [= <-]. cbn.
  apply fold_check_planned in E as [Hnd Hall]. split; [by rewrite sort_by_perm|]. rewrite sort_by_perm.
  eapply Forall_impl; [exact Hall|]. by intros s [? _].
Qed.

Section Plan.
Context `{PlanDigest} (services : list PlannedService) (Hplan : NewQualificationPlan services = Ok (lc_plan l)).

Lemma guarded_outcome {A} me (p : prog A) (f : A -> outcome) σ seen :
  guarded me p anything σ seen -> guarded me (pbind p (fun r => Done (f r))) anything σ seen.
Proof. intros Hp. apply guarded_bind. by eapply guarded_weaken. Qed.

Lemma step_ok w w' : lifecycle_step w w' -> world_ok w -> world_ok w'.
Proof.
  destruct (plan_ok _ _ Hplan) as [Hnd Hroles].
  intros [env d d' r tr Ho|j tr|j tr|t q k a j j' ts tr Ht Ha|t o j ts tr Ht|j tr|p f tr Hin] Hw.
  - by eapply open_ok.
  - destruct Hw as [Hf Honce Hd Hdel [Hl Hs Hsf _ _]]. split; [done..|]. split; [done..| |].
    + intros t p Hp. unfold ensure_threads in Hp. apply elem_of_list_to_map_2 in Hp.
      apply list_elem_of_fmap in Hp as (planned & [= -> ->] & Hin).
      exists ∅, None. split; [|by intros ? ?|by intros ? ?|done]. apply guarded_outcome, guarded_ensureOne.
    + intros t [p Hp] _. unfold ensure_threads in Hp. apply elem_of_list_to_map_2 in Hp.
      apply list_elem_of_fmap in Hp as (planned & [= Hr _] & Hin). eapply Forall_forall in Hroles; [|exact Hin].
      rewrite <- Hr in Hroles. exfalso. revert Hroles. unfold plan_roles. set_solver.
  - destruct Hw as [Hf Honce Hd Hdel [Hl Hs Hsf _ _]]. split; [done..|]. split; [done..| |].
    + intros t p [<- <-]%lookup_singleton_Some. exists ∅, None.
      split; [|by intros ? ?|by intros ? ?|done]. by apply guarded_outcome, guarded_Cleanup.
    + by intros t _ [p [<- _]%lookup_singleton_Some].
  - pose proof Hw as [_ _ _ _ [_ _ _ Hts _]]. destruct (Hts _ _ Ht) as (σ & seen & Hth).
    eapply advance; [done|done|]. by eapply ask_ok.
  - destruct Hw as [Hf Honce Hd Hdel [Hl Hs Hsf Hts Hc]]. split; [done..|]. split; [done..| |].
    + intros t' p [_ Hp]%lookup_delete_Some. by apply Hts.
    + intros t' [x [_ Hx]%lookup_delete_Some] [y [_ Hy]%lookup_delete_Some]. apply Hc; eauto.
  - destruct Hw as [Hf Honce Hd Hdel _]. by split.
  - by eapply crash_ok.
Qed.

Lemma first_ok : world_ok first_world.
Proof.
  split; cbn; [by repeat constructor|intros _ role; cbn; lia|by intros _ role key ?%elem_of_nil| |done].
  intros pre t id key a post Heq. by destruct pre.
Qed.

Lemma reachable_ok w : rtc lifecycle_step first_world w -> world_ok w.
Proof. intros Hr. eapply (rtc_ind_r world_ok); [apply first_ok| |exact Hr]. intros x y _ Hxy Hx. by eapply step_ok. Qed.

(** C26: without an idempotency header at most one create request is ever sent
    for a role, over any number of runs of [Ensure] and [Cleanup] in any number
    of processes, whatever fails and wherever they crash; and from the moment it
    is sent, every file a crash can leave holds a record of the role with the
    key of that request. *)
Theorem create_sent_once w role :
  lc_idempotencyHeader l = ""%string -> rtc lifecycle_step first_world w ->
  (length (creates role (wd_trace w)) <= 1)%nat /\
  forall key, key ∈ creates role (wd_trace w) ->
    forall f, f ∈ journal_images (world_disk w) -> file_has role key f.
Proof.
  intros Hh Hr. destruct (reachable_ok w Hr) as [_ Ho Hd _ _]. split; [by apply Ho|].
  intros key Hk. apply Forall_forall. by apply Hd.
Qed.

(** C27: every delete request is for the service of a record that was put into
    the journal for a planned role with the identity of the plan, with the key
    of that record, and directly follows an answer of the API that shows that
    service with the recorded identity and owned by this owner. *)
Theorem deletes_verified w pre t id key a post :
  rtc lifecycle_step first_world w -> wd_trace w = pre ++ (t, EvDelete id key a) :: post ->
  delete_justified pre t id key.
Proof. intros Hr Ht. by eapply (wo_deletes _ (reachable_ok w Hr)). Qed.
End Plan.
End Lifecycle.

(** ** A cleanup that succeeds *)

(** The API has answered that the service does not exist. *)
Definition missing (id : string) (tr : list event) : Prop :=
  exists e, IsHTTPStatus (@Err unit e) StatusNotFound = true /\
    (EvGet id (Err e) ∈ tr \/ exists key, EvDelete id key (Err e) ∈ tr).

Lemma missing_app_l id tr tr' : missing id tr -> missing id (tr ++ tr').
Proof. intros (e & He & [H|[key H]]); exists e; (split; [done|]); [left|right; exists key]; set_solver. Qed.
Lemma missing_app_r id tr tr' : missing id tr' -> missing id (tr ++ tr').
Proof. intros (e & He & [H|[key H]]); exists e; (split; [done|]); [left|right; exists key]; set_solver. Qed.

Lemma run_bind {A B} (p : prog A) (k : A -> prog B) j tr r j' :
  run_prog (pbind p k) j tr r j' ->
  exists tr1 a j1 tr2, run_prog p j tr1 a j1 /\ run_prog (k a) j1 tr2 r j' /\ tr = tr1 ++ tr2.
Proof.
  revert j tr. induction p as [a|q c IH]; intros j tr H; [by exists [], a, j, tr|].
  destruct H as (a & j1 & tr' & Ha & -> & H). apply IH in H as (tr1 & b & j2 & tr2 & H1 & H2 & ->).
  exists (event_of q a ++ tr1), b, j2, tr2. split_and!; [|done|by rewrite app_assoc]. by exists a, j1, tr1.
Qed.

Lemma run_try {A B} (p : prog (result A)) (k : A -> prog (result B)) j tr b j' :
  run_prog (ptry p k) j tr (Ok b) j' ->
  exists tr1 a j1 tr2, run_prog p j tr1 (Ok a) j1 /\ run_prog (k a) j1 tr2 (Ok b) j' /\ tr = tr1 ++ tr2.
Proof.
  intros (tr1 & [a|e] & j1 & tr2 & H1 & H2 & ->)%run_bind; [by exists tr1, a, j1, tr2|]. by destruct H2 as (_ & ? & _).
Qed.

Lemma run_wrap {A} msg (p : prog (result A)) j tr a j' :
  run_prog (pwrap msg p) j tr (Ok a) j' -> run_prog p j tr (Ok a) j'.
Proof.
  intros (tr1 & r & j1 & tr2 & H1 & (-> & H2 & ->) & ->)%run_bind. rewrite app_nil_r.
  destruct r; [|done]. by injection H2 as <-.
Qed.

Lemma run_quiet {A} (p : prog A) j tr a j' : quiet p -> run_prog p j tr a j' -> j' = j.
Proof.
  revert j tr. induction p as [b|q c IH]; intros j tr Hq; [by intros (_ & _ & ->)|].
  intros (b & j1 & tr' & Ha & -> & H). destruct q; try done; cbn in Ha, Hq; subst; by eapply IH.
Qed.

(** Whatever a crash leaves, it is the journal in memory. *)
Definition journaled (j : Journal) : Prop := Forall (of_memory j) (journal_images (jo_disk j)).

Lemma run_put record j tr u j' :
  run_prog (Ask (QPut record) Done) j tr (Ok u) j' -> jo_locked j = true ->
  jo_locked j' = true /\ journaled j' /\
  exists now, jo_services j' = <[jr_Role record := record <| jr_UpdatedAt := now |>]> (jo_services j).
Proof.
  intros (a & j1 & tr' & (now & fault & Hput) & -> & (-> & <- & ->)) Hl. destruct u.
  apply put_spec in Hput as (H1 & H2 & _ & H4); [|done]. split_and!; [done|by apply H4|by exists now].
Qed.

Section Complete.
Context (l : Lifecycle).
Implicit Types (j : Journal) (record : JournalService).

Lemma run_get_missing id j tr r j' :
  run_prog (GetService id) j tr r j' -> IsHTTPStatus r StatusNotFound = true -> missing id tr /\ j' = j.
Proof.
  unfold GetService. destruct (blank id); [intros (-> & -> & ->); cbn; by rewrite bool_decide_eq_false_2|].
  intros (a & j1 & tr' & -> & -> & (-> & <- & ->)) H. destruct r as [s|e]; [done|]. split; [|done].
  exists e. split; [done|]. left. set_solver.
Qed.

Lemma run_absent n id j tr j' :
  run_prog (absent_loop l n id) j tr nil_err j' -> missing id tr /\ j' = j.
Proof.
  revert j tr. induction n as [|n IH]; intros j tr; [by intros (_ & ? & _)|]. cbn [absent_loop].
  intros (tr1 & r & j1 & tr2 & H1 & H2 & ->)%run_bind. destruct (IsHTTPStatus r StatusNotFound) eqn:E.
  - destruct H2 as (-> & _ & ->). rewrite app_nil_r. by eapply run_get_missing.
  - destruct r as [s|e]; [|by destruct H2 as (_ & ? & _)]. destruct n; [by destruct H2 as (_ & ? & _)|].
    apply run_quiet in H1; [subst|apply quiet_get]. apply run_try in H2 as (tr3 & [] & j2 & tr4 & H3 & H4 & ->).
    apply run_quiet in H3; [subst|by cbn]. apply IH in H4 as [H4 ->]. split; [|done]. by apply missing_app_r, missing_app_r.
Qed.

(** What [cleanup_one] leaves when it succeeds. *)
Definition ended (id : string) (role : string) j j' (tr : list event) : Prop :=
  jo_locked j' = true /\ journaled j' /\ missing id tr /\
  (forall role', role' <> role -> jo_services j' !! role' = jo_services j !! role') /\
  exists r', jo_services j' !! role = Some r' /\ is_gone r' = true /\ jr_ServiceID r' = id.

Lemma run_record_deleted record j tr j' :
  run_prog (record_deleted record) j tr nil_err j' -> jo_locked j = true ->
  forall tr', missing (jr_ServiceID record) tr' -> ended (jr_ServiceID record) (jr_Role record) j j' (tr' ++ tr).
Proof.
  intros H Hl tr' Hm. apply run_put in H as (Hl' & Hj & now & Hs); [|done]. split_and!; [done|done|by apply missing_app_l| |].
  - intros role' Hne. by rewrite Hs, lookup_insert_ne.
  - eexists. rewrite Hs, lookup_insert_eq. done.
Qed.

Lemma ended_prefix id role j0 j j' tr tr' :
  ended id role j j' tr' -> (forall role', role' <> role -> jo_services j !! role' = jo_services j0 !! role') ->
  ended id role j0 j' (tr ++ tr').
Proof.
  intros (Hl & Hd & Hm & Hf & Hr) Hj. split_and!; [done|done|by apply missing_app_r| |done].
  intros role' Hne. by rewrite Hf, Hj.
Qed.

Lemma run_verified_deleted record j tr j' :
  run_prog (verified_deleted l record) j tr nil_err j' -> jo_locked j = true ->
  ended (jr_ServiceID record) (jr_Role record) j j' tr.
Proof.
  intros (tr1 & [] & j1 & tr2 & H1%run_wrap & H2 & ->)%run_try Hl.
  apply run_absent in H1 as [Hm ->]. by eapply run_record_deleted.
Qed.

Lemma run_delete_verified record j tr j' :
  run_prog (delete_verified l record) j tr nil_err j' -> jo_locked j = true ->
  ended (jr_ServiceID record) (jr_Role record) j j' tr.
Proof.
  intros (tr1 & r & j1 & tr2 & H1 & H2 & ->)%run_bind Hl. destruct (IsHTTPStatus r StatusNotFound) eqn:E.
  { eapply run_get_missing in H1 as [Hm ->]; [|done]. by eapply run_record_deleted. }
  apply run_quiet in H1; [subst|apply quiet_get]. destruct r as [s|e]; [|by destruct H2 as (_ & ? & _)].
  apply run_try in H2 as (tr3 & [] & j2 & tr4 & (-> & _ & ->) & H3 & ->).
  apply run_bind in H3 as (tr5 & r & j3 & tr6 & H4 & H5 & ->). cbn [app].
  apply (ended_prefix _ _ j j); [|done]. unfold DeleteService in H4. destruct (blank _).
  { destruct H4 as (-> & -> & ->). by destruct H5 as (_ & ? & _). }
  destruct H4 as (a & j4 & tr7 & -> & -> & (-> & <- & ->)). destruct (IsHTTPStatus r StatusNotFound) eqn:E2.
  { eapply run_record_deleted; [done|done|]. destruct r as [op|e]; [done|]. exists e. split; [done|]. right.
    eexists. apply elem_of_app. left. by apply list_elem_of_singleton. }
  destruct r as [op|e]; [|by destruct H5 as (_ & ? & _)].
  apply run_try in H5 as (tr8 & [] & j5 & tr9 & H6 & H7 & ->). apply run_put in H6 as (Hl5 & _ & now & Hs5); [|done].
  apply run_try in H7 as (tr10 & [] & j6 & tr11 & H8 & H9 & ->).
  apply run_quiet in H8; [subst j6|case_match; [done|apply quiet_wait_or_gone]].
  apply run_verified_deleted in H9; [|done]. do 3 rewrite <- ?app_assoc. rewrite !app_assoc.
  eapply (ended_prefix _ _ _ j5); [exact H9|]. intros role' Hne. by rewrite Hs5, lookup_insert_ne.
Qed.

Lemma run_cleanup_one planned record j tr j' :
  run_prog (cleanup_one l planned record) j tr nil_err j' -> jo_locked j = true ->
  ended (jr_ServiceID record) (jr_Role record) j j' tr.
Proof.
  unfold cleanup_one. intros H Hl. case_match; [by destruct H as (_ & ? & _)|]. case_match; [by destruct H as (_ & ? & _)|].
  case_match.
  { apply run_try in H as (tr1 & [] & j1 & tr2 & R1 & R2 & ->). apply run_quiet in R1; [subst|apply quiet_wait_or_gone].
    apply (ended_prefix _ _ j j); [|done]. by apply run_verified_deleted. }
  case_match; [|by apply run_delete_verified].
  apply run_try in H as (tr1 & [] & j1 & tr2 & R1 & R2 & ->). apply run_quiet in R1; [subst|apply quiet_wait_or_gone].
  apply run_try in R2 as (tr3 & [] & j2 & tr4 & R3 & R4 & ->). apply run_put in R3 as (Hl2 & _ & now & Hs2); [|done].
  apply run_delete_verified in R4; [|done]. rewrite app_assoc.
  eapply (ended_prefix _ _ _ j2); [exact R4|]. intros role' Hne. by rewrite Hs2, lookup_insert_ne.
Qed.

(** Records that are gone stay, and every planned record ends. *)
Lemma run_cleanup_loop plan services j tr j' :
  run_prog (cleanup_loop l plan services) j tr nil_err j' -> jo_locked j = true ->
  NoDup (pl_Role <$> plan) ->
  (forall role r, services !! role = Some r -> jr_Role r = role) ->
  (forall role, role ∉ (pl_Role <$> plan) -> jo_services j' !! role = jo_services j !! role) /\
  (forall planned r, planned ∈ plan -> services !! pl_Role planned = Some r -> is_gone r = true ->
     jo_services j' !! pl_Role planned = jo_services j !! pl_Role planned) /\
  (forall planned r, planned ∈ plan -> services !! pl_Role planned = Some r -> is_gone r = false ->
     missing (jr_ServiceID r) tr /\
     exists r', jo_services j' !! pl_Role planned = Some r' /\ is_gone r' = true /\ jr_ServiceID r' = jr_ServiceID r) /\
  (journaled j -> journaled j') /\
  (forall planned r, planned ∈ plan -> services !! pl_Role planned = Some r -> is_gone r = false -> journaled j').
Proof.
  revert j tr. induction plan as [|planned rest IH]; intros j tr H Hl Hnd Hs.
  { destruct H as (_ & _ & ->). split_and!; [done|set_solver|set_solver|done|set_solver]. }
  cbn [fmap list_fmap] in *. apply NoDup_cons in Hnd as [Hni Hnd].
  assert (Hother : forall p, p ∈ rest -> pl_Role p <> pl_Role planned).
  { intros p Hp E. apply Hni. rewrite <- E. by apply list_elem_of_fmap_2. }
  cbn [cleanup_loop] in H. destruct (services !! pl_Role planned) as [record|] eqn:Es; [destruct (is_gone record) eqn:Eg|].
  2:{ apply run_try in H as (tr1 & [] & j1 & tr2 & R1 & R2 & ->). apply run_cleanup_one in R1 as (Hl1 & Hd & Hm & Hf & Hr); [|done].
      rewrite (Hs _ _ Es) in Hf, Hr. destruct (IH _ _ R2 Hl1 Hnd Hs) as (I1 & I2 & I3 & I4 & I5). split_and!; [..|auto|auto].
      - intros role Hn. rewrite I1 by set_solver. apply Hf. set_solver.
      - intros p r [->|Hp]%elem_of_cons Hpr Hgone; [congruence|]. rewrite (I2 p r) by done. by apply Hf, Hother.
      - intros p r [->|Hp]%elem_of_cons Hpr Hgone.
        + rewrite Es in Hpr. injection Hpr as <-. split; [by apply missing_app_l|]. rewrite I1 by done. exact Hr.
        + destruct (I3 p r Hp Hpr Hgone) as [Hm' Hr']. split; [by apply missing_app_r|done]. }
  all: destruct (IH _ _ H Hl Hnd Hs) as (I1 & I2 & I3 & I4 & I5); split_and!; [..|done|].
  all: try (intros role Hn; apply I1; set_solver).
  all: intros p r [->|Hp]%elem_of_cons Hpr Hgone; try congruence; try (by eapply I2); try (by eapply I3); try (by eapply I5).
  by apply I1.
Qed.

Lemma run_resolve plan services j tr services' j' :
  run_prog (resolve_intents l plan services) j tr (Ok services') j' -> jo_locked j = true ->
  (forall role r, services !! role = Some r -> jr_Role r = role /\ filed j role r) ->
  jo_locked j' = true /\
  (forall role r, services' !! role = Some r -> jr_Role r = role /\ filed j' role r) /\
  (forall role r, services !! role = Some r -> exists r', services' !! role = Some r' /\
     (is_gone r = true -> r' = r) /\ (is_gone r = false -> is_gone r' = false)) /\
  (journaled j -> journaled j').
Proof.
  revert services j tr. induction plan as [|planned rest IH]; intros services j tr H Hl Hs.
  { destruct H as (_ & [= ->] & ->). split_and!; [done|done|eauto|done]. }
  cbn [resolve_intents] in H. destruct (unresolved services planned) as [record|] eqn:Eu; [|by eapply IH].
  unfold unresolved in Eu. destruct (services !! pl_Role planned) as [record'|] eqn:Es; [|done].
  case_bool_decide as Hst; [|done]. injection Eu as ->. destruct (Hs _ _ Es) as [Hrole _].
  destruct (negb (matchesPlan _ _)); [by destruct H as (_ & ? & _)|].
  apply run_try in H as (tr1 & [s|] & j1 & tr2 & R1%run_wrap & R2 & ->); [|by destruct R2 as (_ & ? & _)].
  apply run_quiet in R1; [subst|apply quiet_find].
  apply run_try in R2 as (tr3 & rec & j2 & tr4 & (-> & Hrec & ->) & R3 & ->).
  assert (Hkeep : jr_Role rec = jr_Role record /\ is_gone rec = false).
  { destruct (sv_OngoingOperationIDs s) as [|o [|]]; [injection Hrec as ->; done..|done]. }
  destruct Hkeep as [Hr2 Hg2]. apply run_try in R3 as (tr5 & [] & j3 & tr6 & R4%run_wrap & R5 & ->).
  apply run_put in R4 as (Hl3 & Hj3 & now & Hs3); [|done]. rewrite Hr2, Hrole in Hs3.
  apply IH in R5 as (I1 & I2 & I3 & I4); [|done|].
  2:{ intros role r [[<- <-]|[Hne Hr]]%lookup_insert_Some; [split; [congruence|exists now; by rewrite Hs3, lookup_insert_eq]|].
      destruct (Hs _ _ Hr) as [? [u Hu]]. split; [done|]. exists u. by rewrite Hs3, lookup_insert_ne. }
  split_and!; [done|done| |auto]. intros role r Hr. destruct (decide (role = pl_Role planned)) as [->|Hne].
  - assert (r = record) as -> by congruence. destruct (I3 (pl_Role planned) rec) as (r' & Hr' & _ & Hn); [by rewrite lookup_insert_eq|].
    exists r'. split_and!; [done| |auto]. unfold is_gone. rewrite Hst. by rewrite !bool_decide_eq_false_2.
  - apply I3. by rewrite lookup_insert_ne.
Qed.

(** C28: when [Cleanup] returns no error, the journal marks every planned service
    that it had a record of as deleted or absent, and for each one that was not
    so marked before, the API has answered in this run that its recorded
    identifier does not exist.  The marks are durable, so that every file a crash
    can leave holds them, if the call found a service not yet so marked or the
    journal in memory was durable when it began. *)
Theorem Cleanup_complete `{PlanDigest} services j tr j' :
  NewQualificationPlan services = Ok (lc_plan l) -> jo_locked j = true ->
  roles_ok (jo_services j) -> run_prog (Cleanup l) j tr nil_err j' ->
  forall planned r, planned ∈ qp_services (lc_plan l) -> jo_services j !! pl_Role planned = Some r ->
  exists r', jo_services j' !! pl_Role planned = Some r' /\ is_gone r' = true /\
    (is_gone r = true \/ missing (jr_ServiceID r') tr) /\
    (is_gone r = false \/ Forall (fun f => f = JFile true (Some (jo_document j))) (journal_images (jo_disk j)) ->
     Forall (fun f => f = JFile true (Some (jo_document j'))) (journal_images (jo_disk j'))).
Proof.
  intros Hplan Hl Hroles Hrun planned r Hin Hr. destruct (plan_ok _ _ Hplan) as [Hnd _].
  unfold Cleanup in Hrun. apply run_bind in Hrun as (tr1 & m & j1 & tr2 & R1 & R2 & ->).
  destruct R1 as (a & j0 & tr0 & [-> ->] & -> & (-> & -> & ->)).
  apply run_try in R2 as (tr3 & services' & j2 & tr4 & R3 & R4 & ->).
  apply run_resolve in R3 as (Hl2 & Hs2 & Hk2 & Hd2); [|done|].
  2:{ intros role r0 H0. split; [by apply Hroles|]. by apply filed_self. }
  apply run_cleanup_loop in R4 as (_ & I2 & I3 & I4 & I5); [|done|by rewrite fmap_reverse, reverse_Permutation|intros; by apply Hs2].
  destruct (Hk2 _ _ Hr) as (r1 & Hr1 & Hgone & Hnot). assert (Hin' : planned ∈ reverse (qp_services (lc_plan l))) by (by rewrite elem_of_reverse).
  destruct (is_gone r) eqn:Eg.
  - specialize (Hgone eq_refl) as ->. destruct (Hs2 _ _ Hr1) as [_ [u Hu]]. exists (r <| jr_UpdatedAt := u |>).
    rewrite (I2 _ _ Hin' Hr1 Eg). split_and!; [done|exact Eg|by left|]. intros [?|Hd]; [done|]. by apply I4, Hd2.
  - specialize (Hnot eq_refl). destruct (I3 _ _ Hin' Hr1 Hnot) as (Hm & r' & H1 & H2 & H3).
    exists r'. split_and!; [done|done| |]; [right; rewrite H3; by apply missing_app_r, missing_app_r|].
    intros _. by eapply I5.
Qed.
End Complete.
