(* ===== verification/CloudScenario.v ===== *)
(** * Runs of the cloud lifecycle

    A service is created, the process crashes, and the next process deletes the
    service; a run in which an intent is only in memory when its create request
    is sent; and a deletion that failed. *)

From S2P Require Import Prelude Cloud CloudTheorems.
From Stdlib Require Import ZArith Lia.
From stdpp Require Import base gmap strings numbers option relations list.
#[local] Open Scope Z_scope.
#[local] Open Scope string_scope.
#[local] Open Scope list_scope.

(** ** Running by a script *)

(** What the outside answers to the next request of a thread. *)
Inductive reply : Type :=
| RpAuto
| RpService (r : result Service)
| RpServices (r : result (list Service))
| RpOperation (r : result Operation)
| RpKey (r : result string)
| RpSlept (r : gerr)
| RpPut (now : Time) (fault : option (persist_action * gerror)).

Definition reply_to (j : Journal) (rp : reply) (q : request) : option (answer q * Journal) :=
  match q return option (answer q * Journal) with
  | QGet _ => match rp with RpService r => Some (r, j) | _ => None end
  | QList => match rp with RpServices r => Some (r, j) | _ => None end
  | QCreate _ _ | QDelete _ _ | QWait _ _ => match rp with RpOperation r => Some (r, j) | _ => None end
  | QSleep _ => match rp with RpSlept r => Some (r, j) | _ => None end
  | QRandomKey => match rp with RpKey r => Some (r, j) | _ => None end
  | QService role => Some (jo_services j !! role, j)
  | QServices => Some (jo_services j, j)
  | QPut record =>
      match rp with
      | RpPut now fault => let '(j', a) := put now fault record j in Some (a, j')
      | _ => None
      end
  end.

Lemma reply_answered j rp q a j' : reply_to j rp q = Some (a, j') -> answered j q a j'.
Proof.
  destruct q, rp; cbn; try done; try (by intros [= <- <-]).
  destruct (put now fault record j) as [j1 b] eqn:E. intros [= <- <-]. eauto.
Qed.

Inductive act : Type :=
| ActOpen (env : OpenEnv)
| ActEnsure
| ActCleanup
| ActAsk (t : string) (rp : reply)
| ActReturn (t : string)
| ActCrash (visible : bool).

Definition act_step (l : Lifecycle) (path : string) (w : world) (a : act) : option world :=
  let tr := wd_trace w in
  match a, wd_process w with
  | ActOpen env, Down d =>
      let '(d', r) := OpenJournal env path (lc_plan l) (lc_owner l) d in
      Some (mkWorld (match r with Ok j => Up j ∅ | Err _ => Down d' end) tr)
  | ActEnsure, Up j ts => match map_to_list ts with [] => Some (mkWorld (Up j (ensure_threads l)) tr) | _ => None end
  | ActCleanup, Up j ts =>
      match map_to_list ts with [] => Some (mkWorld (Up j {[cleanup_name := cleanup_thread l]}) tr) | _ => None end
  | ActAsk t rp, Up j ts =>
      match ts !! t with
      | Some (Ask q k) =>
          match reply_to j rp q with
          | Some (a, j') => Some (mkWorld (Up j' (<[t := k a]> ts)) (tr ++ (pair t <$> event_of q a)))
          | None => None
          end
      | _ => None
      end
  | ActReturn t, Up j ts =>
      match ts !! t with Some (Done _) => Some (mkWorld (Up j (delete t ts)) tr) | _ => None end
  | ActCrash visible, p =>
      let d := world_disk w in
      let f := if visible then jk_visible d else jk_durable d in
      Some (mkWorld (Down (mkJournalDisk f f)) tr)
  | _, _ => None
  end.

Lemma act_sound l path w a w' : act_step l path w a = Some w' -> lifecycle_step l path w w'.
Proof.
  destruct w as [p tr]. destruct a, p as [d|j ts]; cbn; try done.
  - destruct (OpenJournal _ _ _ _ _) as [d' r] eqn:E. intros [= <-]. by eapply step_open.
  - destruct (map_to_list ts) eqn:E; [|done]. intros [= <-]. apply map_to_list_empty_iff in E as ->. constructor.
  - destruct (map_to_list ts) eqn:E; [|done]. intros [= <-]. apply map_to_list_empty_iff in E as ->. constructor.
  - destruct (ts !! t) as [[|q k]|] eqn:Et; try done. destruct (reply_to j rp q) as [[a j']|] eqn:Er; [|done].
    intros [= <-]. eapply step_ask; [done|]. by eapply reply_answered.
  - destruct (ts !! t) as [[|q k]|] eqn:Et; try done. intros [= <-]. by eapply step_return.
  - intros [= <-]. apply step_crash. cbn. destruct visible; set_solver.
  - intros [= <-]. apply step_crash. cbn. destruct visible; set_solver.
Qed.

Definition acts (l : Lifecycle) (path : string) (script : list act) (w : world) : option world :=
  foldl (fun o a => w ← o; act_step l path w a) (Some w) script.

Lemma acts_app l path s1 s2 w : acts l path (s1 ++ s2) w = (acts l path s1 w ≫= acts l path s2).
Proof.
  unfold acts. rewrite foldl_app. destruct (foldl _ (Some w) s1) as [w1|]; [done|]. cbn.
  induction s2 as [|a s2 IH]; [done|]. cbn. exact IH.
Qed.

Lemma acts_sound l path script w w' : acts l path script w = Some w' -> rtc (lifecycle_step l path) w w'.
Proof.
  revert w'. induction script as [|a script IH] using rev_ind; intros w'; [by intros [= <-]|].
  rewrite acts_app. destruct (acts l path script w) as [w1|]; [|done]. cbn. intros H.
  eapply rtc_r; [by apply IH|by eapply act_sound].
Qed.

(** ** A plan *)
#[local] Instance names_digest : PlanDigest := fun services => String.concat "," (pl_Role <$> services).

Definition request_for (name : string) : CreateServiceRequest :=
  mkCreateServiceRequest name "dc" "class" "10.0" "vpn" 0 "" false false false [].
Definition four : list PlannedService :=
  (fun role => mkPlannedService role (request_for ("svc-" +:+ role))) <$> plan_roles.
Definition demo_plan : QualificationPlan :=
  mkQualificationPlan four (plan_digest four).
Lemma demo_plan_ok : NewQualificationPlan four = Ok demo_plan.
Proof. by vm_compute. Qed.

Definition no_credential : Credential := mkCredential "" "" "".
Definition service_a : Service :=
  mkService "s1" "svc-broker-a" "10.0" "me" "me" "dc" "class" "vpn" "" false "COMPLETED" "START" false []
    (mkBroker "10" 0 false no_credential []) [mkConnectionEndpoint "e" "public" "" "public" "completed" [] []].
Definition operation (id status : string) : Operation := mkOperation id "any" "s1" status.
Definition gone {A} : result A := Err (HTTPError StatusNotFound).

Definition lifecycle_with (header : string) : Lifecycle := mkLifecycle "me" header demo_plan (2 * Second).
Definition calm_open : OpenEnv := mkOpenEnv nil_err nil_err nil_err nil_err nil_err None.
Definition ask_a (rp : reply) : act := ActAsk "broker-a" rp.

(** ** Created, crashed, deleted *)
Definition create_script : list act :=
  [ActOpen calm_open; ActEnsure;
   ask_a RpAuto; ask_a (RpKey (Ok "k1")); ask_a (RpPut 1 None);
   ask_a (RpOperation (Ok (operation "o1" "PENDING"))); ask_a (RpPut 2 None);
   ask_a (RpOperation (Ok (operation "o1" "SUCCEEDED"))); ask_a (RpService (Ok service_a)); ask_a (RpPut 3 None)].
Definition delete_script : list act :=
  let ask rp := ActAsk cleanup_name rp in
  [ActCrash false; ActOpen calm_open; ActCleanup; ask RpAuto;
   ask (RpService (Ok service_a)); ask (RpOperation (Ok (operation "d1" "PENDING"))); ask (RpPut 4 None);
   ask (RpOperation (Ok (operation "d1" "SUCCEEDED"))); ask (RpService gone); ask (RpPut 5 None)].

Definition world_after (header : string) (script : list act) : world :=
  default first_world (acts (lifecycle_with header) "journal" script first_world).

Lemma world_after_reached header script :
  (if acts (lifecycle_with header) "journal" script first_world then true else false) = true ->
  rtc (lifecycle_step (lifecycle_with header) "journal") first_world (world_after header script).
Proof. unfold world_after. destruct (acts _ _ _ _) as [w|] eqn:E; [|done]. intros _. by eapply acts_sound. Qed.

Definition deleted_world : world := world_after "" (create_script ++ delete_script).

Lemma deleted_world_reached :
  rtc (lifecycle_step (lifecycle_with "") "journal") first_world deleted_world.
Proof. apply world_after_reached. vm_compute. reflexivity. Qed.

Lemma create_sent_once_witness :
  creates "broker-a" (wd_trace deleted_world) = ["k1"] /\
  (length (creates "broker-a" (wd_trace deleted_world)) <= 1)%nat /\
  forall key, key ∈ creates "broker-a" (wd_trace deleted_world) ->
    forall f, f ∈ journal_images (world_disk deleted_world) -> file_has "broker-a" key f.
Proof.
  split; [vm_compute; reflexivity|].
  apply (create_sent_once (lifecycle_with "") "journal" four demo_plan_ok deleted_world "broker-a" eq_refl).
  exact deleted_world_reached.
Defined.

(** The events before the delete request. *)
Lemma deletes_verified_witness :
  delete_justified (lifecycle_with "") (take 7 (wd_trace deleted_world)) cleanup_name "s1" "k1-delete".
Proof.
  apply (deletes_verified (lifecycle_with "") "journal" four demo_plan_ok deleted_world
    (take 7 (wd_trace deleted_world)) cleanup_name "s1" "k1-delete" (Ok (operation "d1" "PENDING"))
    (drop 8 (wd_trace deleted_world))); [exact deleted_world_reached|vm_compute; reflexivity].
Defined.

(** One program by a script. *)
Fixpoint run_script {A} (p : prog A) (j : Journal) (script : list reply) : option (list event * A * Journal) :=
  match p with
  | Done a => Some ([], a, j)
  | Ask q k =>
      match script with
      | [] => None
      | rp :: rest =>
          match reply_to j rp q with
          | Some (a, j1) =>
              match run_script (k a) j1 rest with
              | Some (tr, r, j') => Some (event_of q a ++ tr, r, j')
              | None => None
              end
          | None => None
          end
      end
  end.

Lemma run_script_sound {A} (p : prog A) j script tr r j' :
  run_script p j script = Some (tr, r, j') -> run_prog p j tr r j'.
Proof.
  revert j script tr. induction p as [a|q k IH]; intros j script tr H; [by injection H as <- <- <-|].
  destruct script as [|rp rest]; [done|]. cbn in H. destruct (reply_to j rp q) as [[a j1]|] eqn:Er; [|done].
  destruct (run_script (k a) j1 rest) as [[[tr1 r1] j2]|] eqn:E; [|done]. injection H as <- <- <-.
  exists a, j1, tr1. split_and!; [by eapply reply_answered|done|by eapply IH].
Qed.

Definition record_a (state : lifecycle_state) (operationID : string) : JournalService :=
  mkJournalService "broker-a" (Identity (request_for "svc-broker-a")) state "k1" "s1" operationID 3.
Definition journal_with (r : JournalService) : Journal :=
  let doc := mkJournalDocument journalSchemaVersion (plan_digest four) "me" {["broker-a" := r]} in
  mkJournal doc true (mkJournalDisk (JFile true (Some doc)) (JFile true (Some doc))).

Definition cleanup_replies : list reply :=
  [RpAuto; RpService (Ok service_a); RpOperation (Ok (operation "d1" "PENDING")); RpPut 4 None;
   RpOperation (Ok (operation "d1" "SUCCEEDED")); RpService gone; RpPut 5 None].
Definition cleaned : list event * gerr * Journal :=
  default ([], nil_err, journal_with (record_a stateReady ""))
    (run_script (Cleanup (lifecycle_with "")) (journal_with (record_a stateReady "")) cleanup_replies).

Lemma Cleanup_complete_witness :
  exists r', jo_services (snd cleaned) !! "broker-a" = Some r' /\ is_gone r' = true /\
    (is_gone (record_a stateReady "") = true \/ missing (jr_ServiceID r') (fst (fst cleaned))) /\
    (is_gone (record_a stateReady "") = false \/
       Forall (fun f => f = JFile true (Some (jo_document (journal_with (record_a stateReady "")))))
         (journal_images (jo_disk (journal_with (record_a stateReady "")))) ->
     Forall (fun f => f = JFile true (Some (jo_document (snd cleaned)))) (journal_images (jo_disk (snd cleaned)))).
Proof.
  apply (Cleanup_complete (lifecycle_with "") four (journal_with (record_a stateReady "")) (fst (fst cleaned))
    (snd cleaned) demo_plan_ok eq_refl) with (planned := mkPlannedService "broker-a" (request_for "svc-broker-a")).
  - intros role r Hr. change (({["broker-a" := record_a stateReady ""]} : gmap string JournalService) !! role = Some r) in Hr.
    apply lookup_singleton_Some in Hr as [<- <-]. reflexivity.
  - apply (run_script_sound _ _ cleanup_replies). vm_compute. reflexivity.
  - apply (list_elem_of_lookup_2 _ 1%nat). vm_compute. reflexivity.
  - vm_compute. reflexivity.
Defined.

(** ** An intent that is only in memory *)
Definition full : option (persist_action * gerror) := Some (PEncode, ErrNew "no space left on device").
(** The other goroutines of [Ensure] fail at once. *)
Definition others_fail : list act :=
  t ← ["broker-0"; "broker-b"; "broker-c"];
  [ActAsk t RpAuto; ActAsk t (RpKey (Err (ErrNew "entropy"))); ActReturn t].
Definition retry_script : list act :=
  [ActOpen calm_open; ActEnsure; ask_a RpAuto; ask_a (RpKey (Ok "k1")); ask_a (RpPut 1 full); ActReturn "broker-a"]
  ++ others_fail ++
  [ActEnsure; ask_a RpAuto; ask_a (RpServices (Ok [])); ask_a (RpSlept nil_err); ask_a (RpServices (Ok []));
   ask_a (RpSlept nil_err); ask_a (RpServices (Ok [])); ask_a (RpOperation (Ok (operation "o1" "PENDING")))].
Definition second_script : list act :=
  retry_script ++
  [ActCrash true; ActOpen calm_open; ActEnsure; ask_a RpAuto; ask_a (RpKey (Ok "k2")); ask_a (RpPut 2 None);
   ask_a (RpOperation (Ok (operation "o2" "PENDING")))].

(** C40: [put] changes the document in memory before it persists it and keeps the
    change when persisting fails.  With an idempotency header, an [Ensure] that
    is called again after the intent could not be written finds the intent in
    memory and sends the create request, although no file holds the intent.
    After a crash the next [Ensure] sends a second create request for the same
    role with another key. *)
Theorem unpersisted_intent_created_twice :
  (exists w, rtc (lifecycle_step (lifecycle_with "Idempotency-Key") "journal") first_world w /\
     creates "broker-a" (wd_trace w) = ["k1"] /\
     Forall (fun f => ~ file_has "broker-a" "k1" f) (journal_images (world_disk w))) /\
  (exists w, rtc (lifecycle_step (lifecycle_with "Idempotency-Key") "journal") first_world w /\
     creates "broker-a" (wd_trace w) = ["k1"; "k2"]).
Proof.
  split.
  - exists (world_after "Idempotency-Key" retry_script). split_and!.
    + apply world_after_reached. vm_compute. reflexivity.
    + vm_compute. reflexivity.
    + assert (E : journal_images (world_disk (world_after "Idempotency-Key" retry_script)) =
        let f := JFile true (Some (fresh_document demo_plan "me")) in [f; f]) by (by vm_compute).
      rewrite E. repeat constructor; by intros (doc & r & [= <-] & H & _).
  - exists (world_after "Idempotency-Key" second_script). split.
    + apply world_after_reached. vm_compute. reflexivity.
    + vm_compute. reflexivity.
Qed.

(** ** A deletion that failed *)

(** [Cleanup] never gets past a delete operation that failed.  While the API
    answers the wait for the journaled operation with its failure, which is
    final, [cleanup_one] returns an error, sends no delete request and leaves
    the journal as it was, so that every later [Cleanup] does the same. *)
Theorem failed_delete_never_retried l planned record e j tr r j' :
  jr_State record = stateDeleting -> blank (jr_ServiceID record) = false ->
  blank (jr_OperationID record) = false -> IsHTTPStatus (@Err unit e) StatusNotFound = false ->
  run_prog (cleanup_one l planned record) j tr r j' ->
  (forall a, EvWait (jr_ServiceID record) (jr_OperationID record) a ∈ tr -> a = Err e) ->
  is_ok r = false /\ j' = j /\ forall id key a, EvDelete id key a ∉ tr.
Proof.
  intros Hst Hs Ho He Hrun Hw. unfold cleanup_one in Hrun.
  destruct (negb (matchesPlan _ _)); [destruct Hrun as (-> & -> & ->); split_and!; [done..|set_solver]|].
  destruct (str_empty (jr_ServiceID record)); [destruct Hrun as (-> & -> & ->); split_and!; [done..|set_solver]|].
  rewrite Hst in Hrun. destruct (str_empty (jr_OperationID record)) eqn:Eo.
  { apply bool_decide_eq_true in Eo. by rewrite Eo in Ho. }
  cbn [bool_decide negb andb] in Hrun. rewrite bool_decide_eq_true_2 in Hrun by done. cbn [andb] in Hrun.
  apply run_bind in Hrun as (tr1 & r1 & j1 & tr2 & R1 & R2 & ->).
  unfold wait_or_gone, WaitOperation in R1. rewrite Hs, Ho in R1. cbn [orb] in R1.
  destruct R1 as (a & j2 & tr3 & -> & -> & R1). specialize (Hw a ltac:(set_solver)) as ->.
  change (IsHTTPStatus (Err e) StatusNotFound) with (IsHTTPStatus (@Err unit e) StatusNotFound) in R1. cbn [pbind] in R1.
  destruct R1 as (-> & -> & ->). unfold IsHTTPStatus in R2, He. rewrite He in R2. destruct R2 as (-> & -> & ->).
  split_and!; [done..|]. set_solver.
Qed.

Lemma failed_delete_never_retried_witness :
  exists tr r j', run_prog (cleanup_one (lifecycle_with "") (mkPlannedService "broker-a" (request_for "svc-broker-a"))
      (record_a stateDeleting "d1")) (journal_with (record_a stateDeleting "d1")) tr r j' /\
    is_ok r = false /\ j' = journal_with (record_a stateDeleting "d1") /\
    forall id key a, EvDelete id key a ∉ tr.
Proof.
  exists [EvWait "s1" "d1" (Err (ErrNew "Mission Control delete operation failed"))],
    (Err (ErrWrap "cleanup" (ErrNew "Mission Control delete operation failed"))),
    (journal_with (record_a stateDeleting "d1")).
  assert (Hrun : run_prog (cleanup_one (lifecycle_with "") (mkPlannedService "broker-a" (request_for "svc-broker-a"))
      (record_a stateDeleting "d1")) (journal_with (record_a stateDeleting "d1"))
      [EvWait "s1" "d1" (Err (ErrNew "Mission Control delete operation failed"))]
      (Err (ErrWrap "cleanup" (ErrNew "Mission Control delete operation failed")))
      (journal_with (record_a stateDeleting "d1"))).
  { apply (run_script_sound _ _ [RpOperation (Err (ErrNew "Mission Control delete operation failed"))]).
    vm_compute. reflexivity. }
  split; [exact Hrun|].
  apply (failed_delete_never_retried (lifecycle_with "") (mkPlannedService "broker-a" (request_for "svc-broker-a"))
    (record_a stateDeleting "d1") (ErrNew "Mission Control delete operation failed")
    (journal_with (record_a stateDeleting "d1"))
    [EvWait "s1" "d1" (Err (ErrNew "Mission Control delete operation failed"))]);
    [reflexivity|vm_compute; reflexivity..|exact Hrun|].
  intros a [= <-]%list_elem_of_singleton. reflexivity.
Defined.
