(* ===== verification/Config.v ===== *)
(** * Configuration (config/config.go)

    The configuration document and its validation, with the conversions to the
    policy engine's profiles and inventory.  A YAML slice that the document does
    not give is [None] where the code tells it from an empty one.
    [net/url.ParseRequestURI] is a parameter. *)

From S2P Require Import Prelude Float64 Snapshot Policy.
From Stdlib Require Import ZArith Lia.
From stdpp Require Import base gmap strings numbers option fin_maps list.
#[local] Open Scope Z_scope.

(** ** Data *)
Record ParticipantControlCredential := mkParticipantControlCredential {
  pcc_Participant : string;
  pcc_Principal : string;
  pcc_UsernameEnv : string;
  pcc_PasswordEnv : string;
}.

Record Broker0Resources := mkBroker0Resources {
  b0_MembershipTopicPrefix : string;
  b0_MembershipQueuePrefix : string;
  b0_CommandTopicPrefix : string;
  b0_CommandQueuePrefix : string;
  b0_RegistrationTopic : string;
  b0_RegistrationQueue : string;
  b0_ReadinessTopic : string;
  b0_ReadinessQueue : string;
  b0_TelemetryTopic : string;
  b0_TelemetryQueue : string;
}.

Record ControlBroker := mkControlBroker {
  ctl_BrokerID : string;
  ctl_AMQPEndpoint : string;
  ctl_SEMPEndpoint : string;
  ctl_MessageVPN : string;
  ctl_Principal : string;
  ctl_UsernameEnv : string;
  ctl_PasswordEnv : string;
  ctl_SEMPUsernameEnv : string;
  ctl_SEMPPasswordEnv : string;
  ctl_ParticipantCredentials : list ParticipantControlCredential;
  ctl_ControlTopicPrefix : string;
  ctl_Resources : Broker0Resources;
}.

Record DataBroker := mkDataBroker {
  db_ID : string;
  db_AMQPEndpoint : string;
  db_SEMPEndpoint : string;
  db_MessageVPN : string;
  db_UsernameEnv : string;
  db_PasswordEnv : string;
  db_SEMPUsernameEnv : string;
  db_SEMPPasswordEnv : string;
  db_ServiceClass : string;
  db_BrokerVersion : string;
  db_EligibleGroups : option (list string);
  db_Labels : gmap string string;
}.

Record ConsumerSet := mkConsumerSet { cs_ID : string; cs_Subscribers : list string }.

Record Queue := mkQueue {
  qu_NamePrefix : string;
  qu_Type : string;
  qu_Access : string;
  qu_Partitions : Z;
  qu_MaxRedeliveries : Z;
  qu_DeadMessageQueue : string;
}.

Record ScalingPolicy := mkScalingPolicy {
  sp_MinimumBrokers : Z;
  sp_MaximumBrokers : Z;
  sp_WarmBrokers : Z;
  sp_HeadroomPercent : float64;
  sp_PressureWindow : Duration;
  sp_Cooldown : Duration;
  sp_MaxConcurrentChanges : Z;
}.

Record HandoverPolicy := mkHandoverPolicy {
  ho_ReadinessTimeout : Duration;
  ho_TelemetryMaxAge : Duration;
  ho_DrainGrace : Duration;
  ho_TransitionTimeout : Duration;
}.

Record ScalingGroup := mkScalingGroup {
  sg_ID : string;
  sg_HashContract : string;
  sg_RoutingAlgorithm : string;
  sg_CustomerLibrary : string;
  sg_OrderedBrokerIDs : list string;
  sg_Queue : Queue;
  sg_Policy : ScalingPolicy;
  sg_Handover : HandoverPolicy;
  sg_RequiredPublishers : list string;
  sg_ConsumerSets : list ConsumerSet;
  sg_RequiredSubscribers : list string;
}.

Record RuntimeIdentities := mkRuntimeIdentities {
  rt_Mode : string;
  rt_Controller : string;
  rt_Publishers : list string;
  rt_Subscribers : list string;
  rt_Brokers : list string;
  rt_Observers : list string;
}.

Record AsyncPublisher := mkAsyncPublisher {
  ap_MaxConcurrency : Z;
  ap_BatchSize : Z;
  ap_BatchWait : Duration;
  ap_PublishTimeout : Duration;
  ap_ShutdownTimeout : Duration;
}.

Record StalenessPolicy := mkStalenessPolicy {
  st_MembershipMaxAge : Duration;
  st_ParticipantMaxAge : Duration;
  st_TelemetryMaxAge : Duration;
}.

Record Persistence := mkPersistence {
  pe_ControllerState : string;
  pe_PublisherOutbox : string;
  pe_OutboxMaxMessages : Z;
  pe_OutboxMaxBytes : Z;
}.

Record CloudProvisioning := mkCloudProvisioning {
  cl_Enabled : bool;
  cl_Provider : string;
  cl_APIBaseURL : string;
  cl_CredentialEnv : string;
  cl_Region : string;
  cl_DatacenterID : string;
  cl_BrokerVersion : string;
  cl_ControlServiceClass : string;
  cl_DataServiceClass : string;
  cl_DesiredServices : Z;
  cl_MaxPaidServices : Z;
  cl_MaxRuntime : Duration;
  cl_CleanupTimeout : Duration;
  cl_DeleteAfterTest : bool;
}.

(** [CapacityProfile] and [CapacityLimits] have the fields of the policy
    engine's records of the same names. *)
Record Config := mkConfig {
  cf_Namespace : string;
  cf_Control : ControlBroker;
  cf_DataBrokers : list DataBroker;
  cf_CapacityProfiles : list CapacityProfile;
  cf_Groups : list ScalingGroup;
  cf_Runtime : RuntimeIdentities;
  cf_Publisher : AsyncPublisher;
  cf_Staleness : StalenessPolicy;
  cf_Persistence : Persistence;
  cf_Cloud : CloudProvisioning;
}.

(** ** Conversions *)
Definition PolicyCapacityProfiles (c : Config) : list CapacityProfile :=
  (fun p => mkCapacityProfile (cp_ServiceClass p) (cp_BrokerVersion p)
     (mkCapacityLimits (cl_IngressBytesPerSecond (cp_Limits p)) (cl_EgressBytesPerSecond (cp_Limits p))
        (cl_SpoolBytes (cp_Limits p)) (cl_Connections (cp_Limits p)))) <$> cf_CapacityProfiles c.

Definition PolicyProfileCatalog (c : Config) : result ProfileCatalog :=
  NewProfileCatalog (PolicyCapacityProfiles c).

Definition PolicyBrokers (c : Config) : list Broker :=
  (fun b => mkBroker (db_ID b) (db_ServiceClass b) (db_BrokerVersion b) false
              (default [] (db_EligibleGroups b))) <$> cf_DataBrokers c.

Definition LegacyConsumerSetID : string := "default".

Definition EffectiveRoutingAlgorithm (g : ScalingGroup) : string :=
  if str_empty (sg_RoutingAlgorithm g) then "swlb-rendezvous-v1" else sg_RoutingAlgorithm g.

Definition EffectiveConsumerSets (g : ScalingGroup) : list ConsumerSet :=
  match sg_ConsumerSets g, sg_RequiredSubscribers g with
  | _ :: _, _ => sg_ConsumerSets g
  | [], [] => []
  | [], subscribers => [mkConsumerSet LegacyConsumerSetID subscribers]
  end.

Definition SubscriberIdentities (g : ScalingGroup) : list string :=
  concat (cs_Subscribers <$> EffectiveConsumerSets g).

Definition ConsumerSetForSubscriber (g : ScalingGroup) (participant : string) : option string :=
  cs_ID <$> List.find (fun set => contains (cs_Subscribers set) participant) (EffectiveConsumerSets g).

Definition lookup_credential (c : Config) (participant : string) : option ParticipantControlCredential :=
  List.find (fun credential => str_eqb (pcc_Participant credential) participant)
    (ctl_ParticipantCredentials (cf_Control c)).

(** ** Patterns: the bytes of a string against the regular expressions *)
Definition in_range (lo hi b : Z) : bool := (lo <=? b) && (b <=? hi).
Definition is_lower (b : Z) : bool := in_range 97 122 b.
Definition is_upper (b : Z) : bool := in_range 65 90 b.
Definition is_digit (b : Z) : bool := in_range 48 57 b.
Definition is_alnum (b : Z) : bool := is_lower b || is_upper b || is_digit b.

(** [^first rest*$]. *)
Definition pattern_match (first rest : Z -> bool) (s : string) : bool :=
  match bytes_of s with
  | [] => false
  | b :: bs => first b && forallb rest bs
  end.

Definition environmentVariablePattern : string -> bool :=
  pattern_match (fun b => is_lower b || is_upper b || (b =? 95)) (fun b => is_alnum b || (b =? 95)).
Definition identifierPattern : string -> bool :=
  pattern_match is_alnum (fun b => is_alnum b || (b =? 46) || (b =? 95) || (b =? 45)).
Definition managedNamePattern : string -> bool :=
  pattern_match is_alnum (fun b => is_alnum b || (b =? 46) || (b =? 95) || (b =? 47) || (b =? 45)).

(** A DNS label: at most 63 bytes, a dash only inside. *)
Definition namespaceLabelPattern (label : list Z) : bool :=
  let alnum b := is_lower b || is_digit b in
  match label with
  | [] => false
  | b :: bs =>
      alnum b && forallb (fun b => alnum b || (b =? 45)) bs &&
      from_option alnum true (last bs) && (Z.of_nat (length label) <=? 63)
  end.

(** [strings.Split(s, sep)] for one byte. *)
Fixpoint split_bytes (sep : Z) (s : list Z) : list (list Z) :=
  match s with
  | [] => [[]]
  | b :: rest =>
      if b =? sep then [] :: split_bytes sep rest else
      match split_bytes sep rest with
      | part :: parts => (b :: part) :: parts
      | [] => [[b]]
      end
  end.

Definition HasPrefix (s prefix : string) : bool := String.prefix prefix s.
Definition contains_byte (s : string) (b : Z) : bool := existsb (Z.eqb b) (bytes_of s).
(** [strings.Contains(s, "//")]. *)
Fixpoint double_slash (s : list Z) : bool :=
  match s with
  | b :: rest => ((b =? 47) && from_option (Z.eqb 47) false (head rest)) || double_slash rest
  | [] => false
  end.

(** ** Validation of one field *)

(** [url.ParseRequestURI]; [None] stands for a parse error. *)
Class RequestURI := url_ParseRequestURI : string -> option URL.

Definition cfg_validateIdentifier (value : string) : gerr :=
  fail_if (negb (identifierPattern value))
    (ErrNew "must start with an alphanumeric character and contain only letters, digits, dot, underscore, or hyphen").

Definition validateManagedName (value : string) (allowSlash : bool) : gerr :=
  fail_if (str_empty value || negb (managedNamePattern value) ||
           from_option (Z.eqb 47) false (last (bytes_of value)) || double_slash (bytes_of value) ||
           contains_byte value 42 || contains_byte value 62)
    (ErrNew "is not a valid managed resource name or prefix") ;;!
  fail_if (negb allowSlash && contains_byte value 47) (ErrNew "cannot contain a topic separator").

Definition validateNamespaceOwnership (namespace value : string) : gerr :=
  fail_if (negb (str_eqb value namespace || HasPrefix value (namespace +:+ ".") ||
                 HasPrefix value (namespace +:+ "/")))
    (ErrNew "must be inside namespace").

Definition validateEnvironmentVariable (value : string) : gerr :=
  fail_if (negb (environmentVariablePattern value)) (ErrNew "is not a valid environment-variable name").

Definition validateCredentialPair (usernameEnv passwordEnv : string) : gerr :=
  validateEnvironmentVariable usernameEnv ;;! validateEnvironmentVariable passwordEnv.

Definition validateNamespace (namespace : string) (required : bool) : gerr :=
  if str_empty namespace
  then fail_if required (ErrNew "namespace is required in production or when cloud provisioning is enabled")
  else
    fail_if (253 <? len namespace) (ErrNew "namespace must not exceed 253 characters") ;;!
    for_each (fun label => fail_if (negb (namespaceLabelPattern label))
                             (ErrNew "namespace must contain lowercase DNS labels"))
      (split_bytes 46 (bytes_of namespace)).

Section Validation.
Context {request_uri : RequestURI}.

Definition secure_scheme (scheme : string) : bool :=
  bool_decide (scheme ∈ ["https"; "tcps"; "wss"; "amqps"; "amqp+ssl"]%string).

Definition validateEndpoint (value : string) (secureOnly : bool) (schemes : list string) : gerr :=
  match url_ParseRequestURI value with
  | None => Err (ErrNew "must be an absolute URL without embedded credentials")
  | Some endpoint =>
      fail_if (str_empty (url_Scheme endpoint) || str_empty (url_Host endpoint) ||
               bool_decide (is_Some (url_User endpoint)))
        (ErrNew "must be an absolute URL without embedded credentials") ;;!
      fail_if (negb (contains schemes (url_Scheme endpoint))) (ErrNew "uses unsupported scheme") ;;!
      fail_if (secureOnly && negb (secure_scheme (url_Scheme endpoint)))
        (ErrNew "must use a secure transport in production or cloud mode")
  end.

Definition amqp_schemes : list string := ["amqp"; "amqps"; "amqp+ssl"]%string.

Definition validateSEMPCredentials (endpoint usernameEnv passwordEnv : string) (required : bool) : gerr :=
  if str_empty endpoint && str_empty usernameEnv && str_empty passwordEnv && negb required then nil_err else
  validateEndpoint endpoint required ["http"; "https"]%string ;;!
  validateEnvironmentVariable usernameEnv ;;!
  validateEnvironmentVariable passwordEnv.

(** ** Validation of the sections *)
Definition RuntimeModeDevelopment : string := "development".
Definition RuntimeModeProduction : string := "production".

(** The closure [add] of [validateRuntime]. *)
Definition add_identity (seen : gmap string string) (entry : string * string) : result (gmap string string) :=
  let '(kind, identity) := entry in
  cfg_validateIdentifier identity ;;!
  fail_if (bool_decide (is_Some (seen !! identity))) (ErrNew "runtime identity is declared twice") ;;!
  Ok (<[identity := kind]> seen).

Definition declared_identities (r : RuntimeIdentities) : list (string * string) :=
  (if str_empty (rt_Controller r) then [] else [("controller", rt_Controller r)%string]) ++
  ((fun i => ("publisher", i)%string) <$> rt_Publishers r) ++
  ((fun i => ("subscriber", i)%string) <$> rt_Subscribers r) ++
  ((fun i => ("broker", i)%string) <$> rt_Brokers r) ++
  ((fun i => ("observer", i)%string) <$> rt_Observers r).

Definition runtime_mode (c : Config) : string :=
  if str_empty (rt_Mode (cf_Runtime c)) then RuntimeModeDevelopment else rt_Mode (cf_Runtime c).

Definition validateRuntime (c : Config) : result bool :=
  let mode := runtime_mode c in
  let r := cf_Runtime c in
  fail_if (negb (str_eqb mode RuntimeModeDevelopment) && negb (str_eqb mode RuntimeModeProduction))
    (ErrNew "runtime.mode must be development or production") ;;!
  fold_result add_identity ∅ (declared_identities r) ;;!
  let strict := str_eqb mode RuntimeModeProduction || cl_Enabled (cf_Cloud c) in
  fail_if (strict && (str_empty (rt_Controller r) || bool_decide (rt_Publishers r = []) ||
                      bool_decide (rt_Subscribers r = [])))
    (ErrNew "production or cloud-enabled runtime requires controller, publisher, and subscriber identities") ;;!
  fail_if (strict && bool_decide (rt_Brokers r = []) && bool_decide (rt_Observers r = []))
    (ErrNew "production or cloud-enabled runtime requires at least one broker or observer telemetry identity") ;;!
  Ok strict.

Definition configuredParticipants (c : Config) : list string :=
  rt_Publishers (cf_Runtime c) ++ rt_Subscribers (cf_Runtime c) ++ rt_Brokers (cf_Runtime c) ++
  rt_Observers (cf_Runtime c).

(** The maps of [validateParticipantControlCredentials]. *)
Inductive credential_label : Type := LabelPrincipal | LabelUsername | LabelPassword.

Record credential_acc := mkCredentialAcc {
  ca_configured : gmap string ParticipantControlCredential;
  ca_principals : gmap string string;
  ca_usernameEnvs : gmap string string;
  ca_passwordEnvs : gmap string string;
}.

#[export] Instance eta_credential_acc : Eta credential_acc := fun a =>
  mkCredentialAcc (ca_configured a) (ca_principals a) (ca_usernameEnvs a) (ca_passwordEnvs a).

(** The map literal of one credential: a later entry of the same key replaces
    an earlier one. *)
Definition credential_values (credential : ParticipantControlCredential) : gmap string credential_label :=
  <[pcc_PasswordEnv credential := LabelPassword]>
    (<[pcc_UsernameEnv credential := LabelUsername]>
       (<[pcc_Principal credential := LabelPrincipal]> ∅)).

Definition claim_value (participant : string) (acc : credential_acc) (entry : string * credential_label)
    : result credential_acc :=
  let '(value, label) := entry in
  let claim owners set :=
    fail_if (bool_decide (is_Some (owners !! value))) (ErrNew "control participant value is shared") ;;!
    Ok (set (<[value := participant]> owners)) in
  match label with
  | LabelPrincipal => claim (ca_principals acc) (fun m => acc <| ca_principals := m |>)
  | LabelUsername => claim (ca_usernameEnvs acc) (fun m => acc <| ca_usernameEnvs := m |>)
  | LabelPassword => claim (ca_passwordEnvs acc) (fun m => acc <| ca_passwordEnvs := m |>)
  end.

Definition add_credential (c : Config) (strict : bool) (acc : credential_acc)
    (credential : ParticipantControlCredential) : result credential_acc :=
  let participant := pcc_Participant credential in
  cfg_validateIdentifier participant ;;!
  cfg_validateIdentifier (pcc_Principal credential) ;;!
  validateCredentialPair (pcc_UsernameEnv credential) (pcc_PasswordEnv credential) ;;!
  fail_if (negb (str_eqb (pcc_Principal credential) participant))
    (ErrNew "control principal must equal participant identity") ;;!
  fail_if (bool_decide (is_Some (ca_configured acc !! participant)))
    (ErrNew "duplicate control credential for participant") ;;!
  let acc := acc <| ca_configured := <[participant := credential]> (ca_configured acc) |> in
  fail_if (strict && negb (contains (configuredParticipants c) participant))
    (ErrNew "control credential references undeclared participant") ;;!
  let! acc := fold_result (claim_value participant) acc (map_to_list (credential_values credential)) in
  let control := cf_Control c in
  fail_if (strict && (str_eqb (pcc_Principal credential) (ctl_Principal control) ||
                      str_eqb (pcc_UsernameEnv credential) (ctl_UsernameEnv control) ||
                      str_eqb (pcc_PasswordEnv credential) (ctl_PasswordEnv control)))
    (ErrNew "control credential must not share the controller principal or credential environment variables") ;;!
  Ok acc.

Definition validateParticipantControlCredentials (c : Config) (strict : bool) : gerr :=
  let! acc := fold_result (add_credential c strict) (mkCredentialAcc ∅ ∅ ∅ ∅)
                (ctl_ParticipantCredentials (cf_Control c)) in
  if negb strict then nil_err else
  fail_if (str_empty (ctl_Principal (cf_Control c)))
    (ErrNew "production or cloud-enabled runtime requires control.principal") ;;!
  fail_if (negb (str_eqb (ctl_Principal (cf_Control c)) (rt_Controller (cf_Runtime c))))
    (ErrNew "control.principal must equal the configured runtime controller identity") ;;!
  for_each (fun participant =>
    fail_if (bool_decide (ca_configured acc !! participant = None))
      (ErrNew "production or cloud-enabled runtime requires a distinct control credential for participant"))
    (configuredParticipants c).

Definition broker0_values (r : Broker0Resources) : list string :=
  [b0_MembershipTopicPrefix r; b0_MembershipQueuePrefix r; b0_CommandTopicPrefix r;
   b0_CommandQueuePrefix r; b0_RegistrationTopic r; b0_RegistrationQueue r; b0_ReadinessTopic r;
   b0_ReadinessQueue r; b0_TelemetryTopic r; b0_TelemetryQueue r].

Definition broker0_validate (r : Broker0Resources) (namespace : string) (strict : bool) : gerr :=
  for_each (fun value =>
    if str_empty value && negb strict then nil_err else
    validateManagedName value true ;;!
    (if strict then validateNamespaceOwnership namespace value else nil_err))
    (broker0_values r).

Definition validateControl (c : Config) (strict : bool) : gerr :=
  let control := cf_Control c in
  cfg_validateIdentifier (ctl_BrokerID control) ;;!
  fail_if (blank (ctl_MessageVPN control)) (ErrNew "control broker message VPN is required") ;;!
  validateEndpoint (ctl_AMQPEndpoint control) strict amqp_schemes ;;!
  validateCredentialPair (ctl_UsernameEnv control) (ctl_PasswordEnv control) ;;!
  (if str_empty (ctl_Principal control) then nil_err else cfg_validateIdentifier (ctl_Principal control)) ;;!
  validateParticipantControlCredentials c strict ;;!
  validateSEMPCredentials (ctl_SEMPEndpoint control) (ctl_SEMPUsernameEnv control)
    (ctl_SEMPPasswordEnv control) strict ;;!
  validateManagedName (ctl_ControlTopicPrefix control) true ;;!
  (if strict then validateNamespaceOwnership (cf_Namespace c) (ctl_ControlTopicPrefix control) else nil_err) ;;!
  broker0_validate (ctl_Resources control) (cf_Namespace c) strict.

Definition add_group_id (seen : gset string) (g : ScalingGroup) : result (gset string) :=
  cfg_validateIdentifier (sg_ID g) ;;!
  fail_if (bool_decide (sg_ID g ∈ seen)) (ErrNew "duplicate scaling group id") ;;!
  Ok ({[sg_ID g]} ∪ seen).

Definition validateCapacityProfiles (c : Config) (required : bool) : result ProfileCatalog :=
  fail_if (required && bool_decide (length (cf_CapacityProfiles c) = 0%nat))
    (ErrNew "capacity_profiles requires at least one measured exact service-class and broker-version profile") ;;!
  for_each (fun p => fail_if (negb (trimmed (cp_ServiceClass p)) || negb (trimmed (cp_BrokerVersion p)))
                       (ErrNew "service_class and broker_version cannot contain surrounding whitespace"))
    (cf_CapacityProfiles c) ;;!
  wrap_err "capacity_profiles" (PolicyProfileCatalog c).

Definition capacityConfigured (c : Config) (strict : bool) : bool :=
  strict || negb (bool_decide (length (cf_CapacityProfiles c) = 0%nat)) ||
  existsb (fun b => negb (str_empty (db_ServiceClass b)) || negb (str_empty (db_BrokerVersion b)) ||
                    negb (bool_decide (default [] (db_EligibleGroups b) = []))) (cf_DataBrokers c).

Definition add_eligible (groupIDs seen : gset string) (group : string) : result (gset string) :=
  fail_if (negb (bool_decide (group ∈ groupIDs))) (ErrNew "eligible_groups references unknown scaling group") ;;!
  fail_if (bool_decide (group ∈ seen)) (ErrNew "eligible_groups repeats scaling group") ;;!
  Ok ({[group]} ∪ seen).

(** The part of a data broker that the capacity policy reads. *)
Definition validate_capacity (catalog : ProfileCatalog) (groupIDs : gset string) (b : DataBroker) : gerr :=
  fail_if (blank (db_ServiceClass b) || blank (db_BrokerVersion b))
    (ErrNew "service_class and broker_version are required for capacity policy") ;;!
  fail_if (negb (trimmed (db_ServiceClass b)) || negb (trimmed (db_BrokerVersion b)))
    (ErrNew "service_class and broker_version cannot contain surrounding whitespace") ;;!
  match db_EligibleGroups b with
  | None => Err (ErrNew "eligible_groups is required; use [] to explicitly disable placement")
  | Some groups =>
      catalog_Lookup catalog (db_ServiceClass b) (db_BrokerVersion b) ;;!
      fold_result (add_eligible groupIDs) ∅ groups ;;!
      nil_err
  end.

Definition add_data_broker (strict configured : bool) (catalog : ProfileCatalog) (groupIDs seen : gset string)
    (b : DataBroker) : result (gset string) :=
  cfg_validateIdentifier (db_ID b) ;;!
  fail_if (blank (db_MessageVPN b)) (ErrNew "message VPN is required") ;;!
  validateEndpoint (db_AMQPEndpoint b) strict amqp_schemes ;;!
  validateCredentialPair (db_UsernameEnv b) (db_PasswordEnv b) ;;!
  validateSEMPCredentials (db_SEMPEndpoint b) (db_SEMPUsernameEnv b) (db_SEMPPasswordEnv b) strict ;;!
  (if configured then validate_capacity catalog groupIDs b else nil_err) ;;!
  fail_if (bool_decide (db_ID b ∈ seen)) (ErrNew "duplicate data broker id") ;;!
  for_each (fun kv => fail_if (blank kv.1 || blank kv.2) (ErrNew "labels: keys and values cannot be empty"))
    (map_to_list (db_Labels b)) ;;!
  Ok ({[db_ID b]} ∪ seen).

Definition add_member_id (brokerIDs seen : gset string) (id : string) : result (gset string) :=
  fail_if (negb (bool_decide (id ∈ brokerIDs))) (ErrNew "scaling group references unknown broker") ;;!
  fail_if (bool_decide (id ∈ seen)) (ErrNew "scaling group repeats broker") ;;!
  Ok ({[id]} ∪ seen).

Definition validate_scaling (g : ScalingGroup) : gerr :=
  let p := sg_Policy g in
  let members := Z.of_nat (length (sg_OrderedBrokerIDs g)) in
  fail_if ((sp_MinimumBrokers p <? 1) || (sp_MaximumBrokers p <? sp_MinimumBrokers p))
    (ErrNew "scaling group has invalid broker bounds") ;;!
  fail_if ((members <? sp_MinimumBrokers p) || (sp_MaximumBrokers p <? members))
    (ErrNew "scaling group initial membership is outside broker bounds") ;;!
  fail_if ((sp_WarmBrokers p <? 0) || (sp_MaximumBrokers p - sp_MinimumBrokers p <? sp_WarmBrokers p))
    (ErrNew "scaling group warm_brokers must fit between minimum and maximum broker bounds") ;;!
  fail_if (math_IsNaN (sp_HeadroomPercent p) || math_IsInf (sp_HeadroomPercent p) ||
           fltb (sp_HeadroomPercent p) fzero || fleb (f_of_Z 100) (sp_HeadroomPercent p))
    (ErrNew "scaling group headroom_percent must be at least zero and less than 100") ;;!
  fail_if ((sp_PressureWindow p <=? 0) || (sp_Cooldown p <? 0))
    (ErrNew "scaling group pressure_window must be positive and cooldown cannot be negative") ;;!
  fail_if (negb (sp_MaxConcurrentChanges p =? 1)) (ErrNew "scaling group max_concurrent_changes must equal 1").

Definition QueueTypeExclusive : string := "exclusive".
Definition QueueTypePartitioned : string := "partitioned".
Definition QueueAccessExclusive : string := "exclusive".

Definition validateQueue (q : Queue) (namespace : string) (strict : bool) : gerr :=
  validateManagedName (qu_NamePrefix q) false ;;!
  (if strict then validateNamespaceOwnership namespace (qu_NamePrefix q) else nil_err) ;;!
  fail_if (qu_MaxRedeliveries q <? 1) (ErrNew "scaling group max_redeliveries must be positive") ;;!
  validateManagedName (qu_DeadMessageQueue q) false ;;!
  fail_if (str_eqb (qu_DeadMessageQueue q) (qu_NamePrefix q))
    (ErrNew "scaling group dead_message_queue must differ from name_prefix") ;;!
  (if strict then validateNamespaceOwnership namespace (qu_DeadMessageQueue q) else nil_err) ;;!
  if str_eqb (qu_Type q) QueueTypeExclusive then
    fail_if (negb (str_eqb (qu_Access q) QueueAccessExclusive))
      (ErrNew "scaling group exclusive queue requires exclusive access") ;;!
    fail_if (negb (qu_Partitions q =? 0)) (ErrNew "scaling group exclusive queue cannot set partitions")
  else if str_eqb (qu_Type q) QueueTypePartitioned
  then Err (ErrNew "scaling group partitioned queues are not supported by the AMQP 1.0 v1 runtime")
  else Err (ErrNew "scaling group queue type must be exclusive for the AMQP 1.0 v1 runtime").

(** The closure [validateParticipants] of [validateGroup]. *)
Definition add_participant (kind : string) (participants : gmap string string) (identity : string)
    : result (gmap string string) :=
  cfg_validateIdentifier identity ;;!
  fail_if (bool_decide (is_Some (participants !! identity))) (ErrNew "scaling group participant is duplicated") ;;!
  Ok (<[identity := kind]> participants).

Definition add_consumer_set (acc : gmap string string * gset string) (set : ConsumerSet)
    : result (gmap string string * gset string) :=
  let '(participants, seen) := acc in
  cfg_validateIdentifier (cs_ID set) ;;!
  fail_if (bool_decide (cs_ID set ∈ seen)) (ErrNew "scaling group repeats consumer set") ;;!
  fail_if (bool_decide (cs_Subscribers set = []))
    (ErrNew "scaling group consumer set requires at least one subscriber") ;;!
  let! participants := fold_result (add_participant ("consumer set " +:+ cs_ID set +:+ " subscribers"))
                         participants (cs_Subscribers set) in
  Ok (participants, {[cs_ID set]} ∪ seen).

Definition validate_participants (g : ScalingGroup) : gerr :=
  fail_if (negb (bool_decide (length (sg_ConsumerSets g) = 0%nat)) &&
           negb (bool_decide (sg_RequiredSubscribers g = [])))
    (ErrNew "scaling group cannot configure both consumer_sets and required_subscribers") ;;!
  fail_if (bool_decide (length (EffectiveConsumerSets g) = 0%nat))
    (ErrNew "scaling group requires at least one consumer set") ;;!
  let! participants := fold_result (add_participant "publishers") ∅ (sg_RequiredPublishers g) in
  let! acc := fold_result add_consumer_set (participants, ∅) (EffectiveConsumerSets g) in
  fail_if (bool_decide (acc.1 = ∅)) (ErrNew "scaling group requires at least one participant").

Definition validateGroup (c : Config) (brokerIDs : gset string) (strict : bool) (g : ScalingGroup) : gerr :=
  cfg_validateIdentifier (sg_ID g) ;;!
  fail_if (blank (sg_HashContract g) || blank (sg_CustomerLibrary g)) (ErrNew "contract versions are required") ;;!
  cfg_validateIdentifier (EffectiveRoutingAlgorithm g) ;;!
  fold_result (add_member_id brokerIDs) ∅ (sg_OrderedBrokerIDs g) ;;!
  validate_scaling g ;;!
  validateQueue (sg_Queue g) (cf_Namespace c) strict ;;!
  let h := sg_Handover g in
  fail_if ((ho_ReadinessTimeout h <=? 0) || (ho_TelemetryMaxAge h <=? 0) || (ho_DrainGrace h <=? 0) ||
           (ho_TransitionTimeout h <=? 0))
    (ErrNew "scaling group handover timings must be positive") ;;!
  validate_participants g ;;!
  if negb strict then nil_err else
  for_each (fun identity => fail_if (negb (contains (rt_Publishers (cf_Runtime c)) identity))
                              (ErrNew "scaling group requires undeclared runtime publisher"))
    (sg_RequiredPublishers g) ;;!
  for_each (fun identity => fail_if (negb (contains (rt_Subscribers (cf_Runtime c)) identity))
                              (ErrNew "scaling group requires undeclared runtime subscriber"))
    (SubscriberIdentities g).

Definition validateOperationalControls (c : Config) (production : bool) : gerr :=
  let p := cf_Publisher c in
  let s := cf_Staleness c in
  let publisherConfigured :=
    negb (ap_MaxConcurrency p =? 0) || negb (ap_BatchSize p =? 0) || negb (ap_BatchWait p =? 0) ||
    negb (ap_PublishTimeout p =? 0) || negb (ap_ShutdownTimeout p =? 0) in
  fail_if ((production || publisherConfigured) &&
           ((ap_MaxConcurrency p <? 1) || (ap_BatchSize p <? 1) || (ap_BatchWait p <=? 0) ||
            (ap_PublishTimeout p <=? 0) || (ap_ShutdownTimeout p <=? 0)))
    (ErrNew "publisher concurrency, batch size, batch wait, publish timeout, and shutdown timeout must be positive") ;;!
  let stalenessConfigured :=
    negb (st_MembershipMaxAge s =? 0) || negb (st_ParticipantMaxAge s =? 0) || negb (st_TelemetryMaxAge s =? 0) in
  fail_if ((production || stalenessConfigured) &&
           ((st_MembershipMaxAge s <=? 0) || (st_ParticipantMaxAge s <=? 0) || (st_TelemetryMaxAge s <=? 0)))
    (ErrNew "membership, participant, and telemetry staleness limits must be positive").

Definition api_url_ok (value : string) : bool :=
  match url_ParseRequestURI value with
  | None => false
  | Some u => str_eqb (url_Scheme u) "https" && negb (str_empty (url_Host u)) &&
              bool_decide (url_User u = None)
  end.

Definition validateCloud (c : Config) : gerr :=
  let cloud := cf_Cloud c in
  (if str_empty (cl_CredentialEnv cloud) then nil_err else validateEnvironmentVariable (cl_CredentialEnv cloud)) ;;!
  if negb (cl_Enabled cloud) then
    fail_if (negb (cl_DesiredServices cloud =? 0) || negb (cl_MaxPaidServices cloud =? 0))
      (ErrNew "desired_services and max_paid_services must be zero while cloud provisioning is disabled") ;;!
    fail_if ((cl_MaxRuntime cloud <? 0) || (cl_CleanupTimeout cloud <? 0))
      (ErrNew "cloud runtime and cleanup durations cannot be negative") ;;!
    fail_if (cl_DeleteAfterTest cloud)
      (ErrNew "delete_after_test cannot be enabled while cloud provisioning is disabled")
  else
    fail_if (blank (cl_Provider cloud) || str_empty (cl_APIBaseURL cloud) || str_empty (cl_CredentialEnv cloud) ||
             blank (cl_Region cloud) || blank (cl_DatacenterID cloud) || blank (cl_BrokerVersion cloud) ||
             blank (cl_ControlServiceClass cloud) || blank (cl_DataServiceClass cloud))
      (ErrNew "enabled cloud provisioning requires provider, API base URL, credential env, region, datacenter ID, broker version, and control/data service classes") ;;!
    fail_if (negb (api_url_ok (cl_APIBaseURL cloud)))
      (ErrNew "cloud api_base_url must be an absolute HTTPS URL without embedded credentials") ;;!
    fail_if ((cl_DesiredServices cloud <? 1) || (cl_MaxPaidServices cloud <? 1))
      (ErrNew "enabled cloud provisioning requires positive desired_services and max_paid_services") ;;!
    fail_if (cl_MaxPaidServices cloud <? cl_DesiredServices cloud)
      (ErrNew "cloud desired_services cannot exceed max_paid_services") ;;!
    fail_if (cl_MaxRuntime cloud <=? 0) (ErrNew "enabled cloud provisioning requires a positive max_runtime") ;;!
    fail_if (cl_DeleteAfterTest cloud && (cl_CleanupTimeout cloud <=? 0))
      (ErrNew "delete_after_test requires a positive cleanup_timeout") ;;!
    fail_if (cl_CleanupTimeout cloud <? 0) (ErrNew "cloud cleanup_timeout cannot be negative").

(** ** The document *)
Definition cfg_Validate (c : Config) : gerr :=
  let! strict := validateRuntime c in
  validateNamespace (cf_Namespace c) strict ;;!
  validateControl c strict ;;!
  fail_if (bool_decide (length (cf_Groups c) = 0%nat)) (ErrNew "at least one scaling group is required") ;;!
  let! groupIDs := fold_result add_group_id ∅ (cf_Groups c) in
  let! catalog := validateCapacityProfiles c strict in
  let! brokerIDs := fold_result (add_data_broker strict (capacityConfigured c strict) catalog groupIDs)
                      ∅ (cf_DataBrokers c) in
  for_each (validateGroup c brokerIDs strict) (cf_Groups c) ;;!
  let p := cf_Persistence c in
  fail_if (str_empty (pe_ControllerState p) || str_empty (pe_PublisherOutbox p) ||
           (pe_OutboxMaxMessages p <? 1) || (pe_OutboxMaxBytes p <? 1))
    (ErrNew "persistence paths and positive outbox limits are required") ;;!
  validateOperationalControls c strict ;;!
  validateCloud c.

(** [Load], given the document [decode] reads from the file. *)
Definition Load (read : result string) (decode : string -> result Config) : result Config :=
  let! contents := read in
  let! c := wrap_err "decode configuration" (decode contents) in
  cfg_Validate c ;;!
  Ok c.
End Validation.
