(* ===== verification/Runtime.v ===== *)
(** * The controller process (runtime/production.go, runtime/runtime.go)

    The catalog of retained memberships, the snapshots a process expects at each
    point of a transition, bootstrap, the publisher of phase snapshots and typed
    commands, the state handed to the policy engine, the application of its
    recommendations, and the reconcile loop of one group with its rollback of
    expired transitions.  The controller is the one of Controller.v; native
    publishers, SEMP resources and the scale-in provider answer arbitrarily. *)

From S2P Require Import Prelude Float64 Customer Snapshot Messages Naming ControllerTypes Policy PolicyAggregate PolicyEngine Config Controller.
From Stdlib Require Import ZArith Lia.
From stdpp Require Import base gmap strings numbers option pretty fin_maps list.
#[local] Open Scope Z_scope.
#[local] Open Scope st_scope.

(** [time.Time] counts nanoseconds from year 1; [UnixNano] from 1970. *)
Definition UnixNano (t : Time) : Z := i64 (t - 62135596800 * Second).

Definition ErrNoRetainedMembership : gerror := ErrNew "runtime: no retained membership snapshot".

(** The snapshots of a [MembershipCatalog], by group. *)
Abbreviation MembershipCatalog := (gmap string MembershipSnapshot).

Section Runtime.
Context {net_url : NetURL} {sha : Sha256}.

(** ** MembershipCatalog *)
Definition catalog_Put (snapshot : MembershipSnapshot) (c : MembershipCatalog) : result MembershipCatalog :=
  Validate snapshot ;;! Ok (<[ms_ScalingGroup snapshot := snapshot]> c).
Definition catalog_Get (c : MembershipCatalog) (group : string) : option MembershipSnapshot := c !! group.

(** ** Expected snapshots *)
Definition membershipSnapshotsEqual (left right : MembershipSnapshot) : bool :=
  (ms_Version left =? ms_Version right) && str_eqb (ms_Namespace left) (ms_Namespace right) &&
  str_eqb (ms_LibraryVersion left) (ms_LibraryVersion right) &&
  str_eqb (ms_ScalingGroup left) (ms_ScalingGroup right) &&
  (ms_Revision left =? ms_Revision right) && (ms_Epoch left =? ms_Epoch right) &&
  bool_decide (ms_Phase left = ms_Phase right) &&
  str_eqb (ms_HashContract left) (ms_HashContract right) &&
  str_eqb (ms_Algorithm left) (ms_Algorithm right) &&
  bool_decide (ms_Queue left = ms_Queue right) &&
  bool_decide (ms_Destination left = ms_Destination right) &&
  slicesEqual (ms_CurrentMembership left) (ms_CurrentMembership right) &&
  slicesEqual (ms_ProposedMembership left) (ms_ProposedMembership right) &&
  bool_decide (ms_CurrentBrokers left = ms_CurrentBrokers right) &&
  bool_decide (ms_ProposedBrokers left = ms_ProposedBrokers right) &&
  bool_decide (ms_CurrentResources left = ms_CurrentResources right) &&
  bool_decide (ms_ProposedResources left = ms_ProposedResources right) &&
  bool_decide (ms_Transition left = ms_Transition right).

Definition brokerMembership (brokers : list ControllerTypes.Broker) : Membership := b_ID <$> brokers.

Definition sourceActiveSnapshot (s : TransitionSpec) : MembershipSnapshot :=
  mkMembershipSnapshot SnapshotVersion (spec_Namespace s) (spec_LibraryVersion s) (spec_Group s)
    (u64 (spec_Revision s - 1)) (spec_FromEpoch s) CActive (spec_HashContract s) (spec_Algorithm s)
    (brokerMembership (spec_Current s)) [] (spec_CurrentBrokers s) [] None (spec_Queue s)
    (spec_Destination s) (spec_CurrentResources s) [].

Definition targetActiveSnapshot (s : TransitionSpec) : MembershipSnapshot :=
  mkMembershipSnapshot SnapshotVersion (spec_Namespace s) (spec_LibraryVersion s) (spec_Group s)
    (u64 (spec_Revision s + 4)) (spec_ToEpoch s) CActive (spec_HashContract s) (spec_Algorithm s)
    (brokerMembership (spec_Proposed s)) [] (spec_ProposedBrokers s) [] None (spec_Queue s)
    (spec_Destination s) (spec_ProposedResources s) [].

Definition matchesUnpublishedPrepareSourceActive (snapshot : MembershipSnapshot)
    (state : option Controller.GroupState) : bool :=
  match state with
  | None => false
  | Some g =>
      bool_decide (gs_Phase g = PhasePrepare) &&
      negb (gs_RollingBack g || gs_Completed g || gs_PreparePublished g || gs_FenceAttempted g ||
            gs_Fenced g || gs_CommitPublished g || gs_TargetIngressEnabled g || gs_ActivatePublished g) &&
      membershipSnapshotsEqual snapshot (sourceActiveSnapshot (gs_Spec g))
  end.

(** [state.Spec.Group + "/" + ... + requirement.Participant]. *)
Definition command_id (group transition : string) (phase : Phase) (r : ParticipantRequirement) : string :=
  (group +:+ "/" +:+ transition +:+ "/forward/command/" +:+ phase_string phase +:+ "/" +:+
   role_string (pr_Role r) +:+ "/" +:+ pr_Participant r)%string.

Definition matchesPublishedTargetActive (snapshot : MembershipSnapshot)
    (state : option Controller.GroupState) : bool :=
  match state with
  | None => false
  | Some g =>
      let s := gs_Spec g in
      bool_decide (gs_Phase g = PhaseActivate) && negb (gs_RollingBack g || gs_Completed g) &&
      gs_CommitPublished g && gs_Fenced g && bool_decide (is_Some (gs_FenceVerifiedAt g)) &&
      gs_TargetIngressEnabled g && gs_TargetIngressVerified g &&
      bool_decide (is_Some (gs_TargetIngressVerifiedAt g)) &&
      forallb (fun r => str_eqb (default ""%string (issued_for g PhaseActivate !! pr_Participant r))
                          (command_id (spec_Group s) (spec_ID s) PhaseActivate r))
        (requirements_of s PhaseActivate) &&
      membershipSnapshotsEqual snapshot (targetActiveSnapshot s)
  end.

(** The phase and revision of the newest publication before COMMIT. *)
Definition precommit_phase (g : Controller.GroupState) : option (Z * CtlPhase) :=
  match gs_Phase g with
  | PhasePrepare => if gs_PreparePublished g then Some (0, CPrepare) else None
  | PhasePause =>
      if gs_PausePublished g then Some (1, CPaused) else
      if gs_PreparePublished g then Some (0, CPrepare) else None
  | PhaseDrain =>
      if gs_DrainPublished g then Some (2, CDrain) else
      if gs_PausePublished g then Some (1, CPaused) else None
  | _ => None
  end.

Definition expectedPrecommitSnapshot (state : option Controller.GroupState) : option MembershipSnapshot :=
  match state with
  | None => None
  | Some g =>
      if gs_RollingBack g || gs_Completed g || gs_CommitPublished g || gs_TargetIngressEnabled g ||
         gs_ActivatePublished g then None else
      let s := gs_Spec g in
      if bool_decide (gs_Phase g = PhasePrepare) && negb (gs_PreparePublished g)
      then Some (sourceActiveSnapshot s) else
      match precommit_phase g with
      | None => None
      | Some (offset, phase) =>
          Some (mkMembershipSnapshot SnapshotVersion (spec_Namespace s) (spec_LibraryVersion s)
            (spec_Group s) (u64 (spec_Revision s + offset)) (spec_FromEpoch s) phase (spec_HashContract s)
            (spec_Algorithm s) (brokerMembership (spec_Current s)) (brokerMembership (spec_Proposed s))
            [] [] (Some (mkTransition (spec_ID s) (spec_FromEpoch s) (spec_ToEpoch s))) (spec_Queue s)
            (spec_Destination s) (spec_CurrentResources s) (spec_ProposedResources s))
      end
  end.

(** ** Initial memberships *)
Definition configuredGroup (groups : list ScalingGroup) (id : string) : option ScalingGroup :=
  List.find (fun g => str_eqb (sg_ID g) id) groups.
Definition configuredBroker (brokers : list DataBroker) (id : string) : option DataBroker :=
  List.find (fun b => str_eqb (db_ID b) id) brokers.

Definition broker_resources (names : ManagedNames) (group topic : string) (epoch : Z) (broker : string)
    (sets : list ConsumerSet) : result (list EpochResourceIdentity) :=
  fold_result (fun resources set =>
    let! queue := EpochConsumerQueueForBroker names group broker (cs_ID set) epoch in
    Ok (resources ++ [mkEpochResourceIdentity epoch broker (cs_ID set) queue topic])) [] sets.

Definition epochResources (names : ManagedNames) (group : string) (brokers : list string)
    (sets : list ConsumerSet) (epoch : Z) : result (list EpochResourceIdentity) :=
  let! topic := EpochIngressTopic names group epoch in
  fold_result (fun resources broker =>
    let! more := broker_resources names group topic epoch broker sets in
    Ok (resources ++ more)) [] brokers.

Definition configuredBrokerDescriptors (ids : list string) (inventory : list DataBroker)
    : list BrokerDescriptor :=
  flat_map (fun id =>
    let endpoint := from_option db_AMQPEndpoint ""%string (configuredBroker inventory id) in
    if str_empty endpoint then [] else [mkBrokerDescriptor id endpoint]) ids.

Definition GenesisSnapshot (namespace : string) (g : ScalingGroup) (inventory : list DataBroker)
    : result MembershipSnapshot :=
  let! names := NewManagedNames namespace in
  let! resources := epochResources names (sg_ID g) (sg_OrderedBrokerIDs g) (EffectiveConsumerSets g) 1 in
  let! destination := EpochIngressTopic names (sg_ID g) 1 in
  let snapshot :=
    mkMembershipSnapshot SnapshotVersion namespace (sg_CustomerLibrary g) (sg_ID g) 1 1 CActive
      (sg_HashContract g) (EffectiveRoutingAlgorithm g) (sg_OrderedBrokerIDs g) []
      (configuredBrokerDescriptors (sg_OrderedBrokerIDs g) inventory) [] None
      (mkQueueInfo (qu_NamePrefix (sg_Queue g)) true)
      (mkDestinationInfo DestinationTopic destination) resources [] in
  Validate snapshot ;;!
  Ok snapshot.

Definition validateConfiguredSnapshot (g : ScalingGroup) (snapshot : MembershipSnapshot) : gerr :=
  fail_if (negb (str_eqb (ms_HashContract snapshot) (sg_HashContract g)) ||
           negb (str_eqb (ms_Algorithm snapshot) (EffectiveRoutingAlgorithm g)) ||
           negb (str_eqb (ms_LibraryVersion snapshot) (sg_CustomerLibrary g)) ||
           negb (str_eqb (q_Name (ms_Queue snapshot)) (qu_NamePrefix (sg_Queue g))))
    (ErrNew "runtime: retained membership conflicts with configured contract").

(** The calls of [BootstrapMembership], with their answers. *)
Inductive bootstrap_call : Type :=
| BcEnsure (snapshot : MembershipSnapshot) (state : option Controller.GroupState) (r : gerr)
| BcSave (snapshot : MembershipSnapshot) (r : gerr)
| BcPublish (snapshot : MembershipSnapshot) (r : gerr).

Record BootstrapEnv := mkBootstrapEnv {
  be_ensure : MembershipSnapshot -> option Controller.GroupState -> gerr;
  be_save : MembershipSnapshot -> gerr;
  be_publish : MembershipSnapshot -> gerr;
}.

(** A group without membership: resources, then the durable state, then Broker 0. *)
Definition bootstrap_genesis (env : BootstrapEnv) (cfg : Config) (g : ScalingGroup)
    : list bootstrap_call * result MembershipSnapshot :=
  match GenesisSnapshot (cf_Namespace cfg) g (cf_DataBrokers cfg) with
  | Err e => ([], Err e)
  | Ok snapshot =>
      let ensured := be_ensure env snapshot None in
      let calls := [BcEnsure snapshot None ensured] in
      match ensured with
      | Err e => (calls, Err (ErrWrap "runtime: ensure initial resources" e))
      | Ok _ =>
          let saved := be_save env snapshot in
          let calls := calls ++ [BcSave snapshot saved] in
          match saved with
          | Err e => (calls, Err (ErrWrap "runtime: persist initial membership" e))
          | Ok _ =>
              let published := be_publish env snapshot in
              (calls ++ [BcPublish snapshot published],
               wrap_err "runtime: publish initial membership" published ;;! Ok snapshot)
          end
      end
  end.

Definition retained_check (g : ScalingGroup) (snapshot : MembershipSnapshot)
    (state : option Controller.GroupState) : gerr :=
  validateConfiguredSnapshot g snapshot ;;!
  fail_if (negb (bool_decide (ms_Phase snapshot = CActive)) && bool_decide (~ is_Some state))
    (ErrNew "runtime: authoritative transition has no durable transition state") ;;!
  match state, ms_Transition snapshot with
  | Some g, Some t =>
      fail_if (negb (str_eqb (tr_ID t) (spec_ID (gs_Spec g))))
        (ErrNew "runtime: authoritative transition conflicts with durable state")
  | _, _ => nil_err
  end.

Definition bootstrap_retained (env : BootstrapEnv) (g : ScalingGroup) (snapshot : MembershipSnapshot)
    (state : option Controller.GroupState) : list bootstrap_call * result MembershipSnapshot :=
  match retained_check g snapshot state with
  | Err e => ([], Err e)
  | Ok _ =>
      let ensured := be_ensure env snapshot state in
      ([BcEnsure snapshot state ensured],
       wrap_err "runtime: verify authoritative resources" ensured ;;! Ok snapshot)
  end.

Definition bootstrap_group (env : BootstrapEnv) (cfg : Config) (durable : PersistentState)
    (g : ScalingGroup) : list bootstrap_call * result MembershipSnapshot :=
  match ps_Membership durable !! sg_ID g with
  | None =>
      if bool_decide (is_Some (ps_Groups durable !! sg_ID g))
      then ([], Err (ErrNew "runtime: group has transition history but no authoritative membership"))
      else bootstrap_genesis env cfg g
  | Some snapshot => bootstrap_retained env g snapshot (ps_Groups durable !! sg_ID g)
  end.

Fixpoint bootstrap_loop (env : BootstrapEnv) (cfg : Config) (durable : PersistentState)
    (groups : list ScalingGroup) (c : MembershipCatalog)
    : list bootstrap_call * result MembershipCatalog :=
  match groups with
  | [] => ([], Ok c)
  | g :: rest =>
      let '(calls, r) := bootstrap_group env cfg durable g in
      match (let! snapshot := r in catalog_Put snapshot c) with
      | Err e => (calls, Err e)
      | Ok c =>
          let '(more, r) := bootstrap_loop env cfg durable rest c in
          (calls ++ more, r)
      end
  end.

Definition BootstrapMembership (env : BootstrapEnv) (cfg : Config) (durable : PersistentState)
    (c : MembershipCatalog) : list bootstrap_call * result MembershipCatalog :=
  bootstrap_loop env cfg durable (cf_Groups cfg) c.

(** ** CommandPublisher *)
Record CommandPublisher := mkCommandPublisher {
  cp_Deadlines : gmap string Duration;
  cp_requirements : gmap string (gmap Phase (list ParticipantRequirement));
}.

#[export] Instance eta_CommandPublisher : Eta CommandPublisher := fun p =>
  mkCommandPublisher (cp_Deadlines p) (cp_requirements p).

Inductive publication : Type :=
| PubUpdate (u : ControlUpdate) (r : gerr)
| PubCommand (c : CommandEnvelope) (r : gerr).

(** What Broker 0 and the clock answer. *)
Record NativeEnv := mkNativeEnv {
  ne_publish : ControlUpdate -> gerr;
  ne_command : CommandEnvelope -> gerr;
  ne_now : Time;
}.

Definition commandPhases (phase : Phase) : result (Phase * CtlPhase) :=
  match phase with
  | PhasePrepare => Ok (phase, CPrepare)
  | PhasePause => Ok (phase, CPaused)
  | PhaseDrain => Ok (phase, CDrain)
  | PhaseCommit => Ok (phase, CCommitted)
  | PhaseActivate => Ok (phase, CActive)
  | PhaseOther _ => Err (ErrNew "runtime: unsupported controller phase")
  end.

Definition commandOperationID (u : ControlUpdate) (phase : Phase) (r : ParticipantRequirement) : string :=
  command_id (cu_Group u) (cu_TransitionID u) phase r.

Definition requirementsForPhase (p : CommandPublisher) (group : string) (phase : Phase)
    : list ParticipantRequirement :=
  default [] (default ∅ (cp_requirements p !! group) !! phase).

Definition SetRequirements (group : string) (requirements : gmap Phase (list ParticipantRequirement))
    (p : CommandPublisher) : CommandPublisher :=
  p <| cp_requirements := <[group := requirements]> (cp_requirements p) |>.

Definition RestoreRequirements (state : PersistentState) (p : CommandPublisher) : CommandPublisher :=
  map_fold (fun group g p => SetRequirements group (spec_RoleRequirements (gs_Spec g)) p) p (ps_Groups state).

(** The requirements of the phase, and that the intent of a forward update is
    durable for each of them. *)
Definition command_intent (u : ControlUpdate) (phase : Phase) (requirements : list ParticipantRequirement)
    : gerr :=
  fail_if (bool_decide (requirements = [])) (ErrNew "runtime: no typed command requirements") ;;!
  if cu_Rollback u then nil_err else
  fail_if (negb (bool_decide (size (cu_IssuedCommandIDs u) = length requirements)))
    (ErrNew "runtime: incomplete durable command issuance intent") ;;!
  for_each (fun r =>
    fail_if (negb (str_eqb (default ""%string (cu_IssuedCommandIDs u !! pr_Participant r))
                     (commandOperationID u phase r)))
      (ErrNew "runtime: command issuance intent is not durable")) requirements.

Definition phase_command (u : ControlUpdate) (phase : Phase) (wire : CtlPhase) (issuedAt deadline : Time)
    (r : ParticipantRequirement) : CommandEnvelope :=
  mkCommandEnvelope ProtocolVersion (commandOperationID u phase r) (ms_Namespace (cu_Snapshot u))
    (cu_Group u) (cu_TransitionID u) (cu_ToEpoch u) wire (pr_Participant r) (pr_Role r) issuedAt deadline.

Fixpoint publish_commands (env : NativeEnv) (commands : list CommandEnvelope)
    : list publication * gerr :=
  match commands with
  | [] => ([], nil_err)
  | c :: rest =>
      let r := ne_command env c in
      match r with
      | Err e => ([PubCommand c r], Err (ErrWrap "runtime: publish command" e))
      | Ok _ => let '(l, r') := publish_commands env rest in (PubCommand c r :: l, r')
      end
  end.

(** The commands of a phase, after its snapshot. *)
Definition publish_phase_commands (env : NativeEnv) (p : CommandPublisher) (u : ControlUpdate)
    (phase : Phase) (wire : CtlPhase) (requirements : list ParticipantRequirement)
    : list publication * gerr :=
  let issuedAt := ne_now env in
  let deadline := time_Add issuedAt (default 0 (cp_Deadlines p !! cu_Group u)) in
  if negb (time_After deadline issuedAt)
  then ([], Err (ErrNew "runtime: command deadline is not configured")) else
  publish_commands env (phase_command u phase wire issuedAt deadline <$> requirements).

Definition command_Publish (env : NativeEnv) (p : CommandPublisher) (u : ControlUpdate)
    (c : MembershipCatalog) : MembershipCatalog * list publication * gerr :=
  match commandPhases (cu_Phase u) with
  | Err e => (c, [], Err e)
  | Ok (phase, wire) =>
      let commit := bool_decide (phase = PhaseCommit) in
      let requirements := if commit then [] else requirementsForPhase p (cu_Group u) phase in
      match (if commit then nil_err else command_intent u phase requirements) with
      | Err e => (c, [], Err e)
      | Ok _ =>
          let published := ne_publish env u in
          match published with
          | Err e => (c, [PubUpdate u published], Err e)
          | Ok _ =>
              match catalog_Put (cu_Snapshot u) c with
              | Err e => (c, [PubUpdate u published], Err e)
              | Ok c =>
                  if commit then (c, [PubUpdate u published], nil_err) else
                  let '(l, r) := publish_phase_commands env p u phase wire requirements in
                  (c, PubUpdate u published :: l, r)
              end
          end
      end
  end.

(** ** The state handed to the policy engine *)
Definition group_policy (g : ScalingGroup) : GroupPolicy :=
  let p := sg_Policy g in
  mkGroupPolicy (sp_MinimumBrokers p) (sp_MaximumBrokers p) (sp_WarmBrokers p) (sp_HeadroomPercent p)
    (sp_PressureWindow p) (ho_TelemetryMaxAge (sg_Handover g)) (sp_Cooldown p) (sp_MaxConcurrentChanges p).

Definition policy_group (c : MembershipCatalog) (durable : PersistentState) (g : ScalingGroup)
    : result Policy.GroupState :=
  match catalog_Get c (sg_ID g) with
  | None => Err (ErrNew "runtime: group has no authoritative membership")
  | Some retained =>
      let transition := ps_Groups durable !! sg_ID g in
      Ok (Policy.mkGroupState (sg_ID g) (ms_CurrentMembership retained) (group_policy g)
            (match transition with Some t => if gs_Completed t then 0 else 1 | None => 0 end)
            (match transition with Some t => default zeroTime (gs_CompletedAt t) | None => zeroTime end)
            None)
  end.

Definition policyState (cfg : Config) (c : MembershipCatalog) (durable : PersistentState)
    : result (list Policy.Broker * list Policy.GroupState) :=
  let! groups := fold_result (fun groups g =>
                   let! state := policy_group c durable g in Ok (groups ++ [state])) [] (cf_Groups cfg) in
  Ok (PolicyBrokers cfg, groups).

Definition least_configured_age (cfg : Config) (age : Duration) (group : string) : Duration :=
  match configuredGroup (cf_Groups cfg) group with
  | None => age
  | Some g =>
      let groupAge := ho_TelemetryMaxAge (sg_Handover g) in
      if (0 <? groupAge) && ((age <=? 0) || (groupAge <? age)) then groupAge else age
  end.
Definition telemetryMaxAge (cfg : Config) (b : Policy.Broker) : Duration :=
  foldl (least_configured_age cfg) (st_TelemetryMaxAge (cf_Staleness cfg)) (bro_EligibleGroups b).

Definition brokerTelemetryComplete (s : BrokerSample) : bool :=
  mt_Known (rs_IngressBytesPerSecond (bs_Resources s)) && mt_Known (rs_EgressBytesPerSecond (bs_Resources s)) &&
  mt_Known (rs_SpoolBytes (bs_Resources s)) && mt_Known (rs_Connections (bs_Resources s)).

Definition samples_by_broker (samples : list BrokerSample) : gmap string BrokerSample :=
  foldl (fun m s => <[bs_BrokerID s := s]> m) ∅ samples.

Definition broker_ready (cfg : Config) (samples : gmap string BrokerSample) (evaluatedAt : Time)
    (b : Policy.Broker) : Policy.Broker :=
  let maxAge := telemetryMaxAge cfg b in
  let ready :=
    match samples !! bro_ID b with
    | None => false
    | Some s =>
        (0 <? maxAge) && str_eqb (bs_ServiceClass s) (bro_ServiceClass b) &&
        str_eqb (bs_BrokerVersion s) (bro_BrokerVersion b) && brokerTelemetryComplete s &&
        negb (time_After (bs_ObservedAt s) evaluatedAt) &&
        (time_Sub evaluatedAt (bs_ObservedAt s) <=? maxAge)
    end in
  Policy.mkBroker (bro_ID b) (bro_ServiceClass b) (bro_BrokerVersion b) ready (bro_EligibleGroups b).

(** [ScaleInProofProvider], when there is one. *)
Definition ChoiceProvider : Type :=
  Policy.GroupState -> list Policy.Broker -> TelemetrySnapshot -> Time -> result (option ScaleInChoice).

Definition choose_scale_in (provider : ChoiceProvider) (inventory : list Policy.Broker)
    (snapshot : TelemetrySnapshot) (evaluatedAt : Time) (groups : list Policy.GroupState)
    : result (list Policy.GroupState) :=
  fold_result (fun acc g =>
    let! choice := wrap_err "runtime: prove scale-in" (provider g inventory snapshot evaluatedAt) in
    Ok (acc ++ [Policy.mkGroupState (gr_ID g) (gr_Membership g) (gr_Policy g) (gr_ActiveTransitions g)
                  (gr_LastTransitionAt g) choice])) [] groups.

Definition PolicyStateForTelemetry (cfg : Config) (c : MembershipCatalog) (durable : PersistentState)
    (provider : option ChoiceProvider) (snapshot : TelemetrySnapshot) (evaluatedAt : Time)
    : result (list Policy.Broker * list Policy.GroupState) :=
  fail_if (time_IsZero evaluatedAt) (ErrNew "runtime: policy evaluation time is required") ;;!
  snapshot_Validate snapshot ;;!
  fail_if (time_After (tl_CapturedAt snapshot) evaluatedAt)
    (ErrNew "runtime: policy telemetry capture time is in the future") ;;!
  let! state := policyState cfg c durable in
  let '(inventory, groups) := state in
  let inventory := broker_ready cfg (samples_by_broker (tl_Brokers snapshot)) evaluatedAt <$> inventory in
  let! groups := match provider with
                 | None => Ok groups
                 | Some provider => choose_scale_in provider inventory snapshot evaluatedAt groups
                 end in
  Ok (inventory, groups).

(** ** Recommendations become transitions *)
Definition endpoints_of (descriptors : list BrokerDescriptor) : gmap string string :=
  foldl (fun m d => <[bd_ID d := bd_Endpoint d]> m) ∅ descriptors.
Definition inventory_endpoints (byID : gmap string string) (inventory : list DataBroker) : gmap string string :=
  foldl (fun m b => if str_empty (db_AMQPEndpoint b) then m else <[db_ID b := db_AMQPEndpoint b]> m)
    byID inventory.

Definition selectBrokerDescriptors (snapshot : MembershipSnapshot) (ids : list string)
    (inventory : list DataBroker) : result (list BrokerDescriptor) :=
  let byID := inventory_endpoints
                (endpoints_of (ms_CurrentBrokers snapshot ++ ms_ProposedBrokers snapshot)) inventory in
  fold_result (fun descriptors id =>
    let endpoint := default ""%string (byID !! id) in
    fail_if (str_empty endpoint) (ErrNew "runtime: no AMQP endpoint for broker") ;;!
    Ok (descriptors ++ [mkBrokerDescriptor id endpoint])) [] ids.

Definition add_requirement (r : ParticipantRequirement) (m : gmap Phase (list ParticipantRequirement))
    (phase : Phase) : gmap Phase (list ParticipantRequirement) :=
  <[phase := default [] (m !! phase) ++ [r]]> m.

Definition typedRequirements (g : ScalingGroup) : gmap Phase (list ParticipantRequirement) :=
  let subscribers := foldl (fun m participant =>
    foldl (add_requirement (mkRequirement participant RoleSubscriber)) m
      [PhasePrepare; PhaseDrain; PhaseActivate]) ∅ (SubscriberIdentities g) in
  foldl (fun m participant =>
    foldl (add_requirement (mkRequirement participant RolePublisher)) m
      [PhasePause; PhaseActivate]) subscribers (sg_RequiredPublishers g).

Definition transition_name (group : string) (epoch : Z) (at_ : Time) : string :=
  ("policy-" +:+ group +:+ "-e" +:+ FormatUint epoch +:+ "-" +:+ pretty (UnixNano at_))%string.

Definition transitionSpec (namespace : string) (g : ScalingGroup) (baseline : MembershipSnapshot)
    (r : Recommendation) (at_ : Time) (inventory : list DataBroker) : result TransitionSpec :=
  fail_if (time_IsZero at_) (ErrNew "runtime: policy decision timestamp is required") ;;!
  let! names := NewManagedNames namespace in
  let toEpoch := u64 (ms_Epoch baseline + 1) in
  let! resources := epochResources names (sg_ID g) (rm_ProposedMembership r) (EffectiveConsumerSets g) toEpoch in
  let broker id := ControllerTypes.mkBroker id (d_Name (ms_Destination baseline)) in
  let! currentBrokers := selectBrokerDescriptors baseline (rm_CurrentMembership r) [] in
  let! proposedBrokers := selectBrokerDescriptors baseline (rm_ProposedMembership r) inventory in
  let spec :=
    mkTransitionSpec (transition_name (sg_ID g) toEpoch at_) namespace (sg_CustomerLibrary g) (sg_ID g)
      (u64 (ms_Revision baseline + 1)) (ms_Epoch baseline) toEpoch
      (broker <$> rm_CurrentMembership r) (broker <$> rm_ProposedMembership r)
      currentBrokers proposedBrokers (ms_Queue baseline) (ms_Destination baseline)
      (ms_CurrentResources baseline) resources (sg_HashContract g) (EffectiveRoutingAlgorithm g)
      (ho_DrainGrace (sg_Handover g)) [] ∅ (typedRequirements g) in
  spec_Validate spec ;;!
  Ok spec.

(** SEMP resources, and the scale-in provider on the durable state it reads. *)
Record ResourceCalls := mkResourceCalls {
  rc_cleanup : PersistentState -> string -> gerr;
  rc_prepare : TransitionSpec -> gerr;
}.

Record RecommendationController := mkRecommendationController {
  ra_Catalog : MembershipCatalog;
  ra_Config : Config;
  ra_Resources : option ResourceCalls;
  ra_ScaleIn : option (Recommendation -> Time -> PersistentState -> gerr);
}.

Section Process.
Context (options : Options) (env : Env).

(** The checks of one recommendation before the controller is asked. *)
Definition recommendation_baseline (a : RecommendationController) (r : Recommendation)
    : result (ScalingGroup * MembershipSnapshot) :=
  fail_if (negb (bool_decide (rm_Action r = ActionScaleOut)) && negb (bool_decide (rm_Action r = ActionScaleIn)))
    (ErrNew "runtime: policy transition has unsupported action") ;;!
  match configuredGroup (cf_Groups (ra_Config a)) (rm_GroupID r) with
  | None => Err (ErrNew "runtime: policy recommended unknown group")
  | Some configured =>
      match catalog_Get (ra_Catalog a) (sg_ID configured) with
      | None => Err (ErrNew "runtime: stale policy recommendation")
      | Some baseline =>
          fail_if (negb (bool_decide (ms_Phase baseline = CActive)) ||
                   negb (slicesEqual (ms_CurrentMembership baseline) (rm_CurrentMembership r)))
            (ErrNew "runtime: stale policy recommendation") ;;!
          Ok (configured, baseline)
      end
  end.

Definition verify_scale_in (a : RecommendationController) (r : Recommendation) (at_ : Time)
    (state : PersistentState) : gerr :=
  if negb (bool_decide (rm_Action r = ActionScaleIn)) then nil_err else
  match ra_ScaleIn a with
  | None => Err (ErrNew "runtime: scale-in recommendation has no proof provider")
  | Some verify => wrap_err "runtime: revalidate scale-in" (verify r at_ state)
  end.

(** The previous transition must be complete and its old queues cleaned up. *)
Definition finish_prior (a : RecommendationController) (group : string) : ST gerr :=
  active <~ groupState env group ;;
  match active with
  | None => ret nil_err
  | Some _ =>
      state <~ groupState env group ;;
      if negb (from_option gs_Completed false state) then ret (Err ErrTransitionInProgress) else
      match ra_Resources a with
      | None => ret nil_err
      | Some resources =>
          durable <~ get_mem ;;
          ret (wrap_err "runtime: finish prior transition cleanup" (rc_cleanup resources durable group))
      end
  end.

Definition apply_recommendation (a : RecommendationController) (at_ : Time) (r : Recommendation)
    (p : CommandPublisher) : ST (CommandPublisher * gerr) :=
  match recommendation_baseline a r with
  | Err e => ret (p, Err e)
  | Ok (configured, baseline) =>
      durable <~ get_mem ;;
      match verify_scale_in a r at_ durable with
      | Err e => ret (p, Err e)
      | Ok _ =>
          finished <~ finish_prior a (sg_ID configured) ;;
          match finished with
          | Err e => ret (p, Err e)
          | Ok _ =>
              match transitionSpec (cf_Namespace (ra_Config a)) configured baseline r at_
                      (cf_DataBrokers (ra_Config a)) with
              | Err e => ret (p, Err e)
              | Ok spec =>
                  match match ra_Resources a with Some resources => rc_prepare resources spec | None => nil_err end with
                  | Err e => ret (p, Err (ErrWrap "runtime: prepare policy transition resources" e))
                  | Ok _ =>
                      let p := SetRequirements (sg_ID configured) (spec_RoleRequirements spec) p in
                      begun <~ Begin options env spec ;;
                      ret (p, match begun with
                              | Ok _ => nil_err
                              | Err e => Err (ErrWrap "runtime: begin policy transition" e)
                              end)
                  end
              end
          end
      end
  end.

Fixpoint apply_recommendations (a : RecommendationController) (at_ : Time) (rs : list Recommendation)
    (p : CommandPublisher) : ST (CommandPublisher * gerr) :=
  match rs with
  | [] => ret (p, nil_err)
  | r :: rest =>
      applied <~ apply_recommendation a at_ r p ;;
      match applied with
      | (p, Err e) => ret (p, Err e)
      | (p, Ok _) => apply_recommendations a at_ rest p
      end
  end.

Definition ApplyRecommendations (a : RecommendationController) (d : Decision_) (p : CommandPublisher)
    : ST (CommandPublisher * gerr) :=
  if bool_decide (ra_Resources a = None) && str_eqb (rt_Mode (cf_Runtime (ra_Config a))) RuntimeModeProduction
  then ret (p, Err (ErrNew "runtime: recommendation controller is not initialized"))
  else apply_recommendations a (dc_At d) (dc_Transitions d) p.

(** ** The reconcile loop of one group *)
Record ControllerOptions := mkControllerOptions {
  co_Groups : list string;
  co_ReconcileInterval : Duration;
  co_ActionTimeout : Duration;
  co_RetryInitial : Duration;
  co_RetryMaximum : Duration;
  co_ShutdownTimeout : Duration;
  co_Cleaner : option (PersistentState -> string -> gerr);
  co_RollbackFenceReversible : bool;
}.

Definition Millisecond : Duration := 1000000.

Definition process_withDefaults (o : ControllerOptions) : ControllerOptions :=
  mkControllerOptions (co_Groups o) (or_default (co_ReconcileInterval o) (5 * Second))
    (or_default (co_ActionTimeout o) (30 * Second)) (or_default (co_RetryInitial o) (250 * Millisecond))
    (or_default (co_RetryMaximum o) (10 * Second)) (or_default (co_ShutdownTimeout o) (30 * Second))
    (co_Cleaner o) (co_RollbackFenceReversible o).

Definition NewControllerProcess (o : ControllerOptions) : result ControllerOptions :=
  let o := process_withDefaults o in
  fail_if (co_RetryMaximum o <? co_RetryInitial o)
    (ErrNew "runtime: maximum retry delay cannot be shorter than initial delay") ;;!
  Ok o.

Definition groupNames (o : ControllerOptions) (state : PersistentState) : list string :=
  sort_strings (elements (list_to_set (List.filter (fun g => negb (str_empty g)) (co_Groups o)) ∪
                          dom (ps_Groups state) : gset string)).

Definition actionTimeout (o : ControllerOptions) (now : Time) (state : option Controller.GroupState) : Duration :=
  match state with
  | None => co_ActionTimeout o
  | Some g =>
      if time_IsZero (gs_PhaseDeadline g) then co_ActionTimeout o else
      let remaining := time_Sub (gs_PhaseDeadline g) now in
      if (0 <? remaining) && (remaining <? co_ActionTimeout o) then remaining else co_ActionTimeout o
  end.

Definition rollback_proof (o : ControllerOptions) (g : Controller.GroupState) : RollbackProof :=
  mkRollbackProof (spec_ID (gs_Spec g)) true true
    (negb (gs_FenceAttempted g) || gs_Unfenced g || co_RollbackFenceReversible o).

(** [c] is the catalog, when there is one. *)
Definition requestSafeTimeoutRollback (o : ControllerOptions) (c : option MembershipCatalog) (group : string)
    : ST bool :=
  match c with
  | None => ret false
  | Some c =>
      state <~ groupState env group ;;
      match state, catalog_Get c group, expectedPrecommitSnapshot state with
      | Some g, Some retained, Some expected =>
          if negb (membershipSnapshotsEqual retained expected) then ret false else
          err <~ RequestRollback options env group (rollback_proof o g) ;;
          ret (is_ok err)
      | _, _, _ => ret false
      end
  end.

(** How the loop of [runGroup] goes on: it waits for a signal, turns again at
    once, or turns again after a delay. *)
Inductive turn_end : Type :=
| WaitSignal
| TurnAgain
| TurnAfter (delay : Duration).

Definition double_backoff (o : ControllerOptions) (backoff : Duration) : Duration :=
  Z.min (i64 (backoff * 2)) (co_RetryMaximum o).

(** One turn of the inner loop of [runGroup], with the backoff it leaves. *)
Definition group_turn (o : ControllerOptions) (c : option MembershipCatalog) (group : string)
    (backoff : Duration) : ST (turn_end * Duration) :=
  outcome <~ Reconcile options env group ;;
  let '(changed, err) := outcome in
  match err with
  | Ok _ =>
      state <~ get_mem ;;
      match match co_Cleaner o with Some clean => clean state group | None => nil_err end with
      | Err _ => ret (TurnAfter (co_RetryInitial o), double_backoff o (co_RetryInitial o))
      | Ok _ => ret (if negb changed then WaitSignal else TurnAgain, co_RetryInitial o)
      end
  | Err e =>
      if errors_Is e ErrTransitionNotFound then ret (WaitSignal, co_RetryInitial o) else
      rolled <~ (if errors_Is e ErrPhaseDeadline then requestSafeTimeoutRollback o c group else ret false) ;;
      if rolled then ret (TurnAgain, co_RetryInitial o)
      else ret (TurnAfter backoff, double_backoff o backoff)
  end.

End Process.

(** ** Wiring of the controller process (runtime/assembly.go, runtime/adapters.go) *)
Definition drainGraceByGroup (groups : list ScalingGroup) : gmap string Duration :=
  foldl (fun m g => if negb (str_empty (sg_ID g)) && (0 <? ho_DrainGrace (sg_Handover g))
                    then <[sg_ID g := ho_DrainGrace (sg_Handover g)]> m else m) ∅ groups.
Definition telemetryFreshnessByGroup (groups : list ScalingGroup) : gmap string Duration :=
  foldl (fun m g => if negb (str_empty (sg_ID g)) && (0 <? ho_TelemetryMaxAge (sg_Handover g))
                    then <[sg_ID g := ho_TelemetryMaxAge (sg_Handover g)]> m else m) ∅ groups.
Definition phaseTimeoutByGroup (groups : list ScalingGroup) : gmap string Duration :=
  foldl (fun m g => if negb (str_empty (sg_ID g)) && (0 <? ho_TransitionTimeout (sg_Handover g))
                    then <[sg_ID g := ho_TransitionTimeout (sg_Handover g)]> m else m) ∅ groups.

(** The options of the controller that [AssembleController] opens. *)
Definition assembled_options (cfg : Config) : Options := withDefaults {|
  o_TelemetryFreshness := st_TelemetryMaxAge (cf_Staleness cfg);
  o_ReadinessFreshness := st_ParticipantMaxAge (cf_Staleness cfg);
  o_FenceFreshness := st_TelemetryMaxAge (cf_Staleness cfg);
  o_ZeroGrace := 0;
  o_DrainGraceByGroup := drainGraceByGroup (cf_Groups cfg);
  o_PhaseTimeout := 0;
  o_PhaseTimeoutByGroup := phaseTimeoutByGroup (cf_Groups cfg);
  o_TelemetryFreshnessByGroup := telemetryFreshnessByGroup (cf_Groups cfg);
  o_HistoryLimit := 0;
|}.

Definition maximumConcurrentTransitions (groups : list ScalingGroup) : Z := Z.max 1 (Z.of_nat (length groups)).

Definition bounded_interval (start : Duration) (groups : list ScalingGroup) : Duration :=
  foldl (fun interval g =>
    let value := Z.quot (ho_TelemetryMaxAge (sg_Handover g)) 2 in
    if (0 <? value) && (value <? interval) then value else interval) start groups.
Definition boundedPolicyInterval (groups : list ScalingGroup) : Duration := bounded_interval (15 * Second) groups.
Definition boundedReconcileInterval (groups : list ScalingGroup) : Duration := bounded_interval (5 * Second) groups.

Definition validateConfiguredPolicyState (state : EngineState) (groups : list ScalingGroup) : gerr :=
  for_each (fun entry => fail_if (negb (bool_decide (entry.1 ∈ (sg_ID <$> groups))))
                           (ErrNew "persisted pressure references unknown group"))
    (map_to_list (es_PressureSince state)).

(** *** Fences *)
Record ManagedQueue := mkManagedQueue { mq_MessageVPN : string; mq_Name : string }.

Definition exactManagedFenceQueues (messageVPNs : gmap string string) (request : FenceRequest)
    (broker : ControllerTypes.Broker) (resources : list EpochResourceIdentity) : result (list ManagedQueue) :=
  let vpn := default ""%string (messageVPNs !! b_ID broker) in
  fail_if (str_empty vpn) (ErrNew "runtime: no message VPN for broker") ;;!
  let queues := (fun r => mkManagedQueue vpn (er_QueueName r)) <$>
    List.filter (fun r => (er_Epoch r =? fr_Epoch request) && str_eqb (er_BrokerID r) (b_ID broker)) resources in
  fail_if (bool_decide (length queues = 0%nat)) (ErrNew "runtime: no managed epoch resource") ;;!
  Ok queues.

Definition resolveManagedFenceQueues (state : option Controller.GroupState) (c : MembershipCatalog)
    (messageVPNs : gmap string string) (request : FenceRequest) (broker : ControllerTypes.Broker)
    : result (list ManagedQueue) :=
  let retained :=
    match catalog_Get c (fr_Group request) with
    | None => Err ErrNoRetainedMembership
    | Some snapshot =>
        exactManagedFenceQueues messageVPNs request broker
          (if negb (fr_Epoch request =? ms_Epoch snapshot) then ms_ProposedResources snapshot
           else ms_CurrentResources snapshot)
    end in
  match state with
  | Some g =>
      if gs_Completed g then retained else
      let s := gs_Spec g in
      fail_if (negb (str_eqb (fr_TransitionID request) (spec_ID s)))
        (ErrNew "runtime: fence request transition conflicts with durable transition") ;;!
      if fr_Epoch request =? spec_ToEpoch s
      then exactManagedFenceQueues messageVPNs request broker (spec_ProposedResources s)
      else
        fail_if (negb (fr_Epoch request =? spec_FromEpoch s))
          (ErrNew "runtime: fence request epoch conflicts with durable transition") ;;!
        exactManagedFenceQueues messageVPNs request broker (spec_CurrentResources s)
  | None => retained
  end.

Definition ErrNativeAdapterUnavailable : gerror := ErrNew "runtime: required native adapter is unavailable".

Inductive ingress_call : Type :=
| IcChange (broker : string) (q : ManagedQueue) (enable : bool) (r : gerr)
| IcMonitor (broker : string) (q : ManagedQueue) (r : result bool).

(** The SEMP clients by broker, and the resolver of the managed queues. *)
Record FenceEnv := mkFenceEnv {
  fe_client : string -> bool;
  fe_queues : FenceRequest -> ControllerTypes.Broker -> result (list ManagedQueue);
  fe_change : string -> ManagedQueue -> bool -> gerr;
  fe_monitor : string -> ManagedQueue -> result bool;
  fe_now : Time;
}.

Definition complete_queue (q : ManagedQueue) : bool :=
  negb (str_empty (mq_MessageVPN q)) && negb (str_empty (mq_Name q)).

(** The managed queues of one broker of a request. *)
Definition broker_queues (f : FenceEnv) (request : FenceRequest) (broker : ControllerTypes.Broker)
    : result (list ManagedQueue) :=
  fail_if (negb (fe_client f (b_ID broker))) (ErrNew "runtime: no SEMP adapter for broker") ;;!
  match fe_queues f request broker with
  | Err e => Err (ErrWrap "runtime: resolve managed fence queues" e)
  | Ok [] => Err (ErrWrap "runtime: resolve managed fence queues" ErrNativeAdapterUnavailable)
  | Ok queues => Ok queues
  end.

Fixpoint change_queues (f : FenceEnv) (broker : string) (enable : bool) (queues : list ManagedQueue)
    : list ingress_call * gerr :=
  match queues with
  | [] => ([], nil_err)
  | q :: rest =>
      if negb (complete_queue q)
      then ([], Err (ErrWrap "runtime: managed fence queue is incomplete" ErrNativeAdapterUnavailable)) else
      let r := fe_change f broker q enable in
      match r with
      | Err e => ([IcChange broker q enable r], Err (ErrWrap "runtime: update queue ingress" e))
      | Ok _ => let '(l, r') := change_queues f broker enable rest in (IcChange broker q enable r :: l, r')
      end
  end.

Fixpoint change_brokers (f : FenceEnv) (request : FenceRequest) (enable : bool)
    (brokers : list ControllerTypes.Broker) : list ingress_call * gerr :=
  match brokers with
  | [] => ([], nil_err)
  | b :: rest =>
      match broker_queues f request b with
      | Err e => ([], Err e)
      | Ok queues =>
          let '(l, r) := change_queues f (b_ID b) enable queues in
          match r with
          | Err e => (l, Err e)
          | Ok _ => let '(l', r) := change_brokers f request enable rest in (l ++ l', r)
          end
      end
  end.

(** [change]: every managed queue of every broker of the request. *)
Definition fence_change (f : FenceEnv) (request : FenceRequest) (enable : bool) : list ingress_call * gerr :=
  change_brokers f request enable (fr_Brokers request).

(** The queues of one broker: [Ok false] as soon as one is not as expected. *)
Fixpoint verify_queues (f : FenceEnv) (broker : string) (expected : bool) (queues : list ManagedQueue)
    : list ingress_call * result bool :=
  match queues with
  | [] => ([], Ok true)
  | q :: rest =>
      if negb (complete_queue q)
      then ([], Err (ErrWrap "runtime: managed ingress queue is incomplete" ErrNativeAdapterUnavailable)) else
      let r := fe_monitor f broker q in
      match r with
      | Err e => ([IcMonitor broker q r], Err (ErrWrap "runtime: verify queue ingress" e))
      | Ok enabled =>
          if negb (Bool.eqb enabled expected) then ([IcMonitor broker q r], Ok false) else
          let '(l, r') := verify_queues f broker expected rest in (IcMonitor broker q r :: l, r')
      end
  end.

Fixpoint verify_brokers (f : FenceEnv) (request : FenceRequest) (expected : bool)
    (brokers : list ControllerTypes.Broker) : list ingress_call * result bool :=
  match brokers with
  | [] => ([], Ok true)
  | b :: rest =>
      match broker_queues f request b with
      | Err e => ([], Err e)
      | Ok queues =>
          let '(l, r) := verify_queues f (b_ID b) expected queues in
          match r with
          | Ok true => let '(l', r) := verify_brokers f request expected rest in (l ++ l', r)
          | _ => (l, r)
          end
      end
  end.

Definition verifyIngressState (f : FenceEnv) (request : FenceRequest) (expectedEnabled : bool)
    : list ingress_call * result (bool * Time) :=
  let '(l, r) := verify_brokers f request expectedEnabled (fr_Brokers request) in
  (l, match r with Ok b => Ok (b, fe_now f) | Err e => Err e end).

Definition semp_VerifyFence (f : FenceEnv) (request : FenceRequest) : list ingress_call * result FenceStatus :=
  let '(l, r) := verifyIngressState f request false in
  (l, match r with Ok (b, t) => Ok (mkFenceStatus b t) | Err e => Err e end).
Definition semp_VerifyIngress (f : FenceEnv) (request : FenceRequest) : list ingress_call * result IngressStatus :=
  let '(l, r) := verifyIngressState f request true in
  (l, match r with Ok (b, t) => Ok (mkIngressStatus b t) | Err e => Err e end).

(** *** Registrations *)
Definition registration_allowed (g : ScalingGroup) (r : RegistrationEnvelope) : bool :=
  match re_Role r with
  | RolePublisher => contains (sg_RequiredPublishers g) (re_Participant r)
  | RoleSubscriber =>
      match ConsumerSetForSubscriber g (re_Participant r) with
      | Some set => str_eqb (re_ConsumerSet r) set
      | None => false
      end
  | _ => false
  end.

Definition registration_current (snapshot : MembershipSnapshot) (r : RegistrationEnvelope) : bool :=
  (re_Epoch r =? ms_Epoch snapshot) && bool_decide (re_Phase r = ms_Phase snapshot) &&
  match ms_Transition snapshot with
  | None => str_empty (re_TransitionID r)
  | Some t => negb (str_empty (re_TransitionID r)) && str_eqb (re_TransitionID r) (tr_ID t)
  end.

Definition Register (cfg : Config) (c : MembershipCatalog) (r : RegistrationEnvelope) : gerr :=
  match configuredGroup (cf_Groups cfg) (re_Group r) with
  | None => Err ErrStaleMessage
  | Some g =>
      fail_if (negb (str_eqb (re_Namespace r) (cf_Namespace cfg)) ||
               negb (str_eqb (re_LibraryVersion r) (sg_CustomerLibrary g))) ErrStaleMessage ;;!
      match catalog_Get c (re_Group r) with
      | None => Err ErrStaleMessage
      | Some snapshot =>
          fail_if (negb (registration_current snapshot r)) ErrStaleMessage ;;!
          fail_if (negb (registration_allowed g r)) ErrUnknownParticipant
      end
  end.
End Runtime.
