(* ===== verification/ScaleIn.v ===== *)
(** * Scale-in proofs (runtime/scale_in.go)

    The conservative provider that chooses the broker a group can give up, from
    one telemetry cycle, the retained memberships, the durable controller state
    and the capacity profiles, and that verifies its own evidence again before a
    recommendation is applied.  JSON texts of the evidence are a parameter. *)

From S2P Require Import Prelude Float64 Customer Snapshot Messages Wire ControllerTypes Policy PolicyAggregate PolicyEngine Config Controller Runtime.
From Stdlib Require Import ZArith Lia.
From stdpp Require Import base gmap strings numbers option fin_maps list.
#[local] Open Scope Z_scope.

Record scaleInEvidence := mkScaleInEvidence {
  ev_Version : Z;
  ev_Group : string;
  ev_Broker : string;
  ev_Epoch : Z;
  ev_Revision : Z;
  ev_CurrentMembership : list string;
  ev_RemainingMembership : list string;
  ev_CapturedAt : string;
  ev_EvaluatedAt : string;
  ev_MinimumWarmFloor : Z;
  ev_HeadroomPercent : float64;
  ev_CurrentBacklogZero : bool;
  ev_RemainingCapacityOK : bool;
  ev_ExclusiveGroupOwner : bool;
  ev_ControllerIdle : bool;
  ev_CleanupEvidenceReady : bool;
  ev_CapacityDisposition : string;
}.

(** [json.Marshal] and [json.Unmarshal] of the evidence. *)
Class EvidenceText := {
  evidence_encode : scaleInEvidence -> result string;
  evidence_decode : string -> result scaleInEvidence;
}.

(** JSON replaces bytes that are not UTF-8; everything else reads back. *)
Definition evidence_utf8 (e : scaleInEvidence) : bool :=
  forallb utf8_ValidString
    ([ev_Group e; ev_Broker e; ev_CapturedAt e; ev_EvaluatedAt e; ev_CapacityDisposition e] ++
     ev_CurrentMembership e ++ ev_RemainingMembership e).

Class EvidenceTextLaws `{EvidenceText} : Prop := {
  evidence_roundtrip e s : evidence_utf8 e = true -> evidence_encode e = Ok s -> evidence_decode s = Ok e;
  evidence_text e s : evidence_encode e = Ok s -> s <> ""%string;
}.

Definition retain_disposition : string := "retain-until-transition-and-cleanup-complete".

(** ** Totals *)
Record resourceTotals := mkResourceTotals {
  to_ingress : float64;
  to_egress : float64;
  to_spool : float64;
  to_connections : float64;
}.

Definition totals_add (r other : resourceTotals) : resourceTotals :=
  mkResourceTotals (fadd (to_ingress r) (to_ingress other)) (fadd (to_egress r) (to_egress other))
    (fadd (to_spool r) (to_spool other)) (fadd (to_connections r) (to_connections other)).
Definition zero_totals : resourceTotals := mkResourceTotals fzero fzero fzero fzero.

Definition totals (r : Resources) : resourceTotals :=
  mkResourceTotals (mt_Value (rs_IngressBytesPerSecond r)) (mt_Value (rs_EgressBytesPerSecond r))
    (mt_Value (rs_SpoolBytes r)) (mt_Value (rs_Connections r)).

Definition limit_totals (l : Policy.CapacityLimits) : resourceTotals :=
  mkResourceTotals (cl_IngressBytesPerSecond l) (cl_EgressBytesPerSecond l) (cl_SpoolBytes l) (cl_Connections l).

Definition belowThreshold (value limit : resourceTotals) (threshold : float64) : bool :=
  fltb fzero (to_ingress limit) && fltb fzero (to_egress limit) && fltb fzero (to_spool limit) &&
  fltb fzero (to_connections limit) &&
  fltb (fdiv (to_ingress value) (to_ingress limit)) threshold &&
  fltb (fdiv (to_egress value) (to_egress limit)) threshold &&
  fltb (fdiv (to_spool value) (to_spool limit)) threshold &&
  fltb (fdiv (to_connections value) (to_connections limit)) threshold.

Definition completeResources (r : Resources) : bool :=
  mt_Known (rs_IngressBytesPerSecond r) && mt_Known (rs_EgressBytesPerSecond r) &&
  mt_Known (rs_SpoolBytes r) && mt_Known (rs_Connections r).
Definition completeBacklog (b : Backlog) : bool :=
  mt_Known (bk_QueuedMessages b) && mt_Known (bk_UnackedMessages b).

Definition freshAt (observedAt evaluatedAt : Time) (maxAge : Duration) : bool :=
  negb (time_IsZero observedAt) && negb (time_After observedAt evaluatedAt) &&
  (time_Sub evaluatedAt observedAt <=? maxAge).

Definition removeOrderedMember (membership : list string) (brokerID : string) : list string :=
  List.filter (fun id => negb (str_eqb id brokerID)) membership.

Definition controllerBrokersContain (brokers : list ControllerTypes.Broker) (id : string) : bool :=
  existsb (fun b => str_eqb (b_ID b) id) brokers.

(** ** Durable state *)
Definition evidence_matches (g : Controller.GroupState) (e : CleanupEvidence) : bool :=
  str_eqb (cle_TransitionID e) (spec_ID (gs_Spec g)) && (cle_SourceEpoch e =? spec_FromEpoch (gs_Spec g)) &&
  (cle_TargetEpoch e =? spec_ToEpoch (gs_Spec g)) && cle_OldEpochFenced e &&
  negb (time_IsZero (cle_ZeroSince e)) && negb (time_IsZero (cle_DrainObservedAt e)) &&
  negb (time_IsZero (cle_FenceVerifiedAt e)) && negb (time_IsZero (cle_CommittedAt e)).

(** (cleanupReady, idle). *)
Definition controllerScaleInState (state : PersistentState) (group : string) : bool * bool :=
  match ps_Groups state !! group with
  | None => (true, true)
  | Some g =>
      if negb (gs_Completed g) then (false, false) else
      if gs_RollingBack g then (true, true) else
      if bool_decide (~ is_Some (gs_CompletedAt g)) || negb (gs_CleanupRecorded g) then (false, true) else
      (existsb (evidence_matches g) (default [] (ps_CleanupEvidence state !! group)), true)
  end.

(** The loop over the configured groups: [None] when none of them settles it. *)
Fixpoint retained_ownership (c : MembershipCatalog) (brokerID groupID : string) (groups : list ScalingGroup)
    : option (bool * bool) :=
  match groups with
  | [] => None
  | g :: rest =>
      match catalog_Get c (sg_ID g) with
      | None => Some (false, false)
      | Some retained =>
          if negb (str_eqb (sg_ID g) groupID) &&
             (contains (ms_CurrentMembership retained) brokerID || contains (ms_ProposedMembership retained) brokerID)
          then Some (false, true)
          else retained_ownership c brokerID groupID rest
      end
  end.

Definition transition_uses (brokerID groupID : string) (entry : string * Controller.GroupState) : bool :=
  negb (str_eqb entry.1 groupID) && negb (gs_Completed entry.2) &&
  (controllerBrokersContain (spec_Current (gs_Spec entry.2)) brokerID ||
   controllerBrokersContain (spec_Proposed (gs_Spec entry.2)) brokerID).

(** (exclusive, complete). *)
Definition exclusiveCurrentOwnership (cfg : Config) (c : MembershipCatalog) (brokerID groupID : string)
    (durable : PersistentState) : bool * bool :=
  match retained_ownership c brokerID groupID (cf_Groups cfg) with
  | Some answer => answer
  | None => (negb (existsb (transition_uses brokerID groupID) (map_to_list (ps_Groups durable))), true)
  end.

(** ** Capacity *)
Record capacity_env := mkCapacityEnv {
  cv_inventory : gmap string Policy.Broker;
  cv_brokers : gmap string BrokerSample;
  cv_groups : gmap string GroupSample;
}.

Definition member_complete (v : capacity_env) (evaluatedAt : Time) (maxAge : Duration) (id : string)
    : option GroupSample :=
  match cv_inventory v !! id, cv_brokers v !! id, cv_groups v !! id with
  | Some broker, Some b, Some g =>
      if str_eqb (bs_ServiceClass b) (bro_ServiceClass broker) &&
         str_eqb (bs_BrokerVersion b) (bro_BrokerVersion broker) &&
         freshAt (bs_ObservedAt b) evaluatedAt maxAge && freshAt (gm_ObservedAt g) evaluatedAt maxAge &&
         completeResources (bs_Resources b) && completeResources (gm_Resources g) &&
         completeBacklog (gm_Backlog g)
      then Some g else None
  | _, _, _ => None
  end.

(** The first loop: whether the backlog is zero, and the demand of the group. *)
Fixpoint demand_loop (v : capacity_env) (evaluatedAt : Time) (maxAge : Duration) (ids : list string)
    (backlogZero : bool) (demand : resourceTotals) : option (bool * resourceTotals) :=
  match ids with
  | [] => Some (backlogZero, demand)
  | id :: rest =>
      match member_complete v evaluatedAt maxAge id with
      | None => None
      | Some g =>
          let zero := feqb (mt_Value (bk_QueuedMessages (gm_Backlog g))) fzero &&
                      feqb (mt_Value (bk_UnackedMessages (gm_Backlog g))) fzero in
          demand_loop v evaluatedAt maxAge rest (backlogZero && zero) (totals_add demand (totals (gm_Resources g)))
      end
  end.

Definition zero_resources : Resources :=
  mkResources UnknownMetric UnknownMetric UnknownMetric UnknownMetric.
Definition zero_broker : Policy.Broker := Policy.mkBroker "" "" "" false [].

(** The second loop: [Ok None] when one remaining broker is above its threshold
    with the whole load of the candidate. *)
Fixpoint limits_loop (profiles : ProfileCatalog) (v : capacity_env) (candidateLoad : resourceTotals)
    (threshold : float64) (ids : list string) (limits : resourceTotals) : result (option resourceTotals) :=
  match ids with
  | [] => Ok (Some limits)
  | id :: rest =>
      let broker := default zero_broker (cv_inventory v !! id) in
      let! profile := catalog_Lookup profiles (bro_ServiceClass broker) (bro_BrokerVersion broker) in
      let own := limit_totals (cp_Limits profile) in
      let sampled := from_option bs_Resources zero_resources (cv_brokers v !! id) in
      if negb (belowThreshold (totals_add (totals sampled) candidateLoad) own threshold) then Ok None else
      limits_loop profiles v candidateLoad threshold rest (totals_add limits own)
  end.

(** (capacityOK, backlogZero, complete). *)
Definition remainingCapacityProven (profiles : ProfileCatalog) (g : ScalingGroup) (current remaining : list string)
    (candidate : string) (v : capacity_env) (evaluatedAt : Time) : result (bool * bool * bool) :=
  let maxAge := ho_TelemetryMaxAge (sg_Handover g) in
  if maxAge <=? 0 then Ok (false, false, false) else
  let threshold := fsub (f_of_Z 1) (fdiv (sp_HeadroomPercent (sg_Policy g)) (f_of_Z 100)) in
  if fleb threshold fzero then Ok (false, false, false) else
  match demand_loop v evaluatedAt maxAge current true zero_totals with
  | None => Ok (false, false, false)
  | Some (false, _) => Ok (false, false, true)
  | Some (true, demand) =>
      let candidateLoad := totals (from_option gm_Resources zero_resources (cv_groups v !! candidate)) in
      let! limits := limits_loop profiles v candidateLoad threshold remaining zero_totals in
      match limits with
      | None => Ok (false, true, true)
      | Some limits => Ok (belowThreshold demand limits threshold, true, true)
      end
  end.

(** ** The provider *)
Record ScaleInProvider := mkScaleInProvider {
  si_Config : Config;
  si_Catalog : MembershipCatalog;
  si_Profiles : ProfileCatalog;
}.

Definition scale_in_floor (g : ScalingGroup) : Z :=
  i64 (sp_MinimumBrokers (sg_Policy g) + sp_WarmBrokers (sg_Policy g)).

Definition capacity_view (group : Policy.GroupState) (inventory : list Policy.Broker)
    (snapshot : TelemetrySnapshot) : capacity_env :=
  mkCapacityEnv (foldl (fun m b => <[bro_ID b := b]> m) ∅ inventory)
    (samples_by_broker (tl_Brokers snapshot))
    (foldl (fun m s => if str_eqb (gm_GroupID s) (gr_ID group) then <[gm_BrokerID s := s]> m else m) ∅
       (tl_Groups snapshot)).

Section Provider.
Context {time_text : TimeText} {evidence_json : EvidenceText}.
Context (p : ScaleInProvider) (durable : PersistentState).

(** Is this member provably safe to remove? *)
Definition candidate_safe (configured : ScalingGroup) (group : Policy.GroupState) (v : capacity_env)
    (evaluatedAt : Time) (candidate : string) : result bool :=
  let remaining := removeOrderedMember (gr_Membership group) candidate in
  if negb (llen remaining =? llen (gr_Membership group) - 1) || (llen remaining <? scale_in_floor configured)
  then Ok false else
  let '(exclusive, complete) :=
    exclusiveCurrentOwnership (si_Config p) (si_Catalog p) candidate (gr_ID group) durable in
  if negb complete || negb exclusive then Ok false else
  let! answer := remainingCapacityProven (si_Profiles p) configured (gr_Membership group) remaining candidate
                   v evaluatedAt in
  let '(capacityOK, backlogZero, complete) := answer in
  Ok (complete && backlogZero && capacityOK).

Definition scale_in_evidence (configured : ScalingGroup) (group : Policy.GroupState)
    (retained : MembershipSnapshot) (snapshot : TelemetrySnapshot) (evaluatedAt : Time) (candidate : string)
    : scaleInEvidence :=
  mkScaleInEvidence 1 (gr_ID group) candidate (ms_Epoch retained) (ms_Revision retained)
    (gr_Membership group) (removeOrderedMember (gr_Membership group) candidate)
    (time_format (tl_CapturedAt snapshot)) (time_format evaluatedAt) (scale_in_floor configured)
    (sp_HeadroomPercent (sg_Policy configured)) true true true true true retain_disposition.

(** The members from the last to the first, until one is provably safe. *)
Fixpoint choice_loop (configured : ScalingGroup) (group : Policy.GroupState) (retained : MembershipSnapshot)
    (snapshot : TelemetrySnapshot) (v : capacity_env) (evaluatedAt : Time) (candidates : list string)
    : result (option ScaleInChoice) :=
  match candidates with
  | [] => Ok None
  | candidate :: rest =>
      let! safe := candidate_safe configured group v evaluatedAt candidate in
      if negb safe then choice_loop configured group retained snapshot v evaluatedAt rest else
      let! encoded := wrap_err "runtime: encode scale-in evidence"
        (evidence_encode (scale_in_evidence configured group retained snapshot evaluatedAt candidate)) in
      Ok (Some (mkScaleInChoice candidate true encoded))
  end.

(** The conditions under which no choice is looked for. *)
Definition retained_for_scale_in (configured : ScalingGroup) (group : Policy.GroupState)
    : option MembershipSnapshot :=
  if negb (llen (EffectiveConsumerSets configured) =? 1) || negb (gr_ActiveTransitions group =? 0) ||
     (llen (gr_Membership group) <=? scale_in_floor configured) then None else
  match catalog_Get (si_Catalog p) (gr_ID group) with
  | None => None
  | Some retained =>
      if negb (bool_decide (ms_Phase retained = CActive)) ||
         negb (slicesEqual (ms_CurrentMembership retained) (gr_Membership group)) then None else
      let '(cleanupReady, idle) := controllerScaleInState durable (gr_ID group) in
      if negb idle || negb cleanupReady then None else Some retained
  end.

Definition choose (group : Policy.GroupState) (inventory : list Policy.Broker) (snapshot : TelemetrySnapshot)
    (evaluatedAt : Time) : result (option ScaleInChoice) :=
  if time_IsZero evaluatedAt || time_IsZero (tl_CapturedAt snapshot) ||
     time_After (tl_CapturedAt snapshot) evaluatedAt then Ok None else
  match configuredGroup (cf_Groups (si_Config p)) (gr_ID group) with
  | None => Err (ErrNew "runtime: scale-in proof references unknown group")
  | Some configured =>
      match retained_for_scale_in configured group with
      | None => Ok None
      | Some retained =>
          choice_loop configured group retained snapshot (capacity_view group inventory snapshot) evaluatedAt
            (reverse (gr_Membership group))
      end
  end.

(** ** Verification of the evidence *)
Definition evidence_complete (e : scaleInEvidence) (r : Recommendation) : bool :=
  (ev_Version e =? 1) && str_eqb (ev_Group e) (rm_GroupID r) && str_eqb (ev_Broker e) (rm_BrokerID r) &&
  ev_CurrentBacklogZero e && ev_RemainingCapacityOK e && ev_ExclusiveGroupOwner e && ev_ControllerIdle e &&
  ev_CleanupEvidenceReady e && str_eqb (ev_CapacityDisposition e) retain_disposition.

Definition evidence_current (e : scaleInEvidence) (r : Recommendation) : bool :=
  match catalog_Get (si_Catalog p) (rm_GroupID r) with
  | None => false
  | Some retained =>
      bool_decide (ms_Phase retained = CActive) && (ms_Epoch retained =? ev_Epoch e) &&
      (ms_Revision retained =? ev_Revision e) &&
      slicesEqual (ms_CurrentMembership retained) (rm_CurrentMembership r) &&
      slicesEqual (ev_CurrentMembership e) (rm_CurrentMembership r) &&
      slicesEqual (ev_RemainingMembership e) (rm_ProposedMembership r) &&
      slicesEqual (removeOrderedMember (rm_CurrentMembership r) (rm_BrokerID r)) (rm_ProposedMembership r)
  end.

Definition VerifyScaleIn (r : Recommendation) (decisionAt : Time) : gerr :=
  fail_if (str_empty (rm_Evidence r) || time_IsZero decisionAt)
    (ErrNew "runtime: scale-in recommendation requires proof evidence and a decision time") ;;!
  let! e := wrap_err "runtime: decode scale-in evidence" (evidence_decode (rm_Evidence r)) in
  fail_if (negb (evidence_complete e r))
    (ErrNew "runtime: scale-in evidence is incomplete or does not match the recommendation") ;;!
  fail_if (negb (bool_decide (time_parse (ev_EvaluatedAt e) = Some decisionAt)))
    (ErrNew "runtime: scale-in evidence does not match the policy decision time") ;;!
  match configuredGroup (cf_Groups (si_Config p)) (rm_GroupID r) with
  | None => Err (ErrNew "runtime: scale-in proof references unknown group")
  | Some configured =>
      let floor := scale_in_floor configured in
      fail_if (negb (ev_MinimumWarmFloor e =? floor) ||
               negb (feqb (ev_HeadroomPercent e) (sp_HeadroomPercent (sg_Policy configured))) ||
               (llen (rm_ProposedMembership r) <? floor))
        (ErrNew "runtime: scale-in evidence no longer matches configured minimum, warm, or headroom constraints") ;;!
      fail_if (negb (evidence_current e r))
        (ErrNew "runtime: scale-in evidence is stale or does not preserve ordered membership") ;;!
      let '(cleanupReady, idle) := controllerScaleInState durable (rm_GroupID r) in
      let '(exclusive, complete) :=
        exclusiveCurrentOwnership (si_Config p) (si_Catalog p) (rm_BrokerID r) (rm_GroupID r) durable in
      fail_if (negb cleanupReady || negb idle || negb complete || negb exclusive)
        (ErrNew "runtime: scale-in ownership or controller state changed after proof") ;;!
      match time_parse (ev_CapturedAt e) with
      | None => Err (ErrNew "runtime: scale-in telemetry proof is stale")
      | Some capturedAt =>
          fail_if (time_After capturedAt decisionAt ||
                   (ho_TelemetryMaxAge (sg_Handover configured) <? time_Sub decisionAt capturedAt))
            (ErrNew "runtime: scale-in telemetry proof is stale")
      end
  end.
End Provider.
