(* ===== verification/RuntimeResources.v ===== *)
(** * Managed resources and observations (runtime/resources.go,
      runtime/managed_subscriptions.go, runtime/drain_monitor.go, runtime/assembly.go)

    The queues of an epoch: creating and verifying them, replaying their ingress
    at a restart and deleting them after a transition; the SEMP drain monitor in
    front of the controller; the queues of Broker 0 that the controller process
    serves.  SEMP answers arbitrarily, and may take into account every call made
    before. *)

From S2P Require Import Prelude Float64 Customer Snapshot Messages Naming ControllerTypes Policy Config Broker0 Controller Runtime.
From Stdlib Require Import ZArith Lia.
From stdpp Require Import base gmap strings numbers option pretty fin_maps list.
#[local] Open Scope Z_scope.

(** ** SEMP calls *)
Record QueueSpec := mkQueueSpec {
  qs_MessageVPN : string;
  qs_Name : string;
  qs_AccessType : string;
  qs_Permission : string;
  qs_IngressEnabled : bool;
  qs_EgressEnabled : bool;
  qs_MaxMsgSpoolUsage : Z;
  qs_MaxRedeliveryCount : Z;
  qs_DeadMsgQueue : string;
  qs_PartitionCount : Z;
  qs_ConsumerAckPropagationEnabled : bool;
  qs_MaxDeliveredUnackedMsgsPerFlow : Z;
  qs_RejectMsgToSenderOnDiscardBehavior : string;
}.
#[export] Instance eta_QueueSpec : Eta QueueSpec := fun q =>
  mkQueueSpec (qs_MessageVPN q) (qs_Name q) (qs_AccessType q) (qs_Permission q) (qs_IngressEnabled q)
    (qs_EgressEnabled q) (qs_MaxMsgSpoolUsage q) (qs_MaxRedeliveryCount q) (qs_DeadMsgQueue q)
    (qs_PartitionCount q) (qs_ConsumerAckPropagationEnabled q) (qs_MaxDeliveredUnackedMsgsPerFlow q)
    (qs_RejectMsgToSenderOnDiscardBehavior q).

(** A call names the broker whose client it goes to.  [SeAbsent] is the whole
    polling of [waitForManagedQueueAbsent]: no error means that the broker
    reported the queue as absent. *)
Inductive semp_event : Type :=
| SeEnsure (broker : string) (q : QueueSpec) (r : gerr)
| SeList (broker vpn queue : string) (r : result (list string))
| SeSubscribe (broker vpn queue topic : string) (r : gerr)
| SeIngress (broker vpn queue : string) (enable : bool) (r : gerr)
| SeDelete (broker vpn queue : string) (r : gerr)
| SeAbsent (broker vpn queue : string) (r : gerr).

Record SempEnv := mkSempEnv {
  sm_ensure : list semp_event -> string -> QueueSpec -> gerr;
  sm_list : list semp_event -> string -> string -> string -> result (list string);
  sm_subscribe : list semp_event -> string -> string -> string -> string -> gerr;
  sm_ingress : list semp_event -> string -> string -> string -> bool -> gerr;
  sm_delete : list semp_event -> string -> string -> string -> gerr;
  sm_absent : list semp_event -> string -> string -> string -> gerr;
}.

(** Programs over the calls made so far. *)
Definition SM (A : Type) : Type := list semp_event -> list semp_event * A.
Definition sm_ret {A} (a : A) : SM A := fun tr => (tr, a).
Definition sm_call {A} (answer : list semp_event -> A) (event : A -> semp_event) : SM A :=
  fun tr => (tr ++ [event (answer tr)], answer tr).
(** [x, err := m; if err != nil { return err }]. *)
Definition sm_try {A B} (m : SM (result A)) (k : A -> SM (result B)) : SM (result B) :=
  fun tr => let '(tr, r) := m tr in match r with Ok a => k a tr | Err e => (tr, Err e) end.
(** An error of [m] is replaced by the outcome of [k]. *)
Definition sm_catch {A} (m : SM (result A)) (k : gerror -> SM (result A)) : SM (result A) :=
  fun tr => let '(tr, r) := m tr in match r with Ok a => (tr, Ok a) | Err e => k e tr end.
Definition sm_wrap {A} (msg : string) (m : SM (result A)) : SM (result A) :=
  fun tr => let '(tr, r) := m tr in (tr, wrap_err msg r).

Declare Scope semp_scope.
Notation "x '<-!' m ';;' k" := (sm_try m (fun x => k))
  (at level 100, m at next level, right associativity) : semp_scope.
Notation "'do!' m ';;' k" := (sm_try m (fun _ => k))
  (at level 100, m at next level, right associativity) : semp_scope.
#[local] Open Scope semp_scope.

Fixpoint sm_each {A} (f : A -> SM gerr) (l : list A) : SM gerr :=
  match l with
  | [] => sm_ret nil_err
  | x :: rest => do! f x ;; sm_each f rest
  end.

Section Resources.
Context {net_url : NetURL} {sha : Sha256} (env : SempEnv).

Definition EnsureQueue (broker : string) (q : QueueSpec) : SM gerr :=
  sm_call (fun tr => sm_ensure env tr broker q) (SeEnsure broker q).
Definition ListSubscriptions (broker vpn queue : string) : SM (result (list string)) :=
  sm_call (fun tr => sm_list env tr broker vpn queue) (SeList broker vpn queue).
Definition CreateSubscription (broker vpn queue topic : string) : SM gerr :=
  sm_call (fun tr => sm_subscribe env tr broker vpn queue topic) (SeSubscribe broker vpn queue topic).
Definition SetIngress (broker vpn queue : string) (enable : bool) : SM gerr :=
  sm_call (fun tr => sm_ingress env tr broker vpn queue enable) (SeIngress broker vpn queue enable).
Definition DeleteQueue (broker vpn queue : string) : SM gerr :=
  sm_call (fun tr => sm_delete env tr broker vpn queue) (SeDelete broker vpn queue).
Definition WaitAbsent (broker vpn queue : string) : SM gerr :=
  sm_call (fun tr => sm_absent env tr broker vpn queue) (SeAbsent broker vpn queue).

Definition ensureExactQueueSubscription (broker vpn queue topic : string) : SM gerr :=
  topics <-! ListSubscriptions broker vpn queue ;;
  if bool_decide (topics = [topic]) then sm_ret nil_err else
  if negb (bool_decide (topics = []))
  then sm_ret (Err (ErrNew "runtime: managed queue has other subscriptions")) else
  do! CreateSubscription broker vpn queue topic ;;
  topics <-! ListSubscriptions broker vpn queue ;;
  sm_ret (fail_if (negb (bool_decide (topics = [topic])))
            (ErrNew "runtime: managed queue did not verify exact subscription after creation")).

(** ** ManagedEpochResources *)
Record ManagedEpochResources := mkManagedEpochResources {
  mr_Config : Config;
  mr_clients : gset string;
}.

Definition brokerIDs (brokers : list ControllerTypes.Broker) : list string := b_ID <$> brokers.

Definition expectedEpochResources (namespace : string) (g : ScalingGroup) (membership : list string) (epoch : Z)
    : result (list EpochResourceIdentity) :=
  let! names := NewManagedNames namespace in
  epochResources names (sg_ID g) membership (EffectiveConsumerSets g) epoch.

Definition validateManagedNamespace (namespace : string) : gerr :=
  fail_if (str_empty namespace || negb (trimmed namespace)) (ErrNew "runtime: explicit managed namespace is required") ;;!
  NewManagedNames namespace ;;!
  nil_err.

Definition managedEpochQueueSpec (g : ScalingGroup) (vpn name : string) (ingress : bool) : result QueueSpec :=
  let q := sg_Queue g in
  fail_if ((qu_Partitions q <? 0) || (4294967295 <? qu_Partitions q)) (ErrNew "runtime: invalid partition count") ;;!
  Ok (mkQueueSpec vpn name (qu_Access q) "delete" ingress true 256 (u64 (qu_MaxRedeliveries q))
        (qu_DeadMessageQueue q)
        (if str_eqb (qu_Type q) QueueTypePartitioned then qu_Partitions q else 0) true 1000 "always").

Definition managed_broker (m : ManagedEpochResources) (id : string) : result DataBroker :=
  match configuredBroker (cf_DataBrokers (mr_Config m)) id with
  | None => Err (ErrNew "runtime: managed epoch resource references unknown broker")
  | Some broker =>
      fail_if (negb (bool_decide (id ∈ mr_clients m))) (ErrNew "runtime: no SEMP resource client for broker") ;;!
      Ok broker
  end.

(** The guards of [ensure] and [ensureBootstrapEpoch]: the resources to manage. *)
Definition managed_resources (m : ManagedEpochResources) (g : ScalingGroup) (membership : list string) (epoch : Z)
    (resources : list EpochResourceIdentity) : result (list EpochResourceIdentity) :=
  fail_if (bool_decide (mr_clients m = ∅)) (ErrNew "runtime: managed epoch resource clients are required") ;;!
  validateManagedNamespace (cf_Namespace (mr_Config m)) ;;!
  let! expected := expectedEpochResources (cf_Namespace (mr_Config m)) g membership epoch in
  fail_if (negb (resourcesEqual resources expected))
    (ErrNew "runtime: epoch resources are not the exact managed identities") ;;!
  Ok expected.

Definition managed_queue (m : ManagedEpochResources) (g : ScalingGroup) (r : EpochResourceIdentity) (ingress : bool)
    : result (DataBroker * QueueSpec) :=
  let! broker := managed_broker m (er_BrokerID r) in
  let! spec := managedEpochQueueSpec g (db_MessageVPN broker) (er_QueueName r) ingress in
  Ok (broker, spec).

Definition ensure_resource (m : ManagedEpochResources) (g : ScalingGroup) (ingress : bool)
    (r : EpochResourceIdentity) : SM gerr :=
  queue <-! sm_ret (managed_queue m g r ingress) ;;
  let '(broker, spec) := queue in
  do! sm_wrap "runtime: ensure managed epoch queue" (EnsureQueue (er_BrokerID r) spec) ;;
  sm_wrap "runtime: ensure exact managed epoch subscription"
    (ensureExactQueueSubscription (er_BrokerID r) (db_MessageVPN broker) (er_QueueName r) (er_IngressTopic r)).

Definition ensure (m : ManagedEpochResources) (g : ScalingGroup) (membership : list string) (epoch : Z)
    (resources : list EpochResourceIdentity) (ingress : bool) : SM gerr :=
  expected <-! sm_ret (managed_resources m g membership epoch resources) ;;
  sm_each (ensure_resource m g ingress) expected.

(** A queue whose ingress is to be replayed may be in either state. *)
Definition adopt_resource (m : ManagedEpochResources) (g : ScalingGroup) (ingress : bool)
    (r : EpochResourceIdentity) : SM gerr :=
  queue <-! sm_ret (managed_queue m g r ingress) ;;
  let '(broker, spec) := queue in
  do! sm_catch (EnsureQueue (er_BrokerID r) spec)
        (fun _ => sm_wrap "runtime: verify managed epoch queue before ingress replay"
                    (EnsureQueue (er_BrokerID r) (spec <| qs_IngressEnabled := negb ingress |>))) ;;
  sm_wrap "runtime: ensure exact managed epoch subscription"
    (ensureExactQueueSubscription (er_BrokerID r) (db_MessageVPN broker) (er_QueueName r) (er_IngressTopic r)).

Definition replay_ingress (m : ManagedEpochResources) (ingress : bool) (r : EpochResourceIdentity) : SM gerr :=
  broker <-! sm_ret (managed_broker m (er_BrokerID r)) ;;
  sm_wrap "runtime: replay managed epoch ingress"
    (SetIngress (er_BrokerID r) (db_MessageVPN broker) (er_QueueName r) ingress).

Definition ensureBootstrapEpoch (m : ManagedEpochResources) (g : ScalingGroup) (membership : list string)
    (epoch : Z) (resources : list EpochResourceIdentity) (ingress reapplyIngress : bool) : SM gerr :=
  if negb reapplyIngress then ensure m g membership epoch resources ingress else
  expected <-! sm_ret (managed_resources m g membership epoch resources) ;;
  do! sm_each (adopt_resource m g ingress) expected ;;
  do! sm_each (replay_ingress m ingress) expected ;;
  ensure m g membership epoch resources ingress.

Definition EnsureBootstrap (m : ManagedEpochResources) (snapshot : MembershipSnapshot)
    (transition : option Controller.GroupState) : SM gerr :=
  match configuredGroup (cf_Groups (mr_Config m)) (ms_ScalingGroup snapshot) with
  | None => sm_ret (Err (ErrNew "runtime: current resources reference unknown group"))
  | Some g =>
      do! sm_ret (fail_if (negb (str_eqb (ms_Namespace snapshot) (cf_Namespace (mr_Config m))))
                    (ErrNew "runtime: membership namespace does not match managed namespace")) ;;
      let settled :=
        ensure m g (ms_CurrentMembership snapshot) (ms_Epoch snapshot) (ms_CurrentResources snapshot)
          (bool_decide (ms_Phase snapshot = CActive) || bool_decide (ms_Phase snapshot = CPrepare)) in
      match transition with
      | None => settled
      | Some t =>
          if gs_Completed t then settled else
          let s := gs_Spec t in
          let sourceIngress := gs_Unfenced t || negb (gs_FenceAttempted t) in
          let reapply := gs_Unfenced t || gs_FenceAttempted t in
          do! ensureBootstrapEpoch m g (brokerIDs (spec_Current s)) (spec_FromEpoch s)
                (spec_CurrentResources s) sourceIngress reapply ;;
          ensureBootstrapEpoch m g (brokerIDs (spec_Proposed s)) (spec_ToEpoch s)
            (spec_ProposedResources s) (gs_TargetIngressEnabled t) (gs_TargetIngressEnabled t)
      end
  end.

Definition Prepare (m : ManagedEpochResources) (s : TransitionSpec) : SM gerr :=
  match configuredGroup (cf_Groups (mr_Config m)) (spec_Group s) with
  | None => sm_ret (Err (ErrNew "runtime: proposed resources reference unknown group"))
  | Some g => ensure m g (brokerIDs (spec_Proposed s)) (spec_ToEpoch s) (spec_ProposedResources s) false
  end.

(** ** Cleanup after a transition *)
Definition samePhysicalQueue (left right : EpochResourceIdentity) : bool :=
  str_eqb (er_BrokerID left) (er_BrokerID right) && str_eqb (er_QueueName left) (er_QueueName right).

Definition snapshot_references (candidate : EpochResourceIdentity) (c : MembershipCatalog) (g : ScalingGroup) : bool :=
  match catalog_Get c (sg_ID g) with
  | None => true
  | Some snapshot =>
      existsb (fun r => samePhysicalQueue r candidate)
        (ms_CurrentResources snapshot ++ ms_ProposedResources snapshot)
  end.

Definition transition_references (cleanupGroup : string) (candidate : EpochResourceIdentity)
    (entry : string * Controller.GroupState) : bool :=
  let '(group, t) := entry in
  let s := gs_Spec t in
  if str_eqb group cleanupGroup && gs_Completed t && negb (gs_RollingBack t) &&
     (spec_FromEpoch s =? er_Epoch candidate) then false else
  existsb (fun r => samePhysicalQueue r candidate) (spec_CurrentResources s ++ spec_ProposedResources s).

Definition resourceReferenced (m : ManagedEpochResources) (state : PersistentState) (c : MembershipCatalog)
    (cleanupGroup : string) (candidate : EpochResourceIdentity) : bool :=
  existsb (snapshot_references candidate c) (cf_Groups (mr_Config m)) ||
  existsb (transition_references cleanupGroup candidate) (map_to_list (ps_Groups state)).

Definition completedTransitionForEvidence (state : PersistentState) (group : string) (e : CleanupEvidence)
    : option Controller.GroupState :=
  match ps_Groups state !! group with
  | None => None
  | Some t =>
      if gs_Completed t && negb (gs_RollingBack t) && bool_decide (is_Some (gs_CompletedAt t)) &&
         str_eqb (spec_ID (gs_Spec t)) (cle_TransitionID e) &&
         (spec_FromEpoch (gs_Spec t) =? cle_SourceEpoch e) && (spec_ToEpoch (gs_Spec t) =? cle_TargetEpoch e)
      then Some t else None
  end.

(** The checks of the evidence as a whole. *)
Definition evidence_check (t : Controller.GroupState) (e : CleanupEvidence) : gerr :=
  let s := gs_Spec t in
  fail_if (negb (str_eqb (cle_TransitionID e) (spec_ID s)) || negb (cle_SourceEpoch e =? spec_FromEpoch s) ||
           negb (cle_TargetEpoch e =? spec_ToEpoch s) || negb (cle_OldEpochFenced e) ||
           time_IsZero (cle_ZeroSince e) || time_IsZero (cle_DrainObservedAt e) ||
           time_IsZero (cle_FenceVerifiedAt e) || time_IsZero (cle_CommittedAt e))
    (ErrNew "runtime: cleanup evidence is incomplete or mismatched") ;;!
  fail_if (time_Before (cle_DrainObservedAt e) (cle_ZeroSince e) ||
           time_After (cle_FenceVerifiedAt e) (cle_CommittedAt e) ||
           time_After (cle_DrainObservedAt e) (cle_CommittedAt e) ||
           time_Before (default zeroTime (gs_CompletedAt t)) (cle_CommittedAt e))
    (ErrNew "runtime: cleanup evidence has invalid timing") ;;!
  fail_if ((spec_DrainGrace s <=? 0) || (time_Sub (cle_DrainObservedAt e) (cle_ZeroSince e) <? spec_DrainGrace s))
    (ErrNew "runtime: cleanup evidence does not prove the drain grace").

Definition source_key (broker queue : string) : string := (broker +:+ NUL +:+ queue)%string.

Definition add_source (e : CleanupEvidence) (sources : gmap string DrainSourceEvidence) (s : DrainSourceEvidence)
    : result (gmap string DrainSourceEvidence) :=
  let key := source_key (dse_Broker s) (dse_Queue s) in
  fail_if (str_empty (dse_Broker s) || str_empty (dse_Queue s) || time_IsZero (dse_ZeroSince s) ||
           time_IsZero (dse_ObservedAt s) || time_Before (dse_ObservedAt s) (dse_ZeroSince s) ||
           time_After (dse_ObservedAt s) (cle_CommittedAt e))
    (ErrNew "runtime: cleanup source evidence is invalid") ;;!
  fail_if (bool_decide (is_Some (sources !! key))) (ErrNew "runtime: duplicate cleanup source evidence") ;;!
  Ok (<[key := s]> sources).

(** One queue of the source epoch. *)
Definition cleanup_resource (m : ManagedEpochResources) (state : PersistentState) (c : MembershipCatalog)
    (t : Controller.GroupState) (e : CleanupEvidence) (sources : gmap string DrainSourceEvidence)
    (r : EpochResourceIdentity) : SM gerr :=
  let s := gs_Spec t in
  do! sm_ret (fail_if (negb (er_Epoch r =? cle_SourceEpoch e))
                (ErrNew "runtime: cleanup resource has mismatched epoch")) ;;
  do! sm_ret (match sources !! source_key (er_BrokerID r) (er_QueueName r) with
              | Some src =>
                  fail_if (time_Sub (dse_ObservedAt src) (dse_ZeroSince src) <? spec_DrainGrace s)
                    (ErrNew "runtime: cleanup resource lacks drain evidence")
              | None => Err (ErrNew "runtime: cleanup resource lacks drain evidence")
              end) ;;
  if resourceReferenced m state c (spec_Group s) r then sm_ret nil_err else
  broker <-! sm_ret (managed_broker m (er_BrokerID r)) ;;
  do! sm_wrap "runtime: delete exact old epoch queue"
        (DeleteQueue (er_BrokerID r) (db_MessageVPN broker) (er_QueueName r)) ;;
  sm_wrap "runtime: verify exact old epoch queue absent"
    (WaitAbsent (er_BrokerID r) (db_MessageVPN broker) (er_QueueName r)).

Definition cleanupTransition (m : ManagedEpochResources) (state : PersistentState) (c : MembershipCatalog)
    (t : Controller.GroupState) (e : CleanupEvidence) : SM gerr :=
  do! sm_ret (evidence_check t e) ;;
  sources <-! sm_ret (fold_result (add_source e) ∅ (cle_Sources e)) ;;
  do! sm_ret (fail_if (negb (bool_decide (size sources = length (spec_CurrentResources (gs_Spec t)))))
                (ErrNew "runtime: cleanup evidence is missing exact source queues")) ;;
  sm_each (cleanup_resource m state c t e sources) (spec_CurrentResources (gs_Spec t)).

(** Every record of the group is tried; the first error is returned. *)
Fixpoint cleanup_records (m : ManagedEpochResources) (state : PersistentState) (c : MembershipCatalog)
    (group : string) (records : list CleanupEvidence) : SM gerr :=
  match records with
  | [] => sm_ret nil_err
  | e :: rest =>
      match completedTransitionForEvidence state group e with
      | None => cleanup_records m state c group rest
      | Some t => fun tr =>
          let '(tr, r) := cleanupTransition m state c t e tr in
          let '(tr, r') := cleanup_records m state c group rest tr in
          (tr, match r with Ok _ => r' | Err e => Err e end)
      end
  end.

Definition cleanupCompletedGroup (m : ManagedEpochResources) (state : PersistentState) (c : MembershipCatalog)
    (group : string) : SM gerr :=
  do! sm_ret (validateManagedNamespace (cf_Namespace (mr_Config m))) ;;
  cleanup_records m state c group (default [] (ps_CleanupEvidence state !! group)).
End Resources.

(** ** SEMPDrainMonitor *)
Record QueueStatus := mkQueueStatus {
  qt_MessageVPN : string;
  qt_Name : string;
  qt_SpooledMessages : Z;
  qt_UnackedMessages : Z;
  qt_InProgressAckMessages : Z;
}.

Record drainResource := mkDrainResource { dr_broker : string; dr_queue : string }.

Definition add_drain_resource (s : TransitionSpec) (acc : gset string * list drainResource)
    (r : EpochResourceIdentity) : result (gset string * list drainResource) :=
  let '(seen, resources) := acc in
  fail_if (negb (er_Epoch r =? spec_FromEpoch s)) (ErrNew "resource has another epoch") ;;!
  fail_if (negb (bool_decide (er_BrokerID r ∈ (b_ID <$> spec_Current s))))
    (ErrNew "resource references non-current broker") ;;!
  let key := source_key (er_BrokerID r) (er_QueueName r) in
  fail_if (bool_decide (key ∈ seen)) (ErrNew "duplicate drain source") ;;!
  Ok ({[key]} ∪ seen, resources ++ [mkDrainResource (er_BrokerID r) (er_QueueName r)]).

Definition exactDrainResources (s : TransitionSpec) : result (list drainResource) :=
  fail_if (bool_decide (spec_CurrentResources s = [])) (ErrNew "current epoch resources are required") ;;!
  let! acc := fold_result (add_drain_resource s) (∅, []) (spec_CurrentResources s) in
  Ok acc.2.

(** The monitor, what SEMP answers to the [n]-th read, and the clock. *)
Record DrainMonitor := mkDrainMonitor {
  dm_clients : gset string;
  dm_MessageVPNs : gmap string string;
  dm_Participant : string;
  dm_monitor : Z -> string -> string -> string -> result QueueStatus;
  dm_now : Z -> Time;
}.

Section Monitor.
Context {net_url : NetURL} {sha : Sha256} (m : DrainMonitor).

(** The sequence number counts the observations of this monitor. *)
Definition observationIdentity (sample : Telemetry) (sequence : Z) : Time * string :=
  let observedAt := dm_now m sequence in
  let source := sha256_Sum256 (bytes_of (source_key (tel_SourceBroker sample) (tel_SourceQueue sample))) in
  (observedAt,
   (tel_Group sample +:+ "/" +:+ tel_TransitionID sample +:+ "/drain/" +:+ hex_EncodeToString (take 16 source) +:+
    "/" +:+ pretty (UnixNano observedAt) +:+ "/" +:+ FormatUint sequence)%string).

Definition unknown_count : Count := mkCount false 0.

Definition blank_sample (s : TransitionSpec) (r : drainResource) : Telemetry :=
  mkTelemetry "" (spec_Namespace s) (spec_Group s) (spec_ID s) (spec_FromEpoch s) (dm_Participant m) RoleObserver
    (dr_broker r) (dr_queue r) zeroTime unknown_count unknown_count unknown_count.

(** [read]: the sample, the next sequence number, and whether the read failed. *)
Definition drain_read (s : TransitionSpec) (r : drainResource) (sequence : Z) : Telemetry * gerr :=
  let sample := blank_sample s r in
  let vpn := default ""%string (dm_MessageVPNs m !! dr_broker r) in
  let '(observedAt, id) := observationIdentity sample sequence in
  let sample := sample <| tel_ObservedAt := observedAt |> <| tel_MessageID := id |> in
  if negb (bool_decide (dr_broker r ∈ dm_clients m)) || str_empty vpn
  then (sample, Err (ErrNew "no SEMP drain target for broker")) else
  match dm_monitor m sequence (dr_broker r) vpn (dr_queue r) with
  | Err e => (sample, Err e)
  | Ok status =>
      if negb (str_eqb (qt_MessageVPN status) vpn) || negb (str_eqb (qt_Name status) (dr_queue r))
      then (sample, Err (ErrNew "SEMP monitor returned mismatched identity")) else
      if max_u64 - qt_InProgressAckMessages status <? qt_UnackedMessages status
      then (sample, Err (ErrNew "SEMP unacknowledged message count overflow")) else
      (sample <| tel_Queued := mkCount true (qt_SpooledMessages status) |>
              <| tel_Stored := mkCount true (qt_SpooledMessages status) |>
              <| tel_Unacked := mkCount true (qt_UnackedMessages status + qt_InProgressAckMessages status) |>,
       nil_err)
  end.

Context (options : Options) (cenv : Env).
#[local] Open Scope st_scope.

Definition observationBecameStale (transitionID : string) (state : option Controller.GroupState) : bool :=
  match state with
  | None => true
  | Some g =>
      gs_Completed g || gs_RollingBack g || negb (bool_decide (gs_Phase g = PhaseDrain)) ||
      negb (gs_DrainPublished g) || negb (str_eqb (spec_ID (gs_Spec g)) transitionID)
  end.

(** The loop of [observeGroup]: the next sequence number, whether a trigger is
    sent, and the first error. *)
Fixpoint observe_loop (group : string) (s : TransitionSpec) (resources : list drainResource) (sequence : Z)
    (observed : bool) (result_ : gerr) : ST (Z * bool * gerr) :=
  match resources with
  | [] => ret (sequence, observed, result_)
  | r :: rest =>
      let sequence := u64 (sequence + 1) in
      let '(sample, _) := drain_read s r sequence in
      err <~ Observe options cenv sample ;;
      match err with
      | Ok _ => observe_loop group s rest sequence true result_
      | Err e =>
          state <~ groupState cenv group ;;
          if observationBecameStale (spec_ID s) state then ret (sequence, false, result_) else
          observe_loop group s rest sequence observed
            (match result_ with Ok _ => Err (ErrWrap "runtime: observe drain source" e) | Err _ => result_ end)
      end
  end.

Definition observeGroup (group : string) (s : TransitionSpec) (sequence : Z) : ST (Z * bool * gerr) :=
  match exactDrainResources s with
  | Err e => ret (sequence, false, Err (ErrWrap "runtime: resolve drain resources" e))
  | Ok resources => observe_loop group s resources sequence false nil_err
  end.

Definition drain_monitored (g : Controller.GroupState) : bool :=
  negb (gs_Completed g || gs_RollingBack g || negb (bool_decide (gs_Phase g = PhaseDrain)) ||
        negb (gs_DrainPublished g)).
End Monitor.

(** ** The queues of Broker 0 the controller process serves *)
Section Bindings.
Context {net_url : NetURL} {sha : Sha256}.

Definition inbox_names (names : ManagedNames) (group : string) (role : ParticipantRole) (participant : string)
    (kind : Kind) : result (string * string) :=
  match kind with
  | KindRegistration =>
      let! queue := RegistrationQueueFor names group role participant in
      let! topic := RegistrationTopicFor names group role participant in
      Ok (queue, topic)
  | KindAcknowledgement =>
      let! queue := AcknowledgementQueueFor names group role participant in
      let! topic := AcknowledgementTopicFor names group role participant in
      Ok (queue, topic)
  | KindTelemetry =>
      let! queue := TelemetryQueueFor names group role participant in
      let! topic := TelemetryTopicFor names group role participant in
      Ok (queue, topic)
  | _ => Err (ErrNew "runtime: unsupported controller inbox kind")
  end.

Definition inbox_binding (cfg : Config) (names : ManagedNames)
    (entry : string * ParticipantRole * string * Kind) : result ParticipantQueue :=
  let '(group, role, participant, kind) := entry in
  match lookup_credential cfg participant with
  | None => Err (ErrNew "runtime: no Broker 0 credential for controller inbox participant")
  | Some credential =>
      let! qt := inbox_names names group role participant kind in
      Ok (mkParticipantQueue participant (pcc_Principal credential) role group kind qt.1 qt.2)
  end.

(** What [controllerInboxBindings] adds for one group, in order. *)
Definition inbox_entries (cfg : Config) (g : ScalingGroup) : list (string * ParticipantRole * string * Kind) :=
  flat_map (fun p => [(sg_ID g, RolePublisher, p, KindRegistration); (sg_ID g, RolePublisher, p, KindAcknowledgement)])
    (sg_RequiredPublishers g) ++
  flat_map (fun p => [(sg_ID g, RoleSubscriber, p, KindRegistration); (sg_ID g, RoleSubscriber, p, KindAcknowledgement)])
    (SubscriberIdentities g) ++
  ((fun p => (sg_ID g, RoleBroker, p, KindTelemetry)) <$> rt_Brokers (cf_Runtime cfg)) ++
  ((fun p => (sg_ID g, RoleObserver, p, KindTelemetry)) <$> rt_Observers (cf_Runtime cfg)).

Definition collect {A B} (f : A -> result B) (l : list A) : result (list B) :=
  fold_result (fun acc a => let! b := f a in Ok (acc ++ [b])) [] l.

Definition controllerInboxBindings (cfg : Config) (names : ManagedNames) : result (list ParticipantQueue) :=
  collect (inbox_binding cfg names) (flat_map (inbox_entries cfg) (cf_Groups cfg)).

(** [first(values)]. *)
Definition first (values : list string) : string := default ""%string (head values).

(** The snapshot request queues [AssembleController] binds for one group. *)
Definition snapshot_scopes (g : ScalingGroup) : list (ParticipantRole * string) :=
  List.filter (fun scoped => negb (str_empty scoped.2))
    [(RolePublisher, first (sg_RequiredPublishers g)); (RoleSubscriber, first (SubscriberIdentities g))].

Definition snapshot_binding (names : ManagedNames) (entry : string * (ParticipantRole * string))
    : result ParticipantQueue :=
  let '(group, (role, participant)) := entry in
  let! queue := SnapshotRequestQueue names group role participant in
  let! topic := SnapshotRequestTopic names group role participant in
  Ok (mkParticipantQueue participant participant role group KindSnapshotRequest queue topic).

Definition snapshotRequestBindings (cfg : Config) (names : ManagedNames) : result (list ParticipantQueue) :=
  collect (snapshot_binding names)
    (flat_map (fun g => (fun scoped => (sg_ID g, scoped)) <$> snapshot_scopes g) (cf_Groups cfg)).
End Bindings.
