(* ===== verification/RuntimeTheorems.v ===== *)
(** * Theorems on the controller process

    Expired transitions in the reconcile loop, the handshake between the
    commands a phase publishes and the acknowledgements the controller accepts,
    the transitions that recommendations start, scale-in proofs, the cleanup of
    old queues and the snapshot requests the process serves. *)

From S2P Require Import Prelude Float64 Outbox Customer Snapshot Messages Naming Wire ControllerTypes Policy PolicyAggregate PolicyEngine Config Broker0 Broker0Inbox Broker0Command Controller ControllerOpen ControllerSpec ControllerSnapshots ControllerInv ControllerRun Broker0Theorems Runtime ScaleIn RuntimeResources.
From Stdlib Require Import ZArith Lia.
From stdpp Require Import base gmap strings numbers option fin_maps relations list.
#[local] Open Scope Z_scope.

(** ** Expired transitions *)
Section Expired.
Context {net_url : NetURL} {sha : Sha256} {adm : Admission} (options : Options) (env : Env).

(** [Put] lets only valid snapshots into the catalog. *)
Definition catalog_ok (c : MembershipCatalog) : Prop :=
  forall group s, catalog_Get c group = Some s -> Validate s = nil_err.

Lemma catalog_ok_empty : catalog_ok ∅.
Proof. intros group s. unfold catalog_Get. by rewrite lookup_empty. Qed.

Lemma catalog_ok_Put snapshot c c' : catalog_ok c -> catalog_Put snapshot c = Ok c' -> catalog_ok c'.
Proof.
  unfold catalog_Put. intros Hc H. seq_ok. simplify_eq. intros group s. unfold catalog_Get.
  intros [[<- <-]|[_ ?]]%lookup_insert_Some; [done|by eapply Hc].
Qed.

(** A valid snapshot describes its brokers. *)
Lemma valid_has_brokers s : Validate s = nil_err -> ms_CurrentBrokers s <> [].
Proof.
  unfold Validate, validate_common, validateMembership, validateBrokerDescriptors. intros H. seq_ok.
  repeat match goal with H : fail_if _ _ = nil_err |- _ => apply fail_if_ok in H end.
  intros Hb. destruct (ms_CurrentMembership s); [done|]. by rewrite Hb in *.
Qed.

Lemma membershipSnapshotsEqual_brokers l r :
  Runtime.membershipSnapshotsEqual l r = true -> ms_CurrentBrokers l = ms_CurrentBrokers r.
Proof. unfold Runtime.membershipSnapshotsEqual. intros H. by to_prop. Qed.

(** After PREPARE the expected snapshot describes no broker. *)
Lemma expected_after_prepare g e :
  gs_PreparePublished g = true -> expectedPrecommitSnapshot (Some g) = Some e -> ms_CurrentBrokers e = [].
Proof.
  intros Hp. cbn. rewrite Hp, andb_false_r.
  destruct (_ || gs_ActivatePublished g); [done|]. destruct (precommit_phase g) as [[]|]; by intros [= <-].
Qed.

Lemma expected_not_retained c group g retained e :
  catalog_ok c -> gs_PreparePublished g = true -> catalog_Get c group = Some retained ->
  expectedPrecommitSnapshot (Some g) = Some e -> Runtime.membershipSnapshotsEqual retained e = false.
Proof.
  intros Hc Hp Hr He. apply not_true_is_false. intros Heq%membershipSnapshotsEqual_brokers.
  apply Hc, valid_has_brokers in Hr. apply Hr. rewrite Heq. by eapply expected_after_prepare.
Qed.

Lemma ack_ext_fields g g' :
  ack_ext g g' -> gs_PreparePublished g' = gs_PreparePublished g /\ gs_PhaseDeadline g' = gs_PhaseDeadline g /\
    gs_Phase g' = gs_Phase g /\ gs_Completed g' = gs_Completed g /\ gs_RollingBack g' = gs_RollingBack g.
Proof. by intros (a & -> & _)%ack_ext_shape. Qed.

Lemma wp_now_env w0 (Q : Time -> World -> Prop) w :
  good options w0 w ->
  (forall w' n, good options w0 w' -> framed w w' -> Q (env_now env n) w') ->
  wp (now env) Q w.
Proof.
  intros Hg HQ. unfold wp, now, bind, get_tick. cbn. apply HQ; [by apply good_emit|apply framed_emit].
Qed.

(** The transition is past its deadline before COMMIT. *)
Record past_deadline (g : GroupState) : Prop := {
  ex_prepared : gs_PreparePublished g = true;
  ex_live : gs_Completed g = false /\ gs_RollingBack g = false;
  ex_phase : gs_Phase g <> PhaseCommit /\ gs_Phase g <> PhaseActivate;
  ex_deadline : gs_PhaseDeadline g <> 0;
  ex_late : forall n, gs_PhaseDeadline g < env_now env n;
}.

Lemma past_deadline_ext g g' : ack_ext g g' -> past_deadline g -> past_deadline g'.
Proof.
  intros He [Hp [Hc Hr] [H1 H2] Hd Hl]. destruct (ack_ext_fields _ _ He) as (E1 & E2 & E3 & E4 & E5).
  by constructor; rewrite ?E1, ?E2, ?E3, ?E4, ?E5.
Qed.

Lemma at_past_deadline w w' group g g' :
  past_deadline g -> at_group w group g -> framed w w' -> ps_Groups (w_mem w') !! group = Some g' ->
  past_deadline g' /\ ack_ext g g'.
Proof.
  intros Hx Ha Hf Hl. destruct (at_framed _ _ _ _ Ha Hf) as (g2 & Hl2 & He). simplify_eq.
  split; [by eapply past_deadline_ext|done].
Qed.

Lemma wp_rollback_refused o c w0 w group g (Q : bool -> World -> Prop) :
  good options w0 w -> from_option catalog_ok True c -> past_deadline g -> at_group w group g ->
  (forall w', good options w0 w' -> at_group w' group g -> Q false w') ->
  wp (requestSafeTimeoutRollback options env o c group) Q w.
Proof.
  intros Hg Hc Hx Ha HQ. unfold requestSafeTimeoutRollback. destruct c as [c|]; [|by apply wp_ret, HQ].
  apply wp_bind, (wp_groupState options env w0); [done|]. intros w1 Hg1 Hf1.
  assert (Ha1 : at_group w1 group g) by by eapply at_framed.
  destruct (ps_Groups (w_mem w1) !! group) as [g1|] eqn:Hl; [|by apply wp_ret, HQ].
  destruct (at_past_deadline _ _ _ _ _ Hx Ha Hf1 Hl) as [Hx1 _].
  destruct (catalog_Get c group) as [retained|] eqn:Hr; [|by apply wp_ret, HQ].
  destruct (expectedPrecommitSnapshot (Some g1)) as [e|] eqn:He; [|by apply wp_ret, HQ].
  rewrite (expected_not_retained c group g1 retained e); [|done|apply Hx1|done..].
  by apply wp_ret, HQ.
Qed.

(** Past the deadline [Reconcile] does nothing but report it. *)
Lemma wp_Reconcile_expired w0 w group g (Q : outcome -> World -> Prop) :
  good options w0 w -> past_deadline g -> at_group w group g ->
  (forall w', good options w0 w' -> at_group w' group g ->
     Q (false, Err (ErrWrap "deadline" ErrPhaseDeadline)) w') ->
  wp (Reconcile options env group) Q w.
Proof.
  intros Hg Hx Ha HQ. unfold Reconcile. apply wp_bind, (wp_groupState options env w0); [done|]. intros w1 Hg1 Hf1.
  assert (Ha1 : at_group w1 group g) by by eapply at_framed. destruct Ha1 as (g1 & Hl & He1). rewrite Hl.
  destruct (past_deadline_ext _ _ He1 Hx) as [Hp [Hc Hr] [H1 H2] Hdl Hlate]. rewrite Hc, Hr.
  unfold time_IsZero. rewrite (proj2 (Z.eqb_neq _ _) Hdl).
  apply wp_bind, (wp_now_env w0); [done|]. intros w2 n Hg2 Hf2.
  unfold time_After. rewrite (proj2 (Z.ltb_lt _ _) (Hlate n)). rewrite !bool_decide_eq_false_2 by done.
  apply wp_ret, HQ; [done|]. eapply at_framed; [|done]. by exists g1.
Qed.

(** Turns of the loop, each with the catalog it finds. *)
Fixpoint turns (o : ControllerOptions) (group : string) (backoff : Duration)
    (catalogs : list (option MembershipCatalog)) (w : World) : World * list turn_end :=
  match catalogs with
  | [] => (w, [])
  | c :: rest =>
      let '(w, (t, backoff)) := group_turn options env o c group backoff w in
      let '(w, ts) := turns o group backoff rest w in (w, t :: ts)
  end.

Lemma turn_past_deadline o c group backoff w g :
  psinv options (w_mem w) -> from_option catalog_ok True c -> past_deadline g -> at_group w group g ->
  exists w', group_turn options env o c group backoff w = (w', (TurnAfter backoff, double_backoff o backoff)) /\
    psinv options (w_mem w') /\ at_group w' group g.
Proof.
  intros Hi Hc Hx Ha. apply good_start in Hi as Hg.
  assert (Hwp : wp (group_turn options env o c group backoff)
    (fun a w' => a = (TurnAfter backoff, double_backoff o backoff) /\ good options w w' /\ at_group w' group g) w).
  { unfold group_turn. apply wp_bind, (wp_Reconcile_expired w w group g); [done..|]. intros w1 Hg1 Ha1. cbn.
    apply wp_bind, (wp_rollback_refused o c w w1 group g); [done..|]. intros w2 Hg2 Ha2. by apply wp_ret. }
  unfold wp in Hwp. destruct (group_turn options env o c group backoff w) as [w' a]. cbn in Hwp.
  destruct Hwp as (-> & Hg' & Ha'). exists w'. split_and!; [done|by eapply good_psinv|done].
Qed.

(** C35: a transition that runs into its phase deadline after PREPARE was published
    is never rolled back.  The process asks for a rollback only when the retained
    snapshot equals the one [expectedPrecommitSnapshot] builds, and that one leaves
    the broker descriptors out, which every valid snapshot has.  So from then on
    every turn of the reconcile loop, whatever the catalog, the store and other
    goroutines do, ends in a delayed retry and leaves the transition as it is but
    for acknowledgements; the group stays paused or draining. *)
Theorem expired_transition_never_rolls_back o group backoff catalogs w g :
  psinv options (w_mem w) -> Forall (from_option catalog_ok True) catalogs ->
  ps_Groups (w_mem w) !! group = Some g -> past_deadline g ->
  let '(w', ends) := turns o group backoff catalogs w in
  (exists g', ps_Groups (w_mem w') !! group = Some g' /\ ack_ext g g') /\
  Forall (fun t => exists d, t = TurnAfter d) ends.
Proof.
  intros Hi Hc Hl Hx. apply at_self in Hl as Ha. clear Hl. revert backoff w Hi Ha.
  induction Hc as [|c rest Hc _ IH]; intros backoff w Hi Ha; cbn [turns].
  { split; [by destruct Ha as (g' & ? & ?); exists g'|constructor]. }
  destruct (turn_past_deadline o c group backoff w g Hi Hc Hx Ha) as (w1 & -> & Hi1 & Ha1).
  specialize (IH (double_backoff o backoff) w1 Hi1 Ha1).
  destruct (turns o group (double_backoff o backoff) rest w1) as [w2 ts].
  destruct IH as [H1 H2]. split; [done|]. constructor; [by eexists|done].
Qed.
End Expired.

(** ** Commands and acknowledgements of a phase *)
Lemma phase_command_ids_lookup s p rs r :
  NoDup (participant_names rs) -> r ∈ rs -> phase_command_ids s p rs !! pr_Participant r = Some (commandID s p r).
Proof.
  induction rs as [|r' rs IH] using rev_ind; intros Hn Hin; [by apply elem_of_nil in Hin|].
  rewrite phase_command_ids_snoc. unfold participant_names in Hn. rewrite fmap_app in Hn.
  apply NoDup_app in Hn as (Hn & Hout & _).
  apply elem_of_app in Hin as [Hin| ->%list_elem_of_singleton]; [|by rewrite lookup_insert_eq].
  rewrite lookup_insert_ne; [by apply IH|]. intros Heq. apply (Hout (pr_Participant r)).
  - by apply list_elem_of_fmap_2.
  - rewrite <- Heq. left.
Qed.

Lemma phase_command_ids_size s p rs :
  NoDup (participant_names rs) -> size (phase_command_ids s p rs) = length rs.
Proof.
  induction rs as [|r rs IH] using rev_ind; intros Hn; [done|].
  unfold participant_names in Hn. rewrite fmap_app in Hn. apply NoDup_app in Hn as (Hn & Hout & _).
  rewrite phase_command_ids_snoc, map_size_insert_None, IH, length_app; [cbn; lia|done|].
  apply eq_None_not_Some. rewrite phase_command_ids_dom. intros Hin. by apply (Hout _ Hin); left.
Qed.

Lemma requirementFor_unique s p r :
  NoDup (participant_names (requirements_of s p)) -> r ∈ requirements_of s p ->
  requirementFor s p (pr_Participant r) = Some r.
Proof.
  unfold requirementFor. induction (requirements_of s p) as [|r' rs IH]; intros Hn Hin; [by apply elem_of_nil in Hin|].
  apply NoDup_cons in Hn as [Hout Hn]. cbn. apply elem_of_cons in Hin as [->|Hin]; [by rewrite str_eqb_refl|].
  destruct (str_eqb (pr_Participant r') (pr_Participant r)) eqn:E; [|by apply IH].
  apply str_eqb_true in E. destruct Hout. rewrite E. by apply list_elem_of_fmap_2.
Qed.

Section Handshake.
Context {net_url : NetURL}.

Lemma NoDup_requirements s p : spec_normal s -> NoDup (participant_names (requirements_of s p)).
Proof.
  intros [_ Hr _]. unfold requirements_of. destruct (spec_RoleRequirements s !! p) as [rs|] eqn:E; [|constructor].
  apply normalizedRole_ok in Hr as [_ Hr]. apply Hr, check_requirements_ok in E. by destruct E.
Qed.

Lemma commandOperationID_issued g phase r :
  commandOperationID (control_update g phase false) phase r = commandID (gs_Spec g) phase r.
Proof. done. Qed.

(** What the controller makes of the acknowledgement of one command, delivered on
    the command's own participant queue: [Acknowledge] drops [errNoStateChange]. *)
Definition acknowledge_command (observed : CommandEnvelope -> Time) (g : GroupState) (m : CommandEnvelope)
    : result GroupState :=
  let! a := acknowledgementForController (command_acknowledgement m (observed m)) in
  match ack_group (mkAcknowledgement (ack_CommandID a) (ack_Namespace a) (ack_Group a) (ack_TransitionID a)
          (ack_Epoch a) (ack_Phase a) (ack_Participant a) (ce_Participant m) (ack_Role a) (ack_ObservedAt a)) g with
  | Ok g' => Ok g'
  | Err e => if errors_Is e errNoStateChange then Ok g else Err e
  end.

(** A phase whose commands are durably recorded, on its way. *)
Record in_phase (g : GroupState) (phase : Phase) : Prop := {
  ip_normal : spec_normal (gs_Spec g);
  ip_live : gs_Completed g = false /\ gs_RollingBack g = false;
  ip_phase : gs_Phase g = phase;
  ip_commanded : commanded phase;
  ip_issued : commandsIssued g phase = true;
  ip_typed : Forall (fun r => pr_Role r <> RoleNone) (requirements_of (gs_Spec g) phase);
}.

Lemma in_phase_issued g phase : in_phase g phase -> issued_for g phase = expected_for (gs_Spec g) phase.
Proof. intros H. apply ip_issued in H. unfold commandsIssued in H. by to_prop. Qed.

Lemma in_phase_ext g g' phase : ack_ext g g' -> in_phase g phase -> in_phase g' phase.
Proof. intros (a & -> & _)%ack_ext_shape [? ? ? ? ? ?]. by split. Qed.

Lemma wire_phase phase :
  commanded phase -> exists wire, commandPhases phase = Ok (phase, wire) /\ controllerPhase wire = Ok phase.
Proof. intros [->|[->|[->| ->]]]; by eexists. Qed.

Lemma snapshot_namespace s phase :
  commanded phase -> ms_Namespace (controlSnapshot s phase false) = spec_Namespace s.
Proof. by intros [->|[->|[->| ->]]]. Qed.

(** [g0] is the group at the publication. *)
Lemma acknowledge_command_ok observed g0 g phase wire issuedAt deadline r :
  gs_Spec g0 = gs_Spec g ->
  in_phase g phase -> controllerPhase wire = Ok phase -> r ∈ requirements_of (gs_Spec g) phase ->
  exists g', acknowledge_command observed g (phase_command (control_update g0 phase false) phase wire issuedAt deadline r)
               = Ok g' /\ ack_ext g g' /\ is_Some (acks_for g' phase !! pr_Participant r).
Proof.
  intros Hg0 H Hw Hin. pose proof (NoDup_requirements _ phase (ip_normal _ _ H)) as Hn.
  unfold acknowledge_command, acknowledgementForController. cbn [ae_Phase command_acknowledgement phase_command ce_Phase].
  rewrite Hw. cbv beta iota.
  match goal with |- context [ack_group ?x g] => set (a := x) end.
  assert (Hk : issued_for g phase !! pr_Participant r = Some (commandID (gs_Spec g) phase r)).
  { rewrite in_phase_issued, expected_for_eq by done. by apply phase_command_ids_lookup. }
  destruct (ack_group a g) as [g'|e] eqn:Hack.
  - exists g'. split_and!; [done|by apply rtc_once; exists a|]. apply ack_group_records in Hack. by eexists.
  - revert Hack. unfold ack_group. subst a.
    cbn [ack_CommandID ack_Namespace ack_Group ack_TransitionID ack_Epoch ack_Phase ack_Participant
         ack_AuthenticatedParticipant ack_Role ack_ObservedAt ae_CommandID ae_Namespace ae_Group ae_TransitionID
         ae_Epoch ae_Participant ae_Role ae_ObservedAt command_acknowledgement phase_command ce_MessageID
         ce_Namespace ce_Group ce_TransitionID ce_Epoch ce_Participant ce_Role cu_Snapshot cu_Group cu_TransitionID
         cu_ToEpoch control_update].
    rewrite commandOperationID_issued, Hg0, snapshot_namespace by apply H.
    destruct H as [Hsn [-> ->] -> Hc -> Ht]. rewrite !str_eqb_refl, Z.eqb_refl, bool_decide_eq_true_2 by done.
    cbn [negb orb]. rewrite (requirementFor_unique _ _ _ Hn Hin).
    rewrite Forall_forall in Ht. rewrite bool_decide_eq_false_2 by by apply Ht.
    rewrite Hk. cbn [from_option id default]. rewrite str_eqb_refl, bool_decide_eq_true_2 by done. cbn [negb orb].
    destruct (acks_for g phase !! pr_Participant r) eqn:E; [|done].
    destruct (negb _); intros [= <-]. exists g. cbn. split_and!; [done|constructor|by rewrite E].
Qed.

Lemma acknowledge_commands_ok observed phase wire issuedAt deadline g0 rs g :
  gs_Spec g0 = gs_Spec g -> in_phase g phase -> controllerPhase wire = Ok phase ->
  (forall r, r ∈ rs -> r ∈ requirements_of (gs_Spec g) phase) ->
  exists g', fold_result (acknowledge_command observed) g
               (phase_command (control_update g0 phase false) phase wire issuedAt deadline <$> rs) = Ok g' /\
    ack_ext g g' /\ forall r, r ∈ rs -> is_Some (acks_for g' phase !! pr_Participant r).
Proof.
  revert g. induction rs as [|r rs IH]; intros g Hs Hi Hw Hin.
  { exists g. split_and!; [done|constructor|by intros ? ?%elem_of_nil]. }
  destruct (acknowledge_command_ok observed g0 g phase wire issuedAt deadline r) as (g1 & E1 & He1 & Hr); [done..|apply Hin; left|].
  destruct (ack_ext_shape _ _ He1) as (a & Hg1 & _).
  destruct (IH g1) as (g' & E' & He' & Hrs).
  { by rewrite Hg1. }
  { by eapply in_phase_ext. }
  { done. }
  { intros r' Hr'. rewrite Hg1. apply Hin. by right. }
  exists g'. cbn [fmap list_fmap fold_result]. rewrite E1. split_and!; [done|by etrans|].
  intros r' [->|Hr']%elem_of_cons; [|by apply Hrs].
  destruct (ack_ext_shape _ _ He') as (_ & _ & Hgrow). by apply Hgrow.
Qed.

Lemma command_intent_ok g phase requirements :
  in_phase g phase -> requirements ≡ₚ requirements_of (gs_Spec g) phase ->
  command_intent (control_update g phase false) phase requirements = nil_err.
Proof.
  intros Hi Hp. pose proof (NoDup_requirements _ phase (ip_normal _ _ Hi)) as Hn.
  unfold command_intent. rewrite (proj2 (fail_if_ok _ _)).
  2:{ apply bool_decide_eq_false_2. intros ->. apply Permutation_nil in Hp.
      by apply (requirements_nonempty (gs_Spec g) phase); [apply Hi..|]. }
  cbn [cu_Rollback control_update cu_IssuedCommandIDs].
  rewrite (in_phase_issued _ _ Hi), expected_for_eq, phase_command_ids_size by done.
  rewrite (bool_decide_eq_true_2 (_ = length requirements)) by by apply Permutation_length.
  apply for_each_ok, Forall_forall. intros r Hr. rewrite Hp in Hr. apply fail_if_ok.
  rewrite (phase_command_ids_lookup _ _ _ _ Hn Hr). cbn [from_option id default].
  by rewrite commandOperationID_issued, str_eqb_refl.
Qed.

Lemma publish_commands_ok env commands :
  (forall m, ne_command env m = nil_err) ->
  publish_commands env commands = ((fun m => PubCommand m nil_err) <$> commands, nil_err).
Proof. intros He. induction commands as [|m rest IH]; cbn; [done|]. by rewrite He, IH. Qed.

End Handshake.

(** ** Cleanup of the source epoch *)

(** The calls a program adds to the trace. *)
Definition emits {A} (P : semp_event -> Prop) (m : SM A) : Prop :=
  forall tr, exists new, (m tr).1 = tr ++ new /\ Forall P new.

Lemma emits_ret {A} P (a : A) : emits P (sm_ret a).
Proof. intros tr. exists []. by rewrite app_nil_r. Qed.
Lemma emits_call {A} P answer (event : A -> semp_event) : (forall a, P (event a)) -> emits P (sm_call answer event).
Proof. intros HP tr. eexists. split; [done|]. by constructor. Qed.
Lemma emits_wrap {A} P msg (m : SM (result A)) : emits P m -> emits P (sm_wrap msg m).
Proof. intros Hm tr. destruct (Hm tr) as (new & E & HP). exists new. unfold sm_wrap. by destruct (m tr). Qed.

Lemma emits_try {A B} P (m : SM (result A)) (k : A -> SM (result B)) :
  emits P m -> (forall tr a, (m tr).2 = Ok a -> emits P (k a)) -> emits P (sm_try m k).
Proof.
  intros Hm Hk tr. destruct (Hm tr) as (new & E & HP). unfold sm_try. specialize (Hk tr).
  destruct (m tr) as [tr' [a|e]]; cbn in E |- *; subst tr'; [|by exists new].
  destruct (Hk a eq_refl (tr ++ new)) as (more & E' & HP'). exists (new ++ more).
  rewrite E', app_assoc. split; [done|]. by apply Forall_app.
Qed.

(** A guard: what it returned is known in the rest. *)
Lemma emits_guard {A B} P (r : result A) (k : A -> SM (result B)) :
  (forall a, r = Ok a -> emits P (k a)) -> emits P (sm_try (sm_ret r) k).
Proof. intros Hk. apply emits_try; [apply emits_ret|]. intros tr a. apply Hk. Qed.

Lemma emits_each {A} P (f : A -> SM gerr) l : (forall x, x ∈ l -> emits P (f x)) -> emits P (sm_each f l).
Proof.
  induction l as [|x l IH]; intros Hf; cbn; [apply emits_ret|].
  apply emits_try; [apply Hf; left|]. intros _ _ _. apply IH. intros y Hy. apply Hf. by right.
Qed.

Lemma add_source_keys e sources l m :
  fold_result (add_source e) sources l = Ok m ->
  forall key src, m !! key = Some src -> sources !! key = Some src \/
    (src ∈ l /\ key = source_key (dse_Broker src) (dse_Queue src) /\ dse_ObservedAt src <= cle_CommittedAt e).
Proof.
  revert sources. induction l as [|x l IH]; intros sources H key src Hl; cbn in H; [simplify_eq; by left|].
  seq_ok. destruct (IH _ H _ _ Hl) as [Hx|[? ?]]; [|right; split; [by right|done]].
  unfold add_source in Heqr. seq_ok. simplify_eq. apply lookup_insert_Some in Hx as [[<- <-]|[_ ?]]; [|by left].
  right. split_and!; [left|done|].
  repeat match goal with H : fail_if _ _ = nil_err |- _ => apply fail_if_ok in H end. unfold time_After in *. to_prop. lia.
Qed.

(** [to_prop], for string comparisons too. *)
Ltac to_props :=
  to_prop; repeat match goal with H : str_eqb _ _ = true |- _ => apply str_eqb_true in H end.

Lemma existsb_none {A} (f : A -> bool) l x : existsb f l = false -> x ∈ l -> f x = false.
Proof.
  intros H Hx. apply not_true_is_false. intros Hf. rewrite (proj2 (existsb_exists _ _)) in H; [done|].
  exists x. split; [by apply list_elem_of_In|done].
Qed.

Section Cleanup.
Context {net_url : NetURL} {sha : Sha256} (env : SempEnv) (m : ManagedEpochResources) (state : PersistentState)
  (c : MembershipCatalog) (group : string).

(** No retained membership and no other transition names the queue. *)
Definition unreferenced (r : EpochResourceIdentity) : Prop :=
  (forall g, g ∈ cf_Groups (mr_Config m) -> exists s, catalog_Get c (sg_ID g) = Some s /\
     forall r', r' ∈ ms_CurrentResources s ++ ms_ProposedResources s -> samePhysicalQueue r' r = false) /\
  (forall group' t', ps_Groups state !! group' = Some t' ->
     (group' = group /\ gs_Completed t' = true /\ spec_FromEpoch (gs_Spec t') = er_Epoch r) \/
     forall r', r' ∈ spec_CurrentResources (gs_Spec t') ++ spec_ProposedResources (gs_Spec t') ->
       samePhysicalQueue r' r = false).

(** The queue belongs to the source epoch of the group's completed transition,
    and durable evidence shows it fenced and empty for the whole drain grace. *)
Definition proven_drained (r : EpochResourceIdentity) : Prop :=
  exists t e src,
    ps_Groups state !! group = Some t /\ gs_Completed t = true /\ gs_RollingBack t = false /\
    r ∈ spec_CurrentResources (gs_Spec t) /\ er_Epoch r = spec_FromEpoch (gs_Spec t) /\
    e ∈ default [] (ps_CleanupEvidence state !! group) /\ cle_TransitionID e = spec_ID (gs_Spec t) /\
    cle_OldEpochFenced e = true /\ cle_FenceVerifiedAt e <= cle_CommittedAt e /\
    src ∈ cle_Sources e /\ source_key (dse_Broker src) (dse_Queue src) = source_key (er_BrokerID r) (er_QueueName r) /\
    0 < spec_DrainGrace (gs_Spec t) <= time_Sub (dse_ObservedAt src) (dse_ZeroSince src) /\
    dse_ObservedAt src <= cle_CommittedAt e.

Definition cleanup_event (event : semp_event) : Prop :=
  exists r broker, configuredBroker (cf_DataBrokers (mr_Config m)) (er_BrokerID r) = Some broker /\
    proven_drained r /\ unreferenced r /\
    match event with
    | SeDelete b vpn q _ | SeAbsent b vpn q _ => b = er_BrokerID r /\ vpn = db_MessageVPN broker /\ q = er_QueueName r
    | _ => False
    end.

Lemma resourceReferenced_false t r :
  ginv group t -> resourceReferenced m state c (spec_Group (gs_Spec t)) r = false -> unreferenced r.
Proof.
  intros Hi H. rewrite (gi_group _ _ Hi) in H. unfold resourceReferenced in H.
  apply orb_false_iff in H as [H1 H2]. split.
  - intros g Hg. apply (existsb_none _ _ _ H1) in Hg. unfold snapshot_references in Hg.
    destruct (catalog_Get c (sg_ID g)) as [s|]; [|done]. exists s. split; [done|]. intros r' Hr'. exact (existsb_none _ _ r' Hg Hr').
  - intros group' t' Hl%elem_of_map_to_list. apply (existsb_none _ _ _ H2) in Hl. unfold transition_references in Hl.
    destruct (_ && (_ =? er_Epoch r)) eqn:E; [left; to_props; by split_and!|right].
    intros r' Hr'. exact (existsb_none _ _ r' Hl Hr').
Qed.

Lemma drained_by_evidence t e sources r src :
  completedTransitionForEvidence state group e = Some t ->
  e ∈ default [] (ps_CleanupEvidence state !! group) -> evidence_check t e = nil_err ->
  fold_result (add_source e) ∅ (cle_Sources e) = Ok sources -> r ∈ spec_CurrentResources (gs_Spec t) ->
  negb (er_Epoch r =? cle_SourceEpoch e) = false ->
  sources !! source_key (er_BrokerID r) (er_QueueName r) = Some src ->
  (time_Sub (dse_ObservedAt src) (dse_ZeroSince src) <? spec_DrainGrace (gs_Spec t)) = false ->
  proven_drained r.
Proof.
  intros Ht He Hc Hs Hr Hepoch Hl Hgrace. unfold completedTransitionForEvidence in Ht.
  destruct (ps_Groups state !! group) as [t'|] eqn:Hg; [|done]. case_match eqn:Hm; [|done]. simplify_eq.
  destruct (add_source_keys _ _ _ _ Hs _ _ Hl) as [?%lookup_empty_Some|(Hin & Hk & Ho)]; [done|].
  unfold evidence_check in Hc. seq_ok.
  repeat match goal with H : fail_if _ _ = nil_err |- _ => apply fail_if_ok in H end.
  unfold time_After, time_Before in *. to_props. exists t, e, src. split_and!; congruence || lia || done.
Qed.

Lemma cleanup_resource_emits t e sources r :
  ginv group t -> completedTransitionForEvidence state group e = Some t ->
  e ∈ default [] (ps_CleanupEvidence state !! group) -> evidence_check t e = nil_err ->
  fold_result (add_source e) ∅ (cle_Sources e) = Ok sources -> r ∈ spec_CurrentResources (gs_Spec t) ->
  emits cleanup_event (cleanup_resource env m state c t e sources r).
Proof.
  intros Hi Ht He Hc Hs Hr. unfold cleanup_resource.
  apply emits_guard. intros [] Hepoch%fail_if_ok. apply emits_guard. intros [] Hsrc.
  destruct (sources !! _) as [src|] eqn:Hl; [|done]. apply fail_if_ok in Hsrc.
  destruct (resourceReferenced _ _ _ _ _) eqn:Href; [apply emits_ret|].
  apply emits_guard. intros broker Hb. unfold managed_broker in Hb.
  destruct (configuredBroker _ _) as [b|] eqn:Hbr; [|done]. seq_ok. simplify_eq.
  assert (Hd : proven_drained r) by by eapply drained_by_evidence.
  apply emits_try; [|intros _ _ _]; apply emits_wrap, emits_call; intros a; exists r, broker;
    (split_and!; [done|done|by eapply resourceReferenced_false|done..]).
Qed.

Lemma cleanupTransition_emits t e :
  ginv group t -> completedTransitionForEvidence state group e = Some t ->
  e ∈ default [] (ps_CleanupEvidence state !! group) ->
  emits cleanup_event (cleanupTransition env m state c t e).
Proof.
  intros Hi Ht He. unfold cleanupTransition. apply emits_guard. intros [] Hc. apply emits_guard. intros sources Hs.
  apply emits_guard. intros _ _. apply emits_each. intros r Hr. by apply cleanup_resource_emits.
Qed.

Lemma completed_is_group e t : completedTransitionForEvidence state group e = Some t -> ps_Groups state !! group = Some t.
Proof.
  unfold completedTransitionForEvidence. destruct (ps_Groups state !! group); [|done]. case_match; [|done]. by intros [= ->].
Qed.

Lemma cleanup_records_emits options records :
  psinv options state -> (forall e, e ∈ records -> e ∈ default [] (ps_CleanupEvidence state !! group)) ->
  emits cleanup_event (cleanup_records env m state c group records).
Proof.
  intros Hi. induction records as [|e rest IH]; intros Hin; cbn [cleanup_records]; [apply emits_ret|].
  assert (Hrest : emits cleanup_event (cleanup_records env m state c group rest)).
  { apply IH. intros e' He'. apply Hin. by right. }
  destruct (completedTransitionForEvidence state group e) as [t|] eqn:Ht; [|done].
  assert (Ht' : emits cleanup_event (cleanupTransition env m state c t e)).
  { apply cleanupTransition_emits; [by eapply (pi_groups _ _ Hi), completed_is_group|done|apply Hin; left]. }
  intros tr. destruct (Ht' tr) as (new & E & HP). destruct (cleanupTransition env m state c t e tr) as [tr1 r1].
  cbn in E. subst tr1. destruct (Hrest (tr ++ new)) as (more & E & HP').
  destruct (cleanup_records env m state c group rest (tr ++ new)) as [tr2 r2]. cbn in E |- *. subst tr2.
  exists (new ++ more). rewrite app_assoc. split; [done|]. by apply Forall_app.
Qed.

(** C30: cleaning up after a group's transition makes no SEMP call but to delete, and
    then look for, queues of the source epoch of that group's completed
    transition, on their own broker, that the durable evidence shows fenced
    before the commit and empty for the whole drain grace, and that no retained
    membership and no other transition of the durable state names.  This holds
    whatever SEMP answers. *)
Theorem cleanup_deletes_only_drained options tr :
  psinv options state ->
  let '(tr', _) := cleanupCompletedGroup env m state c group tr in
  exists calls, tr' = tr ++ calls /\ Forall cleanup_event calls.
Proof.
  intros Hi. assert (H : emits cleanup_event (cleanupCompletedGroup env m state c group)).
  { unfold cleanupCompletedGroup. apply emits_guard. intros _ _. by apply (cleanup_records_emits options). }
  specialize (H tr). by destruct (cleanupCompletedGroup env m state c group tr).
Qed.
End Cleanup.

(** ** Snapshot requests *)
Lemma collect_elem {A B} (f : A -> result B) l bs b : collect f l = Ok bs -> b ∈ bs -> exists a, a ∈ l /\ f a = Ok b.
Proof.
  unfold collect. intros H Hb. revert b Hb. revert H.
  apply (fold_result_ind _ (fun pre bs => forall b, b ∈ bs -> exists a, a ∈ pre /\ f a = Ok b)).
  - by intros b ?%elem_of_nil.
  - intros pre x s s' IH Hs b Hb. seq_ok. simplify_eq. apply elem_of_app in Hb as [Hb| ->%list_elem_of_singleton].
    + destruct (IH b Hb) as (a' & ? & ?). exists a'. split; [apply elem_of_app; by left|done].
    + exists x. split; [apply elem_of_app; right; left|done].
Qed.

Section SnapshotRequests.
Context {net_url : NetURL} {sha : Sha256}.

(** The topic of a participant's snapshot requests, before it is cut. *)
Definition request_topic (names : ManagedNames) (group : string) (role : ParticipantRole) (participant : string) : string :=
  strings_Join [mn_namespace names; "control"; group; "snapshot-requests"; role_string role; participant]%string "/".

(** C36: the controller serves snapshot requests of the first publisher and the first
    subscriber of a group only.  No queue it binds for them subscribes to the
    topic of any other participant of the group, so the requests which that
    participant publishes on its own topic, as every participant does, reach no
    server. *)
Theorem later_participants_unserved cfg names bindings g role participant topic :
  snapshotRequestBindings cfg names = Ok bindings ->
  NoDup (sg_ID <$> cf_Groups cfg) -> g ∈ cf_Groups cfg ->
  (role = RolePublisher /\ participant <> first (sg_RequiredPublishers g)) \/
  (role = RoleSubscriber /\ participant <> first (SubscriberIdentities g)) ->
  SnapshotRequestTopic names (sg_ID g) role participant = Ok topic ->
  len (request_topic names (sg_ID g) role participant) <= MaxManagedTopicBytes ->
  (forall g' scoped, g' ∈ cf_Groups cfg -> scoped ∈ snapshot_scopes g' ->
     len (request_topic names (sg_ID g') scoped.1 scoped.2) <= MaxManagedTopicBytes) ->
  Forall (fun binding => pq_Topic binding <> topic) bindings.
Proof.
  intros Hb Hn Hg Hother Ht Hlen Hlens. apply Forall_forall. intros binding Hin Heq.
  destruct (collect_elem _ _ _ _ Hb Hin) as ([group [role' participant']] & He & Hbind).
  apply list_elem_of_In, in_flat_map in He as (g' & Hg' & He). apply list_elem_of_In in Hg', He.
  apply list_elem_of_fmap in He as (scoped & Heq' & Hs). simplify_eq. unfold snapshot_binding in Hbind. seq_ok. simplify_eq. cbn in Ht.
  destruct (participantTopic_injective _ _ _ _ _ _ _ _ _ _ _ Ht Heqr0 Hlen (Hlens g' (role', participant') Hg' Hs)) as (_ & Hid & _ & Hr & Hp).
  assert (g' = g) as ->.
  { apply list_elem_of_lookup in Hg as [i Hi], Hg' as [j Hj].
    assert (i = j) as ->; [|congruence].
    eapply (NoDup_lookup _ i j); [exact Hn|rewrite list_lookup_fmap, Hi; done|rewrite list_lookup_fmap, Hj; cbn; congruence]. }
  unfold snapshot_scopes in Hs. apply list_elem_of_In, filter_In in Hs as [Hs _]. cbn in Hs. subst role' participant'.
  destruct Hother as [[-> Hne]|[-> Hne]]; destruct Hs as [[= Hx]|[[= Hx]|[]]]; congruence.
Qed.
End SnapshotRequests.

(** ** Control credentials *)
Lemma claim_value_spec participant acc entry acc' :
  claim_value participant acc entry = Ok acc' ->
  ca_configured acc' = ca_configured acc /\ ca_usernameEnvs acc ⊆ ca_usernameEnvs acc' /\
  ca_passwordEnvs acc ⊆ ca_passwordEnvs acc' /\
  match entry.2 with
  | LabelUsername => ca_usernameEnvs acc' !! entry.1 = Some participant
  | LabelPassword => ca_passwordEnvs acc' !! entry.1 = Some participant
  | LabelPrincipal => True
  end.
Proof.
  destruct entry as [value label]. unfold claim_value. destruct label; intros H; seq_ok; simplify_eq; cbn;
    apply fail_if_ok in Heqr; to_prop; apply eq_None_not_Some in Heqr; rewrite ?lookup_insert_eq;
    by split_and!; try apply insert_subseteq.
Qed.

Lemma claim_values_spec participant l acc acc' :
  fold_result (claim_value participant) acc l = Ok acc' ->
  ca_configured acc' = ca_configured acc /\ ca_usernameEnvs acc ⊆ ca_usernameEnvs acc' /\
  ca_passwordEnvs acc ⊆ ca_passwordEnvs acc' /\
  (forall value, (value, LabelUsername) ∈ l -> ca_usernameEnvs acc' !! value = Some participant) /\
  (forall value, (value, LabelPassword) ∈ l -> ca_passwordEnvs acc' !! value = Some participant).
Proof.
  revert acc. induction l as [|entry l IH]; intros acc H; cbn in H; seq_ok; simplify_eq.
  { split_and!; try done; by intros ? ?%elem_of_nil. }
  apply claim_value_spec in Heqr as (E1 & U1 & P1 & V1). apply IH in H as (E2 & U2 & P2 & UV & PV).
  split_and!; [congruence|by etrans|by etrans|..].
  - intros value [<-|Hin]%elem_of_cons; [exact (lookup_weaken _ _ _ _ V1 U2)|by apply UV].
  - intros value [<-|Hin]%elem_of_cons; [exact (lookup_weaken _ _ _ _ V1 P2)|by apply PV].
Qed.

Lemma credential_values_password k : (pcc_PasswordEnv k, LabelPassword) ∈ map_to_list (credential_values k).
Proof. apply elem_of_map_to_list. unfold credential_values. by rewrite lookup_insert_eq. Qed.
Lemma credential_values_username k :
  pcc_UsernameEnv k <> pcc_PasswordEnv k -> (pcc_UsernameEnv k, LabelUsername) ∈ map_to_list (credential_values k).
Proof.
  intros Hne. apply elem_of_map_to_list. unfold credential_values.
  by rewrite lookup_insert_ne, lookup_insert_eq by congruence.
Qed.

(** The maps after a prefix of the credentials. *)
Record credentials_claimed (c : Config) (strict : bool) (seen : list ParticipantControlCredential) (acc : credential_acc)
    : Prop := {
  cc_configured : forall p k, ca_configured acc !! p = Some k -> k ∈ seen /\ pcc_Participant k = p;
  cc_principal : forall k, k ∈ seen -> pcc_Principal k = pcc_Participant k;
  cc_username : forall k, k ∈ seen -> pcc_UsernameEnv k <> pcc_PasswordEnv k ->
    ca_usernameEnvs acc !! pcc_UsernameEnv k = Some (pcc_Participant k);
  cc_password : forall k, k ∈ seen -> ca_passwordEnvs acc !! pcc_PasswordEnv k = Some (pcc_Participant k);
  cc_controller : strict = true -> forall k, k ∈ seen ->
    pcc_Principal k <> ctl_Principal (cf_Control c) /\ pcc_UsernameEnv k <> ctl_UsernameEnv (cf_Control c) /\
    pcc_PasswordEnv k <> ctl_PasswordEnv (cf_Control c);
}.

Lemma add_credential_claimed c strict seen acc k acc' :
  credentials_claimed c strict seen acc -> add_credential c strict acc k = Ok acc' ->
  credentials_claimed c strict (seen ++ [k]) acc'.
Proof.
  intros [H1 H2 H3 H4 H5] H. unfold add_credential in H. seq_ok. simplify_eq.
  repeat match goal with H : fail_if _ _ = nil_err |- _ => apply fail_if_ok in H end. to_props.
  match goal with H : fold_result (claim_value _) _ _ = Ok _ |- _ =>
    apply claim_values_spec in H as (E & U & P & UV & PV) end. cbn in E, U, P.
  assert (Hsplit : forall x, x ∈ seen ++ [k] -> x ∈ seen \/ x = k) by (intros x; rewrite elem_of_app, list_elem_of_singleton; done).
  split.
  - intros p x Hl. rewrite E in Hl. apply lookup_insert_Some in Hl as [[<- <-]|[_ Hl]].
    + split; [apply elem_of_app; right; left|done].
    + apply H1 in Hl as [? ?]. split; [apply elem_of_app; by left|done].
  - intros x [Hx| ->]%Hsplit; [by apply H2|done].
  - intros x [Hx| ->]%Hsplit Hne; [by eapply lookup_weaken; [apply H3|]|by apply UV, credential_values_username].
  - intros x [Hx| ->]%Hsplit; [by eapply lookup_weaken; [apply H4|]|apply PV, credential_values_password].
  - intros -> x [Hx| ->]%Hsplit; [by apply H5|].
    match goal with H : true && _ = false |- _ => cbn in H end. to_prop.
    split_and!; intros Heq; rewrite Heq, str_eqb_refl in *; done.
Qed.

Lemma credentials_claimed_all c strict acc :
  fold_result (add_credential c strict) (mkCredentialAcc ∅ ∅ ∅ ∅) (ctl_ParticipantCredentials (cf_Control c)) = Ok acc ->
  credentials_claimed c strict (ctl_ParticipantCredentials (cf_Control c)) acc.
Proof.
  apply (fold_result_ind _ (credentials_claimed c strict)).
  - split; cbn; try (by intros ? ?%elem_of_nil); [by intros p k ?%lookup_empty_Some|by intros _ k ?%elem_of_nil].
  - intros pre x s s'. apply add_credential_claimed.
Qed.

Lemma lookup_credential_ok c k :
  k ∈ ctl_ParticipantCredentials (cf_Control c) ->
  exists k', lookup_credential c (pcc_Participant k) = Some k' /\ k' ∈ ctl_ParticipantCredentials (cf_Control c) /\
    pcc_Participant k' = pcc_Participant k.
Proof.
  intros Hk. unfold lookup_credential. destruct (List.find _ _) as [k'|] eqn:E.
  - apply find_some in E as [Hin E]. apply str_eqb_true in E. exists k'. split_and!; [done|by apply list_elem_of_In|done].
  - apply list_elem_of_In, (find_none _ _ E) in Hk. by rewrite str_eqb_refl in Hk.
Qed.

Section Credentials.
Context {request_uri : RequestURI}.

(** C33: a production or cloud configuration that validates gives every declared
    participant a Broker 0 credential of its own: [ParticipantControlCredential]
    finds it, its principal is the participant's identity, and neither the
    principal nor the variables are the controller's.  No two participants share
    the password variable, nor the username variable provided that no credential
    names one variable for both. *)
Theorem participant_credentials_isolated c p q :
  cfg_Validate c = nil_err -> validateRuntime c = Ok true ->
  p ∈ configuredParticipants c -> q ∈ configuredParticipants c ->
  exists kp kq, lookup_credential c p = Some kp /\ lookup_credential c q = Some kq /\
    pcc_Principal kp = p /\ p <> ctl_Principal (cf_Control c) /\
    pcc_UsernameEnv kp <> ctl_UsernameEnv (cf_Control c) /\ pcc_PasswordEnv kp <> ctl_PasswordEnv (cf_Control c) /\
    (p <> q -> pcc_PasswordEnv kp <> pcc_PasswordEnv kq /\
       (pcc_UsernameEnv kp <> pcc_PasswordEnv kp -> pcc_UsernameEnv kq <> pcc_PasswordEnv kq ->
        pcc_UsernameEnv kp <> pcc_UsernameEnv kq)).
Proof.
  intros Hv Hr Hp Hq. unfold cfg_Validate in Hv. rewrite Hr in Hv. cbv beta iota in Hv. seq_ok.
  match goal with H : validateControl c true = _ |- _ => unfold validateControl in H; clear -H Hp Hq end. seq_ok.
  match goal with H : validateParticipantControlCredentials c true = _ |- _ =>
    unfold validateParticipantControlCredentials in H; clear -H Hp Hq; rename H into H0 end. seq_ok.
  apply credentials_claimed_all in Heqr as Hc. cbn [negb] in H0. seq_ok.
  rewrite for_each_ok, Forall_forall in H0.
  assert (Hone : forall x, x ∈ configuredParticipants c -> exists k, lookup_credential c x = Some k /\
    k ∈ ctl_ParticipantCredentials (cf_Control c) /\ pcc_Participant k = x).
  { intros x Hx. apply H0, fail_if_ok in Hx. to_prop. apply not_eq_None_Some in Hx as [k Hk].
    apply (cc_configured _ _ _ _ Hc) in Hk as [Hk <-]. destruct (lookup_credential_ok _ _ Hk) as (k' & ? & ? & ?). by exists k'. }
  destruct (Hone p Hp) as (kp & Lp & Ip & Ep), (Hone q Hq) as (kq & Lq & Iq & Eq). exists kp, kq.
  destruct (cc_controller _ _ _ _ Hc eq_refl kp Ip) as (? & ? & ?). pose proof (cc_principal _ _ _ _ Hc kp Ip).
  split_and!; try done; try congruence. intros Hne. split.
  - intros He. apply (cc_password _ _ _ _ Hc) in Ip, Iq. congruence.
  - intros Hu Hu' He. apply (cc_username _ _ _ _ Hc) in Ip, Iq; congruence.
Qed.
End Credentials.

(** ** Scale-in *)
Lemma removeBroker_ordered membership id : removeBroker membership id = removeOrderedMember membership id.
Proof.
  unfold removeBroker, removeOrderedMember. induction membership as [|x l IH]; [done|]. cbn [List.filter].
  rewrite filter_cons. unfold str_eqb.
  destruct (decide (x = id)) as [->|H]; [rewrite decide_False, bool_decide_eq_true_2 by auto|rewrite decide_True, bool_decide_eq_false_2 by done];
    cbn; by rewrite IH.
Qed.

Lemma removeOrderedMember_elem membership id x : x ∈ removeOrderedMember membership id -> x ∈ membership.
Proof. unfold removeOrderedMember. rewrite !list_elem_of_In, filter_In. by intros [? _]. Qed.

Lemma samples_fold_Some {A} (key : A -> string) (keep : A -> bool) l (m : gmap string A) k x :
  foldl (fun m s => if keep s then <[key s := s]> m else m) m l !! k = Some x -> m !! k = Some x \/ x ∈ l.
Proof.
  revert m. induction l as [|s l IH]; intros m H; cbn in H; [by left|].
  destruct (IH _ H) as [H'|H']; [|right; by right].
  destruct (keep s); [|by left]. apply lookup_insert_Some in H' as [[_ <-]|[_ H']]; [right; left|by left].
Qed.

Lemma valid_group_samples captured seen l seen' :
  fold_result (valid_group_sample captured) seen l = Ok seen' -> Forall (fun s => gm_ObservedAt s <= captured) l.
Proof.
  revert seen. induction l as [|s l IH]; intros seen H; cbn in H; [constructor|]. seq_ok. constructor; [|by eapply IH].
  unfold valid_group_sample in Heqr. seq_ok.
  repeat match goal with H : fail_if _ _ = nil_err |- _ => apply fail_if_ok in H end. unfold time_After in *. to_prop. lia.
Qed.

(** The first loop ends with a zero backlog only if every member is complete
    and has none. *)
Lemma demand_loop_zero v at_ maxAge ids zero demand demand' :
  demand_loop v at_ maxAge ids zero demand = Some (true, demand') ->
  zero = true /\ forall id, id ∈ ids -> exists s, member_complete v at_ maxAge id = Some s /\
    feqb (mt_Value (bk_QueuedMessages (gm_Backlog s))) fzero = true /\
    feqb (mt_Value (bk_UnackedMessages (gm_Backlog s))) fzero = true.
Proof.
  revert zero demand. induction ids as [|id ids IH]; intros zero demand H; cbn in H.
  { simplify_eq. split; [done|by intros ? ?%elem_of_nil]. }
  destruct (member_complete v at_ maxAge id) as [s|] eqn:Hs; [|done].
  apply IH in H as [Hz H]. to_prop. split; [done|]. intros x [->|Hx]%elem_of_cons; [by exists s|by apply H].
Qed.

Lemma remainingCapacityProven_true profiles g current remaining candidate v at_ :
  remainingCapacityProven profiles g current remaining candidate v at_ = Ok (true, true, true) ->
  forall id, id ∈ current -> exists s, member_complete v at_ (ho_TelemetryMaxAge (sg_Handover g)) id = Some s /\
    feqb (mt_Value (bk_QueuedMessages (gm_Backlog s))) fzero = true /\
    feqb (mt_Value (bk_UnackedMessages (gm_Backlog s))) fzero = true.
Proof.
  unfold remainingCapacityProven. case_match; [done|]. case_match; [done|].
  destruct (demand_loop _ _ _ _ _ _) as [[[] demand]|] eqn:Hd; [|done..]. intros _. apply demand_loop_zero in Hd as [_ Hd]. exact Hd.
Qed.

(** The broker is in no other group's retained membership or live transition. *)
Definition owned_only_by (cfg : Config) (c : MembershipCatalog) (durable : PersistentState) (broker group : string) : Prop :=
  (forall g, g ∈ cf_Groups cfg -> exists s, catalog_Get c (sg_ID g) = Some s /\
     (sg_ID g <> group -> broker ∉ ms_CurrentMembership s ++ ms_ProposedMembership s)) /\
  (forall id t, ps_Groups durable !! id = Some t -> id <> group -> gs_Completed t = false ->
     broker ∉ (b_ID <$> spec_Current (gs_Spec t)) ++ (b_ID <$> spec_Proposed (gs_Spec t))).

Lemma retained_ownership_none c broker group groups :
  (forall a, retained_ownership c broker group groups = Some a -> a <> (true, true)) /\
  (retained_ownership c broker group groups = None ->
   forall g, g ∈ groups -> exists s, catalog_Get c (sg_ID g) = Some s /\
     (sg_ID g <> group -> broker ∉ ms_CurrentMembership s ++ ms_ProposedMembership s)).
Proof.
  induction groups as [|g groups [IH1 IH2]]; cbn; [split; [done|by intros _ ? ?%elem_of_nil]|].
  destruct (catalog_Get c (sg_ID g)) as [s|] eqn:Hs; [|split; [by intros a [= <-]|done]].
  destruct (negb _ && _) eqn:E; [split; [by intros a [= <-]|done]|]. split; [done|].
  intros H x [->|Hx]%elem_of_cons; [|by apply IH2]. exists s. split; [done|]. intros Hne Hin.
  apply not_true_iff_false in E. apply E. unfold str_eqb. rewrite bool_decide_eq_false_2 by done. cbn.
  unfold contains. rewrite elem_of_app in Hin. apply orb_true_iff. rewrite !bool_decide_eq_true. done.
Qed.

Lemma exclusive_owned cfg c broker group durable :
  exclusiveCurrentOwnership cfg c broker group durable = (true, true) -> owned_only_by cfg c durable broker group.
Proof.
  unfold exclusiveCurrentOwnership. destruct (retained_ownership_none c broker group (cf_Groups cfg)) as [Hs Hn].
  destruct (retained_ownership c broker group (cf_Groups cfg)) as [a|]; [by intros ->; destruct (Hs (true, true))|].
  intros [= He]. apply negb_true_iff in He. split; [by apply Hn|]. intros id t Ht Hne Hc Hin.
  assert (Hf : transition_uses broker group (id, t) = false).
  { eapply existsb_none; [exact He|by apply elem_of_map_to_list]. }
  unfold transition_uses in Hf. cbn in Hf. unfold str_eqb in Hf at 1. rewrite Hc, bool_decide_eq_false_2 in Hf by done.
  cbn in Hf. apply orb_false_iff in Hf as [Hf1 Hf2].
  apply elem_of_app in Hin as [(b & -> & Hb)%list_elem_of_fmap|(b & -> & Hb)%list_elem_of_fmap];
    [pose proof (existsb_none _ _ _ Hf1 Hb) as Hx|pose proof (existsb_none _ _ _ Hf2 Hb) as Hx];
    cbv beta in Hx; by rewrite str_eqb_refl in Hx.
Qed.

Section ScaleInTheorem.
Context {time_text : TimeText} {time_laws : TimeTextLaws} {evidence_json : EvidenceText} {evidence_laws : EvidenceTextLaws}.
Context (p : ScaleInProvider) (durable : PersistentState).

Lemma candidate_safe_spec configured group v at_ candidate :
  candidate_safe p durable configured group v at_ candidate = Ok true ->
  let remaining := removeOrderedMember (gr_Membership group) candidate in
  llen remaining = llen (gr_Membership group) - 1 /\ scale_in_floor configured <= llen remaining /\
  exclusiveCurrentOwnership (si_Config p) (si_Catalog p) candidate (gr_ID group) durable = (true, true) /\
  remainingCapacityProven (si_Profiles p) configured (gr_Membership group) remaining candidate v at_ = Ok (true, true, true).
Proof.
  unfold candidate_safe. destruct (_ || _) eqn:E; [done|]. to_prop.
  destruct (exclusiveCurrentOwnership _ _ _ _ _) as [[] []]; cbn [negb orb]; try done. intros Hcap. seq_ok.
  destruct a as [[x y] z]. injection Hcap as Hcap. to_prop. subst. by split_and!.
Qed.

Lemma choice_loop_spec configured group retained snapshot v at_ candidates choice :
  choice_loop p durable configured group retained snapshot v at_ candidates = Ok (Some choice) ->
  exists candidate, candidate ∈ candidates /\ candidate_safe p durable configured group v at_ candidate = Ok true /\
    evidence_encode (scale_in_evidence configured group retained snapshot at_ candidate) = Ok (sc_Evidence choice) /\
    choice = mkScaleInChoice candidate true (sc_Evidence choice).
Proof.
  induction candidates as [|x l IH]; cbn; [done|]. intros H. seq_ok. destruct a; cbn in H.
  - seq_ok. simplify_eq. exists x. split_and!; [left|done| |done]. cbn.
    by destruct (evidence_encode _); cbn in *; simplify_eq.
  - destruct (IH H) as (y & ? & ?). exists y. split; [by right|done].
Qed.

Lemma retained_for_spec configured group retained :
  retained_for_scale_in p durable configured group = Some retained ->
  catalog_Get (si_Catalog p) (gr_ID group) = Some retained /\ ms_Phase retained = CActive /\
  ms_CurrentMembership retained = gr_Membership group /\ scale_in_floor configured < llen (gr_Membership group) /\
  controllerScaleInState durable (gr_ID group) = (true, true).
Proof.
  unfold retained_for_scale_in. case_match eqn:E; [done|].
  destruct (catalog_Get _ _) as [s|] eqn:Hs; [|done]. case_match eqn:E'; [done|].
  destruct (controllerScaleInState durable (gr_ID group)) as [[] []]; cbn [negb orb]; try done. intros [= ->]. to_prop.
  match goal with H : slicesEqual _ _ = true |- _ => apply slicesEqual_true in H end. by split_and!.
Qed.

(** Every member's sample is in the telemetry, no older than [maxAge]. *)
Lemma captured_fresh group inventory snapshot at_ maxAge id s :
  snapshot_Validate snapshot = nil_err ->
  member_complete (capacity_view group inventory snapshot) at_ maxAge id = Some s ->
  tl_CapturedAt snapshot <= at_ -> time_Sub at_ (tl_CapturedAt snapshot) <= maxAge.
Proof.
  intros Hv Hm Hle. unfold snapshot_Validate in Hv. seq_ok.
  match goal with H : fold_result (valid_group_sample _) _ _ = Ok _ |- _ => apply valid_group_samples in H as Hall end.
  unfold member_complete in Hm. set (v := capacity_view group inventory snapshot) in *.
  destruct (cv_inventory v !! id); [|done]. destruct (cv_brokers v !! id); [|done].
  destruct (cv_groups v !! id) as [g|] eqn:Hg; [|done].
  case_match eqn:E; [|done]. simplify_eq. unfold freshAt, time_After in E. to_prop.
  cbn in Hg. apply (samples_fold_Some gm_BrokerID) in Hg as [?%lookup_empty_Some|Hin]; [done|].
  rewrite Forall_forall in Hall. apply Hall in Hin. unfold time_Sub, clamp_i64 in *. lia.
Qed.

Lemma evidence_utf8_ok configured group retained snapshot at_ candidate :
  forallb utf8_ValidString (gr_ID group :: gr_Membership group) = true -> candidate ∈ gr_Membership group ->
  (forall t, utf8_ValidString (time_format t) = true) ->
  evidence_utf8 (scale_in_evidence configured group retained snapshot at_ candidate) = true.
Proof.
  rewrite forallb_forall. intros Hu Hin Ht. apply forallb_forall. intros x Hx. apply list_elem_of_In in Hx.
  cbn in Hx. repeat (apply elem_of_cons in Hx as [->|Hx]); try done.
  - apply Hu. by left.
  - apply Hu. right. by apply list_elem_of_In.
  - apply Hu. right. apply list_elem_of_In. apply elem_of_app in Hx as [?|?%removeOrderedMember_elem]; done.
Qed.

Lemma VerifyScaleIn_accepts configured group retained snapshot at_ r :
  configuredGroup (cf_Groups (si_Config p)) (rm_GroupID r) = Some configured ->
  gr_ID group = rm_GroupID r -> rm_CurrentMembership r = gr_Membership group ->
  rm_ProposedMembership r = removeOrderedMember (gr_Membership group) (rm_BrokerID r) ->
  evidence_decode (rm_Evidence r) = Ok (scale_in_evidence configured group retained snapshot at_ (rm_BrokerID r)) ->
  rm_Evidence r <> ""%string -> at_ <> 0 ->
  time_parse (time_format at_) = Some at_ ->
  time_parse (time_format (tl_CapturedAt snapshot)) = Some (tl_CapturedAt snapshot) ->
  feqb (sp_HeadroomPercent (sg_Policy configured)) (sp_HeadroomPercent (sg_Policy configured)) = true ->
  scale_in_floor configured <= llen (rm_ProposedMembership r) ->
  catalog_Get (si_Catalog p) (rm_GroupID r) = Some retained -> ms_Phase retained = CActive ->
  ms_CurrentMembership retained = gr_Membership group ->
  controllerScaleInState durable (rm_GroupID r) = (true, true) ->
  exclusiveCurrentOwnership (si_Config p) (si_Catalog p) (rm_BrokerID r) (rm_GroupID r) durable = (true, true) ->
  tl_CapturedAt snapshot <= at_ ->
  time_Sub at_ (tl_CapturedAt snapshot) <= ho_TelemetryMaxAge (sg_Handover configured) ->
  VerifyScaleIn p durable r at_ = nil_err.
Proof.
  intros Hcfg Hid Hcur Hprop Hdec Htext Hz Hat Hcap Hnan Hfloor Hget Hact Hmem Hstate Hexcl Hle Hfresh.
  unfold VerifyScaleIn. rewrite (proj2 (str_empty_false _) Htext). unfold time_IsZero. rewrite (proj2 (Z.eqb_neq _ _) Hz).
  cbn [orb fail_if]. rewrite Hdec. cbn [wrap_err].
  assert (Hc : evidence_complete (scale_in_evidence configured group retained snapshot at_ (rm_BrokerID r)) r = true).
  { unfold evidence_complete. cbn. by rewrite Hid, !str_eqb_refl. }
  rewrite Hc. cbn [negb fail_if ev_EvaluatedAt scale_in_evidence]. rewrite Hat, bool_decide_eq_true_2 by done.
  cbn [negb fail_if]. rewrite Hcfg. cbn [ev_MinimumWarmFloor ev_HeadroomPercent scale_in_evidence]. rewrite Z.eqb_refl, Hnan.
  rewrite (proj2 (Z.ltb_ge _ _)) by done. cbn [negb orb fail_if].
  assert (He : evidence_current p (scale_in_evidence configured group retained snapshot at_ (rm_BrokerID r)) r = true).
  { unfold evidence_current. rewrite Hget. cbn. rewrite Hact, Hmem, Hprop, Hcur, bool_decide_eq_true_2, !Z.eqb_refl, !slicesEqual_refl by done. done. }
  rewrite He, Hstate, Hexcl. cbn [negb orb fail_if ev_CapturedAt scale_in_evidence]. rewrite Hcap. apply fail_if_ok. unfold time_After. lia.
Qed.

Definition chosen (group : Policy.GroupState) (choice : ScaleInChoice) : Policy.GroupState :=
  Policy.mkGroupState (gr_ID group) (gr_Membership group) (gr_Policy group) (gr_ActiveTransitions group)
    (gr_LastTransitionAt group) (Some choice).

(** C31: a scale-in choice is safe and stays acceptable.  When the provider chooses a
    broker of a group, the policy engine makes it a scale-in that removes exactly
    that broker and keeps the order and the warm floor of the rest; no other
    group's membership or live transition uses the broker; every member reported
    a fresh, complete and empty backlog; and the verification before the
    transition begins accepts the recommendation as long as the configuration,
    the catalog and the controller state are unchanged. *)
Theorem scale_in_choice_verified group inventory snapshot at_ choice configured assessment :
  configuredGroup (cf_Groups (si_Config p)) (gr_ID group) = Some configured ->
  gr_Policy group = group_policy configured -> snapshot_Validate snapshot = nil_err ->
  json_time_ok at_ = true -> json_time_ok (tl_CapturedAt snapshot) = true ->
  (forall t, utf8_ValidString (time_format t) = true) ->
  forallb utf8_ValidString (gr_ID group :: gr_Membership group) = true ->
  feqb (sp_HeadroomPercent (sg_Policy configured)) (sp_HeadroomPercent (sg_Policy configured)) = true ->
  ScaleIn.choose p durable group inventory snapshot at_ = Ok (Some choice) ->
  exists r, scaleIn (chosen group choice) assessment = (r, true) /\ rm_BrokerID r ∈ gr_Membership group /\
    rm_ProposedMembership r = removeBroker (gr_Membership group) (rm_BrokerID r) /\
    llen (rm_ProposedMembership r) = llen (gr_Membership group) - 1 /\
    policy_floor (gr_Policy group) <= llen (rm_ProposedMembership r) /\
    owned_only_by (si_Config p) (si_Catalog p) durable (rm_BrokerID r) (gr_ID group) /\
    (forall id, id ∈ gr_Membership group -> exists s,
       member_complete (capacity_view group inventory snapshot) at_ (ho_TelemetryMaxAge (sg_Handover configured)) id = Some s /\
       feqb (mt_Value (bk_QueuedMessages (gm_Backlog s))) fzero = true /\
       feqb (mt_Value (bk_UnackedMessages (gm_Backlog s))) fzero = true) /\
    VerifyScaleIn p durable r at_ = nil_err.
Proof.
  intros Hcfg Hpol Hval Hat Hcap Htext Hutf Hnan H. unfold ScaleIn.choose in H. rewrite Hcfg in H.
  destruct (_ || time_After _ _) eqn:Hz; [done|].
  destruct (retained_for_scale_in p durable configured group) as [retained|] eqn:Hret; [|done].
  apply retained_for_spec in Hret as (Hget & Hact & Hmem & Hfl & Hstate).
  apply choice_loop_spec in H as (candidate & Hin & Hsafe & Henc & Hch). rewrite elem_of_reverse in Hin.
  apply candidate_safe_spec in Hsafe as (Hlen & Hfloor & Hexcl & Hproven).
  assert (Hpf : policy_floor (gr_Policy group) = scale_in_floor configured) by (by rewrite Hpol).
  pose proof (remainingCapacityProven_true _ _ _ _ _ _ _ Hproven) as Hzero.
  rewrite Hch. unfold scaleIn. cbn [gr_Membership gr_Policy gr_ScaleInChoice chosen sc_Safe sc_BrokerID negb sc_Evidence].
  rewrite Hpf, removeBroker_ordered. rewrite (proj2 (Z.leb_gt _ _)) by lia. rewrite (proj2 (Z.ltb_ge _ _)) by lia.
  eexists. split; [reflexivity|]. cbn [rm_BrokerID rm_ProposedMembership plain setter].
  split_and!; [done|by rewrite removeBroker_ordered|done|done|by apply exclusive_owned|done|].
  apply orb_false_iff in Hz as [[Hz _]%orb_false_iff Hle]. unfold time_IsZero, time_After in Hz, Hle. to_prop.
  apply (VerifyScaleIn_accepts configured group retained snapshot at_); try done.
  - apply evidence_roundtrip; [by apply evidence_utf8_ok|done].
  - by eapply evidence_text.
  - by apply time_roundtrip.
  - by apply time_roundtrip.
  - destruct (Hzero candidate Hin) as (sample & Hs & _). by eapply captured_fresh.
Qed.
End ScaleInTheorem.

(** ** Bootstrap *)
Section Bootstrap.
Context {net_url : NetURL} {sha : Sha256} (env : BootstrapEnv) (cfg : Config) (durable : PersistentState).

(** The snapshot a group starts with. *)
Definition initial_snapshot (g : ScalingGroup) : result MembershipSnapshot :=
  match ps_Membership durable !! sg_ID g with
  | Some snapshot => Ok snapshot
  | None => GenesisSnapshot (cf_Namespace cfg) g (cf_DataBrokers cfg)
  end.

(** The calls for one group: a retained snapshot is only verified; an initial
    one is ensured, saved and published, each only after the one before. *)
Definition group_calls (g : ScalingGroup) (snapshot : MembershipSnapshot) : list bootstrap_call :=
  match ps_Membership durable !! sg_ID g with
  | Some _ => [BcEnsure snapshot (ps_Groups durable !! sg_ID g) nil_err]
  | None => [BcEnsure snapshot None nil_err; BcSave snapshot nil_err; BcPublish snapshot nil_err]
  end.

Lemma genesis_group namespace g inventory s : GenesisSnapshot namespace g inventory = Ok s -> ms_ScalingGroup s = sg_ID g.
Proof. unfold GenesisSnapshot. intros H. seq_ok. by simplify_eq. Qed.

Lemma bootstrap_group_ok g calls s :
  bootstrap_group env cfg durable g = (calls, Ok s) -> initial_snapshot g = Ok s /\ calls = group_calls g s.
Proof.
  unfold bootstrap_group, initial_snapshot, group_calls. destruct (ps_Membership durable !! sg_ID g) as [snapshot|].
  - unfold bootstrap_retained. destruct (retained_check _ _ _) as [[]|]; [|done].
    destruct (be_ensure _ _ _) as [[]|]; cbn; [|done]. by intros [= <- <-].
  - case_bool_decide; [done|]. unfold bootstrap_genesis. destruct (GenesisSnapshot _ _ _) as [snapshot|]; [|done].
    destruct (be_ensure _ _ _) as [[]|]; [|done]. destruct (be_save _ _) as [[]|]; [|done].
    destruct (be_publish _ _) as [[]|]; cbn; [|done]. by intros [= <- <-].
Qed.

(** Whatever fails, the calls of a group are a prefix of these up to the answers
    of the last. *)
Lemma bootstrap_group_publishes g calls r s a :
  bootstrap_group env cfg durable g = (calls, r) -> BcPublish s a ∈ calls ->
  ps_Membership durable !! sg_ID g = None /\ ps_Groups durable !! sg_ID g = None /\
  calls = [BcEnsure s None nil_err; BcSave s nil_err; BcPublish s a].
Proof.
  unfold bootstrap_group. destruct (ps_Membership durable !! sg_ID g) as [snapshot|].
  - unfold bootstrap_retained. destruct (retained_check _ _ _) as [[]|]; intros [= <- <-] H; set_solver.
  - case_bool_decide as Hn; [intros [= <- <-] H; set_solver|]. apply eq_None_not_Some in Hn.
    unfold bootstrap_genesis. destruct (GenesisSnapshot _ _ _) as [snapshot|]; [|intros [= <- <-] H; set_solver].
    destruct (be_ensure _ _ _) as [[]|]; [|intros [= <- <-] H; set_solver].
    destruct (be_save _ _) as [[]|]; [|intros [= <- <-] H; set_solver].
    intros [= <- <-] H. cbn in H. rewrite !elem_of_cons in H. destruct H as [[=]|[[=]|[[= -> ->]|[]%elem_of_nil]]]. done.
Qed.

Definition published_once (groups : list ScalingGroup) (calls : list bootstrap_call) : Prop :=
  forall s a, BcPublish s a ∈ calls -> exists g pre post, g ∈ groups /\
    ps_Membership durable !! sg_ID g = None /\ ps_Groups durable !! sg_ID g = None /\
    calls = pre ++ [BcEnsure s None nil_err; BcSave s nil_err; BcPublish s a] ++ post.

Lemma bootstrap_loop_publishes groups c : published_once groups (bootstrap_loop env cfg durable groups c).1.
Proof.
  revert c. induction groups as [|g groups IH]; intros c s a; cbn [bootstrap_loop]; [cbn; set_solver|].
  destruct (bootstrap_group env cfg durable g) as [calls r] eqn:Hg.
  assert (Hhere : forall rest, BcPublish s a ∈ calls -> exists g' pre post, g' ∈ g :: groups /\
    ps_Membership durable !! sg_ID g' = None /\ ps_Groups durable !! sg_ID g' = None /\
    calls ++ rest = pre ++ [BcEnsure s None nil_err; BcSave s nil_err; BcPublish s a] ++ post).
  { intros rest Hin. destruct (bootstrap_group_publishes _ _ _ _ _ Hg Hin) as (? & ? & ->).
    exists g, [], rest. split_and!; [left|done..]. }
  destruct (let! snapshot := r in catalog_Put snapshot c) as [c1|e].
  2:{ cbn. intros Hin. specialize (Hhere [] Hin). by rewrite app_nil_r in Hhere. }
  specialize (IH c1). destruct (bootstrap_loop env cfg durable groups c1) as [more r']. cbn in IH |- *.
  intros [Hin|Hin]%elem_of_app; [by apply Hhere|].
  destruct (IH s a Hin) as (g' & pre & post & Hin' & ? & ? & ->). exists g', (calls ++ pre), post.
  split_and!; [by right|done..|]. by rewrite app_assoc.
Qed.

Lemma bootstrap_loop_ok options groups c calls c' :
  psinv options durable -> NoDup (sg_ID <$> groups) -> bootstrap_loop env cfg durable groups c = (calls, Ok c') ->
  (forall group, group ∉ (sg_ID <$> groups) -> catalog_Get c' group = catalog_Get c group) /\
  exists snapshots, Forall2 (fun g s => initial_snapshot g = Ok s /\ catalog_Get c' (sg_ID g) = Some s /\ Validate s = nil_err)
      groups snapshots /\ calls = concat (zip_with group_calls groups snapshots).
Proof.
  intros Hi. revert c calls. induction groups as [|g groups IH]; intros c calls Hn H; cbn in H.
  { simplify_eq. split; [done|]. by exists []. }
  apply NoDup_cons in Hn as [Hout Hn].
  destruct (bootstrap_group env cfg durable g) as [calls1 [s|]] eqn:Hg; [|done].
  apply bootstrap_group_ok in Hg as [Hs ->]. destruct (catalog_Put s c) as [c1|] eqn:Hput; [|done].
  destruct (bootstrap_loop env cfg durable groups c1) as [more [c2|]] eqn:Hl; [|done]. simplify_eq.
  destruct (IH _ _ Hn Hl) as (Hkeep & snapshots & Hall & ->).
  assert (Hid : ms_ScalingGroup s = sg_ID g).
  { unfold initial_snapshot in Hs. destruct (ps_Membership durable !! sg_ID g) eqn:E; [|by eapply genesis_group].
    simplify_eq. by apply (pi_membership _ _ Hi) in E as [_ ?]. }
  unfold catalog_Put in Hput. destruct (Validate s) as [[]|] eqn:Hv; [|done]. simplify_eq. split.
  - intros group Hne. rewrite Hkeep by set_solver. unfold catalog_Get. apply lookup_insert_ne. rewrite Hid. set_solver.
  - exists (s :: snapshots). split; [|done]. constructor; [|done]. split_and!; [done| |done].
    rewrite Hkeep by done. unfold catalog_Get. by rewrite <- Hid, lookup_insert_eq.
Qed.

(** C32: bootstrap restores the durable memberships and creates the missing ones
    once.  Whatever Broker 0, SEMP and the store answer, a snapshot is published
    only for a group with neither a durable membership nor a transition, and only
    right after its resources were ensured and it was durably saved.  When
    bootstrap succeeds, the catalog holds for every configured group the durable
    snapshot, or the initial one where there was none, each of them valid; and
    the calls are those of the groups, in order. *)
Theorem bootstrap_restores_memberships options c :
  psinv options durable -> NoDup (sg_ID <$> cf_Groups cfg) ->
  let '(calls, r) := BootstrapMembership env cfg durable c in
  published_once (cf_Groups cfg) calls /\
  forall c', r = Ok c' -> exists snapshots,
    Forall2 (fun g s => initial_snapshot g = Ok s /\ catalog_Get c' (sg_ID g) = Some s /\ Validate s = nil_err)
      (cf_Groups cfg) snapshots /\
    calls = concat (zip_with group_calls (cf_Groups cfg) snapshots).
Proof.
  intros Hi Hn. pose proof (bootstrap_loop_publishes (cf_Groups cfg) c) as Hp. unfold BootstrapMembership.
  destruct (bootstrap_loop env cfg durable (cf_Groups cfg) c) as [calls r] eqn:Hl. split; [exact Hp|].
  intros c' ->. by apply (bootstrap_loop_ok options) in Hl as [_ ?].
Qed.
End Bootstrap.
