(* ===== verification/RuntimeScenario.v ===== *)
(** * The controller process on concrete inputs

    The theorems on the controller process at the states of the scale-out of
    ControllerScenario.v. *)

From S2P Require Import Prelude Float64 Outbox Customer Snapshot Messages Naming Wire WireScenario ControllerTypes Policy PolicyAggregate PolicyEngine Config Broker0 Broker0Inbox Broker0Command Controller ControllerOpen ControllerSnapshots ControllerSpec ControllerInv ControllerRecovery ControllerRun ControllerTheorems ControllerScenario Runtime ScaleIn RuntimeResources RuntimeTheorems.
From Stdlib Require Import ZArith Ascii Lia SpecFloat.
From stdpp Require Import base gmap strings numbers option countable fin_maps relations list.
#[local] Open Scope Z_scope.
#[local] Open Scope string_scope.
#[local] Existing Instance scenario_urls.

(** ** The drain of the scale-out runs past its deadline *)
Definition draining : World := run to_drain.
Definition draining_group : GroupState := default fresh_group (orders draining).
Definition late : Env := healthy (at_ 100000).
Definition retained_drain : MembershipSnapshot := controlSnapshot scale_out PhaseDrain false.
Definition late_catalogs : list (option MembershipCatalog) := [Some {["orders" := retained_drain]}; None].
Definition process_options : ControllerOptions :=
  process_withDefaults (mkControllerOptions ["orders"] 0 0 0 0 0 None true).

Lemma draining_orders : ps_Groups (w_mem draining) !! "orders" = Some draining_group.
Proof. by vm_compute. Qed.

Lemma draining_inv : psinv scenario_options (w_mem draining).
Proof. by apply run_inv; vm_compute. Qed.

Lemma draining_late : past_deadline late draining_group.
Proof. split; try (split; by vm_compute); try by vm_compute. Qed.

Lemma late_catalogs_ok : Forall (from_option catalog_ok True) late_catalogs.
Proof.
  repeat constructor. intros group s. unfold catalog_Get. intros [<- <-]%lookup_singleton_Some. by vm_compute.
Qed.

Lemma expired_transition_never_rolls_back_witness :
  let '(w', ends) := turns scenario_options late process_options "orders" Second late_catalogs draining in
  (exists g', ps_Groups (w_mem w') !! "orders" = Some g' /\ ack_ext draining_group g') /\
  Forall (fun t => exists d, t = TurnAfter d) ends.
Proof.
  exact (expired_transition_never_rolls_back (adm := standard) scenario_options late process_options "orders" Second late_catalogs
           draining draining_group draining_inv late_catalogs_ok draining_orders draining_late).
Defined.

(** ** The commands of the drain *)
Definition command_publisher : CommandPublisher :=
  SetRequirements "orders" (spec_RoleRequirements scale_out) (mkCommandPublisher {["orders" := 30 * Second]} ∅).
Definition broker0_up : NativeEnv := mkNativeEnv (fun _ => nil_err) (fun _ => nil_err) (at_ 3).

Lemma draining_in_phase : in_phase draining_group PhaseDrain.
Proof.
  split.
  - exact (gi_spec _ _ (pi_groups _ _ draining_inv "orders" draining_group draining_orders)).
  - split; by vm_compute.
  - by vm_compute.
  - by right; right; left.
  - by vm_compute.
  - vm_compute. by repeat constructor.
Qed.

Lemma draining_u64 : spec_u64 (gs_Spec draining_group).
Proof. split; unfold in_u64; vm_compute; by split. Qed.


(** ** A configuration of the two brokers and the group *)
Definition data_broker (id : string) : DataBroker :=
  mkDataBroker id ("amqps://" +:+ id +:+ ":5671") "" "vpn" "USERNAME" "PASSWORD" "" "" "" "" None ∅.
Definition orders_group : ScalingGroup :=
  mkScalingGroup "orders" "customer-v1" "" "v1" ["b1"] (mkQueue "orders" "exclusive" "exclusive" 0 3 "orders-dmq")
    (mkScalingPolicy 1 2 0 fzero Second Second 1) (mkHandoverPolicy Second Second Second Second) ["pub-1"]
    [mkConsumerSet "all" ["sub-1"]] [].
Definition credential (participant variable : string) : ParticipantControlCredential :=
  mkParticipantControlCredential participant participant (variable +:+ "_USERNAME") (variable +:+ "_PASSWORD").
Definition scenario_control (credentials : list ParticipantControlCredential) : ControlBroker :=
  mkControlBroker "b0" "amqps://b1:5671" "" "vpn" "controller" "USERNAME" "PASSWORD" "" "" credentials "ns"
    (mkBroker0Resources "" "" "" "" "" "" "" "" "" "").
Definition scenario_config : Config :=
  mkConfig "ns" (scenario_control [credential "pub-1" "PUB"; credential "sub-1" "SUB"])
    [data_broker "b1"; data_broker "b2"] [] [orders_group]
    (mkRuntimeIdentities "" "controller" ["pub-1"] ["sub-1"] [] []) (mkAsyncPublisher 0 0 0 0 0)
    (mkStalenessPolicy 0 0 0) (mkPersistence "state.json" "outbox.json" 10 1000)
    (mkCloudProvisioning false "" "" "" "" "" "" "" "" 0 0 0 0 false).

(** ** The old queue of the completed scale-out *)
Definition active_state : PersistentState := w_mem (run to_active).
Definition active_catalog : MembershipCatalog := {["orders" := controlSnapshot scale_out PhaseActivate false]}.
Definition managed : ManagedEpochResources := mkManagedEpochResources scenario_config {["b1"; "b2"]}.
Definition semp_up : SempEnv :=
  mkSempEnv (fun _ _ _ => nil_err) (fun _ _ _ _ => Ok []) (fun _ _ _ _ _ => nil_err) (fun _ _ _ _ _ => nil_err)
    (fun _ _ _ _ => nil_err) (fun _ _ _ _ => nil_err).

Lemma active_inv : psinv scenario_options active_state.
Proof. by apply run_inv; vm_compute. Qed.

Lemma cleanup_deletes_only_drained_witness :
  (cleanupCompletedGroup semp_up managed active_state active_catalog "orders" []).1 =
    [SeDelete "b1" "vpn" "orders.b1.1" nil_err; SeAbsent "b1" "vpn" "orders.b1.1" nil_err] /\
  Forall (cleanup_event managed active_state active_catalog "orders")
    (cleanupCompletedGroup semp_up managed active_state active_catalog "orders" []).1.
Proof.
  split; [vm_compute; reflexivity|].
  pose proof (cleanup_deletes_only_drained semp_up managed active_state active_catalog "orders" scenario_options []
                active_inv) as H.
  destruct (cleanupCompletedGroup semp_up managed active_state active_catalog "orders" []) as [tr' r].
  destruct H as (calls & -> & H). exact H.
Defined.

(** ** The second subscriber's snapshot requests *)
#[local] Program Instance scenario_sha : Sha256 := {| sha256_Sum256 _ := repeat 0 32 |}.
Next Obligation. done. Qed.
Next Obligation. intros ?. vm_compute. by repeat constructor. Qed.

Definition two_subscribers : ScalingGroup :=
  mkScalingGroup "orders" "customer-v1" "" "v1" ["b1"] (sg_Queue orders_group) (sg_Policy orders_group)
    (sg_Handover orders_group) ["pub-1"] [mkConsumerSet "all" ["sub-1"; "sub-2"]] [].
Definition two_config : Config :=
  mkConfig "ns" (scenario_control [credential "pub-1" "PUB"; credential "sub-1" "SUB1"; credential "sub-2" "SUB2"])
    [data_broker "b1"] [] [two_subscribers] (mkRuntimeIdentities "" "controller" ["pub-1"] ["sub-1"; "sub-2"] [] [])
    (cf_Publisher scenario_config) (cf_Staleness scenario_config) (cf_Persistence scenario_config)
    (cf_Cloud scenario_config).
Definition ns : ManagedNames := mkManagedNames "ns".
Definition two_bindings : list ParticipantQueue :=
  match snapshotRequestBindings two_config ns with Ok bindings => bindings | Err _ => [] end.

Lemma later_participants_unserved_witness :
  pq_Participant <$> two_bindings = ["pub-1"; "sub-1"] /\
  Forall (fun binding => pq_Topic binding <> "ns/control/orders/snapshot-requests/subscriber/sub-2") two_bindings.
Proof.
  split; [vm_compute; reflexivity|].
  apply (later_participants_unserved two_config ns two_bindings two_subscribers RoleSubscriber "sub-2").
  - vm_compute. reflexivity.
  - vm_compute. repeat constructor; set_solver.
  - left.
  - right. split; [reflexivity|by vm_compute].
  - vm_compute. reflexivity.
  - by vm_compute.
  - intros g' scoped ->%list_elem_of_singleton Hs. vm_compute in Hs.
    apply elem_of_cons in Hs as [->|[->|[]%elem_of_nil]%elem_of_cons]; by vm_compute.
Defined.

(** ** A production configuration *)
#[local] Instance scenario_request_uri : RequestURI := fun s =>
  if HasPrefix s "amqps://" then Some (mkURL "amqps" "host:5671" None "" "" "") else
  if HasPrefix s "https://" then Some (mkURL "https" "host:943" None "" "" "") else None.

Definition measured : CapacityProfile := mkCapacityProfile "enterprise" "10.8" (mkCapacityLimits (f_of_Z 1000) (f_of_Z 1000) (f_of_Z 1000) (f_of_Z 10)).
Definition production_broker (id : string) : DataBroker :=
  mkDataBroker id ("amqps://" +:+ id +:+ ":5671") ("https://" +:+ id) "vpn" "USERNAME" "PASSWORD" "SEMP_USERNAME"
    "SEMP_PASSWORD" "enterprise" "10.8" (Some ["orders"]) ∅.
Definition production_group : ScalingGroup :=
  mkScalingGroup "orders" "customer-v1" "" "v1" ["b1"] (mkQueue "ns.orders" "exclusive" "exclusive" 0 3 "ns.orders-dmq")
    (sg_Policy orders_group) (sg_Handover orders_group) ["pub-1"] [mkConsumerSet "all" ["sub-1"]] [].
Definition production_config (credentials : list ParticipantControlCredential) : Config :=
  mkConfig "ns"
    (mkControlBroker "b0" "amqps://b0:5671" "https://b0" "vpn" "controller" "CTL_USERNAME" "CTL_PASSWORD"
       "SEMP_USERNAME" "SEMP_PASSWORD" credentials "ns/control"
       (mkBroker0Resources "ns/m" "ns/m" "ns/c" "ns/c" "ns/r" "ns/r" "ns/a" "ns/a" "ns/t" "ns/t"))
    [production_broker "b1"; production_broker "b2"] [measured] [production_group]
    (mkRuntimeIdentities "production" "controller" ["pub-1"] ["sub-1"] [] ["probe"]) (mkAsyncPublisher 1 1 Second Second Second)
    (mkStalenessPolicy Second Second Second) (mkPersistence "state.json" "outbox.json" 10 1000) (cf_Cloud scenario_config).
Definition own_credentials : list ParticipantControlCredential :=
  [credential "pub-1" "PUB"; credential "sub-1" "SUB"; credential "probe" "PROBE"].

Lemma participant_credentials_isolated_witness :
  exists kp kq, lookup_credential (production_config own_credentials) "pub-1" = Some kp /\
    lookup_credential (production_config own_credentials) "sub-1" = Some kq /\
    pcc_Principal kp = "pub-1" /\ "pub-1" <> "controller" /\
    pcc_UsernameEnv kp <> "CTL_USERNAME" /\ pcc_PasswordEnv kp <> "CTL_PASSWORD" /\
    ("pub-1" <> "sub-1" -> pcc_PasswordEnv kp <> pcc_PasswordEnv kq /\
       (pcc_UsernameEnv kp <> pcc_PasswordEnv kp -> pcc_UsernameEnv kq <> pcc_PasswordEnv kq ->
        pcc_UsernameEnv kp <> pcc_UsernameEnv kq)).
Proof.
  apply (participant_credentials_isolated (production_config own_credentials) "pub-1" "sub-1").
  - vm_compute. reflexivity.
  - vm_compute. reflexivity.
  - left.
  - right. left.
Defined.

(** The proviso is needed: a credential that names one variable for both hides
    its username from the check, and another participant may use it. *)
Example shared_username_accepted :
  let shared := [mkParticipantControlCredential "pub-1" "pub-1" "SHARED" "SHARED";
                 mkParticipantControlCredential "sub-1" "sub-1" "SHARED" "SUB_PASSWORD"; credential "probe" "PROBE"] in
  cfg_Validate (production_config shared) = nil_err.
Proof. vm_compute. reflexivity. Qed.

(** ** Giving the second broker up again *)
#[local] Existing Instance binary_times.
#[local] Existing Instance binary_times_laws.

Lemma utf8_ascii c s : (byte_val c <? 128)%Z = true -> utf8_ValidString s = true -> utf8_ValidString (String c s) = true.
Proof. intros Hc. unfold utf8_ValidString, utf8_chunks, bytes_of. cbn. unfold first_chunk. by rewrite Hc. Qed.

Lemma positive_text_utf8 p : utf8_ValidString (positive_text p) = true.
Proof. induction p; cbn [positive_text]; [by apply utf8_ascii..|done]. Qed.

Lemma binary_times_utf8 t : utf8_ValidString (time_format t) = true.
Proof. destruct t; cbn; [done|apply utf8_ascii; [done|apply positive_text_utf8]..]. Qed.

(** Evidence written in binary. *)
#[local] Instance spec_float_eq_dec : EqDecision spec_float.
Proof. solve_decision. Defined.
#[local] Program Instance spec_float_countable : Countable spec_float := inj_countable'
  (fun f => match f with
   | S754_zero b => inl (inl b) | S754_infinity b => inl (inr b) | S754_nan => inr (inl tt)
   | S754_finite b m e => inr (inr (b, m, e)) end)
  (fun x => match x with
   | inl (inl b) => S754_zero b | inl (inr b) => S754_infinity b | inr (inl _) => S754_nan
   | inr (inr (b, m, e)) => S754_finite b m e end) _.
Next Obligation. by intros []. Qed.

Definition evidence_tuple (e : scaleInEvidence) :=
  ((ev_Version e, ev_Group e, ev_Broker e, ev_Epoch e, ev_Revision e, ev_CurrentMembership e),
   (ev_RemainingMembership e, ev_CapturedAt e, ev_EvaluatedAt e, ev_MinimumWarmFloor e, ev_HeadroomPercent e),
   (ev_CurrentBacklogZero e, ev_RemainingCapacityOK e, ev_ExclusiveGroupOwner e, ev_ControllerIdle e,
    ev_CleanupEvidenceReady e, ev_CapacityDisposition e)).
Definition tuple_evidence (t : (Z * string * string * Z * Z * list string) * (list string * string * string * Z * spec_float) *
    (bool * bool * bool * bool * bool * string)) : scaleInEvidence :=
  let '((version, group, broker, epoch, revision, current), (remaining, captured, evaluated, floor, headroom),
        (b1, b2, b3, b4, b5, disposition)) := t in
  mkScaleInEvidence version group broker epoch revision current remaining captured evaluated floor headroom
    b1 b2 b3 b4 b5 disposition.

#[local] Instance binary_evidence : EvidenceText := {|
  evidence_encode e := Ok (String "e"%char (positive_text (encode (evidence_tuple e))));
  evidence_decode s := match s with
    | String "e"%char s =>
        match text_positive s ≫= decode with
        | Some t => Ok (tuple_evidence t)
        | None => Err (ErrNew "invalid evidence")
        end
    | _ => Err (ErrNew "invalid evidence")
    end;
|}.

#[local] Instance binary_evidence_laws : EvidenceTextLaws.
Proof.
  split.
  - intros e s _ [= <-]. cbn. rewrite text_positive_text. cbn. rewrite decode_encode. by destruct e.
  - by intros e s [= <-].
Qed.

Definition usage (x : Z) : Resources := let k := KnownMetric (f_of_Z x) in mkResources k k k (KnownMetric (f_of_Z 1)).
Definition idle_telemetry : TelemetrySnapshot :=
  mkTelemetrySnapshot (at_ 20)
    [mkBrokerSample "b1" "enterprise" "10.8" (at_ 20) (usage 100); mkBrokerSample "b2" "enterprise" "10.8" (at_ 20) (usage 50)]
    [mkGroupSample "orders" "b1" (at_ 20) (usage 100) (mkBacklog (KnownMetric fzero) (KnownMetric fzero));
     mkGroupSample "orders" "b2" (at_ 20) (usage 50) (mkBacklog (KnownMetric fzero) (KnownMetric fzero))].
Definition idle_group : Policy.GroupState :=
  Policy.mkGroupState "orders" ["b1"; "b2"] (group_policy production_group) 0 zeroTime None.
Definition idle_inventory : list Policy.Broker :=
  [Policy.mkBroker "b1" "enterprise" "10.8" true ["orders"]; Policy.mkBroker "b2" "enterprise" "10.8" true ["orders"]].
Definition idle_provider : ScaleInProvider :=
  mkScaleInProvider (production_config own_credentials) active_catalog
    (match NewProfileCatalog [measured] with Ok c => c | Err _ => ∅ end).
Definition idle_choice : ScaleInChoice :=
  match ScaleIn.choose idle_provider active_state idle_group idle_inventory idle_telemetry (at_ 20) with
  | Ok (Some choice) => choice
  | _ => mkScaleInChoice "" false ""
  end.

Lemma idle_choice_made :
  ScaleIn.choose idle_provider active_state idle_group idle_inventory idle_telemetry (at_ 20) = Ok (Some idle_choice).
Proof.
  assert (H : (match ScaleIn.choose idle_provider active_state idle_group idle_inventory idle_telemetry (at_ 20) with
               | Ok (Some _) => true | _ => false end) = true) by (vm_compute; reflexivity).
  unfold idle_choice. by destruct (ScaleIn.choose _ _ _ _ _ _) as [[choice|]|].
Qed.

Lemma scale_in_choice_verified_witness :
  sc_BrokerID idle_choice = "b2" /\
  exists r, scaleIn (chosen idle_group idle_choice) zero_group_assessment = (r, true) /\
    VerifyScaleIn idle_provider active_state r (at_ 20) = nil_err.
Proof.
  split; [vm_compute; reflexivity|].
  destruct (scale_in_choice_verified idle_provider active_state idle_group idle_inventory idle_telemetry (at_ 20)
              idle_choice production_group zero_group_assessment) as (r & Hr & _ & _ & _ & _ & _ & _ & Hv).
  - vm_compute. reflexivity.
  - reflexivity.
  - vm_compute. reflexivity.
  - vm_compute. reflexivity.
  - vm_compute. reflexivity.
  - exact binary_times_utf8.
  - vm_compute. reflexivity.
  - vm_compute. reflexivity.
  - exact idle_choice_made.
  - exists r. split; [exact Hr|exact Hv].
Defined.

(** ** Bootstrap of a validated configuration *)
Definition named_group (id : string) : ScalingGroup :=
  mkScalingGroup id "customer-v1" "" "v1" ["b1"] (sg_Queue production_group) (sg_Policy orders_group)
    (sg_Handover orders_group) ["pub-1"] [mkConsumerSet "all" ["sub-1"]] [].
Definition named_config (id : string) : Config :=
  mkConfig "ns" (cf_Control (production_config own_credentials)) [data_broker "b1"] [] [named_group id]
    (mkRuntimeIdentities "" "controller" ["pub-1"] ["sub-1"] [] []) (cf_Publisher scenario_config)
    (cf_Staleness scenario_config) (cf_Persistence scenario_config) (cf_Cloud scenario_config).
Definition answering : BootstrapEnv := mkBootstrapEnv (fun _ _ => nil_err) (fun _ => nil_err) (fun _ => nil_err).
Definition bootstrapped (id : string) : list bootstrap_call * result MembershipCatalog :=
  BootstrapMembership answering (named_config id) (w_mem start_world) ∅.

(** Both configurations validate; the group with a capital letter in its name
    has no initial snapshot, and no call is made for it. *)
Example lowercase_group_bootstraps :
  cfg_Validate (named_config "orders") = nil_err /\ is_ok (bootstrapped "orders").2 = true /\
  length (bootstrapped "orders").1 = 3%nat.
Proof. vm_compute. done. Qed.

Example capital_group_never_bootstraps :
  cfg_Validate (named_config "Orders") = nil_err /\ is_ok (bootstrapped "Orders").2 = false /\
  length (bootstrapped "Orders").1 = 0%nat.
Proof. vm_compute. done. Qed.

Lemma bootstrap_restores_memberships_witness :
  let '(calls, r) := bootstrapped "orders" in
  published_once (w_mem start_world) [named_group "orders"] calls /\
  forall c', r = Ok c' -> exists snapshots,
    Forall2 (fun g s => initial_snapshot (named_config "orders") (w_mem start_world) g = Ok s /\
        catalog_Get c' (sg_ID g) = Some s /\ Validate s = nil_err)
      [named_group "orders"] snapshots /\
    calls = concat (zip_with (group_calls (w_mem start_world)) [named_group "orders"] snapshots).
Proof.
  apply (bootstrap_restores_memberships answering (named_config "orders") (w_mem start_world) scenario_options ∅).
  - exact (run_inv [] eq_refl).
  - repeat constructor; set_solver.
Defined.
