(* ===== verification/Participant.v ===== *)
(** * The participant processes (runtime/participant.go)

    What a publisher or a subscriber process puts between the group
    orchestrators, the command handler and its shim: the groups it serves, the
    phases it has applied, registrations, the snapshot appliers and the command
    executors.  The executors read the state of other goroutines at successive
    moments, so their models run over a timeline of such moments. *)

From S2P Require Import Prelude Float64 Policy Customer Snapshot Messages Naming Outbox Publisher Async Lane Subscriber Wire Config Broker0.
From Stdlib Require Import ZArith Lia.
From stdpp Require Import base gmap strings numbers option list.
#[local] Open Scope Z_scope.

(** ** Groups and contracts *)
Definition ParticipantGroups (cfg : Config) (participant : string) (role : ParticipantRole)
    : result (list ScalingGroup) :=
  fail_if (str_empty participant) (ErrNew "runtime: participant identity is required") ;;!
  let! identities := match role with
    | RolePublisher => Ok (rt_Publishers (cf_Runtime cfg))
    | RoleSubscriber => Ok (rt_Subscribers (cf_Runtime cfg))
    | _ => Err (ErrNew "runtime: unsupported participant role")
    end in
  fail_if (negb (contains identities participant)) (ErrNew "runtime: participant is not declared") ;;!
  let required group := match role with RolePublisher => sg_RequiredPublishers group | _ => SubscriberIdentities group end in
  let groups := filter (fun group => contains (required group) participant = true) (cf_Groups cfg) in
  fail_if (bool_decide (groups = [])) (ErrNew "runtime: participant is not required by any scaling group") ;;!
  Ok groups.

(** Later groups of a name replace earlier ones. *)
Definition participantContracts (groups : list ScalingGroup)
    : gmap string Publisher.Contract * gmap string Lane.Contract :=
  (foldl (fun m g => <[sg_ID g := Publisher.mkContract (sg_HashContract g) (sg_CustomerLibrary g)]> m) ∅ groups,
   foldl (fun m g => <[sg_ID g := Lane.mkContract (sg_HashContract g) (sg_CustomerLibrary g)]> m) ∅ groups).

(** ** Applied phases *)

(** The snapshots of a [ParticipantPhaseState], by group. *)
Abbreviation PhaseState := (gmap string MembershipSnapshot).

Definition phases_Record (snapshot : MembershipSnapshot) (s : PhaseState) : PhaseState :=
  <[ms_ScalingGroup snapshot := snapshot]> s.
Definition phases_Clear (group : string) (s : PhaseState) : PhaseState := delete group s.

Definition snapshotMatchesCommand (snapshot : MembershipSnapshot) (command : CommandEnvelope) : bool :=
  str_eqb (ms_ScalingGroup snapshot) (ce_Group command) && bool_decide (ms_Phase snapshot = ce_Phase command) &&
  if bool_decide (ce_Phase command = CActive) then ms_Epoch snapshot =? ce_Epoch command
  else match ms_Transition snapshot with
       | Some t => str_eqb (tr_ID t) (ce_TransitionID command) && (tr_ToEpoch t =? ce_Epoch command)
       | None => false
       end.

(** ** Waiting *)

(** What a [select] of a waiting executor picks: the context's error, a
    change, or the timer. *)
Inductive wake : Type := WakeDone (e : gerror) | WakeChanged | WakeTimer.

(** One moment at which the executor looks at the process. *)
Record Moment (St : Type) := mkMoment {
  mo_state : St;
  mo_now : Time;
  mo_wake : wake;
}.
Arguments mkMoment {St}.
Arguments mo_state {St}.
Arguments mo_now {St}.
Arguments mo_wake {St}.

(** The recorded phase is the command's. *)
Definition phase_reached (phases : PhaseState) (command : CommandEnvelope) : bool :=
  match phases !! ce_Group command with
  | Some snapshot => snapshotMatchesCommand snapshot command
  | None => false
  end.

Definition deadline_error : gerror :=
  ErrNew "runtime: command deadline expired while waiting for authoritative phase".

Section Wait.
Context {St : Type} (phases_of : St -> PhaseState) (look : nat -> Moment St).

(** [Wait] from its [n]-th look on: the result and the number of looks; [None]
    when the fuel does not suffice.  A round looks at the phases, then at the
    clock and the channels. *)
Fixpoint phases_Wait (fuel : nat) (command : CommandEnvelope) (n : nat) : option (gerr * nat) :=
  match fuel with
  | O => None
  | Datatypes.S fuel =>
      if phase_reached (phases_of (mo_state (look n))) command then Some (nil_err, (n + 1)%nat) else
      if time_Sub (ce_Deadline command) (mo_now (look (n + 1))) <=? 0 then Some (Err deadline_error, (n + 2)%nat) else
      match mo_wake (look (n + 1)) with
      | WakeDone e => Some (Err e, (n + 2)%nat)
      | WakeTimer => Some (Err deadline_error, (n + 2)%nat)
      | WakeChanged => phases_Wait fuel command (n + 2)
      end
  end.
End Wait.

(** ** Registration *)
Record ParticipantRegistration := mkParticipantRegistration {
  rg_Participant : string;
  rg_Role : ParticipantRole;
  rg_ConsumerSet : string;
  rg_ConsumerSets : gmap string string;
  rg_Publisher : bool;
}.

Definition registration_id (snapshot : MembershipSnapshot) (r : ParticipantRegistration) : string :=
  (ms_ScalingGroup snapshot +:+ "/registration/" +:+ role_string (rg_Role r) +:+ "/" +:+ rg_Participant r +:+
   "/" +:+ FormatUint (ms_Epoch snapshot) +:+ "/" +:+ phase_text (ms_Phase snapshot))%string.

Definition registered_set (r : ParticipantRegistration) (group : string) : result string :=
  if bool_decide (rg_Role r = RoleSubscriber) && negb (bool_decide (rg_ConsumerSets r = ∅)) then
    match rg_ConsumerSets r !! group with
    | Some set => if str_empty set then Err (ErrNew "runtime: subscriber has no consumer set for group") else Ok set
    | None => Err (ErrNew "runtime: subscriber has no consumer set for group")
    end
  else Ok (rg_ConsumerSet r).

(** The envelope of [ParticipantRegistration.Publish]. *)
Definition registration_for (r : ParticipantRegistration) (now : Time) (snapshot : MembershipSnapshot)
    : result RegistrationEnvelope :=
  fail_if (negb (rg_Publisher r) || str_empty (rg_Participant r) || str_empty (ms_LibraryVersion snapshot))
    (ErrNew "runtime: participant registration is not initialized") ;;!
  let! consumerSet := registered_set r (ms_ScalingGroup snapshot) in
  Ok {| re_Version := ProtocolVersion; re_MessageID := registration_id snapshot r;
        re_Namespace := ms_Namespace snapshot; re_Group := ms_ScalingGroup snapshot;
        re_TransitionID := default "" (tr_ID <$> ms_Transition snapshot); re_Epoch := ms_Epoch snapshot;
        re_Phase := ms_Phase snapshot; re_Participant := rg_Participant r; re_Role := rg_Role r;
        re_ConsumerSet := consumerSet; re_LibraryVersion := ms_LibraryVersion snapshot; re_ObservedAt := now |}.

(** A nil registration publishes nothing; [publish] is the publisher's answer. *)
Definition registration_Publish (r : option ParticipantRegistration) (now : Time)
    (publish : RegistrationEnvelope -> gerr) (snapshot : MembershipSnapshot) : gerr :=
  match r with
  | None => nil_err
  | Some r => let! e := registration_for r now snapshot in publish e
  end.

(** ** The publisher's process *)
Section PublisherSide.
Context {P : Type} (library : CustomerLibrary P) {B : Type} `{!Bolt B} {net_url : NetURL}.

(** Nil pointers are [false] and [None]. *)
Record PublisherSnapshotApplier := mkPublisherSnapshotApplier {
  pa_Publisher : bool;
  pa_Registration : option ParticipantRegistration;
  pa_Phases : bool;
}.

(** [Apply] up to the registration. *)
Definition publisher_apply_shim (a : PublisherSnapshotApplier) (now : Time) (m : Message) (p : Publisher B)
    : Publisher B * result MembershipSnapshot :=
  match m_Snapshot m with
  | Some snapshot =>
      if negb (pa_Publisher a) || negb (bool_decide (m_Kind m = KindMembershipSnapshot))
      then (p, Err (ErrNew "runtime: publisher membership applier received an invalid message")) else
      let '(p, err) := ApplyMembership library now snapshot p in
      (p, match err with
          | Err e => Err e
          | Ok _ =>
              if bool_decide (pa_Registration a = None) || negb (pa_Phases a)
              then Err (ErrNew "runtime: publisher registration and phase state are not configured")
              else Ok snapshot
          end)
  | None => (p, Err (ErrNew "runtime: publisher membership applier received an invalid message"))
  end.

Definition publisher_Apply (a : PublisherSnapshotApplier) (now observed : Time)
    (publish : RegistrationEnvelope -> gerr) (m : Message) (p : Publisher B) (phases : PhaseState)
    : Publisher B * PhaseState * gerr :=
  let '(p, r) := publisher_apply_shim a now m p in
  match r with
  | Err e => (p, phases, Err e)
  | Ok snapshot =>
      match registration_Publish (pa_Registration a) observed publish snapshot with
      | Err e => (p, phases, Err e)
      | Ok _ => (p, phases_Record snapshot phases, nil_err)
      end
  end.

Definition publisher_FailClosed (a : PublisherSnapshotApplier) (group : string) (p : Publisher B)
    (phases : PhaseState) : Publisher B * PhaseState * gerr :=
  if negb (pa_Publisher a) then (p, phases, Err (ErrNew "runtime: publisher membership applier is not initialized")) else
  let phases := if pa_Phases a then phases_Clear group phases else phases in
  let '(p, err) := Publisher.FailClosed group p in (p, phases, err).

(** *** Commands *)
Context {St : Type} (dispatcher_of : St -> AsyncDispatcher B) (phases_of : St -> PhaseState)
  (look : nat -> Moment St).

(** [Status] reads the membership, the records and the counters one after the
    other. *)
Definition status_at (group : string) (n : nat) : DispatcherStatus :=
  Status group (p_membership (ad_publisher (dispatcher_of (mo_state (look n)))))
    (Records (p_outbox (ad_publisher (dispatcher_of (mo_state (look (n + 1)))))))
    (dispatcher_of (mo_state (look (n + 2)))).

(** [WaitQuiescent]: the poll ticker wakes it as a change does. *)
Fixpoint WaitQuiescent (fuel : nat) (group : string) (n : nat) : option (DispatcherStatus * gerr * nat) :=
  match fuel with
  | O => None
  | Datatypes.S fuel =>
      let status := status_at group n in
      if ss_Quiescent status then Some (status, nil_err, (n + 3)%nat) else
      match mo_wake (look (n + 3)) with
      | WakeDone e => Some (status_at group (n + 3), Err e, (n + 6)%nat)
      | WakeChanged | WakeTimer => WaitQuiescent fuel group (n + 4)
      end
  end.

(** [given]: dispatcher and phases are not nil. *)
Definition publisher_Execute (given : bool) (fuel : nat) (command : CommandEnvelope) (n : nat)
    : option (gerr * nat) :=
  if negb given then Some (Err (ErrNew "runtime: publisher command executor is not initialized"), n) else
  match phases_Wait phases_of look fuel command n with
  | None => None
  | Some (Err e, n) => Some (Err e, n)
  | Some (Ok _, n) =>
      let status := status_at (ce_Group command) n in
      match ce_Phase command with
      | CPaused =>
          if negb (ss_Paused status) || negb (str_eqb (ss_TransitionID status) (ce_TransitionID command))
          then Some (Err (ErrNew "runtime: publisher has not applied the requested PAUSED transition"), (n + 3)%nat) else
          match WaitQuiescent fuel (ce_Group command) (n + 3) with
          | None => None
          | Some (_, Err e, n) => Some (Err e, n)
          | Some (status, Ok _, n) =>
              Some (fail_if (negb (ss_Quiescent status)) (ErrNew "runtime: publisher did not become quiescent"), n)
          end
      | CActive =>
          Some (fail_if (negb (bool_decide (ss_Phase status = Some CActive)) || negb (ss_Epoch status =? ce_Epoch command))
                  (ErrNew "runtime: publisher has not applied the requested ACTIVE epoch"), (n + 3)%nat)
      | _ => Some (Err (ErrNew "runtime: publisher cannot execute command"), (n + 3)%nat)
      end
  end.
End PublisherSide.

(** ** The subscriber's process *)

(** The reports of a [SubscriberReadiness], by key. *)
Abbreviation Reports := (gmap string Readiness).

Definition readinessKey (group transition : string) (epoch : Z) : string :=
  (group +:+ NUL +:+ transition +:+ NUL +:+ FormatUint epoch)%string.

Definition readiness_Report (r : Readiness) (reports : Reports) : Reports * gerr :=
  if str_empty (rd_Group r) || str_empty (rd_TransitionID r) || (rd_Epoch r =? 0)
  then (reports, Err (ErrNew "runtime: incomplete subscriber readiness")) else
  (<[readinessKey (rd_Group r) (rd_TransitionID r) (rd_Epoch r) := r]> reports,
   fail_if (negb (rd_Ready r)) (ErrNew "runtime: subscriber not ready")).

Definition readiness_ready (group transition : string) (epoch : Z) (reports : Reports) : bool :=
  match reports !! readinessKey group transition epoch with Some r => rd_Ready r | None => false end.

(** The loop over the resources of [participantResourceDestination]. *)
Definition match_resource (brokerID : string) (epoch : Z) (consumerSet matched : string)
    (resource : EpochResourceIdentity) : result string :=
  if (er_Epoch resource =? epoch) && str_eqb (er_BrokerID resource) brokerID &&
     str_eqb (er_ConsumerSet resource) consumerSet
  then if str_empty matched then Ok (er_QueueName resource) else Err (ErrNew "runtime: duplicate resource")
  else Ok matched.

Definition participantResourceDestination (snapshot : MembershipSnapshot) (consumerSet : string)
    (brokerID : string) (epoch : Z) (_ : DestinationInfo) : result string :=
  let resources := match ms_Transition snapshot with
    | Some t => if epoch =? tr_ToEpoch t then ms_ProposedResources snapshot else ms_CurrentResources snapshot
    | None => ms_CurrentResources snapshot
    end in
  let! matched := fold_result (match_resource brokerID epoch consumerSet) "" resources in
  fail_if (str_empty matched) (ErrNew "runtime: no resource for broker") ;;! Ok matched.

Section SubscriberSide.
Context {net_url : NetURL} `{RangeOrder} {P : Type} (library : CustomerLibrary P) (answer : nat -> gerr).

Record SubscriberSnapshotApplier := mkSubscriberSnapshotApplier {
  sa_Subscriber : bool;
  sa_Registration : option ParticipantRegistration;
  sa_Phases : bool;
}.

Definition subscriber_set (r : ParticipantRegistration) (group : string) : string :=
  if bool_decide (rg_ConsumerSets r = ∅) then rg_ConsumerSet r else default "" (rg_ConsumerSets r !! group).

(** [Apply] up to the registration. *)
Definition subscriber_apply_shim (a : SubscriberSnapshotApplier) (m : Message) (s : Shim)
    : Shim * result MembershipSnapshot :=
  match m_Snapshot m with
  | Some snapshot =>
      if negb (sa_Subscriber a) || negb (bool_decide (m_Kind m = KindMembershipSnapshot))
      then (s, Err (ErrNew "runtime: subscriber membership applier received an invalid message")) else
      match sa_Registration a with
      | None => (s, Err (ErrNew "runtime: subscriber registration is not configured"))
      | Some registration =>
          let consumerSet := subscriber_set registration (ms_ScalingGroup snapshot) in
          if str_empty consumerSet then (s, Err (ErrNew "runtime: subscriber has no consumer set for group")) else
          let '(err, s) := ApplySnapshot library answer snapshot
            (Some (participantResourceDestination snapshot consumerSet)) s in
          (s, match err with
              | Err e => Err e
              | Ok _ =>
                  if negb (sa_Phases a)
                  then Err (ErrNew "runtime: subscriber registration and phase state are not configured")
                  else Ok snapshot
              end)
      end
  | None => (s, Err (ErrNew "runtime: subscriber membership applier received an invalid message"))
  end.

Definition subscriber_Apply (a : SubscriberSnapshotApplier) (observed : Time)
    (publish : RegistrationEnvelope -> gerr) (m : Message) (s : Shim) (phases : PhaseState)
    : Shim * PhaseState * gerr :=
  let '(s, r) := subscriber_apply_shim a m s in
  match r with
  | Err e => (s, phases, Err e)
  | Ok snapshot =>
      match registration_Publish (sa_Registration a) observed publish snapshot with
      | Err e => (s, phases, Err e)
      | Ok _ => (s, phases_Record snapshot phases, nil_err)
      end
  end.

Definition subscriber_FailClosed (a : SubscriberSnapshotApplier) (group : string) (s : Shim)
    (phases : PhaseState) : Shim * PhaseState * gerr :=
  if negb (sa_Subscriber a) then (s, phases, Err (ErrNew "runtime: subscriber membership applier is not initialized")) else
  let phases := if sa_Phases a then phases_Clear group phases else phases in
  let '(err, s) := Subscriber.FailClosed answer group s in (s, phases, err).

(** *** Commands *)
Context {St : Type} (reports_of : St -> Reports) (phases_of : St -> PhaseState) (look : nat -> Moment St).

(** [given]: the readiness, the applier, its subscriber and the phases are not
    nil. *)
Definition subscriber_Execute (given : bool) (fuel : nat) (command : CommandEnvelope) (n : nat)
    : option (gerr * nat) :=
  if negb given then Some (Err (ErrNew "runtime: subscriber command executor is not initialized"), n) else
  match phases_Wait phases_of look fuel command n with
  | None => None
  | Some (Err e, n) => Some (Err e, n)
  | Some (Ok _, n) =>
      match ce_Phase command with
      | CPrepare | CDrain =>
          Some (fail_if (negb (readiness_ready (ce_Group command) (ce_TransitionID command) (ce_Epoch command)
                                 (reports_of (mo_state (look n)))))
                  (ErrNew "runtime: subscriber destination readiness has not been established"), (n + 1)%nat)
      | CActive => Some (nil_err, n)
      | _ => Some (Err (ErrNew "runtime: subscriber cannot execute command"), n)
      end
  end.
End SubscriberSide.
