(* ===== verification/ParticipantTheorems.v ===== *)
(** * Theorems on the participant processes

    The appliers of Participant.v in regions, interleaved with the goroutines of
    the shims; the recorded phases against the state of the shim; and what an
    executed command says about it. *)

From S2P Require Import Prelude Float64 Policy Heap Customer Routing Snapshot Messages Naming Outbox OutboxMemory OutboxStore OutboxLoad.
From S2P Require Import Publisher PublisherInv PublisherRun PublisherTheorems Async AsyncRun AsyncInv AsyncSteps AsyncTheorems.
From S2P Require Import Lane Subscriber SubscriberInv SubscriberClose SubscriberTheorems Wire WireTheorems Config Broker0 Participant.
From Stdlib Require Import ZArith Lia.
From stdpp Require Import base gmap strings numbers option relations list.
#[local] Open Scope Z_scope.

(** ** Waiting *)
Section Wait.
Context {St : Type} (phases_of : St -> gmap string MembershipSnapshot) (look : nat -> Moment St).

Lemma phases_Wait_ok fuel command : forall n k,
  phases_Wait phases_of look fuel command n = Some (nil_err, k) ->
  exists i, (n <= i)%nat /\ k = (i + 1)%nat /\ phase_reached (phases_of (mo_state (look i))) command = true.
Proof.
  induction fuel as [|fuel IH]; intros n k; cbn [phases_Wait]; [done|].
  destruct (phase_reached _ _) eqn:E.
  { intros [= <-]. exists n. split_and!; [lia|done|done]. }
  destruct (_ <=? 0); [done|]. destruct (mo_wake _); try done.
  intros (i & Hi & -> & Hr)%IH. exists i. split_and!; [lia|done|done].
Qed.

(** [Wait] ends: at the latest when a look finds the clock at the deadline. *)
Lemma phases_Wait_returns command : forall fuel n,
  (forall m, (n + 2 * fuel <= m)%nat -> ce_Deadline command <= mo_now (look m)) ->
  is_Some (phases_Wait phases_of look (fuel + 1) command n).
Proof.
  induction fuel as [|fuel IH]; intros n H; cbn [Nat.add phases_Wait].
  - destruct (phase_reached _ _); [done|]. destruct (Z.leb_spec (time_Sub (ce_Deadline command) (mo_now (look (n + 1)))) 0) as [|Hl]; [done|].
    specialize (H (n + 1)%nat ltac:(lia)). unfold time_Sub, clamp_i64, max_i64, min_i64 in Hl. lia.
  - destruct (phase_reached _ _); [done|]. destruct (_ <=? 0); [done|]. destruct (mo_wake _); try done.
    apply IH. intros m Hm. apply H. lia.
Qed.
End Wait.

(** Where a group's applier is between the regions of [Apply] and [FailClosed];
    a group without an entry is between calls, [Failed] after an [Apply] that
    returned an error. *)
Inductive stage : Type :=
| Registering (snapshot : MembershipSnapshot)
| Recording (snapshot : MembershipSnapshot)
| Failed
| Closing.

Definition may_call (st : option stage) : Prop := st = None \/ st = Some Failed.

Definition after_shim (r : result MembershipSnapshot) : stage :=
  match r with Ok snapshot => Registering snapshot | Err _ => Failed end.
Definition after_registration (snapshot : MembershipSnapshot) (r : gerr) : stage :=
  match r with Ok _ => Recording snapshot | Err _ => Failed end.

(** ** The publisher's process *)
Section PublisherSide.
Context {P : Type} (library : CustomerLibrary P) (encode_payload : P -> result (list Z)).
Context {B : Type} `{!Bolt B} {net_url : NetURL}.
Context (authority : string -> Z -> option MembershipSnapshot).
Context (applier : PublisherSnapshotApplier).
Abbreviation async_step := (async_step library encode_payload authority).
Abbreviation paused_step := (paused_step library encode_payload authority).
Abbreviation published := (published authority).
Abbreviation ainv := (ainv library authority).

Record process := mkProcess {
  pc_sys : System B * gset string;
  pc_phases : gmap string MembershipSnapshot;
  pc_stage : gmap string stage;
}.
Implicit Types pc : process.

Definition publisher_of (s : System B) : Publisher B := ad_publisher (sy_d s).
Definition with_publisher (p : Publisher B) (s : System B) : System B := s <| sy_d := sy_d s <| ad_publisher := p |> |>.
Definition membership_of pc : gmap string MembershipSnapshot := p_membership (publisher_of (fst (pc_sys pc))).
Definition dispatcher_in pc : AsyncDispatcher B := sy_d (fst (pc_sys pc)).

(** The goroutines of the dispatcher and the application leave the membership
    to the appliers, which run one per group. *)
Inductive publisher_step : process -> process -> Prop :=
| pb_run c c' ph st :
    async_step c c' -> p_membership (publisher_of (fst c')) = p_membership (publisher_of (fst c)) ->
    publisher_step (mkProcess c ph st) (mkProcess c' ph st)
| pb_apply now m snapshot s used p r ph st :
    m_Snapshot m = Some snapshot -> published snapshot -> holds_lock (sy_dispatch s) = false ->
    may_call (st !! ms_ScalingGroup snapshot) ->
    publisher_apply_shim library applier now m (publisher_of s) = (p, r) ->
    publisher_step (mkProcess (s, used) ph st)
      (mkProcess (with_publisher p s, used) ph (<[ms_ScalingGroup snapshot := after_shim r]> st))
| pb_register group snapshot observed publish c ph st :
    st !! group = Some (Registering snapshot) ->
    publisher_step (mkProcess c ph st)
      (mkProcess c ph (<[group := after_registration snapshot
         (registration_Publish (pa_Registration applier) observed publish snapshot)]> st))
| pb_record group snapshot c ph st :
    st !! group = Some (Recording snapshot) ->
    publisher_step (mkProcess c ph st) (mkProcess c (phases_Record snapshot ph) (delete group st))
| pb_clear group c ph st :
    may_call (st !! group) -> pa_Phases applier = true ->
    publisher_step (mkProcess c ph st) (mkProcess c (phases_Clear group ph) (<[group := Closing]> st))
| pb_close group s used p err ph st :
    st !! group = Some Closing -> holds_lock (sy_dispatch s) = false ->
    Publisher.FailClosed group (publisher_of s) = (p, err) ->
    publisher_step (mkProcess (s, used) ph st)
      (mkProcess (with_publisher p s, used) ph
         (match err with Ok _ => delete group st | Err _ => <[group := Failed]> st end)).

Lemma with_publisher_same s : with_publisher (publisher_of s) s = s.
Proof. by destruct s as [[] ? ? ?]. Qed.
Lemma publisher_of_with p s : publisher_of (with_publisher p s) = p.
Proof. done. Qed.

(** [Apply] and [FailClosed] are their regions in a row. *)
Lemma publisher_Apply_regions now observed publish m snapshot s used p ph ph' err st :
  m_Snapshot m = Some snapshot -> published snapshot -> holds_lock (sy_dispatch s) = false ->
  may_call (st !! ms_ScalingGroup snapshot) ->
  publisher_Apply library applier now observed publish m (publisher_of s) ph = (p, ph', err) ->
  exists st', rtc publisher_step (mkProcess (s, used) ph st) (mkProcess (with_publisher p s, used) ph' st') /\
    st' !! ms_ScalingGroup snapshot = match err with Ok _ => None | Err _ => Some Failed end.
Proof.
  intros Hm Hp Hl Hc. unfold publisher_Apply.
  destruct (publisher_apply_shim library applier now m (publisher_of s)) as [p1 r] eqn:Es.
  pose proof (pb_apply now m snapshot s used p1 r ph st Hm Hp Hl Hc Es) as H1.
  destruct r as [snapshot'|e]; cbn [after_shim] in H1.
  2:{ intros [= <- <- <-]. eexists. split; [by apply rtc_once|]. by rewrite lookup_insert_eq. }
  assert (snapshot' = snapshot) as ->.
  { unfold publisher_apply_shim in Es. rewrite Hm in Es. destruct (_ || _); [done|].
    destruct (ApplyMembership _ _ _ _) as [? [[]|]]; [|done]. by destruct (_ || _); simplify_eq. }
  pose proof (pb_register (ms_ScalingGroup snapshot) snapshot observed publish (with_publisher p1 s, used) ph
    (<[ms_ScalingGroup snapshot := Registering snapshot]> st) ltac:(by rewrite lookup_insert_eq)) as H2.
  destruct (registration_Publish _ _ _ _) as [[]|e]; cbn [after_registration] in H2; intros [= <- <- <-].
  - eexists. split.
    + eapply rtc_l; [exact H1|]. eapply rtc_l; [exact H2|]. apply rtc_once, (pb_record (ms_ScalingGroup snapshot)).
      by rewrite lookup_insert_eq.
    + by rewrite lookup_delete_eq.
  - eexists. split; [eapply rtc_l; [exact H1|]; by apply rtc_once|]. by rewrite lookup_insert_eq.
Qed.

Lemma publisher_FailClosed_regions group s used p ph ph' st err :
  pa_Publisher applier = true -> pa_Phases applier = true -> holds_lock (sy_dispatch s) = false ->
  may_call (st !! group) -> publisher_FailClosed applier group (publisher_of s) ph = (p, ph', err) ->
  exists st', rtc publisher_step (mkProcess (s, used) ph st) (mkProcess (with_publisher p s, used) ph' st') /\
    st' !! group = match err with Ok _ => None | Err _ => Some Failed end.
Proof.
  intros H1 H2 Hl Hc. unfold publisher_FailClosed. rewrite H1, H2. cbn [negb].
  destruct (Publisher.FailClosed group (publisher_of s)) as [p1 e1] eqn:E. intros [= <- <- <-].
  pose proof (pb_clear group (s, used) ph st Hc H2) as S1.
  pose proof (pb_close group s used p1 e1 (phases_Clear group ph) (<[group := Closing]> st)
    ltac:(by rewrite lookup_insert_eq) Hl E) as S2.
  eexists. split; [eapply rtc_l; [exact S1|]; by apply rtc_once|].
  destruct e1; [by rewrite lookup_delete_eq|by rewrite lookup_insert_eq].
Qed.

(** A step of the process is one of the dispatcher's system, or leaves it. *)
Lemma publisher_step_sys pc pc' : publisher_step pc pc' -> async_step (pc_sys pc) (pc_sys pc') \/ pc_sys pc' = pc_sys pc.
Proof.
  destruct 1 as [c c' ph st H _|now m snapshot s used p r ph st Hm Hp Hl _ E|group snapshot o q c ph st _
    |group snapshot c ph st _|group c ph st _ _|group s used p err ph st _ Hl E]; cbn; try by right.
  - by left.
  - unfold publisher_apply_shim in E. rewrite Hm in E.
    destruct (_ || _); [right; injection E as <- <-; by rewrite with_publisher_same|].
    destruct (ApplyMembership library now snapshot (publisher_of s)) as [p1 err] eqn:Ea. injection E as <- _.
    left. apply as_others. rewrite Hl. by eapply ot_apply.
  - left. apply as_others. rewrite Hl. by eapply ot_fail_closed.
Qed.

Lemma publisher_steps_sys pc pc' : rtc publisher_step pc pc' -> rtc async_step (pc_sys pc) (pc_sys pc').
Proof.
  induction 1 as [|pc1 pc2 pc3 H _ IH]; [done|].
  destruct (publisher_step_sys _ _ H) as [Hs|Hs]; [by eapply rtc_l|by rewrite <- Hs].
Qed.
(** *** Recorded phases against the installed membership *)
Lemma apply_shim_cases now m snapshot p used p' r :
  m_Snapshot m = Some snapshot -> pinv library authority p used -> published snapshot ->
  publisher_apply_shim library applier now m p = (p', r) ->
  (forall g, g <> ms_ScalingGroup snapshot -> p_membership p' !! g = p_membership p !! g) /\
  (forall s, r = Ok s -> s = snapshot /\ p_membership p' !! ms_ScalingGroup snapshot = Some snapshot) /\
  (forall s, p_membership p !! ms_ScalingGroup snapshot = Some s ->
     exists s', p_membership p' !! ms_ScalingGroup snapshot = Some s' /\ ms_Revision s <= ms_Revision s').
Proof.
  intros Hm Hp Hpub. unfold publisher_apply_shim. rewrite Hm.
  destruct (negb (pa_Publisher applier) || _); [intros [= <- <-]; split_and!; [done..|eauto with lia]|].
  destruct (ApplyMembership library now snapshot p) as [p1 err] eqn:Ea. intros [= <- <-].
  destruct (ApplyMembership_ok _ _ _ _ _ _ _ _ Hp Hpub Ea) as [_ Hc]. destruct err as [[]|e].
  - destruct Hc as [[-> Hs]|[[Hi _] Hn]].
    + split_and!; [done| |eauto with lia]. intros s. destruct (_ || _); naive_solver.
    + rewrite Hi. split_and!.
      * intros g Hg. by rewrite lookup_insert_ne by congruence.
      * rewrite lookup_insert_eq. intros s. destruct (_ || _); naive_solver.
      * intros s Hs. rewrite lookup_insert_eq. eexists. split; [done|]. apply Hn in Hs. lia.
  - destruct Hc as [-> _]. split_and!; [done..|eauto with lia].
Qed.

Record mirror pc : Prop := {
  mi_inv : ainv (fst (pc_sys pc)) (snd (pc_sys pc));
  mi_idle : forall g, pc_stage pc !! g = None -> pc_phases pc !! g = membership_of pc !! g;
  mi_busy : forall g s, pc_stage pc !! g = Some (Registering s) \/ pc_stage pc !! g = Some (Recording s) ->
    ms_ScalingGroup s = g /\ membership_of pc !! g = Some s;
  mi_closing : forall g, pc_stage pc !! g = Some Closing -> pc_phases pc !! g = None;
  mi_behind : forall g s, pc_phases pc !! g = Some s ->
    exists s', membership_of pc !! g = Some s' /\ ms_Revision s <= ms_Revision s';
}.

Lemma sys_inv pc pc' :
  publisher_step pc pc' -> ainv (fst (pc_sys pc)) (snd (pc_sys pc)) -> ainv (fst (pc_sys pc')) (snd (pc_sys pc')).
Proof. intros [Hs| ->]%publisher_step_sys Hi; [by eapply ainv_step|done]. Qed.

Lemma apply_mirror now m snapshot s used p r ph st :
  m_Snapshot m = Some snapshot -> published snapshot ->
  publisher_apply_shim library applier now m (publisher_of s) = (p, r) ->
  mirror (mkProcess (s, used) ph st) -> ainv (with_publisher p s) used ->
  mirror (mkProcess (with_publisher p s, used) ph (<[ms_ScalingGroup snapshot := after_shim r]> st)).
Proof.
  intros Hm Hpub E [I1 I2 I3 I4 I5] Hi. unfold membership_of in *. cbn in *.
  destruct (apply_shim_cases _ _ _ _ _ _ _ Hm (ai_pub _ _ _ _ I1) Hpub E) as (A1 & A2 & A3).
  split; unfold membership_of; cbn; [done|..].
  - intros g [Hg Hn]%lookup_insert_None. rewrite A1 by done. by apply I2.
  - intros g s' [[[<- Hr]|[Hn Hg]]%lookup_insert_Some|[[<- Hr]|[Hn Hg]]%lookup_insert_Some].
    + destruct r as [s1|]; [|done]. injection Hr as <-. by destruct (A2 s1 eq_refl) as [-> ?].
    + rewrite A1 by done. apply I3. by left.
    + by destruct r.
    + rewrite A1 by done. apply I3. by right.
  - intros g [[<- Hr]|[_ Hg]]%lookup_insert_Some; [by destruct r|by apply I4].
  - intros g s' Hg. destruct (I5 g s' Hg) as (s1 & H1 & Hle).
    destruct (decide (g = ms_ScalingGroup snapshot)) as [->|Hne]; [|rewrite A1 by done; eauto].
    destruct (A3 s1 H1) as (s2 & H2 & Hle'). exists s2. split; [done|lia].
Qed.

Lemma FailClosed_membership group (p p' : Publisher B) err g :
  Publisher.FailClosed group p = (p', err) -> g <> group -> p_membership p' !! g = p_membership p !! g.
Proof.
  unfold Publisher.FailClosed. destruct (str_empty group); intros [= <- <-] Hg; [done|]. cbn. by rewrite lookup_delete_ne.
Qed.

Lemma close_mirror group s used p err ph st :
  st !! group = Some Closing -> Publisher.FailClosed group (publisher_of s) = (p, err) ->
  mirror (mkProcess (s, used) ph st) -> ainv (with_publisher p s) used ->
  mirror (mkProcess (with_publisher p s, used) ph
    (match err with Ok _ => delete group st | Err _ => <[group := Failed]> st end)).
Proof.
  intros Hs E [I1 I2 I3 I4 I5] Hi. unfold membership_of in *. cbn in *.
  set (st' := match err with Ok _ => _ | Err _ => _ end).
  assert (Hst : forall g x, x <> Failed -> st' !! g = Some x -> g <> group /\ st !! g = Some x).
  { intros g x Hx. subst st'. destruct err; rewrite ?lookup_delete_Some, ?lookup_insert_Some; naive_solver. }
  split; unfold membership_of; cbn; [done|..].
  - intros g. subst st'. destruct (decide (g = group)) as [->|Hne].
    + unfold Publisher.FailClosed in E. destruct (str_empty group); injection E as <- <-; [by rewrite lookup_insert_eq|].
      intros _. cbn. by rewrite lookup_delete_eq, I4.
    + rewrite (FailClosed_membership _ _ _ _ _ E Hne). intros Hg. apply I2.
      destruct err; [by rewrite lookup_delete_ne in Hg by done|by rewrite lookup_insert_ne in Hg by done].
  - intros g s' Hor. assert (g <> group /\ (st !! g = Some (Registering s') \/ st !! g = Some (Recording s'))) as [Hne Ho].
    { destruct Hor as [Hg|Hg]; apply Hst in Hg as [? ?]; auto. }
    rewrite (FailClosed_membership _ _ _ _ _ E Hne). by apply I3.
  - intros g [_ Hg]%Hst; [by apply I4|done].
  - intros g s' Hg. destruct (decide (g = group)) as [->|Hne]; [by rewrite I4 in Hg|].
    rewrite (FailClosed_membership _ _ _ _ _ E Hne). by apply I5.
Qed.

Lemma mirror_step pc pc' : publisher_step pc pc' -> mirror pc -> mirror pc'.
Proof.
  intros H Hm. pose proof (sys_inv _ _ H (mi_inv _ Hm)) as Hi'.
  destruct H as [c c' ph st H E|now m snapshot s used p r ph st Hs Hp Hl Hc E|group snapshot o q c ph st Hs
    |group snapshot c ph st Hs|group c ph st Hs Hp|group s used p err ph st Hs Hl E].
  2:{ by eapply apply_mirror. } 5:{ by eapply close_mirror. }
  all: destruct Hm as [I1 I2 I3 I4 I5]; unfold membership_of in *; cbn in *;
    split; unfold membership_of; cbn; try done.
  - by rewrite E.
  - by rewrite E.
  - by rewrite E.
  - intros g [Hg Hn]%lookup_insert_None. by apply I2.
  - intros g s' [[[<- Hr]|[Hn Hg]]%lookup_insert_Some|[[<- Hr]|[Hn Hg]]%lookup_insert_Some].
    + by destruct (registration_Publish _ _ _ _).
    + apply I3. by left.
    + destruct (registration_Publish _ _ _ _); [|done]. injection Hr as <-. apply I3. by left.
    + apply I3. by right.
  - intros g [[<- Hr]|[_ Hg]]%lookup_insert_Some; [by destruct (registration_Publish _ _ _ _)|by apply I4].
  - destruct (I3 group snapshot ltac:(by right)) as [Eg Hg].
    intros g [<-|Hst]%lookup_delete_None; unfold phases_Record; rewrite Eg.
    + by rewrite lookup_insert_eq, Hg.
    + destruct (decide (group = g)) as [<-|Hne]; [by rewrite lookup_insert_eq, Hg|].
      rewrite lookup_insert_ne by done. by apply I2.
  - intros g s' Hor. apply I3. rewrite !lookup_delete_Some in Hor. naive_solver.
  - intros g [Hne Hg]%lookup_delete_Some. destruct (I3 group snapshot ltac:(by right)) as [Eg _].
    unfold phases_Record. rewrite Eg, lookup_insert_ne by done. by apply I4.
  - destruct (I3 group snapshot ltac:(by right)) as [Eg Hg]. intros g s'. unfold phases_Record. rewrite Eg.
    intros [[<- <-]|[Hne Hph]]%lookup_insert_Some; [eauto with lia|by apply I5].
  - intros g [Hg Hn]%lookup_insert_None. unfold phases_Clear. rewrite lookup_delete_ne by done. by apply I2.
  - intros g s' Hor. apply I3. rewrite !lookup_insert_Some in Hor. naive_solver.
  - intros g Hg. unfold phases_Clear. destruct (decide (group = g)) as [<-|Hne]; [by rewrite lookup_delete_eq|].
    rewrite lookup_delete_ne by done. apply I4. by rewrite lookup_insert_ne in Hg.
  - unfold phases_Clear. intros g s' [_ Hg]%lookup_delete_Some. by apply I5.
Qed.

Lemma mirror_steps pc pc' : rtc publisher_step pc pc' -> mirror pc -> mirror pc'.
Proof. induction 1; eauto using mirror_step. Qed.
(** In every run, when no call is under way in a group and the last one did not
    fail, the recorded phase is exactly the snapshot the publisher routes by,
    and none is recorded after a revocation; a recorded phase is never ahead of
    the installed membership. *)
Theorem recorded_phases_installed config start used pc :
  async_started library authority config start used -> p_membership (publisher_of start) = ∅ ->
  rtc publisher_step (mkProcess (start, used) ∅ ∅) pc ->
  (forall g, pc_stage pc !! g = None -> pc_phases pc !! g = membership_of pc !! g) /\
  (forall g s, pc_phases pc !! g = Some s ->
     exists s', membership_of pc !! g = Some s' /\ ms_Revision s <= ms_Revision s').
Proof.
  intros H0 H1 H. apply mirror_steps in H; [by destruct H|].
  split; unfold membership_of; cbn; rewrite ?H1; try done; [by eapply started_ainv|naive_solver].
Qed.

(** *** Commands *)

(** A step after which the group is PAUSED. *)
Definition stays_paused (group : string) pc pc' : Prop :=
  publisher_step pc pc' /\ paused_in group (fst (pc_sys pc')).

Lemma stays_paused_sys group pc pc' :
  rtc (stays_paused group) pc pc' -> rtc (paused_step group) (pc_sys pc) (pc_sys pc').
Proof.
  induction 1 as [|pc1 pc2 pc3 [H Hp] _ IH]; [done|].
  destruct (publisher_step_sys _ _ H) as [Hs|Hs]; [eapply rtc_l; [by split|done]|by rewrite <- Hs].
Qed.

Lemma WaitQuiescent_ok look fuel group : forall n status k,
  WaitQuiescent dispatcher_in look fuel group n = Some (status, nil_err, k) ->
  exists i, (n <= i)%nat /\ k = (i + 3)%nat /\ ss_Quiescent (status_at dispatcher_in look group i) = true.
Proof.
  induction fuel as [|fuel IH]; intros n status k; cbn [WaitQuiescent]; [done|].
  destruct (ss_Quiescent _) eqn:E; [intros [= <- <-]; exists n; by split_and!; [lia|..]|].
  destruct (mo_wake _); try done; intros (i & Hi & -> & Hr)%IH; exists i; by split_and!; [lia|..].
Qed.

(** Reaches of a timeline compose. *)
Lemma timeline_reach (R : process -> process -> Prop) (look : nat -> Moment process) i m :
  (i <= m)%nat -> (forall j, (i <= j < m)%nat -> rtc R (mo_state (look j)) (mo_state (look (j + 1)%nat))) ->
  rtc R (mo_state (look i)) (mo_state (look m)).
Proof.
  induction 1 as [|m Hm IH]; intros H; [done|]. etrans; [apply IH; intros j Hj; apply H; lia|].
  specialize (H m ltac:(lia)). by rewrite Nat.add_1_r in H.
Qed.

(** C25: when a publisher executes a PAUSED command with success, which lets it
    be acknowledged, then during the execution the phase it had recorded was
    the command's and the membership it routed by was PAUSED for the command's
    transition; and if the outbox was open at the last status, then from the
    return on, for as long as the group has stayed PAUSED since that status and
    whatever the other goroutines do (they accept no event ID twice), none of its
    records is in flight or uncertain and no attempt of the group is unresolved. *)
Theorem executed_pause_means_quiet config start used (look : nat -> Moment process) fuel command n k :
  async_started library authority config start used -> mo_state (look O) = mkProcess (start, used) ∅ ∅ ->
  (forall j, rtc publisher_step (mo_state (look j)) (mo_state (look (j + 1)%nat))) ->
  ce_Phase command = CPaused ->
  publisher_Execute dispatcher_in pc_phases look true fuel command n = Some (nil_err, k) ->
  exists a b i, (n <= a < b)%nat /\ (b < i)%nat /\ k = (i + 3)%nat /\
    phase_reached (pc_phases (mo_state (look a))) command = true /\
    (exists snapshot, membership_of (mo_state (look b)) !! ce_Group command = Some snapshot /\
       ms_Phase snapshot = CPaused /\ default "" (tr_ID <$> ms_Transition snapshot) = ce_TransitionID command) /\
    (is_open (p_outbox (publisher_of (fst (pc_sys (mo_state (look (i + 1)%nat)))))) = true ->
     forall m, (k <= m)%nat ->
     (forall j, (i <= j < m)%nat -> rtc (stays_paused (ce_Group command)) (mo_state (look j)) (mo_state (look (j + 1)%nat))) ->
     let s := fst (pc_sys (mo_state (look m))) in
     (forall a, a ∈ carried s -> exists q, ad_pending (sy_d s) !! pa_EventID a = Some q /\ pd_group q <> ce_Group command) /\
     (forall r, r ∈ recs (p_outbox (publisher_of s)) -> r_Group r = ce_Group command ->
        r_State r <> StateInEventsA /\ r_State r <> StateAckUncertain)).
Proof.
  intros H0 Hl Hrun Hph. unfold publisher_Execute. cbn [negb]. rewrite Hph.
  destruct (phases_Wait _ _ _ _ _) as [[[[]|e] w]|] eqn:Ew; try done.
  apply phases_Wait_ok in Ew as (a & Ha & -> & Hr). destruct (_ || _) eqn:Es; [done|].
  destruct (WaitQuiescent _ _ _ _ _) as [[[status [[]|e]] w]|] eqn:Eq; try done.
  apply WaitQuiescent_ok in Eq as (i & Hi & -> & Hq). destruct (fail_if _ _); [|done]. intros [= ->].
  exists a, (a + 1)%nat, i. apply orb_false_iff in Es as [Es1%negb_false_iff Es2%negb_false_iff].
  split_and!; [lia|lia|lia|done|done| |].
  - unfold status_at, Status, membership_of in *. cbn in Es1, Es2. apply str_eqb_true in Es2.
    change (publisher_of (fst (pc_sys ?x))) with (ad_publisher (dispatcher_in x)).
    destruct (p_membership _ !! ce_Group command) as [snapshot|]; [|done].
    apply bool_decide_eq_true in Es1. by exists snapshot.
  - intros Ho m Hm Hst. cbv zeta.
    assert (Hp : forall x y, (i <= x <= y)%nat -> (y <= m)%nat ->
      rtc (paused_step (ce_Group command)) (pc_sys (mo_state (look x))) (pc_sys (mo_state (look y)))).
    { intros x y Hx Hy. apply stays_paused_sys, timeline_reach; [lia|]. intros j Hj. apply Hst. lia. }
    eapply (quiescent_sound library encode_payload authority config (ce_Group command) start used
      (pc_sys (mo_state (look i))) (pc_sys (mo_state (look (i + 1)%nat))) (pc_sys (mo_state (look (i + 2)%nat))) _ H0);
      [|apply Hp; lia|apply Hp; lia|apply Hp; lia|exact Ho|exact Hq].
    assert (Hr0 : rtc publisher_step (mo_state (look O)) (mo_state (look i))) by (apply timeline_reach; [lia|auto]).
    apply publisher_steps_sys in Hr0. by rewrite Hl in Hr0.
Qed.
End PublisherSide.

(** ** The subscriber's queues *)
Section Resources.
Context {net_url : NetURL}.

(** The resources of one broker and consumer set. *)
Definition serves (broker set : string) (r : EpochResourceIdentity) : Prop :=
  er_BrokerID r = broker /\ er_ConsumerSet r = set.

Lemma resources_loop_unique epoch brokers resources : forall acc acc',
  resources_loop epoch brokers acc resources = Ok acc' ->
  (forall r, r ∈ resources -> er_Epoch r = epoch /\ er_QueueName r <> ""%string /\
     (er_BrokerID r +:+ NUL +:+ er_ConsumerSet r)%string ∉ ra_seen acc) /\
  NoDup ((fun r => (er_BrokerID r, er_ConsumerSet r)) <$> resources).
Proof.
  induction resources as [|r rest IH]; intros acc acc' H; cbn [resources_loop] in H.
  { split; [set_solver|constructor]. }
  seq_ok. repeat match goal with H : fail_if _ _ = nil_err |- _ => apply fail_if_ok in H end.
  match goal with H : resources_loop _ _ _ rest = _ |- _ => destruct (IH _ _ H) as [I1 I2]; clear H end.
  cbn [ra_seen] in I1.
  repeat match goal with H : negb _ = false |- _ => apply negb_false_iff in H
    | H : bool_decide _ = false |- _ => apply bool_decide_eq_false in H
    | H : (_ =? _) = true |- _ => apply Z.eqb_eq in H end.
  split.
  - intros x [->|Hx]%elem_of_cons; [split_and!; [done|by eapply validateIdentifier_nonempty|done]|].
    destruct (I1 x Hx) as (? & ? & Hn). split_and!; [done..|]. set_solver.
  - rewrite fmap_cons. constructor; [|done]. intros (x & Ex & Hx)%list_elem_of_fmap.
    destruct (I1 x Hx) as (_ & _ & Hn). apply Hn. injection Ex as -> ->. set_solver.
Qed.

Lemma match_resource_other broker epoch set matched l :
  (forall r, r ∈ l -> ~ serves broker set r) ->
  fold_result (match_resource broker epoch set) matched l = Ok matched.
Proof.
  induction l as [|r l IH]; intros H; cbn; [done|]. unfold match_resource at 1.
  destruct (str_eqb (er_BrokerID r) broker && str_eqb (er_ConsumerSet r) set) eqn:E.
  { apply andb_true_iff in E as [E1%str_eqb_true E2%str_eqb_true]. exfalso. apply (H r); [left|by split]. }
  rewrite <- andb_assoc, E, andb_false_r. apply IH. intros x Hx. apply H. by right.
Qed.

Lemma match_resource_found epoch r l :
  NoDup ((fun r => (er_BrokerID r, er_ConsumerSet r)) <$> l) -> r ∈ l -> er_Epoch r = epoch ->
  fold_result (match_resource (er_BrokerID r) epoch (er_ConsumerSet r)) "" l = Ok (er_QueueName r).
Proof.
  induction l as [|x l IH]; intros Hn Hr He; [by apply elem_of_nil in Hr|].
  rewrite fmap_cons in Hn. apply NoDup_cons in Hn as [Hx Hn]. cbn. unfold match_resource at 1.
  destruct (_ && _) eqn:E.
  - apply andb_true_iff in E as [[E0 E1%str_eqb_true]%andb_true_iff E2%str_eqb_true]. cbn.
    assert (x = r) as ->.
    { apply elem_of_cons in Hr as [->|Hr]; [done|]. exfalso. apply Hx. apply list_elem_of_fmap. exists r.
      by rewrite E1, E2. }
    apply match_resource_other. intros y Hy [Y1 Y2]. apply Hx. apply list_elem_of_fmap. exists y. by rewrite Y1, Y2.
  - apply elem_of_cons in Hr as [->|Hr]; [|by apply IH]. exfalso.
    by rewrite He, Z.eqb_refl, !str_eqb_refl in E.
Qed.

Lemma validateResources_unique resources epoch membership :
  validateResources resources epoch membership = nil_err ->
  (forall r, r ∈ resources -> er_Epoch r = epoch /\ er_QueueName r <> ""%string) /\
  NoDup ((fun r => (er_BrokerID r, er_ConsumerSet r)) <$> resources).
Proof.
  unfold validateResources. intros H. seq_ok.
  match goal with H : resources_loop _ _ _ _ = _ |- _ => destruct (resources_loop_unique _ _ _ _ _ H) as [I1 I2] end.
  split; [|done]. intros r Hr. by destruct (I1 r Hr) as (? & ? & _).
Qed.
Lemma resource_served resources epoch membership broker set :
  validateResources resources epoch membership = nil_err -> broker ∈ membership ->
  set ∈ er_ConsumerSet <$> resources -> exists r, r ∈ resources /\ serves broker set r.
Proof.
  intros H Hb Hs. pose proof (validateResources_cover _ _ _ _ H Hb) as E.
  assert (Hsub : (list_to_set (sets_on broker resources) : gset string) ⊆ list_to_set (er_ConsumerSet <$> resources)).
  { intros x. rewrite !elem_of_list_to_set. unfold sets_on.
    intros (r & -> & [_ Hr]%list_elem_of_filter)%list_elem_of_fmap. by apply list_elem_of_fmap_2. }
  pose proof (set_subseteq_size_eq _ _ Hsub ltac:(lia)) as Eq.
  assert (Hin : set ∈ (list_to_set (sets_on broker resources) : gset string)) by (rewrite Eq; by apply elem_of_list_to_set).
  apply elem_of_list_to_set in Hin. unfold sets_on in Hin.
  apply list_elem_of_fmap in Hin as (r & -> & [Hr1 Hr2]%list_elem_of_filter). by exists r.
Qed.

(** The queues a resolver picks: of one list of valid resources. *)
Lemma resource_resolved resources epoch membership broker set :
  validateResources resources epoch membership = nil_err -> broker ∈ membership ->
  set ∈ er_ConsumerSet <$> resources ->
  exists r, r ∈ resources /\ serves broker set r /\
    fold_result (match_resource broker epoch set) "" resources = Ok (er_QueueName r) /\ er_QueueName r <> ""%string.
Proof.
  intros H Hb Hs. destruct (resource_served _ _ _ _ _ H Hb Hs) as (r & Hr & [<- <-]).
  destruct (validateResources_unique _ _ _ H) as [H1 H2]. destruct (H1 r Hr) as [He Hq].
  exists r. split_and!; [done|done|by apply match_resource_found|done].
Qed.

Lemma Validate_resources snapshot :
  Validate snapshot = nil_err ->
  validateResources (ms_CurrentResources snapshot) (ms_Epoch snapshot) (ms_CurrentMembership snapshot) = nil_err /\
  match ms_Phase snapshot with
  | CActive => ms_Transition snapshot = None
  | CCommitted => True
  | _ => exists t, ms_Transition snapshot = Some t /\ tr_ToEpoch t <> ms_Epoch snapshot /\
      validateResources (ms_ProposedResources snapshot) (tr_ToEpoch t) (ms_ProposedMembership snapshot) = nil_err
  end.
Proof.
  unfold Validate, validate_common. intros H. rewrite !WireTheorems.seq_ok in H. destruct H as [Hc H].
  split; [apply Hc|]. clear Hc.
  assert (Ht : validate_transitioning snapshot = nil_err -> exists t, ms_Transition snapshot = Some t /\
    tr_ToEpoch t <> ms_Epoch snapshot /\
    validateResources (ms_ProposedResources snapshot) (tr_ToEpoch t) (ms_ProposedMembership snapshot) = nil_err).
  { unfold validate_transitioning. destruct (ms_Transition snapshot) as [t|]; intros Hv; seq_ok; [|done].
    exists t. split_and!; [done| |done].
    repeat match goal with H : fail_if _ _ = nil_err |- _ => apply fail_if_ok in H end. to_prop.
    match goal with H : tr_ToEpoch t = _ |- _ => rewrite H end. apply u64_succ_ne. }
  destruct (ms_Phase snapshot); try done; try by apply Ht.
  unfold validate_active in H. apply fail_if_ok in H. to_prop. destruct (ms_Transition snapshot); [|done].
  exfalso. eauto.
Qed.
End Resources.

(** The queue a subscriber binds is that of its own consumer set: in a valid
    snapshot that is not COMMITTED, and for a consumer set the resources know,
    [participantResourceDestination] gives for every member at the current
    epoch, and during a transition for every proposed member at the next, the
    queue of the one resource of that broker and set. *)
Theorem participant_queue_resolved {net_url : NetURL} snapshot set info :
  Validate snapshot = nil_err -> ms_Phase snapshot <> CCommitted ->
  (set ∈ er_ConsumerSet <$> ms_CurrentResources snapshot -> forall broker, broker ∈ ms_CurrentMembership snapshot ->
     exists r, r ∈ ms_CurrentResources snapshot /\ serves broker set r /\
       participantResourceDestination snapshot set broker (ms_Epoch snapshot) info = Ok (er_QueueName r)) /\
  (set ∈ er_ConsumerSet <$> ms_ProposedResources snapshot -> ms_Phase snapshot <> CActive ->
     exists t, ms_Transition snapshot = Some t /\ forall broker, broker ∈ ms_ProposedMembership snapshot ->
     exists r, r ∈ ms_ProposedResources snapshot /\ serves broker set r /\
       participantResourceDestination snapshot set broker (tr_ToEpoch t) info = Ok (er_QueueName r)).
Proof.
  intros Hv Hc. destruct (Validate_resources _ Hv) as [H1 H2]. unfold participantResourceDestination.
  assert (Hfin : forall q, q <> ""%string -> (fail_if (str_empty q) (ErrNew "runtime: no resource for broker") ;;! Ok q) = Ok q).
  { intros q Hq. by rewrite (proj2 (str_empty_false q) Hq). }
  split.
  - intros Hs broker Hb. destruct (resource_resolved _ _ _ _ _ H1 Hb Hs) as (r & Hr & Hrs & Ef & Hq).
    exists r. split_and!; [done..|].
    assert (E : match ms_Transition snapshot with
      | Some t => if ms_Epoch snapshot =? tr_ToEpoch t then ms_ProposedResources snapshot else ms_CurrentResources snapshot
      | None => ms_CurrentResources snapshot end = ms_CurrentResources snapshot).
    { destruct (ms_Phase snapshot); try done; [by rewrite H2|..];
        destruct H2 as (t & -> & Hne & _); by rewrite (proj2 (Z.eqb_neq _ _) (not_eq_sym Hne)). }
    rewrite E, Ef. by apply Hfin.
  - intros Hs Ha. assert (Ht : exists t, ms_Transition snapshot = Some t /\
      validateResources (ms_ProposedResources snapshot) (tr_ToEpoch t) (ms_ProposedMembership snapshot) = nil_err).
    { destruct (ms_Phase snapshot); try done; destruct H2 as (t & ? & _ & ?); by exists t. }
    destruct Ht as (t & Et & Hp). exists t. split; [done|]. intros broker Hb.
    destruct (resource_resolved _ _ _ _ _ Hp Hb Hs) as (r & Hr & Hrs & Ef & Hq).
    exists r. split_and!; [done..|]. rewrite Et, Z.eqb_refl, Ef. by apply Hfin.
Qed.

(** ** The subscriber's process *)
Section SubscriberSide.
Context {net_url : NetURL} `{RangeOrder} {P : Type} (library : CustomerLibrary P) (answer : nat -> gerr).
Context (applier : SubscriberSnapshotApplier).

Record sprocess := mkSprocess {
  sp_shim : Shim;
  sp_phases : gmap string MembershipSnapshot;
  sp_stage : gmap string stage;
}.
Implicit Types sp : sprocess.

(** The reports the shim has made, as [SubscriberReadiness] keeps them. *)
Definition reports_in sp : gmap string Readiness :=
  foldr (fun entry reports =>
    match fst entry with CallReport r => fst (readiness_Report r reports) | _ => reports end) ∅ (trace (sp_shim sp)).

Definition destination_for (snapshot : MembershipSnapshot)
    : option (string -> Z -> DestinationInfo -> result string) :=
  participantResourceDestination snapshot ∘ (fun r => subscriber_set r (ms_ScalingGroup snapshot)) <$> sa_Registration applier.

Inductive subscriber_step : sprocess -> sprocess -> Prop :=
| sb_apply m snapshot s s' r ph st :
    m_Snapshot m = Some snapshot -> calm snapshot (destination_for snapshot) s ->
    may_call (st !! ms_ScalingGroup snapshot) -> subscriber_apply_shim library answer applier m s = (s', r) ->
    subscriber_step (mkSprocess s ph st) (mkSprocess s' ph (<[ms_ScalingGroup snapshot := after_shim r]> st))
| sb_register group snapshot observed publish s ph st :
    st !! group = Some (Registering snapshot) ->
    subscriber_step (mkSprocess s ph st)
      (mkSprocess s ph (<[group := after_registration snapshot
         (registration_Publish (sa_Registration applier) observed publish snapshot)]> st))
| sb_record group snapshot s ph st :
    st !! group = Some (Recording snapshot) ->
    subscriber_step (mkSprocess s ph st) (mkSprocess s (phases_Record snapshot ph) (delete group st))
| sb_clear group s ph st :
    may_call (st !! group) -> sa_Phases applier = true ->
    subscriber_step (mkSprocess s ph st) (mkSprocess s (phases_Clear group ph) (<[group := Closing]> st))
| sb_close group s s' err ph st :
    st !! group = Some Closing -> Subscriber.FailClosed answer group s = (err, s') ->
    subscriber_step (mkSprocess s ph st)
      (mkSprocess s' ph (match err with Ok _ => delete group st | Err _ => <[group := Failed]> st end)).

Lemma subscriber_Apply_regions observed publish m snapshot s s' ph ph' err st :
  m_Snapshot m = Some snapshot -> calm snapshot (destination_for snapshot) s ->
  may_call (st !! ms_ScalingGroup snapshot) ->
  subscriber_Apply library answer applier observed publish m s ph = (s', ph', err) ->
  exists st', rtc subscriber_step (mkSprocess s ph st) (mkSprocess s' ph' st') /\
    st' !! ms_ScalingGroup snapshot = match err with Ok _ => None | Err _ => Some Failed end.
Proof.
  intros Hm Hcalm Hc. unfold subscriber_Apply.
  destruct (subscriber_apply_shim library answer applier m s) as [s1 r] eqn:Es.
  pose proof (sb_apply m snapshot s s1 r ph st Hm Hcalm Hc Es) as H1.
  destruct r as [snapshot'|e]; cbn [after_shim] in H1.
  2:{ intros [= <- <- <-]. eexists. split; [by apply rtc_once|]. by rewrite lookup_insert_eq. }
  assert (snapshot' = snapshot) as ->.
  { unfold subscriber_apply_shim in Es. rewrite Hm in Es. destruct (_ || _); [done|].
    destruct (sa_Registration applier); [|done]. destruct (str_empty _); [done|].
    destruct (ApplySnapshot _ _ _ _ _) as [[[]|] ?]; [|done]. by destruct (negb _); simplify_eq. }
  pose proof (sb_register (ms_ScalingGroup snapshot) snapshot observed publish s1 ph
    (<[ms_ScalingGroup snapshot := Registering snapshot]> st) ltac:(by rewrite lookup_insert_eq)) as H2.
  destruct (registration_Publish _ _ _ _) as [[]|e]; cbn [after_registration] in H2; intros [= <- <- <-].
  - eexists. split.
    + eapply rtc_l; [exact H1|]. eapply rtc_l; [exact H2|]. apply rtc_once, (sb_record (ms_ScalingGroup snapshot)).
      by rewrite lookup_insert_eq.
    + by rewrite lookup_delete_eq.
  - eexists. split; [eapply rtc_l; [exact H1|]; by apply rtc_once|]. by rewrite lookup_insert_eq.
Qed.
Lemma resolve_bindings_brokers destination snapshot proposed epoch m1 m2 brokers bs :
  resolve_bindings destination snapshot proposed epoch m1 m2 brokers = Ok bs -> b_BrokerID <$> bs = brokers.
Proof.
  unfold resolve_bindings. apply (fold_result_ind _ (fun pre acc => b_BrokerID <$> acc = pre)); [done|].
  intros pre x acc acc' IH. destruct (resolve_binding _ _ _ _ _ _ _) as [b|] eqn:E; [|done]. intros [= <-].
  apply resolve_binding_ok in E as (_ & Eb & _). rewrite fmap_app, IH. cbn. by rewrite Eb.
Qed.

Lemma TransitionFromSnapshot_fields snapshot destination tr :
  TransitionFromSnapshot snapshot destination = Ok tr ->
  exists t, ms_Transition snapshot = Some t /\ sx_ID tr = tr_ID t /\ sx_ProposedEpoch tr = tr_ToEpoch t /\
    b_BrokerID <$> sx_Source tr = ms_CurrentMembership snapshot /\
    b_BrokerID <$> sx_Proposed tr = ms_ProposedMembership snapshot.
Proof.
  unfold TransitionFromSnapshot. destruct (Validate snapshot) as [[]|]; [|done].
  destruct (ms_Phase snapshot); try done;
    (destruct destination as [destination|]; [|done]); (destruct (ms_Transition snapshot) as [x|]; [|done]);
    (destruct (resolve_bindings _ _ _ _ _ _ (ms_CurrentMembership _)) as [src|] eqn:E1; [|done]);
    (destruct (resolve_bindings _ _ _ _ _ _ (ms_ProposedMembership _)) as [prop|] eqn:E2; [|done]);
    cbv zeta; (destruct (transition_Validate _); [|done]); intros [= <-]; exists x; cbn;
    by rewrite (resolve_bindings_brokers _ _ _ _ _ _ _ _ E1), (resolve_bindings_brokers _ _ _ _ _ _ _ _ E2).
Qed.

(** The shim holds what the snapshot asks for: during a transition, its pending
    transition with a consumer for every proposed broker at the next epoch and
    for every current one; in ACTIVE, the consumers of the membership only. *)
Definition in_place (snapshot : MembershipSnapshot) (s : Shim) : Prop :=
  let g := group_of (ms_ScalingGroup snapshot) s in
  match ms_Phase snapshot with
  | CCommitted => True
  | CActive => gs_transition g = None /\
      exists bs, binds (ms_ScalingGroup snapshot) (ms_Epoch snapshot) (ms_CurrentMembership snapshot) bs /\
        dom (gs_active g) = keys_of bs
  | _ => exists t x, gs_transition g = Some t /\ ms_Transition snapshot = Some x /\
      sx_ID (pt_spec t) = tr_ID x /\ sx_ProposedEpoch (pt_spec t) = tr_ToEpoch x /\
      b_BrokerID <$> sx_Source (pt_spec t) = ms_CurrentMembership snapshot /\
      b_BrokerID <$> sx_Proposed (pt_spec t) = ms_ProposedMembership snapshot /\
      (forall b, b ∈ sx_Proposed (pt_spec t) -> is_Some (pt_prepared t !! binding_key b)) /\
      (forall b, b ∈ sx_Source (pt_spec t) -> is_Some (gs_active g !! binding_key b))
  end.

Lemma in_place_same snapshot s s' :
  sh_groups s' !! ms_ScalingGroup snapshot = sh_groups s !! ms_ScalingGroup snapshot ->
  in_place snapshot s -> in_place snapshot s'.
Proof. unfold in_place, group_of. by intros ->. Qed.

Lemma ApplySnapshot_in_place snapshot destination s e s' :
  inv ∅ s -> calm snapshot destination s -> ApplySnapshot library answer snapshot destination s = (e, s') ->
  inv ∅ s' /\ (forall n, n <> ms_ScalingGroup snapshot -> sh_groups s' !! n = sh_groups s !! n) /\
  (e = nil_err -> in_place snapshot s').
Proof.
  intros Hi Hc E. split; [by eapply ApplySnapshot_inv|].
  apply ApplySnapshot_cases in E as [[-> Hp]|(d & -> & [[Hp E]|[Hp E]])].
  - split; [done|]. intros He. unfold in_place. by rewrite (Hp He).
  - destruct (apply_active_spec _ _ _ _ _ _ Hi E) as [_ _ Ho Hok]. split; [done|]. intros He. unfold in_place.
    rewrite Hp. exact (Hok He).
  - destruct (apply_transition_spec _ _ _ _ _ _ Hi Hc E) as (Hi' & Ho & _ & Hok). split; [done|]. intros He.
    destruct (Hok He) as (t & Et & Etr). pose proof Etr as (x & Ex & F1 & F2 & F3 & F4)%TransitionFromSnapshot_fields.
    pose proof (pending_group_of _ s' t ∅ Hi' Et) as [_ _ _ _ P5 P6 _ _].
    assert (Hin : exists t x, gs_transition (group_of (ms_ScalingGroup snapshot) s') = Some t /\ ms_Transition snapshot = Some x /\
      sx_ID (pt_spec t) = tr_ID x /\ sx_ProposedEpoch (pt_spec t) = tr_ToEpoch x /\
      b_BrokerID <$> sx_Source (pt_spec t) = ms_CurrentMembership snapshot /\
      b_BrokerID <$> sx_Proposed (pt_spec t) = ms_ProposedMembership snapshot /\
      (forall b, b ∈ sx_Proposed (pt_spec t) -> is_Some (pt_prepared t !! binding_key b)) /\
      (forall b, b ∈ sx_Source (pt_spec t) -> is_Some (gs_active (group_of (ms_ScalingGroup snapshot) s') !! binding_key b))).
    { exists t, x. split_and!; try done. intros b Hb. apply elem_of_dom. rewrite P6. apply elem_of_keys_of. eauto. }
    unfold in_place. destruct (ms_Phase snapshot); done.
Qed.

(** *** Recorded phases against the shim *)
Record settled_phases sp : Prop := {
  sf_inv : inv ∅ (sp_shim sp);
  sf_idle : forall g s, sp_stage sp !! g = None -> sp_phases sp !! g = Some s ->
    ms_ScalingGroup s = g /\ in_place s (sp_shim sp);
  sf_busy : forall g s, sp_stage sp !! g = Some (Registering s) \/ sp_stage sp !! g = Some (Recording s) ->
    ms_ScalingGroup s = g /\ in_place s (sp_shim sp);
  sf_closing : forall g, sp_stage sp !! g = Some Closing -> sp_phases sp !! g = None;
}.

Lemma subscriber_apply_settled m snapshot s s' r ph st :
  m_Snapshot m = Some snapshot -> calm snapshot (destination_for snapshot) s ->
  subscriber_apply_shim library answer applier m s = (s', r) ->
  settled_phases (mkSprocess s ph st) ->
  settled_phases (mkSprocess s' ph (<[ms_ScalingGroup snapshot := after_shim r]> st)).
Proof.
  intros Hm Hc E [I1 I2 I3 I4]. cbn in *.
  assert (X : inv ∅ s' /\ (forall n, n <> ms_ScalingGroup snapshot -> sh_groups s' !! n = sh_groups s !! n) /\
    (forall x, r = Ok x -> x = snapshot /\ in_place snapshot s')).
  { unfold subscriber_apply_shim in E. rewrite Hm in E.
    destruct (_ || _); [by injection E as <- <-|].
    unfold destination_for in Hc. destruct (sa_Registration applier) as [rg|]; [|by injection E as <- <-].
    destruct (str_empty _); [by injection E as <- <-|].
    destruct (ApplySnapshot _ _ _ _ _) as [err s1] eqn:Ea. injection E as <- <-.
    destruct (ApplySnapshot_in_place _ _ _ _ _ I1 Hc Ea) as (H1 & H2 & H3). split_and!; [done|done|].
    intros x. destruct err as [[]|]; [|done]. destruct (negb _); [done|]. intros [= <-]. auto. }
  destruct X as (H1 & H2 & H3). split; cbn; [done|..].
  - intros g x [Hg Hn]%lookup_insert_None Hx. destruct (I2 g x Hg Hx) as [Eg Hin]. split; [done|].
    eapply in_place_same; [|done]. rewrite Eg. by apply H2.
  - intros g x [[[<- Hr]|[Hn Hg]]%lookup_insert_Some|[[<- Hr]|[Hn Hg]]%lookup_insert_Some].
    + destruct r as [y|]; [|done]. injection Hr as <-. by destruct (H3 y eq_refl) as [-> ?].
    + destruct (I3 g x (or_introl Hg)) as [Eg Hin]. split; [done|]. eapply in_place_same; [|done]. rewrite Eg. by apply H2.
    + by destruct r.
    + destruct (I3 g x (or_intror Hg)) as [Eg Hin]. split; [done|]. eapply in_place_same; [|done]. rewrite Eg. by apply H2.
  - intros g [[<- Hr]|[_ Hg]]%lookup_insert_Some; [by destruct r|by apply I4].
Qed.

Lemma subscriber_close_settled group s s' err ph st :
  st !! group = Some Closing -> Subscriber.FailClosed answer group s = (err, s') ->
  settled_phases (mkSprocess s ph st) ->
  settled_phases (mkSprocess s' ph (match err with Ok _ => delete group st | Err _ => <[group := Failed]> st end)).
Proof.
  intros Hs E [I1 I2 I3 I4]. cbn in *. destruct (FailClosed_spec _ _ _ _ _ E I1) as (H1 & _ & H2 & _).
  set (st' := match err with Ok _ => _ | Err _ => _ end).
  assert (Hst : forall g, g <> group -> st' !! g = st !! g).
  { intros g Hg. subst st'. destruct err; [by rewrite lookup_delete_ne|by rewrite lookup_insert_ne]. }
  assert (Hgr : st' !! group = None \/ st' !! group = Some Failed).
  { subst st'. destruct err; [left; apply lookup_delete_eq|right; apply lookup_insert_eq]. }
  split; cbn; [done|..].
  - intros g x Hg Hx. destruct (decide (g = group)) as [->|Hne]; [by rewrite I4 in Hx|].
    rewrite Hst in Hg by done. destruct (I2 g x Hg Hx) as [Eg Hin]. split; [done|].
    eapply in_place_same; [|done]. rewrite Eg. by apply H2.
  - intros g x Hor. destruct (decide (g = group)) as [->|Hne]; [naive_solver|]. rewrite Hst in Hor by done.
    destruct (I3 g x Hor) as [Eg Hin]. split; [done|]. eapply in_place_same; [|done]. rewrite Eg. by apply H2.
  - intros g Hg. destruct (decide (g = group)) as [->|Hne]; [naive_solver|]. rewrite Hst in Hg by done. by apply I4.
Qed.

Lemma subscriber_settled_step sp sp' : subscriber_step sp sp' -> settled_phases sp -> settled_phases sp'.
Proof.
  intros H0 Hm. destruct H0 as [m snapshot s s' r ph st Hs Hc _ E|group snapshot o q s ph st Hs
    |group snapshot s ph st Hs|group s ph st Hs Hp|group s s' err ph st Hs E].
  1:{ by eapply subscriber_apply_settled. } 4:{ by eapply subscriber_close_settled. }
  all: destruct Hm as [I1 I2 I3 I4]; cbn in *; split; cbn; try done.
  - intros g x [Hg Hn]%lookup_insert_None. by apply I2.
  - intros g x [[[<- Hr]|[Hn Hg]]%lookup_insert_Some|[[<- Hr]|[Hn Hg]]%lookup_insert_Some];
      [by destruct (registration_Publish _ _ _ _)|apply I3; by left| |apply I3; by right].
    destruct (registration_Publish _ _ _ _); [|done]. injection Hr as <-. apply I3. by left.
  - intros g [[<- Hr]|[_ Hg]]%lookup_insert_Some; [by destruct (registration_Publish _ _ _ _)|by apply I4].
  - destruct (I3 group snapshot ltac:(by right)) as [Eg Hin]. unfold phases_Record. rewrite Eg.
    intros g x Hg [[<- <-]|[Hne Hx]]%lookup_insert_Some; [done|]. apply I2; [|done].
    by rewrite lookup_delete_ne in Hg.
  - intros g x Hor. apply I3. rewrite !lookup_delete_Some in Hor. naive_solver.
  - intros g [Hne Hg]%lookup_delete_Some. destruct (I3 group snapshot ltac:(by right)) as [Eg _].
    unfold phases_Record. rewrite Eg, lookup_insert_ne by done. by apply I4.
  - unfold phases_Clear. intros g x [Hg Hn]%lookup_insert_None [_ Hx]%lookup_delete_Some. by apply I2.
  - intros g x Hor. apply I3. rewrite !lookup_insert_Some in Hor. naive_solver.
  - intros g Hg. unfold phases_Clear. destruct (decide (group = g)) as [<-|Hne]; [by rewrite lookup_delete_eq|].
    rewrite lookup_delete_ne by done. apply I4. by rewrite lookup_insert_ne in Hg.
Qed.

Lemma subscriber_settled_steps sp sp' : rtc subscriber_step sp sp' -> settled_phases sp -> settled_phases sp'.
Proof. induction 1; eauto using subscriber_settled_step. Qed.

Lemma ready_reported sp group transition epoch :
  readiness_ready group transition epoch (reports_in sp) = true ->
  exists r e, (CallReport r, e) ∈ trace (sp_shim sp) /\ rd_Ready r = true /\
    readinessKey (rd_Group r) (rd_TransitionID r) (rd_Epoch r) = readinessKey group transition epoch.
Proof.
  unfold readiness_ready, reports_in. destruct (foldr _ _ _ !! _) as [r|] eqn:E; [|done]. intros Hr.
  exists r. revert E. induction (trace (sp_shim sp)) as [|[k e] tr IH]; cbn [foldr]; [by rewrite lookup_empty|].
  cbn [fst]. assert (Hrest : forall e', (CallReport r, e') ∈ tr -> (CallReport r, e') ∈ (k, e) :: tr) by (by right).
  destruct k as [| | | |r']; try (intros (e' & ? & ? & ?)%IH; by eauto).
  unfold readiness_Report. destruct (_ || _); cbn [fst]; [intros (e' & ? & ? & ?)%IH; by eauto|].
  intros [[Ek <-]|[_ (e' & ? & ? & ?)%IH]]%lookup_insert_Some; [exists e; split; [by left|done]|by eauto].
Qed.

(** A recorded transition phase is covered by the shim. *)
Lemma reached_covered sp command :
  settled_phases sp -> sp_stage sp !! ce_Group command = None -> phase_reached (sp_phases sp) command = true ->
  ce_Phase command = CPrepare \/ ce_Phase command = CDrain ->
  let g := group_of (ce_Group command) (sp_shim sp) in
  exists t, gs_transition g = Some t /\ sx_ID (pt_spec t) = ce_TransitionID command /\
    sx_ProposedEpoch (pt_spec t) = ce_Epoch command /\
    (forall b, b ∈ sx_Proposed (pt_spec t) -> is_Some (pt_prepared t !! binding_key b)) /\
    (forall b, b ∈ sx_Source (pt_spec t) -> is_Some (gs_active g !! binding_key b)).
Proof.
  intros Hsp Hst Hr Hph. cbv zeta. unfold phase_reached in Hr.
  destruct (sp_phases _ !! ce_Group command) as [s|] eqn:Es; [|done].
  destruct (sf_idle _ Hsp _ _ Hst Es) as [Eg Hin]. unfold snapshotMatchesCommand in Hr.
  apply andb_true_iff in Hr as [[_ Hp%bool_decide_eq_true]%andb_true_iff Ht].
  unfold in_place in Hin. rewrite Hp, Eg in Hin. rewrite bool_decide_eq_false_2 in Ht.
  2:{ intros Ha. rewrite Ha in Hph. by destruct Hph. }
  destruct Hph as [Hp'|Hp']; rewrite Hp' in Hin; destruct Hin as (t & x & Et & Ex & F1 & F2 & _ & _ & F3 & F4);
    rewrite Ex in Ht; apply andb_true_iff in Ht as [T1%str_eqb_true T2%Z.eqb_eq]; exists t;
    split_and!; try done; congruence.
Qed.

(** When a subscriber executes a PREPARE or DRAIN command with success, the shim
    had reported readiness for the command's transition and epoch, and unless
    the group's applier was in the middle of another call or had failed when the
    phase was read, the shim then had this very transition pending with a
    consumer prepared for every proposed broker and one active for every source. *)
Theorem executed_prepare_means_covered (config : Subscriber.Config P) shim (look : nat -> Moment sprocess)
    fuel command n k :
  Subscriber.New config (mkWorld 0 []) = Ok shim -> mo_state (look O) = mkSprocess shim ∅ ∅ ->
  (forall j, rtc subscriber_step (mo_state (look j)) (mo_state (look (j + 1)%nat))) ->
  ce_Phase command = CPrepare \/ ce_Phase command = CDrain ->
  subscriber_Execute reports_in sp_phases look true fuel command n = Some (nil_err, k) ->
  exists i, (n <= i)%nat /\ k = (i + 2)%nat /\
    (exists r e, (CallReport r, e) ∈ trace (sp_shim (mo_state (look (i + 1)%nat))) /\ rd_Ready r = true /\
       readinessKey (rd_Group r) (rd_TransitionID r) (rd_Epoch r) =
         readinessKey (ce_Group command) (ce_TransitionID command) (ce_Epoch command)) /\
    (sp_stage (mo_state (look i)) !! ce_Group command = None ->
     let g := group_of (ce_Group command) (sp_shim (mo_state (look i))) in
     exists t, gs_transition g = Some t /\ sx_ID (pt_spec t) = ce_TransitionID command /\
       sx_ProposedEpoch (pt_spec t) = ce_Epoch command /\
       (forall b, b ∈ sx_Proposed (pt_spec t) -> is_Some (pt_prepared t !! binding_key b)) /\
       (forall b, b ∈ sx_Source (pt_spec t) -> is_Some (gs_active g !! binding_key b))).
Proof.
  intros Hnew Hl Hrun Hph. unfold subscriber_Execute. cbn [negb].
  destruct (phases_Wait _ _ _ _ _) as [[[[]|e] w]|] eqn:Ew; try done.
  apply phases_Wait_ok in Ew as (i & Hi & -> & Hr).
  assert (Hsp : settled_phases (mo_state (look i))).
  { assert (H0 : rtc subscriber_step (mo_state (look O)) (mo_state (look i))).
    { clear -Hrun. induction i as [|i IH]; [done|]. etrans; [exact IH|]. specialize (Hrun i). by rewrite Nat.add_1_r in Hrun. }
    eapply subscriber_settled_steps; [exact H0|]. rewrite Hl. split; cbn; [by eapply New_inv|naive_solver..]. }
  assert (Hready : forall x, Some (fail_if (negb (readiness_ready (ce_Group command) (ce_TransitionID command) (ce_Epoch command)
    (reports_in (mo_state (look (i + 1)%nat))))) x, (i + 1 + 1)%nat) = Some (nil_err, k) ->
    k = (i + 2)%nat /\ readiness_ready (ce_Group command) (ce_TransitionID command) (ce_Epoch command)
      (reports_in (mo_state (look (i + 1)%nat))) = true).
  { intros x [= Hf%fail_if_ok <-]. split; [lia|by apply negb_false_iff]. }
  intros Hx. assert (k = (i + 2)%nat /\ readiness_ready (ce_Group command) (ce_TransitionID command) (ce_Epoch command)
      (reports_in (mo_state (look (i + 1)%nat))) = true) as [-> Hrd].
  { destruct Hph as [Hp|Hp]; rewrite Hp in Hx; by eapply Hready. }
  exists i. split_and!; [done|done|by apply ready_reported|]. intros Hst. by apply reached_covered.
Qed.
End SubscriberSide.
