(* ===== verification/ParticipantScenario.v ===== *)
(** * A publisher pauses, a subscriber prepares

    The publisher process of a group that grows: two messages are with the broker
    when the PAUSED snapshot arrives; the executor of the PAUSED command finds
    them unresolved, waits, and returns when they are durable. *)

From S2P Require Import Prelude Float64 Policy Heap Customer Routing Snapshot Messages Naming Outbox OutboxIndex OutboxMemory OutboxStore OutboxComplete OutboxLoad OutboxTheorems OutboxScenario.
From S2P Require Import Publisher PublisherInv PublisherRun PublisherTheorems PublisherScenario Async AsyncRun AsyncInv AsyncSteps AsyncTheorems AsyncScenario.
From S2P Require Import Lane Subscriber SubscriberInv SubscriberClose SubscriberTheorems Wire Config Broker0 Participant ParticipantTheorems.
From Stdlib Require Import ZArith Lia String.
From stdpp Require Import base gmap strings numbers relations option list.
#[local] Open Scope Z_scope.
#[local] Open Scope string_scope.
#[local] Existing Instance demo_urls.

Definition demo_registration : ParticipantRegistration := mkParticipantRegistration "pub-1" RolePublisher "" ∅ true.
Definition demo_applier : PublisherSnapshotApplier := mkPublisherSnapshotApplier true (Some demo_registration) true.
Definition demo_message (s : MembershipSnapshot) : Message :=
  mkMessage KindMembershipSnapshot "op" (ms_ScalingGroup s) (Some s) None None None None.

Abbreviation demo_process := (@process Disk).
Abbreviation demo_step := (publisher_step demo_library demo_encode demo_authority demo_applier).

(** ** Moves of the process *)
Inductive pmove := PRun (m : move) | PApply (s : MembershipSnapshot) | PRegister (group : string) | PRecord (group : string).

Definition pplay (m : pmove) (pc : demo_process) : option demo_process :=
  let '(mkProcess c ph st) := pc in
  match m with
  | PRun m =>
      c' ← play m c;
      if bool_decide (p_membership (publisher_of (fst c')) = p_membership (publisher_of (fst c)))
      then Some (mkProcess c' ph st) else None
  | PApply s =>
      if negb (holds_lock (sy_dispatch (fst c))) && bool_decide (st !! ms_ScalingGroup s = None) &&
         bool_decide (demo_authority (ms_ScalingGroup s) (ms_Revision s) = Some s)
      then let x := publisher_apply_shim demo_library demo_applier 30 (demo_message s) (publisher_of (fst c)) in
           Some (mkProcess (with_publisher (fst x) (fst c), snd c) ph (<[ms_ScalingGroup s := after_shim (snd x)]> st))
      else None
  | PRegister group =>
      match st !! group with
      | Some (Registering s) =>
          Some (mkProcess c ph (<[group := after_registration s
            (registration_Publish (pa_Registration demo_applier) 40 (fun _ => nil_err) s)]> st))
      | _ => None
      end
  | PRecord group =>
      match st !! group with
      | Some (Recording s) => Some (mkProcess c (phases_Record s ph) (delete group st))
      | _ => None
      end
  end.

Lemma pplay_step m pc pc' : pplay m pc = Some pc' -> demo_step pc pc'.
Proof.
  destruct pc as [c ph st]. destruct m as [m|s|group|group]; cbn [pplay].
  - intros (c' & Hc & H)%bind_Some. case_bool_decide; [|done]. injection H as <-.
    apply pb_run; [by eapply play_step|done].
  - destruct c as [sys used]. cbn [fst snd]. destruct (_ && _) eqn:E; [|done]. intros [= <-]. to_prop.
    eapply (pb_apply _ _ _ _ 30 (demo_message s) s); [done|done|done|by left|apply surjective_pairing].
  - destruct (st !! group) as [[s|s| |]|] eqn:E; try done. intros [= <-]. by apply (pb_register _ _ _ demo_applier group s 40 (fun _ => nil_err)).
  - destruct (st !! group) as [[s|s| |]|] eqn:E; try done. intros [= <-]. by apply pb_record.
Qed.

Definition pplays (l : list pmove) (pc : demo_process) : option demo_process := foldl (fun o m => o ≫= pplay m) (Some pc) l.
Lemma pplays_steps (l : list pmove) : forall pc pc', pplays l pc = Some pc' -> rtc demo_step pc pc'.
Proof.
  induction l as [|m l IH]; intros pc pc' H; [injection H as <-; apply rtc_refl|]. unfold pplays in H. cbn in H.
  destruct (pplay m pc) as [pc1|] eqn:E.
  - eapply rtc_l; [by apply (pplay_step m)|by apply IH].
  - exfalso. clear -H. induction l; cbn in H; [done|auto].
Qed.

(** ** The run *)
Definition process0 : demo_process := mkProcess start ∅ ∅.
Definition until_recorded : list pmove :=
  (PRun <$> [MMeasure 10; MSelect; MMark; MRegister; MSubmit SubmitFuture; MSubmit SubmitFuture; MSubmitted; MIdle]) ++
  [PApply paused; PRegister "orders"; PRecord "orders"].
Definition until_settled : list pmove := PRun <$> (MResolve acknowledged :: settling_moves).
Definition process1 : demo_process := default process0 (pplays until_recorded process0).
Definition process2 : demo_process := default process0 (pplays until_settled process1).
Definition process3 : demo_process := default process0 (pplay (PRun (MTake [message "e9" "x"])) process2).

Lemma run_defined l pc :
  bool_decide (is_Some (pplays l pc)) = true -> rtc demo_step pc (default process0 (pplays l pc)).
Proof. intros [pc' E]%bool_decide_eq_true. rewrite E. by apply (pplays_steps l). Qed.
Lemma process1_run : rtc demo_step process0 process1.
Proof. apply run_defined. vm_compute. reflexivity. Qed.
Lemma process2_run : rtc demo_step process1 process2.
Proof. apply run_defined. vm_compute. reflexivity. Qed.
Lemma process3_step : stays_paused demo_library demo_encode demo_authority demo_applier "orders" process2 process3.
Proof.
  split.
  - unfold process3. assert (E : bool_decide (is_Some (pplay (PRun (MTake [message "e9" "x"])) process2)) = true) by (vm_compute; reflexivity).
    apply bool_decide_eq_true in E as [pc E]. rewrite E. by eapply pplay_step.
  - exists paused. split; vm_compute; reflexivity.
Qed.

(** The executor looks at the process from its first to its twelfth moment. *)
Definition stages {A} (x0 x1 x2 x3 : A) (n : nat) : A :=
  if bool_decide (n = 0)%nat then x0 else if bool_decide (n <= 8)%nat then x1
  else if bool_decide (n <= 11)%nat then x2 else x3.
Lemma stages_run {A} (R : A -> A -> Prop) x0 x1 x2 x3 j :
  rtc R x0 x1 -> rtc R x1 x2 -> rtc R x2 x3 -> rtc R (stages x0 x1 x2 x3 j) (stages x0 x1 x2 x3 (j + 1)).
Proof. intros H0 H1 H2. unfold stages. repeat case_bool_decide; try lia; done. Qed.
Lemma stages_end {A} (R : A -> A -> Prop) x0 x1 x2 x3 j :
  (9 <= j)%nat -> rtc R x2 x3 -> rtc R (stages x0 x1 x2 x3 j) (stages x0 x1 x2 x3 (j + 1)).
Proof. intros Hj H. unfold stages. repeat case_bool_decide; try lia; done. Qed.

Definition timeline (n : nat) : Moment demo_process :=
  mkMoment (stages process0 process1 process2 process3 n) 50 WakeTimer.

Lemma timeline_run j : rtc demo_step (mo_state (timeline j)) (mo_state (timeline (j + 1))).
Proof. apply stages_run; [exact process1_run|exact process2_run|apply rtc_once, process3_step]. Qed.
Lemma timeline_paused j : (9 <= j)%nat ->
  rtc (stays_paused demo_library demo_encode demo_authority demo_applier "orders")
    (mo_state (timeline j)) (mo_state (timeline (j + 1))).
Proof. intros Hj. by apply stages_end; [|apply rtc_once, process3_step]. Qed.

Definition pause_command : CommandEnvelope := {|
  ce_Version := 1; ce_MessageID := "orders/t-1/forward/command/PAUSE/publisher/pub-1"; ce_Namespace := "acme"; ce_Group := "orders";
  ce_TransitionID := "t-1"; ce_Epoch := 2; ce_Phase := CPaused; ce_Participant := "pub-1"; ce_Role := RolePublisher;
  ce_IssuedAt := 10; ce_Deadline := 1000 |}.

Lemma pause_executed :
  publisher_Execute dispatcher_in pc_phases timeline true 3 pause_command 1 = Some (nil_err, 12%nat).
Proof. vm_compute. reflexivity. Qed.

(** While the attempts were unresolved the status was not quiescent. *)
Lemma executed_pause_means_quiet_witness :
  ss_Quiescent (status_at dispatcher_in timeline "orders" 5) = false /\
  (let s := fst (pc_sys process3) in
   (forall a, a ∈ carried s -> exists q, ad_pending (sy_d s) !! pa_EventID a = Some q /\ pd_group q <> "orders") /\
   (forall r, r ∈ recs (p_outbox (publisher_of s)) -> r_Group r = "orders" ->
      r_State r <> StateInEventsA /\ r_State r <> StateAckUncertain)).
Proof.
  split; [vm_compute; reflexivity|].
  destruct (executed_pause_means_quiet demo_library demo_encode demo_authority demo_applier async_demo (start_on prepared)
    prepared_ids timeline 3 pause_command 1 12 prepared_started eq_refl timeline_run eq_refl pause_executed)
    as (a & b & i & _ & _ & Hk & _ & _ & Hq).
  assert (i = 9%nat) as -> by lia.
  refine (Hq _ 12%nat (le_n _) _); [vm_compute; reflexivity|].
  intros j Hj. apply timeline_paused. lia.
Defined.

(** ** A subscriber prepares *)
#[local] Instance in_order : RangeOrder := {| map_range _ _ m := map_to_list m; map_range_perm _ _ m := reflexivity _ |}.

Definition sub_registration : ParticipantRegistration := mkParticipantRegistration "sub-1" RoleSubscriber "all" ∅ true.
Definition sub_applier : SubscriberSnapshotApplier := mkSubscriberSnapshotApplier true (Some sub_registration) true.
Definition sub_config : Subscriber.Config string :=
  Subscriber.mkConfig "sub-1" (Some demo_library) true true true {["orders" := Lane.mkContract "customer-v1" "v1"]}.
Definition no_shim : Shim := mkShim "" ∅ ∅ ∅ (mkWorld 0 []).
Definition sub_shim : Shim := match Subscriber.New sub_config (mkWorld 0 []) with Ok s => s | Err _ => no_shim end.
(** Every call of the transport succeeds. *)
Definition calls_succeed (n : nat) : gerr := nil_err.

Abbreviation sub_step := (subscriber_step demo_library calls_succeed sub_applier).

(** [Apply] with a registration that is published. *)
Definition applied (snapshot : MembershipSnapshot) (sp : sprocess) : sprocess :=
  let g := ms_ScalingGroup snapshot in
  let x := subscriber_apply_shim demo_library calls_succeed sub_applier (demo_message snapshot) (sp_shim sp) in
  mkSprocess (fst x) (phases_Record snapshot (sp_phases sp))
    (delete g (<[g := Recording snapshot]> (<[g := Registering snapshot]> (sp_stage sp)))).

Lemma applied_run snapshot sp :
  calm snapshot (destination_for sub_applier snapshot) (sp_shim sp) ->
  sp_stage sp !! ms_ScalingGroup snapshot = None ->
  snd (subscriber_apply_shim demo_library calls_succeed sub_applier (demo_message snapshot) (sp_shim sp)) = Ok snapshot ->
  registration_Publish (Some sub_registration) 40 (fun _ => nil_err) snapshot = nil_err ->
  rtc sub_step sp (applied snapshot sp).
Proof.
  intros Hc Hst Hr Hp. destruct sp as [s ph st]. unfold applied. cbn [sp_shim sp_phases sp_stage] in *.
  destruct (subscriber_apply_shim _ _ _ _ _) as [s' r] eqn:E. cbn [fst snd] in *. subst r.
  eapply rtc_l; [eapply (sb_apply _ _ _ (demo_message snapshot) snapshot); [done|exact Hc|by left|exact E]|].
  eapply rtc_l; [apply (sb_register _ _ _ (ms_ScalingGroup snapshot) snapshot 40 (fun _ => nil_err)); by rewrite lookup_insert_eq|].
  cbn [sa_Registration sub_applier after_shim].
  rewrite Hp. cbn [after_registration]. apply rtc_once, (sb_record _ _ _ (ms_ScalingGroup snapshot)).
  by rewrite lookup_insert_eq.
Qed.

Definition sproc0 : sprocess := mkSprocess sub_shim ∅ ∅.
Definition sproc1 : sprocess := applied one_broker sproc0.
Definition sproc2 : sprocess := applied preparing sproc1.

Lemma sproc1_run : rtc sub_step sproc0 sproc1.
Proof. apply applied_run; [by apply calm_active|reflexivity|vm_compute; reflexivity|vm_compute; reflexivity]. Qed.
Lemma sproc2_run : rtc sub_step sproc1 sproc2.
Proof. apply applied_run; [apply calm_idle; vm_compute; reflexivity|vm_compute; reflexivity|vm_compute; reflexivity|vm_compute; reflexivity]. Qed.

Definition prepare_command : CommandEnvelope := {|
  ce_Version := 1; ce_MessageID := "orders/t-1/forward/command/PREPARE/subscriber/sub-1"; ce_Namespace := "acme"; ce_Group := "orders";
  ce_TransitionID := "t-1"; ce_Epoch := 2; ce_Phase := CPrepare; ce_Participant := "sub-1"; ce_Role := RoleSubscriber;
  ce_IssuedAt := 10; ce_Deadline := 1000 |}.

(** The command is there before its snapshot: two rounds of waiting. *)
Definition sub_timeline (n : nat) : Moment sprocess :=
  mkMoment (stages sproc0 sproc1 sproc2 sproc2 (n * 3)) 50 WakeChanged.
Lemma sub_timeline_run j : rtc sub_step (mo_state (sub_timeline j)) (mo_state (sub_timeline (j + 1))).
Proof.
  unfold sub_timeline, mo_state. replace ((j + 1) * 3)%nat with (j * 3 + 1 + 1 + 1)%nat by lia.
  assert (H : forall n, rtc sub_step (stages sproc0 sproc1 sproc2 sproc2 n) (stages sproc0 sproc1 sproc2 sproc2 (n + 1))).
  { intros n. apply stages_run; [exact sproc1_run|exact sproc2_run|apply rtc_refl]. }
  etrans; [apply H|]. etrans; [apply H|]. apply H.
Qed.
Lemma prepare_executed :
  subscriber_Execute reports_in sp_phases sub_timeline true 5 prepare_command 0 = Some (nil_err, 6%nat).
Proof. vm_compute. reflexivity. Qed.

Lemma executed_prepare_means_covered_witness :
  exists t, gs_transition (group_of "orders" (sp_shim sproc2)) = Some t /\ sx_ID (pt_spec t) = "t-1" /\
    sx_ProposedEpoch (pt_spec t) = 2 /\
    (forall b, b ∈ sx_Proposed (pt_spec t) -> is_Some (pt_prepared t !! binding_key b)) /\
    (forall b, b ∈ sx_Source (pt_spec t) -> is_Some (gs_active (group_of "orders" (sp_shim sproc2)) !! binding_key b)).
Proof.
  destruct (executed_prepare_means_covered demo_library calls_succeed sub_applier sub_config sub_shim sub_timeline 5
    prepare_command 0 6 eq_refl eq_refl sub_timeline_run (or_introl eq_refl) prepare_executed) as (i & _ & Hk & _ & H).
  assert (i = 4%nat) as -> by lia. apply H. vm_compute. reflexivity.
Defined.
